(* ===== verification/_CoqProject ===== *)
-Q . S2P
Prelude.v
State.v
BTree.v
Bytes.v
Ids.v
Utf8.v
Scb1Core.v
Scb1Cursor.v
Scb1Schema.v
Records.v
Schema.v
SchemaExact.v
StateRoot.v
StateRootExact.v
StateRootBuild.v
Ssmc.v
Types.v
TypeWalk.v
TypeEnv.v
ConstCheck.v
CfgGraph.v
CfgPlain.v
CfgDominators.v
Cfg.v
CfgSafety.v
ValueOrder.v
TextRows.v
EffectClosure.v
Effects.v
Contracts.v
ContractsSound.v
ContractsPlan.v
ContractsExact.v
Repr.v
Fingerprint.v
FingerprintRename.v
ConstEncoding.v
ConstWire.v
ConstInjective.v
ConstExact.v
MutCodec.v
MutCodecLaws.v
MutConst.v
MutConstLaws.v
MutValue.v
MutValueLaws.v
VmInt.v
VmFloat.v
VmText.v
VmBridge.v
VmJudge.v
VmExec.v
VmTyped.v
VmMap.v
VmHost.v
VmSound.v
VmAdmission.v
VmBytecode.v
VmLower.v
VmLowering.v
VmLowered.v
VmConstants.v
VmValue.v
VmOwned.v
VmOwnedSound.v
VmOwnedMap.v
VmLiveness.v
VmRun.v
VmRunBounds.v
VmInput.v
VmInputSound.v
VmFrame.v
VmFrameStep.v
VmFrameCall.v
ContractsVm.v
VmRunSafe.v
