(* ===== verification/Prelude.v ===== *)
(** * Sley: a verification development of the semantic kernel

    Sley is a language kernel whose programs are graphs of typed entities
    named by 32-byte identifiers, written in a canonical binary form and
    checked before anything is stored or run.  This development models the
    path every program takes into the system:

      bytes --(SCB1 decoder)--> records of the semantic model (SSMC)
            --(type checker)--> well-formed types and constants
            --(CFG validator)--> function graphs whose value uses are safe
            --(effect validator)--> programs whose declared effects are true
            --(lowering)--> bytecode of a function and its callees
            --(input validation)--> values of the parameter types
            --(interpreter)--> values of the judged types, or a termination

    and the two records that say what such bytes are read under: the schema epoch,
    which fixes the contracts of stored records, and the state root, which names the
    entities of a program.

    ** Files and the code they model

    - [Prelude], [BTree], [Bytes], [Utf8]: results with the [?] operator, loops,
      machine integers ([usize] is 64 bits), sorting, ordered iteration of
      [BTreeMap] and [BTreeSet], big-endian numbers, UTF-8 validity.
    - [Ids] (crates/sley-id/src/lib.rs): the digest domains, the preimages of
      identifiers, their order.  Identifiers are byte strings here; the other
      files take the number they spell, which [id_order_is_byte_order]
      justifies: every use there is equality or order.
    - [Scb1Core], [Scb1Cursor], [Scb1Schema] (crates/sley-scb1/src/lib.rs): the
      encoders, the bounded reader as a state monad over [Reader], the value
      cursor, the schema-directed decoder [decode_schema] and the standalone
      envelope.  The interface between the layers is [Strict] (a read accepts
      exactly the bytes of a relation) and the class [StrictCodec] (a read and
      an encoder are inverse on a range of values).
    - [Records]: what the decoders of sley-schema and sley-state-root share: the fields
      of a record and how they are taken by tag ([Takes]), and counted loops.
    - [Schema] (crates/sley-schema/src/lib.rs): epoch records and their descriptors,
      their canonical bytes and decoders, bootstrap preimages, the registry of
      epochs, the checks of a migration.  Preserved decoders and verifiers are the
      classes [EpochDecoder] and [EquivalenceVerifier].  [SchemaExact]: what they accept.
    - [StateRoot] (crates/sley-state-root/src/lib.rs): the record of a state root, its
      payload, envelope and digest, the builder, the import, and the instance of
      [EpochDecoder] its registry holds.  [StateRootExact], [StateRootBuild]: what the
      import and the builder accept, and what a root commits to.
    - [Ssmc] (crates/sley-ssmc/src/lib.rs): the records and tagged unions of the
      semantic model with their wire tags.  The parts that are keyed by
      identity refer to each other by identifier, as in the code.
    - [Types], [TypeWalk], [TypeEnv], [ConstCheck] (crates/sley-check/src/lib.rs):
      structural well-formedness and substitution; the two memoised walks with
      their budget, as a state monad over [TypeWalk]; the environment and its
      cycle search; the judgement of constants.
    - [CfgGraph], [Cfg] (crates/sley-check/src/cfg.rs): reachability and
      dominators over block positions; the validator
      [validate_function_graph].  An index out of range of a vector, a bit set or a
      map is the outcome [Panicked].  [CfgPlain] has the same algorithms on total
      functions and what they compute; [CfgDominators] shows that the two agree on
      the graphs the validator builds, where no index is out of range.
    - [CfgSafety]: a machine that runs a function on types, and what the
      validator guarantees about it.
    - [ValueOrder], [TextRows], [EffectClosure], [Effects]
      (crates/sley-check/src/effects.rs, text_rows.rs): the order of constants,
      the table of native text adapters, the closure rounds with their work
      counter, and the validator of effect programs.
    - [Contracts] (crates/sley-check/src/contracts.rs): the validator of contracts and
      tests, on top of that of effects.  [ContractsSound] (its index and its first
      stages), [ContractsPlan] (assertions, tests, selection) and [ContractsExact] say
      what it accepts; [ContractsVm] relates it to the judgement of the lowering.
    - [Fingerprint] (crates/sley-ssmc/src/fingerprint.rs): the append-only
      encoder with its work account, value hashes, and the fingerprints of type
      definitions and functions.
    - [ConstEncoding] (crates/sley-mutate/src/codec/const_encoding.rs and the
      entry points of codec.rs): the encoder of constants, which measures first
      and then emits chunks from a cursor; [ConstWire], [ConstInjective] and
      [ConstExact] relate it to a recursive encoding and a recursive check.  [Repr] says which values of the model
      a Rust value can be (integers of their width, 32-byte identifiers).
    - [MutCodec] (crates/sley-mutate/src/codec.rs): the trait of the mutation codec as a
      record of an encoder and a decoder, the budget of a decoder as a state, and the
      codecs of scalars, lists, options, records and unions as functions on codecs.
      [MutCodecLaws]: what a codec promises ([LawfulAt]), with an instance for each of
      these functions.  [MutConst], [MutConstLaws]: types, constants, sets of
      identifiers.  [MutValue] (value_generated.rs, codec.rs), [MutValueLaws]: the bodies
      of the 18 kinds of entities and what they hold.
    - [VmInt], [VmFloat], [VmText], [VmBridge] (crates/sley-vm/src/extended.rs,
      text.rs, raw_hash.rs): the integer, float, text and host-bridge families
      of the virtual machine, with the fuel their host calls cost.
    - [VmJudge], [VmExec] (crates/sley-vm/src/extended.rs): every arm of
      [judge_extended_operation] and [execute_extended_instruction], grouped by
      family, and the static admission of constants.
    - [VmTyped], [VmMap], [VmHost], [VmSound], [VmAdmission]: the typing of
      values at run time, the finite maps that map values stand for, and what
      judgement, execution and admission have to do with each other.
    - [FingerprintRename]: copies of a function under other local names.
    - [State]: the state and error monad of the lowering and the interpreter.
    - [VmBytecode] (crates/sley-vm/src/lib.rs): bytecode, its canonical bytes, the
      key and the preimage of the lowering cache.  [VmLower] (lower.rs): register
      numbering, the per-function judgement, emission, the table of callees with
      its worklist, the limits.  [VmLowering], [VmLowered]: what lowered code has to
      do with its function.  [VmConstants]: what lowering reads of constants.
    - [VmValue], [VmOwned] (crates/sley-vm/src/execute/owned.rs, execute.rs): values
      of registers with their units and views, and the operations that may reuse
      their operands' storage.  [VmOwnedSound], [VmOwnedMap] relate each of them to
      the reference operation of [VmExec].
    - [VmLiveness] (execute/liveness.rs): the pass that marks the last reads.
    - [VmRun] (execute.rs): frames, calls, terminators and the loop of the
      interpreter, one constructor of [Halt] per way an action ends.
      [VmRunBounds]: its budgets.
    - [VmInput] (execute.rs): the validation of inputs in both forms, observations,
      [execute_core] and [execute_function].  [VmInputSound]: what they guarantee.
    - [VmFrame], [VmFrameStep], [VmFrameCall], [VmRunSafe]: a frame of the interpreter
      against the run on types of [CfgSafety] (each register that may still be read
      holds a value of its type), for edges, instructions, calls, and whole runs.

    ** What the theorems show

    - Encoding: each primitive read accepts exactly the canonical bytes of its
      values (the instances of [StrictCodec], [read_uvar_exact]); the schema decoder accepts
      exactly the canonical encodings ([decode_payload_exact_canonical]); the
      standalone decoder accepts exactly what the encoder writes
      ([standalone_fixture_exact]); the bytes of a map do not depend on the
      order of its entries ([encode_map_permutation]).
    - Identifiers: [domain_separation], [id_order_is_byte_order].
    - Epochs: the importer of epochs accepts exactly the preimages of valid records
      ([import_bootstrap_preimage_exact]); [migration_accepted_exact] says what a
      migration needs.
    - State roots: [import_state_root_exact] says which bytes are the stored bytes of a
      root; [build_exact] says when the builder succeeds, and that its result is
      imported as it is; [build_order_independent]; [recompute_root_commits] says that
      what is hashed determines everything but the order of the bindings.
    - Types: [check_type_inner_iff] and [substitute_well_formed];
      [memoised_walks_agree] relates the memoised walks to plain recursions and
      [traits_characterised] says what the traits mean;
      [reject_definition_cycles_exact] and [TypeEnvironment_new_ok] are the
      invariant of an environment; [check_constant_exact] relates the constant
      checker to a typing judgement.
    - Control flow: [compute_reachability_exact] and
      [compute_dominators_exact] relate the two algorithms to paths in the
      graph, [compute_dominators_terminates] says that the rounds of the second end by
      themselves; [accepted_function_is_safe], with
      [entry_parameters_accepted] for the case it excludes.
    - Effects: [accepted_effects_exact] says that declared effects are those
      the operations of a program can perform, through calls; under it,
      [compute_closures_exact] and [compute_closures_terminates] about the
      rounds; [compare_const_values_total] about the order of constants.
    - Contracts: [contract_program_exact] says, declaratively, what the validator of
      contracts accepts and what it reports; [contract_work_bounded] that its limit on
      work is never met, [contract_validator_never_panics] that none of the three
      validators panics, and [accepted_assertions_judged] that of the assertions it
      accepted the lowering accepts those without local cells, and no others.
    - Constants on the wire: [encode_const_value_exact] says that the encoder is the
      recursive check and encoding, errors included; [measure_value_exact],
      [encode_const_value_injective]; [decode_const_value_exact] and
      [entity_body_exact] say that the decoders of constants and of bodies accept
      exactly what the encoders write, within the budget of a decoder.
    - Fingerprints: [fingerprint_function_renaming].
    - The machine: [judged_operation_is_safe] says that an operation the lowering
      judged runs without a fault and keeps registers and cells typed;
      [deep_map_key_faults] is the exception it names, with the depth at which it
      begins, and
      [referenced_constants_typed] discharges what it asks of constants.  Under
      it, by family, [checked_integer_exact], [float_results_canonical],
      [slice_text_exact] and [map_operations_refine].
    - Lowering: [lowered_code_typed] says that every instruction of a lowered program
      is an operation of its function, judged, in the registers of the values it
      names; [callees_are_the_calls] says which functions the table holds;
      [judgement_agrees] and [lowering_bounds] are about its order and its limits;
      [lowering_checks_entry_constants] says which constants it looks at, which are not
      those of callees; a cache key's preimage
      names one lowering ([cache_key_preimage_injective]).
    - The interpreter: [liveness_sound] says that a register marked dead is not read
      before it is written; under it [owned_execute_agrees] lets the operations that
      reuse storage stand for the reference ones; [run_ends_within_limits] bounds
      the turns and the counters by the limits.
    - The whole path: [accepted_program_is_safe] puts the validator, the judgement, the
      lowering, liveness, ownership and the validation of inputs together: a run of a
      lowered program on validated inputs ends with a value of the result type, a trap,
      a limit or a cancellation, and never with an internal fault, but for two
      exceptions it names.  What it asks of a request beyond that is the record
      [program_ok]: what the validators before lowering establish, and that no entry
      block has parameters, which none of them checks and without which a run can fault.
    - Inputs and observations: [validated_inputs_typed], [loaded_inputs_agree],
      [instantiates_to_exact],
      [observation_preimage_injective], [execute_function_reports].

    ** Fuel

    Recursion that is not structural has fuel.  The walks over types and
    definitions start with [walk_fuel], the depth limit of the code plus one,
    and the depth check fails before the fuel does.  [read_uvar_loop] gets as
    many turns as the code's shift limit allows; [decode_schema] as many levels
    as the nesting limit; [compute_reachability] one turn per block, which
    [compute_reachability_exact] shows is enough; the dominator rounds are the
    4096 of the code, and [compute_dominators_terminates] shows that no more rounds
    than blocks are ever needed.  The closure rounds have the 4096 of the code too, and
    [compute_closures_terminates] shows that fewer rounds than functions do.
    The passes of the constant encoder get [depth_fuel], one more than the
    levels the depth check leaves, and their chunk loops as many turns as the
    reference encoding has chunks and bytes; [encode_const_value_exact] holds of
    every value, so neither runs out.  The codecs of types and constants get
    as many levels as the nesting limit, and at the last one the check of the depth
    fails first ([decode_const_value_exact] has no hypothesis either).  The worklist
    of callees gets one turn more than there are functions, binary searches one more than there are entries,
    the liveness rounds one more than there are blocks ([liveness_sound] needs no
    more), and the walks over values as many as the value has nodes.  Every turn of
    the interpreter spends fuel, so [max_fuel] turns and one are enough for the
    loop: [run_ends_within_limits] says that it ends.

    ** What is a parameter

    BLAKE3 (crate blake3) is the function [blake3] of [Ids] and of the
    envelope, SHA-256 (crate sha2) the function [sha256] of [VmBridge]; NFC
    stability of labels (crate unicode-normalization) is the predicate
    [nfc_stable] of the schema decoder.  The only hypothesis is that digests
    have 32 bytes, in [judged_operation_is_safe], [standalone_fixture_exact] and the
    theorems about state roots.  Whether a value of a register is
    the only owner of its storage (the reference count of an [Arc]) is the function
    [sole] of [VmOwned]; the theorems hold for every answer it may give.  The sizes of
    types in memory, which the compiler chooses and decoders charge to their budget,
    are the class [RustLayout].  The float operations of the hardware are those of IEEE 754 as the Standard Library's [SpecFloat] states
    them, with the fused multiply-add rounded once.

    ** What is not modelled

    Of the virtual machine, the plan for scalar functions (execute/scalar.rs, an
    optimisation of the same loop), the execution of packages and their image
    (exec_package.rs, bootstrap.rs) and the host ABI.  Of the mutation crate, the
    codecs of field values, operations and candidates, and the application of
    mutations.  The
    layers above (transactions, policy, queries, comparison, merge and exchange of
    repositories, protocol and sessions) consume the roots and programs modelled
    here; they are several times larger and are left out.  File-system and process
    I/O, the command line, the JSON bridge, adapters, the agent's text views and the
    test crates hold no logic of the kernel.  [Display] and [Error] impls are
    formatting only, and the text of the epoch-1 manifest is data. *)

From Stdlib Require Export ZArith NArith Lia ZifyBool.
From Stdlib Require Export Strings.Byte.
From stdpp Require Export base list numbers gmap sorting countable option.
From stdpp Require Export relations.

(** ** Results

    Rust's [Result<T, E>] with the [?] operator as monadic bind. *)

Inductive result (E A : Type) : Type :=
| Ok (a : A)
| Err (e : E).
Arguments Ok {E A} a.
Arguments Err {E A} e.

#[global] Instance result_ret E : MRet (result E) := fun A a => Ok a.
#[global] Instance result_bind E : MBind (result E) :=
  fun A B f m => match m with Ok a => f a | Err e => Err e end.
#[global] Instance result_fmap E : FMap (result E) :=
  fun A B f m => match m with Ok a => Ok (f a) | Err e => Err e end.

#[global] Instance result_eq_dec `{EqDecision E, EqDecision A} : EqDecision (result E A).
Proof. solve_decision. Defined.

Definition is_ok {E A} (m : result E A) : bool :=
  match m with Ok _ => true | Err _ => false end.

(** [ensure b e] is [if !b { return Err(e) }]. *)
Definition ensure {E} (b : bool) (e : E) : result E unit :=
  if b then Ok tt else Err e.

(** [ok_or e o] is [o.ok_or(e)]. *)
Definition ok_or {E A} (e : E) (o : option A) : result E A :=
  match o with Some a => Ok a | None => Err e end.

(** [map_err f m] converts the error, as [?] does through [From]. *)
Definition map_err {E E' A} (f : E -> E') (m : result E A) : result E' A :=
  match m with Ok a => Ok a | Err e => Err (f e) end.

Declare Scope sley_scope.
Delimit Scope sley_scope with sley.
Notation "'guard!' b 'else' e ; k" := (mbind (fun _ : unit => k) (ensure b e))
  (at level 100, b at level 200, e at level 99, k at level 200, right associativity) : sley_scope.
#[global] Open Scope sley_scope.

Section loops.
Context {E A B : Type}.

(** [for x in xs { f(x)?; }] *)
Section for_each.
Variable f : A -> result E unit.
Fixpoint for_each (l : list A) : result E unit :=
  match l with
  | [] => Ok tt
  | x :: l => f x ≫= fun _ => for_each l
  end.
End for_each.

(** [for x in xs { acc = f(acc, x)?; }] *)
Section fold_res.
Variable f : B -> A -> result E B.
Fixpoint fold_res (acc : B) (l : list A) : result E B :=
  match l with
  | [] => Ok acc
  | x :: l => f acc x ≫= fun acc => fold_res acc l
  end.
End fold_res.

(** [xs.iter().map(f).collect::<Result<_>>()] *)
Section map_res.
Variable f : A -> result E B.
Fixpoint map_res (l : list A) : result E (list B) :=
  match l with
  | [] => Ok []
  | x :: l => f x ≫= fun y => map_res l ≫= fun ys => Ok (y :: ys)
  end.
End map_res.
End loops.

(** [xs.iter().find(p)] *)
Fixpoint find_first {A} (p : A -> bool) (l : list A) : option A :=
  match l with
  | [] => None
  | x :: l => if p x then Some x else find_first p l
  end.

(** [for (index, x) in xs.iter().enumerate()]: the list of indexed elements. *)
Fixpoint enumerate_from {A} (i : N) (l : list A) : list (N * A) :=
  match l with
  | [] => []
  | x :: l => (i, x) :: enumerate_from (i + 1) l
  end.
Definition enumerate {A} (l : list A) : list (N * A) := enumerate_from 0 l.

(** ** Machine integers

    Unsigned machine integers are [N]; [usize] is the 64-bit one. *)

Definition len {A} (l : list A) : N := N.of_nat (length l).
Definition U64_LIMIT : N := 2 ^ 64.

Definition checked_add (a b : N) : option N :=
  if (a + b <? U64_LIMIT)%N then Some (a + b)%N else None.

Lemma checked_add_Some a b c : checked_add a b = Some c <-> c = (a + b)%N /\ (a + b < U64_LIMIT)%N.
Proof.
  unfold checked_add. destruct (N.ltb_spec (a + b) U64_LIMIT); split; intros H'; try lia.
  - by simplify_eq.
  - destruct H' as [-> _]. done.
  - done.
Qed.

(** [xs.windows(2).all(|pair| pair[0] < pair[1])] on numeric keys. *)
Fixpoint strictly_sorted (l : list N) : bool :=
  match l with
  | x :: (y :: _) as l' => (x <? y)%N && strictly_sorted l'
  | _ => true
  end.

(** Lexicographic comparison of slices, given the comparison of elements. *)
Fixpoint lex_compare {A} (cmp : A -> A -> comparison) (l r : list A) : comparison :=
  match l, r with
  | [], [] => Eq
  | [], _ :: _ => Lt
  | _ :: _, [] => Gt
  | x :: l, y :: r => match cmp x y with Eq => lex_compare cmp l r | c => c end
  end.

(** [Ordering::then_with] *)
Definition then_with (c : comparison) (d : comparison) : comparison :=
  match c with Eq => d | _ => c end.

(** ** Lemmas on results *)

Create HintDb sley discriminated.

Lemma bind_Ok {E A B} (m : result E A) (k : A -> result E B) b :
  m ≫= k = Ok b <-> exists a, m = Ok a /\ k a = Ok b.
Proof. destruct m; naive_solver. Qed.

Lemma bind_Err {E A B} (m : result E A) (k : A -> result E B) e :
  m ≫= k = Err e <-> m = Err e \/ exists a, m = Ok a /\ k a = Err e.
Proof. destruct m; naive_solver. Qed.

Lemma Ok_inj {E A} (a b : A) : @Ok E A a = Ok b <-> a = b.
Proof. split; [by intros [= ->]|by intros ->]. Qed.

Section result_lemmas.
Context {E A B : Type}.

Lemma ensure_Ok b (e : E) u : ensure b e = Ok u <-> b = true.
Proof. destruct b, u; naive_solver. Qed.

Lemma ensure_Err b (e e' : E) : ensure b e = Err e' <-> b = false /\ e' = e.
Proof. destruct b; naive_solver. Qed.

Lemma ok_or_Ok (e : E) (o : option A) a : ok_or e o = Ok a <-> o = Some a.
Proof. destruct o; naive_solver. Qed.

Lemma ok_or_Err (e e' : E) (o : option A) : ok_or e o = Err e' <-> o = None /\ e' = e.
Proof. destruct o; naive_solver. Qed.

Lemma for_each_Ok (f : A -> result E unit) l u :
  for_each f l = Ok u <-> Forall (fun x => f x = Ok tt) l.
Proof.
  destruct u. induction l as [|x l IH]; simpl; [naive_solver|].
  rewrite bind_Ok, Forall_cons, <- IH. split.
  - by intros ([] & ? & ?).
  - intros [??]. by exists tt.
Qed.

Lemma for_each_Err (f : A -> result E unit) l e :
  for_each f l = Err e -> exists x, x ∈ l /\ f x = Err e.
Proof.
  induction l as [|x l IH]; simpl; [done|].
  rewrite bind_Err. intros [?|(?&?&(y&?&?)%IH)].
  - exists x. split; [left|done].
  - exists y. split; [by right|done].
Qed.

Lemma map_res_Ok (f : A -> result E B) l l' :
  map_res f l = Ok l' <-> Forall2 (fun x y => f x = Ok y) l l'.
Proof.
  revert l'. induction l as [|x l IH]; intros l'; simpl.
  - split; [intros; by simplify_eq|]. intros H; by inversion H.
  - rewrite bind_Ok. split.
    + intros (y & ? & (ys & ?%IH & ?)%bind_Ok). simplify_eq. by constructor.
    + intros H; inversion H; simplify_eq. exists y. split; [done|].
      rewrite bind_Ok. exists l'0. by rewrite IH.
Qed.

Lemma map_res_Err (f : A -> result E B) l e :
  map_res f l = Err e -> exists x, x ∈ l /\ f x = Err e.
Proof.
  induction l as [|x l IH]; simpl; [done|].
  rewrite bind_Err. intros [?|(?&?&H)].
  - exists x. split; [left|done].
  - rewrite bind_Err in H. destruct H as [(y&?&?)%IH|(?&_&?)]; [|done].
    exists y. split; [by right|done].
Qed.

(** The loop rule: an invariant kept by every successful iteration holds
    of the final accumulator. *)
Lemma fold_res_inv (f : B -> A -> result E B) (P : B -> Prop) l acc acc' :
  (forall b x b', x ∈ l -> P b -> f b x = Ok b' -> P b') ->
  P acc -> fold_res f acc l = Ok acc' -> P acc'.
Proof.
  revert acc. induction l as [|x l IH]; intros acc Hf Hacc; simpl.
  - by intros [= <-].
  - intros (b & Hb & H)%bind_Ok. eapply (IH b); [|eapply Hf|done]; [|left|done|done].
    intros. eapply Hf; [by right|done..].
Qed.

Lemma fold_res_ext_in (f g : B -> A -> result E B) acc l :
  (forall b x, x ∈ l -> f b x = g b x) -> fold_res f acc l = fold_res g acc l.
Proof.
  revert acc. induction l as [|x l IH]; intros acc Hfg; simpl; [done|].
  rewrite (Hfg acc x) by left. destruct (g acc x); simpl; [|done]. apply IH. intros. apply Hfg. by right.
Qed.

(** The same under an invariant of the accumulator *)
Lemma fold_res_ext_inv (f g : B -> A -> result E B) (P : B -> Prop) acc l :
  (forall b x, x ∈ l -> P b -> f b x = g b x /\ forall b', g b x = Ok b' -> P b') -> P acc ->
  fold_res f acc l = fold_res g acc l.
Proof.
  revert acc. induction l as [|x l IH]; intros acc Hf Hacc; [done|]. cbn [fold_res].
  destruct (Hf acc x) as [-> Hb]; [left|done|]. destruct (g acc x) as [b|]; [|done]. cbn [mbind result_bind].
  apply IH; [|by apply Hb]. intros b' y Hy. apply Hf. by right.
Qed.

(** A loop whose turns all succeed *)
Lemma fold_res_foldl (f : B -> A -> result E B) (g : B -> A -> B) (P : B -> Prop) acc l :
  (forall b x, x ∈ l -> P b -> f b x = Ok (g b x) /\ P (g b x)) -> P acc ->
  fold_res f acc l = Ok (foldl g acc l) /\ P (foldl g acc l).
Proof.
  revert acc. induction l as [|x l IH]; intros acc Hf Hacc; [done|]. cbn [fold_res foldl].
  destruct (Hf acc x) as [-> Hb]; [left|done|]. cbn [mbind result_bind].
  apply IH; [|done]. intros b' y Hy. apply Hf. by right.
Qed.

Lemma fold_res_ext (f g : B -> A -> result E B) acc l :
  (forall b x, f b x = g b x) -> fold_res f acc l = fold_res g acc l.
Proof.
  intros Hfg. revert acc. induction l as [|x l IH]; intros acc; simpl; [done|].
  rewrite Hfg. destruct (g acc x); simpl; auto.
Qed.

(** A loop whose steps each add the elements [added x] to the accumulator. *)
Lemma fold_res_adds {X} (f : B -> A -> result E B) (has : B -> X -> Prop) (added : A -> X -> Prop) l acc acc' :
  (forall b x b', x ∈ l -> f b x = Ok b' -> forall y, has b' y <-> has b y \/ added x y) ->
  fold_res f acc l = Ok acc' -> forall y, has acc' y <-> has acc y \/ exists x, x ∈ l /\ added x y.
Proof.
  revert acc. induction l as [|x l IH]; intros acc Hf; cbn [fold_res].
  - intros [= <-] y. setoid_rewrite elem_of_nil. firstorder.
  - intros (b & Hb & H)%bind_Ok y. rewrite (IH b); [|intros; eapply Hf; [by right|done]|done].
    rewrite (Hf _ _ _ (list_elem_of_here _ _) Hb). setoid_rewrite elem_of_cons. split.
    + intros [[?|?]|(z & ? & ?)]; [by left|right; exists x; tauto|right; exists z; tauto].
    + intros [?|(z & [->|?] & ?)]; [tauto..|]. right. by exists z.
Qed.

(** Every step of a successful loop succeeds. *)
Lemma fold_res_each (f : B -> A -> result E B) l acc acc' x :
  fold_res f acc l = Ok acc' -> x ∈ l -> exists b b', f b x = Ok b'.
Proof.
  revert acc. induction l as [|y l IH]; intros acc H Hx; [by apply elem_of_nil in Hx|].
  cbn in H. apply bind_Ok in H as (b & Hb & H). apply elem_of_cons in Hx as [->|Hx]; [by exists acc, b|by eapply IH].
Qed.

Lemma fold_res_app (f : B -> A -> result E B) l1 l2 acc :
  fold_res f acc (l1 ++ l2) = fold_res f acc l1 ≫= fun acc => fold_res f acc l2.
Proof.
  revert acc. induction l1 as [|x l IH]; intros acc; simpl; [done|].
  destruct (f acc x); simpl; [apply IH|done].
Qed.
End result_lemmas.

Lemma find_first_Some {A} (p : A -> bool) l x : find_first p l = Some x -> x ∈ l /\ p x = true.
Proof.
  induction l as [|y l IH]; intros H; [done|]. cbn in H. destruct (p y) eqn:E.
  - injection H as ->. split; [by left|done].
  - destruct (IH H). split; [by right|done].
Qed.

Lemma find_first_None {A} (p : A -> bool) l : find_first p l = None <-> forall x, x ∈ l -> p x = false.
Proof.
  induction l as [|y l IH]; cbn; [split; [intros _ x Hx; by apply elem_of_nil in Hx|done]|].
  setoid_rewrite elem_of_cons. destruct (p y) eqn:E; [split; [done|intros H; by rewrite H in E; [|left]]|].
  rewrite IH. split; [by intros H x [->|?]; [|apply H]|]. intros H x Hx. apply H. by right.
Qed.

(** ** Computations that avoid an error

    [avoids bad m]: [m] does not fail with [bad].  It is used for the outcome
    that stands for a panic. *)

Definition avoids {E A} (bad : E) (m : result E A) : Prop := m <> Err bad.

Section avoids.
Context {E : Type} (bad : E).

Lemma avoids_ok {A} (a : A) : avoids bad (Ok a).
Proof. done. Qed.

Lemma avoids_err {A} e : e <> bad -> avoids bad (@Err E A e).
Proof. unfold avoids. congruence. Qed.

Lemma avoids_bind {A B} (m : result E A) (k : A -> result E B) :
  avoids bad m -> (forall a, m = Ok a -> avoids bad (k a)) -> avoids bad (m ≫= k).
Proof. unfold avoids. destruct m; cbn; intros H1 H2; [by apply H2|congruence]. Qed.

Lemma avoids_if {A} (b : bool) (m m' : result E A) : avoids bad m -> avoids bad m' -> avoids bad (if b then m else m').
Proof. by destruct b. Qed.

Lemma avoids_decide {A} P `{Decision P} (m m' : result E A) :
  avoids bad m -> avoids bad m' -> avoids bad (if decide P then m else m').
Proof. by case_decide. Qed.

Lemma avoids_for_each {A} (f : A -> result E unit) l :
  (forall x, x ∈ l -> avoids bad (f x)) -> avoids bad (for_each f l).
Proof.
  induction l as [|x l IH]; intros H; [done|]. cbn [for_each]. apply avoids_bind; [apply H; by left|].
  intros _ _. apply IH. intros; apply H; by right.
Qed.

Lemma avoids_fold {A B} (f : B -> A -> result E B) l acc :
  (forall x b, x ∈ l -> avoids bad (f b x)) -> avoids bad (fold_res f acc l).
Proof.
  revert acc. induction l as [|x l IH]; intros acc H; [done|]. cbn [fold_res].
  apply avoids_bind; [apply H; by left|]. intros b _. apply IH. intros; apply H; by right.
Qed.

Lemma avoids_map {A B} (f : A -> result E B) l : (forall x, x ∈ l -> avoids bad (f x)) -> avoids bad (map_res f l).
Proof.
  induction l as [|x l IH]; intros H; [done|]. cbn [map_res]. apply avoids_bind; [apply H; by left|].
  intros y _. apply avoids_bind; [|done]. apply IH. intros; apply H; by right.
Qed.
End avoids.

Create HintDb panics discriminated.
#[export] Hint Resolve avoids_ok avoids_if avoids_decide : panics.
#[export] Hint Extern 2 (avoids _ (match ?x with _ => _ end)) => destruct x : panics.
#[export] Hint Extern 2 (avoids _ ((match ?x with _ => _ end) _)) => destruct x; cbv beta : panics.
#[export] Hint Extern 3 (avoids _ (_ ≫= _)) => apply avoids_bind; [|intros ? _; cbv beta] : panics.
#[export] Hint Extern 3 (avoids _ (for_each _ _)) => apply avoids_for_each; intros ? _; cbv beta : panics.
#[export] Hint Extern 3 (avoids _ (fold_res _ _ _)) => apply avoids_fold; intros ? ? _; cbv beta : panics.

Ltac no_panic := solve [eauto 20 with panics].

(** [simplify_res] opens every successful monadic hypothesis. *)
Ltac simplify_res :=
  repeat (progress simplify_eq/= || match goal with
  | H : mbind _ _ = Ok _ |- _ => apply bind_Ok in H; destruct H as (? & ? & ?)
  | H : ensure _ _ = Ok _ |- _ => apply ensure_Ok in H
  | H : ok_or _ _ = Ok _ |- _ => apply ok_or_Ok in H
  | H : for_each _ _ = Ok _ |- _ => apply for_each_Ok in H
  | H : map_res _ _ = Ok _ |- _ => apply map_res_Ok in H
  | H : checked_add _ _ = Some _ |- _ => apply checked_add_Some in H; destruct H as [? ?]
  | H : negb _ = true |- _ => apply negb_true_iff in H
  | H : negb _ = false |- _ => apply negb_false_iff in H
  | H : _ && _ = true |- _ => apply andb_true_iff in H; destruct H as [? ?]
  | H : _ || _ = false |- _ => apply orb_false_iff in H; destruct H as [? ?]
  | H : bool_decide _ = true |- _ => apply bool_decide_eq_true_1 in H
  | H : bool_decide _ = false |- _ => apply bool_decide_eq_false_1 in H
  | x : unit |- _ => destruct x
  end).

(** [N_bool] turns boolean comparisons on [N] into propositions. *)
Ltac N_bool :=
  repeat match goal with
  | H : (_ <? _)%N = true |- _ => apply N.ltb_lt in H
  | H : (_ <? _)%N = false |- _ => apply N.ltb_ge in H
  | H : (_ <=? _)%N = true |- _ => apply N.leb_le in H
  | H : (_ <=? _)%N = false |- _ => apply N.leb_gt in H
  | H : (_ =? _)%N = true |- _ => apply N.eqb_eq in H
  | H : (_ =? _)%N = false |- _ => apply N.eqb_neq in H
  end.

(** ** Lemmas on lists *)

Lemma len_nil {A} : len (@nil A) = 0%N.
Proof. done. Qed.

Lemma len_cons {A} (x : A) l : len (x :: l) = (1 + len l)%N.
Proof. unfold len. simpl length. lia. Qed.

Lemma len_app {A} (l1 l2 : list A) : len (l1 ++ l2) = (len l1 + len l2)%N.
Proof. unfold len. rewrite length_app. lia. Qed.

Lemma len_fmap {A B} (f : A -> B) l : len (f <$> l) = len l.
Proof. unfold len. by rewrite length_fmap. Qed.

Create Rewrite HintDb sley_rw.
#[export] Hint Rewrite @len_nil @len_cons @len_app : sley_rw.

Lemma elem_of_enumerate_from {A} i j (x : A) l :
  (j, x) ∈ enumerate_from i l <-> (i <= j)%N /\ l !! N.to_nat (j - i) = Some x.
Proof.
  revert i. induction l as [|y l IH]; intros i; simpl.
  - rewrite elem_of_nil. split; [done|]. intros [_ ?]. by rewrite lookup_nil in *.
  - rewrite elem_of_cons, IH. split.
    + intros [[= -> ->]|[Hle H]]; [split; [lia|]; by rewrite N.sub_diag|].
      split; [lia|]. replace (N.to_nat (j - i)) with (S (N.to_nat (j - (i + 1)))) by lia. done.
    + intros [Hle H]. destruct (decide (i = j)) as [->|].
      * rewrite N.sub_diag in H. simpl in H. left. congruence.
      * right. split; [lia|].
        replace (N.to_nat (j - i)) with (S (N.to_nat (j - (i + 1)))) in H by lia. done.
Qed.

Lemma elem_of_enumerate {A} j (x : A) l :
  (j, x) ∈ enumerate l <-> l !! N.to_nat j = Some x.
Proof.
  unfold enumerate. rewrite elem_of_enumerate_from, N.sub_0_r. intuition lia.
Qed.

Lemma length_enumerate_from {A} i (l : list A) : length (enumerate_from i l) = length l.
Proof. revert i. induction l; intros; simpl; auto. Qed.

Lemma snd_enumerate {A} (l : list A) : (enumerate l).*2 = l.
Proof. unfold enumerate. generalize 0%N. induction l as [|x l IH]; intros i; [done|]. cbn. by rewrite IH. Qed.

Lemma strictly_sorted_spec l : strictly_sorted l = true <-> StronglySorted N.lt l.
Proof.
  split.
  - intros H. apply Sorted_StronglySorted; [intros ???; lia|].
    induction l as [|x [|y l] IH]; [constructor|repeat constructor|].
    simpl in H. apply andb_true_iff in H as [H1%N.ltb_lt H2].
    constructor; [by apply IH|by constructor].
  - induction 1 as [|x l Hs IH Hx]; [done|]. destruct l as [|y l]; [done|].
    change ((x <? y)%N && strictly_sorted (y :: l) = true).
    rewrite IH, andb_true_r. apply N.ltb_lt. by inversion Hx.
Qed.

Lemma strictly_sorted_NoDup l : strictly_sorted l = true -> NoDup l.
Proof.
  rewrite strictly_sorted_spec. induction 1 as [|x l Hs IH Hx]; constructor; [|done].
  intros Hin. rewrite Forall_forall in Hx. specialize (Hx _ Hin). lia.
Qed.

(** Two strictly sorted lists with the same elements are equal. *)
Lemma strictly_sorted_unique l1 l2 :
  strictly_sorted l1 = true -> strictly_sorted l2 = true ->
  (forall x, x ∈ l1 <-> x ∈ l2) -> l1 = l2.
Proof.
  rewrite !strictly_sorted_spec. intros H1. revert l2.
  induction H1 as [|x l1 Hs IH Hx]; intros l2 H2 Heq.
  { destruct l2 as [|y l2]; [done|]. exfalso. apply (not_elem_of_nil y), Heq. left. }
  inversion H2 as [|y l2' Hs2 Hy]; simplify_eq.
  { exfalso. apply (not_elem_of_nil x), Heq. left. }
  rewrite Forall_forall in Hx, Hy.
  assert (x = y) as ->.
  { assert (x ∈ y :: l2') as [->|Hxy]%elem_of_cons by (apply Heq; left); [done|].
    assert (y ∈ x :: l1) as [->|Hyx]%elem_of_cons by (apply Heq; left); [done|].
    specialize (Hx _ Hyx). specialize (Hy _ Hxy). lia. }
  f_equal. apply IH; [done|]. intros z. split; intros Hz.
  - assert (z ∈ y :: l2') as [->|]%elem_of_cons by (apply Heq; by right); [|done].
    specialize (Hx _ Hz). lia.
  - assert (z ∈ y :: l1) as [->|]%elem_of_cons by (apply Heq; by right); [|done].
    specialize (Hy _ Hz). lia.
Qed.

(** ** Lexicographic order

    The laws [Ordering] has to satisfy for a slice comparison to be a total
    order are inherited from the element comparison. *)

Record TotalCompare {A} (cmp : A -> A -> comparison) : Prop := {
  tc_eq : forall x y, cmp x y = Eq <-> x = y;
  tc_opp : forall x y, cmp y x = CompOpp (cmp x y);
  tc_trans : forall x y z, cmp x y = Lt -> cmp y z = Lt -> cmp x z = Lt
}.

Lemma N_total_compare : TotalCompare N.compare.
Proof.
  split; [apply N.compare_eq_iff|intros; by rewrite N.compare_antisym|].
  intros x y z. rewrite !N.compare_lt_iff. lia.
Qed.

Lemma lex_compare_total {A} (cmp : A -> A -> comparison) :
  TotalCompare cmp -> TotalCompare (lex_compare cmp).
Proof.
  intros [Heq Hopp Htr]. split.
  - induction x as [|x l IH]; destruct y as [|y r]; simpl; try done.
    specialize (Heq x y). specialize (IH r). destruct (cmp x y); naive_solver.
  - induction x as [|x l IH]; destruct y as [|y r]; simpl; try done.
    rewrite (Hopp x y). destruct (cmp x y); simpl; auto.
  - induction x as [|x l IH]; destruct y as [|y r]; destruct z as [|z t]; simpl; try done.
    intros H1 H2. destruct (cmp x y) eqn:E1; try done.
    + apply Heq in E1 as ->. destruct (cmp y z); naive_solver.
    + destruct (cmp y z) eqn:E2; try done.
      * apply Heq in E2 as ->. by rewrite E1.
      * by rewrite (Htr x y z).
Qed.

(** ** Sorting

    [sort_by] is the stable sort of a slice by a comparison. *)

Fixpoint insert_by {A} (cmp : A -> A -> comparison) (x : A) (l : list A) : list A :=
  match l with
  | [] => [x]
  | y :: l' => match cmp x y with Gt => y :: insert_by cmp x l' | _ => x :: l end
  end.

Definition sort_by {A} (cmp : A -> A -> comparison) : list A -> list A := foldr (insert_by cmp) [].

Section sort.
Context {A K : Type} (key : A -> K) (cmp : K -> K -> comparison).
Hypothesis Hcmp : TotalCompare cmp.
Abbreviation by_key := (fun x y => cmp (key x) (key y)).
Abbreviation le_key := (fun x y => cmp (key x) (key y) <> Gt).
Abbreviation lt_key := (fun x y => cmp (key x) (key y) = Lt).

Lemma insert_by_perm x l : insert_by by_key x l ≡ₚ x :: l.
Proof using Type. induction l as [|y l IH]; simpl; [done|]. case_match; [done..|]. rewrite IH. constructor. Qed.

Lemma sort_by_perm l : sort_by by_key l ≡ₚ l.
Proof using Type. induction l as [|x l IH]; simpl; [done|]. by rewrite insert_by_perm, IH. Qed.

Lemma cmp_le_trans x y z : cmp x y <> Gt -> cmp y z <> Gt -> cmp x z <> Gt.
Proof using Hcmp.
  destruct Hcmp as [Heq Hopp Htr]. intros H1 H2.
  destruct (cmp x y) eqn:E1; [|destruct (cmp y z) eqn:E2|]; try done.
  - by apply Heq in E1 as ->.
  - apply Heq in E2 as ->. congruence.
  - rewrite (Htr x y z); done.
Qed.

Lemma sort_by_sorted l : StronglySorted le_key (sort_by by_key l).
Proof using Hcmp.
  induction l as [|x l IH]; simpl; [constructor|]. fold (sort_by by_key l).
  induction IH as [|y l' Hs IH Hy]; simpl; [repeat constructor|].
  destruct (cmp (key x) (key y)) eqn:E.
  1,2: constructor; [by constructor|]; constructor; [by rewrite E|];
    eapply Forall_impl; [exact Hy|]; cbv beta; intros z Hz;
    eapply cmp_le_trans; [|exact Hz]; by rewrite E.
  constructor; [done|]. rewrite insert_by_perm. constructor; [|done].
  rewrite (tc_opp _ Hcmp), E. done.
Qed.

(** Two strictly ascending lists with the same elements are equal. *)
Lemma lt_key_unique l1 l2 :
  StronglySorted lt_key l1 -> StronglySorted lt_key l2 -> l1 ≡ₚ l2 -> l1 = l2.
Proof using Hcmp.
  intros H1. revert l2. induction H1 as [|x l1 Hs IH Hx]; intros l2 H2 Hp.
  { symmetry. by apply Permutation_nil. }
  destruct H2 as [|y l2 Hs2 Hy]; [by symmetry in Hp; apply Permutation_nil_cons in Hp|].
  assert (x = y) as ->.
  { assert (x ∈ y :: l2) as [|Hxy]%elem_of_cons by (rewrite <- Hp; left); [done|].
    assert (y ∈ x :: l1) as [|Hyx]%elem_of_cons by (rewrite Hp; left); [done|].
    rewrite Forall_forall in Hx, Hy. specialize (Hx _ Hyx). specialize (Hy _ Hxy).
    cbv beta in *. rewrite (tc_opp _ Hcmp), Hx in Hy. done. }
  f_equal. apply IH; [done|]. by apply Permutation_cons_inv in Hp.
Qed.

Lemma le_key_lt l : NoDup (key <$> l) -> StronglySorted le_key l -> StronglySorted lt_key l.
Proof using Hcmp.
  intros Hn Hs. induction Hs as [|x l Hs IH Hx]; [constructor|].
  rewrite fmap_cons in Hn. apply NoDup_cons in Hn as [Hnx Hn]. constructor; [auto|].
  rewrite Forall_forall in *. intros y Hy. specialize (Hx y Hy). cbv beta in *.
  destruct (cmp (key x) (key y)) eqn:E; [|done..]. apply (tc_eq _ Hcmp) in E.
  exfalso. apply Hnx. rewrite E. by apply list_elem_of_fmap_2.
Qed.

Lemma lt_key_NoDup l : StronglySorted lt_key l -> NoDup (key <$> l).
Proof using Hcmp.
  induction 1 as [|x l Hs IH Hx]; [constructor|]. rewrite fmap_cons. constructor; [|done].
  intros (y & E & Hy)%list_elem_of_fmap. rewrite Forall_forall in Hx. specialize (Hx y Hy).
  cbv beta in Hx. assert (cmp (key x) (key y) = Eq) by by apply (tc_eq _ Hcmp). congruence.
Qed.

Lemma sort_by_lt l : NoDup (key <$> l) -> StronglySorted lt_key (sort_by by_key l).
Proof using Hcmp.
  intros Hn. apply le_key_lt; [by rewrite sort_by_perm|apply sort_by_sorted].
Qed.

(** Distinct keys: the sorted list depends only on the elements. *)
Lemma sort_by_permutation l1 l2 :
  NoDup (key <$> l1) -> l1 ≡ₚ l2 -> sort_by by_key l1 = sort_by by_key l2.
Proof using Hcmp.
  intros Hn Hp. apply lt_key_unique; [by apply sort_by_lt|apply sort_by_lt; by rewrite <- Hp|].
  by rewrite !sort_by_perm.
Qed.

Lemma sort_by_id l : StronglySorted lt_key l -> sort_by by_key l = l.
Proof using Hcmp.
  intros Hs. apply lt_key_unique; [|done|apply sort_by_perm].
  by apply sort_by_lt, lt_key_NoDup.
Qed.
End sort.
