(* ===== verification/State.v ===== *)
(** * State and failure

    A computation that threads a state ([&mut S]) and can fail ([Result<A, E>]);
    a failure does not return the state.  Its loops, and the relation
    [m ⇓ a] that forgets the state. *)

From S2P Require Import Prelude.

Definition ST (S E A : Type) : Type := S -> result E (A * S).
#[global] Instance ST_ret S E : MRet (ST S E) := fun A a s => Ok (a, s).
#[global] Instance ST_bind S E : MBind (ST S E) := fun A B k m s => m s ≫= fun '(a, s) => k a s.
Definition lift {S E A} (m : result E A) : ST S E A := fun s => a ← m; Ok (a, s).

Section loops.
Context {S E A B : Type}.

(** [for x in xs { .. }] *)
Section each.
Variable f : A -> ST S E unit.
Fixpoint each (l : list A) : ST S E unit :=
  match l with
  | [] => mret tt
  | x :: l => f x ≫= fun _ => each l
  end.
End each.

(** [for x in xs { results.push(..) }] *)
Section collect.
Variable f : A -> ST S E B.
Fixpoint collect (l : list A) : ST S E (list B) :=
  match l with
  | [] => mret []
  | x :: l => y ← f x; ys ← collect l; mret (y :: ys)
  end.
End collect.

(** [for x in xs { acc = .. }] *)
Section fold.
Variable f : B -> A -> ST S E B.
Fixpoint fold (acc : B) (l : list A) : ST S E B :=
  match l with
  | [] => mret acc
  | x :: l => acc ← f acc x; fold acc l
  end.
End fold.
End loops.

(** ** Lemmas *)

(** [m ⇓ a]: from some state, [m] returns [a]. *)
Definition can_return {S E A} (m : ST S E A) (a : A) : Prop := exists s s', m s = Ok (a, s').
Notation "m ⇓ a" := (can_return m a) (at level 70).

Lemma ST_bind_Ok {S E A B} (m : ST S E A) (k : A -> ST S E B) s b s'' :
  (m ≫= k) s = Ok (b, s'') <-> exists a s', m s = Ok (a, s') /\ k a s' = Ok (b, s'').
Proof.
  unfold mbind, ST_bind. rewrite bind_Ok. split.
  - intros ([a s'] & H & H'). by exists a, s'.
  - intros (a & s' & H & H'). by exists (a, s').
Qed.

Lemma lift_Ok {S E A} (m : result E A) (s : S) a s' : lift m s = Ok (a, s') <-> m = Ok a /\ s' = s.
Proof. unfold lift. rewrite bind_Ok. split; [intros (? & -> & [= <- <-])|intros [-> ->]]; eauto. Qed.

Section returns.
Context {S E : Type} `{Inhabited S}.

Lemma returns_ret {A} (a b : A) : (mret a : ST S E A) ⇓ b <-> a = b.
Proof using All. split; [by intros (? & ? & [= -> _])|intros ->; by exists inhabitant, inhabitant]. Qed.

Lemma returns_bind {A B} (m : ST S E A) (k : A -> ST S E B) b : m ≫= k ⇓ b -> exists a, m ⇓ a /\ k a ⇓ b.
Proof using Type. intros (w & w'' & (a & w' & Hm & Hk)%ST_bind_Ok). exists a. split; [by exists w, w'|by exists w', w'']. Qed.

Lemma returns_lift {A} (m : result E A) a : (lift m : ST S E A) ⇓ a <-> m = Ok a.
Proof using All.
  split; [by intros (? & ? & [? _]%lift_Ok)|intros Hm; exists inhabitant, inhabitant; by apply lift_Ok].
Qed.

Lemma returns_each {A} (f : A -> ST S E unit) l u : each f l ⇓ u -> Forall (fun x => f x ⇓ tt) l.
Proof using Type.
  induction l as [|x l IH]; [constructor|]. cbn [each]. intros ([] & Hx & Hl)%returns_bind. constructor; [done|by apply IH].
Qed.

Lemma returns_collect {A B} (f : A -> ST S E B) l ys : collect f l ⇓ ys -> Forall2 (fun x y => f x ⇓ y) l ys.
Proof using All.
  revert ys. induction l as [|x l IH]; intros ys.
  - intros <-%returns_ret. constructor.
  - cbn [collect]. intros (y & Hy & (ys' & Hys & <-%returns_ret)%returns_bind)%returns_bind. constructor; [done|by apply IH].
Qed.
End returns.
