(* ===== verification/BTree.v ===== *)
(** * In-order iteration over finite maps and sets

    Rust's [BTreeMap<K, V>] and [BTreeSet<K>] are modelled by stdpp's [gmap]
    and [gset]; the keys of this program ([EntityId], [MemberId], [usize]) are
    all [N].  A [gmap] has no iteration order of its own, so this file gives
    the order the Rust containers iterate in: strictly increasing keys. *)

From S2P Require Import Prelude.
From stdpp Require Import sorting.

Definition key_le {V} (p q : N * V) : Prop := (p.1 <= q.1)%N.

#[global] Instance key_le_dec {V} : RelDecision (@key_le V).
Proof. intros p q. unfold key_le. apply _. Defined.

#[global] Instance key_le_total {V} : Total (@key_le V).
Proof. intros p q. unfold key_le. lia. Qed.

#[global] Instance key_le_trans {V} : Transitive (@key_le V).
Proof. intros p q r. unfold key_le. lia. Qed.

(** [map.iter()] *)
Definition btree_iter {V} (m : gmap N V) : list (N * V) :=
  merge_sort key_le (map_to_list m).

(** [map.values()] *)
Definition btree_values {V} (m : gmap N V) : list V := (btree_iter m).*2.

(** [map.keys()] *)
Definition btree_keys {V} (m : gmap N V) : list N := (btree_iter m).*1.

(** [set.iter()] *)
Definition btree_set_iter (s : gset N) : list N := merge_sort N.le (elements s).

Lemma btree_iter_perm {V} (m : gmap N V) : btree_iter m ≡ₚ map_to_list m.
Proof. apply merge_sort_Permutation. Qed.

Lemma elem_of_btree_iter {V} (m : gmap N V) k v : (k, v) ∈ btree_iter m <-> m !! k = Some v.
Proof. by rewrite btree_iter_perm, elem_of_map_to_list. Qed.

Lemma elem_of_btree_values {V} (m : gmap N V) v :
  v ∈ btree_values m <-> exists k, m !! k = Some v.
Proof.
  unfold btree_values. rewrite list_elem_of_fmap. split.
  - intros ([k v'] & -> & H). exists k. by apply elem_of_btree_iter.
  - intros [k H]. exists (k, v). by rewrite elem_of_btree_iter.
Qed.

Lemma elem_of_btree_keys {V} (m : gmap N V) k :
  k ∈ btree_keys m <-> is_Some (m !! k).
Proof.
  unfold btree_keys. rewrite list_elem_of_fmap. split.
  - intros ([k' v] & -> & H). exists v. by apply elem_of_btree_iter.
  - intros [v H]. exists (k, v). by rewrite elem_of_btree_iter.
Qed.

Lemma btree_keys_NoDup {V} (m : gmap N V) : NoDup (btree_keys m).
Proof.
  unfold btree_keys. rewrite btree_iter_perm. apply NoDup_fst_map_to_list.
Qed.

Lemma le_NoDup_strictly_sorted l :
  StronglySorted N.le l -> NoDup l -> strictly_sorted l = true.
Proof.
  rewrite strictly_sorted_spec. induction 1 as [|x l Hs IH Hx]; intros Hnd; constructor.
  - apply IH. by inversion Hnd.
  - inversion Hnd; simplify_eq. rewrite Forall_forall in Hx |- *.
    intros y Hy. specialize (Hx _ Hy). assert (x <> y) by congruence. lia.
Qed.

(** Keys are visited in strictly increasing order. *)
Lemma btree_keys_sorted {V} (m : gmap N V) : strictly_sorted (btree_keys m) = true.
Proof.
  apply le_NoDup_strictly_sorted; [|apply btree_keys_NoDup].
  unfold btree_keys, btree_iter.
  pose proof (StronglySorted_merge_sort (@key_le V) (map_to_list m)) as H.
  induction H as [|p l Hs IH Hp]; simpl; constructor; [done|].
  by apply Forall_fmap.
Qed.

Lemma elem_of_btree_set_iter (s : gset N) x : x ∈ btree_set_iter s <-> x ∈ s.
Proof. unfold btree_set_iter. by rewrite merge_sort_Permutation, elem_of_elements. Qed.

Lemma btree_set_iter_sorted (s : gset N) : strictly_sorted (btree_set_iter s) = true.
Proof.
  apply le_NoDup_strictly_sorted.
  - apply StronglySorted_merge_sort; intros ?; lia.
  - unfold btree_set_iter. rewrite merge_sort_Permutation. apply NoDup_elements.
Qed.

(** [map.insert(k, v).is_some()] over a whole vector: the index of the
    elements by key, or [None] at the first repeated key. *)
Fixpoint index_by {A} (key : A -> N) (l : list A) (m : gmap N A) : option (gmap N A) :=
  match l with
  | [] => Some m
  | x :: l =>
      match m !! key x with
      | Some _ => None
      | None => index_by key l (<[key x := x]> m)
      end
  end.

Lemma index_by_spec {A} (key : A -> N) l m m' :
  index_by key l m = Some m' ->
  NoDup (key <$> l) /\ (forall x, x ∈ l -> m !! key x = None) /\
  (forall k x, m' !! k = Some x <-> m !! k = Some x \/ x ∈ l /\ key x = k).
Proof.
  revert m. induction l as [|y l IH]; intros m H; simpl in H.
  - simplify_eq. split_and!; [constructor|by intros ? ?%not_elem_of_nil|].
    intros k x. rewrite elem_of_nil. naive_solver.
  - destruct (m !! key y) eqn:Hy; [done|].
    apply IH in H as (Hnd & Hnone & Hspec). clear IH.
    assert (forall x, x ∈ l -> m !! key x = None /\ key x <> key y) as Hx.
    { intros x Hin. specialize (Hnone _ Hin).
      destruct (decide (key x = key y)) as [E|E]; [rewrite E, lookup_insert_eq in Hnone; done|].
      rewrite lookup_insert_ne in Hnone by congruence. done. }
    split_and!.
    + simpl. constructor; [|done]. intros (x & E & Hin)%list_elem_of_fmap.
      apply Hx in Hin as [_ ?]. congruence.
    + intros x [->|Hin]%elem_of_cons; [done|]. by apply Hx.
    + intros k x. rewrite Hspec, elem_of_cons. destruct (decide (key y = k)) as [<-|E].
      * rewrite lookup_insert_eq. rewrite Hy. naive_solver.
      * rewrite lookup_insert_ne by done. naive_solver.
Qed.

Lemma index_by_None {A} (key : A -> N) l m :
  index_by key l m = None ->
  ~ NoDup (key <$> l) \/ exists x, x ∈ l /\ is_Some (m !! key x).
Proof.
  revert m. induction l as [|y l IH]; intros m H; simpl in H; [done|].
  destruct (m !! key y) eqn:Hy.
  { right. exists y. split; [left|by eexists]. }
  apply IH in H as [H|(x & Hin & Hx)].
  - left. simpl. intros Hnd. inversion Hnd. done.
  - destruct (decide (key x = key y)) as [E|E].
    + left. simpl. intros Hnd. inversion Hnd; simplify_eq. apply H1.
      rewrite <- E. apply list_elem_of_fmap. by exists x.
    + rewrite lookup_insert_ne in Hx by congruence. right. exists x. split; [by right|done].
Qed.
