(* ===== verification/Bytes.v ===== *)
(** * Bytes

    A [u8] is [Byte.byte]; a [Vec<u8>] or [&[u8]] is a list of them.  This file
    holds the conversions to numbers, big-endian reading, and the
    lexicographic comparison of byte slices. *)

From S2P Require Import Prelude.

Abbreviation byte := Byte.byte.
Abbreviation bytes := (list Byte.byte).

#[global] Instance byte_eq_dec : EqDecision byte.
Proof. exact byte_eq_dec. Defined.

Definition b2n (b : byte) : N := Byte.to_N b.

(** [n as u8]: the low eight bits. *)
Definition n2b (n : N) : byte :=
  match Byte.of_N (n mod 256) with Some b => b | None => x00 end.

Lemma b2n_bound b : (b2n b < 256)%N.
Proof. unfold b2n. pose proof (Byte.to_N_bounded b). lia. Qed.

Lemma b2n_n2b n : b2n (n2b n) = (n mod 256)%N.
Proof.
  unfold b2n, n2b. destruct (Byte.of_N (n mod 256)) eqn:E.
  - by apply Byte.to_of_N.
  - apply Byte.of_N_None_iff in E. pose proof (N.mod_lt n 256). lia.
Qed.

Lemma n2b_b2n b : n2b (b2n b) = b.
Proof.
  unfold n2b, b2n. pose proof (Byte.to_N_bounded b).
  rewrite N.mod_small by lia. by rewrite Byte.of_to_N.
Qed.

Lemma b2n_inj a b : b2n a = b2n b -> a = b.
Proof. intros H. rewrite <- (n2b_b2n a), <- (n2b_b2n b). by f_equal. Qed.

(** [u8::cmp], and the order of byte slices. *)
Definition byte_cmp (a b : byte) : comparison := (b2n a ?= b2n b)%N.
Definition bytes_cmp : bytes -> bytes -> comparison := lex_compare byte_cmp.

Lemma byte_total_compare : TotalCompare byte_cmp.
Proof.
  pose proof N_total_compare as [Heq Hopp Htr]. unfold byte_cmp. split.
  - intros x y. rewrite Heq. split; [apply b2n_inj|congruence].
  - intros. apply Hopp.
  - intros ???. apply Htr.
Qed.

Lemma bytes_total_compare : TotalCompare bytes_cmp.
Proof. apply lex_compare_total, byte_total_compare. Qed.

(** [uN::from_be_bytes] *)
Fixpoint be_num_acc (acc : N) (l : bytes) : N :=
  match l with
  | [] => acc
  | b :: l => be_num_acc (acc * 256 + b2n b) l
  end.
Definition be_num : bytes -> N := be_num_acc 0.

(** [x.to_be_bytes()] of an [8 * n]-bit integer. *)
Fixpoint be_bytes (n : nat) (x : N) : bytes :=
  match n with
  | O => []
  | S n => n2b (x / 256 ^ N.of_nat n) :: be_bytes n x
  end.

(** [id.as_bytes()] of an identifier, by its number. *)
Definition id_bytes (id : N) : bytes := be_bytes 32 id.

Lemma length_be_bytes n x : length (be_bytes n x) = n.
Proof. induction n; simpl; auto. Qed.

Lemma be_num_acc_eq acc l : be_num_acc acc l = (acc * 256 ^ len l + be_num l)%N.
Proof.
  revert acc. induction l as [|b l IH]; intros acc; simpl.
  - unfold be_num; simpl. rewrite len_nil. lia.
  - unfold be_num. simpl. rewrite (IH (acc * 256 + b2n b)%N), (IH (0 * 256 + b2n b)%N).
    rewrite len_cons, N.pow_add_r. lia.
Qed.

Lemma be_num_cons b l : be_num (b :: l) = (b2n b * 256 ^ len l + be_num l)%N.
Proof. unfold be_num at 1. simpl. by rewrite be_num_acc_eq. Qed.

Lemma be_num_bound l : (be_num l < 256 ^ len l)%N.
Proof.
  induction l as [|b l IH]; [done|].
  rewrite be_num_cons, len_cons, N.pow_add_r. pose proof (b2n_bound b). nia.
Qed.

Lemma be_bytes_mod n x : be_bytes n (x mod 256 ^ N.of_nat n) = be_bytes n x.
Proof.
  enough (forall m, (n <= m)%nat -> be_bytes n (x mod 256 ^ N.of_nat m) = be_bytes n x) by auto.
  induction n as [|n IH]; intros m Hm; simpl; [done|].
  f_equal; [|apply IH; lia].
  apply b2n_inj. rewrite !b2n_n2b.
  replace (N.of_nat m) with (N.of_nat n + N.of_nat (m - n))%N by lia.
  rewrite N.pow_add_r.
  rewrite N.Div0.mod_mul_r, N.mul_comm, N.div_add by (apply N.pow_nonzero; lia).
  rewrite N.div_small by (apply N.mod_lt, N.pow_nonzero; lia). rewrite N.add_0_l.
  replace (N.of_nat (m - n)) with (1 + N.of_nat (m - n - 1))%N by lia.
  rewrite N.pow_add_r, N.pow_1_r, N.Div0.mod_mul_r.
  rewrite N.mul_comm, N.Div0.mod_add, N.Div0.mod_mod. done.
Qed.

Lemma be_num_be_bytes n x : (x < 256 ^ N.of_nat n)%N -> be_num (be_bytes n x) = x.
Proof.
  revert x. induction n as [|n IH]; intros x Hx.
  - change (256 ^ N.of_nat 0)%N with 1%N in Hx. unfold be_num. simpl. lia.
  - simpl be_bytes. rewrite be_num_cons, b2n_n2b. unfold len. rewrite length_be_bytes.
    rewrite <- be_bytes_mod, IH by (apply N.mod_lt, N.pow_nonzero; lia).
    rewrite N.mod_small.
    + rewrite N.mul_comm. symmetry. apply N.div_mod'.
    + apply N.Div0.div_lt_upper_bound.
      rewrite Nat2N.inj_succ, N.pow_succ_r' in Hx. lia.
Qed.

Lemma be_bytes_be_num l : be_bytes (length l) (be_num l) = l.
Proof.
  induction l as [|b l IH]; [done|]. simpl length. simpl be_bytes.
  pose proof (be_num_bound l) as Hb. unfold len in Hb.
  rewrite be_num_cons. unfold len. f_equal.
  - rewrite N.add_comm, N.div_add by (apply N.pow_nonzero; lia).
    rewrite N.div_small, N.add_0_l by done. apply n2b_b2n.
  - rewrite <- be_bytes_mod, N.add_comm, N.Div0.mod_add, N.mod_small by done. done.
Qed.

(** Reading equal-length slices as big-endian numbers keeps their order. *)
Lemma be_num_compare l r :
  length l = length r -> (be_num l ?= be_num r)%N = bytes_cmp l r.
Proof.
  revert r. induction l as [|a l IH]; intros [|b r] Hlen; try done.
  simpl in Hlen. injection Hlen as Hlen.
  unfold bytes_cmp in *. simpl. rewrite <- IH by done.
  rewrite !be_num_cons. unfold len. rewrite <- Hlen.
  pose proof (be_num_bound l) as Hl. pose proof (be_num_bound r) as Hr.
  unfold len in Hl, Hr. rewrite <- Hlen in Hr.
  unfold byte_cmp. destruct (N.compare_spec (b2n a) (b2n b)) as [->|E|E].
  - destruct (N.compare_spec (be_num l) (be_num r)) as [->|F|F].
    + apply N.compare_refl.
    + apply N.compare_lt_iff. lia.
    + apply N.compare_gt_iff. lia.
  - apply N.compare_lt_iff. nia.
  - apply N.compare_gt_iff. nia.
Qed.

Lemma be_num_inj l r : length l = length r -> be_num l = be_num r -> l = r.
Proof.
  intros Hlen H. rewrite <- (be_bytes_be_num l), <- (be_bytes_be_num r). congruence.
Qed.

Lemma be_bytes_inj n x y :
  (x < 256 ^ N.of_nat n)%N -> (y < 256 ^ N.of_nat n)%N ->
  be_bytes n x = be_bytes n y -> x = y.
Proof.
  intros Hx Hy H. rewrite <- (be_num_be_bytes n x), <- (be_num_be_bytes n y) by done. by f_equal.
Qed.

(** Bit operations on a byte: the seven payload bits and the top bit. *)
Lemma land_127 n : N.land n 127 = (n mod 128)%N.
Proof. change 127%N with (N.ones 7). by rewrite N.land_ones. Qed.

Lemma byte_land_128 b : (N.land (b2n b) 128 =? 0)%N = (b2n b <? 128)%N.
Proof. by destruct b. Qed.

Lemma lor_128 n : (n < 128)%N -> N.lor n 128 = (n + 128)%N.
Proof.
  intros Hn. rewrite <- N.lxor_lor, N.add_nocarry_lxor; [done|..];
    apply N.bits_inj; intros i; rewrite N.land_spec, N.bits_0;
    change 128%N with (2 ^ 7)%N; rewrite N.pow2_bits_eqb; destruct (N.eqb_spec 7 i) as [<-|];
    rewrite ?andb_false_r, ?andb_true_r; try done;
    rewrite <- (N.mod_small n (2 ^ 7)) by done; by apply N.mod_pow2_bits_high.
Qed.

Lemma lor_shiftl_add a b s : (a < 2 ^ s)%N -> N.lor a (b * 2 ^ s) = (a + b * 2 ^ s)%N.
Proof.
  intros Ha. assert (N.land a (b * 2 ^ s) = 0%N) as E.
  { apply N.bits_inj. intros i. rewrite N.land_spec, N.bits_0.
    destruct (N.lt_ge_cases i s).
    - rewrite N.mul_pow2_bits_low by done. apply andb_false_r.
    - rewrite <- (N.mod_small a (2 ^ s)) by done. by rewrite N.mod_pow2_bits_high. }
  by rewrite <- N.lxor_lor, N.add_nocarry_lxor.
Qed.
