(* ===== verification/Ids.v ===== *)
(** * Domain-separated identifiers (crates/sley-id)

    An identifier is 32 raw bytes.  [digest] hashes a domain tag followed by a
    preimage; BLAKE3 is a third-party crate and is the parameter [blake3] of
    the functions that hash.  Identifiers are ordered by four big-endian words
    ([words], [id_cmp]).

    The theorems show that this order is the byte order and the order of the
    bytes read as one big-endian number, which is why the other files may take
    an identifier to be a number; that no two (domain, preimage) pairs feed
    the same bytes to the hash; and that the 76-byte entity preimage
    determines its four inputs. *)

From S2P Require Import Prelude Bytes.
From stdpp Require Import strings.

Definition ID_LEN : nat := 32.

(** [b"..."] *)
Definition ascii (s : String.string) : bytes := String.list_byte_of_string s.

Inductive Domain : Type :=
| Workspace
| Entity
| Object
| StateRoot
| Transaction
| Receipt
| SchemaEpoch
| PolicyRoot
| CapabilityToken
| CapabilitySummary
| Candidate
| CandidateResult
| Query
| ContextCapsule
| SemanticFingerprint
| ValueHash
| BytecodeCacheKey
| Observation
| ExecutionReport
| TestReport
| RepositoryPack
| ProtocolHandshake
| ReferenceAdapter
| AdapterState
| AdapterTranscript
| IndexSnapshot
| RestrictedQueryCapsule
| ValidationProfile
| CandidateAttempt
| RepositoryExchange
| SemanticDelta
| MergeConflict
| RootQuery
| ProtocolFrame
| Session
| NativeExecutionProfile
| NativeObservation
| NativeTestPlan
| NativeResourcePolicy
| MeasuredTestAttestation
| NativeTestApproval
| NativeEvidenceBundle
| HistoricalAdmissionContext
| CommitAdmissionStatement
| HistoricalTrustPolicy
| SupervisorConfig
| NativeAdmissionProfile
| NativeExchangeProfile.

#[global] Instance Domain_eq_dec : EqDecision Domain.
Proof. solve_decision. Defined.

Definition domain_bytes (d : Domain) : bytes :=
  match d with
  | Workspace => ascii "sley2.workspace.v1"
  | Entity => ascii "sley2.entity.v1"
  | Object => ascii "sley2.object.v1"
  | StateRoot => ascii "sley2.state-root.v1"
  | Transaction => ascii "sley2.transaction.v1"
  | Receipt => ascii "sley2.transaction-receipt.v1"
  | SchemaEpoch => ascii "sley2.schema-epoch.v1"
  | PolicyRoot => ascii "sley2.policy-root.v1"
  | CapabilityToken => ascii "sley2.capability-token.v1"
  | CapabilitySummary => ascii "sley2.capability-summary.v1"
  | Candidate => ascii "sley2.candidate.v1"
  | CandidateResult => ascii "sley2.candidate-result.v1"
  | Query => ascii "sley2.query.v1"
  | ContextCapsule => ascii "sley2.context-capsule.v1"
  | SemanticFingerprint => ascii "sley2.semantic-fingerprint.v1"
  | ValueHash => ascii "sley2.value-hash.v1"
  | BytecodeCacheKey => ascii "sley2.vm-bytecode-cache-key.v1"
  | Observation => ascii "sley2.observation.v1"
  | ExecutionReport => ascii "sley2.execution-report.v1"
  | TestReport => ascii "sley2.test-report.v1"
  | RepositoryPack => ascii "sley2.repository-pack.v1"
  | ProtocolHandshake => ascii "sley2.protocol-handshake.v1"
  | ReferenceAdapter => ascii "sley2.reference-adapter-id.v1"
  | AdapterState => ascii "sley2.adapter-state.v1"
  | AdapterTranscript => ascii "sley2.adapter-transcript.v1"
  | IndexSnapshot => ascii "sley2.index-snapshot.v1"
  | RestrictedQueryCapsule => ascii "sley2.restricted-query-capsule.v1"
  | ValidationProfile => ascii "sley2.validation-profile.v1"
  | CandidateAttempt => ascii "sley2.candidate-attempt.v1"
  | RepositoryExchange => ascii "sley2.repository-exchange.v1"
  | SemanticDelta => ascii "sley2.semantic-delta.v1"
  | MergeConflict => ascii "sley2.merge-conflict.v1"
  | RootQuery => ascii "sley2.root-query.v1"
  | ProtocolFrame => ascii "sley2.protocol-frame.v1"
  | Session => ascii "sley2.session.v1"
  | NativeExecutionProfile => ascii "sley2.native-test-execution-profile.v1"
  | NativeObservation => ascii "sley2.native-test-observation.v1"
  | NativeTestPlan => ascii "sley2.native-test-plan.v1"
  | NativeResourcePolicy => ascii "sley2.native-test-resource-policy.v1"
  | MeasuredTestAttestation => ascii "sley2.native-test-measurement.v1"
  | NativeTestApproval => ascii "sley2.native-test-approval.v1"
  | NativeEvidenceBundle => ascii "sley2.native-test-evidence-bundle.v1"
  | HistoricalAdmissionContext => ascii "sley2.native-test-historical-context.v1"
  | CommitAdmissionStatement => ascii "sley2.native-test-admission-statement.v1"
  | HistoricalTrustPolicy => ascii "sley2.native-test-trust-policy.v1"
  | SupervisorConfig => ascii "sley2.native-test-supervisor-config.v1"
  | NativeAdmissionProfile => ascii "sley2.native-test-admission-profile.v1"
  | NativeExchangeProfile => ascii "sley2.native-test-exchange-profile.v1"
  end%string.

Definition all_domains : list Domain :=
  [Workspace; Entity; Object; StateRoot; Transaction; Receipt; SchemaEpoch; PolicyRoot; CapabilityToken; CapabilitySummary; Candidate; CandidateResult; Query; ContextCapsule; SemanticFingerprint; ValueHash; BytecodeCacheKey; Observation; ExecutionReport; TestReport; RepositoryPack; ProtocolHandshake; ReferenceAdapter; AdapterState; AdapterTranscript; IndexSnapshot; RestrictedQueryCapsule; ValidationProfile; CandidateAttempt; RepositoryExchange; SemanticDelta; MergeConflict; RootQuery; ProtocolFrame; Session; NativeExecutionProfile; NativeObservation; NativeTestPlan; NativeResourcePolicy; MeasuredTestAttestation; NativeTestApproval; NativeEvidenceBundle; HistoricalAdmissionContext; CommitAdmissionStatement; HistoricalTrustPolicy; SupervisorConfig; NativeAdmissionProfile; NativeExchangeProfile].

(** ** Hashing *)
Section hashing.
(** [blake3::Hasher]: [update] twice then [finalize] hashes the
    concatenation of the two updates. *)
Variable blake3 : bytes -> bytes.

Definition digest (d : Domain) (preimage : bytes) : bytes :=
  blake3 (domain_bytes d ++ preimage).

(** [WorkspaceId::derive] *)
Definition workspace_id_derive (genesis_nonce : bytes) : bytes :=
  digest Workspace genesis_nonce.

(** The 76-byte preimage [EntityId::derive] fills by [copy_from_slice]. *)
Definition entity_preimage
    (workspace_id candidate_nonce : bytes) (entity_kind creation_ordinal : N) : bytes :=
  workspace_id ++ candidate_nonce ++ be_bytes 4 entity_kind ++ be_bytes 8 creation_ordinal.

Definition entity_id_derive
    (workspace_id candidate_nonce : bytes) (entity_kind creation_ordinal : N) : bytes :=
  digest Entity (entity_preimage workspace_id candidate_nonce entity_kind creation_ordinal).

(** [digest_type!(ObjectId, Domain::Object)]; the other digest types differ
    only in the domain. *)
Definition digest_type_derive (d : Domain) (preimage : bytes) : bytes := digest d preimage.
Definition object_id_derive (preimage : bytes) : bytes := digest_type_derive Object preimage.
Definition state_root_derive (preimage : bytes) : bytes := digest_type_derive StateRoot preimage.
End hashing.

(** ** Order *)

(** The four eight-byte words of an identifier. *)
Definition words (id : bytes) : list N :=
  (fun index => be_num (take 8 (drop (index * 8) id))) <$> seq 0 4.

(** [Ord::cmp] of every identifier type. *)
Definition id_cmp (a b : bytes) : comparison := lex_compare N.compare (words a) (words b).

(** An identifier as a number. *)
Definition id_num (id : bytes) : N := be_num id.

(** Comparing concatenations of equal-length chunks is comparing the chunks
    in turn. *)
Lemma bytes_cmp_app a a' b b' :
  length a = length b ->
  bytes_cmp (a ++ a') (b ++ b') =
    match bytes_cmp a b with Eq => bytes_cmp a' b' | c => c end.
Proof.
  unfold bytes_cmp. revert b. induction a as [|x a IH]; intros [|y b] Hlen; try done.
  simpl in *. injection Hlen as Hlen. rewrite IH by done. by destruct (byte_cmp x y).
Qed.

Lemma id_chunks (id : bytes) :
  length id = ID_LEN ->
  id = take 8 id ++ take 8 (drop 8 id) ++ take 8 (drop 16 id) ++ take 8 (drop 24 id).
Proof.
  intros Hlen. unfold ID_LEN in Hlen.
  rewrite (take_ge (drop 24 id)) by (rewrite length_drop; lia).
  rewrite <- (take_drop 8 id) at 1. f_equal.
  rewrite <- (take_drop 8 (drop 8 id)) at 1. f_equal.
  rewrite drop_drop. rewrite <- (take_drop 8 (drop (8 + 8) id)) at 1. f_equal.
  by rewrite drop_drop.
Qed.

Lemma length_chunk (id : bytes) k :
  length id = ID_LEN -> (k + 8 <= 32)%nat -> length (take 8 (drop k id)) = 8%nat.
Proof. unfold ID_LEN. intros. rewrite length_take, length_drop. lia. Qed.

(** The order of identifiers by four big-endian words is the order of
    their bytes and of the numbers they spell, and two identifiers compare
    equal only if they are the same bytes. *)
Theorem id_order_is_byte_order (a b : bytes) :
  length a = ID_LEN -> length b = ID_LEN ->
  id_cmp a b = bytes_cmp a b /\ id_cmp a b = (id_num a ?= id_num b)%N /\
  (id_cmp a b = Eq <-> a = b).
Proof.
  intros Ha Hb.
  assert (id_cmp a b = bytes_cmp a b) as E.
  { rewrite (id_chunks a Ha), (id_chunks b Hb) at 2.
    pose proof (length_chunk a 0 Ha) as La. pose proof (length_chunk b 0 Hb) as Lb.
    rewrite drop_0 in La, Lb.
    rewrite !bytes_cmp_app by
      (rewrite ?La, ?Lb, ?(length_chunk a), ?(length_chunk b) by (done || lia); done).
    unfold id_cmp, words. cbn [seq fmap list_fmap lex_compare Nat.mul Nat.add].
    rewrite !be_num_compare by
      (rewrite ?drop_0, ?La, ?Lb, ?(length_chunk a), ?(length_chunk b) by (done || lia); lia).
    rewrite !drop_0.
    destruct (bytes_cmp (take 8 a) (take 8 b)); [|done..].
    destruct (bytes_cmp (take 8 (drop 8 a)) _); [|done..].
    destruct (bytes_cmp (take 8 (drop 16 a)) _); [|done..].
    by destruct (bytes_cmp (take 8 (drop 24 a)) _). }
  split; [done|]. rewrite E. split.
  - unfold id_num. symmetry. apply be_num_compare. congruence.
  - apply bytes_total_compare.
Qed.

Theorem id_order_is_byte_order_witness :
  id_cmp (replicate 31 x00 ++ [x01]) (x01 :: replicate 31 x00) = Lt /\
  (id_num (replicate 31 x00 ++ [x01]) ?= id_num (x01 :: replicate 31 x00))%N = Lt.
Proof.
  destruct (id_order_is_byte_order (replicate 31 x00 ++ [x01]) (x01 :: replicate 31 x00)) as (E1 & E2 & _);
    [reflexivity|reflexivity|]. rewrite <- E2, E1. split; vm_compute; reflexivity.
Defined.

(** ** Domain separation *)

(** [l] is a prefix of [r]. *)
Fixpoint is_prefix (l r : bytes) : bool :=
  match l, r with
  | [], _ => true
  | _, [] => false
  | x :: l, y :: r => bool_decide (x = y) && is_prefix l r
  end.

Lemma app_eq_is_prefix a b x y : a ++ x = b ++ y -> is_prefix a b = true \/ is_prefix b a = true.
Proof.
  revert b. induction a as [|c a IH]; intros [|d b] H; simpl; auto.
  simpl in H. injection H as -> H. rewrite !bool_decide_true by done. simpl. eauto.
Qed.

(** No domain tag is a prefix of another one. *)
Definition domains_prefix_free : bool :=
  forallb (fun d => forallb (fun e =>
    bool_decide (d = e) || negb (is_prefix (domain_bytes d) (domain_bytes e))) all_domains) all_domains.

Lemma elem_of_all_domains d : In d all_domains.
Proof. destruct d; vm_compute; tauto. Qed.

Lemma domain_prefix_eq d e : is_prefix (domain_bytes d) (domain_bytes e) = true -> d = e.
Proof.
  intros H. assert (domains_prefix_free = true) as Hpf by (vm_compute; reflexivity).
  unfold domains_prefix_free in Hpf. rewrite forallb_forall in Hpf.
  specialize (Hpf d (elem_of_all_domains d)). rewrite forallb_forall in Hpf.
  specialize (Hpf e (elem_of_all_domains e)). rewrite H, orb_false_r in Hpf.
  by apply bool_decide_eq_true_1 in Hpf.
Qed.

(** The bytes that two derivations hash are equal only if their domains
    and their preimages are: no domain tag is a prefix of another one. *)
Theorem domain_separation d1 d2 p1 p2 :
  domain_bytes d1 ++ p1 = domain_bytes d2 ++ p2 -> d1 = d2 /\ p1 = p2.
Proof.
  intros H. assert (d1 = d2) as ->.
  { destruct (app_eq_is_prefix _ _ _ _ H) as [E|E]; [|symmetry]; by apply domain_prefix_eq. }
  split; [done|]. by apply app_inv_head in H.
Qed.

(** The 76 bytes an entity identifier is derived from determine the
    workspace, the nonce, the kind and the creation ordinal. *)
Theorem entity_preimage_injective w1 n1 k1 o1 w2 n2 k2 o2 :
  length w1 = ID_LEN -> length w2 = ID_LEN -> length n1 = ID_LEN -> length n2 = ID_LEN ->
  (k1 < 2 ^ 32)%N -> (k2 < 2 ^ 32)%N -> (o1 < 2 ^ 64)%N -> (o2 < 2 ^ 64)%N ->
  entity_preimage w1 n1 k1 o1 = entity_preimage w2 n2 k2 o2 ->
  w1 = w2 /\ n1 = n2 /\ k1 = k2 /\ o1 = o2.
Proof.
  intros Hw1 Hw2 Hn1 Hn2 Hk1 Hk2 Ho1 Ho2 H. unfold entity_preimage in H.
  apply app_inj_1 in H as [-> H]; [|congruence].
  apply app_inj_1 in H as [-> H]; [|congruence].
  apply app_inj_1 in H as [Hk Ho]; [|by rewrite !length_be_bytes].
  apply be_bytes_inj in Hk; [|done..]. apply be_bytes_inj in Ho; [|done..]. done.
Qed.

Theorem domain_separation_witness :
  Object = Object /\ [x01] = [x01].
Proof. apply (domain_separation Object Object [x01] [x01]). reflexivity. Defined.

Theorem entity_preimage_injective_witness :
  replicate 32 x01 = replicate 32 x01 /\ replicate 32 x02 = replicate 32 x02 /\ 5%N = 5%N /\ 9%N = 9%N.
Proof.
  apply (entity_preimage_injective (replicate 32 x01) (replicate 32 x02) 5 9 (replicate 32 x01) (replicate 32 x02) 5 9);
    reflexivity.
Defined.
