(* ===== verification/Utf8.v ===== *)
(** * UTF-8 validity

    [str::from_utf8] of the Rust standard library, as the byte ranges of
    well-formed UTF-8: one leading byte fixes how many continuation bytes
    follow and the range of the first of them. *)

From S2P Require Import Prelude Bytes.

Definition in_range (lo hi : N) (b : byte) : bool := (lo <=? b2n b)%N && (b2n b <=? hi)%N.

Definition is_cont (b : byte) : bool := in_range 0x80 0xBF b.

(** Whether [l] is well-formed; the fuel is the number of bytes left. *)
Fixpoint utf8_ok (fuel : nat) (l : bytes) : bool :=
  match fuel, l with
  | _, [] => true
  | O, _ :: _ => false
  | S fuel, b0 :: l =>
      if in_range 0x00 0x7F b0 then utf8_ok fuel l
      else if in_range 0xC2 0xDF b0 then
        match l with
        | b1 :: l => is_cont b1 && utf8_ok fuel l
        | _ => false
        end
      else if in_range 0xE0 0xEF b0 then
        match l with
        | b1 :: b2 :: l =>
            in_range (if (b2n b0 =? 0xE0)%N then 0xA0 else 0x80)
                     (if (b2n b0 =? 0xED)%N then 0x9F else 0xBF) b1
            && is_cont b2 && utf8_ok fuel l
        | _ => false
        end
      else if in_range 0xF0 0xF4 b0 then
        match l with
        | b1 :: b2 :: b3 :: l =>
            in_range (if (b2n b0 =? 0xF0)%N then 0x90 else 0x80)
                     (if (b2n b0 =? 0xF4)%N then 0x8F else 0xBF) b1
            && is_cont b2 && is_cont b3 && utf8_ok fuel l
        | _ => false
        end
      else false
  end.

Definition from_utf8_ok (l : bytes) : bool := utf8_ok (length l) l.

(** The UTF-8 bytes of a Unicode scalar value. *)
Definition utf8_encode_char (c : N) : bytes :=
  if (c <? 0x80)%N then [n2b c]
  else if (c <? 0x800)%N then [n2b (0xC0 + c / 64); n2b (0x80 + c mod 64)]
  else if (c <? 0x10000)%N then
    [n2b (0xE0 + c / 4096); n2b (0x80 + (c / 64) mod 64); n2b (0x80 + c mod 64)]
  else
    [n2b (0xF0 + c / 262144); n2b (0x80 + (c / 4096) mod 64);
     n2b (0x80 + (c / 64) mod 64); n2b (0x80 + c mod 64)].

Lemma utf8_ok_fuel k l : (length l <= k)%nat -> utf8_ok k l = utf8_ok (length l) l.
Proof.
  enough (forall k k' l, (length l <= k)%nat -> (length l <= k')%nat -> utf8_ok k l = utf8_ok k' l) as H
    by (intros; by apply H).
  clear. intros k. induction k as [|k IH]; intros [|k'] [|b0 l] Hk Hk'; simpl in *; try done; try lia.
  rewrite (IH k' l) by lia. destruct (in_range 0 0x7F b0); [done|].
  destruct l as [|b1 l]; [done|]. simpl in *. rewrite (IH k' l) by lia.
  destruct (in_range 0xC2 0xDF b0); [done|].
  destruct l as [|b2 l]; [done|]. simpl in *. rewrite (IH k' l) by lia.
  destruct (in_range 0xE0 0xEF b0); [done|].
  destruct l as [|b3 l]; [done|]. simpl in *. by rewrite (IH k' l) by lia.
Qed.

Example utf8_surrogate : from_utf8_ok [xed; xa0; x80] = false.
Proof. reflexivity. Qed.
Example utf8_overlong : from_utf8_ok [xc0; x80] = false.
Proof. reflexivity. Qed.
Example utf8_euro : from_utf8_ok [xe2; x82; xac] = true.
Proof. reflexivity. Qed.
