(* ===== verification/Scb1Core.v ===== *)
(** * SCB1 primitives (crates/sley-scb1): errors, encoders, the reader

    The encoders of the primitive values, the strict [Reader] cursor over a
    byte slice, and the base-128 varints of 64 and 128 bits.  The lemmas say
    what a read consumes; the varint theorems say that the reader accepts
    exactly the bytes the encoder writes. *)

From S2P Require Import Prelude Bytes.
From stdpp Require Import strings.

(** ** Constants and errors *)

Definition MAX_STANDALONE_BYTES : N := 67108864.
Definition MAX_BYTE_PAYLOAD : N := 16777216.
Definition MAX_NESTING_DEPTH : N := 64.
Definition MAX_RECORD_FIELDS : N := 65535.
Definition MAX_COLLECTION_ELEMENTS : N := 1000000.

(** The variants of [ScbErrorCode], prefixed by [Scb]. *)
Inductive ScbErrorCode : Type :=
| ScbMagicInvalid
| ScbVersionUnsupported
| ScbContractUnknown
| ScbEpochMismatch
| ScbDigestMismatch
| ScbTrailingBytes
| ScbVarintNonMinimal
| ScbIntegerOverflow
| ScbLengthOverflow
| ScbBoolInvalid
| ScbUtf8Invalid
| ScbLabelNotNfc
| ScbFloatNonCanonical
| ScbFieldMissing
| ScbFieldUnknown
| ScbFieldDuplicate
| ScbFieldOrder
| ScbUnionInvalid
| ScbMapOrder
| ScbMapDuplicate
| ScbExtensionUnknown
| ScbResourceLimit.

#[global] Instance ScbErrorCode_eq_dec : EqDecision ScbErrorCode.
Proof. solve_decision. Defined.

Definition ScbErrorCode_as_str (c : ScbErrorCode) : string :=
  match c with
  | ScbMagicInvalid => "SCB_MAGIC_INVALID"
  | ScbVersionUnsupported => "SCB_VERSION_UNSUPPORTED"
  | ScbContractUnknown => "SCB_CONTRACT_UNKNOWN"
  | ScbEpochMismatch => "SCB_EPOCH_MISMATCH"
  | ScbDigestMismatch => "SCB_DIGEST_MISMATCH"
  | ScbTrailingBytes => "SCB_TRAILING_BYTES"
  | ScbVarintNonMinimal => "SCB_VARINT_NON_MINIMAL"
  | ScbIntegerOverflow => "SCB_INTEGER_OVERFLOW"
  | ScbLengthOverflow => "SCB_LENGTH_OVERFLOW"
  | ScbBoolInvalid => "SCB_BOOL_INVALID"
  | ScbUtf8Invalid => "SCB_UTF8_INVALID"
  | ScbLabelNotNfc => "SCB_LABEL_NOT_NFC"
  | ScbFloatNonCanonical => "SCB_FLOAT_NON_CANONICAL"
  | ScbFieldMissing => "SCB_FIELD_MISSING"
  | ScbFieldUnknown => "SCB_FIELD_UNKNOWN"
  | ScbFieldDuplicate => "SCB_FIELD_DUPLICATE"
  | ScbFieldOrder => "SCB_FIELD_ORDER"
  | ScbUnionInvalid => "SCB_UNION_INVALID"
  | ScbMapOrder => "SCB_MAP_ORDER"
  | ScbMapDuplicate => "SCB_MAP_DUPLICATE"
  | ScbExtensionUnknown => "SCB_EXTENSION_UNKNOWN"
  | ScbResourceLimit => "SCB_RESOURCE_LIMIT"
  end%string.

(** [Result<T>] of the crate; [ScbError] only wraps its code. *)
Abbreviation scb_result A := (result ScbErrorCode A).

(** ** Primitive encoders *)

(** The loop of [encode_uvar] and [encode_uvar128]: low seven bits first,
    the top bit marking that another byte follows.  The [N] is the number of
    groups still allowed: ten for a [u64], nineteen for a [u128]. *)
Fixpoint uvar_groups (fuel : nat) (value : N) : bytes :=
  match fuel with
  | O => []
  | S fuel =>
      let byte := N.land value 127 in
      let value := N.shiftr value 7 in
      if (value =? 0)%N then [n2b byte]
      else n2b (N.lor byte 128) :: uvar_groups fuel value
  end.

Definition encode_uvar (value : N) : bytes := uvar_groups 10 value.

(** [encode_uvar128_into]: writes into the caller's 19-byte array and returns
    the length written; an index past the array panics ([None]). *)
Fixpoint encode_uvar128_loop (fuel : nat) (value : N) (out : bytes) (length : nat)
    : option (nat * bytes) :=
  match fuel with
  | O => None
  | S fuel =>
      let byte := N.land value 127 in
      let value := N.shiftr value 7 in
      let byte := if (value =? 0)%N then byte else N.lor byte 128 in
      if decide (length < List.length out)%nat then
        let out := <[length := n2b byte]> out in
        if (value =? 0)%N then Some (S length, out)
        else encode_uvar128_loop fuel value out (S length)
      else None
  end.

Definition encode_uvar128_into (value : N) (out : bytes) : option (nat * bytes) :=
  encode_uvar128_loop 20 value out 0.

Definition encode_uvar128 (value : N) : option bytes :=
  match encode_uvar128_into value (replicate 19 x00) with
  | Some (length, out) => Some (take length out)
  | None => None
  end.

(** [((value << 1) ^ (value >> (w - 1))).cast_unsigned()] at width [w]: the
    shift left drops the bits above [w], the shift right is arithmetic. *)
Definition zigzag (w : Z) (value : Z) : N :=
  Z.to_N (Z.lxor (Z.shiftl value 1) (Z.shiftr value (w - 1)) mod 2 ^ w).

Definition encode_sint64 (value : Z) : bytes := encode_uvar (zigzag 64 value).
Definition encode_sint128 (value : Z) : option bytes := encode_uvar128 (zigzag 128 value).
Definition encode_sint128_into (value : Z) (out : bytes) : option (nat * bytes) :=
  encode_uvar128_into (zigzag 128 value) out.

Definition encode_bool (value : bool) : bytes := [if value then x01 else x00].

Definition encode_sized (b : bytes) : scb_result bytes :=
  guard! (len b <=? MAX_STANDALONE_BYTES)%N else ScbResourceLimit;
  Ok (encode_uvar (len b) ++ b).

Definition encode_bytes (b : bytes) : scb_result bytes :=
  guard! (len b <=? MAX_BYTE_PAYLOAD)%N else ScbResourceLimit;
  encode_sized b.

(** [encode_text]: a [&str] is its UTF-8 bytes. *)
Definition encode_text (text : bytes) : scb_result bytes := encode_bytes text.

Definition validate_f32_bits (bits : N) : scb_result unit :=
  if (bits =? 0x80000000)%N
     || ((N.land bits 0x7f800000 =? 0x7f800000)%N
         && negb (N.land bits 0x007fffff =? 0)%N
         && negb (bits =? 0x7fc00000)%N)
  then Err ScbFloatNonCanonical else Ok tt.

Definition validate_f64_bits (bits : N) : scb_result unit :=
  if (bits =? 0x8000000000000000)%N
     || ((N.land bits 0x7ff0000000000000 =? 0x7ff0000000000000)%N
         && negb (N.land bits 0x000fffffffffffff =? 0)%N
         && negb (bits =? 0x7ff8000000000000)%N)
  then Err ScbFloatNonCanonical else Ok tt.

Definition encode_f32_bits (bits : N) : scb_result bytes :=
  validate_f32_bits bits ≫= fun _ => Ok (be_bytes 4 bits).

Definition encode_f64_bits (bits : N) : scb_result bytes :=
  validate_f64_bits bits ≫= fun _ => Ok (be_bytes 8 bits).

Definition encode_union (tag : N) (payload : bytes) : scb_result bytes :=
  encode_sized payload ≫= fun sized => Ok (encode_uvar tag ++ sized).

Definition encode_option_uvar (value : option N) : scb_result bytes :=
  match value with
  | None => encode_union 0 []
  | Some value => encode_union 1 (encode_uvar value)
  end.

(** ** The reader *)

Record Reader : Type := mkReader { rd_input : bytes; rd_position : N }.

Definition Reader_new (input : bytes) : Reader := mkReader input 0.

(** [&mut Reader -> Result<A>]: the reader is kept when the read fails. *)
Definition RM (A : Type) : Type := Reader -> scb_result A * Reader.

#[global] Instance RM_ret : MRet RM := fun A a r => (Ok a, r).
#[global] Instance RM_bind : MBind RM := fun A B f m r =>
  match m r with
  | (Ok a, r') => f a r'
  | (Err e, r') => (Err e, r')
  end.

Definition rfail {A} (e : ScbErrorCode) : RM A := fun r => (Err e, r).
Definition rlift {A} (m : scb_result A) : RM A := fun r => (m, r).

Definition is_finished (r : Reader) : bool := (rd_position r =? len (rd_input r))%N.

(** [&self.input[start..self.position]] *)
Definition slice_from (start : N) (r : Reader) : bytes :=
  take (N.to_nat (rd_position r - start)) (drop (N.to_nat start) (rd_input r)).

Definition take_exact (n : N) : RM bytes := fun r =>
  match checked_add (rd_position r) n with
  | None => (Err ScbLengthOverflow, r)
  | Some end_ =>
      if (len (rd_input r) <? end_)%N then (Err ScbLengthOverflow, r)
      else (Ok (take (N.to_nat n) (drop (N.to_nat (rd_position r)) (rd_input r))),
            mkReader (rd_input r) end_)
  end.

Definition read_u8 : RM byte :=
  s ← take_exact 1;
  match s with
  | b :: _ => mret b
  | [] => rfail ScbLengthOverflow
  end.

(** The loop shared by [read_uvar_width] ([bits] = 64, at shift 63 at most 1)
    and [read_uvar128_width] ([bits] = 128, at shift 126 at most 3). *)
Fixpoint read_uvar_loop (bits last_shift last_max : N) (width : N)
    (fuel : nat) (value shift bytes_read : N) : RM N :=
  match fuel with
  | O => rfail ScbIntegerOverflow
  | S fuel =>
      byte ← read_u8;
      let bytes_read := (bytes_read + 1)%N in
      let payload := N.land (b2n byte) 127 in
      if (bits <=? shift)%N && negb (payload =? 0)%N then rfail ScbIntegerOverflow
      else if (shift =? last_shift)%N && (last_max <? payload)%N then rfail ScbIntegerOverflow
      else
        let value :=
          if (shift <? bits)%N
          then N.lor value (N.land (N.shiftl payload shift) (N.ones bits)) else value in
        if (N.land (b2n byte) 128 =? 0)%N then
          if (1 <? bytes_read)%N && (payload =? 0)%N then rfail ScbVarintNonMinimal
          else if (width <? bits)%N && (2 ^ width <=? value)%N then rfail ScbIntegerOverflow
          else mret value
        else
          let shift := (shift + 7)%N in
          if (bits + 7 <=? shift)%N then rfail ScbIntegerOverflow
          else read_uvar_loop bits last_shift last_max width fuel value shift bytes_read
  end.

(** A byte is read at shifts 0, 7, ..., 70 (u64) and 0, ..., 133 (u128), so
    eleven and twenty iterations end the loop. *)
Definition read_uvar_width (width : N) : RM N :=
  read_uvar_loop 64 63 1 width 11 0 0 0.
Definition read_uvar128_width (width : N) : RM N :=
  read_uvar_loop 128 126 3 width 20 0 0 0.

Definition read_len (max : N) : RM N :=
  n ← read_uvar_width 64;
  if (max <? n)%N then rfail ScbResourceLimit else mret n.

Definition read_count : RM N :=
  n ← read_uvar_width 64;
  if (MAX_COLLECTION_ELEMENTS <? n)%N then rfail ScbResourceLimit else mret n.

Definition read_record_field_count : RM N :=
  n ← read_uvar_width 64;
  if (MAX_RECORD_FIELDS <? n)%N then rfail ScbResourceLimit else mret n.

(** ** What a read consumes *)

Definition rest (r : Reader) : bytes := drop (N.to_nat (rd_position r)) (rd_input r).
Definition advance (n : N) (r : Reader) : Reader := mkReader (rd_input r) (rd_position r + n).

(** The cursor never runs past its slice, and a slice is shorter than the
    address space. *)
Definition reader_ok (r : Reader) : Prop :=
  (rd_position r <= len (rd_input r))%N /\ (len (rd_input r) < U64_LIMIT)%N.

Lemma advance_0 r : advance 0 r = r.
Proof. destruct r. unfold advance. simpl. f_equal. lia. Qed.

Lemma advance_advance n m r : advance n (advance m r) = advance (m + n) r.
Proof. unfold advance. simpl. f_equal. lia. Qed.

Lemma rest_advance n r : rest (advance n r) = drop (N.to_nat n) (rest r).
Proof. unfold rest, advance. simpl. rewrite drop_drop. f_equal. lia. Qed.

Lemma rest_advance_app bs tl r : rest r = bs ++ tl -> rest (advance (len bs) r) = tl.
Proof.
  intros H. rewrite rest_advance, H. unfold len. rewrite Nat2N.id. by rewrite drop_app_length.
Qed.

Lemma reader_ok_new input : (len input < U64_LIMIT)%N -> reader_ok (Reader_new input).
Proof. unfold reader_ok, Reader_new. simpl. lia. Qed.

Lemma len_rest r : reader_ok r -> len (rest r) = (len (rd_input r) - rd_position r)%N.
Proof. intros [? ?]. unfold rest, len. rewrite length_drop. lia. Qed.

Lemma reader_ok_advance bs tl r : reader_ok r -> rest r = bs ++ tl -> reader_ok (advance (len bs) r).
Proof.
  intros Hok H. pose proof (len_rest _ Hok) as Hl. rewrite H, len_app in Hl.
  destruct Hok as [? ?]. split; simpl; lia.
Qed.

Lemma reader_ok_advance1 b tl r : reader_ok r -> rest r = b :: tl -> reader_ok (advance 1 r).
Proof. apply (reader_ok_advance [b]). Qed.

Lemma rest_advance1 b tl r : rest r = b :: tl -> rest (advance 1 r) = tl.
Proof. apply (rest_advance_app [b]). Qed.

Lemma is_finished_rest r : reader_ok r -> is_finished r = true <-> rest r = [].
Proof.
  intros Hok. unfold is_finished. rewrite N.eqb_eq. pose proof (len_rest _ Hok) as Hl.
  destruct Hok as [? ?]. split; intros H'.
  - assert (len (rest r) = 0)%N as E by lia. unfold len in E. destruct (rest r); [done|simpl in E; lia].
  - rewrite H', len_nil in Hl. lia.
Qed.

Lemma take_exact_spec n r :
  reader_ok r ->
  take_exact n r =
    if (n <=? len (rest r))%N
    then (Ok (take (N.to_nat n) (rest r)), advance n r) else (Err ScbLengthOverflow, r).
Proof.
  intros Hok. rewrite (len_rest _ Hok). destruct Hok as [? ?].
  unfold take_exact, checked_add.
  destruct (N.ltb_spec (rd_position r + n) U64_LIMIT);
    destruct (N.leb_spec n (len (rd_input r) - rd_position r)); try done; try lia.
  - destruct (N.ltb_spec (len (rd_input r)) (rd_position r + n)); [lia|done].
  - destruct (N.ltb_spec (len (rd_input r)) (rd_position r + n)); [done|lia].
Qed.

(** ** Strict readers

    [Strict m E]: [m] accepts exactly the byte strings [bs] with [E a bs] for
    some [a], returns that [a], and moves past them. *)
Record Strict {A} (m : RM A) (E : A -> bytes -> Prop) : Prop := {
  strict_complete : forall a bs tl r, reader_ok r -> E a bs -> rest r = bs ++ tl ->
    m r = (Ok a, advance (len bs) r);
  strict_sound : forall a r r', reader_ok r -> m r = (Ok a, r') ->
    exists bs, E a bs /\ rest r = bs ++ rest r' /\ r' = advance (len bs) r
}.

Lemma rbind_Ok {A B} (m : RM A) (k : A -> RM B) r b r'' :
  (m ≫= k) r = (Ok b, r'') <-> exists a r', m r = (Ok a, r') /\ k a r' = (Ok b, r'').
Proof.
  unfold mbind, RM_bind. destruct (m r) as [[a|e] r'].
  - split; [intros H; by exists a, r'|]. by intros (? & ? & [= -> ->] & ?).
  - split; [done|]. by intros (? & ? & ? & ?).
Qed.

Lemma strict_iff {A} (m : RM A) E F :
  (forall a bs, E a bs <-> F a bs) -> Strict m E -> Strict m F.
Proof.
  intros Hiff [Hc Hs]. split.
  - intros a bs tl r Hok HF. apply Hc; [done|by apply Hiff].
  - intros a r r' Hok H. destruct (Hs _ _ _ Hok H) as (bs & HE & ?).
    exists bs. by rewrite <- Hiff.
Qed.

Lemma strict_ret {A} (a : A) : Strict (mret a) (fun b bs => b = a /\ bs = []).
Proof.
  split.
  - intros b bs tl r _ [-> ->] _. rewrite len_nil, advance_0. done.
  - intros b r r' _ [= -> ->]. exists []. rewrite len_nil, advance_0. done.
Qed.

Lemma strict_fail {A} e : Strict (rfail e : RM A) (fun _ _ => False).
Proof. by split. Qed.

Lemma strict_bind_when {A B} (m : RM A) (k : A -> RM B) E F :
  Strict m E -> (forall a bs, E a bs -> Strict (k a) (F a)) ->
  Strict (m ≫= k) (fun b bs => exists a bs1 bs2, E a bs1 /\ F a b bs2 /\ bs = bs1 ++ bs2).
Proof.
  intros [Hc Hs] Hk. split.
  - intros b bs tl r Hok (a & bs1 & bs2 & HE & HF & ->) Hr. rewrite <- app_assoc in Hr.
    rewrite (rbind_Ok m k). exists a, (advance (len bs1) r). split; [by eapply Hc|].
    rewrite len_app, <- advance_advance. eapply (Hk a _ HE); [|done|].
    + by eapply reader_ok_advance.
    + by eapply rest_advance_app.
  - intros b r r'' Hok (a & r' & Hm & Hka)%rbind_Ok.
    destruct (Hs _ _ _ Hok Hm) as (bs1 & HE & Hr & ->).
    assert (reader_ok (advance (len bs1) r)) as Hok' by by eapply reader_ok_advance.
    destruct (strict_sound _ _ (Hk a _ HE) _ _ _ Hok' Hka) as (bs2 & HF & Hr' & ->).
    exists (bs1 ++ bs2). split; [by exists a, bs1, bs2|].
    rewrite len_app, <- advance_advance, <- app_assoc, <- Hr'. done.
Qed.

Lemma strict_bind {A B} (m : RM A) (k : A -> RM B) E F :
  Strict m E -> (forall a, Strict (k a) (F a)) ->
  Strict (m ≫= k) (fun b bs => exists a bs1 bs2, E a bs1 /\ F a b bs2 /\ bs = bs1 ++ bs2).
Proof. intros Hm Hk. apply strict_bind_when; auto. Qed.

(** A test that fails the read restricts the relation. *)
Lemma strict_guard {A} (b : bool) e (m : RM A) E :
  Strict m E -> Strict (if b then rfail e else m) (fun a bs => b = false /\ E a bs).
Proof.
  intros H. destruct b.
  - eapply strict_iff; [|apply strict_fail]. naive_solver.
  - eapply strict_iff; [|exact H]. naive_solver.
Qed.

Lemma strict_take_exact n : Strict (take_exact n) (fun s bs => bs = s /\ len s = n).
Proof.
  split.
  - intros s bs tl r Hok [-> <-] Hr. rewrite take_exact_spec by done.
    rewrite Hr, len_app. destruct (N.leb_spec (len s) (len s + len tl)); [|lia].
    unfold len at 1. by rewrite Nat2N.id, take_app_length.
  - intros s r r' Hok. rewrite take_exact_spec by done.
    destruct (N.leb_spec n (len (rest r))) as [Hn|]; [|done]. intros [= <- <-].
    assert (len (take (N.to_nat n) (rest r)) = n) as E.
    { unfold len in *. rewrite length_take. lia. }
    exists (take (N.to_nat n) (rest r)). rewrite E, rest_advance, take_drop. done.
Qed.

Lemma strict_read_u8 : Strict read_u8 (fun b bs => bs = [b]).
Proof.
  unfold read_u8. eapply strict_iff; [|apply strict_bind; [apply strict_take_exact|]].
  2:{ intros s. instantiate (1 := fun s b bs => bs = [] /\ exists l, s = b :: l).
      destruct s as [|c s].
      - eapply strict_iff; [|apply strict_fail]. naive_solver.
      - eapply strict_iff; [|apply strict_ret]. naive_solver. }
  intros b bs. split.
  - intros (s & bs1 & bs2 & [-> Hl] & [-> [l ->]] & ->). rewrite app_nil_r.
    rewrite len_cons in Hl. destruct l; [done|]. rewrite len_cons in Hl. lia.
  - intros ->. exists [b], [b], []. split_and!; try done. by exists [].
Qed.

(** ** Varints *)

Lemma uvar_groups_fuel k k' v :
  (v < 2 ^ (7 * N.of_nat k))%N -> (v < 2 ^ (7 * N.of_nat k'))%N -> (0 < k)%nat -> (0 < k')%nat ->
  uvar_groups k v = uvar_groups k' v.
Proof.
  revert k' v. induction k as [|k IH]; intros [|k'] v Hv Hv' Hk Hk'; try lia. simpl.
  rewrite N.shiftr_div_pow2. change (2 ^ 7)%N with 128%N.
  destruct (N.eqb_spec (v / 128) 0) as [|Hne]; [done|]. f_equal.
  assert (forall m, v < 2 ^ (7 * N.of_nat (S m)) -> v / 128 < 2 ^ (7 * N.of_nat m) /\ (0 < m)%nat)%N as Hd.
  { intros m Hm. replace (7 * N.of_nat (S m))%N with (7 + 7 * N.of_nat m)%N in Hm by lia.
    rewrite N.pow_add_r in Hm. change (2 ^ 7)%N with 128%N in Hm. split.
    - by apply N.Div0.div_lt_upper_bound.
    - destruct m; [|lia]. simpl in Hm. rewrite N.div_small in Hne by lia. done. }
  destruct (Hd _ Hv), (Hd _ Hv'). by apply IH.
Qed.

Section varint.
(** [last_shift] is the last shift inside the integer; at it the payload
    may only use the bits that are left. *)
Context (bits last_shift last_max width : N).
Hypothesis Hlast : (last_shift < bits)%N.
Hypothesis Hseven : (bits <= last_shift + 7)%N.
Hypothesis Hmod : (last_shift mod 7 = 0)%N.
Hypothesis Hmax : last_max = (2 ^ (bits - last_shift) - 1)%N.

Abbreviation loop := (read_uvar_loop bits last_shift last_max width).

(** The loop invariant: [value] holds the bits below [shift]. *)
Definition loop_inv (value shift n : N) : Prop :=
  (value < 2 ^ shift)%N /\ (shift mod 7 = 0)%N /\ (n = 0 <-> shift = 0)%N.

Lemma last_shift_max shift :
  (shift mod 7 = 0)%N -> (shift < bits)%N -> (shift <= last_shift)%N.
Proof using Hlast Hseven Hmod Hmax.
  intros. destruct (N.le_gt_cases shift last_shift); [done|].
  pose proof (N.div_mod shift 7). pose proof (N.div_mod last_shift 7). lia.
Qed.

(** The value after one more group. *)
Lemma loop_value value shift payload :
  (value < 2 ^ shift)%N -> (payload * 2 ^ shift < 2 ^ bits)%N ->
  N.lor value (N.land (N.shiftl payload shift) (N.ones bits)) = (value + payload * 2 ^ shift)%N.
Proof using Hlast Hseven Hmod Hmax.
  intros Hv Hp. rewrite N.shiftl_mul_pow2, N.land_ones, N.mod_small by done.
  by apply lor_shiftl_add.
Qed.

Lemma loop_value_bound value shift payload :
  (value < 2 ^ shift)%N -> (payload < 128)%N ->
  (value + payload * 2 ^ shift < 2 ^ (shift + 7))%N.
Proof using Hlast Hseven Hmod Hmax.
  intros Hv Hp. rewrite N.pow_add_r. change (2 ^ 7)%N with 128%N. nia.
Qed.

Lemma pow_split shift v : (shift <= bits)%N -> (v < 2 ^ (bits - shift))%N -> (v * 2 ^ shift < 2 ^ bits)%N.
Proof using Hlast Hseven Hmod Hmax.
  intros Hs Hv. replace bits with (bits - shift + shift)%N at 1 by lia.
  rewrite N.pow_add_r. pose proof (N.pow_nonzero 2 shift ltac:(lia)). nia.
Qed.

Lemma loop_inv_next value shift n payload :
  loop_inv value shift n -> (payload < 128)%N ->
  loop_inv (value + payload * 2 ^ shift) (shift + 7) (n + 1).
Proof using Hlast Hseven Hmod Hmax.
  intros (Hv & Hs & Hn) Hp. split_and!; [by apply loop_value_bound|..].
  - rewrite <- N.Div0.add_mod_idemp_r. change (7 mod 7)%N with 0%N. by rewrite N.add_0_r.
  - lia.
Qed.

(** One iteration, once the byte is read. *)
Lemma loop_byte fuel value shift n r b tl :
  reader_ok r -> rest r = b :: tl -> (shift < bits)%N ->
  (shift = last_shift -> b2n b mod 128 <= last_max)%N ->
  (value < 2 ^ shift)%N -> (b2n b mod 128 * 2 ^ shift < 2 ^ bits)%N ->
  loop (S fuel) value shift n r =
    let value := (value + b2n b mod 128 * 2 ^ shift)%N in
    let r := advance 1 r in
    if (b2n b <? 128)%N then
      if (1 <? n + 1)%N && (b2n b mod 128 =? 0)%N then (Err ScbVarintNonMinimal, r)
      else if (width <? bits)%N && (2 ^ width <=? value)%N then (Err ScbIntegerOverflow, r)
      else (Ok value, r)
    else if (bits + 7 <=? shift + 7)%N then (Err ScbIntegerOverflow, r)
    else loop fuel value (shift + 7) (n + 1) r.
Proof using Hlast Hseven Hmod Hmax.
  intros Hok Hr Hsh Hlm Hv Hp. cbn [read_uvar_loop].
  unfold mbind, RM_bind.
  rewrite (strict_complete _ _ strict_read_u8 b [b] tl) by done.
  cbv beta iota zeta.
  change (len [b]) with 1%N. rewrite byte_land_128, land_127, loop_value by done.
  destruct (N.leb_spec bits shift) as [|_]; [lia|]. cbn [andb].
  destruct (N.ltb_spec shift bits) as [_|]; [|lia].
  replace ((shift =? last_shift)%N && (last_max <? b2n b mod 128)%N) with false by lia.
  cbv zeta. by repeat case_match.
Qed.

(** The last group: its byte has the top bit clear. *)
Lemma loop_last fuel value shift n r p tl :
  reader_ok r -> loop_inv value shift n -> (shift < bits)%N ->
  (p < 128)%N -> (p < 2 ^ (bits - shift))%N -> (0 < n -> p <> 0)%N ->
  (bits <= width \/ value + p * 2 ^ shift < 2 ^ width)%N ->
  rest r = n2b p :: tl ->
  loop (S fuel) value shift n r = (Ok (value + p * 2 ^ shift)%N, advance 1 r).
Proof using Hlast Hseven Hmod Hmax.
  intros Hok (Hv & Hmod7 & Hn) Hsh Hp Hpb Hnz Hw Hr.
  assert (b2n (n2b p) = p) as Eb by (rewrite b2n_n2b, N.mod_small; lia).
  assert (p * 2 ^ shift < 2 ^ bits)%N by (apply pow_split; lia).
  erewrite loop_byte; try done; rewrite Eb, N.mod_small by done; [|by intros ->; rewrite Hmax; lia|done].
  cbv zeta. destruct (N.ltb_spec p 128); [|lia].
  replace ((1 <? n + 1)%N && (p =? 0)%N) with false by lia.
  by replace ((width <? bits)%N && (2 ^ width <=? value + p * 2 ^ shift)%N) with false by lia.
Qed.

(** A group that is not the last one. *)
Lemma loop_more fuel value shift n r p tl :
  reader_ok r -> loop_inv value shift n -> (shift + 7 < bits)%N -> (p < 128)%N ->
  rest r = n2b (p + 128) :: tl ->
  loop (S fuel) value shift n r =
    loop fuel (value + p * 2 ^ shift) (shift + 7) (n + 1) (advance 1 r).
Proof using Hlast Hseven Hmod Hmax.
  intros Hok (Hv & Hmod7 & Hn) Hsh Hp Hr.
  assert (b2n (n2b (p + 128)) = p + 128)%N as Eb by (rewrite b2n_n2b, N.mod_small; lia).
  assert ((p + 128) mod 128 = p)%N as Em.
  { rewrite <- N.Div0.add_mod_idemp_r, N.Div0.mod_same, N.add_0_r. by apply N.mod_small. }
  assert (p * 2 ^ shift < 2 ^ bits)%N.
  { apply pow_split; [lia|]. eapply N.lt_le_trans; [exact Hp|].
    change 128%N with (2 ^ 7)%N. apply N.pow_le_mono_r; lia. }
  erewrite loop_byte; try done; rewrite ?Eb, ?Em; try lia. cbv zeta.
  destruct (N.ltb_spec (p + 128) 128); [lia|].
  destruct (N.leb_spec (bits + 7) (shift + 7)); [lia|done].
Qed.

Lemma loop_complete fuel k v value shift n r tl :
  reader_ok r -> loop_inv value shift n -> (shift < bits)%N ->
  (v < 2 ^ (bits - shift))%N -> (v < 2 ^ (7 * N.of_nat k))%N -> (0 < k)%nat ->
  (0 < n -> v <> 0)%N -> (bits <= width \/ value + v * 2 ^ shift < 2 ^ width)%N ->
  (bits <= shift + 7 * N.of_nat fuel)%N ->
  rest r = uvar_groups k v ++ tl ->
  loop fuel value shift n r = (Ok (value + v * 2 ^ shift)%N, advance (len (uvar_groups k v)) r).
Proof using Hlast Hseven Hmod Hmax.
  revert k v value shift n r. induction fuel as [|fuel IH];
    intros [|k] v value shift n r Hok Hinv Hsh Hvb Hvk Hk Hnz Hw Hfuel Hr; try lia.
  cbn [uvar_groups] in *. rewrite N.shiftr_div_pow2, land_127 in *.
  change (2 ^ 7)%N with 128%N in *. pose proof (N.mod_lt v 128 ltac:(lia)) as Hm.
  destruct (N.eqb_spec (v / 128) 0) as [E|E].
  { apply N.div_small_iff in E; [|lia]. rewrite N.mod_small in * by done.
    rewrite len_cons, len_nil, N.add_0_r. by eapply loop_last. }
  assert (128 <= v)%N as Hbig by (rewrite N.div_small_iff in E; lia).
  assert (shift + 7 < bits)%N as Hnext.
  { destruct (N.lt_ge_cases (shift + 7) bits); [done|].
    assert (2 ^ (bits - shift) <= 2 ^ 7)%N by (apply N.pow_le_mono_r; lia). lia. }
  assert (v / 128 < 2 ^ (bits - (shift + 7)))%N.
  { apply N.Div0.div_lt_upper_bound. change 128%N with (2 ^ 7)%N. rewrite <- N.pow_add_r.
    by replace (7 + (bits - (shift + 7)))%N with (bits - shift)%N by lia. }
  assert (v / 128 < 2 ^ (7 * N.of_nat k))%N.
  { apply N.Div0.div_lt_upper_bound. change 128%N with (2 ^ 7)%N. rewrite <- N.pow_add_r.
    by replace (7 + 7 * N.of_nat k)%N with (7 * N.of_nat (S k))%N by lia. }
  assert (value + v mod 128 * 2 ^ shift + v / 128 * 2 ^ (shift + 7) = value + v * 2 ^ shift)%N as Esum.
  { rewrite (N.div_mod' v 128) at 3. rewrite N.pow_add_r. change (2 ^ 7)%N with 128%N. lia. }
  rewrite lor_128 in * by done. rewrite <- app_comm_cons in Hr.
  erewrite loop_more by done. rewrite (IH k (v / 128)%N), Esum.
  - rewrite advance_advance, len_cons. done.
  - by eapply reader_ok_advance1.
  - by apply loop_inv_next.
  - done.
  - done.
  - done.
  - destruct k; [|lia]. change (2 ^ (7 * N.of_nat 0))%N with 1%N in *. lia.
  - done.
  - by rewrite Esum.
  - lia.
  - by eapply rest_advance1.
Qed.

(** Past the last bit no byte ends the loop successfully. *)
Lemma loop_past fuel value shift n r x r' :
  reader_ok r -> loop_inv value shift n -> (bits <= shift)%N ->
  loop fuel value shift n r <> (Ok x, r').
Proof using Hlast Hseven Hmod Hmax.
  intros Hok (Hv & Hmod7 & Hn) Hsh. destruct fuel as [|fuel]; [done|].
  cbn [read_uvar_loop]. intros (b & r1 & _ & H)%rbind_Ok.
  destruct (N.leb_spec bits shift); [|lia].
  destruct (N.eqb_spec (N.land (b2n b) 127) 0) as [E|]; [|done]. cbn [andb negb] in H.
  destruct ((shift =? last_shift)%N && (last_max <? N.land (b2n b) 127)%N); [done|].
  destruct (N.ltb_spec 1 (n + 1)); [|lia].
  destruct (N.leb_spec (bits + 7) (shift + 7)); [|lia]. by repeat case_match.
Qed.

Lemma payload_fits shift p :
  (shift mod 7 = 0)%N -> (shift < bits)%N -> (p < 128)%N ->
  (shift = last_shift -> p <= last_max)%N -> (p < 2 ^ (bits - shift))%N.
Proof using Hlast Hseven Hmod Hmax.
  intros Hs Hsh Hp Hl. pose proof (last_shift_max _ Hs Hsh).
  destruct (N.eq_dec shift last_shift) as [->|].
  - specialize (Hl eq_refl). pose proof (N.pow_nonzero 2 (bits - last_shift) ltac:(lia)). lia.
  - eapply N.lt_le_trans; [exact Hp|]. change 128%N with (2 ^ 7)%N. apply N.pow_le_mono_r; [lia|].
    assert (shift <> last_shift) by done. pose proof (N.div_mod' shift 7).
    pose proof (N.div_mod' last_shift 7). lia.
Qed.

(** What a successful loop has read: the groups of some [v]. *)
Definition loop_read (value shift n : N) (r : Reader) (x : N) (r' : Reader) : Prop :=
  exists v, x = (value + v * 2 ^ shift)%N /\ (v < 2 ^ (bits - shift))%N /\
    (0 < n -> v <> 0)%N /\ (bits <= width \/ x < 2 ^ width)%N /\
    forall k, (v < 2 ^ (7 * N.of_nat k))%N -> (0 < k)%nat ->
      rest r = uvar_groups k v ++ rest r' /\ r' = advance (len (uvar_groups k v)) r.

Lemma loop_read_more value shift n r p tl x r' :
  rest r = n2b (p + 128) :: tl -> (p < 128)%N -> (shift + 7 < bits)%N ->
  loop_read (value + p * 2 ^ shift) (shift + 7) (n + 1) (advance 1 r) x r' ->
  loop_read value shift n r x r'.
Proof using Hlast Hseven Hmod Hmax.
  intros Hr Hp Hsh (v & -> & Hv & Hnz & Hw & Hk).
  assert (v <> 0)%N by (apply Hnz; lia).
  exists (p + 128 * v)%N. split_and!.
  - rewrite N.pow_add_r. change (2 ^ 7)%N with 128%N. lia.
  - replace (bits - shift)%N with (7 + (bits - (shift + 7)))%N by lia.
    rewrite N.pow_add_r. change (2 ^ 7)%N with 128%N. nia.
  - intros _. lia.
  - done.
  - intros [|k] Hvk Hk0; [lia|]. cbn [uvar_groups].
    rewrite N.shiftr_div_pow2, land_127. change (2 ^ 7)%N with 128%N.
    rewrite (N.mul_comm 128), N.Div0.mod_add, N.div_add, N.mod_small, N.div_small by lia.
    rewrite N.add_0_l. destruct (N.eqb_spec v 0); [done|]. rewrite lor_128 by done.
    replace (7 * N.of_nat (S k))%N with (7 + 7 * N.of_nat k)%N in Hvk by lia.
    rewrite N.pow_add_r in Hvk. change (2 ^ 7)%N with 128%N in Hvk.
    destruct (Hk k) as [Hrest ->]; [nia| |].
    { destruct k; [|lia]. change (2 ^ (7 * N.of_nat 0))%N with 1%N in Hvk. lia. }
    rewrite (rest_advance1 _ _ _ Hr) in Hrest.
    split; [rewrite Hr; cbn [app]; by f_equal|]. by rewrite advance_advance, len_cons.
Qed.

Lemma loop_sound fuel value shift n r x r' :
  reader_ok r -> loop_inv value shift n ->
  loop fuel value shift n r = (Ok x, r') -> loop_read value shift n r x r'.
Proof using Hlast Hseven Hmod Hmax.
  revert value shift n r. induction fuel as [|fuel IH]; intros value shift n r Hok Hinv H; [done|].
  destruct (N.lt_ge_cases shift bits) as [Hsh|Hsh]; [|by eapply loop_past in H].
  destruct (rest r) as [|b tl] eqn:Hr.
  { cbn [read_uvar_loop] in H. apply rbind_Ok in H as (b & r1 & Hb & _).
    apply (strict_sound _ _ strict_read_u8) in Hb as (bs & -> & E & _); [|done].
    by rewrite Hr in E. }
  pose proof Hinv as (Hv & Hmod7 & Hn).
  pose proof (N.mod_lt (b2n b) 128 ltac:(lia)) as Hm.
  destruct ((shift =? last_shift)%N && (last_max <? b2n b mod 128)%N) eqn:El.
  { cbn [read_uvar_loop] in H. unfold mbind, RM_bind in H.
    rewrite (strict_complete _ _ strict_read_u8 b [b] tl) in H by done. cbv beta iota zeta in H.
    rewrite land_127, El in H. by repeat case_match. }
  assert (b2n b mod 128 < 2 ^ (bits - shift))%N as Hp by (apply payload_fits; lia).
  erewrite loop_byte in H; try done; [|lia|by apply pow_split; lia]. cbv zeta in H.
  destruct (N.ltb_spec (b2n b) 128) as [Hb|Hb].
  - rewrite N.mod_small in * by done.
    destruct ((1 <? n + 1)%N && (b2n b =? 0)%N) eqn:E1; [done|].
    destruct ((width <? bits)%N && _) eqn:E2; [done|]. injection H as <- <-.
    exists (b2n b). split_and!; [done|done|lia|lia|].
    intros [|k] Hvk Hk; [lia|]. cbn [uvar_groups].
    rewrite N.shiftr_div_pow2, land_127, N.mod_small by done. change (2 ^ 7)%N with 128%N.
    rewrite N.div_small, n2b_b2n by done. cbn [N.eqb].
    split; [|done]. by rewrite (rest_advance1 _ _ _ Hr).
  - destruct (N.leb_spec (bits + 7) (shift + 7)) as [|Hsh']; [done|].
    destruct (N.lt_ge_cases (shift + 7) bits) as [Hnext|Hnext].
    + assert (b = n2b (b2n b mod 128 + 128)) as Eb.
      { pose proof (b2n_bound b). rewrite <- (n2b_b2n b) at 1. f_equal.
        rewrite (N.div_mod' (b2n b) 128) at 1.
        replace (b2n b / 128)%N with 1%N; [lia|]. apply (N.div_unique _ _ _ (b2n b - 128)); lia. }
      rewrite Eb in Hr. eapply loop_read_more; try done. apply IH; [by eapply reader_ok_advance1| |done].
      by apply loop_inv_next.
    + eapply loop_past in H; [done|by eapply reader_ok_advance1| |done]. by apply loop_inv_next.
Qed.
End varint.

(** The varint relations: the canonical bytes of an integer that fits. *)
Definition uvar_enc (bits : N) (groups : nat) (width : N) (v : N) (bs : bytes) : Prop :=
  (v < 2 ^ bits)%N /\ (bits <= width \/ v < 2 ^ width)%N /\ bs = uvar_groups groups v.

Lemma strict_uvar bits last_shift last_max width fuel groups :
  (last_shift < bits)%N -> (bits <= last_shift + 7)%N -> (last_shift mod 7 = 0)%N ->
  last_max = (2 ^ (bits - last_shift) - 1)%N ->
  (bits <= 7 * N.of_nat fuel)%N -> (bits <= 7 * N.of_nat groups)%N ->
  Strict (read_uvar_loop bits last_shift last_max width fuel 0 0 0) (uvar_enc bits groups width).
Proof.
  intros H1 H2 H3 H4 Hfuel Hgroups.
  assert (forall v, v < 2 ^ bits -> v < 2 ^ (7 * N.of_nat groups))%N as Hk.
  { intros v Hv. eapply N.lt_le_trans; [exact Hv|]. by apply N.pow_le_mono_r. }
  assert (loop_inv 0 0 0) as Hinv by done. assert (0 < groups)%nat as Hg by lia.
  split.
  - intros v bs tl r Hok (Hv & Hw & ->) Hr.
    rewrite (loop_complete bits last_shift last_max width H1 H2 H3 H4 fuel groups v 0 0 0 r tl); try done.
    + by rewrite N.pow_0_r, N.mul_1_r, N.add_0_l.
    + lia.
    + by rewrite N.sub_0_r.
    + by apply Hk.
    + by rewrite N.pow_0_r, N.mul_1_r, N.add_0_l.
  - intros v r r' Hok H. apply loop_sound in H as (v' & -> & Hv & _ & Hw & H); try done.
    rewrite N.pow_0_r, N.mul_1_r, N.add_0_l, N.sub_0_r in *.
    destruct (H groups) as [Hr ->]; [by apply Hk|done|]. exists (uvar_groups groups v').
    by split_and!.
Qed.

Lemma strict_read_uvar_width width :
  Strict (read_uvar_width width) (uvar_enc 64 10 width).
Proof. by apply strict_uvar. Qed.

Lemma strict_read_uvar128_width width :
  Strict (read_uvar128_width width) (uvar_enc 128 19 width).
Proof. by apply strict_uvar. Qed.

