(* ===== verification/Scb1Cursor.v ===== *)
(** * The SCB1 value cursor (crates/sley-scb1)

    [ScbValueCursor] wraps the reader.  Each of its reads is paired with the
    encoder of the same value by a [StrictCodec] instance: the read accepts
    exactly the bytes the encoder writes for a value in range.  The public
    theorems are the instances read as equivalences on whole inputs. *)

From S2P Require Import Prelude Bytes Utf8 Scb1Core.

(** ** Operations *)

Definition cursor_new (input : bytes) : scb_result Reader :=
  guard! (len input <=? MAX_STANDALONE_BYTES)%N else ScbResourceLimit;
  Ok (Reader_new input).

Definition check_finished (r : Reader) : scb_result unit :=
  if is_finished r then Ok tt else Err ScbTrailingBytes.

Definition cursor_read_uvar (width : N) : RM N :=
  if (width =? 0)%N || (64 <? width)%N then rfail ScbIntegerOverflow
  else read_uvar_width width.

Definition cursor_read_uvar128 (width : N) : RM N :=
  if (width =? 0)%N || (128 <? width)%N then rfail ScbIntegerOverflow
  else read_uvar128_width width.

(** [n.cast_signed()] at width [w]. *)
Definition cast_signed (w : N) (n : N) : Z :=
  if (n <? 2 ^ (w - 1))%N then Z.of_N n else Z.of_N n - 2 ^ Z.of_N w.

(** [(encoded >> 1).cast_signed() ^ -(encoded & 1).cast_signed()] *)
Definition unzigzag (w : N) (encoded : N) : Z :=
  Z.lxor (cast_signed w (N.shiftr encoded 1)) (- cast_signed w (N.land encoded 1)).

Definition read_sint64 : RM Z :=
  encoded ← cursor_read_uvar 64; mret (unzigzag 64 encoded).

Definition read_sint128 : RM Z :=
  encoded ← cursor_read_uvar128 128; mret (unzigzag 128 encoded).

Definition read_bool : RM bool :=
  b ← read_u8;
  if decide (b = x00) then mret false
  else if decide (b = x01) then mret true
  else rfail ScbBoolInvalid.

Definition read_bytes : RM bytes :=
  n ← read_len MAX_BYTE_PAYLOAD; take_exact n.

Definition cursor_read_text : RM bytes :=
  s ← read_bytes;
  if from_utf8_ok s then mret s else rfail ScbUtf8Invalid.

Definition take_array (n : N) : RM bytes := take_exact n.

Definition read_f32_bits : RM N :=
  s ← take_array 4; rlift (validate_f32_bits (be_num s)) ≫= fun _ => mret (be_num s).

Definition read_f64_bits : RM N :=
  s ← take_array 8; rlift (validate_f64_bits (be_num s)) ≫= fun _ => mret (be_num s).

Definition read_sized_payload : RM bytes :=
  n ← read_len MAX_STANDALONE_BYTES; take_exact n.

(** [u32::try_from(tag)] cannot fail after a 32-bit read, but the code asks. *)
Definition read_union : RM (N * bytes) :=
  tag ← cursor_read_uvar 32;
  if (2 ^ 32 <=? tag)%N then rfail ScbIntegerOverflow
  else payload ← read_sized_payload; mret (tag, payload).

(** ** The codec interface *)

(** What a cursor read promises to the decoders built on it. *)
Class StrictCodec {A} (range : A -> Prop) (encode : A -> scb_result bytes) (decode : RM A) : Prop :=
  codec_strict : Strict decode (fun a bs => range a /\ encode a = Ok bs).

Section codec.
Context {A : Type} {range : A -> Prop} {encode : A -> scb_result bytes} {decode : RM A}.
Context `{!StrictCodec range encode decode}.

Lemma codec_roundtrip a bs tl r :
  reader_ok r -> range a -> encode a = Ok bs -> rest r = bs ++ tl ->
  decode r = (Ok a, advance (len bs) r).
Proof. intros. by eapply (strict_complete _ _ codec_strict). Qed.

(** On a whole input: the accepted inputs are the encodings, followed by
    anything. *)
Lemma codec_reads input a r' :
  (len input < U64_LIMIT)%N ->
  decode (Reader_new input) = (Ok a, r') <->
  exists bs tl, range a /\ encode a = Ok bs /\ input = bs ++ tl /\ r' = mkReader input (len bs).
Proof.
  intros Hl. assert (reader_ok (Reader_new input)) as Hok by by apply reader_ok_new.
  split.
  - intros H. destruct (strict_sound _ _ codec_strict _ _ _ Hok H) as (bs & [Hr He] & Hi & ->).
    exists bs, (rest (advance (len bs) (Reader_new input))). split_and!; try done.
  - intros (bs & tl & Hr & He & Hi & ->).
    rewrite (strict_complete _ _ codec_strict a bs tl); [|done..].
    unfold advance, Reader_new; simpl. by rewrite N.add_0_l.
Qed.

(** Two values never have encodings one of which begins the other. *)
Lemma codec_prefix_free a b bs tl1 bs' tl2 :
  (len (bs ++ tl1) < U64_LIMIT)%N -> range a -> range b ->
  encode a = Ok bs -> encode b = Ok bs' -> bs ++ tl1 = bs' ++ tl2 -> a = b /\ bs = bs' /\ tl1 = tl2.
Proof.
  intros Hl Ha Hb Ea Eb E.
  assert (decode (Reader_new (bs ++ tl1)) = (Ok a, mkReader (bs ++ tl1) (len bs))) as H1.
  { apply codec_reads; [done|]. by exists bs, tl1. }
  assert (decode (Reader_new (bs ++ tl1)) = (Ok b, mkReader (bs ++ tl1) (len bs'))) as H2.
  { apply codec_reads; [done|]. by exists bs', tl2. }
  rewrite H1 in H2. injection H2 as -> _. rewrite Ea in Eb. injection Eb as ->.
  split_and!; try done. by apply app_inv_head in E.
Qed.
End codec.

(** ** Instances *)

Lemma uvar_enc_width bits groups w v bs :
  (w <= bits)%N -> uvar_enc bits groups w v bs <-> (v < 2 ^ w)%N /\ bs = uvar_groups groups v.
Proof.
  intros Hw. unfold uvar_enc. split; intros H.
  - destruct H as (? & [?|?] & ->); split; try done. by replace w with bits by lia.
  - destruct H as [Hv ->]. split_and!; [|by right|done].
    eapply N.lt_le_trans; [exact Hv|]. by apply N.pow_le_mono_r.
Qed.

#[export] Instance uvar_codec w :
  TCEq ((w =? 0)%N || (64 <? w)%N) false ->
  StrictCodec (fun v => v < 2 ^ w)%N (fun v => Ok (encode_uvar v)) (cursor_read_uvar w).
Proof.
  intros Hw%TCEq_eq. unfold StrictCodec, cursor_read_uvar. rewrite Hw.
  eapply strict_iff; [|apply strict_read_uvar_width]. intros v bs. rewrite uvar_enc_width by lia.
  rewrite Ok_inj. unfold encode_uvar. split; (intros [? ->] || intros [? <-]); done.
Qed.

(** [encode_uvar128] writes exactly the groups, within its 19 bytes. *)
Lemma uvar128_loop_spec fuel value pre post :
  (value < 2 ^ (7 * N.of_nat fuel))%N -> (0 < fuel)%nat ->
  (length (uvar_groups fuel value) <= length post)%nat ->
  encode_uvar128_loop fuel value (pre ++ post) (length pre) =
    Some (length pre + length (uvar_groups fuel value),
          pre ++ uvar_groups fuel value ++ drop (length (uvar_groups fuel value)) post).
Proof.
  revert value pre post. induction fuel as [|fuel IH]; intros value pre post Hv Hf Hp; [lia|].
  cbn [encode_uvar128_loop uvar_groups] in *.
  assert (exists b post', post = b :: post') as (b & post' & ->).
  { destruct post; [|eauto]. case_match; simpl in Hp; lia. }
  rewrite decide_True by (rewrite length_app; simpl; lia).
  assert (forall x, <[length pre := x]> (pre ++ b :: post') = (pre ++ [x]) ++ post') as Hins.
  { intros x. replace (length pre) with (length pre + 0)%nat by lia.
    rewrite insert_app_r. simpl. by rewrite <- app_assoc. }
  rewrite Hins. destruct (N.eqb_spec (N.shiftr value 7) 0) as [E|E].
  - rewrite <- app_assoc. do 2 f_equal. simpl. lia.
  - replace (S (length pre)) with (length (pre ++ [n2b (N.lor (N.land value 127) 128)]))
      by (rewrite length_app; simpl; lia).
    rewrite IH.
    + rewrite length_app, <- app_assoc. do 2 f_equal. simpl. lia.
    + rewrite N.shiftr_div_pow2. apply N.Div0.div_lt_upper_bound. rewrite <- N.pow_add_r.
      by replace (7 + 7 * N.of_nat fuel)%N with (7 * N.of_nat (S fuel))%N by lia.
    + destruct fuel; [|lia]. exfalso. apply E. rewrite N.shiftr_div_pow2. by apply N.div_small.
    + simpl in Hp. lia.
Qed.

Lemma length_uvar_groups fuel v : (length (uvar_groups fuel v) <= fuel)%nat.
Proof. revert v. induction fuel; intros v; simpl; [lia|]. case_match; simpl; [lia|]. specialize (IHfuel (N.shiftr v 7)). lia. Qed.

Lemma uvar128_loop_0 fuel value out :
  (value < 2 ^ (7 * N.of_nat fuel))%N -> (0 < fuel)%nat ->
  (length (uvar_groups fuel value) <= length out)%nat ->
  encode_uvar128_loop fuel value out 0 =
    Some (length (uvar_groups fuel value),
          uvar_groups fuel value ++ drop (length (uvar_groups fuel value)) out).
Proof. exact (uvar128_loop_spec fuel value [] out). Qed.

Lemma encode_uvar128_into_spec v out :
  (v < 2 ^ 128)%N -> length out = 19%nat ->
  encode_uvar128_into v out =
    Some (length (uvar_groups 19 v), uvar_groups 19 v ++ drop (length (uvar_groups 19 v)) out).
Proof.
  intros Hv Hout. unfold encode_uvar128_into.
  assert (uvar_groups 20 v = uvar_groups 19 v) as E.
  { apply uvar_groups_fuel; try lia; eapply N.lt_le_trans; try exact Hv; by apply N.pow_le_mono_r. }
  pose proof (length_uvar_groups 19 v) as Hl.
  rewrite uvar128_loop_0, E; [reflexivity|..].
  - eapply N.lt_le_trans; [exact Hv|]. by apply N.pow_le_mono_r.
  - lia.
  - rewrite E, Hout. assumption.
Qed.

Lemma encode_uvar128_spec v : (v < 2 ^ 128)%N -> encode_uvar128 v = Some (uvar_groups 19 v).
Proof.
  intros Hv. unfold encode_uvar128. rewrite encode_uvar128_into_spec by done.
  by rewrite take_app_length.
Qed.

(** The panics of the 128-bit encoders as an error no call returns. *)
Definition no_panic (o : option bytes) : scb_result bytes := ok_or ScbResourceLimit o.

#[export] Instance uvar128_codec w :
  TCEq ((w =? 0)%N || (128 <? w)%N) false ->
  StrictCodec (fun v => v < 2 ^ w)%N (fun v => no_panic (encode_uvar128 v)) (cursor_read_uvar128 w).
Proof.
  intros Hw%TCEq_eq. unfold StrictCodec, cursor_read_uvar128. rewrite Hw.
  eapply strict_iff; [|apply strict_read_uvar128_width]. intros v bs. rewrite uvar_enc_width by lia.
  enough (v < 2 ^ w -> v < 2 ^ 128)%N as Hlt.
  { split; intros [Hv E]; (split; [assumption|]).
    - rewrite encode_uvar128_spec by auto. unfold no_panic, ok_or. by rewrite Ok_inj.
    - rewrite encode_uvar128_spec in E by auto. unfold no_panic, ok_or in E. by rewrite Ok_inj in E. }
  intros Hv. eapply N.lt_le_trans; [exact Hv|]. apply N.pow_le_mono_r; lia.
Qed.

(** ZigZag at width [w]. *)
Definition in_sint (w x : Z) : Prop := (- 2 ^ (w - 1) <= x < 2 ^ (w - 1))%Z.

Lemma zigzag_spec w x :
  (1 < w)%Z -> in_sint w x ->
  zigzag w x = Z.to_N (if decide (0 <= x)%Z then 2 * x else - 2 * x - 1)%Z.
Proof.
  intros Hw [Hlo Hhi]. unfold zigzag. f_equal.
  assert (2 ^ w = 2 * 2 ^ (w - 1))%Z as Ew by (rewrite <- Z.pow_succ_r by lia; f_equal; lia).
  rewrite Z.shiftl_mul_pow2, Z.shiftr_div_pow2 by lia. change (2 ^ 1)%Z with 2%Z.
  case_decide as Hx.
  - rewrite Z.div_small, Z.lxor_0_r, Z.mod_small by lia. lia.
  - replace (x / 2 ^ (w - 1))%Z with (-1)%Z.
    + rewrite Z.lxor_m1_r. unfold Z.lnot. rewrite Z.mod_small by lia. lia.
    + apply (Z.div_unique _ _ _ (x + 2 ^ (w - 1))); lia.
Qed.

Lemma unzigzag_spec w e :
  (1 < w)%N -> (e < 2 ^ w)%N ->
  unzigzag w e = if N.even e then Z.of_N (e / 2) else (- Z.of_N (e / 2) - 1)%Z.
Proof.
  intros Hw He. unfold unzigzag.
  assert (2 ^ w = 2 * 2 ^ (w - 1))%N as Ew by (rewrite <- N.pow_succ_r'; f_equal; lia).
  assert (2 <= 2 ^ (w - 1))%N as H2.
  { change 2%N with (2 ^ 1)%N at 1. apply N.pow_le_mono_r; lia. }
  rewrite N.shiftr_div_pow2. change (2 ^ 1)%N with 2%N.
  change (N.land e 1) with (N.land e (N.ones 1)). rewrite N.land_ones. change (2 ^ 1)%N with 2%N.
  pose proof (N.mod_lt e 2 ltac:(lia)). unfold cast_signed.
  assert (e / 2 < 2 ^ (w - 1))%N by (apply N.Div0.div_lt_upper_bound; lia).
  destruct (N.ltb_spec (e / 2) (2 ^ (w - 1))); [|lia].
  destruct (N.ltb_spec (e mod 2) (2 ^ (w - 1))); [|lia].
  destruct (N.even e) eqn:Hev.
  - apply N.even_spec in Hev as [m ->]. rewrite N.mul_comm, N.Div0.mod_mul. by rewrite Z.lxor_0_r.
  - replace (e mod 2)%N with 1%N.
    + change (- Z.of_N 1)%Z with (-1)%Z. rewrite Z.lxor_m1_r. unfold Z.lnot. lia.
    + assert (N.odd e = true) as Ho by (unfold N.odd; by rewrite Hev).
      apply N.odd_spec in Ho as [m ->]. rewrite (N.mul_comm 2), N.add_comm, N.Div0.mod_add. done.
Qed.

Lemma zigzag_bound w x : (1 < w)%N -> in_sint (Z.of_N w) x -> (zigzag (Z.of_N w) x < 2 ^ w)%N.
Proof.
  intros Hw Hx. rewrite zigzag_spec by (done || lia). destruct Hx as [Hlo Hhi].
  assert (2 ^ Z.of_N w = 2 * 2 ^ (Z.of_N w - 1))%Z as Ew by (rewrite <- Z.pow_succ_r by lia; f_equal; lia).
  assert (Z.of_N (2 ^ w) = 2 ^ Z.of_N w)%Z by (by rewrite N2Z.inj_pow).
  case_decide; lia.
Qed.

Lemma unzigzag_zigzag w x :
  (1 < w)%N -> in_sint (Z.of_N w) x -> unzigzag w (zigzag (Z.of_N w) x) = x.
Proof.
  intros Hw Hx. rewrite unzigzag_spec by (done || by apply zigzag_bound).
  rewrite zigzag_spec by (done || lia). case_decide as H0.
  - replace (Z.to_N (2 * x)) with (2 * Z.to_N x)%N by lia.
    rewrite N.even_even. rewrite N.mul_comm, N.div_mul by lia. lia.
  - replace (Z.to_N (- 2 * x - 1)) with (2 * Z.to_N (- x - 1) + 1)%N by lia.
    rewrite N.even_odd. rewrite N.add_comm, (N.mul_comm 2), N.div_add by lia.
    rewrite N.div_small by lia. lia.
Qed.

Lemma zigzag_unzigzag w e :
  (1 < w)%N -> (e < 2 ^ w)%N ->
  in_sint (Z.of_N w) (unzigzag w e) /\ zigzag (Z.of_N w) (unzigzag w e) = e.
Proof.
  intros Hw He.
  assert (2 ^ w = 2 * 2 ^ (w - 1))%N as Ew by (rewrite <- N.pow_succ_r'; f_equal; lia).
  assert (Z.of_N (2 ^ (w - 1)) = 2 ^ (Z.of_N w - 1))%Z as Ez by (rewrite N2Z.inj_pow; f_equal; lia).
  assert (e / 2 < 2 ^ (w - 1))%N by (apply N.Div0.div_lt_upper_bound; lia).
  rewrite unzigzag_spec by done.
  assert (in_sint (Z.of_N w) (if N.even e then Z.of_N (e / 2) else - Z.of_N (e / 2) - 1)%Z) as Hin.
  { unfold in_sint. rewrite <- Ez. clear Ez. revert H. generalize (e / 2)%N (2 ^ (w - 1))%N.
    intros q m ?. case_match; lia. }
  split; [done|]. rewrite zigzag_spec by (done || lia). destruct (N.even e) eqn:Hev.
  - apply N.even_spec in Hev as [m ->]. rewrite N.mul_comm, N.div_mul in * by lia.
    rewrite decide_True by lia. lia.
  - assert (N.odd e = true) as Ho by (unfold N.odd; by rewrite Hev).
    apply N.odd_spec in Ho as [m ->]. rewrite N.add_comm, (N.mul_comm 2), N.div_add, N.div_small in * by lia.
    rewrite decide_False by lia. lia.
Qed.

#[global] Opaque encode_uvar encode_uvar128 read_uvar_width read_uvar128_width.

(** Post-processing the value read. *)
Lemma strict_map {A B} (m : RM A) E (f : A -> B) :
  Strict m E -> Strict (m ≫= fun a => mret (f a)) (fun b bs => exists a, E a bs /\ b = f a).
Proof.
  intros H. eapply strict_iff; [|apply (strict_bind _ _ _ (fun a b bs => b = f a /\ bs = []) H);
    intros a; apply strict_ret].
  intros b bs. split.
  - intros (a & bs1 & bs2 & ? & [-> ->] & ->). rewrite app_nil_r. eauto.
  - intros (a & ? & ->). exists a, bs, []. by rewrite app_nil_r.
Qed.

(** Rejecting the value read. *)
Lemma strict_check {A} (m : RM A) E (b : A -> bool) e :
  Strict m E -> Strict (m ≫= fun a => if b a then mret a else rfail e) (fun a bs => E a bs /\ b a = true).
Proof.
  intros H. eapply strict_iff; [|apply (strict_bind _ _ _ (fun a c bs => b a = true /\ c = a /\ bs = []) H)].
  - intros c bs. split.
    + intros (a & bs1 & bs2 & ? & (? & -> & ->) & ->). by rewrite app_nil_r.
    + intros [? ?]. exists c, bs, []. by rewrite app_nil_r.
  - intros a. destruct (b a).
    + eapply strict_iff; [|apply strict_ret]. naive_solver.
    + eapply strict_iff; [|apply strict_fail]. naive_solver.
Qed.

Lemma strict_cursor_uvar w :
  (w =? 0)%N || (64 <? w)%N = false ->
  Strict (cursor_read_uvar w) (fun v bs => (v < 2 ^ w)%N /\ bs = encode_uvar v).
Proof.
  intros Hw%TCEq_eq. eapply strict_iff; [|exact (codec_strict (StrictCodec := uvar_codec w Hw))].
  intros v bs. cbv beta. rewrite Ok_inj. intuition.
Qed.

Lemma strict_cursor_uvar128 :
  Strict (cursor_read_uvar128 128) (fun v bs => (v < 2 ^ 128)%N /\ no_panic (encode_uvar128 v) = Ok bs).
Proof. exact (codec_strict (StrictCodec := uvar128_codec 128 (TCEq_refl _))). Qed.

#[export] Instance sint64_codec :
  StrictCodec (in_sint 64) (fun x => Ok (encode_sint64 x)) read_sint64.
Proof.
  unfold StrictCodec, read_sint64.
  refine (strict_iff _ _ _ _ (strict_map _ _ (unzigzag 64) (strict_cursor_uvar 64 eq_refl))).
  intros x bs. unfold encode_sint64. rewrite Ok_inj. split.
  - intros (e & [He Hb] & ->). destruct (zigzag_unzigzag 64 e) as [? E]; [done|assumption|].
    change (Z.of_N 64) with 64%Z in *. split; [assumption|]. by rewrite E.
  - intros [Hx Hb]. exists (zigzag 64 x).
    split_and!; [by apply (zigzag_bound 64)|by symmetry|by rewrite (unzigzag_zigzag 64)].
Qed.

#[export] Instance sint128_codec :
  StrictCodec (in_sint 128) (fun x => no_panic (encode_sint128 x)) read_sint128.
Proof.
  unfold StrictCodec, read_sint128.
  refine (strict_iff _ _ _ _ (strict_map _ _ (unzigzag 128) strict_cursor_uvar128)).
  intros x bs. unfold encode_sint128. split.
  - intros (e & [He Hb] & ->). destruct (zigzag_unzigzag 128 e) as [? E]; [done|assumption|].
    change (Z.of_N 128) with 128%Z in *. split; [assumption|]. by rewrite E.
  - intros [Hx Hb]. exists (zigzag 128 x).
    split_and!; [by apply (zigzag_bound 128)|assumption|by rewrite (unzigzag_zigzag 128)].
Qed.

#[export] Instance bool_codec :
  StrictCodec (fun _ => True) (fun b => Ok (encode_bool b)) read_bool.
Proof.
  unfold StrictCodec, read_bool. eapply strict_iff; [|apply (strict_bind _ _ _
    (fun c b bs => bs = [] /\ [c] = encode_bool b) strict_read_u8)].
  - intros b bs. rewrite Ok_inj. split.
    + intros (c & bs1 & bs2 & -> & [-> ->] & ->). by rewrite app_nil_r.
    + intros [_ <-]. exists (if b then x01 else x00), (encode_bool b), []. by destruct b.
  - intros c. repeat case_decide; subst; eapply strict_iff; try apply strict_ret; try apply strict_fail;
      intros [|] bs; unfold encode_bool; split; intros Hb; destruct Hb; split_and?; congruence || done.
Qed.

(** *** Sized bytes *)

Lemma strict_read_len max :
  (max < U64_LIMIT)%N -> Strict (read_len max) (fun n bs => n <= max /\ bs = encode_uvar n)%N.
Proof.
  intros Hmax. unfold read_len.
  eapply strict_iff; [|apply (strict_bind _ _ _ (fun n m bs => n <= max /\ m = n /\ bs = [])%N
    (strict_read_uvar_width 64))].
  - intros n bs. split.
    + intros (a & bs1 & bs2 & (_ & _ & ->) & (? & -> & ->) & ->). by rewrite app_nil_r.
    + intros [? ->]. exists n, (encode_uvar n), []. rewrite app_nil_r.
      assert (n < 2 ^ 64)%N by (eapply N.le_lt_trans; done).
      split_and!; unfold uvar_enc; first [reflexivity|assumption|split_and!; first [assumption|by left|reflexivity]].
  - intros n. destruct (N.ltb_spec max n).
    + eapply strict_iff; [|apply strict_fail]. intros; split; [done|]. intros (?&?). lia.
    + eapply strict_iff; [|apply strict_ret]. naive_solver.
Qed.

Lemma strict_sized max :
  (max < U64_LIMIT)%N ->
  Strict (n ← read_len max; take_exact n)
    (fun s bs => len s <= max /\ bs = encode_uvar (len s) ++ s)%N.
Proof.
  intros Hmax. eapply strict_iff; [|apply (strict_bind _ _ _ (fun n s bs => bs = s /\ len s = n)
    (strict_read_len max Hmax)); intros n; apply strict_take_exact].
  intros s bs. split.
  - intros (n & bs1 & bs2 & [? ->] & [-> <-] & ->). done.
  - intros [? ->]. exists (len s), (encode_uvar (len s)), s. done.
Qed.

Lemma encode_sized_Ok b bs :
  encode_sized b = Ok bs <-> (len b <= MAX_STANDALONE_BYTES)%N /\ bs = encode_uvar (len b) ++ b.
Proof.
  unfold encode_sized, ensure. destruct (N.leb_spec (len b) MAX_STANDALONE_BYTES).
  - cbn [mbind result_bind]. rewrite Ok_inj. naive_solver.
  - split; [done|]. intros [? _]. lia.
Qed.

Lemma encode_bytes_Ok b bs :
  encode_bytes b = Ok bs <-> (len b <= MAX_BYTE_PAYLOAD)%N /\ bs = encode_uvar (len b) ++ b.
Proof.
  unfold encode_bytes. rewrite bind_Ok. setoid_rewrite ensure_Ok. setoid_rewrite encode_sized_Ok.
  setoid_rewrite N.leb_le. unfold MAX_BYTE_PAYLOAD, MAX_STANDALONE_BYTES. split.
  - by intros ([] & ? & ? & ->).
  - intros [? ->]. exists tt. split_and!; try done. lia.
Qed.

#[export] Instance sized_codec : StrictCodec (fun _ => True) encode_sized read_sized_payload.
Proof.
  eapply strict_iff; [|by apply (strict_sized MAX_STANDALONE_BYTES)].
  intros s bs. rewrite encode_sized_Ok. naive_solver.
Qed.

#[export] Instance bytes_codec : StrictCodec (fun _ => True) encode_bytes read_bytes.
Proof.
  eapply strict_iff; [|by apply (strict_sized MAX_BYTE_PAYLOAD)].
  intros s bs. rewrite encode_bytes_Ok. naive_solver.
Qed.

#[export] Instance text_codec :
  StrictCodec (fun s => from_utf8_ok s = true) encode_text cursor_read_text.
Proof.
  eapply strict_iff; [|apply strict_check, codec_strict].
  intros s bs. unfold encode_text. naive_solver.
Qed.

(** *** Floats *)

Lemma strict_be n :
  Strict (take_array (N.of_nat n) ≫= fun s => mret (be_num s))
    (fun x bs => x < 256 ^ N.of_nat n /\ bs = be_bytes n x)%N.
Proof.
  eapply strict_iff; [|apply strict_map, strict_take_exact]. intros x bs. split.
  - intros (s & [-> Hl] & ->).
    assert (length s = n) as <- by (unfold len in Hl; lia). split.
    + apply be_num_bound.
    + by rewrite be_bytes_be_num.
  - intros [? ->]. exists (be_bytes n x). unfold len. by rewrite length_be_bytes, be_num_be_bytes.
Qed.

Lemma strict_validated n (validate : N -> scb_result unit) :
  Strict (take_array (N.of_nat n) ≫= fun s => rlift (validate (be_num s)) ≫= fun _ => mret (be_num s))
    (fun x bs => x < 256 ^ N.of_nat n /\ (validate x ≫= fun _ => Ok (be_bytes n x)) = Ok bs)%N.
Proof.
  eapply strict_iff; [|apply (strict_bind _ _ _
    (fun s x bs => bs = [] /\ x = be_num s /\ validate x = Ok tt) (strict_take_exact (N.of_nat n)))].
  - intros x bs. rewrite bind_Ok. setoid_rewrite Ok_inj. split.
    + intros (s & bs1 & bs2 & [-> Hl] & (-> & -> & Hv) & ->).
      assert (length s = n) as <- by (unfold len in Hl; lia).
      split; [apply be_num_bound|]. exists tt. by rewrite be_bytes_be_num, app_nil_r.
    + intros (? & [] & Hv & <-). exists (be_bytes n x), (be_bytes n x), [].
      unfold len. by rewrite length_be_bytes, be_num_be_bytes, app_nil_r by done.
  - intros s. unfold rlift. split.
    + intros x bs tl r _ (-> & -> & Hv) _. unfold mbind, RM_bind. rewrite Hv.
      change (len []) with 0%N. by rewrite advance_0.
    + intros x r r' _ (u & r1 & Hv & Hx)%rbind_Ok. unfold mret, RM_ret in Hx.
      apply pair_equal_spec in Hv as [Hv <-]. apply pair_equal_spec in Hx as [Hx <-].
      rewrite Ok_inj in Hx. subst x. exists [].
      change (len []) with 0%N. rewrite advance_0. by destruct u.
Qed.

#[export] Instance f32_codec :
  StrictCodec (fun x => x < 2 ^ 32)%N encode_f32_bits read_f32_bits.
Proof. exact (strict_validated 4 validate_f32_bits). Qed.

#[export] Instance f64_codec :
  StrictCodec (fun x => x < 2 ^ 64)%N encode_f64_bits read_f64_bits.
Proof. exact (strict_validated 8 validate_f64_bits). Qed.

(** *** Unions *)

Lemma encode_union_Ok tag p bs :
  encode_union tag p = Ok bs <->
  (len p <= MAX_STANDALONE_BYTES)%N /\ bs = encode_uvar tag ++ encode_uvar (len p) ++ p.
Proof.
  unfold encode_union. rewrite bind_Ok. setoid_rewrite encode_sized_Ok. setoid_rewrite Ok_inj. split.
  - by intros (? & [? ->] & <-).
  - intros [? ->]. eauto.
Qed.

#[export] Instance union_codec :
  StrictCodec (fun u => u.1 < 2 ^ 32)%N (fun u => encode_union u.1 u.2) read_union.
Proof.
  unfold StrictCodec, read_union.
  refine (strict_iff _ _ _ _ (strict_bind _ _ _ _ (strict_cursor_uvar 32 eq_refl)
    (fun tag => strict_guard _ _ _ _ (strict_map _ _ (pair tag) (codec_strict (StrictCodec := sized_codec)))))).
  intros [tag p] bs. rewrite encode_union_Ok. setoid_rewrite encode_sized_Ok. cbn [fst snd]. split.
  - by intros (a & bs1 & bs2 & [? ->] & (_ & s & (_ & ? & ->) & [= -> ->]) & ->).
  - intros (Ht & ? & ->). exists tag, (encode_uvar tag), (encode_uvar (len p) ++ p).
    split_and!; [assumption|reflexivity|by apply N.leb_gt|by exists p|reflexivity].
Qed.

(** ** Theorems *)

(** [read_uvar] of width [w] succeeds exactly on inputs that begin with
    the canonical varint of a value below [2^w]; it returns that value and
    stops right after it, so no other byte string is read as the value. *)
Theorem read_uvar_exact w input v r' :
  (0 < w <= 64)%N -> (len input < U64_LIMIT)%N ->
  cursor_read_uvar w (Reader_new input) = (Ok v, r') <->
  (v < 2 ^ w)%N /\ exists tl, input = encode_uvar v ++ tl /\ r' = mkReader input (len (encode_uvar v)).
Proof.
  intros Hw Hl. assert (TCEq ((w =? 0)%N || (64 <? w)%N) false) by (apply TCEq_eq; lia).
  etransitivity; [exact (codec_reads (StrictCodec0 := uvar_codec w H) input v r' Hl)|].
  setoid_rewrite Ok_inj. split.
  - intros (bs & tl & ? & <- & -> & ->). eauto.
  - intros (? & tl & -> & ->). exists (encode_uvar v), tl. done.
Qed.

Theorem read_uvar_exact_witness :
  cursor_read_uvar 64 (Reader_new [xac; x02; xff]) = (Ok 300%N, mkReader [xac; x02; xff] 2).
Proof.
  apply (read_uvar_exact 64 [xac; x02; xff] 300); [lia|reflexivity|].
  split; [reflexivity|]. exists [xff]. split; vm_compute; reflexivity.
Defined.

(** [read_sint128] inverts [encode_sint128] on every [i128] and accepts
    nothing else: it succeeds exactly on inputs that begin with the encoding
    of the value it returns, and the encoder never runs past its 19 bytes. *)
Theorem read_sint128_exact input x r' :
  (len input < U64_LIMIT)%N ->
  read_sint128 (Reader_new input) = (Ok x, r') <->
  in_sint 128 x /\ exists bs tl, encode_sint128 x = Some bs /\ (len bs <= 19)%N /\
    input = bs ++ tl /\ r' = mkReader input (len bs).
Proof.
  intros Hl. etransitivity; [exact (codec_reads (StrictCodec0 := sint128_codec) input x r' Hl)|].
  unfold no_panic. setoid_rewrite ok_or_Ok. split.
  - intros (bs & tl & Hx & Hb & -> & ->). split; [assumption|]. exists bs, tl. split_and!; try done.
    unfold encode_sint128 in Hb. rewrite encode_uvar128_spec in Hb by by apply (zigzag_bound 128).
    apply Some_inj in Hb as <-. unfold len. pose proof (length_uvar_groups 19 (zigzag 128 x)). lia.
  - intros (Hx & bs & tl & Hb & _ & -> & ->). exists bs, tl. done.
Qed.

Theorem read_sint128_exact_witness :
  read_sint128 (Reader_new [x03; x00]) = (Ok (-2)%Z, mkReader [x03; x00] 1).
Proof.
  apply (read_sint128_exact [x03; x00] (-2)); [reflexivity|].
  split; [unfold in_sint; lia|]. exists [x03], [x00]. split_and!; vm_compute; (reflexivity || discriminate).
Defined.

(** [read_text] accepts exactly a canonical length, at most 16 MiB,
    followed by that many bytes of well-formed UTF-8, which it returns. *)
Theorem read_text_exact input s r' :
  (len input < U64_LIMIT)%N ->
  cursor_read_text (Reader_new input) = (Ok s, r') <->
  from_utf8_ok s = true /\ (len s <= MAX_BYTE_PAYLOAD)%N /\ exists tl,
    input = encode_uvar (len s) ++ s ++ tl /\ r' = mkReader input (len (encode_uvar (len s)) + len s).
Proof.
  intros Hl. etransitivity; [exact (codec_reads (StrictCodec0 := text_codec) input s r' Hl)|].
  unfold encode_text. setoid_rewrite encode_bytes_Ok. split.
  - intros (bs & tl & ? & [? ->] & -> & ->). split_and!; try done. exists tl.
    by rewrite len_app, <- app_assoc.
  - intros (? & ? & tl & -> & ->). exists (encode_uvar (len s) ++ s), tl.
    by rewrite len_app, <- app_assoc.
Qed.

Theorem read_text_exact_witness :
  cursor_read_text (Reader_new [x02; x68; x69]) = (Ok [x68; x69], mkReader [x02; x68; x69] 3).
Proof.
  apply (read_text_exact [x02; x68; x69] [x68; x69]); [reflexivity|].
  split_and!; [reflexivity|vm_compute; discriminate|]. exists []. split; vm_compute; reflexivity.
Defined.

(** The canonical binary64 bit patterns: every finite number but the negative
    zero, the infinities, and one quiet NaN. *)
Definition f64_canonical (bits : N) : Prop :=
  bits <> (2 ^ 63)%N /\
  ((bits / 2 ^ 52) mod 2 ^ 11 = 2047 -> bits mod 2 ^ 52 <> 0 -> bits = 2047 * 2 ^ 52 + 2 ^ 51)%N.

Lemma f64_exponent bits :
  (N.land bits 0x7ff0000000000000 =? 0x7ff0000000000000)%N = ((bits / 2 ^ 52) mod 2 ^ 11 =? 2047)%N.
Proof.
  change 0x7ff0000000000000%N with (N.shiftl (N.ones 11) 52).
  replace (N.land bits (N.shiftl (N.ones 11) 52)) with (N.shiftl (N.land (N.shiftr bits 52) (N.ones 11)) 52).
  - rewrite N.land_ones, N.shiftr_div_pow2, !N.shiftl_mul_pow2. change (N.ones 11) with 2047%N.
    generalize ((bits / 2 ^ 52) mod 2 ^ 11)%N. intros e. change (2 ^ 52)%N with 4503599627370496%N. lia.
  - apply N.bits_inj. intros n. rewrite N.land_spec. destruct (N.lt_ge_cases n 52) as [Hn|Hn].
    + rewrite !N.shiftl_spec_low by done. by rewrite andb_false_r.
    + rewrite !N.shiftl_spec_high' by done. rewrite N.land_spec, N.shiftr_spec'. by rewrite N.sub_add.
Qed.

Lemma validate_f64_bits_Ok bits : validate_f64_bits bits = Ok tt <-> f64_canonical bits.
Proof.
  unfold validate_f64_bits, f64_canonical. rewrite f64_exponent.
  change 0x000fffffffffffff%N with (N.ones 52). rewrite N.land_ones.
  change 0x8000000000000000%N with (2 ^ 63)%N.
  change 0x7ff8000000000000%N with (2047 * 2 ^ 52 + 2 ^ 51)%N.
  destruct (N.eqb_spec bits (2 ^ 63)); cbn [orb]; [by split; [|intros []]|].
  destruct (N.eqb_spec ((bits / 2 ^ 52) mod 2 ^ 11) 2047); cbn [andb]; [|naive_solver].
  destruct (N.eqb_spec (bits mod 2 ^ 52) 0); cbn [andb negb]; [naive_solver|].
  destruct (N.eqb_spec bits (2047 * 2 ^ 52 + 2 ^ 51)); cbn [negb]; [naive_solver|].
  split; [done|]. intros [_ H]. exfalso. by apply n1, H.
Qed.

(** [read_f64_bits] accepts exactly eight bytes that spell, in big-endian
    order, a canonical binary64 pattern: not the negative zero, and no NaN but
    the quiet one with an empty payload. *)
Theorem read_f64_bits_exact input x r' :
  (len input < U64_LIMIT)%N ->
  read_f64_bits (Reader_new input) = (Ok x, r') <->
  (x < 2 ^ 64)%N /\ f64_canonical x /\
  exists tl, input = be_bytes 8 x ++ tl /\ r' = mkReader input 8.
Proof.
  intros Hl. etransitivity; [exact (codec_reads (StrictCodec0 := f64_codec) input x r' Hl)|].
  unfold encode_f64_bits. setoid_rewrite bind_Ok.
  setoid_rewrite Ok_inj. rewrite <- validate_f64_bits_Ok.
  assert (len (be_bytes 8 x) = 8)%N as Hlen by (unfold len; by rewrite length_be_bytes). split.
  - intros (bs & tl & ? & ([] & Hv & <-) & -> & ->). rewrite Hlen. eauto.
  - intros (? & Hv & tl & -> & ->). exists (be_bytes 8 x), tl. rewrite Hlen. eauto 10.
Qed.

Theorem read_f64_bits_exact_witness :
  read_f64_bits (Reader_new (be_bytes 8 (1023 * 2 ^ 52))) =
    (Ok (1023 * 2 ^ 52)%N, mkReader (be_bytes 8 (1023 * 2 ^ 52)) 8).
Proof.
  apply (read_f64_bits_exact (be_bytes 8 (1023 * 2 ^ 52)) (1023 * 2 ^ 52)); [reflexivity|].
  split_and!; [reflexivity| |by exists []].
  split; [discriminate|]. intros H. vm_compute in H. discriminate.
Defined.

(** [read_union] accepts exactly the bytes [encode_union] writes for a
    32-bit tag and a payload, whose framing it strips. *)
Theorem read_union_exact input tag payload r' :
  (len input < U64_LIMIT)%N ->
  read_union (Reader_new input) = (Ok (tag, payload), r') <->
  (tag < 2 ^ 32)%N /\ exists bs tl, encode_union tag payload = Ok bs /\
    input = bs ++ tl /\ r' = mkReader input (len bs).
Proof.
  intros Hl. etransitivity; [exact (codec_reads (StrictCodec0 := union_codec) input (tag, payload) r' Hl)|].
  cbn [fst snd]. split.
  - intros (bs & tl & ? & ? & ? & ?). split; [assumption|]. by exists bs, tl.
  - intros (? & bs & tl & ? & ? & ?). by exists bs, tl.
Qed.

Theorem read_union_exact_witness :
  read_union (Reader_new [x07; x01; x2a]) = (Ok (7%N, [x2a]), mkReader [x07; x01; x2a] 3).
Proof.
  apply (read_union_exact [x07; x01; x2a] 7 [x2a]); [reflexivity|].
  split; [reflexivity|]. exists [x07; x01; x2a], []. split_and!; vm_compute; reflexivity.
Defined.
