(* ===== verification/Scb1Schema.v ===== *)
(** * SCB1 composite values (crates/sley-scb1): lists, records, maps, schemas

    The encoders of the composite values, the schema-directed decoder
    [decode_schema] with its record, map, option, union and extension decoders,
    and the standalone envelope.  [Canonical] says which bytes a schema admits
    in terms of the encoders; the main theorem says that the decoder accepts
    exactly those.  Normalization (the [unicode-normalization] crate) and BLAKE3
    are parameters. *)

From S2P Require Import Prelude Bytes Utf8 Ids Scb1Core Scb1Cursor.
From stdpp Require Import strings.

(** ** Composite encoders *)

Definition encode_normalized_label (nfc_stable : bytes -> bool) (label : bytes) : scb_result bytes :=
  if nfc_stable label then encode_text label else Err ScbLabelNotNfc.

Definition encode_list (elements : list bytes) : scb_result bytes :=
  guard! (len elements <=? MAX_COLLECTION_ELEMENTS)%N else ScbResourceLimit;
  fold_res (fun out element => encode_sized element ≫= fun s => Ok (out ++ s))
    (encode_uvar (len elements)) elements.

(** [ordered.windows(2).any(|pair| pair[0].0 == pair[1].0)] *)
Fixpoint adjacent_equal {K V} `{EqDecision K} (l : list (K * V)) : bool :=
  match l with
  | (k1, _) :: ((k2, _) :: _) as l' => bool_decide (k1 = k2) || adjacent_equal l'
  | _ => false
  end.

Definition encode_record (fields : list (N * bytes)) : scb_result bytes :=
  guard! (len fields <=? MAX_RECORD_FIELDS)%N else ScbResourceLimit;
  let ordered := sort_by (fun l r => l.1 ?= r.1)%N fields in
  guard! negb (adjacent_equal ordered) else ScbFieldDuplicate;
  fold_res (fun out f => encode_sized f.2 ≫= fun s => Ok (out ++ encode_uvar f.1 ++ s))
    (encode_uvar (len fields)) ordered.

Definition encode_map (entries : list (bytes * bytes)) : scb_result bytes :=
  guard! (len entries <=? MAX_COLLECTION_ELEMENTS)%N else ScbResourceLimit;
  let ordered := sort_by (fun l r => bytes_cmp l.1 r.1) entries in
  guard! negb (adjacent_equal ordered) else ScbMapDuplicate;
  fold_res (fun out e =>
      encode_sized e.1 ≫= fun k => encode_sized e.2 ≫= fun v => Ok (out ++ k ++ v))
    (encode_uvar (len entries)) ordered.

(** ** Schemas *)

Inductive Schema : Type :=
| UInt (width : N)
| SInt (width : N)
| SBool
| SBytes
| SText
| NormalizedLabel
| F32
| F64
| ListUInt64
| MapUInt8UInt8
| MapUInt64Text
| OptionUInt64
| UnionBool (tag : N)
| FixtureRecord
| FixtureAcceptedRecord
| FixtureEmptyObject
| FixtureRequiredBool
| FixtureExtensibleRecord
| NestedListFixture.

(** [for _ in 0..count]: the loops of the decoders thread some state. *)
Section repeat.
Context {S : Type} (f : S -> RM S).
Fixpoint repeat_read (count : nat) (s : S) : RM S :=
  match count with
  | O => mret s
  | Datatypes.S count => s ← f s; repeat_read count s
  end.
End repeat.

(** A nested reader over its own slice, which it must consume. *)
Definition nested_exact {A} (m : RM A) (input : bytes) : scb_result A :=
  let (res, r) := m (Reader_new input) in
  a ← res; if is_finished r then Ok a else Err ScbTrailingBytes.

(** [self.input[start..self.position]] around a read. *)
Definition with_slice {A} (m : RM A) : RM bytes := fun r =>
  match m r with
  | (Ok _, r') => (Ok (slice_from (rd_position r) r'), r')
  | (Err e, r') => (Err e, r')
  end.

Definition read_ordered_field_tag (previous_tag : option N) : RM N :=
  tag ← read_uvar_width 32;
  match previous_tag with
  | Some previous =>
      if (tag =? previous)%N then rfail ScbFieldDuplicate
      else if (tag <? previous)%N then rfail ScbFieldOrder
      else mret tag
  | None => mret tag
  end.

(** The order check of the keys of a map and of the members of a set. *)
Definition check_ascending (previous : option bytes) (key : bytes) : scb_result unit :=
  match previous with
  | Some p =>
      match bytes_cmp p key with
      | Gt => Err ScbMapOrder
      | Eq => Err ScbMapDuplicate
      | Lt => Ok tt
      end
  | None => Ok tt
  end.

Section decode.
Variable nfc_stable : bytes -> bool.

Definition read_text (require_nfc : bool) : RM unit :=
  n ← read_len MAX_BYTE_PAYLOAD;
  s ← take_exact n;
  if from_utf8_ok s then
    if require_nfc && negb (nfc_stable s) then rfail ScbLabelNotNfc else mret tt
  else rfail ScbUtf8Invalid.

(** The decoders of composite values call [decode_schema] one level down:
    [rec schema depth]. *)
Section composite.
Variable rec : Schema -> N -> RM bytes.

Definition decode_nested_exact (schema : Schema) (input : bytes) (depth : N) : scb_result unit :=
  nested_exact (rec schema (depth + 1)%N) input ≫= fun _ => Ok tt.

Definition decode_list (element_schema : Schema) (depth : N) : RM unit :=
  count ← read_count;
  repeat_read (fun _ =>
    element ← read_sized_payload;
    rlift (decode_nested_exact element_schema element depth)) (N.to_nat count) tt.

Definition decode_map (key_schema value_schema : Schema) (depth : N) : RM unit :=
  count ← read_count;
  (repeat_read (fun previous_key =>
    key ← read_sized_payload;
    decoded_key ← rlift (nested_exact (rec key_schema (depth + 1)%N) key);
    rlift (check_ascending previous_key decoded_key) ≫= fun _ =>
    value ← read_sized_payload;
    rlift (decode_nested_exact value_schema value depth) ≫= fun _ =>
    mret (Some decoded_key)) (N.to_nat count) None) ≫= fun _ => mret tt.

Definition decode_option_uvar (depth : N) : RM unit :=
  tag ← read_uvar_width 32;
  payload ← read_sized_payload;
  if (tag =? 0)%N && (len payload =? 0)%N then mret tt
  else if (tag =? 1)%N then rlift (decode_nested_exact (UInt 64) payload depth)
  else rfail ScbUnionInvalid.

Definition decode_union_bool (expected_tag : N) (depth : N) : RM unit :=
  tag ← read_uvar_width 32;
  if negb (tag =? expected_tag)%N then rfail ScbUnionInvalid
  else payload ← read_sized_payload; rlift (decode_nested_exact SBool payload depth).

Definition decode_empty_record : RM unit :=
  count ← read_record_field_count;
  if (count =? 0)%N then mret tt else rfail ScbFieldUnknown.

(** The loops keep [(saw_required, previous_tag)]. *)
Definition decode_required_bool_record (depth : N) : RM unit :=
  count ← read_record_field_count;
  st ← repeat_read (fun st : bool * option N =>
    tag ← read_ordered_field_tag (snd st);
    value ← read_sized_payload;
    if negb (tag =? 1)%N then rfail ScbFieldUnknown
    else rlift (decode_nested_exact SBool value depth) ≫= fun _ => mret (true, Some tag))
    (N.to_nat count) (false, None);
  if (fst st : bool) then mret tt else rfail ScbFieldMissing.

Definition decode_fixture_record (depth : N) : RM unit :=
  count ← read_record_field_count;
  (repeat_read (fun previous_tag =>
    tag ← read_ordered_field_tag previous_tag;
    value ← read_sized_payload;
    if negb (tag =? 1)%N && negb (tag =? 2)%N then rfail ScbFieldUnknown
    else rlift (decode_nested_exact SBool value depth) ≫= fun _ => mret (Some tag))
    (N.to_nat count) None) ≫= fun _ => mret tt.

(** One turn of [for expected_tag in [1, 3]]. *)
Definition accepted_field (depth expected_tag : N) (previous_tag : option N) : RM (option N) :=
  tag ← read_ordered_field_tag previous_tag;
  if negb (tag =? expected_tag)%N then rfail ScbFieldUnknown
  else
    value ← read_sized_payload;
    let schema := if (tag =? 1)%N then SBool else UInt 64 in
    rlift (decode_nested_exact schema value depth) ≫= fun _ => mret (Some tag).

Definition decode_accepted_record (depth : N) : RM unit :=
  count ← read_record_field_count;
  if negb (count =? 2)%N then rfail ScbFieldMissing
  else
    previous_tag ← accepted_field depth 1 None;
    previous_tag ← accepted_field depth 3 previous_tag;
    mret tt.

(** One turn of [for expected_tag in 1..=4] of [decode_extension_record]. *)
Definition extension_field (depth expected_tag : N) (previous_tag : option N) : RM (option N) :=
  tag ← read_ordered_field_tag previous_tag;
  if negb (tag =? expected_tag)%N then rfail ScbFieldMissing
  else
    value ← read_sized_payload;
    (if (tag =? 1)%N then
       if negb (len value =? 16)%N then rfail ScbLengthOverflow else mret tt
     else if (tag =? 2)%N || (tag =? 3)%N then rlift (decode_nested_exact (UInt 32) value depth)
     else rlift (decode_nested_exact SBytes value depth)) ≫= fun _ => mret (Some tag).

(** [decode_extension_record]: no extension is known, so a well-formed one
    is rejected as unknown. *)
Definition decode_extension_record (input : bytes) (depth : N) : scb_result unit :=
  let '(res, r) :=
    (count ← read_record_field_count;
     if (count <? 4)%N then rfail ScbFieldMissing
     else if (4 <? count)%N then rfail ScbFieldUnknown
     else
       p ← extension_field depth 1 None;
       p ← extension_field depth 2 p;
       p ← extension_field depth 3 p;
       p ← extension_field depth 4 p;
       if negb (count =? 4)%N then rfail ScbFieldUnknown else mret tt : RM unit)
      (Reader_new input) in
  res ≫= fun _ =>
  if negb (is_finished r) then Err ScbTrailingBytes else Err ScbExtensionUnknown.

Definition decode_extension_set (input : bytes) (depth : N) : scb_result unit :=
  nested_exact
    (count ← read_count;
     repeat_read (fun previous =>
       extension ← read_sized_payload;
       rlift (check_ascending previous extension) ≫= fun _ =>
       rlift (decode_extension_record extension (depth + 1)%N) ≫= fun _ =>
       mret (Some extension)) (N.to_nat count) None) input ≫= fun _ => Ok tt.

Definition decode_extensible_record (depth : N) : RM unit :=
  count ← read_record_field_count;
  (repeat_read (fun previous_tag =>
    tag ← read_ordered_field_tag previous_tag;
    value ← read_sized_payload;
    if negb (tag =? 1)%N then rfail ScbFieldUnknown
    else rlift (decode_extension_set value depth) ≫= fun _ => mret (Some tag))
    (N.to_nat count) None) ≫= fun _ => mret tt.
End composite.

(** The fuel is one more than the levels left below [MAX_NESTING_DEPTH]. *)
Fixpoint decode_nested_list (fuel : nat) (depth : N) : RM unit :=
  match fuel with
  | O => rfail ScbResourceLimit
  | S fuel =>
      if (MAX_NESTING_DEPTH <=? depth)%N then rfail ScbResourceLimit
      else
        count ← read_count;
        repeat_read (fun _ =>
          value ← read_sized_payload;
          rlift (nested_exact (decode_nested_list fuel (depth + 1)%N) value))
          (N.to_nat count) tt
  end.

Definition decode_value (rec : Schema -> N -> RM bytes) (fuel : nat) (schema : Schema) (depth : N)
    : RM unit :=
  match schema with
  | UInt width => read_uvar_width width ≫= fun _ => mret tt
  | SInt width =>
      encoded ← read_uvar_width width;
      if (width <? 64)%N && (2 ^ width <=? encoded)%N then rfail ScbIntegerOverflow else mret tt
  | SBool => value ← read_u8; if (1 <? b2n value)%N then rfail ScbBoolInvalid else mret tt
  | SBytes => n ← read_len MAX_BYTE_PAYLOAD; take_exact n ≫= fun _ => mret tt
  | SText => read_text false
  | NormalizedLabel => read_text true
  | F32 => s ← take_array 4; rlift (validate_f32_bits (be_num s))
  | F64 => s ← take_array 8; rlift (validate_f64_bits (be_num s))
  | ListUInt64 => decode_list rec (UInt 64) depth
  | MapUInt8UInt8 => decode_map rec (UInt 8) (UInt 8) depth
  | MapUInt64Text => decode_map rec (UInt 64) SText depth
  | OptionUInt64 => decode_option_uvar rec depth
  | UnionBool tag => decode_union_bool rec tag depth
  | FixtureRecord => decode_fixture_record rec depth
  | FixtureAcceptedRecord => decode_accepted_record rec depth
  | FixtureEmptyObject => decode_empty_record
  | FixtureRequiredBool => decode_required_bool_record rec depth
  | FixtureExtensibleRecord => decode_extensible_record rec depth
  | NestedListFixture => decode_nested_list fuel depth
  end.

Fixpoint decode_schema (fuel : nat) (schema : Schema) (depth : N) : RM bytes :=
  match fuel with
  | O => rfail ScbResourceLimit
  | S fuel =>
      if (MAX_NESTING_DEPTH <? depth)%N then rfail ScbResourceLimit
      else with_slice (decode_value (decode_schema fuel) (S fuel) schema depth)
  end.

Definition decode_payload_exact (schema : Schema) (input : bytes) : scb_result unit :=
  guard! (len input <=? MAX_STANDALONE_BYTES)%N else ScbResourceLimit;
  nested_exact (decode_schema 66 schema 0) input ≫= fun _ => Ok tt.
End decode.

(** ** Reading lemmas *)

Definition small (s : bytes) : Prop := (len s <= MAX_STANDALONE_BYTES)%N.
Definition chunk (s : bytes) : bytes := encode_uvar (len s) ++ s.

Lemma small_limit s : small s -> (len s < U64_LIMIT)%N.
Proof. unfold small, MAX_STANDALONE_BYTES, U64_LIMIT. intros H. eapply N.le_lt_trans; [exact H|done]. Qed.

Lemma strict_sized_payload : Strict read_sized_payload (fun s bs => small s /\ bs = chunk s).
Proof. by apply (strict_sized MAX_STANDALONE_BYTES). Qed.

Lemma strict_rlift {A} (m : scb_result A) : Strict (rlift m) (fun a bs => m = Ok a /\ bs = []).
Proof.
  split; unfold rlift.
  - intros a bs tl r _ [-> ->] _. change (len []) with 0%N. by rewrite advance_0.
  - intros a r r' _ [-> <-]%pair_equal_spec. exists []. change (len []) with 0%N.
    by rewrite advance_0.
Qed.

(** A check between two reads. *)
Lemma strict_rlift_bind {A B} (m : scb_result A) (k : A -> RM B) F :
  (forall a, Strict (k a) (F a)) ->
  Strict (rlift m ≫= k) (fun b bs => exists a, m = Ok a /\ F a b bs).
Proof.
  intros Hk. refine (strict_iff _ _ _ _ (strict_bind _ _ _ _ (strict_rlift m) Hk)). intros b bs. split.
  - intros (a & bs1 & bs2 & [? ->] & ? & ->). eauto.
  - intros (a & ? & ?). by exists a, [], bs.
Qed.

Lemma strict_drop {A B} (m : RM A) E (b : B) :
  Strict m E -> Strict (m ≫= fun _ => mret b) (fun b' bs => b' = b /\ exists a, E a bs).
Proof. intros H. refine (strict_iff _ _ _ _ (strict_map m E (fun _ => b) H)). naive_solver. Qed.

Lemma strict_with_slice {A} (m : RM A) E :
  Strict m E -> Strict (with_slice m) (fun out bs => out = bs /\ exists a, E a bs).
Proof.
  intros [Hc Hs]. unfold with_slice.
  assert (forall bs tl r, rest r = bs ++ tl -> slice_from (rd_position r) (advance (len bs) r) = bs) as Hsl.
  { intros bs tl r Hr. unfold slice_from. simpl.
    replace (rd_position r + len bs - rd_position r)%N with (len bs) by lia.
    change (drop _ _) with (rest r). rewrite Hr. unfold len. rewrite Nat2N.id. apply take_app_length. }
  split.
  - intros out bs tl r Hok [-> [a Ha]] Hr. rewrite (Hc a bs tl) by done. by erewrite Hsl.
  - intros out r r' Hok H. destruct (m r) as [[a|] r1] eqn:Hm; [|done].
    destruct (Hs _ _ _ Hok Hm) as (bs & HE & Hr & ->).
    apply pair_equal_spec in H as [H <-]. rewrite Ok_inj in H. erewrite Hsl in H by done. subst out.
    exists bs. eauto.
Qed.

Lemma nested_exact_iff {A} (m : RM A) E a input :
  Strict m E -> (len input < U64_LIMIT)%N -> nested_exact m input = Ok a <-> E a input.
Proof.
  intros [Hc Hs] Hl. assert (reader_ok (Reader_new input)) as Hok by by apply reader_ok_new.
  assert (rest (Reader_new input) = input) as Hri by done.
  unfold nested_exact. split.
  - destruct (m (Reader_new input)) as [res r] eqn:Hm. intros (a' & -> & H)%bind_Ok.
    destruct (is_finished r) eqn:Hf; [|done]. rewrite Ok_inj in H. subst a'.
    destruct (Hs _ _ _ Hok Hm) as (bs & HE & Hr & ->).
    apply is_finished_rest in Hf; [|by eapply reader_ok_advance].
    rewrite Hf, app_nil_r, Hri in Hr. by subst bs.
  - intros HE. rewrite (Hc a input []) by (done || by rewrite app_nil_r).
    assert (is_finished (advance (len input) (Reader_new input)) = true) as ->; [|done].
    unfold is_finished. simpl. by apply N.eqb_refl.
Qed.

(** *** Loops *)

Lemma strict_list_loop {I} (f : unit -> RM unit) (P : I -> Prop) enc n :
  Strict (f tt) (fun _ bs => exists it, P it /\ bs = enc it) ->
  Strict (repeat_read f n tt)
    (fun _ bs => exists items, length items = n /\ Forall P items /\ bs = concat (enc <$> items)).
Proof.
  intros Hf. induction n as [|n IH]; simpl.
  - refine (strict_iff _ _ _ _ (strict_ret tt)). intros [] bs. split.
    + intros [_ ->]. by exists [].
    + by intros ([|] & ? & _ & ->).
  - refine (strict_iff _ _ _ _ (strict_bind _ _ _ (fun _ => _) Hf (fun '() => IH))).
    intros [] bs. split.
    + intros ([] & bs1 & bs2 & (it & ? & ->) & (items & <- & ? & ->) & ->).
      exists (it :: items). split_and!; [done|by constructor|done].
    + intros ([|it items] & [= <-] & [? ?]%Forall_cons & ->).
      exists tt, (enc it), (concat (enc <$> items)). eauto 10.
Qed.

Section ordered_loop.
Context {S I K : Type} (key : I -> K) (cmp : K -> K -> comparison).
Context (prev : S -> option K) (next : S -> I -> S) (P : I -> Prop) (enc : I -> bytes).
Hypothesis Hcmp : TotalCompare cmp.
Hypothesis Hnext : forall s it, prev (next s it) = Some (key it).

Definition above (o : option K) (k : K) : Prop :=
  match o with Some p => cmp p k = Lt | None => True end.

Definition ascending (l : list I) : Prop :=
  StronglySorted (fun x y => cmp (key x) (key y) = Lt) l.

Lemma strict_ordered_loop (f : S -> RM S) n s :
  (forall s, Strict (f s)
     (fun s' bs => exists it, above (prev s) (key it) /\ P it /\ s' = next s it /\ bs = enc it)) ->
  Strict (repeat_read f n s)
    (fun s' bs => exists items, length items = n /\ Forall P items /\ ascending items /\
       Forall (fun it => above (prev s) (key it)) items /\ s' = foldl next s items /\
       bs = concat (enc <$> items)).
Proof using Hcmp Hnext.
  intros Hf. revert s. induction n as [|n IH]; intros s; simpl.
  - refine (strict_iff _ _ _ _ (strict_ret s)). intros s' bs. split.
    + intros [-> ->]. exists []. split_and!; constructor.
    + by intros ([|] & ? & _ & _ & _ & -> & ->).
  - refine (strict_iff _ _ _ _ (strict_bind _ _ _ _ (Hf s) IH)). intros s' bs. split.
    + intros (s1 & bs1 & bs2 & (it & Ha & HP & -> & ->) & (items & <- & ? & Hs & Hall & -> & ->) & ->).
      rewrite Hnext in Hall. exists (it :: items).
      split_and!; try done; constructor; try done.
      eapply Forall_impl; [exact Hall|]. simpl. intros x Hx.
      destruct (prev s); simpl in *; [|done]. eapply (tc_trans _ Hcmp); done.
    + intros ([|it items] & [= <-] & [? ?]%Forall_cons & Hs & [? ?]%Forall_cons & -> & ->).
      apply StronglySorted_inv in Hs as [Hs Hx].
      exists (next s it), (enc it), (concat (enc <$> items)). split_and!; [by exists it| |done].
      exists items. rewrite Hnext. split_and!; done.
Qed.
End ordered_loop.

(** ** The encoders as relations *)

Lemma fold_out_Ok {I} (g : I -> scb_result bytes) (enc : I -> bytes) (P : I -> Prop) items out bs :
  (forall it b, g it = Ok b <-> P it /\ b = enc it) ->
  fold_res (fun out it => g it ≫= fun s => Ok (out ++ s)) out items = Ok bs <->
  Forall P items /\ bs = out ++ concat (enc <$> items).
Proof.
  intros Hg. revert out. induction items as [|it items IH]; intros out; simpl.
  - rewrite app_nil_r, Ok_inj. split; [by intros ->|by intros [_ ->]].
  - rewrite bind_Ok. setoid_rewrite IH. rewrite Forall_cons, app_assoc. split.
    + intros (o & (b & [? ->]%Hg & <-%Ok_inj)%bind_Ok & ? & ->). done.
    + intros ([? ?] & ->). exists (out ++ enc it). split; [|done].
      rewrite (proj2 (Hg it (enc it))); done.
Qed.

Lemma encode_list_Ok els bs :
  encode_list els = Ok bs <->
  (len els <= MAX_COLLECTION_ELEMENTS)%N /\ Forall small els /\
  bs = encode_uvar (len els) ++ concat (chunk <$> els).
Proof.
  unfold encode_list. rewrite bind_Ok.
  setoid_rewrite (fold_out_Ok encode_sized chunk small _ _ _ encode_sized_Ok).
  setoid_rewrite ensure_Ok. rewrite <- N.leb_le. split.
  - by intros (_ & ? & ?).
  - intros (? & ?). by exists tt.
Qed.

Section adjacent.
Context {K V : Type} `{EqDecision K} (cmp : K -> K -> comparison).
Hypothesis Hcmp : TotalCompare cmp.

Lemma adjacent_equal_false (l : list (K * V)) :
  StronglySorted (fun x y => cmp x.1 y.1 <> Gt) l ->
  adjacent_equal l = false <-> NoDup l.*1.
Proof using Hcmp.
  induction 1 as [|[k v] l Hs IH Hx]; simpl; [by split; constructor|].
  rewrite NoDup_cons. destruct l as [|[k2 v2] l]; [split; [|done]; by split; [apply not_elem_of_nil|constructor]|].
  rewrite orb_false_iff, bool_decide_eq_false, IH. apply and_iff_compat_r. split.
  - intros Hne ([k' v'] & -> & Hin)%list_elem_of_fmap. simpl in *.
    apply elem_of_cons in Hin as [Hin|Hin]; [by simplify_eq|].
    apply StronglySorted_inv in Hs as [_ Hs]. rewrite Forall_forall in Hs, Hx.
    specialize (Hs _ Hin). assert (cmp k' k2 <> Gt) as Hk by (apply (Hx (k2, v2)); left). simpl in *.
    rewrite (tc_opp _ Hcmp) in Hs. destruct (cmp k' k2) eqn:E; [|done..].
    apply (tc_eq _ Hcmp) in E as ->. done.
  - intros Hn ->. apply Hn. left.
Qed.

Lemma adjacent_equal_sort (l : list (K * V)) :
  adjacent_equal (sort_by (fun x y => cmp x.1 y.1) l) = false <-> NoDup l.*1.
Proof using Hcmp.
  rewrite adjacent_equal_false by by apply (sort_by_sorted fst cmp).
  by rewrite (sort_by_perm fst cmp l).
Qed.
End adjacent.

Lemma Forall_sort {A K} (key : A -> K) cmp (P : A -> Prop) l :
  Forall P (sort_by (fun x y => cmp (key x) (key y)) l) <-> Forall P l.
Proof. by rewrite sort_by_perm. Qed.

Definition field_enc (f : N * bytes) : bytes := encode_uvar f.1 ++ chunk f.2.
Definition entry_enc (e : bytes * bytes) : bytes := chunk e.1 ++ chunk e.2.

Lemma encode_record_Ok fields bs :
  encode_record fields = Ok bs <->
  (len fields <= MAX_RECORD_FIELDS)%N /\ NoDup fields.*1 /\ Forall (fun f => small f.2) fields /\
  bs = encode_uvar (len fields) ++ concat (field_enc <$> sort_by (fun l r => l.1 ?= r.1)%N fields).
Proof.
  unfold encode_record. rewrite bind_Ok. setoid_rewrite bind_Ok. setoid_rewrite ensure_Ok.
  rewrite <- (adjacent_equal_sort _ N_total_compare).
  set (g := fun f : N * bytes => encode_sized f.2 ≫= fun s => Ok (encode_uvar f.1 ++ s)).
  assert (forall f b, g f = Ok b <-> small f.2 /\ b = field_enc f) as Hg.
  { intros f b. unfold g. rewrite bind_Ok. setoid_rewrite encode_sized_Ok. setoid_rewrite Ok_inj.
    split; [by intros (? & [? ->] & <-)|]. intros [? ->]. by exists (chunk f.2). }
  setoid_rewrite (fold_res_ext _ (fun out f => g f ≫= fun s => Ok (out ++ s)));
    [|intros out f; unfold g; by destruct (encode_sized f.2)].
  setoid_rewrite (fold_out_Ok g field_enc (fun f => small f.2) _ _ _ Hg).
  setoid_rewrite (Forall_sort fst N.compare). setoid_rewrite negb_true_iff. rewrite <- N.leb_le. split.
  - by intros (_ & ? & _ & ? & ?).
  - intros (? & ? & ?). exists tt. split; [done|]. by exists tt.
Qed.

Lemma encode_map_Ok entries bs :
  encode_map entries = Ok bs <->
  (len entries <= MAX_COLLECTION_ELEMENTS)%N /\ NoDup entries.*1 /\
  Forall (fun e => small e.1 /\ small e.2) entries /\
  bs = encode_uvar (len entries) ++ concat (entry_enc <$> sort_by (fun l r => bytes_cmp l.1 r.1) entries).
Proof.
  unfold encode_map. rewrite bind_Ok. setoid_rewrite bind_Ok. setoid_rewrite ensure_Ok.
  rewrite <- (adjacent_equal_sort _ bytes_total_compare).
  set (g := fun e : bytes * bytes => encode_sized e.1 ≫= fun k => encode_sized e.2 ≫= fun v => Ok (k ++ v)).
  assert (forall e b, g e = Ok b <-> (small e.1 /\ small e.2) /\ b = entry_enc e) as Hg.
  { intros e b. unfold g. split.
    - intros (k & [? ->]%encode_sized_Ok & Hv)%bind_Ok.
      apply bind_Ok in Hv as (v & [? ->]%encode_sized_Ok & Hb). rewrite Ok_inj in Hb. by subst b.
    - intros [[? ?] ->]. rewrite (proj2 (encode_sized_Ok e.1 (chunk e.1))) by done. simpl.
      by rewrite (proj2 (encode_sized_Ok e.2 (chunk e.2))). }
  setoid_rewrite (fold_res_ext _ (fun out e => g e ≫= fun s => Ok (out ++ s)));
    [|intros out e; unfold g; destruct (encode_sized e.1); [|done]; by destruct (encode_sized e.2)].
  setoid_rewrite (fold_out_Ok g entry_enc (fun e => small e.1 /\ small e.2) _ _ _ Hg).
  setoid_rewrite (Forall_sort fst bytes_cmp). setoid_rewrite negb_true_iff. rewrite <- N.leb_le. split.
  - by intros (_ & ? & _ & ? & ?).
  - intros (? & ? & ?). exists tt. split; [done|]. by exists tt.
Qed.

(** ** Canonical bytes *)

Section canonical.
Variable nfc_stable : bytes -> bool.

Definition uvar_bytes (w : N) (bs : bytes) : Prop :=
  exists v, (v < 2 ^ 64)%N /\ (64 <= w \/ v < 2 ^ w)%N /\ bs = encode_uvar v.
Definition bool_bytes (bs : bytes) : Prop := exists b, bs = encode_bool b.
Definition text_bytes (bs : bytes) : Prop :=
  exists s, from_utf8_ok s = true /\ encode_text s = Ok bs.

(** [levels] lists inside one another. *)
Fixpoint nested_lists (levels : nat) (bs : bytes) : Prop :=
  match levels with
  | O => False
  | S levels => exists els, Forall (nested_lists levels) els /\ encode_list els = Ok bs
  end.

(** The bytes a schema admits, in terms of the encoders. *)
Definition Canonical (schema : Schema) (bs : bytes) : Prop :=
  match schema with
  | UInt w | SInt w => uvar_bytes w bs
  | SBool => bool_bytes bs
  | SBytes => exists s, encode_bytes s = Ok bs
  | SText => text_bytes bs
  | NormalizedLabel =>
      exists s, from_utf8_ok s = true /\ encode_normalized_label nfc_stable s = Ok bs
  | F32 => exists x, (x < 2 ^ 32)%N /\ encode_f32_bits x = Ok bs
  | F64 => exists x, (x < 2 ^ 64)%N /\ encode_f64_bits x = Ok bs
  | ListUInt64 => exists els, Forall (uvar_bytes 64) els /\ encode_list els = Ok bs
  | MapUInt8UInt8 => exists entries,
      Forall (fun e => uvar_bytes 8 e.1 /\ uvar_bytes 8 e.2) entries /\ encode_map entries = Ok bs
  | MapUInt64Text => exists entries,
      Forall (fun e => uvar_bytes 64 e.1 /\ text_bytes e.2) entries /\ encode_map entries = Ok bs
  | OptionUInt64 => exists o,
      match o with Some v => v < 2 ^ 64 | None => True end%N /\ encode_option_uvar o = Ok bs
  | UnionBool tag => (tag < 2 ^ 32)%N /\ exists b, encode_union tag (encode_bool b) = Ok bs
  | FixtureRecord => exists fields,
      Forall (fun f => (f.1 = 1 \/ f.1 = 2)%N /\ bool_bytes f.2) fields /\ encode_record fields = Ok bs
  | FixtureAcceptedRecord => exists b v, (v < 2 ^ 64)%N /\
      encode_record [(3%N, encode_uvar v); (1%N, encode_bool b)] = Ok bs
  | FixtureEmptyObject => encode_record [] = Ok bs
  | FixtureRequiredBool => exists b, encode_record [(1%N, encode_bool b)] = Ok bs
  | FixtureExtensibleRecord => exists fields,
      Forall (fun f => f.1 = 1%N /\ encode_list [] = Ok f.2) fields /\ encode_record fields = Ok bs
  | NestedListFixture => nested_lists 64 bs
  end.
End canonical.

Definition is_leaf (schema : Schema) : bool :=
  match schema with
  | UInt _ | SInt _ | SBool | SBytes | SText | NormalizedLabel | F32 | F64 => true
  | _ => false
  end.

(** [m] accepts the byte strings that satisfy [P]. *)
Definition Accepts {A} (m : RM A) (P : bytes -> Prop) : Prop :=
  exists E, Strict m E /\ forall bs, P bs <-> exists a, E a bs.

Lemma accepts_strict (m : RM unit) P : Accepts m P -> Strict m (fun _ bs => P bs).
Proof.
  intros (E & Hm & HP). refine (strict_iff _ _ _ _ Hm). intros [] bs. rewrite HP.
  split; [by exists tt|]. by intros [[] ?].
Qed.

Lemma strict_accepts {A} (m : RM A) E P : Strict m E -> (forall bs, P bs <-> exists a, E a bs) -> Accepts m P.
Proof. intros. by exists E. Qed.

Section leaves.
Variable nfc_stable : bytes -> bool.

Lemma accepts_text nfc :
  Accepts (read_text nfc_stable nfc)
    (fun bs => exists s, from_utf8_ok s = true /\ (nfc = true -> nfc_stable s = true) /\ encode_text s = Ok bs).
Proof.
  unfold read_text.
  assert (Strict (n ← read_len MAX_BYTE_PAYLOAD; s ← take_exact n;
    if from_utf8_ok s then if nfc && negb (nfc_stable s) then rfail ScbLabelNotNfc else mret tt
    else rfail ScbUtf8Invalid) (fun _ bs => exists s, (len s <= MAX_BYTE_PAYLOAD)%N /\
      bs = encode_uvar (len s) ++ s /\ from_utf8_ok s = true /\ nfc && negb (nfc_stable s) = false)) as H.
  { refine (strict_iff _ _ _ _ (strict_bind _ _ _ _ (strict_read_len MAX_BYTE_PAYLOAD eq_refl)
      (fun n => strict_bind _ _ _ (fun s (u : unit) bs => bs = [] /\ from_utf8_ok s = true /\
         nfc && negb (nfc_stable s) = false) (strict_take_exact n) _))).
    - intros [] bs. split.
      + intros (n & bs1 & bs2 & [? ->] & (s & bs3 & bs4 & [-> <-] & (-> & ? & ?) & ->) & ->).
        exists s. by rewrite app_nil_r.
      + intros (s & ? & -> & ? & ?). exists (len s), (encode_uvar (len s)), s.
        split_and!; try done. exists s, s, []. by rewrite app_nil_r.
    - intros s. repeat case_match; refine (strict_iff _ _ _ _ (strict_ret tt)) ||
        refine (strict_iff _ _ _ _ (strict_fail _)); intros [] bs; naive_solver. }
  eapply strict_accepts; [exact H|]. intros bs. unfold encode_text. setoid_rewrite encode_bytes_Ok. split.
  - intros (s & ? & Hn & ? & ->). exists tt, s. split_and!; try done.
    destruct nfc; [|done]. simpl. by rewrite Hn.
  - intros ([] & s & ? & -> & ? & Hn). exists s. split_and!; try done.
    intros ->. simpl in Hn. by destruct (nfc_stable s).
Qed.

Lemma accepts_uvar w : Accepts (read_uvar_width w ≫= fun _ => mret tt) (uvar_bytes w).
Proof.
  eapply strict_accepts; [apply strict_drop, strict_read_uvar_width|].
  intros bs. unfold uvar_bytes, uvar_enc. change (uvar_groups 10) with encode_uvar.
  split; [intros (v & ?)|intros (_ & _ & v & ?)]; eauto.
Qed.

Lemma accepts_validated n (validate : N -> scb_result unit) :
  Accepts (s ← take_array (N.of_nat n); rlift (validate (be_num s)))
    (fun bs => exists x, (x < 256 ^ N.of_nat n)%N /\ (validate x ≫= fun _ => Ok (be_bytes n x)) = Ok bs).
Proof.
  assert (Accepts (s ← take_array (N.of_nat n); rlift (validate (be_num s)))
    (fun bs => len bs = N.of_nat n /\ validate (be_num bs) = Ok tt)) as (E & H & HE).
  { eapply strict_accepts; [exact (strict_bind _ _ _ _ (strict_take_exact (N.of_nat n))
      (fun s => strict_rlift (validate (be_num s))))|]. intros bs. split.
    - intros [? ?]. exists tt, bs, bs, []. by rewrite app_nil_r.
    - intros ([] & s & bs1 & bs2 & [-> ?] & [? ->] & ->). by rewrite app_nil_r. }
  exists E. split; [done|]. intros bs. rewrite <- HE. split.
  - intros (x & Hx & ([] & Hv & <-%Ok_inj)%bind_Ok). unfold len.
    by rewrite length_be_bytes, be_num_be_bytes.
  - intros [Hl Hv]. exists (be_num bs). assert (length bs = n) as <- by (unfold len in Hl; lia).
    rewrite Hv. simpl. rewrite be_bytes_be_num. split; [apply be_num_bound|done].
Qed.

Lemma accepts_bool :
  Accepts (value ← read_u8; if (1 <? b2n value)%N then rfail ScbBoolInvalid else mret tt) bool_bytes.
Proof.
  eapply strict_accepts.
  - refine (strict_bind _ _ _ (fun c (u : unit) bs => (1 <? b2n c)%N = false /\ bs = []) strict_read_u8 _).
    intros c. refine (strict_iff _ _ _ _ (strict_guard _ _ _ _ (strict_ret tt))). intros [] bs. naive_solver.
  - intros bs. unfold bool_bytes. split.
    + intros ([|] & ->); [exists tt, x01, [x01], []|exists tt, x00, [x00], []]; by split_and!.
    + intros ([] & c & bs1 & bs2 & -> & [Hc ->] & ->). N_bool. rewrite app_nil_r.
      assert (b2n c = 0 \/ b2n c = 1)%N as [E|E] by lia; [exists false|exists true];
        unfold encode_bool; f_equal; by apply b2n_inj.
Qed.

Lemma accepts_leaf rec fuel schema depth :
  is_leaf schema = true -> Accepts (decode_value nfc_stable rec fuel schema depth) (Canonical nfc_stable schema).
Proof.
  destruct schema; try done; intros _; cbn [decode_value Canonical].
  - apply accepts_uvar.
  - destruct (accepts_uvar width) as (E & H & HE).
    eapply strict_accepts; [refine (strict_bind _ _ _ _ (strict_read_uvar_width width) (fun e =>
      strict_guard _ _ _ _ (strict_ret tt)))|]. intros bs. unfold uvar_bytes, uvar_enc.
    change (uvar_groups 10) with encode_uvar. split.
    + intros (v & ? & Hw & ->). exists tt, v, (encode_uvar v), []. rewrite app_nil_r.
      split_and!; try done. apply andb_false_iff. rewrite N.ltb_ge, N.leb_gt. done.
    + intros (_ & v & bs1 & bs2 & (? & ? & ->) & (_ & _ & ->) & ->).
      rewrite app_nil_r. by exists v.
  - apply accepts_bool.
  - eapply strict_accepts; [refine (strict_bind _ _ _ _ (strict_read_len MAX_BYTE_PAYLOAD eq_refl)
      (fun n => strict_drop _ _ tt (strict_take_exact n)))|]. intros bs. cbn [Canonical].
    setoid_rewrite encode_bytes_Ok. split.
    + intros (s & ? & ->). exists tt, (len s), (encode_uvar (len s)), s. split_and!; try done. by exists s.
    + intros (_ & n & bs1 & bs2 & [? ->] & (_ & s & -> & <-) & ->). by exists s.
  - destruct (accepts_text false) as (E & H & HE). exists E. split; [done|].
    intros bs. rewrite <- HE. split.
    + intros (s & ? & Hs). by exists s.
    + intros (s & ? & _ & Hs). by exists s.
  - destruct (accepts_text true) as (E & H & HE). exists E. split; [done|].
    intros bs. rewrite <- HE. split.
    + intros (s & ? & Hn). unfold encode_normalized_label in Hn. exists s. destruct (nfc_stable s); [|done]. done.
    + intros (s & ? & Hn & ?). exists s. unfold encode_normalized_label. by rewrite Hn.
  - exact (accepts_validated 4 validate_f32_bits).
  - exact (accepts_validated 8 validate_f64_bits).
Qed.
End leaves.

(** ** Composite decoders *)

Lemma strict_counted {S I} max (f : S -> RM S) s (R : list I -> S -> Prop) enc :
  (max < U64_LIMIT)%N ->
  (forall n, Strict (repeat_read f n s) (fun s' bs => exists items : list I,
     length items = n /\ R items s' /\ bs = concat (enc <$> items))) ->
  Strict (n ← read_len max; repeat_read f (N.to_nat n) s) (fun s' bs => exists items : list I,
     (len items <= max)%N /\ R items s' /\ bs = encode_uvar (len items) ++ concat (enc <$> items)).
Proof.
  intros Hmax Hl.
  refine (strict_iff _ _ _ _ (strict_bind _ _ _ _ (strict_read_len max Hmax) (fun n => Hl (N.to_nat n)))).
  intros s' bs. split.
  - intros (n & bs1 & bs2 & [? ->] & (items & Hn & ? & ->) & ->).
    assert (n = len items) as -> by (unfold len; lia). by exists items.
  - intros (items & ? & ? & ->). exists (len items), (encode_uvar (len items)), (concat (enc <$> items)).
    split_and!; try done. exists items. split_and!; try done. unfold len. lia.
Qed.

(** The loop of a map or record, and what follows it. *)
Lemma accepts_ordered {S I K} (key : I -> K) cmp (prev : S -> option K) next (Q : I -> Prop) enc
    max (f : S -> RM S) s (k : S -> RM unit) (G : S -> Prop) (P : bytes -> Prop) :
  TotalCompare cmp -> (forall s it, prev (next s it) = Some (key it)) ->
  (forall s, Strict (f s)
     (fun s' bs => exists it, above cmp (prev s) (key it) /\ Q it /\ s' = next s it /\ bs = enc it)) ->
  prev s = None -> (max < U64_LIMIT)%N ->
  (forall s, Strict (k s) (fun _ bs => bs = [] /\ G s)) ->
  (forall bs, P bs <-> exists items, (len items <= max)%N /\ (Forall Q items /\ ascending key cmp items) /\
     G (foldl next s items) /\ bs = encode_uvar (len items) ++ concat (enc <$> items)) ->
  Accepts (n ← read_len max; s' ← repeat_read f (N.to_nat n) s; k s') P.
Proof.
  intros Hcmp Hnext Hf Hs Hmax Hk HP.
  pose proof (fun n => strict_ordered_loop key cmp prev next Q enc Hcmp Hnext f n s Hf) as Hl.
  eapply strict_accepts; [refine (strict_bind _ _ _ _ (strict_read_len max Hmax)
    (fun n => strict_bind _ _ _ _ (Hl (N.to_nat n)) Hk))|]. intros bs. rewrite HP. split.
  - intros (items & ? & [? ?] & ? & ->). exists tt, (len items), (encode_uvar (len items)), (concat (enc <$> items)).
    split_and!; try done. exists (foldl next s items), (concat (enc <$> items)), [].
    rewrite app_nil_r. split_and!; try done. exists items. rewrite Hs. split_and!; try done.
    + unfold len. lia.
    + by apply Forall_true.
  - intros (_ & n & bs1 & bs2 & [? ->] & (s' & bs3 & bs4 & (items & Hn & ? & ? & _ & -> & ->) & (-> & ?) & ->) & ->).
    assert (n = len items) as -> by (unfold len; lia). exists items. rewrite app_nil_r. eauto.
Qed.

Lemma strict_ordered_tag previous :
  Strict (read_ordered_field_tag previous)
    (fun t bs => (t < 2 ^ 32)%N /\ above N.compare previous t /\ bs = encode_uvar t).
Proof.
  unfold read_ordered_field_tag.
  refine (strict_iff _ _ _ _ (strict_bind _ _ _ (fun t u bs => above N.compare previous t /\ u = t /\ bs = [])
    (strict_read_uvar_width 32) _)).
  - intros t bs. unfold uvar_enc. change (uvar_groups 10) with encode_uvar. split.
    + intros (? & bs1 & bs2 & (? & [Hw|?] & ->) & (? & -> & ->) & ->); rewrite app_nil_r; [|done].
      exfalso. revert Hw. unfold N.le. vm_compute. auto.
    + intros (Ht & ? & ->). exists t, (encode_uvar t), []. rewrite app_nil_r. split_and!; try done; [|by right].
      eapply N.lt_trans; [exact Ht|done].
  - intros t. destruct previous as [p|]; simpl.
    + destruct (N.eqb_spec t p); [|destruct (N.ltb_spec t p)].
      * refine (strict_iff _ _ _ _ (strict_fail _)). intros u bs. rewrite N.compare_lt_iff. lia.
      * refine (strict_iff _ _ _ _ (strict_fail _)). intros u bs. rewrite N.compare_lt_iff. lia.
      * refine (strict_iff _ _ _ _ (strict_ret _)). intros u bs. rewrite N.compare_lt_iff. intuition lia.
    + refine (strict_iff _ _ _ _ (strict_ret _)). naive_solver.
Qed.

(** One field of a record: its tag, its sized value, and what is done with them. *)
Lemma strict_field {S} previous (check : N -> bytes -> RM S) (Q : N -> bytes -> S -> Prop) :
  (forall t v, small v -> Strict (check t v) (fun s bs => bs = [] /\ Q t v s)) ->
  Strict (tag ← read_ordered_field_tag previous; value ← read_sized_payload; check tag value)
    (fun s bs => exists f : N * bytes, above N.compare previous f.1 /\
       ((f.1 < 2 ^ 32)%N /\ small f.2) /\ Q f.1 f.2 s /\ bs = field_enc f).
Proof.
  intros Hc.
  refine (strict_iff _ _ _ _ (strict_bind _ _ _ _ (strict_ordered_tag previous) (fun t =>
    strict_bind_when _ _ _ _ strict_sized_payload (fun v bs H => Hc t v (proj1 H))))).
  intros s bs. unfold field_enc. split.
  - intros (t & bs1 & bs2 & (? & ? & ->) & (v & bs3 & bs4 & (? & ->) & (-> & ?) & ->) & ->).
    exists (t, v). by rewrite app_nil_r.
  - intros ([t v] & ? & (? & ?) & ? & ->). simpl in *. exists t, (encode_uvar t), (chunk v).
    split_and!; try done. exists v, (chunk v), []. by rewrite app_nil_r.
Qed.

Lemma record_canonical (Q : N * bytes -> Prop) bs :
  (forall f, Q f -> (f.1 < 2 ^ 32)%N) ->
  (exists fields, Forall Q fields /\ encode_record fields = Ok bs) <->
  exists fields, (len fields <= MAX_RECORD_FIELDS)%N /\
    (Forall (fun f => ((f.1 < 2 ^ 32)%N /\ small f.2) /\ Q f) fields /\ ascending fst N.compare fields) /\
    bs = encode_uvar (len fields) ++ concat (field_enc <$> fields).
Proof.
  intros HQ. setoid_rewrite encode_record_Ok. split.
  - intros (fields & HF & ? & Hnd & Hsm & ->).
    exists (sort_by (fun l r => l.1 ?= r.1)%N fields).
    assert (len (sort_by (fun l r => l.1 ?= r.1)%N fields) = len fields) as ->.
    { unfold len. by rewrite (sort_by_perm fst N.compare fields). }
    split_and!; try done.
    + apply (Forall_sort fst N.compare). rewrite Forall_forall in *. auto.
    + by apply (sort_by_lt fst N.compare N_total_compare).
  - intros (fields & ? & [HF Hs] & ->). exists fields. rewrite Forall_forall in HF. split_and!; try done.
    + apply Forall_forall. intros f Hf. by apply HF.
    + by apply (lt_key_NoDup fst N.compare N_total_compare).
    + apply Forall_forall. intros f Hf. by apply HF.
    + by rewrite (sort_by_id fst N.compare N_total_compare).
Qed.

Lemma map_canonical (Q : bytes * bytes -> Prop) bs :
  (exists entries, Forall Q entries /\ encode_map entries = Ok bs) <->
  exists entries, (len entries <= MAX_COLLECTION_ELEMENTS)%N /\
    (Forall (fun e => (small e.1 /\ small e.2) /\ Q e) entries /\ ascending fst bytes_cmp entries) /\
    bs = encode_uvar (len entries) ++ concat (entry_enc <$> entries).
Proof.
  setoid_rewrite encode_map_Ok. split.
  - intros (entries & HF & ? & Hnd & Hsm & ->).
    exists (sort_by (fun l r => bytes_cmp l.1 r.1) entries).
    assert (len (sort_by (fun l r => bytes_cmp l.1 r.1) entries) = len entries) as ->.
    { unfold len. by rewrite (sort_by_perm fst bytes_cmp entries). }
    split_and!; try done.
    + apply (Forall_sort fst bytes_cmp). rewrite Forall_forall in *. auto.
    + by apply (sort_by_lt fst bytes_cmp bytes_total_compare).
  - intros (entries & ? & [HF Hs] & ->). exists entries. rewrite Forall_forall in HF. split_and!; try done.
    + apply Forall_forall. intros f Hf. by apply HF.
    + by apply (lt_key_NoDup fst bytes_cmp bytes_total_compare).
    + apply Forall_forall. intros f Hf. by apply HF.
    + by rewrite (sort_by_id fst bytes_cmp bytes_total_compare).
Qed.

Lemma list_canonical (P : bytes -> Prop) bs :
  (exists els, Forall P els /\ encode_list els = Ok bs) <->
  exists els, (len els <= MAX_COLLECTION_ELEMENTS)%N /\ Forall (fun e => small e /\ P e) els /\
    bs = encode_uvar (len els) ++ concat (chunk <$> els).
Proof. setoid_rewrite encode_list_Ok. setoid_rewrite Forall_and. naive_solver. Qed.

Section composite_ok.
Context (nfc_stable : bytes -> bool) (rec : Schema -> N -> RM bytes) (depth : N).
Hypothesis Hrec : forall schema, is_leaf schema = true ->
  Strict (rec schema (depth + 1)%N) (fun out bs => out = bs /\ Canonical nfc_stable schema bs).

Lemma nested_leaf schema s out :
  is_leaf schema = true -> small s ->
  nested_exact (rec schema (depth + 1)%N) s = Ok out <-> out = s /\ Canonical nfc_stable schema s.
Proof using Hrec.
  intros Hl Hs. exact (nested_exact_iff _ _ out s (Hrec schema Hl) (small_limit s Hs)).
Qed.

Lemma nested_exact_leaf schema s u :
  is_leaf schema = true -> small s ->
  decode_nested_exact rec schema s depth = Ok u <-> Canonical nfc_stable schema s.
Proof using Hrec.
  intros Hl Hs. unfold decode_nested_exact. rewrite bind_Ok. setoid_rewrite (nested_leaf _ _ _ Hl Hs).
  destruct u. split; [by intros (? & [_ ?] & _)|by exists s].
Qed.

Lemma accepts_list schema :
  is_leaf schema = true ->
  Accepts (decode_list rec schema depth)
    (fun bs => exists els, Forall (Canonical nfc_stable schema) els /\ encode_list els = Ok bs).
Proof using Hrec.
  intros Hl. eapply strict_accepts.
  - apply (strict_counted MAX_COLLECTION_ELEMENTS _ tt
      (fun els _ => Forall (fun e => small e /\ Canonical nfc_stable schema e) els) chunk); [done|].
    intros n. refine (strict_iff _ _ _ _ (strict_list_loop _
      (fun e => small e /\ Canonical nfc_stable schema e) chunk n _)); [naive_solver|].
    refine (strict_iff _ _ _ _ (strict_bind _ _ _ _ strict_sized_payload (fun s =>
      strict_rlift (decode_nested_exact rec schema s depth)))). intros [] bs. split.
    + intros (s & bs1 & bs2 & (Hs & ->) & (HC & ->) & ->). rewrite nested_exact_leaf in HC by done.
      exists s. by rewrite app_nil_r.
    + intros (s & [Hs HC] & ->). exists s, (chunk s), []. rewrite app_nil_r.
      by rewrite nested_exact_leaf by done.
  - intros bs. rewrite list_canonical. split; [by exists tt|]. by intros [_ ?].
Qed.

Lemma check_ascending_Ok previous k u :
  check_ascending previous k = Ok u <-> above bytes_cmp previous k.
Proof using Type.
  destruct u. unfold check_ascending, above. destruct previous; [|done]. by destruct (bytes_cmp _ _).
Qed.

Lemma accepts_map ks vs :
  is_leaf ks = true -> is_leaf vs = true ->
  Accepts (decode_map rec ks vs depth) (fun bs => exists entries,
    Forall (fun e => Canonical nfc_stable ks e.1 /\ Canonical nfc_stable vs e.2) entries /\
    encode_map entries = Ok bs).
Proof using Hrec.
  intros Hk Hv.
  pose (Q := fun e : bytes * bytes => (small e.1 /\ small e.2) /\
    Canonical nfc_stable ks e.1 /\ Canonical nfc_stable vs e.2).
  assert (forall prev, Strict (
      key ← read_sized_payload;
      decoded_key ← rlift (nested_exact (rec ks (depth + 1)%N) key);
      rlift (check_ascending prev decoded_key) ≫= fun _ =>
      value ← read_sized_payload;
      rlift (decode_nested_exact rec vs value depth) ≫= fun _ => mret (Some decoded_key))
    (fun s' bs => exists e : bytes * bytes, above bytes_cmp prev e.1 /\ Q e /\ s' = Some e.1 /\ bs = entry_enc e))
    as Hstep.
  { intros prev. refine (strict_iff _ _ _ _ (strict_bind _ _ _ _ strict_sized_payload (fun k =>
      strict_rlift_bind _ _ _ (fun dk => strict_rlift_bind _ _ _ (fun _ =>
      strict_bind _ _ _ _ strict_sized_payload (fun v => strict_rlift_bind _ _ _ (fun _ =>
      strict_ret (Some dk)))))))). intros s' bs. unfold Q, entry_enc. split.
    - intros (k & bs1 & bs2 & (? & ->) & (dk & Hdk & u & Ha & v & bs3 & bs4 & (? & ->) & (u' & Hv' & -> & ->) & ->) & ->).
      rewrite nested_leaf in Hdk by done. destruct Hdk as [-> ?].
      rewrite nested_exact_leaf in Hv' by done. rewrite check_ascending_Ok in Ha.
      exists (k, v). rewrite app_nil_r. simpl. by split_and!.
    - intros ([k v] & Ha & ((? & ?) & ? & ?) & -> & ->). simpl in *.
      exists k, (chunk k), (chunk v). split_and!; try done. exists k. rewrite nested_leaf by done.
      split; [done|]. exists tt. rewrite check_ascending_Ok. split; [done|].
      exists v, (chunk v), []. rewrite app_nil_r. split_and!; try done. exists tt.
      by rewrite nested_exact_leaf by done. }
  unfold decode_map. change read_count with (read_len MAX_COLLECTION_ELEMENTS).
  eapply (accepts_ordered fst bytes_cmp id (fun _ e => Some e.1) Q entry_enc); try done.
  - apply bytes_total_compare.
  - intros s. refine (strict_iff _ _ _ _ (strict_ret tt)).
    intros [] bs. instantiate (1 := fun _ => True). naive_solver.
  - intros bs. rewrite map_canonical. unfold Q. naive_solver.
Qed.

Lemma strict_uvar32 :
  Strict (read_uvar_width 32) (fun t bs => (t < 2 ^ 32)%N /\ bs = encode_uvar t).
Proof using Type.
  refine (strict_iff _ _ _ _ (strict_read_uvar_width 32)). intros t bs.
  rewrite uvar_enc_width by (unfold N.le; vm_compute; discriminate). reflexivity.
Qed.

Lemma accepts_option :
  Accepts (decode_option_uvar rec depth) (Canonical nfc_stable OptionUInt64).
Proof using Hrec.
  eapply strict_accepts.
  - refine (strict_bind _ _ _ _ strict_uvar32 (fun tag => strict_bind_when _ _ _
      (fun p (u : unit) bs => bs = [] /\ (tag = 0%N /\ p = [] \/ tag = 1%N /\ Canonical nfc_stable (UInt 64) p))
      strict_sized_payload _)).
    intros p bs1 [Hp _].
    destruct (N.eqb_spec tag 0) as [->|]; [destruct (N.eqb_spec (len p) 0) as [E|E]|]; cbn [andb].
    + refine (strict_iff _ _ _ _ (strict_ret tt)). intros [] bs.
      assert (p = []) by (destruct p; [done|]; rewrite len_cons in E; lia). intuition.
    + cbn. refine (strict_iff _ _ _ _ (strict_fail _)). intros [] bs.
      assert (p <> []) by (intros ->; done). intuition lia.
    + destruct (N.eqb_spec tag 1) as [->|].
      * refine (strict_iff _ _ _ _ (strict_rlift _)). intros [] bs.
        rewrite nested_exact_leaf by done. intuition lia.
      * refine (strict_iff _ _ _ _ (strict_fail _)). intros [] bs. intuition lia.
  - intros bs. split.
    + intros ([v|] & Hv & (Hs & ->)%encode_union_Ok).
      * exists tt, 1%N, (encode_uvar 1), (chunk (encode_uvar v)). split_and!; try done.
        exists (encode_uvar v), (chunk (encode_uvar v)), []. rewrite app_nil_r. split_and!; try done.
        right. split; [done|]. exists v. split_and!; [done|by left|done].
      * exists tt, 0%N, (encode_uvar 0), (chunk []). split_and!; try done.
        exists [], (chunk []), []. split_and!; try done. by left.
    + intros (_ & t & bs1 & bs2 & [? ->] & (p & bs3 & bs4 & [Hp ->] & [-> HC] & ->) & ->).
      rewrite app_nil_r. destruct HC as [[-> ->]|[-> (v & ? & _ & ->)]].
      * exists None. split; [done|]. by apply encode_union_Ok.
      * exists (Some v). split; [done|]. by apply encode_union_Ok.
Qed.

Lemma accepts_union_bool tag :
  Accepts (decode_union_bool rec tag depth) (Canonical nfc_stable (UnionBool tag)).
Proof using Hrec.
  eapply strict_accepts.
  - refine (strict_bind _ _ _ _ strict_uvar32 (fun t => strict_guard _ _ _ _ (strict_bind_when _ _ _
      (fun p (u : unit) bs => bs = [] /\ bool_bytes p) strict_sized_payload _))).
    intros p bs1 [Hp _]. refine (strict_iff _ _ _ _ (strict_rlift _)). intros [] bs.
    rewrite nested_exact_leaf by done. cbn [Canonical]. intuition.
  - intros bs. split.
    + intros (? & b & (Hs & ->)%encode_union_Ok). exists tt, tag, (encode_uvar tag), (chunk (encode_bool b)).
      split_and!; try done; [by rewrite N.eqb_refl|]. exists (encode_bool b), (chunk (encode_bool b)), [].
      rewrite app_nil_r. split_and!; try done. by exists b.
    + intros (_ & t & bs1 & bs2 & [? ->] & (Ht & p & bs3 & bs4 & [Hp ->] & [-> [b ->]] & ->) & ->).
      rewrite app_nil_r. apply negb_false_iff, N.eqb_eq in Ht as ->. split; [done|].
      exists b. by apply encode_union_Ok.
Qed.

Lemma accepts_empty_record : Accepts decode_empty_record (Canonical nfc_stable FixtureEmptyObject).
Proof using Type.
  eapply strict_accepts.
  - unfold decode_empty_record. change read_record_field_count with (read_len MAX_RECORD_FIELDS).
    refine (strict_bind _ _ _ (fun n (u : unit) bs => n = 0%N /\ bs = [])
      (strict_read_len MAX_RECORD_FIELDS eq_refl) _).
    intros n. destruct (N.eqb_spec n 0); refine (strict_iff _ _ _ _ (strict_ret tt)) ||
      refine (strict_iff _ _ _ _ (strict_fail _)); intros [] bs; intuition.
  - intros bs. cbn [Canonical]. rewrite encode_record_Ok. split.
    + intros (_ & _ & _ & ->). exists tt, 0%N, (encode_uvar 0), []. done.
    + intros (_ & n & bs1 & bs2 & [? ->] & [-> ->] & ->). split_and!; try done; constructor.
Qed.

(** A record whose fields hold a Bool at one of the tags [tags]. *)
Lemma strict_bool_field {S} (b : N -> bool) previous e (s : N -> S) :
  Strict (tag ← read_ordered_field_tag previous; value ← read_sized_payload;
    if b tag then rfail e
    else rlift (decode_nested_exact rec SBool value depth) ≫= fun _ => mret (s tag))
  (fun s' bs => exists f : N * bytes, above N.compare previous f.1 /\
     (((f.1 < 2 ^ 32)%N /\ small f.2) /\ b f.1 = false /\ bool_bytes f.2) /\ s' = s f.1 /\ bs = field_enc f).
Proof using Hrec.
  refine (strict_iff _ _ _ _ (strict_field previous _ (fun t v s' => (b t = false /\ bool_bytes v) /\ s' = s t) _)).
  - intros s' bs. naive_solver.
  - intros t v Hv. refine (strict_iff _ _ _ _ (strict_guard _ _ _ _ (strict_rlift_bind _ _ _ (fun _ =>
      strict_ret (s t))))). intros s' bs. setoid_rewrite nested_exact_leaf; [|done..].
    cbn [Canonical]. split; [by intros (? & _ & ? & -> & ->)|].
    intros (-> & [? ?] & ->). split; [done|]. by exists tt.
Qed.

Lemma accepts_fixture_record :
  Accepts (decode_fixture_record rec depth) (Canonical nfc_stable FixtureRecord).
Proof using Hrec.
  unfold decode_fixture_record. change read_record_field_count with (read_len MAX_RECORD_FIELDS).
  eapply (accepts_ordered fst N.compare id (fun _ f => Some f.1) _ field_enc); try done.
  - apply N_total_compare.
  - intros s. apply (strict_bool_field _ s _ Some).
  - intros s. refine (strict_iff _ _ _ _ (strict_ret tt)).
    intros [] bs. instantiate (1 := fun _ => True). naive_solver.
  - intros bs. cbn [Canonical]. rewrite record_canonical; [|intros f [[-> | ->] _]; done].
    apply exist_proper. intros fields. apply and_iff_compat_l.
    enough (Forall (fun f : N * bytes => ((f.1 < 2 ^ 32)%N /\ small f.2) /\ (f.1 = 1%N \/ f.1 = 2%N) /\ bool_bytes f.2) fields
      <-> Forall (fun f : N * bytes => ((f.1 < 2 ^ 32)%N /\ small f.2) /\
        negb (f.1 =? 1)%N && negb (f.1 =? 2)%N = false /\ bool_bytes f.2) fields) as -> by naive_solver.
    apply Forall_iff. intros f. apply and_iff_compat_l, and_iff_compat_r. lia.
Qed.

(** Ascending tags that are all [t]: at most one field. *)
Lemma ascending_single (fields : list (N * bytes)) t :
  ascending fst N.compare fields -> Forall (fun f => f.1 = t) fields ->
  fields = [] \/ exists v, fields = [(t, v)].
Proof using Type.
  intros Hs Ht. destruct fields as [|[t1 v1] [|[t2 v2] fields]]; [by left| |].
  - apply Forall_cons in Ht as [Ht _]. simpl in Ht. subst. right. by exists v1.
  - apply Forall_cons in Ht as [H1 [H2 _]%Forall_cons]. simpl in *. subst.
    apply StronglySorted_inv in Hs as [_ [Hs _]%Forall_cons]. simpl in Hs.
    by rewrite N.compare_refl in Hs.
Qed.

Lemma encode_record_single t v bs :
  encode_record [(t, v)] = Ok bs <-> small v /\ bs = encode_uvar 1 ++ field_enc (t, v) ++ [].
Proof using Type.
  rewrite encode_record_Ok. split.
  - intros (_ & _ & [? _]%Forall_cons & ->). done.
  - intros [? ->]. split_and!; try done.
    + apply NoDup_singleton.
    + by apply Forall_singleton.
Qed.

Lemma accepts_required_bool :
  Accepts (decode_required_bool_record rec depth) (Canonical nfc_stable FixtureRequiredBool).
Proof using Hrec.
  unfold decode_required_bool_record. change read_record_field_count with (read_len MAX_RECORD_FIELDS).
  eapply (accepts_ordered fst N.compare snd (fun _ f => (true, Some f.1)) _ field_enc); try done.
  - apply N_total_compare.
  - intros s. apply (strict_bool_field (fun t => negb (t =? 1)%N) s.2 _ (fun t => (true, Some t))).
  - intros [saw previous]. instantiate (1 := fun s => s.1 = true). destruct saw; simpl;
      refine (strict_iff _ _ _ _ (strict_ret tt)) || refine (strict_iff _ _ _ _ (strict_fail _));
      intros [] bs; split; intros Hb; destruct Hb; split_and?; congruence || done.
  - intros bs. cbn [Canonical]. split.
    + intros (b & (Hs & ->)%encode_record_single). exists [(1%N, encode_bool b)]. split_and!; try done.
      * apply Forall_singleton. simpl. split_and!; try done. by exists b.
      * repeat constructor.
    + intros (fields & _ & [HF Hs] & HG & ->).
      destruct (ascending_single fields 1 Hs) as [->|[v ->]]; [|done|].
      { eapply Forall_impl; [exact HF|]. intros f (_ & Hf & _). cbv beta in Hf. lia. }
      apply Forall_singleton in HF as ([? ?] & _ & [b Hb]). simpl in Hb. subst v.
      exists b. by apply encode_record_single.
Qed.

Lemma strict_accepted_field expected previous :
  (expected < 2 ^ 32)%N ->
  Strict (accepted_field rec depth expected previous) (fun s bs => exists v, above N.compare previous expected /\
    small v /\ Canonical nfc_stable (if (expected =? 1)%N then SBool else UInt 64) v /\
    s = Some expected /\ bs = field_enc (expected, v)).
Proof using Hrec.
  intros Hx. unfold accepted_field.
  refine (strict_iff _ _ _ _ (strict_bind _ _ _ _ (strict_ordered_tag previous) (fun t =>
    strict_guard _ _ _ _ (strict_bind_when _ _ _
      (fun v s bs => Canonical nfc_stable (if (t =? 1)%N then SBool else UInt 64) v /\ s = Some t /\ bs = [])
      strict_sized_payload _)))).
  - intros s bs. unfold field_enc. simpl fst; simpl snd. split.
    + intros (t & bs1 & bs2 & (? & ? & ->) & (Ht & v & bs3 & bs4 & [? ->] & (? & -> & ->) & ->) & ->).
      apply negb_false_iff, N.eqb_eq in Ht as ->. exists v. by rewrite app_nil_r.
    + intros (v & ? & ? & ? & -> & ->). exists expected, (encode_uvar expected), (chunk v).
      split_and!; try done; [by rewrite N.eqb_refl|]. exists v, (chunk v), []. by rewrite app_nil_r.
  - intros v bs1 [Hv _]. cbv zeta.
    refine (strict_iff _ _ _ _ (strict_rlift_bind _ _ _ (fun _ => strict_ret (Some t)))). intros s bs.
    setoid_rewrite nested_exact_leaf; [|by destruct (t =? 1)%N|done].
    split; [by intros (? & ? & -> & ->)|]. intros (? & -> & ->). by exists tt.
Qed.

Lemma accepted_sorted v b :
  concat (field_enc <$> sort_by (fun l r => l.1 ?= r.1)%N [(3%N, v); (1%N, b)]) =
    field_enc (1%N, b) ++ field_enc (3%N, v).
Proof using Type. simpl. by rewrite app_nil_r. Qed.

Lemma accepts_accepted_record :
  Accepts (decode_accepted_record rec depth) (Canonical nfc_stable FixtureAcceptedRecord).
Proof using Hrec.
  unfold decode_accepted_record. change read_record_field_count with (read_len MAX_RECORD_FIELDS).
  eapply strict_accepts.
  - refine (strict_bind _ _ _ _ (strict_read_len MAX_RECORD_FIELDS eq_refl) (fun n => strict_guard _ _ _ _
      (strict_bind _ _ _ _ (strict_accepted_field 1 None eq_refl) (fun p =>
        strict_drop _ _ tt (strict_accepted_field 3 p eq_refl))))).
  - intros bs. cbn [Canonical]. split.
    + intros (b & v & ? & (_ & _ & [Hv [Hb _]%Forall_cons]%Forall_cons & ->)%encode_record_Ok).
      rewrite accepted_sorted.
      exists tt, 2%N, (encode_uvar 2), (field_enc (1%N, encode_bool b) ++ field_enc (3%N, encode_uvar v)).
      split_and!; try done. exists (Some 1%N), (field_enc (1%N, encode_bool b)), (field_enc (3%N, encode_uvar v)).
      split_and!; try done.
      { exists (encode_bool b). split_and!; try done. by exists b. }
      exists (Some 3%N), (encode_uvar v). split_and!; try done. exists v. split_and!; try done. by left.
    + intros (_ & n & bs1 & bs2 & [? ->] & (Hn & p & bs3 & bs4 & (b' & _ & ? & [b ->] & -> & ->) &
        (_ & s & v' & _ & ? & (v & ? & _ & ->) & -> & ->) & ->) & ->).
      apply negb_false_iff, N.eqb_eq in Hn as ->. exists b, v. split; [done|].
      apply encode_record_Ok. split_and!; try done.
      * repeat constructor; set_solver.
      * by repeat constructor.
      * by rewrite accepted_sorted.
Qed.

Lemma extension_record_rejected input u : decode_extension_record rec input depth <> Ok u.
Proof using Type.
  unfold decode_extension_record. case_match. destruct (negb _); intros (? & _ & ?)%bind_Ok; done.
Qed.
End composite_ok.

Section extension.
Context (nfc_stable : bytes -> bool) (rec : Schema -> N -> RM bytes) (depth : N).

(** No extension is known to the epoch: the only set accepted is empty. *)
Lemma extension_set_Ok input u :
  (len input < U64_LIMIT)%N -> decode_extension_set rec input depth = Ok u <-> encode_list [] = Ok input.
Proof.
  intros Hl. unfold decode_extension_set. change read_count with (read_len MAX_COLLECTION_ELEMENTS).
  match goal with |- context [repeat_read ?g] => set (f := g) end.
  assert (forall s, Strict (f s) (fun _ _ => False)) as Hf.
  { intros s. unfold f. refine (strict_iff _ _ _ _ (strict_bind _ _ _ _ strict_sized_payload (fun e =>
      strict_rlift_bind _ _ _ (fun _ => strict_rlift_bind _ _ _ (fun _ => strict_ret (Some e)))))).
    intros s' bs. split; [|done]. intros (e & bs1 & bs2 & _ & (? & _ & u' & H & _) & _).
    by eapply extension_record_rejected. }
  assert (Strict (n ← read_len MAX_COLLECTION_ELEMENTS; repeat_read f (N.to_nat n) None)
    (fun s bs => s = None /\ bs = encode_uvar 0)) as Hs.
  { refine (strict_iff _ _ _ _ (strict_bind _ _ _ (fun n s bs => n = 0%N /\ s = None /\ bs = [])
      (strict_read_len MAX_COLLECTION_ELEMENTS eq_refl) _)).
    - intros s bs. split.
      + intros (n & bs1 & bs2 & [? ->] & (-> & -> & ->) & ->). done.
      + intros [-> ->]. exists 0%N, (encode_uvar 0), []. done.
    - intros n. destruct (N.to_nat n) as [|m] eqn:E; simpl.
      + refine (strict_iff _ _ _ _ (strict_ret _)). intros s bs. intuition lia.
      + refine (strict_iff _ _ _ _ (strict_bind_when _ _ _ (fun _ _ _ => False) (Hf None) (fun _ _ H => match H with end))).
        intros s bs. split; [by intros (? & ? & ? & [] & _)|]. intros (? & _). lia. }
  rewrite bind_Ok. setoid_rewrite (nested_exact_iff _ _ _ _ Hs Hl).
  rewrite encode_list_Ok. destruct u. split.
  - intros (_ & [_ ->] & _). split_and!; [done|constructor|done].
  - intros (_ & _ & ->). by exists None.
Qed.

Lemma accepts_extensible :
  Accepts (decode_extensible_record rec depth) (Canonical nfc_stable FixtureExtensibleRecord).
Proof.
  unfold decode_extensible_record. change read_record_field_count with (read_len MAX_RECORD_FIELDS).
  eapply (accepts_ordered fst N.compare id (fun _ f => Some f.1)
    (fun f => ((f.1 < 2 ^ 32)%N /\ small f.2) /\ f.1 = 1%N /\ encode_list [] = Ok f.2) field_enc); try done.
  - apply N_total_compare.
  - intros s. refine (strict_iff _ _ _ _ (strict_field s _ (fun t v s' =>
      (t = 1%N /\ encode_list [] = Ok v) /\ s' = Some t) _)).
    + intros s' bs. naive_solver.
    + intros t v Hv. refine (strict_iff _ _ _ _ (strict_guard _ _ _ _ (strict_rlift_bind _ _ _ (fun _ =>
        strict_ret (Some t))))). intros s' bs. setoid_rewrite extension_set_Ok; [|by apply small_limit].
      rewrite negb_false_iff, N.eqb_eq. split; [by intros (? & _ & ? & -> & ->)|].
      intros (-> & [? ?] & ->). split; [done|]. by exists tt.
  - intros s. refine (strict_iff _ _ _ _ (strict_ret tt)).
    intros [] bs. instantiate (1 := fun _ => True). naive_solver.
  - intros bs. cbn [Canonical]. rewrite record_canonical; [|intros f [-> _]; done]. naive_solver.
Qed.
End extension.

(** *** Nested lists *)

Lemma strict_nested_list fuel depth :
  (N.to_nat (MAX_NESTING_DEPTH - depth) < fuel)%nat ->
  Strict (decode_nested_list fuel depth) (fun _ bs => nested_lists (N.to_nat (MAX_NESTING_DEPTH - depth)) bs).
Proof.
  revert depth. induction fuel as [|fuel IH]; intros depth Hf; [lia|]. cbn [decode_nested_list].
  destruct (N.leb_spec MAX_NESTING_DEPTH depth) as [Hd|Hd].
  { replace (N.to_nat (MAX_NESTING_DEPTH - depth)) with 0%nat by lia. apply strict_fail. }
  replace (N.to_nat (MAX_NESTING_DEPTH - depth)) with (S (N.to_nat (MAX_NESTING_DEPTH - (depth + 1)))) by lia.
  set (P := nested_lists (N.to_nat (MAX_NESTING_DEPTH - (depth + 1)))).
  assert (Strict (decode_nested_list fuel (depth + 1)) (fun _ bs => P bs)) as Hn by (apply IH; lia).
  change read_count with (read_len MAX_COLLECTION_ELEMENTS).
  refine (strict_iff _ _ _ _ (strict_counted MAX_COLLECTION_ELEMENTS _ tt
    (fun els _ => Forall (fun e => small e /\ P e) els) chunk eq_refl (fun n => _))).
  - intros [] bs. cbn [nested_lists]. fold P. rewrite list_canonical. reflexivity.
  - refine (strict_iff _ _ _ _ (strict_list_loop _ (fun e => small e /\ P e) chunk n _)); [naive_solver|].
    refine (strict_iff _ _ _ _ (strict_bind_when _ _ _ (fun s (u : unit) bs => bs = [] /\ P s)
      strict_sized_payload _)).
    + intros [] bs. split.
      * intros (s & bs1 & bs2 & (? & ->) & (-> & ?) & ->). exists s. by rewrite app_nil_r.
      * intros (s & [? ?] & ->). exists s, (chunk s), []. by rewrite app_nil_r.
    + intros s bs1 [Hs _]. refine (strict_iff _ _ _ _ (strict_rlift _)). intros [] bs.
      rewrite (nested_exact_iff _ _ _ _ Hn (small_limit s Hs)). intuition.
Qed.

(** ** The decoder accepts exactly the canonical bytes *)

Section decode_ok.
Variable nfc_stable : bytes -> bool.

Lemma strict_schema_leaf fuel schema depth :
  (depth <= MAX_NESTING_DEPTH)%N -> is_leaf schema = true ->
  Strict (decode_schema nfc_stable (S fuel) schema depth)
    (fun out bs => out = bs /\ Canonical nfc_stable schema bs).
Proof.
  intros Hd Hl. cbn [decode_schema]. destruct (N.ltb_spec MAX_NESTING_DEPTH depth); [lia|].
  refine (strict_iff _ _ _ _ (strict_with_slice _ _ (accepts_strict _ _
    (accepts_leaf nfc_stable _ (S fuel) schema depth Hl)))). intros out bs.
  split; [by intros [-> [_ ?]]|]. intros [-> ?]. split; [done|]. by exists tt.
Qed.

Lemma accepts_value f fuel schema :
  (0 < f)%nat -> (64 < fuel)%nat ->
  Accepts (decode_value nfc_stable (decode_schema nfc_stable f) fuel schema 0) (Canonical nfc_stable schema).
Proof.
  intros Hf0 Hf. assert (forall s, is_leaf s = true -> Strict (decode_schema nfc_stable f s (0 + 1)%N)
    (fun out bs => out = bs /\ Canonical nfc_stable s bs)) as Hrec.
  { intros s Hs. destruct f as [|f]; [lia|]. by apply strict_schema_leaf. }
  destruct (is_leaf schema) eqn:Hl; [by apply accepts_leaf|].
  destruct schema; try done; cbn [decode_value].
  - by apply (accepts_list nfc_stable _ 0 Hrec (UInt 64)).
  - by apply (accepts_map nfc_stable _ 0 Hrec (UInt 8) (UInt 8)).
  - by apply (accepts_map nfc_stable _ 0 Hrec (UInt 64) SText).
  - by apply accepts_option.
  - by apply accepts_union_bool.
  - by apply accepts_fixture_record.
  - by apply accepts_accepted_record.
  - by apply accepts_empty_record.
  - by apply accepts_required_bool.
  - by apply accepts_extensible.
  - eapply strict_accepts; [apply (strict_nested_list fuel 0); change (MAX_NESTING_DEPTH - 0)%N with 64%N; lia|].
    intros bs. split; [by exists tt|by intros [_ ?]].
Qed.
End decode_ok.

(** ** The standalone envelope *)

Inductive FixtureContract : Type := EmptyObject | RequiredBool.

#[global] Instance FixtureContract_eq_dec : EqDecision FixtureContract.
Proof. solve_decision. Defined.

Definition FixtureContract_tag (c : FixtureContract) : N :=
  match c with EmptyObject => 1 | RequiredBool => 2 end.

Definition contract_schema (c : FixtureContract) : Schema :=
  match c with EmptyObject => FixtureEmptyObject | RequiredBool => FixtureRequiredBool end.

Record StandaloneFixture : Type := {
  fx_contract : FixtureContract; fx_payload : bytes; fx_object_id : bytes
}.

Definition MAGIC : bytes := ascii "SLEYSCB1"%string.
Definition VERSION : N := 1.
Definition EPOCH_ID : bytes := replicate 31 x00 ++ [x01].

Section envelope.
Variable nfc_stable : bytes -> bool.
Variable blake3 : bytes -> bytes.

Definition envelope_preimage (contract : FixtureContract) (payload : bytes) : bytes :=
  MAGIC ++ encode_uvar VERSION ++ encode_uvar (FixtureContract_tag contract) ++ EPOCH_ID ++
  encode_uvar (len payload) ++ payload.

Definition encode_standalone_fixture (contract : FixtureContract) (payload : bytes)
    : scb_result (bytes * bytes) :=
  decode_payload_exact nfc_stable (contract_schema contract) payload ≫= fun _ =>
  let preimage := envelope_preimage contract payload in
  let object_id := object_id_derive blake3 preimage in
  let stored := preimage ++ object_id in
  guard! (len stored <=? MAX_STANDALONE_BYTES)%N else ScbResourceLimit;
  Ok (stored, object_id).

(** The reads of [decode_standalone_fixture]: the contract, payload, digest. *)
Definition read_envelope (declared : FixtureContract) : RM (FixtureContract * bytes * bytes) :=
  _magic ← take_exact (len MAGIC);
  version ← read_uvar_width 64;
  if negb (version =? VERSION)%N then rfail ScbVersionUnsupported
  else
    contract_tag ← read_uvar_width 32;
    contract ← (if (contract_tag =? 1)%N then mret EmptyObject
                else if (contract_tag =? 2)%N then mret RequiredBool
                else rfail ScbContractUnknown);
    if negb (bool_decide (contract = declared)) then rfail ScbContractUnknown
    else
      epoch ← take_exact 32;
      if negb (bool_decide (epoch = EPOCH_ID)) then rfail ScbEpochMismatch
      else
        payload ← read_sized_payload;
        digest ← take_exact 32;
        mret (contract, payload, digest).

Definition decode_standalone_fixture (input : bytes) (declared : FixtureContract)
    : scb_result StandaloneFixture :=
  guard! (len input <=? MAX_STANDALONE_BYTES)%N else ScbResourceLimit;
  guard! bool_decide (take (length MAGIC) input = MAGIC) else ScbMagicInvalid;
  '(contract, payload, digest) ← nested_exact (read_envelope declared) input;
  let preimage_len := (len input - 32)%N in
  let object_id := object_id_derive blake3 (take (N.to_nat preimage_len) input) in
  guard! bool_decide (digest = object_id) else ScbDigestMismatch;
  decode_payload_exact nfc_stable (contract_schema contract) payload ≫= fun _ =>
  Ok {| fx_contract := contract; fx_payload := payload; fx_object_id := object_id |}.
End envelope.

Lemma strict_envelope declared :
  Strict (read_envelope declared) (fun '(c, p, d) bs => exists magic, len magic = len MAGIC /\
    c = declared /\ small p /\ len d = 32%N /\
    bs = magic ++ encode_uvar VERSION ++ encode_uvar (FixtureContract_tag c) ++ EPOCH_ID ++ chunk p ++ d).
Proof.
  assert (forall t, Strict ((if (t =? 1)%N then mret EmptyObject else if (t =? 2)%N then mret RequiredBool
    else rfail ScbContractUnknown) : RM FixtureContract) (fun c bs => t = FixtureContract_tag c /\ bs = [])) as Hc.
  { intros t. destruct (N.eqb_spec t 1) as [->|]; [|destruct (N.eqb_spec t 2) as [->|]].
    - refine (strict_iff _ _ _ _ (strict_ret _)). intros [] bs; split; intros [? ?]; done.
    - refine (strict_iff _ _ _ _ (strict_ret _)). intros [] bs; split; intros [? ?]; done.
    - refine (strict_iff _ _ _ _ (strict_fail _)). intros [] bs; simpl; intuition. }
  unfold read_envelope.
  refine (strict_iff _ _ _ _ (strict_bind _ _ _ _ (strict_take_exact (len MAGIC)) (fun _ =>
    strict_bind _ _ _ _ (strict_read_uvar_width 64) (fun v => strict_guard _ _ _ _
    (strict_bind _ _ _ _ strict_uvar32 (fun t => strict_bind _ _ _ _ (Hc t) (fun c =>
    strict_guard _ _ _ _ (strict_bind _ _ _ _ (strict_take_exact 32) (fun e => strict_guard _ _ _ _
    (strict_bind _ _ _ _ strict_sized_payload (fun p => strict_map _ _ (fun d => (c, p, d))
      (strict_take_exact 32)))))))))))).
  intros [[c p] d] bs. unfold uvar_enc. change (uvar_groups 10) with encode_uvar. split.
  - intros (m & b1 & b2 & (-> & Hm) & (v & b3 & b4 & (_ & _ & ->) & (Hv & t & b5 & b6 & (_ & ->) &
      (c' & b7 & b8 & (-> & ->) & (Hc' & e & b9 & b10 & (-> & _) & (He & p' & b11 & b12 & (? & ->) &
      (d' & (-> & ?) & [= -> -> ->]) & ->) & ->) & ->) & ->) & ->) & ->).
    apply negb_false_iff, N.eqb_eq in Hv as ->.
    apply negb_false_iff, bool_decide_eq_true_1 in Hc' as ->.
    apply negb_false_iff, bool_decide_eq_true_1 in He as ->.
    exists m. split_and!; done.
  - intros (m & Hm & -> & ? & ? & ->). eexists m, m, _. split_and!; [done|done| |reflexivity].
    eexists VERSION, (encode_uvar VERSION), _. split_and!; [done|by left|done|done| |reflexivity].
    eexists (FixtureContract_tag declared), _, _. split_and!; [by destruct declared|reflexivity| |reflexivity].
    exists declared, [], (EPOCH_ID ++ chunk p ++ d). split_and!; try done.
    { by rewrite bool_decide_true. }
    exists EPOCH_ID, EPOCH_ID, (chunk p ++ d). split_and!; try done.
    exists p, (chunk p), d. split_and!; try done. by exists d.
Qed.

(** ** Theorems *)

(** C33: the schema-directed decoder accepts a payload exactly when it is one
    of the canonical encodings of its schema: map entries and record fields in
    order and without duplicates, minimal varints, valid UTF-8, NFC labels,
    canonical floats, no unknown extension, at most 64 nested lists, and no
    trailing byte. *)
Theorem decode_payload_exact_canonical nfc_stable schema input :
  decode_payload_exact nfc_stable schema input = Ok tt <->
  (len input <= MAX_STANDALONE_BYTES)%N /\ Canonical nfc_stable schema input.
Proof.
  unfold decode_payload_exact. rewrite bind_Ok. setoid_rewrite ensure_Ok. rewrite <- N.leb_le.
  enough ((len input <=? MAX_STANDALONE_BYTES)%N = true ->
    (nested_exact (decode_schema nfc_stable 66 schema 0) input ≫= fun _ => Ok tt) = Ok tt <->
    Canonical nfc_stable schema input) as H.
  { split; [intros (_ & ? & ?); by rewrite <- H|]. intros [? ?]. exists tt. by rewrite H. }
  intros Hl%N.leb_le. pose proof (small_limit _ Hl) as Hlim.
  assert (Strict (decode_schema nfc_stable 66 schema 0) (fun out bs => out = bs /\ Canonical nfc_stable schema bs)) as Hs.
  { change (decode_schema nfc_stable 66 schema 0) with
      (with_slice (decode_value nfc_stable (decode_schema nfc_stable 65) 66 schema 0)).
    assert (Accepts (decode_value nfc_stable (decode_schema nfc_stable 65) 66 schema 0)
      (Canonical nfc_stable schema)) as Ha by (apply accepts_value; lia).
    refine (strict_iff _ _ _ _ (strict_with_slice _ _ (accepts_strict _ _ Ha))).
    intros out bs. split; [by intros [-> [_ ?]]|]. intros [-> ?]. split; [done|]. by exists tt. }
  rewrite bind_Ok. setoid_rewrite (nested_exact_iff _ _ _ _ Hs Hlim).
  split; [by intros (? & [_ ?] & _)|by exists input].
Qed.

Lemma decode_payload_exact_small nfc_stable schema input u :
  decode_payload_exact nfc_stable schema input = Ok u -> small input.
Proof.
  unfold decode_payload_exact. intros (? & H & _)%bind_Ok. apply ensure_Ok, N.leb_le in H. done.
Qed.

Lemma envelope_split contract payload d :
  MAGIC ++ encode_uvar VERSION ++ encode_uvar (FixtureContract_tag contract) ++ EPOCH_ID ++ chunk payload ++ d =
  envelope_preimage contract payload ++ d.
Proof. unfold envelope_preimage, chunk. by rewrite <- !app_assoc. Qed.

Lemma take_digest (pre d : bytes) : len d = 32%N -> take (N.to_nat (len (pre ++ d) - 32)) (pre ++ d) = pre.
Proof.
  intros Hd. rewrite len_app, Hd. replace (len pre + 32 - 32)%N with (len pre) by lia.
  unfold len. rewrite Nat2N.id. apply take_app_length.
Qed.

Lemma take_magic contract payload d :
  take (length MAGIC) (envelope_preimage contract payload ++ d) = MAGIC.
Proof. unfold envelope_preimage. rewrite <- app_assoc. apply take_app_length. Qed.

Section fixture.
Context (nfc_stable : bytes -> bool) (blake3 : bytes -> bytes).
Hypothesis Hb : forall x, length (blake3 x) = ID_LEN.

Lemma len_object_id x : len (object_id_derive blake3 x) = 32%N.
Proof using Hb. unfold len, object_id_derive, digest_type_derive, digest. by rewrite Hb. Qed.

#[local] Opaque MAGIC EPOCH_ID VERSION envelope_preimage decode_payload_exact object_id_derive.

Lemma fixture_decode_encode input declared fx :
  decode_standalone_fixture nfc_stable blake3 input declared = Ok fx ->
  fx_contract fx = declared /\
  encode_standalone_fixture nfc_stable blake3 declared (fx_payload fx) = Ok (input, fx_object_id fx).
Proof using Hb.
  unfold decode_standalone_fixture, encode_standalone_fixture.
  intros H. apply bind_Ok in H as ([] & Hl & H). apply ensure_Ok, N.leb_le in Hl.
  apply bind_Ok in H as ([] & Hm & H). apply ensure_Ok, bool_decide_eq_true_1 in Hm.
  apply bind_Ok in H as ([[c p] d] & Hf & H). apply bind_Ok in H as ([] & Hdig & H).
  apply ensure_Ok, bool_decide_eq_true_1 in Hdig. apply bind_Ok in H as (u & Hp & H).
  rewrite Ok_inj in H. subst fx. cbn [fx_contract fx_payload fx_object_id].
  apply (nested_exact_iff _ _ _ _ (strict_envelope declared) (small_limit _ Hl)) in Hf
    as (magic & Hmagic & -> & Hsp & Hld & Hin).
  assert (length magic = length MAGIC) as Hlm by (unfold len in Hmagic; lia).
  rewrite Hin, <- Hlm, take_app_length in Hm. subst magic. rewrite envelope_split in Hin.
  split; [reflexivity|]. rewrite <- Hdig.
  assert (object_id_derive blake3 (envelope_preimage declared p) = d) as Ho.
  { rewrite Hin, take_digest in Hdig by assumption. by symmetry. }
  apply bind_Ok. exists u. split; [assumption|]. cbv zeta. rewrite Ho, <- Hin.
  apply bind_Ok. exists tt. split; [by apply ensure_Ok, N.leb_le|reflexivity].
Qed.

Lemma fixture_encode_decode input declared fx :
  fx_contract fx = declared ->
  encode_standalone_fixture nfc_stable blake3 declared (fx_payload fx) = Ok (input, fx_object_id fx) ->
  decode_standalone_fixture nfc_stable blake3 input declared = Ok fx.
Proof using Hb.
  destruct fx as [c p oid]. cbn [fx_contract fx_payload fx_object_id]. intros -> H.
  unfold encode_standalone_fixture in H.
  apply bind_Ok in H as (u & Hp & H). apply bind_Ok in H as ([] & Hl & H).
  apply ensure_Ok in Hl. rewrite Ok_inj in H. apply pair_equal_spec in H as [Hin Hoid].
  rewrite Hoid in *. subst input.
  assert (len oid = 32%N) as Hlo by (rewrite <- Hoid; apply len_object_id).
  assert (nested_exact (read_envelope declared) (envelope_preimage declared p ++ oid) = Ok (declared, p, oid)) as Hf.
  { apply (nested_exact_iff _ _ _ _ (strict_envelope declared)).
    - by apply small_limit, N.leb_le.
    - exists MAGIC. split_and!; [reflexivity|reflexivity|by eapply decode_payload_exact_small|assumption|].
      by rewrite envelope_split. }
  unfold decode_standalone_fixture.
  apply bind_Ok. exists tt. split; [by apply ensure_Ok|].
  apply bind_Ok. exists tt. split; [by rewrite take_magic, bool_decide_true by reflexivity|].
  apply bind_Ok. exists (declared, p, oid). split; [assumption|]. cbv zeta.
  rewrite take_digest by assumption. rewrite Hoid.
  apply bind_Ok. exists tt. split; [by rewrite bool_decide_true by reflexivity|].
  apply bind_Ok. exists u. split; [assumption|reflexivity].
Qed.
End fixture.

(** C34: the standalone decoder accepts an input exactly when the encoder
    writes it for the declared contract and the payload it returns: the magic,
    version, contract, epoch, length, digest and payload schema are all
    checked, and an accepted input re-encodes to itself. *)
Theorem standalone_fixture_exact nfc_stable blake3 input declared fx :
  (forall x, length (blake3 x) = ID_LEN) ->
  decode_standalone_fixture nfc_stable blake3 input declared = Ok fx <->
  fx_contract fx = declared /\
  encode_standalone_fixture nfc_stable blake3 declared (fx_payload fx) = Ok (input, fx_object_id fx).
Proof.
  intros Hb. split; [by apply fixture_decode_encode|]. intros [? ?]. by apply fixture_encode_decode.
Qed.

(** Encodings followed by anything determine the value. *)
Lemma strict_unique {A} (m : RM A) E a b bs bs' tl tl' :
  Strict m E -> (len (bs ++ tl) < U64_LIMIT)%N -> E a bs -> E b bs' -> bs ++ tl = bs' ++ tl' ->
  a = b /\ tl = tl'.
Proof.
  intros [Hc _] Hl Ha Hb Heq. assert (reader_ok (Reader_new (bs ++ tl))) as Hok by by apply reader_ok_new.
  pose proof (Hc a bs tl _ Hok Ha eq_refl) as H1. pose proof (Hc b bs' tl' _ Hok Hb Heq) as H2.
  rewrite H1 in H2. apply pair_equal_spec in H2 as [H2 H3]. rewrite Ok_inj in H2. split; [done|].
  apply (f_equal rd_position) in H3. simpl in H3. assert (length bs = length bs') as Hlen by (unfold len in H3; lia).
  by apply app_inj_1 in Heq as [_ ?].
Qed.

Lemma entries_inj l1 l2 :
  Forall (fun e => small e.1 /\ small e.2) l1 -> Forall (fun e => small e.1 /\ small e.2) l2 ->
  (len (concat (entry_enc <$> l1)) < U64_LIMIT)%N -> length l1 = length l2 ->
  concat (entry_enc <$> l1) = concat (entry_enc <$> l2) -> l1 = l2.
Proof.
  revert l2. induction l1 as [|[k v] l1 IH]; intros [|[k' v'] l2] H1 H2 Hl Hlen E; try done.
  apply Forall_cons in H1 as [[Hk Hv] H1]. apply Forall_cons in H2 as [[Hk' Hv'] H2].
  assert (forall k v l, concat (entry_enc <$> (k, v) :: l) = chunk k ++ chunk v ++ concat (entry_enc <$> l)) as Hcons.
  { intros. rewrite fmap_cons. cbn [concat]. unfold entry_enc at 1. by rewrite <- app_assoc. }
  rewrite !Hcons in *. cbn [fst snd] in *.
  destruct (strict_unique _ _ k k' (chunk k) (chunk k') _ _ strict_sized_payload Hl
    (conj Hk eq_refl) (conj Hk' eq_refl) E) as [-> E'].
  rewrite len_app in Hl.
  assert (len (chunk v ++ concat (entry_enc <$> l1)) < U64_LIMIT)%N as Hl' by lia.
  destruct (strict_unique _ _ v v' (chunk v) (chunk v') _ _ strict_sized_payload Hl'
    (conj Hv eq_refl) (conj Hv' eq_refl) E') as [-> E''].
  rewrite len_app in Hl. simpl in Hlen. injection Hlen as Hlen. f_equal. apply IH; try done. lia.
Qed.

(** The bytes of a map are a function of its entries, whatever order they
    are given in, and they determine the entries: two entry lists have the
    same encoding exactly when one is a permutation of the other. *)
Theorem encode_map_permutation e1 e2 bs :
  (len bs < U64_LIMIT)%N -> encode_map e1 = Ok bs -> encode_map e2 = Ok bs <-> e1 ≡ₚ e2.
Proof.
  rewrite !encode_map_Ok. intros Hl (Hn1 & Hd1 & Hs1 & Hbs).
  pose proof (sort_by_permutation fst bytes_cmp bytes_total_compare e1 e2 Hd1) as Hsort. split.
  - intros (Hn2 & Hd2 & Hs2 & Hbs2).
    assert (forall n, n <= MAX_COLLECTION_ELEMENTS -> uvar_enc 64 10 64 n (encode_uvar n))%N as Hu.
    { intros n Hn. split_and!; [|by left|reflexivity]. eapply N.le_lt_trans; [exact Hn|done]. }
    rewrite Hbs in Hl, Hbs2.
    destruct (strict_unique _ _ _ _ _ _ _ _ (strict_read_uvar_width 64) Hl (Hu _ Hn1) (Hu _ Hn2) Hbs2) as [En E].
    rewrite <- (sort_by_perm fst bytes_cmp e1), <- (sort_by_perm fst bytes_cmp e2).
    enough (sort_by (fun l r => bytes_cmp l.1 r.1) e1 = sort_by (fun l r => bytes_cmp l.1 r.1) e2) as ->
      by reflexivity.
    apply entries_inj; [..|exact E].
    + by apply (Forall_sort fst bytes_cmp).
    + by apply (Forall_sort fst bytes_cmp).
    + rewrite len_app in Hl. lia.
    + rewrite !(Permutation_length (sort_by_perm fst bytes_cmp _)). unfold len in En. lia.
  - intros Hp. split_and!.
    + unfold len in *. by rewrite <- Hp.
    + by rewrite <- Hp.
    + by rewrite <- Hp.
    + rewrite <- Hsort by done. replace (len e2) with (len e1) by (unfold len; by rewrite Hp). done.
Qed.

Theorem encode_map_permutation_witness :
  encode_map [([x01], [x0a]); ([x02], [x0b])] = Ok [x02; x01; x01; x01; x0a; x01; x02; x01; x0b] /\
  encode_map [([x02], [x0b]); ([x01], [x0a])] = Ok [x02; x01; x01; x01; x0a; x01; x02; x01; x0b].
Proof.
  split; [vm_compute; reflexivity|].
  apply (encode_map_permutation [([x01], [x0a]); ([x02], [x0b])]);
    [vm_compute; reflexivity|vm_compute; reflexivity|apply perm_swap].
Defined.

Theorem standalone_fixture_exact_witness :
  let blake3 := fun _ : bytes => replicate 32 x00 in
  let stored := MAGIC ++ [x01; x02] ++ EPOCH_ID ++ [x04; x01; x01; x01; x01] ++ replicate 32 x00 in
  decode_standalone_fixture (fun _ => true) blake3 stored RequiredBool =
    Ok {| fx_contract := RequiredBool; fx_payload := [x01; x01; x01; x01]; fx_object_id := replicate 32 x00 |}.
Proof.
  intros blake3 stored. apply (standalone_fixture_exact (fun _ => true) blake3); [reflexivity|].
  split; [reflexivity|]. vm_compute. reflexivity.
Defined.
