(* ===== verification/Records.v ===== *)
(** * Records and sets of other codecs

    The readers of sley-schema and sley-state-root are copies of the one of
    sley-scb1 (the former replaces every error by one).  This file holds what
    their decoders share beyond it: the bound on a count by the bytes that
    remain, the loop over the fields of a record, fields taken from a record by
    tag, and loops over the sized elements of a list. *)

From S2P Require Import Prelude State Bytes Scb1Core Scb1Cursor Scb1Schema.

(** ** Bounded counts *)

(** [self.input.len() - self.position] *)
Definition remaining (r : Reader) : N := (len (rd_input r) - rd_position r)%N.

(** [if count > reader.remaining() / unit { return Err(e) }] before the rest *)
Definition within {A} (unit count : N) (e : ScbErrorCode) (m : RM A) : RM A := fun r =>
  if (remaining r / unit <? count)%N then (Err e, r) else m r.

Lemma strict_within {A} unit count e (m : RM A) E :
  (0 < unit)%N -> Strict m E -> (forall a bs, E a bs -> (count * unit <= len bs)%N) -> Strict (within unit count e m) E.
Proof.
  intros Hu [Hc Hs] Hlen. split.
  - intros a bs tl r Hok HE Hr. unfold within. destruct (N.ltb_spec (remaining r / unit) count) as [H|_]; [|by eapply Hc].
    exfalso. specialize (Hlen _ _ HE). assert (remaining r = len bs + len tl)%N as Hrem.
    { unfold remaining. rewrite <- (len_rest _ Hok), Hr, len_app. done. }
    assert (count <= remaining r / unit)%N; [|lia]. apply N.div_le_lower_bound; lia.
  - intros a r r' Hok H. unfold within in H. destruct (_ <? _)%N; [done|]. by apply Hs.
Qed.

(** ** Errors of another type *)

Lemma map_err_iff {E E' A} (f : E -> E') (m : result E A) a : map_err f m = Ok a <-> m = Ok a.
Proof. unfold map_err. destruct m; [by rewrite !Ok_inj|by split]. Qed.

(** ** Lengths *)

Lemma uvar_nonempty n : (1 <= len (encode_uvar n))%N.
Proof. Transparent encode_uvar. unfold encode_uvar. cbn [uvar_groups]. destruct (_ =? 0)%N; rewrite len_cons; lia. Qed.

Lemma uvar_small n : small (encode_uvar n).
Proof. unfold small, encode_uvar. pose proof (length_uvar_groups 10 n). unfold len, MAX_STANDALONE_BYTES. lia. Qed.
Opaque encode_uvar.

Lemma chunk_length s : (1 + len s <= len (chunk s))%N.
Proof. unfold chunk. rewrite len_app. pose proof (uvar_nonempty (len s)). lia. Qed.

Lemma field_enc_length f : (2 <= len (field_enc f))%N.
Proof. unfold field_enc. rewrite len_app. pose proof (uvar_nonempty f.1). pose proof (chunk_length f.2). lia. Qed.

Lemma concat_length {I} (enc : I -> bytes) unit items :
  Forall (fun it => unit <= len (enc it))%N items -> (len items * unit <= len (concat (enc <$> items)))%N.
Proof.
  induction 1 as [|it l Hit _ IH]; [done|]. rewrite len_cons, fmap_cons. cbn [concat]. rewrite len_app. lia.
Qed.

(** ** Counted loops

    [for _ in 0..count { .. out.push(item) }] after the bound on [count]; the
    state of an ordered loop is the previous key with the items read. *)

Definition read_items {S} (unit : N) (e : ScbErrorCode) (step : S -> RM S) (init : S) (count : N) : RM S :=
  within unit count e (repeat_read step (N.to_nat count) init).

Section items.
Context {I : Type} (P : I -> Prop) (enc : I -> bytes) (unit : N) (e : ScbErrorCode).
Hypothesis Hunit : (0 < unit)%N.
Hypothesis Henc : forall it, P it -> (unit <= len (enc it))%N.

Lemma strict_read_items {S} (R : list I -> S -> Prop) step init count :
  (forall n, Strict (repeat_read step n init) (fun s bs => exists items, length items = n /\
     Forall P items /\ R items s /\ bs = concat (enc <$> items))) ->
  Strict (read_items unit e step init count) (fun s bs => exists items, len items = count /\
    Forall P items /\ R items s /\ bs = concat (enc <$> items)).
Proof using Hunit Henc.
  intros Hs. unfold read_items. apply strict_within; [done| |].
  - refine (strict_iff _ _ _ _ (Hs (N.to_nat count))). intros s bs. unfold len.
    split; intros (items & Hn & H); exists items; (split; [lia|done]).
  - intros s bs (items & <- & HP & _ & ->). apply concat_length. eapply Forall_impl; [exact HP|]. exact Henc.
Qed.

Lemma strict_push_loop (step : list I -> RM (list I)) init n :
  (forall out, Strict (step out) (fun out' bs => exists it, P it /\ out' = out ++ [it] /\ bs = enc it)) ->
  Strict (repeat_read step n init) (fun out bs => exists items, length items = n /\
    Forall P items /\ out = init ++ items /\ bs = concat (enc <$> items)).
Proof using Type.
  intros Hf. revert init. induction n as [|n IH]; intros init; simpl.
  - refine (strict_iff _ _ _ _ (strict_ret init)). intros out bs. split.
    + intros [-> ->]. exists []. by rewrite app_nil_r.
    + intros ([|] & ? & _ & -> & ->); [by rewrite app_nil_r|done].
  - refine (strict_iff _ _ _ _ (strict_bind _ _ _ _ (Hf init) IH)). intros out bs. split.
    + intros (o & bs1 & bs2 & (it & ? & -> & ->) & (items & <- & ? & -> & ->) & ->).
      exists (it :: items). rewrite <- app_assoc. split_and!; [done|by constructor|done|done].
    + intros ([|it items] & [= <-] & [? ?]%Forall_cons & -> & ->).
      exists (init ++ [it]), (enc it), (concat (enc <$> items)). split_and!; [by exists it| |done].
      exists items. rewrite <- app_assoc. done.
Qed.

Section ordered.
Context {K : Type} (key : I -> K) (cmp : K -> K -> comparison) (Hcmp : TotalCompare cmp).

Lemma fold_push items (st : option K * list I) :
  foldl (fun st it => (Some (key it), st.2 ++ [it])) st items =
  (match last items with Some it => Some (key it) | None => st.1 end, st.2 ++ items).
Proof using Type.
  revert st. induction items as [|it l IH]; intros [p a]; cbn [foldl]; [by rewrite app_nil_r|]. rewrite IH. cbn [fst snd].
  rewrite <- app_assoc. f_equal. destruct l as [|i l]; [done|]. rewrite last_cons_cons. by destruct (last (i :: l)) eqn:E; [|apply last_None in E].
Qed.

Lemma strict_ordered_items (step : option K * list I -> RM (option K * list I)) count :
  (forall st, Strict (step st) (fun st' bs => exists it, above cmp st.1 (key it) /\ P it /\
     st' = (Some (key it), st.2 ++ [it]) /\ bs = enc it)) ->
  Strict (read_items unit e step (None, []) count) (fun st bs => exists items, len items = count /\
    Forall P items /\ (ascending key cmp items /\ st.2 = items /\ st.1 = key <$> last items) /\ bs = concat (enc <$> items)).
Proof using Hunit Henc Hcmp.
  intros Hstep. apply (strict_read_items (fun items st => ascending key cmp items /\ st.2 = items /\ st.1 = key <$> last items)). intros n.
  refine (strict_iff _ _ _ _ (strict_ordered_loop key cmp (fun st : option K * list I => st.1)
    (fun st it => (Some (key it), st.2 ++ [it])) P enc Hcmp _ step n (None, []) Hstep)); [|done].
  intros st bs. split.
  - intros (items & Hn & HP & Hs & _ & -> & ->). exists items. rewrite fold_push. cbn [snd app]. by destruct (last items).
  - intros (items & Hn & HP & (Hs & H2 & H1) & ->). exists items. rewrite fold_push. split_and!; try done.
    + by apply Forall_true.
    + destruct st. cbn in *. subst. by destruct (last items).
Qed.
End ordered.
End items.

(** ** The fields of a record *)

Abbreviation Fields := (list (N * bytes)).

(** What one field of a record is on the wire *)
Definition field_ok (f : N * bytes) : Prop := (f.1 < 2 ^ 32)%N /\ small f.2.
Definition fields_ok (fields : Fields) : Prop := Forall field_ok fields /\ ascending fst N.compare fields.

Section fields.
(** What a tag may be after the previous one *)
Variable order : option N -> N -> scb_result unit.

Definition read_field (st : option N * Fields) : RM (option N * Fields) :=
  tag ← read_uvar_width 32;
  if (2 ^ 32 <=? tag)%N then rfail ScbIntegerOverflow
  else
    rlift (order st.1 tag) ≫= fun _ =>
    value ← read_sized_payload;
    mret (Some tag, st.2 ++ [(tag, value)]).

Definition read_fields (count : N) : RM Fields :=
  st ← read_items 2 ScbResourceLimit read_field (None, []) count; mret st.2.

Hypothesis Horder : forall previous tag, order previous tag = Ok tt <-> above N.compare previous tag.

Lemma strict_read_field st :
  Strict (read_field st) (fun st' bs => exists f, above N.compare st.1 f.1 /\ field_ok f /\
    st' = (Some f.1, st.2 ++ [f]) /\ bs = field_enc f).
Proof using Horder.
  unfold read_field. refine (strict_iff _ _ _ _ (strict_bind _ _ _ _ strict_uvar32 (fun t => strict_guard _ _ _ _
    (strict_rlift_bind _ _ _ (fun _ => strict_map _ _ (fun v => (Some t, st.2 ++ [(t, v)])) strict_sized_payload))))).
  intros st' bs. unfold field_enc. split.
  - intros (t & bs1 & bs2 & (Ht & ->) & (_ & [] & Ho & v & (Hv & ->) & ->) & ->). exists (t, v). cbn. split_and!; try done. by apply Horder.
  - intros ([t v] & Ha & [Ht Hv] & -> & ->). cbn [fst snd] in *. exists t, (encode_uvar t), (chunk v). split_and!; try done; [by apply N.leb_gt|].
    exists tt. split; [by apply Horder|]. by exists v.
Qed.

Lemma strict_read_fields count :
  Strict (read_fields count) (fun fields bs => len fields = count /\ fields_ok fields /\ bs = concat (field_enc <$> fields)).
Proof using Horder.
  refine (strict_iff _ _ _ _ (strict_map _ _ snd (strict_ordered_items field_ok field_enc 2 ScbResourceLimit eq_refl
    (fun f _ => field_enc_length f) fst N.compare N_total_compare read_field count strict_read_field))).
  intros fields bs. split.
  - by intros ([p fs] & (items & Hn & HP & (Hs & [= ->] & _) & ->) & ->).
  - intros (Hn & [HP Hs] & ->). exists (fst <$> last fields, fields). split; [|done]. by exists fields.
Qed.
End fields.

(** The fields of an encoded record, in order *)
Lemma encode_sorted_record fields bs :
  fields_ok fields -> encode_record fields = Ok bs <->
  (len fields <= MAX_RECORD_FIELDS)%N /\ bs = encode_uvar (len fields) ++ concat (field_enc <$> fields).
Proof.
  intros [HF Hs]. rewrite encode_record_Ok. rewrite (sort_by_id fst N.compare N_total_compare) by done. split; [tauto|].
  intros [? ->]. split_and!; try done; [by apply (lt_key_NoDup fst N.compare N_total_compare)|].
  eapply Forall_impl; [exact HF|]. by intros f [_ ?].
Qed.

(** ** Fields by tag *)

(** [self.fields.binary_search_by_key(&tag, ..).map(|index| self.fields.remove(index).1)]:
    the fields of a record have strictly ascending tags *)
Definition take_field (tag : N) (fields : Fields) : option (bytes * Fields) :=
  match list_find (fun f => f.1 = tag) fields with
  | Some (index, f) => Some (f.2, delete index fields)
  | None => None
  end.

Lemma take_field_perm tag fields v rest : take_field tag fields = Some (v, rest) -> fields ≡ₚ (tag, v) :: rest.
Proof.
  unfold take_field. destruct (list_find _ fields) as [[i [t x]]|] eqn:E; [|done]. intros [= <- <-].
  apply list_find_Some in E as (Hi & Ht & _). cbn in Ht. subst t. by apply delete_Permutation.
Qed.

Lemma ascending_perm {I} (key : I -> N) l1 l2 : ascending key N.compare l1 -> ascending key N.compare l2 -> l1 ≡ₚ l2 -> l1 = l2.
Proof. apply (lt_key_unique key N.compare N_total_compare). Qed.

(** ** Record readers

    [RecordReader]: the fields of a whole input are read first; they are then
    taken by tag, in a state that holds the fields left. *)

Definition read_record (order : option N -> N -> scb_result unit) (least : N) (input : bytes) : scb_result Fields :=
  nested_exact (
    count ← read_record_field_count;
    if (count <? least)%N then rfail ScbFieldMissing else read_fields order count) input.

Lemma read_record_Ok order least input fields :
  (forall previous tag, order previous tag = Ok tt <-> above N.compare previous tag) -> (len input < U64_LIMIT)%N ->
  read_record order least input = Ok fields <->
  fields_ok fields /\ (least <= len fields)%N /\ encode_record fields = Ok input.
Proof.
  intros Ho Hl. unfold read_record. rewrite (nested_exact_iff _ _ _ _ (strict_bind _ _ _ _ (strict_read_len MAX_RECORD_FIELDS eq_refl)
    (fun n => strict_guard _ _ _ _ (strict_read_fields order Ho n))) Hl). split.
  - intros (n & b1 & b2 & [Hn ->] & (Hm & <- & Hf & ->) & ->). split; [done|]. split; [lia|]. by apply encode_sorted_record.
  - intros (Hf & Hm & (Hn & ->)%encode_sorted_record); [|done]. exists (len fields), (encode_uvar (len fields)), (concat (field_enc <$> fields)).
    split; [done|]. split; [|done]. split; [by apply N.ltb_ge|done].
Qed.

Section record.
Context {E : Type} (missing unknown : E) (new : bytes -> result E Fields).

Definition required (tag : N) : ST Fields E bytes := fun fields => ok_or missing (take_field tag fields).

(** The whole of a record: its fields, what is taken of them, and [finish] *)
Definition with_record {A} (m : ST Fields E A) (input : bytes) : result E A :=
  fields ← new input;
  '(out, fields) ← m fields;
  guard! bool_decide (fields = []) else unknown;
  Ok out.

(** [m] takes the fields that [D] relates to its result: wherever they are, and
    at least when they come first. *)
Record Takes {A} (m : ST Fields E A) (D : A -> Fields -> Prop) : Prop := {
  takes_sound : forall fields a rest, m fields = Ok (a, rest) -> exists fs, D a fs /\ fields ≡ₚ fs ++ rest;
  takes_complete : forall a fs rest, D a fs -> m (fs ++ rest) = Ok (a, rest)
}.

Lemma takes_iff {A} (m : ST Fields E A) D D' : Takes m D -> (forall a fs, D' a fs <-> D a fs) -> Takes m D'.
Proof using Type.
  intros [Hs Hc] HD. split.
  - intros fields a rest (fs & H & Hp)%Hs. exists fs. by rewrite HD.
  - intros a fs rest H. apply Hc. by apply HD.
Qed.

Lemma takes_ret {A} (a : A) : Takes (mret a) (fun b fs => b = a /\ fs = []).
Proof using Type.
  split.
  - intros fields b rest [= -> ->]. by exists [].
  - by intros b fs rest [-> ->].
Qed.

Lemma takes_lift {A} (m : result E A) : Takes (lift m) (fun a fs => m = Ok a /\ fs = []).
Proof using Type.
  split.
  - intros fields b rest [? ->]%lift_Ok. by exists [].
  - intros b fs rest [-> ->]. done.
Qed.

Lemma takes_bind {A B} (m : ST Fields E A) (k : A -> ST Fields E B) D F :
  Takes m D -> (forall a, Takes (k a) (F a)) ->
  Takes (m ≫= k) (fun b fs => exists a fs1 fs2, D a fs1 /\ F a b fs2 /\ fs = fs1 ++ fs2).
Proof using Type.
  intros [Hs Hc] Hk. split.
  - intros fields b rest (a & mid & H1 & H2)%ST_bind_Ok. apply Hs in H1 as (fs1 & H1 & Hp1).
    apply (takes_sound _ _ (Hk a)) in H2 as (fs2 & H2 & Hp2). exists (fs1 ++ fs2). split; [by exists a, fs1, fs2|].
    by rewrite Hp1, Hp2, app_assoc.
  - intros b fs rest (a & fs1 & fs2 & H1 & H2 & ->). apply ST_bind_Ok. exists a, (fs2 ++ rest). rewrite <- app_assoc.
    split; [by apply Hc|by apply (Hk a)].
Qed.

Lemma takes_required tag : Takes (required tag) (fun v fs => fs = [(tag, v)]).
Proof using Type.
  unfold required. split.
  - intros fields v rest H%ok_or_Ok. apply take_field_perm in H. by exists [(tag, v)].
  - intros v fs rest ->. unfold take_field. cbn [app list_find]. by rewrite decide_True.
Qed.

(** A field and its decoding *)
Lemma takes_field {A} tag (dec : bytes -> result E A) :
  Takes (v ← required tag; lift (dec v)) (fun a fs => exists v, dec v = Ok a /\ fs = [(tag, v)]).
Proof using Type.
  refine (takes_iff _ _ _ (takes_bind _ _ _ _ (takes_required tag) (fun v => takes_lift (dec v))) _).
  intros a fs. split.
  - intros (v & ? & ->). by exists v, [(tag, v)], [].
  - intros (v & ? & ? & -> & [? ->] & ->). by exists v.
Qed.

Context (least : N).
Hypothesis Hnew : forall input fields, (len input < U64_LIMIT)%N ->
  new input = Ok fields <-> fields_ok fields /\ (least <= len fields)%N /\ encode_record fields = Ok input.

Lemma tags_ascending (fs : Fields) : strictly_sorted fs.*1 = true -> ascending fst N.compare fs.
Proof using Type.
  rewrite strictly_sorted_spec. unfold ascending. induction fs as [|f l IH]; [constructor|]. rewrite fmap_cons.
  intros [Hl Hf]%StronglySorted_inv. constructor; [by apply IH|]. rewrite Forall_fmap in Hf. exact Hf.
Qed.

(** A record is accepted exactly if it is the encoding of the fields its reader
    takes; [tags] are their tags, in the order they are taken. *)
Lemma with_record_Ok {A} (m : ST Fields E A) D tags input a :
  Takes m D -> (forall a fs, D a fs -> fs.*1 = tags) ->
  strictly_sorted tags = true -> Forall (fun t => t < 2 ^ 32)%N tags -> (least <= len tags)%N -> (len input < U64_LIMIT)%N ->
  with_record m input = Ok a <-> exists fs, D a fs /\ encode_record fs = Ok input.
Proof using Hnew.
  intros [Hs Hc] HD Ht Hw Hn Hl.
  assert (forall fs, D a fs -> ascending fst N.compare fs) as Hasc.
  { intros fs H. apply tags_ascending. by rewrite (HD _ _ H). }
  unfold with_record. split.
  - intros (fields & H & ([out rest] & Hm & Hout)%bind_Ok)%bind_Ok. apply bind_Ok in Hout as ([] & Hf & [= ->]).
    apply ensure_Ok, bool_decide_eq_true_1 in Hf as ->.
    apply Hs in Hm as (fs & HD' & Hp). rewrite app_nil_r in Hp. apply Hnew in H as ([Hf Ha] & _ & He); [|done].
    assert (fields = fs) as ->; [|by exists fs].
    apply (lt_key_unique fst N.compare N_total_compare); [done|by apply Hasc|done].
  - intros (fs & HD' & He). apply bind_Ok. exists fs. split.
    + apply Hnew; [done|]. split_and!; [split; [|by apply Hasc]| |done].
      * apply encode_record_Ok in He as (_ & _ & Hsm & _). rewrite <- (HD _ _ HD'), Forall_fmap in Hw.
        apply Forall_forall. intros f Hf. rewrite Forall_forall in Hsm, Hw. split; [by apply Hw|by apply Hsm].
      * rewrite <- (HD _ _ HD') in Hn. by rewrite len_fmap in Hn.
    + apply bind_Ok. exists (a, []). split; [|done]. rewrite <- (app_nil_r fs). by apply Hc.
Qed.
End record.

Lemma encode_record_small fs bs : encode_record fs = Ok bs -> Forall (fun f => small f.2) fs.
Proof. by intros (_ & _ & ? & _)%encode_record_Ok. Qed.
