(* ===== verification/Schema.v ===== *)
(** * Schema epochs and their registry (sley-schema)

    crates/sley-schema/src/lib.rs: the record of a schema epoch and the
    descriptors in it, their canonical bytes, the decoder of bootstrap
    preimages, the registry of epochs, and the checks of a migration.

    Identifiers and digests are byte strings.  The crate's own [Reader] is that
    of sley-scb1 with every error replaced by [SCHEMA_RECORD_INVALID]:
    [schema_read] runs a reader of [Scb1Core] on a whole input and replaces its
    error.  [D] is the type of preserved decoders, [V] that of verifiers. *)

From S2P Require Import Prelude State Bytes Ids Scb1Core Scb1Cursor Scb1Schema Records.
From stdpp Require Import strings.

(** ** Errors *)

Inductive SchemaErrorCode : Type :=
| SchEpochMismatch
| SchDowngrade
| SchContractUnknown
| SchMigrationUnsupported
| SchEquivalenceFailed
| SchSelfModification
| SchRootOverwriteForbidden
| SchRecordInvalid.

Definition SchemaErrorCode_as_str (code : SchemaErrorCode) : string :=
  match code with
  | SchEpochMismatch => "SCHEMA_EPOCH_MISMATCH"
  | SchDowngrade => "SCHEMA_DOWNGRADE"
  | SchContractUnknown => "SCHEMA_CONTRACT_UNKNOWN"
  | SchMigrationUnsupported => "SCHEMA_MIGRATION_UNSUPPORTED"
  | SchEquivalenceFailed => "SCHEMA_EQUIVALENCE_FAILED"
  | SchSelfModification => "SCHEMA_SELF_MODIFICATION"
  | SchRootOverwriteForbidden => "SCHEMA_ROOT_OVERWRITE_FORBIDDEN"
  | SchRecordInvalid => "SCHEMA_RECORD_INVALID"
  end.

Abbreviation sch_result := (result SchemaErrorCode).

Inductive EpochDecodeError : Type :=
| EdSchema (e : SchemaErrorCode)
| EdScb (e : ScbErrorCode).

(** [impl From<ScbError> for SchemaError] *)
Definition from_scb {A} (m : scb_result A) : sch_result A := map_err (fun _ => SchRecordInvalid) m.

(** ** Records *)

Record UnicodeVersion : Type := { uv_major : N; uv_minor : N; uv_patch : N }.
#[global] Instance UnicodeVersion_eq_dec : EqDecision UnicodeVersion.
Proof. solve_decision. Defined.

Definition UnicodeVersion_EPOCH_1 : UnicodeVersion := {| uv_major := 16; uv_minor := 0; uv_patch := 0 |}.

Record EpochLimits : Type := {
  el_standalone_stored_bytes : N;
  el_payload_bytes : N;
  el_nesting_depth : N;
  el_fields_per_record : N;
  el_collection_elements : N;
  el_decoded_standalone_values_per_request : N;
  el_decoder_allocation_per_standalone_value : N
}.
#[global] Instance EpochLimits_eq_dec : EqDecision EpochLimits.
Proof. solve_decision. Defined.

Definition EpochLimits_EPOCH_1 : EpochLimits := {|
  el_standalone_stored_bytes := 67108864;
  el_payload_bytes := 16777216;
  el_nesting_depth := 64;
  el_fields_per_record := 65535;
  el_collection_elements := 1000000;
  el_decoded_standalone_values_per_request := 1000000;
  el_decoder_allocation_per_standalone_value := 134217728
|}.

Record ContractDescriptor : Type := {
  cd_contract_tag : N;
  cd_digest_domain_tag : N;
  cd_kind_tag : N;
  cd_field_schema_hash : bytes;
  cd_required_fields : list N;
  cd_optional_fields : list N;
  cd_variant_tags : list N;
  cd_decoder_limits_hash : bytes
}.
#[global] Instance ContractDescriptor_eq_dec : EqDecision ContractDescriptor.
Proof. solve_decision. Defined.

Record ExtensionDescriptor : Type := {
  xd_namespace_id : bytes;
  xd_type_tag : N;
  xd_version : N;
  xd_payload_schema_hash : bytes
}.
#[global] Instance ExtensionDescriptor_eq_dec : EqDecision ExtensionDescriptor.
Proof. solve_decision. Defined.

Record MigrationContractDescriptor : Type := {
  md_predecessor_epoch : bytes;
  md_contract_id : bytes;
  md_verifier_id : bytes;
  md_scope_hash : bytes
}.
#[global] Instance MigrationContractDescriptor_eq_dec : EqDecision MigrationContractDescriptor.
Proof. solve_decision. Defined.

Record SchemaEpochRecordV1 : Type := {
  er_epoch_number : N;
  er_scb_format_version : N;
  er_hash_algorithm_tag : N;
  er_unicode_nfc_version : UnicodeVersion;
  er_limits : EpochLimits;
  er_contracts : list ContractDescriptor;
  er_extensions : list ExtensionDescriptor;
  er_predecessor : option bytes;
  er_migration_contracts : list MigrationContractDescriptor
}.
#[global] Instance SchemaEpochRecordV1_eq_dec : EqDecision SchemaEpochRecordV1.
Proof. solve_decision. Defined.

Definition BOOTSTRAP_MAGIC : bytes := ascii "SLEYEP01"%string.
Definition BOOTSTRAP_VERSION : N := 1.
Definition SCB_FORMAT_VERSION : N := 1.
Definition HASH_ALGORITHM_BLAKE3_256 : N := 1.
Definition NAMESPACE_LEN : N := 16.

(** ** Validation *)

Section windows.
Context {A : Type} (bad : A -> A -> bool).
(** [values.windows(2).any(|pair| bad(pair[0], pair[1]))] *)
Fixpoint any_adjacent (values : list A) : bool :=
  match values with
  | x :: ((y :: _) as values') => bad x y || any_adjacent values'
  | _ => false
  end.
End windows.

Definition validate_sorted_unique_u32 (values : list N) : sch_result unit :=
  ensure (negb (any_adjacent (fun x y => y <=? x)%N values)) SchRecordInvalid.

(** [pair[0] >= pair[1]] on byte strings *)
Definition bytes_ge (x y : bytes) : bool := bool_decide (bytes_cmp x y <> Lt).

Definition validate_strict_bytes_order (values : list bytes) : sch_result unit :=
  ensure (negb (any_adjacent bytes_ge values)) SchRecordInvalid.

(** The two indices of the loop are the lists from there on; each turn drops
    one element. *)
Fixpoint intersects_sorted_loop (fuel : nat) (left right : list N) : bool :=
  match fuel, left, right with
  | S fuel, x :: left', y :: right' =>
      match (x ?= y)%N with
      | Lt => intersects_sorted_loop fuel left' right
      | Eq => true
      | Gt => intersects_sorted_loop fuel left right'
      end
  | _, _, _ => false
  end.

Definition intersects_sorted (left right : list N) : bool :=
  intersects_sorted_loop (length left + length right) left right.

Definition UnicodeVersion_validate (v : UnicodeVersion) : sch_result unit :=
  ensure (bool_decide (v = UnicodeVersion_EPOCH_1)) SchRecordInvalid.

Definition EpochLimits_validate (l : EpochLimits) : sch_result unit :=
  ensure (bool_decide (l = EpochLimits_EPOCH_1)) SchRecordInvalid.

Definition ContractDescriptor_validate (d : ContractDescriptor) : sch_result unit :=
  validate_sorted_unique_u32 (cd_required_fields d) ≫= fun _ =>
  validate_sorted_unique_u32 (cd_optional_fields d) ≫= fun _ =>
  validate_sorted_unique_u32 (cd_variant_tags d) ≫= fun _ =>
  ensure (negb (intersects_sorted (cd_required_fields d) (cd_optional_fields d))) SchRecordInvalid.

(** [x.sort_unstable()] on integers *)
Definition sort_u32 : list N -> list N := sort_by N.compare.

Definition validate_contract_uniqueness (contracts : list ContractDescriptor) : sch_result unit :=
  for_each ContractDescriptor_validate contracts ≫= fun _ =>
  validate_sorted_unique_u32 (sort_u32 (cd_contract_tag <$> contracts)) ≫= fun _ =>
  validate_sorted_unique_u32 (sort_u32 (cd_digest_domain_tag <$> contracts)) ≫= fun _ =>
  validate_sorted_unique_u32 (sort_u32 (cd_kind_tag <$> contracts)).

(** The order of the tuples [(namespace_id, type_tag, version)] *)
Definition extension_key (x : ExtensionDescriptor) : bytes * N * N := (xd_namespace_id x, xd_type_tag x, xd_version x).
Definition extension_key_cmp (x y : bytes * N * N) : comparison :=
  then_with (bytes_cmp x.1.1 y.1.1) (then_with (x.1.2 ?= y.1.2)%N (x.2 ?= y.2)%N).

Definition validate_extension_uniqueness (extensions : list ExtensionDescriptor) : sch_result unit :=
  let tuples := sort_by extension_key_cmp (extension_key <$> extensions) in
  ensure (negb (any_adjacent (fun x y => bool_decide (x = y)) tuples)) SchRecordInvalid.

(** ** Encoding *)

Definition UnicodeVersion_encode (v : UnicodeVersion) : sch_result bytes :=
  from_scb (encode_record [
    (1, encode_uvar (uv_major v)); (2, encode_uvar (uv_minor v)); (3, encode_uvar (uv_patch v))]%N).

Definition EpochLimits_encode (l : EpochLimits) : sch_result bytes :=
  from_scb (encode_record [
    (1, encode_uvar (el_standalone_stored_bytes l));
    (2, encode_uvar (el_payload_bytes l));
    (3, encode_uvar (el_nesting_depth l));
    (4, encode_uvar (el_fields_per_record l));
    (5, encode_uvar (el_collection_elements l));
    (6, encode_uvar (el_decoded_standalone_values_per_request l));
    (7, encode_uvar (el_decoder_allocation_per_standalone_value l))]%N).

Definition schema_encode_u32_set (values : list N) : sch_result bytes :=
  validate_sorted_unique_u32 values ≫= fun _ =>
  from_scb (encode_list (encode_uvar <$> values)).

Definition ContractDescriptor_encode (d : ContractDescriptor) : sch_result bytes :=
  ContractDescriptor_validate d ≫= fun _ =>
  required ← schema_encode_u32_set (cd_required_fields d);
  optional ← schema_encode_u32_set (cd_optional_fields d);
  variants ← schema_encode_u32_set (cd_variant_tags d);
  from_scb (encode_record [
    (1, encode_uvar (cd_contract_tag d));
    (2, encode_uvar (cd_digest_domain_tag d));
    (3, encode_uvar (cd_kind_tag d));
    (4, cd_field_schema_hash d);
    (5, required);
    (6, optional);
    (7, variants);
    (8, cd_decoder_limits_hash d)]%N).

Definition ExtensionDescriptor_encode (x : ExtensionDescriptor) : sch_result bytes :=
  from_scb (encode_record [
    (1, xd_namespace_id x);
    (2, encode_uvar (xd_type_tag x));
    (3, encode_uvar (xd_version x));
    (4, xd_payload_schema_hash x)]%N).

Definition MigrationContractDescriptor_encode (m : MigrationContractDescriptor) : sch_result bytes :=
  from_scb (encode_record [
    (1, md_predecessor_epoch m); (2, md_contract_id m); (3, md_verifier_id m); (4, md_scope_hash m)]%N).

Definition encode_option_epoch (epoch_id : option bytes) : sch_result bytes :=
  from_scb match epoch_id with
           | None => encode_union 0 []
           | Some epoch_id => encode_union 1 epoch_id
           end.

Section descriptor_sets.
Context {T : Type} (encode : T -> sch_result bytes).

Definition encode_descriptor_set (values : list T) : sch_result bytes :=
  elements ← map_res encode values;
  validate_strict_bytes_order elements ≫= fun _ =>
  from_scb (encode_list elements).

Definition validate_descriptor_set (values : list T) : sch_result unit :=
  elements ← map_res encode values;
  validate_strict_bytes_order elements.
End descriptor_sets.

Definition SchemaEpochRecordV1_validate (r : SchemaEpochRecordV1) : sch_result unit :=
  (if ((er_epoch_number r =? 0) ||
       (er_epoch_number r =? 1) && bool_decide (is_Some (er_predecessor r)) ||
       (1 <? er_epoch_number r) && bool_decide (er_predecessor r = None) ||
       negb (er_scb_format_version r =? SCB_FORMAT_VERSION) ||
       negb (er_hash_algorithm_tag r =? HASH_ALGORITHM_BLAKE3_256))%N
   then Err SchRecordInvalid else Ok tt) ≫= fun _ =>
  UnicodeVersion_validate (er_unicode_nfc_version r) ≫= fun _ =>
  EpochLimits_validate (er_limits r) ≫= fun _ =>
  validate_descriptor_set ContractDescriptor_encode (er_contracts r) ≫= fun _ =>
  validate_descriptor_set ExtensionDescriptor_encode (er_extensions r) ≫= fun _ =>
  validate_descriptor_set MigrationContractDescriptor_encode (er_migration_contracts r) ≫= fun _ =>
  validate_contract_uniqueness (er_contracts r) ≫= fun _ =>
  validate_extension_uniqueness (er_extensions r) ≫= fun _ =>
  if existsb (fun d => bool_decide (Some (md_predecessor_epoch d) <> er_predecessor r)) (er_migration_contracts r)
  then Err SchRecordInvalid else Ok tt.

Definition canonical_bytes (r : SchemaEpochRecordV1) : sch_result bytes :=
  SchemaEpochRecordV1_validate r ≫= fun _ =>
  unicode ← UnicodeVersion_encode (er_unicode_nfc_version r);
  limits ← EpochLimits_encode (er_limits r);
  contracts ← encode_descriptor_set ContractDescriptor_encode (er_contracts r);
  extensions ← encode_descriptor_set ExtensionDescriptor_encode (er_extensions r);
  predecessor ← encode_option_epoch (er_predecessor r);
  migrations ← encode_descriptor_set MigrationContractDescriptor_encode (er_migration_contracts r);
  from_scb (encode_record [
    (1, encode_uvar (er_epoch_number r));
    (2, encode_uvar (er_scb_format_version r));
    (3, encode_uvar (er_hash_algorithm_tag r));
    (4, unicode);
    (5, limits);
    (6, contracts);
    (7, extensions);
    (8, predecessor);
    (9, migrations)]%N).

Definition bootstrap_preimage (epoch_record : bytes) : sch_result bytes :=
  guard! (len epoch_record <=? MAX_STANDALONE_BYTES)%N else SchRecordInvalid;
  Ok (BOOTSTRAP_MAGIC ++ encode_uvar BOOTSTRAP_VERSION ++ encode_uvar (len epoch_record) ++ epoch_record).

(** ** Decoding *)

(** A reader over the whole of [input], with the errors of this crate. *)
Definition schema_read {A} (m : RM A) (input : bytes) : sch_result A := from_scb (nested_exact m input).

(** A decoder of this crate in the middle of a loop: its only error stands for
    the [SCHEMA_RECORD_INVALID] that [schema_read] gives back. *)
Definition element {A} (m : sch_result A) : RM A := rlift (map_err (fun _ => ScbFieldUnknown) m).

(** [RecordReader::new]: [previous_tag.is_some_and(|previous| previous >= tag)] *)
Definition schema_tag_order (previous : option N) (tag : N) : scb_result unit :=
  match previous with
  | Some previous => ensure (previous <? tag)%N ScbFieldOrder
  | None => Ok tt
  end.
Definition schema_record_new (input : bytes) : sch_result Fields := from_scb (read_record schema_tag_order 0 input).

Definition schema_record {A} (m : ST Fields SchemaErrorCode A) (input : bytes) : sch_result A :=
  with_record SchRecordInvalid schema_record_new m input.

Definition read_required (tag : N) : ST Fields SchemaErrorCode bytes := required SchRecordInvalid tag.

Definition u32_of (input : bytes) : sch_result N :=
  value ← schema_read (read_uvar_width 32) input;
  guard! (value <? 2 ^ 32)%N else SchRecordInvalid;
  Ok value.
Definition read_required_u32 (tag : N) : ST Fields SchemaErrorCode N := v ← read_required tag; lift (u32_of v).

Definition u64_of (input : bytes) : sch_result N := schema_read (read_uvar_width 64) input.
Definition read_required_u64 (tag : N) : ST Fields SchemaErrorCode N := v ← read_required tag; lift (u64_of v).

(** [input.try_into()] for an array of [n] bytes *)
Definition array_from (n : N) (input : bytes) : sch_result bytes :=
  guard! (len input =? n)%N else SchRecordInvalid; Ok input.
Definition read_required_array (n tag : N) : ST Fields SchemaErrorCode bytes :=
  v ← read_required tag; lift (array_from n v).

Definition u32_element (out : list N) : RM (list N) :=
  bytes ← read_sized_payload;
  value ← element (u32_of bytes);
  mret (out ++ [value]).

Definition decode_u32_set (input : bytes) : sch_result (list N) :=
  values ← schema_read (count ← read_count; read_items 2 ScbResourceLimit u32_element [] count) input;
  validate_sorted_unique_u32 values ≫= fun _ =>
  Ok values.

Section decode_sets.
Context {T : Type} (decode : bytes -> sch_result T).

Definition descriptor_element (st : option bytes * list T) : RM (option bytes * list T) :=
  bytes ← read_sized_payload;
  if match st.1 with Some previous => bytes_ge previous bytes | None => false end then rfail ScbMapOrder
  else
    value ← element (decode bytes);
    mret (Some bytes, st.2 ++ [value]).

Definition decode_descriptor_set (input : bytes) : sch_result (list T) :=
  st ← schema_read (count ← read_count; read_items 2 ScbResourceLimit descriptor_element (None, []) count) input;
  Ok st.2.
End decode_sets.

Definition decode_option_epoch (input : bytes) : sch_result (option bytes) :=
  '(tag, payload) ← schema_read (tag ← read_uvar_width 32; payload ← read_sized_payload; mret (tag, payload)) input;
  if (tag =? 0)%N && (len payload =? 0)%N then Ok None
  else if (tag =? 1)%N && (len payload =? 32)%N then epoch_id ← array_from 32 payload; Ok (Some epoch_id)
  else Err SchRecordInvalid.

Definition unicode_fields : ST Fields SchemaErrorCode UnicodeVersion :=
  major ← read_required_u32 1;
  minor ← read_required_u32 2;
  patch ← read_required_u32 3;
  mret {| uv_major := major; uv_minor := minor; uv_patch := patch |}.
Definition decode_unicode (input : bytes) : sch_result UnicodeVersion :=
  out ← schema_record unicode_fields input;
  UnicodeVersion_validate out ≫= fun _ => Ok out.

Definition limits_fields : ST Fields SchemaErrorCode EpochLimits :=
  standalone ← read_required_u64 1;
  payload ← read_required_u64 2;
  nesting ← read_required_u64 3;
  fields ← read_required_u64 4;
  elements ← read_required_u64 5;
  values ← read_required_u64 6;
  allocation ← read_required_u64 7;
  mret {| el_standalone_stored_bytes := standalone; el_payload_bytes := payload; el_nesting_depth := nesting;
          el_fields_per_record := fields; el_collection_elements := elements;
          el_decoded_standalone_values_per_request := values;
          el_decoder_allocation_per_standalone_value := allocation |}.
Definition decode_limits (input : bytes) : sch_result EpochLimits :=
  out ← schema_record limits_fields input;
  EpochLimits_validate out ≫= fun _ => Ok out.

Definition contract_fields : ST Fields SchemaErrorCode ContractDescriptor :=
  contract_tag ← read_required_u32 1;
  digest_domain_tag ← read_required_u32 2;
  kind_tag ← read_required_u32 3;
  field_schema_hash ← read_required_array 32 4;
  required_fields ← (v ← read_required 5; lift (decode_u32_set v));
  optional_fields ← (v ← read_required 6; lift (decode_u32_set v));
  variant_tags ← (v ← read_required 7; lift (decode_u32_set v));
  decoder_limits_hash ← read_required_array 32 8;
  mret {| cd_contract_tag := contract_tag; cd_digest_domain_tag := digest_domain_tag; cd_kind_tag := kind_tag;
          cd_field_schema_hash := field_schema_hash; cd_required_fields := required_fields;
          cd_optional_fields := optional_fields; cd_variant_tags := variant_tags;
          cd_decoder_limits_hash := decoder_limits_hash |}.
Definition decode_contract (input : bytes) : sch_result ContractDescriptor :=
  out ← schema_record contract_fields input;
  ContractDescriptor_validate out ≫= fun _ => Ok out.

Definition extension_fields : ST Fields SchemaErrorCode ExtensionDescriptor :=
  namespace_id ← read_required_array NAMESPACE_LEN 1;
  type_tag ← read_required_u32 2;
  version ← read_required_u32 3;
  payload_schema_hash ← read_required_array 32 4;
  mret {| xd_namespace_id := namespace_id; xd_type_tag := type_tag; xd_version := version;
          xd_payload_schema_hash := payload_schema_hash |}.
Definition decode_extension (input : bytes) : sch_result ExtensionDescriptor :=
  schema_record extension_fields input.

Definition migration_fields : ST Fields SchemaErrorCode MigrationContractDescriptor :=
  predecessor_epoch ← read_required_array 32 1;
  contract_id ← read_required_array 32 2;
  verifier_id ← read_required_array 32 3;
  scope_hash ← read_required_array 32 4;
  mret {| md_predecessor_epoch := predecessor_epoch; md_contract_id := contract_id;
          md_verifier_id := verifier_id; md_scope_hash := scope_hash |}.
Definition decode_migration (input : bytes) : sch_result MigrationContractDescriptor :=
  schema_record migration_fields input.

Definition epoch_record_fields : ST Fields SchemaErrorCode SchemaEpochRecordV1 :=
  epoch_number ← read_required_u32 1;
  scb_format_version ← read_required_u32 2;
  hash_algorithm_tag ← read_required_u32 3;
  unicode_nfc_version ← (v ← read_required 4; lift (decode_unicode v));
  limits ← (v ← read_required 5; lift (decode_limits v));
  contracts ← (v ← read_required 6; lift (decode_descriptor_set decode_contract v));
  extensions ← (v ← read_required 7; lift (decode_descriptor_set decode_extension v));
  predecessor ← (v ← read_required 8; lift (decode_option_epoch v));
  migration_contracts ← (v ← read_required 9; lift (decode_descriptor_set decode_migration v));
  mret {| er_epoch_number := epoch_number; er_scb_format_version := scb_format_version;
          er_hash_algorithm_tag := hash_algorithm_tag; er_unicode_nfc_version := unicode_nfc_version;
          er_limits := limits; er_contracts := contracts; er_extensions := extensions;
          er_predecessor := predecessor; er_migration_contracts := migration_contracts |}.
Definition decode_epoch_record (input : bytes) : sch_result SchemaEpochRecordV1 :=
  out ← schema_record epoch_record_fields input;
  SchemaEpochRecordV1_validate out ≫= fun _ => Ok out.

(** The reads of [import_bootstrap_preimage] *)
Definition read_bootstrap : RM bytes :=
  magic ← take_exact (len BOOTSTRAP_MAGIC);
  if negb (bool_decide (magic = BOOTSTRAP_MAGIC)) then rfail ScbMagicInvalid
  else
    version ← read_uvar_width 64;
    if negb (version =? BOOTSTRAP_VERSION)%N then rfail ScbVersionUnsupported
    else
      record_len ← read_len MAX_STANDALONE_BYTES;
      take_exact record_len.

(** ** Identity, migration plans *)

Record MigrationPlan : Type := {
  mp_old_epoch : bytes;
  mp_new_epoch : bytes;
  mp_contract_id : bytes;
  mp_verifier_id : bytes;
  mp_scope_hash : bytes
}.

Record MigrationTransactionDraft : Type := {
  mt_old_root : bytes;
  mt_new_root : bytes;
  mt_old_epoch : bytes;
  mt_new_epoch : bytes;
  mt_plan_id : bytes;
  mt_equivalence_evidence_digest : bytes
}.

Inductive TargetRootSlot : Type := SlotEmpty | SlotOccupied.
#[global] Instance TargetRootSlot_eq_dec : EqDecision TargetRootSlot.
Proof. solve_decision. Defined.

Definition matches_plan (plan : MigrationPlan) (d : MigrationContractDescriptor) : bool :=
  bool_decide (md_predecessor_epoch d = mp_old_epoch plan) &&
  bool_decide (md_contract_id d = mp_contract_id plan) &&
  bool_decide (md_verifier_id d = mp_verifier_id plan) &&
  bool_decide (md_scope_hash d = mp_scope_hash plan).

Definition migration_descriptor (r : SchemaEpochRecordV1) (plan : MigrationPlan) : option MigrationContractDescriptor :=
  find_first (matches_plan plan) (er_migration_contracts r).

(** [trait EpochDecoder] *)
Class EpochDecoder (D : Type) : Type := {
  decoder_epoch_id : D -> bytes;
  decoder_decode_contract : D -> N -> bytes -> scb_result unit
}.

(** [trait EquivalenceVerifier] *)
Class EquivalenceVerifier (V : Type) : Type := {
  verifier_id : V -> bytes;
  verify : V -> MigrationPlan -> SchemaEpochRecordV1 -> SchemaEpochRecordV1 -> bytes -> bytes -> option bytes
}.

Record MigrationVerification (V : Type) : Type := {
  mv_approved_plan_id : bytes;
  mv_target_slot : TargetRootSlot;
  mv_verifier : V;
  mv_old_state : bytes;
  mv_new_state : bytes
}.
Arguments mv_approved_plan_id {V}.
Arguments mv_target_slot {V}.
Arguments mv_verifier {V}.
Arguments mv_old_state {V}.
Arguments mv_new_state {V}.

Record RegistryEntry (D : Type) : Type := {
  re_epoch_id : bytes;
  re_record : SchemaEpochRecordV1;
  re_decoder : D
}.
Arguments Build_RegistryEntry {D}.
Arguments re_epoch_id {D}.
Arguments re_record {D}.
Arguments re_decoder {D}.

(** [SchemaEpochRegistry] is its entries. *)
Abbreviation SchemaEpochRegistry D := (list (RegistryEntry D)).

Section registry.
Variable blake3 : bytes -> bytes.

Definition schema_epoch_id (r : SchemaEpochRecordV1) : sch_result bytes :=
  canonical ← canonical_bytes r;
  preimage ← bootstrap_preimage canonical;
  Ok (digest_type_derive blake3 SchemaEpoch preimage).

Definition import_bootstrap_preimage (input : bytes) : sch_result (bytes * SchemaEpochRecordV1) :=
  record_bytes ← schema_read read_bootstrap input;
  record ← decode_epoch_record record_bytes;
  let epoch_id := digest_type_derive blake3 SchemaEpoch input in
  canonical ← canonical_bytes record;
  guard! bool_decide (canonical = record_bytes) else SchRecordInvalid;
  Ok (epoch_id, record).

Context {D : Type} `{EpochDecoder D}.

Definition RegistryEntry_new (epoch_id : bytes) (record : SchemaEpochRecordV1) (decoder : D) : sch_result (RegistryEntry D) :=
  id ← schema_epoch_id record;
  if negb (bool_decide (id = epoch_id)) || negb (bool_decide (decoder_epoch_id decoder = epoch_id)) then Err SchEpochMismatch
  else Ok (Build_RegistryEntry epoch_id record decoder).

Definition check_entry (entry : RegistryEntry D) : sch_result unit :=
  id ← schema_epoch_id (re_record entry);
  if negb (bool_decide (id = re_epoch_id entry)) || negb (bool_decide (decoder_epoch_id (re_decoder entry) = re_epoch_id entry))
  then Err SchEpochMismatch else Ok tt.

Definition Registry_new (entries : list (RegistryEntry D)) : sch_result (SchemaEpochRegistry D) :=
  guard! negb (any_adjacent (fun x y => bytes_ge (re_epoch_id x) (re_epoch_id y)) entries) else SchEpochMismatch;
  for_each check_entry entries ≫= fun _ =>
  Ok entries.
End registry.

Section lookups.
Context {D : Type} `{EpochDecoder D} (registry : SchemaEpochRegistry D).

(** The keys of a registry are strictly ascending: its binary search finds the
    entry of a key. *)
Definition Registry_lookup (epoch_id : bytes) : sch_result (RegistryEntry D) :=
  ok_or SchEpochMismatch (find_first (fun entry => bool_decide (re_epoch_id entry = epoch_id)) registry).

Definition lookup_equal_or_newer (epoch_id : bytes) (minimum_epoch_number : N) : sch_result (RegistryEntry D) :=
  entry ← Registry_lookup epoch_id;
  if (er_epoch_number (re_record entry) <? minimum_epoch_number)%N then Err SchDowngrade else Ok entry.

Definition lookup_contract (epoch_id : bytes) (contract_tag : N) : sch_result ContractDescriptor :=
  entry ← Registry_lookup epoch_id;
  ok_or SchContractUnknown
    (find_first (fun contract => cd_contract_tag contract =? contract_tag)%N (er_contracts (re_record entry))).

Definition registry_decode_contract (epoch_id : bytes) (contract_tag : N) (input : bytes) : result EpochDecodeError unit :=
  entry ← map_err EdSchema (Registry_lookup epoch_id);
  if negb (existsb (fun contract => cd_contract_tag contract =? contract_tag)%N (er_contracts (re_record entry)))
  then Err (EdSchema SchContractUnknown)
  else map_err EdScb (decoder_decode_contract (re_decoder entry) contract_tag input).

Definition validate_migration_draft (plan : MigrationPlan) (draft : MigrationTransactionDraft)
    (approved_plan_id : bytes) (target_slot : TargetRootSlot) : sch_result unit :=
  if negb (bool_decide (target_slot = SlotEmpty)) || bool_decide (mt_old_root draft = mt_new_root draft)
  then Err SchRootOverwriteForbidden
  else if bool_decide (mp_old_epoch plan = mp_new_epoch plan) || bool_decide (mt_old_epoch draft = mt_new_epoch draft)
  then Err SchMigrationUnsupported
  else if negb (bool_decide (mt_old_epoch draft = mp_old_epoch plan)) || negb (bool_decide (mt_new_epoch draft = mp_new_epoch plan))
  then Err SchMigrationUnsupported
  else if negb (bool_decide (mt_plan_id draft = approved_plan_id)) then Err SchMigrationUnsupported
  else
    old_entry ← Registry_lookup (mp_old_epoch plan);
    new_entry ← Registry_lookup (mp_new_epoch plan);
    if (er_epoch_number (re_record new_entry) <=? er_epoch_number (re_record old_entry))%N then Err SchDowngrade
    else if negb (bool_decide (er_predecessor (re_record new_entry) = Some (re_epoch_id old_entry))) then Err SchMigrationUnsupported
    else
      _descriptor ← ok_or SchMigrationUnsupported (migration_descriptor (re_record new_entry) plan);
      Ok tt.

Definition validate_and_verify_migration {V} `{EquivalenceVerifier V} (plan : MigrationPlan)
    (draft : MigrationTransactionDraft) (verification : MigrationVerification V) : sch_result unit :=
  validate_migration_draft plan draft (mv_approved_plan_id verification) (mv_target_slot verification) ≫= fun _ =>
  if negb (bool_decide (verifier_id (mv_verifier verification) = mp_verifier_id plan)) then Err SchMigrationUnsupported
  else
    old_epoch ← Registry_lookup (mp_old_epoch plan);
    new_epoch ← Registry_lookup (mp_new_epoch plan);
    evidence ← ok_or SchEquivalenceFailed
      (verify (mv_verifier verification) plan (re_record old_epoch) (re_record new_epoch)
        (mv_old_state verification) (mv_new_state verification));
    if negb (bool_decide (evidence = mt_equivalence_evidence_digest draft)) then Err SchEquivalenceFailed else Ok tt.
End lookups.
