(* ===== verification/SchemaExact.v ===== *)
(** * The codec of schema epochs

    Each decoder of [Schema] accepts exactly what its encoder writes, up to the
    bootstrap preimage of a whole epoch record. *)

From S2P Require Import Prelude State Bytes Ids Scb1Core Scb1Cursor Scb1Schema Records Schema.

Opaque encode_uvar.

(** ** Readers of this crate *)

Lemma from_scb_Ok {A} (m : scb_result A) a : from_scb m = Ok a <-> m = Ok a.
Proof. apply map_err_iff. Qed.

Lemma schema_read_Ok {A} (m : RM A) E a input :
  Strict m E -> (len input < U64_LIMIT)%N -> schema_read m input = Ok a <-> E a input.
Proof. intros Hm Hl. unfold schema_read. rewrite from_scb_Ok. by apply nested_exact_iff. Qed.

Lemma strict_element {A} (m : sch_result A) : Strict (element m) (fun a bs => m = Ok a /\ bs = []).
Proof.
  unfold element. refine (strict_iff _ _ _ _ (strict_rlift _)). intros a bs. by rewrite map_err_iff.
Qed.

Lemma schema_tag_order_Ok previous tag : schema_tag_order previous tag = Ok tt <-> above N.compare previous tag.
Proof. destruct previous as [p|]; [|done]. cbn. rewrite ensure_Ok, N.ltb_lt. done. Qed.

Lemma schema_record_Ok {A} (m : ST Fields SchemaErrorCode A) D tags input a :
  Takes m D -> (forall a fs, D a fs -> fs.*1 = tags) ->
  strictly_sorted tags = true -> Forall (fun t => t < 2 ^ 32)%N tags -> (len input < U64_LIMIT)%N ->
  schema_record m input = Ok a <-> exists fs, D a fs /\ encode_record fs = Ok input.
Proof.
  intros Hm HD Ht Hw Hl. refine (with_record_Ok SchRecordInvalid schema_record_new 0 _ m D tags input a Hm HD Ht Hw _ Hl); [|lia].
  intros i fields Hi. unfold schema_record_new. rewrite from_scb_Ok. by apply read_record_Ok; [apply schema_tag_order_Ok|].
Qed.

Definition is_u32 (n : N) : Prop := (n < 2 ^ 32)%N.
Definition is_u64 (n : N) : Prop := (n < U64_LIMIT)%N.

Section scalars.
Context (input : bytes) (Hl : (len input < U64_LIMIT)%N).

Lemma u32_of_Ok v : u32_of input = Ok v <-> is_u32 v /\ input = encode_uvar v.
Proof using Hl.
  unfold u32_of. rewrite bind_Ok. setoid_rewrite (schema_read_Ok _ _ _ _ strict_uvar32 Hl). split.
  - intros (a & [Ha ->] & ([] & _ & [= <-])%bind_Ok). done.
  - intros [Hv ->]. exists v. split; [done|]. apply bind_Ok. exists tt. split; [|done]. by apply ensure_Ok, N.ltb_lt.
Qed.

Lemma u64_of_Ok v : u64_of input = Ok v <-> is_u64 v /\ input = encode_uvar v.
Proof using Hl.
  unfold u64_of. rewrite (schema_read_Ok _ _ _ _ (strict_read_uvar_width 64) Hl). unfold uvar_enc, is_u64. 
  change (uvar_groups 10) with encode_uvar. change U64_LIMIT with (2 ^ 64)%N. split; [by intros (? & ? & ->)|intros [? ->]].
  split_and!; [done|by left|done].
Qed.
End scalars.

Lemma array_from_Ok n input a : array_from n input = Ok a <-> len input = n /\ a = input.
Proof.
  unfold array_from. rewrite bind_Ok. setoid_rewrite ensure_Ok. setoid_rewrite N.eqb_eq.
  split; [by intros (_ & ? & [= ->])|intros [? ->]; by exists tt].
Qed.

(** ** Sorted sets *)

Lemma any_adjacent_ext {A} (f g : A -> A -> bool) l : (forall x y, f x y = g x y) -> any_adjacent f l = any_adjacent g l.
Proof. intros H. induction l as [|x [|y l] IH]; [done..|]. cbn in *. by rewrite H, IH. Qed.

Lemma any_adjacent_sorted {A} (R : relation A) `{Transitive A R} (bad : A -> A -> bool) l :
  (forall x y, bad x y = false <-> R x y) -> any_adjacent bad l = false <-> StronglySorted R l.
Proof.
  intros Hb. split.
  - intros Ha. apply Sorted_StronglySorted; [exact H|]. induction l as [|x [|y l] IH]; [constructor|repeat constructor|].
    cbn in Ha. apply orb_false_iff in Ha as [Hxy Ha]. constructor; [by apply IH|]. constructor. by apply Hb.
  - induction 1 as [|x l Hs IH Hx]; [done|]. destruct l as [|y l]; [done|]. cbn in *. rewrite IH, orb_false_r.
    apply Hb. by inversion Hx.
Qed.

Lemma validate_sorted_unique_u32_Ok l u : validate_sorted_unique_u32 l = Ok u <-> strictly_sorted l = true.
Proof.
  unfold validate_sorted_unique_u32. rewrite ensure_Ok, negb_true_iff, strictly_sorted_spec. apply any_adjacent_sorted; [intros ???; lia|].
  intros x y. lia.
Qed.

Definition ascending_bytes : list bytes -> Prop := ascending id bytes_cmp.

Lemma bytes_ge_false x y : bytes_ge x y = false <-> bytes_cmp x y = Lt.
Proof. unfold bytes_ge. rewrite bool_decide_eq_false. destruct (bytes_cmp x y); naive_solver. Qed.

Lemma validate_strict_bytes_order_Ok l u : validate_strict_bytes_order l = Ok u <-> ascending_bytes l.
Proof.
  unfold validate_strict_bytes_order. rewrite ensure_Ok, negb_true_iff. apply any_adjacent_sorted; [|apply bytes_ge_false].
  intros x y z. apply bytes_total_compare.
Qed.

(** ** Sets *)

Section sets.
Context (input : bytes) (Hl : (len input < U64_LIMIT)%N).

Lemma strict_u32_element out :
  Strict (u32_element out) (fun out' bs => exists v, is_u32 v /\ out' = out ++ [v] /\ bs = chunk (encode_uvar v)).
Proof using Type.
  unfold u32_element. refine (strict_iff _ _ _ _ (strict_bind _ _ _ _ strict_sized_payload
    (fun s => strict_map _ _ (fun v => out ++ [v]) (strict_element (u32_of s))))).
  intros out' bs. split.
  - intros (s & b1 & b2 & [Hs ->] & (v & [Hv ->] & ->) & ->). apply u32_of_Ok in Hv as [? ->]; [|by apply small_limit].
    exists v. by rewrite app_nil_r.
  - intros (v & Hv & -> & ->). pose proof (uvar_small v) as Hs.
    exists (encode_uvar v), (chunk (encode_uvar v)), []. rewrite app_nil_r. split_and!; try done.
    exists v. split; [|done]. split; [|done]. apply u32_of_Ok; [by apply small_limit|done].
Qed.

Lemma decode_u32_set_Ok l :
  decode_u32_set input = Ok l <-> Forall is_u32 l /\ schema_encode_u32_set l = Ok input.
Proof using Hl.
  unfold decode_u32_set, schema_encode_u32_set. rewrite !bind_Ok.
  setoid_rewrite (schema_read_Ok _ _ _ _ (strict_bind _ _ _ _ (strict_read_len MAX_COLLECTION_ELEMENTS eq_refl)
    (fun n => strict_read_items is_u32 (fun v => chunk (encode_uvar v)) 2 ScbResourceLimit eq_refl _ _ _ _ _
      (fun k => strict_push_loop _ _ _ _ k strict_u32_element))) Hl).
  2: { intros v _. pose proof (uvar_nonempty v). pose proof (chunk_length (encode_uvar v)). lia. }
  setoid_rewrite bind_Ok. setoid_rewrite validate_sorted_unique_u32_Ok. setoid_rewrite from_scb_Ok. setoid_rewrite encode_list_Ok.
  rewrite len_fmap, <- list_fmap_compose. split.
  - intros (o & (n & b1 & b2 & [Hn ->] & (items & <- & HP & -> & ->) & ->) & _ & Hs & [= <-]). cbn [app] in *.
    split; [done|]. exists tt. split_and!; try done. apply Forall_fmap, Forall_true. intros v. apply uvar_small.
  - intros (HP & _ & Hs & Hn & _ & ->). exists l. split; [|by exists tt].
    eexists (len l), _, _. split_and!; [done|reflexivity| |reflexivity]. by exists l.
Qed.
End sets.

(** *** Sets of descriptors *)

Section descriptors.
Context {T : Type} (ok : T -> Prop) (encode : T -> sch_result bytes) (decode : bytes -> sch_result T).
Hypothesis Hdec : forall bs x, (len bs < U64_LIMIT)%N -> decode bs = Ok x <-> ok x /\ encode x = Ok bs.
Hypothesis Hlen : forall x bs, encode x = Ok bs -> (1 <= len bs)%N.

(** The encoding of a descriptor that has one *)
Definition code (x : T) : bytes := match encode x with Ok bs => bs | Err _ => [] end.
Definition coded (x : T) : Prop := ok x /\ encode x = Ok (code x) /\ small (code x).

Lemma encode_code x bs : encode x = Ok bs -> code x = bs.
Proof using Type. unfold code. by intros ->. Qed.

Lemma strict_descriptor_element st :
  Strict (descriptor_element decode st) (fun st' bs => exists x, above bytes_cmp st.1 (code x) /\ coded x /\
    st' = (Some (code x), st.2 ++ [x]) /\ bs = chunk (code x)).
Proof using Hdec.
  unfold descriptor_element. refine (strict_iff _ _ _ _ (strict_bind _ _ _ _ strict_sized_payload
    (fun s => strict_guard _ _ _ _ (strict_map _ _ (fun v => (Some s, st.2 ++ [v])) (strict_element (decode s)))))).
  assert (forall k, match st.1 with Some p => bytes_ge p k | None => false end = false <-> above bytes_cmp st.1 k) as Hk.
  { intros k. destruct st.1; [apply bytes_ge_false|done]. }
  intros st' bs. split.
  - intros (s & b1 & b2 & [Hs ->] & (Ho & v & [Hv ->] & ->) & ->). apply Hdec in Hv as [? Hv]; [|by apply small_limit].
    pose proof (encode_code _ _ Hv) as <-. exists v. rewrite app_nil_r. split_and!; try done. by apply Hk.
  - intros (x & Ha & (Hx & He & Hs) & -> & ->). exists (code x), (chunk (code x)), []. rewrite app_nil_r. split_and!; try done; [by apply Hk|].
    exists x. split; [|done]. split; [|done]. apply Hdec; [by apply small_limit|done].
Qed.

Lemma codes_Ok l bs : map_res encode l = Ok bs <-> Forall (fun x => encode x = Ok (code x)) l /\ bs = code <$> l.
Proof using Type.
  rewrite map_res_Ok. split.
  - induction 1 as [|x b l bs Hx _ [IH ->]]; [done|]. pose proof (encode_code _ _ Hx) as <-. split; [by constructor|done].
  - intros [HF ->]. induction HF; cbn; by constructor.
Qed.

Lemma ascending_codes l : ascending_bytes (code <$> l) <-> ascending code bytes_cmp l.
Proof using Type.
  unfold ascending_bytes, ascending. induction l as [|x l IH]; [split; constructor|]. rewrite fmap_cons. split.
  - intros [Hl Hx]%StronglySorted_inv. constructor; [by apply IH|by apply Forall_fmap in Hx].
  - intros [Hl Hx]%StronglySorted_inv. constructor; [by apply IH|by apply Forall_fmap].
Qed.

Lemma encode_descriptor_set_Ok l bs : encode_descriptor_set encode l = Ok bs <->
  Forall (fun x => encode x = Ok (code x) /\ small (code x)) l /\ ascending code bytes_cmp l /\
  (len l <= MAX_COLLECTION_ELEMENTS)%N /\ bs = encode_uvar (len l) ++ concat (chunk <$> (code <$> l)).
Proof using Type.
  unfold encode_descriptor_set. rewrite bind_Ok. setoid_rewrite bind_Ok. setoid_rewrite codes_Ok.
  setoid_rewrite validate_strict_bytes_order_Ok. setoid_rewrite from_scb_Ok. setoid_rewrite encode_list_Ok. split.
  - intros (els & [HF ->] & _ & Ha & Hn & Hs & ->). rewrite len_fmap in *. rewrite Forall_fmap in Hs. split_and!; try done.
    + by apply Forall_and.
    + by apply ascending_codes.
  - intros ([HF Hs]%Forall_and & Ha & Hn & ->). exists (code <$> l). split; [done|]. exists tt. split; [by apply ascending_codes|].
    rewrite len_fmap. split_and!; try done. by rewrite Forall_fmap.
Qed.

Lemma decode_descriptor_set_Ok input l : (len input < U64_LIMIT)%N ->
  decode_descriptor_set decode input = Ok l <-> Forall ok l /\ encode_descriptor_set encode l = Ok input.
Proof using Hdec Hlen.
  intros Hl. unfold decode_descriptor_set. rewrite bind_Ok.
  setoid_rewrite (schema_read_Ok _ _ _ _ (strict_bind _ _ _ _ (strict_read_len MAX_COLLECTION_ELEMENTS eq_refl)
    (fun n => strict_ordered_items coded (fun x => chunk (code x)) 2 ScbResourceLimit eq_refl _ code bytes_cmp bytes_total_compare _ n
      strict_descriptor_element)) Hl).
  2: { intros x (_ & He & _). apply Hlen in He. pose proof (chunk_length (code x)). lia. }
  rewrite encode_descriptor_set_Ok, <- list_fmap_compose. split.
  - intros ([p o] & (n & b1 & b2 & [Hn ->] & (items & <- & HP & (Ha & [= ->] & _) & ->) & ->) & [= <-]).
    apply Forall_and in HP as [HP1 HP2]. done.
  - intros (HP & HF & Ha & Hn & ->). exists (code <$> last l, l). split; [|done].
    eexists (len l), _, _. split_and!; [done|reflexivity| |reflexivity]. exists l. split_and!; try done. apply Forall_and. by split.
Qed.
End descriptors.

(** ** Records *)

Lemma encode_record_nonempty fs bs : encode_record fs = Ok bs -> (1 <= len bs)%N.
Proof.
  intros (_ & _ & _ & ->)%encode_record_Ok. rewrite len_app. pose proof (uvar_nonempty (len fs)). lia.
Qed.

Lemma decode_option_epoch_Ok input p : (len input < U64_LIMIT)%N ->
  decode_option_epoch input = Ok p <-> (forall id, p = Some id -> len id = 32%N) /\ encode_option_epoch p = Ok input.
Proof.
  intros Hl. unfold decode_option_epoch, encode_option_epoch. rewrite bind_Ok, from_scb_Ok.
  setoid_rewrite (schema_read_Ok _ _ _ _ (strict_bind _ _ _ _ strict_uvar32 (fun t => strict_map _ _ (pair t) strict_sized_payload)) Hl).
  split.
  - intros ([t s] & (t' & b1 & b2 & [Ht ->] & (s' & [Hs ->] & [= -> ->]) & ->) & Hout).
    destruct ((t' =? 0) && (len s' =? 0))%N eqn:E0; [|destruct ((t' =? 1) && (len s' =? 32))%N eqn:E1; [|done]].
    + apply Ok_inj in Hout as <-. apply andb_true_iff in E0 as [->%N.eqb_eq Hz%N.eqb_eq]. destruct s'; [|done].
      split; [done|]. by apply encode_union_Ok.
    + apply andb_true_iff in E1 as [->%N.eqb_eq Hz%N.eqb_eq].
      apply bind_Ok in Hout as (a & [_ ->]%array_from_Ok & <-%Ok_inj). split; [by intros ? [= <-]|]. by apply encode_union_Ok.
  - intros [Hp H]. destruct p as [id|]; apply encode_union_Ok in H as [Hs ->].
    + exists (1%N, id). split; [|by cbn; rewrite (Hp id eq_refl); cbn; apply bind_Ok; exists id; rewrite array_from_Ok; auto].
      exists 1%N, (encode_uvar 1), (chunk id). split_and!; try done. by exists id.
    + exists (0%N, []). split; [|done]. exists 0%N, (encode_uvar 0), (chunk []). split_and!; try done. by exists [].
Qed.

(** What a Rust value of each type is *)
Definition contract_ok (d : ContractDescriptor) : Prop :=
  is_u32 (cd_contract_tag d) /\ is_u32 (cd_digest_domain_tag d) /\ is_u32 (cd_kind_tag d) /\
  len (cd_field_schema_hash d) = 32%N /\ Forall is_u32 (cd_required_fields d) /\ Forall is_u32 (cd_optional_fields d) /\
  Forall is_u32 (cd_variant_tags d) /\ len (cd_decoder_limits_hash d) = 32%N.

Definition extension_ok (x : ExtensionDescriptor) : Prop :=
  len (xd_namespace_id x) = NAMESPACE_LEN /\ is_u32 (xd_type_tag x) /\ is_u32 (xd_version x) /\ len (xd_payload_schema_hash x) = 32%N.

Definition migration_ok (m : MigrationContractDescriptor) : Prop :=
  len (md_predecessor_epoch m) = 32%N /\ len (md_contract_id m) = 32%N /\ len (md_verifier_id m) = 32%N /\ len (md_scope_hash m) = 32%N.

Ltac open_record :=
  repeat match goal with H : exists _, _ |- _ => destruct H | H : _ /\ _ |- _ => destruct H end; subst.

(** The fields a chain of reads takes *)
Ltac takes_chain :=
  repeat (eapply takes_bind; [eapply takes_field|intros ?; cbv beta]); apply takes_ret.

(** From that relation to the fields as a list, and back *)
Ltac takes_flat :=
  eapply takes_iff; [takes_chain|]; intros x fs; split;
  [ intros H; open_record; cbn [app]; destruct x;
    repeat (refine (ex_intro _ _ (ex_intro _ [_] (ex_intro _ _ (conj (ex_intro _ _ (conj _ eq_refl)) (conj _ eq_refl)))));
            [eassumption|]); split; reflexivity
  | intros H; open_record; cbn [app];
    repeat eexists; eassumption ].

Lemma takes_unicode :
  Takes unicode_fields (fun v fs => exists v1 v2 v3, u32_of v1 = Ok (uv_major v) /\ u32_of v2 = Ok (uv_minor v) /\
    u32_of v3 = Ok (uv_patch v) /\ fs = [(1, v1); (2, v2); (3, v3)]%N).
Proof. unfold unicode_fields. takes_flat. Qed.

Lemma takes_limits :
  Takes limits_fields (fun l fs => exists v1 v2 v3 v4 v5 v6 v7, u64_of v1 = Ok (el_standalone_stored_bytes l) /\
    u64_of v2 = Ok (el_payload_bytes l) /\ u64_of v3 = Ok (el_nesting_depth l) /\ u64_of v4 = Ok (el_fields_per_record l) /\
    u64_of v5 = Ok (el_collection_elements l) /\ u64_of v6 = Ok (el_decoded_standalone_values_per_request l) /\
    u64_of v7 = Ok (el_decoder_allocation_per_standalone_value l) /\
    fs = [(1, v1); (2, v2); (3, v3); (4, v4); (5, v5); (6, v6); (7, v7)]%N).
Proof. unfold limits_fields. takes_flat. Qed.

Lemma takes_contract :
  Takes contract_fields (fun d fs => exists v1 v2 v3 v4 v5 v6 v7 v8, u32_of v1 = Ok (cd_contract_tag d) /\
    u32_of v2 = Ok (cd_digest_domain_tag d) /\ u32_of v3 = Ok (cd_kind_tag d) /\ array_from 32 v4 = Ok (cd_field_schema_hash d) /\
    decode_u32_set v5 = Ok (cd_required_fields d) /\ decode_u32_set v6 = Ok (cd_optional_fields d) /\
    decode_u32_set v7 = Ok (cd_variant_tags d) /\ array_from 32 v8 = Ok (cd_decoder_limits_hash d) /\
    fs = [(1, v1); (2, v2); (3, v3); (4, v4); (5, v5); (6, v6); (7, v7); (8, v8)]%N).
Proof. unfold contract_fields. takes_flat. Qed.

Lemma takes_extension :
  Takes extension_fields (fun x fs => exists v1 v2 v3 v4, array_from NAMESPACE_LEN v1 = Ok (xd_namespace_id x) /\
    u32_of v2 = Ok (xd_type_tag x) /\ u32_of v3 = Ok (xd_version x) /\ array_from 32 v4 = Ok (xd_payload_schema_hash x) /\
    fs = [(1, v1); (2, v2); (3, v3); (4, v4)]%N).
Proof. unfold extension_fields. takes_flat. Qed.

Lemma takes_migration :
  Takes migration_fields (fun m fs => exists v1 v2 v3 v4, array_from 32 v1 = Ok (md_predecessor_epoch m) /\
    array_from 32 v2 = Ok (md_contract_id m) /\ array_from 32 v3 = Ok (md_verifier_id m) /\ array_from 32 v4 = Ok (md_scope_hash m) /\
    fs = [(1, v1); (2, v2); (3, v3); (4, v4)]%N).
Proof. unfold migration_fields. takes_flat. Qed.

Lemma takes_epoch_record :
  Takes epoch_record_fields (fun r fs => exists v1 v2 v3 v4 v5 v6 v7 v8 v9, u32_of v1 = Ok (er_epoch_number r) /\
    u32_of v2 = Ok (er_scb_format_version r) /\ u32_of v3 = Ok (er_hash_algorithm_tag r) /\
    decode_unicode v4 = Ok (er_unicode_nfc_version r) /\ decode_limits v5 = Ok (er_limits r) /\
    decode_descriptor_set decode_contract v6 = Ok (er_contracts r) /\
    decode_descriptor_set decode_extension v7 = Ok (er_extensions r) /\ decode_option_epoch v8 = Ok (er_predecessor r) /\
    decode_descriptor_set decode_migration v9 = Ok (er_migration_contracts r) /\
    fs = [(1, v1); (2, v2); (3, v3); (4, v4); (5, v5); (6, v6); (7, v7); (8, v8); (9, v9)]%N).
Proof. unfold epoch_record_fields. takes_flat. Qed.

(** A record is the encoding of the fields that are taken; those are small, so
    their decoders can be inverted. *)
Ltac record_fields H tags Hl :=
  rewrite (schema_record_Ok _ _ tags _ _ H);
  [|intros ? ? ?; open_record; reflexivity|reflexivity|repeat constructor|exact Hl].

(** Smallness of each field *)
Ltac fields_small He :=
  let Hs := fresh "Hs" in pose proof (encode_record_small _ _ He) as Hs; rewrite !Forall_cons in Hs; cbn [snd] in Hs;
  decompose [and] Hs; clear Hs;
  repeat match goal with H : small _ |- _ => apply small_limit in H end.

Lemma unicode_fields_Ok input v : (len input < U64_LIMIT)%N ->
  schema_record unicode_fields input = Ok v <->
  (is_u32 (uv_major v) /\ is_u32 (uv_minor v) /\ is_u32 (uv_patch v)) /\ UnicodeVersion_encode v = Ok input.
Proof.
  intros Hl. record_fields takes_unicode [1; 2; 3]%N Hl. unfold UnicodeVersion_encode. rewrite from_scb_Ok. split.
  - intros (fs & (v1 & v2 & v3 & H1 & H2 & H3 & ->) & He). fields_small He.
    rewrite u32_of_Ok in H1, H2, H3 by done. by destruct H1 as [? ->], H2 as [? ->], H3 as [? ->].
  - intros ((H1 & H2 & H3) & He). eexists. split; [|exact He]. fields_small He.
    do 3 eexists. split_and!; [apply u32_of_Ok; [|split; [|reflexivity]]..|reflexivity]; assumption.
Qed.

Lemma limits_fields_Ok input l : (len input < U64_LIMIT)%N ->
  schema_record limits_fields input = Ok l <->
  (is_u64 (el_standalone_stored_bytes l) /\ is_u64 (el_payload_bytes l) /\ is_u64 (el_nesting_depth l) /\
   is_u64 (el_fields_per_record l) /\ is_u64 (el_collection_elements l) /\ is_u64 (el_decoded_standalone_values_per_request l) /\
   is_u64 (el_decoder_allocation_per_standalone_value l)) /\ EpochLimits_encode l = Ok input.
Proof.
  intros Hl. record_fields takes_limits [1; 2; 3; 4; 5; 6; 7]%N Hl. unfold EpochLimits_encode. rewrite from_scb_Ok. split.
  - intros (fs & (v1 & v2 & v3 & v4 & v5 & v6 & v7 & H1 & H2 & H3 & H4 & H5 & H6 & H7 & ->) & He). fields_small He.
    rewrite u64_of_Ok in H1, H2, H3, H4, H5, H6, H7 by done.
    by destruct H1 as [? ->], H2 as [? ->], H3 as [? ->], H4 as [? ->], H5 as [? ->], H6 as [? ->], H7 as [? ->].
  - intros ((H1 & H2 & H3 & H4 & H5 & H6 & H7) & He). eexists. split; [|exact He]. fields_small He.
    do 7 eexists. split_and!; [apply u64_of_Ok; [|split; [|reflexivity]]..|reflexivity]; assumption.
Qed.

Lemma checked_Ok {A} (m : sch_result A) (check : A -> sch_result unit) a :
  (out ← m; check out ≫= fun _ => Ok out) = Ok a <-> check a = Ok tt /\ m = Ok a.
Proof.
  rewrite bind_Ok. setoid_rewrite bind_Ok. split; [by intros (o & ? & [] & ? & [= <-])|intros [? ?]; eauto].
Qed.

Lemma decode_unicode_Ok input v : (len input < U64_LIMIT)%N ->
  decode_unicode input = Ok v <-> UnicodeVersion_validate v = Ok tt /\ UnicodeVersion_encode v = Ok input.
Proof.
  intros Hl. unfold decode_unicode. rewrite checked_Ok, unicode_fields_Ok by done. split; [by intros (? & _ & ?)|].
  intros [Hv He]. split; [done|]. split; [|done].
  unfold UnicodeVersion_validate in Hv. apply ensure_Ok, bool_decide_eq_true_1 in Hv as ->. done.
Qed.

Lemma decode_limits_Ok input l : (len input < U64_LIMIT)%N ->
  decode_limits input = Ok l <-> EpochLimits_validate l = Ok tt /\ EpochLimits_encode l = Ok input.
Proof.
  intros Hl. unfold decode_limits. rewrite checked_Ok, limits_fields_Ok by done. split; [by intros (? & _ & ?)|].
  intros [Hv He]. split; [done|]. split; [|done].
  unfold EpochLimits_validate in Hv. apply ensure_Ok, bool_decide_eq_true_1 in Hv as ->. done.
Qed.

Lemma decode_contract_Ok input d : (len input < U64_LIMIT)%N ->
  decode_contract input = Ok d <-> contract_ok d /\ ContractDescriptor_encode d = Ok input.
Proof.
  intros Hl. unfold decode_contract, ContractDescriptor_encode. rewrite checked_Ok, bind_Ok.
  record_fields takes_contract [1; 2; 3; 4; 5; 6; 7; 8]%N Hl. unfold contract_ok. split.
  - intros (Hv & fs & (v1 & v2 & v3 & v4 & v5 & v6 & v7 & v8 & H1 & H2 & H3 & H4 & H5 & H6 & H7 & H8 & ->) & He). fields_small He.
    rewrite u32_of_Ok in H1, H2, H3 by done. rewrite decode_u32_set_Ok in H5, H6, H7 by done. rewrite array_from_Ok in H4, H8.
    destruct H1 as [? ->], H2 as [? ->], H3 as [? ->], H4 as [? ->], H5 as [? H5], H6 as [? H6], H7 as [? H7], H8 as [? ->].
    split; [done|]. exists tt. split; [done|]. rewrite H5, H6, H7. by apply from_scb_Ok.
  - intros ((H1 & H2 & H3 & H4 & H5 & H6 & H7 & H8) & [] & Hv & (r & Hr & (o & Ho & (w & Hw & He%from_scb_Ok)%bind_Ok)%bind_Ok)%bind_Ok).
    split; [done|]. eexists. split; [|exact He]. fields_small He.
    exists (encode_uvar (cd_contract_tag d)), (encode_uvar (cd_digest_domain_tag d)), (encode_uvar (cd_kind_tag d)),
      (cd_field_schema_hash d), r, o, w, (cd_decoder_limits_hash d).
    rewrite !array_from_Ok. split_and!; try assumption; try reflexivity; (apply u32_of_Ok || apply decode_u32_set_Ok); try split; solve [assumption|reflexivity].
Qed.

Lemma decode_extension_Ok input x : (len input < U64_LIMIT)%N ->
  decode_extension input = Ok x <-> extension_ok x /\ ExtensionDescriptor_encode x = Ok input.
Proof.
  intros Hl. unfold decode_extension, ExtensionDescriptor_encode, extension_ok. record_fields takes_extension [1; 2; 3; 4]%N Hl.
  rewrite from_scb_Ok. split.
  - intros (fs & (v1 & v2 & v3 & v4 & H1 & H2 & H3 & H4 & ->) & He). fields_small He.
    rewrite u32_of_Ok in H2, H3 by done. rewrite array_from_Ok in H1, H4. by destruct H1 as [? ->], H2 as [? ->], H3 as [? ->], H4 as [? ->].
  - intros ((H1 & H2 & H3 & H4) & He). eexists. split; [|exact He]. fields_small He.
    exists (xd_namespace_id x), (encode_uvar (xd_type_tag x)), (encode_uvar (xd_version x)), (xd_payload_schema_hash x).
    rewrite !array_from_Ok. split_and!; try assumption; try reflexivity; apply u32_of_Ok; try split; solve [assumption|reflexivity].
Qed.

Lemma decode_migration_Ok input m : (len input < U64_LIMIT)%N ->
  decode_migration input = Ok m <-> migration_ok m /\ MigrationContractDescriptor_encode m = Ok input.
Proof.
  intros Hl. unfold decode_migration, MigrationContractDescriptor_encode, migration_ok. record_fields takes_migration [1; 2; 3; 4]%N Hl.
  rewrite from_scb_Ok. split.
  - intros (fs & (v1 & v2 & v3 & v4 & H1 & H2 & H3 & H4 & ->) & He).
    rewrite array_from_Ok in H1, H2, H3, H4. by destruct H1 as [? ->], H2 as [? ->], H3 as [? ->], H4 as [? ->].
  - intros ((H1 & H2 & H3 & H4) & He). eexists. split; [|exact He].
    do 4 eexists. rewrite !array_from_Ok. split_and!; try reflexivity; done.
Qed.

(** *** Epoch records *)

Definition epoch_record_ok (r : SchemaEpochRecordV1) : Prop :=
  is_u32 (er_epoch_number r) /\ is_u32 (er_scb_format_version r) /\ is_u32 (er_hash_algorithm_tag r) /\
  Forall contract_ok (er_contracts r) /\ Forall extension_ok (er_extensions r) /\
  (forall id, er_predecessor r = Some id -> len id = 32%N) /\ Forall migration_ok (er_migration_contracts r).

Lemma validate_closed r u :
  SchemaEpochRecordV1_validate r = Ok u ->
  UnicodeVersion_validate (er_unicode_nfc_version r) = Ok tt /\ EpochLimits_validate (er_limits r) = Ok tt.
Proof.
  unfold SchemaEpochRecordV1_validate. intros (_ & _ & ([] & Hu & ([] & Hl & _)%bind_Ok)%bind_Ok)%bind_Ok. done.
Qed.

Lemma contract_nonempty d bs : ContractDescriptor_encode d = Ok bs -> (1 <= len bs)%N.
Proof.
  unfold ContractDescriptor_encode.
  intros (_ & _ & (? & _ & (? & _ & (? & _ & H%from_scb_Ok)%bind_Ok)%bind_Ok)%bind_Ok)%bind_Ok. by eapply encode_record_nonempty.
Qed.

Lemma extension_nonempty x bs : ExtensionDescriptor_encode x = Ok bs -> (1 <= len bs)%N.
Proof. intros H%from_scb_Ok. by eapply encode_record_nonempty. Qed.

Lemma migration_nonempty m bs : MigrationContractDescriptor_encode m = Ok bs -> (1 <= len bs)%N.
Proof. intros H%from_scb_Ok. by eapply encode_record_nonempty. Qed.

Definition contracts_Ok := decode_descriptor_set_Ok contract_ok _ _ (fun bs x => decode_contract_Ok bs x) contract_nonempty.
Definition extensions_Ok := decode_descriptor_set_Ok extension_ok _ _ (fun bs x => decode_extension_Ok bs x) extension_nonempty.
Definition migrations_Ok := decode_descriptor_set_Ok migration_ok _ _ (fun bs x => decode_migration_Ok bs x) migration_nonempty.

Lemma decode_epoch_record_Ok input r : (len input < U64_LIMIT)%N ->
  decode_epoch_record input = Ok r <-> epoch_record_ok r /\ canonical_bytes r = Ok input.
Proof.
  intros Hl. unfold decode_epoch_record, canonical_bytes. rewrite checked_Ok, bind_Ok.
  record_fields takes_epoch_record [1; 2; 3; 4; 5; 6; 7; 8; 9]%N Hl. unfold epoch_record_ok. split.
  - intros (Hv & fs & (v1 & v2 & v3 & v4 & v5 & v6 & v7 & v8 & v9 & H1 & H2 & H3 & H4 & H5 & H6 & H7 & H8 & H9 & ->) & He).
    fields_small He. rewrite u32_of_Ok in H1, H2, H3 by assumption. rewrite decode_unicode_Ok in H4 by assumption.
    rewrite decode_limits_Ok in H5 by assumption. rewrite contracts_Ok in H6 by assumption. rewrite extensions_Ok in H7 by assumption.
    rewrite decode_option_epoch_Ok in H8 by assumption. rewrite migrations_Ok in H9 by assumption.
    destruct H1 as [? ->], H2 as [? ->], H3 as [? ->], H4 as [_ H4], H5 as [_ H5], H6 as [? H6], H7 as [? H7], H8 as [? H8], H9 as [? H9].
    split; [by split_and!|]. exists tt. split; [done|]. rewrite H4, H5, H6, H7, H8, H9. by apply from_scb_Ok.
  - intros ((H1 & H2 & H3 & H6 & H7 & H8 & H9) & [] & Hv & (v4 & E4 & (v5 & E5 & (v6 & E6 & (v7 & E7 & (v8 & E8 & (v9 & E9 &
      He%from_scb_Ok)%bind_Ok)%bind_Ok)%bind_Ok)%bind_Ok)%bind_Ok)%bind_Ok).
    destruct (validate_closed _ _ Hv) as [Hu Hlim].
    split; [done|]. eexists. split; [|exact He]. fields_small He.
    exists (encode_uvar (er_epoch_number r)), (encode_uvar (er_scb_format_version r)), (encode_uvar (er_hash_algorithm_tag r)), v4, v5, v6, v7, v8, v9.
    split_and!; try reflexivity; try (apply u32_of_Ok; [|split; [|reflexivity]]; assumption).
    + by apply decode_unicode_Ok.
    + by apply decode_limits_Ok.
    + by apply contracts_Ok.
    + by apply extensions_Ok.
    + by apply decode_option_epoch_Ok.
    + by apply migrations_Ok.
Qed.

(** ** Bootstrap preimages *)

Lemma strict_read_bootstrap :
  Strict read_bootstrap (fun s bs => small s /\ bs = BOOTSTRAP_MAGIC ++ encode_uvar BOOTSTRAP_VERSION ++ chunk s).
Proof.
  unfold read_bootstrap. refine (strict_iff _ _ _ _ (strict_bind _ _ _ _ (strict_take_exact (len BOOTSTRAP_MAGIC)) (fun m => strict_guard _ _ _ _
    (strict_bind _ _ _ _ (strict_read_uvar_width 64) (fun v => strict_guard _ _ _ _ strict_sized_payload))))).
  unfold uvar_enc. change (uvar_groups 10) with encode_uvar. intros s bs. split.
  - intros (m & b1 & b2 & (-> & _) & (Hm & v & b3 & b4 & (_ & _ & ->) & (Hv & Hs & ->) & ->) & ->).
    apply negb_false_iff, bool_decide_eq_true_1 in Hm as ->. apply negb_false_iff, N.eqb_eq in Hv as ->. done.
  - intros [Hs ->]. exists BOOTSTRAP_MAGIC, BOOTSTRAP_MAGIC, (encode_uvar BOOTSTRAP_VERSION ++ chunk s). split_and!; try done.
    exists BOOTSTRAP_VERSION, (encode_uvar BOOTSTRAP_VERSION), (chunk s). split_and!; try done. by left.
Qed.

Lemma bootstrap_preimage_Ok canonical input :
  bootstrap_preimage canonical = Ok input <->
  small canonical /\ input = BOOTSTRAP_MAGIC ++ encode_uvar BOOTSTRAP_VERSION ++ chunk canonical.
Proof.
  unfold bootstrap_preimage, chunk, small. rewrite bind_Ok. setoid_rewrite ensure_Ok. rewrite <- N.leb_le.
  split; [by intros (_ & ? & <-%Ok_inj)|intros [? ->]; by exists tt].
Qed.

(** ** The registry *)

Section registry.
Context (blake3 : bytes -> bytes) {D : Type} `{EpochDecoder D}.

(** What an entry of a registry is: a valid record under its own identity,
    with a decoder bound to it. *)
Definition entry_ok (e : RegistryEntry D) : Prop :=
  schema_epoch_id blake3 (re_record e) = Ok (re_epoch_id e) /\ decoder_epoch_id (re_decoder e) = re_epoch_id e.

Lemma check_entry_Ok e u : check_entry blake3 e = Ok u <-> entry_ok e.
Proof using Type.
  unfold check_entry, entry_ok. destruct u. rewrite bind_Ok. split.
  - intros (id & Hid & H'). destruct (bool_decide_reflect (id = re_epoch_id e)) as [->|]; [|done].
    by destruct (bool_decide_reflect (decoder_epoch_id (re_decoder e) = re_epoch_id e)).
  - intros [Hid Hd]. exists (re_epoch_id e). split; [done|]. by rewrite !bool_decide_true.
Qed.

Lemma Registry_new_Ok entries registry :
  Registry_new blake3 entries = Ok registry <->
  registry = entries /\ ascending re_epoch_id bytes_cmp entries /\ Forall entry_ok entries.
Proof using Type.
  unfold Registry_new. rewrite bind_Ok. setoid_rewrite bind_Ok. setoid_rewrite ensure_Ok. setoid_rewrite for_each_Ok.
  setoid_rewrite negb_true_iff. setoid_rewrite any_adjacent_sorted; [| |intros x y; apply bytes_ge_false].
  2: { intros x y z. apply bytes_total_compare. }
  split.
  - intros (_ & Ha & _ & HF & <-%Ok_inj). split_and!; try done. eapply Forall_impl; [exact HF|]. intros e. apply check_entry_Ok.
  - intros (-> & Ha & HF). exists tt. split; [done|]. exists tt. split; [|done]. eapply Forall_impl; [exact HF|]. intros e. apply check_entry_Ok.
Qed.

Context (registry : SchemaEpochRegistry D) (Hreg : ascending re_epoch_id bytes_cmp registry).

Lemma registry_unique e1 e2 : e1 ∈ registry -> e2 ∈ registry -> re_epoch_id e1 = re_epoch_id e2 -> e1 = e2.
Proof using Hreg.
  intros H1 H2 E. pose proof (lt_key_NoDup re_epoch_id bytes_cmp bytes_total_compare registry Hreg) as Hnd.
  apply list_elem_of_lookup in H1 as [i Hi], H2 as [j Hj].
  assert (i = j) as <-; [|congruence]. eapply (NoDup_lookup _ _ _ (re_epoch_id e1) Hnd); rewrite list_lookup_fmap;
    [by rewrite Hi|by rewrite Hj, E].
Qed.

Lemma Registry_lookup_Ok epoch_id e : Registry_lookup registry epoch_id = Ok e <-> e ∈ registry /\ re_epoch_id e = epoch_id.
Proof using Hreg.
  unfold Registry_lookup. rewrite ok_or_Ok. split.
  - intros [? Hid%bool_decide_eq_true_1]%find_first_Some. done.
  - intros [Hin Hid]. destruct (find_first _ _) as [e'|] eqn:E.
    + apply find_first_Some in E as [Hin' Hid'%bool_decide_eq_true_1]. f_equal. apply registry_unique; congruence.
    + pose proof (proj1 (find_first_None _ _) E e Hin) as H'. cbv beta in H'. by rewrite bool_decide_true in H'.
Qed.
End registry.

(** ** Migrations *)

Lemma if_Err_Ok {E A} (b : bool) (e : E) (m : result E A) a : (if b then Err e else m) = Ok a <-> b = false /\ m = Ok a.
Proof. destruct b; [|tauto]. split; [done|by intros [? _]]. Qed.

Lemma migration_descriptor_Ok r plan :
  (exists d, migration_descriptor r plan = Some d) <->
  exists d, d ∈ er_migration_contracts r /\ d = {| md_predecessor_epoch := mp_old_epoch plan;
    md_contract_id := mp_contract_id plan; md_verifier_id := mp_verifier_id plan; md_scope_hash := mp_scope_hash plan |}.
Proof.
  unfold migration_descriptor. split.
  - intros (d & [Hin Hm]%find_first_Some). exists d. split; [done|]. unfold matches_plan in Hm.
    rewrite !andb_true_iff, !bool_decide_eq_true in Hm. destruct d, Hm as (((? & ?) & ?) & ?). cbn in *. congruence.
  - intros (d & Hin & Hd). destruct (find_first _ _) as [d'|] eqn:E; [by exists d'|].
    pose proof (proj1 (find_first_None _ _) E d Hin) as Hm. subst d. unfold matches_plan in Hm. cbn in Hm.
    by rewrite !bool_decide_true in Hm.
Qed.

Section migrations.
Context {D : Type} `{EpochDecoder D} (registry : SchemaEpochRegistry D) (Hreg : ascending re_epoch_id bytes_cmp registry).

Lemma validate_migration_draft_Ok plan draft approved slot :
  validate_migration_draft registry plan draft approved slot = Ok tt <->
  slot = SlotEmpty /\ mt_old_root draft <> mt_new_root draft /\
  mp_old_epoch plan <> mp_new_epoch plan /\
  mt_old_epoch draft = mp_old_epoch plan /\ mt_new_epoch draft = mp_new_epoch plan /\ mt_plan_id draft = approved /\
  exists old_entry new_entry, (old_entry ∈ registry /\ re_epoch_id old_entry = mp_old_epoch plan) /\
    (new_entry ∈ registry /\ re_epoch_id new_entry = mp_new_epoch plan) /\
    (er_epoch_number (re_record old_entry) < er_epoch_number (re_record new_entry))%N /\
    er_predecessor (re_record new_entry) = Some (re_epoch_id old_entry) /\
    exists d, migration_descriptor (re_record new_entry) plan = Some d.
Proof using Hreg.
  unfold validate_migration_draft. rewrite !if_Err_Ok, !orb_false_iff, !negb_false_iff, !bool_decide_eq_true, !bool_decide_eq_false, bind_Ok.
  setoid_rewrite bind_Ok. setoid_rewrite if_Err_Ok. setoid_rewrite if_Err_Ok. setoid_rewrite negb_false_iff. setoid_rewrite bool_decide_eq_true.
  setoid_rewrite (Registry_lookup_Ok registry Hreg). setoid_rewrite bind_Ok. setoid_rewrite ok_or_Ok. setoid_rewrite N.leb_gt.
  split.
  - intros ([-> ?] & [? ?] & [? ?] & ? & o & ? & n & ? & ? & ? & d & ? & _). split_and!; try done. exists o, n. split_and!; try done; destruct_and!; eauto.
  - intros (-> & ? & ? & Ho & Hn & ? & o & n & ? & ? & ? & ? & d & ?). rewrite Ho, Hn. split_and!; try done.
    exists o. split; [done|]. exists n. split; [done|]. split; [done|]. split; [done|]. by exists d.
Qed.
End migrations.
#[local] Opaque validate_migration_draft.

(** ** Theorems *)

(** C19: the importer accepts exactly the bootstrap preimages: the magic, the
    version and the canonical bytes of a valid epoch record under their length.
    It returns that record and its identity, and whatever it accepts is encoded
    again to the same bytes.  The sets of numbers of a valid record (required and
    optional fields, variant tags) ascend as numbers, which from 256 on
    is not the order of their encodings that the specification asks of a canonical
    set; the sets of descriptors are in the order of their encodings. *)
Theorem import_bootstrap_preimage_exact blake3 input epoch_id record :
  (len input < U64_LIMIT)%N ->
  import_bootstrap_preimage blake3 input = Ok (epoch_id, record) <->
  epoch_record_ok record /\ schema_epoch_id blake3 record = Ok epoch_id /\
  (canonical ← canonical_bytes record; bootstrap_preimage canonical) = Ok input.
Proof.
  intros Hl. unfold import_bootstrap_preimage, schema_epoch_id. rewrite !bind_Ok.
  setoid_rewrite (schema_read_Ok _ _ _ _ strict_read_bootstrap Hl). split.
  - intros (c & [Hs Hin] & (r & Hr & (c' & Hc & ([] & _ & [= <- ->])%bind_Ok)%bind_Ok)%bind_Ok).
    apply decode_epoch_record_Ok in Hr as [Hok Hcan]; [|by apply small_limit].
    assert (bootstrap_preimage c = Ok input) as Hp by by apply bootstrap_preimage_Ok.
    split; [done|]. split; exists c; (split; [done|]); [|done]. apply bind_Ok. by exists input.
  - intros (Hok & (c & Hc & (p & Hp & <-%Ok_inj)%bind_Ok) & (c' & Hc' & Hp')).
    assert (c' = c) as -> by congruence. assert (p = input) as -> by congruence.
    apply bootstrap_preimage_Ok in Hp as [Hs Hin]. exists c. split; [done|]. apply bind_Ok. exists record.
    split; [apply decode_epoch_record_Ok; [by apply small_limit|done]|]. apply bind_Ok. exists c. split; [done|].
    apply bind_Ok. exists tt. split; [by rewrite bool_decide_true|done].
Qed.

(** A set of numbers that is accepted although the encodings of its elements descend *)
Example numbers_ascend_as_numbers :
  decode_u32_set [x02; x02; xff; x01; x02; x80; x02] = Ok [255; 256]%N /\
  schema_encode_u32_set [255; 256]%N = Ok [x02; x02; xff; x01; x02; x80; x02] /\
  bytes_cmp (encode_uvar 255) (encode_uvar 256) = Gt.
Proof. by vm_compute. Qed.

(** C18: a migration is accepted in a valid registry exactly if its target slot
    is empty and its roots differ, its draft names the plan that was approved
    and the plan's epochs, both epochs are registered, the new one has a greater
    number, names the old one as its predecessor and has the contract of the
    plan, and the verifier is that of the plan and reproduces the evidence. *)
Theorem migration_accepted_exact blake3 {D} `{EpochDecoder D} {V} `{EquivalenceVerifier V} (entries : list (RegistryEntry D))
    registry plan draft (v : MigrationVerification V) :
  Registry_new blake3 entries = Ok registry ->
  validate_and_verify_migration registry plan draft v = Ok tt <->
  mv_target_slot v = SlotEmpty /\ mt_old_root draft <> mt_new_root draft /\
  mt_old_epoch draft = mp_old_epoch plan /\ mt_new_epoch draft = mp_new_epoch plan /\
  mt_plan_id draft = mv_approved_plan_id v /\ verifier_id (mv_verifier v) = mp_verifier_id plan /\
  exists old_entry new_entry descriptor,
    old_entry ∈ entries /\ re_epoch_id old_entry = mp_old_epoch plan /\
    new_entry ∈ entries /\ re_epoch_id new_entry = mp_new_epoch plan /\
    (er_epoch_number (re_record old_entry) < er_epoch_number (re_record new_entry))%N /\
    er_predecessor (re_record new_entry) = Some (mp_old_epoch plan) /\
    descriptor ∈ er_migration_contracts (re_record new_entry) /\
    descriptor = {| md_predecessor_epoch := mp_old_epoch plan; md_contract_id := mp_contract_id plan;
                    md_verifier_id := mp_verifier_id plan; md_scope_hash := mp_scope_hash plan |} /\
    verify (mv_verifier v) plan (re_record old_entry) (re_record new_entry) (mv_old_state v) (mv_new_state v) =
      Some (mt_equivalence_evidence_digest draft).
Proof.
  intros (-> & Ha & _)%Registry_new_Ok. unfold validate_and_verify_migration. rewrite bind_Ok.
  setoid_rewrite if_Err_Ok. setoid_rewrite negb_false_iff. setoid_rewrite bool_decide_eq_true. setoid_rewrite bind_Ok.
  setoid_rewrite (Registry_lookup_Ok entries Ha). split.
  - intros ([] & Hd & Hv & o & [Ho1 Ho2] & (n & [Hn1 Hn2]%(Registry_lookup_Ok entries Ha) & (ev & Hev%ok_or_Ok & [He%negb_false_iff%bool_decide_eq_true_1 _]%if_Err_Ok)%bind_Ok)%bind_Ok).
    apply (validate_migration_draft_Ok entries Ha) in Hd as (? & ? & _ & ? & ? & ? & o' & n' & [? ?] & [? ?] & ? & Hp & Hdesc).
    assert (o' = o) as -> by (apply (registry_unique entries Ha); congruence).
    assert (n' = n) as -> by (apply (registry_unique entries Ha); congruence).
    apply migration_descriptor_Ok in Hdesc as (d & ? & ?). rewrite Ho2 in Hp. split_and!; try done.
    exists o, n, d. rewrite <- He. done.
  - intros (? & ? & ? & ? & ? & Hv & o & n & d & ? & Ho & ? & Hn & Hlt & Hp & ? & ? & Hev). exists tt.
    assert (mp_old_epoch plan <> mp_new_epoch plan) as Hne.
    { intros E. assert (o = n) as -> by (apply (registry_unique entries Ha); congruence). lia. }
    split.
    { apply (validate_migration_draft_Ok entries Ha). split_and!; try done. exists o, n. rewrite Ho.
      split_and!; try done. apply migration_descriptor_Ok. by exists d. }
    split; [done|]. exists o. split; [done|]. apply bind_Ok. exists n. split; [by apply (Registry_lookup_Ok entries Ha)|]. apply bind_Ok. eexists.
    split; [by apply ok_or_Ok|]. apply if_Err_Ok. split; [|done]. by rewrite bool_decide_true.
Qed.

(** ** Two epochs and a migration between them *)

Module Epochs.

(** A function from byte strings to 32 bytes, in the place of BLAKE3 *)
Definition toy (x : bytes) : bytes := be_bytes 32 (be_num x mod (2 ^ 256 - 189)).
Definition ok_or_nil {E} (m : result E bytes) : bytes := match m with Ok bs => bs | Err _ => [] end.

Definition contract : ContractDescriptor := {|
  cd_contract_tag := 7; cd_digest_domain_tag := 3; cd_kind_tag := 9;
  cd_field_schema_hash := replicate 32 x01;
  cd_required_fields := [1; 4]%N; cd_optional_fields := [2; 300]%N; cd_variant_tags := [];
  cd_decoder_limits_hash := replicate 32 x02
|}.

Definition first : SchemaEpochRecordV1 := {|
  er_epoch_number := 1; er_scb_format_version := 1; er_hash_algorithm_tag := 1;
  er_unicode_nfc_version := UnicodeVersion_EPOCH_1; er_limits := EpochLimits_EPOCH_1;
  er_contracts := [contract]; er_extensions := []; er_predecessor := None; er_migration_contracts := []
|}.
Definition first_id : bytes := Eval vm_compute in ok_or_nil (schema_epoch_id toy first).

Definition migration : MigrationContractDescriptor := {|
  md_predecessor_epoch := first_id; md_contract_id := replicate 32 x03;
  md_verifier_id := replicate 32 x04; md_scope_hash := replicate 32 x05
|}.

Definition second : SchemaEpochRecordV1 := {|
  er_epoch_number := 2; er_scb_format_version := 1; er_hash_algorithm_tag := 1;
  er_unicode_nfc_version := UnicodeVersion_EPOCH_1; er_limits := EpochLimits_EPOCH_1;
  er_contracts := [contract];
  er_extensions := [{| xd_namespace_id := replicate 16 x06; xd_type_tag := 1; xd_version := 1; xd_payload_schema_hash := replicate 32 x07 |}];
  er_predecessor := Some first_id; er_migration_contracts := [migration]
|}.
Definition second_id : bytes := Eval vm_compute in ok_or_nil (schema_epoch_id toy second).

(** A decoder is the epoch it is bound to; a verifier is its identifier and
    answers with the old state. *)
#[local] Instance bound_decoder : EpochDecoder bytes := {|
  decoder_epoch_id := id; decoder_decode_contract _ _ _ := Ok tt
|}.
#[local] Instance echo_verifier : EquivalenceVerifier bytes := {|
  verifier_id := id; verify _ _ _ _ old_state _ := Some old_state
|}.

Definition first_entry : RegistryEntry bytes := Build_RegistryEntry first_id first first_id.
Definition second_entry : RegistryEntry bytes := Build_RegistryEntry second_id second second_id.
Definition entries : list (RegistryEntry bytes) := Eval vm_compute in sort_by (fun x y => bytes_cmp (re_epoch_id x) (re_epoch_id y)) [first_entry; second_entry].

Definition plan : MigrationPlan := {|
  mp_old_epoch := first_id; mp_new_epoch := second_id;
  mp_contract_id := replicate 32 x03; mp_verifier_id := replicate 32 x04; mp_scope_hash := replicate 32 x05
|}.
Definition draft : MigrationTransactionDraft := {|
  mt_old_root := replicate 32 x10; mt_new_root := replicate 32 x11; mt_old_epoch := first_id; mt_new_epoch := second_id;
  mt_plan_id := replicate 32 x12; mt_equivalence_evidence_digest := replicate 32 x13
|}.
Definition verification : MigrationVerification bytes := {|
  mv_approved_plan_id := replicate 32 x12; mv_target_slot := SlotEmpty; mv_verifier := replicate 32 x04;
  mv_old_state := replicate 32 x13; mv_new_state := []
|}.

Definition second_preimage : bytes := Eval vm_compute in ok_or_nil (canonical ← canonical_bytes second; bootstrap_preimage canonical).

Theorem import_bootstrap_preimage_exact_witness :
  import_bootstrap_preimage toy second_preimage = Ok (second_id, second) /\
  schema_epoch_id toy second = Ok second_id.
Proof.
  assert (import_bootstrap_preimage toy second_preimage = Ok (second_id, second)) as H by by vm_compute.
  split; [exact H|]. apply (import_bootstrap_preimage_exact toy second_preimage); [by vm_compute|exact H].
Defined.

Theorem migration_accepted_exact_witness :
  validate_and_verify_migration entries plan draft verification = Ok tt /\
  (exists old_entry new_entry, old_entry ∈ entries /\ new_entry ∈ entries /\
    (er_epoch_number (re_record old_entry) < er_epoch_number (re_record new_entry))%N).
Proof.
  assert (validate_and_verify_migration entries plan draft verification = Ok tt) as H by by vm_compute.
  split; [exact H|].
  apply (migration_accepted_exact toy entries) in H as (_ & _ & _ & _ & _ & _ & o & n & _ & ? & _ & ? & _ & ? & _);
    [by exists o, n|by vm_compute].
Defined.
End Epochs.
