(* ===== verification/StateRoot.v ===== *)
(** * State roots (sley-state-root)

    crates/sley-state-root/src/lib.rs: the record a state root commits to, its
    canonical payload and stored bytes, the builder that makes an accepted root
    out of unordered inputs, the import of stored bytes, and the registry of the
    conformance epoch.

    Identifiers are byte strings; [id_order_is_byte_order] says that their order
    is that of the bytes.  The crate's [Reader] is that of sley-scb1. *)

From S2P Require Import Prelude State Bytes Ids Scb1Core Scb1Cursor Scb1Schema Records Schema.
From stdpp Require Import strings.

Definition CONTRACT_TAG : N := 160.
Definition DIGEST_DOMAIN_TAG : N := 4.
Definition KIND_TAG : N := 160.
Definition FIELD_COUNT : N := 9.
Definition FORMAT_VERSION : N := 1.

(** Arrays of bytes as the code lists them *)
Definition array (l : list N) : bytes := n2b <$> l.

Definition FIELD_SCHEMA_HASH : bytes := array [
  0x93; 0x58; 0x3a; 0x07; 0x96; 0xc6; 0xaa; 0x11; 0x4d; 0xe0; 0x85; 0x00; 0x14; 0xb2; 0xe6; 0xce;
  0x70; 0x05; 0x47; 0x9e; 0xb0; 0xe3; 0x0a; 0x5a; 0x68; 0xda; 0x0a; 0x3e; 0xb0; 0x23; 0xee; 0x53]%N.
Definition DECODER_LIMITS_HASH : bytes := array [
  0xc4; 0x83; 0x1b; 0xde; 0x69; 0x13; 0x62; 0x09; 0x94; 0xab; 0x5a; 0x22; 0x6f; 0xc2; 0x86; 0x8e;
  0x62; 0x6e; 0x0d; 0xd0; 0x7b; 0x95; 0x24; 0xbd; 0x3d; 0x72; 0x93; 0xfb; 0xd8; 0xae; 0x06; 0x23]%N.

(** ** Errors *)

Inductive StateRootErrorCode : Type :=
| SrDuplicateInput
| SrEntryUnbound
| SrFlagUnknown
| SrExcludedFact.

Definition StateRootErrorCode_as_str (code : StateRootErrorCode) : string :=
  match code with
  | SrDuplicateInput => "STATE_ROOT_DUPLICATE_INPUT"
  | SrEntryUnbound => "STATE_ROOT_ENTRY_UNBOUND"
  | SrFlagUnknown => "STATE_ROOT_FLAG_UNKNOWN"
  | SrExcludedFact => "STATE_ROOT_EXCLUDED_FACT"
  end.

Inductive StateRootError : Type :=
| SeStateRoot (code : StateRootErrorCode)
| SeSchema (error : SchemaErrorCode)
| SeScb (error : ScbErrorCode).

Definition StateRootError_code_str (e : StateRootError) : string :=
  match e with
  | SeStateRoot code => StateRootErrorCode_as_str code
  | SeSchema error => SchemaErrorCode_as_str error
  | SeScb error => ScbErrorCode_as_str error
  end.

(** [impl From<EpochDecodeError> for StateRootError] *)
Definition from_epoch_decode (e : EpochDecodeError) : StateRootError :=
  match e with
  | EdSchema error => SeSchema error
  | EdScb error => SeScb error
  end.

Abbreviation sr_result := (result StateRootError).

(** ** Records *)

Record StateRootRecord : Type := {
  sr_workspace_id : bytes;
  sr_schema_epoch_id : bytes;
  sr_entity_bindings : list (bytes * bytes);
  sr_entry_points : list bytes;
  sr_dependency_roots : list bytes;
  sr_contract_root : bytes;
  sr_test_root : bytes;
  sr_policy_root : bytes;
  sr_interpretation_flags : list N
}.

Record AcceptedStateRoot : Type := {
  as_root : bytes;
  as_stored_bytes : bytes;
  as_record : StateRootRecord
}.

(** ** The payload *)

Definition encode_u32_set (values : list N) : scb_result bytes := encode_list (encode_uvar <$> values).

(** Identifiers are their bytes: [encode_id_set] is the encoder of lists. *)
Definition encode_id_set (values : list bytes) : scb_result bytes := encode_list values.

Definition encode_payload (record : StateRootRecord) : scb_result bytes :=
  bindings ← encode_map (sr_entity_bindings record);
  entries ← encode_id_set (sr_entry_points record);
  dependencies ← encode_id_set (sr_dependency_roots record);
  flags ← encode_u32_set (sr_interpretation_flags record);
  encode_record [
    (1, sr_workspace_id record);
    (2, sr_schema_epoch_id record);
    (3, bindings);
    (4, entries);
    (5, dependencies);
    (6, sr_contract_root record);
    (7, sr_test_root record);
    (8, sr_policy_root record);
    (9, flags)]%N.

Definition exact_array (input : bytes) : scb_result bytes :=
  guard! (len input =? 32)%N else ScbLengthOverflow; Ok input.

(** One binding: the order of keys is checked before the value is read. *)
Definition binding_element (st : option bytes * list (bytes * bytes)) : RM (option bytes * list (bytes * bytes)) :=
  key ← read_sized_payload;
  key ← rlift (exact_array key);
  rlift (check_ascending st.1 key) ≫= fun _ =>
  value ← read_sized_payload;
  value ← rlift (exact_array value);
  mret (Some key, st.2 ++ [(key, value)]).

Definition decode_bindings (input : bytes) : scb_result (list (bytes * bytes)) :=
  st ← nested_exact (count ← read_count; read_items 34 ScbResourceLimit binding_element (None, []) count) input;
  Ok st.2.

Definition fixed_element (st : option bytes * list bytes) : RM (option bytes * list bytes) :=
  value ← read_sized_payload;
  value ← rlift (exact_array value);
  rlift (check_ascending st.1 value) ≫= fun _ =>
  mret (Some value, st.2 ++ [value]).

Definition decode_fixed_set (input : bytes) : scb_result (list bytes) :=
  st ← nested_exact (count ← read_count; read_items 33 ScbResourceLimit fixed_element (None, []) count) input;
  Ok st.2.

(** A flag on its own: a minimal varint and nothing after it *)
Definition flag_of (element : bytes) : scb_result N :=
  value ← nested_exact (read_uvar_width 32) element;
  guard! (value <? 2 ^ 32)%N else ScbIntegerOverflow;
  Ok value.

(** The order of flags is that of their encodings. *)
Definition flag_element (st : option bytes * list N) : RM (option bytes * list N) :=
  element ← read_sized_payload;
  rlift (check_ascending st.1 element) ≫= fun _ =>
  value ← rlift (flag_of element);
  mret (Some element, st.2 ++ [value]).

Definition decode_u32_set_payload (input : bytes) : scb_result (list N) :=
  st ← nested_exact (count ← read_count; read_items 1 ScbResourceLimit flag_element (None, []) count) input;
  Ok st.2.

(** [RecordReader::new] *)
Definition state_tag_order (previous : option N) (tag : N) : scb_result unit :=
  match previous with
  | Some previous =>
      if (previous =? tag)%N then Err ScbFieldDuplicate
      else if (tag <? previous)%N then Err ScbFieldOrder
      else Ok tt
  | None => Ok tt
  end.
Definition state_record_new (input : bytes) : scb_result Fields := read_record state_tag_order FIELD_COUNT input.

Definition state_required (tag : N) : ST Fields ScbErrorCode bytes := required ScbFieldMissing tag.
Definition required_array (tag : N) : ST Fields ScbErrorCode bytes := v ← state_required tag; lift (exact_array v).

Definition payload_fields : ST Fields ScbErrorCode StateRootRecord :=
  workspace_id ← required_array 1;
  schema_epoch_id ← required_array 2;
  entity_bindings ← (v ← state_required 3; lift (decode_bindings v));
  entry_points ← (v ← state_required 4; lift (decode_fixed_set v));
  dependency_roots ← (v ← state_required 5; lift (decode_fixed_set v));
  contract_root ← required_array 6;
  test_root ← required_array 7;
  policy_root ← required_array 8;
  interpretation_flags ← (v ← state_required 9; lift (decode_u32_set_payload v));
  mret {| sr_workspace_id := workspace_id; sr_schema_epoch_id := schema_epoch_id;
          sr_entity_bindings := entity_bindings; sr_entry_points := entry_points;
          sr_dependency_roots := dependency_roots; sr_contract_root := contract_root;
          sr_test_root := test_root; sr_policy_root := policy_root;
          sr_interpretation_flags := interpretation_flags |}.

(** The bindings of a record are strictly ascending: the binary search finds
    the entity that is bound. *)
Definition is_bound (bindings : list (bytes * bytes)) (entry : bytes) : bool :=
  existsb (fun b => bool_decide (b.1 = entry)) bindings.

Definition validate_record_semantics (record : StateRootRecord) : result StateRootErrorCode unit :=
  if bool_decide (sr_interpretation_flags record = [])
  then for_each (fun entry => if is_bound (sr_entity_bindings record) entry then Ok tt else Err SrEntryUnbound)
         (sr_entry_points record)
  else Err SrFlagUnknown.

Definition decode_payload (input : bytes) (enforce_semantics : bool) : scb_result StateRootRecord :=
  out ← with_record ScbFieldUnknown state_record_new payload_fields input;
  (if enforce_semantics
   then map_err (fun code => match code with
                             | SrEntryUnbound | SrFlagUnknown => ScbFieldUnknown
                             | SrDuplicateInput | SrExcludedFact => ScbFieldDuplicate
                             end) (validate_record_semantics out)
   else Ok tt) ≫= fun _ =>
  Ok out.

(** ** The preserved decoder and the conformance epoch *)

Record StateRootEpoch1Decoder : Type := { sd_epoch_id : bytes }.

#[global] Instance StateRootEpoch1Decoder_impl : EpochDecoder StateRootEpoch1Decoder := {|
  decoder_epoch_id := sd_epoch_id;
  decoder_decode_contract self contract_tag input :=
    if negb (contract_tag =? CONTRACT_TAG)%N then Err ScbContractUnknown
    else
      record ← decode_payload input true;
      if bool_decide (sr_schema_epoch_id record = sd_epoch_id self) then Ok tt else Err ScbEpochMismatch
|}.

Definition expected_descriptor : ContractDescriptor := {|
  cd_contract_tag := CONTRACT_TAG;
  cd_digest_domain_tag := DIGEST_DOMAIN_TAG;
  cd_kind_tag := KIND_TAG;
  cd_field_schema_hash := FIELD_SCHEMA_HASH;
  cd_required_fields := [1; 2; 3; 4; 5; 6; 7; 8; 9]%N;
  cd_optional_fields := [];
  cd_variant_tags := [];
  cd_decoder_limits_hash := DECODER_LIMITS_HASH
|}.

Definition conformance_epoch_record : SchemaEpochRecordV1 := {|
  er_epoch_number := 1;
  er_scb_format_version := 1;
  er_hash_algorithm_tag := 1;
  er_unicode_nfc_version := UnicodeVersion_EPOCH_1;
  er_limits := EpochLimits_EPOCH_1;
  er_contracts := [expected_descriptor];
  er_extensions := [];
  er_predecessor := None;
  er_migration_contracts := []
|}.

Abbreviation Registry := (SchemaEpochRegistry StateRootEpoch1Decoder).

Section authorize.
Variable registry : Registry.

Definition authorize (epoch_id payload : bytes) : sr_result unit :=
  descriptor ← map_err SeSchema (lookup_contract registry epoch_id CONTRACT_TAG);
  if negb (bool_decide (descriptor = expected_descriptor)) then Err (SeSchema SchContractUnknown)
  else map_err from_epoch_decode (registry_decode_contract registry epoch_id CONTRACT_TAG payload).
End authorize.

(** ** The builder *)

Record StateRootBuilder : Type := {
  sb_workspace_id : bytes;
  sb_entity_bindings : list (bytes * bytes);
  sb_entry_points : list bytes;
  sb_dependency_roots : list bytes;
  sb_contract_root : bytes;
  sb_test_root : bytes;
  sb_policy_root : bytes;
  sb_interpretation_flags : list N
}.

Definition StateRootBuilder_new (workspace_id contract_root test_root policy_root : bytes) : StateRootBuilder := {|
  sb_workspace_id := workspace_id;
  sb_entity_bindings := [];
  sb_entry_points := [];
  sb_dependency_roots := [];
  sb_contract_root := contract_root;
  sb_test_root := test_root;
  sb_policy_root := policy_root;
  sb_interpretation_flags := []
|}.

Definition entity_binding (b : StateRootBuilder) (entity_id object_id : bytes) : StateRootBuilder := {|
  sb_workspace_id := sb_workspace_id b;
  sb_entity_bindings := sb_entity_bindings b ++ [(entity_id, object_id)];
  sb_entry_points := sb_entry_points b;
  sb_dependency_roots := sb_dependency_roots b;
  sb_contract_root := sb_contract_root b;
  sb_test_root := sb_test_root b;
  sb_policy_root := sb_policy_root b;
  sb_interpretation_flags := sb_interpretation_flags b
|}.

Definition entry_point (b : StateRootBuilder) (entity_id : bytes) : StateRootBuilder := {|
  sb_workspace_id := sb_workspace_id b;
  sb_entity_bindings := sb_entity_bindings b;
  sb_entry_points := sb_entry_points b ++ [entity_id];
  sb_dependency_roots := sb_dependency_roots b;
  sb_contract_root := sb_contract_root b;
  sb_test_root := sb_test_root b;
  sb_policy_root := sb_policy_root b;
  sb_interpretation_flags := sb_interpretation_flags b
|}.

Definition dependency_root (b : StateRootBuilder) (root : bytes) : StateRootBuilder := {|
  sb_workspace_id := sb_workspace_id b;
  sb_entity_bindings := sb_entity_bindings b;
  sb_entry_points := sb_entry_points b;
  sb_dependency_roots := sb_dependency_roots b ++ [root];
  sb_contract_root := sb_contract_root b;
  sb_test_root := sb_test_root b;
  sb_policy_root := sb_policy_root b;
  sb_interpretation_flags := sb_interpretation_flags b
|}.

Definition interpretation_flag (b : StateRootBuilder) (flag : N) : StateRootBuilder := {|
  sb_workspace_id := sb_workspace_id b;
  sb_entity_bindings := sb_entity_bindings b;
  sb_entry_points := sb_entry_points b;
  sb_dependency_roots := sb_dependency_roots b;
  sb_contract_root := sb_contract_root b;
  sb_test_root := sb_test_root b;
  sb_policy_root := sb_policy_root b;
  sb_interpretation_flags := sb_interpretation_flags b ++ [flag]
|}.

Definition check_builder_count {A} (l : list A) : sr_result unit :=
  ensure (len l <=? MAX_COLLECTION_ELEMENTS)%N (SeScb ScbResourceLimit).

Definition reject_unknown_flags (flags : list N) : sr_result unit :=
  ensure (bool_decide (flags = [])) (SeStateRoot SrFlagUnknown).

Definition sort_bindings (bindings : list (bytes * bytes)) : sr_result (list (bytes * bytes)) :=
  let bindings := sort_by (fun x y => bytes_cmp x.1 y.1) bindings in
  guard! negb (any_adjacent (fun x y => bool_decide (x.1 = y.1)) bindings) else SeStateRoot SrDuplicateInput;
  Ok bindings.

Section sort_unique.
Context {T : Type} `{EqDecision T} (cmp : T -> T -> comparison).
Definition sort_unique (values : list T) : sr_result (list T) :=
  let values := sort_by cmp values in
  guard! negb (any_adjacent (fun x y => bool_decide (x = y)) values) else SeStateRoot SrDuplicateInput;
  Ok values.
End sort_unique.

(** ** Stored bytes *)

(** What the digest of a root covers *)
Definition root_preimage (epoch_id payload : bytes) : bytes :=
  MAGIC ++ encode_uvar FORMAT_VERSION ++ encode_uvar CONTRACT_TAG ++ epoch_id ++ encode_uvar (len payload) ++ payload.

(** The reads of [decode_envelope] *)
Definition read_root_envelope : RM (bytes * bytes * bytes) :=
  magic ← take_exact (len MAGIC);
  if negb (bool_decide (magic = MAGIC)) then rfail ScbMagicInvalid
  else
    version ← read_uvar_width 64;
    if negb (version =? FORMAT_VERSION)%N then rfail ScbVersionUnsupported
    else
      tag ← read_uvar_width 32;
      if negb (tag =? CONTRACT_TAG)%N then rfail ScbContractUnknown
      else
        epoch_id ← take_exact 32;
        payload ← (payload_len ← read_len MAX_STANDALONE_BYTES; take_exact payload_len);
        digest ← take_exact 32;
        mret (epoch_id, payload, digest).

Section state_root.
Variable blake3 : bytes -> bytes.

Definition conformance_epoch_id : sch_result bytes := schema_epoch_id blake3 conformance_epoch_record.

Definition conformance_registry : sch_result Registry :=
  epoch_id ← schema_epoch_id blake3 conformance_epoch_record;
  entry ← RegistryEntry_new blake3 epoch_id conformance_epoch_record {| sd_epoch_id := epoch_id |};
  Registry_new blake3 [entry].

Definition stored_bytes (epoch_id payload : bytes) : sr_result (bytes * bytes) :=
  let preimage := root_preimage epoch_id payload in
  let root := state_root_derive blake3 preimage in
  let preimage := preimage ++ root in
  guard! (len preimage <=? MAX_STANDALONE_BYTES)%N else SeScb ScbResourceLimit;
  Ok (preimage, root).

Definition recompute_root (record : StateRootRecord) : sr_result bytes :=
  payload ← map_err SeScb (encode_payload record);
  '(_, root) ← stored_bytes (sr_schema_epoch_id record) payload;
  Ok root.

Definition decode_envelope (input : bytes) : sr_result (bytes * bytes * bytes) :=
  guard! (len input <=? MAX_STANDALONE_BYTES)%N else SeScb ScbResourceLimit;
  '(epoch_id, payload, digest) ← map_err SeScb (nested_exact read_root_envelope input);
  let root := state_root_derive blake3 (take (N.to_nat (len input - 32)) input) in
  guard! bool_decide (digest = root) else SeScb ScbDigestMismatch;
  Ok (epoch_id, payload, root).

Definition import_state_root (registry : Registry) (input : bytes) : sr_result AcceptedStateRoot :=
  '(epoch_id, payload, root) ← decode_envelope input;
  record ← map_err SeScb (decode_payload payload false);
  if negb (bool_decide (sr_schema_epoch_id record = epoch_id)) then Err (SeScb ScbEpochMismatch)
  else
    map_err SeStateRoot (validate_record_semantics record) ≫= fun _ =>
    authorize registry epoch_id payload ≫= fun _ =>
    Ok {| as_root := root; as_stored_bytes := input; as_record := record |}.

Definition build (b : StateRootBuilder) (registry : Registry) : sr_result AcceptedStateRoot :=
  check_builder_count (sb_entity_bindings b) ≫= fun _ =>
  check_builder_count (sb_entry_points b) ≫= fun _ =>
  check_builder_count (sb_dependency_roots b) ≫= fun _ =>
  check_builder_count (sb_interpretation_flags b) ≫= fun _ =>
  reject_unknown_flags (sb_interpretation_flags b) ≫= fun _ =>
  entity_bindings ← sort_bindings (sb_entity_bindings b);
  entry_points ← sort_unique bytes_cmp (sb_entry_points b);
  dependency_roots ← sort_unique bytes_cmp (sb_dependency_roots b);
  interpretation_flags ← sort_unique N.compare (sb_interpretation_flags b);
  for_each (fun entry => if is_bound entity_bindings entry then Ok tt else Err (SeStateRoot SrEntryUnbound)) entry_points ≫= fun _ =>
  epoch_id ← map_err SeSchema conformance_epoch_id;
  let record := {|
    sr_workspace_id := sb_workspace_id b;
    sr_schema_epoch_id := epoch_id;
    sr_entity_bindings := entity_bindings;
    sr_entry_points := entry_points;
    sr_dependency_roots := dependency_roots;
    sr_contract_root := sb_contract_root b;
    sr_test_root := sb_test_root b;
    sr_policy_root := sb_policy_root b;
    sr_interpretation_flags := interpretation_flags |} in
  payload ← map_err SeScb (encode_payload record);
  authorize registry epoch_id payload ≫= fun _ =>
  '(stored, root) ← stored_bytes epoch_id payload;
  Ok {| as_root := root; as_stored_bytes := stored; as_record := record |}.
End state_root.
