(* ===== verification/StateRootExact.v ===== *)
(** * The codec of state roots

    The decoder of [StateRoot] accepts exactly the payloads its encoder writes
    for canonical records; the import accepts exactly the stored bytes of valid
    records of a registered epoch; the builder makes such bytes. *)

From S2P Require Import Prelude State Bytes Ids Scb1Core Scb1Cursor Scb1Schema Records Schema SchemaExact StateRoot.

Opaque encode_uvar.

(** ** What canonical fields are *)

Definition id_ok (id : bytes) : Prop := len id = 32%N.

Definition bindings_ok (bindings : list (bytes * bytes)) : Prop :=
  Forall (fun b => id_ok b.1 /\ id_ok b.2) bindings /\ ascending fst bytes_cmp bindings.
Definition ids_ok (ids : list bytes) : Prop := Forall id_ok ids /\ ascending id bytes_cmp ids.
Definition flags_ok (flags : list N) : Prop := Forall is_u32 flags /\ ascending encode_uvar bytes_cmp flags.

Definition payload_ok (r : StateRootRecord) : Prop :=
  id_ok (sr_workspace_id r) /\ id_ok (sr_schema_epoch_id r) /\ bindings_ok (sr_entity_bindings r) /\
  ids_ok (sr_entry_points r) /\ ids_ok (sr_dependency_roots r) /\ id_ok (sr_contract_root r) /\
  id_ok (sr_test_root r) /\ id_ok (sr_policy_root r) /\ flags_ok (sr_interpretation_flags r).

(** ** Elements *)

Lemma exact_array_Ok input a : exact_array input = Ok a <-> id_ok input /\ a = input.
Proof.
  unfold exact_array, id_ok. rewrite bind_Ok. setoid_rewrite ensure_Ok. setoid_rewrite N.eqb_eq.
  split; [by intros (_ & ? & [= ->])|intros [? ->]; by exists tt].
Qed.

Lemma id_small bs : id_ok bs -> small bs.
Proof. unfold id_ok, small, MAX_STANDALONE_BYTES. lia. Qed.

(** Rewriting the reads of an element: a sized value, then checks of it *)
Lemma strict_binding_element st :
  Strict (binding_element st) (fun st' bs => exists b, above bytes_cmp st.1 b.1 /\ (id_ok b.1 /\ id_ok b.2) /\
    st' = (Some b.1, st.2 ++ [b]) /\ bs = entry_enc b).
Proof.
  unfold binding_element. refine (strict_iff _ _ _ _ (strict_bind _ _ _ _ strict_sized_payload (fun k =>
    strict_rlift_bind _ _ _ (fun k' => strict_rlift_bind _ _ _ (fun _ => strict_bind _ _ _ _ strict_sized_payload (fun v =>
    strict_rlift_bind _ _ _ (fun v' => strict_ret (Some k', st.2 ++ [(k', v')])))))))).
  setoid_rewrite exact_array_Ok. intros st' bs. unfold entry_enc. split.
  - intros (k & b1 & b2 & [_ ->] & (k' & [Hk ->] & u & Ho & v & b3 & b4 & [_ ->] & (v' & [Hv ->] & -> & ->) & ->) & ->).
    exists (k, v). cbn [fst snd]. rewrite app_nil_r. split_and!; try done. by apply check_ascending_Ok in Ho.
  - intros ([k v] & Ha & [Hk Hv] & -> & ->). cbn [fst snd] in *. exists k, (chunk k), (chunk v). split_and!; try done; [by apply id_small|].
    exists k. split; [done|]. exists tt. split; [by apply check_ascending_Ok|]. exists v, (chunk v), []. rewrite app_nil_r.
    split_and!; try done; [by apply id_small|]. by exists v.
Qed.

Lemma strict_fixed_element st :
  Strict (fixed_element st) (fun st' bs => exists x, above bytes_cmp st.1 x /\ id_ok x /\
    st' = (Some x, st.2 ++ [x]) /\ bs = chunk x).
Proof.
  unfold fixed_element. refine (strict_iff _ _ _ _ (strict_bind _ _ _ _ strict_sized_payload (fun k =>
    strict_rlift_bind _ _ _ (fun k' => strict_rlift_bind _ _ _ (fun _ => strict_ret (Some k', st.2 ++ [k'])))))).
  setoid_rewrite exact_array_Ok. intros st' bs. split.
  - intros (k & b1 & b2 & [_ ->] & (k' & [Hk ->] & u & Ho & -> & ->) & ->).
    exists k. rewrite app_nil_r. split_and!; try done. by apply check_ascending_Ok in Ho.
  - intros (x & Ha & Hx & -> & ->). exists x, (chunk x), []. rewrite app_nil_r. split_and!; try done; [by apply id_small|].
    exists x. split; [done|]. exists tt. split; [by apply check_ascending_Ok|done].
Qed.

Lemma flag_of_Ok element v : (len element < U64_LIMIT)%N -> flag_of element = Ok v <-> is_u32 v /\ element = encode_uvar v.
Proof.
  intros Hl. unfold flag_of. rewrite bind_Ok. setoid_rewrite (fun v => nested_exact_iff _ _ v _ strict_uvar32 Hl). split.
  - intros (a & [Ha ->] & ([] & _ & [= <-])%bind_Ok). done.
  - intros [Hv ->]. exists v. split; [done|]. apply bind_Ok. exists tt. split; [|done]. by apply ensure_Ok, N.ltb_lt.
Qed.

Lemma strict_flag_element st :
  Strict (flag_element st) (fun st' bs => exists v, above bytes_cmp st.1 (encode_uvar v) /\ is_u32 v /\
    st' = (Some (encode_uvar v), st.2 ++ [v]) /\ bs = chunk (encode_uvar v)).
Proof.
  unfold flag_element. refine (strict_iff _ _ _ _ (strict_bind _ _ _ _ strict_sized_payload (fun k =>
    strict_rlift_bind _ _ _ (fun _ => strict_rlift_bind _ _ _ (fun v => strict_ret (Some k, st.2 ++ [v])))))).
  intros st' bs. split.
  - intros (k & b1 & b2 & [Hs ->] & (u & Ho & v & Hv & -> & ->) & ->). apply flag_of_Ok in Hv as [Hv ->]; [|by apply small_limit].
    exists v. rewrite app_nil_r. split_and!; try done. by apply check_ascending_Ok in Ho.
  - intros (v & Ha & Hv & -> & ->). pose proof (uvar_small v) as Hs. exists (encode_uvar v), (chunk (encode_uvar v)), [].
    rewrite app_nil_r. split_and!; try done. exists tt. split; [by apply check_ascending_Ok|]. exists v. split; [|done].
    apply flag_of_Ok; [by apply small_limit|done].
Qed.

(** ** Sets *)

Lemma encode_ids_Ok l bs : Forall id_ok l ->
  encode_id_set l = Ok bs <-> (len l <= MAX_COLLECTION_ELEMENTS)%N /\ bs = encode_uvar (len l) ++ concat (chunk <$> l).
Proof.
  intros H. unfold encode_id_set. rewrite encode_list_Ok. split; [tauto|]. intros [? ->]. split_and!; try done.
  eapply Forall_impl; [exact H|exact id_small].
Qed.

Lemma encode_flags_Ok l bs :
  encode_u32_set l = Ok bs <-> (len l <= MAX_COLLECTION_ELEMENTS)%N /\ bs = encode_uvar (len l) ++ concat ((fun v => chunk (encode_uvar v)) <$> l).
Proof.
  unfold encode_u32_set. rewrite encode_list_Ok, len_fmap, <- list_fmap_compose. split; [by intros (? & _ & ?)|].
  intros [? ->]. split_and!; try done. apply Forall_fmap, Forall_true. intros v. apply uvar_small.
Qed.

Lemma encode_bindings_Ok l bs : bindings_ok l ->
  encode_map l = Ok bs <-> (len l <= MAX_COLLECTION_ELEMENTS)%N /\ bs = encode_uvar (len l) ++ concat (entry_enc <$> l).
Proof.
  intros [HF Ha]. rewrite encode_map_Ok, (sort_by_id fst bytes_cmp bytes_total_compare) by done. split; [tauto|].
  intros [? ->]. split_and!; try done; [by apply (lt_key_NoDup fst bytes_cmp bytes_total_compare)|].
  eapply Forall_impl; [exact HF|]. intros b [? ?]. split; by apply id_small.
Qed.

(** A set whose elements are read in order *)
Section read_set.
Context {I : Type} (P : I -> Prop) (enc : I -> bytes) (unit : N) (key : I -> bytes).
Context (step : option bytes * list I -> RM (option bytes * list I)).
Hypothesis Hunit : (0 < unit)%N.
Hypothesis Henc : forall it, P it -> (unit <= len (enc it))%N.
Hypothesis Hstep : forall st, Strict (step st) (fun st' bs => exists it, above bytes_cmp st.1 (key it) /\ P it /\
  st' = (Some (key it), st.2 ++ [it]) /\ bs = enc it).

Lemma read_set_Ok input l : (len input < U64_LIMIT)%N ->
  (st ← nested_exact (count ← read_count; read_items unit ScbResourceLimit step (None, []) count) input; Ok st.2) = Ok l <->
  (Forall P l /\ ascending key bytes_cmp l) /\ (len l <= MAX_COLLECTION_ELEMENTS)%N /\ input = encode_uvar (len l) ++ concat (enc <$> l).
Proof using Hunit Henc Hstep.
  intros Hl. rewrite bind_Ok.
  setoid_rewrite (fun st => nested_exact_iff _ _ st _ (strict_bind _ _ _ _ (strict_read_len MAX_COLLECTION_ELEMENTS eq_refl)
    (fun n => strict_ordered_items P enc unit ScbResourceLimit Hunit Henc key bytes_cmp bytes_total_compare step n Hstep)) Hl). split.
  - by intros ([p o] & (n & b1 & b2 & [Hn ->] & (items & <- & HP & (Ha & [= ->] & _) & ->) & ->) & [= <-]).
  - intros ([HP Ha] & Hn & ->). exists (key <$> last l, l). split; [|done].
    eexists (len l), _, _. split_and!; [done|reflexivity| |reflexivity]. by exists l.
Qed.
End read_set.

Lemma chunk_id_length x : id_ok x -> (33 <= len (chunk x))%N.
Proof. unfold id_ok. intros Hx. pose proof (chunk_length x). lia. Qed.

Lemma decode_bindings_Ok input l : (len input < U64_LIMIT)%N ->
  decode_bindings input = Ok l <-> bindings_ok l /\ encode_map l = Ok input.
Proof.
  intros Hl. unfold decode_bindings. rewrite (read_set_Ok (fun b => id_ok b.1 /\ id_ok b.2) entry_enc 34 fst) by
    (done || apply strict_binding_element || (unfold entry_enc; intros b [Hk Hv]; rewrite len_app;
      pose proof (chunk_id_length _ Hk); pose proof (chunk_id_length _ Hv); lia)).
  change (Forall (fun b => id_ok b.1 /\ id_ok b.2) l /\ ascending fst bytes_cmp l) with (bindings_ok l).
  split; intros [Hok H]; (split; [done|]); by apply encode_bindings_Ok.
Qed.

Lemma decode_fixed_set_Ok input l : (len input < U64_LIMIT)%N ->
  decode_fixed_set input = Ok l <-> ids_ok l /\ encode_id_set l = Ok input.
Proof.
  intros Hl. unfold decode_fixed_set. rewrite (read_set_Ok id_ok chunk 33 id) by (done || apply strict_fixed_element || apply chunk_id_length).
  change (Forall id_ok l /\ ascending id bytes_cmp l) with (ids_ok l).
  split; intros [Hok H]; (split; [done|]); apply encode_ids_Ok; (done || apply Hok).
Qed.

Lemma decode_u32_set_payload_Ok input l : (len input < U64_LIMIT)%N ->
  decode_u32_set_payload input = Ok l <-> flags_ok l /\ encode_u32_set l = Ok input.
Proof.
  intros Hl. unfold decode_u32_set_payload. rewrite (read_set_Ok is_u32 (fun v => chunk (encode_uvar v)) 1 encode_uvar) by
    (done || apply strict_flag_element || (intros v _; pose proof (chunk_length (encode_uvar v)); lia)).
  by rewrite encode_flags_Ok.
Qed.

(** ** The payload *)

Lemma state_tag_order_Ok previous tag : state_tag_order previous tag = Ok tt <-> above N.compare previous tag.
Proof.
  destruct previous as [p|]; [|done]. cbn. destruct (N.eqb_spec p tag) as [->|]; [by rewrite N.compare_refl|].
  destruct (N.ltb_spec tag p); destruct (N.compare_spec p tag); try done; lia.
Qed.

Lemma takes_payload :
  Takes payload_fields (fun r fs => exists v1 v2 v3 v4 v5 v6 v7 v8 v9, exact_array v1 = Ok (sr_workspace_id r) /\
    exact_array v2 = Ok (sr_schema_epoch_id r) /\ decode_bindings v3 = Ok (sr_entity_bindings r) /\
    decode_fixed_set v4 = Ok (sr_entry_points r) /\ decode_fixed_set v5 = Ok (sr_dependency_roots r) /\
    exact_array v6 = Ok (sr_contract_root r) /\ exact_array v7 = Ok (sr_test_root r) /\ exact_array v8 = Ok (sr_policy_root r) /\
    decode_u32_set_payload v9 = Ok (sr_interpretation_flags r) /\
    fs = [(1, v1); (2, v2); (3, v3); (4, v4); (5, v5); (6, v6); (7, v7); (8, v8); (9, v9)]%N).
Proof. unfold payload_fields. takes_flat. Qed.

Lemma payload_fields_Ok input r : (len input < U64_LIMIT)%N ->
  with_record ScbFieldUnknown state_record_new payload_fields input = Ok r <-> payload_ok r /\ encode_payload r = Ok input.
Proof.
  intros Hl. rewrite (with_record_Ok ScbFieldUnknown state_record_new FIELD_COUNT
    (fun i fs => read_record_Ok state_tag_order FIELD_COUNT i fs state_tag_order_Ok) _ _ [1; 2; 3; 4; 5; 6; 7; 8; 9]%N _ _ takes_payload);
    [|intros ? ? ?; open_record; reflexivity|reflexivity|repeat constructor|done|exact Hl].
  unfold payload_ok, encode_payload. split.
  - intros (fs & (v1 & v2 & v3 & v4 & v5 & v6 & v7 & v8 & v9 & H1 & H2 & H3 & H4 & H5 & H6 & H7 & H8 & H9 & ->) & He).
    fields_small He. rewrite exact_array_Ok in H1, H2, H6, H7, H8. rewrite decode_bindings_Ok in H3 by assumption.
    rewrite decode_fixed_set_Ok in H4, H5 by assumption. rewrite decode_u32_set_payload_Ok in H9 by assumption.
    destruct H1 as [? ->], H2 as [? ->], H3 as [? H3], H4 as [? H4], H5 as [? H5], H6 as [? ->], H7 as [? ->], H8 as [? ->], H9 as [? H9].
    split; [tauto|]. by rewrite H3, H4, H5, H9.
  - intros ((H1 & H2 & H3 & H4 & H5 & H6 & H7 & H8 & H9) & (v3 & E3 & (v4 & E4 & (v5 & E5 & (v9 & E9 & He)%bind_Ok)%bind_Ok)%bind_Ok)%bind_Ok).
    eexists. split; [|exact He]. fields_small He.
    do 9 eexists. rewrite !exact_array_Ok. split_and!; try reflexivity; try assumption.
    + by apply decode_bindings_Ok.
    + by apply decode_fixed_set_Ok.
    + by apply decode_fixed_set_Ok.
    + by apply decode_u32_set_payload_Ok.
Qed.

(** *** The meaning of a record *)

Definition semantics_ok (r : StateRootRecord) : Prop :=
  sr_interpretation_flags r = [] /\ Forall (fun entry => entry ∈ (sr_entity_bindings r).*1) (sr_entry_points r).

Lemma is_bound_true bindings entry : is_bound bindings entry = true <-> entry ∈ bindings.*1.
Proof.
  unfold is_bound. rewrite existsb_exists, list_elem_of_fmap. split.
  - intros (b & Hb%list_elem_of_In & E%bool_decide_eq_true_1). by exists b.
  - intros (b & -> & Hb%list_elem_of_In). exists b. by rewrite bool_decide_true.
Qed.

Lemma entries_bound {E} (e : E) bindings entries u :
  for_each (fun entry => if is_bound bindings entry then Ok tt else Err e) entries = Ok u <->
  Forall (fun entry => entry ∈ bindings.*1) entries.
Proof.
  rewrite for_each_Ok. split; intros H; (eapply Forall_impl; [exact H|]); intros entry; cbv beta; rewrite <- is_bound_true;
    by destruct (is_bound bindings entry).
Qed.

Lemma validate_record_semantics_Ok r u : validate_record_semantics r = Ok u <-> semantics_ok r.
Proof.
  unfold validate_record_semantics, semantics_ok. destruct (bool_decide_reflect (sr_interpretation_flags r = [])) as [E|E].
  - rewrite entries_bound. tauto.
  - split; [done|by intros [? _]].
Qed.

Lemma decode_payload_Ok input enforce r : (len input < U64_LIMIT)%N ->
  decode_payload input enforce = Ok r <-> payload_ok r /\ encode_payload r = Ok input /\ (enforce = true -> semantics_ok r).
Proof.
  intros Hl. unfold decode_payload. rewrite bind_Ok. setoid_rewrite payload_fields_Ok; [|exact Hl]. split.
  - intros (o & [? ?] & ([] & Hs & <-%Ok_inj)%bind_Ok). split_and!; try done. intros ->.
    apply (validate_record_semantics_Ok _ tt). by destruct (validate_record_semantics o) as [[]|].
  - intros (? & ? & Hs). exists r. split; [done|]. apply bind_Ok. exists tt. split; [|done]. destruct enforce; [|done].
    by rewrite (proj2 (validate_record_semantics_Ok r tt) (Hs eq_refl)).
Qed.

(** ** The envelope *)

Lemma root_preimage_app e p d :
  root_preimage e p ++ d = MAGIC ++ encode_uvar FORMAT_VERSION ++ encode_uvar CONTRACT_TAG ++ e ++ chunk p ++ d.
Proof. unfold root_preimage, chunk. by rewrite <- !app_assoc. Qed.

Lemma strict_root_envelope :
  Strict read_root_envelope (fun '(epoch_id, payload, digest) bs => id_ok epoch_id /\ small payload /\ id_ok digest /\
    bs = root_preimage epoch_id payload ++ digest).
Proof.
  unfold read_root_envelope.
  refine (strict_iff _ _ _ _ (strict_bind _ _ _ _ (strict_take_exact (len MAGIC)) (fun m => strict_guard _ _ _ _
    (strict_bind _ _ _ _ (strict_read_uvar_width 64) (fun v => strict_guard _ _ _ _
    (strict_bind _ _ _ _ strict_uvar32 (fun t => strict_guard _ _ _ _
    (strict_bind _ _ _ _ (strict_take_exact 32) (fun e => strict_bind _ _ _ _ strict_sized_payload (fun p =>
     strict_map _ _ (fun d => (e, p, d)) (strict_take_exact 32))))))))))).
  intros [[e p] d] bs. unfold uvar_enc, id_ok. rewrite root_preimage_app. change (uvar_groups 10) with encode_uvar. split.
  - intros (m & b1 & b2 & (-> & _) & (Hm & v & b3 & b4 & (_ & _ & ->) & (Hv & t & b5 & b6 & (_ & ->) &
      (Ht & e' & b7 & b8 & (-> & He) & (p' & b9 & b10 & (Hp & ->) & (d' & (-> & Hd) & [= -> -> ->]) & ->) & ->) & ->) & ->) & ->).
    apply negb_false_iff, bool_decide_eq_true_1 in Hm as ->. apply negb_false_iff, N.eqb_eq in Hv as ->.
    apply negb_false_iff, N.eqb_eq in Ht as ->. done.
  - intros (He & Hp & Hd & ->). eexists MAGIC, MAGIC, _. split; [done|]. split; [|reflexivity]. split; [by rewrite bool_decide_true|].
    eexists FORMAT_VERSION, (encode_uvar FORMAT_VERSION), _. split; [split_and!; [done|by left|done]|]. split; [|reflexivity]. split; [done|].
    eexists CONTRACT_TAG, _, _. split; [done|]. split; [|reflexivity]. split; [done|].
    eexists e, e, _. split; [done|]. split; [|reflexivity]. eexists p, (chunk p), d. split; [done|]. split; [|done]. by exists d.
Qed.

Section accepted.
Context (blake3 : bytes -> bytes) (Hb : forall x, length (blake3 x) = ID_LEN).

Lemma state_root_id_ok x : id_ok (state_root_derive blake3 x).
Proof using Hb. unfold id_ok, state_root_derive, digest_type_derive, digest, len. by rewrite Hb. Qed.

Lemma stored_bytes_Ok epoch_id payload stored root :
  stored_bytes blake3 epoch_id payload = Ok (stored, root) <->
  small stored /\ root = state_root_derive blake3 (root_preimage epoch_id payload) /\ stored = root_preimage epoch_id payload ++ root.
Proof using Type.
  unfold stored_bytes, small. rewrite bind_Ok. setoid_rewrite ensure_Ok. setoid_rewrite N.leb_le. split.
  - by intros (_ & ? & [= <- <-]).
  - intros (? & -> & ->). by exists tt.
Qed.

Lemma preimage_length epoch_id payload : (len payload <= len (root_preimage epoch_id payload))%N.
Proof using Type. unfold root_preimage. rewrite !len_app. lia. Qed.

Lemma decode_envelope_Ok input epoch_id payload root :
  decode_envelope blake3 input = Ok (epoch_id, payload, root) <->
  id_ok epoch_id /\ stored_bytes blake3 epoch_id payload = Ok (input, root).
Proof using Hb.
  unfold decode_envelope. rewrite stored_bytes_Ok, bind_Ok. setoid_rewrite bind_Ok. setoid_rewrite ensure_Ok. split.
  - intros (_ & Hl%N.leb_le & [[e p] d] & Hn%map_err_iff & H).
    apply (nested_exact_iff _ _ _ _ strict_root_envelope (small_limit _ Hl)) in Hn as (He & Hp & Hd & Hin).
    apply bind_Ok in H as ([] & Heq%ensure_Ok%bool_decide_eq_true_1 & [= <- <- <-]).
    rewrite Hin, take_digest in Heq by done. rewrite Hin, take_digest by done. rewrite <- Heq, <- Hin. done.
  - intros (He & Hs & -> & ->). exists tt. split; [by apply N.leb_le|].
    pose proof (state_root_id_ok (root_preimage epoch_id payload)) as Hd. set (d := state_root_derive _ _) in *.
    exists (epoch_id, payload, d). split.
    + apply map_err_iff, (nested_exact_iff _ _ _ _ strict_root_envelope (small_limit _ Hs)). split_and!; try done.
      unfold small in *. rewrite len_app in Hs. pose proof (preimage_length epoch_id payload). lia.
    + rewrite take_digest by done. apply bind_Ok. exists tt. split; [by apply ensure_Ok; rewrite bool_decide_true|done].
Qed.

(** ** Authorisation *)

(** A registry that has the contract of state roots in this epoch *)
Definition registered (registry : Registry) (epoch_id : bytes) : Prop :=
  exists entry, entry ∈ registry /\ re_epoch_id entry = epoch_id /\ sd_epoch_id (re_decoder entry) = epoch_id /\
    find_first (fun contract => cd_contract_tag contract =? CONTRACT_TAG)%N (er_contracts (re_record entry)) = Some expected_descriptor.

Lemma authorize_Ok entries (registry : Registry) epoch_id payload u : Registry_new blake3 entries = Ok registry ->
  (len payload < U64_LIMIT)%N ->
  authorize registry epoch_id payload = Ok u <->
  registered registry epoch_id /\ exists r, decode_payload payload true = Ok r /\ sr_schema_epoch_id r = epoch_id.
Proof using Type.
  intros (-> & Ha & HF)%Registry_new_Ok Hl. unfold authorize, registered, lookup_contract, registry_decode_contract. destruct u. split.
  - intros (d & Hd & H)%bind_Ok. apply if_Err_Ok in H as [->%negb_false_iff%bool_decide_eq_true_1 H].
    destruct (Registry_lookup entries epoch_id) as [e|] eqn:He; [|done]. cbn in Hd, H.
    pose proof He as [Hin Hid]%(Registry_lookup_Ok entries Ha).
    rewrite Forall_forall in HF. destruct (HF e Hin) as [_ Hdec]. cbn in Hdec.
    destruct (existsb _ _); cbn in H; [|done].
    destruct (decode_payload payload true) as [r|] eqn:Hr; cbn in H; [|done].
    destruct (bool_decide_reflect (sr_schema_epoch_id r = sd_epoch_id (re_decoder e))) as [Hre|]; [|done].
    split; [|exists r; split; congruence]. exists e. split_and!; try done; [congruence|].
    destruct (find_first _ _); cbn in Hd; congruence.
  - intros ((e & Hin & Hid & Hdec & Hf) & r & Hr & Hre).
    assert (Registry_lookup entries epoch_id = Ok e) as He by by apply (Registry_lookup_Ok entries Ha).
    rewrite He. cbn. rewrite Hf. cbn. rewrite bool_decide_true by done. cbn.
    assert (existsb (fun contract => cd_contract_tag contract =? CONTRACT_TAG)%N (er_contracts (re_record e)) = true) as Hex.
    { apply find_first_Some in Hf as [Hc Ht]. apply existsb_exists. exists expected_descriptor. split; [by apply list_elem_of_In|done]. }
    rewrite Hex, Hr. cbn. by rewrite bool_decide_true by congruence.
Qed.

(** ** Import *)

(** What it is to be an accepted root: a record with canonical fields, of a
    registered epoch, whose stored bytes and digest are those of its payload. *)
Definition accepted_ok (registry : Registry) (a : AcceptedStateRoot) : Prop :=
  payload_ok (as_record a) /\ semantics_ok (as_record a) /\ registered registry (sr_schema_epoch_id (as_record a)) /\
  exists payload, encode_payload (as_record a) = Ok payload /\
    stored_bytes blake3 (sr_schema_epoch_id (as_record a)) payload = Ok (as_stored_bytes a, as_root a).

Lemma stored_payload_small epoch_id payload stored root :
  stored_bytes blake3 epoch_id payload = Ok (stored, root) -> (len payload < U64_LIMIT)%N.
Proof using Type.
  intros (Hs & _ & ->)%stored_bytes_Ok. apply small_limit in Hs. rewrite len_app in Hs. pose proof (preimage_length epoch_id payload). lia.
Qed.

Lemma import_Ok entries registry input a : Registry_new blake3 entries = Ok registry ->
  import_state_root blake3 registry input = Ok a <-> as_stored_bytes a = input /\ accepted_ok registry a.
Proof using Hb.
  intros Hreg. unfold import_state_root, accepted_ok. split.
  - intros ([[e p] root] & [He Hst]%decode_envelope_Ok & H)%bind_Ok. pose proof (stored_payload_small _ _ _ _ Hst) as Hl.
    apply bind_Ok in H as (r & Hp%map_err_iff & H).
    apply decode_payload_Ok in Hp as (Hok & Henc & _); [|done].
    apply if_Err_Ok in H as [Ee%negb_false_iff%bool_decide_eq_true_1 H]. subst e. apply bind_Ok in H as ([] & Hsem%map_err_iff & H).
    apply bind_Ok in H as ([] & Hau & <-%Ok_inj). cbn.
    apply (authorize_Ok _ _ _ _ tt Hreg Hl) in Hau as [Hau _]. split; [done|]. split; [done|]. split.
    { by apply validate_record_semantics_Ok in Hsem. }
    split; [done|]. by exists p.
  - intros (Hin & Hok & Hsem & Hau & p & Henc & Hst). destruct a as [root stored r]. cbn in *. subst stored.
    pose proof (stored_payload_small _ _ _ _ Hst) as Hl.
    apply bind_Ok. exists (sr_schema_epoch_id r, p, root). split; [apply decode_envelope_Ok; split; [apply Hok|done]|].
    assert (forall enforce, decode_payload p enforce = Ok r) as Hp by by intros enforce; apply decode_payload_Ok.
    apply bind_Ok. exists r. split; [by apply map_err_iff|]. apply if_Err_Ok. split; [by rewrite bool_decide_true|].
    apply bind_Ok. exists tt. split; [by apply map_err_iff, validate_record_semantics_Ok|]. apply bind_Ok. exists tt. split; [|done].
    apply (authorize_Ok _ _ _ _ tt Hreg Hl). split; [done|]. exists r. by split.
Qed.
End accepted.
