(* ===== verification/StateRootBuild.v ===== *)
(** * Built state roots

    The builder accepts unordered inputs exactly if they are distinct, bound and
    free of flags, and what it makes is imported again as it is; the order of
    the inputs does not matter.  A recomputed root commits to every field of its
    record but the order of the bindings. *)

From S2P Require Import Prelude State Bytes Ids Scb1Core Scb1Cursor Scb1Schema Records Schema SchemaExact StateRoot StateRootExact.

Opaque encode_uvar.

(** ** Sorted inputs *)

Section sorted.
Context {A K : Type} `{EqDecision K} (key : A -> K) (cmp : K -> K -> comparison) (Hcmp : TotalCompare cmp).
Abbreviation same := (fun x y => bool_decide (key x = key y)).
Abbreviation by_key := (fun x y => cmp (key x) (key y)).

Lemma adjacent_distinct l : ascending key cmp l -> any_adjacent same l = false.
Proof using Hcmp.
  induction 1 as [|x l Hl IH Hx]; [done|]. destruct l as [|y l]; [done|]. cbn [any_adjacent].
  apply Forall_cons in Hx as [Hxy _]. rewrite bool_decide_false; [exact IH|].
  intros E. apply (tc_eq _ Hcmp) in E. congruence.
Qed.

Lemma distinct_ascending l :
  StronglySorted (fun x y => by_key x y <> Gt) l -> any_adjacent same l = false -> ascending key cmp l.
Proof using Hcmp.
  intros Hs Ha. apply Sorted_StronglySorted; [intros x y z; apply (tc_trans _ Hcmp)|].
  induction Hs as [|x l Hs IH Hx]; [constructor|]. destruct l as [|y l]; [repeat constructor|].
  cbn [any_adjacent] in Ha. apply orb_false_iff in Ha as [Hxy%bool_decide_eq_false Ha]. constructor; [by apply IH|]. constructor.
  apply Forall_cons in Hx as [Hle _]. destruct (cmp (key x) (key y)) eqn:E; [|done..]. by apply (tc_eq _ Hcmp) in E.
Qed.

Lemma sorted_distinct l : any_adjacent same (sort_by by_key l) = false <-> NoDup (key <$> l).
Proof using Hcmp.
  split.
  - intros Ha. rewrite <- (sort_by_perm key cmp l). apply (lt_key_NoDup key cmp Hcmp), distinct_ascending; [|done].
    by apply sort_by_sorted.
  - intros Hn. apply adjacent_distinct. by apply (sort_by_lt key cmp Hcmp).
Qed.
End sorted.

Lemma sort_bindings_Ok l l' : sort_bindings l = Ok l' <-> NoDup l.*1 /\ l' = sort_by (fun x y => bytes_cmp x.1 y.1) l.
Proof.
  unfold sort_bindings. rewrite bind_Ok. setoid_rewrite ensure_Ok. setoid_rewrite negb_true_iff.
  rewrite <- (sorted_distinct fst bytes_cmp bytes_total_compare). split; [by intros (_ & ? & [= <-])|intros [? ->]; by exists tt].
Qed.

Lemma sort_unique_Ok {T} `{EqDecision T} (cmp : T -> T -> comparison) l l' : TotalCompare cmp ->
  sort_unique cmp l = Ok l' <-> NoDup l /\ l' = sort_by cmp l.
Proof.
  intros Hcmp. unfold sort_unique. rewrite bind_Ok. setoid_rewrite ensure_Ok. setoid_rewrite negb_true_iff.
  pose proof (sorted_distinct id cmp Hcmp l) as Hd. rewrite list_fmap_id in Hd. unfold id in Hd. rewrite <- Hd.
  split; [by intros (_ & ? & [= <-])|intros [? ->]; by exists tt].
Qed.

(** The result of sorting depends only on what there is to sort. *)
Lemma sort_bindings_perm l l' : l ≡ₚ l' -> sort_bindings l = sort_bindings l'.
Proof.
  intros Hp. destruct (sort_bindings l) as [s|e] eqn:E, (sort_bindings l') as [s'|e'] eqn:E'.
  - apply sort_bindings_Ok in E as [Hn ->], E' as [_ ->]. f_equal. by apply (sort_by_permutation fst bytes_cmp bytes_total_compare).
  - apply sort_bindings_Ok in E as [Hn _]. rewrite Hp in Hn. by rewrite (proj2 (sort_bindings_Ok l' _) (conj Hn eq_refl)) in E'.
  - apply sort_bindings_Ok in E' as [Hn _]. rewrite <- Hp in Hn. by rewrite (proj2 (sort_bindings_Ok l _) (conj Hn eq_refl)) in E.
  - unfold sort_bindings in E, E'. cbv zeta in *. destruct (any_adjacent _ _); [injection E as <-|done].
    destruct (any_adjacent _ _) in E'; [by injection E' as <-|done].
Qed.

Lemma sort_unique_perm {T} `{EqDecision T} (cmp : T -> T -> comparison) l l' : TotalCompare cmp ->
  l ≡ₚ l' -> sort_unique cmp l = sort_unique cmp l'.
Proof.
  intros Hcmp Hp. destruct (sort_unique cmp l) as [s|e] eqn:E, (sort_unique cmp l') as [s'|e'] eqn:E'.
  - apply sort_unique_Ok in E as [Hn ->], E' as [_ ->]; [|done..]. f_equal.
    apply (sort_by_permutation id cmp Hcmp); [by rewrite list_fmap_id|done].
  - apply sort_unique_Ok in E as [Hn _]; [|done]. rewrite Hp in Hn. by rewrite (proj2 (sort_unique_Ok cmp l' _ Hcmp) (conj Hn eq_refl)) in E'.
  - apply sort_unique_Ok in E' as [Hn _]; [|done]. rewrite <- Hp in Hn. by rewrite (proj2 (sort_unique_Ok cmp l _ Hcmp) (conj Hn eq_refl)) in E.
  - unfold sort_unique in E, E'. cbv zeta in *. destruct (any_adjacent _ _); [injection E as <-|done].
    destruct (any_adjacent _ _) in E'; [by injection E' as <-|done].
Qed.

(** ** The conformance epoch *)

Section conformance.
Context (blake3 : bytes -> bytes) (Hb : forall x, length (blake3 x) = ID_LEN).

Definition conformance_id : bytes :=
  digest_type_derive blake3 SchemaEpoch (match canonical ← canonical_bytes conformance_epoch_record; bootstrap_preimage canonical with
                                         | Ok preimage => preimage | Err _ => [] end).

Definition conformance_entry : RegistryEntry StateRootEpoch1Decoder :=
  Build_RegistryEntry conformance_id conformance_epoch_record {| sd_epoch_id := conformance_id |}.

Lemma conformance_epoch_id_Ok : conformance_epoch_id blake3 = Ok conformance_id.
Proof using Type.
  unfold conformance_epoch_id, schema_epoch_id, conformance_id.
  destruct (canonical_bytes conformance_epoch_record) as [c|] eqn:Ec; [|by vm_compute in Ec]. cbn [mbind result_bind].
  destruct (bootstrap_preimage c) as [p|] eqn:Ep; [done|]. vm_compute in Ec. injection Ec as <-. by vm_compute in Ep.
Qed.

Lemma conformance_id_ok : id_ok conformance_id.
Proof using Hb. unfold id_ok, conformance_id, digest_type_derive, digest, len. by rewrite Hb. Qed.

Lemma conformance_registry_Ok registry : conformance_registry blake3 = Ok registry <-> registry = [conformance_entry].
Proof using Type.
  unfold conformance_registry. pose proof conformance_epoch_id_Ok as E. unfold conformance_epoch_id in E. rewrite E.
  cbn [mbind result_bind]. unfold RegistryEntry_new. rewrite E. cbn [mbind result_bind]. rewrite !bool_decide_true by done. cbn [negb orb mbind result_bind].
  fold conformance_entry. rewrite Registry_new_Ok. split; [by intros [-> _]|intros ->]. split; [done|]. split; [repeat constructor|].
  constructor; [by split|constructor].
Qed.

Lemma conformance_registered : registered [conformance_entry] conformance_id.
Proof using Type. exists conformance_entry. split_and!; [by left|done|done|by vm_compute]. Qed.

(** ** What the builder makes *)

(** The record of a builder: its inputs in order *)
Definition built_record (epoch_id : bytes) (b : StateRootBuilder) : StateRootRecord := {|
  sr_workspace_id := sb_workspace_id b;
  sr_schema_epoch_id := epoch_id;
  sr_entity_bindings := sort_by (fun x y => bytes_cmp x.1 y.1) (sb_entity_bindings b);
  sr_entry_points := sort_by bytes_cmp (sb_entry_points b);
  sr_dependency_roots := sort_by bytes_cmp (sb_dependency_roots b);
  sr_contract_root := sb_contract_root b;
  sr_test_root := sb_test_root b;
  sr_policy_root := sb_policy_root b;
  sr_interpretation_flags := []
|}.

(** What a Rust value of the type is *)
Definition builder_ok (b : StateRootBuilder) : Prop :=
  id_ok (sb_workspace_id b) /\ Forall (fun x => id_ok x.1 /\ id_ok x.2) (sb_entity_bindings b) /\
  Forall id_ok (sb_entry_points b) /\ Forall id_ok (sb_dependency_roots b) /\
  id_ok (sb_contract_root b) /\ id_ok (sb_test_root b) /\ id_ok (sb_policy_root b).

Definition buildable (b : StateRootBuilder) : Prop :=
  sb_interpretation_flags b = [] /\ NoDup (sb_entity_bindings b).*1 /\ NoDup (sb_entry_points b) /\
  NoDup (sb_dependency_roots b) /\ Forall (fun entry => entry ∈ (sb_entity_bindings b).*1) (sb_entry_points b).

Lemma sorted_ids_ok l : Forall id_ok l -> NoDup l -> ids_ok (sort_by bytes_cmp l).
Proof using Type.
  intros HF Hn. split; [by rewrite (sort_by_perm id bytes_cmp l)|].
  apply (sort_by_lt id bytes_cmp bytes_total_compare). by rewrite list_fmap_id.
Qed.

Lemma built_payload_ok epoch_id b : id_ok epoch_id -> builder_ok b -> buildable b -> payload_ok (built_record epoch_id b).
Proof using Type.
  intros He (Hw & Hbs & Hes & Hds & Hc & Ht & Hp) (_ & Hnb & Hne & Hnd & _). unfold payload_ok. cbn [built_record sr_workspace_id
    sr_schema_epoch_id sr_entity_bindings sr_entry_points sr_dependency_roots sr_contract_root sr_test_root sr_policy_root sr_interpretation_flags].
  split_and!; try done; try by apply sorted_ids_ok.
  - split; [by rewrite (sort_by_perm fst bytes_cmp)|]. by apply (sort_by_lt fst bytes_cmp bytes_total_compare).
  - split; constructor.
Qed.

Lemma built_semantics_ok epoch_id b : buildable b -> semantics_ok (built_record epoch_id b).
Proof using Type.
  intros (_ & _ & _ & _ & HF). split; [done|]. cbn [built_record sr_entity_bindings sr_entry_points].
  rewrite (sort_by_perm id bytes_cmp). eapply Forall_impl; [exact HF|]. intros e. by rewrite (sort_by_perm fst bytes_cmp).
Qed.

Lemma check_builder_count_Ok {A} (l : list A) u : check_builder_count l = Ok u <-> (len l <= MAX_COLLECTION_ELEMENTS)%N.
Proof using Type. unfold check_builder_count. by rewrite ensure_Ok, N.leb_le. Qed.

Lemma len_sort_by {A K} (key : A -> K) cmp l : len (sort_by (fun x y => cmp (key x) (key y)) l) = len l.
Proof using Type. unfold len. by rewrite (sort_by_perm key cmp l). Qed.

(** A payload is only encoded within the limits that [build] checks first. *)
Lemma payload_counts r payload : encode_payload r = Ok payload ->
  (len (sr_entity_bindings r) <= MAX_COLLECTION_ELEMENTS)%N /\ (len (sr_entry_points r) <= MAX_COLLECTION_ELEMENTS)%N /\
  (len (sr_dependency_roots r) <= MAX_COLLECTION_ELEMENTS)%N.
Proof using Type.
  unfold encode_payload. intros (? & (? & _)%encode_map_Ok & (? & (? & _)%encode_list_Ok & (? & (? & _)%encode_list_Ok & _)%bind_Ok)%bind_Ok)%bind_Ok.
  done.
Qed.

Lemma build_prefix b bindings entries deps flags :
  (sort_bindings (sb_entity_bindings b) = Ok bindings /\ sort_unique bytes_cmp (sb_entry_points b) = Ok entries /\
   sort_unique bytes_cmp (sb_dependency_roots b) = Ok deps /\ sort_unique N.compare (sb_interpretation_flags b) = Ok flags /\
   reject_unknown_flags (sb_interpretation_flags b) = Ok tt /\ Forall (fun entry => entry ∈ bindings.*1) entries) <->
  buildable b /\ bindings = sort_by (fun x y => bytes_cmp x.1 y.1) (sb_entity_bindings b) /\
  entries = sort_by bytes_cmp (sb_entry_points b) /\ deps = sort_by bytes_cmp (sb_dependency_roots b) /\ flags = [].
Proof using Type.
  rewrite sort_bindings_Ok, !sort_unique_Ok by (apply bytes_total_compare || apply N_total_compare).
  unfold reject_unknown_flags, buildable. rewrite ensure_Ok, bool_decide_eq_true.
  assert (Forall (fun entry => entry ∈ (sort_by (fun x y => bytes_cmp x.1 y.1) (sb_entity_bindings b)).*1) (sort_by bytes_cmp (sb_entry_points b)) <->
    Forall (fun entry => entry ∈ (sb_entity_bindings b).*1) (sb_entry_points b)) as Hm.
  { rewrite (sort_by_perm id bytes_cmp). split; intros H; (eapply Forall_impl; [exact H|]); intros e; cbv beta; by rewrite (sort_by_perm fst bytes_cmp). }
  split.
  - intros ([? ->] & [? ->] & [? ->] & [_ ->] & -> & ?). rewrite <- Hm. done.
  - intros ((-> & ? & ? & ? & ?) & -> & -> & -> & ->). rewrite Hm. split_and!; (done || constructor).
Qed.

Lemma conformance_new : Registry_new blake3 [conformance_entry] = Ok [conformance_entry].
Proof using Type.
  apply Registry_new_Ok. split; [done|]. split; [repeat constructor|].
  constructor; [split; [apply conformance_epoch_id_Ok|done]|constructor].
Qed.

#[local] Opaque conformance_entry conformance_id encode_payload stored_bytes decode_payload authorize sort_by.

Lemma build_sound b a : builder_ok b -> build blake3 b [conformance_entry] = Ok a ->
  buildable b /\ as_record a = built_record conformance_id b /\ as_stored_bytes a = as_stored_bytes a /\ accepted_ok blake3 [conformance_entry] a.
Proof using Hb.
  intros Hob. unfold build, accepted_ok.
  intros ([] & _ & ([] & _ & ([] & _ & ([] & _ & ([] & Hf & (bs & E1 & (es & E2 & (ds & E3 & (fs & E4 & ([] & E5 & H)%bind_Ok)%bind_Ok)%bind_Ok)%bind_Ok)%bind_Ok)%bind_Ok)%bind_Ok)%bind_Ok)%bind_Ok)%bind_Ok.
  apply entries_bound in E5. 
  pose proof (proj1 (build_prefix b bs es ds fs) (conj E1 (conj E2 (conj E3 (conj E4 (conj Hf E5)))))) as (Hbuild & -> & -> & -> & ->).
  rewrite conformance_epoch_id_Ok in H. apply bind_Ok in H as (e & [= <-]%map_err_iff & H). cbv zeta in H. fold (built_record conformance_id b) in H.
  apply bind_Ok in H as (p & Hp%map_err_iff & H). apply bind_Ok in H as ([] & Ha & H). apply bind_Ok in H as ([stored root] & Hst & <-%Ok_inj).
  split; [exact Hbuild|]. split; [reflexivity|]. split; [reflexivity|].
  split; [exact (built_payload_ok conformance_id b conformance_id_ok Hob Hbuild)|].
  split; [exact (built_semantics_ok conformance_id b Hbuild)|].
  split; [exact conformance_registered|]. exists p. split; [exact Hp|exact Hst].
Qed.

Lemma build_complete b a : builder_ok b -> buildable b -> as_record a = built_record conformance_id b ->
  accepted_ok blake3 [conformance_entry] a -> build blake3 b [conformance_entry] = Ok a.
Proof using Hb.
  intros Hob Hbuild Hrec (Hok & Hsem & _ & p & Hp & Hst). destruct a as [root stored r]. cbn [as_record as_stored_bytes as_root] in *. subst r.
  destruct (proj2 (build_prefix b _ _ _ _) (conj Hbuild (conj eq_refl (conj eq_refl (conj eq_refl eq_refl))))) as (E1 & E2 & E3 & E4 & Hf & E5).
  pose proof (payload_counts _ _ Hp) as (C1 & C2 & C3). cbn [built_record sr_entity_bindings sr_entry_points sr_dependency_roots] in C1, C2, C3.
  rewrite (len_sort_by fst bytes_cmp) in C1. rewrite (len_sort_by id bytes_cmp) in C2, C3.
  pose proof (stored_payload_small _ _ _ _ _ Hst) as Hl.
  assert (authorize [conformance_entry] conformance_id p = Ok tt) as Hau.
  { apply (authorize_Ok blake3 _ _ conformance_id p tt conformance_new Hl). split; [exact conformance_registered|].
    exists (built_record conformance_id b). split; [|reflexivity]. apply decode_payload_Ok; [exact Hl|]. split; [exact Hok|]. split; [exact Hp|].
    intros _. exact Hsem. }
  unfold build. apply bind_Ok. exists tt. split; [by apply check_builder_count_Ok|].
  apply bind_Ok. exists tt. split; [by apply check_builder_count_Ok|]. apply bind_Ok. exists tt. split; [by apply check_builder_count_Ok|].
  apply bind_Ok. exists tt. split; [by apply check_builder_count_Ok; destruct Hbuild as [-> _]|].
  apply bind_Ok. exists tt. split; [exact Hf|]. apply bind_Ok. eexists. split; [exact E1|]. apply bind_Ok. eexists. split; [exact E2|].
  apply bind_Ok. eexists. split; [exact E3|]. apply bind_Ok. eexists. split; [exact E4|].
  apply bind_Ok. exists tt. split; [by apply entries_bound|].
  apply bind_Ok. exists conformance_id. split; [apply map_err_iff; exact conformance_epoch_id_Ok|]. cbv zeta. fold (built_record conformance_id b).
  apply bind_Ok. exists p. split; [by apply map_err_iff|]. apply bind_Ok. exists tt. split; [exact Hau|].
  apply bind_Ok. exists (stored, root). split; [exact Hst|reflexivity].
Qed.

Lemma build_Ok b registry a : builder_ok b -> conformance_registry blake3 = Ok registry ->
  build blake3 b registry = Ok a <->
  buildable b /\ as_record a = built_record conformance_id b /\ import_state_root blake3 registry (as_stored_bytes a) = Ok a.
Proof using Hb.
  intros Hob ->%conformance_registry_Ok. rewrite (import_Ok blake3 Hb _ _ _ _ conformance_new). split.
  - by apply build_sound.
  - intros (? & ? & _ & ?). by apply build_complete.
Qed.
End conformance.

(** ** What a root commits to *)

Lemma strict_chunks count :
  Strict (read_items 1 ScbResourceLimit (fun out => s ← read_sized_payload; mret (out ++ [s])) [] count)
    (fun out bs => len out = count /\ Forall small out /\ bs = concat (chunk <$> out)).
Proof.
  refine (strict_iff _ _ _ _ (strict_read_items small chunk 1 ScbResourceLimit eq_refl _ (fun items out => out = [] ++ items) _ _ _
    (fun n => strict_push_loop small chunk _ [] n _))).
  - intros out bs. split; [by intros (items & ? & ? & -> & ->)|]. intros (? & ? & ->). by exists out.
  - intros s _. pose proof (chunk_length s). lia.
  - intros out. refine (strict_iff _ _ _ _ (strict_map _ _ (fun s => out ++ [s]) strict_sized_payload)). intros out' bs. split.
    + by intros (s & [? ->] & ->); exists s.
    + intros (s & ? & -> & ->). by exists s.
Qed.

Lemma encode_list_inj l1 l2 bs : (len bs < U64_LIMIT)%N -> encode_list l1 = Ok bs -> encode_list l2 = Ok bs -> l1 = l2.
Proof.
  intros Hl H1 H2. pose proof (fun out => nested_exact_iff _ _ out bs (strict_bind _ _ _ _ (strict_read_len MAX_COLLECTION_ELEMENTS eq_refl) strict_chunks) Hl) as H.
  assert (forall l, encode_list l = Ok bs -> nested_exact (count ← read_len MAX_COLLECTION_ELEMENTS;
    read_items 1 ScbResourceLimit (fun out => s ← read_sized_payload; mret (out ++ [s])) [] count) bs = Ok l) as Hr.
  { intros l (Hn & Hs & ->)%encode_list_Ok. apply H. eexists (len l), _, _. by split_and!. }
  apply Hr in H1, H2. congruence.
Qed.

Lemma encode_record_inj fs1 fs2 bs : (len bs < U64_LIMIT)%N -> fields_ok fs1 -> fields_ok fs2 ->
  encode_record fs1 = Ok bs -> encode_record fs2 = Ok bs -> fs1 = fs2.
Proof.
  intros Hl H1 H2 E1 E2. pose proof (fun fs => read_record_Ok state_tag_order 0 bs fs state_tag_order_Ok Hl) as H.
  assert (forall fs, fields_ok fs -> encode_record fs = Ok bs -> read_record state_tag_order 0 bs = Ok fs) as Hr.
  { intros fs Hf Hfs. apply H. split_and!; [done|lia|done]. }
  apply Hr in E1, E2; [|done..]. congruence.
Qed.

Lemma encode_uvar_inj a b : is_u32 a -> is_u32 b -> encode_uvar a = encode_uvar b -> a = b.
Proof.
  intros Ha Hb E. assert (len (encode_uvar a) < U64_LIMIT)%N as Hl by (apply small_limit, uvar_small).
  pose proof (proj2 (flag_of_Ok _ a Hl) (conj Ha eq_refl)) as H1. pose proof (proj2 (flag_of_Ok _ b Hl) (conj Hb E)) as H2. congruence.
Qed.

(** The fields of a payload are those of a record of nine ascending tags. *)
Lemma payload_fields_ok v1 v2 v3 v4 v5 v6 v7 v8 v9 bs :
  let fs := [(1, v1); (2, v2); (3, v3); (4, v4); (5, v5); (6, v6); (7, v7); (8, v8); (9, v9)]%N in
  encode_record fs = Ok bs -> fields_ok fs.
Proof.
  intros fs He. apply encode_record_small in He. split; [|by apply tags_ascending].
  assert (Forall (fun f => f.1 < 2 ^ 32)%N fs) as Ht by (repeat constructor).
  by apply Forall_and.
Qed.

(** What the types of the epoch and the flags of a record say *)
Definition committed_ok (r : StateRootRecord) : Prop :=
  id_ok (sr_schema_epoch_id r) /\ Forall is_u32 (sr_interpretation_flags r).

(** Two records that differ at most in the order of their bindings *)
Definition same_commitment (r1 r2 : StateRootRecord) : Prop :=
  sr_workspace_id r1 = sr_workspace_id r2 /\ sr_schema_epoch_id r1 = sr_schema_epoch_id r2 /\
  sr_entity_bindings r1 ≡ₚ sr_entity_bindings r2 /\ sr_entry_points r1 = sr_entry_points r2 /\
  sr_dependency_roots r1 = sr_dependency_roots r2 /\ sr_contract_root r1 = sr_contract_root r2 /\
  sr_test_root r1 = sr_test_root r2 /\ sr_policy_root r1 = sr_policy_root r2 /\
  sr_interpretation_flags r1 = sr_interpretation_flags r2.

Lemma encode_payload_commits r1 r2 payload : (len payload < U64_LIMIT)%N ->
  Forall is_u32 (sr_interpretation_flags r1) -> Forall is_u32 (sr_interpretation_flags r2) ->
  encode_payload r1 = Ok payload -> encode_payload r2 = Ok payload <-> same_commitment r1 r2.
Proof.
  intros Hl Hf1 Hf2 (b1 & E1 & (e1 & E2 & (d1 & E3 & (f1 & E4 & He1)%bind_Ok)%bind_Ok)%bind_Ok)%bind_Ok. unfold same_commitment.
  pose proof He1 as Hs1. fields_small Hs1. split.
  - intros (b2 & F1 & (e2 & F2 & (d2 & F3 & (f2 & F4 & He2)%bind_Ok)%bind_Ok)%bind_Ok)%bind_Ok.
    pose proof (encode_record_inj _ _ _ Hl (payload_fields_ok _ _ _ _ _ _ _ _ _ _ He1) (payload_fields_ok _ _ _ _ _ _ _ _ _ _ He2) He1 He2) as Hfs.
    injection Hfs as -> -> -> -> -> -> -> -> ->. split_and!; try reflexivity.
    + by apply (encode_map_permutation _ _ b2).
    + by apply (encode_list_inj _ _ e2).
    + by apply (encode_list_inj _ _ d2).
    + assert (encode_uvar <$> sr_interpretation_flags r1 = encode_uvar <$> sr_interpretation_flags r2) as Hm by by apply (encode_list_inj _ _ f2).
      clear -Hm Hf1 Hf2. revert Hm Hf2. generalize (sr_interpretation_flags r2). induction Hf1 as [|x l Hx _ IH]; intros [|y l']; try done.
      rewrite !fmap_cons. intros [= Hxy Hm] [Hy Hf2]%Forall_cons. f_equal; [by apply encode_uvar_inj|by apply IH].
  - intros (W & S & B & En & De & C & T & P & F). unfold encode_payload. rewrite <- W, <- S, <- En, <- De, <- C, <- T, <- P, <- F.
    rewrite (proj2 (encode_map_permutation _ _ b1 ltac:(assumption) E1) B), E2, E3, E4. done.
Qed.

Lemma root_preimage_inj e1 p1 e2 p2 : id_ok e1 -> id_ok e2 -> small p1 -> small p2 -> (len (root_preimage e1 p1) + 32 < U64_LIMIT)%N ->
  root_preimage e1 p1 = root_preimage e2 p2 -> e1 = e2 /\ p1 = p2.
Proof.
  intros He1 He2 Hp1 Hp2 Hl E. set (d := replicate 32 x00).
  assert (forall e p, id_ok e -> small p -> root_preimage e p = root_preimage e1 p1 ->
    nested_exact read_root_envelope (root_preimage e1 p1 ++ d) = Ok (e, p, d)) as H.
  { intros e p He Hp Ep. apply (nested_exact_iff _ _ _ _ strict_root_envelope); [rewrite len_app; exact Hl|]. by rewrite Ep. }
  pose proof (H e1 p1 He1 Hp1 eq_refl) as H1. pose proof (H e2 p2 He2 Hp2 (eq_sym E)) as H2. by split; congruence.
Qed.

#[local] Opaque stored_bytes encode_payload.

(** ** Theorems *)

(** C16: the import accepts exactly the stored bytes of valid records: canonical
    fields (identifiers of 32 bytes; bindings, entry points and dependency roots
    in strictly ascending order), every entry point bound, no interpretation
    flag, an epoch registered with the contract of state roots, and the digest
    of the preimage.  It returns the record, the digest and the bytes. *)
Theorem import_state_root_exact blake3 entries registry input accepted :
  (forall x, length (blake3 x) = ID_LEN) -> Registry_new blake3 entries = Ok registry ->
  import_state_root blake3 registry input = Ok accepted <->
  as_stored_bytes accepted = input /\
  payload_ok (as_record accepted) /\ semantics_ok (as_record accepted) /\
  registered registry (sr_schema_epoch_id (as_record accepted)) /\
  exists payload, encode_payload (as_record accepted) = Ok payload /\
    stored_bytes blake3 (sr_schema_epoch_id (as_record accepted)) payload = Ok (as_stored_bytes accepted, as_root accepted).
Proof. intros Hb Hreg. exact (import_Ok blake3 Hb entries registry input accepted Hreg). Qed.

(** C17: under the registry of the conformance epoch, a builder succeeds exactly
    if it has no flag, its bindings, entry points and dependency roots are
    distinct, every entry point is bound, and its record has stored bytes: the
    result is the record of its sorted inputs, and the import of its stored
    bytes returns the same result. *)
Theorem build_exact blake3 b registry accepted :
  (forall x, length (blake3 x) = ID_LEN) -> builder_ok b -> conformance_registry blake3 = Ok registry ->
  build blake3 b registry = Ok accepted <->
  buildable b /\ as_record accepted = built_record (conformance_id blake3) b /\
  import_state_root blake3 registry (as_stored_bytes accepted) = Ok accepted.
Proof. intros Hb Hob Hreg. exact (build_Ok blake3 Hb b registry accepted Hob Hreg). Qed.

(** C20: the order in which bindings, entry points, dependency roots and flags
    are added to a builder does not matter: the result is the same, errors
    included, under every registry. *)
Theorem build_order_independent blake3 b b' registry :
  sb_workspace_id b = sb_workspace_id b' -> sb_contract_root b = sb_contract_root b' ->
  sb_test_root b = sb_test_root b' -> sb_policy_root b = sb_policy_root b' ->
  sb_entity_bindings b ≡ₚ sb_entity_bindings b' -> sb_entry_points b ≡ₚ sb_entry_points b' ->
  sb_dependency_roots b ≡ₚ sb_dependency_roots b' -> sb_interpretation_flags b ≡ₚ sb_interpretation_flags b' ->
  build blake3 b registry = build blake3 b' registry.
Proof.
  intros W C T P Hb He Hd Hf. unfold build.
  assert (forall A (l l' : list A), l ≡ₚ l' -> check_builder_count l = check_builder_count l') as Hn.
  { intros A l l' Hp. unfold check_builder_count, len. by rewrite Hp. }
  assert (reject_unknown_flags (sb_interpretation_flags b) = reject_unknown_flags (sb_interpretation_flags b')) as ->.
  { unfold reject_unknown_flags. f_equal. apply bool_decide_ext. split; intros E; rewrite E in Hf;
      [by apply Permutation_nil|by apply Permutation_nil; symmetry]. }
  rewrite (Hn _ _ _ Hb), (Hn _ _ _ He), (Hn _ _ _ Hd), (Hn _ _ _ Hf), (sort_bindings_perm _ _ Hb),
    (sort_unique_perm bytes_cmp _ _ bytes_total_compare He), (sort_unique_perm bytes_cmp _ _ bytes_total_compare Hd),
    (sort_unique_perm N.compare _ _ N_total_compare Hf), W, C, T, P. done.
Qed.

(** What BLAKE3 is given to derive the root of a record, when it has one *)
Definition preimage_of (r : StateRootRecord) (preimage : bytes) : Prop :=
  exists payload, encode_payload r = Ok payload /\ preimage = root_preimage (sr_schema_epoch_id r) payload.

(** C21: a recomputed root commits to its record up to the order of the
    bindings, and to nothing less: two records whose roots are recomputed have the
    same preimage exactly if they have the same fields with the bindings in some
    order.  So a record that differs only in that order recomputes to the same root,
    and one that recomputes to the same root differs in nothing else, unless the
    digest takes the two different preimages of these very records to one value. *)
Theorem recompute_root_commits blake3 r1 r2 root1 root2 :
  committed_ok r1 -> committed_ok r2 ->
  recompute_root blake3 r1 = Ok root1 -> recompute_root blake3 r2 = Ok root2 ->
  exists preimage1 preimage2,
    preimage_of r1 preimage1 /\ preimage_of r2 preimage2 /\
    root1 = state_root_derive blake3 preimage1 /\ root2 = state_root_derive blake3 preimage2 /\
    (preimage1 = preimage2 <-> same_commitment r1 r2) /\
    (same_commitment r1 r2 -> root1 = root2) /\
    (root1 = root2 -> same_commitment r1 r2 \/
       preimage1 <> preimage2 /\ state_root_derive blake3 preimage1 = state_root_derive blake3 preimage2).
Proof.
  intros [He1 Hf1] [He2 Hf2].
  assert (forall r root, recompute_root blake3 r = Ok root -> exists p stored, encode_payload r = Ok p /\
    stored_bytes blake3 (sr_schema_epoch_id r) p = Ok (stored, root)) as Hrec.
  { intros r root H. unfold recompute_root in H. apply bind_Ok in H as (p & Hp%map_err_iff & H).
    apply bind_Ok in H as ([stored root'] & Hst & [= <-]). by exists p, stored. }
  intros (p1 & s1 & Hp1 & Hst1)%Hrec (p2 & s2 & Hp2 & Hst2)%Hrec.
  pose proof (encode_payload_commits r1 r2 p1 (stored_payload_small _ _ _ _ _ Hst1) Hf1 Hf2 Hp1) as Hc.
  apply stored_bytes_Ok in Hst1 as (Hs1 & R1 & ->), Hst2 as (Hs2 & R2 & ->).
  assert (root_preimage (sr_schema_epoch_id r1) p1 = root_preimage (sr_schema_epoch_id r2) p2 <-> same_commitment r1 r2) as Hiff.
  { rewrite <- Hc. split.
    - intros E. assert (sr_schema_epoch_id r1 = sr_schema_epoch_id r2 /\ p1 = p2) as [_ <-]; [|done].
      unfold small in Hs1, Hs2. rewrite len_app in Hs1, Hs2.
      pose proof (preimage_length (sr_schema_epoch_id r1) p1). pose proof (preimage_length (sr_schema_epoch_id r2) p2).
      apply root_preimage_inj; try done; unfold small, MAX_STANDALONE_BYTES, U64_LIMIT in *; lia.
    - intros E. assert (p1 = p2) as <- by congruence. apply Hc in E as (_ & <- & _). done. }
  exists (root_preimage (sr_schema_epoch_id r1) p1), (root_preimage (sr_schema_epoch_id r2) p2).
  split_and!; try done; [by exists p1|by exists p2|intros Hsame; rewrite R1, R2; f_equal; by apply Hiff|].
  intros Hroots. destruct (decide (root_preimage (sr_schema_epoch_id r1) p1 = root_preimage (sr_schema_epoch_id r2) p2)) as [E|Hd];
    [left; by apply Hiff|right; split; [done|congruence]].
Qed.

(** ** A root with two entities *)

Module Roots.

Definition zero_hash : bytes -> bytes := fun _ => replicate 32 x00.
Definition name (b : byte) : bytes := replicate 32 b.

Definition builder : StateRootBuilder :=
  dependency_root (entry_point (entity_binding (entity_binding (StateRootBuilder_new (name x01) (name x02) (name x03) (name x04))
    (name x20) (name x30)) (name x10) (name x31)) (name x20)) (name x40).
Definition other_builder : StateRootBuilder :=
  dependency_root (entry_point (entity_binding (entity_binding (StateRootBuilder_new (name x01) (name x02) (name x03) (name x04))
    (name x10) (name x31)) (name x20) (name x30)) (name x20)) (name x40).

Definition registry : Registry := Eval vm_compute in
  match conformance_registry zero_hash with Ok registry => registry | Err _ => [] end.
Definition accepted : AcceptedStateRoot := Eval vm_compute in
  match build zero_hash builder registry with
  | Ok accepted => accepted
  | Err _ => {| as_root := []; as_stored_bytes := []; as_record := built_record [] builder |}
  end.

Lemma zero_hash_length x : length (zero_hash x) = ID_LEN.
Proof. reflexivity. Qed.

Lemma builder_values : builder_ok builder.
Proof. unfold builder_ok. split_and!; try reflexivity; repeat (constructor; [try split; reflexivity|]); constructor. Qed.

Theorem import_state_root_exact_witness :
  Registry_new zero_hash registry = Ok registry /\
  import_state_root zero_hash registry (as_stored_bytes accepted) = Ok accepted /\ semantics_ok (as_record accepted).
Proof.
  assert (Registry_new zero_hash registry = Ok registry) as Hr by by vm_compute.
  assert (import_state_root zero_hash registry (as_stored_bytes accepted) = Ok accepted) as H by by vm_compute.
  split; [exact Hr|]. split; [exact H|].
  by apply (import_state_root_exact zero_hash registry registry (as_stored_bytes accepted) accepted zero_hash_length Hr) in H as (_ & _ & ? & _).
Defined.

Theorem build_exact_witness :
  build zero_hash builder registry = Ok accepted /\ buildable builder /\
  import_state_root zero_hash registry (as_stored_bytes accepted) = Ok accepted.
Proof.
  assert (build zero_hash builder registry = Ok accepted) as H by by vm_compute. split; [exact H|].
  assert (conformance_registry zero_hash = Ok registry) as Hr by by vm_compute.
  apply (build_exact zero_hash builder registry accepted zero_hash_length builder_values Hr) in H as (Hb & _ & Hi).
  split; [exact Hb|exact Hi].
Defined.

Theorem build_order_independent_witness :
  builder <> other_builder /\ build zero_hash other_builder registry = Ok accepted.
Proof.
  split; [by vm_compute|]. transitivity (build zero_hash builder registry); [|by vm_compute]. symmetry.
  apply (build_order_independent zero_hash builder other_builder registry); try reflexivity. apply perm_swap.
Defined.

(** The record of [accepted] with its bindings the other way round *)
Definition reordered : StateRootRecord := {|
  sr_workspace_id := sr_workspace_id (as_record accepted);
  sr_schema_epoch_id := sr_schema_epoch_id (as_record accepted);
  sr_entity_bindings := reverse (sr_entity_bindings (as_record accepted));
  sr_entry_points := sr_entry_points (as_record accepted);
  sr_dependency_roots := sr_dependency_roots (as_record accepted);
  sr_contract_root := sr_contract_root (as_record accepted);
  sr_test_root := sr_test_root (as_record accepted);
  sr_policy_root := sr_policy_root (as_record accepted);
  sr_interpretation_flags := sr_interpretation_flags (as_record accepted)
|}.

Lemma accepted_values : committed_ok (as_record accepted).
Proof. split; [reflexivity|constructor]. Qed.

(** The same record with another test root *)
Definition retested : StateRootRecord := {|
  sr_workspace_id := sr_workspace_id (as_record accepted);
  sr_schema_epoch_id := sr_schema_epoch_id (as_record accepted);
  sr_entity_bindings := sr_entity_bindings (as_record accepted);
  sr_entry_points := sr_entry_points (as_record accepted);
  sr_dependency_roots := sr_dependency_roots (as_record accepted);
  sr_contract_root := sr_contract_root (as_record accepted);
  sr_test_root := name x77;
  sr_policy_root := sr_policy_root (as_record accepted);
  sr_interpretation_flags := sr_interpretation_flags (as_record accepted)
|}.

(** The roots of the three records, under a digest that tells preimages apart *)
Definition root_of (r : StateRootRecord) : bytes := match recompute_root Epochs.toy r with Ok root => root | Err _ => [] end.
Definition accepted_root : bytes := Eval vm_compute in root_of (as_record accepted).
Definition retested_root : bytes := Eval vm_compute in root_of retested.

Theorem recompute_root_commits_witness :
  reordered <> as_record accepted /\ recompute_root Epochs.toy (as_record accepted) = Ok accepted_root /\
  recompute_root Epochs.toy reordered = Ok accepted_root /\
  recompute_root Epochs.toy retested = Ok retested_root /\ accepted_root <> retested_root /\
  ~ same_commitment (as_record accepted) retested.
Proof.
  assert (recompute_root Epochs.toy (as_record accepted) = Ok accepted_root) as H by by vm_compute.
  assert (recompute_root Epochs.toy retested = Ok retested_root) as H' by by vm_compute.
  assert (accepted_root <> retested_root) as Hne by by vm_compute.
  split; [by vm_compute|]. split; [exact H|]. split; [by vm_compute|]. split; [exact H'|]. split; [exact Hne|].
  destruct (recompute_root_commits Epochs.toy (as_record accepted) retested accepted_root retested_root accepted_values accepted_values H H')
    as (_ & _ & _ & _ & _ & _ & _ & Hsame & _).
  exact (fun E => Hne (Hsame E)).
Defined.
End Roots.
