(* ===== verification/Ssmc.v ===== *)
(** * The SSMC1 program model (crates/sley-ssmc)

    The data the checker and the virtual machine work on: type expressions,
    type definitions, constants, operations, blocks, functions and the other
    semantic entities, with their stable tags.  [EntityId] and [MemberId] are
    the big-endian numbers of their 32 bytes, whose order is the order of the
    bytes ([Ids.id_order_is_byte_order]).  The arguments of [NamedType],
    [FunctionType] and the constant payloads are inlined in the constructors
    that hold them, so that types and constants are inductive. *)

From S2P Require Import Prelude Bytes.
Set Warnings "-register-all".

Abbreviation EntityId := N (only parsing).
Abbreviation MemberId := N (only parsing).

(** ** Bounds *)

Definition MAX_TYPE_DEPTH : N := 64.
Definition MAX_TYPE_ARGUMENTS : N := 1024.
Definition MAX_TUPLE_ITEMS : N := 65535.
Definition MAX_MEMBERS : N := 65535.
Definition MAX_CONSTANT_ELEMENTS : N := 1000000.
Definition MAX_CONSTANT_PAYLOAD_BYTES : N := 16777216.

(** [IntegerWidth] wraps its number of bits. *)
Abbreviation IntegerWidth := N (only parsing).
Definition is_epoch_1 (bits : IntegerWidth) : bool :=
  (bits =? 8)%N || (bits =? 16)%N || (bits =? 32)%N || (bits =? 64)%N || (bits =? 128)%N.

Inductive BuiltinFailureKind : Type :=
| BFArithmetic
| BFIndex
| BFDuplicateKey
| BFContractViolation
| BFCapability.
#[global] Instance BuiltinFailureKind_eq_dec : EqDecision BuiltinFailureKind.
Proof. solve_decision. Defined.

Definition BuiltinFailureKind_tag (x : BuiltinFailureKind) : N :=
  match x with
  | BFArithmetic => 1
  | BFIndex => 2
  | BFDuplicateKey => 3
  | BFContractViolation => 4
  | BFCapability => 5
  end.

(** ** Type expressions *)

Inductive TypeExpr : Type :=
| TUnit
| TBool
| TSInt (width : IntegerWidth)
| TUInt (width : IntegerWidth)
| TF32
| TF64
| TBytes
| TText
| TTuple (items : list TypeExpr)
| TNamed (definition : EntityId) (arguments : list TypeExpr)
| TVector (item : TypeExpr)
| TOrderedMap (key value : TypeExpr)
| TOption (item : TypeExpr)
| TResult (ok error : TypeExpr)
| TFunctionRef (parameters : list TypeExpr) (result : TypeExpr) (effects : list EntityId)
| TAdapterHandle (adapter : EntityId)
| TCapabilityToken (capability : EntityId)
| TLocalCell (item : TypeExpr)
| TTypeParameter (ordinal : N)
| TBuiltinFailure (kind : BuiltinFailureKind).

Definition TypeExpr_tag (t : TypeExpr) : N :=
  match t with
  | TUnit => 1
  | TBool => 2
  | TSInt _ => 3
  | TUInt _ => 4
  | TF32 => 5
  | TF64 => 6
  | TBytes => 7
  | TText => 8
  | TTuple _ => 9
  | TNamed _ _ => 10
  | TVector _ => 11
  | TOrderedMap _ _ => 12
  | TOption _ => 13
  | TResult _ _ => 14
  | TFunctionRef _ _ _ => 15
  | TAdapterHandle _ => 16
  | TCapabilityToken _ => 17
  | TLocalCell _ => 18
  | TTypeParameter _ => 19
  | TBuiltinFailure _ => 20
  end.

(** The immediate parts of a type, and induction over them. *)
Definition type_children (t : TypeExpr) : list TypeExpr :=
  match t with
  | TTuple items => items
  | TNamed _ arguments => arguments
  | TVector item | TOption item | TLocalCell item => [item]
  | TOrderedMap a b | TResult a b => [a; b]
  | TFunctionRef parameters result _ => parameters ++ [result]
  | _ => []
  end.

Section TypeExpr_ind'.
Variable P : TypeExpr -> Prop.
Hypothesis H : forall t, Forall P (type_children t) -> P t.

Fixpoint TypeExpr_ind' (t : TypeExpr) : P t :=
  let fix all (l : list TypeExpr) : Forall P l :=
    match l with
    | [] => Forall_nil_2 P
    | x :: l => Forall_cons_2 P x l (TypeExpr_ind' x) (all l)
    end in
  H t (match t return Forall P (type_children t) with
       | TTuple items => all items
       | TNamed _ arguments => all arguments
       | TVector item | TOption item | TLocalCell item => all [item]
       | TOrderedMap a b | TResult a b => all [a; b]
       | TFunctionRef parameters result _ =>
           Forall_app_2 P parameters [result] (all parameters) (all [result])
       | _ => Forall_nil_2 P
       end).
End TypeExpr_ind'.

(** [Vec<T>: PartialEq] *)
Section list_eqb.
Context {A : Type} (eqb : A -> A -> bool).
Fixpoint list_eqb (l r : list A) : bool :=
  match l, r with
  | [], [] => true
  | x :: l, y :: r => eqb x y && list_eqb l r
  | _, _ => false
  end.
End list_eqb.

Lemma list_eqb_spec {A} (eqb : A -> A -> bool) l r :
  Forall (fun x => forall y, eqb x y = true <-> x = y) l -> list_eqb eqb l r = true <-> l = r.
Proof.
  intros Hl. revert r. induction Hl as [|x l Hx _ IH]; intros [|y r]; simpl; try done.
  rewrite andb_true_iff, Hx, IH. naive_solver.
Qed.

Fixpoint TypeExpr_eqb (a b : TypeExpr) : bool :=
  match a, b with
  | TUnit, TUnit | TBool, TBool | TF32, TF32 | TF64, TF64 | TBytes, TBytes | TText, TText => true
  | TSInt v, TSInt w | TUInt v, TUInt w | TTypeParameter v, TTypeParameter w
  | TAdapterHandle v, TAdapterHandle w | TCapabilityToken v, TCapabilityToken w => (v =? w)%N
  | TTuple l, TTuple r => list_eqb TypeExpr_eqb l r
  | TNamed d l, TNamed e r => (d =? e)%N && list_eqb TypeExpr_eqb l r
  | TVector x, TVector y | TOption x, TOption y | TLocalCell x, TLocalCell y => TypeExpr_eqb x y
  | TOrderedMap k v, TOrderedMap k' v' | TResult k v, TResult k' v' =>
      TypeExpr_eqb k k' && TypeExpr_eqb v v'
  | TFunctionRef l x e, TFunctionRef r y f =>
      list_eqb TypeExpr_eqb l r && TypeExpr_eqb x y && bool_decide (e = f)
  | TBuiltinFailure k, TBuiltinFailure k' => bool_decide (k = k')
  | _, _ => false
  end.

(** Equality of applied constructors, argument by argument. *)
Ltac ctor_iff :=
  split; intros; destruct_and?; split_and?; congruence.

Lemma TypeExpr_eqb_spec a b : TypeExpr_eqb a b = true <-> a = b.
Proof.
  revert b. induction a as [a IH] using TypeExpr_ind'. intros b.
  destruct a, b; cbn [TypeExpr_eqb]; try (split; discriminate); cbn [type_children] in IH;
    rewrite ?andb_true_iff, ?N.eqb_eq, ?bool_decide_eq_true; try ctor_iff.
  all: try (apply Forall_cons in IH as [IH1 IH]; rewrite IH1).
  all: try (apply Forall_cons in IH as [IH2 IH]; rewrite IH2).
  all: try ctor_iff.
  - rewrite list_eqb_spec by done. ctor_iff.
  - rewrite list_eqb_spec by done. ctor_iff.
  - apply Forall_app in IH as [IH1 [IH2 _]%Forall_cons].
    rewrite list_eqb_spec, IH2 by done. ctor_iff.
Qed.

#[global] Instance TypeExpr_eq_dec : EqDecision TypeExpr.
Proof.
  intros a b. destruct (TypeExpr_eqb a b) eqn:E.
  - left. by apply TypeExpr_eqb_spec.
  - right. intros H%TypeExpr_eqb_spec. congruence.
Defined.

Inductive Visibility : Type :=
| VPrivate
| VPackage
| VWorkspace
| VExported.
#[global] Instance Visibility_eq_dec : EqDecision Visibility.
Proof. solve_decision. Defined.

Definition Visibility_tag (x : Visibility) : N :=
  match x with
  | VPrivate => 1
  | VPackage => 2
  | VWorkspace => 3
  | VExported => 4
  end.

Inductive EntryExposure : Type :=
| EELocal
| EEProtocol.
#[global] Instance EntryExposure_eq_dec : EqDecision EntryExposure.
Proof. solve_decision. Defined.

Definition EntryExposure_tag (x : EntryExposure) : N :=
  match x with
  | EELocal => 1
  | EEProtocol => 2
  end.

Inductive EffectKind : Type :=
| EKStdoutWrite
| EKStderrWrite
| EKFileRead
| EKFileWrite
| EKClockRead
| EKRandomRead
| EKEnvironmentRead
| EKAdapterCall.
#[global] Instance EffectKind_eq_dec : EqDecision EffectKind.
Proof. solve_decision. Defined.

Definition EffectKind_tag (x : EffectKind) : N :=
  match x with
  | EKStdoutWrite => 1
  | EKStderrWrite => 2
  | EKFileRead => 3
  | EKFileWrite => 4
  | EKClockRead => 5
  | EKRandomRead => 6
  | EKEnvironmentRead => 7
  | EKAdapterCall => 8
  end.

Definition EffectKind_from_tag (tag : N) : option EffectKind :=
  match tag with
  | 1 => Some EKStdoutWrite
  | 2 => Some EKStderrWrite
  | 3 => Some EKFileRead
  | 4 => Some EKFileWrite
  | 5 => Some EKClockRead
  | 6 => Some EKRandomRead
  | 7 => Some EKEnvironmentRead
  | 8 => Some EKAdapterCall
  | _ => None
  end%N.

(** ** Constants *)

Record FieldConst (C : Type) : Type := mkFieldConst { fc_member_id : MemberId; fc_value : C }.
Record RecordConst (C : Type) : Type := mkRecordConst {
  rc_definition : EntityId; rc_fields : list (FieldConst C)
}.
Record VariantConst (C : Type) : Type := mkVariantConst {
  vk_definition : EntityId; vk_member_id : MemberId; vk_payload : option C
}.
Record MapEntryConst (C : Type) : Type := mkMapEntryConst { me_key : C; me_value : C }.
Inductive ResultConst (C : Type) : Type := ROk (value : C) | RErr (value : C).
Arguments mkFieldConst {C}. Arguments fc_member_id {C}. Arguments fc_value {C}.
Arguments mkRecordConst {C}. Arguments rc_definition {C}. Arguments rc_fields {C}.
Arguments mkVariantConst {C}. Arguments vk_definition {C}. Arguments vk_member_id {C}.
Arguments vk_payload {C}. Arguments mkMapEntryConst {C}. Arguments me_key {C}. Arguments me_value {C}.
Arguments ROk {C}. Arguments RErr {C}.

Definition ResultConst_tag {C} (r : ResultConst C) : N := match r with ROk _ => 1 | RErr _ => 2 end.

Record FunctionRefValue : Type := mkFunctionRefValue {
  frv_function : N;
  frv_type_arguments : list TypeExpr
}.
#[global] Instance FunctionRefValue_eq_dec : EqDecision FunctionRefValue.
Proof. solve_decision. Defined.

Record BuiltinFailureValue : Type := mkBuiltinFailureValue {
  bfv_kind : BuiltinFailureKind;
  bfv_code : N
}.
#[global] Instance BuiltinFailureValue_eq_dec : EqDecision BuiltinFailureValue.
Proof. solve_decision. Defined.

(** [ConstValue] pairs a type with the data of that shape.  [Text] is the
    UTF-8 bytes of its string. *)
Inductive ConstValue : Type :=
| mkConstValue (value_type : TypeExpr) (data : ConstData)
with ConstData : Type :=
| DUnit
| DBool (b : bool)
| DSInt (x : Z)
| DUInt (x : N)
| DF32Bits (bits : N)
| DF64Bits (bits : N)
| DBytes (b : bytes)
| DText (s : bytes)
| DSequence (items : list ConstValue)
| DRecord (r : RecordConst ConstValue)
| DVariant (v : VariantConst ConstValue)
| DMap (entries : list (MapEntryConst ConstValue))
| DOption (o : option ConstValue)
| DResult (r : ResultConst ConstValue)
| DFunctionRef (f : FunctionRefValue)
| DBuiltinFailure (f : BuiltinFailureValue).

Definition cv_type (v : ConstValue) : TypeExpr := let 'mkConstValue t _ := v in t.
Definition cv_data (v : ConstValue) : ConstData := let 'mkConstValue _ d := v in d.

Definition ConstData_tag (d : ConstData) : N :=
  match d with
  | DUnit => 1
  | DBool _ => 2
  | DSInt _ => 3
  | DUInt _ => 4
  | DF32Bits _ => 5
  | DF64Bits _ => 6
  | DBytes _ => 7
  | DText _ => 8
  | DSequence _ => 9
  | DRecord _ => 10
  | DVariant _ => 11
  | DMap _ => 12
  | DOption _ => 13
  | DResult _ => 14
  | DFunctionRef _ => 15
  | DBuiltinFailure _ => 16
  end.

(** The constants inside a constant, and induction over them. *)
Definition const_children (d : ConstData) : list ConstValue :=
  match d with
  | DSequence items => items
  | DRecord r => fc_value <$> rc_fields r
  | DVariant v => option_list (vk_payload v)
  | DMap entries => entries ≫= fun e => [me_key e; me_value e]
  | DOption o => option_list o
  | DResult (ROk v) | DResult (RErr v) => [v]
  | _ => []
  end.

Section ConstValue_ind'.
Variable P : ConstValue -> Prop.
Hypothesis H : forall t d, Forall P (const_children d) -> P (mkConstValue t d).

Fixpoint ConstValue_ind' (v : ConstValue) : P v :=
  match v with
  | mkConstValue t d =>
      H t d (match d return Forall P (const_children d) with
        | DSequence items =>
            (fix all (l : list ConstValue) : Forall P l :=
               match l with
               | [] => Forall_nil_2 P
               | x :: l => Forall_cons_2 P x l (ConstValue_ind' x) (all l)
               end) items
        | DRecord (mkRecordConst _ fields) =>
            (fix all (l : list (FieldConst ConstValue)) : Forall P (fc_value <$> l) :=
               match l return Forall P (fc_value <$> l) with
               | [] => Forall_nil_2 P
               | mkFieldConst m x :: l =>
                   Forall_cons_2 P x (fc_value <$> l) (ConstValue_ind' x) (all l)
               end) fields
        | DVariant (mkVariantConst _ _ (Some x)) =>
            Forall_cons_2 P x [] (ConstValue_ind' x) (Forall_nil_2 P)
        | DVariant (mkVariantConst _ _ None) => Forall_nil_2 P
        | DMap entries =>
            (fix all (l : list (MapEntryConst ConstValue))
               : Forall P (l ≫= fun e => [me_key e; me_value e]) :=
               match l return Forall P (l ≫= fun e => [me_key e; me_value e]) with
               | [] => Forall_nil_2 P
               | mkMapEntryConst k x :: l =>
                   Forall_cons_2 P k (x :: (l ≫= fun e => [me_key e; me_value e])) (ConstValue_ind' k)
                     (Forall_cons_2 P x (l ≫= fun e => [me_key e; me_value e]) (ConstValue_ind' x) (all l))
               end) entries
        | DOption (Some x) => Forall_cons_2 P x [] (ConstValue_ind' x) (Forall_nil_2 P)
        | DOption None => Forall_nil_2 P
        | DResult (ROk x) => Forall_cons_2 P x [] (ConstValue_ind' x) (Forall_nil_2 P)
        | DResult (RErr x) => Forall_cons_2 P x [] (ConstValue_ind' x) (Forall_nil_2 P)
        | _ => Forall_nil_2 P
        end)
  end.
End ConstValue_ind'.

Definition option_eqb {A} (eqb : A -> A -> bool) (o p : option A) : bool :=
  match o, p with
  | Some x, Some y => eqb x y
  | None, None => true
  | _, _ => false
  end.

Fixpoint ConstValue_eqb (a b : ConstValue) : bool :=
  match a, b with
  | mkConstValue t d, mkConstValue u e =>
      TypeExpr_eqb t u &&
      match d, e with
      | DUnit, DUnit => true
      | DBool x, DBool y => Bool.eqb x y
      | DSInt x, DSInt y => (x =? y)%Z
      | DUInt x, DUInt y | DF32Bits x, DF32Bits y | DF64Bits x, DF64Bits y => (x =? y)%N
      | DBytes x, DBytes y | DText x, DText y => bool_decide (x = y)
      | DSequence l, DSequence r => list_eqb ConstValue_eqb l r
      | DRecord r, DRecord s =>
          (rc_definition r =? rc_definition s)%N &&
          list_eqb (fun f g => (fc_member_id f =? fc_member_id g)%N &&
                               ConstValue_eqb (fc_value f) (fc_value g)) (rc_fields r) (rc_fields s)
      | DVariant v, DVariant w =>
          (vk_definition v =? vk_definition w)%N && (vk_member_id v =? vk_member_id w)%N &&
          match vk_payload v, vk_payload w with
          | Some x, Some y => ConstValue_eqb x y
          | None, None => true
          | _, _ => false
          end
      | DMap l, DMap r =>
          list_eqb (fun f g => ConstValue_eqb (me_key f) (me_key g) &&
                               ConstValue_eqb (me_value f) (me_value g)) l r
      | DOption o, DOption p =>
          match o, p with
          | Some x, Some y => ConstValue_eqb x y
          | None, None => true
          | _, _ => false
          end
      | DResult (ROk x), DResult (ROk y) | DResult (RErr x), DResult (RErr y) => ConstValue_eqb x y
      | DFunctionRef f, DFunctionRef g => bool_decide (f = g)
      | DBuiltinFailure f, DBuiltinFailure g => bool_decide (f = g)
      | _, _ => false
      end
  end.

Lemma list_eqb_on {A B} (eqb : A -> A -> bool) (f : A -> B) (P : B -> Prop) l r :
  (forall x y, P (f x) -> eqb x y = true <-> x = y) -> Forall P (f <$> l) ->
  list_eqb eqb l r = true <-> l = r.
Proof.
  intros Heq HP. apply list_eqb_spec. rewrite Forall_fmap in HP.
  eapply Forall_impl; [exact HP|]. intros x Hx y. by apply Heq.
Qed.

Lemma ConstValue_eqb_spec a b : ConstValue_eqb a b = true <-> a = b.
Proof.
  revert b. induction a as [t d IH] using ConstValue_ind'. intros [u e].
  cbn [ConstValue_eqb]. rewrite andb_true_iff, TypeExpr_eqb_spec.
  enough (forall m : bool, (m = true <-> d = e) -> t = u /\ m = true <-> mkConstValue t d = mkConstValue u e) as Hm.
  { apply Hm. destruct d as [| | | | | | | |l|r|v|l|o|r| |], e as [| | | | | | | |l'|r2|w|l'|p|r2| |];
      try (split; discriminate); try (destruct r; split; discriminate);
      cbn [const_children] in IH;
      rewrite ?N.eqb_eq, ?Z.eqb_eq, ?Bool.eqb_true_iff, ?bool_decide_eq_true; try ctor_iff.
    - rewrite list_eqb_spec by done. ctor_iff.
    - destruct r as [dr fr], r2 as [ds fs]. cbn [rc_definition rc_fields] in *.
      rewrite andb_true_iff, N.eqb_eq, (list_eqb_on _ fc_value (fun a => forall b, ConstValue_eqb a b = true <-> a = b) fr fs); [ctor_iff| |exact IH]; cbv beta.
      intros [m x] [m' y] Hx. cbn [fc_member_id fc_value] in *. rewrite andb_true_iff, N.eqb_eq, Hx. ctor_iff.
    - destruct v as [dv mv pv], w as [dw mw pw]. cbn [vk_definition vk_member_id vk_payload] in *.
      rewrite !andb_true_iff, !N.eqb_eq. destruct pv as [x|], pw as [y|]; try ctor_iff.
      apply Forall_cons in IH as [IH _]. rewrite IH. ctor_iff.
    - rewrite list_eqb_spec; [ctor_iff|]. clear -IH. induction l as [|[k x] l IHl]; [constructor|].
      cbn in IH. apply Forall_cons in IH as [Hk [Hx IH]%Forall_cons]. constructor; [|by apply IHl].
      intros [k' y]. cbn [me_key me_value] in *. rewrite andb_true_iff, Hk, Hx. ctor_iff.
    - destruct o as [x|], p as [y|]; try ctor_iff.
      apply Forall_cons in IH as [IH _]. rewrite IH. ctor_iff.
    - destruct r, r2; try ctor_iff; apply Forall_cons in IH as [IH _]; rewrite IH; ctor_iff. }
  intros m ->. ctor_iff.
Qed.

#[global] Instance ConstValue_eq_dec : EqDecision ConstValue.
Proof.
  intros a b. destruct (ConstValue_eqb a b) eqn:E.
  - left. by apply ConstValue_eqb_spec.
  - right. intros H%ConstValue_eqb_spec. congruence.
Defined.

(** ** Effects, contracts, tests and the other definitions *)

Record EffectDefinition : Type := mkEffectDefinition {
  ed_entity_id : N;
  ed_effect_kind : EffectKind;
  ed_scope_type : TypeExpr;
  ed_request_type : TypeExpr;
  ed_response_type : TypeExpr;
  ed_failure_type : TypeExpr;
  ed_visibility : Visibility
}.
#[global] Instance EffectDefinition_eq_dec : EqDecision EffectDefinition.
Proof. solve_decision. Defined.

Record CapabilityRequirement : Type := mkCapabilityRequirement {
  cr_entity_id : N;
  cr_effect : N;
  cr_allowed_scopes : list ConstValue;
  cr_constraint_contracts : list N
}.
#[global] Instance CapabilityRequirement_eq_dec : EqDecision CapabilityRequirement.
Proof. solve_decision. Defined.

Record AdapterImport : Type := mkAdapterImport {
  ai_entity_id : N;
  ai_adapter_id : bytes;
  ai_abi_version : N;
  ai_request_type : TypeExpr;
  ai_response_type : TypeExpr;
  ai_failure_type : TypeExpr;
  ai_effects : list N
}.
#[global] Instance AdapterImport_eq_dec : EqDecision AdapterImport.
Proof. solve_decision. Defined.

Inductive ContractKind : Type :=
| CKPrecondition
| CKPostcondition
| CKInvariant
| CKEffectBound
| CKCapabilityBound
| CKResultPredicate
| CKResourceCeiling.
#[global] Instance ContractKind_eq_dec : EqDecision ContractKind.
Proof. solve_decision. Defined.

Definition ContractKind_tag (x : ContractKind) : N :=
  match x with
  | CKPrecondition => 1
  | CKPostcondition => 2
  | CKInvariant => 3
  | CKEffectBound => 4
  | CKCapabilityBound => 5
  | CKResultPredicate => 6
  | CKResourceCeiling => 7
  end.

Inductive ContractSource : Type :=
| CSParameter (x : N)
| CSResult
| CSError
| CSGlobal (x : N).
#[global] Instance ContractSource_eq_dec : EqDecision ContractSource.
Proof. solve_decision. Defined.

Definition ContractSource_tag (x : ContractSource) : N :=
  match x with
  | CSParameter _ => 1
  | CSResult => 2
  | CSError => 3
  | CSGlobal _ => 4
  end.

Record ContractBinding : Type := mkContractBinding {
  cb_predicate_parameter : N;
  cb_source : ContractSource
}.
#[global] Instance ContractBinding_eq_dec : EqDecision ContractBinding.
Proof. solve_decision. Defined.

Record ResourceLimits : Type := mkResourceLimits {
  rl_fuel : N;
  rl_memory_bytes : N;
  rl_output_bytes : N;
  rl_effect_count : N;
  rl_call_depth : N;
  rl_wall_timeout_millis : N
}.
#[global] Instance ResourceLimits_eq_dec : EqDecision ResourceLimits.
Proof. solve_decision. Defined.

Record ContractDefinition : Type := mkContractDefinition {
  cd_entity_id : N;
  cd_target : N;
  cd_contract_kind : ContractKind;
  cd_predicate : N;
  cd_bindings : list ContractBinding;
  cd_resource_limits : option ResourceLimits
}.
#[global] Instance ContractDefinition_eq_dec : EqDecision ContractDefinition.
Proof. solve_decision. Defined.

Record ConstantDefinition : Type := mkConstantDefinition {
  kd_entity_id : N;
  kd_value : ConstValue
}.
#[global] Instance ConstantDefinition_eq_dec : EqDecision ConstantDefinition.
Proof. solve_decision. Defined.

Record GlobalValueDefinition : Type := mkGlobalValueDefinition {
  gd_entity_id : N;
  gd_value_type : TypeExpr;
  gd_initializer : N;
  gd_visibility : Visibility
}.
#[global] Instance GlobalValueDefinition_eq_dec : EqDecision GlobalValueDefinition.
Proof. solve_decision. Defined.

#[global] Instance ResultConst_eq_dec `{EqDecision C} : EqDecision (ResultConst C).
Proof. solve_decision. Defined.

Record ReplayBinding : Type := mkReplayBinding {
  rb_adapter_import : N;
  rb_request : list ConstValue;
  rb_response : ResultConst ConstValue
}.
#[global] Instance ReplayBinding_eq_dec : EqDecision ReplayBinding.
Proof. solve_decision. Defined.

Record AdapterConfig : Type := mkAdapterConfig {
  ac_adapter_import : N;
  ac_configuration : ConstValue
}.
#[global] Instance AdapterConfig_eq_dec : EqDecision AdapterConfig.
Proof. solve_decision. Defined.

Inductive EffectEnvironment : Type :=
| EnvReplay (x : list ReplayBinding)
| EnvDeterministicAdapters (x : list AdapterConfig).
#[global] Instance EffectEnvironment_eq_dec : EqDecision EffectEnvironment.
Proof. solve_decision. Defined.

Definition EffectEnvironment_tag (x : EffectEnvironment) : N :=
  match x with
  | EnvReplay _ => 1
  | EnvDeterministicAdapters _ => 2
  end.

Inductive ExpectedOutcome : Type :=
| EOValue (x : ConstValue)
| EOFailureCode (x : N).
#[global] Instance ExpectedOutcome_eq_dec : EqDecision ExpectedOutcome.
Proof. solve_decision. Defined.

Definition ExpectedOutcome_tag (x : ExpectedOutcome) : N :=
  match x with
  | EOValue _ => 1
  | EOFailureCode _ => 2
  end.

Record ExpectedObservation : Type := mkExpectedObservation {
  eo_observation_id : bytes;
  eo_value : ConstValue
}.
#[global] Instance ExpectedObservation_eq_dec : EqDecision ExpectedObservation.
Proof. solve_decision. Defined.

Record TestCaseDefinition : Type := mkTestCaseDefinition {
  tc_entity_id : N;
  tc_target : N;
  tc_inputs : list ConstValue;
  tc_effect_environment : EffectEnvironment;
  tc_expected : ExpectedOutcome;
  tc_observations : list ExpectedObservation;
  tc_resource_limits : ResourceLimits
}.
#[global] Instance TestCaseDefinition_eq_dec : EqDecision TestCaseDefinition.
Proof. solve_decision. Defined.

Record WorkspaceDefinition : Type := mkWorkspaceDefinition {
  wd_entity_id : N;
  wd_packages : list N;
  wd_root_namespace : N;
  wd_capability_requirements : list N;
  wd_contracts : list N;
  wd_tests : list N
}.
#[global] Instance WorkspaceDefinition_eq_dec : EqDecision WorkspaceDefinition.
Proof. solve_decision. Defined.

Record PackageDefinition : Type := mkPackageDefinition {
  pd_entity_id : N;
  pd_workspace : N;
  pd_root_namespace : N;
  pd_dependencies : list N;
  pd_exports : list N
}.
#[global] Instance PackageDefinition_eq_dec : EqDecision PackageDefinition.
Proof. solve_decision. Defined.

Record NamespaceDefinition : Type := mkNamespaceDefinition {
  nd_entity_id : N;
  nd_parent : option N;
  nd_members : list N
}.
#[global] Instance NamespaceDefinition_eq_dec : EqDecision NamespaceDefinition.
Proof. solve_decision. Defined.

Record EntryPointDefinition : Type := mkEntryPointDefinition {
  ep_entity_id : N;
  ep_function : N;
  ep_exposure : EntryExposure
}.
#[global] Instance EntryPointDefinition_eq_dec : EqDecision EntryPointDefinition.
Proof. solve_decision. Defined.

Record PolicyBindingDefinition : Type := mkPolicyBindingDefinition {
  pb_entity_id : N;
  pb_subject : N;
  pb_requirements : list N
}.
#[global] Instance PolicyBindingDefinition_eq_dec : EqDecision PolicyBindingDefinition.
Proof. solve_decision. Defined.

Record DependencyBindingDefinition : Type := mkDependencyBindingDefinition {
  db_entity_id : N;
  db_dependency_root : bytes;
  db_external_package : N;
  db_local_namespace : N
}.
#[global] Instance DependencyBindingDefinition_eq_dec : EqDecision DependencyBindingDefinition.
Proof. solve_decision. Defined.

Record TypeParameterDef : Type := mkTypeParameterDef {
  tp_ordinal : N
}.
#[global] Instance TypeParameterDef_eq_dec : EqDecision TypeParameterDef.
Proof. solve_decision. Defined.

Record RecordField : Type := mkRecordField {
  rf_member_id : N;
  rf_value_type : TypeExpr;
  rf_visibility : Visibility
}.
#[global] Instance RecordField_eq_dec : EqDecision RecordField.
Proof. solve_decision. Defined.

Record VariantCase : Type := mkVariantCase {
  vc_member_id : N;
  vc_payload_type : option TypeExpr
}.
#[global] Instance VariantCase_eq_dec : EqDecision VariantCase.
Proof. solve_decision. Defined.

Inductive TypeDefForm : Type :=
| FormRecord (x : list RecordField)
| FormVariant (x : list VariantCase).
#[global] Instance TypeDefForm_eq_dec : EqDecision TypeDefForm.
Proof. solve_decision. Defined.

Definition TypeDefForm_tag (x : TypeDefForm) : N :=
  match x with
  | FormRecord _ => 1
  | FormVariant _ => 2
  end.

Record TypeDefinition : Type := mkTypeDefinition {
  td_entity_id : N;
  td_type_parameters : list TypeParameterDef;
  td_form : TypeDefForm;
  td_invariants : list N;
  td_visibility : Visibility
}.
#[global] Instance TypeDefinition_eq_dec : EqDecision TypeDefinition.
Proof. solve_decision. Defined.

(** ** Functions *)

Inductive ParameterRole : Type :=
| PRFunction
| PRBlock.
#[global] Instance ParameterRole_eq_dec : EqDecision ParameterRole.
Proof. solve_decision. Defined.

Definition ParameterRole_tag (x : ParameterRole) : N :=
  match x with
  | PRFunction => 1
  | PRBlock => 2
  end.

Inductive Reachability : Type :=
| RCRequired
| RCExplicitlyUnreachable.
#[global] Instance Reachability_eq_dec : EqDecision Reachability.
Proof. solve_decision. Defined.

Definition Reachability_tag (x : Reachability) : N :=
  match x with
  | RCRequired => 1
  | RCExplicitlyUnreachable => 2
  end.

Record OperationResultRef : Type := mkOperationResultRef {
  orr_operation : N;
  orr_result_index : N
}.
#[global] Instance OperationResultRef_eq_dec : EqDecision OperationResultRef.
Proof. solve_decision. Defined.

Inductive ValueRef : Type :=
| VRParameter (x : N)
| VROperationResult (x : OperationResultRef).
#[global] Instance ValueRef_eq_dec : EqDecision ValueRef.
Proof. solve_decision. Defined.

Definition ValueRef_tag (x : ValueRef) : N :=
  match x with
  | VRParameter _ => 1
  | VROperationResult _ => 2
  end.

Record VariantImmediate : Type := mkVariantImmediate {
  vi_definition : N;
  vi_member_id : N
}.
#[global] Instance VariantImmediate_eq_dec : EqDecision VariantImmediate.
Proof. solve_decision. Defined.

Inductive Immediate : Type :=
| ImmNone
| ImmEntity (x : N)
| ImmIndex (x : N)
| ImmField (x : N)
| ImmVariant (x : VariantImmediate)
| ImmObservation (x : bytes)
| ImmFunction (x : FunctionRefValue).
#[global] Instance Immediate_eq_dec : EqDecision Immediate.
Proof. solve_decision. Defined.

Definition Immediate_tag (x : Immediate) : N :=
  match x with
  | ImmNone => 1
  | ImmEntity _ => 2
  | ImmIndex _ => 3
  | ImmField _ => 4
  | ImmVariant _ => 5
  | ImmObservation _ => 6
  | ImmFunction _ => 7
  end.

Inductive Opcode : Type :=
| OpConstantRef
| OpTupleNew
| OpTupleGet
| OpRecordNew
| OpRecordGet
| OpVariantNew
| OpVariantGet
| OpVectorNew
| OpVectorLen
| OpVectorGet
| OpVectorSet
| OpMapNew
| OpMapGet
| OpMapContains
| OpMapInsert
| OpMapRemove
| OpIntAddChecked
| OpIntSubChecked
| OpIntMulChecked
| OpIntDivChecked
| OpIntRemChecked
| OpIntNegChecked
| OpIntShlChecked
| OpIntShrChecked
| OpFloatAdd
| OpFloatSub
| OpFloatMul
| OpFloatDiv
| OpFloatNeg
| OpFloatFma
| OpEqual
| OpNotEqual
| OpLessThan
| OpLessEqual
| OpGreaterThan
| OpGreaterEqual
| OpBoolNot
| OpBoolAnd
| OpBoolOr
| OpCallDirect
| OpOptionSome
| OpOptionNone
| OpResultOk
| OpResultErr
| OpContractAssert
| OpTestObserve
| OpEffectRequest
| OpAdapterInvoke
| OpCapabilityNarrow
| OpCellNew
| OpCellGet
| OpCellSet
| OpValueHash
| OpGlobalGet
| OpFunctionRef.
#[global] Instance Opcode_eq_dec : EqDecision Opcode.
Proof. solve_decision. Defined.

Definition Opcode_tag (x : Opcode) : N :=
  match x with
  | OpConstantRef => 1
  | OpTupleNew => 16
  | OpTupleGet => 17
  | OpRecordNew => 18
  | OpRecordGet => 19
  | OpVariantNew => 20
  | OpVariantGet => 21
  | OpVectorNew => 32
  | OpVectorLen => 33
  | OpVectorGet => 34
  | OpVectorSet => 35
  | OpMapNew => 36
  | OpMapGet => 37
  | OpMapContains => 38
  | OpMapInsert => 39
  | OpMapRemove => 40
  | OpIntAddChecked => 64
  | OpIntSubChecked => 65
  | OpIntMulChecked => 66
  | OpIntDivChecked => 67
  | OpIntRemChecked => 68
  | OpIntNegChecked => 69
  | OpIntShlChecked => 70
  | OpIntShrChecked => 71
  | OpFloatAdd => 80
  | OpFloatSub => 81
  | OpFloatMul => 82
  | OpFloatDiv => 83
  | OpFloatNeg => 84
  | OpFloatFma => 85
  | OpEqual => 96
  | OpNotEqual => 97
  | OpLessThan => 98
  | OpLessEqual => 99
  | OpGreaterThan => 100
  | OpGreaterEqual => 101
  | OpBoolNot => 102
  | OpBoolAnd => 103
  | OpBoolOr => 104
  | OpCallDirect => 112
  | OpOptionSome => 128
  | OpOptionNone => 129
  | OpResultOk => 130
  | OpResultErr => 131
  | OpContractAssert => 144
  | OpTestObserve => 145
  | OpEffectRequest => 160
  | OpAdapterInvoke => 161
  | OpCapabilityNarrow => 162
  | OpCellNew => 176
  | OpCellGet => 177
  | OpCellSet => 178
  | OpValueHash => 192
  | OpGlobalGet => 193
  | OpFunctionRef => 194
  end.

Definition Opcode_from_tag (tag : N) : option Opcode :=
  match tag with
  | 1 => Some OpConstantRef
  | 16 => Some OpTupleNew
  | 17 => Some OpTupleGet
  | 18 => Some OpRecordNew
  | 19 => Some OpRecordGet
  | 20 => Some OpVariantNew
  | 21 => Some OpVariantGet
  | 32 => Some OpVectorNew
  | 33 => Some OpVectorLen
  | 34 => Some OpVectorGet
  | 35 => Some OpVectorSet
  | 36 => Some OpMapNew
  | 37 => Some OpMapGet
  | 38 => Some OpMapContains
  | 39 => Some OpMapInsert
  | 40 => Some OpMapRemove
  | 64 => Some OpIntAddChecked
  | 65 => Some OpIntSubChecked
  | 66 => Some OpIntMulChecked
  | 67 => Some OpIntDivChecked
  | 68 => Some OpIntRemChecked
  | 69 => Some OpIntNegChecked
  | 70 => Some OpIntShlChecked
  | 71 => Some OpIntShrChecked
  | 80 => Some OpFloatAdd
  | 81 => Some OpFloatSub
  | 82 => Some OpFloatMul
  | 83 => Some OpFloatDiv
  | 84 => Some OpFloatNeg
  | 85 => Some OpFloatFma
  | 96 => Some OpEqual
  | 97 => Some OpNotEqual
  | 98 => Some OpLessThan
  | 99 => Some OpLessEqual
  | 100 => Some OpGreaterThan
  | 101 => Some OpGreaterEqual
  | 102 => Some OpBoolNot
  | 103 => Some OpBoolAnd
  | 104 => Some OpBoolOr
  | 112 => Some OpCallDirect
  | 128 => Some OpOptionSome
  | 129 => Some OpOptionNone
  | 130 => Some OpResultOk
  | 131 => Some OpResultErr
  | 144 => Some OpContractAssert
  | 145 => Some OpTestObserve
  | 160 => Some OpEffectRequest
  | 161 => Some OpAdapterInvoke
  | 162 => Some OpCapabilityNarrow
  | 176 => Some OpCellNew
  | 177 => Some OpCellGet
  | 178 => Some OpCellSet
  | 192 => Some OpValueHash
  | 193 => Some OpGlobalGet
  | 194 => Some OpFunctionRef
  | _ => None
  end%N.

Record Operation : Type := mkOperation {
  op_entity_id : N;
  op_block : N;
  op_ordinal : N;
  op_opcode : Opcode;
  op_operands : list ValueRef;
  op_result_types : list TypeExpr;
  op_immediate : Immediate
}.
#[global] Instance Operation_eq_dec : EqDecision Operation.
Proof. solve_decision. Defined.

Record TargetEdge : Type := mkTargetEdge {
  te_target : N;
  te_arguments : list ValueRef
}.
#[global] Instance TargetEdge_eq_dec : EqDecision TargetEdge.
Proof. solve_decision. Defined.

Inductive BuiltinCase : Type :=
| BCNone
| BCSome
| BCOk
| BCErr.
#[global] Instance BuiltinCase_eq_dec : EqDecision BuiltinCase.
Proof. solve_decision. Defined.

Definition BuiltinCase_tag (x : BuiltinCase) : N :=
  match x with
  | BCNone => 1
  | BCSome => 2
  | BCOk => 3
  | BCErr => 4
  end.

Inductive CaseKey : Type :=
| KeyMember (x : N)
| KeyBuiltin (x : BuiltinCase).
#[global] Instance CaseKey_eq_dec : EqDecision CaseKey.
Proof. solve_decision. Defined.

Definition CaseKey_tag (x : CaseKey) : N :=
  match x with
  | KeyMember _ => 1
  | KeyBuiltin _ => 2
  end.

Inductive SwitchArgument : Type :=
| SAValue (x : ValueRef)
| SACasePayload.
#[global] Instance SwitchArgument_eq_dec : EqDecision SwitchArgument.
Proof. solve_decision. Defined.

Definition SwitchArgument_tag (x : SwitchArgument) : N :=
  match x with
  | SAValue _ => 1
  | SACasePayload => 2
  end.

Record SwitchEdge : Type := mkSwitchEdge {
  se_target : N;
  se_arguments : list SwitchArgument
}.
#[global] Instance SwitchEdge_eq_dec : EqDecision SwitchEdge.
Proof. solve_decision. Defined.

Record SwitchCase : Type := mkSwitchCase {
  sc_case_key : CaseKey;
  sc_edge : SwitchEdge
}.
#[global] Instance SwitchCase_eq_dec : EqDecision SwitchCase.
Proof. solve_decision. Defined.

Inductive TrapCode : Type :=
| TrapUnreachable
| TrapResourceExhausted
| TrapAdapterContractViolation
| TrapInternalInvariant.
#[global] Instance TrapCode_eq_dec : EqDecision TrapCode.
Proof. solve_decision. Defined.

Definition TrapCode_tag (x : TrapCode) : N :=
  match x with
  | TrapUnreachable => 1
  | TrapResourceExhausted => 2
  | TrapAdapterContractViolation => 3
  | TrapInternalInvariant => 4
  end.

Record ReturnTerminator : Type := mkReturnTerminator {
  ret_value : ValueRef
}.
#[global] Instance ReturnTerminator_eq_dec : EqDecision ReturnTerminator.
Proof. solve_decision. Defined.

Record BranchTerminator : Type := mkBranchTerminator {
  br_edge : TargetEdge
}.
#[global] Instance BranchTerminator_eq_dec : EqDecision BranchTerminator.
Proof. solve_decision. Defined.

Record CondBranchTerminator : Type := mkCondBranchTerminator {
  cbr_condition : ValueRef;
  cbr_if_true : TargetEdge;
  cbr_if_false : TargetEdge
}.
#[global] Instance CondBranchTerminator_eq_dec : EqDecision CondBranchTerminator.
Proof. solve_decision. Defined.

Record VariantSwitchTerminator : Type := mkVariantSwitchTerminator {
  vs_value : ValueRef;
  vs_cases : list SwitchCase
}.
#[global] Instance VariantSwitchTerminator_eq_dec : EqDecision VariantSwitchTerminator.
Proof. solve_decision. Defined.

Record TrapTerminator : Type := mkTrapTerminator {
  trap_code : TrapCode;
  trap_payload : option ValueRef
}.
#[global] Instance TrapTerminator_eq_dec : EqDecision TrapTerminator.
Proof. solve_decision. Defined.

Inductive Terminator : Type :=
| TermReturn (x : ReturnTerminator)
| TermBranch (x : BranchTerminator)
| TermCondBranch (x : CondBranchTerminator)
| TermVariantSwitch (x : VariantSwitchTerminator)
| TermTrap (x : TrapTerminator).
#[global] Instance Terminator_eq_dec : EqDecision Terminator.
Proof. solve_decision. Defined.

Definition Terminator_tag (x : Terminator) : N :=
  match x with
  | TermReturn _ => 1
  | TermBranch _ => 2
  | TermCondBranch _ => 3
  | TermVariantSwitch _ => 4
  | TermTrap _ => 5
  end.

Record ParameterDef : Type := mkParameterDef {
  prm_entity_id : N;
  prm_owner : N;
  prm_role : ParameterRole;
  prm_ordinal : N;
  prm_value_type : TypeExpr
}.
#[global] Instance ParameterDef_eq_dec : EqDecision ParameterDef.
Proof. solve_decision. Defined.

Record Block : Type := mkBlock {
  blk_entity_id : N;
  blk_function : N;
  blk_parameters : list N;
  blk_operations : list N;
  blk_terminator : Terminator;
  blk_reachability : Reachability
}.
#[global] Instance Block_eq_dec : EqDecision Block.
Proof. solve_decision. Defined.

Record FunctionGraph : Type := mkFunctionGraph {
  fg_entity_id : N;
  fg_type_parameters : list TypeParameterDef;
  fg_parameters : list N;
  fg_result_type : TypeExpr;
  fg_effects : list N;
  fg_entry_block : N;
  fg_blocks : list N;
  fg_contracts : list N;
  fg_visibility : Visibility
}.
#[global] Instance FunctionGraph_eq_dec : EqDecision FunctionGraph.
Proof. solve_decision. Defined.

(** ** Theorems *)

(** The opcode tags are a bijection between the opcodes and the numbers
    [from_tag] accepts: every opcode is found back from its tag, and a number
    that names an opcode is that opcode's tag. *)
Theorem Opcode_tag_roundtrip tag op : Opcode_from_tag tag = Some op <-> Opcode_tag op = tag.
Proof.
  split; [|by intros <-; destruct op].
  intros H. destruct (decide (tag < 256)%N) as [Hlt|Hge].
  - assert (forallb (fun n => match Opcode_from_tag (N.of_nat n) with
      | Some op => (Opcode_tag op =? N.of_nat n)%N | None => true end) (seq 0 256) = true) as Hall
      by (vm_compute; reflexivity).
    rewrite forallb_forall in Hall. specialize (Hall (N.to_nat tag)). rewrite N2Nat.id, H in Hall.
    apply N.eqb_eq, Hall, in_seq. lia.
  - exfalso. revert H. unfold Opcode_from_tag. destruct tag as [|p]; [done|].
    do 8 (destruct p as [p|p|]; try done); exfalso; lia.
Qed.
