(* ===== verification/Types.v ===== *)
(** * The type system: expressions (crates/sley-check/src/lib.rs)

    Error codes, the structural traits, substitution, and the structural checks
    of type expressions against an environment of definitions.  [value] and
    [depth] are the code's arguments; depth starts at 1 and may not pass
    [MAX_TYPE_DEPTH]. *)

From S2P Require Import Prelude BTree Bytes Ssmc.
From stdpp Require Import strings.
Set Warnings "-register-all".

(** ** Errors and limits *)

Definition MAX_DEFINITIONS : N := 1000000.
Definition MAX_TYPE_WALK_VISITS : N := 1048576.
Definition CANONICAL_F32_NAN : N := 0x7fc00000.
Definition CANONICAL_F64_NAN : N := 0x7ff8000000000000.

(** The variants of [TypeErrorCode], prefixed by [Te]; [TypeError] only wraps
    the code. *)
Inductive TypeErrorCode : Type :=
| TeDepthLimit
| TeWidthInvalid
| TeParameterOutOfScope
| TeArgumentLimit
| TeArgumentArity
| TeDefinitionUnknown
| TeDefinitionDuplicate
| TeDefinitionCycle
| TeMemberDuplicate
| TeMemberUnknown
| TeSetOrder
| TeNotOrderable
| TeNotHashable
| TeNotPersistable
| TeConstShape
| TeConstRange
| TeFloatNonCanonical
| TeConstDuplicateKey
| TeResourceLimit
| TeImplicitCoercion
| TeBuiltinFailureInvalid.

#[global] Instance TypeErrorCode_eq_dec : EqDecision TypeErrorCode.
Proof. solve_decision. Defined.

Definition TypeErrorCode_as_str (c : TypeErrorCode) : string :=
  match c with
  | TeDepthLimit => "TYPE_DEPTH_LIMIT"
  | TeWidthInvalid => "TYPE_WIDTH_INVALID"
  | TeParameterOutOfScope => "TYPE_PARAMETER_OUT_OF_SCOPE"
  | TeArgumentLimit => "TYPE_ARGUMENT_LIMIT"
  | TeArgumentArity => "TYPE_ARGUMENT_ARITY"
  | TeDefinitionUnknown => "TYPE_DEFINITION_UNKNOWN"
  | TeDefinitionDuplicate => "TYPE_DEFINITION_DUPLICATE"
  | TeDefinitionCycle => "TYPE_DEFINITION_CYCLE"
  | TeMemberDuplicate => "TYPE_MEMBER_DUPLICATE"
  | TeMemberUnknown => "TYPE_MEMBER_UNKNOWN"
  | TeSetOrder => "TYPE_SET_ORDER"
  | TeNotOrderable => "TYPE_NOT_ORDERABLE"
  | TeNotHashable => "TYPE_NOT_HASHABLE"
  | TeNotPersistable => "TYPE_NOT_PERSISTABLE"
  | TeConstShape => "TYPE_CONST_SHAPE"
  | TeConstRange => "TYPE_CONST_RANGE"
  | TeFloatNonCanonical => "TYPE_FLOAT_NON_CANONICAL"
  | TeConstDuplicateKey => "TYPE_CONST_DUPLICATE_KEY"
  | TeResourceLimit => "TYPE_RESOURCE_LIMIT"
  | TeImplicitCoercion => "TYPE_IMPLICIT_COERCION"
  | TeBuiltinFailureInvalid => "TYPE_BUILTIN_FAILURE_INVALID"
  end%string.

Definition TypeErrorCode_numeric (c : TypeErrorCode) : N :=
  match c with
  | TeDepthLimit => 21000
  | TeWidthInvalid => 21001
  | TeParameterOutOfScope => 21002
  | TeArgumentLimit => 21003
  | TeArgumentArity => 21004
  | TeDefinitionUnknown => 21005
  | TeDefinitionDuplicate => 21006
  | TeDefinitionCycle => 21007
  | TeMemberDuplicate => 21008
  | TeMemberUnknown => 21009
  | TeSetOrder => 21010
  | TeNotOrderable => 21011
  | TeNotHashable => 21012
  | TeNotPersistable => 21013
  | TeConstShape => 21014
  | TeConstRange => 21015
  | TeFloatNonCanonical => 21016
  | TeConstDuplicateKey => 21017
  | TeResourceLimit => 21018
  | TeImplicitCoercion => 21019
  | TeBuiltinFailureInvalid => 21020
  end.

Abbreviation type_result A := (result TypeErrorCode A).

(** ** Traits *)

Record TypeTraits : Type := mkTraits {
  equality : bool;
  total_order : bool;
  canonical_hash : bool;
  persistable : bool
}.

#[global] Instance TypeTraits_eq_dec : EqDecision TypeTraits.
Proof. solve_decision. Defined.

Definition TypeTraits_ALL : TypeTraits := mkTraits true true true true.

Definition combine (a b : TypeTraits) : TypeTraits :=
  mkTraits (equality a && equality b) (total_order a && total_order b)
    (canonical_hash a && canonical_hash b) (persistable a && persistable b).

(** [TypeTraits { total_order: false, ..t }] *)
Definition no_order (t : TypeTraits) : TypeTraits :=
  mkTraits (equality t) false (canonical_hash t) (persistable t).

(** ** Leaf checks *)

Definition check_depth (depth : N) : type_result unit :=
  if (MAX_TYPE_DEPTH <? depth)%N then Err TeDepthLimit else Ok tt.

Definition check_width (width : IntegerWidth) : type_result unit :=
  if is_epoch_1 width then Ok tt else Err TeWidthInvalid.

(** [values.windows(2).all(|pair| pair[0] < pair[1])] *)
Definition ensure_sorted_unique (values : list EntityId) : type_result unit :=
  if strictly_sorted values then Ok tt else Err TeSetOrder.

Definition require_map_key_traits (traits : TypeTraits) : type_result unit :=
  if negb (total_order traits) then Err TeNotOrderable
  else if negb (equality traits) then Err TeNotOrderable
  else if negb (canonical_hash traits) then Err TeNotHashable
  else if negb (persistable traits) then Err TeNotPersistable
  else Ok tt.

Definition check_signed_range (width : IntegerWidth) (value : Z) : type_result unit :=
  check_width width ≫= fun _ =>
  if (width =? 128)%N then Ok tt
  else
    let limit := Z.shiftl 1 (Z.of_N (width - 1)) in
    if ((- limit <=? value) && (value <? limit))%Z then Ok tt else Err TeConstRange.

Definition check_unsigned_range (width : IntegerWidth) (value : N) : type_result unit :=
  check_width width ≫= fun _ =>
  if (width =? 128)%N then Ok tt
  else
    let limit := N.shiftl 1 width in
    if (value <? limit)%N then Ok tt else Err TeConstRange.

Definition check_f32 (bits : N) : type_result unit :=
  if (bits =? 0x80000000)%N then Err TeFloatNonCanonical
  else
    let is_nan := (N.land bits 0x7f800000 =? 0x7f800000)%N && negb (N.land bits 0x007fffff =? 0)%N in
    if is_nan && negb (bits =? CANONICAL_F32_NAN)%N then Err TeFloatNonCanonical else Ok tt.

Definition check_f64 (bits : N) : type_result unit :=
  if (bits =? 0x8000000000000000)%N then Err TeFloatNonCanonical
  else
    let is_nan :=
      (N.land bits 0x7ff0000000000000 =? 0x7ff0000000000000)%N
      && negb (N.land bits 0x000fffffffffffff =? 0)%N in
    if is_nan && negb (bits =? CANONICAL_F64_NAN)%N then Err TeFloatNonCanonical else Ok tt.

Definition check_payload_len (length : N) : type_result unit :=
  if (MAX_CONSTANT_PAYLOAD_BYTES <? length)%N then Err TeResourceLimit else Ok tt.

Definition check_collection_len (length : N) : type_result unit :=
  if (MAX_CONSTANT_ELEMENTS <? length)%N then Err TeResourceLimit else Ok tt.

Definition check_builtin_failure (kind : BuiltinFailureKind) (code : N) : type_result unit :=
  let valid :=
    match kind with
    | BFArithmetic => (1 <=? code)%N && (code <=? 3)%N
    | BFIndex => (1 <=? code)%N && (code <=? 2)%N
    | BFDuplicateKey | BFContractViolation => (code =? 1)%N
    | BFCapability => (1 <=? code)%N && (code <=? 4)%N
    end in
  if valid then Ok tt else Err TeBuiltinFailureInvalid.

(** ** Walks over type expressions *)

Fixpoint contains_parameter (value : TypeExpr) : bool :=
  match value with
  | TTypeParameter _ => true
  | TTuple values => existsb contains_parameter values
  | TNamed _ arguments => existsb contains_parameter arguments
  | TVector value | TOption value | TLocalCell value => contains_parameter value
  | TOrderedMap key value => contains_parameter key || contains_parameter value
  | TResult ok error => contains_parameter ok || contains_parameter error
  | TFunctionRef parameters result _ => existsb contains_parameter parameters || contains_parameter result
  | _ => false
  end.

Fixpoint collect_named_dependencies (value : TypeExpr) (dependencies : gset EntityId) : gset EntityId :=
  match value with
  | TNamed definition arguments =>
      foldl (fun deps argument => collect_named_dependencies argument deps)
        ({[ definition ]} ∪ dependencies) arguments
  | TTuple values => foldl (fun deps value => collect_named_dependencies value deps) dependencies values
  | TVector value | TOption value | TLocalCell value => collect_named_dependencies value dependencies
  | TOrderedMap key value =>
      collect_named_dependencies value (collect_named_dependencies key dependencies)
  | TResult ok error =>
      collect_named_dependencies error (collect_named_dependencies ok dependencies)
  | TFunctionRef parameters result _ =>
      collect_named_dependencies result
        (foldl (fun deps value => collect_named_dependencies value deps) dependencies parameters)
  | _ => dependencies
  end.

(** [arguments.get(index)] *)
Definition argument_at (arguments : list TypeExpr) (index : N) : option TypeExpr :=
  arguments !! N.to_nat index.

Fixpoint substitute (value : TypeExpr) (arguments : list TypeExpr) (depth : N) : type_result TypeExpr :=
  check_depth depth ≫= fun _ =>
  let next := (depth + 1)%N in
  match value with
  | TTypeParameter index => ok_or TeParameterOutOfScope (argument_at arguments index)
  | TTuple values => TTuple <$> map_res (fun value => substitute value arguments next) values
  | TNamed definition args =>
      TNamed definition <$> map_res (fun value => substitute value arguments next) args
  | TVector value => TVector <$> substitute value arguments next
  | TOrderedMap key value =>
      key ← substitute key arguments next;
      value ← substitute value arguments next;
      Ok (TOrderedMap key value)
  | TOption value => TOption <$> substitute value arguments next
  | TResult ok error =>
      ok ← substitute ok arguments next;
      error ← substitute error arguments next;
      Ok (TResult ok error)
  | TFunctionRef parameters result effects =>
      parameters ← map_res (fun value => substitute value arguments next) parameters;
      result ← substitute result arguments next;
      Ok (TFunctionRef parameters result effects)
  | TLocalCell value => TLocalCell <$> substitute value arguments next
  | other => Ok other
  end.

(** ** The environment *)

(** [TypeEnvironment]: the definitions by identity. *)
Abbreviation Definitions := (gmap EntityId TypeDefinition).

Definition definition (env : Definitions) (id : EntityId) : type_result TypeDefinition :=
  ok_or TeDefinitionUnknown (env !! id).

(** The member types of a definition, in declaration order: the loops over
    the fields of a record, or over the cases that have a payload. *)
Definition form_types (form : TypeDefForm) : list TypeExpr :=
  match form with
  | FormRecord fields => rf_value_type <$> fields
  | FormVariant cases => omap vc_payload_type cases
  end.

Fixpoint check_type_inner (env : Definitions) (value : TypeExpr) (parameter_count depth : N)
    : type_result unit :=
  check_depth depth ≫= fun _ =>
  match value with
  | TSInt width | TUInt width => check_width width
  | TTuple elements =>
      guard! (len elements <=? MAX_TUPLE_ITEMS)%N else TeResourceLimit;
      for_each (fun element => check_type_inner env element parameter_count (depth + 1)) elements
  | TNamed id arguments =>
      guard! (len arguments <=? MAX_TYPE_ARGUMENTS)%N else TeArgumentLimit;
      def ← definition env id;
      guard! (len arguments =? len (td_type_parameters def))%N else TeArgumentArity;
      for_each (fun argument => check_type_inner env argument parameter_count (depth + 1)) arguments
  | TVector element | TOption element | TLocalCell element =>
      check_type_inner env element parameter_count (depth + 1)
  | TOrderedMap key value =>
      check_type_inner env key parameter_count (depth + 1) ≫= fun _ =>
      check_type_inner env value parameter_count (depth + 1)
  | TResult ok error =>
      check_type_inner env ok parameter_count (depth + 1) ≫= fun _ =>
      check_type_inner env error parameter_count (depth + 1)
  | TFunctionRef parameters result effects =>
      guard! (len parameters <=? MAX_MEMBERS)%N else TeResourceLimit;
      ensure_sorted_unique effects ≫= fun _ =>
      for_each (fun parameter => check_type_inner env parameter parameter_count (depth + 1)) parameters ≫= fun _ =>
      check_type_inner env result parameter_count (depth + 1)
  | TTypeParameter index =>
      if (parameter_count <=? index)%N then Err TeParameterOutOfScope else Ok tt
  | _ => Ok tt
  end.

(** ** Uniform shape of the walks

    Every walk checks the depth, does something local, and goes on with the
    immediate parts one level down; the lemmas of this section say so once. *)

(** Predicates on every node of a type. *)
Inductive AllNodes (P : TypeExpr -> Prop) : TypeExpr -> Prop :=
| AllNodes_node t : P t -> Forall (AllNodes P) (type_children t) -> AllNodes P t.

Lemma AllNodes_inv P t : AllNodes P t <-> P t /\ Forall (AllNodes P) (type_children t).
Proof. split; [by destruct 1|]. intros [? ?]. by constructor. Qed.

Lemma AllNodes_impl (P Q : TypeExpr -> Prop) t :
  (forall t, P t -> Q t) -> AllNodes P t -> AllNodes Q t.
Proof.
  intros HPQ. induction t as [t IH] using TypeExpr_ind'. rewrite !AllNodes_inv.
  intros [HP Hc]. split; [auto|]. rewrite Forall_forall in *. auto.
Qed.

(** The number of levels of a type. *)
Fixpoint type_height (t : TypeExpr) : N :=
  (1 + match t with
      | TTuple l | TNamed _ l => foldr (fun c m => N.max (type_height c) m) 0%N l
      | TVector x | TOption x | TLocalCell x => type_height x
      | TOrderedMap x y | TResult x y => N.max (type_height x) (type_height y)
      | TFunctionRef l x _ => N.max (foldr (fun c m => N.max (type_height c) m) 0%N l) (type_height x)
      | _ => 0
      end)%N.

Definition max_height (l : list TypeExpr) : N := foldr (fun c m => N.max (type_height c) m) 0%N l.

Lemma max_height_app l1 l2 : max_height (l1 ++ l2) = N.max (max_height l1) (max_height l2).
Proof. induction l1 as [|x l1 IH]; simpl; [lia|]. rewrite IH. lia. Qed.

Lemma type_height_eq t : type_height t = (1 + max_height (type_children t))%N.
Proof.
  destruct t; try reflexivity; cbn [type_height type_children max_height foldr]; try lia.
  rewrite max_height_app. cbn [max_height foldr]. fold (max_height parameters). lia.
Qed.

Lemma max_height_elem c l : c ∈ l -> (type_height c <= max_height l)%N.
Proof. induction 1; simpl; lia. Qed.

Lemma max_height_le l h : Forall (fun c => type_height c <= h)%N l <-> (max_height l <= h)%N.
Proof. induction l as [|x l IH]; simpl; [split; [lia|constructor]|]. rewrite Forall_cons, IH. lia. Qed.

(** The local part of [check_type_inner]. *)
Definition node_check (env : Definitions) (value : TypeExpr) (parameter_count : N) : type_result unit :=
  match value with
  | TSInt width | TUInt width => check_width width
  | TTuple elements => ensure (len elements <=? MAX_TUPLE_ITEMS)%N TeResourceLimit
  | TNamed id arguments =>
      guard! (len arguments <=? MAX_TYPE_ARGUMENTS)%N else TeArgumentLimit;
      def ← definition env id;
      ensure (len arguments =? len (td_type_parameters def))%N TeArgumentArity
  | TFunctionRef parameters result effects =>
      guard! (len parameters <=? MAX_MEMBERS)%N else TeResourceLimit;
      ensure_sorted_unique effects
  | TTypeParameter index =>
      if (parameter_count <=? index)%N then Err TeParameterOutOfScope else Ok tt
  | _ => Ok tt
  end.

Definition node_ok (env : Definitions) (n : N) (t : TypeExpr) : Prop := node_check env t n = Ok tt.

(** A type whose nodes are all in order: widths, sizes, definitions and their
    arity, sorted effects, parameters below [n]. *)
Definition WellFormed (env : Definitions) (n : N) : TypeExpr -> Prop := AllNodes (node_ok env n).

Lemma for_each_single {E A} (f : A -> result E unit) x : for_each f [x] = f x.
Proof. simpl. by destruct (f x) as [[]|]. Qed.

Lemma for_each_app {E A} (f : A -> result E unit) l1 l2 :
  for_each f (l1 ++ l2) = for_each f l1 ≫= fun _ => for_each f l2.
Proof. induction l1 as [|x l1 IH]; simpl; [done|]. destruct (f x); simpl; [apply IH|done]. Qed.

Lemma for_each_pair {E A} (f : A -> result E unit) x y : for_each f [x; y] = f x ≫= fun _ => f y.
Proof. simpl. destruct (f x); simpl; [|done]. by destruct (f y) as [[]|]. Qed.

Lemma check_type_inner_eq env t n d :
  check_type_inner env t n d =
    check_depth d ≫= fun _ => node_check env t n ≫= fun _ =>
    for_each (fun c => check_type_inner env c n (d + 1)) (type_children t).
Proof.
  destruct t; cbn [check_type_inner type_children node_check];
    destruct (check_depth d) as [[]|]; cbn [mbind result_bind]; try reflexivity;
    rewrite ?for_each_single, ?for_each_pair, ?for_each_app; try reflexivity.
  - by destruct (check_width width) as [[]|].
  - by destruct (check_width width) as [[]|].
  - destruct (len arguments <=? MAX_TYPE_ARGUMENTS)%N; [|done]. cbn [ensure mbind result_bind].
    by destruct (definition env definition0).
  - destruct (len parameters <=? MAX_MEMBERS)%N; [|done]. cbn [ensure mbind result_bind].
    destruct (ensure_sorted_unique effects); [|done]. cbn [mbind result_bind].
    by destruct (for_each _ parameters); cbn [mbind result_bind]; rewrite ?for_each_single.
  - by destruct (n <=? ordinal)%N.
Qed.

Lemma check_depth_Ok d u : check_depth d = Ok u <-> (d <= MAX_TYPE_DEPTH)%N.
Proof. unfold check_depth. destruct u. destruct (N.ltb_spec MAX_TYPE_DEPTH d); split; (done || lia). Qed.

Lemma check_type_inner_spec env t n d :
  check_type_inner env t n d = Ok tt <->
  WellFormed env n t /\ (d + type_height t <= MAX_TYPE_DEPTH + 1)%N.
Proof.
  revert d. induction t as [t IH] using TypeExpr_ind'. intros d.
  unfold WellFormed. rewrite check_type_inner_eq, AllNodes_inv, type_height_eq.
  rewrite Forall_forall in IH. rewrite !Forall_forall. split.
  - intros H. apply bind_Ok in H as ([] & Hd & H). apply bind_Ok in H as ([] & Hn & Hc).
    apply check_depth_Ok in Hd. rewrite for_each_Ok, Forall_forall in Hc. split_and!; [exact Hn| |].
    + intros c Hin. by destruct (proj1 (IH c Hin _) (Hc c Hin)).
    + enough (max_height (type_children t) <= MAX_TYPE_DEPTH - d)%N by (unfold MAX_TYPE_DEPTH in *; lia).
      apply max_height_le, Forall_forall. intros c Hin.
      specialize (Hc c Hin). apply (IH c Hin) in Hc as [_ Hc]. lia.
  - intros [[Hn Hc] Hh]. apply bind_Ok. exists tt. split; [apply check_depth_Ok; lia|].
    apply bind_Ok. exists tt. split; [exact Hn|]. apply for_each_Ok, Forall_forall. intros c Hin. apply (IH c Hin). split; [by apply Hc|].
    pose proof (max_height_elem c _ Hin). lia.
Qed.

(** [check_type] accepts a type exactly when each of its nodes is in order
    (known widths, known definitions with the declared number of arguments,
    sorted effects, bounded sizes, parameters in scope) and it is at most 64
    levels deep counted from the depth it is checked at. *)
Theorem check_type_inner_iff env t n d :
  check_type_inner env t n d = Ok tt <->
  WellFormed env n t /\ (d + type_height t <= MAX_TYPE_DEPTH + 1)%N.
Proof. apply check_type_inner_spec. Qed.

(** *** Substitution *)

(** The same node over other parts. *)
Definition with_children (t : TypeExpr) (l : list TypeExpr) : TypeExpr :=
  match t, l with
  | TTuple _, l => TTuple l
  | TNamed d _, l => TNamed d l
  | TVector _, [x] => TVector x
  | TOption _, [x] => TOption x
  | TLocalCell _, [x] => TLocalCell x
  | TOrderedMap _ _, [x; y] => TOrderedMap x y
  | TResult _ _, [x; y] => TResult x y
  | TFunctionRef p _ e, l =>
      match last l with Some x => TFunctionRef (take (length p) l) x e | None => t end
  | _, _ => t
  end.

Lemma map_res_app {E A B} (f : A -> result E B) l1 l2 :
  map_res f (l1 ++ l2) = map_res f l1 ≫= fun r1 => map_res f l2 ≫= fun r2 => Ok (r1 ++ r2).
Proof.
  induction l1 as [|x l1 IH]; simpl.
  - by destruct (map_res f l2).
  - destruct (f x); simpl; [|done]. rewrite IH. destruct (map_res f l1); simpl; [|done].
    by destruct (map_res f l2).
Qed.

Lemma substitute_eq t args d :
  substitute t args d =
    check_depth d ≫= fun _ =>
    match t with
    | TTypeParameter index => ok_or TeParameterOutOfScope (argument_at args index)
    | _ => l ← map_res (fun c => substitute c args (d + 1)) (type_children t); Ok (with_children t l)
    end.
Proof.
  destruct t; cbn [substitute type_children map_res];
    destruct (check_depth d) as [[]|]; cbn [mbind result_bind]; try reflexivity.
  - by destruct (substitute t args (d + 1)).
  - destruct (substitute t1 args (d + 1)); [|done]. by destruct (substitute t2 args (d + 1)).
  - by destruct (substitute t args (d + 1)).
  - destruct (substitute t1 args (d + 1)); [|done]. by destruct (substitute t2 args (d + 1)).
  - rewrite map_res_app. destruct (map_res _ parameters) as [ps|] eqn:Hp; [|done].
    cbn [mbind result_bind map_res]. destruct (substitute t args (d + 1)) as [r|]; [|done].
    cbn [mbind result_bind with_children]. rewrite last_snoc.
    apply map_res_Ok, Forall2_length in Hp. by rewrite Hp, take_app_length.
  - by destruct (substitute t args (d + 1)).
Qed.

Lemma with_children_children t l :
  length l = length (type_children t) -> type_children (with_children t l) = l.
Proof.
  destruct t; cbn [type_children with_children]; try (by destruct l as [|? [|? [|]]]); try done.
  intros Hl. rewrite length_app in Hl. simpl in Hl.
  destruct l as [|x l] using rev_ind; [simpl in Hl; lia|].
  rewrite last_snoc. cbn [type_children]. rewrite length_app in Hl. simpl in Hl.
  by rewrite take_app_length' by lia.
Qed.

(** The local checks do not look inside the parts. *)
Lemma node_ok_with_children env n m t l :
  length l = length (type_children t) -> (forall i, t <> TTypeParameter i) ->
  node_ok env n t -> node_ok env m (with_children t l).
Proof.
  unfold node_ok. intros Hl Hp. destruct t; cbn [type_children with_children] in *; try done.
  - cbn [node_check]. unfold len. by rewrite Hl.
  - cbn [node_check]. unfold len. by rewrite Hl.
  - by destruct l as [|? [|? [|]]].
  - by destruct l as [|? [|? [|]]].
  - by destruct l as [|? [|? [|]]].
  - by destruct l as [|? [|? [|]]].
  - rewrite length_app in Hl. simpl in Hl.
    destruct l as [|x l] using rev_ind; [simpl in Hl; lia|].
    rewrite last_snoc. cbn [node_check]. rewrite length_app in Hl. simpl in Hl.
    unfold len. rewrite length_take, length_app. simpl.
    by replace (length parameters `min` (length l + 1))%nat with (length parameters) by lia.
  - by destruct l as [|? [|? [|]]].
  - by destruct (Hp ordinal).
Qed.

(** Substituting well-formed arguments into a body that was checked under
    as many parameters always succeeds: the result is well-formed in the scope
    of the arguments, and at most as deep as the body with the deepest argument
    in place of a leaf. *)
Theorem substitute_well_formed env n value args d :
  check_type_inner env value (len args) d = Ok tt ->
  Forall (WellFormed env n) args ->
  exists r, substitute value args d = Ok r /\ WellFormed env n r /\
    (type_height r + 1 <= type_height value + N.max 1 (max_height args))%N.
Proof.
  rewrite check_type_inner_spec. intros [Hwf Hh] Hargs. revert d Hh.
  induction value as [t IH] using TypeExpr_ind'. intros d Hh.
  unfold WellFormed in Hwf. rewrite AllNodes_inv in Hwf. destruct Hwf as [Hn Hc].
  rewrite type_height_eq in Hh. rewrite substitute_eq, (proj2 (check_depth_Ok d tt)) by lia.
  cbn [mbind result_bind].
  assert (forall i, t = TTypeParameter i -> exists r, ok_or TeParameterOutOfScope (argument_at args i) = Ok r /\
    WellFormed env n r /\ (type_height r + 1 <= type_height t + N.max 1 (max_height args))%N) as Hparam.
  { intros i ->. unfold node_ok in Hn. cbn [node_check] in Hn.
    destruct (N.leb_spec (len args) i) as [|Hi]; [done|].
    destruct (lookup_lt_is_Some_2 args (N.to_nat i)) as [r Hr]; [unfold len in Hi; lia|].
    exists r. unfold argument_at. rewrite Hr. split; [done|]. apply list_elem_of_lookup_2 in Hr.
    rewrite Forall_forall in Hargs. split; [by apply Hargs|].
    apply max_height_elem in Hr. cbn [type_height]. lia. }
  assert (exists l, map_res (fun c => substitute c args (d + 1)) (type_children t) = Ok l /\
    Forall (WellFormed env n) l /\
    Forall2 (fun c r => type_height r + 1 <= type_height c + N.max 1 (max_height args))%N (type_children t) l)
    as (l & Hl & Hwl & Hhl).
  { assert (max_height (type_children t) <= MAX_TYPE_DEPTH - d)%N as Hm by lia.
    assert (d <= MAX_TYPE_DEPTH)%N as Hd by lia.
    apply max_height_le in Hm. clear Hn Hh Hparam. revert Hc Hm.
    induction IH as [|c cs Hcs _ IHl]; intros Hc Hm; [by exists []|].
    apply Forall_cons in Hc as [Hc Hcr]. apply Forall_cons in Hm as [Hm Hmr].
    destruct (Hcs Hc (d + 1)%N) as (r & Hr & ? & ?); [lia|].
    destruct (IHl Hcr Hmr) as (rs & Hrs & ? & ?). exists (r :: rs). cbn [map_res]. rewrite Hr.
    cbn [mbind result_bind]. rewrite Hrs. split; [done|]. split; by constructor. }
  assert ((exists i, t = TTypeParameter i) \/ ~ (exists i, t = TTypeParameter i)) as [[i ->]|Hnp]
    by (destruct t; try (right; by intros [? ?]); left; by eexists).
  { by apply Hparam. }
  exists (with_children t l).
  pose proof (Forall2_length _ _ _ Hhl) as Hlen.
  split; [destruct t; try (by rewrite Hl); by destruct Hnp; eexists|].
  split.
  - apply AllNodes_inv. rewrite with_children_children by done. split; [|done].
    eapply node_ok_with_children; [done| |exact Hn]. intros i ->. by destruct Hnp; eexists.
  - rewrite !type_height_eq, with_children_children by done.
    enough (max_height l + 1 <= max_height (type_children t) + N.max 1 (max_height args))%N by lia.
    clear -Hhl. induction Hhl as [|c r cs rs Hcr _ IH]; simpl; lia.
Qed.

Theorem substitute_well_formed_witness :
  exists r, substitute (TTuple [TTypeParameter 0; TVector (TTypeParameter 1)]) [TBool; TText] 1 = Ok r /\
    WellFormed ∅ 0 r /\
    (type_height r + 1 <= type_height (TTuple [TTypeParameter 0; TVector (TTypeParameter 1)])
       + N.max 1 (max_height [TBool; TText]))%N.
Proof.
  apply (substitute_well_formed ∅ 0); [vm_compute; reflexivity|].
  repeat constructor.
Defined.
