(* ===== verification/TypeWalk.v ===== *)
(** * The type system: memoised walks (crates/sley-check/src/lib.rs)

    [check_map_keys] and [traits] expand named types, with a cache keyed by the
    named type and the depth it is met at, and a budget of visits ([TypeWalk]).
    The cache never changes an answer: each walk is equal to the reference walk
    without cache and budget, up to running out of the budget. *)

From S2P Require Import Prelude BTree Bytes Ssmc Types.

(** ** The walk state *)

Abbreviation NamedType := (EntityId * list TypeExpr)%type (only parsing).

Record TypeWalk : Type := mkWalk {
  visits : N;
  walk_map_keys : list (NamedType * N);
  walk_traits : list (NamedType * N * TypeTraits)
}.

Definition TypeWalk_default : TypeWalk := mkWalk 0 [] [].

(** [&mut TypeWalk -> Result<A>]: no caller looks at the walk after an error. *)
Definition WM (A : Type) : Type := TypeWalk -> type_result (A * TypeWalk).

#[global] Instance WM_ret : MRet WM := fun A a w => Ok (a, w).
#[global] Instance WM_bind : MBind WM := fun A B f m w =>
  match m w with Ok (a, w') => f a w' | Err e => Err e end.
Definition wlift {A} (m : type_result A) : WM A := fun w =>
  match m with Ok a => Ok (a, w) | Err e => Err e end.

Definition charge : WM unit := fun w =>
  match checked_add (visits w) 1 with
  | None => Err TeResourceLimit
  | Some v =>
      if (MAX_TYPE_WALK_VISITS <? v)%N then Err TeResourceLimit
      else Ok (tt, mkWalk v (walk_map_keys w) (walk_traits w))
  end.

(** [self.map_keys.contains(&key)] and [self.traits.get(&key)] *)
Definition map_keys_contains (key : NamedType * N) : WM bool := fun w =>
  Ok (bool_decide (key ∈ walk_map_keys w), w).
Definition map_keys_insert (key : NamedType * N) : WM unit := fun w =>
  Ok (tt, mkWalk (visits w) (key :: walk_map_keys w) (walk_traits w)).

Fixpoint assoc {K V} `{EqDecision K} (key : K) (l : list (K * V)) : option V :=
  match l with
  | [] => None
  | (k, v) :: l => if decide (k = key) then Some v else assoc key l
  end.
Definition traits_get (key : NamedType * N) : WM (option TypeTraits) := fun w =>
  Ok (assoc key (walk_traits w), w).
Definition traits_insert (key : NamedType * N) (t : TypeTraits) : WM unit := fun w =>
  Ok (tt, mkWalk (visits w) (walk_map_keys w) ((key, t) :: walk_traits w)).

Section walk_loops.
Context {A : Type}.

Section walk_each.
Variable f : A -> WM unit.
Fixpoint walk_each (l : list A) : WM unit :=
  match l with
  | [] => mret tt
  | x :: l => f x ≫= fun _ => walk_each l
  end.
End walk_each.

Section walk_combine.
Variable f : A -> WM TypeTraits.
(** [combined = combined.combine(f(x)?)] over a list. *)
Fixpoint walk_combine (combined : TypeTraits) (l : list A) : WM TypeTraits :=
  match l with
  | [] => mret combined
  | x :: l => t ← f x; walk_combine (combine combined t) l
  end.
End walk_combine.
End walk_loops.

(** ** The walks *)

Definition traits_builtin : TypeTraits := mkTraits true false true true.
Definition traits_handle : TypeTraits := mkTraits true false false false.
Definition traits_cell : TypeTraits := mkTraits false false false false.

Section walks.
Variable env : Definitions.

(** The fuel is what is left of the depth: [walk_fuel depth] levels. *)
Fixpoint traits_inner_with (fuel : nat) (value : TypeExpr) (depth : N) : WM TypeTraits :=
  match fuel with
  | O => wlift (Err TeDepthLimit)
  | S fuel =>
      wlift (check_depth depth) ≫= fun _ =>
      charge ≫= fun _ =>
      match value with
      | TUnit | TBool | TSInt _ | TUInt _ | TBytes | TText | TBuiltinFailure _ => mret TypeTraits_ALL
      | TF32 | TF64 => mret (no_order TypeTraits_ALL)
      | TTuple elements =>
          walk_combine (fun t => traits_inner_with fuel t (depth + 1)) TypeTraits_ALL elements
      | TNamed id arguments =>
          let key := ((id, arguments), depth) in
          cached ← traits_get key;
          match cached with
          | Some traits => mret traits
          | None =>
              def ← wlift (definition env id);
              combined ← walk_combine (fun t =>
                  field_type ← wlift (substitute t arguments (depth + 1));
                  traits_inner_with fuel field_type (depth + 1)) TypeTraits_ALL (form_types (td_form def));
              traits_insert key combined ≫= fun _ => mret combined
          end
      | TVector element =>
          element ← traits_inner_with fuel element (depth + 1); mret (no_order element)
      | TOrderedMap key value =>
          key ← traits_inner_with fuel key (depth + 1);
          wlift (require_map_key_traits key) ≫= fun _ =>
          value ← traits_inner_with fuel value (depth + 1);
          mret (no_order (combine key value))
      | TOption element => traits_inner_with fuel element (depth + 1)
      | TResult ok error =>
          ok ← traits_inner_with fuel ok (depth + 1);
          error ← traits_inner_with fuel error (depth + 1);
          mret (combine ok error)
      | TFunctionRef _ _ _ => mret traits_builtin
      | TAdapterHandle _ | TCapabilityToken _ => mret traits_handle
      | TLocalCell _ => mret traits_cell
      | TTypeParameter _ => wlift (Err TeParameterOutOfScope)
      end
  end.

Fixpoint check_map_keys_with (fuel : nat) (value : TypeExpr) (depth : N) : WM unit :=
  match fuel with
  | O => wlift (Err TeDepthLimit)
  | S fuel =>
      wlift (check_depth depth) ≫= fun _ =>
      charge ≫= fun _ =>
      match value with
      | TOrderedMap key value =>
          check_map_keys_with fuel key (depth + 1) ≫= fun _ =>
          check_map_keys_with fuel value (depth + 1) ≫= fun _ =>
          if contains_parameter key then wlift (Err TeNotOrderable)
          else
            traits ← traits_inner_with fuel key (depth + 1);
            wlift (require_map_key_traits traits)
      | TNamed id arguments =>
          if existsb contains_parameter arguments then mret tt
          else
            let key := ((id, arguments), depth) in
            cached ← map_keys_contains key;
            if (cached : bool) then mret tt
            else
              def ← wlift (definition env id);
              walk_each (fun t =>
                field_type ← wlift (substitute t arguments (depth + 1));
                check_map_keys_with fuel field_type (depth + 1)) (form_types (td_form def)) ≫= fun _ =>
              map_keys_insert key
      | TTuple elements => walk_each (fun t => check_map_keys_with fuel t (depth + 1)) elements
      | TVector element | TOption element | TLocalCell element =>
          check_map_keys_with fuel element (depth + 1)
      | TResult ok error =>
          check_map_keys_with fuel ok (depth + 1) ≫= fun _ =>
          check_map_keys_with fuel error (depth + 1)
      | TFunctionRef parameters result _ =>
          walk_each (fun t => check_map_keys_with fuel t (depth + 1)) parameters ≫= fun _ =>
          check_map_keys_with fuel result (depth + 1)
      | _ => mret tt
      end
  end.

(** A walk at [depth] has [66 - depth] levels to go before [check_depth]
    stops it. *)
Definition walk_fuel (depth : N) : nat := N.to_nat (66 - depth).

Definition run_walk {A} (m : WM A) : type_result A := fst <$> m TypeWalk_default.

Definition traits_inner (value : TypeExpr) (depth : N) : type_result TypeTraits :=
  run_walk (traits_inner_with (walk_fuel depth) value depth).

Definition check_map_keys (value : TypeExpr) (depth : N) : type_result unit :=
  run_walk (check_map_keys_with (walk_fuel depth) value depth).

Definition check_type (value : TypeExpr) (parameter_count : N) : type_result unit :=
  check_type_inner env value parameter_count 1 ≫= fun _ => check_map_keys value 1.

Definition check_closed_type (value : TypeExpr) : type_result unit := check_type value 0.

Definition traits (value : TypeExpr) : type_result TypeTraits :=
  check_closed_type value ≫= fun _ => traits_inner value 1.

Definition require_orderable (value : TypeExpr) : type_result unit :=
  t ← traits value; if total_order t then Ok tt else Err TeNotOrderable.
Definition require_hashable (value : TypeExpr) : type_result unit :=
  t ← traits value; if canonical_hash t then Ok tt else Err TeNotHashable.
Definition require_persistable (value : TypeExpr) : type_result unit :=
  t ← traits value; if persistable t then Ok tt else Err TeNotPersistable.

Definition instantiate_in_scope (value : TypeExpr) (arguments : list TypeExpr) (parameter_count : N)
    : type_result TypeExpr :=
  guard! (len arguments <=? MAX_TYPE_ARGUMENTS)%N else TeArgumentLimit;
  for_each (fun argument => check_type argument parameter_count) arguments ≫= fun _ =>
  instantiated ← substitute value arguments 1;
  check_type instantiated parameter_count ≫= fun _ =>
  Ok instantiated.

Definition instantiate (value : TypeExpr) (arguments : list TypeExpr) : type_result TypeExpr :=
  instantiate_in_scope value arguments 0.

(** ** The reference walks: no cache, no budget *)

Fixpoint traits_ref (fuel : nat) (value : TypeExpr) (depth : N) : type_result TypeTraits :=
  match fuel with
  | O => Err TeDepthLimit
  | S fuel =>
      check_depth depth ≫= fun _ =>
      match value with
      | TUnit | TBool | TSInt _ | TUInt _ | TBytes | TText | TBuiltinFailure _ => Ok TypeTraits_ALL
      | TF32 | TF64 => Ok (no_order TypeTraits_ALL)
      | TTuple elements =>
          fold_res (fun c t => combine c <$> traits_ref fuel t (depth + 1)) TypeTraits_ALL elements
      | TNamed id arguments =>
          def ← definition env id;
          fold_res (fun c t =>
            field_type ← substitute t arguments (depth + 1);
            combine c <$> traits_ref fuel field_type (depth + 1)) TypeTraits_ALL (form_types (td_form def))
      | TVector element => no_order <$> traits_ref fuel element (depth + 1)
      | TOrderedMap key value =>
          key ← traits_ref fuel key (depth + 1);
          require_map_key_traits key ≫= fun _ =>
          value ← traits_ref fuel value (depth + 1);
          Ok (no_order (combine key value))
      | TOption element => traits_ref fuel element (depth + 1)
      | TResult ok error =>
          ok ← traits_ref fuel ok (depth + 1);
          error ← traits_ref fuel error (depth + 1);
          Ok (combine ok error)
      | TFunctionRef _ _ _ => Ok traits_builtin
      | TAdapterHandle _ | TCapabilityToken _ => Ok traits_handle
      | TLocalCell _ => Ok traits_cell
      | TTypeParameter _ => Err TeParameterOutOfScope
      end
  end.

Fixpoint map_keys_ref (fuel : nat) (value : TypeExpr) (depth : N) : type_result unit :=
  match fuel with
  | O => Err TeDepthLimit
  | S fuel =>
      check_depth depth ≫= fun _ =>
      match value with
      | TOrderedMap key value =>
          map_keys_ref fuel key (depth + 1) ≫= fun _ =>
          map_keys_ref fuel value (depth + 1) ≫= fun _ =>
          if contains_parameter key then Err TeNotOrderable
          else traits ← traits_ref fuel key (depth + 1); require_map_key_traits traits
      | TNamed id arguments =>
          if existsb contains_parameter arguments then Ok tt
          else
            def ← definition env id;
            for_each (fun t =>
              field_type ← substitute t arguments (depth + 1);
              map_keys_ref fuel field_type (depth + 1)) (form_types (td_form def))
      | TTuple elements => for_each (fun t => map_keys_ref fuel t (depth + 1)) elements
      | TVector element | TOption element | TLocalCell element => map_keys_ref fuel element (depth + 1)
      | TResult ok error =>
          map_keys_ref fuel ok (depth + 1) ≫= fun _ => map_keys_ref fuel error (depth + 1)
      | TFunctionRef parameters result _ =>
          for_each (fun t => map_keys_ref fuel t (depth + 1)) parameters ≫= fun _ =>
          map_keys_ref fuel result (depth + 1)
      | _ => Ok tt
      end
  end.
End walks.

(** ** The cache is transparent *)

Section simulation.
Variable env : Definitions.

(** Every cached answer is the reference answer. *)
Definition walk_sound (w : TypeWalk) : Prop :=
  (forall id args d, ((id, args), d) ∈ walk_map_keys w ->
     map_keys_ref env (walk_fuel d) (TNamed id args) d = Ok tt) /\
  (forall id args d t, assoc ((id, args), d) (walk_traits w) = Some t ->
     traits_ref env (walk_fuel d) (TNamed id args) d = Ok t).

(** [m] computes [r], or runs out of visits. *)
Definition Sim {A} (m : WM A) (r : type_result A) : Prop :=
  forall w, walk_sound w ->
    match m w with
    | Ok (a, w') => r = Ok a /\ walk_sound w'
    | Err e => e = TeResourceLimit \/ r = Err e
    end.

Lemma sim_ret {A} (a : A) : Sim (mret a) (Ok a).
Proof. by intros w Hw. Qed.

Lemma sim_lift {A} (r : type_result A) : Sim (wlift r) r.
Proof. intros w Hw. unfold wlift. destruct r; auto. Qed.

Lemma sim_bind {A B} (m : WM A) r (k : A -> WM B) k' :
  Sim m r -> (forall a, Sim (k a) (k' a)) -> Sim (m ≫= k) (r ≫= k').
Proof.
  intros Hm Hk w Hw. specialize (Hm w Hw). unfold mbind, WM_bind.
  destruct (m w) as [[a w']|e].
  - destruct Hm as [-> Hw']. by apply Hk.
  - destruct Hm as [-> | ->]; auto.
Qed.

Lemma sim_fmap {A B} (f : A -> B) (m : WM A) r :
  Sim m r -> Sim (a ← m; mret (f a)) (f <$> r).
Proof.
  intros Hm w Hw. specialize (Hm w Hw). unfold mbind, WM_bind. destruct (m w) as [[a w']|e].
  - destruct Hm as [-> Hw']. done.
  - destruct Hm as [-> | ->]; auto.
Qed.

Lemma sim_charge {A} (m : WM A) r : Sim m r -> Sim (charge ≫= fun _ => m) r.
Proof.
  intros Hm w Hw. unfold mbind, WM_bind, charge.
  destruct (checked_add (visits w) 1); [|by left].
  destruct (MAX_TYPE_WALK_VISITS <? n)%N; [by left|]. by apply Hm.
Qed.

Lemma sim_each {A} (f : A -> WM unit) f' l :
  (forall x, x ∈ l -> Sim (f x) (f' x)) -> Sim (walk_each f l) (for_each f' l).
Proof.
  induction l as [|x l IH]; intros Hf; [apply sim_ret|].
  apply sim_bind; [apply Hf; left|]. intros _. apply IH. intros y Hy. apply Hf. by right.
Qed.

Lemma sim_combine {A} (f : A -> WM TypeTraits) f' c l :
  (forall x, x ∈ l -> Sim (f x) (f' x)) ->
  Sim (walk_combine f c l) (fold_res (fun c x => combine c <$> f' x) c l).
Proof.
  revert c. induction l as [|x l IH]; intros c Hf; [apply sim_ret|]. cbn [walk_combine fold_res].
  assert (Sim (f x) (f' x)) as Hx by (apply Hf; left).
  intros w Hw. specialize (Hx w Hw). unfold mbind, WM_bind. destruct (f x w) as [[t w']|e].
  - destruct Hx as [-> Hw']. apply IH; [|done]. intros y Hy. apply Hf. by right.
  - destruct Hx as [-> | ->]; auto.
Qed.

Lemma walk_fuel_next fuel d : walk_fuel d = S fuel -> fuel = walk_fuel (d + 1).
Proof. unfold walk_fuel. lia. Qed.

Lemma fold_res_fmap_bind {A} (g : A -> type_result TypeExpr) (h : TypeExpr -> type_result TypeTraits) c l :
  fold_res (fun c x => y ← g x; combine c <$> h y) c l =
  fold_res (fun c x => combine c <$> (y ← g x; h y)) c l.
Proof. apply fold_res_ext. intros b x. by destruct (g x). Qed.

(** A cached computation: a miss stores the answer under the key. *)
Lemma sim_traits_cached id args d (m : WM TypeTraits) r :
  traits_ref env (walk_fuel d) (TNamed id args) d = r -> Sim m r ->
  Sim (cached ← traits_get ((id, args), d);
       match cached with
       | Some traits => mret traits
       | None => combined ← m; traits_insert ((id, args), d) combined ≫= fun _ => mret combined
       end) r.
Proof.
  intros Hr Hm w Hw. unfold mbind, WM_bind, traits_get, traits_insert, mret, WM_ret. cbv beta iota.
  destruct (assoc ((id, args), d) (walk_traits w)) as [t|] eqn:Hc.
  { split; [|done]. apply Hw in Hc. congruence. }
  specialize (Hm w Hw). destruct (m w) as [[t w1]|]; [|done].
  destruct Hm as [-> [Hw1 Hw2]]. split; [done|]. split; [exact Hw1|]. cbn [walk_traits].
  intros id' args' d' t'. cbn [assoc]. case_decide as Heq; [|apply Hw2].
  intros [= <-]. by injection Heq as <- <- <-.
Qed.

Lemma sim_map_keys_cached id args d (m : WM unit) r :
  map_keys_ref env (walk_fuel d) (TNamed id args) d = r -> Sim m r ->
  Sim (cached ← map_keys_contains ((id, args), d);
       if (cached : bool) then mret tt else m ≫= fun _ => map_keys_insert ((id, args), d)) r.
Proof.
  intros Hr Hm w Hw. unfold mbind, WM_bind, map_keys_contains, map_keys_insert, mret, WM_ret. cbv beta iota.
  case_bool_decide as Hc.
  { split; [|done]. apply Hw in Hc. congruence. }
  specialize (Hm w Hw). destruct (m w) as [[[] w1]|]; [|done].
  destruct Hm as [Hm [Hw1 Hw2]]. split; [done|]. split; [|exact Hw2]. cbn [walk_map_keys].
  intros id' args' d' [Heq|Hin]%elem_of_cons; [|by apply Hw1].
  injection Heq as -> -> ->. congruence.
Qed.

Lemma bind_assoc_W {A B C} (m : WM A) (f : A -> WM B) (g : B -> WM C) w :
  ((m ≫= f) ≫= g) w = (m ≫= fun a => f a ≫= g) w.
Proof. unfold mbind, WM_bind. by destruct (m w) as [[??]|]. Qed.

Lemma sim_ext {A} (m m' : WM A) r : (forall w, m w = m' w) -> Sim m' r -> Sim m r.
Proof. intros E H w Hw. rewrite E. by apply H. Qed.

Lemma sim_traits fuel value d :
  walk_fuel d = fuel -> Sim (traits_inner_with env fuel value d) (traits_ref env fuel value d).
Proof.
  revert value d. induction fuel as [|fuel IH]; intros value d Hf; [apply sim_lift|].
  pose proof (walk_fuel_next _ _ Hf) as Hnext.
  assert (forall t, Sim (traits_inner_with env fuel t (d + 1)) (traits_ref env fuel t (d + 1))) as Hrec.
  { intros t. by apply IH. }
  cbn [traits_inner_with traits_ref].
  destruct (check_depth d) as [[]|e] eqn:Hd; [|intros w Hw; by right].
  eapply sim_ext; [intros w; reflexivity|]. apply sim_charge.
  destruct value as [| | | | | | | |items|id args|t|k v|t|k v| | | | | |];
    try apply sim_ret; try apply sim_lift; try apply Hrec.
  - apply sim_combine. auto.
  - cbn [mbind result_bind]. eapply sim_ext; [|apply (sim_traits_cached id args d
      (def ← wlift (definition env id); walk_combine (fun t =>
        field_type ← wlift (substitute t args (d + 1));
        traits_inner_with env fuel field_type (d + 1)) TypeTraits_ALL (form_types (td_form def))))].
    + intros w. unfold mbind, WM_bind, traits_get, mret, WM_ret. destruct (assoc _ _); [done|].
      by destruct (wlift (definition env id) w) as [[??]|].
    + rewrite Hf. cbn [traits_ref]. rewrite Hd. reflexivity.
    + apply sim_bind; [apply sim_lift|]. intros def. rewrite fold_res_fmap_bind.
      apply sim_combine. intros t _. apply sim_bind; [apply sim_lift|auto].
  - by apply sim_fmap.
  - cbn [mbind result_bind]. apply sim_bind; [apply Hrec|]. intros tk.
    apply sim_bind; [apply sim_lift|]. intros _.
    apply sim_bind; [apply Hrec|]. intros tv. apply sim_ret.
  - cbn [mbind result_bind]. apply sim_bind; [apply Hrec|]. intros tk.
    apply sim_bind; [apply Hrec|]. intros tv. apply sim_ret.
Qed.

Lemma sim_map_keys fuel value d :
  walk_fuel d = fuel -> Sim (check_map_keys_with env fuel value d) (map_keys_ref env fuel value d).
Proof.
  revert value d. induction fuel as [|fuel IH]; intros value d Hf; [apply sim_lift|].
  pose proof (walk_fuel_next _ _ Hf) as Hnext.
  assert (forall t, Sim (check_map_keys_with env fuel t (d + 1)) (map_keys_ref env fuel t (d + 1))) as Hrec.
  { intros t. by apply IH. }
  cbn [check_map_keys_with map_keys_ref].
  destruct (check_depth d) as [[]|e] eqn:Hd; [|intros w Hw; by right].
  eapply sim_ext; [intros w; reflexivity|]. apply sim_charge. cbn [mbind result_bind].
  destruct value as [| | | | | | | |items|id args|t|k v|t|k v|ps r es| | | | |];
    try apply sim_ret; try apply sim_lift; try apply Hrec.
  - apply sim_each. auto.
  - destruct (existsb contains_parameter args) eqn:Hp; [apply sim_ret|].
    eapply sim_ext; [|apply (sim_map_keys_cached id args d
      (def ← wlift (definition env id); walk_each (fun t =>
        field_type ← wlift (substitute t args (d + 1));
        check_map_keys_with env fuel field_type (d + 1)) (form_types (td_form def))))].
    + intros w. unfold mbind, WM_bind, map_keys_contains, mret, WM_ret. case_bool_decide; [done|].
      by destruct (wlift (definition env id) w) as [[??]|].
    + rewrite Hf. cbn [map_keys_ref]. rewrite Hd, Hp. reflexivity.
    + apply sim_bind; [apply sim_lift|]. intros def.
      apply sim_each. intros t _. apply sim_bind; [apply sim_lift|auto].
  - apply sim_bind; [apply Hrec|]. intros _. apply sim_bind; [apply Hrec|]. intros _.
    destruct (contains_parameter k); [apply sim_lift|].
    apply sim_bind; [rewrite Hnext; by apply sim_traits|]. intros tk. apply sim_lift.
  - apply sim_bind; [apply Hrec|]. intros _. apply Hrec.
  - apply sim_bind; [apply sim_each; auto|]. intros _. apply Hrec.
Qed.

Lemma sim_run {A} (m : WM A) r : Sim m r -> run_walk m = Err TeResourceLimit \/ run_walk m = r.
Proof.
  intros Hm. specialize (Hm TypeWalk_default). unfold run_walk.
  destruct (m TypeWalk_default) as [[a w]|e]; cbn.
  - destruct Hm as [-> _]; [|by right]. split; intros ???; [by intros ?%not_elem_of_nil|done].
  - destruct Hm as [-> | ->]; [|by left|by right].
    split; intros ???; [by intros ?%not_elem_of_nil|done].
Qed.
End simulation.

Lemma memoised_walks env value depth :
  (traits_inner env value depth = Err TeResourceLimit \/
   traits_inner env value depth = traits_ref env (walk_fuel depth) value depth) /\
  (check_map_keys env value depth = Err TeResourceLimit \/
   check_map_keys env value depth = map_keys_ref env (walk_fuel depth) value depth).
Proof.
  split; apply (sim_run env); [by apply sim_traits|by apply sim_map_keys].
Qed.

(** C37: the caches keyed by named type and depth never change an answer:
    [traits] and [check_map_keys] return exactly what the plain recursive walk
    returns, errors included, unless the budget of 1,048,576 visits runs out,
    which is reported as [TYPE_RESOURCE_LIMIT]. *)
Theorem memoised_walks_agree env value depth :
  (traits_inner env value depth = Err TeResourceLimit \/
   traits_inner env value depth = traits_ref env (walk_fuel depth) value depth) /\
  (check_map_keys env value depth = Err TeResourceLimit \/
   check_map_keys env value depth = map_keys_ref env (walk_fuel depth) value depth).
Proof. apply memoised_walks. Qed.

(** ** What the traits mean *)

(** Substitution is one function, cut off at a depth. *)
Lemma substitute_agree t args d1 d2 r1 r2 :
  substitute t args d1 = Ok r1 -> substitute t args d2 = Ok r2 -> r1 = r2.
Proof.
  revert d1 d2 r1 r2. induction t as [t IH] using TypeExpr_ind'. intros d1 d2 r1 r2.
  rewrite !substitute_eq. intros H1 H2.
  apply bind_Ok in H1 as (_ & _ & H1). apply bind_Ok in H2 as (_ & _ & H2).
  assert (forall l1 l2, map_res (fun c => substitute c args (d1 + 1)) (type_children t) = Ok l1 ->
    map_res (fun c => substitute c args (d2 + 1)) (type_children t) = Ok l2 -> l1 = l2) as Hl.
  { clear H1 H2. induction IH as [|c cs Hc _ IHl]; intros l1 l2 H1 H2.
    - cbn in H1, H2. congruence.
    - rewrite map_res_Ok in H1, H2. inversion H1; inversion H2; simplify_eq. f_equal; [by eapply Hc|].
      apply IHl; by apply map_res_Ok. }
  destruct t; try (apply bind_Ok in H1 as (l1 & H1 & E1); apply bind_Ok in H2 as (l2 & H2 & E2);
    rewrite Ok_inj in E1, E2; subst; by rewrite (Hl l1 l2 H1 H2)).
  congruence.
Qed.

Section components.
Variable env : Definitions.

(** [u] is an immediate part of the values of type [t]: an element, key,
    value or alternative, or a member of the named type, its parameters
    replaced. *)
Inductive Part : TypeExpr -> TypeExpr -> Prop :=
| Part_tuple items u : u ∈ items -> Part (TTuple items) u
| Part_vector u : Part (TVector u) u
| Part_option u : Part (TOption u) u
| Part_key k v : Part (TOrderedMap k v) k
| Part_value k v : Part (TOrderedMap k v) v
| Part_ok o e : Part (TResult o e) o
| Part_error o e : Part (TResult o e) e
| Part_member id args def f d u :
    env !! id = Some def -> f ∈ form_types (td_form def) -> substitute f args d = Ok u ->
    Part (TNamed id args) u.

(** The traits of a type apart from its parts. *)
Definition own_traits (t : TypeExpr) : TypeTraits :=
  match t with
  | TF32 | TF64 | TVector _ | TOrderedMap _ _ => no_order TypeTraits_ALL
  | TFunctionRef _ _ _ => traits_builtin
  | TAdapterHandle _ | TCapabilityToken _ => traits_handle
  | TLocalCell _ => traits_cell
  | _ => TypeTraits_ALL
  end.

Definition trait_accessor (p : TypeTraits -> bool) : Prop :=
  p TypeTraits_ALL = true /\ forall a b, p (combine a b) = p a && p b.

Lemma no_order_combine t : no_order t = combine (no_order TypeTraits_ALL) t.
Proof. destruct t as [[|] [|] [|] [|]]; reflexivity. Qed.

Lemma fold_combine {A} (f : A -> type_result TypeTraits) p c l tr :
  trait_accessor p ->
  fold_res (fun c x => combine c <$> f x) c l = Ok tr ->
  p tr = true <-> p c = true /\ forall x, x ∈ l -> exists t, f x = Ok t /\ p t = true.
Proof.
  intros [Hall Hc]. revert c. induction l as [|x l IH]; intros c H; cbn [fold_res] in H.
  - rewrite Ok_inj in H. subst. split; [|by intros []]. intros. split; [done|]. by intros ? ?%not_elem_of_nil.
  - apply bind_Ok in H as (c' & Hx & H). destruct (f x) as [t|] eqn:Hf; [|done].
    cbn in Hx. rewrite Ok_inj in Hx. subst c'. rewrite (IH _ H), Hc, andb_true_iff.
    split.
    + intros [[? ?] Hx]. split; [done|]. intros y [->|Hy]%elem_of_cons; [by exists t|by apply Hx].
    + intros [? Hx]. destruct (Hx x) as (t' & ? & ?); [by left|]. split; [split; congruence|].
      intros y Hy. apply Hx. by right.
Qed.

Lemma fold_combine_all {A} (f : A -> type_result TypeTraits) c l tr :
  fold_res (fun c x => combine c <$> f x) c l = Ok tr -> forall x, x ∈ l -> exists t, f x = Ok t.
Proof.
  revert c. induction l as [|x l IH]; intros c H; [by intros ? ?%not_elem_of_nil|].
  cbn [fold_res] in H. apply bind_Ok in H as (c' & Hx & H). intros y [->|Hy]%elem_of_cons.
  - destruct (f x); [eauto|done].
  - by eapply IH.
Qed.

(** One level: a trait holds of a type when it holds of the type itself and
    of its immediate parts. *)
Lemma traits_ref_step p fuel t d tr :
  trait_accessor p -> traits_ref env (S fuel) t d = Ok tr ->
  (forall u, Part t u -> exists tu, traits_ref env fuel u (d + 1) = Ok tu) /\
  (p tr = true <-> p (own_traits t) = true /\
     forall u tu, Part t u -> traits_ref env fuel u (d + 1) = Ok tu -> p tu = true).
Proof.
  intros Hp H. pose proof Hp as [Hall Hc]. cbn [traits_ref] in H. apply bind_Ok in H as (_ & _ & H).
  destruct t as [| | | | | | | |items|id args|e|k v|e|o er| | | | | |];
    cbn [own_traits]; try (rewrite Ok_inj in H; subst tr); try done.
  all: try (split; [intros u Hu; by inversion Hu|split; [|by intros []]];
    intros; split; [done|]; intros ?? Hu; by inversion Hu).
  - split.
    + intros u Hu. inversion Hu; simplify_eq. by eapply fold_combine_all in H.
    + rewrite (fold_combine _ _ _ _ _ Hp H). apply and_iff_compat_l. split.
      * intros Hx u tu Hu Htu. inversion Hu; simplify_eq. destruct (Hx u) as (t & Ht & ?); [done|]. congruence.
      * intros Hx u Hu. destruct (fold_combine_all _ _ _ _ H u Hu) as [t Ht].
        exists t. split; [done|]. eapply Hx; [by constructor|done].
  - apply bind_Ok in H as (def & Hdef & H). apply ok_or_Ok in Hdef. rewrite fold_res_fmap_bind in H.
    assert (forall u, Part (TNamed id args) u -> exists f, f ∈ form_types (td_form def) /\
      (y ← substitute f args (d + 1); traits_ref env fuel y (d + 1)) = traits_ref env fuel u (d + 1)) as Hpart.
    { intros u Hu. inversion Hu; simplify_eq. exists f. split; [done|].
      destruct (fold_combine_all _ _ _ _ H f) as [t Ht]; [done|].
      apply bind_Ok in Ht as (y & Hy & Ht).
      assert (y = u) as -> by (by eapply substitute_agree). by rewrite Hy. }
    split.
    + intros u Hu. destruct (Hpart u Hu) as (f & Hf & <-). by eapply fold_combine_all in H.
    + rewrite (fold_combine _ _ _ _ _ Hp H). apply and_iff_compat_l. split.
      * intros Hx u tu Hu Htu. destruct (Hpart u Hu) as (f & Hf & E). destruct (Hx f Hf) as (t & Ht & ?).
        rewrite E in Ht. congruence.
      * intros Hx f Hf. destruct (fold_combine_all _ _ _ _ H f Hf) as [t Ht]. exists t. split; [done|].
        apply bind_Ok in Ht as (y & Hy & Ht). eapply Hx; [by econstructor|done].
  - destruct (traits_ref env fuel e (d + 1)) as [te|] eqn:He; [|done]. cbn in H. rewrite Ok_inj in H. subst tr.
    split; [intros u Hu; inversion Hu; simplify_eq; eauto|].
    rewrite no_order_combine, Hc, andb_true_iff. apply and_iff_compat_l. split.
    + intros ? u tu Hu. inversion Hu; simplify_eq. congruence.
    + intros Hx. eapply Hx; [constructor|done].
  - apply bind_Ok in H as (tk & Hk & H). apply bind_Ok in H as (_ & _ & H).
    apply bind_Ok in H as (tv & Hv & H). rewrite Ok_inj in H. subst tr.
    split; [intros u Hu; inversion Hu; simplify_eq; eauto|].
    rewrite no_order_combine, Hc, Hc, !andb_true_iff. apply and_iff_compat_l. split.
    + intros [? ?] u tu Hu. inversion Hu; simplify_eq; congruence.
    + intros Hx. split; eapply Hx; try done; constructor.
  - split; [intros u Hu; inversion Hu; simplify_eq; eauto|]. split.
    + intros ?. split; [done|]. intros u tu Hu. inversion Hu; simplify_eq. congruence.
    + intros [_ Hx]. eapply Hx; [constructor|done].
  - apply bind_Ok in H as (tk & Hk & H). apply bind_Ok in H as (tv & Hv & H). rewrite Ok_inj in H. subst tr.
    split; [intros u Hu; inversion Hu; simplify_eq; eauto|].
    rewrite Hc, andb_true_iff. split.
    + intros [? ?]. split; [done|]. intros u tu Hu. inversion Hu; simplify_eq; congruence.
    + intros [_ Hx]. split; eapply Hx; try done; constructor.
Qed.

Lemma traits_ref_components p fuel t d tr :
  trait_accessor p -> traits_ref env fuel t d = Ok tr ->
  p tr = true <-> forall u, rtc Part t u -> p (own_traits u) = true.
Proof.
  intros Hp. revert t d tr. induction fuel as [|fuel IH]; intros t d tr H; [done|].
  destruct (traits_ref_step p _ _ _ _ Hp H) as [Hparts ->]. split.
  - intros [Hown Hx] u Hu. inversion Hu as [|? y ? Hty Hyu]; subst; [done|].
    destruct (Hparts y Hty) as [ty Hy]. specialize (Hx _ _ Hty Hy).
    by eapply (proj1 (IH _ _ _ Hy)).
  - intros Hall. split; [by apply Hall|]. intros u tu Hu Htu.
    apply (IH _ _ _ Htu). intros v Hv. apply Hall. by eapply rtc_l.
Qed.
End components.

Definition trait_names : list (TypeTraits -> bool) := [equality; total_order; canonical_hash; persistable].

(** Each of the four traits of a type is exactly the conjunction of that
    trait over everything a value of the type can contain: elements, keys,
    values, alternatives and the members of named types with their arguments
    substituted.  So a type is orderable when no float, vector, map, function
    or handle occurs in its values, hashable and persistable when no handle,
    capability token or local cell does. *)
Theorem traits_characterised env t tr p :
  p ∈ trait_names -> traits env t = Ok tr ->
  p tr = true <-> forall u, rtc (Part env) t u -> p (own_traits u) = true.
Proof.
  intros Hp H. unfold traits in H. apply bind_Ok in H as (_ & _ & H).
  destruct (memoised_walks env t 1) as [[E|E] _]; [congruence|]. rewrite E in H.
  eapply traits_ref_components; [|exact H].
  unfold trait_names in Hp. rewrite !elem_of_cons, elem_of_nil in Hp.
  destruct Hp as [->|[->|[->|[->|[]]]]]; split; try reflexivity; intros [] []; reflexivity.
Qed.

Theorem traits_characterised_witness :
  total_order (mkTraits true false true true) = true <->
  forall u, rtc (Part ∅) (TOption (TVector TText)) u -> total_order (own_traits u) = true.
Proof.
  apply (traits_characterised ∅ (TOption (TVector TText)) (mkTraits true false true true) total_order).
  - right. left.
  - vm_compute. reflexivity.
Defined.
