(* ===== verification/TypeEnv.v ===== *)
(** * The type system: the definition environment (crates/sley-check/src/lib.rs)

    [TypeEnvironment::new]: definition shapes, the rejection of definition
    cycles by a depth-first search with Active and Complete marks, and the map
    keys of every definition.  The main theorem says what an accepted
    environment satisfies. *)

From S2P Require Import Prelude BTree Bytes Ssmc Types TypeWalk.

Inductive Visit : Type := Active | Complete.

#[global] Instance Visit_eq_dec : EqDecision Visit.
Proof. solve_decision. Defined.

(** [for (index, parameter) in .. { if parameter.ordinal != index { fail } }] *)
Definition check_ordinals (parameters : list TypeParameterDef) : type_result unit :=
  for_each (fun '(index, parameter) =>
    if (tp_ordinal parameter =? index)%N then Ok tt else Err TeParameterOutOfScope)
    (enumerate parameters).

(** The members of a form: identity and type, if any. *)
Definition form_members (form : TypeDefForm) : list (MemberId * option TypeExpr) :=
  match form with
  | FormRecord fields => (fun f => (rf_member_id f, Some (rf_value_type f))) <$> fields
  | FormVariant cases => (fun c => (vc_member_id c, vc_payload_type c)) <$> cases
  end.

Section shape.
Variable env : Definitions.

(** The loop over fields or cases: [members.insert] fails on a repeat, then
    the type of the member is checked. *)
Definition check_members (parameter_count : N) (members : list (MemberId * option TypeExpr))
    : type_result (gset MemberId) :=
  fold_res (fun seen '(member_id, value_type) =>
    guard! negb (bool_decide (member_id ∈ seen)) else TeMemberDuplicate;
    match value_type with
    | Some t => check_type_inner env t parameter_count 1
    | None => Ok tt
    end ≫= fun _ => Ok ({[ member_id ]} ∪ seen)) ∅ members.

Definition check_definition_shape (def : TypeDefinition) : type_result unit :=
  guard! (len (td_type_parameters def) <=? MAX_TYPE_ARGUMENTS)%N else TeArgumentLimit;
  check_ordinals (td_type_parameters def) ≫= fun _ =>
  ensure_sorted_unique (td_invariants def) ≫= fun _ =>
  let parameter_count := len (td_type_parameters def) in
  guard! (len (form_members (td_form def)) <=? MAX_MEMBERS)%N else TeResourceLimit;
  check_members parameter_count (form_members (td_form def)) ≫= fun _ =>
  Ok tt.

Definition check_definition_map_keys (def : TypeDefinition) : WM unit :=
  walk_each (fun t => check_map_keys_with env (walk_fuel 1) t 1) (form_types (td_form def)).

(** *** Cycles *)

Abbreviation Visits := (gmap EntityId Visit).

(** The named types in the members of a definition. *)
Definition definition_dependencies (def : TypeDefinition) : gset EntityId :=
  foldl (fun deps t => collect_named_dependencies t deps) ∅ (form_types (td_form def)).

Fixpoint visit_definition (fuel : nat) (id : EntityId) (visits : Visits) (depth : N)
    : type_result Visits :=
  match fuel with
  | O => Err TeDepthLimit
  | S fuel =>
      check_depth depth ≫= fun _ =>
      match visits !! id with
      | Some Active => Err TeDefinitionCycle
      | Some Complete => Ok visits
      | None =>
          let visits := <[id := Active]> visits in
          def ← definition env id;
          visits ← fold_res (fun visits dependency =>
            definition env dependency ≫= fun _ =>
            visit_definition fuel dependency visits (depth + 1))
            visits (btree_set_iter (definition_dependencies def));
          Ok (<[id := Complete]> visits)
      end
  end.

Definition reject_definition_cycles : type_result unit :=
  fold_res (fun visits id => visit_definition (walk_fuel 1) id visits 1) ∅ (btree_keys env) ≫= fun _ =>
  Ok tt.
End shape.

(** [by_id.insert(..).is_some()]: the first repeated identity fails. *)
Definition index_definitions (definitions : list TypeDefinition) : type_result Definitions :=
  ok_or TeDefinitionDuplicate (index_by td_entity_id definitions ∅).

Definition TypeEnvironment_new (definitions : list TypeDefinition) : type_result Definitions :=
  guard! (len definitions <=? MAX_DEFINITIONS)%N else TeResourceLimit;
  env ← index_definitions definitions;
  for_each (check_definition_shape env) (btree_values env) ≫= fun _ =>
  reject_definition_cycles env ≫= fun _ =>
  run_walk (walk_each (check_definition_map_keys env) (btree_values env)) ≫= fun _ =>
  Ok env.

Definition hydrate_verified_definitions (definitions : list TypeDefinition) : type_result Definitions :=
  guard! (len definitions <=? MAX_DEFINITIONS)%N else TeResourceLimit;
  index_definitions definitions.

Definition definition_ids (env : Definitions) : list EntityId := btree_keys env.

(** ** The search for cycles *)

Section cycles.
Variable env : Definitions.

Definition Depends (a b : EntityId) : Prop :=
  exists def, env !! a = Some def /\ b ∈ definition_dependencies def.

(** The completed definitions are closed under dependency, and a rank
    descends along it. *)
Definition ranked (visits : gmap EntityId Visit) (rank : EntityId -> nat) : Prop :=
  forall id, visits !! id = Some Complete -> exists def, env !! id = Some def /\
    forall dep, dep ∈ definition_dependencies def ->
      visits !! dep = Some Complete /\ (rank dep < rank id)%nat.

(** What a search adds: completed marks only. *)
Definition grows (visits visits' : gmap EntityId Visit) : Prop :=
  (forall id v, visits !! id = Some v -> visits' !! id = Some v) /\
  (forall id, visits' !! id = Some Active -> visits !! id = Some Active).

Definition search_ok (visits visits' : gmap EntityId Visit) : Prop :=
  grows visits visits' /\ ((exists rank, ranked visits rank) -> exists rank, ranked visits' rank).

Lemma search_ok_refl visits : search_ok visits visits.
Proof. repeat split; auto. Qed.

Lemma search_ok_trans v1 v2 v3 : search_ok v1 v2 -> search_ok v2 v3 -> search_ok v1 v3.
Proof. intros [[H1 H2] H3] [[H4 H5] H6]. repeat split; auto. Qed.

(** A rank above those of a finite set. *)
Lemma rank_above (rank : EntityId -> nat) (s : gset EntityId) :
  exists r, forall x, x ∈ s -> (rank x < r)%nat.
Proof.
  induction s as [|x s Hx [r Hr]] using set_ind_L; [exists 0%nat; set_solver|].
  exists (S (Nat.max r (rank x))). intros y [->%elem_of_singleton|Hy]%elem_of_union; [lia|].
  specialize (Hr y Hy). lia.
Qed.

Lemma ranked_complete visits rank id def :
  ranked visits rank -> visits !! id <> Some Complete -> env !! id = Some def ->
  (forall dep, dep ∈ definition_dependencies def -> visits !! dep = Some Complete) ->
  exists rank', ranked (<[id := Complete]> visits) rank'.
Proof.
  intros Hr Hid Hdef Hdeps. destruct (rank_above rank (definition_dependencies def)) as [r Hrank].
  exists (fun k => if decide (k = id) then r else rank k). intros k Hk.
  assert (forall dep, visits !! dep = Some Complete -> dep <> id) as Hne by congruence.
  destruct (decide (k = id)) as [->|Hki].
  - exists def. split; [done|]. intros dep Hdep. specialize (Hdeps dep Hdep).
    rewrite lookup_insert_ne by (symmetry; auto). split; [done|].
    rewrite decide_False by auto. auto.
  - rewrite lookup_insert_ne in Hk by done. destruct (Hr k Hk) as (def' & Hdef' & Hd).
    exists def'. split; [done|]. intros dep Hdep. destruct (Hd dep Hdep) as [Hc Hlt].
    rewrite lookup_insert_ne by (symmetry; auto). rewrite decide_False by auto. done.
Qed.

Lemma ranked_active visits rank id :
  ranked visits rank -> visits !! id = None -> ranked (<[id := Active]> visits) rank.
Proof.
  intros Hr Hid k Hk. assert (k <> id) as Hki by (intros ->; by rewrite lookup_insert_eq in Hk).
  rewrite lookup_insert_ne in Hk by done. destruct (Hr k Hk) as (def & ? & Hd). exists def. split; [done|].
  intros dep Hdep. destruct (Hd dep Hdep). split; [|done]. rewrite lookup_insert_ne; [done|congruence].
Qed.

Lemma visit_loop (f : gmap EntityId Visit -> EntityId -> type_result (gmap EntityId Visit)) deps v v' :
  (forall dep v v', f v dep = Ok v' -> search_ok v v' /\ v' !! dep = Some Complete) ->
  fold_res f v deps = Ok v' ->
  search_ok v v' /\ forall dep, dep ∈ deps -> v' !! dep = Some Complete.
Proof.
  intros Hf. revert v. induction deps as [|dep deps IH]; intros v H; cbn [fold_res] in H.
  - rewrite Ok_inj in H. subst. split; [apply search_ok_refl|]. by intros ? ?%not_elem_of_nil.
  - apply bind_Ok in H as (v1 & H1 & H2). apply Hf in H1 as [H1 Hc]. apply IH in H2 as [H2 Hd].
    split; [by eapply search_ok_trans|]. intros x [->|Hx]%elem_of_cons; [|auto].
    destruct H2 as [[Hg _] _]. by apply Hg.
Qed.

Lemma visit_ok fuel id visits depth visits' :
  visit_definition env fuel id visits depth = Ok visits' ->
  search_ok visits visits' /\ visits' !! id = Some Complete.
Proof.
  revert id visits depth visits'. induction fuel as [|fuel IH]; intros id visits depth visits' H; [done|].
  cbn [visit_definition] in H. apply bind_Ok in H as (_ & _ & H).
  destruct (visits !! id) as [[]|] eqn:Hid; [done|rewrite Ok_inj in H; subst; by split; [apply search_ok_refl|]|].
  apply bind_Ok in H as (def & Hdef & H). apply ok_or_Ok in Hdef. apply bind_Ok in H as (v2 & Hloop & H).
  rewrite Ok_inj in H. subst visits'. apply visit_loop in Hloop as [[[Hg Ha] Hr] Hdeps].
  2:{ intros dep v v' Hv. apply bind_Ok in Hv as (_ & _ & Hv). by apply IH in Hv. }
  assert (v2 !! id = Some Active) as Hid2 by (apply Hg, lookup_insert_eq).
  split; [|apply lookup_insert_eq]. split; [split|].
  - intros k v Hk. assert (k <> id) by congruence. rewrite lookup_insert_ne by done.
    apply Hg. by rewrite lookup_insert_ne.
  - intros k Hk. destruct (decide (k = id)) as [->|]; [by rewrite lookup_insert_eq in Hk|].
    rewrite lookup_insert_ne in Hk by done. apply Ha in Hk. by rewrite lookup_insert_ne in Hk.
  - intros [rank Hrank]. destruct Hr as [rank2 Hrank2]; [exists rank; by apply ranked_active|].
    eapply ranked_complete; [done|congruence|done|]. intros dep Hdep. by apply Hdeps, elem_of_btree_set_iter.
Qed.

(** An Active definition met again closes a cycle. *)
Lemma visit_cycle fuel id visits depth :
  (forall a, visits !! a = Some Active -> tc Depends a id) ->
  visit_definition env fuel id visits depth = Err TeDefinitionCycle ->
  exists a, tc Depends a a.
Proof.
  revert id visits depth. induction fuel as [|fuel IH]; intros id visits depth Hact H; [done|].
  cbn [visit_definition] in H. apply bind_Err in H as [H|(_ & _ & H)].
  { unfold check_depth in H. by case_match. }
  destruct (visits !! id) as [[]|] eqn:Hid; [exists id; by apply Hact|done|].
  apply bind_Err in H as [H|(def & Hdef & H)]; [unfold definition in H; by apply ok_or_Err in H as [_ ?]|].
  apply ok_or_Ok in Hdef. apply bind_Err in H as [H|(v2 & _ & H)]; [|done].
  assert (forall a, <[id := Active]> visits !! a = Some Active ->
    forall dep, dep ∈ btree_set_iter (definition_dependencies def) -> tc Depends a dep) as Hact2.
  { intros a Ha dep Hdep. apply elem_of_btree_set_iter in Hdep.
    assert (Depends id dep) by by exists def.
    destruct (decide (a = id)) as [->|]; [by apply tc_once|].
    rewrite lookup_insert_ne in Ha by done. eapply tc_r; [by apply Hact|done]. }
  revert H Hact2. generalize (<[id := Active]> visits) as v.
  generalize (btree_set_iter (definition_dependencies def)) as deps.
  induction deps as [|dep deps IHd]; intros v H Hact2; [done|]. cbn [fold_res] in H.
  apply bind_Err in H as [H|(v1 & H1 & H)].
  - apply bind_Err in H as [H|(_ & _ & H)]; [unfold definition in H; by apply ok_or_Err in H as [_ ?]|].
    eapply IH; [|exact H]. intros a Ha. apply Hact2; [done|left].
  - apply bind_Ok in H1 as (_ & _ & H1). apply visit_ok in H1 as [[[_ Ha] _] _].
    eapply IHd; [exact H|]. intros a Hv1 d Hd. apply Hact2; [by apply Ha|by right].
Qed.

Lemma reject_ok :
  reject_definition_cycles env = Ok tt ->
  exists rank : EntityId -> nat, forall a b, Depends a b -> is_Some (env !! b) /\ (rank b < rank a)%nat.
Proof.
  unfold reject_definition_cycles. intros (v & H & _)%bind_Ok.
  apply visit_loop in H as [[[_ _] Hr] Hall]; [|by intros; eapply visit_ok].
  destruct Hr as [rank Hrank]; [exists (fun _ => 0%nat); intros k Hk; by rewrite lookup_empty in Hk|].
  exists rank. intros a b (def & Ha & Hb).
  assert (v !! a = Some Complete) as Hc.
  { apply Hall, elem_of_btree_keys. eauto. }
  destruct (Hrank a Hc) as (def' & Ha' & Hd). assert (def' = def) as -> by congruence.
  destruct (Hd b Hb) as [Hcb Hlt]. split; [|done].
  destruct (Hrank b Hcb) as (defb & -> & _). eauto.
Qed.
End cycles.

Lemma reject_definition_cycles_spec env :
  (reject_definition_cycles env = Ok tt ->
    (forall a b, Depends env a b -> is_Some (env !! b)) /\ forall a, ~ tc (Depends env) a a) /\
  (reject_definition_cycles env = Err TeDefinitionCycle -> exists a, tc (Depends env) a a).
Proof.
  split.
  - intros [rank Hrank]%reject_ok. split; [intros a b Hab; by destruct (Hrank a b Hab)|].
    intros a Ha. enough (forall x y, tc (Depends env) x y -> (rank y < rank x)%nat) as Hlt
      by (specialize (Hlt a a Ha); lia).
    induction 1 as [x y Hxy|x y z Hxy _ IH]; destruct (Hrank _ _ Hxy); lia.
  - unfold reject_definition_cycles. intros [H|(v & _ & H)]%bind_Err; [|done].
    assert (forall keys v, (forall a, v !! a <> Some Active) ->
      fold_res (fun v id => visit_definition env (walk_fuel 1) id v 1) v keys = Err TeDefinitionCycle ->
      exists a, tc (Depends env) a a) as Hloop.
    { clear H. induction keys as [|id keys IH]; intros v Hv H; [done|]. cbn [fold_res] in H.
      apply bind_Err in H as [H|(v1 & H1 & H)].
      - eapply visit_cycle; [|exact H]. intros a Ha. by destruct (Hv a).
      - eapply IH; [|exact H]. intros a Ha. apply visit_ok in H1 as [[[_ Hact] _] _]. by apply (Hv a), Hact. }
    eapply Hloop; [|exact H]. intros a. by rewrite lookup_empty.
Qed.

(** C39: the search for definition cycles is sound and complete up to the depth
    limit: when it succeeds every dependency of a definition is defined and no
    definition depends on itself through any chain; when it reports
    [TYPE_DEFINITION_CYCLE] there is such a chain. *)
Theorem reject_definition_cycles_exact env :
  (reject_definition_cycles env = Ok tt ->
    (forall a b, Depends env a b -> is_Some (env !! b)) /\ forall a, ~ tc (Depends env) a a) /\
  (reject_definition_cycles env = Err TeDefinitionCycle -> exists a, tc (Depends env) a a).
Proof. apply reject_definition_cycles_spec. Qed.

(** ** Accepted environments *)

Lemma check_ordinals_Ok parameters u :
  check_ordinals parameters = Ok u <-> tp_ordinal <$> parameters = N.of_nat <$> seq 0 (length parameters).
Proof.
  unfold check_ordinals. rewrite for_each_Ok, Forall_forall. split.
  - intros H. apply list_eq. intros i. rewrite !list_lookup_fmap.
    destruct (parameters !! i) as [p|] eqn:Hp.
    + assert ((N.of_nat i, p) ∈ enumerate parameters) as Hin
        by (apply elem_of_enumerate; by rewrite Nat2N.id).
      specialize (H _ Hin). cbn beta iota in H. destruct (N.eqb_spec (tp_ordinal p) (N.of_nat i)) as [E|]; [|done].
      rewrite lookup_seq_lt by by apply lookup_lt_Some in Hp. cbn. by rewrite E.
    + apply lookup_ge_None in Hp. by rewrite lookup_seq_ge.
  - intros H [i p] Hin. apply elem_of_enumerate in Hin.
    pose proof (f_equal (fun l => l !! N.to_nat i) H) as Hi. cbv beta in Hi.
    rewrite !list_lookup_fmap, Hin, lookup_seq_lt in Hi by by apply lookup_lt_Some in Hin.
    cbn in Hi. rewrite N2Nat.id in Hi. injection Hi as ->. by rewrite N.eqb_refl.
Qed.

Lemma form_types_members form : form_types form = omap snd (form_members form).
Proof. destruct form as [l|l]; cbn; induction l as [|x l IH]; cbn; try done; [by f_equal|].
  destruct (vc_payload_type x); cbn; by rewrite <- IH. Qed.

Lemma check_members_Ok env n members s :
  check_members env n members = Ok s ->
  NoDup members.*1 /\ Forall (fun t => check_type_inner env t n 1 = Ok tt) (omap snd members).
Proof.
  unfold check_members. assert (forall seen, fold_res (fun seen '(member_id, value_type) =>
      guard! negb (bool_decide (member_id ∈ seen)) else TeMemberDuplicate;
      match value_type with
      | Some t => check_type_inner env t n 1
      | None => Ok tt
      end ≫= fun _ => Ok ({[ member_id ]} ∪ seen)) seen members = Ok s ->
    NoDup members.*1 /\ (forall m, m ∈ members.*1 -> m ∉ seen) /\
    Forall (fun t => check_type_inner env t n 1 = Ok tt) (omap snd members)) as H.
  2:{ intros Hf. destruct (H _ Hf) as (? & _ & ?). done. }
  induction members as [|[m t] members IH]; intros seen H.
  - split_and!; [constructor|by intros ? ?%not_elem_of_nil|constructor].
  - cbn [fold_res] in H. apply bind_Ok in H as (seen' & H1 & H). apply IH in H as (Hnd & Hseen & Hf).
    apply bind_Ok in H1 as ([] & Hm & H1). apply ensure_Ok, negb_true_iff, bool_decide_eq_false_1 in Hm.
    apply bind_Ok in H1 as ([] & Ht & H1). rewrite Ok_inj in H1. subst seen'. cbn [fmap list_fmap fst].
    split_and!.
    + constructor; [|done]. intros Hin. apply Hseen in Hin. set_solver.
    + intros m' [->|Hin]%elem_of_cons; [done|]. apply Hseen in Hin. set_solver.
    + destruct t as [t|]; cbn; [by constructor|done].
Qed.

(** What the members of an accepted definition satisfy. *)
Record definition_ok (env : Definitions) (def : TypeDefinition) : Prop := {
  def_ordinals : tp_ordinal <$> td_type_parameters def = N.of_nat <$> seq 0 (length (td_type_parameters def));
  def_invariants : strictly_sorted (td_invariants def) = true;
  def_members : NoDup (form_members (td_form def)).*1;
  def_types : Forall (fun t => WellFormed env (len (td_type_parameters def)) t /\
    (type_height t <= MAX_TYPE_DEPTH)%N) (form_types (td_form def));
  def_keys : Forall (fun t => map_keys_ref env (walk_fuel 1) t 1 = Ok tt) (form_types (td_form def))
}.

Lemma check_definition_shape_Ok env def u :
  check_definition_shape env def = Ok u ->
  tp_ordinal <$> td_type_parameters def = N.of_nat <$> seq 0 (length (td_type_parameters def)) /\
  strictly_sorted (td_invariants def) = true /\
  NoDup (form_members (td_form def)).*1 /\
  Forall (fun t => WellFormed env (len (td_type_parameters def)) t /\ (type_height t <= MAX_TYPE_DEPTH)%N)
    (form_types (td_form def)).
Proof.
  unfold check_definition_shape. intros H. apply bind_Ok in H as (_ & _ & H).
  apply bind_Ok in H as (o & Ho & H). apply check_ordinals_Ok in Ho.
  apply bind_Ok in H as (i & Hi & H). apply bind_Ok in H as (_ & _ & H).
  apply bind_Ok in H as (s & Hs & _). apply check_members_Ok in Hs as [Hnd Hty].
  split_and!; [done| |done|].
  - unfold ensure_sorted_unique in Hi. by destruct (strictly_sorted _).
  - rewrite form_types_members. eapply Forall_impl; [exact Hty|]. cbv beta. intros t Ht.
    apply check_type_inner_spec in Ht as [? ?]. split; [done|]. lia.
Qed.

Lemma TypeEnvironment_new_spec definitions env :
  TypeEnvironment_new definitions = Ok env ->
  NoDup (td_entity_id <$> definitions) /\
  (forall id def, env !! id = Some def <-> def ∈ definitions /\ td_entity_id def = id) /\
  (forall id def, env !! id = Some def -> definition_ok env def) /\
  (forall a b, Depends env a b -> is_Some (env !! b)) /\
  (forall a, ~ tc (Depends env) a a) /\
  hydrate_verified_definitions definitions = Ok env.
Proof.
  unfold TypeEnvironment_new. intros H. apply bind_Ok in H as ([] & Hlen & H).
  apply bind_Ok in H as (env' & Henv & H). apply bind_Ok in H as ([] & Hshape & H).
  apply bind_Ok in H as ([] & Hcyc & H). apply bind_Ok in H as ([] & Hkeys & H).
  rewrite Ok_inj in H. subst env'.
  assert (hydrate_verified_definitions definitions = Ok env) as Hhyd.
  { unfold hydrate_verified_definitions. by rewrite Hlen. }
  apply ok_or_Ok, index_by_spec in Henv as (Hnd & _ & Hspec).
  apply reject_definition_cycles_spec in Hcyc as [Hdef Hacyc].
  rewrite for_each_Ok, Forall_forall in Hshape.
  assert (Sim env (walk_each (check_definition_map_keys env) (btree_values env))
    (for_each (fun def => for_each (fun t => map_keys_ref env (walk_fuel 1) t 1) (form_types (td_form def)))
      (btree_values env))) as Hsim.
  { apply sim_each. intros def _. apply sim_each. intros t _. by apply sim_map_keys. }
  apply sim_run in Hsim as [E|E]; rewrite E in Hkeys; [done|].
  rewrite for_each_Ok, Forall_forall in Hkeys. split_and!; try done.
  - intros id def. rewrite Hspec, lookup_empty. split; [by intros [?|?]|by right].
  - intros id def Hid.
    assert (def ∈ btree_values env) as Hin by (apply elem_of_btree_values; eauto).
    destruct (check_definition_shape_Ok _ _ _ (Hshape _ Hin)) as (? & ? & ? & ?).
    specialize (Hkeys _ Hin). rewrite for_each_Ok in Hkeys. by split.
Qed.

(** C38: [TypeEnvironment::new] accepts an inventory only if it is the index of
    definitions with distinct identities, each with parameters numbered from
    zero, sorted invariants, distinct members, well-formed member types whose
    map keys are orderable, and no chain of dependencies that leads back to
    its start.  Hydration of the same inventory gives the same environment. *)
Theorem TypeEnvironment_new_ok definitions env :
  TypeEnvironment_new definitions = Ok env ->
  NoDup (td_entity_id <$> definitions) /\
  (forall id def, env !! id = Some def <-> def ∈ definitions /\ td_entity_id def = id) /\
  (forall id def, env !! id = Some def -> definition_ok env def) /\
  (forall a b, Depends env a b -> is_Some (env !! b)) /\
  (forall a, ~ tc (Depends env) a a) /\
  hydrate_verified_definitions definitions = Ok env.
Proof. apply TypeEnvironment_new_spec. Qed.

Theorem TypeEnvironment_new_ok_witness :
  let def := {| td_entity_id := 7; td_type_parameters := [{| tp_ordinal := 0 |}];
    td_form := FormRecord [{| rf_member_id := 1; rf_value_type := TOption (TTypeParameter 0);
      rf_visibility := VPrivate |}]; td_invariants := []; td_visibility := VPrivate |} in
  TypeEnvironment_new [def] = Ok {[7%N := def]} /\
  (forall id d, ({[7%N := def]} : Definitions) !! id = Some d <-> d ∈ [def] /\ td_entity_id d = id).
Proof.
  intros def. assert (TypeEnvironment_new [def] = Ok {[7%N := def]}) as E by (vm_compute; reflexivity).
  split; [exact E|]. apply (TypeEnvironment_new_ok [def] {[7%N := def]} E).
Defined.
