(* ===== verification/ConstCheck.v ===== *)
(** * The type system: constants (crates/sley-check/src/lib.rs)

    [check_constant] walks a constant along its declared type.  [ConstTyped] is
    the typing judgement it implements; the theorem says that the two agree up
    to the depth limit. *)

From S2P Require Import Prelude BTree Bytes Ssmc Types TypeWalk TypeEnv.
Set Warnings "-register-all".

(** [for (x, y) in xs.iter().zip(ys)] *)
Section for_each_zip.
Context {E A B : Type} (f : A -> B -> result E unit).
Fixpoint for_each_zip (l : list A) (r : list B) : result E unit :=
  match l, r with
  | x :: l, y :: r => f x y ≫= fun _ => for_each_zip l r
  | _, _ => Ok tt
  end.
End for_each_zip.

Section check.
Variable env : Definitions.

(** The helpers take the recursive call [rec value expected depth]. *)
Section helpers.
Variable rec : ConstValue -> TypeExpr -> N -> type_result unit.

Definition check_record_constant (id : EntityId) (arguments : list TypeExpr)
    (record : RecordConst ConstValue) (depth : N) : type_result unit :=
  guard! (id =? rc_definition record)%N else TeImplicitCoercion;
  def ← definition env id;
  match td_form def with
  | FormRecord fields =>
      guard! (len fields =? len (rc_fields record))%N else TeConstShape;
      for_each_zip (fun value field =>
        guard! (rf_member_id field =? fc_member_id value)%N else TeMemberUnknown;
        field_type ← substitute (rf_value_type field) arguments (depth + 1);
        rec (fc_value value) field_type (depth + 1)%N) (rc_fields record) fields
  | FormVariant _ => Err TeConstShape
  end.

Definition check_variant_constant (id : EntityId) (arguments : list TypeExpr)
    (variant : VariantConst ConstValue) (depth : N) : type_result unit :=
  guard! (id =? vk_definition variant)%N else TeImplicitCoercion;
  def ← definition env id;
  match td_form def with
  | FormVariant cases =>
      case ← ok_or TeMemberUnknown
               (find_first (fun case => (vc_member_id case =? vk_member_id variant)%N) cases);
      match vc_payload_type case, vk_payload variant with
      | None, None => Ok tt
      | Some expected, Some value =>
          expected ← substitute expected arguments (depth + 1);
          rec value expected (depth + 1)%N
      | _, _ => Err TeConstShape
      end
  | FormRecord _ => Err TeConstShape
  end.

(** The loop over the entries, [previous] being [entries[..index]]. *)
Section entries.
Context (key_type value_type : TypeExpr) (depth : N).
Fixpoint check_entries (previous : list ConstValue) (entries : list (MapEntryConst ConstValue))
    : type_result unit :=
  match entries with
  | [] => Ok tt
  | entry :: entries =>
      rec (me_key entry) key_type (depth + 1)%N ≫= fun _ =>
      rec (me_value entry) value_type (depth + 1)%N ≫= fun _ =>
      guard! negb (existsb (fun p => ConstValue_eqb p (me_key entry)) previous) else TeConstDuplicateKey;
      check_entries (previous ++ [me_key entry]) entries
  end.
End entries.

Definition check_map_constant (entries : list (MapEntryConst ConstValue))
    (key_type value_type : TypeExpr) (depth : N) : type_result unit :=
  check_collection_len (len entries) ≫= fun _ =>
  t ← traits env key_type;
  require_map_key_traits t ≫= fun _ =>
  check_entries key_type value_type depth [] entries.
End helpers.

Fixpoint check_constant_as (value : ConstValue) (expected : TypeExpr) (depth : N) : type_result unit :=
  check_depth depth ≫= fun _ =>
  guard! TypeExpr_eqb (cv_type value) expected else TeImplicitCoercion;
  match value with
  | mkConstValue _ data =>
      match expected, data with
      | TUnit, DUnit | TBool, DBool _ => Ok tt
      | TSInt width, DSInt number => check_signed_range width number
      | TUInt width, DUInt number => check_unsigned_range width number
      | TF32, DF32Bits bits => check_f32 bits
      | TF64, DF64Bits bits => check_f64 bits
      | TBytes, DBytes b => check_payload_len (len b)
      | TText, DText text => check_payload_len (len text)
      | TTuple types, DSequence values =>
          guard! (len values =? len types)%N else TeConstShape;
          for_each_zip (fun item item_type => check_constant_as item item_type (depth + 1)) values types
      | TVector element, DSequence values =>
          check_collection_len (len values) ≫= fun _ =>
          for_each (fun item => check_constant_as item element (depth + 1)) values
      | TNamed id arguments, DRecord record =>
          check_record_constant check_constant_as id arguments record (depth + 1)
      | TNamed id arguments, DVariant variant =>
          check_variant_constant check_constant_as id arguments variant (depth + 1)
      | TOrderedMap key value, DMap entries =>
          check_map_constant check_constant_as entries key value (depth + 1)
      | TOption element, DOption item =>
          match item with
          | Some item => check_constant_as item element (depth + 1)
          | None => Ok tt
          end
      | TResult ok _, DResult (ROk value) => check_constant_as value ok (depth + 1)
      | TResult _ error, DResult (RErr value) => check_constant_as value error (depth + 1)
      | TFunctionRef _ _ _, DFunctionRef reference =>
          guard! (len (frv_type_arguments reference) <=? MAX_TYPE_ARGUMENTS)%N else TeArgumentLimit;
          for_each (check_closed_type env) (frv_type_arguments reference)
      | TBuiltinFailure kind, DBuiltinFailure failure =>
          if bool_decide (kind = bfv_kind failure)
          then check_builtin_failure (bfv_kind failure) (bfv_code failure) else Err TeConstShape
      | TAdapterHandle _, _ | TCapabilityToken _, _ | TLocalCell _, _ | TTypeParameter _, _ =>
          Err TeNotPersistable
      | _, _ => Err TeConstShape
      end
  end.

Definition check_constant (value : ConstValue) : type_result unit :=
  check_closed_type env (cv_type value) ≫= fun _ =>
  t ← traits env (cv_type value);
  guard! persistable t else TeNotPersistable;
  check_constant_as value (cv_type value) 1.
End check.

(** ** The typing judgement *)

Section judgement.
Variable env : Definitions.

Definition signed_in_range (w : IntegerWidth) (x : Z) : Prop :=
  is_epoch_1 w = true /\ (w = 128%N \/ (- 2 ^ (Z.of_N w - 1) <= x < 2 ^ (Z.of_N w - 1))%Z).
Definition unsigned_in_range (w : IntegerWidth) (x : N) : Prop :=
  is_epoch_1 w = true /\ (w = 128%N \/ (x < 2 ^ w)%N).

(** [f]'s member type, its parameters replaced by [args]. *)
Definition member_type (f : TypeExpr) (args : list TypeExpr) (t : TypeExpr) : Prop :=
  exists d, substitute f args d = Ok t.

(** Constants without parts.  An [i128] or [u128] is in the range of the
    widest width by its representation. *)
Definition leaf_typed (t : TypeExpr) (d : ConstData) : Prop :=
  match t, d with
  | TUnit, DUnit | TBool, DBool _ => True
  | TSInt w, DSInt x => signed_in_range w x
  | TUInt w, DUInt x => unsigned_in_range w x
  | TF32, DF32Bits bits => check_f32 bits = Ok tt
  | TF64, DF64Bits bits => check_f64 bits = Ok tt
  | TBytes, DBytes b | TText, DText b => (len b <= MAX_CONSTANT_PAYLOAD_BYTES)%N
  | TFunctionRef _ _ _, DFunctionRef f =>
      (len (frv_type_arguments f) <= MAX_TYPE_ARGUMENTS)%N /\
      Forall (fun t => check_closed_type env t = Ok tt) (frv_type_arguments f)
  | TBuiltinFailure k, DBuiltinFailure f =>
      k = bfv_kind f /\ check_builtin_failure (bfv_kind f) (bfv_code f) = Ok tt
  | _, _ => False
  end.

Inductive ConstTyped : ConstValue -> Prop :=
| CT_leaf t d : leaf_typed t d -> ConstTyped (mkConstValue t d)
| CT_tuple types values :
    Forall2 (fun v t => cv_type v = t /\ ConstTyped v) values types ->
    ConstTyped (mkConstValue (TTuple types) (DSequence values))
| CT_vector e values :
    (len values <= MAX_CONSTANT_ELEMENTS)%N ->
    Forall (fun v => cv_type v = e /\ ConstTyped v) values ->
    ConstTyped (mkConstValue (TVector e) (DSequence values))
| CT_record id args def fields values :
    env !! id = Some def -> td_form def = FormRecord fields ->
    Forall2 (fun v f => rf_member_id f = fc_member_id v /\
      member_type (rf_value_type f) args (cv_type (fc_value v)) /\ ConstTyped (fc_value v)) values fields ->
    ConstTyped (mkConstValue (TNamed id args) (DRecord (mkRecordConst id values)))
| CT_case id args def cases case :
    env !! id = Some def -> td_form def = FormVariant cases ->
    find_first (fun c => (vc_member_id c =? vc_member_id case)%N) cases = Some case ->
    vc_payload_type case = None ->
    ConstTyped (mkConstValue (TNamed id args) (DVariant (mkVariantConst id (vc_member_id case) None)))
| CT_payload id args def cases case f v :
    env !! id = Some def -> td_form def = FormVariant cases ->
    find_first (fun c => (vc_member_id c =? vc_member_id case)%N) cases = Some case ->
    vc_payload_type case = Some f -> member_type f args (cv_type v) -> ConstTyped v ->
    ConstTyped (mkConstValue (TNamed id args) (DVariant (mkVariantConst id (vc_member_id case) (Some v))))
| CT_map k v t entries :
    (len entries <= MAX_CONSTANT_ELEMENTS)%N ->
    traits env k = Ok t -> require_map_key_traits t = Ok tt ->
    NoDup (me_key <$> entries) ->
    Forall (fun e => (cv_type (me_key e) = k /\ ConstTyped (me_key e)) /\
                     (cv_type (me_value e) = v /\ ConstTyped (me_value e))) entries ->
    ConstTyped (mkConstValue (TOrderedMap k v) (DMap entries))
| CT_none t : ConstTyped (mkConstValue (TOption t) (DOption None))
| CT_some v : ConstTyped v -> ConstTyped (mkConstValue (TOption (cv_type v)) (DOption (Some v)))
| CT_ok v e : ConstTyped v -> ConstTyped (mkConstValue (TResult (cv_type v) e) (DResult (ROk v)))
| CT_err o v : ConstTyped v -> ConstTyped (mkConstValue (TResult o (cv_type v)) (DResult (RErr v))).

Definition typed_as (v : ConstValue) (t : TypeExpr) : Prop := cv_type v = t /\ ConstTyped v.
End judgement.

(** ** Agreement up to the depth limit *)

Definition Agrees (r : type_result unit) (T : Prop) : Prop :=
  (r = Ok tt -> T) /\ (T -> r = Ok tt \/ r = Err TeDepthLimit).

Lemma agrees_iff r T : (r = Ok tt <-> T) -> Agrees r T.
Proof. intros H. split; [by apply H|]. intros HT. left. by apply H. Qed.

Lemma agrees_prop r T T' : (T <-> T') -> Agrees r T -> Agrees r T'.
Proof. intros H [H1 H2]. split; [by intros ?%H1; apply H|]. intros HT. by apply H2, H. Qed.

Lemma agrees_false r T : ~ T -> (r <> Ok tt) -> Agrees r T.
Proof. intros HT Hr. split; done. Qed.

Lemma agrees_and r r' T T' : Agrees r T -> (T -> Agrees r' T') -> Agrees (r ≫= fun _ => r') (T /\ T').
Proof.
  intros [H1 H2] H. split.
  - intros ([] & Hr & Hr')%bind_Ok. split; [auto|]. by apply H; [apply H1|].
  - intros [HT HT']. destruct (H2 HT) as [-> | ->]; [|by right]. cbn. by apply (proj2 (H HT)).
Qed.

Lemma agrees_depth d r T : Agrees r T -> Agrees (check_depth d ≫= fun _ => r) T.
Proof.
  intros [H1 H2]. unfold check_depth. destruct (MAX_TYPE_DEPTH <? d)%N; cbn; [|done].
  split; [done|]. by right.
Qed.

Lemma agrees_for_each {A} (f : A -> type_result unit) T l :
  (forall x, x ∈ l -> Agrees (f x) (T x)) -> Agrees (for_each f l) (Forall T l).
Proof.
  induction l as [|x l IH]; intros H; [by apply agrees_iff|]. cbn [for_each].
  eapply agrees_prop; [symmetry; apply Forall_cons|]. apply agrees_and; [apply H; left|].
  intros _. apply IH. intros y Hy. apply H. by right.
Qed.

Lemma agrees_for_each_zip {A B} (f : A -> B -> type_result unit) T l r :
  length l = length r -> (forall x y, x ∈ l -> Agrees (f x y) (T x y)) ->
  Agrees (for_each_zip f l r) (Forall2 T l r).
Proof.
  revert r. induction l as [|x l IH]; intros [|y r] Hl H; try done.
  { apply agrees_iff. split; [constructor|done]. }
  cbn [for_each_zip]. eapply agrees_prop; [symmetry; apply Forall2_cons|].
  apply agrees_and; [apply H; left|]. intros _. apply IH; [by injection Hl|]. intros ???. apply H. by right.
Qed.

(** A substitution that succeeds at some depth fails only by depth. *)
Lemma substitute_depth t args d d' r :
  substitute t args d' = Ok r -> substitute t args d = Ok r \/ substitute t args d = Err TeDepthLimit.
Proof.
  revert d d' r. induction t as [t IH] using TypeExpr_ind'. intros d d' r. rewrite !substitute_eq.
  intros H. apply bind_Ok in H as (_ & _ & H). unfold check_depth at 1 2.
  destruct (MAX_TYPE_DEPTH <? d)%N; cbn [mbind result_bind]; [by right|].
  assert (forall l, map_res (fun c => substitute c args (d' + 1)) (type_children t) = Ok l ->
    map_res (fun c => substitute c args (d + 1)) (type_children t) = Ok l \/
    map_res (fun c => substitute c args (d + 1)) (type_children t) = Err TeDepthLimit) as Hl.
  { clear H. induction IH as [|c cs Hc _ IHl]; intros l Hl; [by left|]. cbn [map_res] in *.
    apply bind_Ok in Hl as (x & Hx & Hl). apply bind_Ok in Hl as (xs & Hxs & Hl).
    destruct (Hc (d + 1)%N _ _ Hx) as [-> | ->]; [|by right]. cbn [mbind result_bind].
    destruct (IHl _ Hxs) as [-> | ->]; [by left|by right]. }
  destruct t; try (apply bind_Ok in H as (l & H & E); destruct (Hl _ H) as [-> | ->];
    [by left|by right]). by left.
Qed.

Lemma agrees_substitute f args d (k : TypeExpr -> type_result unit) (T : TypeExpr -> Prop) :
  (forall t, Agrees (k t) (T t)) ->
  Agrees (t ← substitute f args d; k t) (exists t, member_type f args t /\ T t).
Proof.
  intros Hk. split.
  - intros (t & Ht & H)%bind_Ok. exists t. split; [by exists d|]. by apply Hk.
  - intros (t & [d' Ht] & HT). destruct (substitute_depth _ _ d _ _ Ht) as [-> | ->]; [|by right].
    by apply (proj2 (Hk t)).
Qed.

(** *** The leaf checks *)

Lemma check_signed_range_Ok w x u : check_signed_range w x = Ok u <-> signed_in_range w x.
Proof.
  destruct u. unfold check_signed_range, signed_in_range, check_width.
  destruct (is_epoch_1 w) eqn:Hw; cbn [mbind result_bind]; [|by split; [|intros []]].
  destruct (N.eqb_spec w 128) as [->|Hne]; [by split; [split; [|left]|]|].
  assert (1 <= w)%N by (unfold is_epoch_1 in Hw; lia).
  rewrite Z.shiftl_mul_pow2, Z.mul_1_l by lia. rewrite N2Z.inj_sub by lia. change (Z.of_N 1) with 1%Z.
  generalize (2 ^ (Z.of_N w - 1))%Z. intros m.
  destruct (Z.leb_spec (- m) x), (Z.ltb_spec x m); cbn [andb]; split; try done; intuition lia.
Qed.

Lemma check_unsigned_range_Ok w x u : check_unsigned_range w x = Ok u <-> unsigned_in_range w x.
Proof.
  destruct u. unfold check_unsigned_range, unsigned_in_range, check_width.
  destruct (is_epoch_1 w) eqn:Hw; cbn [mbind result_bind]; [|by split; [|intros []]].
  destruct (N.eqb_spec w 128) as [->|Hne]; [by split; [split; [|left]|]|].
  rewrite N.shiftl_mul_pow2, N.mul_1_l. generalize (2 ^ w)%N. intros m.
  destruct (N.ltb_spec x m); split; try done; intuition lia.
Qed.

Lemma check_payload_len_Ok n u : check_payload_len n = Ok u <-> (n <= MAX_CONSTANT_PAYLOAD_BYTES)%N.
Proof. unfold check_payload_len. destruct u. destruct (N.ltb_spec MAX_CONSTANT_PAYLOAD_BYTES n); split; (done || lia). Qed.

Lemma check_collection_len_Ok n u : check_collection_len n = Ok u <-> (n <= MAX_CONSTANT_ELEMENTS)%N.
Proof. unfold check_collection_len. destruct u. destruct (N.ltb_spec MAX_CONSTANT_ELEMENTS n); split; (done || lia). Qed.

Lemma ensure_agrees b e : Agrees (ensure b e) (b = true).
Proof. apply agrees_iff, ensure_Ok. Qed.

(** Inversion of the judgement; the leaf rule applies to leaves only. *)
Ltac inv_typed H :=
  inversion H; simplify_eq;
  try match goal with L : leaf_typed _ _ _ |- _ => by destruct L end;
  try match goal with
  | A : td_form ?d = ?x, B : td_form ?d = ?y |- _ =>
      assert (x = y) by congruence; clear B; simplify_eq
  end.

(** A constant without parts: its check is its leaf rule. *)
Ltac leaf lem :=
  match goal with |- Agrees _ (ConstTyped ?env (mkConstValue ?t ?d)) =>
    apply (agrees_prop _ (leaf_typed env t d));
    [split; [by apply CT_leaf|intros HT; by inversion HT]|apply agrees_iff; cbn [leaf_typed]; lem]
  end.

Section agreement.
Variable env : Definitions.

Lemma agrees_entries rec k v d previous entries :
  (forall e, e ∈ entries -> forall t d, Agrees (rec (me_key e) t d) (typed_as env (me_key e) t)) ->
  (forall e, e ∈ entries -> forall t d, Agrees (rec (me_value e) t d) (typed_as env (me_value e) t)) ->
  Agrees (check_entries rec k v d previous entries)
    (Forall (fun e => typed_as env (me_key e) k /\ typed_as env (me_value e) v) entries /\
     NoDup (me_key <$> entries) /\ (forall x, x ∈ previous -> x ∉ me_key <$> entries)).
Proof.
  revert previous. induction entries as [|e entries IH]; intros previous Hk Hv; cbn [check_entries].
  { apply agrees_iff. split; [|done]. intros _. split_and!; [constructor|constructor|].
    intros x _. apply not_elem_of_nil. }
  eapply agrees_prop; [|apply agrees_and; [apply (Hk e); left|intros _; apply agrees_and;
    [apply (Hv e); left|intros _; apply agrees_and; [apply ensure_agrees|intros _; apply IH]]]].
  2:{ intros ??. apply Hk. by right. }
  2:{ intros ??. apply Hv. by right. }
  rewrite Forall_cons, fmap_cons, NoDup_cons. rewrite negb_true_iff, <- not_true_iff_false, existsb_exists.
  setoid_rewrite ConstValue_eqb_spec. setoid_rewrite elem_of_app. setoid_rewrite elem_of_cons.
  setoid_rewrite elem_of_nil. setoid_rewrite <- list_elem_of_In. split.
  - intros (Hek & Hev & Hp & Hf & Hnd & Hx). split_and!; try done.
    + apply Hx. auto.
    + intros x Hxp [->|Hin]; [apply Hp; eauto|]. by apply (Hx x); auto.
  - intros (([Hek Hek'] & Hev) & (Hn & Hnd) & Hx). split_and!; try done.
    + intros (x & Hxp & ->). apply (Hx (me_key e)); auto.
    + intros x [Hxp|[->|[]]]; [|done]. intros Hin. apply (Hx x); auto.
Qed.

Lemma typed_as_mk t d : typed_as env (mkConstValue t d) t <-> ConstTyped env (mkConstValue t d).
Proof. unfold typed_as. cbn. naive_solver. Qed.

Lemma agrees_record rec id args r d :
  (forall v, v ∈ fc_value <$> rc_fields r -> forall t d, Agrees (rec v t d) (typed_as env v t)) ->
  Agrees (check_record_constant env rec id args r d)
    (ConstTyped env (mkConstValue (TNamed id args) (DRecord r))).
Proof.
  intros Hrec. unfold check_record_constant. destruct r as [id' values]. cbn [rc_definition rc_fields] in *.
  destruct (N.eqb_spec id id') as [<-|Hne]; cbn [ensure mbind result_bind].
  2:{ apply agrees_false; [|done]. intros H. inv_typed H; done. }
  unfold definition. destruct (env !! id) as [def|] eqn:Hdef; cbn [ok_or mbind result_bind].
  2:{ apply agrees_false; [|done]. intros H. inv_typed H; done. }
  destruct (td_form def) as [fields|] eqn:Hform.
  2:{ apply agrees_false; [|done]. intros H. inv_typed H; congruence. }
  destruct (N.eqb_spec (len fields) (len values)) as [Hlen|Hne]; cbn [ensure mbind result_bind].
  2:{ apply agrees_false; [|done]. intros H. inv_typed H.
    match goal with H2 : Forall2 _ _ _ |- _ => apply Forall2_length in H2; apply Hne; unfold len; congruence end. }
  eapply agrees_prop; [|apply (agrees_for_each_zip _ (fun v f => rf_member_id f = fc_member_id v /\
    exists t, member_type (rf_value_type f) args t /\ typed_as env (fc_value v) t))].
  - split.
    + intros H2. eapply CT_record; [done..|]. eapply Forall2_impl; [exact H2|]. cbv beta.
      intros v f (? & t & ? & <- & ?). done.
    + intros H. inv_typed H.
      match goal with H2 : Forall2 _ _ _ |- _ => eapply Forall2_impl; [exact H2|]; cbv beta end.
      intros v f (? & ? & ?). split; [done|]. by exists (cv_type (fc_value v)).
  - unfold len in Hlen. lia.
  - intros v f Hv. apply agrees_and; [apply agrees_iff; rewrite ensure_Ok; apply N.eqb_eq|]. intros _.
    apply agrees_substitute. intros t. apply Hrec. by apply list_elem_of_fmap_2.
Qed.

Lemma agrees_variant rec id args w d :
  (forall v, vk_payload w = Some v -> forall t d, Agrees (rec v t d) (typed_as env v t)) ->
  Agrees (check_variant_constant env rec id args w d)
    (ConstTyped env (mkConstValue (TNamed id args) (DVariant w))).
Proof.
  intros Hrec. unfold check_variant_constant. destruct w as [id' m payload].
  cbn [vk_definition vk_member_id vk_payload] in *.
  destruct (N.eqb_spec id id') as [<-|Hne]; cbn [ensure mbind result_bind].
  2:{ apply agrees_false; [|done]. intros H. inv_typed H; done. }
  unfold definition. destruct (env !! id) as [def|] eqn:Hdef; cbn [ok_or mbind result_bind].
  2:{ apply agrees_false; [|done]. intros H. inv_typed H; done. }
  destruct (td_form def) as [|cases] eqn:Hform.
  { apply agrees_false; [|done]. intros H. inv_typed H; congruence. }
  destruct (find_first _ cases) as [case|] eqn:Hfind; cbn [ok_or mbind result_bind].
  2:{ apply agrees_false; [|done]. intros H. inv_typed H; congruence. }
  destruct (find_first_Some _ _ _ Hfind) as [_ Hm]. apply N.eqb_eq in Hm. subst m.
  destruct (vc_payload_type case) as [f|] eqn:Hpt, payload as [v|].
  - eapply agrees_prop; [|by apply agrees_substitute; intros t; apply Hrec]. split.
    + intros (t & Ht & <- & Hv). by eapply CT_payload.
    + intros H. inv_typed H.
      match goal with E : vc_member_id ?c = vc_member_id case, F : find_first _ _ = Some ?c |- _ =>
        rewrite E in F end.
      simplify_eq. by exists (cv_type v).
  - apply agrees_false; [|done]. intros H. inv_typed H.
    match goal with E : vc_member_id ?c = vc_member_id case, F : find_first _ _ = Some ?c |- _ =>
      rewrite E in F end.
    congruence.
  - apply agrees_false; [|done]. intros H. inv_typed H.
    match goal with E : vc_member_id ?c = vc_member_id case, F : find_first _ _ = Some ?c |- _ =>
      rewrite E in F end.
    congruence.
  - apply agrees_iff. split; [|done]. intros _. by eapply CT_case.
Qed.

Lemma agrees_map rec k v entries d :
  (forall c, c ∈ entries ≫= (fun e => [me_key e; me_value e]) ->
     forall t d, Agrees (rec c t d) (typed_as env c t)) ->
  Agrees (check_map_constant env rec entries k v d)
    (ConstTyped env (mkConstValue (TOrderedMap k v) (DMap entries))).
Proof.
  intros Hrec. unfold check_map_constant.
  destruct (traits env k) as [tr|e] eqn:Htr.
  - eapply agrees_prop; [|apply agrees_and; [apply agrees_iff, check_collection_len_Ok|intros _; cbn [mbind result_bind];
      apply agrees_and; [apply agrees_iff; reflexivity|intros _; apply agrees_entries]]].
    + split.
      * intros (? & ? & Hf & Hnd & _). by eapply CT_map.
      * intros H. inv_typed H. split_and!; try done; [congruence|].
        intros x Hx. by apply not_elem_of_nil in Hx.
    + intros e He. apply Hrec. apply list_elem_of_bind. exists e. split; [left|done].
    + intros e He. apply Hrec. apply list_elem_of_bind. exists e. split; [right; left|done].
  - apply agrees_false; [intros H; inv_typed H; congruence|].
    intros (_ & _ & H)%bind_Ok. done.
Qed.

Lemma check_constant_as_agrees v : forall expected d,
  Agrees (check_constant_as env v expected d) (typed_as env v expected).
Proof.
  induction v as [t data IH] using ConstValue_ind'. intros expected d. cbn [check_constant_as cv_type].
  apply agrees_depth. destruct (TypeExpr_eqb t expected) eqn:Et; cbn [ensure mbind result_bind].
  2:{ apply agrees_false; [|done]. intros [E _]. apply TypeExpr_eqb_spec in E. cbn in E. congruence. }
  apply TypeExpr_eqb_spec in Et as ->. eapply agrees_prop; [symmetry; apply typed_as_mk|].
  rewrite Forall_forall in IH.
  destruct expected, data;
    try (apply agrees_false; [intros H; by inv_typed H|done]).
  - leaf ltac:(by split).
  - leaf ltac:(by split).
  - leaf ltac:(apply check_signed_range_Ok).
  - leaf ltac:(apply check_unsigned_range_Ok).
  - leaf ltac:(reflexivity).
  - leaf ltac:(reflexivity).
  - leaf ltac:(apply check_payload_len_Ok).
  - leaf ltac:(apply check_payload_len_Ok).
  - destruct (N.eqb_spec (len items0) (len items)) as [Hl|Hl]; cbn [ensure mbind result_bind].
    + eapply agrees_prop; [|apply (agrees_for_each_zip _ (typed_as env))].
      * split; [by apply CT_tuple|]. intros H. by inv_typed H.
      * unfold len in Hl. lia.
      * intros x y Hx. by apply IH.
    + apply agrees_false; [|done]. intros H. inv_typed H. apply Hl.
      match goal with H2 : Forall2 _ _ _ |- _ => apply Forall2_length in H2 end. unfold len. congruence.
  - apply agrees_record. exact IH.
  - apply agrees_variant. intros x Hx. apply IH. cbn. rewrite Hx. left.
  - eapply agrees_prop; [|apply agrees_and; [apply agrees_iff, check_collection_len_Ok|
      intros _; apply (agrees_for_each _ (fun v => typed_as env v expected))]].
    + split; [intros [? ?]; by apply CT_vector|]. intros H. by inv_typed H.
    + intros x Hx. by apply IH.
  - by apply agrees_map.
  - destruct o as [v|].
    + eapply agrees_prop; [|apply (IH v); left]. split; [intros [<- ?]; by apply CT_some|].
      intros H. by inv_typed H.
    + eapply agrees_prop; [|apply agrees_iff; reflexivity]. split; [intros _; apply CT_none|done].
  - destruct r as [v|v].
    + eapply agrees_prop; [|apply (IH v); left]. split; [intros [<- ?]; by apply CT_ok|].
      intros H. by inv_typed H.
    + eapply agrees_prop; [|apply (IH v); left]. split; [intros [<- ?]; by apply CT_err|].
      intros H. by inv_typed H.
  - eapply agrees_prop; [|apply agrees_and; [apply ensure_agrees|intros _;
      apply (agrees_for_each _ (fun t => check_closed_type env t = Ok tt)); intros; by apply agrees_iff]].
    rewrite N.leb_le. split; [intros ?; by apply CT_leaf|]. intros H. by inversion H.
  - case_bool_decide as Hk.
    + leaf ltac:(split; [intros Hc; split; [exact Hk|exact Hc]|by intros [_ ?]]).
    + apply agrees_false; [|done]. intros H. inversion H as [? ? Hleaf| | | | | | | | | |]; subst. by destruct Hleaf.
Qed.
End agreement.

(** ** Theorems *)

Lemma check_constant_sound env v :
  check_constant env v = Ok tt ->
  ConstTyped env v /\ exists t, traits env (cv_type v) = Ok t /\ persistable t = true.
Proof.
  unfold check_constant. intros H. apply bind_Ok in H as (_ & _ & H). apply bind_Ok in H as (t & Ht & H).
  apply bind_Ok in H as ([] & Hp & H). apply ensure_Ok in Hp.
  apply (proj1 (check_constant_as_agrees env v (cv_type v) 1)) in H as [_ H]. split; [done|]. by exists t.
Qed.

(** C35: a constant is accepted only if it has the type it declares, its type
    is persistable, and every part of it is typed: integers in the range of
    their width, canonical floats, bounded payloads, fields and cases as
    declared with the arguments substituted, and maps with orderable, pairwise
    distinct keys.  Conversely such a constant of a persistable closed type is
    accepted unless it exceeds the depth limit. *)
Theorem check_constant_exact env v :
  (check_constant env v = Ok tt ->
     ConstTyped env v /\ exists t, traits env (cv_type v) = Ok t /\ persistable t = true) /\
  (forall t, traits env (cv_type v) = Ok t -> persistable t = true -> ConstTyped env v ->
     check_constant env v = Ok tt \/ check_constant env v = Err TeDepthLimit).
Proof.
  split; [apply check_constant_sound|]. intros t Ht Hp HT. unfold check_constant.
  pose proof Ht as Hcl. unfold traits in Hcl. apply bind_Ok in Hcl as ([] & -> & _).
  cbn [mbind result_bind]. rewrite Ht. cbn [mbind result_bind]. rewrite Hp. cbn [ensure mbind result_bind].
  apply (proj2 (check_constant_as_agrees env v (cv_type v) 1)). by split.
Qed.

Theorem check_constant_exact_witness :
  let v := mkConstValue (TOption (TUInt 8)) (DOption (Some (mkConstValue (TUInt 8) (DUInt 255)))) in
  check_constant ∅ v = Ok tt /\ ConstTyped ∅ v.
Proof.
  intros v. assert (check_constant ∅ v = Ok tt) as E by (vm_compute; reflexivity).
  split; [exact E|]. apply (proj1 (check_constant_exact ∅ v)). exact E.
Defined.
