(* ===== verification/CfgGraph.v ===== *)
(** * Reachability and dominators (crates/sley-check/src/cfg.rs)

    The two graph algorithms of the CFG validator, over blocks numbered by
    their position in the function: [compute_reachability], a breadth-first
    search, and [compute_dominators], the iterative bit-set algorithm with its
    round and work limits.

    Positions are [nat].  Indexing a vector out of range panics: [get] and
    [put] have the outcome [Panicked] there.  [CfgPlain] has the same algorithms
    on total functions, and [CfgDominators] shows that they agree. *)

From S2P Require Import Prelude Ssmc Types.
From stdpp Require Import strings.

Definition MAX_CFG_BLOCKS : N := 4096.
Definition MAX_DOMINATOR_WORD_OPERATIONS : N := 50000000.

(** The variants of [CfgErrorCode], prefixed by [Cfg]. *)
Inductive CfgErrorCode : Type :=
| CfgGraphDuplicateEntity
| CfgGraphInventoryMismatch
| CfgGraphOwnerMismatch
| CfgGraphOrdinalMismatch
| CfgGraphUnresolvedReference
| CfgEntryInvalid
| CfgTargetInvalid
| CfgTargetArguments
| CfgReturnType
| CfgBoolRequired
| CfgSwitchType
| CfgSwitchCases
| CfgSwitchPayload
| CfgValueUnresolved
| CfgResultIndex
| CfgUseBeforeDefinition
| CfgDominance
| CfgReachability
| CfgUnreachableValue
| CfgTrapPayload
| CfgResourceLimit.

#[global] Instance CfgErrorCode_eq_dec : EqDecision CfgErrorCode.
Proof. solve_decision. Defined.

(** [CfgValidationError]: a CFG failure or a preserved type failure. *)
Inductive CfgValidationError : Type :=
| ErrCfg (code : CfgErrorCode)
| ErrType (code : TypeErrorCode).

(** ** Outcomes *)

(** A returned error, or a panic. *)
Inductive CfgFailure : Type :=
| Returned (e : CfgValidationError)
| Panicked.

Abbreviation cfg_out A := (result CfgFailure A).
Definition fail {A} (code : CfgErrorCode) : cfg_out A := Err (Returned (ErrCfg code)).
Definition typed {A} (m : type_result A) : cfg_out A := map_err (fun e => Returned (ErrType e)) m.
Definition cfg_code (code : CfgErrorCode) : CfgFailure := Returned (ErrCfg code).

(** [map\[&key\]] *)
Definition index {A} (m : gmap N A) (key : N) : cfg_out A := ok_or Panicked (m !! key).

(** [slice\[i\]], and the assignment [slice\[i\] = x] *)
Definition get {A} (l : list A) (i : nat) : cfg_out A := ok_or Panicked (l !! i).
Definition put {A} (l : list A) (i : nat) (x : A) : cfg_out (list A) :=
  if decide (i < length l)%nat then Ok (<[i := x]> l) else Err Panicked.

(** ** Bit sets: vectors of 64-bit words *)

Definition set_bit (bits : list N) (index : nat) : cfg_out (list N) :=
  word ← get bits (index / 64)%nat;
  put bits (index / 64)%nat (N.lor word (N.shiftl 1 (N.of_nat (index mod 64)))).

Definition bit_is_set (bits : list N) (index : nat) : cfg_out bool :=
  word ← get bits (index / 64)%nat;
  Ok (negb (N.land word (N.shiftl 1 (N.of_nat (index mod 64))) =? 0)%N).

(** [for (word, other) in next.iter_mut().zip(other) { *word &= *other }] *)
Fixpoint and_words (next other : list N) : list N :=
  match next, other with
  | w :: next, o :: other => N.land w o :: and_words next other
  | next, _ => next
  end.

(** ** Reachability *)

Abbreviation Graph := (list (list nat)).

(** One turn of the loop over the targets of [block]. *)
Definition reach_target (st : list bool * list nat) (target : nat) : cfg_out (list bool * list nat) :=
  let '(reachable, queue) := st in
  seen ← get reachable target;
  if (seen : bool) then Ok (reachable, queue)
  else
    reachable ← put reachable target true;
    Ok (reachable, queue ++ [target]).

(** Out of fuel is [Panicked] too: [compute_reachability_exact] shows that
    neither happens. *)
Fixpoint reach_loop (fuel : nat) (successors : Graph) (reachable : list bool) (queue : list nat)
    : cfg_out (list bool) :=
  match queue with
  | [] => Ok reachable
  | block :: queue =>
      match fuel with
      | O => Err Panicked
      | S fuel =>
          targets ← get successors block;
          '(reachable, queue) ← fold_res reach_target (reachable, queue) targets;
          reach_loop fuel successors reachable queue
      end
  end.

(** Every block enters the queue at most once: as many turns as blocks. *)
Definition compute_reachability (entry : nat) (successors : Graph) : cfg_out (list bool) :=
  reachable ← put (replicate (length successors) false) entry true;
  reach_loop (length successors) successors reachable [entry].

(** ** Dominators *)

(** [predecessors\[target\].push(source)] *)
Definition push_edge (reachable : list bool) (source : nat) (predecessors : Graph) (target : nat) : cfg_out Graph :=
  is_reachable ← get reachable target;
  if (is_reachable : bool) then
    sources ← get predecessors target;
    put predecessors target (sources ++ [source])
  else Ok predecessors.

Definition push_edges (reachable : list bool) (predecessors : Graph) (source_targets : nat * list nat) : cfg_out Graph :=
  let '(source, targets) := source_targets in
  is_reachable ← get reachable source;
  if (is_reachable : bool) then fold_res (push_edge reachable source) predecessors targets
  else Ok predecessors.

Definition build_predecessors (successors : Graph) (reachable : list bool) : cfg_out Graph :=
  fold_res (push_edges reachable) (replicate (length successors) [])
    (zip (seq 0 (length successors)) successors).

Definition words_of (count : nat) : nat := ((count + 63) / 64)%nat.

Definition reachable_bits_of (reachable : list bool) (words : nat) : cfg_out (list N) :=
  fold_res (fun bits '(index, is_reachable) => if (is_reachable : bool) then set_bit bits index else Ok bits)
    (replicate words 0%N) (zip (seq 0 (length reachable)) reachable).

(** The initial sets: the entry has itself, a reachable block everything
    reachable, an unreachable block nothing. *)
Definition initial_dominators (entry count words : nat) (reachable : list bool) (reachable_bits : list N)
    : cfg_out (list (list N)) :=
  fold_res (fun dominators index =>
      if decide (index = entry) then
        bits ← get dominators index;
        bits ← set_bit bits index;
        put dominators index bits
      else
        is_reachable ← get reachable index;
        if (is_reachable : bool) then put dominators index reachable_bits else Ok dominators)
    (replicate count (replicate words 0%N)) (seq 0 count).

Definition charge_work (work amount : N) : cfg_out N :=
  match checked_add work amount with
  | None => fail CfgResourceLimit
  | Some work => if (MAX_DOMINATOR_WORD_OPERATIONS <? work)%N then fail CfgResourceLimit else Ok work
  end.

Record DomState : Type := mkDomState {
  dominators : list (list N); dom_work : N; dom_changed : bool
}.

Section dominators.
Context (entry words : nat) (reachable : list bool) (predecessors : Graph).

(** The body of the loop over the blocks. *)
Definition dominator_block (st : DomState) (block : nat) : cfg_out DomState :=
  if decide (block = entry) then Ok st
  else
    is_reachable ← get reachable block;
    if negb is_reachable then Ok st
    else
      sources ← get predecessors block;
      match sources with
      | [] => fail CfgReachability
      | first :: rest =>
          next ← get (dominators st) first;
          work ← charge_work (dom_work st) (N.of_nat words);
          '(next, work) ← fold_res (fun '(next, work) predecessor =>
              other ← get (dominators st) predecessor;
              let next := and_words next other in
              work ← charge_work work (N.of_nat words);
              Ok (next, work)) (next, work) rest;
          next ← set_bit next block;
          work ← charge_work work (N.of_nat words);
          old ← get (dominators st) block;
          if decide (next = old) then Ok (mkDomState (dominators st) work (dom_changed st))
          else
            dominators ← put (dominators st) block next;
            Ok (mkDomState dominators work true)
      end.

Fixpoint dominator_rounds (rounds count : nat) (doms : list (list N)) (work : N)
    : cfg_out (list (list N) * N) :=
  match rounds with
  | O => fail CfgResourceLimit
  | S rounds =>
      st ← fold_res dominator_block (mkDomState doms work false) (seq 0 count);
      if dom_changed st then dominator_rounds rounds count (dominators st) (dom_work st)
      else Ok (dominators st, dom_work st)
  end.
End dominators.

Definition compute_dominators (entry : nat) (successors : Graph) (reachable : list bool)
    : cfg_out (list (list N) * N) :=
  let count := length successors in
  let words := words_of count in
  predecessors ← build_predecessors successors reachable;
  reachable_bits ← reachable_bits_of reachable words;
  dominators ← initial_dominators entry count words reachable reachable_bits;
  dominator_rounds entry words reachable predecessors (N.to_nat MAX_CFG_BLOCKS) count dominators 0.
