(* ===== verification/CfgPlain.v ===== *)
(** * Reachability and dominators on total functions

    The algorithms of [CfgGraph] with a default where a vector is read out of range
    and nothing where it is written there, and what they compute: the names end in
    [_total].  [CfgDominators] shows that [CfgGraph] agrees with them on the graphs
    of functions ([graph_ok]). *)

From S2P Require Import Prelude Ssmc Types CfgGraph.

(** ** Bit sets: vectors of 64-bit words *)

Definition set_bit_total (bits : list N) (index : nat) : list N :=
  alter (fun word => N.lor word (N.shiftl 1 (N.of_nat (index mod 64)))) (index / 64)%nat bits.

Definition bit_is_set_total (bits : list N) (index : nat) : bool :=
  negb (N.land (default 0%N (bits !! (index / 64)%nat)) (N.shiftl 1 (N.of_nat (index mod 64))) =? 0)%N.

(** ** Reachability *)

Definition succs (successors : Graph) (block : nat) : list nat := default [] (successors !! block).
Definition flag (flags : list bool) (block : nat) : bool := default false (flags !! block).

(** One turn of the loop over the targets of [block]. *)
Definition reach_target_total (st : list bool * list nat) (target : nat) : list bool * list nat :=
  let '(reachable, queue) := st in
  if flag reachable target then (reachable, queue)
  else (<[target := true]> reachable, queue ++ [target]).

Fixpoint reach_loop_total (fuel : nat) (successors : Graph) (reachable : list bool) (queue : list nat)
    : option (list bool) :=
  match queue with
  | [] => Some reachable
  | block :: queue =>
      match fuel with
      | O => None
      | S fuel =>
          let '(reachable, queue) := foldl reach_target_total (reachable, queue) (succs successors block) in
          reach_loop_total fuel successors reachable queue
      end
  end.

(** Every block enters the queue at most once: as many turns as blocks. *)
Definition compute_reachability_total (entry : nat) (successors : Graph) : option (list bool) :=
  reach_loop_total (length successors) successors
    (<[entry := true]> (replicate (length successors) false)) [entry].

(** ** Dominators *)

(** [predecessors[target].push(source)] over the reachable edges. *)
Definition push_edges_total (reachable : list bool) (predecessors : Graph) (source_targets : nat * list nat) : Graph :=
  let '(source, targets) := source_targets in
  if flag reachable source then
    foldl (fun preds target =>
      if flag reachable target then alter (fun l => l ++ [source]) target preds else preds)
      predecessors targets
  else predecessors.

Definition build_predecessors_total (successors : Graph) (reachable : list bool) : Graph :=
  foldl (push_edges_total reachable) (replicate (length successors) [])
    (zip (seq 0 (length successors)) successors).

Definition reachable_bits_of_total (reachable : list bool) (words : nat) : list N :=
  foldl (fun bits index => if flag reachable index then set_bit_total bits index else bits)
    (replicate words 0%N) (seq 0 (length reachable)).

(** The initial sets: the entry has itself, a reachable block everything
    reachable, an unreachable block nothing. *)
Definition initial_dominators_total (entry count words : nat) (reachable : list bool) (reachable_bits : list N)
    : list (list N) :=
  (fun index =>
     if decide (index = entry) then set_bit_total (replicate words 0%N) index
     else if flag reachable index then reachable_bits
     else replicate words 0%N) <$> seq 0 count.

Section dominators.
Context (entry words : nat) (reachable : list bool) (predecessors : Graph).

Definition dom_of (dominators : list (list N)) (block : nat) : list N := default [] (dominators !! block).

(** The body of the loop over the blocks. *)
Definition dominator_block_total (st : DomState) (block : nat) : cfg_out DomState :=
  if decide (block = entry) then Ok st
  else if negb (flag reachable block) then Ok st
  else
    match succs predecessors block with
    | [] => fail CfgReachability
    | first :: rest =>
        work ← charge_work (dom_work st) (N.of_nat words);
        '(next, work) ← fold_res (fun '(next, work) predecessor =>
            let next := and_words next (dom_of (dominators st) predecessor) in
            work ← charge_work work (N.of_nat words);
            Ok (next, work)) (dom_of (dominators st) first, work) rest;
        let next := set_bit_total next block in
        work ← charge_work work (N.of_nat words);
        if decide (next = dom_of (dominators st) block)
        then Ok (mkDomState (dominators st) work (dom_changed st))
        else Ok (mkDomState (<[block := next]> (dominators st)) work true)
    end.

Fixpoint dominator_rounds_total (rounds count : nat) (doms : list (list N)) (work : N)
    : cfg_out (list (list N) * N) :=
  match rounds with
  | O => fail CfgResourceLimit
  | S rounds =>
      st ← fold_res dominator_block_total (mkDomState doms work false) (seq 0 count);
      if dom_changed st then dominator_rounds_total rounds count (dominators st) (dom_work st)
      else Ok (dominators st, dom_work st)
  end.
End dominators.

Definition compute_dominators_total (entry : nat) (successors : Graph) (reachable : list bool)
    : cfg_out (list (list N) * N) :=
  let count := length successors in
  let words := words_of count in
  let predecessors := build_predecessors_total successors reachable in
  let reachable_bits := reachable_bits_of_total reachable words in
  dominator_rounds_total entry words reachable predecessors (N.to_nat MAX_CFG_BLOCKS) count
    (initial_dominators_total entry count words reachable reachable_bits) 0.

(** ** Reachability: correctness *)

Definition edge (successors : Graph) (u v : nat) : Prop := v ∈ succs successors u.

(** Positions stay inside the function. *)
Definition graph_ok (entry : nat) (successors : Graph) : Prop :=
  (entry < length successors)%nat /\ forall u v, edge successors u v -> (v < length successors)%nat.

Fixpoint count_false (l : list bool) : nat :=
  match l with
  | [] => 0
  | b :: l => (if b then 0 else 1) + count_false l
  end.

Lemma count_false_insert l i :
  l !! i = Some false -> S (count_false (<[i := true]> l)) = count_false l.
Proof.
  revert i. induction l as [|b l IH]; intros [|i] H; try done; simpl in *.
  - injection H as ->. done.
  - rewrite <- (IH i H). lia.
Qed.

Lemma count_false_replicate n : count_false (replicate n false) = n.
Proof. induction n; simpl; congruence. Qed.

Lemma flag_insert l i j :
  (i < length l)%nat -> flag (<[i := true]> l) j = bool_decide (i = j) || flag l j.
Proof.
  intros Hi. unfold flag. destruct (decide (i = j)) as [->|Hne].
  - rewrite list_lookup_insert_eq by done. by rewrite bool_decide_true.
  - rewrite list_lookup_insert_ne by done. by rewrite bool_decide_false.
Qed.

Lemma flag_true l i : flag l i = true <-> l !! i = Some true.
Proof. unfold flag. destruct (l !! i) as [[]|]; naive_solver. Qed.

Lemma flag_lt l i : flag l i = true -> (i < length l)%nat.
Proof. rewrite flag_true. apply lookup_lt_Some. Qed.

Section reach.
Context (entry : nat) (g : Graph).
Hypothesis Hok : graph_ok entry g.

Record reach_inv (r : list bool) (q : list nat) : Prop := {
  ri_length : length r = length g;
  ri_queue : forall x, x ∈ q -> flag r x = true;
  ri_entry : flag r entry = true;
  ri_sound : forall x, flag r x = true -> rtc (edge g) entry x;
  ri_closed : forall x y, flag r x = true -> x ∉ q -> edge g x y -> flag r y = true
}.

Lemma reach_targets ts r q r' q' :
  (forall t, t ∈ ts -> t < length r)%nat -> foldl reach_target_total (r, q) ts = (r', q') ->
  length r' = length r /\
  (forall x, flag r' x = true <-> flag r x = true \/ x ∈ ts) /\
  (forall x, x ∈ q' <-> x ∈ q \/ (x ∈ ts /\ flag r x = false)) /\
  (length q' + count_false r' = length q + count_false r)%nat.
Proof using Type.
  revert r q. induction ts as [|t ts IH]; intros r q Hts H.
  - simpl in H. injection H as <- <-. setoid_rewrite elem_of_nil. naive_solver.
  - assert (t < length r)%nat as Ht by (apply Hts; left). cbn [foldl reach_target_total] in H.
    destruct (flag r t) eqn:Hf.
    + apply IH in H as (? & Hx & Hq & ?); [|intros; apply Hts; by right].
      split_and!; try done.
      * intros x. rewrite Hx, elem_of_cons. naive_solver.
      * intros x. rewrite Hq, elem_of_cons. split; [naive_solver|].
        intros [?|[[->|?] ?]]; [by left|congruence|by right].
    + apply IH in H as (Hl & Hx & Hq & Hc); [|intros; rewrite length_insert; apply Hts; by right].
      rewrite length_insert in Hl.
      assert (S (count_false (<[t := true]> r)) = count_false r) as Hcf.
      { apply count_false_insert. unfold flag in Hf. destruct (r !! t) eqn:E; simpl in Hf; [congruence|].
        apply lookup_ge_None in E. lia. }
      split_and!; [done|..].
      * intros x. rewrite Hx, flag_insert, orb_true_iff, bool_decide_eq_true, elem_of_cons by done. naive_solver.
      * intros x. rewrite Hq, elem_of_app, list_elem_of_singleton, flag_insert, orb_false_iff,
          bool_decide_eq_false, elem_of_cons by done. split.
        -- intros [[?| ->]|[? [? ?]]]; auto.
        -- intros [?|[[->|?] ?]]; [auto|auto|]. destruct (decide (t = x)) as [->|]; auto.
      * rewrite length_app in Hc. simpl in Hc. lia.
Qed.

Lemma reach_loop_spec fuel r q :
  reach_inv r q -> (length q + count_false r <= fuel)%nat ->
  exists r', reach_loop_total fuel g r q = Some r' /\ reach_inv r' [].
Proof using Hok.
  revert r q. induction fuel as [|fuel IH]; intros r [|b q] Hinv Hf; simpl in Hf; try lia.
  - by exists r.
  - by exists r.
  - cbn [reach_loop_total]. destruct (foldl reach_target_total (r, q) (succs g b)) as [r' q'] eqn:E.
    destruct Hinv as [Hl Hq He Hs Hc].
    assert (flag r b = true) as Hb by (apply Hq; left).
    apply reach_targets in E as (Hl' & Hx & Hq' & Hm); [|intros t Ht; rewrite Hl; by eapply Hok].
    apply IH; [|lia]. split.
    + congruence.
    + intros x [Hin|[Hin _]]%Hq'; apply Hx; [left; apply Hq; by right|by right].
    + apply Hx. by left.
    + intros x [?|Hin]%Hx; [auto|]. eapply rtc_r; [by apply Hs|exact Hin].
    + intros x y Hfx Hnq Hxy. apply Hx. rewrite Hq' in Hnq. apply Hx in Hfx as [Hfx|Hin].
      * destruct (decide (x = b)) as [->|]; [by right|]. left. eapply (Hc x); [done| |done].
        rewrite elem_of_cons. intuition.
      * destruct (flag r x) eqn:Hrx; [|by destruct Hnq; right].
        destruct (decide (x = b)) as [->|]; [by right|]. left. eapply (Hc x); [done| |done].
        rewrite elem_of_cons. intuition.
Qed.
End reach.

Lemma reachability_total_spec entry g :
  graph_ok entry g ->
  exists reachable, compute_reachability_total entry g = Some reachable /\ length reachable = length g /\
    forall b, flag reachable b = true <-> rtc (edge g) entry b.
Proof.
  intros Hok. pose proof Hok as [He Ht]. unfold compute_reachability_total.
  destruct (reach_loop_spec entry g Hok (length g) (<[entry := true]> (replicate (length g) false)) [entry])
    as (r & -> & [Hl _ Hre Hs Hc]).
  - assert (forall x, flag (<[entry := true]> (replicate (length g) false)) x = true <-> x = entry) as Hx.
    { intros x. rewrite flag_insert by (by rewrite length_replicate).
      rewrite orb_true_iff, bool_decide_eq_true, flag_true, lookup_replicate. naive_solver. }
    split.
    + by rewrite length_insert, length_replicate.
    + intros x ->%list_elem_of_singleton. by apply Hx.
    + by apply Hx.
    + intros x ->%Hx. constructor.
    + intros x y ->%Hx Hn. by destruct Hn; left.
  - simpl. enough (S (count_false (<[entry := true]> (replicate (length g) false))) = length g) by lia.
    rewrite count_false_insert; [apply count_false_replicate|]. by apply lookup_replicate.
  - exists r. split_and!; [done|done|]. intros b. split; [apply Hs|].
    revert b. apply rtc_ind_r; [done|]. intros x y _ Hxy IH.
    eapply Hc; [exact IH| |exact Hxy]. apply not_elem_of_nil.
Qed.

(** What the search returns, for the algorithms that use it. *)
Lemma reachability_sound entry g reachable :
  graph_ok entry g -> compute_reachability_total entry g = Some reachable ->
  length reachable = length g /\ forall b, flag reachable b = true <-> rtc (edge g) entry b.
Proof.
  intros Hok H. destruct (reachability_total_spec entry g Hok) as (r' & H' & ?). rewrite H in H'. by injection H' as <-.
Qed.

(** ** Bit sets: lemmas *)

Definition bits_wf (words : nat) (b : list N) : Prop :=
  length b = words /\ Forall (fun w => w < 2 ^ 64)%N b.

Lemma bit_is_set_testbit b i :
  bit_is_set_total b i = N.testbit (default 0%N (b !! (i / 64)%nat)) (N.of_nat (i mod 64)).
Proof.
  unfold bit_is_set_total. generalize (default 0%N (b !! (i / 64)%nat)) (N.of_nat (i mod 64)). intros w n.
  rewrite N.shiftl_1_l. destruct (N.testbit w n) eqn:Hb.
  - apply negb_true_iff, N.eqb_neq. intros H. apply (f_equal (fun x => N.testbit x n)) in H.
    rewrite N.land_spec, N.pow2_bits_true, Hb, N.bits_0 in H. done.
  - apply negb_false_iff, N.eqb_eq, N.bits_inj. intros m. rewrite N.land_spec, N.bits_0.
    destruct (decide (n = m)) as [<-|Hne]; [by rewrite Hb|]. by rewrite N.pow2_bits_false, andb_false_r.
Qed.

Lemma bit_set_bit words b i j :
  bits_wf words b -> (i < 64 * words)%nat ->
  bit_is_set_total (set_bit_total b i) j = bool_decide (i = j) || bit_is_set_total b j.
Proof.
  intros [Hl _] Hi. rewrite !bit_is_set_testbit. unfold set_bit_total.
  assert (i / 64 < length b)%nat as Hlt by (rewrite Hl; apply Nat.Div0.div_lt_upper_bound; lia).
  destruct (decide ((i / 64 = j / 64)%nat)) as [E|Hne].
  - rewrite <- E, list_lookup_alter_eq. destruct (lookup_lt_is_Some_2 b _ Hlt) as [w Hw]. rewrite Hw.
    cbn [fmap option_fmap option_map default from_option id].
    rewrite N.lor_spec, N.shiftl_1_l. case_bool_decide as Hij.
    + subst. by rewrite N.pow2_bits_true, orb_true_r.
    + rewrite N.pow2_bits_false, orb_false_r; [done|].
      intros H. apply Hij. apply Nat2N.inj in H.
      pose proof (Nat.div_mod_eq i 64). pose proof (Nat.div_mod_eq j 64). lia.
  - rewrite list_lookup_alter_ne by done. rewrite bool_decide_false; [done|]. congruence.
Qed.

Lemma set_bit_wf words b i : bits_wf words b -> bits_wf words (set_bit_total b i).
Proof.
  intros [Hl Hf]. split; [unfold set_bit_total; by rewrite length_alter|].
  apply Forall_lookup. intros k w Hk. unfold set_bit_total in Hk. rewrite Forall_lookup in Hf.
  destruct (decide (k = i / 64)%nat) as [->|Hne].
  - rewrite list_lookup_alter_eq in Hk. apply fmap_Some in Hk as (w' & Hw & ->).
    specialize (Hf _ _ Hw). cbv beta in Hf. rewrite N.shiftl_1_l.
    assert (N.of_nat (i mod 64) < 64)%N by (pose proof (Nat.mod_upper_bound i 64); lia).
    destruct (N.eq_dec (N.lor w' (2 ^ N.of_nat (i mod 64))) 0%N) as [E|E]; [by rewrite E|].
    apply N.log2_lt_pow2; [lia|]. rewrite N.log2_lor, N.log2_pow2 by lia.
    apply N.max_lub_lt; [|done]. destruct (N.eq_dec w' 0%N) as [->|]; [done|]. apply N.log2_lt_pow2; [lia|done].
  - rewrite list_lookup_alter_ne in Hk by done. by eapply Hf.
Qed.

Lemma and_words_spec words a b i :
  bits_wf words a -> bits_wf words b -> bits_wf words (and_words a b) /\
  bit_is_set_total (and_words a b) i = bit_is_set_total a i && bit_is_set_total b i.
Proof.
  intros [Ha Fa] [Hb Fb]. rewrite !bit_is_set_testbit.
  assert (bits_wf words (and_words a b) /\ forall k,
    default 0%N (and_words a b !! k) = N.land (default 0%N (a !! k)) (default 0%N (b !! k))) as [H1 H2].
  { revert words b Ha Hb Fb. induction a as [|x a IH]; intros words [|y b] Ha Hb Fb; simpl in *; try lia.
    - split; [by split|]. done.
    - apply Forall_cons in Fa as [Fx Fa]. apply Forall_cons in Fb as [Fy Fb].
      destruct (IH Fa (pred words) b) as [[Hl Hf] Hk]; [lia|lia|done|]. split; [split|].
      + simpl. lia.
      + constructor; [|done]. destruct (N.eq_dec (N.land x y) 0%N) as [E|E]; [by rewrite E|].
        apply N.log2_lt_pow2; [lia|]. eapply N.le_lt_trans; [apply N.log2_land|].
        apply N.min_lt_iff. left. destruct (N.eq_dec x 0%N) as [->|]; [done|]. apply N.log2_lt_pow2; [lia|done].
      + intros [|k]; [done|]. apply Hk. }
  split; [done|]. by rewrite H2, N.land_spec.
Qed.

Lemma bits_ext words a b :
  bits_wf words a -> bits_wf words b -> (forall i, bit_is_set_total a i = bit_is_set_total b i) -> a = b.
Proof.
  intros [Ha Fa] [Hb Fb] Hi. apply list_eq. intros k.
  destruct (decide (k < words)%nat) as [Hk|Hk].
  2:{ by rewrite !lookup_ge_None_2 by lia. }
  destruct (lookup_lt_is_Some_2 a k) as [x Hx]; [lia|]. destruct (lookup_lt_is_Some_2 b k) as [y Hy]; [lia|].
  rewrite Hx, Hy. f_equal. rewrite Forall_lookup in Fa, Fb. specialize (Fa _ _ Hx). specialize (Fb _ _ Hy).
  cbv beta in *. apply N.bits_inj. intros n. destruct (N.lt_ge_cases n 64) as [Hn|Hn].
  - specialize (Hi (k * 64 + N.to_nat n)%nat). rewrite !bit_is_set_testbit in Hi.
    replace ((k * 64 + N.to_nat n) / 64)%nat with k in Hi
      by (rewrite Nat.div_add_l, Nat.div_small by lia; lia).
    replace ((k * 64 + N.to_nat n) mod 64)%nat with (N.to_nat n) in Hi
      by (rewrite Nat.add_comm, Nat.Div0.mod_add, Nat.mod_small by lia; lia).
    rewrite Hx, Hy, N2Nat.id in Hi. done.
  - assert (forall z, z < 2 ^ 64 -> N.testbit z n = false)%N as Hz.
    { intros z Hz. destruct (N.eq_dec z 0%N) as [->|]; [apply N.bits_0|]. apply N.bits_above_log2.
      eapply N.lt_le_trans; [|exact Hn]. apply N.log2_lt_pow2; [lia|done]. }
    by rewrite !Hz.
Qed.

Lemma replicate_wf words : bits_wf words (replicate words 0%N).
Proof. split; [apply length_replicate|]. apply Forall_replicate. done. Qed.

Lemma bit_replicate words i : bit_is_set_total (replicate words 0%N) i = false.
Proof.
  rewrite bit_is_set_testbit. destruct (replicate words 0%N !! (i / 64)%nat) eqn:E;
    cbn [default from_option id]; [|by rewrite N.bits_0].
  apply lookup_replicate in E as [-> _]. by rewrite N.bits_0.
Qed.

Lemma words_enough count i : (i < count)%nat -> (i < 64 * words_of count)%nat.
Proof.
  intros Hi. unfold words_of. pose proof (Nat.div_mod_eq (count + 63) 64).
  pose proof (Nat.mod_upper_bound (count + 63) 64). lia.
Qed.

Lemma reachable_bits_spec reachable words i :
  (length reachable <= 64 * words)%nat ->
  bits_wf words (reachable_bits_of_total reachable words) /\
  bit_is_set_total (reachable_bits_of_total reachable words) i = flag reachable i.
Proof.
  intros Hw. unfold reachable_bits_of_total.
  assert (forall l b, (forall x, x ∈ l -> x < length reachable)%nat -> bits_wf words b ->
    let b' := foldl (fun bits index => if flag reachable index then set_bit_total bits index else bits) b l in
    bits_wf words b' /\ bit_is_set_total b' i = bit_is_set_total b i || (bool_decide (i ∈ l) && flag reachable i)) as H.
  { induction l as [|x l IH]; intros b Hl Hb; cbn [foldl].
    - split; [done|]. by rewrite bool_decide_false, orb_false_r by apply not_elem_of_nil.
    - assert (x < length reachable)%nat as Hx by (apply Hl; left).
      destruct (flag reachable x) eqn:Hf.
      + destruct (IH (set_bit_total b x)) as [H1 H2]; [intros; apply Hl; by right|by apply set_bit_wf|].
        split; [done|]. rewrite H2, (bit_set_bit words) by (done || lia).
        destruct (decide (x = i)) as [->|Hne].
        * rewrite (bool_decide_true (i = i)), (bool_decide_true (i ∈ i :: l)), Hf by (done || left).
          cbn. by rewrite orb_true_r.
        * rewrite (bool_decide_false (x = i)) by done. cbn. f_equal. f_equal. apply bool_decide_ext.
          rewrite elem_of_cons. naive_solver.
      + destruct (IH b) as [H1 H2]; [intros; apply Hl; by right|done|]. split; [done|]. rewrite H2. f_equal.
        destruct (decide (x = i)) as [->|Hne]; [by rewrite Hf, !andb_false_r|].
        f_equal. apply bool_decide_ext. rewrite elem_of_cons. naive_solver. }
  destruct (H (seq 0 (length reachable)) (replicate words 0%N)) as [H1 H2].
  - intros x Hx. apply elem_of_seq in Hx. lia.
  - apply replicate_wf.
  - split; [exact H1|]. rewrite H2, bit_replicate. cbn. destruct (flag reachable i) eqn:Hf; [|by rewrite andb_false_r].
    rewrite andb_true_r. apply bool_decide_true. apply elem_of_seq. apply flag_true, lookup_lt_Some in Hf. lia.
Qed.

(** ** Dominators: the work counter and the round as a function *)

Lemma charge_work_eq work amount :
  (work <= MAX_DOMINATOR_WORD_OPERATIONS)%N ->
  charge_work work amount =
  if (work + amount <=? MAX_DOMINATOR_WORD_OPERATIONS)%N then Ok (work + amount)%N else fail CfgResourceLimit.
Proof.
  intros Hw. unfold charge_work. destruct (checked_add work amount) as [c|] eqn:E.
  - apply checked_add_Some in E as [-> _].
    destruct (N.ltb_spec MAX_DOMINATOR_WORD_OPERATIONS (work + amount)),
      (N.leb_spec (work + amount) MAX_DOMINATOR_WORD_OPERATIONS); done || lia.
  - destruct (N.leb_spec (work + amount) MAX_DOMINATOR_WORD_OPERATIONS) as [Hle|]; [|done].
    exfalso. assert (checked_add work amount = Some (work + amount)%N) as E'; [|congruence].
    apply checked_add_Some. split; [done|]. unfold U64_LIMIT, MAX_DOMINATOR_WORD_OPERATIONS in *. lia.
Qed.

(** Charging twice is charging the sum. *)
Lemma charged_bind {A} work a b (k : cfg_out A) :
  ((if (work + a <=? MAX_DOMINATOR_WORD_OPERATIONS)%N then
      if (work + a + b <=? MAX_DOMINATOR_WORD_OPERATIONS)%N then k else fail CfgResourceLimit
    else fail CfgResourceLimit) =
   if (work + (a + b) <=? MAX_DOMINATOR_WORD_OPERATIONS)%N then k else fail CfgResourceLimit).
Proof.
  destruct (N.leb_spec (work + a) MAX_DOMINATOR_WORD_OPERATIONS),
    (N.leb_spec (work + a + b) MAX_DOMINATOR_WORD_OPERATIONS),
    (N.leb_spec (work + (a + b)) MAX_DOMINATOR_WORD_OPERATIONS); done || lia.
Qed.

Section round.
Context (entry words : nat) (reachable : list bool) (preds : Graph).

(** The set a block receives: the intersection over its predecessors, and itself. *)
Definition next_dom (doms : list (list N)) (block : nat) : list N :=
  match succs preds block with
  | [] => []
  | first :: rest =>
      set_bit_total (foldl (fun next p => and_words next (dom_of doms p)) (dom_of doms first) rest) block
  end.

Definition visited (block : nat) : bool := negb (bool_decide (block = entry)) && flag reachable block.

Definition block_cost (block : nat) : N :=
  if visited block then N.of_nat words * (len (succs preds block) + 1) else 0.

Definition pure_block (st : list (list N) * bool) (block : nat) : list (list N) * bool :=
  if visited block then
    (<[block := next_dom st.1 block]> st.1, st.2 || negb (bool_decide (next_dom st.1 block = dom_of st.1 block)))
  else st.

Definition cost (blocks : list nat) : N := foldr (fun b acc => block_cost b + acc)%N 0%N blocks.

(** Every visited block has a predecessor. *)
Hypothesis Hpreds : forall b, visited b = true -> succs preds b <> [].

Lemma intersect_eq doms rest next work :
  (work <= MAX_DOMINATOR_WORD_OPERATIONS)%N ->
  fold_res (fun '(next, work) predecessor =>
      let next := and_words next (dom_of doms predecessor) in
      work ← charge_work work (N.of_nat words); Ok (next, work)) (next, work) rest
  = if (work + N.of_nat words * len rest <=? MAX_DOMINATOR_WORD_OPERATIONS)%N
    then Ok (foldl (fun next p => and_words next (dom_of doms p)) next rest, work + N.of_nat words * len rest)%N
    else fail CfgResourceLimit.
Proof using Type.
  revert next work. induction rest as [|p rest IH]; intros next work Hw.
  - cbn [fold_res foldl]. rewrite len_nil, N.mul_0_r, N.add_0_r.
    destruct (N.leb_spec work MAX_DOMINATOR_WORD_OPERATIONS); done || lia.
  - cbn [fold_res foldl]. cbv zeta. rewrite charge_work_eq by done.
    rewrite len_cons, N.mul_add_distr_l, N.mul_1_r, <- charged_bind.
    destruct (N.leb_spec (work + N.of_nat words) MAX_DOMINATOR_WORD_OPERATIONS) as [Hle|]; [|done].
    cbn [mbind result_bind]. rewrite IH by done. by rewrite N.add_assoc.
Qed.

Lemma dominator_block_eq doms work changed b :
  (work <= MAX_DOMINATOR_WORD_OPERATIONS)%N ->
  dominator_block_total entry words reachable preds (mkDomState doms work changed) b =
  if (work + block_cost b <=? MAX_DOMINATOR_WORD_OPERATIONS)%N
  then Ok (mkDomState (pure_block (doms, changed) b).1 (work + block_cost b) (pure_block (doms, changed) b).2)
  else fail CfgResourceLimit.
Proof using Hpreds.
  intros Hw. pose proof (Hpreds b) as Hb. unfold dominator_block_total, block_cost, pure_block, next_dom, visited in *.
  destruct (decide (b = entry)) as [He|He].
  { rewrite bool_decide_true by done. cbn. rewrite N.add_0_r.
    destruct (N.leb_spec work MAX_DOMINATOR_WORD_OPERATIONS); done || lia. }
  rewrite bool_decide_false in * by done. cbn [negb andb] in *. destruct (flag reachable b) eqn:Hf; cbn [negb].
  2:{ rewrite N.add_0_r. destruct (N.leb_spec work MAX_DOMINATOR_WORD_OPERATIONS); done || lia. }
  destruct (succs preds b) as [|first rest] eqn:Hs; [by destruct Hb|]. cbn [dom_work dominators dom_changed].
  set (W := N.of_nat words). rewrite len_cons.
  replace (W * (1 + len rest + 1))%N with (W + (W * len rest + W))%N by lia. rewrite <- charged_bind.
  rewrite charge_work_eq by done. fold W.
  destruct (N.leb_spec (work + W) MAX_DOMINATOR_WORD_OPERATIONS) as [H1|]; [|done]. cbn [mbind result_bind].
  unfold W at 1. rewrite intersect_eq by done. fold W. rewrite <- charged_bind.
  destruct (N.leb_spec (work + W + W * len rest) MAX_DOMINATOR_WORD_OPERATIONS) as [H2|]; [|done]. cbn [mbind result_bind].
  rewrite charge_work_eq by done. fold W.
  destruct (N.leb_spec (work + W + W * len rest + W) MAX_DOMINATOR_WORD_OPERATIONS) as [H3|]; [|done].
  cbn [mbind result_bind fst snd]. rewrite !N.add_assoc. case_decide as Hd.
  - rewrite bool_decide_true by done. rewrite orb_false_r. rewrite Hd.
    do 2 f_equal. symmetry. unfold dom_of. destruct (doms !! b) as [x|] eqn:E; cbn.
    + by apply list_insert_id.
    + apply list_insert_ge. by apply lookup_ge_None.
  - by rewrite bool_decide_false, orb_true_r by done.
Qed.

Lemma round_eq blocks doms work changed :
  (work <= MAX_DOMINATOR_WORD_OPERATIONS)%N ->
  fold_res (dominator_block_total entry words reachable preds) (mkDomState doms work changed) blocks =
  if (work + cost blocks <=? MAX_DOMINATOR_WORD_OPERATIONS)%N
  then Ok (mkDomState (foldl pure_block (doms, changed) blocks).1 (work + cost blocks)
             (foldl pure_block (doms, changed) blocks).2)
  else fail CfgResourceLimit.
Proof using Hpreds.
  revert doms work changed. induction blocks as [|b blocks IH]; intros doms work changed Hw.
  - cbn. rewrite N.add_0_r. destruct (N.leb_spec work MAX_DOMINATOR_WORD_OPERATIONS); done || lia.
  - cbn [fold_res cost foldr foldl]. rewrite dominator_block_eq by done. fold (cost blocks).
    rewrite <- charged_bind.
    destruct (N.leb_spec (work + block_cost b) MAX_DOMINATOR_WORD_OPERATIONS) as [Hle|]; [|done].
    cbn [mbind result_bind]. rewrite IH by done. rewrite <- surjective_pairing, N.add_assoc. done.
Qed.
End round.

(** ** The predecessor lists *)

Lemma succs_alter f t u (preds : Graph) :
  (t < length preds)%nat -> succs (alter f t preds) u = if decide (u = t) then f (succs preds t) else succs preds u.
Proof.
  intros Ht. unfold succs. case_decide as H.
  - subst. rewrite list_lookup_alter_eq. by destruct (lookup_lt_is_Some_2 preds t Ht) as [x ->].
  - by rewrite list_lookup_alter_ne.
Qed.

Section predecessors.
Context (n : nat) (r : list bool).

Lemma push_targets s ts (preds : Graph) :
  length preds = n -> (forall t, t ∈ ts -> t < n)%nat ->
  let preds' := foldl (fun preds t => if flag r t then alter (fun l => l ++ [s]) t preds else preds) preds ts in
  length preds' = n /\
  (forall p t, p ∈ succs preds' t <-> p ∈ succs preds t \/ (p = s /\ t ∈ ts /\ flag r t = true)).
Proof using Type.
  revert preds. induction ts as [|t ts IH]; intros preds Hn Hts; cbn [foldl].
  - split; [done|]. intros p t. rewrite elem_of_nil. tauto.
  - assert (t < n)%nat as Ht by (apply Hts; left).
    destruct (flag r t) eqn:Hf.
    + destruct (IH (alter (fun l => l ++ [s]) t preds)) as (H1 & H2);
        [by rewrite length_alter|intros; apply Hts; by right|].
      split; [done|].
      * intros p u. rewrite H2, succs_alter, elem_of_cons by lia. clear -Hf. case_decide as Hu.
        -- subst. rewrite elem_of_app, list_elem_of_singleton. tauto.
        -- tauto.
    + destruct (IH preds) as (H1 & H2); [done|intros; apply Hts; by right|]. split; [done|].
      intros p u. rewrite H2, elem_of_cons. clear -Hf. split; [tauto|].
      intros [?|(? & [->|?] & ?)]; [by left|congruence|by right].
Qed.

Lemma build_predecessors_spec g :
  length g = n -> (forall u v, edge g u v -> v < n)%nat ->
  length (build_predecessors_total g r) = n /\
  (forall p t, p ∈ succs (build_predecessors_total g r) t <->
     flag r p = true /\ flag r t = true /\ edge g p t).
Proof using Type.
  intros Hn Hg. unfold build_predecessors_total. rewrite Hn.
  assert (forall (l : Graph) k preds, length preds = n -> (forall u v, edge l u v -> v < n)%nat ->
    let preds' := foldl (push_edges_total r) preds (zip (seq k (length l)) l) in
    length preds' = n /\
    (forall p t, p ∈ succs preds' t <-> p ∈ succs preds t \/
       exists i, p = (k + i)%nat /\ flag r p = true /\ flag r t = true /\ edge l i t)) as H.
  { clear g Hn Hg. induction l as [|ts l IH]; intros k preds Hn Hl.
    - cbn [length seq zip zip_with foldl]. split; [done|]. intros p t. split; [by left|]. intros [?|(i & _ & _ & _ & He)]; [done|].
      unfold edge, succs in He. rewrite lookup_nil in He. by apply elem_of_nil in He.
    - assert (forall i t, edge (ts :: l) (S i) t <-> edge l i t) as HS by done.
      assert (forall t, edge (ts :: l) 0 t <-> t ∈ ts) as H0 by done.
      assert (forall t, t ∈ ts -> t < n)%nat as Hts by (intros t Ht; eapply (Hl 0%nat); by apply H0).
      cbn [length seq zip zip_with foldl].
      change (foldl (push_edges_total r) ?a (zip_with pair ?x ?y)) with (foldl (push_edges_total r) a (zip x y)).
      cbn [push_edges_total]. destruct (flag r k) eqn:Hk.
      + destruct (push_targets k ts preds Hn Hts) as (A1 & A2).
        destruct (IH (S k) _ A1) as (B1 & B2); [intros u v Huv; eapply (Hl (S u)); by apply HS|].
        split; [exact B1|]. intros p t. rewrite B2, A2. split.
        * intros [[?|(-> & Ht & Hf)]|(i & -> & ? & ? & ?)]; [by left| |].
          -- right. exists 0%nat. split_and!; [lia|done|done|by apply H0].
          -- right. exists (S i). split_and!; [lia|done|done|by apply HS].
        * intros [?|([|i] & -> & Hf & Hft & He)]; [by left; left| |].
          -- left. right. apply H0 in He. split_and!; [lia|done|done].
          -- right. exists i. split_and!; [lia|done|done|by apply HS].
      + destruct (IH (S k) preds Hn) as (B1 & B2); [intros u v Huv; eapply (Hl (S u)); by apply HS|].
        split; [exact B1|]. intros p t. rewrite B2. split.
        * intros [?|(i & -> & ? & ? & ?)]; [by left|].
          right. exists (S i). split_and!; [lia|done|done|by apply HS].
        * intros [?|([|i] & -> & Hf & Hft & He)]; [by left| |].
          -- rewrite Nat.add_0_r in Hf. congruence.
          -- right. exists i. split_and!; [lia|done|done|by apply HS]. }
  destruct (H g 0%nat (replicate n [])) as (H1 & H2); [by rewrite length_replicate|done|].
  assert (forall t, succs (replicate n []) t = []) as Hs.
  { intros t. unfold succs. destruct (replicate n [] !! t) as [x|] eqn:E; [|done].
    by apply lookup_replicate in E as [-> _]. }
  rewrite Hn in *. split; [done|].
  intros p t. rewrite H2, Hs, elem_of_nil. split.
  - intros [[]|(i & -> & ? & ? & ?)]. done.
  - intros (? & ? & ?). right. by exists p.
Qed.
End predecessors.

(** ** Dominance *)

(** [Path u p]: [p] lists the blocks of a path from the entry to [u], [u] first. *)
Inductive Path (entry : nat) (g : Graph) : nat -> list nat -> Prop :=
| Path_entry : Path entry g entry [entry]
| Path_step u p v : Path entry g u p -> edge g u v -> Path entry g v (v :: p).

(** [v] dominates [u]: it lies on every path from the entry to [u]. *)
Definition Dominates (entry : nat) (g : Graph) (v u : nat) : Prop :=
  forall p, Path entry g u p -> v ∈ p.

Section paths.
Context (entry : nat) (g : Graph).

Lemma Path_reaches u p : Path entry g u p -> rtc (edge g) entry u /\ u ∈ p.
Proof using Type.
  induction 1 as [|u p v Hp [IH _] He]; [split; [constructor|by left]|].
  split; [by eapply rtc_r|by left].
Qed.

Lemma reaches_Path u : rtc (edge g) entry u -> exists p, Path entry g u p.
Proof using Type.
  revert u. apply rtc_ind_r; [eexists; constructor|]. intros u v _ He [p Hp]. eexists. by econstructor.
Qed.

(** A block on a path is reached by the part of the path up to it. *)
Lemma Path_cut u p v : Path entry g u p -> v ∈ p -> exists q, Path entry g v q /\ q `suffix_of` p.
Proof using Type.
  induction 1 as [|u p w Hp IH He].
  - intros ->%list_elem_of_singleton. eexists; split; [constructor|done].
  - intros [->|Hin]%elem_of_cons; [eexists; split; [by econstructor|done]|].
    destruct (IH Hin) as (q & ? & ?). exists q. split; [done|by apply suffix_cons_r].
Qed.

Lemma Path_simple u p : Path entry g u p -> exists q, Path entry g u q /\ q ⊆ p /\ NoDup q.
Proof using Type.
  induction 1 as [|u p v Hp (q & Hq & Hsub & Hnd) He].
  - exists [entry]. split_and!; [constructor|done|apply NoDup_singleton].
  - destruct (decide (v ∈ q)) as [Hin|Hn].
    + destruct (Path_cut _ _ _ Hq Hin) as (q' & Hq' & [k ->]). exists q'. split_and!; [done| |by apply NoDup_app in Hnd as (_ & _ & ?)].
      intros x Hx. right. apply Hsub. apply elem_of_app. by right.
    + exists (v :: q). split_and!; [by econstructor| |by constructor].
      intros x [->|Hx]%elem_of_cons; [by left|]. right. by apply Hsub.
Qed.

Lemma Path_bounded u p : graph_ok entry g -> Path entry g u p -> Forall (fun x => x < length g)%nat p.
Proof using Type.
  intros [He Hg]. induction 1; constructor; eauto.
Qed.

Lemma NoDup_bounded_length (p : list nat) n : NoDup p -> Forall (fun x => x < n)%nat p -> (length p <= n)%nat.
Proof using Type.
  intros Hnd Hf. rewrite <- (length_seq n 0). apply submseteq_length, NoDup_submseteq; [done|].
  intros x Hx. rewrite Forall_forall in Hf. apply elem_of_seq. specialize (Hf x Hx). lia.
Qed.

(** The dominance equation. *)
Lemma Dominates_step v u :
  u <> entry -> (Dominates entry g v u <->
    v = u \/ forall p, rtc (edge g) entry p -> edge g p u -> Dominates entry g v p).
Proof using Type.
  intros Hu. split.
  - intros Hd. destruct (decide (v = u)) as [|Hne]; [by left|]. right. intros p _ He q Hq.
    assert (v ∈ u :: q) as Hin by (apply Hd; by econstructor). apply elem_of_cons in Hin as [|]; done.
  - intros [->|Hd] p Hp; [by apply Path_reaches in Hp as [_ ?]|].
    inversion Hp as [|u' p' ? Hp' He]; subst; [done|]. right. eapply Hd; [|done|done]. by apply Path_reaches in Hp' as [? _].
Qed.

Lemma Dominates_entry v : Dominates entry g v entry <-> v = entry.
Proof using Type.
  split.
  - intros Hd. specialize (Hd [entry] (Path_entry _ _)). by apply list_elem_of_singleton in Hd.
  - intros -> p Hp. by apply Path_reaches in Hp as [_ ?].
Qed.
End paths.

(** ** The rounds converge to the dominance relation *)

Section convergence.
Context (entry : nat) (g : Graph) (r : list bool).
Hypothesis Hok : graph_ok entry g.
Hypothesis Hlen : length r = length g.
Hypothesis Hreach : forall b, flag r b = true <-> rtc (edge g) entry b.

Abbreviation words := (words_of (length g)).
Abbreviation preds := (build_predecessors_total g r).
Abbreviation pure := (pure_block entry r preds).

Definition dbit (D : list (list N)) (u v : nat) : bool := bit_is_set_total (dom_of D u) v.

Record dom_inv (D : list (list N)) : Prop := {
  di_length : length D = length g;
  di_wf : forall u, (u < length g)%nat -> bits_wf words (dom_of D u);
  di_entry : forall v, dbit D entry v = true <-> v = entry;
  di_lower : forall u v, flag r u = true -> Dominates entry g v u -> dbit D u v = true;
  di_unreachable : forall u v, (u < length g)%nat -> flag r u = false -> dbit D u v = false
}.

(** The bits of [u] are confirmed by all paths of at most [k] blocks. *)
Definition confirmed (k : nat) (D : list (list N)) (u : nat) : Prop :=
  forall v p, dbit D u v = true -> Path entry g u p -> (length p <= k)%nat -> v ∈ p.

Definition exact (D : list (list N)) : Prop :=
  forall u v, flag r u = true -> (dbit D u v = true <-> Dominates entry g v u).

Lemma preds_spec p t : p ∈ succs preds t <-> flag r p = true /\ flag r t = true /\ edge g p t.
Proof using Hok Hlen. destruct Hok as [_ Hg]. apply (build_predecessors_spec (length g) r g eq_refl Hg). Qed.

Lemma visited_spec u : visited entry r u = true <-> u <> entry /\ flag r u = true.
Proof using Type. unfold visited. rewrite andb_true_iff, negb_true_iff, bool_decide_eq_false. done. Qed.

Lemma preds_nonempty u : visited entry r u = true -> succs preds u <> [].
Proof using Hok Hlen Hreach.
  intros [Hne Hf]%visited_spec E. apply Hreach in Hf as Hr. apply rtc_inv_r in Hr as [Heq|(p & Hp & He)]; [congruence|].
  assert (p ∈ succs preds u) as Hin by (apply preds_spec; split_and!; [by apply Hreach|done|done]).
  rewrite E in Hin. by apply elem_of_nil in Hin.
Qed.

Lemma dom_of_insert D u x w :
  (u < length D)%nat -> dom_of (<[u := x]> D) w = if decide (w = u) then x else dom_of D w.
Proof using Type.
  intros Hu. unfold dom_of. case_decide as E.
  - subst. by rewrite list_lookup_insert_eq.
  - by rewrite list_lookup_insert_ne.
Qed.

Lemma next_dom_spec D u :
  dom_inv D -> (u < length g)%nat -> visited entry r u = true ->
  bits_wf words (next_dom preds D u) /\
  forall v, bit_is_set_total (next_dom preds D u) v = true <->
    v = u \/ forall p, p ∈ succs preds u -> dbit D p v = true.
Proof using Hok Hlen Hreach.
  intros HD Hu Hvis. pose proof (preds_nonempty u Hvis) as Hne.
  assert (forall p, p ∈ succs preds u -> p < length g)%nat as Hp.
  { intros p [Hf _]%preds_spec. apply flag_lt in Hf. lia. }
  unfold next_dom. destruct (succs preds u) as [|first rest]; [done|].
  assert (forall l b, bits_wf words b -> (forall p, p ∈ l -> p < length g)%nat ->
    let b' := foldl (fun next p => and_words next (dom_of D p)) b l in
    bits_wf words b' /\ forall v, bit_is_set_total b' v = true <->
      bit_is_set_total b v = true /\ forall p, p ∈ l -> dbit D p v = true) as H.
  { clear -HD. induction l as [|p l IH]; intros b Hb Hl; cbn [foldl].
    - split; [done|]. intros v. split; [|by intros []]. intros; split; [done|]. by intros p ?%elem_of_nil.
    - destruct (and_words_spec words b (dom_of D p) 0%nat Hb) as [Hw _]; [apply HD, Hl; left|].
      destruct (IH _ Hw) as [H1 H2]; [intros; apply Hl; by right|]. split; [done|]. intros v. rewrite H2.
      destruct (and_words_spec words b (dom_of D p) v Hb) as [_ ->]; [apply HD, Hl; left|].
      rewrite andb_true_iff. setoid_rewrite elem_of_cons. split.
      + intros [[? ?] ?]. split; [done|]. intros q [->|?]; auto.
      + intros [? Hq]. split_and!; [done|apply Hq; by left|]. intros; apply Hq; by right. }
  destruct (H rest (dom_of D first)) as [H1 H2]; [apply HD, Hp; left|intros; apply Hp; by right|].
  split; [by apply set_bit_wf|]. intros v. rewrite (bit_set_bit words) by (done || by apply words_enough).
  rewrite orb_true_iff, bool_decide_eq_true, H2. setoid_rewrite elem_of_cons. split.
  - intros [->|[? ?]]; [by left|]. right. intros p [->|?]; auto.
  - intros [->|Hq]; [by left|]. right. split; [apply Hq; by left|]. intros; apply Hq; by right.
Qed.

Lemma pure_cases D c u :
  pure (D, c) u = (D, c) /\ visited entry r u = false \/
  visited entry r u = true /\ pure (D, c) u =
    (<[u := next_dom preds D u]> D, c || negb (bool_decide (next_dom preds D u = dom_of D u))).
Proof using Type. unfold pure_block. destruct (visited entry r u); [by right|by left]. Qed.

Lemma pure_inv D c u : dom_inv D -> (u < length g)%nat -> dom_inv (pure (D, c) u).1.
Proof using Hok Hlen Hreach.
  intros HD Hu. destruct (pure_cases D c u) as [[-> _]|[Hvis ->]]; [done|]. cbn [fst].
  destruct (next_dom_spec D u HD Hu Hvis) as [Hw Hb]. apply visited_spec in Hvis as [Hne Hf].
  destruct HD as [Hl Hwf He Hlow Hun].
  assert (forall w, dom_of (<[u := next_dom preds D u]> D) w =
    if decide (w = u) then next_dom preds D u else dom_of D w) as Hd by (intros; apply dom_of_insert; lia).
  split; unfold dbit in *.
  - by rewrite length_insert.
  - intros w Hlw. rewrite Hd. case_decide; auto.
  - intros v. rewrite Hd. rewrite decide_False by congruence. apply He.
  - intros w v Hfw Hdom. rewrite Hd. case_decide as E; [|by apply Hlow]. subst w. apply Hb.
    apply Dominates_step in Hdom as [->|Hdom]; [by left| |done]. right.
    intros p (Hfp & _ & Hedge)%preds_spec. apply Hlow; [done|]. apply Hdom; [by apply Hreach|done].
  - intros w v Hlw Hfw. rewrite Hd. rewrite decide_False by congruence. by apply Hun.
Qed.

Lemma confirmed_entry k D : dom_inv D -> confirmed k D entry.
Proof using Type. intros HD v p ->%HD Hp _. by apply Path_reaches in Hp as [_ ?]. Qed.

Lemma pure_confirmed k D c u :
  dom_inv D -> (u < length g)%nat -> (forall w, flag r w = true -> confirmed k D w) ->
  forall w, flag r w = true ->
    confirmed k (pure (D, c) u).1 w /\ (w = u \/ confirmed (S k) D w -> confirmed (S k) (pure (D, c) u).1 w).
Proof using Hok Hlen Hreach.
  intros HD Hu Hk w Hfw. destruct (pure_cases D c u) as [[-> Hvis]|[Hvis ->]]; cbn [fst].
  - split; [by apply Hk|]. intros [->|?]; [|done]. destruct (decide (u = entry)) as [->|Hne]; [by apply confirmed_entry|].
    exfalso. apply not_true_iff_false in Hvis. apply Hvis. by apply visited_spec.
  - destruct (next_dom_spec D u HD Hu Hvis) as [_ Hb]. apply visited_spec in Hvis as [Hne Hf].
    assert (w = u -> confirmed (S k) (<[u := next_dom preds D u]> D) w) as Hnew.
    { intros -> v p Hv Hp Hlp. unfold dbit in Hv. rewrite dom_of_insert in Hv by (rewrite (di_length _ HD); lia).
      rewrite decide_True in Hv by done. apply Hb in Hv as [->|Hv]; [by apply Path_reaches in Hp as [_ ?]|].
      inversion Hp as [|u' p' ? Hp' He]; subst; [done|]. right. simpl in Hlp.
      assert (flag r u' = true) as Hfu by (apply Hreach; by apply Path_reaches in Hp' as [? _]).
      apply (Hk u' Hfu v p'); [|done|lia]. apply Hv. by apply preds_spec. }
    destruct (decide (w = u)) as [E|E].
    + split; [|by intros _; apply Hnew]. intros v p Hv Hp Hl. apply (Hnew E v p Hv Hp). lia.
    + assert (forall k', confirmed k' D w -> confirmed k' (<[u := next_dom preds D u]> D) w) as Hsame.
      { intros k' Hc v p Hv. apply Hc. unfold dbit in *. rewrite dom_of_insert in Hv by (rewrite (di_length _ HD); lia).
        by rewrite decide_False in Hv. }
      split; [by apply Hsame, Hk|]. intros [?|?]; [done|]. by apply Hsame.
Qed.

(** One round: the confirmed path length grows by one. *)
Lemma round_confirmed k blocks D c :
  dom_inv D -> Forall (fun u => u < length g)%nat blocks -> (forall w, flag r w = true -> confirmed k D w) ->
  let D' := (foldl pure (D, c) blocks).1 in
  dom_inv D' /\ forall w, flag r w = true ->
    confirmed k D' w /\ (w ∈ blocks \/ confirmed (S k) D w -> confirmed (S k) D' w).
Proof using Hok Hlen Hreach.
  revert D c. induction blocks as [|u blocks IH]; intros D c HD Hb Hk; cbn [foldl].
  - split; [done|]. intros w Hw. split; [by apply Hk|]. intros [?%elem_of_nil|?]; done.
  - apply Forall_cons in Hb as [Hu Hb]. pose proof (pure_inv D c u HD Hu) as HD1.
    pose proof (pure_confirmed k D c u HD Hu Hk) as Hstep. destruct (pure (D, c) u) as [D1 c1]. cbn [fst] in *.
    destruct (IH D1 c1 HD1 Hb) as [HD2 Hc]; [intros w Hw; by apply Hstep|].
    split; [done|]. intros w Hw. specialize (Hc w Hw) as [Hc1 Hc2]. specialize (Hstep w Hw) as [Hs1 Hs2].
    split; [done|]. rewrite elem_of_cons. intros [[->|Hin]|Hc]; apply Hc2; auto.
Qed.

(** A round that changes nothing is at a fixed point. *)
Lemma round_unchanged blocks D c :
  length D = length g -> Forall (fun u => u < length g)%nat blocks ->
  (foldl pure (D, c) blocks).2 = false ->
  c = false /\ (foldl pure (D, c) blocks).1 = D /\
  forall u, u ∈ blocks -> visited entry r u = true -> next_dom preds D u = dom_of D u.
Proof using Hlen.
  intros Hl. revert c. induction blocks as [|u blocks IH]; intros c Hb H; cbn [foldl] in *.
  - split_and!; [done|done|]. by intros u ?%elem_of_nil.
  - apply Forall_cons in Hb as [Hu Hb].
    assert (forall c' (b : list nat) D', c' = true -> (foldl pure (D', c') b).2 = true) as Hmono.
    { intros c' b. revert c'. induction b as [|x b IHb]; intros c' D' ->; [done|]. cbn [foldl].
      destruct (pure_cases D' true x) as [[-> _]|[_ ->]]; by apply IHb. }
    destruct (pure_cases D c u) as [[E Hvis]|[Hvis E]]; rewrite E in *.
    + apply IH in H as (? & ? & Hfix); [|done]. split_and!; [done|done|].
      intros w [->|Hin]%elem_of_cons Hw; [congruence|by apply Hfix].
    + destruct (decide (next_dom preds D u = dom_of D u)) as [Heq|Hne].
      * rewrite bool_decide_true, orb_false_r in * by done.
        assert (<[u := next_dom preds D u]> D = D) as Hins.
        { rewrite Heq. unfold dom_of. destruct (lookup_lt_is_Some_2 D u) as [x Hx]; [lia|]. rewrite Hx. by apply list_insert_id. }
        rewrite Hins in *. apply IH in H as (? & ? & Hfix); [|done]. split_and!; [done|done|].
        intros w [->|Hin]%elem_of_cons Hw; [done|by apply Hfix].
      * rewrite bool_decide_false in H by done. rewrite Hmono in H; [done|]. by rewrite orb_true_r.
Qed.

Lemma fixpoint_exact D :
  dom_inv D -> (forall u, (u < length g)%nat -> visited entry r u = true -> next_dom preds D u = dom_of D u) -> exact D.
Proof using Hok Hlen Hreach.
  intros HD Hfix u v Hf. split; [|by apply HD]. intros Hv p Hp. revert v Hv.
  induction Hp as [|u p w Hp IH He]; intros v Hv; [apply (di_entry _ HD) in Hv as ->; by left|].
  destruct (decide (w = entry)) as [->|Hne]; [apply (di_entry _ HD) in Hv as ->; by left|].
  assert (flag r u = true) as Hfu by (apply Hreach; by apply Path_reaches in Hp as [? _]).
  assert (w < length g)%nat as Hlw by (apply flag_lt in Hf; lia).
  assert (visited entry r w = true) as Hvis by by apply visited_spec.
  unfold dbit in Hv. rewrite <- (Hfix w Hlw Hvis) in Hv.
  apply (next_dom_spec D w HD Hlw Hvis) in Hv as [->|Hv]; [by left|]. right. apply IH; [done|]. apply Hv. by apply preds_spec.
Qed.

Lemma confirmed_exact D :
  dom_inv D -> (forall u, flag r u = true -> confirmed (length g) D u) -> exact D.
Proof using Hok Hlen Hreach.
  intros HD Hc u v Hf. split; [|by apply HD]. intros Hv p Hp.
  destruct (Path_simple _ _ _ _ Hp) as (q & Hq & Hsub & Hnd). apply Hsub, (Hc u Hf v q Hv Hq).
  eapply NoDup_bounded_length; [done|by eapply Path_bounded].
Qed.

Lemma exact_round blocks D c :
  dom_inv D -> exact D -> Forall (fun u => u < length g)%nat blocks -> foldl pure (D, c) blocks = (D, c).
Proof using Hok Hlen Hreach.
  intros HD He. induction blocks as [|u blocks IH]; intros Hb; [done|]. cbn [foldl].
  apply Forall_cons in Hb as [Hu Hb]. destruct (pure_cases D c u) as [[-> _]|[Hvis ->]]; [by apply IH|].
  destruct (next_dom_spec D u HD Hu Hvis) as [Hw Hn]. apply visited_spec in Hvis as [Hne Hf].
  assert (next_dom preds D u = dom_of D u) as Heq.
  { apply (bits_ext words); [done|by apply HD|]. intros v. apply eq_true_iff_eq. rewrite Hn.
    rewrite (He u v Hf), Dominates_step by done. split; (intros [?|H]; [by left|right]).
    - intros p Hp Hedge. apply Hreach in Hp. apply He; [done|]. apply H. by apply preds_spec.
    - intros p (Hp & _ & Hedge)%preds_spec. apply He; [done|]. apply H; [by apply Hreach|done]. }
  rewrite Heq, bool_decide_true, orb_false_r by done.
  replace (<[u := dom_of D u]> D) with D; [by apply IH|].
  symmetry. unfold dom_of. destruct (lookup_lt_is_Some_2 D u) as [x Hx]; [rewrite (di_length _ HD); lia|].
  rewrite Hx. by apply list_insert_id.
Qed.
End convergence.

(** ** The limits *)

Section limits.
Context (entry : nat) (g : Graph) (r : list bool).
Hypothesis Hok : graph_ok entry g.
Hypothesis Hlen : length r = length g.
Hypothesis Hreach : forall b, flag r b = true <-> rtc (edge g) entry b.

Abbreviation words := (words_of (length g)).
Abbreviation preds := (build_predecessors_total g r).
Abbreviation blocks := (seq 0 (length g)).
Abbreviation round_cost := (cost entry words r preds blocks).

Lemma initial_dominators_lookup u :
  (u < length g)%nat ->
  dom_of (initial_dominators_total entry (length g) words r (reachable_bits_of_total r words)) u =
  if decide (u = entry) then set_bit_total (replicate words 0%N) u
  else if flag r u then reachable_bits_of_total r words else replicate words 0%N.
Proof using Type.
  intros Hu. unfold dom_of, initial_dominators_total. rewrite list_lookup_fmap, lookup_seq_lt by done. done.
Qed.

Lemma initial_inv : dom_inv entry g r (initial_dominators_total entry (length g) words r (reachable_bits_of_total r words)).
Proof using Hok Hlen Hreach.
  assert (forall i, bits_wf words (reachable_bits_of_total r words) /\
    bit_is_set_total (reachable_bits_of_total r words) i = flag r i) as Hb.
  { intros i. apply reachable_bits_spec. rewrite Hlen. unfold words_of.
    pose proof (Nat.div_mod_eq (length g + 63) 64). pose proof (Nat.mod_upper_bound (length g + 63) 64). lia. }
  destruct Hok as [He Hg].
  assert (flag r entry = true) as Hre by (apply Hreach; constructor).
  assert (forall v, bit_is_set_total (set_bit_total (replicate words 0%N) entry) v = true <-> v = entry) as Hse.
  { intros v. rewrite (bit_set_bit words) by (apply replicate_wf || by apply words_enough).
    rewrite bit_replicate, orb_false_r, bool_decide_eq_true. done. }
  split; unfold dbit.
  - unfold initial_dominators_total. by rewrite length_fmap, length_seq.
  - intros u Hu. rewrite initial_dominators_lookup by done. case_decide; [apply set_bit_wf, replicate_wf|].
    destruct (flag r u); [apply (Hb 0%nat)|apply replicate_wf].
  - intros v. rewrite initial_dominators_lookup, decide_True by done. apply Hse.
  - intros u v Hf Hd. rewrite initial_dominators_lookup by (apply flag_lt in Hf; lia). case_decide as E.
    + subst. apply Hse. by apply (Dominates_entry entry g).
    + rewrite Hf. destruct (Hb v) as [_ ->]. apply Hreach in Hf. apply reaches_Path in Hf as [p Hp].
      destruct (Path_cut _ _ _ _ v Hp) as (q & Hq & _); [by apply Hd|]. apply Hreach. by apply Path_reaches in Hq as [? _].
  - intros u v Hu Hf. rewrite initial_dominators_lookup by done. rewrite decide_False by congruence.
    rewrite Hf. apply bit_replicate.
Qed.

Lemma initial_confirmed w :
  confirmed entry g 1 (initial_dominators_total entry (length g) words r (reachable_bits_of_total r words)) w.
Proof using Hok Hlen Hreach.
  intros v p Hv Hp Hl. destruct Hp as [|u p w Hp He]; [|destruct Hp; simpl in Hl; lia].
  apply (di_entry _ _ _ _ initial_inv) in Hv as ->. by left.
Qed.

Lemma blocks_lt : Forall (fun u => u < length g)%nat blocks.
Proof using Type. apply Forall_forall. intros x [_ Hx]%elem_of_seq. exact Hx. Qed.

(** One unfolding of the loop over rounds. *)
Lemma rounds_step rounds D work :
  (work <= MAX_DOMINATOR_WORD_OPERATIONS)%N ->
  dominator_rounds_total entry words r preds (S rounds) (length g) D work =
  if (work + round_cost <=? MAX_DOMINATOR_WORD_OPERATIONS)%N then
    let st := foldl (pure_block entry r preds) (D, false) blocks in
    if st.2 then dominator_rounds_total entry words r preds rounds (length g) st.1 (work + round_cost)
    else Ok (st.1, (work + round_cost)%N)
  else fail CfgResourceLimit.
Proof using Hok Hlen Hreach.
  intros Hw. cbn [dominator_rounds_total]. rewrite round_eq; [|by apply preds_nonempty|done].
  by destruct (N.leb_spec (work + round_cost) MAX_DOMINATOR_WORD_OPERATIONS).
Qed.

Lemma rounds_spec rounds D work :
  dom_inv entry g r D -> (work <= MAX_DOMINATOR_WORD_OPERATIONS)%N ->
  match dominator_rounds_total entry words r preds rounds (length g) D work with
  | Ok (D', work') => dom_inv entry g r D' /\ exact entry g r D' /\ (work' <= MAX_DOMINATOR_WORD_OPERATIONS)%N
  | Err e => e = cfg_code CfgResourceLimit
  end.
Proof using Hok Hlen Hreach.
  revert D work. induction rounds as [|rounds IH]; intros D work HD Hw; [done|]. rewrite rounds_step by done.
  destruct (N.leb_spec (work + round_cost) MAX_DOMINATOR_WORD_OPERATIONS) as [Hle|]; [|done]. cbv zeta.
  pose proof (round_confirmed entry g r Hok Hlen Hreach 0 blocks D false HD blocks_lt) as [HD' _].
  { intros w _ v p _ Hp Hl. destruct Hp; simpl in Hl; lia. }
  destruct (foldl (pure_block entry r preds) (D, false) blocks).2 eqn:Hc; [by apply IH|].
  split_and!; [done| |done]. apply round_unchanged in Hc as (_ & -> & Hfix);
    [|exact Hlen|apply (di_length _ _ _ _ HD)|apply blocks_lt].
  apply fixpoint_exact; try done. intros u Hu. apply Hfix. apply elem_of_seq. lia.
Qed.

(** The rounds until nothing changes: no more than there are blocks, whatever the
    limit; the work of all of them is charged. *)
Lemma block_rounds_exact j k D :
  dom_inv entry g r D -> (forall w, flag r w = true -> confirmed entry g k D w) -> (length g <= k + j)%nat ->
  exists m D', (1 <= m <= S j)%nat /\ forall rounds work, (j < rounds)%nat -> (work <= MAX_DOMINATOR_WORD_OPERATIONS)%N ->
    dominator_rounds_total entry words r preds rounds (length g) D work =
    if (work + N.of_nat m * round_cost <=? MAX_DOMINATOR_WORD_OPERATIONS)%N then Ok (D', work + N.of_nat m * round_cost)%N
    else fail CfgResourceLimit.
Proof using Hok Hlen Hreach.
  revert k D. induction j as [|j IH]; intros k D HD Hk Hn.
  - exists 1%nat, D. split; [lia|]. intros [|rounds] work Hr Hw; [lia|]. rewrite rounds_step by done. rewrite N.mul_1_l.
    cbv zeta. rewrite (exact_round entry g r Hok Hlen Hreach blocks D false HD); [done| |apply blocks_lt].
    apply confirmed_exact; try done. intros w Hw' v p Hv Hp Hl. apply (Hk w Hw' v p Hv Hp). lia.
  - pose proof (round_confirmed entry g r Hok Hlen Hreach k blocks D false HD blocks_lt Hk) as [HD' Hc].
    destruct (foldl (pure_block entry r preds) (D, false) blocks) as [D1 []] eqn:E; cbn [fst] in HD', Hc.
    + destruct (IH (S k) D1) as (m & D' & Hm & Hrest); [done| |lia|].
      { intros w Hfw. apply Hc; [done|]. left. apply elem_of_seq. apply flag_lt in Hfw. lia. }
      exists (S m), D'. split; [lia|]. intros [|rounds] work Hr Hw; [lia|]. rewrite rounds_step by done. cbv zeta. rewrite E.
      cbn [fst snd]. replace (N.of_nat (S m) * round_cost)%N with (round_cost + N.of_nat m * round_cost)%N by lia.
      rewrite <- charged_bind. destruct (N.leb_spec (work + round_cost) MAX_DOMINATOR_WORD_OPERATIONS); [|done].
      rewrite Hrest by (done || lia). by rewrite N.add_assoc.
    + exists 1%nat, D1. split; [lia|]. intros [|rounds] work Hr Hw; [lia|]. rewrite rounds_step by done. cbv zeta. by rewrite E, N.mul_1_l.
Qed.
End limits.

(** What [compute_dominators_total] returns. *)
Lemma dominators_sound entry g reachable :
  graph_ok entry g -> compute_reachability_total entry g = Some reachable ->
  match compute_dominators_total entry g reachable with
  | Ok (doms, work) =>
      length doms = length g /\ (work <= MAX_DOMINATOR_WORD_OPERATIONS)%N /\
      (forall u v, flag reachable u = true ->
         bit_is_set_total (default [] (doms !! u)) v = true <-> Dominates entry g v u) /\
      (forall u v, (u < length g)%nat -> flag reachable u = false ->
         bit_is_set_total (default [] (doms !! u)) v = false)
  | Err e => e = cfg_code CfgResourceLimit
  end.
Proof.
  intros Hok Hr. destruct (reachability_sound entry g reachable Hok Hr) as [Hlen Hreach].
  unfold compute_dominators_total.
  pose proof (rounds_spec entry g reachable Hok Hlen Hreach (N.to_nat MAX_CFG_BLOCKS)
    _ 0%N (initial_inv entry g reachable Hok Hlen Hreach) (N.le_0_l _)) as H.
  destruct (dominator_rounds_total _ _ _ _ _ _ _ _) as [[D w]|e]; [|done].
  destruct H as (HD & He & Hw). split_and!; [apply HD|done|apply He|apply HD].
Qed.
