(* ===== verification/CfgDominators.v ===== *)
(** * Reachability and dominators: correctness

    [CfgGraph] agrees with the total functions of [CfgPlain] on the graphs of
    functions, so no index is ever out of range; the first algorithm computes the
    reachable blocks and the second the dominance relation, and the limit on
    rounds is never the reason for a failure. *)

From S2P Require Import Prelude Ssmc Types CfgGraph CfgPlain.

(** ** Indexing in range *)

Lemma get_Ok {A} (l : list A) i x : get l i = Ok x <-> l !! i = Some x.
Proof. unfold get. destruct (l !! i); cbn; split; congruence. Qed.

Lemma put_in {A} (l : list A) i x : (i < length l)%nat -> put l i x = Ok (<[i := x]> l).
Proof. intros Hi. unfold put. by rewrite decide_True. Qed.

Lemma get_default {A} (d : A) (l : list A) i : (i < length l)%nat -> get l i = Ok (default d (l !! i)).
Proof. intros [x Hx]%lookup_lt_is_Some_2. rewrite Hx. by apply get_Ok. Qed.

Lemma get_flag l i : (i < length l)%nat -> get l i = Ok (flag l i).
Proof. apply get_default. Qed.
Lemma get_succs (g : Graph) i : (i < length g)%nat -> get g i = Ok (succs g i).
Proof. apply get_default. Qed.
Lemma get_dom D i : (i < length D)%nat -> get D i = Ok (dom_of D i).
Proof. apply get_default. Qed.

Lemma put_alter {A} (f : A -> A) (l : list A) i x : l !! i = Some x -> put l i (f x) = Ok (alter f i l).
Proof.
  intros Hx. rewrite put_in by (by eapply lookup_lt_Some). f_equal. apply list_eq. intros j.
  destruct (decide (i = j)) as [<-|Hne]; [|by rewrite list_lookup_alter_ne, list_lookup_insert_ne].
  rewrite list_lookup_alter_eq, Hx. apply list_lookup_insert_eq. by eapply lookup_lt_Some.
Qed.

(** [graph\[i\].push(x)] *)
Lemma push_in {A} (g : list (list A)) i x :
  (i < length g)%nat -> (l ← get g i; put g i (l ++ [x])) = Ok (alter (fun l => l ++ [x]) i g).
Proof. intros [l Hl]%lookup_lt_is_Some_2. pose proof Hl as ->%get_Ok. by apply (put_alter (fun l => l ++ [x])). Qed.

(** A loop that keeps what its turns need *)
Lemma avoids_fold_inv {E A B} (bad : E) (f : B -> A -> result E B) (P : B -> Prop) l acc :
  (forall b x, x ∈ l -> P b -> avoids bad (f b x) /\ forall b', f b x = Ok b' -> P b') -> P acc ->
  avoids bad (fold_res f acc l).
Proof.
  revert acc. induction l as [|x l IH]; intros acc Hf Hacc; [done|]. cbn [fold_res].
  destruct (Hf acc x) as [Hb Hk]; [left|done|]. apply avoids_bind; [done|]. intros b Hx. apply IH; [|by apply Hk].
  intros b' y Hy. apply Hf. by right.
Qed.

Lemma word_in {A} (bits : list A) i : (i < 64 * length bits)%nat -> is_Some (bits !! (i / 64)%nat).
Proof. intros Hi. apply lookup_lt_is_Some_2, Nat.Div0.div_lt_upper_bound. lia. Qed.

Lemma set_bit_in bits i : (i < 64 * length bits)%nat -> set_bit bits i = Ok (set_bit_total bits i).
Proof.
  intros [w Hw]%word_in. unfold set_bit. pose proof Hw as ->%get_Ok. cbn [mbind result_bind].
  by apply (put_alter (fun w => N.lor w _)).
Qed.

Lemma bit_is_set_in bits i : (i < 64 * length bits)%nat -> bit_is_set bits i = Ok (bit_is_set_total bits i).
Proof.
  intros [w Hw]%word_in. unfold bit_is_set, bit_is_set_total. rewrite Hw. by apply get_Ok in Hw as ->.
Qed.

(** ** The algorithms agree *)

Lemma reach_targets_eq n r q ts :
  length r = n -> Forall (fun t => t < n)%nat ts ->
  fold_res reach_target (r, q) ts = Ok (foldl reach_target_total (r, q) ts) /\
  length (foldl reach_target_total (r, q) ts).1 = n.
Proof.
  intros Hr Hts. rewrite Forall_forall in Hts.
  apply (fold_res_foldl reach_target reach_target_total (fun st => length st.1 = n)); [|done].
  intros [r' q'] t Ht Hl. specialize (Hts t Ht). cbn [fst] in Hl. unfold reach_target, reach_target_total.
  rewrite get_flag by lia. cbn [mbind result_bind]. destruct (flag r' t); [done|].
  rewrite put_in by lia. cbn [mbind result_bind fst]. by rewrite length_insert.
Qed.

Lemma reach_queue r q ts r' q' P :
  foldl reach_target_total (r, q) ts = (r', q') -> Forall P q -> Forall P ts -> Forall P q'.
Proof.
  revert r q. induction ts as [|t ts IH]; intros r q H Hq Hts; cbn [foldl] in H; [by injection H as <- <-|].
  apply Forall_cons in Hts as [Ht Hts]. unfold reach_target_total in H at 2.
  destruct (flag r t); eapply IH; try done. apply Forall_app. by split; [|constructor].
Qed.

Section reach.
Context (entry : nat) (g : Graph).
Hypothesis Hok : graph_ok entry g.

Lemma reach_loop_eq fuel r q :
  length r = length g -> Forall (fun b => b < length g)%nat q ->
  reach_loop fuel g r q = ok_or Panicked (reach_loop_total fuel g r q).
Proof using Hok.
  revert r q. induction fuel as [|fuel IH]; intros r [|b q] Hr Hq; try done. cbn [reach_loop reach_loop_total].
  apply Forall_cons in Hq as [Hb Hq]. rewrite get_succs by done. cbn [mbind result_bind].
  assert (Forall (fun t => t < length g)%nat (succs g b)) as Hts by (apply Forall_forall; intros t Ht; by eapply Hok).
  destruct (reach_targets_eq (length g) r q (succs g b) Hr Hts) as [-> Hl]. cbn [mbind result_bind].
  destruct (foldl reach_target_total (r, q) (succs g b)) as [r' q'] eqn:E. apply IH; [done|by eapply reach_queue].
Qed.

Lemma compute_reachability_eq : compute_reachability entry g = ok_or Panicked (compute_reachability_total entry g).
Proof using Hok.
  unfold compute_reachability, compute_reachability_total. destruct Hok as [He _].
  rewrite put_in by (by rewrite length_replicate). cbn [mbind result_bind]. apply reach_loop_eq.
  - by rewrite length_insert, length_replicate.
  - by constructor.
Qed.

Lemma compute_reachability_Ok reachable :
  compute_reachability entry g = Ok reachable <-> compute_reachability_total entry g = Some reachable.
Proof using Hok. rewrite compute_reachability_eq. apply ok_or_Ok. Qed.
End reach.

Section agree.
Context (entry : nat) (g : Graph) (r : list bool).
Hypothesis Hok : graph_ok entry g.
Hypothesis Hlen : length r = length g.

Abbreviation n := (length g).
Abbreviation words := (words_of (length g)).
Abbreviation preds := (build_predecessors_total g r).

Lemma push_edge_eq source preds' target :
  length preds' = n -> (target < n)%nat ->
  push_edge r source preds' target =
    Ok (if flag r target then alter (fun l => l ++ [source]) target preds' else preds') /\
  length (if flag r target then alter (fun l => l ++ [source]) target preds' else preds') = n.
Proof using Hlen.
  intros Hp Ht. unfold push_edge. rewrite get_flag by lia. cbn [mbind result_bind].
  destruct (flag r target); [|done]. rewrite length_alter. split; [|done]. apply push_in. lia.
Qed.

Lemma build_predecessors_eq : build_predecessors g r = Ok preds.
Proof using Hok Hlen.
  unfold build_predecessors, build_predecessors_total.
  eapply (fold_res_foldl (push_edges r) (push_edges_total r) (fun p => length p = n)); [|apply length_replicate].
  intros p [source targets] [k Hk]%list_elem_of_lookup_1 Hp. apply lookup_zip_Some in Hk as [Hs Ht].
  apply lookup_seq in Hs as [-> Hk]. cbn [Nat.add] in *. unfold push_edges, push_edges_total.
  rewrite get_flag by lia. cbn [mbind result_bind]. destruct (flag r k); [|done].
  eapply (fold_res_foldl (push_edge r k) _ (fun p => length p = n)); [|done].
  intros p' t Hin Hp'. apply push_edge_eq; [done|]. eapply (proj2 Hok k). unfold edge, succs. by rewrite Ht.
Qed.

Lemma words_in i : (i < n)%nat -> (i < 64 * words)%nat.
Proof using Type. apply words_enough. Qed.

Lemma reachable_bits_of_eq : reachable_bits_of r words = Ok (reachable_bits_of_total r words).
Proof using Hlen.
  unfold reachable_bits_of, reachable_bits_of_total.
  assert (forall l k bits, length bits = words -> (k + length l <= n)%nat -> (forall i, l !! i = r !! (k + i)%nat) ->
    fold_res (fun bits '(index, is_reachable) => if (is_reachable : bool) then set_bit bits index else Ok bits)
      bits (zip (seq k (length l)) l) =
    Ok (foldl (fun bits index => if flag r index then set_bit_total bits index else bits) bits (seq k (length l)))) as H.
  { induction l as [|b l IH]; intros k bits Hb Hk Hl; [done|]. cbn [length] in Hk.
    cbn [length seq zip zip_with fold_res foldl]. pose proof (Hl 0%nat) as H0. rewrite Nat.add_0_r in H0.
    assert (flag r k = b) as -> by (unfold flag; rewrite <- H0; done).
    assert (forall i, l !! i = r !! (S k + i)%nat) as Hl' by (intros i; replace (S k + i)%nat with (k + S i)%nat by lia; apply (Hl (S i))).
    destruct b; cbn [mbind result_bind].
    - rewrite set_bit_in by (rewrite Hb; apply words_in; lia). cbn [mbind result_bind].
      apply IH; [unfold set_bit_total; by rewrite length_alter|lia|done].
    - apply IH; [done|lia|done]. }
  apply H; [apply length_replicate|lia|done].
Qed.

Lemma initial_dominators_eq bits :
  length bits = words ->
  initial_dominators entry n words r bits = Ok (initial_dominators_total entry n words r bits).
Proof using Hlen.
  intros Hb. unfold initial_dominators, initial_dominators_total.
  set (row := fun index => if decide (index = entry) then set_bit_total (replicate words 0%N) index
     else if flag r index then bits else replicate words 0%N).
  assert (forall m k (rows : list (list N)), length rows = k -> (k + m = n)%nat ->
    fold_res (fun dominators index =>
      if decide (index = entry) then
        bits ← get dominators index; bits ← set_bit bits index; put dominators index bits
      else
        is_reachable ← get r index;
        if (is_reachable : bool) then put dominators index bits else Ok dominators)
      (rows ++ replicate m (replicate words 0%N)) (seq k m) = Ok (rows ++ (row <$> seq k m))) as H.
  { induction m as [|m IH]; intros k rows Hd Hk; [done|]. cbn [replicate seq fold_res fmap list_fmap].
    assert ((rows ++ replicate words 0%N :: replicate m (replicate words 0%N)) !! k = Some (replicate words 0%N)) as Hlook
      by (by rewrite lookup_app_r, Hd, Nat.sub_diag by lia).
    assert (forall x, put (rows ++ replicate words 0%N :: replicate m (replicate words 0%N)) k x =
      Ok ((rows ++ [x]) ++ replicate m (replicate words 0%N))) as Hput.
    { intros x. rewrite put_in by (by eapply lookup_lt_Some). rewrite insert_app_r_alt, Hd, Nat.sub_diag by lia.
      cbn. by rewrite <- app_assoc. }
    assert (rows ++ replicate words 0%N :: replicate m (replicate words 0%N) =
      (rows ++ [replicate words 0%N]) ++ replicate m (replicate words 0%N)) as Hsame by (by rewrite <- app_assoc).
    assert (forall x, fold_res (fun dominators index =>
      if decide (index = entry) then
        bits ← get dominators index; bits ← set_bit bits index; put dominators index bits
      else
        is_reachable ← get r index;
        if (is_reachable : bool) then put dominators index bits else Ok dominators)
      ((rows ++ [x]) ++ replicate m (replicate words 0%N)) (seq (S k) m) = Ok (rows ++ x :: (row <$> seq (S k) m))) as Hrest.
    { intros x. rewrite (IH (S k) (rows ++ [x])); [by rewrite <- app_assoc|rewrite length_app; cbn; lia|lia]. }
    unfold row at 1. case_decide.
    - apply get_Ok in Hlook as ->. cbn [mbind result_bind].
      rewrite set_bit_in by (rewrite length_replicate; apply words_in; lia). cbn [mbind result_bind]. rewrite Hput.
      apply Hrest.
    - rewrite get_flag by lia. cbn [mbind result_bind]. destruct (flag r k).
      + rewrite Hput. apply Hrest.
      + cbn [mbind result_bind]. rewrite Hsame. apply Hrest. }
  apply (H n 0%nat []); done.
Qed.
End agree.

(** *** A block, a round, the rounds *)

Section rounds.
Context (entry n : nat) (reachable : list bool) (predecessors : Graph).
Abbreviation words := (words_of n).
Hypothesis Hlen : length reachable = n.
Hypothesis Hpreds : length predecessors = n /\ forall u v, edge predecessors u v -> (v < n)%nat.

Definition shaped (D : list (list N)) : Prop := length D = n /\ forall u, (u < n)%nat -> length (dom_of D u) = words.

Lemma length_and_words a b : length a = length b -> length (and_words a b) = length a.
Proof using Type. revert b. induction a as [|x a IH]; intros [|y b] H; try done. cbn. f_equal. apply IH. by injection H. Qed.

Lemma intersect_get D rest next work :
  shaped D -> (forall p, p ∈ rest -> p < n)%nat -> length next = words ->
  fold_res (fun '(next, work) predecessor =>
      other ← get D predecessor;
      work ← charge_work work (N.of_nat words);
      Ok (and_words next other, work)) (next, work) rest =
  fold_res (fun '(next, work) predecessor =>
      work ← charge_work work (N.of_nat words);
      Ok (and_words next (dom_of D predecessor), work)) (next, work) rest /\
  (forall next' work', fold_res (fun '(next, work) predecessor =>
      work ← charge_work work (N.of_nat words);
      Ok (and_words next (dom_of D predecessor), work)) (next, work) rest = Ok (next', work') -> length next' = words).
Proof using Type.
  clear Hlen Hpreds. intros [HD Hrow] Hrest. revert next work. induction rest as [|p rest IH]; intros next work Hn.
  - split; [done|]. by intros ? ? [= <- <-].
  - cbn [fold_res]. assert (p < n)%nat as Hp by (apply Hrest; left). rewrite get_dom by lia. cbn [mbind result_bind].
    destruct (charge_work work _); cbn [mbind result_bind]; [|done].
    apply IH; [intros q Hq; apply Hrest; by right|]. by rewrite length_and_words by (rewrite Hn; symmetry; by apply Hrow).
Qed.

Lemma dominator_block_get st b :
  shaped (dominators st) -> (b < n)%nat ->
  dominator_block entry words reachable predecessors st b = dominator_block_total entry words reachable predecessors st b /\
  forall st', dominator_block_total entry words reachable predecessors st b = Ok st' -> shaped (dominators st').
Proof using Hlen Hpreds.
  intros HD Hb. pose proof HD as [HDl Hrow]. destruct Hpreds as [Hpl Hp]. unfold dominator_block, dominator_block_total.
  case_decide; [by split; [|intros ? [= <-]]|]. rewrite get_flag by lia. cbn [mbind result_bind].
  destruct (flag reachable b); cbn [negb]; [|by split; [|intros ? [= <-]]].
  rewrite get_succs by lia. cbn [mbind result_bind]. pose proof (Hp b) as Hpb. unfold edge in Hpb.
  destruct (succs predecessors b) as [|first rest]; [by split|].
  assert (first < n)%nat as Hf by (apply Hpb; left). rewrite (get_dom _ first) by lia. cbn [mbind result_bind].
  destruct (charge_work _ _) as [work|]; [|cbn; by split]. cbn [mbind result_bind].
  destruct (intersect_get (dominators st) rest (dom_of (dominators st) first) work) as [-> Hnext];
    [done|intros p Hin; apply Hpb; by right|by apply Hrow|].
  destruct (fold_res _ _ rest) as [[next work']|]; [|cbn; by split]. specialize (Hnext _ _ eq_refl). cbn [mbind result_bind].
  rewrite set_bit_in by (rewrite Hnext; by apply words_enough). cbn [mbind result_bind].
  destruct (charge_work work' _) as [work''|]; [|cbn; by split]. cbn [mbind result_bind]. rewrite get_dom by lia. cbn [mbind result_bind].
  case_decide; [by split; [|intros ? [= <-]]|]. rewrite put_in by lia. cbn [mbind result_bind]. split; [done|].
  intros ? [= <-]. split; cbn [dominators]; [by rewrite length_insert|]. intros u Hu. rewrite dom_of_insert by lia.
  case_decide; [|by apply Hrow]. unfold set_bit_total. by rewrite length_alter.
Qed.

Lemma dominator_rounds_get rounds D work :
  shaped D -> dominator_rounds entry words reachable predecessors rounds n D work =
              dominator_rounds_total entry words reachable predecessors rounds n D work.
Proof using Hlen Hpreds.
  revert D work. induction rounds as [|rounds IH]; intros D work HD; [done|]. cbn [dominator_rounds dominator_rounds_total].
  rewrite (fold_res_ext_inv _ (dominator_block_total entry words reachable predecessors) (fun st => shaped (dominators st)));
    [|intros st b [_ Hb]%elem_of_seq Hst; by apply dominator_block_get|done].
  destruct (fold_res _ _ _) as [st|] eqn:E; [|done]. cbn [mbind result_bind]. destruct (dom_changed st); [|done]. apply IH.
  refine (fold_res_inv _ (fun st => shaped (dominators st)) _ _ _ _ _ E); [|done].
  intros st' b st'' [_ Hb]%elem_of_seq Hst. by apply dominator_block_get.
Qed.
End rounds.

(** ** Reachability *)

(** The search always ends within as many turns as there are blocks, indexes
    nothing out of range, and marks exactly the blocks that a path of edges
    reaches from the entry. *)
Theorem compute_reachability_exact entry g :
  graph_ok entry g ->
  exists reachable, compute_reachability entry g = Ok reachable /\ length reachable = length g /\
    forall b, reachable !! b = Some true <-> rtc (edge g) entry b.
Proof.
  intros Hok. destruct (reachability_total_spec entry g Hok) as (r & Hr & Hl & Hb). exists r.
  rewrite (compute_reachability_Ok entry g Hok). split_and!; [done|done|]. intros b. by rewrite <- flag_true.
Qed.

(** ** Dominators *)

(** [compute_dominators] with another limit on the rounds *)
Definition dominators_within (rounds : nat) (entry : nat) (successors : Graph) (reachable : list bool)
    : cfg_out (list (list N) * N) :=
  let count := length successors in
  let words := words_of count in
  predecessors ← build_predecessors successors reachable;
  reachable_bits ← reachable_bits_of reachable words;
  dominators ← initial_dominators entry count words reachable reachable_bits;
  dominator_rounds entry words reachable predecessors rounds count dominators 0.

(** The words a round combines: for every reachable block but the entry, those of
    its predecessors and its own *)
Definition round_work (entry : nat) (successors : Graph) (reachable : list bool) : N :=
  cost entry (words_of (length successors)) reachable (build_predecessors_total successors reachable)
    (seq 0 (length successors)).

Section dominators.
Context (entry : nat) (g : Graph) (reachable : list bool).
Hypothesis Hok : graph_ok entry g.
Hypothesis Hr : compute_reachability entry g = Ok reachable.

Lemma reachable_flags : length reachable = length g /\ forall b, flag reachable b = true <-> rtc (edge g) entry b.
Proof using Hok Hr. apply (reachability_sound entry); [done|]. by apply (compute_reachability_Ok entry g Hok). Qed.

Abbreviation words := (words_of (length g)).
Abbreviation initial := (initial_dominators_total entry (length g) words reachable (reachable_bits_of_total reachable words)).

Lemma initial_shaped : shaped (length g) initial.
Proof using Hok Hr.
  destruct reachable_flags as [Hlen Hreach]. pose proof (initial_inv entry g reachable Hok Hlen Hreach) as HD.
  split; [apply HD|]. intros u Hu. by apply HD.
Qed.

Lemma dominators_within_eq rounds :
  dominators_within rounds entry g reachable =
  dominator_rounds_total entry words reachable (build_predecessors_total g reachable) rounds (length g) initial 0.
Proof using Hok Hr.
  destruct reachable_flags as [Hlen _]. unfold dominators_within. rewrite (build_predecessors_eq entry) by done.
  cbn [mbind result_bind]. rewrite reachable_bits_of_eq by done. cbn [mbind result_bind].
  rewrite initial_dominators_eq; [|done|].
  - cbn [mbind result_bind]. apply dominator_rounds_get; [done| |apply initial_shaped]. destruct Hok as [_ Hg].
    destruct (build_predecessors_spec (length g) reachable g eq_refl Hg) as [Hl Hp]. split; [done|].
    intros u v (Hv & _ & _)%Hp. apply flag_lt in Hv. lia.
  - apply reachable_bits_spec; [exact 0%nat|]. rewrite Hlen. pose proof (Nat.div_mod_eq (length g + 63) 64).
    pose proof (Nat.mod_upper_bound (length g + 63) 64). unfold words_of. lia.
Qed.

Lemma compute_dominators_sound :
  match compute_dominators entry g reachable with
  | Ok (doms, work) =>
      (work <= MAX_DOMINATOR_WORD_OPERATIONS)%N /\ length doms = length g /\
      forall u v, (u < length g)%nat -> (v < length g)%nat ->
        exists row b, doms !! u = Some row /\ bit_is_set row v = Ok b /\
          (b = true <-> reachable !! u = Some true /\ Dominates entry g v u)
  | Err e => e = cfg_code CfgResourceLimit
  end.
Proof using Hok Hr.
  destruct reachable_flags as [Hlen Hreach]. change (compute_dominators entry g reachable)
    with (dominators_within (N.to_nat MAX_CFG_BLOCKS) entry g reachable).
  rewrite dominators_within_eq. pose proof (rounds_spec entry g reachable Hok Hlen Hreach (N.to_nat MAX_CFG_BLOCKS)
    _ 0%N (initial_inv entry g reachable Hok Hlen Hreach) (N.le_0_l _)) as H.
  destruct (dominator_rounds_total _ _ _ _ _ _ _ _) as [[D w]|e]; [|done]. destruct H as (HD & He & Hw).
  split_and!; [done|apply HD|]. intros u v Hu Hv.
  destruct (lookup_lt_is_Some_2 D u) as [row Hrow]; [by rewrite (di_length _ _ _ _ HD)|].
  pose proof (di_wf _ _ _ _ HD u Hu) as [Hrl _]. specialize (He u v). pose proof (di_unreachable _ _ _ _ HD u v Hu) as Hun.
  unfold dbit, dom_of in *. rewrite Hrow in *. cbn [default from_option id] in *.
  exists row, (bit_is_set_total row v). split_and!; [done|by apply bit_is_set_in; rewrite Hrl; apply words_enough|].
  rewrite <- flag_true. destruct (flag reachable u); [rewrite He by done; naive_solver|].
  rewrite Hun by done. naive_solver.
Qed.

Lemma dominators_rounds_exact :
  exists rounds doms, (1 <= rounds <= length g)%nat /\ forall limit, (length g <= limit)%nat ->
    dominators_within limit entry g reachable =
    if (N.of_nat rounds * round_work entry g reachable <=? MAX_DOMINATOR_WORD_OPERATIONS)%N
    then Ok (doms, N.of_nat rounds * round_work entry g reachable)%N else fail CfgResourceLimit.
Proof using Hok Hr.
  destruct reachable_flags as [Hlen Hreach]. assert (0 < length g)%nat as Hpos by (destruct Hok; lia).
  destruct (block_rounds_exact entry g reachable Hok Hlen Hreach (length g - 1) 1 initial) as (m & D & Hm & H);
    [by apply initial_inv|intros w _; by apply initial_confirmed|lia|].
  exists m, D. split; [lia|]. intros limit Hlimit. rewrite dominators_within_eq. apply H; [lia|done].
Qed.
End dominators.

(** C29: over the blocks that [compute_reachability] marks, the sets that
    [compute_dominators] returns are the dominance relation: [bit_is_set] finds
    every block in every set without an index out of range, and the bit of [v] in
    the set of [u] is set exactly when [u] is reachable and [v] lies on every path
    from the entry to [u]; the work stays within the limit, and the only failure
    is the resource limit. *)
Theorem compute_dominators_exact entry g reachable :
  graph_ok entry g -> compute_reachability entry g = Ok reachable ->
  match compute_dominators entry g reachable with
  | Ok (doms, work) =>
      (work <= MAX_DOMINATOR_WORD_OPERATIONS)%N /\ length doms = length g /\
      forall u v, (u < length g)%nat -> (v < length g)%nat ->
        exists row b, doms !! u = Some row /\ bit_is_set row v = Ok b /\
          (b = true <-> reachable !! u = Some true /\ Dominates entry g v u)
  | Err e => e = cfg_code CfgResourceLimit
  end.
Proof. apply compute_dominators_sound. Qed.

(** C32: the rounds end by themselves: on every function within
    [MAX_CFG_BLOCKS] there is a round, no later than there are blocks, after which
    nothing changes.  [compute_dominators] returns the sets of that round unless
    the words combined until then pass the limit on work; so does it with every
    limit on rounds from the number of blocks on, and the limit of the code is
    never the reason for a failure. *)
Theorem compute_dominators_terminates entry g reachable :
  graph_ok entry g -> compute_reachability entry g = Ok reachable -> (len g <= MAX_CFG_BLOCKS)%N ->
  exists rounds doms, (1 <= rounds <= length g)%nat /\
    compute_dominators entry g reachable =
      (if (N.of_nat rounds * round_work entry g reachable <=? MAX_DOMINATOR_WORD_OPERATIONS)%N
       then Ok (doms, N.of_nat rounds * round_work entry g reachable)%N else fail CfgResourceLimit) /\
    forall limit, (length g <= limit)%nat -> dominators_within limit entry g reachable = compute_dominators entry g reachable.
Proof.
  intros Hok Hr Hn. destruct (dominators_rounds_exact entry g reachable Hok Hr) as (rounds & doms & Hrounds & H).
  exists rounds, doms. assert (length g <= N.to_nat MAX_CFG_BLOCKS)%nat as Hlimit by (unfold len in Hn; lia).
  split_and!; [lia|lia|by apply (H _ Hlimit)|]. intros limit Hl. rewrite (H _ Hl). symmetry. by apply (H _ Hlimit).
Qed.

(** The diamond [0 -> 1, 2; 1, 2 -> 3; 3 -> 1] and an unreachable block. *)
Definition diamond : Graph := [[1; 2]; [3]; [3]; [1]; [0]]%nat.

Lemma diamond_ok : graph_ok 0 diamond.
Proof.
  split; [simpl; lia|]. intros u v H. apply Nat.ltb_lt. unfold edge, succs in H. revert H.
  do 5 (destruct u as [|u]; [intros H; cbn in H; set_unfold; intuition (subst; done)|]).
  intros H. cbn in H. by apply elem_of_nil in H.
Qed.

Theorem compute_dominators_exact_witness : Dominates 0 diamond 0 3 /\ ~ Dominates 0 diamond 1 3.
Proof.
  pose proof (compute_dominators_exact 0%nat diamond [true; true; true; true; false] diamond_ok) as H.
  assert (compute_dominators 0 diamond [true; true; true; true; false] = Ok ([[1]; [3]; [5]; [9]; [0]]%N, 16%N)) as E
    by (vm_compute; reflexivity).
  rewrite E in H. destruct H as (_ & _ & H); [vm_compute; reflexivity|]. split.
  - destruct (H 3%nat 0%nat) as (row & b & Hrow & Hb & Hd); [apply Nat.ltb_lt; reflexivity..|].
    injection Hrow as <-. vm_compute in Hb. injection Hb as <-. by apply Hd.
  - intros D. destruct (H 3%nat 1%nat) as (row & b & Hrow & Hb & Hd); [apply Nat.ltb_lt; reflexivity..|].
    injection Hrow as <-. vm_compute in Hb. injection Hb as <-. destruct Hd as [_ Hd]. discriminate Hd. by split.
Defined.

Theorem compute_dominators_terminates_witness :
  exists rounds doms, (1 <= rounds <= length diamond)%nat /\
    compute_dominators 0 diamond [true; true; true; true; false] =
      (if (N.of_nat rounds * round_work 0 diamond [true; true; true; true; false] <=? MAX_DOMINATOR_WORD_OPERATIONS)%N
       then Ok (doms, N.of_nat rounds * round_work 0 diamond [true; true; true; true; false])%N else fail CfgResourceLimit) /\
    forall limit, (length diamond <= limit)%nat ->
      dominators_within limit 0 diamond [true; true; true; true; false] =
      compute_dominators 0 diamond [true; true; true; true; false].
Proof.
  apply (compute_dominators_terminates 0%nat diamond); [apply diamond_ok|vm_compute; reflexivity|vm_compute; discriminate].
Defined.
