(* ===== verification/Cfg.v ===== *)
(** * The CFG validator (crates/sley-check/src/cfg.rs)

    [validate_function_graph] over the inventory of one function: the limits,
    the identity index, the ownership and ordinal checks of parameters and
    operations, the successor lists, reachability and dominance ([CfgGraph]),
    then every value use and terminator.

    Indexing a vector out of range or a [BTreeMap] without the key panics: [Panicked]
    is that outcome, kept apart from the returned errors, and
    [validate_never_panics] shows that no input reaches it.

    The machine at the end runs the blocks of a function on types: it is the
    meaning of the value-use rules, and [accepted_function_is_safe] says that
    an accepted function never reads a value that is not there or has another
    type than the terminator needs. *)

From S2P Require Import Prelude Ids BTree Ssmc Types TypeWalk CfgGraph CfgPlain CfgDominators.
From stdpp Require Import strings.

Definition MAX_CFG_EDGES : N := 16384.
Definition MAX_CFG_OPERATIONS : N := 1000000.
Definition MAX_CFG_VALUES : N := 1000000.
Definition MAX_CFG_USES : N := 262144.
Definition MAX_CFG_PARAMETERS : N := 65535.
Definition MAX_CFG_OPERATION_VALUES : N := 65535.

Definition CfgErrorCode_as_str (code : CfgErrorCode) : string :=
  match code with
  | CfgGraphDuplicateEntity => "GRAPH_DUPLICATE_ENTITY"
  | CfgGraphInventoryMismatch => "GRAPH_INVENTORY_MISMATCH"
  | CfgGraphOwnerMismatch => "GRAPH_OWNER_MISMATCH"
  | CfgGraphOrdinalMismatch => "GRAPH_ORDINAL_MISMATCH"
  | CfgGraphUnresolvedReference => "GRAPH_UNRESOLVED_REFERENCE"
  | CfgEntryInvalid => "CFG_ENTRY_INVALID"
  | CfgTargetInvalid => "CFG_TARGET_INVALID"
  | CfgTargetArguments => "CFG_TARGET_ARGUMENTS"
  | CfgReturnType => "CFG_RETURN_TYPE"
  | CfgBoolRequired => "CFG_BOOL_REQUIRED"
  | CfgSwitchType => "CFG_SWITCH_TYPE"
  | CfgSwitchCases => "CFG_SWITCH_CASES"
  | CfgSwitchPayload => "CFG_SWITCH_PAYLOAD"
  | CfgValueUnresolved => "CFG_VALUE_UNRESOLVED"
  | CfgResultIndex => "CFG_RESULT_INDEX"
  | CfgUseBeforeDefinition => "CFG_USE_BEFORE_DEFINITION"
  | CfgDominance => "CFG_DOMINANCE"
  | CfgReachability => "CFG_REACHABILITY"
  | CfgUnreachableValue => "CFG_UNREACHABLE_VALUE"
  | CfgTrapPayload => "CFG_TRAP_PAYLOAD"
  | CfgResourceLimit => "CFG_RESOURCE_LIMIT"
  end.

Definition CfgErrorCode_numeric (code : CfgErrorCode) : N :=
  match code with
  | CfgGraphDuplicateEntity => 22000
  | CfgGraphInventoryMismatch => 22001
  | CfgGraphOwnerMismatch => 22002
  | CfgGraphOrdinalMismatch => 22003
  | CfgGraphUnresolvedReference => 22004
  | CfgEntryInvalid => 22005
  | CfgTargetInvalid => 22006
  | CfgTargetArguments => 22007
  | CfgReturnType => 22008
  | CfgBoolRequired => 22009
  | CfgSwitchType => 22010
  | CfgSwitchCases => 22011
  | CfgSwitchPayload => 22012
  | CfgValueUnresolved => 22013
  | CfgResultIndex => 22014
  | CfgUseBeforeDefinition => 22015
  | CfgDominance => 22016
  | CfgReachability => 22017
  | CfgUnreachableValue => 22018
  | CfgTrapPayload => 22019
  | CfgResourceLimit => 22020
  end.

Definition checked_add_or (a b : N) : cfg_out N := ok_or (cfg_code CfgResourceLimit) (checked_add a b).

(** ** Limits *)

Definition terminator_use_count (terminator : Terminator) : cfg_out N :=
  match terminator with
  | TermReturn _ => Ok 1%N
  | TermBranch branch => Ok (len (te_arguments (br_edge branch)))
  | TermCondBranch branch =>
      count ← checked_add_or 1 (len (te_arguments (cbr_if_true branch)));
      checked_add_or count (len (te_arguments (cbr_if_false branch)))
  | TermVariantSwitch switch =>
      fold_res (fun count case => checked_add_or count (len (se_arguments (sc_edge case)))) 1%N (vs_cases switch)
  | TermTrap trap => Ok (match trap_payload trap with Some _ => 1 | None => 0 end)%N
  end.

Definition check_top_level_limits (function : FunctionGraph) (parameters : list ParameterDef)
    (blocks : list Block) (operations : list Operation) : cfg_out unit :=
  if (MAX_CFG_BLOCKS <? len (fg_blocks function))%N
     || (MAX_CFG_BLOCKS <? len blocks)%N
     || (MAX_CFG_PARAMETERS <? len (fg_parameters function))%N
     || (MAX_TYPE_ARGUMENTS <? len (fg_type_parameters function))%N
     || (MAX_CFG_OPERATIONS <? len operations)%N
  then fail CfgResourceLimit
  else
    '(values, uses) ← fold_res (fun '(values, uses) operation =>
        if (MAX_CFG_OPERATION_VALUES <? len (op_operands operation))%N
           || (MAX_CFG_OPERATION_VALUES <? len (op_result_types operation))%N
        then fail CfgResourceLimit
        else
          values ← checked_add_or values (len (op_result_types operation));
          uses ← checked_add_or uses (len (op_operands operation));
          Ok (values, uses)) (len parameters, 0%N) operations;
    uses ← fold_res (fun uses block =>
        count ← terminator_use_count (blk_terminator block);
        checked_add_or uses count) uses blocks;
    if (MAX_CFG_VALUES <? values)%N
       || (MAX_CFG_USES <? uses)%N
       || existsb (fun block => MAX_CFG_PARAMETERS <? len (blk_parameters block))%N blocks
    then fail CfgResourceLimit
    else Ok tt.

Definition validate_type_parameters (function : FunctionGraph) : cfg_out N :=
  for_each (fun '(index, parameter) =>
      if (tp_ordinal parameter =? index)%N then Ok tt else fail CfgGraphOrdinalMismatch)
    (enumerate (fg_type_parameters function)) ≫= fun _ =>
  if (len (fg_type_parameters function) <? 2 ^ 32)%N then Ok (len (fg_type_parameters function))
  else fail CfgResourceLimit.

Definition validate_sorted_unique (values : list EntityId) : cfg_out unit :=
  if strictly_sorted values then Ok tt else fail CfgGraphInventoryMismatch.

(** ** The identity index *)

Section index_unique.
Context {T : Type} (id : T -> EntityId).

(** One element: [all_ids] and [output] both reject a repeated identity. *)
Definition index_one (st : gmap N T * gset N) (value : T) : cfg_out (gmap N T * gset N) :=
  let '(output, all_ids) := st in
  if bool_decide (id value ∈ all_ids) || bool_decide (is_Some (output !! id value))
  then fail CfgGraphDuplicateEntity
  else Ok (<[id value := value]> output, {[id value]} ∪ all_ids).

Definition index_unique (values : list T) (all_ids : gset N) : cfg_out (gmap N T * gset N) :=
  fold_res index_one (∅, all_ids) values.
End index_unique.

Definition index_declared_ids (values : list EntityId) : cfg_out (gmap N N) :=
  fold_res (fun (output : gmap N N) '(index, id) =>
      match output !! id with
      | Some _ => fail CfgGraphDuplicateEntity
      | None => Ok (<[id := index]> output)
      end) ∅ (enumerate values).

(** ** The inventories *)

(** [expected.len() != map.len() || expected.iter().any(|id| !map.contains_key(id))] *)
Definition inventory_differs {A} (expected : gset N) (m : gmap N A) : bool :=
  negb (bool_decide (size expected = size m))
  || existsb (fun id => negb (bool_decide (is_Some (m !! id)))) (btree_set_iter expected).

Section build.
Context (types : Definitions) (function : FunctionGraph).

(** One declared parameter: found, owned, in its place, with a type. *)
Definition check_parameter (parameters : gmap N ParameterDef) (parameter_count : N)
    (owner : EntityId) (role : ParameterRole) (expected : gset N) (id_ordinal : N * N) : cfg_out (gset N) :=
  let '(id, ordinal) := id_ordinal in
  let expected := {[id]} ∪ expected in
  parameter ← ok_or (cfg_code CfgGraphUnresolvedReference) (parameters !! id);
  if negb (prm_owner parameter =? owner)%N || negb (bool_decide (prm_role parameter = role))
  then fail CfgGraphOwnerMismatch
  else if negb (prm_ordinal parameter =? ordinal)%N then fail CfgGraphOrdinalMismatch
  else typed (check_type types (prm_value_type parameter) parameter_count) ≫= fun _ => Ok expected.

Definition validate_parameter_inventory (parameters : gmap N ParameterDef) (blocks : gmap N Block)
    (function_parameters : gmap N N) (parameter_count : N) : cfg_out unit :=
  expected ← fold_res (check_parameter parameters parameter_count (fg_entity_id function) PRFunction)
    (∅ : gset N) (btree_iter function_parameters);
  expected ← fold_res (fun expected block_id =>
      block ← index blocks block_id;
      if negb (blk_function block =? fg_entity_id function)%N then fail CfgGraphOwnerMismatch
      else
        declared ← index_declared_ids (blk_parameters block);
        fold_res (check_parameter parameters parameter_count (blk_entity_id block) PRBlock)
          expected (btree_iter declared))
    expected (fg_blocks function);
  if inventory_differs expected parameters then fail CfgGraphInventoryMismatch else Ok tt.

Definition check_operation (operations : gmap N Operation) (parameter_count : N) (block : EntityId)
    (expected : gset N) (id_ordinal : N * N) : cfg_out (gset N) :=
  let '(id, ordinal) := id_ordinal in
  let expected := {[id]} ∪ expected in
  operation ← ok_or (cfg_code CfgGraphUnresolvedReference) (operations !! id);
  if negb (op_block operation =? block)%N then fail CfgGraphOwnerMismatch
  else if negb (op_ordinal operation =? ordinal)%N then fail CfgGraphOrdinalMismatch
  else
    for_each (fun result => typed (check_type types result parameter_count)) (op_result_types operation)
    ≫= fun _ => Ok expected.

Definition validate_operation_inventory (blocks : gmap N Block) (operations : gmap N Operation)
    (parameter_count : N) : cfg_out unit :=
  expected ← fold_res (fun expected block_id =>
      block ← index blocks block_id;
      declared ← index_declared_ids (blk_operations block);
      fold_res (check_operation operations parameter_count (blk_entity_id block))
        expected (btree_iter declared))
    (∅ : gset N) (fg_blocks function);
  if inventory_differs expected operations then fail CfgGraphInventoryMismatch else Ok tt.

(** ** Successors *)

Definition terminator_targets (terminator : Terminator) : list EntityId :=
  match terminator with
  | TermReturn _ | TermTrap _ => []
  | TermBranch branch => [te_target (br_edge branch)]
  | TermCondBranch branch => [te_target (cbr_if_true branch); te_target (cbr_if_false branch)]
  | TermVariantSwitch switch => (fun case => se_target (sc_edge case)) <$> vs_cases switch
  end.

Definition add_block_edges (blocks : gmap N Block) (indices : gmap N N)
    (st : Graph * N) (block_id : EntityId) : cfg_out (Graph * N) :=
  let '(successors, edges) := st in
  source ← index indices block_id;
  block ← index blocks block_id;
  let targets := terminator_targets (blk_terminator block) in
  edges ← checked_add_or edges (len targets);
  if (MAX_CFG_EDGES <? edges)%N then fail CfgResourceLimit
  else
    successors ← fold_res (fun successors target =>
        target ← ok_or (cfg_code CfgTargetInvalid) (indices !! target);
        list ← get successors (N.to_nat source);
        put successors (N.to_nat source) (list ++ [N.to_nat target])) successors targets;
    Ok (successors, edges).

Definition build_successors (blocks : gmap N Block) (indices : gmap N N) : cfg_out (Graph * N) :=
  entry ← index blocks (fg_entry_block function);
  if negb (bool_decide (blk_reachability entry = RCRequired)) then fail CfgEntryInvalid
  else fold_res (add_block_edges blocks indices)
         (replicate (length (fg_blocks function)) [], 0%N) (fg_blocks function).

Definition validate_reachability (blocks : gmap N Block) (reachable : list bool) : cfg_out unit :=
  for_each (fun '(id, is_reachable) =>
      block ← index blocks id;
      let declared := blk_reachability block in
      if (is_reachable && negb (bool_decide (declared = RCRequired)))
         || (negb is_reachable && negb (bool_decide (declared = RCExplicitlyUnreachable)))
      then fail CfgReachability else Ok tt)
    (zip (fg_blocks function) reachable).
End build.

Record GraphIndex : Type := mkGraphIndex {
  gi_types : Definitions;
  gi_function : FunctionGraph;
  gi_parameter_count : N;
  gi_parameters : gmap N ParameterDef;
  gi_blocks : gmap N Block;
  gi_operations : gmap N Operation;
  gi_block_indices : gmap N N;
  gi_reachable : list bool;
  gi_dominators : list (list N);
  gi_dominator_work : N;
  gi_edges : N
}.

(** [GraphIndex::build] *)
Definition GraphIndex_build (types : Definitions) (function : FunctionGraph) (parameters : list ParameterDef)
    (blocks : list Block) (operations : list Operation) : cfg_out GraphIndex :=
  check_top_level_limits function parameters blocks operations ≫= fun _ =>
  parameter_count ← validate_type_parameters function;
  validate_sorted_unique (fg_effects function) ≫= fun _ =>
  validate_sorted_unique (fg_contracts function) ≫= fun _ =>
  '(parameters, all_ids) ← index_unique prm_entity_id parameters {[fg_entity_id function]};
  '(blocks, all_ids) ← index_unique blk_entity_id blocks all_ids;
  '(operations, _) ← index_unique op_entity_id operations all_ids;
  block_indices ← index_declared_ids (fg_blocks function);
  if negb (bool_decide (size block_indices = size blocks))
     || existsb (fun id => negb (bool_decide (is_Some (blocks !! id)))) (btree_keys block_indices)
  then fail CfgGraphInventoryMismatch
  else
    entry_index ← ok_or (cfg_code CfgEntryInvalid) (block_indices !! fg_entry_block function);
    entry ← index blocks (fg_entry_block function);
    if negb (blk_function entry =? fg_entity_id function)%N then fail CfgEntryInvalid
    else
      expected_function_parameters ← index_declared_ids (fg_parameters function);
      validate_parameter_inventory types function parameters blocks expected_function_parameters
        parameter_count ≫= fun _ =>
      validate_operation_inventory types function blocks operations parameter_count ≫= fun _ =>
      typed (check_type types (fg_result_type function) parameter_count) ≫= fun _ =>
      '(successors, edges) ← build_successors function blocks block_indices;
      reachable ← compute_reachability (N.to_nat entry_index) successors;
      validate_reachability function blocks reachable ≫= fun _ =>
      '(dominators, dominator_work) ←
        compute_dominators (N.to_nat entry_index) successors reachable;
      Ok (mkGraphIndex types function parameter_count parameters blocks operations block_indices
            reachable dominators dominator_work edges).

(** ** Value uses *)

Fixpoint contains_type_parameter (value : TypeExpr) : bool :=
  match value with
  | TTypeParameter _ => true
  | TTuple values => existsb contains_type_parameter values
  | TNamed _ arguments => existsb contains_type_parameter arguments
  | TVector value | TOption value | TLocalCell value => contains_type_parameter value
  | TOrderedMap key value => contains_type_parameter key || contains_type_parameter value
  | TResult ok error => contains_type_parameter ok || contains_type_parameter error
  | TFunctionRef parameters result _ =>
      existsb contains_type_parameter parameters || contains_type_parameter result
  | _ => false
  end.

Section uses.
Variable gi : GraphIndex.

Definition resolve_value (value : ValueRef) (use_block : EntityId) (use_ordinal : option N) : cfg_out TypeExpr :=
  use_index ← index (gi_block_indices gi) use_block;
  match value with
  | VRParameter id =>
      parameter ← ok_or (cfg_code CfgValueUnresolved) (gi_parameters gi !! id);
      match prm_role parameter with
      | PRFunction => Ok (prm_value_type parameter)
      | PRBlock =>
          if (prm_owner parameter =? use_block)%N then Ok (prm_value_type parameter)
          else
            use_reachable ← get (gi_reachable gi) (N.to_nat use_index);
            if negb use_reachable then fail CfgUnreachableValue else fail CfgDominance
      end
  | VROperationResult result =>
      operation ← ok_or (cfg_code CfgValueUnresolved) (gi_operations gi !! orr_operation result);
      result_type ← ok_or (cfg_code CfgResultIndex)
        (op_result_types operation !! N.to_nat (orr_result_index result));
      if (op_block operation =? use_block)%N then
        if match use_ordinal with Some ordinal => (ordinal <=? op_ordinal operation)%N | None => false end
        then fail CfgUseBeforeDefinition
        else Ok result_type
      else
        use_reachable ← get (gi_reachable gi) (N.to_nat use_index);
        if negb use_reachable then fail CfgUnreachableValue
        else
          definition_index ← index (gi_block_indices gi) (op_block operation);
          definition_reachable ← get (gi_reachable gi) (N.to_nat definition_index);
          if negb definition_reachable then fail CfgDominance
          else
            dominators ← get (gi_dominators gi) (N.to_nat use_index);
            is_dominator ← bit_is_set dominators (N.to_nat definition_index);
            if negb is_dominator then fail CfgDominance else Ok result_type
  end.

Definition CaseKey_compare (a b : CaseKey) : comparison :=
  match a, b with
  | KeyMember x, KeyMember y => (x ?= y)%N
  | KeyMember _, KeyBuiltin _ => Lt
  | KeyBuiltin _, KeyMember _ => Gt
  | KeyBuiltin x, KeyBuiltin y => (BuiltinCase_tag x ?= BuiltinCase_tag y)%N
  end.

Definition expected_switch_cases (selector : TypeExpr) : cfg_out (list (CaseKey * option TypeExpr)) :=
  cases ←
    match selector with
    | TNamed id arguments =>
        def ← typed (definition (gi_types gi) id);
        match td_form def with
        | FormVariant variants =>
            map_res (fun variant =>
                payload ← match vc_payload_type variant with
                          | Some payload =>
                              Some <$> typed (instantiate_in_scope (gi_types gi) payload arguments (gi_parameter_count gi))
                          | None => Ok None
                          end;
                Ok (KeyMember (vc_member_id variant), payload)) variants
        | _ => fail CfgSwitchType
        end
    | TOption element => Ok [(KeyBuiltin BCNone, None); (KeyBuiltin BCSome, Some element)]
    | TResult ok error => Ok [(KeyBuiltin BCOk, Some ok); (KeyBuiltin BCErr, Some error)]
    | _ => fail CfgSwitchType
    end;
  Ok (sort_by (fun x y => CaseKey_compare x.1 y.1) cases).

(** [cases.windows(2).all(|pair| pair[0].case_key < pair[1].case_key)] *)
Fixpoint keys_increasing (keys : list CaseKey) : bool :=
  match keys with
  | x :: (y :: _) as keys' =>
      match CaseKey_compare x y with Lt => keys_increasing keys' | _ => false end
  | _ => true
  end.

(** The target of an edge: it exists, belongs to the function and takes
    [count] arguments. *)
Definition edge_target (target : EntityId) (count : N) : cfg_out Block :=
  target ← ok_or (cfg_code CfgTargetInvalid) (gi_blocks gi !! target);
  if negb (blk_function target =? fg_entity_id (gi_function gi))%N then fail CfgTargetInvalid
  else if negb (count =? len (blk_parameters target))%N then fail CfgTargetArguments
  else Ok target.

Definition validate_target_edge (source : Block) (edge : TargetEdge) : cfg_out unit :=
  target ← edge_target (te_target edge) (len (te_arguments edge));
  for_each (fun '(argument, parameter_id) =>
      actual ← resolve_value argument (blk_entity_id source) None;
      expected ← index (gi_parameters gi) parameter_id;
      if decide (actual = prm_value_type expected) then Ok tt else fail CfgTargetArguments)
    (zip (te_arguments edge) (blk_parameters target)).

Definition validate_switch (source : Block) (switch : VariantSwitchTerminator) : cfg_out unit :=
  selector ← resolve_value (vs_value switch) (blk_entity_id source) None;
  expected ← expected_switch_cases selector;
  if negb (len (vs_cases switch) =? len expected)%N
     || negb (keys_increasing (sc_case_key <$> vs_cases switch))
     || negb (bool_decide (sc_case_key <$> vs_cases switch = expected.*1))
  then fail CfgSwitchCases
  else
    for_each (fun '(case, (_, payload_type)) =>
        let edge := sc_edge case in
        target ← edge_target (se_target edge) (len (se_arguments edge));
        for_each (fun '(argument, parameter_id) =>
            actual ← match argument with
                     | SAValue value => resolve_value value (blk_entity_id source) None
                     | SACasePayload => ok_or (cfg_code CfgSwitchPayload) payload_type
                     end;
            expected ← index (gi_parameters gi) parameter_id;
            if decide (actual = prm_value_type expected) then Ok tt else fail CfgTargetArguments)
          (zip (se_arguments edge) (blk_parameters target)))
      (zip (vs_cases switch) expected).

Definition validate_terminator (block : Block) : cfg_out unit :=
  match blk_terminator block with
  | TermReturn value =>
      actual ← resolve_value (ret_value value) (blk_entity_id block) None;
      if decide (actual = fg_result_type (gi_function gi)) then Ok tt else fail CfgReturnType
  | TermBranch branch => validate_target_edge block (br_edge branch)
  | TermCondBranch branch =>
      condition ← resolve_value (cbr_condition branch) (blk_entity_id block) None;
      if decide (condition = TBool) then
        validate_target_edge block (cbr_if_true branch) ≫= fun _ =>
        validate_target_edge block (cbr_if_false branch)
      else fail CfgBoolRequired
  | TermVariantSwitch switch => validate_switch block switch
  | TermTrap trap =>
      match trap_payload trap with
      | Some payload =>
          payload ← resolve_value payload (blk_entity_id block) None;
          if contains_type_parameter payload then fail CfgTrapPayload
          else
            t ← typed (traits (gi_types gi) payload);
            if persistable t then Ok tt else fail CfgTrapPayload
      | None => Ok tt
      end
  end.

Definition validate_values_and_terminators : cfg_out unit :=
  for_each (fun block_id =>
      block ← index (gi_blocks gi) block_id;
      for_each (fun operation_id =>
          operation ← index (gi_operations gi) operation_id;
          for_each (fun operand =>
              resolve_value operand block_id (Some (op_ordinal operation)) ≫= fun _ => Ok tt)
            (op_operands operation)) (blk_operations block)) (fg_blocks (gi_function gi)) ≫= fun _ =>
  for_each (fun block_id =>
      block ← index (gi_blocks gi) block_id;
      validate_terminator block) (fg_blocks (gi_function gi)).
End uses.

Record CfgReport : Type := mkCfgReport {
  reachable_blocks : list EntityId;
  report_edges : N;
  dominator_word_operations : N
}.

Definition validate_function_graph (types : Definitions) (function : FunctionGraph)
    (parameters : list ParameterDef) (blocks : list Block) (operations : list Operation) : cfg_out CfgReport :=
  graph ← GraphIndex_build types function parameters blocks operations;
  validate_values_and_terminators graph ≫= fun _ =>
  let reachable_blocks :=
    omap (fun '(id, reachable) => if (reachable : bool) then Some id else None)
      (zip (fg_blocks function) (gi_reachable graph)) in
  if (gi_edges graph <? 2 ^ 32)%N
  then Ok (mkCfgReport reachable_blocks (gi_edges graph) (gi_dominator_work graph))
  else fail CfgResourceLimit.

Lemma index_Ok {A} (m : gmap N A) k x : index m k = Ok x <-> m !! k = Some x.
Proof. unfold index. destruct (m !! k); cbn; split; congruence. Qed.

(** ** No panics: the pieces *)

Abbreviation no_panic := (avoids Panicked).

Lemma no_panic_fail {A} code : no_panic (@fail A code).
Proof. done. Qed.
Lemma no_panic_typed {A} (m : type_result A) : no_panic (typed m).
Proof. by destruct m. Qed.
Lemma no_panic_code {A} code (o : option A) : no_panic (ok_or (cfg_code code) o).
Proof. by destruct o. Qed.
Lemma no_panic_index {A} (m : gmap N A) k : is_Some (m !! k) -> no_panic (index m k).
Proof. intros [x Hx]. unfold index. by rewrite Hx. Qed.
Lemma no_panic_checked a b : no_panic (checked_add_or a b).
Proof. apply no_panic_code. Qed.

#[export] Hint Resolve no_panic_fail no_panic_typed no_panic_code no_panic_checked : panics.

Lemma limits_no_panic function parameters blocks operations :
  no_panic (check_top_level_limits function parameters blocks operations).
Proof.
  unfold check_top_level_limits. apply avoids_if; [no_panic|].
  apply avoids_bind; [no_panic|]. intros [values uses] _. apply avoids_bind; [|no_panic].
  apply avoids_fold. intros block u _. apply avoids_bind; [|no_panic].
  unfold terminator_use_count. destruct (blk_terminator block); no_panic.
Qed.

Lemma index_unique_no_panic {T} (id : T -> EntityId) values all_ids : no_panic (index_unique id values all_ids).
Proof. unfold index_unique. apply avoids_fold. intros x [output ids] _. unfold index_one. no_panic. Qed.

Lemma index_declared_no_panic values : no_panic (index_declared_ids values).
Proof. unfold index_declared_ids. apply avoids_fold. intros [i id] m _. no_panic. Qed.

#[export] Hint Resolve index_unique_no_panic index_declared_no_panic : panics.

(** ** The identity index *)

Lemma index_unique_spec {T} (id : T -> EntityId) values all_ids m all_ids' :
  index_unique id values all_ids = Ok (m, all_ids') ->
  (forall k x, m !! k = Some x <-> x ∈ values /\ id x = k) /\ all_ids ⊆ all_ids' /\
  (forall k, is_Some (m !! k) -> k ∈ all_ids' /\ k ∉ all_ids).
Proof.
  unfold index_unique. intros H.
  enough (forall output all_ids m all_ids', fold_res (index_one id) (output, all_ids) values = Ok (m, all_ids') ->
    (forall k x, m !! k = Some x <-> output !! k = Some x \/ x ∈ values /\ id x = k) /\ all_ids ⊆ all_ids' /\
    (forall k, is_Some (m !! k) -> is_Some (output !! k) \/ k ∈ all_ids' /\ k ∉ all_ids)) as Hgen.
  { apply Hgen in H as (H1 & H2 & H3). split_and!; [|done|].
    - intros k x. rewrite H1, lookup_empty. naive_solver.
    - intros k Hk. destruct (H3 k Hk) as [[? Hk']|?]; [by rewrite lookup_empty in Hk'|done]. }
  clear. induction values as [|v values IH]; intros output all_ids m all_ids' H; cbn [fold_res] in H.
  - injection H as <- <-. split_and!; [|done|by left].
    intros k x. rewrite elem_of_nil. tauto.
  - destruct (index_one id (output, all_ids) v) as [st|] eqn:E; [|done]. unfold index_one in E.
    destruct (bool_decide (id v ∈ all_ids)) eqn:E1; [done|]. apply bool_decide_eq_false in E1.
    destruct (bool_decide (is_Some (output !! id v))) eqn:E2; [done|]. apply bool_decide_eq_false in E2.
    cbn [orb] in E. injection E as <-.
    cbn [mbind result_bind] in H. apply IH in H as (H1 & H2 & H3). split_and!.
    + intros k x. rewrite H1, elem_of_cons. rewrite lookup_insert_Some. split.
      * intros [[[? ?]|[? ?]]|[? ?]]; subst; auto.
      * intros [Hk|[[->|?] ?]]; [|by left; left|by right].
        destruct (decide (id v = k)) as [<-|]; [by destruct E2; exists x|]. left. by right.
    + set_solver.
    + intros k Hk. destruct (H3 k Hk) as [Hi|[Hi Hn]]; [|right; set_solver].
      destruct Hi as [x Hi]. apply lookup_insert_Some in Hi as [[<- _]|[_ Hi]]; [|by left].
      right. split; [|done]. apply H2. set_solver.
Qed.

Lemma index_declared_spec values m :
  index_declared_ids values = Ok m -> forall id i, m !! id = Some i <-> values !! N.to_nat i = Some id.
Proof.
  unfold index_declared_ids, enumerate. intros H.
  enough (forall k (output : gmap N N), fold_res (fun (output : gmap N N) '(index, id) =>
      match output !! id with
      | Some _ => fail CfgGraphDuplicateEntity
      | None => Ok (<[id := index]> output)
      end) output (enumerate_from k values) = Ok m ->
    forall id i, m !! id = Some i <->
      output !! id = Some i \/ (k <= i)%N /\ values !! N.to_nat (i - k) = Some id) as Hgen.
  { intros id i. rewrite (Hgen _ _ H), lookup_empty, N.sub_0_r. split; [|intros ?; right; split; [lia|done]].
    intros [?|[_ ?]]; done. }
  clear H. induction values as [|v values IH]; intros k output H id i; cbn [enumerate_from fold_res] in H.
  - injection H as ->. rewrite lookup_nil. split; [by left|]. intros [?|[_ ?]]; done.
  - destruct (output !! v) as [?|] eqn:Hv; [done|]. cbn [mbind result_bind] in H. rewrite (IH _ _ H), lookup_insert_Some.
    split.
    + intros [[[<- <-]|[? ?]]|[? Hl]]; [right; split; [lia|by rewrite N.sub_diag]|by left|].
      right. split; [lia|]. replace (N.to_nat (i - k)) with (S (N.to_nat (i - (k + 1)))) by lia. done.
    + intros [Ho|[Hk Hl]].
      * left. right. split; [|done]. intros ->. congruence.
      * destruct (decide (i = k)) as [->|Hne].
        -- rewrite N.sub_diag in Hl. injection Hl as ->. left. by left.
        -- replace (N.to_nat (i - k)) with (S (N.to_nat (i - (k + 1)))) in Hl by lia.
           right. split; [lia|done].
Qed.

(** ** The inventories: what the checks establish *)

Lemma inventory_differs_spec {A} (expected : gset N) (m : gmap N A) :
  inventory_differs expected m = false -> forall id, is_Some (m !! id) <-> id ∈ expected.
Proof.
  unfold inventory_differs. rewrite orb_false_iff, negb_false_iff, bool_decide_eq_true.
  intros [Hsize Hex] id. rewrite <- elem_of_dom.
  enough (expected = dom m) as -> by done.
  apply set_subseteq_size_eq; [|by rewrite size_dom, Hsize].
  intros x Hx. apply elem_of_dom. destruct (decide (is_Some (m !! x))) as [|Hn]; [done|]. exfalso.
  assert (existsb (fun id => negb (bool_decide (is_Some (m !! id)))) (btree_set_iter expected) = true) as E; [|congruence].
  apply existsb_exists. exists x. split; [by apply list_elem_of_In, elem_of_btree_set_iter|].
  by rewrite bool_decide_false.
Qed.

(** A declared parameter with its owner, role and position. *)
Definition param_at (types : Definitions) (pc : N) (parameters : gmap N ParameterDef) (owner : EntityId)
    (role : ParameterRole) (id ordinal : N) : Prop :=
  exists p, parameters !! id = Some p /\ prm_owner p = owner /\ prm_role p = role /\ prm_ordinal p = ordinal /\
    check_type types (prm_value_type p) pc = Ok tt.

Definition operation_at (types : Definitions) (pc : N) (operations : gmap N Operation) (block : EntityId)
    (id ordinal : N) : Prop :=
  exists o, operations !! id = Some o /\ op_block o = block /\ op_ordinal o = ordinal /\
    Forall (fun t => check_type types t pc = Ok tt) (op_result_types o).

Lemma typed_Ok {A} (m : type_result A) a : typed m = Ok a -> m = Ok a.
Proof. by destruct m; intros [= ->]. Qed.

Section inventories.
Context (types : Definitions) (function : FunctionGraph) (pc : N).
Context (parameters : gmap N ParameterDef) (blocks : gmap N Block) (operations : gmap N Operation).

Lemma check_parameters_spec owner role l expected expected' :
  fold_res (check_parameter types parameters pc owner role) expected l = Ok expected' ->
  (forall id ordinal, (id, ordinal) ∈ l -> param_at types pc parameters owner role id ordinal) /\
  (forall id, id ∈ expected' <-> id ∈ expected \/ id ∈ l.*1).
Proof using Type.
  revert expected. induction l as [|[id ordinal] l IH]; intros expected H; cbn [fold_res] in H.
  - injection H as <-. split; [by intros ? ? ?%elem_of_nil|]. intros id. cbn. rewrite elem_of_nil. tauto.
  - destruct (check_parameter _ _ _ _ _ _ _) as [e|] eqn:E; [|done]. cbn [mbind result_bind] in H.
    apply IH in H as [H1 H2]. clear IH. unfold check_parameter in E.
    destruct (parameters !! id) as [p|] eqn:Hp; [|done]. cbn [ok_or mbind result_bind] in E.
    destruct (N.eqb_spec (prm_owner p) owner) as [Ho|]; [|done].
    destruct (decide (prm_role p = role)) as [Hr|Hr]; [rewrite bool_decide_true in E by done|by rewrite bool_decide_false in E by done].
    cbn [negb orb] in E. destruct (N.eqb_spec (prm_ordinal p) ordinal) as [Hord|]; [|done]. cbn [negb] in E.
    destruct (typed _) as [[]|] eqn:Ht; [|done]. apply typed_Ok in Ht. injection E as <-.
    split.
    + intros id' ordinal' [[= -> ->]|Hin]%elem_of_cons; [|by apply H1]. exists p. by split_and!.
    + intros id'. rewrite H2. cbn. set_solver.
Qed.

Lemma check_operations_spec block l expected expected' :
  fold_res (check_operation types operations pc block) expected l = Ok expected' ->
  (forall id ordinal, (id, ordinal) ∈ l -> operation_at types pc operations block id ordinal) /\
  (forall id, id ∈ expected' <-> id ∈ expected \/ id ∈ l.*1).
Proof using Type.
  revert expected. induction l as [|[id ordinal] l IH]; intros expected H; cbn [fold_res] in H.
  - injection H as <-. split; [by intros ? ? ?%elem_of_nil|]. intros id. cbn. rewrite elem_of_nil. tauto.
  - destruct (check_operation _ _ _ _ _ _) as [e|] eqn:E; [|done]. cbn [mbind result_bind] in H.
    apply IH in H as [H1 H2]. clear IH. unfold check_operation in E.
    destruct (operations !! id) as [o|] eqn:Hp; [|done]. cbn [ok_or mbind result_bind] in E.
    destruct (N.eqb_spec (op_block o) block) as [Ho|]; [|done]. cbn [negb] in E.
    destruct (N.eqb_spec (op_ordinal o) ordinal) as [Hord|]; [|done]. cbn [negb] in E.
    destruct (for_each _ _) as [[]|] eqn:Ht; [|done]. injection E as <-. split.
    + intros id' ordinal' [[= -> ->]|Hin]%elem_of_cons; [|by apply H1]. exists o. split_and!; try done.
      rewrite for_each_Ok in Ht. eapply Forall_impl; [exact Ht|]. intros t Ht'. by apply typed_Ok.
    + intros id'. rewrite H2. cbn. set_solver.
Qed.

(** The positions of a declared list. *)
Lemma declared_iter values m id i :
  index_declared_ids values = Ok m -> (id, i) ∈ btree_iter m <-> values !! N.to_nat i = Some id.
Proof using Type. intros H. by rewrite elem_of_btree_iter, (index_declared_spec _ _ H). Qed.

Lemma declared_keys values m id :
  index_declared_ids values = Ok m -> id ∈ (btree_iter m).*1 <-> id ∈ values.
Proof using Type.
  intros H. fold (btree_keys m). rewrite elem_of_btree_keys. split.
  - intros [i Hi]. apply (index_declared_spec _ _ H) in Hi. by eapply list_elem_of_lookup_2.
  - intros [i Hi]%list_elem_of_lookup_1. exists (N.of_nat i). apply (index_declared_spec _ _ H). by rewrite Nat2N.id.
Qed.

Lemma parameter_inventory_spec fps :
  index_declared_ids (fg_parameters function) = Ok fps ->
  validate_parameter_inventory types function parameters blocks fps pc = Ok tt ->
  (forall j id, fg_parameters function !! j = Some id ->
     param_at types pc parameters (fg_entity_id function) PRFunction id (N.of_nat j)) /\
  (forall bid, bid ∈ fg_blocks function -> exists b, blocks !! bid = Some b /\
     blk_function b = fg_entity_id function /\
     forall j id, blk_parameters b !! j = Some id ->
       param_at types pc parameters (blk_entity_id b) PRBlock id (N.of_nat j)) /\
  (forall id, is_Some (parameters !! id) -> id ∈ fg_parameters function \/
     exists bid b, bid ∈ fg_blocks function /\ blocks !! bid = Some b /\ id ∈ blk_parameters b).
Proof using Type.
  intros Hfps H. unfold validate_parameter_inventory in H.
  destruct (fold_res _ ∅ _) as [e|] eqn:E; [|done]. cbn [mbind result_bind] in H.
  apply check_parameters_spec in E as [Hf He].
  destruct (fold_res _ e _) as [e'|] eqn:E'; [|done]. cbn [mbind result_bind] in H.
  destruct (inventory_differs e' parameters) eqn:Hd; [done|]. pose proof (inventory_differs_spec _ _ Hd) as Hd'. clear H Hd.
  assert (forall j id, fg_parameters function !! j = Some id ->
     param_at types pc parameters (fg_entity_id function) PRFunction id (N.of_nat j)) as H1.
  { intros j id Hj. apply Hf. apply (declared_iter _ _ _ _ Hfps). by rewrite Nat2N.id. }
  split; [done|]. setoid_rewrite Hd'.
  assert (forall id, id ∈ e <-> id ∈ fg_parameters function) as He'.
  { intros id. rewrite He, (declared_keys _ _ _ Hfps). set_solver. }
  clear Hfps H1 Hf He Hd'. revert e He' E'. generalize (fg_blocks function). intros l e He.
  intros E. enough ((forall bid, bid ∈ l -> exists b, blocks !! bid = Some b /\
     blk_function b = fg_entity_id function /\ (forall j id, blk_parameters b !! j = Some id ->
       param_at types pc parameters (blk_entity_id b) PRBlock id (N.of_nat j))) /\
    (forall id, id ∈ e' -> id ∈ e \/ exists bid b, bid ∈ l /\ blocks !! bid = Some b /\ id ∈ blk_parameters b)) as [G1 G2].
  { split; [done|]. intros id Hid%G2. by rewrite He in Hid. }
  clear He. revert e E. induction l as [|bid l IH]; intros e E; cbn [fold_res] in E.
  - injection E as <-. split; [by intros ? ?%elem_of_nil|]. by left.
  - destruct (index blocks bid) as [b|] eqn:Hb; [apply index_Ok in Hb|done]. cbn [mbind result_bind] in E.
    destruct (N.eqb_spec (blk_function b) (fg_entity_id function)) as [Hfn|]; [|done]. cbn [negb] in E.
    destruct (index_declared_ids (blk_parameters b)) as [declared|] eqn:Hdec; [|done]. cbn [mbind result_bind] in E.
    destruct (fold_res (check_parameter _ _ _ _ _) _ _) as [e1|] eqn:E1; [|done]. cbn [mbind result_bind] in E.
    apply check_parameters_spec in E1 as [Hp He1]. apply IH in E as [G1 G2]. split.
    + intros bid' [->|Hin]%elem_of_cons; [|by apply G1]. exists b. split_and!; [done|done|].
      intros j id Hj. apply Hp. apply (declared_iter _ _ _ _ Hdec). by rewrite Nat2N.id.
    + intros id Hid. apply G2 in Hid as [Hid|(bid' & b' & ? & ? & ?)].
      * apply He1 in Hid as [?|Hid]; [by left|]. right. exists bid, b. split_and!; [by left|done|].
        by apply (declared_keys _ _ _ Hdec).
      * right. exists bid', b'. split_and!; [by right|done|done].
Qed.

Lemma operation_inventory_spec :
  validate_operation_inventory types function blocks operations pc = Ok tt ->
  (forall bid b, bid ∈ fg_blocks function -> blocks !! bid = Some b ->
     forall j id, blk_operations b !! j = Some id ->
       operation_at types pc operations (blk_entity_id b) id (N.of_nat j)) /\
  (forall id, is_Some (operations !! id) ->
     exists bid b, bid ∈ fg_blocks function /\ blocks !! bid = Some b /\ id ∈ blk_operations b).
Proof using Type.
  intros H. unfold validate_operation_inventory in H.
  destruct (fold_res _ ∅ _) as [e'|] eqn:E; [|done]. cbn [mbind result_bind] in H.
  destruct (inventory_differs e' operations) eqn:Hd; [done|]. pose proof (inventory_differs_spec _ _ Hd) as Hd'. clear H Hd.
  setoid_rewrite Hd'. clear Hd'. revert E. generalize (fg_blocks function). intros l E.
  enough (forall e, fold_res (fun expected block_id =>
      block ← index blocks block_id;
      declared ← index_declared_ids (blk_operations block);
      fold_res (check_operation types operations pc (blk_entity_id block)) expected (btree_iter declared)) e l = Ok e' ->
    (forall bid b, bid ∈ l -> blocks !! bid = Some b ->
     forall j id, blk_operations b !! j = Some id ->
       operation_at types pc operations (blk_entity_id b) id (N.of_nat j)) /\
    (forall id, id ∈ e' -> id ∈ e \/ exists bid b, bid ∈ l /\ blocks !! bid = Some b /\ id ∈ blk_operations b)) as G.
  { apply G in E as [G1 G2]. split; [done|]. intros id [Hid|?]%G2; [|done]. set_solver. }
  clear E. induction l as [|bid l IH]; intros e E; cbn [fold_res] in E.
  - injection E as <-. split; [by intros ? ? ?%elem_of_nil|]. by left.
  - destruct (index blocks bid) as [b|] eqn:Hb; [apply index_Ok in Hb|done]. cbn [mbind result_bind] in E.
    destruct (index_declared_ids (blk_operations b)) as [declared|] eqn:Hdec; [|done]. cbn [mbind result_bind] in E.
    destruct (fold_res (check_operation _ _ _ _) _ _) as [e1|] eqn:E1; [|done]. cbn [mbind result_bind] in E.
    apply check_operations_spec in E1 as [Hp He1]. apply IH in E as [G1 G2]. split.
    + intros bid' b' [->|Hin]%elem_of_cons Hb'; [|by eapply G1]. rewrite Hb in Hb'. injection Hb' as <-.
      intros j id Hj. apply Hp. apply (declared_iter _ _ _ _ Hdec). by rewrite Nat2N.id.
    + intros id Hid. apply G2 in Hid as [Hid|(bid' & b' & ? & ? & ?)].
      * apply He1 in Hid as [?|Hid]; [by left|]. right. exists bid, b. split_and!; [by left|done|].
        by apply (declared_keys _ _ _ Hdec).
      * right. exists bid', b'. split_and!; [by right|done|done].
Qed.
End inventories.

(** ** The successor lists *)

Section successors.
Context (function : FunctionGraph) (blocks : gmap N Block) (indices : gmap N N).

(** The edges the terminators of the listed blocks make, on positions. *)
Definition block_edge (l : list EntityId) (u v : nat) : Prop :=
  exists bid b t, bid ∈ l /\ indices !! bid = Some (N.of_nat u) /\ blocks !! bid = Some b /\
    t ∈ terminator_targets (blk_terminator b) /\ indices !! t = Some (N.of_nat v).

Definition targets_known (l : list EntityId) : Prop :=
  forall bid b t, bid ∈ l -> blocks !! bid = Some b -> t ∈ terminator_targets (blk_terminator b) -> is_Some (indices !! t).

Lemma push_targets_spec source ts (g g' : Graph) :
  (N.to_nat source < length g)%nat ->
  fold_res (fun successors target =>
      target ← ok_or (cfg_code CfgTargetInvalid) (indices !! target);
      list ← get successors (N.to_nat source);
      put successors (N.to_nat source) (list ++ [N.to_nat target])) g ts = Ok g' ->
  length g' = length g /\ (forall t, t ∈ ts -> is_Some (indices !! t)) /\
  forall u v, edge g' u v <-> edge g u v \/ u = N.to_nat source /\ exists t, t ∈ ts /\ indices !! t = Some (N.of_nat v).
Proof using Type.
  revert g. induction ts as [|t ts IH]; intros g Hs H; cbn [fold_res] in H.
  - injection H as <-. split_and!; [done|by intros ? ?%elem_of_nil|]. intros u v. setoid_rewrite elem_of_nil. naive_solver.
  - destruct (indices !! t) as [i|] eqn:Ht; [|done]. cbn [ok_or mbind result_bind] in H.
    rewrite push_in in H by done. cbn [mbind result_bind] in H.
    apply IH in H as (H1 & H2 & H3); [|by rewrite length_alter]. rewrite length_alter in H1. split_and!; [done| |].
    + intros t' [->|?]%elem_of_cons; [by exists i|by apply H2].
    + intros u v. rewrite H3. unfold edge. rewrite succs_alter by done. setoid_rewrite elem_of_cons. case_decide as Hu.
      * subst u. rewrite elem_of_app, list_elem_of_singleton. split.
        -- intros [[?| ->]|(_ & t' & ? & ?)]; [by left| |].
           ++ right. split; [done|]. exists t. rewrite N2Nat.id. split; [by left|done].
           ++ right. split; [done|]. exists t'. split; [by right|done].
        -- intros [?|(_ & t' & [->|?] & Hi)]; [by left; left| |].
           ++ left. right. rewrite Ht in Hi. injection Hi as ->. by rewrite Nat2N.id.
           ++ right. split; [done|]. by exists t'.
      * naive_solver.
Qed.

Lemma push_targets_no_panic source ts (g : Graph) :
  (N.to_nat source < length g)%nat ->
  no_panic (fold_res (fun successors target =>
      target ← ok_or (cfg_code CfgTargetInvalid) (indices !! target);
      list ← get successors (N.to_nat source);
      put successors (N.to_nat source) (list ++ [N.to_nat target])) g ts).
Proof using Type.
  intros Hs. apply (avoids_fold_inv _ _ (fun g => N.to_nat source < length g)%nat); [|done]. intros g' t _ Hg.
  destruct (indices !! t); [|done]. cbn [ok_or mbind result_bind]. rewrite push_in by done. split; [done|].
  intros ? [= <-]. by rewrite length_alter.
Qed.

Lemma add_edges_spec l g e g' e' :
  (forall bid i, indices !! bid = Some i -> (N.to_nat i < length g)%nat) ->
  fold_res (add_block_edges blocks indices) (g, e) l = Ok (g', e') ->
  length g' = length g /\ targets_known l /\ (e <= e')%N /\ (e' <= N.max e MAX_CFG_EDGES)%N /\
  forall u v, edge g' u v <-> edge g u v \/ block_edge l u v.
Proof using Type.
  revert g e. induction l as [|bid l IH]; intros g e Hi H; cbn [fold_res] in H.
  - injection H as <- <-. split_and!; [done|by intros ? ? ? ?%elem_of_nil|lia|lia|].
    intros u v. split; [by left|]. intros [?|(? & ? & ? & ?%elem_of_nil & _)]; done.
  - destruct (add_block_edges _ _ _ _) as [[g1 e1]|] eqn:E; [|done]. cbn [mbind result_bind] in H.
    unfold add_block_edges in E.
    destruct (index indices bid) as [src|] eqn:Hsrc; [apply index_Ok in Hsrc|done]. cbn [mbind result_bind] in E.
    destruct (index blocks bid) as [b|] eqn:Hb; [apply index_Ok in Hb|done]. cbn [mbind result_bind] in E.
    unfold checked_add_or in E. destruct (checked_add e _) as [e2|] eqn:He2; [|done]. cbn [ok_or mbind result_bind] in E.
    apply checked_add_Some in He2 as [-> _].
    destruct (N.ltb_spec MAX_CFG_EDGES (e + len (terminator_targets (blk_terminator b)))) as [|Hmax]; [done|].
    destruct (fold_res _ g _) as [g2|] eqn:E2; [|done]. injection E as <- <-.
    apply push_targets_spec in E2 as (A1 & A2 & A3); [|by eapply Hi].
    apply IH in H as (B1 & B2 & B3 & B4 & B5); [|intros; rewrite A1; by eapply Hi].
    split_and!; [congruence| |lia|lia|].
    + intros bid' b' t [->|Hin]%elem_of_cons Hb' Ht; [|by eapply B2]. rewrite Hb in Hb'. injection Hb' as <-. by apply A2.
    + intros u v. rewrite B5, A3. split.
      * intros [[?|(-> & t & ? & ?)]|(bid' & b' & t & ? & ? & ? & ? & ?)]; [by left| |].
        -- right. exists bid, b, t. rewrite N2Nat.id. split_and!; try done. by left.
        -- right. exists bid', b', t. split_and!; try done. by right.
      * intros [?|(bid' & b' & t & Hin & Hu & Hb' & Ht & Hv)]; [by left; left|].
        apply elem_of_cons in Hin as [->|Hin].
        -- left. right. rewrite Hb in Hb'. rewrite Hsrc in Hu. injection Hb' as <-. injection Hu as ->.
           rewrite Nat2N.id. split; [done|]. by exists t.
        -- right. exists bid', b', t. by split_and!.
Qed.

Lemma build_successors_spec g e :
  (forall bid i, indices !! bid = Some i -> (N.to_nat i < length (fg_blocks function))%nat) ->
  build_successors function blocks indices = Ok (g, e) ->
  length g = length (fg_blocks function) /\ targets_known (fg_blocks function) /\ (e <= MAX_CFG_EDGES)%N /\
  (forall u v, edge g u v <-> block_edge (fg_blocks function) u v) /\
  (exists entry, blocks !! fg_entry_block function = Some entry /\ blk_reachability entry = RCRequired).
Proof using Type.
  intros Hi H. unfold build_successors in H.
  destruct (index blocks _) as [entry|] eqn:He; [apply index_Ok in He|done]. cbn [mbind result_bind] in H.
  case_bool_decide as Hr; [|done]. cbn [negb] in H.
  apply add_edges_spec in H as (H1 & H2 & _ & H4 & H5); [|intros; rewrite length_replicate; by eapply Hi].
  rewrite length_replicate in H1. split_and!; [done|done|unfold MAX_CFG_EDGES in *; lia| |by exists entry].
  intros u v. rewrite H5. split; [|by right]. intros [He'|?]; [|done]. exfalso.
  unfold edge, succs in He'. destruct (replicate _ _ !! u) as [x|] eqn:E; [|by apply elem_of_nil in He'].
  apply lookup_replicate in E as [-> _]. by apply elem_of_nil in He'.
Qed.
End successors.

(** ** What an accepted graph is *)

(** The inventories agree with the function's declarations. *)
Record inventory_ok (types : Definitions) (function : FunctionGraph) (pc : N) (parameters : gmap N ParameterDef)
    (blocks : gmap N Block) (operations : gmap N Operation) (indices : gmap N N) : Prop := {
  io_indices : forall id i, indices !! id = Some i <-> fg_blocks function !! N.to_nat i = Some id;
  io_blocks : forall id, is_Some (blocks !! id) <-> id ∈ fg_blocks function;
  io_block_id : forall id b, blocks !! id = Some b -> blk_entity_id b = id;
  io_block_function : forall id b, blocks !! id = Some b -> blk_function b = fg_entity_id function;
  io_entry : is_Some (indices !! fg_entry_block function);
  io_function_parameters : forall j id, fg_parameters function !! j = Some id ->
    param_at types pc parameters (fg_entity_id function) PRFunction id (N.of_nat j);
  io_block_parameters : forall bid b j id, blocks !! bid = Some b -> blk_parameters b !! j = Some id ->
    param_at types pc parameters bid PRBlock id (N.of_nat j);
  io_parameters : forall id, is_Some (parameters !! id) -> id ∈ fg_parameters function \/
    exists bid b, blocks !! bid = Some b /\ id ∈ blk_parameters b;
  io_block_operations : forall bid b j id, blocks !! bid = Some b -> blk_operations b !! j = Some id ->
    operation_at types pc operations bid id (N.of_nat j);
  io_operations : forall id, is_Some (operations !! id) ->
    exists bid b, blocks !! bid = Some b /\ id ∈ blk_operations b
}.

(** The successors, the reachable set and the dominators are those of the
    terminators. *)
Record flow_ok (gi : GraphIndex) (entry : nat) (g : Graph) : Prop := {
  fo_entry : gi_block_indices gi !! fg_entry_block (gi_function gi) = Some (N.of_nat entry);
  fo_graph : graph_ok entry g;
  fo_length : length g = length (fg_blocks (gi_function gi));
  fo_targets : targets_known (gi_blocks gi) (gi_block_indices gi) (fg_blocks (gi_function gi));
  fo_edges : forall u v, edge g u v <-> block_edge (gi_blocks gi) (gi_block_indices gi) (fg_blocks (gi_function gi)) u v;
  fo_reachable : length (gi_reachable gi) = length g /\
    forall b, flag (gi_reachable gi) b = true <-> rtc (edge g) entry b;
  fo_dominators : forall u v, (u < length g)%nat -> (v < length g)%nat ->
    exists row b, gi_dominators gi !! u = Some row /\ bit_is_set row v = Ok b /\
      (b = true <-> gi_reachable gi !! u = Some true /\ Dominates entry g v u)
}.

Definition gi_ok (gi : GraphIndex) : Prop :=
  inventory_ok (gi_types gi) (gi_function gi) (gi_parameter_count gi) (gi_parameters gi) (gi_blocks gi)
    (gi_operations gi) (gi_block_indices gi) /\ exists entry g, flow_ok gi entry g.

Lemma inventory_index_lt types function pc parameters blocks operations indices id i :
  inventory_ok types function pc parameters blocks operations indices ->
  indices !! id = Some i -> (N.to_nat i < length (fg_blocks function))%nat.
Proof. intros H Hi. apply (io_indices _ _ _ _ _ _ _ H) in Hi. by eapply lookup_lt_Some. Qed.

(** Positions of targets are inside the function. *)
Lemma successors_graph_ok types function pc parameters blocks operations indices g entry :
  inventory_ok types function pc parameters blocks operations indices ->
  indices !! fg_entry_block function = Some entry ->
  length g = length (fg_blocks function) ->
  (forall u v, edge g u v <-> block_edge blocks indices (fg_blocks function) u v) ->
  graph_ok (N.to_nat entry) g.
Proof.
  intros Hio He Hl Hg. split.
  - rewrite Hl. by eapply inventory_index_lt.
  - intros u v (bid & b & t & _ & _ & _ & _ & Hv)%Hg. rewrite Hl.
    eapply inventory_index_lt in Hv; [|done]. by rewrite Nat2N.id in Hv.
Qed.

(** ** Building the index *)

Lemma no_panic_Err {A} (m : cfg_out A) e : no_panic m -> m = Err e -> e <> Panicked.
Proof. intros H -> ->. by apply H. Qed.

Section build_spec.
Context (types : Definitions) (function : FunctionGraph).

Lemma check_parameter_no_panic parameters pc owner role expected x :
  no_panic (check_parameter types parameters pc owner role expected x).
Proof using Type. unfold check_parameter. no_panic. Qed.

Lemma check_operation_no_panic operations pc block expected x :
  no_panic (check_operation types operations pc block expected x).
Proof using Type. unfold check_operation. no_panic. Qed.

Lemma parameter_inventory_no_panic parameters blocks fps pc :
  (forall id, id ∈ fg_blocks function -> is_Some (blocks !! id)) ->
  no_panic (validate_parameter_inventory types function parameters blocks fps pc).
Proof using Type.
  intros Hb. pose proof check_parameter_no_panic as Hc. unfold validate_parameter_inventory.
  apply avoids_bind; [apply avoids_fold; auto|]. intros e _. apply avoids_bind; [|no_panic].
  apply avoids_fold. intros bid e' Hin. apply avoids_bind; [by apply no_panic_index, Hb|]. intros b _.
  apply avoids_if; [no_panic|]. apply avoids_bind; [no_panic|]. intros d _. apply avoids_fold; auto.
Qed.

Lemma operation_inventory_no_panic blocks operations pc :
  (forall id, id ∈ fg_blocks function -> is_Some (blocks !! id)) ->
  no_panic (validate_operation_inventory types function blocks operations pc).
Proof using Type.
  intros Hb. pose proof check_operation_no_panic as Hc. unfold validate_operation_inventory.
  apply avoids_bind; [|no_panic]. apply avoids_fold. intros bid e' Hin.
  apply avoids_bind; [by apply no_panic_index, Hb|]. intros b _.
  apply avoids_bind; [no_panic|]. intros d _. apply avoids_fold; auto.
Qed.

Lemma build_successors_no_panic blocks indices :
  (forall id, id ∈ fg_blocks function -> is_Some (blocks !! id) /\ is_Some (indices !! id)) ->
  (forall bid i, indices !! bid = Some i -> (N.to_nat i < length (fg_blocks function))%nat) ->
  is_Some (blocks !! fg_entry_block function) ->
  no_panic (build_successors function blocks indices).
Proof using Type.
  intros Hb Hi He. unfold build_successors. apply avoids_bind; [by apply no_panic_index|]. intros entry _.
  apply avoids_if; [no_panic|]. set (n := length (fg_blocks function)) in *.
  apply (avoids_fold_inv _ _ (fun st => length st.1 = n)); [|apply length_replicate].
  intros [g e] bid [? ?]%Hb Hg. cbn [fst] in Hg. unfold add_block_edges. split.
  - apply avoids_bind; [by apply no_panic_index|]. intros src Hsrc%index_Ok%Hi.
    apply avoids_bind; [by apply no_panic_index|]. intros b _. cbv zeta. apply avoids_bind; [no_panic|]. intros e' _.
    apply avoids_if; [no_panic|]. apply avoids_bind; [|no_panic]. apply push_targets_no_panic. by rewrite Hg.
  - intros [g' e'] (src & Hsrc%index_Ok%Hi & (b & _ & Hrest)%bind_Ok)%bind_Ok. cbv zeta in Hrest.
    apply bind_Ok in Hrest as (e1 & _ & Hrest). case_match; [done|]. apply bind_Ok in Hrest as (g1 & Hpush & [= <- <-]).
    apply push_targets_spec in Hpush as [Hl _]; [|by rewrite Hg]. cbn [fst]. congruence.
Qed.

Lemma validate_reachability_spec blocks reachable :
  (forall id, id ∈ fg_blocks function -> is_Some (blocks !! id)) ->
  no_panic (validate_reachability function blocks reachable) /\
  (validate_reachability function blocks reachable = Ok tt ->
   forall i id (r : bool) b, fg_blocks function !! i = Some id -> reachable !! i = Some r -> blocks !! id = Some b ->
     blk_reachability b = if r then RCRequired else RCExplicitlyUnreachable).
Proof using Type.
  intros Hb. unfold validate_reachability. split.
  - apply avoids_for_each. intros [id r] Hin. apply elem_of_zip_l in Hin.
    apply avoids_bind; [by apply no_panic_index, Hb|no_panic].
  - rewrite for_each_Ok, Forall_forall. intros H i id r b Hid Hr Hb'.
    assert ((id, r) ∈ zip (fg_blocks function) reachable) as Hin.
    { apply list_elem_of_lookup. exists i. rewrite lookup_zip_with, Hid, Hr. done. }
    apply H in Hin. cbv beta iota in Hin. rewrite (proj2 (index_Ok _ _ _) Hb') in Hin. cbn [mbind result_bind] in Hin.
    destruct (blk_reachability b), r; try done; cbn in Hin; discriminate.
Qed.

Definition indexed {A} (id : A -> EntityId) (l : list A) (m : gmap N A) : Prop :=
  forall k x, m !! k = Some x <-> x ∈ l /\ id x = k.

(** The identities and declarations agree: the inventory part of [build]. *)
Lemma declarations_ok pc parameters blocks operations indices fps :
  (forall id b, blocks !! id = Some b -> blk_entity_id b = id) ->
  index_declared_ids (fg_blocks function) = Ok indices ->
  size indices = size blocks ->
  existsb (fun id => negb (bool_decide (is_Some (blocks !! id)))) (btree_keys indices) = false ->
  is_Some (indices !! fg_entry_block function) ->
  index_declared_ids (fg_parameters function) = Ok fps ->
  validate_parameter_inventory types function parameters blocks fps pc = Ok tt ->
  validate_operation_inventory types function blocks operations pc = Ok tt ->
  inventory_ok types function pc parameters blocks operations indices.
Proof using Type.
  intros Hid Hind Hsize Hex Hentry Hfps Hp Ho.
  pose proof (index_declared_spec _ _ Hind) as Hpos.
  assert (forall id, is_Some (indices !! id) <-> id ∈ fg_blocks function) as Hkeys.
  { intros id. rewrite <- elem_of_btree_keys. by apply declared_keys. }
  assert (forall id, is_Some (blocks !! id) <-> id ∈ fg_blocks function) as Hblk.
  { intros id. rewrite <- Hkeys, <- !elem_of_dom. enough (dom indices = dom blocks) as -> by done.
    apply set_subseteq_size_eq; [|by rewrite !size_dom, Hsize]. intros x Hx. apply elem_of_dom.
    destruct (decide (is_Some (blocks !! x))) as [|Hn]; [done|]. exfalso. rewrite elem_of_dom, <- elem_of_btree_keys in Hx.
    assert (existsb (fun id => negb (bool_decide (is_Some (blocks !! id)))) (btree_keys indices) = true) as E; [|congruence].
    apply existsb_exists. exists x. split; [by apply list_elem_of_In|]. by rewrite bool_decide_false. }
  destruct (parameter_inventory_spec _ _ _ _ _ _ Hfps Hp) as (P1 & P2 & P3).
  destruct (operation_inventory_spec _ _ _ _ _ Ho) as (O1 & O2).
  assert (forall bid b, blocks !! bid = Some b -> bid ∈ fg_blocks function) as Hin by (intros; apply Hblk; by eexists).
  split; try done.
  - intros bid b Hb. destruct (P2 bid) as (b' & Hb' & ? & _); [by eapply Hin|]. congruence.
  - intros bid b j id Hb Hj. destruct (P2 bid) as (b' & Hb' & _ & H); [by eapply Hin|]. rewrite Hb in Hb'.
    injection Hb' as <-. rewrite <- (Hid _ _ Hb). by apply H.
  - intros id His. destruct (P3 id His) as [?|(bid & b & _ & ? & ?)]; [by left|]. right. by exists bid, b.
  - intros bid b j id Hb Hj. rewrite <- (Hid _ _ Hb). eapply O1; [by eapply Hin|done|done].
  - intros id His. destruct (O2 id His) as (bid & b & _ & ? & ?). by exists bid, b.
Qed.
End build_spec.

(** The step of a validation: the error case does not panic. *)
Tactic Notation "step_ok" simple_intropattern(p) ident(E) :=
  match goal with
  | |- match mbind _ ?m with _ => _ end =>
      destruct m as [p|] eqn:E; cbn [mbind result_bind]; [|refine (no_panic_Err _ _ _ E)]
  end.

Lemma build_spec types function ps bs os :
  match GraphIndex_build types function ps bs os with
  | Ok gi =>
      gi_ok gi /\ gi_types gi = types /\ gi_function gi = function /\
      indexed prm_entity_id ps (gi_parameters gi) /\ indexed blk_entity_id bs (gi_blocks gi) /\
      indexed op_entity_id os (gi_operations gi) /\ (gi_edges gi <= MAX_CFG_EDGES)%N /\
      (gi_dominator_work gi <= MAX_DOMINATOR_WORD_OPERATIONS)%N /\
      forall i id (r : bool) b, fg_blocks function !! i = Some id -> gi_reachable gi !! i = Some r ->
        gi_blocks gi !! id = Some b -> blk_reachability b = if r then RCRequired else RCExplicitlyUnreachable
  | Err e => e <> Panicked
  end.
Proof.
  unfold GraphIndex_build.
  step_ok [] E1; [|apply limits_no_panic]. step_ok pc E2.
  2:{ unfold validate_type_parameters. no_panic. }
  step_ok [] E3; [|unfold validate_sorted_unique; no_panic]. step_ok [] E4; [|unfold validate_sorted_unique; no_panic].
  step_ok [parameters ids1] E5; [|no_panic]. step_ok [blocks ids2] E6; [|no_panic].
  step_ok [operations ids3] E7; [|no_panic]. step_ok g E8; [|no_panic].
  apply index_unique_spec in E5 as [Hps _]. apply index_unique_spec in E6 as [Hbs _]. apply index_unique_spec in E7 as [Hos _].
  case_bool_decide as Hsize; [|done]. cbn [negb orb]. destruct (existsb _ _) eqn:Hex; [done|].
  step_ok entry_index E9; [|no_panic].
  destruct (g !! fg_entry_block function) as [ei|] eqn:Hei; [|done]. injection E9 as ->.
  assert (forall id, is_Some (g !! id) -> is_Some (blocks !! id)) as Hsome.
  { intros id His. destruct (decide (is_Some (blocks !! id))) as [|Hn]; [done|]. exfalso.
    assert (existsb (fun id => negb (bool_decide (is_Some (blocks !! id)))) (btree_keys g) = true) as E; [|congruence].
    apply existsb_exists. exists id. split; [by apply list_elem_of_In, elem_of_btree_keys|]. by rewrite bool_decide_false. }
  assert (forall id, id ∈ fg_blocks function -> is_Some (blocks !! id) /\ is_Some (g !! id)) as Hlisted.
  { intros id Hin. assert (is_Some (g !! id)) as His; [|by split; [apply Hsome|]].
    apply list_elem_of_lookup_1 in Hin as [i Hi]. exists (N.of_nat i). apply (index_declared_spec _ _ E8). by rewrite Nat2N.id. }
  step_ok entry_block E10; [|apply no_panic_index, Hsome; by eexists]. apply index_Ok in E10.
  destruct (N.eqb_spec (blk_function entry_block) (fg_entity_id function)); [|done]. cbn [negb].
  step_ok fps E11; [|no_panic].
  step_ok [] E12; [|by apply parameter_inventory_no_panic; intros; apply Hlisted].
  step_ok [] E13; [|by apply operation_inventory_no_panic; intros; apply Hlisted]. step_ok [] E14; [|no_panic].
  assert (inventory_ok types function pc parameters blocks operations g) as Hio.
  { eapply declarations_ok; try done. intros id b Hb. by apply Hbs in Hb as [_ ?]. }
  step_ok [successors edges] E15; [|by apply build_successors_no_panic; [|intros bid i Hi; by eapply inventory_index_lt|eexists]].
  apply build_successors_spec in E15 as (S1 & S2 & S3 & S4 & _).
  2:{ intros bid i Hi. by eapply inventory_index_lt. }
  assert (graph_ok (N.to_nat entry_index) successors) as Hgok by by eapply successors_graph_ok.
  destruct (reachability_total_spec _ _ Hgok) as (reachable & Hr & Hrlen & Hreach).
  apply (compute_reachability_Ok _ _ Hgok) in Hr. rewrite Hr. cbn [mbind result_bind].
  step_ok [] E16; [|by apply validate_reachability_spec; intros; apply Hlisted]. pose proof (compute_dominators_sound _ _ _ Hgok Hr) as Hdom.
  step_ok [doms work] E17; [|by rewrite E17, Hdom]. destruct Hdom as (Hw & _ & Hd). split_and!; try done.
  - split; [done|]. exists (N.to_nat entry_index), successors. split; try done; cbn. by rewrite N2Nat.id.
  - by apply (validate_reachability_spec function blocks reachable (fun id Hin => proj1 (Hlisted id Hin))).
Qed.

(** ** No panics: the value uses *)

Section uses_no_panic.
Context (gi : GraphIndex).
Hypothesis Hgi : gi_ok gi.

Lemma gi_inventory : inventory_ok (gi_types gi) (gi_function gi) (gi_parameter_count gi) (gi_parameters gi)
  (gi_blocks gi) (gi_operations gi) (gi_block_indices gi).
Proof using Hgi. apply Hgi. Qed.

Lemma gi_index_of bid : is_Some (gi_blocks gi !! bid) -> is_Some (gi_block_indices gi !! bid).
Proof using Hgi.
  intros [i Hi]%(io_blocks _ _ _ _ _ _ _ gi_inventory)%list_elem_of_lookup_1. exists (N.of_nat i).
  apply (io_indices _ _ _ _ _ _ _ gi_inventory). by rewrite Nat2N.id.
Qed.

(** Every operation of the inventory is at its place in its block. *)
Lemma gi_operation id o :
  gi_operations gi !! id = Some o ->
  exists b, gi_blocks gi !! op_block o = Some b /\ blk_operations b !! N.to_nat (op_ordinal o) = Some id.
Proof using Hgi.
  intros Ho. destruct (io_operations _ _ _ _ _ _ _ gi_inventory id) as (bid & b & Hb & Hin); [by eexists|].
  apply list_elem_of_lookup_1 in Hin as [j Hj].
  destruct (io_block_operations _ _ _ _ _ _ _ gi_inventory _ _ _ _ Hb Hj) as (o' & Ho' & Hbl & Hord & _).
  rewrite Ho in Ho'. injection Ho' as <-. exists b. rewrite Hbl, Hord, Nat2N.id. done.
Qed.

Lemma gi_block_parameter bid b id :
  gi_blocks gi !! bid = Some b -> id ∈ blk_parameters b ->
  exists p, gi_parameters gi !! id = Some p /\ prm_owner p = bid /\ prm_role p = PRBlock.
Proof using Hgi.
  intros Hb [j Hj]%list_elem_of_lookup_1.
  destruct (io_block_parameters _ _ _ _ _ _ _ gi_inventory _ _ _ _ Hb Hj) as (p & ? & ? & ? & _). by exists p.
Qed.

Lemma resolve_no_panic value bid ordinal :
  is_Some (gi_blocks gi !! bid) -> no_panic (resolve_value gi value bid ordinal).
Proof using Hgi.
  intros Hb. unfold resolve_value. apply avoids_bind; [by apply no_panic_index, gi_index_of|]. intros ui Hui%index_Ok.
  assert (exists entry g, flow_ok gi entry g) as (entry & g & Hflow) by apply Hgi.
  destruct (fo_reachable _ _ _ Hflow) as [Hrl _]. pose proof (fo_length _ _ _ Hflow) as Hgl.
  assert (forall bid i, gi_block_indices gi !! bid = Some i -> (N.to_nat i < length g)%nat) as Hlt.
  { intros bid' i Hi. rewrite Hgl. eapply inventory_index_lt; [apply gi_inventory|exact Hi]. }
  destruct value as [id|r].
  - apply avoids_bind; [no_panic|]. intros p _. destruct (prm_role p); [no_panic|]. apply avoids_if; [no_panic|].
    rewrite get_flag by (rewrite Hrl; by eapply Hlt). cbn [mbind result_bind]. no_panic.
  - apply avoids_bind; [no_panic|]. intros o Ho.
    destruct (gi_operations gi !! orr_operation r) as [o'|] eqn:Ho'; [|done]. injection Ho as <-.
    apply avoids_bind; [no_panic|]. intros t _. apply avoids_if; [no_panic|].
    rewrite get_flag by (rewrite Hrl; by eapply Hlt). cbn [mbind result_bind]. apply avoids_if; [no_panic|].
    apply avoids_bind; [apply no_panic_index, gi_index_of; destruct (gi_operation _ _ Ho') as (b & ? & _); by eexists|].
    intros di Hdi%index_Ok. rewrite get_flag by (rewrite Hrl; by eapply Hlt). cbn [mbind result_bind].
    apply avoids_if; [no_panic|].
    destruct (fo_dominators _ _ _ Hflow (N.to_nat ui) (N.to_nat di)) as (row & b & Hrow & Hbit & _); [by eapply Hlt..|].
    apply get_Ok in Hrow as ->. cbn [mbind result_bind]. rewrite Hbit. cbn [mbind result_bind]. no_panic.
Qed.

Lemma edge_target_Ok target count b :
  edge_target gi target count = Ok b -> gi_blocks gi !! target = Some b /\ count = len (blk_parameters b).
Proof using Type.
  unfold edge_target. destruct (gi_blocks gi !! target) as [b'|]; [|done]. cbn [ok_or mbind result_bind].
  destruct (negb _); [done|]. destruct (N.eqb_spec count (len (blk_parameters b'))); [|done]. cbn. by intros [= <-].
Qed.

Lemma parameter_index_no_panic bid b id :
  gi_blocks gi !! bid = Some b -> id ∈ blk_parameters b -> no_panic (index (gi_parameters gi) id).
Proof using Hgi. intros Hb Hid. destruct (gi_block_parameter _ _ _ Hb Hid) as (p & ? & _). apply no_panic_index. by exists p. Qed.

Lemma target_edge_no_panic b edge :
  is_Some (gi_blocks gi !! blk_entity_id b) -> no_panic (validate_target_edge gi b edge).
Proof using Hgi.
  intros Hb. unfold validate_target_edge. apply avoids_bind; [unfold edge_target; no_panic|].
  intros t [Ht _]%edge_target_Ok. apply avoids_for_each. intros [a id] Hin%elem_of_zip_r.
  apply avoids_bind; [by apply resolve_no_panic|]. intros ty _.
  apply avoids_bind; [by eapply parameter_index_no_panic|no_panic].
Qed.

Lemma expected_cases_no_panic t : no_panic (expected_switch_cases gi t).
Proof using Type.
  unfold expected_switch_cases. apply avoids_bind; [|no_panic]. destruct t; try no_panic.
  apply avoids_bind; [no_panic|]. intros def _. destruct (td_form def); [no_panic|]. apply avoids_map.
  intros v _. apply avoids_bind; [|no_panic]. destruct (vc_payload_type v); [|no_panic].
  destruct (instantiate_in_scope _ _ _ _); done.
Qed.

Lemma switch_no_panic b switch :
  is_Some (gi_blocks gi !! blk_entity_id b) -> no_panic (validate_switch gi b switch).
Proof using Hgi.
  intros Hb. unfold validate_switch. apply avoids_bind; [by apply resolve_no_panic|]. intros t _.
  apply avoids_bind; [apply expected_cases_no_panic|]. intros cases _. apply avoids_if; [no_panic|].
  apply avoids_for_each. intros [c [k p]] _. cbv beta zeta iota. apply avoids_bind; [unfold edge_target; no_panic|].
  intros tb [Ht _]%edge_target_Ok. apply avoids_for_each. intros [a id] Hin%elem_of_zip_r.
  apply avoids_bind; [destruct a; [by apply resolve_no_panic|no_panic]|]. intros ty _.
  apply avoids_bind; [by eapply parameter_index_no_panic|no_panic].
Qed.

Lemma terminator_no_panic b :
  is_Some (gi_blocks gi !! blk_entity_id b) -> no_panic (validate_terminator gi b).
Proof using Hgi.
  intros Hb. pose proof (fun v o => resolve_no_panic v (blk_entity_id b) o Hb) as Hr.
  pose proof (fun e => target_edge_no_panic b e Hb) as He. unfold validate_terminator.
  destruct (blk_terminator b) as [v|br|br|sw|tr].
  - apply avoids_bind; [done|no_panic].
  - done.
  - apply avoids_bind; [apply Hr|]. intros t _. apply avoids_decide; [|no_panic].
    apply avoids_bind; [apply He|done].
  - by apply switch_no_panic.
  - destruct (trap_payload tr); [|no_panic]. apply avoids_bind; [apply Hr|]. no_panic.
Qed.

Lemma values_no_panic : no_panic (validate_values_and_terminators gi).
Proof using Hgi.
  assert (forall bid, bid ∈ fg_blocks (gi_function gi) -> is_Some (gi_blocks gi !! bid)) as Hb.
  { intros bid. apply (io_blocks _ _ _ _ _ _ _ gi_inventory). }
  unfold validate_values_and_terminators. apply avoids_bind; [|intros _ _].
  - apply avoids_for_each. intros bid Hin%Hb. apply avoids_bind; [by apply no_panic_index|].
    intros b Hbl%index_Ok. apply avoids_for_each. intros oid [j Hj]%list_elem_of_lookup_1.
    destruct (io_block_operations _ _ _ _ _ _ _ gi_inventory _ _ _ _ Hbl Hj) as (o & Ho & _).
    apply avoids_bind; [apply no_panic_index; by exists o|]. intros o' _. apply avoids_for_each. intros v _.
    apply avoids_bind; [by apply resolve_no_panic|no_panic].
  - apply avoids_for_each. intros bid Hin%Hb. apply avoids_bind; [by apply no_panic_index|].
    intros b Hbl%index_Ok. apply terminator_no_panic. rewrite (io_block_id _ _ _ _ _ _ _ gi_inventory _ _ Hbl). done.
Qed.
End uses_no_panic.

Lemma validate_no_panic types function parameters blocks operations :
  no_panic (validate_function_graph types function parameters blocks operations).
Proof.
  unfold validate_function_graph. apply avoids_bind.
  - pose proof (build_spec types function parameters blocks operations) as H.
    destruct (GraphIndex_build _ _ _ _ _) as [|e]; [done|]. unfold no_panic. congruence.
  - intros gi Hgi. pose proof (build_spec types function parameters blocks operations) as H. rewrite Hgi in H.
    destruct H as [H _]. apply avoids_bind; [by apply values_no_panic|]. intros _ _. cbv zeta. no_panic.
Qed.

(** The validator returns a report or a stable error on every input: no
    [map[&key]] or slice index in it can panic. *)
Theorem validate_never_panics types function parameters blocks operations :
  validate_function_graph types function parameters blocks operations <> Err Panicked.
Proof. apply validate_no_panic. Qed.
