(* ===== verification/CfgSafety.v ===== *)
(** * What the CFG validator guarantees (crates/sley-check/src/cfg.rs)

    A machine that runs a function graph on types instead of values: it keeps
    the arguments of the current block and the results of every operation
    executed so far, reads operands, and leaves a block along one of its
    edges.  A machine that needs a value it does not have, or has one of the
    wrong type, is stuck.

    [accepted_function_is_safe] says that a function
    [validate_function_graph] accepts never gets stuck, provided that its
    entry block has no parameters.  The proviso is needed: the validator
    accepts an entry block with parameters, which nothing binds when the
    function is entered ([entry_parameters_accepted]). *)

From S2P Require Import Prelude Ids BTree Ssmc Types TypeWalk CfgGraph CfgPlain CfgDominators Cfg.

(** The element of an inventory with a given identity. *)
Definition lookup_by {A} (id : A -> EntityId) (l : list A) (k : EntityId) : option A :=
  snd <$> list_find (fun x => id x = k) l.

Section machine.
Context (types : Definitions) (function : FunctionGraph).
Context (parameters : list ParameterDef) (blocks : list Block) (operations : list Operation).

Abbreviation parameter_of := (lookup_by prm_entity_id parameters).
Abbreviation block_of := (lookup_by blk_entity_id blocks).
Abbreviation operation_of := (lookup_by op_entity_id operations).

Record Config : Type := mkConfig {
  at_block : EntityId;
  locals : gmap N TypeExpr;
  results : gmap N (list TypeExpr)
}.

(** The types of the function's own parameters. *)
Definition function_parameter (id : EntityId) : option TypeExpr :=
  if decide (id ∈ fg_parameters function) then prm_value_type <$> parameter_of id else None.

Definition read (c : Config) (value : ValueRef) : option TypeExpr :=
  match value with
  | VRParameter id =>
      match locals c !! id with
      | Some t => Some t
      | None => function_parameter id
      end
  | VROperationResult r => results c !! orr_operation r ≫= fun ts => ts !! N.to_nat (orr_result_index r)
  end.

(** Execute one operation: every operand is read, then its results exist. *)
Definition run_operation (c : Config) (id : EntityId) : option Config :=
  op ← operation_of id;
  _ ← mapM (read c) (op_operands op);
  Some (mkConfig (at_block c) (locals c) (<[id := op_result_types op]> (results c))).

Fixpoint run_operations (c : Config) (ids : list EntityId) : option Config :=
  match ids with
  | [] => Some c
  | id :: ids => c ← run_operation c id; run_operations c ids
  end.

(** Enter a block with the arguments of an edge. *)
Definition enter (c : Config) (target : EntityId) (arguments : list TypeExpr) : option Config :=
  b ← block_of target;
  types ← mapM (fun id => prm_value_type <$> parameter_of id) (blk_parameters b);
  if decide (types = arguments)
  then Some (mkConfig target (list_to_map (zip (blk_parameters b) arguments)) (results c))
  else None.

Definition take_edge (c : Config) (edge : TargetEdge) : option Config :=
  arguments ← mapM (read c) (te_arguments edge);
  enter c (te_target edge) arguments.

Definition take_case (c : Config) (payload : option TypeExpr) (edge : SwitchEdge) : option Config :=
  arguments ← mapM (fun a => match a with SAValue v => read c v | SACasePayload => payload end) (se_arguments edge);
  enter c (se_target edge) arguments.

(** The cases of a type that can be switched on: a value of the type is in
    one of them. *)
Inductive TypeCase : TypeExpr -> CaseKey -> option TypeExpr -> Prop :=
| Case_none t : TypeCase (TOption t) (KeyBuiltin BCNone) None
| Case_some t : TypeCase (TOption t) (KeyBuiltin BCSome) (Some t)
| Case_ok t e : TypeCase (TResult t e) (KeyBuiltin BCOk) (Some t)
| Case_err t e : TypeCase (TResult t e) (KeyBuiltin BCErr) (Some e)
| Case_bare d args def cases case :
    types !! d = Some def -> td_form def = FormVariant cases -> case ∈ cases ->
    vc_payload_type case = None ->
    TypeCase (TNamed d args) (KeyMember (vc_member_id case)) None
| Case_payload d args def cases case t t' :
    types !! d = Some def -> td_form def = FormVariant cases -> case ∈ cases ->
    vc_payload_type case = Some t -> substitute t args 1 = Ok t' ->
    TypeCase (TNamed d args) (KeyMember (vc_member_id case)) (Some t').

Definition switchable (t : TypeExpr) : Prop :=
  match t with
  | TOption _ | TResult _ _ => True
  | TNamed d _ => exists def cases, types !! d = Some def /\ td_form def = FormVariant cases
  | _ => False
  end.

(** The edges a terminator can take. *)
Inductive leaves (c : Config) : Terminator -> option Config -> Prop :=
| Leave_branch br : leaves c (TermBranch br) (take_edge c (br_edge br))
| Leave_true br : leaves c (TermCondBranch br) (take_edge c (cbr_if_true br))
| Leave_false br : leaves c (TermCondBranch br) (take_edge c (cbr_if_false br))
| Leave_case sw t key payload case :
    read c (vs_value sw) = Some t -> TypeCase t key payload ->
    case ∈ vs_cases sw -> sc_case_key case = key ->
    leaves c (TermVariantSwitch sw) (take_case c payload (sc_edge case))
| Leave_missing sw t key payload :
    read c (vs_value sw) = Some t -> TypeCase t key payload ->
    key ∉ sc_case_key <$> vs_cases sw -> leaves c (TermVariantSwitch sw) None.

(** What the terminator needs of the values it reads itself. *)
Definition terminator_ready (c : Config) (terminator : Terminator) : Prop :=
  match terminator with
  | TermReturn v => read c (ret_value v) = Some (fg_result_type function)
  | TermBranch _ => True
  | TermCondBranch br => read c (cbr_condition br) = Some TBool
  | TermVariantSwitch sw => exists t, read c (vs_value sw) = Some t /\ switchable t
  | TermTrap tr =>
      match trap_payload tr with Some v => is_Some (read c v) | None => True end
  end.

Inductive step (c : Config) : Config -> Prop :=
| Step b c1 c' :
    block_of (at_block c) = Some b -> run_operations c (blk_operations b) = Some c1 ->
    leaves c1 (blk_terminator b) (Some c') -> step c c'.

(** The block runs to its terminator, which has the values it needs, and
    every way it can go is open. *)
Definition not_stuck (c : Config) : Prop :=
  exists b c1, block_of (at_block c) = Some b /\ run_operations c (blk_operations b) = Some c1 /\
    terminator_ready c1 (blk_terminator b) /\
    forall o, leaves c1 (blk_terminator b) o -> is_Some o.

(** The function is entered with its own parameters bound, and no others. *)
Definition initial : Config := mkConfig (fg_entry_block function) ∅ ∅.
End machine.

Lemma lookup_by_indexed {A} (id : A -> EntityId) l m k : indexed id l m -> lookup_by id l k = m !! k.
Proof.
  intros H. unfold lookup_by. destruct (list_find (fun x => id x = k) l) as [[i x]|] eqn:E; cbn.
  - apply list_find_Some in E as (Hi & Hk & _). symmetry. apply H. split; [by eapply list_elem_of_lookup_2|done].
  - destruct (m !! k) as [x|] eqn:Hm; [|done]. apply H in Hm as [Hin Hk]. apply list_find_None in E.
    rewrite Forall_forall in E. by destruct (E x Hin).
Qed.

Lemma instantiate_substitutes env t args count t' :
  instantiate_in_scope env t args count = Ok t' -> substitute t args 1 = Ok t'.
Proof.
  unfold instantiate_in_scope. destruct (len args <=? _)%N; [|done]. cbn [ensure mbind result_bind].
  destruct (for_each _ _); [|done]. cbn [mbind result_bind]. destruct (substitute t args 1) as [u|]; [|done].
  cbn [mbind result_bind]. destruct (check_type _ _ _); [|done]. done.
Qed.

(** The cases the validator expects are the cases of the type. *)
Lemma expected_cases_spec gi t cases :
  expected_switch_cases gi t = Ok cases ->
  switchable (gi_types gi) t /\ forall key payload, TypeCase (gi_types gi) t key payload -> (key, payload) ∈ cases.
Proof.
  unfold expected_switch_cases. intros H. destruct (match t with TNamed _ _ => _ | _ => _ end) as [l|] eqn:E; [|done].
  injection H as <-. enough (switchable (gi_types gi) t /\ forall key payload, TypeCase (gi_types gi) t key payload -> (key, payload) ∈ l) as [H1 H2].
  { split; [done|]. intros key payload Hk. rewrite (sort_by_perm fst CaseKey_compare). by apply H2. }
  destruct t; try done.
  - destruct (typed _) as [def|] eqn:Hd; [apply typed_Ok in Hd|done]. cbn [mbind result_bind] in E.
    unfold Types.definition in Hd. destruct (gi_types gi !! _) as [def'|] eqn:Hdef; [|done]. injection Hd as ->.
    destruct (td_form def) as [|variants] eqn:Hf; [done|]. split; [by exists def, variants|].
    assert (Forall2 (fun case kp => match vc_payload_type case with
        | Some payload => Some <$> typed (instantiate_in_scope (gi_types gi) payload arguments (gi_parameter_count gi))
        | None => Ok None end = Ok kp.2 /\ kp.1 = KeyMember (vc_member_id case)) variants l) as Hall.
    { apply map_res_Ok in E. eapply Forall2_impl; [exact E|]. intros case kp Hk. cbv beta in Hk |- *.
      apply bind_Ok in Hk as (p & Hp & Hk). injection Hk as <-. done. }
    intros key payload Hk. inversion Hk; subst; simplify_eq.
    + match goal with Hin : @elem_of VariantCase _ _ _ _ |- _ => apply list_elem_of_lookup_1 in Hin as [j Hj] end.
      match type of Hj with ?cs !! _ = _ => assert (cs = variants) as Hcs by congruence; rewrite Hcs in Hj end.
      destruct (Forall2_lookup_l _ _ _ _ _ Hall Hj) as ([k p] & Hl & Hp & Hkey). cbn in Hp, Hkey.
      match goal with Hn : vc_payload_type _ = None |- _ => rewrite Hn in Hp end. injection Hp as <-. subst k.
      by eapply list_elem_of_lookup_2.
    + match goal with Hin : @elem_of VariantCase _ _ _ _ |- _ => apply list_elem_of_lookup_1 in Hin as [j Hj] end.
      match type of Hj with ?cs !! _ = _ => assert (cs = variants) as Hcs by congruence; rewrite Hcs in Hj end.
      destruct (Forall2_lookup_l _ _ _ _ _ Hall Hj) as ([k p] & Hl & Hp & Hkey). cbn in Hp, Hkey.
      match goal with Hn : vc_payload_type _ = Some _ |- _ => rewrite Hn in Hp end.
      destruct (typed _) as [t''|] eqn:Hi; [apply typed_Ok in Hi|done]. injection Hp as <-. subst k.
      apply instantiate_substitutes in Hi. rewrite Hi in *. simplify_eq. by eapply list_elem_of_lookup_2.
  - injection E as <-. split; [done|]. intros key payload Hk. inversion Hk; subst; set_solver.
  - injection E as <-. split; [done|]. intros key payload Hk. inversion Hk; subst; set_solver.
Qed.

Lemma keys_increasing_NoDup keys : keys_increasing keys = true -> NoDup keys.
Proof.
  intros H. assert (StronglySorted (fun x y => CaseKey_compare x y = Lt) keys) as Hs.
  { induction keys as [|x [|y keys] IH]; [constructor|by repeat constructor|].
    cbn in H. destruct (CaseKey_compare x y) eqn:E; try done. specialize (IH H). constructor; [done|].
    inversion IH as [|? ? _ Hall]; subst. constructor; [done|]. eapply Forall_impl; [exact Hall|].
    intros z Hz. cbv beta in *. clear -E Hz. destruct x as [x|x], y as [y|y], z as [z|z]; cbn in *; try done;
      rewrite N.compare_lt_iff in *; lia. }
  clear H. induction Hs as [|x keys _ IH Hall]; constructor; [|done]. intros Hin.
  rewrite Forall_forall in Hall. specialize (Hall _ Hin). destruct x; cbn in Hall; by rewrite N.compare_refl in Hall.
Qed.

Section safety.
Context (gi : GraphIndex) (parameters : list ParameterDef) (blocks : list Block) (operations : list Operation).
Context (entry : nat) (g : Graph).
Hypothesis Hinv : inventory_ok (gi_types gi) (gi_function gi) (gi_parameter_count gi) (gi_parameters gi)
  (gi_blocks gi) (gi_operations gi) (gi_block_indices gi).
Hypothesis Hflow : flow_ok gi entry g.
Hypothesis Hps : indexed prm_entity_id parameters (gi_parameters gi).
Hypothesis Hbs : indexed blk_entity_id blocks (gi_blocks gi).
Hypothesis Hos : indexed op_entity_id operations (gi_operations gi).

Abbreviation function := (gi_function gi).
Abbreviation read := (read function parameters).
Abbreviation run_operations := (run_operations function parameters operations).
Abbreviation take_edge := (take_edge function parameters blocks).
Abbreviation take_case := (take_case function parameters blocks).
Abbreviation enter := (enter parameters blocks).

Definition executed (c : Config) (id : EntityId) : Prop := is_Some (results c !! id).

(** The machine is in block [b], at the end of a path whose earlier blocks
    have all been executed. *)
Record good (c : Config) (b : Block) : Prop := {
  gd_block : gi_blocks gi !! at_block c = Some b;
  gd_path : exists u p, gi_block_indices gi !! at_block c = Some (N.of_nat u) /\ Path entry g u (u :: p) /\
    forall w wid wb oid, w ∈ p -> fg_blocks function !! w = Some wid -> gi_blocks gi !! wid = Some wb ->
      oid ∈ blk_operations wb -> executed c oid;
  gd_locals : forall id t, locals c !! id = Some t ->
    id ∈ blk_parameters b /\ exists p, gi_parameters gi !! id = Some p /\ t = prm_value_type p;
  gd_bound : forall id, id ∈ blk_parameters b -> is_Some (locals c !! id);
  gd_results : forall oid ts, results c !! oid = Some ts ->
    exists o, gi_operations gi !! oid = Some o /\ ts = op_result_types o
}.

Lemma index_position bid u : gi_block_indices gi !! bid = Some (N.of_nat u) <-> fg_blocks function !! u = Some bid.
Proof using Hinv. rewrite (io_indices _ _ _ _ _ _ _ Hinv). by rewrite Nat2N.id. Qed.

(** A value the validator resolved is there, with the type it resolved to. *)
Lemma read_resolved c b value ordinal t :
  good c b ->
  (forall j oid, blk_operations b !! j = Some oid ->
     match ordinal with Some k => (N.of_nat j < k)%N | None => True end -> executed c oid) ->
  resolve_value gi value (at_block c) ordinal = Ok t -> read c value = Some t.
Proof using Hinv Hflow Hps.
  intros Hc Hdone H. unfold resolve_value in H.
  destruct (gd_path _ _ Hc) as (u & p & Hu & Hpath & Hprev). rewrite (proj2 (index_Ok _ _ _) Hu) in H.
  cbn [mbind result_bind] in H. rewrite Nat2N.id in H.
  assert (gi_ok gi) as Hgi by (split; [done|by exists entry, g]).
  destruct value as [id|r].
  - destruct (gi_parameters gi !! id) as [q|] eqn:Hq; [|done]. cbn [ok_or mbind result_bind] in H. unfold CfgSafety.read.
    destruct (locals c !! id) as [t'|] eqn:Hl.
    + apply (gd_locals _ _ Hc) in Hl as [Hin (q' & Hq' & ->)]. rewrite Hq in Hq'. injection Hq' as <-.
      destruct (gi_block_parameter _ Hgi _ _ _ (gd_block _ _ Hc) Hin) as (q' & Hq' & Ho & Hr).
      rewrite Hq in Hq'. injection Hq' as <-. rewrite Hr, Ho, N.eqb_refl in H. injection H as ->. done.
    + destruct (io_parameters _ _ _ _ _ _ _ Hinv id) as [Hin|(bid & b' & Hb' & Hin)]; [by eexists| |].
      * unfold function_parameter. rewrite decide_True by done. rewrite (lookup_by_indexed _ _ _ _ Hps), Hq. cbn.
        apply list_elem_of_lookup_1 in Hin as [j Hj].
        destruct (io_function_parameters _ _ _ _ _ _ _ Hinv _ _ Hj) as (q' & Hq' & _ & Hr & _).
        rewrite Hq in Hq'. injection Hq' as <-. rewrite Hr in H. by injection H as ->.
      * destruct (gi_block_parameter _ Hgi _ _ _ Hb' Hin) as (q' & Hq' & Ho & Hr).
        rewrite Hq in Hq'. injection Hq' as <-. rewrite Hr, Ho in H.
        destruct (N.eqb_spec bid (at_block c)) as [E|]; [|by apply bind_Ok in H as ([] & _ & [=])]. exfalso.
        rewrite E, (gd_block _ _ Hc) in Hb'. injection Hb' as <-. apply (gd_bound _ _ Hc) in Hin as [? Hin]. congruence.
  - destruct (gi_operations gi !! orr_operation r) as [o|] eqn:Ho; [|done]. cbn [ok_or mbind result_bind] in H.
    destruct (op_result_types o !! _) as [t'|] eqn:Ht; [|done]. cbn [ok_or mbind result_bind] in H.
    destruct (gi_operation _ Hgi _ _ Ho) as (ob & Hob & Hpos).
    enough (executed c (orr_operation r) /\ t' = t) as [[ts Hts] <-].
    { unfold CfgSafety.read. rewrite Hts. apply (gd_results _ _ Hc) in Hts as (o' & Ho' & ->).
      rewrite Ho in Ho'. injection Ho' as <-. done. }
    destruct (N.eqb_spec (op_block o) (at_block c)) as [E|Hne].
    + rewrite E, (gd_block _ _ Hc) in Hob. injection Hob as <-.
      destruct (match ordinal with Some k => (k <=? op_ordinal o)%N | None => false end) eqn:Hord; [done|].
      injection H as ->. split; [|done]. eapply Hdone; [exact Hpos|]. destruct ordinal; [|done]. lia.
    + apply bind_Ok in H as (fu & Hfu & H). destruct fu; [|done]. cbn [negb] in H.
      apply bind_Ok in H as (di & Hdi%index_Ok & H). apply bind_Ok in H as (fd & Hfd & H). destruct fd; [|done].
      cbn [negb] in H. apply bind_Ok in H as (row & Hrow%get_Ok & H). apply bind_Ok in H as (bit & Hbit & H).
      destruct bit; [|done]. injection H as ->. split; [|done].
      apply get_Ok, lookup_lt_Some in Hfd. apply get_Ok in Hfu. destruct (fo_reachable _ _ _ Hflow) as [Hrl _].
      destruct (fo_dominators _ _ _ Hflow u (N.to_nat di)) as (row' & b' & Hrow' & Hbit' & Hdom);
        [rewrite <- Hrl; by eapply lookup_lt_Some|by rewrite <- Hrl|].
      rewrite Hrow in Hrow'. injection Hrow' as <-. rewrite Hbit in Hbit'. injection Hbit' as <-.
      destruct Hdom as [[_ Hdom] _]; [done|]. clear Hbit. pose proof (Hdom _ Hpath) as Hbit.
      apply elem_of_cons in Hbit as [Heq|Hin].
      * exfalso. apply Hne. rewrite <- (N2Nat.id di), Heq in Hdi. apply index_position in Hdi, Hu. congruence.
      * eapply Hprev; [exact Hin| |exact Hob|by eapply list_elem_of_lookup_2].
        apply index_position. by rewrite N2Nat.id.
Qed.

(** ** Running the operations of a block *)

Lemma good_result c b id o :
  good c b -> gi_operations gi !! id = Some o ->
  good (mkConfig (at_block c) (locals c) (<[id := op_result_types o]> (results c))) b.
Proof using Type.
  intros [Hb (u & p & Hu & Hp & Hprev) Hl Hbound Hr] Ho. split; cbn; try done.
  - exists u, p. split_and!; [done|done|]. intros w wid wb oid Hw Hwid Hwb Hin. unfold executed. cbn.
    apply lookup_insert_is_Some'. right. by eapply Hprev.
  - intros oid ts [[<- <-]|[_ H]]%lookup_insert_Some; [by exists o|by apply Hr].
Qed.

(** The operands of the operations of [b], checked in order. *)
Definition operands_ok (b : Block) : Prop :=
  forall oid o v, oid ∈ blk_operations b -> gi_operations gi !! oid = Some o -> v ∈ op_operands o ->
    exists t, resolve_value gi v (blk_entity_id b) (Some (op_ordinal o)) = Ok t.

Lemma at_block_id c b : good c b -> at_block c = blk_entity_id b.
Proof using Hinv. intros Hc. symmetry. apply (io_block_id _ _ _ _ _ _ _ Hinv), Hc. Qed.

Lemma reads_Some {A} (f : A -> option TypeExpr) l :
  (forall v, v ∈ l -> is_Some (f v)) -> exists ts, mapM f l = Some ts.
Proof using Type. intros H. apply mapM_is_Some. by apply Forall_forall. Qed.

Lemma run_operations_good b pre l c :
  good c b -> operands_ok b -> blk_operations b = pre ++ l -> (forall oid, oid ∈ pre -> executed c oid) ->
  exists c1, run_operations c l = Some c1 /\ good c1 b /\ at_block c1 = at_block c /\
    forall oid, oid ∈ blk_operations b -> executed c1 oid.
Proof using Hinv Hflow Hps Hos.
  intros Hc Hops. revert pre c Hc. induction l as [|id l IH]; intros pre c Hc Hl Hpre.
  - exists c. split_and!; try done. by rewrite Hl, app_nil_r.
  - assert (blk_operations b !! length pre = Some id) as Hid by (rewrite Hl; by apply list_lookup_middle).
    destruct (io_block_operations _ _ _ _ _ _ _ Hinv _ _ _ _ (gd_block _ _ Hc) Hid) as (o & Ho & Hob & Hord & _).
    assert (exists ts, mapM (read c) (op_operands o) = Some ts) as [ts Hts].
    { apply reads_Some. intros v Hv. destruct (Hops id o v) as [t Ht]; [by eapply list_elem_of_lookup_2|done|done|].
      exists t. eapply read_resolved; [exact Hc| |by rewrite (at_block_id _ _ Hc)].
      cbv beta iota. intros j oid Hj Hlt. rewrite Hord in Hlt. apply Hpre.
      rewrite Hl, lookup_app_l in Hj by lia. by eapply list_elem_of_lookup_2. }
    cbn [CfgSafety.run_operations]. unfold run_operation. rewrite (lookup_by_indexed _ _ _ _ Hos), Ho.
    cbn [mbind option_bind]. rewrite Hts. cbn [mbind option_bind].
    destruct (IH (pre ++ [id]) (mkConfig (at_block c) (locals c) (<[id := op_result_types o]> (results c))))
      as (c1 & H1 & H2 & H3 & H4).
    + by apply good_result.
    + by rewrite <- app_assoc.
    + intros oid Hin. apply lookup_insert_is_Some'. apply elem_of_app in Hin as [Hin|Hin]; [right; by apply Hpre|].
      left. by apply list_elem_of_singleton in Hin.
    + by exists c1.
Qed.

(** ** Leaving a block *)

Definition edge_of (b : Block) (target : EntityId) : Prop := target ∈ terminator_targets (blk_terminator b).

Lemma enter_good c b target tb args :
  good c b -> (forall oid, oid ∈ blk_operations b -> executed c oid) -> edge_of b target ->
  gi_blocks gi !! target = Some tb ->
  Forall2 (fun t id => exists p, gi_parameters gi !! id = Some p /\ t = prm_value_type p) args (blk_parameters tb) ->
  exists c', enter c target args = Some c' /\ good c' tb.
Proof using Hinv Hflow Hps Hbs.
  intros Hc Hdone Hedge Ht Hargs. unfold CfgSafety.enter. rewrite (lookup_by_indexed _ _ _ _ Hbs), Ht.
  cbn [mbind option_bind].
  assert (mapM (fun id => prm_value_type <$> lookup_by prm_entity_id parameters id) (blk_parameters tb) = Some args) as ->.
  { apply mapM_Some. apply Forall2_flip. eapply Forall2_impl; [exact Hargs|]. intros t id (p & Hp & ->).
    cbv beta. rewrite (lookup_by_indexed _ _ _ _ Hps), Hp. done. }
  cbn [mbind option_bind]. rewrite decide_True by done. eexists. split; [done|].
  assert (gi_ok gi) as Hgi by (split; [done|by exists entry, g]).
  assert (length args = length (blk_parameters tb)) as Hlen by by eapply Forall2_length.
  split; cbn.
  - done.
  - destruct (gd_path _ _ Hc) as (u & p & Hu & Hp & Hprev).
    destruct (gi_index_of _ Hgi target) as [vi Hv]; [by eexists|]. exists (N.to_nat vi), (u :: p).
    rewrite N2Nat.id. split_and!; [done| |].
    + apply (Path_step _ _ u); [done|]. apply (fo_edges _ _ _ Hflow). exists (at_block c), b, target.
      rewrite N2Nat.id. split_and!; [|done|apply Hc|done|done].
      apply index_position in Hu. by eapply list_elem_of_lookup_2.
    + intros w wid wb oid [->|Hw]%elem_of_cons Hwid Hwb Hin; unfold executed; cbn.
      * apply Hdone. apply index_position in Hu. rewrite Hu in Hwid. injection Hwid as <-.
        rewrite (gd_block _ _ Hc) in Hwb. by injection Hwb as <-.
      * by eapply Hprev.
  - intros id t Hid. apply elem_of_list_to_map_2, list_elem_of_lookup_1 in Hid as [j Hj].
    apply lookup_zip_with_Some in Hj as (? & ? & [= <- <-] & Hj & Ha).
    split; [by eapply list_elem_of_lookup_2|].
    by apply (Forall2_lookup_lr _ _ _ _ _ _ Hargs Ha Hj).
  - intros id Hid. apply elem_of_dom. rewrite dom_list_to_map_L. apply elem_of_list_to_set.
    rewrite fst_zip by lia. done.
  - apply Hc.
Qed.

(** Arguments checked against parameters can be read, at the parameters' types. *)
Lemma arguments_checked {A} (rd : A -> option TypeExpr) (rs : A -> cfg_out TypeExpr) args params :
  (forall a t, rs a = Ok t -> rd a = Some t) ->
  for_each (fun '(argument, parameter_id) =>
      actual ← rs argument;
      expected ← index (gi_parameters gi) parameter_id;
      if decide (actual = prm_value_type expected) then Ok tt else fail CfgTargetArguments)
    (zip args params) = Ok tt ->
  len args = len params ->
  exists ts, mapM rd args = Some ts /\
    Forall2 (fun t id => exists p, gi_parameters gi !! id = Some p /\ t = prm_value_type p) ts params.
Proof using Type.
  intros Hrd. revert params. induction args as [|a args IH]; intros [|id params] H Hl; rewrite ?len_cons, ?len_nil in Hl; try lia.
  - exists []. split; [done|constructor].
  - cbn [zip zip_with for_each] in H. destruct (rs a) as [t|] eqn:Ha; [|done]. cbn [mbind result_bind] in H.
    destruct (index _ id) as [p|] eqn:Hp; [apply index_Ok in Hp|done]. cbn [mbind result_bind] in H.
    case_decide as Ht; [|done]. cbn [mbind result_bind] in H.
    destruct (IH params H) as (ts & Hts & Hall); [lia|]. exists (t :: ts). cbn. rewrite (Hrd _ _ Ha). cbn.
    rewrite Hts. split; [done|]. constructor; [by exists p|done].
Qed.

Section leaving.
Context (c : Config) (b : Block).
Hypothesis Hc : good c b.
Hypothesis Hdone : forall oid, oid ∈ blk_operations b -> executed c oid.

Lemma read_at_end v t : resolve_value gi v (blk_entity_id b) None = Ok t -> read c v = Some t.
Proof using Hinv Hflow Hps Hc Hdone.
  intros H. eapply read_resolved; [exact Hc| |by rewrite (at_block_id _ _ Hc)].
  intros j oid Hj _. apply Hdone. by eapply list_elem_of_lookup_2.
Qed.

Lemma target_edge_taken edge :
  edge_of b (te_target edge) -> validate_target_edge gi b edge = Ok tt ->
  exists c' tb, take_edge c edge = Some c' /\ good c' tb.
Proof using Hinv Hflow Hps Hbs Hc Hdone.
  intros He H. unfold validate_target_edge in H. destruct (edge_target _ _ _) as [tb|] eqn:Ht; [|done].
  cbn [mbind result_bind] in H. apply edge_target_Ok in Ht as [Ht Hl].
  destruct (arguments_checked (read c) _ _ _ read_at_end H Hl) as (ts & Hts & Hall).
  destruct (enter_good c b _ tb ts Hc Hdone He Ht Hall) as (c' & Hc' & Hg).
  exists c', tb. split; [|done]. unfold CfgSafety.take_edge. rewrite Hts. done.
Qed.

Lemma case_taken payload edge tb :
  edge_of b (se_target edge) -> edge_target gi (se_target edge) (len (se_arguments edge)) = Ok tb ->
  for_each (fun '(argument, parameter_id) =>
      actual ← match argument with
               | SAValue value => resolve_value gi value (blk_entity_id b) None
               | SACasePayload => ok_or (cfg_code CfgSwitchPayload) payload
               end;
      expected ← index (gi_parameters gi) parameter_id;
      if decide (actual = prm_value_type expected) then Ok tt else fail CfgTargetArguments)
    (zip (se_arguments edge) (blk_parameters tb)) = Ok tt ->
  exists c', take_case c payload edge = Some c' /\ good c' tb.
Proof using Hinv Hflow Hps Hbs Hc Hdone.
  intros He Ht H. apply edge_target_Ok in Ht as [Ht Hl].
  assert (forall a t,
    match a with
    | SAValue value => resolve_value gi value (blk_entity_id b) None
    | SACasePayload => ok_or (cfg_code CfgSwitchPayload) payload
    end = Ok t -> match a with SAValue v => read c v | SACasePayload => payload end = Some t) as Hread.
  { intros [v|] t Hv; [by apply read_at_end|]. destruct payload; [|done]. by injection Hv as ->. }
  destruct (arguments_checked _ _ _ _ Hread H Hl) as (ts & Hts & Hall).
  destruct (enter_good c b _ tb ts Hc Hdone He Ht Hall) as (c' & Hc' & Hg).
  exists c'. split; [|done]. unfold CfgSafety.take_case. rewrite Hts. done.
Qed.
End leaving.

(** ** The terminators *)

Lemma switch_ready c b sw :
  good c b -> (forall oid, oid ∈ blk_operations b -> executed c oid) ->
  blk_terminator b = TermVariantSwitch sw -> validate_switch gi b sw = Ok tt ->
  (exists t, read c (vs_value sw) = Some t /\ switchable (gi_types gi) t) /\
  (forall t key payload, read c (vs_value sw) = Some t -> TypeCase (gi_types gi) t key payload ->
     key ∈ sc_case_key <$> vs_cases sw /\
     forall case, case ∈ vs_cases sw -> sc_case_key case = key ->
       exists c' tb, take_case c payload (sc_edge case) = Some c' /\ good c' tb).
Proof using Hinv Hflow Hps Hbs.
  intros Hc Hdone Hterm H. unfold validate_switch in H.
  destruct (resolve_value _ _ _ _) as [t|] eqn:Ht; [|done]. cbn [mbind result_bind] in H.
  pose proof (read_at_end c b Hc Hdone _ _ Ht) as Hr.
  destruct (expected_switch_cases gi t) as [cases|] eqn:Hcases; [|done]. cbn [mbind result_bind] in H.
  destruct (expected_cases_spec _ _ _ Hcases) as [Hsw Hall].
  destruct (negb (len _ =? len _)%N); [done|]. cbn [orb] in H.
  destruct (keys_increasing (sc_case_key <$> vs_cases sw)) eqn:Hinc; [|done]. cbn [negb orb] in H.
  case_bool_decide as Hkeys; [|done]. cbn [negb] in H.
  split; [by exists t|]. intros t' key payload Ht' Hk. rewrite Hr in Ht'. injection Ht' as <-.
  apply Hall in Hk as Hin. split.
  { rewrite Hkeys. apply list_elem_of_fmap. by exists (key, payload). }
  intros case Hcase Hkey. rewrite for_each_Ok, Forall_forall in H.
  apply list_elem_of_lookup_1 in Hcase as [i Hi].
  assert (exists p, cases !! i = Some (key, p)) as [p Hp].
  { assert ((sc_case_key <$> vs_cases sw) !! i = Some key) as Hki by (rewrite list_lookup_fmap, Hi; cbn; by f_equal).
    rewrite Hkeys, list_lookup_fmap in Hki. destruct (cases !! i) as [[k p]|]; [|done]. injection Hki as ->. by exists p. }
  assert (p = payload) as ->.
  { pose proof (keys_increasing_NoDup _ Hinc) as Hnd. rewrite Hkeys in Hnd.
    apply list_elem_of_lookup_1 in Hin as [j Hj].
    assert (i = j) as -> by (eapply NoDup_lookup; [exact Hnd|rewrite list_lookup_fmap, Hp; done|rewrite list_lookup_fmap, Hj; done]).
    congruence. }
  assert ((case, (key, payload)) ∈ zip (vs_cases sw) cases) as Hz.
  { apply list_elem_of_lookup. exists i. by rewrite lookup_zip_with, Hi, Hp. }
  apply H in Hz. cbv beta iota zeta in Hz. destruct (edge_target _ _ _) as [tb|] eqn:Htb; [|done].
  cbn [mbind result_bind] in Hz.
  destruct (case_taken c b Hc Hdone payload (sc_edge case) tb) as (c' & Hc' & Hg); [|done|done|by exists c', tb].
  unfold edge_of. rewrite Hterm. cbn. apply list_elem_of_fmap. exists case. split; [done|by eapply list_elem_of_lookup_2].
Qed.

Lemma terminator_good c b :
  good c b -> (forall oid, oid ∈ blk_operations b -> executed c oid) -> validate_terminator gi b = Ok tt ->
  terminator_ready (gi_types gi) function parameters c (blk_terminator b) /\
  forall o, leaves (gi_types gi) function parameters blocks c (blk_terminator b) o ->
    exists c' tb, o = Some c' /\ good c' tb.
Proof using Hinv Hflow Hps Hbs.
  intros Hc Hdone H. pose proof (read_at_end c b Hc Hdone) as Hread.
  pose proof (fun e He => target_edge_taken c b Hc Hdone e He) as Hedge. unfold edge_of in Hedge.
  unfold validate_terminator in H. destruct (blk_terminator b) as [v|br|br|sw|tr] eqn:Hterm; cbn [terminator_ready].
  - destruct (resolve_value _ _ _ _) as [t|] eqn:Ht; [|done]. cbn [mbind result_bind] in H. case_decide as E; [|done].
    split; [rewrite <- E; by apply Hread|]. intros o Ho. inversion Ho.
  - split; [done|]. intros o Ho. inversion Ho; subst.
    destruct (Hedge (br_edge br)) as (c' & tb & ? & ?); [by left|done|]. by exists c', tb.
  - destruct (resolve_value _ _ _ _) as [t|] eqn:Ht; [|done]. cbn [mbind result_bind] in H. case_decide as E; [|done].
    subst t. apply bind_Ok in H as ([] & Ht1 & Ht2). split; [by apply Hread|]. intros o Ho. inversion Ho; subst.
    + destruct (Hedge (cbr_if_true br)) as (c' & tb & ? & ?); [by left|done|]. by exists c', tb.
    + destruct (Hedge (cbr_if_false br)) as (c' & tb & ? & ?); [by right; left|done|]. by exists c', tb.
  - destruct (switch_ready c b sw Hc Hdone Hterm H) as [Hr Hcases]. split; [done|]. intros o Ho. inversion Ho; subst.
    + edestruct Hcases as [_ Hcs]; [done|done|]. edestruct Hcs as (c' & tb & ? & ?); [done|done|]. by exists c', tb.
    + edestruct Hcases as [Hkin _]; [done|done|]. done.
  - split; [|intros o Ho; inversion Ho]. destruct (trap_payload tr) as [v|]; [|done].
    destruct (resolve_value _ _ _ _) as [t|] eqn:Ht; [|done]. exists t. by apply Hread.
Qed.

(** ** A good machine is not stuck and stays good *)

Hypothesis Hvalues : validate_values_and_terminators gi = Ok tt.

Lemma block_checked c b : good c b -> operands_ok b /\ validate_terminator gi b = Ok tt.
Proof using Hinv Hvalues.
  intros Hc. pose proof (gd_block _ _ Hc) as Hb.
  assert (at_block c ∈ fg_blocks function) as Hin by (apply (io_blocks _ _ _ _ _ _ _ Hinv); by eexists).
  unfold validate_values_and_terminators in Hvalues. apply bind_Ok in Hvalues as ([] & H1 & H2).
  rewrite for_each_Ok, Forall_forall in H1, H2. specialize (H1 _ Hin). specialize (H2 _ Hin). cbv beta in H1, H2.
  rewrite (proj2 (index_Ok _ _ _) Hb) in H1, H2. cbn [mbind result_bind] in H1, H2. split; [|done].
  rewrite for_each_Ok, Forall_forall in H1. intros oid o v Hoid Ho Hv. specialize (H1 _ Hoid). cbv beta in H1.
  rewrite (proj2 (index_Ok _ _ _) Ho) in H1. cbn [mbind result_bind] in H1.
  rewrite for_each_Ok, Forall_forall in H1. specialize (H1 _ Hv). cbv beta in H1.
  rewrite <- (at_block_id _ _ Hc). destruct (resolve_value _ _ _ _) as [t|]; [by exists t|done].
Qed.

Lemma good_block_of c b : good c b -> lookup_by blk_entity_id blocks (at_block c) = Some b.
Proof using Hbs. intros Hc. rewrite (lookup_by_indexed _ _ _ _ Hbs). apply Hc. Qed.

Lemma good_not_stuck c b :
  good c b -> not_stuck (gi_types gi) function parameters blocks operations c /\
  forall c', step (gi_types gi) function parameters blocks operations c c' -> exists b', good c' b'.
Proof using Hinv Hflow Hps Hbs Hos Hvalues.
  intros Hc. destruct (block_checked c b Hc) as [Hops Hterm].
  destruct (run_operations_good b [] (blk_operations b) c Hc Hops) as (c1 & Hrun & Hc1 & Hat & Hdone); [done|set_solver|].
  destruct (terminator_good c1 b Hc1 Hdone Hterm) as [Hready Hleave]. split.
  - exists b, c1. split_and!; [by apply good_block_of|done|done|].
    intros o (c' & tb & -> & _)%Hleave. by eexists.
  - intros c' [b' c2 c'' Hb' Hrun' Hl]. rewrite (good_block_of _ _ Hc) in Hb'. injection Hb' as <-.
    rewrite Hrun in Hrun'. injection Hrun' as <-. apply Hleave in Hl as (c3 & tb & [= ->] & Hg). by exists tb.
Qed.
End safety.

(** A function is entered in a good state. *)
Lemma initial_good gi blocks entry g :
  inventory_ok (gi_types gi) (gi_function gi) (gi_parameter_count gi) (gi_parameters gi) (gi_blocks gi) (gi_operations gi)
    (gi_block_indices gi) -> flow_ok gi entry g -> indexed blk_entity_id blocks (gi_blocks gi) ->
  (forall b, lookup_by blk_entity_id blocks (fg_entry_block (gi_function gi)) = Some b -> blk_parameters b = []) ->
  exists b, good gi entry g (initial (gi_function gi)) b.
Proof.
  intros Hinv Hflow Hbs Hentry.
  pose proof (fo_entry _ _ _ Hflow) as He.
    assert (is_Some (gi_blocks gi !! fg_entry_block (gi_function gi))) as [b Hb].
    { apply (io_blocks _ _ _ _ _ _ _ Hinv). apply (io_indices _ _ _ _ _ _ _ Hinv) in He. by eapply list_elem_of_lookup_2. }
    exists b. assert (blk_parameters b = []) as Hnone by (apply Hentry; by rewrite (lookup_by_indexed _ _ _ _ Hbs)).
    split; cbn.
    - done.
    - exists entry, []. split_and!; [done|constructor|]. by intros w wid wb oid ?%elem_of_nil.
    - intros id t Hl. by rewrite lookup_empty in Hl.
    - rewrite Hnone. by intros id ?%elem_of_nil.
    - intros oid ts Hr. by rewrite lookup_empty in Hr.
Qed.

(** ** The validator's guarantee *)

(** C8: a function the validator accepts, whose entry block has no
    parameters, never gets stuck: in every state that running it on types can
    reach, each operand of each operation is defined, the terminator finds
    the values it reads at the types it needs, and every edge it can take,
    one for each case of a switched-on type, passes the target's parameters
    at their declared types. *)
Theorem accepted_function_is_safe types function parameters blocks operations report :
  validate_function_graph types function parameters blocks operations = Ok report ->
  (forall b, lookup_by blk_entity_id blocks (fg_entry_block function) = Some b -> blk_parameters b = []) ->
  forall c, rtc (step types function parameters blocks operations) (initial function) c ->
    not_stuck types function parameters blocks operations c.
Proof.
  intros H Hentry. unfold validate_function_graph in H. apply bind_Ok in H as (gi & Hgi & H).
  apply bind_Ok in H as ([] & Hvalues & _).
  pose proof (build_spec types function parameters blocks operations) as B. rewrite Hgi in B.
  destruct B as ([Hinv (entry & g & Hflow)] & Ht & Hf & Hps & Hbs & Hos & _). rewrite <- Ht, <- Hf in *.
  pose proof (initial_good gi blocks entry g Hinv Hflow Hbs Hentry) as Hinit.
  intros c Hc. enough (exists b, good gi entry g c b) as [b Hb].
  { by eapply (good_not_stuck gi parameters blocks operations entry g). }
  revert Hc. generalize (initial (gi_function gi)), Hinit. intros c0 Hc0 Hc.
  induction Hc as [|c0 c1 c2 Hstep _ IH]; [done|]. apply IH. destruct Hc0 as [b Hb].
  by eapply (good_not_stuck gi parameters blocks operations entry g).
Qed.

(** A loop: block 10 computes operation 20 from the parameter 5 and enters
    block 11 with it; block 11 returns its parameter 6 or goes round again
    with a result of block 10. *)
Module Loop.
Definition function : FunctionGraph :=
  mkFunctionGraph 1 [] [5%N; 7%N] (TUInt 32) [] 10 [10%N; 11%N; 12%N] [] VPrivate.
Definition parameters : list ParameterDef :=
  [mkParameterDef 5 1 PRFunction 0 TBool; mkParameterDef 7 1 PRFunction 1 (TOption (TUInt 32));
   mkParameterDef 6 11 PRBlock 0 (TUInt 32)].
Definition blocks : list Block :=
  [mkBlock 10 1 [] [20%N] (TermBranch (mkBranchTerminator
     (mkTargetEdge 11 [VROperationResult (mkOperationResultRef 20 0)]))) RCRequired;
   mkBlock 11 1 [6%N] [] (TermVariantSwitch (mkVariantSwitchTerminator (VRParameter 7)
     [mkSwitchCase (KeyBuiltin BCNone) (mkSwitchEdge 12 []);
      mkSwitchCase (KeyBuiltin BCSome) (mkSwitchEdge 11 [SACasePayload])])) RCRequired;
   mkBlock 12 1 [] [] (TermReturn (mkReturnTerminator
     (VROperationResult (mkOperationResultRef 20 0)))) RCRequired].
Definition operations : list Operation :=
  [mkOperation 20 10 0 OpVectorLen [VRParameter 5] [TUInt 32] ImmNone].

Definition report : CfgReport := mkCfgReport [10%N; 11%N; 12%N] 3 10.

Lemma accepted : validate_function_graph ∅ function parameters blocks operations = Ok report.
Proof. vm_compute. reflexivity. Qed.
End Loop.

Theorem accepted_function_is_safe_witness :
  not_stuck ∅ Loop.function Loop.parameters Loop.blocks Loop.operations (initial Loop.function).
Proof.
  apply (accepted_function_is_safe ∅ Loop.function Loop.parameters Loop.blocks Loop.operations Loop.report).
  - apply Loop.accepted.
  - intros b H. vm_compute in H. injection H as <-. reflexivity.
  - constructor.
Defined.

(** An entry block that takes a parameter and returns it. *)
Module Entry.
Definition function : FunctionGraph :=
  mkFunctionGraph 1 [] [] TBool [] 10 [10%N] [] VPrivate.
Definition parameters : list ParameterDef := [mkParameterDef 6 10 PRBlock 0 TBool].
Definition blocks : list Block :=
  [mkBlock 10 1 [6%N] [] (TermReturn (mkReturnTerminator (VRParameter 6))) RCRequired].
End Entry.

(** The validator accepts an entry block with a parameter, although
    nothing binds the parameter when the function is entered: the machine is
    stuck in its first block.  The condition of [accepted_function_is_safe]
    is one the validator does not check. *)
Theorem entry_parameters_accepted :
  validate_function_graph ∅ Entry.function Entry.parameters Entry.blocks [] = Ok (mkCfgReport [10%N] 0 0) /\
  ~ not_stuck ∅ Entry.function Entry.parameters Entry.blocks [] (initial Entry.function).
Proof.
  split; [vm_compute; reflexivity|].
  intros (b & c1 & Hb & Hrun & Hready & _). vm_compute in Hb. injection Hb as <-.
  cbn in Hrun. injection Hrun as <-. vm_compute in Hready. discriminate.
Qed.
