(* ===== verification/ValueOrder.v ===== *)
(** * The total order of types and constants (crates/sley-check/src/effects.rs)

    [compare_types] and [compare_const_values] order the allowed scopes of a
    capability requirement.  Both are shown to be total orders by an order
    embedding: a type or constant is written as a list of numbers such that
    comparing two values, then something else, is comparing their lists
    followed by something else lexicographically ([Embeds]). *)

From S2P Require Import Prelude Bytes Ids Ssmc.

Set Warnings "-register-all".

(** ** Definitions *)

Section compare_lists.
Context {T : Type} (compare : T -> T -> comparison).

(** The loop over [left.iter().zip(right)], then the comparison of the
    lengths; past the zipped part the lengths differ as what is lhs does. *)
Fixpoint compare_lists (lhs rhs : list T) : comparison :=
  match lhs, rhs with
  | l :: lhs', r :: rhs' =>
      match compare l r with
      | Eq => compare_lists lhs' rhs'
      | order => order
      end
  | _, _ => (len lhs ?= len rhs)%N
  end.

Definition compare_options (lhs rhs : option T) : comparison :=
  match lhs, rhs with
  | None, None => Eq
  | None, Some _ => Lt
  | Some _, None => Gt
  | Some lhs, Some rhs => compare lhs rhs
  end.

Definition compare_results (lhs rhs : ResultConst T) : comparison :=
  then_with (ResultConst_tag lhs ?= ResultConst_tag rhs)%N
    match lhs, rhs with
    | ROk lhs, ROk rhs | RErr lhs, RErr rhs => compare lhs rhs
    | _, _ => Eq
    end.
End compare_lists.

Fixpoint compare_types (lhs rhs : TypeExpr) : comparison :=
  then_with (TypeExpr_tag lhs ?= TypeExpr_tag rhs)%N
    match lhs, rhs with
    | TSInt lhs, TSInt rhs | TUInt lhs, TUInt rhs => (lhs ?= rhs)%N
    | TTuple lhs, TTuple rhs => compare_lists compare_types lhs rhs
    | TNamed left_definition left_arguments, TNamed right_definition right_arguments =>
        then_with (left_definition ?= right_definition)%N
          (compare_lists compare_types left_arguments right_arguments)
    | TVector lhs, TVector rhs | TOption lhs, TOption rhs | TLocalCell lhs, TLocalCell rhs =>
        compare_types lhs rhs
    | TOrderedMap left_key left_value, TOrderedMap right_key right_value =>
        then_with (compare_types left_key right_key) (compare_types left_value right_value)
    | TResult left_ok left_error, TResult right_ok right_error =>
        then_with (compare_types left_ok right_ok) (compare_types left_error right_error)
    | TFunctionRef left_parameters left_result left_effects,
      TFunctionRef right_parameters right_result right_effects =>
        then_with (compare_lists compare_types left_parameters right_parameters)
          (then_with (compare_types left_result right_result)
             (lex_compare N.compare left_effects right_effects))
    | TAdapterHandle lhs, TAdapterHandle rhs | TCapabilityToken lhs, TCapabilityToken rhs => (lhs ?= rhs)%N
    | TTypeParameter lhs, TTypeParameter rhs => (lhs ?= rhs)%N
    | TBuiltinFailure lhs, TBuiltinFailure rhs =>
        (BuiltinFailureKind_tag lhs ?= BuiltinFailureKind_tag rhs)%N
    | _, _ => Eq
    end.

(** [bool::cmp] *)
Definition bool_cmp (a b : bool) : comparison := (N.b2n a ?= N.b2n b)%N.

Fixpoint compare_const_values (lhs rhs : ConstValue) : comparison :=
  match lhs, rhs with
  | mkConstValue left_type left_data, mkConstValue right_type right_data =>
      then_with (compare_types left_type right_type) (compare_const_data left_data right_data)
  end
with compare_const_data (lhs rhs : ConstData) : comparison :=
  then_with (ConstData_tag lhs ?= ConstData_tag rhs)%N
    match lhs, rhs with
    | DBool lhs, DBool rhs => bool_cmp lhs rhs
    | DSInt lhs, DSInt rhs => (lhs ?= rhs)%Z
    | DUInt lhs, DUInt rhs => (lhs ?= rhs)%N
    | DF32Bits lhs, DF32Bits rhs => (lhs ?= rhs)%N
    | DF64Bits lhs, DF64Bits rhs => (lhs ?= rhs)%N
    | DBytes lhs, DBytes rhs => bytes_cmp lhs rhs
    | DText lhs, DText rhs => bytes_cmp lhs rhs
    | DSequence lhs, DSequence rhs => compare_lists compare_const_values lhs rhs
    | DRecord lhs, DRecord rhs =>
        then_with (rc_definition lhs ?= rc_definition rhs)%N
          (compare_lists (fun lhs rhs =>
              then_with (fc_member_id lhs ?= fc_member_id rhs)%N
                (compare_const_values (fc_value lhs) (fc_value rhs)))
            (rc_fields lhs) (rc_fields rhs))
    | DVariant lhs, DVariant rhs =>
        then_with (vk_definition lhs ?= vk_definition rhs)%N
          (then_with (vk_member_id lhs ?= vk_member_id rhs)%N
             (compare_options compare_const_values (vk_payload lhs) (vk_payload rhs)))
    | DMap lhs, DMap rhs =>
        compare_lists (fun lhs rhs =>
            then_with (compare_const_values (me_key lhs) (me_key rhs))
              (compare_const_values (me_value lhs) (me_value rhs))) lhs rhs
    | DOption lhs, DOption rhs => compare_options compare_const_values lhs rhs
    | DResult lhs, DResult rhs => compare_results compare_const_values lhs rhs
    | DFunctionRef lhs, DFunctionRef rhs =>
        then_with (frv_function lhs ?= frv_function rhs)%N
          (compare_lists compare_types (frv_type_arguments lhs) (frv_type_arguments rhs))
    | DBuiltinFailure lhs, DBuiltinFailure rhs =>
        then_with (BuiltinFailureKind_tag (bfv_kind lhs) ?= BuiltinFailureKind_tag (bfv_kind rhs))%N
          (bfv_code lhs ?= bfv_code rhs)%N
    | _, _ => Eq
    end.

(** ** Order embeddings *)

Abbreviation lexZ := (lex_compare Z.compare).

(** [enc] embeds [cmp] in the lexicographic order at [x]: what follows decides
    only when [cmp] does not. *)
Definition EmbedsAt {A} (cmp : A -> A -> comparison) (enc : A -> list Z) (x : A) : Prop :=
  forall y a b, lexZ (enc x ++ a) (enc y ++ b) = then_with (cmp x y) (lexZ a b).

Definition Embeds {A} (cmp : A -> A -> comparison) (enc : A -> list Z) : Prop := forall x, EmbedsAt cmp enc x.

Lemma then_with_assoc c d e : then_with (then_with c d) e = then_with c (then_with d e).
Proof. by destruct c. Qed.

Definition encN (n : N) : list Z := [Z.of_N n].

Lemma embeds_N : Embeds N.compare encN.
Proof. intros x y a b. cbn. rewrite N2Z.inj_compare. by destruct (x ?= y)%N. Qed.

Lemma embeds_Z : Embeds Z.compare (fun z => [z]).
Proof. intros x y a b. cbn. by destruct (x ?= y)%Z. Qed.

(** Embedding through a function to numbers. *)
Lemma embeds_tag {A} (tag : A -> N) : Embeds (fun x y => (tag x ?= tag y)%N) (fun x => encN (tag x)).
Proof. intros x y a b. apply embeds_N. Qed.

Definition enc_list {A} (enc : A -> list Z) (l : list A) : list Z := foldr (fun x acc => 1%Z :: enc x ++ acc) [0%Z] l.

Lemma embeds_list {A} cmp (enc : A -> list Z) l :
  Forall (EmbedsAt cmp enc) l -> EmbedsAt (compare_lists cmp) (enc_list enc) l.
Proof.
  induction 1 as [|x l Hx _ IH]; intros [|y r] a b; cbn [enc_list foldr app]; try done.
  - rewrite <- !app_assoc. cbn [lex_compare]. rewrite Z.compare_refl. fold (enc_list enc l) (enc_list enc r).
    rewrite Hx. cbn [compare_lists]. rewrite IH. by destruct (cmp x y).
Qed.

Lemma compare_lists_lex {A} (cmp : A -> A -> comparison) l r : compare_lists cmp l r = lex_compare cmp l r.
Proof. revert r. induction l as [|x l IH]; intros [|y r]; try done. cbn. rewrite IH. by destruct (cmp x y). Qed.

Lemma embeds_lex {A} cmp (enc : A -> list Z) : Embeds cmp enc -> Embeds (lex_compare cmp) (enc_list enc).
Proof.
  intros H l y a b. rewrite <- (compare_lists_lex cmp). apply embeds_list. by apply Forall_forall.
Qed.

Definition enc_bytes (b : bytes) : list Z := enc_list (fun x => encN (b2n x)) b.

Lemma embeds_bytes : Embeds bytes_cmp enc_bytes.
Proof. apply embeds_lex. intros x y a b. apply embeds_N. Qed.

(** Two embedded parts in a row. *)
Lemma embeds_then c1 c2 (e1 e1' e2 e2' a b : list Z) :
  (forall a b, lexZ (e1 ++ a) (e1' ++ b) = then_with c1 (lexZ a b)) ->
  (forall a b, lexZ (e2 ++ a) (e2' ++ b) = then_with c2 (lexZ a b)) ->
  lexZ ((e1 ++ e2) ++ a) ((e1' ++ e2') ++ b) = then_with (then_with c1 c2) (lexZ a b).
Proof. intros H1 H2. rewrite <- !app_assoc, H1, H2. by rewrite then_with_assoc. Qed.

Definition enc_option {A} (enc : A -> list Z) (o : option A) : list Z :=
  match o with None => [0%Z] | Some x => 1%Z :: enc x end.

Lemma embeds_option {A} cmp (enc : A -> list Z) o :
  Forall (EmbedsAt cmp enc) (option_list o) -> EmbedsAt (compare_options cmp) (enc_option enc) o.
Proof.
  intros H [y|] a b; destruct o as [x|]; cbn; try done. apply Forall_cons in H as [Hx _]. by rewrite Hx.
Qed.

Definition enc_result {A} (enc : A -> list Z) (r : ResultConst A) : list Z :=
  match r with ROk x => 1%Z :: enc x | RErr x => 2%Z :: enc x end.

Lemma embeds_result {A} cmp (enc : A -> list Z) r :
  (forall x, r = ROk x \/ r = RErr x -> EmbedsAt cmp enc x) -> EmbedsAt (compare_results cmp) (enc_result enc) r.
Proof. intros H r' a b. destruct r as [x|x], r' as [y|y]; cbn; try done; apply H; auto. Qed.

(** ** Types *)

Fixpoint enc_type (t : TypeExpr) : list Z :=
  encN (TypeExpr_tag t) ++
    match t with
    | TSInt w | TUInt w => encN w
    | TTuple items => enc_list enc_type items
    | TNamed d arguments => encN d ++ enc_list enc_type arguments
    | TVector t | TOption t | TLocalCell t => enc_type t
    | TOrderedMap k v | TResult k v => enc_type k ++ enc_type v
    | TFunctionRef parameters result effects =>
        enc_list enc_type parameters ++ enc_type result ++ enc_list encN effects
    | TAdapterHandle n | TCapabilityToken n | TTypeParameter n => encN n
    | TBuiltinFailure kind => encN (BuiltinFailureKind_tag kind)
    | _ => []
    end.

(** The tag decides, or the payloads of one constructor are compared. *)
Lemma embeds_tagged n m c (p q a b : list Z) :
  (n = m -> lexZ (p ++ a) (q ++ b) = then_with c (lexZ a b)) ->
  lexZ ((encN n ++ p) ++ a) ((encN m ++ q) ++ b) = then_with (then_with (n ?= m)%N c) (lexZ a b).
Proof.
  intros H. rewrite <- !app_assoc, (embeds_N n m). rewrite then_with_assoc.
  destruct (n ?= m)%N eqn:E; try done. apply N.compare_eq_iff in E. cbn. by rewrite H.
Qed.

#[local] Ltac distinct_tags := by (intros E; vm_compute in E; discriminate).

Lemma embeds_types : Embeds compare_types enc_type.
Proof.
  intros t. induction t as [t IH] using TypeExpr_ind'. intros u a b.
  assert (forall l r a b, Forall (EmbedsAt compare_types enc_type) l ->
    lexZ (enc_list enc_type l ++ a) (enc_list enc_type r ++ b) =
    then_with (compare_lists compare_types l r) (lexZ a b)) as Hlist by (intros; by apply embeds_list).
  destruct t, u; cbn [enc_type compare_types]; apply embeds_tagged; try distinct_tags; intros _;
    cbn [type_children] in IH; rewrite ?app_nil_l; try done.
  all: try (apply embeds_N).
  all: try (by apply Hlist).
  all: try (apply Forall_cons in IH as [IH1 IH]; try apply Forall_cons in IH as [IH2 IH]).
  all: try (by apply IH1).
  all: try (apply embeds_then; intros; [apply IH1|apply IH2]).
  - apply embeds_then; intros; [apply embeds_N|by apply Hlist].
  - apply Forall_app in IH as [IHp [IHr _]%Forall_cons].
    apply embeds_then; intros; [by apply Hlist|]. apply embeds_then; intros; [apply IHr|].
    apply embeds_lex, embeds_N.
Qed.

(** ** Constants *)

Section enc_const.
Variable enc_value : ConstValue -> list Z.

Definition enc_field (f : FieldConst ConstValue) : list Z := encN (fc_member_id f) ++ enc_value (fc_value f).
Definition enc_entry (e : MapEntryConst ConstValue) : list Z := enc_value (me_key e) ++ enc_value (me_value e).

Definition enc_data_with (d : ConstData) : list Z :=
  encN (ConstData_tag d) ++
  match d with
  | DUnit => []
  | DBool b => encN (N.b2n b)
  | DSInt z => [z]
  | DUInt n | DF32Bits n | DF64Bits n => encN n
  | DBytes b | DText b => enc_bytes b
  | DSequence items => enc_list enc_value items
  | DRecord r => encN (rc_definition r) ++ enc_list enc_field (rc_fields r)
  | DVariant v => encN (vk_definition v) ++ encN (vk_member_id v) ++ enc_option enc_value (vk_payload v)
  | DMap entries => enc_list enc_entry entries
  | DOption o => enc_option enc_value o
  | DResult r => enc_result enc_value r
  | DFunctionRef f => encN (frv_function f) ++ enc_list enc_type (frv_type_arguments f)
  | DBuiltinFailure f => encN (BuiltinFailureKind_tag (bfv_kind f)) ++ encN (bfv_code f)
  end.
End enc_const.

Fixpoint enc_const (v : ConstValue) : list Z :=
  match v with mkConstValue t d => enc_type t ++ enc_data_with enc_const d end.

Definition data_embeds (d : ConstData) : Prop := forall e a b,
  lexZ (enc_data_with enc_const d ++ a) (enc_data_with enc_const e ++ b) =
  then_with (compare_const_data d e) (lexZ a b).

Abbreviation value_embeds := (EmbedsAt compare_const_values enc_const).

Lemma embeds_fields fields :
  Forall value_embeds (fc_value <$> fields) ->
  EmbedsAt (compare_lists (fun lhs rhs => then_with (fc_member_id lhs ?= fc_member_id rhs)%N
    (compare_const_values (fc_value lhs) (fc_value rhs)))) (enc_list (enc_field enc_const)) fields.
Proof.
  intros H. apply embeds_list. rewrite Forall_fmap in H. eapply Forall_impl; [exact H|].
  intros f Hf g a b. apply embeds_then; intros; [apply embeds_N|apply Hf].
Qed.

Lemma embeds_entries entries :
  Forall value_embeds (entries ≫= fun e => [me_key e; me_value e]) ->
  EmbedsAt (compare_lists (fun lhs rhs => then_with (compare_const_values (me_key lhs) (me_key rhs))
    (compare_const_values (me_value lhs) (me_value rhs)))) (enc_list (enc_entry enc_const)) entries.
Proof.
  intros H. apply embeds_list. induction entries as [|e entries IH]; constructor.
  - cbn in H. apply Forall_cons in H as [Hk [Hv _]%Forall_cons]. intros f a b. apply embeds_then; intros; [apply Hk|apply Hv].
  - apply IH. cbn in H. by apply Forall_cons in H as [_ [_ ?]%Forall_cons].
Qed.

Lemma embeds_data d : Forall value_embeds (const_children d) -> data_embeds d.
Proof.
  intros IH e a b. destruct d, e; cbn [compare_const_data]; apply embeds_tagged; try distinct_tags; intros _;
    cbn [const_children] in IH; rewrite ?app_nil_l; try done.
  all: try (apply embeds_N).
  all: try (apply embeds_bytes).
  - apply embeds_Z.
  - by apply embeds_list.
  - apply embeds_then; intros; [apply embeds_N|by apply embeds_fields].
  - apply embeds_then; intros; [apply embeds_N|]. apply embeds_then; intros; [apply embeds_N|by apply embeds_option].
  - by apply embeds_entries.
  - by apply embeds_option.
  - apply embeds_result. intros x [-> | ->]; by apply Forall_cons in IH as [? _].
  - apply embeds_then; intros; [apply embeds_N|]. apply embeds_list, Forall_forall. intros t _. apply embeds_types.
  - apply embeds_then; intros; apply embeds_N.
Qed.

Lemma embeds_const : Embeds compare_const_values enc_const.
Proof.
  intros v. induction v as [t d IH] using ConstValue_ind'. intros [u e] a b. cbn [enc_const compare_const_values].
  apply embeds_then; intros; [apply embeds_types|by apply embeds_data].
Qed.

(** ** Equal exactly when identical *)

Lemma then_with_Eq c d : then_with c d = Eq <-> c = Eq /\ d = Eq.
Proof. destruct c; cbn; intuition congruence. Qed.

Lemma compare_lists_Eq {A} (cmp : A -> A -> comparison) l r :
  Forall (fun x => forall y, cmp x y = Eq -> x = y) l -> compare_lists cmp l r = Eq -> l = r.
Proof.
  intros Hl. revert r. induction Hl as [|x l Hx _ IH]; intros [|y r] H; try done.
  cbn in H. destruct (cmp x y) eqn:E; try done. f_equal; [by apply Hx|by apply IH].
Qed.

Lemma compare_options_Eq {A} (cmp : A -> A -> comparison) o p :
  Forall (fun x => forall y, cmp x y = Eq -> x = y) (option_list o) -> compare_options cmp o p = Eq -> o = p.
Proof.
  intros Ho H. destruct o as [x|], p as [y|]; try done. apply Forall_cons in Ho as [Hx _]. f_equal. by apply Hx.
Qed.

Lemma tag_kind_Eq k k' : (BuiltinFailureKind_tag k ?= BuiltinFailureKind_tag k')%N = Eq -> k = k'.
Proof. by destruct k, k'. Qed.

#[local] Ltac split_Eq :=
  repeat match goal with
  | H : then_with _ _ = Eq |- _ => apply then_with_Eq in H as [? H]
  | H : (_ ?= _)%N = Eq |- _ => apply N.compare_eq_iff in H
  | H : (_ ?= _)%Z = Eq |- _ => apply Z.compare_eq_iff in H
  | H : bytes_cmp _ _ = Eq |- _ => apply (tc_eq _ bytes_total_compare) in H
  | H : lex_compare N.compare _ _ = Eq |- _ => apply (tc_eq _ (lex_compare_total _ N_total_compare)) in H
  end.

Lemma compare_types_Eq t u : compare_types t u = Eq -> t = u.
Proof.
  revert u. induction t as [t IH] using TypeExpr_ind'. intros u H.
  assert (forall l r, Forall (fun x => forall y, compare_types x y = Eq -> x = y) l ->
    compare_lists compare_types l r = Eq -> l = r) as Hlist by (intros; by eapply compare_lists_Eq).
  destruct t, u; cbn [compare_types] in H; apply then_with_Eq in H as [Htag H];
    try (vm_compute in Htag; discriminate); cbn [type_children] in IH; try done.
  all: try (apply tag_kind_Eq in H; by subst).
  all: split_Eq; try (by subst).
  all: try (f_equal; [..|by apply Hlist]; done).
  all: try (apply Forall_cons in IH as [IH1 IH]; try apply Forall_cons in IH as [IH2 IH]; f_equal; auto; fail).
  apply Forall_app in IH as [IHp [IHr _]%Forall_cons]. f_equal; auto.
Qed.

Lemma fields_Eq fields fields' :
  Forall (fun x => forall y, compare_const_values x y = Eq -> x = y) (fc_value <$> fields) ->
  compare_lists (fun lhs rhs => then_with (fc_member_id lhs ?= fc_member_id rhs)%N
    (compare_const_values (fc_value lhs) (fc_value rhs))) fields fields' = Eq -> fields = fields'.
Proof.
  intros H. apply compare_lists_Eq. rewrite Forall_fmap in H. eapply Forall_impl; [exact H|].
  intros [m v] Hv [m' v'] E. cbn in *. split_Eq. subst. f_equal. by apply Hv.
Qed.

Lemma entries_Eq entries entries' :
  Forall (fun x => forall y, compare_const_values x y = Eq -> x = y) (entries ≫= fun e => [me_key e; me_value e]) ->
  compare_lists (fun lhs rhs => then_with (compare_const_values (me_key lhs) (me_key rhs))
    (compare_const_values (me_value lhs) (me_value rhs))) entries entries' = Eq -> entries = entries'.
Proof.
  intros H. apply compare_lists_Eq. induction entries as [|[k v] entries IH]; constructor.
  - cbn in H. apply Forall_cons in H as [Hk [Hv _]%Forall_cons]. intros [k' v'] E. cbn in *. split_Eq. f_equal; auto.
  - apply IH. cbn in H. by apply Forall_cons in H as [_ [_ ?]%Forall_cons].
Qed.

Lemma compare_const_Eq v w : compare_const_values v w = Eq -> v = w.
Proof.
  revert w. induction v as [t d IH] using ConstValue_ind'. intros [u e] H. cbn [compare_const_values] in H.
  apply then_with_Eq in H as [Ht H]. apply compare_types_Eq in Ht as <-. f_equal.
  destruct d, e; cbn [compare_const_data] in H; apply then_with_Eq in H as [Htag H];
    try (vm_compute in Htag; discriminate); cbn [const_children] in IH; try done.
  - by destruct b, b0.
  - split_Eq. by subst.
  - split_Eq. by subst.
  - split_Eq. by subst.
  - split_Eq. by subst.
  - split_Eq. by subst.
  - split_Eq. by subst.
  - f_equal. by eapply compare_lists_Eq.
  - destruct r, r0. cbn in *. split_Eq. subst. do 2 f_equal. by apply fields_Eq.
  - destruct v, v0. cbn in *. split_Eq. subst. do 2 f_equal. by eapply compare_options_Eq.
  - f_equal. by apply entries_Eq.
  - f_equal. by eapply compare_options_Eq.
  - unfold compare_results in H. apply then_with_Eq in H as [Hr H].
    destruct r as [x|x], r0 as [y|y]; try done; apply Forall_cons in IH as [Hx _]; do 2 f_equal; by apply Hx.
  - destruct f, f0. cbn in *. split_Eq. subst. do 2 f_equal. eapply compare_lists_Eq; [|done].
    apply Forall_forall. intros x _ y. apply compare_types_Eq.
  - destruct f, f0. cbn in *. apply then_with_Eq in H as [Hk H]. apply tag_kind_Eq in Hk. split_Eq. by subst.
Qed.

(** ** Total orders *)

Lemma lexZ_total : TotalCompare lexZ.
Proof.
  apply lex_compare_total. split; [apply Z.compare_eq_iff|intros; apply Z.compare_antisym|].
  intros x y z. rewrite !Z.compare_lt_iff. lia.
Qed.

Lemma embeds_lexZ {A} cmp (enc : A -> list Z) x y : Embeds cmp enc -> cmp x y = lexZ (enc x) (enc y).
Proof.
  intros H. specialize (H x y [] []). rewrite !app_nil_r in H. rewrite H. cbn. by destruct (cmp x y).
Qed.

Lemma embeds_total {A} cmp (enc : A -> list Z) :
  Embeds cmp enc -> (forall x y, cmp x y = Eq -> x = y) -> TotalCompare cmp.
Proof.
  intros H Heq. split.
  - intros x y. split; [apply Heq|]. intros ->. rewrite (embeds_lexZ _ _ _ _ H). by apply (tc_eq _ lexZ_total).
  - intros x y. rewrite !(embeds_lexZ _ _ _ _ H). apply (tc_opp _ lexZ_total).
  - intros x y z. rewrite !(embeds_lexZ _ _ _ _ H). apply (tc_trans _ lexZ_total).
Qed.

Lemma types_total : TotalCompare compare_types.
Proof. exact (embeds_total _ _ embeds_types compare_types_Eq). Qed.

Lemma const_total : TotalCompare compare_const_values.
Proof. exact (embeds_total _ _ embeds_const compare_const_Eq). Qed.

(** The comparison of constants is a total order whose equality is
    identity: the allowed scopes of a capability requirement have one strictly
    increasing arrangement. *)
Theorem compare_const_values_total a b c :
  (compare_const_values a b = Eq <-> a = b) /\
  compare_const_values b a = CompOpp (compare_const_values a b) /\
  (compare_const_values a b = Lt -> compare_const_values b c = Lt -> compare_const_values a c = Lt).
Proof. split_and!; [apply const_total|apply const_total|apply (tc_trans _ const_total)]. Qed.
