(* ===== verification/TextRows.v ===== *)
(** * The native text rows (crates/sley-check/src/text_rows.rs)

    The table of text entries: an adapter identity is "SLY1/BRIDGE/", the
    four-byte code of the entry and zeros up to 32 bytes.  The theorem says
    that the table is read the same way in both directions. *)

From S2P Require Import Prelude Bytes Ids Ssmc.
From stdpp Require Import strings.

Inductive TextKind : Type :=
| TextLength
| TextSlice
| TextConcat
| TextScalars
| TextOrd
| TextChr
| TextFromInt.

#[global] Instance TextKind_eq_dec : EqDecision TextKind.
Proof. solve_decision. Defined.

Definition TEXT_ENTRIES : list (TextKind * bytes) :=
  [(TextLength, ascii "TLN1"); (TextSlice, ascii "TSL1"); (TextConcat, ascii "TCT1");
   (TextScalars, ascii "TCS1"); (TextOrd, ascii "TOR1"); (TextChr, ascii "TCH1");
   (TextFromInt, ascii "TFI1")].

(** The two copy loops into 32 zero bytes. *)
Definition text_identity (code : bytes) : bytes :=
  let zeros := replicate 32 x00 in
  let prefix := ascii "SLY1/BRIDGE/" in
  prefix ++ code ++ drop (length prefix + length code) zeros.

Definition text_adapter_id (kind : TextKind) : bytes :=
  let code :=
    match find_first (fun entry => bool_decide (entry.1 = kind)) TEXT_ENTRIES with
    | Some (_, code) => code
    | None => replicate 4 x00
    end in
  text_identity code.

Definition text_kind (adapter_id : bytes) : option TextKind :=
  fst <$> find_first (fun entry => bool_decide (text_identity entry.2 = adapter_id)) TEXT_ENTRIES.

Definition u64_type : TypeExpr := TUInt 64.
Definition u32_type : TypeExpr := TUInt 32.
Definition text_failure_type : TypeExpr := TBuiltinFailure BFIndex.

Definition text_row_types (kind : TextKind) : TypeExpr * TypeExpr * TypeExpr :=
  match kind with
  | TextLength => (TUnit, TText, u64_type)
  | TextSlice => (TText, TTuple [u64_type; u64_type], TText)
  | TextConcat => (TUnit, TVector TText, TText)
  | TextScalars => (TUnit, TText, TVector TText)
  | TextOrd => (TUnit, TText, u32_type)
  | TextChr => (TUnit, u32_type, TText)
  | TextFromInt => (TUnit, TSInt 64, TText)
  end.

(** An adapter identity names a text entry exactly when it is the frozen
    identity of that entry, and every such identity has 32 bytes. *)
Theorem text_kind_exact adapter_id kind :
  (text_kind adapter_id = Some kind <-> adapter_id = text_adapter_id kind) /\
  length (text_adapter_id kind) = ID_LEN.
Proof.
  split; [split|].
  - unfold text_kind. destruct (find_first _ TEXT_ENTRIES) as [[k code]|] eqn:E; [|done]. intros [= ->].
    apply find_first_Some in E as [Hin Hid]. apply bool_decide_eq_true in Hid. cbn [snd] in Hid. rewrite <- Hid.
    unfold TEXT_ENTRIES in Hin. set_unfold in Hin. by repeat destruct Hin as [[= -> ->]|Hin].
  - intros ->. by destruct kind; vm_compute.
  - by destruct kind; vm_compute.
Qed.
