(* ===== verification/EffectClosure.v ===== *)
(** * Effect closures (crates/sley-check/src/effects.rs)

    [compute_closures]: from what each function does itself and whom it
    calls, the effects each function can have, by rounds over the previous
    round's sets, with a work counter and limits.  The theorems say that the
    result is the least closure (the effects of all functions that calls
    reach), that every failure is the resource limit, and that the round limit
    is never its cause.

    Functions are numbered by their position in the request.  Indexing a
    vector out of range is the outcome [EffPanic]. *)

From S2P Require Import Prelude BTree CfgGraph CfgPlain Types.
From stdpp Require Import strings.

Definition MAX_EFFECT_CLOSURE_MEMBERSHIPS : N := 1000000.
Definition MAX_EFFECT_CLOSURE_ROUNDS : N := 4096.
Definition MAX_EFFECT_CLOSURE_WORK : N := 50000000.

(** The variants of [EffectErrorCode], prefixed by [Eff]. *)
Inductive EffectErrorCode : Type :=
| EffUnresolvedEntity
| EffWrongEntityKind
| EffSetNotCanonical
| EffClosureMismatch
| EffCallType
| EffRequestType
| EffAdapterEffectCardinality
| EffAdapterEffectKind
| EffAdapterInvokeType
| EffCapabilityRequirementType
| EffCapabilityScopeConstType
| EffCapabilityScopeConstCanonical
| EffConstraintContractBoundary
| EffResourceLimit.

#[global] Instance EffectErrorCode_eq_dec : EqDecision EffectErrorCode.
Proof. solve_decision. Defined.

(** [EffectValidationError], and a panic. *)
Inductive EffectFailure : Type :=
| EffType (code : TypeErrorCode)
| EffCfg (error : CfgValidationError)
| EffEffect (code : EffectErrorCode)
| EffPanic.

Abbreviation eff_out A := (result EffectFailure A).
Definition effect_error (code : EffectErrorCode) : EffectFailure := EffEffect code.
Definition effect_fail {A} (code : EffectErrorCode) : eff_out A := Err (effect_error code).

(** ** Definitions *)

Record FunctionScan : Type := mkFunctionScan {
  local_effects : gset N;
  callees : gset N
}.

Definition charge_closure_work (work amount : N) : eff_out N :=
  match checked_add work amount with
  | None => effect_fail EffResourceLimit
  | Some work => if (MAX_EFFECT_CLOSURE_WORK <? work)%N then effect_fail EffResourceLimit else Ok work
  end.

Abbreviation Closures := (list (gset N)).

(** [closures.iter().try_fold(0, |count, closure| count.checked_add(closure.len()))] *)
Definition closure_count (closures : Closures) : eff_out N :=
  fold_res (fun count closure => ok_or (effect_error EffResourceLimit) (checked_add count (N.of_nat (size closure))))
    0%N closures.

Definition check_closure_memberships (closures : Closures) : eff_out unit :=
  total ← closure_count closures;
  if (MAX_EFFECT_CLOSURE_MEMBERSHIPS <? total)%N then effect_fail EffResourceLimit else Ok tt.

(** The closures and the [changed] flag; the work counter is threaded beside. *)
Abbreviation Pass := (Closures * bool)%type.

(** [closures\[function\]] *)
Definition closure_of (closures : Closures) (function : nat) : eff_out (gset N) := ok_or EffPanic (closures !! function).

(** [changed |= closures\[function\].insert(effect)] *)
Definition insert_effect (function : nat) (st : Pass * N) (effect : N) : eff_out (Pass * N) :=
  let '((closures, changed), work) := st in
  work ← charge_closure_work work 1;
  closure ← closure_of closures function;
  Ok ((<[function := {[effect]} ∪ closure]> closures, changed || negb (bool_decide (effect ∈ closure))), work).

Definition merge_callee (previous : Closures) (function : nat) (st : Pass * N) (callee : N) : eff_out (Pass * N) :=
  work ← charge_closure_work st.2 1;
  effects ← closure_of previous (N.to_nat callee);
  fold_res (insert_effect function) (st.1, work) (btree_set_iter effects).

Definition merge_function (previous : Closures) (st : Pass * N) (indexed_scan : nat * FunctionScan)
    : eff_out (Pass * N) :=
  let '(function, scan) := indexed_scan in
  fold_res (merge_callee previous function) st (btree_set_iter (callees scan)).

Definition indexed_scans (scans : list FunctionScan) : list (nat * FunctionScan) :=
  zip (seq 0 (length scans)) scans.

(** One round, up to the membership check. *)
Definition closure_round (scans : list FunctionScan) (closures : Closures) (work : N) : eff_out (Pass * N) :=
  count ← closure_count closures;
  work ← charge_closure_work work count;
  fold_res (merge_function closures) ((closures, false), work) (indexed_scans scans).

(** Nested loops that return [false] at the first failure. *)
Fixpoint all_while {A} (f : N -> A -> eff_out (bool * N)) (work : N) (l : list A) : eff_out (bool * N) :=
  match l with
  | [] => Ok (true, work)
  | x :: l =>
      '(holds, work) ← f work x;
      if (holds : bool) then all_while f work l else Ok (false, work)
  end.

Definition effect_present (closures : Closures) (function : nat) (work : N) (effect : N) : eff_out (bool * N) :=
  work ← charge_closure_work work 1;
  closure ← closure_of closures function;
  Ok (bool_decide (effect ∈ closure), work).

Definition callee_included (closures : Closures) (function : nat) (work : N) (callee : N) : eff_out (bool * N) :=
  work ← charge_closure_work work 1;
  effects ← closure_of closures (N.to_nat callee);
  all_while (effect_present closures function) work (btree_set_iter effects).

Definition closure_is_fixed (scans : list FunctionScan) (closures : Closures) (work : N) : eff_out (bool * N) :=
  all_while (fun work '(function, scan) =>
      all_while (callee_included closures function) work (btree_set_iter (callees scan)))
    work (indexed_scans scans).

Fixpoint closure_rounds (fuel : nat) (round : N) (scans : list FunctionScan) (closures : Closures) (work : N)
    : eff_out (Closures * N * N) :=
  match fuel with
  | O => effect_fail EffResourceLimit
  | S fuel =>
      '((closures, changed), work) ← closure_round scans closures work;
      check_closure_memberships closures ≫= fun _ =>
      if negb changed then Ok (closures, round, work)
      else
        '(fixed, work) ← closure_is_fixed scans closures work;
        if (fixed : bool) then Ok (closures, round, work)
        else closure_rounds fuel (round + 1) scans closures work
  end.

Definition compute_closures (scans : list FunctionScan) : eff_out (Closures * N * N) :=
  let closures := local_effects <$> scans in
  check_closure_memberships closures ≫= fun _ =>
  closure_rounds (N.to_nat MAX_EFFECT_CLOSURE_ROUNDS) 1 scans closures 0.

(** ** Charged steps

    A step with a fixed cost either pays it or fails with the resource limit,
    whatever its parts are. *)

Abbreviation MAXW := MAX_EFFECT_CLOSURE_WORK.

Definition paid {A} (work cost : N) (a : N -> A) : eff_out A :=
  if (work + cost <=? MAXW)%N then Ok (a (work + cost)%N) else effect_fail EffResourceLimit.

Lemma charge_paid work amount : (work <= MAXW)%N -> charge_closure_work work amount = paid work amount (fun w => w).
Proof.
  intros Hw. unfold charge_closure_work, paid. destruct (checked_add work amount) as [c|] eqn:E.
  - apply checked_add_Some in E as [-> _].
    destruct (N.ltb_spec MAXW (work + amount)), (N.leb_spec (work + amount) MAXW); done || lia.
  - destruct (N.leb_spec (work + amount) MAXW) as [Hle|]; [|done].
    exfalso. assert (checked_add work amount = Some (work + amount)%N) as E'; [|congruence].
    apply checked_add_Some. split; [done|]. unfold U64_LIMIT, MAX_EFFECT_CLOSURE_WORK in *. lia.
Qed.

Lemma paid_bind {A B} work a b (x : N -> A) (k : A -> eff_out B) (y : N -> B) :
  (forall w, (w <= MAXW)%N -> w = (work + a)%N -> k (x w) = paid w b y) ->
  paid work a x ≫= k = paid work (a + b) y.
Proof.
  intros H. unfold paid at 1. destruct (N.leb_spec (work + a) MAXW) as [Hle|Hgt]; cbn [mbind result_bind].
  - rewrite H by done. unfold paid. by rewrite N.add_assoc.
  - unfold paid. destruct (N.leb_spec (work + (a + b)) MAXW); [lia|done].
Qed.

Lemma paid_zero {A} work (x : N -> A) : (work <= MAXW)%N -> paid work 0 x = Ok (x work).
Proof. intros Hw. unfold paid. rewrite N.add_0_r. destruct (N.leb_spec work MAXW); [done|lia]. Qed.

Fixpoint sum_of {X} (cost : X -> N) (l : list X) : N :=
  match l with
  | [] => 0
  | x :: l => cost x + sum_of cost l
  end.

Lemma fold_paid {S X} (P : S -> Prop) (f : S * N -> X -> eff_out (S * N)) (g : S -> X -> S) (cost : X -> N) l s work :
  (forall s w x, x ∈ l -> P s -> (w <= MAXW)%N -> f (s, w) x = paid w (cost x) (fun w => (g s x, w))) ->
  (forall s x, P s -> P (g s x)) -> P s -> (work <= MAXW)%N ->
  fold_res f (s, work) l = paid work (sum_of cost l) (fun w => (foldl g s l, w)).
Proof.
  intros Hf Hg. revert s work Hf. induction l as [|x l IH]; intros s work Hf Hs Hw.
  - cbn. by rewrite paid_zero.
  - cbn [fold_res foldl sum_of]. rewrite Hf by (done || left).
    apply paid_bind. intros w Hw' _. apply IH; [|by apply Hg|done]. intros; apply Hf; [by right|done..].
Qed.

Lemma foldl_keeps {S X} (P : S -> Prop) (g : S -> X -> S) l s : (forall s x, P s -> P (g s x)) -> P s -> P (foldl g s l).
Proof. intros Hg. revert s. induction l as [|x l IH]; intros s Hs; [done|]. by apply IH, Hg. Qed.

(** ** The round as a function *)

Definition members (closures : Closures) (function : nat) : gset N := default ∅ (closures !! function).

Lemma closure_of_in closures function :
  (function < length closures)%nat -> closure_of closures function = Ok (members closures function).
Proof. intros [c Hc]%lookup_lt_is_Some_2. unfold closure_of, members. by rewrite Hc. Qed.

Definition insert_member (function : nat) (pass : Pass) (effect : N) : Pass :=
  (<[function := {[effect]} ∪ members pass.1 function]> pass.1,
   pass.2 || negb (bool_decide (effect ∈ members pass.1 function))).

Definition merge_members (previous : Closures) (function : nat) (pass : Pass) (callee : N) : Pass :=
  foldl (insert_member function) pass (btree_set_iter (members previous (N.to_nat callee))).

Definition merge_scan (previous : Closures) (pass : Pass) (indexed_scan : nat * FunctionScan) : Pass :=
  let '(function, scan) := indexed_scan in
  foldl (merge_members previous function) pass (btree_set_iter (callees scan)).

Definition callee_cost (closures : Closures) (callee : N) : N :=
  (1 + N.of_nat (size (members closures (N.to_nat callee))))%N.

Definition scan_cost (closures : Closures) (scan : FunctionScan) : N :=
  sum_of (callee_cost closures) (btree_set_iter (callees scan)).

Definition memberships (closures : Closures) : N := sum_of (fun c => N.of_nat (size c)) closures.

Lemma sum_of_const {X} c (l : list X) : sum_of (fun _ => c) l = (c * len l)%N.
Proof. induction l as [|x l IH]; cbn [sum_of]; [unfold len; simpl; lia|]. rewrite IH, len_cons. lia. Qed.

Lemma sum_of_fmap {X Y} (h : X -> Y) cost (l : list X) : sum_of cost (h <$> l) = sum_of (fun x => cost (h x)) l.
Proof. induction l as [|x l IH]; [done|]. cbn [fmap list_fmap sum_of]. f_equal. exact IH. Qed.

Lemma sum_of_le {X} (c c' : X -> N) l : (forall x, x ∈ l -> (c x <= c' x)%N) -> (sum_of c l <= sum_of c' l)%N.
Proof.
  induction l as [|x l IH]; intros H; [done|]. cbn [sum_of].
  specialize (IH (fun y Hy => H y (list_elem_of_further _ _ _ Hy))). specialize (H x (list_elem_of_here _ _)). lia.
Qed.

Lemma len_set_iter (s : gset N) : len (btree_set_iter s) = N.of_nat (size s).
Proof. unfold len, btree_set_iter. by rewrite merge_sort_Permutation. Qed.

(** No turn of a round changes how many functions there are. *)
Abbreviation sized n := (fun pass : Pass => length pass.1 = n).

Lemma insert_member_sized n function s e : sized n s -> sized n (insert_member function s e).
Proof. intros Hs. cbn [insert_member fst]. by rewrite length_insert. Qed.
Lemma merge_members_sized n previous function s c : sized n s -> sized n (merge_members previous function s c).
Proof. intros Hs. apply (foldl_keeps (sized n)); [|done]. intros s' e. apply insert_member_sized. Qed.
Lemma merge_scan_sized n previous s x : sized n s -> sized n (merge_scan previous s x).
Proof. intros Hs. destruct x as [f scan]. apply (foldl_keeps (sized n)); [|done]. intros s' e. apply merge_members_sized. Qed.

Lemma insert_effect_paid function s w e :
  (function < length s.1)%nat -> (w <= MAXW)%N ->
  insert_effect function (s, w) e = paid w 1 (fun w => (insert_member function s e, w)).
Proof.
  intros Hf Hw. destruct s as [closures changed]. unfold insert_effect. rewrite charge_paid by done.
  apply (paid_bind w 1 0). intros w' Hw' _. rewrite closure_of_in, paid_zero by done. done.
Qed.

Lemma merge_callee_paid previous function s w callee :
  (w <= MAXW)%N -> (N.to_nat callee < length previous)%nat -> (function < length s.1)%nat ->
  merge_callee previous function (s, w) callee =
  paid w (callee_cost previous callee) (fun w => (merge_members previous function s callee, w)).
Proof.
  intros Hw Hc Hf. unfold merge_callee. cbn [fst snd]. rewrite charge_paid by done. apply paid_bind. intros w' Hw' _.
  rewrite closure_of_in by done. cbn [mbind result_bind].
  rewrite (fold_paid (sized (length s.1)) _ (insert_member function) (fun _ => 1%N));
    [|intros s' w1 e _ Hs ?; apply insert_effect_paid; [by rewrite Hs|done]|intros; by apply insert_member_sized|done..].
  rewrite sum_of_const, len_set_iter, N.mul_1_l. done.
Qed.

Definition callees_known (scans : list FunctionScan) : Prop :=
  forall f scan c, scans !! f = Some scan -> c ∈ callees scan -> (N.to_nat c < length scans)%nat.

Lemma indexed_scans_lookup scans f scan : (f, scan) ∈ indexed_scans scans <-> scans !! f = Some scan.
Proof.
  unfold indexed_scans. rewrite list_elem_of_lookup. split.
  - intros [i Hi]. apply lookup_zip_with_Some in Hi as (? & ? & [= <- <-] & Hf & Hs).
    apply lookup_seq in Hf as [-> _]. done.
  - intros Hs. exists f. apply lookup_lt_Some in Hs as Hl. by rewrite lookup_zip_with, lookup_seq_lt, Hs.
Qed.

Section round_paid.
Context (scans : list FunctionScan).
Hypothesis Hknown : callees_known scans.

Lemma merge_function_paid previous s w x :
  length previous = length scans -> sized (length scans) s -> x ∈ indexed_scans scans -> (w <= MAXW)%N ->
  merge_function previous (s, w) x = paid w (scan_cost previous x.2) (fun w => (merge_scan previous s x, w)).
Proof using Hknown.
  intros Hl Hs Hx Hw. destruct x as [f scan]. apply indexed_scans_lookup in Hx. unfold merge_function, merge_scan, scan_cost.
  apply (fold_paid (sized (length scans))); [|intros; by apply merge_members_sized|done..].
  intros s' w' c Hc Hs' Hw'. apply merge_callee_paid; [done|rewrite Hl|rewrite Hs'; by eapply lookup_lt_Some].
  eapply Hknown; [exact Hx|by apply elem_of_btree_set_iter].
Qed.

Lemma closure_count_eq closures :
  closure_count closures = if (memberships closures <? U64_LIMIT)%N then Ok (memberships closures) else effect_fail EffResourceLimit.
Proof using Type.
  unfold closure_count. enough (forall acc, (acc < U64_LIMIT)%N ->
    fold_res (fun count closure => ok_or (effect_error EffResourceLimit) (checked_add count (N.of_nat (size closure)))) acc closures =
    if (acc + memberships closures <? U64_LIMIT)%N then Ok (acc + memberships closures)%N else effect_fail EffResourceLimit) as H.
  { rewrite H by (unfold U64_LIMIT; lia). by rewrite N.add_0_l. }
  induction closures as [|c closures IH]; intros acc Hacc.
  - cbn. rewrite N.add_0_r. destruct (N.ltb_spec acc U64_LIMIT); [done|lia].
  - cbn [fold_res]. unfold memberships. cbn [sum_of]. fold (sum_of (fun c : gset N => N.of_nat (size c)) closures).
    fold (memberships closures). unfold checked_add. rewrite N.add_assoc.
    destruct (N.ltb_spec (acc + N.of_nat (size c)) U64_LIMIT) as [H1|H1]; cbn [ok_or mbind result_bind].
    + by apply IH.
    + destruct (N.ltb_spec (acc + N.of_nat (size c) + memberships closures) U64_LIMIT); [lia|done].
Qed.

Lemma check_memberships_eq closures :
  check_closure_memberships closures =
  if (memberships closures <=? MAX_EFFECT_CLOSURE_MEMBERSHIPS)%N then Ok tt else effect_fail EffResourceLimit.
Proof using Type.
  unfold check_closure_memberships. rewrite closure_count_eq.
  assert (MAX_EFFECT_CLOSURE_MEMBERSHIPS < U64_LIMIT)%N by done.
  destruct (N.ltb_spec (memberships closures) U64_LIMIT); cbn [mbind result_bind];
    destruct (N.leb_spec (memberships closures) MAX_EFFECT_CLOSURE_MEMBERSHIPS); try lia; try done.
  - destruct (N.ltb_spec MAX_EFFECT_CLOSURE_MEMBERSHIPS (memberships closures)); [lia|done].
  - destruct (N.ltb_spec MAX_EFFECT_CLOSURE_MEMBERSHIPS (memberships closures)); [done|lia].
Qed.

Definition round_result (closures : Closures) : Pass := foldl (merge_scan closures) (closures, false) (indexed_scans scans).
Definition merge_cost (closures : Closures) : N := sum_of (fun x => scan_cost closures x.2) (indexed_scans scans).

Lemma closure_round_paid closures work :
  length closures = length scans -> (work <= MAXW)%N ->
  closure_round scans closures work =
  paid work (memberships closures + merge_cost closures) (fun w => (round_result closures, w)).
Proof using Hknown.
  intros Hl Hw. unfold closure_round. rewrite closure_count_eq.
  destruct (N.ltb_spec (memberships closures) U64_LIMIT) as [Hlt|Hge]; cbn [mbind result_bind].
  - rewrite charge_paid by done. apply paid_bind. intros w Hw' _.
    apply (fold_paid (sized (length scans))); [|intros; by apply merge_scan_sized|done..].
    intros s w' x Hx Hs Hw''. by apply merge_function_paid.
  - unfold paid. destruct (N.leb_spec (work + (memberships closures + merge_cost closures)) MAXW); [|done].
    exfalso. unfold U64_LIMIT, MAX_EFFECT_CLOSURE_WORK in *. lia.
Qed.
End round_paid.

(** ** What a round adds *)

Abbreviation mem D f e := (e ∈ members D f).

(** [p'] is [p] with the effects [A] added to the set of [function]. *)
Definition Adds (function : nat) (A : N -> Prop) (p p' : Pass) : Prop :=
  length p'.1 = length p.1 /\
  (forall g e, mem p'.1 g e <-> mem p.1 g e \/ g = function /\ A e) /\
  (p'.2 = true <-> p.2 = true \/ exists e, A e /\ ~ mem p.1 function e).

Lemma adds_insert function p e :
  (function < length p.1)%nat -> Adds function (fun x => x = e) p (insert_member function p e).
Proof.
  intros Hf. unfold Adds, insert_member. cbn [fst snd]. rewrite length_insert. split_and!; [done| |].
  - intros g x. unfold members. destruct (decide (g = function)) as [->|Hne].
    + rewrite list_lookup_insert_eq by done. cbn [default from_option id]. set_solver.
    + rewrite list_lookup_insert_ne by done. naive_solver.
  - rewrite orb_true_iff, negb_true_iff, bool_decide_eq_false. split; (intros [?|H]; [by left|right]).
    + by exists e.
    + by destruct H as (x & -> & ?).
Qed.

Lemma adds_refl function p : Adds function (fun _ => False) p p.
Proof. unfold Adds. split_and!; [done| |]; naive_solver. Qed.

Lemma adds_trans function A B p1 p2 p3 :
  Adds function A p1 p2 -> Adds function B p2 p3 -> Adds function (fun e => A e \/ B e) p1 p3.
Proof.
  intros (L1 & M1 & C1) (L2 & M2 & C2). unfold Adds. split_and!; [congruence| |].
  - intros g e. rewrite M2, M1. tauto.
  - rewrite C2, C1. split.
    + intros [[?|(e & ? & ?)]|(e & He & Hn)]; [by left|right; exists e; tauto|].
      rewrite M1 in Hn. right. exists e. tauto.
    + intros [?|(e & [HA|HB] & Hn)]; [tauto|left; right; by exists e|].
      destruct (decide (mem p2.1 function e)) as [Hm|Hm]; [|right; by exists e].
      apply M1 in Hm as [?|[_ HA]]; [done|]. left. right. by exists e.
Qed.

Lemma adds_iff function A B p p' : (forall e, A e <-> B e) -> Adds function A p p' -> Adds function B p p'.
Proof. intros H (L & M & C). unfold Adds. setoid_rewrite <- H. done. Qed.

Lemma adds_fold {X} function (step : Pass -> X -> Pass) (A : X -> N -> Prop) l p :
  (forall q x, x ∈ l -> length q.1 = length p.1 -> Adds function (A x) q (step q x)) ->
  Adds function (fun e => exists x, x ∈ l /\ A x e) p (foldl step p l).
Proof.
  revert p. induction l as [|x l IH]; intros p H; cbn [foldl].
  - eapply adds_iff; [|apply adds_refl]. intros e. split; [done|]. by intros (x & ?%elem_of_nil & _).
  - assert (Adds function (A x) p (step p x)) as Hx by (apply H; [left|done]).
    eapply adds_iff; [|eapply adds_trans; [exact Hx|apply IH]].
    + intros e. setoid_rewrite elem_of_cons. naive_solver.
    + intros q y Hy Hq. apply H; [by right|]. destruct Hx as [Hl _]. congruence.
Qed.

(** What a round adds to one function: the previous sets of its callees. *)
Definition from_callees (previous : Closures) (scan : FunctionScan) (e : N) : Prop :=
  exists c, c ∈ callees scan /\ mem previous (N.to_nat c) e.

Lemma adds_scan previous p f scan :
  (f < length p.1)%nat -> Adds f (from_callees previous scan) p (merge_scan previous p (f, scan)).
Proof.
  intros Hf. unfold merge_scan.
  eapply adds_iff; [|apply (adds_fold f (merge_members previous f) (fun c e => mem previous (N.to_nat c) e))].
  - intros e. unfold from_callees. setoid_rewrite elem_of_btree_set_iter. done.
  - intros q c _ Hq. unfold merge_members.
    eapply adds_iff; [|apply (adds_fold f (insert_member f) (fun x e => e = x))].
    + intros e. cbn beta. setoid_rewrite elem_of_btree_set_iter. naive_solver.
    + intros q' x _ Hq'. eapply adds_iff; [|apply adds_insert; lia]. done.
Qed.

Definition Calls (scans : list FunctionScan) (f g : nat) : Prop :=
  exists scan, scans !! f = Some scan /\ N.of_nat g ∈ callees scan.

Section convergence.
Context (scans : list FunctionScan).
Hypothesis Hknown : callees_known scans.

Lemma Calls_lt f g : Calls scans f g -> (f < length scans)%nat /\ (g < length scans)%nat.
Proof using Hknown.
  intros (scan & Hs & Hg). split; [by eapply lookup_lt_Some|]. pose proof (Hknown _ _ _ Hs Hg) as H.
  by rewrite Nat2N.id in H.
Qed.

Lemma from_callees_Calls previous f scan e :
  scans !! f = Some scan -> from_callees previous scan e <-> exists g, Calls scans f g /\ mem previous g e.
Proof using Type.
  intros Hs. unfold from_callees, Calls. split.
  - intros (c & Hc & He). exists (N.to_nat c). split; [|done]. exists scan. by rewrite N2Nat.id.
  - intros (g & (scan' & Hs' & Hg) & He). rewrite Hs in Hs'. injection Hs' as <-. exists (N.of_nat g). by rewrite Nat2N.id.
Qed.

Lemma round_result_spec closures :
  length closures = length scans ->
  let p := round_result scans closures in
  length p.1 = length scans /\
  (forall f e, mem p.1 f e <-> mem closures f e \/ exists g, Calls scans f g /\ mem closures g e) /\
  (p.2 = false -> forall f g e, Calls scans f g -> mem closures g e -> mem closures f e).
Proof using Type.
  intros Hl. unfold round_result.
  enough (forall l p k, (forall i scan, l !! i = Some scan -> scans !! (k + i)%nat = Some scan) -> length p.1 = length scans ->
    let p' := foldl (merge_scan closures) p (zip (seq k (length l)) l) in
    length p'.1 = length scans /\
    (forall f e, mem p'.1 f e <-> mem p.1 f e \/ exists g, (k <= f < k + length l)%nat /\ Calls scans f g /\ mem closures g e) /\
    (p'.2 = false -> p.2 = false /\ forall f g e, (k <= f < k + length l)%nat -> Calls scans f g -> mem closures g e -> mem p.1 f e)) as H.
  { destruct (H scans (closures, false) 0%nat) as (H1 & H2 & H3); [done|done|]. cbn [fst snd] in *. split_and!; [done| |].
    - intros f e. unfold indexed_scans. rewrite H2. split; (intros [?|(g & Hg)]; [by left|right; exists g]).
      + tauto.
      + split_and!; [lia| |tauto|tauto]. destruct Hg as [(scan & Hs & _) _]. apply lookup_lt_Some in Hs. lia.
    - intros Hf f g e Hc. apply H3; [done| |done]. destruct Hc as (scan & Hs & _). apply lookup_lt_Some in Hs. lia. }
  induction l as [|scan l IH]; intros p k Hscans Hp; cbn [length seq zip zip_with foldl].
  - split_and!; [done| |].
    + intros f e. split; [by left|]. intros [?|(g & ? & _)]; [done|lia].
    + intros H. split; [done|]. lia.
  - assert (scans !! k = Some scan) as Hs by (rewrite <- (Nat.add_0_r k); by apply Hscans).
    assert (k < length p.1)%nat as Hk by (rewrite Hp; by eapply lookup_lt_Some).
    destruct (adds_scan closures p k scan Hk) as (A1 & A2 & A3).
    destruct (IH (merge_scan closures p (k, scan)) (S k)) as (B1 & B2 & B3).
    { intros i s Hi. rewrite Nat.add_succ_l, <- Nat.add_succ_r. by apply Hscans. }
    { congruence. }
    split_and!; [done| |].
    + intros f e. rewrite B2, A2, (from_callees_Calls _ _ _ _ Hs). split.
      * intros [[?|[-> (g & ? & ?)]]|(g & ? & ? & ?)]; [by left|right; exists g..]; split_and!; lia || done.
      * intros [?|(g & Hf & ? & ?)]; [tauto|]. destruct (decide (f = k)) as [->|]; [left; right; split; [done|by exists g]|].
        right. exists g. split_and!; [lia|lia|done|done].
    + intros Hc. apply B3 in Hc as [Hc Hrest]. destruct p as [D c]. cbn [fst snd] in *.
      assert (c = false /\ forall e, from_callees closures scan e -> mem D k e) as [Hc0 Hk0].
      { rewrite <- not_true_iff_false, A3 in Hc. split; [by destruct c; [destruct Hc; left|]|].
        intros e He. destruct (decide (mem D k e)) as [|Hn]; [done|]. destruct Hc. right. by exists e. }
      split; [done|]. intros f g e Hf Hcall Hg. destruct (decide (f = k)) as [->|Hne].
      * apply Hk0, (from_callees_Calls _ _ _ _ Hs). by exists g.
      * assert (mem (merge_scan closures (D, c) (k, scan)).1 f e) as Hm by (eapply Hrest; [lia|done|done]).
        apply A2 in Hm as [?|[? _]]; done.
Qed.
End convergence.

(** ** The check for a fixed point *)

(** A check that costs at most [cost] and decides [P], or runs out of work. *)
Definition Decides (m : eff_out (bool * N)) (work cost : N) (P : Prop) : Prop :=
  match m with
  | Ok (b, work') => (b = true <-> P) /\ (work <= work')%N /\ (work' <= work + cost)%N /\ (work' <= MAXW)%N
  | Err e => e = effect_error EffResourceLimit /\ (MAXW < work + cost)%N
  end.

Lemma decides_all {X} (f : N -> X -> eff_out (bool * N)) (cost : X -> N) (P : X -> Prop) l work :
  (work <= MAXW)%N ->
  (forall w x, x ∈ l -> (w <= MAXW)%N -> Decides (f w x) w (cost x) (P x)) ->
  Decides (all_while f work l) work (sum_of cost l) (forall x, x ∈ l -> P x).
Proof.
  revert work. induction l as [|x l IH]; intros work Hw Hf; cbn [all_while sum_of].
  - unfold Decides. split_and!; [|lia..]. split; [|done]. by intros _ y ?%elem_of_nil.
  - pose proof (Hf work x (list_elem_of_here _ _) Hw) as Hx. destruct (f work x) as [[b w]|e].
    + destruct Hx as (Hb & H1 & H2 & H3). cbn [mbind result_bind]. destruct b.
      * assert (Decides (all_while f w l) w (sum_of cost l) (forall y, y ∈ l -> P y)) as Hl.
        { apply IH; [done|]. intros; apply Hf; [by right|done]. }
        unfold Decides in *. destruct (all_while f w l) as [[b' w']|e].
        -- destruct Hl as (Hb' & ? & ? & ?). split_and!; [|lia..]. rewrite Hb'. setoid_rewrite elem_of_cons. split.
           ++ intros Hall y [->|Hy]; [by apply Hb|by apply Hall].
           ++ intros Hall y Hy. apply Hall. by right.
        -- destruct Hl. split; [done|lia].
      * unfold Decides. split_and!; [|lia..]. split; [done|]. intros H. apply Hb, H. by left.
    + destruct Hx as [-> ?]. cbn. split; [done|lia].
Qed.

(** A charge before a check. *)
Lemma decides_charge work a cost (k : N -> eff_out (bool * N)) P :
  (work <= MAXW)%N -> (forall w, (w <= MAXW)%N -> w = (work + a)%N -> Decides (k w) w cost P) ->
  Decides (w ← charge_closure_work work a; k w) work (a + cost) P.
Proof.
  intros Hw Hk. rewrite charge_paid by done. unfold paid. destruct (N.leb_spec (work + a) MAXW) as [Hle|Hgt].
  - cbn [mbind result_bind]. specialize (Hk _ Hle eq_refl). unfold Decides in *.
    destruct (k _) as [[b w]|e]; [|destruct Hk; split; [done|lia]]. destruct Hk as (? & ? & ? & ?). split_and!; [done|lia..].
  - cbn. split; [done|lia].
Qed.

Lemma decides_iff m work cost P Q : (P <-> Q) -> Decides m work cost P -> Decides m work cost Q.
Proof. intros HPQ. unfold Decides. destruct m as [[b w]|e]; [|done]. by rewrite HPQ. Qed.

Section fixed.
Context (scans : list FunctionScan).
Hypothesis Hknown : callees_known scans.

Definition closed (closures : Closures) : Prop :=
  forall f g e, Calls scans f g -> mem closures g e -> mem closures f e.

Lemma decides_fixed closures work :
  length closures = length scans -> (work <= MAXW)%N ->
  Decides (closure_is_fixed scans closures work) work (merge_cost scans closures) (closed closures).
Proof using Hknown.
  intros Hl Hw. unfold closure_is_fixed, merge_cost.
  eapply decides_iff; [|apply (decides_all _ _ (fun x => forall e, from_callees closures x.2 e -> mem closures x.1 e)); [done|]].
  - split.
    + intros H f g e Hc He. assert (exists scan, scans !! f = Some scan) as [scan Hs] by (destruct Hc as (? & ? & _); eauto).
      apply (H (f, scan)); [by apply indexed_scans_lookup|]. apply (from_callees_Calls _ _ _ _ _ Hs). by exists g.
    + intros H [f scan] Hs%indexed_scans_lookup e He. apply (from_callees_Calls _ _ _ _ _ Hs) in He as (g & ? & ?). by eapply H.
  - intros w [f scan] Hs%indexed_scans_lookup Hw'. cbn [fst snd].
    eapply decides_iff; [|apply (decides_all _ _ (fun c => forall e, mem closures (N.to_nat c) e -> mem closures f e)); [done|]].
    + unfold from_callees. setoid_rewrite elem_of_btree_set_iter. naive_solver.
    + intros w' c Hc Hw''. unfold callee_included. apply decides_charge; [done|]. intros w1 Hw1 _.
      assert (N.to_nat c < length closures)%nat as Hlt by (rewrite Hl; eapply Hknown; [exact Hs|by apply elem_of_btree_set_iter]).
      rewrite closure_of_in by done. cbn [mbind result_bind]. set (eff := members closures (N.to_nat c)).
      replace (N.of_nat (size eff)) with (sum_of (fun _ => 1%N) (btree_set_iter eff))
        by (rewrite sum_of_const, len_set_iter; lia).
      eapply decides_iff; [|apply (decides_all _ _ (fun e => mem closures f e)); [done|]].
      * setoid_rewrite elem_of_btree_set_iter. done.
      * intros w2 e _ Hw2. unfold effect_present. apply (decides_charge w2 1 0); [done|]. intros w3 Hw3 _.
        rewrite closure_of_in by (rewrite Hl; by eapply lookup_lt_Some). cbn [mbind result_bind]. unfold Decides. rewrite bool_decide_eq_true. split_and!; [done|lia..].
Qed.
End fixed.

(** ** Correctness and termination *)

(** The effects of the functions that calls reach. *)
Definition Reaches (scans : list FunctionScan) (f : nat) (e : N) : Prop :=
  exists g scan, rtc (Calls scans) f g /\ scans !! g = Some scan /\ e ∈ local_effects scan.

Section rounds.
Context (scans : list FunctionScan).
Hypothesis Hknown : callees_known scans.

(** The effects reached by at most [k] calls. *)
Definition within (k : nat) (f : nat) (e : N) : Prop :=
  exists g scan, bsteps (Calls scans) k f g /\ scans !! g = Some scan /\ e ∈ local_effects scan.

Definition at_round (k : nat) (closures : Closures) : Prop :=
  length closures = length scans /\ forall f e, mem closures f e <-> within k f e.

Lemma within_Reaches k f e : within k f e -> Reaches scans f e.
Proof using Type. intros (g & s & H & ? & ?). exists g, s. split_and!; [by eapply rtc_bsteps_2|done|done]. Qed.

Lemma at_round_0 : at_round 0 (local_effects <$> scans).
Proof using Type.
  clear Hknown. split; [by rewrite length_fmap|]. intros f e. unfold members. rewrite list_lookup_fmap. split.
  - intros He. destruct (scans !! f) as [s|] eqn:Hs; [|set_solver]. exists f, s. split_and!; [apply bsteps_refl|done|done].
  - intros (g & s & Hb & Hs & He). inversion Hb; subst. by rewrite Hs.
Qed.

Lemma at_round_S k closures : at_round k closures -> at_round (S k) (round_result scans closures).1.
Proof using Hknown.
  intros [Hl Hm]. destruct (round_result_spec scans closures Hl) as (H1 & H2 & _). split; [done|].
  intros f e. rewrite H2, Hm. split.
  - intros [(g & s & Hb & ? & ?)|(g & Hc & He)].
    + exists g, s. split_and!; [by apply bsteps_S|done|done].
    + apply Hm in He as (h & s & Hb & ? & ?). exists h, s. split_and!; [by eapply bsteps_l|done|done].
  - intros (g & s & Hb & Hs & He). inversion Hb as [|? ? h ? Hc Hb']; subst.
    + left. exists g, s. split_and!; [apply bsteps_refl|done|done].
    + right. exists h. split; [done|]. apply Hm. by exists g, s.
Qed.

Lemma closed_exact k closures :
  at_round k closures -> closed scans closures -> forall f e, mem closures f e <-> Reaches scans f e.
Proof using Type.
  intros [Hl Hm] Hc f e. split; [intros He%Hm; by eapply within_Reaches|].
  intros (g & s & Hr & Hs & He). induction Hr as [f|f h g Hfh _ IH].
  - apply Hm. exists f, s. split_and!; [apply bsteps_refl|done|done].
  - eapply Hc; [exact Hfh|]. by apply IH.
Qed.

(** Calls that reach a function reach it by fewer calls than functions. *)
Lemma calls_short f g : (f < length scans)%nat -> rtc (Calls scans) f g -> bsteps (Calls scans) (length scans - 1) f g.
Proof using Hknown.
  intros Hf Hr. set (gr := (fun s => N.to_nat <$> elements (callees s)) <$> scans : Graph).
  assert (forall u v, edge gr u v <-> Calls scans u v) as Hedge.
  { intros u v. unfold edge, succs, gr, Calls. rewrite list_lookup_fmap. destruct (scans !! u) as [s|]; cbn.
    - rewrite list_elem_of_fmap. setoid_rewrite elem_of_elements. split.
      + intros (c & -> & Hc). exists s. by rewrite N2Nat.id.
      + intros (s' & [= <-] & Hc). exists (N.of_nat v). by rewrite Nat2N.id.
    - split; [by intros ?%elem_of_nil|]. by intros (? & ? & _). }
  assert (length gr = length scans) as Hlen by (unfold gr; by rewrite length_fmap).
  assert (graph_ok f gr) as Hok.
  { split; [lia|]. intros u v Huv%Hedge. rewrite Hlen. by apply (Calls_lt _ Hknown u v). }
  assert (exists p, Path f gr g p) as [p Hp].
  { apply reaches_Path. clear -Hr Hedge. induction Hr as [|x y z Hxy _ IH]; [constructor|].
    eapply rtc_l; [by apply Hedge|done]. }
  destruct (Path_simple _ _ _ _ Hp) as (q & Hq & _ & Hnd).
  pose proof (NoDup_bounded_length q (length gr) Hnd (Path_bounded _ _ _ _ Hok Hq)) as Hql.
  apply (bsteps_weaken (pred (length q))); [lia|]. clear -Hq Hedge.
  induction Hq as [|u p v Hp IH He]; [apply bsteps_refl|]. cbn [length pred].
  assert (length p = S (pred (length p))) as -> by (destruct Hp; done).
  eapply bsteps_r; [exact IH|]. by apply Hedge.
Qed.

Lemma at_round_closed k closures : at_round k closures -> (length scans <= S k)%nat -> closed scans closures.
Proof using Hknown.
  intros [Hl Hm] Hk f g e Hc He. apply Hm. apply Hm in He as He'. destruct He' as (h & s & Hb & Hs & Hin).
  exists h, s. split_and!; [|done|done]. apply (bsteps_weaken (length scans - 1)); [lia|].
  apply calls_short; [by apply (Calls_lt _ Hknown f g)|]. eapply rtc_l; [exact Hc|by eapply rtc_bsteps_2].
Qed.

(** A round, its checks and what follows. *)
Lemma rounds_exact fuel round k closures work :
  at_round k closures -> (work <= MAXW)%N ->
  match closure_rounds fuel round scans closures work with
  | Ok (closures', _, work') => length closures' = length scans /\ (work' <= MAXW)%N /\
      forall f e, mem closures' f e <-> Reaches scans f e
  | Err e => e = effect_error EffResourceLimit
  end.
Proof using Hknown.
  revert round k closures work. induction fuel as [|fuel IH]; intros round k closures work Hk Hw; [done|].
  cbn [closure_rounds]. rewrite closure_round_paid by (done || apply Hk). unfold paid.
  destruct (N.leb_spec (work + (memberships closures + merge_cost scans closures)) MAXW) as [Hle|]; [|done].
  cbn [mbind result_bind]. pose proof (at_round_S k closures Hk) as Hk'.
  pose proof (round_result_spec scans closures (proj1 Hk)) as (_ & Hmem & Hunch).
  destruct (round_result scans closures) as [D changed]. cbn [fst snd] in *.
  rewrite check_memberships_eq. destruct (N.leb_spec (memberships D) MAX_EFFECT_CLOSURE_MEMBERSHIPS); [|done].
  cbn [mbind result_bind]. destruct changed; cbn [negb].
  - pose proof (decides_fixed scans Hknown D _ (proj1 Hk') Hle) as Hd. unfold Decides in Hd.
    destruct (closure_is_fixed scans D _) as [[b w]|e]; [|by destruct Hd as [-> _]]. cbn [mbind result_bind].
    destruct Hd as (Hb & _ & _ & Hw'). destruct b; [|by eapply IH].
    split_and!; [apply Hk'|done|]. eapply closed_exact; [exact Hk'|by apply Hb].
  - split_and!; [apply Hk'|done|]. eapply closed_exact; [exact Hk'|].
    intros f g e Hc He. apply Hmem. apply Hmem in He as [He|(h & Hch & He)].
    + right. by exists g.
    + right. exists g. split; [done|]. by eapply Hunch.
Qed.

(** All the effects, and the cost of one round when every set has them all. *)
Definition all_effects : gset N := ⋃ (local_effects <$> scans).
Definition call_count : N := sum_of (fun scan => N.of_nat (size (callees scan))) scans.
Definition effect_count : N := N.of_nat (size all_effects).
Definition round_cost : N := (len scans * effect_count + 2 * (call_count * (1 + effect_count)))%N.

Lemma members_small k closures f :
  at_round k closures -> (N.of_nat (size (members closures f)) <= effect_count)%N.
Proof using Type.
  clear Hknown. intros [_ Hm]. assert (members closures f ⊆ all_effects) as Hsub.
  - intros e (g & s & _ & Hs & He)%Hm. unfold all_effects. rewrite elem_of_union_list.
    exists (local_effects s). split; [|done]. apply list_elem_of_fmap_2. by eapply list_elem_of_lookup_2.
  - pose proof (subseteq_size _ _ Hsub). unfold effect_count. lia.
Qed.

Lemma memberships_small k closures : at_round k closures -> (memberships closures <= len scans * effect_count)%N.
Proof using Type.
  clear Hknown. intros Hk. unfold memberships.
  transitivity (sum_of (fun _ : gset N => effect_count) closures).
  - apply sum_of_le. intros c [f Hf]%list_elem_of_lookup.
    pose proof (members_small k closures f Hk) as H. unfold members in H. by rewrite Hf in H.
  - rewrite sum_of_const. unfold len. rewrite (proj1 Hk). lia.
Qed.

Lemma sum_of_snd {X Y} (cost : Y -> N) (ks : list X) (l : list Y) :
  length ks = length l -> sum_of (fun x => cost x.2) (zip ks l) = sum_of cost l.
Proof using Type.
  clear Hknown scans. revert ks. induction l as [|y l IH]; intros [|k ks] H; try done.
  cbn [zip zip_with sum_of snd]. f_equal. apply IH. by injection H.
Qed.

Lemma sum_of_mul {X} (cost : X -> N) c l : sum_of (fun x => cost x * c)%N l = (sum_of cost l * c)%N.
Proof using Type. clear Hknown scans. induction l as [|x l IH]; [done|]. cbn [sum_of]. rewrite IH. lia. Qed.

Lemma merge_cost_small k closures : at_round k closures -> (merge_cost scans closures <= call_count * (1 + effect_count))%N.
Proof using Type.
  clear Hknown. intros Hk. unfold merge_cost, indexed_scans. rewrite sum_of_snd by apply length_seq.
  unfold call_count. rewrite <- sum_of_mul. apply sum_of_le. intros scan _. unfold scan_cost.
  transitivity (sum_of (fun _ : N => 1 + effect_count)%N (btree_set_iter (callees scan))).
  - apply sum_of_le. intros c _. unfold callee_cost. pose proof (members_small k closures (N.to_nat c) Hk). lia.
  - rewrite sum_of_const, len_set_iter. lia.
Qed.

Lemma closure_rounds_enough rest fuel round k closures work :
  at_round k closures -> (1 <= rest <= fuel)%nat -> (length scans <= k + 1 + rest)%nat ->
  (len scans * effect_count <= MAX_EFFECT_CLOSURE_MEMBERSHIPS)%N ->
  (work + N.of_nat rest * round_cost <= MAXW)%N ->
  exists closures' rounds' work', closure_rounds fuel round scans closures work = Ok (closures', rounds', work') /\
    (rounds' < round + N.of_nat rest)%N.
Proof using Hknown.
  intros Hk Hrest Hn Hmem Hw. revert fuel round k closures work Hk Hrest Hn Hw.
  induction rest as [|rest IH]; intros fuel round k closures work Hk Hrest Hn Hw; [lia|].
  destruct fuel as [|fuel]; [lia|]. cbn [closure_rounds].
  pose proof (memberships_small k closures Hk) as H1. pose proof (merge_cost_small k closures Hk) as H2.
  pose proof (at_round_S k closures Hk) as Hk'.
  pose proof (memberships_small _ _ Hk') as H3. pose proof (merge_cost_small _ _ Hk') as H4.
  assert (work + (memberships closures + merge_cost scans closures) + merge_cost scans (round_result scans closures).1
    + N.of_nat rest * round_cost <= MAXW)%N as Hcost.
  { replace (N.of_nat (S rest)) with (1 + N.of_nat rest)%N in Hw by lia.
    rewrite N.mul_add_distr_r, N.mul_1_l in Hw. unfold round_cost at 1 in Hw. lia. }
  rewrite closure_round_paid by (done || apply Hk || lia). unfold paid.
  destruct (N.leb_spec (work + (memberships closures + merge_cost scans closures)) MAXW) as [Hle|]; [|lia].
  cbn [mbind result_bind]. destruct (round_result scans closures) as [D changed]. cbn [fst snd] in *.
  rewrite check_memberships_eq. destruct (N.leb_spec (memberships D) MAX_EFFECT_CLOSURE_MEMBERSHIPS); [|lia].
  cbn [mbind result_bind]. destruct changed; cbn [negb]; [|eexists _, _, _; split; [done|lia]].
  pose proof (decides_fixed scans Hknown D _ (proj1 Hk') Hle) as Hd. unfold Decides in Hd.
  destruct (closure_is_fixed scans D _) as [[b w]|e]; [|lia]. cbn [mbind result_bind].
  destruct Hd as (Hb & _ & Hw' & _). destruct b; [eexists _, _, _; split; [done|lia]|].
  destruct (decide (length scans <= S (S k))%nat) as [Hs|Hs].
  - exfalso. enough (false = true) by done. apply Hb. by eapply at_round_closed.
  - destruct (IH fuel (round + 1)%N (S k) D w) as (c' & r' & w' & -> & ?); [done|lia|lia|lia|].
    eexists _, _, _. split; [done|lia].
Qed.
End rounds.

Lemma closures_exact scans (Hknown : callees_known scans) :
  match compute_closures scans with
  | Ok (closures, _, work) =>
      length closures = length scans /\ (work <= MAX_EFFECT_CLOSURE_WORK)%N /\
      forall f e, e ∈ members closures f <-> Reaches scans f e
  | Err e => e = effect_error EffResourceLimit
  end.
Proof.
  unfold compute_closures. rewrite check_memberships_eq. destruct (_ <=? _)%N; [|done]. cbn [mbind result_bind].
  apply (rounds_exact scans Hknown _ _ 0); [apply at_round_0|done].
Qed.

(** C30: when every callee is a known function, the computed sets are the least
    closures: a function has exactly the effects of the functions its calls
    reach; the charged work is within its limit; and every failure is the
    resource limit, never a panic. *)
Theorem compute_closures_exact scans (Hknown : callees_known scans) :
  match compute_closures scans with
  | Ok (closures, _, work) =>
      length closures = length scans /\ (work <= MAX_EFFECT_CLOSURE_WORK)%N /\
      forall f e, e ∈ members closures f <-> Reaches scans f e
  | Err e => e = effect_error EffResourceLimit
  end.
Proof. exact (closures_exact scans Hknown). Qed.

Definition scans_example : list FunctionScan :=
  [mkFunctionScan ∅ {[1%N]}; mkFunctionScan {[7%N]} {[2%N]}; mkFunctionScan {[9%N]} {[1%N]}].

Lemma scans_example_known : callees_known scans_example.
Proof.
  intros [|[|[|f]]] scan c; cbn; [intros [= <-]..|done]; cbn; rewrite elem_of_singleton; intros ->; vm_compute; lia.
Qed.

Lemma compute_closures_exact_witness :
  match compute_closures scans_example with
  | Ok (closures, _, work) =>
      length closures = length scans_example /\ (work <= MAX_EFFECT_CLOSURE_WORK)%N /\
      forall f e, e ∈ members closures f <-> Reaches scans_example f e
  | Err e => e = effect_error EffResourceLimit
  end.
Proof. apply (compute_closures_exact scans_example scans_example_known). Defined.

(** C36: the computation converges: with at most as many functions as the round
    limit, and sets and rounds that fit the membership and work limits when
    every set holds every effect, it succeeds, within as many rounds as there
    are functions less one. *)
Theorem compute_closures_terminates scans (Hknown : callees_known scans)
    (Hcount : (len scans <= MAX_EFFECT_CLOSURE_ROUNDS)%N)
    (Hmembers : (len scans * effect_count scans <= MAX_EFFECT_CLOSURE_MEMBERSHIPS)%N)
    (Hwork : (len scans * round_cost scans <= MAX_EFFECT_CLOSURE_WORK)%N) :
  exists closures rounds work, compute_closures scans = Ok (closures, rounds, work) /\
    (rounds <= N.max 1 (len scans - 1))%N.
Proof.
  unfold compute_closures. pose proof (at_round_0 scans) as H0. rewrite check_memberships_eq.
  pose proof (memberships_small scans 0 _ H0).
  destruct (N.leb_spec (memberships (local_effects <$> scans)) MAX_EFFECT_CLOSURE_MEMBERSHIPS); [|lia].
  cbn [mbind result_bind].
  destruct (closure_rounds_enough scans Hknown (Nat.max 1 (length scans - 1)) (N.to_nat MAX_EFFECT_CLOSURE_ROUNDS) 1 0
    (local_effects <$> scans) 0) as (c & r & w & -> & Hr); [done| | |done| |].
  - unfold len, MAX_EFFECT_CLOSURE_ROUNDS in *. lia.
  - lia.
  - unfold len in *. destruct scans as [|scan scans']; [done|].
    transitivity (N.of_nat (length (scan :: scans')) * round_cost (scan :: scans'))%N; [|done].
    rewrite N.add_0_l. apply N.mul_le_mono_r. cbn [length]. lia.
  - eexists _, _, _. split; [done|]. unfold len. lia.
Qed.

Lemma compute_closures_terminates_witness :
  exists closures rounds work, compute_closures scans_example = Ok (closures, rounds, work) /\
    (rounds <= N.max 1 (len scans_example - 1))%N.
Proof. apply (compute_closures_terminates scans_example scans_example_known); by vm_compute. Defined.
