(* ===== verification/Effects.v ===== *)
(** * Effect validation (crates/sley-check/src/effects.rs)

    [validate_effect_program] checks a closed program of functions, effect
    definitions, capability requirements and adapter imports: identities are
    sorted and globally distinct, every function graph is accepted by the CFG
    validator, definitions are well typed, the operations that call, request
    an effect, invoke an adapter or narrow a capability have the types of
    what they name, and the effects a function declares are the closure
    [EffectClosure] computes for it.

    [accepted_effects_exact] relates the declared effects of an accepted
    program to its operations directly, with no mention of scans, rounds or
    indices. *)

From S2P Require Import Prelude Bytes Ids BTree Ssmc Types TypeWalk TypeEnv ConstCheck CfgGraph Cfg.
From S2P Require Import ValueOrder TextRows EffectClosure.
From stdpp Require Import strings.

Definition MAX_EFFECT_FUNCTIONS : N := 4096.
Definition MAX_EFFECT_DEFINITIONS : N := 4096.
Definition MAX_CAPABILITY_REQUIREMENTS : N := 4096.
Definition MAX_ADAPTER_IMPORTS : N := 4096.
Definition MAX_EFFECT_CONTRACTS : N := 65535.
Definition MAX_EFFECT_GRAPH_ENTITIES : N := 2000000.
Definition MAX_EFFECT_OPERATIONS : N := 1000000.
Definition MAX_EFFECT_CFG_USES : N := 2000000.
Definition MAX_EFFECT_CFG_EDGES : N := 65535.
Definition MAX_EFFECT_DOMINATOR_WORK : N := 50000000.
Definition MAX_EFFECT_CALL_EDGES : N := 16384.
Definition MAX_EFFECT_SET : N := 4096.
Definition MAX_ALLOWED_SCOPES : N := 65535.
Definition MAX_TOTAL_ALLOWED_SCOPES : N := 1000000.
Definition MAX_CONSTRAINT_CONTRACTS : N := 65535.
Definition MAX_TOTAL_CONSTRAINT_CONTRACTS : N := 1000000.

Definition EffectErrorCode_as_str (code : EffectErrorCode) : string :=
  match code with
  | EffUnresolvedEntity => "EFFECT_UNRESOLVED_ENTITY"
  | EffWrongEntityKind => "EFFECT_WRONG_ENTITY_KIND"
  | EffSetNotCanonical => "EFFECT_SET_NOT_CANONICAL"
  | EffClosureMismatch => "EFFECT_CLOSURE_MISMATCH"
  | EffCallType => "EFFECT_CALL_TYPE"
  | EffRequestType => "EFFECT_REQUEST_TYPE"
  | EffAdapterEffectCardinality => "ADAPTER_EFFECT_CARDINALITY"
  | EffAdapterEffectKind => "ADAPTER_EFFECT_KIND"
  | EffAdapterInvokeType => "ADAPTER_INVOKE_TYPE"
  | EffCapabilityRequirementType => "CAPABILITY_REQUIREMENT_TYPE"
  | EffCapabilityScopeConstType => "CAPABILITY_SCOPE_CONST_TYPE"
  | EffCapabilityScopeConstCanonical => "CAPABILITY_SCOPE_CONST_CANONICAL"
  | EffConstraintContractBoundary => "CONSTRAINT_CONTRACT_BOUNDARY"
  | EffResourceLimit => "EFFECT_RESOURCE_LIMIT"
  end.

Definition EffectErrorCode_numeric (code : EffectErrorCode) : N :=
  match code with
  | EffUnresolvedEntity => 23000
  | EffWrongEntityKind => 23001
  | EffSetNotCanonical => 23002
  | EffClosureMismatch => 23003
  | EffCallType => 23004
  | EffRequestType => 23005
  | EffAdapterEffectCardinality => 23006
  | EffAdapterEffectKind => 23007
  | EffAdapterInvokeType => 23008
  | EffCapabilityRequirementType => 23009
  | EffCapabilityScopeConstType => 23010
  | EffCapabilityScopeConstCanonical => 23011
  | EffConstraintContractBoundary => 23012
  | EffResourceLimit => 23013
  end.

(** ** Errors of the earlier phases *)

Definition from_type {A} (m : type_result A) : eff_out A := map_err EffType m.

Definition cfg_failure (e : CfgFailure) : EffectFailure :=
  match e with
  | Returned e => EffCfg e
  | Panicked => EffPanic
  end.

Definition from_cfg {A} (m : cfg_out A) : eff_out A := map_err cfg_failure m.

(** [checked_add(..).ok_or_else(|| effect_error(ResourceLimit))] *)
Definition effect_add (a b : N) : eff_out N := ok_or (effect_error EffResourceLimit) (checked_add a b).

(** [xs[i]] on a slice. *)
Definition effect_at {A} (l : list A) (i : nat) : eff_out A := ok_or EffPanic (l !! i).

(** ** The program and its index *)

Record FunctionUnit : Type := mkFunctionUnit {
  fu_function : FunctionGraph;
  fu_parameters : list ParameterDef;
  fu_blocks : list Block;
  fu_operations : list Operation
}.

Record FunctionEffectClosure : Type := mkFunctionEffectClosure {
  fec_function : EntityId;
  fec_effects : list EntityId
}.

Record EffectReport : Type := mkEffectReport {
  er_functions : list FunctionEffectClosure;
  er_call_edges : N;
  er_closure_rounds : N;
  er_closure_work : N
}.

Record ProgramIndex : Type := mkProgramIndex {
  pi_units : list FunctionUnit;
  pi_functions : gmap N N;
  pi_effects : gmap N EffectDefinition;
  pi_requirements : gmap N CapabilityRequirement;
  pi_adapters : gmap N AdapterImport;
  pi_contracts : gset N;
  pi_all_ids : gset N
}.

(** The iterator's [collect] into a [BTreeMap]: a later element replaces an
    earlier one. *)
Definition collect_by {A} (key : A -> N) (l : list A) : gmap N A :=
  foldl (fun m x => <[key x := x]> m) ∅ l.

Definition terminator_uses (terminator : Terminator) : eff_out N :=
  match terminator with
  | TermReturn _ => Ok 1%N
  | TermBranch branch => Ok (len (te_arguments (br_edge branch)))
  | TermCondBranch branch =>
      count ← effect_add 1 (len (te_arguments (cbr_if_true branch)));
      effect_add count (len (te_arguments (cbr_if_false branch)))
  | TermVariantSwitch switch =>
      fold_res (fun count case => effect_add count (len (se_arguments (sc_edge case)))) 1%N (vs_cases switch)
  | TermTrap trap => Ok (match trap_payload trap with Some _ => 1 | None => 0 end)%N
  end.

Definition insert_global (ids : gset N) (id : EntityId) : eff_out (gset N) :=
  if bool_decide (id ∈ ids) then effect_fail EffSetNotCanonical else Ok ({[id]} ∪ ids).

Definition index_entities {T} (id : T -> EntityId) (values : list T) (all_ids : gset N)
    : eff_out (gmap N T * gset N) :=
  fold_res (fun '(result, all_ids) value =>
      all_ids ← insert_global all_ids (id value);
      Ok (<[id value := value]> result, all_ids)) (∅, all_ids) values.

Definition ensure_sorted_by {T} (key : T -> EntityId) (values : list T) : eff_out unit :=
  if strictly_sorted (key <$> values) then Ok tt else effect_fail EffSetNotCanonical.

Definition ensure_sorted_unique (values : list EntityId) : eff_out unit :=
  if strictly_sorted values then Ok tt else effect_fail EffSetNotCanonical.

(** What the loop over the units accumulates. *)
Record UnitTotals : Type := mkUnitTotals {
  ut_all_ids : gset N;
  ut_functions : gmap N N;
  ut_graph_entities : N;
  ut_operation_count : N;
  ut_cfg_uses : N
}.

Definition index_unit (t : UnitTotals) (indexed_unit : N * FunctionUnit) : eff_out UnitTotals :=
  let '(index, unit) := indexed_unit in
  let id := fg_entity_id (fu_function unit) in
  all_ids ← insert_global (ut_all_ids t) id;
  let functions := <[id := index]> (ut_functions t) in
  graph_entities ← effect_add (ut_graph_entities t) 1;
  graph_entities ← effect_add graph_entities (len (fu_parameters unit));
  graph_entities ← effect_add graph_entities (len (fu_blocks unit));
  graph_entities ← effect_add graph_entities (len (fu_operations unit));
  operation_count ← effect_add (ut_operation_count t) (len (fu_operations unit));
  all_ids ← fold_res (fun ids parameter => insert_global ids (prm_entity_id parameter)) all_ids (fu_parameters unit);
  '(all_ids, cfg_uses) ← fold_res (fun '(ids, uses) block =>
      ids ← insert_global ids (blk_entity_id block);
      count ← terminator_uses (blk_terminator block);
      uses ← effect_add uses count;
      Ok (ids, uses)) (all_ids, ut_cfg_uses t) (fu_blocks unit);
  '(all_ids, cfg_uses) ← fold_res (fun '(ids, uses) operation =>
      ids ← insert_global ids (op_entity_id operation);
      uses ← effect_add uses (len (op_operands operation));
      Ok (ids, uses)) (all_ids, cfg_uses) (fu_operations unit);
  Ok (mkUnitTotals all_ids functions graph_entities operation_count cfg_uses).

Definition insert_contract (st : gset N * gset N) (contract : EntityId) : eff_out (gset N * gset N) :=
  let '(contracts, all_ids) := st in
  all_ids ← insert_global all_ids contract;
  Ok ({[contract]} ∪ contracts, all_ids).

Definition check_requirement_limits (requirements : gmap N CapabilityRequirement) : eff_out unit :=
  '(allowed_scopes, constraint_contracts) ← fold_res (fun '(scopes, contracts) requirement =>
      if (MAX_ALLOWED_SCOPES <? len (cr_allowed_scopes requirement))%N
         || (MAX_CONSTRAINT_CONTRACTS <? len (cr_constraint_contracts requirement))%N
      then effect_fail EffResourceLimit
      else
        scopes ← effect_add scopes (len (cr_allowed_scopes requirement));
        contracts ← effect_add contracts (len (cr_constraint_contracts requirement));
        Ok (scopes, contracts)) (0%N, 0%N) (btree_values requirements);
  if (MAX_TOTAL_ALLOWED_SCOPES <? allowed_scopes)%N || (MAX_TOTAL_CONSTRAINT_CONTRACTS <? constraint_contracts)%N
  then effect_fail EffResourceLimit else Ok tt.

Definition build_program_index (units : list FunctionUnit) (effects : list EffectDefinition)
    (requirements : list CapabilityRequirement) (adapters : list AdapterImport) (known_contracts : list EntityId)
    : eff_out ProgramIndex :=
  if (MAX_EFFECT_FUNCTIONS <? len units)%N || (MAX_EFFECT_DEFINITIONS <? len effects)%N
     || (MAX_CAPABILITY_REQUIREMENTS <? len requirements)%N || (MAX_ADAPTER_IMPORTS <? len adapters)%N
     || (MAX_EFFECT_CONTRACTS <? len known_contracts)%N
  then effect_fail EffResourceLimit
  else
    ensure_sorted_by (fun u => fg_entity_id (fu_function u)) units ≫= fun _ =>
    ensure_sorted_by ed_entity_id effects ≫= fun _ =>
    ensure_sorted_by cr_entity_id requirements ≫= fun _ =>
    ensure_sorted_by ai_entity_id adapters ≫= fun _ =>
    ensure_sorted_unique known_contracts ≫= fun _ =>
    totals ← fold_res index_unit (mkUnitTotals ∅ ∅ 0 0 0) (enumerate units);
    if (MAX_EFFECT_GRAPH_ENTITIES <? ut_graph_entities totals)%N
       || (MAX_EFFECT_OPERATIONS <? ut_operation_count totals)%N
       || (MAX_EFFECT_CFG_USES <? ut_cfg_uses totals)%N
    then effect_fail EffResourceLimit
    else
      '(effects, all_ids) ← index_entities ed_entity_id effects (ut_all_ids totals);
      '(requirements, all_ids) ← index_entities cr_entity_id requirements all_ids;
      '(adapters, all_ids) ← index_entities ai_entity_id adapters all_ids;
      '(contracts, all_ids) ← fold_res insert_contract (∅, all_ids) known_contracts;
      check_requirement_limits requirements ≫= fun _ =>
      if existsb (fun unit => MAX_EFFECT_SET <? len (fg_effects (fu_function unit)))%N units
      then effect_fail EffResourceLimit
      else if existsb (fun adapter => MAX_EFFECT_SET <? len (ai_effects adapter))%N (btree_values adapters)
      then effect_fail EffResourceLimit
      else Ok (mkProgramIndex units (ut_functions totals) effects requirements adapters contracts all_ids).

(** ** Definitions, declared sets, adapters and requirements *)

Definition lookup_entity {T} (values : gmap N T) (id : EntityId) (all_ids : gset N) : eff_out T :=
  match values !! id with
  | Some value => Ok value
  | None => if bool_decide (id ∈ all_ids) then effect_fail EffWrongEntityKind else effect_fail EffUnresolvedEntity
  end.

Definition octet_type : TypeExpr := TUInt 8.
Definition pure_index_error : TypeExpr := TBuiltinFailure BFIndex.

(** The three type equations of the conversions, and of a push. *)
Definition pure_row_shape_ok (adapter : AdapterImport) : bool :=
  if negb (bool_decide (ai_failure_type adapter = pure_index_error)) then false
  else match text_kind (ai_adapter_id adapter) with
  | Some kind =>
      let '(_, request, response) := text_row_types kind in
      bool_decide (ai_request_type adapter = request) && bool_decide (ai_response_type adapter = response)
  | None =>
      let octet_vector := TVector octet_type in
      let conversions :=
        (bool_decide (ai_request_type adapter = TBytes) && bool_decide (ai_response_type adapter = octet_vector))
        || (bool_decide (ai_request_type adapter = octet_vector) && bool_decide (ai_response_type adapter = TBytes)) in
      let push := bool_decide (ai_response_type adapter = TVector (ai_request_type adapter)) in
      conversions || push
  end.

Definition validate_pure_invoke_shape (adapter : AdapterImport) (scope_type request_type result_type : TypeExpr)
    : eff_out unit :=
  if negb (bool_decide (ai_failure_type adapter = pure_index_error)) then effect_fail EffAdapterInvokeType
  else if negb (bool_decide (ai_request_type adapter = request_type)) then effect_fail EffAdapterInvokeType
  else match text_kind (ai_adapter_id adapter) with
  | Some kind =>
      let '(scope, request, response) := text_row_types kind in
      let expected_result := TResult response pure_index_error in
      if negb (bool_decide (scope_type = scope)) || negb (bool_decide (request_type = request))
         || negb (bool_decide (ai_response_type adapter = response))
         || negb (bool_decide (result_type = expected_result))
      then effect_fail EffAdapterInvokeType else Ok tt
  | None =>
      let octet_vector := TVector octet_type in
      let conversions := bool_decide (scope_type = TUnit) &&
        ((bool_decide (request_type = TBytes) && bool_decide (ai_response_type adapter = octet_vector))
         || (bool_decide (request_type = octet_vector) && bool_decide (ai_response_type adapter = TBytes))) in
      let push := bool_decide (scope_type = TVector request_type)
        && bool_decide (ai_response_type adapter = scope_type) in
      if negb conversions && negb push then effect_fail EffAdapterInvokeType
      else
        let expected_result := TResult (ai_response_type adapter) (ai_failure_type adapter) in
        if negb (bool_decide (result_type = expected_result)) then effect_fail EffAdapterInvokeType else Ok tt
  end.

Section program.
Context (types : Definitions) (index : ProgramIndex).

Definition validate_effect_definitions : eff_out unit :=
  for_each (fun effect =>
      from_type (check_closed_type types (ed_scope_type effect)) ≫= fun _ =>
      from_type (require_persistable types (ed_scope_type effect)) ≫= fun _ =>
      from_type (check_closed_type types (ed_request_type effect)) ≫= fun _ =>
      from_type (check_closed_type types (ed_response_type effect)) ≫= fun _ =>
      from_type (check_closed_type types (ed_failure_type effect)))
    (btree_values (pi_effects index)).

Definition validate_declared_effect_sets : eff_out unit :=
  for_each (fun unit =>
      for_each (fun effect => lookup_entity (pi_effects index) effect (pi_all_ids index) ≫= fun _ => Ok tt)
        (fg_effects (fu_function unit)))
    (pi_units index).

Definition validate_adapters : eff_out unit :=
  for_each (fun adapter =>
      ensure_sorted_unique (ai_effects adapter) ≫= fun _ =>
      if (1 <? len (ai_effects adapter))%N then effect_fail EffAdapterEffectCardinality
      else
        (if (len (ai_effects adapter) =? 1)%N then
           effect_id ← effect_at (ai_effects adapter) 0;
           effect ← lookup_entity (pi_effects index) effect_id (pi_all_ids index);
           if negb (bool_decide (ed_effect_kind effect = EKAdapterCall)) then effect_fail EffAdapterEffectKind
           else Ok tt
         else Ok tt) ≫= fun _ =>
        from_type (check_closed_type types (ai_request_type adapter)) ≫= fun _ =>
        from_type (check_closed_type types (ai_response_type adapter)) ≫= fun _ =>
        from_type (check_closed_type types (ai_failure_type adapter)) ≫= fun _ =>
        if (len (ai_effects adapter) =? 0)%N && negb (pure_row_shape_ok adapter)
        then effect_fail EffAdapterInvokeType else Ok tt)
    (btree_values (pi_adapters index)).

(** One allowed scope, after [previous]. *)
Definition check_scope (effect : EffectDefinition) (previous : option ConstValue) (scope : ConstValue)
    : eff_out (option ConstValue) :=
  from_type (check_constant types scope) ≫= fun _ =>
  if negb (bool_decide (cv_type scope = ed_scope_type effect)) then effect_fail EffCapabilityScopeConstType
  else if match previous with
          | Some value => negb (bool_decide (compare_const_values value scope = Lt))
          | None => false
          end
  then effect_fail EffCapabilityScopeConstCanonical
  else Ok (Some scope).

Definition validate_requirement (requirement : CapabilityRequirement) : eff_out unit :=
  effect ← lookup_entity (pi_effects index) (cr_effect requirement) (pi_all_ids index);
  ensure_sorted_unique (cr_constraint_contracts requirement) ≫= fun _ =>
  for_each (fun contract =>
      if negb (bool_decide (contract ∈ pi_contracts index)) then effect_fail EffConstraintContractBoundary else Ok tt)
    (cr_constraint_contracts requirement) ≫= fun _ =>
  fold_res (check_scope effect) None (cr_allowed_scopes requirement) ≫= fun _ => Ok tt.

Definition validate_requirements : eff_out unit :=
  for_each validate_requirement (btree_values (pi_requirements index)).

(** ** Operations *)

Definition resolve_value_type (value : ValueRef) (parameters : gmap N ParameterDef) (operations : gmap N Operation)
    : eff_out TypeExpr :=
  match value with
  | VRParameter id => ok_or (effect_error EffUnresolvedEntity) (prm_value_type <$> parameters !! id)
  | VROperationResult result =>
      ok_or (effect_error EffUnresolvedEntity)
        (operation ← operations !! orr_operation result;
         op_result_types operation !! N.to_nat (orr_result_index result))
  end.

(** [resolve_value_type(operands[i])? != expected] *)
Definition operand_differs (operation : Operation) (i : nat) (expected : TypeExpr)
    (parameters : gmap N ParameterDef) (operations : gmap N Operation) : eff_out bool :=
  operand ← effect_at (op_operands operation) i;
  actual ← resolve_value_type operand parameters operations;
  Ok (negb (bool_decide (actual = expected))).

(** The shared shape check: both operands and the only result have the
    expected types, tested in this order and stopping at the first that
    differs. *)
Definition shape_differs (operation : Operation) (first second result : TypeExpr)
    (parameters : gmap N ParameterDef) (operations : gmap N Operation) : eff_out bool :=
  differs ← operand_differs operation 0 first parameters operations;
  if (differs : bool) then Ok true
  else
    differs ← operand_differs operation 1 second parameters operations;
    if (differs : bool) then Ok true
    else
      actual ← effect_at (op_result_types operation) 0;
      Ok (negb (bool_decide (actual = result))).

Definition arity_differs (operation : Operation) : bool :=
  negb (len (op_operands operation) =? 2)%N || negb (len (op_result_types operation) =? 1)%N.

Definition validate_call (calling_unit : FunctionUnit) (operation : Operation)
    (parameters : gmap N ParameterDef) (operations : gmap N Operation) (scan : FunctionScan) : eff_out FunctionScan :=
  match op_immediate operation with
  | ImmFunction reference =>
      callee_index ← match pi_functions index !! frv_function reference with
        | Some index_value => Ok index_value
        | None =>
            if bool_decide (frv_function reference ∈ pi_all_ids index)
            then effect_fail EffWrongEntityKind else effect_fail EffUnresolvedEntity
        end;
      target_unit ← effect_at (pi_units index) (N.to_nat callee_index);
      let target := fu_function target_unit in
      if negb (len (frv_type_arguments reference) =? len (fg_type_parameters target))%N
         || negb (len (op_operands operation) =? len (fg_parameters target))%N
         || negb (len (op_result_types operation) =? 1)%N
      then effect_fail EffCallType
      else if (2 ^ 32 <=? len (fg_type_parameters (fu_function calling_unit)))%N then effect_fail EffResourceLimit
      else
        let caller_parameter_count := len (fg_type_parameters (fu_function calling_unit)) in
        let target_parameters := collect_by prm_entity_id (fu_parameters target_unit) in
        for_each (fun '(operand, parameter_id) =>
            expected ← ok_or (effect_error EffUnresolvedEntity) (target_parameters !! parameter_id);
            expected ← from_type (instantiate_in_scope types (prm_value_type expected)
                                    (frv_type_arguments reference) caller_parameter_count);
            actual ← resolve_value_type operand parameters operations;
            if negb (bool_decide (actual = expected)) then effect_fail EffCallType else Ok tt)
          (zip (op_operands operation) (fg_parameters target)) ≫= fun _ =>
        result ← from_type (instantiate_in_scope types (fg_result_type target)
                              (frv_type_arguments reference) caller_parameter_count);
        actual ← effect_at (op_result_types operation) 0;
        if negb (bool_decide (actual = result)) then effect_fail EffCallType
        else Ok (mkFunctionScan (local_effects scan) ({[callee_index]} ∪ callees scan))
  | _ => effect_fail EffCallType
  end.

Definition validate_request (operation : Operation) (parameters : gmap N ParameterDef)
    (operations : gmap N Operation) (scan : FunctionScan) : eff_out FunctionScan :=
  match op_immediate operation with
  | ImmEntity effect_id =>
      effect ← lookup_entity (pi_effects index) effect_id (pi_all_ids index);
      if arity_differs operation then effect_fail EffRequestType
      else
        let expected_result := TResult (ed_response_type effect) (ed_failure_type effect) in
        differs ← shape_differs operation (ed_scope_type effect) (ed_request_type effect) expected_result
                    parameters operations;
        if (differs : bool) then effect_fail EffRequestType
        else Ok (mkFunctionScan ({[effect_id]} ∪ local_effects scan) (callees scan))
  | _ => effect_fail EffRequestType
  end.

Definition validate_adapter_invoke (operation : Operation) (parameters : gmap N ParameterDef)
    (operations : gmap N Operation) (scan : FunctionScan) : eff_out FunctionScan :=
  match op_immediate operation with
  | ImmEntity adapter_id =>
      adapter ← lookup_entity (pi_adapters index) adapter_id (pi_all_ids index);
      if arity_differs operation then effect_fail EffAdapterInvokeType
      else if (len (ai_effects adapter) =? 0)%N then
        scope_operand ← effect_at (op_operands operation) 0;
        scope_type ← resolve_value_type scope_operand parameters operations;
        request_operand ← effect_at (op_operands operation) 1;
        request_type ← resolve_value_type request_operand parameters operations;
        result_type ← effect_at (op_result_types operation) 0;
        validate_pure_invoke_shape adapter scope_type request_type result_type ≫= fun _ => Ok scan
      else if negb (len (ai_effects adapter) =? 1)%N then effect_fail EffAdapterInvokeType
      else
        effect_id ← effect_at (ai_effects adapter) 0;
        effect ← lookup_entity (pi_effects index) effect_id (pi_all_ids index);
        let expected_result := TResult (ai_response_type adapter) (ai_failure_type adapter) in
        differs ← shape_differs operation (ed_scope_type effect) (ai_request_type adapter) expected_result
                    parameters operations;
        if (differs : bool) then effect_fail EffAdapterInvokeType
        else Ok (mkFunctionScan ({[ed_entity_id effect]} ∪ local_effects scan) (callees scan))
  | _ => effect_fail EffAdapterInvokeType
  end.

Definition validate_capability_narrow (operation : Operation) (parameters : gmap N ParameterDef)
    (operations : gmap N Operation) : eff_out unit :=
  match op_immediate operation with
  | ImmEntity requirement_id =>
      requirement ← lookup_entity (pi_requirements index) requirement_id (pi_all_ids index);
      effect ← lookup_entity (pi_effects index) (cr_effect requirement) (pi_all_ids index);
      if arity_differs operation then effect_fail EffCapabilityRequirementType
      else
        let token := TCapabilityToken requirement_id in
        let expected_result := TResult token (TBuiltinFailure BFCapability) in
        differs ← shape_differs operation token (ed_scope_type effect) expected_result parameters operations;
        if (differs : bool) then effect_fail EffCapabilityRequirementType else Ok tt
  | _ => effect_fail EffCapabilityRequirementType
  end.

(** One operation: the scan of its function and the call edges so far. *)
Definition scan_operation (unit : FunctionUnit) (parameters : gmap N ParameterDef) (operations : gmap N Operation)
    (st : FunctionScan * N) (operation : Operation) : eff_out (FunctionScan * N) :=
  let '(scan, call_edges) := st in
  match op_opcode operation with
  | OpCallDirect =>
      scan ← validate_call unit operation parameters operations scan;
      call_edges ← effect_add call_edges 1;
      if (MAX_EFFECT_CALL_EDGES <? call_edges)%N then effect_fail EffResourceLimit else Ok (scan, call_edges)
  | OpEffectRequest => scan ← validate_request operation parameters operations scan; Ok (scan, call_edges)
  | OpAdapterInvoke => scan ← validate_adapter_invoke operation parameters operations scan; Ok (scan, call_edges)
  | OpCapabilityNarrow =>
      validate_capability_narrow operation parameters operations ≫= fun _ => Ok (scan, call_edges)
  | _ => Ok (scan, call_edges)
  end.

Definition scan_unit (call_edges : N) (unit : FunctionUnit) : eff_out (FunctionScan * N) :=
  let parameters := collect_by prm_entity_id (fu_parameters unit) in
  let blocks := collect_by blk_entity_id (fu_blocks unit) in
  let operations := collect_by op_entity_id (fu_operations unit) in
  fold_res (fun st block_id =>
      block ← ok_or (effect_error EffUnresolvedEntity) (blocks !! block_id);
      fold_res (fun st operation_id =>
          operation ← ok_or (effect_error EffUnresolvedEntity) (operations !! operation_id);
          scan_operation unit parameters operations st operation) st (blk_operations block))
    (mkFunctionScan ∅ ∅, call_edges) (fg_blocks (fu_function unit)).

Definition scan_operations : eff_out (list FunctionScan * N) :=
  fold_res (fun '(scans, call_edges) unit =>
      '(scan, call_edges) ← scan_unit call_edges unit;
      Ok (scans ++ [scan], call_edges)) ([], 0%N) (pi_units index).
End program.

(** ** The validator *)

Definition check_unit (types : Definitions) (totals : N * N) (unit : FunctionUnit) : eff_out (N * N) :=
  let '(total_edges, total_dominator_work) := totals in
  report ← from_cfg (validate_function_graph types (fu_function unit) (fu_parameters unit)
                       (fu_blocks unit) (fu_operations unit));
  total_edges ← effect_add total_edges (report_edges report);
  total_dominator_work ← effect_add total_dominator_work (dominator_word_operations report);
  if (MAX_EFFECT_CFG_EDGES <? total_edges)%N || (MAX_EFFECT_DOMINATOR_WORK <? total_dominator_work)%N
  then effect_fail EffResourceLimit else Ok (total_edges, total_dominator_work).

Definition check_declared (pair : FunctionUnit * gset N) : eff_out unit :=
  let '(unit, closure) := pair in
  if negb (len (fg_effects (fu_function unit)) =? N.of_nat (size closure))%N
     || negb (bool_decide (fg_effects (fu_function unit) = btree_set_iter closure))
  then effect_fail EffClosureMismatch else Ok tt.

(** [u32::try_from] *)
Definition effect_u32 (n : N) : eff_out N := if (n <? 2 ^ 32)%N then Ok n else effect_fail EffResourceLimit.

Definition validate_effect_program (types : Definitions) (units : list FunctionUnit)
    (effects : list EffectDefinition) (requirements : list CapabilityRequirement)
    (adapters : list AdapterImport) (known_contracts : list EntityId) : eff_out EffectReport :=
  index ← build_program_index units effects requirements adapters known_contracts;
  fold_res (check_unit types) (0%N, 0%N) units ≫= fun _ =>
  validate_effect_definitions types index ≫= fun _ =>
  validate_declared_effect_sets index ≫= fun _ =>
  validate_adapters types index ≫= fun _ =>
  validate_requirements types index ≫= fun _ =>
  '(scans, call_edges) ← scan_operations types index;
  '((closures, closure_rounds), closure_work) ← compute_closures scans;
  for_each check_declared (zip units closures) ≫= fun _ =>
  call_edges ← effect_u32 call_edges;
  closure_rounds ← effect_u32 closure_rounds;
  Ok (mkEffectReport
        ((fun '(unit, effects) => mkFunctionEffectClosure (fg_entity_id (fu_function unit)) (btree_set_iter effects))
           <$> zip units closures)
        call_edges closure_rounds closure_work).

(** ** No panics *)

Abbreviation eff_safe := (avoids EffPanic).

Lemma eff_safe_fail {A} code : eff_safe (@effect_fail A code).
Proof. done. Qed.
Lemma eff_safe_type {A} (m : type_result A) : eff_safe (from_type m).
Proof. by destruct m. Qed.
Lemma eff_safe_cfg {A} (m : cfg_out A) : no_panic m -> eff_safe (from_cfg m).
Proof. unfold avoids. destruct m as [|[]]; cbn; congruence. Qed.
Lemma eff_safe_code {A} code (o : option A) : eff_safe (ok_or (effect_error code) o).
Proof. by destruct o. Qed.
Lemma eff_safe_add a b : eff_safe (effect_add a b).
Proof. apply eff_safe_code. Qed.
Lemma eff_safe_at {A} (l : list A) i : (i < length l)%nat -> eff_safe (effect_at l i).
Proof. intros [x Hx]%lookup_lt_is_Some_2. unfold effect_at. by rewrite Hx. Qed.
Lemma eff_safe_sorted {T} (key : T -> EntityId) l : eff_safe (ensure_sorted_by key l).
Proof. unfold ensure_sorted_by. by destruct (strictly_sorted _). Qed.
Lemma eff_safe_unique l : eff_safe (ensure_sorted_unique l).
Proof. unfold ensure_sorted_unique. by destruct (strictly_sorted _). Qed.
Lemma eff_safe_insert ids id : eff_safe (insert_global ids id).
Proof. unfold insert_global. by destruct (bool_decide (id ∈ ids)). Qed.
Lemma eff_safe_lookup {T} (values : gmap N T) id ids : eff_safe (lookup_entity values id ids).
Proof. unfold lookup_entity. destruct (values !! id); [done|]. by destruct (bool_decide (id ∈ ids)). Qed.
Lemma eff_safe_resolve value parameters operations : eff_safe (resolve_value_type value parameters operations).
Proof. destruct value; apply eff_safe_code. Qed.

#[export] Hint Resolve eff_safe_fail eff_safe_type eff_safe_code eff_safe_add eff_safe_sorted eff_safe_unique
  eff_safe_insert eff_safe_lookup eff_safe_resolve : panics.

Lemma eff_safe_uses t : eff_safe (terminator_uses t).
Proof. unfold terminator_uses. destruct t; no_panic. Qed.

Lemma eff_safe_entities {T} (id : T -> EntityId) l ids : eff_safe (index_entities id l ids).
Proof. unfold index_entities. apply avoids_fold. intros x [m s] _. no_panic. Qed.

#[export] Hint Resolve eff_safe_uses eff_safe_entities : panics.

Lemma eff_safe_unit t x : eff_safe (index_unit t x).
Proof.
  destruct x as [i unit]. unfold index_unit.
  do 6 (apply avoids_bind; [no_panic|intros ? _]). apply avoids_bind; [no_panic|]. intros ids _.
  apply avoids_bind. { apply avoids_fold. intros b [s u] _. no_panic. }
  intros [ids' uses] _. apply avoids_bind; [|intros [] _; no_panic]. apply avoids_fold. intros o [s u] _. no_panic.
Qed.

Lemma eff_safe_build units effects requirements adapters contracts :
  eff_safe (build_program_index units effects requirements adapters contracts).
Proof.
  unfold build_program_index. apply avoids_if; [no_panic|]. do 5 (apply avoids_bind; [no_panic|intros ? _]).
  apply avoids_bind; [apply avoids_fold; intros; apply eff_safe_unit|]. intros t _.
  apply avoids_if; [no_panic|]. do 3 (apply avoids_bind; [no_panic|intros [] _]).
  apply avoids_bind; [apply avoids_fold; intros c [m s] _; unfold insert_contract; no_panic|]. intros [] _.
  apply avoids_bind; [|no_panic]. unfold check_requirement_limits. apply avoids_bind; [|intros [] _; no_panic].
  apply avoids_fold. intros r [m n] _. no_panic.
Qed.

Lemma arity_lengths operation :
  arity_differs operation = false -> length (op_operands operation) = 2%nat /\ length (op_result_types operation) = 1%nat.
Proof. unfold arity_differs, len. intros [H1%negb_false_iff%N.eqb_eq H2%negb_false_iff%N.eqb_eq]%orb_false_iff. lia. Qed.

Section safe.
Context (types : Definitions) (index : ProgramIndex).

Lemma eff_safe_shape operation a b r parameters operations :
  arity_differs operation = false -> eff_safe (shape_differs operation a b r parameters operations).
Proof using Type.
  intros [H2 H1]%arity_lengths. unfold shape_differs, operand_differs.
  repeat first [ apply avoids_if | apply eff_safe_at; lia | apply avoids_bind; [|intros ? _] | no_panic ].
Qed.

Lemma eff_safe_request operation parameters operations scan :
  eff_safe (validate_request index operation parameters operations scan).
Proof using Type.
  unfold validate_request. destruct (op_immediate operation); try no_panic. apply avoids_bind; [no_panic|]. intros effect _.
  destruct (arity_differs operation) eqn:E; [no_panic|]. apply avoids_bind; [by apply eff_safe_shape|no_panic].
Qed.

Lemma eff_safe_narrow operation parameters operations :
  eff_safe (validate_capability_narrow index operation parameters operations).
Proof using Type.
  unfold validate_capability_narrow. destruct (op_immediate operation); try no_panic. do 2 (apply avoids_bind; [no_panic|intros ? _]).
  destruct (arity_differs operation) eqn:E; [no_panic|]. apply avoids_bind; [by apply eff_safe_shape|no_panic].
Qed.

Lemma eff_safe_pure adapter scope request result : eff_safe (validate_pure_invoke_shape adapter scope request result).
Proof using Type.
  unfold validate_pure_invoke_shape. do 2 (apply avoids_if; [no_panic|]).
  destruct (text_kind _); [|no_panic]. destruct (text_row_types _) as [[] ?]. no_panic.
Qed.

Lemma eff_safe_adapter operation parameters operations scan :
  eff_safe (validate_adapter_invoke index operation parameters operations scan).
Proof using Type.
  unfold validate_adapter_invoke. destruct (op_immediate operation) as [|a| | | | |]; try no_panic.
  apply avoids_bind; [no_panic|]. intros adapter _. destruct (arity_differs operation) eqn:E; [no_panic|].
  pose proof (arity_lengths _ E) as [H2 H1]. pose proof eff_safe_pure as Hp. apply avoids_if.
  - repeat first [ apply Hp | apply eff_safe_at; lia | apply avoids_bind; [|intros ? _] | no_panic ].
  - destruct (N.eqb_spec (len (ai_effects adapter)) 1) as [H|]; cbn [negb]; [|no_panic].
    apply avoids_bind; [apply eff_safe_at; unfold len in H; lia|]. intros e _. apply avoids_bind; [no_panic|].
    intros effect _. apply avoids_bind; [by apply eff_safe_shape|no_panic].
Qed.

Lemma eff_safe_call unit operation parameters operations scan :
  (forall id i, pi_functions index !! id = Some i -> (N.to_nat i < length (pi_units index))%nat) ->
  eff_safe (validate_call types index unit operation parameters operations scan).
Proof using Type.
  intros Hf. unfold validate_call. destruct (op_immediate operation) as [| | | | | |reference]; try no_panic.
  apply avoids_bind; [no_panic|]. intros c Hc. destruct (pi_functions index !! _) as [i|] eqn:E.
  2:{ by destruct (bool_decide (frv_function reference ∈ pi_all_ids index)). }
  injection Hc as <-. apply avoids_bind; [apply eff_safe_at; by eapply Hf|]. intros target _. cbv zeta.
  destruct (_ || negb (len (op_result_types operation) =? 1)%N) eqn:Hlen; [no_panic|]. apply avoids_if; [no_panic|].
  apply orb_false_iff in Hlen as [_ H1%negb_false_iff%N.eqb_eq]. apply avoids_bind.
  - apply avoids_for_each. intros [v p] _. no_panic.
  - intros _ _. apply avoids_bind; [no_panic|]. intros r _. apply avoids_bind; [|no_panic].
    apply eff_safe_at. unfold len in H1. lia.
Qed.

Lemma eff_safe_scan :
  (forall id i, pi_functions index !! id = Some i -> (N.to_nat i < length (pi_units index))%nat) ->
  eff_safe (scan_operations types index).
Proof using Type.
  intros Hf. unfold scan_operations. apply avoids_fold. intros unit [scans edges] _. apply avoids_bind; [|intros [] _; no_panic].
  unfold scan_unit. apply avoids_fold. intros bid st _. apply avoids_bind; [no_panic|]. intros b _.
  apply avoids_fold. intros oid [scan e] _. apply avoids_bind; [no_panic|]. intros o _.
  pose proof eff_safe_request. pose proof eff_safe_narrow. pose proof eff_safe_adapter. pose proof eff_safe_call.
  unfold scan_operation. destruct (op_opcode o); try no_panic; apply avoids_bind; auto; no_panic.
Qed.

Lemma eff_safe_adapters : eff_safe (validate_adapters types index).
Proof using Type.
  unfold validate_adapters. apply avoids_for_each. intros adapter _. apply avoids_bind; [no_panic|]. intros _ _.
  apply avoids_if; [no_panic|]. apply avoids_bind; [|no_panic].
  destruct (N.eqb_spec (len (ai_effects adapter)) 1) as [H|]; [|no_panic].
  apply avoids_bind; [apply eff_safe_at; unfold len in H; lia|no_panic].
Qed.

Lemma eff_safe_requirements : eff_safe (validate_requirements types index).
Proof using Type. unfold validate_requirements. apply avoids_for_each. intros r _. unfold validate_requirement, check_scope. no_panic. Qed.
End safe.

(** ** The index of an accepted program *)

Lemma collect_by_indexed {A} (key : A -> N) l : NoDup (key <$> l) -> indexed key l (collect_by key l).
Proof.
  unfold collect_by. intros Hnd.
  enough (forall m : gmap N A, (forall x, x ∈ l -> m !! key x = None) -> forall k x,
    foldl (fun m x => <[key x := x]> m) m l !! k = Some x <-> m !! k = Some x \/ x ∈ l /\ key x = k) as H.
  { intros k x. rewrite H by (intros; apply lookup_empty). rewrite lookup_empty. naive_solver. }
  induction l as [|y l IH]; intros m Hm k x; cbn [foldl].
  - rewrite elem_of_nil. tauto.
  - cbn in Hnd. apply NoDup_cons in Hnd as [Hy Hnd]. rewrite IH; [|done|].
    + rewrite elem_of_cons, lookup_insert_Some. split.
      * intros [[[? ->]|[? ?]]|[? ?]]; auto.
      * intros [Hk|[[->|?] ?]]; [|by left; left|by right]. destruct (decide (key y = k)) as [<-|]; [|by left; right].
        rewrite Hm in Hk by left. done.
    + intros z Hz. rewrite lookup_insert_ne; [apply Hm; by right|]. intros E. apply Hy. rewrite E. by apply list_elem_of_fmap_2.
Qed.

Lemma insert_global_Ok ids id ids' : insert_global ids id = Ok ids' <-> (id ∉ ids) /\ ids' = {[id]} ∪ ids.
Proof. unfold insert_global. case_bool_decide; split; [done|tauto|by intros [= <-]|by intros [_ ->]]. Qed.

(** A loop that inserts identities: they are distinct and new. *)
Lemma fold_insert_global {S A} (f : S -> A -> eff_out S) (ids_of : S -> gset N) (id : A -> N) l st st' :
  (forall s x s', f s x = Ok s' -> (id x ∉ ids_of s) /\ ids_of s' = {[id x]} ∪ ids_of s) ->
  fold_res f st l = Ok st' ->
  NoDup (id <$> l) /\ (forall k, k ∈ ids_of st' <-> k ∈ ids_of st \/ k ∈ id <$> l) /\
  (forall x, x ∈ l -> id x ∉ ids_of st).
Proof.
  intros Hf. revert st. induction l as [|x l IH]; intros st; cbn [fold_res fmap list_fmap].
  - intros [= <-]. split_and!; [constructor| |by intros ? ?%elem_of_nil]. intros k. rewrite elem_of_nil. tauto.
  - intros (s & [Hx Hs]%Hf & H)%bind_Ok. apply IH in H as (Hnd & Hin & Hnew). split_and!.
    + constructor; [|done]. intros (y & E & Hy)%list_elem_of_fmap. apply (Hnew y Hy). rewrite <- E, Hs. set_solver.
    + intros k. rewrite Hin, Hs, elem_of_cons. set_solver.
    + intros y [->|Hy]%elem_of_cons; [done|]. specialize (Hnew y Hy). rewrite Hs in Hnew. set_solver.
Qed.

(** The maps the index loops build are the collected ones. *)
Lemma fold_collects {S A} (f : S -> A -> eff_out S) (map_of : S -> gmap N A) (id : A -> N) l st st' :
  (forall s x s', f s x = Ok s' -> map_of s' = <[id x := x]> (map_of s)) ->
  map_of st = ∅ -> fold_res f st l = Ok st' -> map_of st' = collect_by id l.
Proof.
  intros Hf Hst. unfold collect_by. rewrite <- Hst. clear Hst. revert st.
  induction l as [|x l IH]; intros st; cbn [fold_res foldl]; [by intros [= <-]|].
  intros (s & Hs%Hf & H)%bind_Ok. rewrite <- Hs. by apply IH.
Qed.

Lemma index_entities_spec {T} (id : T -> EntityId) values ids m ids' :
  index_entities id values ids = Ok (m, ids') -> indexed id values m.
Proof.
  unfold index_entities. intros H.
  assert (m = collect_by id values) as ->.
  { apply (fold_collects _ fst id _ _ _) in H; [done| |done]. intros [r s] x [r' s'].
    by intros (s'' & _ & [= <- _])%bind_Ok. }
  apply collect_by_indexed. apply (fold_insert_global _ snd id) in H as [H _]; [done|].
  intros [r s] x [r' s'] (s'' & ?%insert_global_Ok & [= <- <-])%bind_Ok. done.
Qed.

(** The inventories of a unit have distinct identities. *)
Record unit_ok (unit : FunctionUnit) : Prop := {
  uo_parameters : NoDup (prm_entity_id <$> fu_parameters unit);
  uo_blocks : NoDup (blk_entity_id <$> fu_blocks unit);
  uo_operations : NoDup (op_entity_id <$> fu_operations unit)
}.

Lemma index_unit_spec t i unit t' :
  index_unit t (i, unit) = Ok t' ->
  unit_ok unit /\ ut_functions t' = <[fg_entity_id (fu_function unit) := i]> (ut_functions t).
Proof.
  unfold index_unit. cbv zeta.
  intros (ids0 & _ & (n1 & _ & (n2 & _ & (n3 & _ & (n4 & _ & (n5 & _ & H)%bind_Ok)%bind_Ok)%bind_Ok)%bind_Ok)%bind_Ok)%bind_Ok.
  apply bind_Ok in H as (ids1 & H1 & ([ids2 u2] & H2 & ([ids3 u3] & H3 & [= <-])%bind_Ok)%bind_Ok).
  split; [|done]. split.
  - apply (fold_insert_global _ (fun s => s) prm_entity_id) in H1 as [H1 _]; [done|]. intros s x s' ?%insert_global_Ok. done.
  - apply (fold_insert_global _ fst blk_entity_id) in H2 as [H2 _]; [done|].
    intros [s u] x [s' u'] (a & ?%insert_global_Ok & (b & _ & (c & _ & [= <- <-])%bind_Ok)%bind_Ok)%bind_Ok. done.
  - apply (fold_insert_global _ fst op_entity_id) in H3 as [H3 _]; [done|].
    intros [s u] x [s' u'] (a & ?%insert_global_Ok & (b & _ & [= <- <-])%bind_Ok)%bind_Ok. done.
Qed.

Definition unit_id (unit : FunctionUnit) : EntityId := fg_entity_id (fu_function unit).

Record index_ok (units : list FunctionUnit) (effects : list EffectDefinition)
    (requirements : list CapabilityRequirement) (adapters : list AdapterImport) (known_contracts : list EntityId)
    (index : ProgramIndex) : Prop := {
  ix_units : pi_units index = units;
  ix_distinct : NoDup (unit_id <$> units);
  ix_unit : forall unit, unit ∈ units -> unit_ok unit;
  ix_functions : forall id i, pi_functions index !! id = Some i <->
    exists unit, units !! N.to_nat i = Some unit /\ unit_id unit = id;
  ix_effects : indexed ed_entity_id effects (pi_effects index);
  ix_requirements : indexed cr_entity_id requirements (pi_requirements index);
  ix_adapters : indexed ai_entity_id adapters (pi_adapters index);
  ix_contracts : forall c, c ∈ pi_contracts index <-> c ∈ known_contracts
}.

(** The positions of the functions, by identity *)
Definition unit_positions (units : list FunctionUnit) : gmap N N :=
  fst <$> collect_by (fun x : N * FunctionUnit => unit_id x.2) (enumerate units).

Lemma unit_positions_indexed units :
  NoDup (unit_id <$> units) ->
  forall id i, unit_positions units !! id = Some i <-> exists unit, units !! N.to_nat i = Some unit /\ unit_id unit = id.
Proof.
  intros Hnd. set (key := fun x : N * FunctionUnit => unit_id x.2).
  assert (indexed key (enumerate units) (collect_by key (enumerate units))) as Hi.
  { apply collect_by_indexed. replace (key <$> enumerate units) with (unit_id <$> (enumerate units).*2); [by rewrite snd_enumerate|].
    by rewrite <- list_fmap_compose. }
  intros id i. unfold unit_positions. rewrite lookup_fmap, fmap_Some. split.
  - intros ([j unit] & [Hin Hk]%Hi & ->). apply elem_of_enumerate in Hin. by exists unit.
  - intros (unit & Hu%elem_of_enumerate & Hid). exists (i, unit). split; [|done]. apply Hi. done.
Qed.

(** A loop over the numbered functions that records their positions *)
Lemma fold_positions {E S} (f : S -> N * FunctionUnit -> result E S) (map_of : S -> gmap N N) units st st' :
  (forall s i unit s', f s (i, unit) = Ok s' -> map_of s' = <[unit_id unit := i]> (map_of s)) ->
  map_of st = ∅ -> fold_res f st (enumerate units) = Ok st' -> map_of st' = unit_positions units.
Proof.
  intros Hf Hst. unfold unit_positions, collect_by.
  enough (forall l st0 m, fold_res f st0 l = Ok st' -> map_of st0 = fst <$> m ->
    map_of st' = fst <$> foldl (fun m x => <[unit_id x.2 := x]> m) m l) as Hgen.
  { intros H. eapply Hgen; [exact H|]. by rewrite fmap_empty. }
  clear Hst. induction l as [|[i unit] l IH]; intros st0 m; cbn [fold_res foldl]; [by intros [= ->]|].
  intros (s & Hs%Hf & H)%bind_Ok Hm. eapply IH; [exact H|]. rewrite Hs, Hm. by rewrite fmap_insert.
Qed.

Lemma functions_indexed units t :
  NoDup (unit_id <$> units) -> fold_res index_unit (mkUnitTotals ∅ ∅ 0 0 0) (enumerate units) = Ok t ->
  forall id i, ut_functions t !! id = Some i <-> exists unit, units !! N.to_nat i = Some unit /\ unit_id unit = id.
Proof.
  intros Hnd H. rewrite (fold_positions index_unit ut_functions units (mkUnitTotals ∅ ∅ 0 0 0) t); [by apply unit_positions_indexed| |done|done].
  intros s i unit s' Hs. by apply index_unit_spec in Hs as [_ ?].
Qed.

Lemma build_index_ok units effects requirements adapters known_contracts index :
  build_program_index units effects requirements adapters known_contracts = Ok index ->
  index_ok units effects requirements adapters known_contracts index.
Proof.
  unfold build_program_index. destruct (_ || _)%bool; [done|].
  intros ([] & Hs & ([] & _ & ([] & _ & ([] & _ & ([] & _ & (t & Ht & H)%bind_Ok)%bind_Ok)%bind_Ok)%bind_Ok)%bind_Ok)%bind_Ok.
  destruct (_ || _)%bool; [done|].
  apply bind_Ok in H as ([es ids1] & He & ([rs ids2] & Hr & ([ads ids3] & Ha & ([cs ids4] & Hc & ([] & _ & H)%bind_Ok)%bind_Ok)%bind_Ok)%bind_Ok).
  destruct (existsb _ _); [done|]. destruct (existsb _ _); [done|]. injection H as <-.
  assert (NoDup (unit_id <$> units)) as Hnd.
  { apply strictly_sorted_NoDup. unfold ensure_sorted_by in Hs. unfold unit_id. by destruct (strictly_sorted _). }
  split; try done.
  - intros unit [i Hi]%list_elem_of_lookup. rewrite <- (Nat2N.id i) in Hi. apply elem_of_enumerate in Hi.
    destruct (fold_res_each _ _ _ _ _ Ht Hi) as (t0 & t1 & Hu). by apply index_unit_spec in Hu as [? _].
  - by apply functions_indexed.
  - by eapply index_entities_spec.
  - by eapply index_entities_spec.
  - by eapply index_entities_spec.
  - intros c. cbn [pi_contracts].
    assert (forall y, y ∈ cs <-> y ∈ (∅ : gset N) \/ exists x, x ∈ known_contracts /\ y = x) as Hadd.
    { apply (fold_res_adds insert_contract (fun st y => y ∈ st.1) (fun x y => y = x) known_contracts (∅, ids3) (cs, ids4));
        [|exact Hc]. intros [b1 b2] x [b1' b2'] _ (s & _ & [= <- _])%bind_Ok y. cbn. set_solver. }
    rewrite Hadd. set_solver.
Qed.

(** ** What the operations of a program do *)

Section meaning.
Context (units : list FunctionUnit) (adapters : list AdapterImport).

(** The operations of a function are those its blocks list. *)
Definition operation_in (unit : FunctionUnit) (operation : Operation) : Prop :=
  exists block, block ∈ fu_blocks unit /\ blk_entity_id block ∈ fg_blocks (fu_function unit) /\
    operation ∈ fu_operations unit /\ op_entity_id operation ∈ blk_operations block.

(** The effects a function has by its own operations. *)
Inductive Performs (unit : FunctionUnit) (effect : EntityId) : Prop :=
| Performs_request operation :
    operation_in unit operation -> op_opcode operation = OpEffectRequest ->
    op_immediate operation = ImmEntity effect -> Performs unit effect
| Performs_adapter operation adapter :
    operation_in unit operation -> op_opcode operation = OpAdapterInvoke ->
    adapter ∈ adapters -> op_immediate operation = ImmEntity (ai_entity_id adapter) ->
    effect ∈ ai_effects adapter -> Performs unit effect.

Inductive CallsUnit (unit target : FunctionUnit) : Prop :=
| CallsUnit_call operation reference :
    operation_in unit operation -> op_opcode operation = OpCallDirect ->
    op_immediate operation = ImmFunction reference ->
    target ∈ units -> frv_function reference = unit_id target -> CallsUnit unit target.

(** The effects a function can have: those of the functions it calls,
    directly or not, and its own. *)
Definition CanPerform (unit : FunctionUnit) (effect : EntityId) : Prop :=
  exists target, rtc CallsUnit unit target /\ Performs target effect.
End meaning.

Section scans.
Context (types : Definitions) (units : list FunctionUnit) (effects : list EffectDefinition).
Context (requirements : list CapabilityRequirement) (adapters : list AdapterImport).
Context (known_contracts : list EntityId) (index : ProgramIndex).
Hypothesis Hindex : index_ok units effects requirements adapters known_contracts index.

(** The effects and the callees of a scan, as one set. *)
Definition scanned (st : FunctionScan * N) (y : N + N) : Prop :=
  match y with
  | inl e => e ∈ local_effects st.1
  | inr c => c ∈ callees st.1
  end.

Definition operation_adds (operation : Operation) (y : N + N) : Prop :=
  match y with
  | inl e =>
      op_opcode operation = OpEffectRequest /\ op_immediate operation = ImmEntity e \/
      exists adapter, op_opcode operation = OpAdapterInvoke /\
        pi_adapters index !! ai_entity_id adapter = Some adapter /\
        op_immediate operation = ImmEntity (ai_entity_id adapter) /\ e ∈ ai_effects adapter
  | inr c =>
      exists reference, op_opcode operation = OpCallDirect /\ op_immediate operation = ImmFunction reference /\
        pi_functions index !! frv_function reference = Some c
  end.

Lemma lookup_entity_Ok {T} (values : gmap N T) id ids x : lookup_entity values id ids = Ok x -> values !! id = Some x.
Proof using Type.
  unfold lookup_entity. destruct (values !! id); [by intros [= ->]|]. by destruct (bool_decide (id ∈ ids)).
Qed.

Lemma call_adds unit operation parameters ops scan scan' edges edges' :
  op_opcode operation = OpCallDirect ->
  validate_call types index unit operation parameters ops scan = Ok scan' ->
  forall y, scanned (scan', edges') y <-> scanned (scan, edges) y \/ operation_adds operation y.
Proof using Type.
  intros Hop. unfold validate_call. destruct (op_immediate operation) as [| | | | | |reference] eqn:Him; try done.
  intros (c & Hc & (target & _ & H)%bind_Ok)%bind_Ok.
  destruct (pi_functions index !! _) as [c'|] eqn:E; [injection Hc as ->|by destruct (bool_decide (frv_function reference ∈ _))].
  cbv zeta in H. destruct (_ || _)%bool; [done|]. destruct (_ <=? _)%N; [done|].
  apply bind_Ok in H as (_ & _ & (r & _ & (a & _ & H)%bind_Ok)%bind_Ok).
  destruct (negb _); [done|]. injection H as <-. intros [e|d]; cbn; rewrite Hop, Him.
  - split; [by left|]. intros [?|[[? _]|(ad & ? & _)]]; done.
  - rewrite elem_of_union, elem_of_singleton. split.
    + intros [->|?]; [right; by exists reference|by left].
    + intros [?|(ref & _ & [= <-] & Hr)]; [by right|left; congruence].
Qed.

Lemma request_adds operation parameters ops scan scan' edges edges' :
  op_opcode operation = OpEffectRequest ->
  validate_request index operation parameters ops scan = Ok scan' ->
  forall y, scanned (scan', edges') y <-> scanned (scan, edges) y \/ operation_adds operation y.
Proof using Type.
  intros Hop. unfold validate_request. destruct (op_immediate operation) as [|e0| | | | |] eqn:Him; try done.
  intros (effect & _ & H)%bind_Ok. destruct (arity_differs operation); [done|].
  apply bind_Ok in H as ([] & _ & H); [done|]. injection H as <-. intros [e|d]; cbn; rewrite Hop, Him.
  - rewrite elem_of_union, elem_of_singleton. split; [intros [->|?]; tauto|].
    intros [?|[[_ [= ->]]|(ad & ? & _)]]; [by right|by left|done].
  - split; [by left|]. intros [?|(ref & ? & _)]; done.
Qed.

Lemma adapter_adds operation parameters ops scan scan' edges edges' :
  op_opcode operation = OpAdapterInvoke ->
  validate_adapter_invoke index operation parameters ops scan = Ok scan' ->
  forall y, scanned (scan', edges') y <-> scanned (scan, edges) y \/ operation_adds operation y.
Proof using Hindex.
  intros Hop. unfold validate_adapter_invoke. destruct (op_immediate operation) as [|a| | | | |] eqn:Him; try done.
  intros (adapter & Ha%lookup_entity_Ok & H)%bind_Ok. destruct (arity_differs operation); [done|].
  assert (ai_entity_id adapter = a) as Hid by by apply (ix_adapters _ _ _ _ _ _ Hindex) in Ha as [_ ?].
  assert (forall e, operation_adds operation (inl e) <-> e ∈ ai_effects adapter) as Hadds.
  { intros e. cbn. rewrite Hop, Him. split.
    - intros [[? _]|(ad & _ & Had & [= Hid'] & He)]; [done|]. congruence.
    - intros He. right. exists adapter. rewrite Hid. done. }
  assert (forall d, ~ operation_adds operation (inr d)) as Hno.
  { intros d (ref & ? & _). congruence. }
  destruct (N.eqb_spec (len (ai_effects adapter)) 0) as [Hz|Hz].
  - do 5 (apply bind_Ok in H as (? & _ & H)). apply bind_Ok in H as (_ & _ & H). injection H as <-.
    intros [e|d]; [|specialize (Hno d); tauto]. rewrite Hadds. destruct (ai_effects adapter); [|done].
    rewrite elem_of_nil. tauto.
  - destruct (N.eqb_spec (len (ai_effects adapter)) 1) as [H1|]; [|done]. cbn [negb] in H.
    apply bind_Ok in H as (e0 & He0 & (effect & Heff%lookup_entity_Ok & ([] & _ & H)%bind_Ok)%bind_Ok); [done|].
    injection H as <-. apply (ix_effects _ _ _ _ _ _ Hindex) in Heff as [_ Heid].
    destruct (ai_effects adapter) as [|e1 [|e2 l]]; [done| |unfold len in H1; cbn in H1; lia].
    injection He0 as ->. intros [e|d]; [|specialize (Hno d); cbn [scanned fst callees]; tauto].
    rewrite Hadds, list_elem_of_singleton. cbn. rewrite Heid. set_solver.
Qed.

Lemma scan_operation_adds unit parameters ops st operation st' :
  scan_operation types index unit parameters ops st operation = Ok st' ->
  forall y, scanned st' y <-> scanned st y \/ operation_adds operation y.
Proof using Hindex.
  destruct st as [scan edges]. unfold scan_operation.
  destruct (op_opcode operation) eqn:Hop; intros H; try (apply bind_Ok in H as (scan' & Hv & H)).
  all: try (injection H as <-; intros [e|c]; cbn; rewrite Hop; (split; [by left|]); (intros [?|?]; [done|naive_solver])).
  - apply bind_Ok in H as (n & _ & H). destruct (_ <? _)%N; [done|]. injection H as <-. by eapply call_adds.
  - injection H as <-. by eapply request_adds.
  - injection H as <-. by eapply adapter_adds.
Qed.

(** What a function's scan holds. *)
Definition unit_adds (unit : FunctionUnit) (y : N + N) : Prop :=
  exists operation, operation_in unit operation /\ operation_adds operation y.

Lemma scan_unit_adds edges unit st :
  unit ∈ units -> scan_unit types index edges unit = Ok st -> forall y, scanned st y <-> unit_adds unit y.
Proof using Hindex.
  intros Hunit H. destruct (ix_unit _ _ _ _ _ _ Hindex _ Hunit) as [_ Hbs Hops].
  apply collect_by_indexed in Hbs, Hops. unfold scan_unit in H.
  set (blocks := collect_by blk_entity_id (fu_blocks unit)) in *.
  set (operations := collect_by op_entity_id (fu_operations unit)) in *.
  pose (op_step oid y := exists o, operations !! oid = Some o /\ operation_adds o y).
  intros y. pose proof (fun Hf => fold_res_adds _ scanned
    (fun bid y => exists b, blocks !! bid = Some b /\ exists oid, oid ∈ blk_operations b /\ op_step oid y) _ _ _ Hf H y) as Hfold.
  rewrite Hfold; clear Hfold.
  - unfold unit_adds, operation_in, op_step. split.
    + intros [Hy|(bid & Hbid & b & [Hb Hid]%Hbs & oid & Hoid & o & [Ho Hoid']%Hops & Ha)].
      * destruct y; cbn in Hy; set_solver.
      * exists o. split; [|done]. exists b. rewrite Hid, Hoid'. done.
    + intros (o & (b & Hb & Hbid & Ho & Hoid) & Ha). right. exists (blk_entity_id b). split; [done|].
      exists b. split; [by apply Hbs|]. exists (op_entity_id o). split; [done|]. exists o. split; [by apply Hops|done].
  - intros s bid s' _ (b & Hb%ok_or_Ok & Hs)%bind_Ok z.
    pose proof (fun Hf => fold_res_adds _ scanned op_step _ _ _ Hf Hs z) as Hfold. rewrite Hfold; clear Hfold.
    + split; (intros [?|Hex]; [by left|right]); [by exists b|]. destruct Hex as (b' & Hb' & Hx). rewrite Hb in Hb'. by injection Hb' as <-.
    + intros s1 oid s2 _ (o & Ho%ok_or_Ok & Hop)%bind_Ok w. rewrite (scan_operation_adds _ _ _ _ _ _ Hop).
      unfold op_step. split; (intros [?|Hex]; [by left|right]); [by exists o|]. destruct Hex as (o' & Ho' & Hx). rewrite Ho in Ho'. by injection Ho' as <-.
Qed.

Lemma scan_operations_spec scans edges :
  scan_operations types index = Ok (scans, edges) ->
  length scans = length units /\
  forall f unit, units !! f = Some unit -> exists scan, scans !! f = Some scan /\ forall y, scanned (scan, edges) y <-> unit_adds unit y.
Proof using Hindex.
  unfold scan_operations. rewrite (ix_units _ _ _ _ _ _ Hindex). intros H.
  enough (forall l scans0 e0, (forall u, u ∈ l -> u ∈ units) ->
    fold_res (fun '(scans, call_edges) unit => '(scan, call_edges) ← scan_unit types index call_edges unit;
      Ok (scans ++ [scan], call_edges)) (scans0, e0) l = Ok (scans, edges) ->
    exists rest, scans = scans0 ++ rest /\ Forall2 (fun unit scan => forall y, scanned (scan, edges) y <-> unit_adds unit y) l rest) as Hgen.
  { destruct (Hgen units [] 0%N) as (rest & -> & Hall); [done|done|]. split; [symmetry; by eapply Forall2_length|].
    intros f unit Hf. destruct (Forall2_lookup_l _ _ _ _ _ Hall Hf) as (scan & ? & ?). by exists scan. }
  clear H. induction l as [|u l IH]; intros scans0 e0 Hin; cbn [fold_res].
  - intros [= -> ->]. exists []. split; [by rewrite app_nil_r|constructor].
  - intros ([s1 e1] & ([scan e2] & Hs & [= <- <-])%bind_Ok & H)%bind_Ok.
    apply IH in H as (rest & -> & Hall); [|intros; apply Hin; by right]. exists (scan :: rest).
    split; [by rewrite <- app_assoc|]. constructor; [|done]. intros y.
    rewrite <- (scan_unit_adds _ _ _ (Hin _ (list_elem_of_here _ _)) Hs y). by destruct y.
Qed.

Lemma scans_known scans edges : scan_operations types index = Ok (scans, edges) -> callees_known scans.
Proof using Hindex.
  intros H. apply scan_operations_spec in H as [Hl Hs]. intros f scan c Hf Hc.
  assert (f < length units)%nat as [u Hu]%lookup_lt_is_Some_2 by (rewrite <- Hl; by eapply lookup_lt_Some).
  destruct (Hs f u Hu) as (scan' & Hf' & Hy). rewrite Hf in Hf'. injection Hf' as <-.
  destruct (proj1 (Hy (inr c)) Hc) as (o & _ & ref & _ & _ & Hi). apply (ix_functions _ _ _ _ _ _ Hindex) in Hi as (v & Hv & _).
  rewrite Hl. by eapply lookup_lt_Some.
Qed.

Lemma unit_adds_effect unit e : unit_adds unit (inl e) <-> Performs adapters unit e.
Proof using Hindex.
  unfold unit_adds. split.
  - intros (o & Ho & [[Hop Him]|(ad & Hop & [Had _]%(ix_adapters _ _ _ _ _ _ Hindex) & Him & He)]); [by eapply Performs_request|by eapply Performs_adapter].
  - intros [o Ho Hop Him|o ad Ho Hop Had Him He]; exists o; (split; [done|]); [by left|right].
    exists ad. split_and!; [done| |done|done]. by apply (ix_adapters _ _ _ _ _ _ Hindex).
Qed.

Lemma unit_adds_call unit c :
  unit_adds unit (inr c) <-> exists target, units !! N.to_nat c = Some target /\ CallsUnit units unit target.
Proof using Hindex.
  unfold unit_adds. split.
  - intros (o & Ho & ref & Hop & Him & (v & Hv & Hid)%(ix_functions _ _ _ _ _ _ Hindex)). exists v. split; [done|].
    econstructor; try done. by eapply list_elem_of_lookup_2.
  - intros (v & Hv & [o ref Ho Hop Him _ Hid]). exists o. split; [done|]. exists ref. split_and!; [done|done|].
    apply (ix_functions _ _ _ _ _ _ Hindex). by exists v.
Qed.

(** The closure of the scans is the closure of the program. *)
Lemma reaches_performs scans edges f unit e :
  scan_operations types index = Ok (scans, edges) -> units !! f = Some unit ->
  Reaches scans f e <-> CanPerform units adapters unit e.
Proof using Hindex.
  intros Hscan Hf. apply scan_operations_spec in Hscan as [Hl Hs]. unfold Reaches, CanPerform. split.
  - intros (g & scan & Hr & Hg & He). revert unit Hf. induction Hr as [f|f h g Hfh _ IH]; intros unit Hf.
    + exists unit. split; [done|]. destruct (Hs f unit Hf) as (scan' & Hf' & Hy). rewrite Hg in Hf'. injection Hf' as <-.
      by apply unit_adds_effect, (Hy (inl e)).
    + destruct Hfh as (scan' & Hf' & Hh). destruct (Hs f unit Hf) as (scan'' & Hf'' & Hy). rewrite Hf' in Hf''. injection Hf'' as <-.
      apply (proj1 (Hy (inr (N.of_nat h)))), unit_adds_call in Hh as (v & Hv & Hcall). rewrite Nat2N.id in Hv.
      destruct (IH Hg v Hv) as (t & Ht & Hp). exists t. split; [by eapply rtc_l|done].
  - intros (target & Hr & Hp). revert f Hf. induction Hr as [u|u v w Huv _ IH]; intros f Hf.
    + destruct (Hs f u Hf) as (scan & Hscan & Hy). exists f, scan. split_and!; [done|done|].
      by apply (Hy (inl e)), unit_adds_effect.
    + assert (v ∈ units) as [h Hv]%list_elem_of_lookup by by destruct Huv.
      destruct (IH Hp h Hv) as (g & scan & Hr & ? & ?). exists g, scan. split_and!; [|done|done].
      eapply rtc_l; [|exact Hr]. destruct (Hs f u Hf) as (scan' & Hscan' & Hy). exists scan'. split; [done|].
      apply (Hy (inr (N.of_nat h))), unit_adds_call. exists v. by rewrite Nat2N.id.
Qed.
End scans.

(** ** Allowed scopes *)

Abbreviation scope_lt := (fun a b => compare_const_values a b = Lt).

Lemma scopes_spec types effect l previous last :
  fold_res (check_scope types effect) previous l = Ok last ->
  Forall (fun scope => ConstTyped types scope /\ cv_type scope = ed_scope_type effect) l /\
  StronglySorted scope_lt (option_list previous ++ l).
Proof.
  revert previous. induction l as [|x l IH]; intros previous H.
  - split; [constructor|]. destruct previous; repeat constructor.
  - cbn [fold_res] in H. apply bind_Ok in H as (p & Hp & H). unfold check_scope in Hp. apply bind_Ok in Hp as ([] & Hx & Hp).
    destruct (bool_decide (cv_type x = _)) eqn:Et; [|done]. apply bool_decide_eq_true in Et. cbn [negb] in Hp.
    assert (check_constant types x = Ok tt) as [HT _]%check_constant_sound.
    { destruct (check_constant types x) as [[]|]; done. }
    destruct (match previous with Some _ => _ | None => _ end) eqn:Ep; [done|]. injection Hp as <-.
    apply IH in H as [Hall Hs]. split; [by constructor|]. cbn [option_list app] in Hs.
    destruct previous as [v|]; [|done]. apply negb_false_iff, bool_decide_eq_true in Ep. cbn [option_list app].
    constructor; [done|]. inversion Hs as [|? ? _ Hx']; subst. constructor; [done|].
    eapply Forall_impl; [exact Hx'|]. intros y Hy. by eapply (tc_trans _ const_total).
Qed.

(** ** Theorems *)

(** What a successful validation went through. *)
Lemma validate_stages types units effects requirements adapters known_contracts report :
  validate_effect_program types units effects requirements adapters known_contracts = Ok report ->
  exists index scans edges closures rounds work,
    index_ok units effects requirements adapters known_contracts index /\
    validate_requirements types index = Ok tt /\
    scan_operations types index = Ok (scans, edges) /\ compute_closures scans = Ok (closures, rounds, work) /\
    for_each check_declared (zip units closures) = Ok tt /\
    report = mkEffectReport ((fun '(unit, effects) =>
      mkFunctionEffectClosure (fg_entity_id (fu_function unit)) (btree_set_iter effects)) <$> zip units closures) edges rounds work.
Proof.
  unfold validate_effect_program.
  intros (index & Hi & (t & _ & ([] & _ & ([] & _ & ([] & _ & ([] & Hr & ([scans edges] & Hs & H)%bind_Ok)%bind_Ok)%bind_Ok)%bind_Ok)%bind_Ok)%bind_Ok)%bind_Ok.
  apply bind_Ok in H as ([[closures rounds] work] & Hc & ([] & Hd & (ce & Hce & (cr & Hcr & [= <-])%bind_Ok)%bind_Ok)%bind_Ok).
  unfold effect_u32 in Hce, Hcr. destruct (edges <? _)%N, (rounds <? _)%N; try done.
  injection Hce as <-. injection Hcr as <-. exists index, scans, edges, closures, rounds, work.
  split_and!; try done. by eapply build_index_ok.
Qed.

Lemma accepted_effects types units effects requirements adapters known_contracts report :
  validate_effect_program types units effects requirements adapters known_contracts = Ok report ->
  (forall unit, unit ∈ units -> strictly_sorted (fg_effects (fu_function unit)) = true /\
    forall e, e ∈ fg_effects (fu_function unit) <-> CanPerform units adapters unit e) /\
  er_functions report = (fun unit => mkFunctionEffectClosure (unit_id unit) (fg_effects (fu_function unit))) <$> units /\
  (er_closure_work report <= MAX_EFFECT_CLOSURE_WORK)%N.
Proof.
  intros (index & scans & edges & closures & rounds & work & Hi & _ & Hs & Hc & Hd & ->)%validate_stages.
  pose proof (closures_exact scans (scans_known _ _ _ _ _ _ _ Hi _ _ Hs)) as Hex. rewrite Hc in Hex.
  destruct Hex as (Hlen & Hwork & Hmem). pose proof (scan_operations_spec _ _ _ _ _ _ _ Hi _ _ Hs) as [Hl _].
  rewrite for_each_Ok in Hd.
  assert (forall f unit, units !! f = Some unit -> closures !! f = Some (members closures f) /\
    fg_effects (fu_function unit) = btree_set_iter (members closures f)) as Hdecl.
  { intros f unit Hf. assert (f < length closures)%nat as [c Hcf]%lookup_lt_is_Some_2.
    { rewrite Hlen, Hl. by eapply lookup_lt_Some. }
    unfold members. rewrite Hcf. split; [done|]. rewrite Forall_forall in Hd.
    specialize (Hd (unit, c)). unfold check_declared in Hd. cbn [default from_option id].
    destruct (bool_decide (_ = _)) eqn:E; [by apply bool_decide_eq_true in E|]. rewrite orb_true_r in Hd.
    discriminate Hd. apply list_elem_of_lookup. exists f. by rewrite lookup_zip_with, Hf, Hcf. }
  split_and!; [| |done].
  - intros unit [f Hf]%list_elem_of_lookup. destruct (Hdecl f unit Hf) as [_ ->]. split; [apply btree_set_iter_sorted|].
    intros e. rewrite elem_of_btree_set_iter, Hmem. by eapply reaches_performs.
  - cbn [er_functions]. apply list_eq. intros f. rewrite !list_lookup_fmap, lookup_zip_with.
    destruct (units !! f) as [unit|] eqn:Hf; [|done]. destruct (Hdecl f unit Hf) as [-> Hu]. cbn. by rewrite <- Hu.
Qed.

(** C2: in an accepted program the effects a function declares are, strictly
    ascending, exactly those it can perform: the effects its own operations
    request or reach through the adapters they invoke, and those of the
    functions it calls, directly or not.  The report repeats them, and the work
    it reports is within its limit. *)
Theorem accepted_effects_exact types units effects requirements adapters known_contracts report :
  validate_effect_program types units effects requirements adapters known_contracts = Ok report ->
  (forall unit, unit ∈ units -> strictly_sorted (fg_effects (fu_function unit)) = true /\
    forall e, e ∈ fg_effects (fu_function unit) <-> CanPerform units adapters unit e) /\
  er_functions report = (fun unit => mkFunctionEffectClosure (unit_id unit) (fg_effects (fu_function unit))) <$> units /\
  (er_closure_work report <= MAX_EFFECT_CLOSURE_WORK)%N.
Proof. apply accepted_effects. Qed.

(** No index into the functions, the operands, the result types or the closures
    can panic. *)
Lemma validate_effects_no_panic types units effects requirements adapters known_contracts :
  eff_safe (validate_effect_program types units effects requirements adapters known_contracts).
Proof.
  apply avoids_bind; [apply eff_safe_build|]. intros index Hi%build_index_ok.
  apply avoids_bind.
  { apply avoids_fold. intros unit [e w] _. unfold check_unit. apply avoids_bind; [|no_panic].
    apply eff_safe_cfg, validate_no_panic. }
  intros _ _. apply avoids_bind; [unfold validate_effect_definitions; no_panic|]. intros _ _.
  apply avoids_bind; [unfold validate_declared_effect_sets; no_panic|]. intros _ _.
  apply avoids_bind; [apply eff_safe_adapters|]. intros _ _. apply avoids_bind; [apply eff_safe_requirements|]. intros _ _.
  apply avoids_bind.
  { apply eff_safe_scan. intros id i (unit & Hu & _)%(ix_functions _ _ _ _ _ _ Hi). rewrite (ix_units _ _ _ _ _ _ Hi).
    by eapply lookup_lt_Some. }
  intros [scans edges] Hs. pose proof (closures_exact scans (scans_known _ _ _ _ _ _ _ Hi _ _ Hs)) as Hex.
  apply avoids_bind; [unfold avoids; destruct (compute_closures scans) as [|e]; [done|]; by rewrite Hex|].
  intros [[closures rounds] work] _. apply avoids_bind; [|intros _ _; unfold effect_u32; no_panic].
  apply avoids_for_each. intros [u c] _. unfold check_declared. no_panic.
Qed.

(** The allowed scopes of an accepted capability requirement are well-typed
    constants of the scope type of its effect, in strictly increasing order,
    and its constraint contracts are known contracts in strictly increasing
    order. *)
Theorem accepted_scopes types units effects requirements adapters known_contracts report requirement :
  validate_effect_program types units effects requirements adapters known_contracts = Ok report ->
  requirement ∈ requirements ->
  exists effect, effect ∈ effects /\ ed_entity_id effect = cr_effect requirement /\
    Forall (fun scope => ConstTyped types scope /\ cv_type scope = ed_scope_type effect) (cr_allowed_scopes requirement) /\
    StronglySorted scope_lt (cr_allowed_scopes requirement) /\
    strictly_sorted (cr_constraint_contracts requirement) = true /\
    forall c, c ∈ cr_constraint_contracts requirement -> c ∈ known_contracts.
Proof.
  intros (index & scans & edges & closures & rounds & work & Hi & Hv & _)%validate_stages Hr.
  unfold validate_requirements in Hv. rewrite for_each_Ok, Forall_forall in Hv.
  specialize (Hv requirement ltac:(apply elem_of_btree_values; exists (cr_entity_id requirement);
    by apply (ix_requirements _ _ _ _ _ _ Hi))).
  unfold validate_requirement in Hv. apply bind_Ok in Hv as (effect & Heff%lookup_entity_Ok & Hv).
  apply (ix_effects _ _ _ _ _ _ Hi) in Heff as [Hin Hid].
  apply bind_Ok in Hv as ([] & Hsorted & ([] & Hknown & (last & Hscopes & _)%bind_Ok)%bind_Ok).
  apply scopes_spec in Hscopes as [Htyped Hlt]. exists effect. split_and!; try done.
  - unfold ensure_sorted_unique in Hsorted. by destruct (strictly_sorted _).
  - rewrite for_each_Ok, Forall_forall in Hknown. intros c Hc. specialize (Hknown c Hc). cbv beta in Hknown.
    destruct (bool_decide (c ∈ pi_contracts index)) eqn:E; [|done]. apply bool_decide_eq_true in E.
    by apply (ix_contracts _ _ _ _ _ _ Hi).
Qed.

(** A program for the witnesses: function 1 calls function 2, which requests
    effect 50; requirement 60 allows one scope of that effect. *)
Module Program.
Definition result_type : TypeExpr := TResult TUnit TText.
Definition helper : FunctionUnit := mkFunctionUnit
  (mkFunctionGraph 2 [] [20%N; 21%N] result_type [50%N] 22 [22%N] [] VPrivate)
  [mkParameterDef 20 2 PRFunction 0 TBool; mkParameterDef 21 2 PRFunction 1 TText]
  [mkBlock 22 2 [] [23%N] (TermReturn (mkReturnTerminator (VROperationResult (mkOperationResultRef 23 0)))) RCRequired]
  [mkOperation 23 22 0 OpEffectRequest [VRParameter 20; VRParameter 21] [result_type] (ImmEntity 50)].
Definition main : FunctionUnit := mkFunctionUnit
  (mkFunctionGraph 1 [] [10%N; 11%N] result_type [50%N] 12 [12%N] [] VPrivate)
  [mkParameterDef 10 1 PRFunction 0 TBool; mkParameterDef 11 1 PRFunction 1 TText]
  [mkBlock 12 1 [] [13%N] (TermReturn (mkReturnTerminator (VROperationResult (mkOperationResultRef 13 0)))) RCRequired]
  [mkOperation 13 12 0 OpCallDirect [VRParameter 10; VRParameter 11] [result_type] (ImmFunction (mkFunctionRefValue 2 []))].
Definition units : list FunctionUnit := [main; helper].
Definition effects : list EffectDefinition := [mkEffectDefinition 50 EKStdoutWrite TBool TText TUnit TText VPrivate].
Definition requirement : CapabilityRequirement :=
  mkCapabilityRequirement 60 50 [mkConstValue TBool (DBool false); mkConstValue TBool (DBool true)] [70%N].
Definition report : EffectReport :=
  mkEffectReport [mkFunctionEffectClosure 1 [50%N]; mkFunctionEffectClosure 2 [50%N]] 1 1 5.

Lemma program_accepted : validate_effect_program ∅ units effects [requirement] [] [70%N] = Ok report.
Proof. vm_compute. reflexivity. Qed.
End Program.

Theorem accepted_effects_exact_witness :
  (forall unit, unit ∈ Program.units -> strictly_sorted (fg_effects (fu_function unit)) = true /\
    forall e, e ∈ fg_effects (fu_function unit) <-> CanPerform Program.units [] unit e) /\
  er_functions Program.report =
    (fun unit => mkFunctionEffectClosure (unit_id unit) (fg_effects (fu_function unit))) <$> Program.units /\
  (er_closure_work Program.report <= MAX_EFFECT_CLOSURE_WORK)%N.
Proof. apply (accepted_effects_exact ∅ _ Program.effects [Program.requirement] [] [70%N]). exact Program.program_accepted. Defined.

Theorem accepted_scopes_witness :
  exists effect, effect ∈ Program.effects /\ ed_entity_id effect = cr_effect Program.requirement /\
    Forall (fun scope => ConstTyped ∅ scope /\ cv_type scope = ed_scope_type effect) (cr_allowed_scopes Program.requirement) /\
    StronglySorted scope_lt (cr_allowed_scopes Program.requirement) /\
    strictly_sorted (cr_constraint_contracts Program.requirement) = true /\
    forall c, c ∈ cr_constraint_contracts Program.requirement -> c ∈ [70%N].
Proof.
  apply (accepted_scopes ∅ Program.units Program.effects [Program.requirement] [] [70%N] Program.report).
  - exact Program.program_accepted.
  - left.
Defined.
