(* ===== verification/Contracts.v ===== *)
(** * Contract and test validation (crates/sley-check/src/contracts.rs)

    [validate_contract_test_program] checks a program that the effect validator
    accepts for its contracts and tests: constants and globals, the targets and
    predicates of contracts with the bindings of their parameters, the contracts
    functions attach, the assertions in their code, and the tests, of which it
    selects those to run.  Its work is threaded through as a count. *)

From S2P Require Import Prelude Bytes Ids BTree Ssmc Types TypeWalk TypeEnv ConstCheck CfgGraph Cfg.
From S2P Require Import ValueOrder TextRows EffectClosure Effects.
From stdpp Require Import strings.

Definition MAX_CONTRACT_TYPE_DEFINITIONS : N := 65535.
Definition MAX_CONTRACT_CONSTANTS : N := 65535.
Definition MAX_CONTRACT_GLOBALS : N := 65535.
Definition MAX_CONTRACTS : N := 65535.
Definition MAX_TEST_CASES : N := 65535.
Definition MAX_CONTRACT_BINDINGS : N := 65535.
Definition MAX_TOTAL_CONTRACT_BINDINGS : N := 1000000.
Definition MAX_TEST_INPUTS : N := 65535.
Definition MAX_TOTAL_TEST_INPUTS : N := 1000000.
Definition MAX_FUNCTION_CONTRACTS : N := 65535.
Definition MAX_TOTAL_FUNCTION_CONTRACTS : N := 1000000.
Definition MAX_AFFECTED_FUNCTIONS : N := 65535.
Definition MAX_REQUIRED_TESTS : N := 65535.
Definition MAX_SELECTED_TESTS : N := 65535.
Definition MAX_CONTRACT_TEST_WORK : N := 50000000.

Inductive ContractTestErrorCode : Type :=
| CtUnresolvedEntity
| CtWrongEntityKind
| CtSetNotCanonical
| CtInvariantUnsupported
| CtKindUnsupported
| CtTargetInvalid
| CtPredicateInvalid
| CtBindingInvalid
| CtAttachmentMismatch
| CtAssertType
| CtTestTargetInvalid
| CtTestInputType
| CtTestEffectEnvironmentUnsupported
| CtTestExpectedType
| CtTestFailureCodeInvalid
| CtTestObservationUnsupported
| CtTestSelectionInvalid
| CtResourceLimit.
#[global] Instance ContractTestErrorCode_eq_dec : EqDecision ContractTestErrorCode.
Proof. solve_decision. Defined.

Definition ContractTestErrorCode_as_str (code : ContractTestErrorCode) : string :=
  match code with
  | CtUnresolvedEntity => "CONTRACT_UNRESOLVED_ENTITY"
  | CtWrongEntityKind => "CONTRACT_WRONG_ENTITY_KIND"
  | CtSetNotCanonical => "CONTRACT_SET_NOT_CANONICAL"
  | CtInvariantUnsupported => "CONTRACT_INVARIANT_UNSUPPORTED"
  | CtKindUnsupported => "CONTRACT_KIND_UNSUPPORTED"
  | CtTargetInvalid => "CONTRACT_TARGET_INVALID"
  | CtPredicateInvalid => "CONTRACT_PREDICATE_INVALID"
  | CtBindingInvalid => "CONTRACT_BINDING_INVALID"
  | CtAttachmentMismatch => "CONTRACT_ATTACHMENT_MISMATCH"
  | CtAssertType => "CONTRACT_ASSERT_TYPE"
  | CtTestTargetInvalid => "TEST_PLAN_TARGET_INVALID"
  | CtTestInputType => "TEST_PLAN_INPUT_TYPE"
  | CtTestEffectEnvironmentUnsupported => "TEST_PLAN_EFFECT_ENVIRONMENT_UNSUPPORTED"
  | CtTestExpectedType => "TEST_PLAN_EXPECTED_TYPE"
  | CtTestFailureCodeInvalid => "TEST_PLAN_FAILURE_CODE_INVALID"
  | CtTestObservationUnsupported => "TEST_PLAN_OBSERVATION_UNSUPPORTED"
  | CtTestSelectionInvalid => "TEST_PLAN_SELECTION_INVALID"
  | CtResourceLimit => "CONTRACT_TEST_PLAN_RESOURCE_LIMIT"
  end.

Definition ContractTestErrorCode_numeric (code : ContractTestErrorCode) : N :=
  match code with
  | CtUnresolvedEntity => 24000
  | CtWrongEntityKind => 24001
  | CtSetNotCanonical => 24002
  | CtInvariantUnsupported => 24003
  | CtKindUnsupported => 24004
  | CtTargetInvalid => 24005
  | CtPredicateInvalid => 24006
  | CtBindingInvalid => 24007
  | CtAttachmentMismatch => 24008
  | CtAssertType => 24009
  | CtTestTargetInvalid => 24010
  | CtTestInputType => 24011
  | CtTestEffectEnvironmentUnsupported => 24012
  | CtTestExpectedType => 24013
  | CtTestFailureCodeInvalid => 24014
  | CtTestObservationUnsupported => 24015
  | CtTestSelectionInvalid => 24016
  | CtResourceLimit => 24017
  end.

(** ** Errors

    [ConPanic] is an index out of range. *)

Inductive ContractFailure : Type :=
| ConType (error : TypeErrorCode)
| ConEffect (error : EffectFailure)
| ConTest (code : ContractTestErrorCode)
| ConPanic.

Abbreviation con_out := (result ContractFailure).

Definition contract_fail {A} (code : ContractTestErrorCode) : con_out A := Err (ConTest code).
Definition con_type {A} (m : type_result A) : con_out A := map_err ConType m.
Definition con_effect {A} (m : eff_out A) : con_out A := map_err ConEffect m.
Definition con_add (a b : N) : con_out N := ok_or (ConTest CtResourceLimit) (checked_add a b).

(** [xs[i]] on a slice *)
Definition con_at {A} (l : list A) (i : nat) : con_out A := ok_or ConPanic (l !! i).

(** ** The index *)

Record ContractIndex : Type := mkContractIndex {
  ci_units : list FunctionUnit;
  ci_functions : gmap N N;
  ci_closures : gmap N (list EntityId);
  ci_constants : gmap N ConstantDefinition;
  ci_globals : gmap N GlobalValueDefinition;
  ci_contracts : gmap N ContractDefinition;
  ci_tests : gmap N TestCaseDefinition;
  ci_all_ids : gset N
}.

Inductive TestPlanFinality : Type := PolicyIncomplete.

Record ContractTestReport : Type := mkContractTestReport {
  ctr_contracts : list EntityId;
  ctr_tests : list EntityId;
  ctr_selected_tests : list EntityId;
  ctr_selection_finality : TestPlanFinality;
  ctr_contract_assertions : N;
  ctr_work : N
}.

Definition insert_id (ids : gset N) (id : EntityId) : con_out (gset N) :=
  if bool_decide (id ∈ ids) then contract_fail CtSetNotCanonical else Ok ({[id]} ∪ ids).

Definition index_entities {T} (values : list T) (all_ids : gset N) (id : T -> EntityId) : con_out (gmap N T * gset N) :=
  fold_res (fun '(output, all_ids) value =>
      all_ids ← insert_id all_ids (id value);
      Ok (<[id value := value]> output, all_ids)) (∅, all_ids) values.

Definition ensure_sorted_by {T} (values : list T) (key : T -> EntityId) : con_out unit :=
  if strictly_sorted (key <$> values) then Ok tt else contract_fail CtSetNotCanonical.

Definition ensure_sorted_unique (values : list EntityId) : con_out unit :=
  if strictly_sorted values then Ok tt else contract_fail CtSetNotCanonical.

(** [for value in values { if count > limit { fail } total = total.checked_add(count)? }] *)
Definition total_of {T} (count : T -> N) (limit : N) (values : list T) : con_out N :=
  fold_res (fun total value =>
      if (limit <? count value)%N then contract_fail CtResourceLimit else con_add total (count value)) 0%N values.

Definition insert_ids {T} (id : T -> EntityId) (ids : gset N) (values : list T) : con_out (gset N) :=
  fold_res (fun ids value => insert_id ids (id value)) ids values.

Definition index_unit (st : gset N * gmap N N) (entry : N * FunctionUnit) : con_out (gset N * gmap N N) :=
  let '(ids, functions) := st in
  let '(position, unit) := entry in
  ids ← insert_id ids (unit_id unit);
  ids ← insert_ids prm_entity_id ids (fu_parameters unit);
  ids ← insert_ids blk_entity_id ids (fu_blocks unit);
  ids ← insert_ids op_entity_id ids (fu_operations unit);
  Ok (ids, <[unit_id unit := position]> functions).

Section build.
Context (units : list FunctionUnit) (effects : list EffectDefinition) (requirements : list CapabilityRequirement).
Context (adapters : list AdapterImport) (type_definitions : list TypeDefinition) (constants : list ConstantDefinition).
Context (globals : list GlobalValueDefinition) (contracts : list ContractDefinition) (tests : list TestCaseDefinition).
Context (affected_functions required_tests : list EntityId).

Definition check_counts : con_out unit :=
  if (MAX_CONTRACT_TYPE_DEFINITIONS <? len type_definitions)%N || (MAX_CONTRACT_CONSTANTS <? len constants)%N
     || (MAX_CONTRACT_GLOBALS <? len globals)%N || (MAX_CONTRACTS <? len contracts)%N || (MAX_TEST_CASES <? len tests)%N
     || (MAX_AFFECTED_FUNCTIONS <? len affected_functions)%N || (MAX_REQUIRED_TESTS <? len required_tests)%N
  then contract_fail CtResourceLimit else Ok tt.

Definition check_orders : con_out unit :=
  ensure_sorted_by units unit_id ≫= fun _ =>
  ensure_sorted_by type_definitions td_entity_id ≫= fun _ =>
  ensure_sorted_by constants kd_entity_id ≫= fun _ =>
  ensure_sorted_by globals gd_entity_id ≫= fun _ =>
  ensure_sorted_by contracts cd_entity_id ≫= fun _ =>
  ensure_sorted_by tests tc_entity_id ≫= fun _ =>
  ensure_sorted_unique affected_functions ≫= fun _ =>
  ensure_sorted_unique required_tests.

Definition check_totals : con_out unit :=
  total_bindings ← total_of (fun contract => len (cd_bindings contract)) MAX_CONTRACT_BINDINGS contracts;
  total_inputs ← total_of (fun test => len (tc_inputs test)) MAX_TEST_INPUTS tests;
  total_attachments ← total_of (fun unit => len (fg_contracts (fu_function unit))) MAX_FUNCTION_CONTRACTS units;
  if (MAX_TOTAL_CONTRACT_BINDINGS <? total_bindings)%N || (MAX_TOTAL_TEST_INPUTS <? total_inputs)%N
     || (MAX_TOTAL_FUNCTION_CONTRACTS <? total_attachments)%N
  then contract_fail CtResourceLimit else Ok tt.

Definition build_index : con_out ContractIndex :=
  check_counts ≫= fun _ =>
  check_orders ≫= fun _ =>
  check_totals ≫= fun _ =>
  '(ids, functions) ← fold_res index_unit (∅, ∅) (enumerate units);
  ids ← insert_ids ed_entity_id ids effects;
  ids ← insert_ids cr_entity_id ids requirements;
  ids ← insert_ids ai_entity_id ids adapters;
  ids ← insert_ids td_entity_id ids type_definitions;
  '(constants, ids) ← index_entities constants ids kd_entity_id;
  '(globals, ids) ← index_entities globals ids gd_entity_id;
  '(contracts, ids) ← index_entities contracts ids cd_entity_id;
  '(tests, ids) ← index_entities tests ids tc_entity_id;
  Ok (mkContractIndex units functions ∅ constants globals contracts tests ids).
End build.

Definition set_closures (closures : gmap N (list EntityId)) (index : ContractIndex) : ContractIndex :=
  mkContractIndex (ci_units index) (ci_functions index) closures (ci_constants index) (ci_globals index)
    (ci_contracts index) (ci_tests index) (ci_all_ids index).

Definition charge (work amount : N) : con_out N :=
  work ← con_add work amount;
  if (MAX_CONTRACT_TEST_WORK <? work)%N then contract_fail CtResourceLimit else Ok work.

Definition lookup {T} (values : gmap N T) (id : EntityId) (all_ids : gset N) : con_out T :=
  match values !! id with
  | Some value => Ok value
  | None => if bool_decide (id ∈ all_ids) then contract_fail CtWrongEntityKind else contract_fail CtUnresolvedEntity
  end.

Section program.
Context (types : Definitions) (index : ContractIndex).

Definition function_index (id : EntityId) : con_out N := lookup (ci_functions index) id (ci_all_ids index).

Definition unit_at (id : EntityId) : con_out FunctionUnit :=
  position ← function_index id; con_at (ci_units index) (N.to_nat position).

(** ** Constants, globals, invariants *)

Definition check_constant_entity (work : N) (constant : ConstantDefinition) : con_out N :=
  work ← charge work 1;
  con_type (check_constant types (kd_value constant)) ≫= fun _ => Ok work.

Definition check_global_entity (work : N) (global : GlobalValueDefinition) : con_out N :=
  work ← charge work 1;
  con_type (check_closed_type types (gd_value_type global)) ≫= fun _ =>
  con_type (require_persistable types (gd_value_type global)) ≫= fun _ =>
  initializer ← lookup (ci_constants index) (gd_initializer global) (ci_all_ids index);
  if bool_decide (cv_type (kd_value initializer) = gd_value_type global) then Ok work else contract_fail CtBindingInvalid.

Definition validate_constants_and_globals (work : N) : con_out N :=
  work ← fold_res check_constant_entity work (btree_values (ci_constants index));
  fold_res check_global_entity work (btree_values (ci_globals index)).

Definition validate_invariant_profile (definitions : list TypeDefinition) (work : N) : con_out N :=
  fold_res (fun work definition =>
      work ← charge work 1;
      if bool_decide (td_invariants definition = []) then Ok work else contract_fail CtInvariantUnsupported) work definitions.

(** ** Contracts *)

(** [values.iter().map(|value| (value.entity_id, value)).collect()] *)
Definition parameters_of (unit : FunctionUnit) : gmap N ParameterDef := collect_by prm_entity_id (fu_parameters unit).

(** The parameters of the target that are its own, not those of its blocks *)
Definition target_parameters (target : FunctionUnit) : gmap N ParameterDef :=
  collect_by prm_entity_id
    (List.filter (fun parameter => bool_decide (prm_entity_id parameter ∈ fg_parameters (fu_function target))) (fu_parameters target)).

(** The type of a source, and whether a result and an error are bound once it is *)
Definition binding_source (target : FunctionUnit) (source : ContractSource) (has_result has_error : bool)
    : con_out (TypeExpr * bool * bool) :=
  match source with
  | CSParameter id =>
      parameter ← ok_or (ConTest CtBindingInvalid) (target_parameters target !! id);
      Ok (prm_value_type parameter, has_result, has_error)
  | CSResult => Ok (fg_result_type (fu_function target), true, has_error)
  | CSError =>
      match fg_result_type (fu_function target) with
      | TResult _ error => Ok (error, has_result, true)
      | _ => contract_fail CtBindingInvalid
      end
  | CSGlobal id =>
      global ← lookup (ci_globals index) id (ci_all_ids index);
      Ok (gd_value_type global, has_result, has_error)
  end.

(** The work so far, and whether a result and an error were bound *)
Definition check_binding (target predicate : FunctionUnit) (st : N * bool * bool) (entry : N * ContractBinding)
    : con_out (N * bool * bool) :=
  let '(work, has_result, has_error) := st in
  let '(ordinal, binding) := entry in
  work ← charge work 1;
  if negb (cb_predicate_parameter binding =? ordinal)%N then contract_fail CtBindingInvalid
  else
    predicate_id ← con_at (fg_parameters (fu_function predicate)) (N.to_nat ordinal);
    parameter ← ok_or (ConTest CtUnresolvedEntity) (parameters_of predicate !! predicate_id);
    '(source_type, has_result, has_error) ← binding_source target (cb_source binding) has_result has_error;
    if bool_decide (prm_value_type parameter = source_type) then Ok (work, has_result, has_error)
    else contract_fail CtBindingInvalid.

Definition validate_bindings (contract : ContractDefinition) (target predicate : FunctionUnit) (work : N) : con_out N :=
  if negb (len (cd_bindings contract) =? len (fg_parameters (fu_function predicate)))%N then contract_fail CtBindingInvalid
  else
    '(work, has_result, has_error) ← fold_res (check_binding target predicate) (work, false, false) (enumerate (cd_bindings contract));
    match cd_contract_kind contract with
    | CKPrecondition => if (has_result : bool) || (has_error : bool) then contract_fail CtBindingInvalid else Ok work
    | CKPostcondition => if (has_result : bool) && (has_error : bool) then contract_fail CtBindingInvalid else Ok work
    | CKResultPredicate => if negb (has_result : bool) || (has_error : bool) then contract_fail CtBindingInvalid else Ok work
    | _ => Ok work
    end.

Definition validate_contract (work : N) (contract : ContractDefinition) : con_out N :=
  work ← charge work 1;
  if bool_decide (is_Some (cd_resource_limits contract)) then contract_fail CtKindUnsupported
  else if negb match cd_contract_kind contract with CKPrecondition | CKPostcondition | CKResultPredicate => true | _ => false end
  then contract_fail CtKindUnsupported
  else
    target_position ← function_index (cd_target contract);
    predicate_position ← function_index (cd_predicate contract);
    target ← con_at (ci_units index) (N.to_nat target_position);
    predicate ← con_at (ci_units index) (N.to_nat predicate_position);
    if (unit_id target =? unit_id predicate)%N || negb (bool_decide (fg_type_parameters (fu_function target) = []))
    then contract_fail CtTargetInvalid
    else
      predicate_closure ← ok_or (ConTest CtUnresolvedEntity) (ci_closures index !! unit_id predicate);
      if negb (bool_decide (fg_type_parameters (fu_function predicate) = [])) || negb (bool_decide (predicate_closure = []))
         || negb (bool_decide (fg_contracts (fu_function predicate) = []))
         || negb (bool_decide (fg_result_type (fu_function predicate) = TBool))
      then contract_fail CtPredicateInvalid
      else validate_bindings contract target predicate work.

Definition validate_contracts (work : N) : con_out N :=
  fold_res validate_contract work (btree_values (ci_contracts index)).

(** ** Attachments *)

Definition expect_contract (expected : gmap N (list EntityId)) (contract : ContractDefinition) : gmap N (list EntityId) :=
  <[cd_target contract := default [] (expected !! cd_target contract) ++ [cd_entity_id contract]]> expected.

Definition expected_contracts : gmap N (list EntityId) := foldl expect_contract ∅ (btree_values (ci_contracts index)).

Definition validate_attachments (work : N) : con_out N :=
  fold_res (fun work unit =>
      work ← charge work 1;
      if bool_decide (fg_contracts (fu_function unit) = default [] (expected_contracts !! unit_id unit)) then Ok work
      else contract_fail CtAttachmentMismatch) work (ci_units index).

(** ** Assertions *)

Definition operations_of (unit : FunctionUnit) : gmap N Operation := collect_by op_entity_id (fu_operations unit).

Definition ordered_operations (unit : FunctionUnit) (operations : gmap N Operation) : con_out (list Operation) :=
  let blocks := collect_by blk_entity_id (fu_blocks unit) in
  output ← map_res (fun block_id =>
      block ← ok_or (ConTest CtUnresolvedEntity) (blocks !! block_id);
      map_res (fun operation_id => ok_or (ConTest CtUnresolvedEntity) (operations !! operation_id)) (blk_operations block))
    (fg_blocks (fu_function unit));
  Ok (concat output).

Definition resolve_value_type (value : ValueRef) (parameters : gmap N ParameterDef) (operations : gmap N Operation) : con_out TypeExpr :=
  match value with
  | VRParameter id => ok_or (ConTest CtUnresolvedEntity) (prm_value_type <$> parameters !! id)
  | VROperationResult result =>
      ok_or (ConTest CtUnresolvedEntity)
        (operation ← operations !! orr_operation result;
         op_result_types operation !! N.to_nat (orr_result_index result))
  end.

Definition contract_result : TypeExpr := TResult TUnit (TBuiltinFailure BFContractViolation).

(** The work so far, and the assertions *)
Definition check_assertion (unit : FunctionUnit) (parameters : gmap N ParameterDef) (operations : gmap N Operation)
    (st : N * N) (operation : Operation) : con_out (N * N) :=
  let '(work, assertions) := st in
  if negb (bool_decide (op_opcode operation = OpContractAssert)) then Ok (work, assertions)
  else
    work ← charge work 1;
    assertions ← con_add assertions 1;
    match op_immediate operation with
    | ImmEntity contract_id =>
        contract ← lookup (ci_contracts index) contract_id (ci_all_ids index);
        if negb (cd_target contract =? unit_id unit)%N then contract_fail CtAssertType
        else
          predicate ← unit_at (cd_predicate contract);
          if negb (len (op_operands operation) =? len (fg_parameters (fu_function predicate)))%N
             || negb (len (op_result_types operation) =? 1)%N
          then contract_fail CtAssertType
          else
            for_each (fun '(operand, predicate_id) =>
                expected ← ok_or (ConTest CtUnresolvedEntity) (parameters_of predicate !! predicate_id);
                found ← resolve_value_type operand parameters operations;
                if bool_decide (found = prm_value_type expected) then Ok tt else contract_fail CtAssertType)
              (zip (op_operands operation) (fg_parameters (fu_function predicate))) ≫= fun _ =>
            result ← con_at (op_result_types operation) 0;
            if bool_decide (result = contract_result) then Ok (work, assertions) else contract_fail CtAssertType
    | _ => contract_fail CtAssertType
    end.

Definition check_unit_assertions (st : N * N) (unit : FunctionUnit) : con_out (N * N) :=
  let operations := operations_of unit in
  ordered ← ordered_operations unit operations;
  fold_res (check_assertion unit (parameters_of unit) operations) st ordered.

Definition validate_contract_assertions (work : N) : con_out (N * N) :=
  fold_res check_unit_assertions (work, 0%N) (ci_units index).

Definition reject_test_observations (work : N) : con_out N :=
  fold_res (fun work unit =>
      fold_res (fun work operation =>
          work ← charge work 1;
          if bool_decide (op_opcode operation = OpTestObserve) then contract_fail CtTestObservationUnsupported else Ok work)
        work (fu_operations unit)) work (ci_units index).

(** ** Tests *)

Definition validate_test (work : N) (test : TestCaseDefinition) : con_out N :=
  work ← charge work 1;
  target ← unit_at (tc_target test);
  closure ← ok_or (ConTest CtUnresolvedEntity) (ci_closures index !! unit_id target);
  if negb (bool_decide (fg_type_parameters (fu_function target) = [])) || negb (bool_decide (closure = []))
  then contract_fail CtTestTargetInvalid
  else if negb (len (tc_inputs test) =? len (fg_parameters (fu_function target)))%N then contract_fail CtTestInputType
  else
    for_each (fun '(input, parameter_id) =>
        con_type (check_constant types input) ≫= fun _ =>
        expected ← ok_or (ConTest CtUnresolvedEntity) (parameters_of target !! parameter_id);
        if bool_decide (cv_type input = prm_value_type expected) then Ok tt else contract_fail CtTestInputType)
      (zip (tc_inputs test) (fg_parameters (fu_function target))) ≫= fun _ =>
    if negb match tc_effect_environment test with EnvReplay [] => true | _ => false end
    then contract_fail CtTestEffectEnvironmentUnsupported
    else
      match tc_expected test with
      | EOValue value =>
          con_type (check_constant types value) ≫= fun _ =>
          if bool_decide (cv_type value = fg_result_type (fu_function target)) then Ok tt else contract_fail CtTestExpectedType
      | EOFailureCode code => if (1 <=? code)%N && (code <=? 4)%N then Ok tt else contract_fail CtTestFailureCodeInvalid
      end ≫= fun _ =>
      if bool_decide (tc_observations test = []) then Ok work else contract_fail CtTestObservationUnsupported.

Definition validate_tests (work : N) : con_out N := fold_res validate_test work (btree_values (ci_tests index)).

(** ** Selection *)

Definition affect (st : gset N * N) (function : EntityId) : con_out (gset N * N) :=
  let '(affected, work) := st in
  work ← charge work 1;
  map_err (fun _ => ConTest CtTestSelectionInvalid) (function_index function) ≫= fun _ => Ok ({[function]} ∪ affected, work).

Definition require (st : gset N * N) (test : EntityId) : con_out (gset N * N) :=
  let '(required, work) := st in
  work ← charge work 1;
  if negb (bool_decide (is_Some (ci_tests index !! test))) then contract_fail CtTestSelectionInvalid
  else Ok ({[test]} ∪ required, work).

Definition choose (affected required : gset N) (st : list EntityId * N) (test : TestCaseDefinition) : con_out (list EntityId * N) :=
  let '(selected, work) := st in
  work ← charge work 1;
  if bool_decide (tc_target test ∈ affected) || bool_decide (tc_entity_id test ∈ required)
  then Ok (selected ++ [tc_entity_id test], work) else Ok (selected, work).

Definition select_tests (affected_functions required_tests : list EntityId) (work : N) : con_out (list EntityId * N) :=
  '(affected, work) ← fold_res affect (∅, work) affected_functions;
  '(required, work) ← fold_res require (∅, work) required_tests;
  '(selected, work) ← fold_res (choose affected required) ([], work) (btree_values (ci_tests index));
  if (MAX_SELECTED_TESTS <? len selected)%N then contract_fail CtResourceLimit else Ok (selected, work).
End program.

(** ** The validator *)

(** The closures of the effect report, by function *)
Definition closures_of (report : EffectReport) : gmap N (list EntityId) :=
  foldl (fun closures function => <[fec_function function := fec_effects function]> closures) ∅ (er_functions report).

(** [u32::try_from] *)
Definition contract_u32 (n : N) : con_out N := if (n <? 2 ^ 32)%N then Ok n else contract_fail CtResourceLimit.

Definition validate_contract_test_program (types : Definitions) (units : list FunctionUnit) (effects : list EffectDefinition)
    (requirements : list CapabilityRequirement) (adapters : list AdapterImport) (type_definitions : list TypeDefinition)
    (constants : list ConstantDefinition) (globals : list GlobalValueDefinition) (contracts : list ContractDefinition)
    (tests : list TestCaseDefinition) (affected_functions required_tests : list EntityId) : con_out ContractTestReport :=
  index ← build_index units effects requirements adapters type_definitions constants globals contracts tests affected_functions required_tests;
  if negb (bool_decide (btree_keys types = td_entity_id <$> type_definitions)) then contract_fail CtSetNotCanonical
  else
    effect_report ← con_effect (validate_effect_program types units effects requirements adapters (cd_entity_id <$> contracts));
    let index := set_closures (closures_of effect_report) index in
    work ← validate_constants_and_globals types index 0;
    work ← validate_invariant_profile type_definitions work;
    work ← validate_contracts index work;
    work ← validate_attachments index work;
    '(work, contract_assertions) ← validate_contract_assertions index work;
    work ← reject_test_observations index work;
    work ← validate_tests types index work;
    '(selected_tests, work) ← select_tests index affected_functions required_tests work;
    contract_assertions ← contract_u32 contract_assertions;
    Ok (mkContractTestReport (btree_keys (ci_contracts index)) (btree_keys (ci_tests index)) selected_tests PolicyIncomplete
          contract_assertions work).
