(* ===== verification/ContractsSound.v ===== *)
(** * The stages of contract and test validation

    What each loop of [validate_contract_test_program] accepts, and the work it
    counts: an accepted stage is its condition on every element, and the count
    after it is the count before it plus the cost of the elements. *)

From S2P Require Import Prelude Bytes Ids BTree Ssmc Types TypeWalk TypeEnv ConstCheck CfgGraph Cfg.
From S2P Require Import ValueOrder TextRows EffectClosure Effects Contracts.

(** ** Maps built from sorted lists *)

Lemma sorted_iter {A} (key : A -> N) l (m : gmap N A) :
  strictly_sorted (key <$> l) = true -> indexed key l m -> btree_iter m = (fun x => (key x, x)) <$> l.
Proof.
  intros Hs Hm. pose proof (strictly_sorted_NoDup _ Hs) as Hnd.
  assert (btree_keys m = key <$> l) as Hk.
  { apply strictly_sorted_unique; [apply btree_keys_sorted|done|]. intros k. rewrite elem_of_btree_keys, list_elem_of_fmap. split.
    - intros [x [Hx <-]%Hm]. by exists x.
    - intros (x & -> & Hx). exists x. by apply Hm. }
  unfold btree_keys in Hk. apply list_eq. intros i.
  assert ((btree_iter m).*1 !! i = (key <$> l) !! i) as Hki by by rewrite Hk. rewrite !list_lookup_fmap in Hki. rewrite list_lookup_fmap. clear Hk.
  destruct (btree_iter m !! i) as [[k x]|] eqn:Ei, (l !! i) as [y|] eqn:El; cbn in Hki |- *; try done. injection Hki as ->.
  apply list_elem_of_lookup_2, elem_of_btree_iter, Hm in Ei as [Hx Hkey].
  assert (x = y) as ->; [|done]. apply list_elem_of_lookup in Hx as [j Hj].
  assert (i = j) as <-; [|congruence]. eapply (NoDup_lookup _ _ _ (key y) Hnd); rewrite list_lookup_fmap; [by rewrite El|rewrite Hj; cbn; congruence].
Qed.

Lemma sorted_values {A} (key : A -> N) l (m : gmap N A) :
  strictly_sorted (key <$> l) = true -> indexed key l m -> btree_values m = l.
Proof.
  intros Hs Hm. unfold btree_values. rewrite (sorted_iter key l m Hs Hm), <- list_fmap_compose. apply list_fmap_id.
Qed.

Lemma sorted_keys {A} (key : A -> N) l (m : gmap N A) :
  strictly_sorted (key <$> l) = true -> indexed key l m -> btree_keys m = key <$> l.
Proof. intros Hs Hm. unfold btree_keys. by rewrite (sorted_iter key l m Hs Hm), <- list_fmap_compose. Qed.

(** ** The index *)

Lemma insert_id_Ok ids id ids' : insert_id ids id = Ok ids' <-> (id ∉ ids) /\ ids' = {[id]} ∪ ids.
Proof. unfold insert_id. case_bool_decide; split; [done|tauto|by intros [= <-]|by intros [_ ->]]. Qed.

(** A set that gets the identities of a list: they are distinct and new. *)
Record Inserted (ids : gset N) (new : list N) (ids' : gset N) : Prop := {
  in_distinct : NoDup new;
  in_new : forall x, x ∈ new -> x ∉ ids;
  in_after : forall x, x ∈ ids' <-> x ∈ ids \/ x ∈ new
}.

Lemma inserted_nil ids : Inserted ids [] ids.
Proof. split; [constructor|by intros ? ?%elem_of_nil|]. intros x. rewrite elem_of_nil. tauto. Qed.

Lemma inserted_app ids1 new1 ids2 new2 ids3 :
  Inserted ids1 new1 ids2 -> Inserted ids2 new2 ids3 -> Inserted ids1 (new1 ++ new2) ids3.
Proof.
  intros [D1 N1 A1] [D2 N2 A2]. split.
  - apply NoDup_app. split_and!; [done| |done]. intros x Hx H2. apply (N2 x H2), A1. by right.
  - intros x [Hx|Hx]%elem_of_app; [by apply N1|]. intros H. apply (N2 x Hx), A1. by left.
  - intros x. rewrite A2, A1, elem_of_app. tauto.
Qed.

Lemma insert_id_inserted ids id ids' : insert_id ids id = Ok ids' -> Inserted ids [id] ids'.
Proof.
  intros [Hn ->]%insert_id_Ok. split; [apply NoDup_singleton|by intros x ->%list_elem_of_singleton|]. intros x. set_solver.
Qed.

(** A loop whose steps insert identities *)
Lemma fold_inserts {S A} (f : S -> A -> con_out S) (ids_of : S -> gset N) (new : A -> list N) l st st' :
  (forall s x s', f s x = Ok s' -> Inserted (ids_of s) (new x) (ids_of s')) ->
  fold_res f st l = Ok st' -> Inserted (ids_of st) (l ≫= new) (ids_of st').
Proof.
  intros Hf. revert st. induction l as [|x l IH]; intros st; cbn [fold_res].
  - intros [= <-]. apply inserted_nil.
  - intros (s & Hs & H)%bind_Ok. cbn [mbind list_bind]. eapply inserted_app; [by apply Hf|by apply IH].
Qed.

Lemma bind_singleton {A B} (f : A -> B) l : (l ≫= fun x => [f x]) = f <$> l.
Proof. induction l as [|x l IH]; [done|]. cbn. by f_equal. Qed.

Lemma insert_ids_inserted {T} (id : T -> EntityId) ids values ids' :
  insert_ids id ids values = Ok ids' -> Inserted ids (id <$> values) ids'.
Proof.
  intros H. rewrite <- bind_singleton. eapply (fold_inserts _ (fun s => s)); [|exact H].
  intros s x s' Hx. by apply insert_id_inserted.
Qed.

Lemma index_entities_inserted {T} (id : T -> EntityId) values ids m ids' :
  Contracts.index_entities values ids id = Ok (m, ids') -> indexed id values m /\ Inserted ids (id <$> values) ids'.
Proof.
  unfold Contracts.index_entities. intros H. assert (Inserted ids (id <$> values) ids') as Hi.
  { rewrite <- bind_singleton. eapply (fold_inserts _ snd _ _ (∅, ids) (m, ids')); [|exact H].
    intros [s u] x [s' u'] (u'' & ?%insert_id_inserted & [= _ <-])%bind_Ok. done. }
  split; [|done]. assert (m = collect_by id values) as ->; [|apply collect_by_indexed, Hi].
  unfold collect_by. clear Hi. revert H. generalize (∅ : gmap N T). revert ids.
  induction values as [|x values IH]; intros ids m0; cbn [fold_res foldl]; [by intros [= <- _]|].
  intros ([m1 ids1] & (u & _ & [= <- <-])%bind_Ok & H)%bind_Ok. by eapply IH.
Qed.

Definition unit_ids (unit : FunctionUnit) : list EntityId :=
  unit_id unit :: (prm_entity_id <$> fu_parameters unit) ++ (blk_entity_id <$> fu_blocks unit) ++ (op_entity_id <$> fu_operations unit).

Lemma index_unit_inserted st i unit st' :
  Contracts.index_unit st (i, unit) = Ok st' ->
  Inserted st.1 (unit_ids unit) st'.1 /\ st'.2 = <[unit_id unit := i]> st.2.
Proof.
  destruct st as [ids functions]. unfold Contracts.index_unit.
  intros (ids1 & H1%insert_id_inserted & (ids2 & H2%insert_ids_inserted & (ids3 & H3%insert_ids_inserted & (ids4 & H4%insert_ids_inserted & [= <-])%bind_Ok)%bind_Ok)%bind_Ok)%bind_Ok.
  split; [|done]. cbn [fst]. apply (inserted_app _ [_] ids1); [done|]. eapply inserted_app; [done|]. by eapply inserted_app.
Qed.

Lemma total_of_Ok {T} (count : T -> N) limit values total : total_of count limit values = Ok total -> total = sum_of count values.
Proof.
  unfold total_of. enough (forall acc, fold_res (fun total value =>
    if (limit <? count value)%N then contract_fail CtResourceLimit else con_add total (count value)) acc values = Ok total ->
    total = (acc + sum_of count values)%N) as Hgen by (intros H; apply (Hgen 0%N H)).
  induction values as [|x values IH]; intros acc; cbn [fold_res sum_of]; [intros [= <-]; lia|].
  intros (acc' & Hx & ->%IH)%bind_Ok. destruct (limit <? count x)%N; [done|].
  apply ok_or_Ok, checked_add_Some in Hx as [-> _]. lia.
Qed.

Section index.
Context (units : list FunctionUnit) (effects : list EffectDefinition) (requirements : list CapabilityRequirement).
Context (adapters : list AdapterImport) (type_definitions : list TypeDefinition) (constants : list ConstantDefinition).
Context (globals : list GlobalValueDefinition) (contracts : list ContractDefinition) (tests : list TestCaseDefinition).
Context (affected_functions required_tests : list EntityId).

(** The maps of the index hold the entities of the request, which are sorted,
    distinct and within the limits. *)
Record contracts_ok (index : ContractIndex) : Prop := {
  ck_units : ci_units index = units;
  ck_distinct : NoDup (units ≫= unit_ids);
  ck_functions : forall id i, ci_functions index !! id = Some i <-> exists unit, units !! N.to_nat i = Some unit /\ unit_id unit = id;
  ck_constants : indexed kd_entity_id constants (ci_constants index);
  ck_globals : indexed gd_entity_id globals (ci_globals index);
  ck_contracts : indexed cd_entity_id contracts (ci_contracts index);
  ck_tests : indexed tc_entity_id tests (ci_tests index);
  ck_sorted_constants : strictly_sorted (kd_entity_id <$> constants) = true;
  ck_sorted_globals : strictly_sorted (gd_entity_id <$> globals) = true;
  ck_sorted_contracts : strictly_sorted (cd_entity_id <$> contracts) = true;
  ck_sorted_tests : strictly_sorted (tc_entity_id <$> tests) = true
}.

Record counts_ok : Prop := {
  co_definitions : (len type_definitions <= MAX_CONTRACT_TYPE_DEFINITIONS)%N;
  co_constants : (len constants <= MAX_CONTRACT_CONSTANTS)%N;
  co_globals : (len globals <= MAX_CONTRACT_GLOBALS)%N;
  co_contracts : (len contracts <= MAX_CONTRACTS)%N;
  co_tests : (len tests <= MAX_TEST_CASES)%N;
  co_affected : (len affected_functions <= MAX_AFFECTED_FUNCTIONS)%N;
  co_required : (len required_tests <= MAX_REQUIRED_TESTS)%N;
  co_bindings : (sum_of (fun contract => len (cd_bindings contract)) contracts <= MAX_TOTAL_CONTRACT_BINDINGS)%N
}.

Abbreviation built := (build_index units effects requirements adapters type_definitions constants globals contracts tests
  affected_functions required_tests).

Lemma ensure_sorted_Ok {T} (values : list T) key : Contracts.ensure_sorted_by values key = Ok tt -> strictly_sorted (key <$> values) = true.
Proof using Type. unfold Contracts.ensure_sorted_by. by destruct (strictly_sorted _). Qed.

Lemma build_index_counts index : built = Ok index -> counts_ok.
Proof using Type.
  unfold build_index, check_counts. intros ([] & Hc & ([] & _ & ([] & Ht & _)%bind_Ok)%bind_Ok)%bind_Ok.
  destruct (_ || _) eqn:E in Hc; [done|]. clear Hc. simplify_res. N_bool.
  unfold check_totals in Ht. apply bind_Ok in Ht as (tb & Hb%total_of_Ok & (ti & _ & (ta & _ & Ht)%bind_Ok)%bind_Ok).
  destruct (_ || _) eqn:E in Ht; [done|]. simplify_res. N_bool. by split.
Qed.

Lemma functions_positions ids functions :
  NoDup (unit_id <$> units) -> fold_res Contracts.index_unit (∅, ∅) (enumerate units) = Ok (ids, functions) ->
  functions = unit_positions units.
Proof using Type.
  intros Hnd H. apply (fold_positions Contracts.index_unit snd units (∅, ∅) (ids, functions)); [|done|done].
  intros s i unit s' Hs. by apply index_unit_inserted in Hs as [_ ?].
Qed.

Lemma build_contracts_ok index : built = Ok index -> contracts_ok index.
Proof using Type.
  unfold build_index, check_orders. intros ([] & _ & ([] & Hs & ([] & _ & H)%bind_Ok)%bind_Ok)%bind_Ok.
  apply bind_Ok in Hs as ([] & Hu%ensure_sorted_Ok & ([] & _ & ([] & Hk%ensure_sorted_Ok & ([] & Hg%ensure_sorted_Ok &
    ([] & Hc%ensure_sorted_Ok & ([] & Ht%ensure_sorted_Ok & _)%bind_Ok)%bind_Ok)%bind_Ok)%bind_Ok)%bind_Ok).
  apply bind_Ok in H as ([ids functions] & Hf & (i1 & _ & (i2 & _ & (i3 & _ & (i4 & _ & H)%bind_Ok)%bind_Ok)%bind_Ok)%bind_Ok).
  apply bind_Ok in H as ([mk i5] & Hmk%index_entities_inserted & ([mg i6] & Hmg%index_entities_inserted &
    ([mc i7] & Hmc%index_entities_inserted & ([mt i8] & Hmt%index_entities_inserted & [= <-])%bind_Ok)%bind_Ok)%bind_Ok).
  assert (NoDup (unit_id <$> units)) as Hnd by by apply strictly_sorted_NoDup.
  split; cbn; try done; try tauto.
  - apply (fold_inserts _ fst (fun x => unit_ids x.2) _ (∅, ∅) (ids, functions)) in Hf as [Hd _ _].
    + by rewrite <- (snd_enumerate units), list_fmap_bind.
    + intros s [i u] s' Hs. by apply index_unit_inserted in Hs as [? _].
  - rewrite (functions_positions _ _ Hnd Hf). by apply unit_positions_indexed.
Qed.
End index.

(** ** Work *)

Lemma contract_charge_Ok work amount w : (work + amount <= MAX_CONTRACT_TEST_WORK)%N -> Contracts.charge work amount = Ok w <-> w = (work + amount)%N.
Proof.
  intros Hle. unfold Contracts.charge, con_add, checked_add.
  assert (MAX_CONTRACT_TEST_WORK < U64_LIMIT)%N by done. destruct (N.ltb_spec (work + amount) U64_LIMIT); [|lia]. cbn [ok_or mbind result_bind].
  destruct (N.ltb_spec MAX_CONTRACT_TEST_WORK (work + amount)); [lia|]. rewrite Ok_inj. split; congruence.
Qed.

(** [let work = charge(..)?; k(work)] within the budget *)
Lemma charged {A} work amount (k : N -> con_out A) :
  (work + amount <= MAX_CONTRACT_TEST_WORK)%N -> Contracts.charge work amount ≫= k = k (work + amount)%N.
Proof.
  intros Hle. destruct (Contracts.charge work amount) as [w|e] eqn:E.
  - apply contract_charge_Ok in E as ->; [done|lia].
  - assert (Contracts.charge work amount = Ok (work + amount)%N) by by apply contract_charge_Ok. congruence.
Qed.

(** A loop whose steps cost [cost] and succeed on the elements with [P], while
    there is budget for the whole of it; [I] holds of its states. *)
Lemma fold_pays {S A} (f : S -> A -> con_out S) (work_of : S -> N) (I : S -> Prop) (step : S -> A -> S) (cost : A -> N)
    (P : A -> Prop) l s s' :
  (forall s x s', x ∈ l -> I s -> (work_of s + cost x <= MAX_CONTRACT_TEST_WORK)%N -> f s x = Ok s' <-> P x /\ s' = step s x) ->
  (forall s x, work_of (step s x) = (work_of s + cost x)%N) -> (forall s x, I s -> I (step s x)) -> I s ->
  (work_of s + sum_of cost l <= MAX_CONTRACT_TEST_WORK)%N ->
  fold_res f s l = Ok s' <-> (forall x, x ∈ l -> P x) /\ s' = foldl step s l.
Proof.
  intros Hf Hw HI. revert s. induction l as [|x l IH]; intros s Hs Hle; cbn [fold_res foldl sum_of] in *.
  - rewrite Ok_inj. split; [intros <-; split; [by intros x ?%elem_of_nil|done]|by intros [_ ->]].
  - assert (fold_res f (step s x) l = Ok s' <-> (forall x, x ∈ l -> P x) /\ s' = foldl step (step s x) l) as Hl.
    { apply IH; [by intros; apply Hf; [by right|..]|by apply HI|rewrite Hw; lia]. }
    rewrite bind_Ok. setoid_rewrite Hf; [|by left|done|lia]. setoid_rewrite elem_of_cons. split.
    + intros (s1 & [Hx ->] & [Hy ->]%Hl). split; [by intros y [->|?]; [|apply Hy]|done].
    + intros [Hall ->]. exists (step s x). split; [split; [apply Hall; by left|done]|]. apply Hl. split; [|done]. intros y ?. apply Hall. by right.
Qed.

Lemma foldl_adds {A} (cost : A -> N) l work : foldl (fun w x => w + cost x)%N work l = (work + sum_of cost l)%N.
Proof. revert work. induction l as [|x l IH]; intros work; cbn [foldl sum_of]; [lia|]. rewrite IH. lia. Qed.

(** A loop that only counts *)
Lemma fold_counts {A} (f : N -> A -> con_out N) (cost : A -> N) (P : A -> Prop) l work work' :
  (forall w x w', x ∈ l -> (w + cost x <= MAX_CONTRACT_TEST_WORK)%N -> f w x = Ok w' <-> P x /\ w' = (w + cost x)%N) ->
  (work + sum_of cost l <= MAX_CONTRACT_TEST_WORK)%N ->
  fold_res f work l = Ok work' <-> (forall x, x ∈ l -> P x) /\ work' = (work + sum_of cost l)%N.
Proof.
  intros Hf Hle. rewrite <- foldl_adds. apply (fold_pays f (fun w => w) (fun _ => True) (fun w x => w + cost x)%N cost); try done. intros w x w' Hx _. by apply Hf.
Qed.

Lemma sum_of_ones {A} (l : list A) : sum_of (fun _ => 1%N) l = len l.
Proof. rewrite sum_of_const. lia. Qed.

Lemma sum_of_app {A} (cost : A -> N) l1 l2 : sum_of cost (l1 ++ l2) = (sum_of cost l1 + sum_of cost l2)%N.
Proof. induction l1 as [|x l IH]; cbn [sum_of app]; [done|]. rewrite IH. lia. Qed.

(** [if c { fail } else { Ok(a) }] *)
Lemma guard_Ok {A} (b : bool) code (a a' : A) : (if b then Ok a else contract_fail code) = Ok a' <-> b = true /\ a' = a.
Proof. destruct b; cbn; [rewrite Ok_inj|]; naive_solver. Qed.

Lemma contract_lookup_Ok {T} (values : gmap N T) id ids value : Contracts.lookup values id ids = Ok value <-> values !! id = Some value.
Proof. unfold Contracts.lookup. destruct (values !! id); [rewrite Ok_inj; naive_solver|]. by destruct (bool_decide _). Qed.

Lemma con_type_Ok {A} (m : type_result A) a : con_type m = Ok a <-> m = Ok a.
Proof. destruct m; cbn; [by rewrite !Ok_inj|done]. Qed.

Lemma con_at_Ok {A} (l : list A) i x : con_at l i = Ok x <-> l !! i = Some x.
Proof. apply ok_or_Ok. Qed.

(** ** What a valid program is *)

Section valid.
Context (types : Definitions) (units : list FunctionUnit) (constants : list ConstantDefinition).
Context (globals : list GlobalValueDefinition) (contracts : list ContractDefinition) (tests : list TestCaseDefinition).

(** The function [id] *)
Definition IsUnit (id : EntityId) (unit : FunctionUnit) : Prop := unit ∈ units /\ unit_id unit = id.

Definition HasParameter (unit : FunctionUnit) (id : EntityId) (t : TypeExpr) : Prop :=
  exists parameter, parameter ∈ fu_parameters unit /\ prm_entity_id parameter = id /\ prm_value_type parameter = t.

Definition ValidGlobal (global : GlobalValueDefinition) : Prop :=
  check_closed_type types (gd_value_type global) = Ok tt /\ require_persistable types (gd_value_type global) = Ok tt /\
  exists initializer, initializer ∈ constants /\ kd_entity_id initializer = gd_initializer global /\
    cv_type (kd_value initializer) = gd_value_type global.

(** The type of what a contract binds to a parameter of its predicate *)
Inductive SourceType (target : FunctionUnit) : ContractSource -> TypeExpr -> Prop :=
| source_parameter id t :
    id ∈ fg_parameters (fu_function target) -> HasParameter target id t -> SourceType target (CSParameter id) t
| source_result : SourceType target CSResult (fg_result_type (fu_function target))
| source_error ok error : fg_result_type (fu_function target) = TResult ok error -> SourceType target CSError error
| source_global global : global ∈ globals -> SourceType target (CSGlobal (gd_entity_id global)) (gd_value_type global).

Definition SourcesAllowed (kind : ContractKind) (sources : list ContractSource) : Prop :=
  match kind with
  | CKPrecondition => (CSResult ∉ sources) /\ (CSError ∉ sources)
  | CKPostcondition => ~ (CSResult ∈ sources /\ CSError ∈ sources)
  | CKResultPredicate => CSResult ∈ sources /\ (CSError ∉ sources)
  | _ => False
  end.

Definition BindingFits (target predicate : FunctionUnit) (entry : N * ContractBinding) : Prop :=
  cb_predicate_parameter entry.2 = entry.1 /\
  exists id t, fg_parameters (fu_function predicate) !! N.to_nat entry.1 = Some id /\
    HasParameter predicate id t /\ SourceType target (cb_source entry.2) t.

(** A contract with its target and its predicate: a function without effects,
    contracts or type parameters that returns a truth value, each of whose
    parameters is bound, in order, to a source of its type that the kind of the
    contract allows. *)
Record ContractFits (contract : ContractDefinition) (target predicate : FunctionUnit) : Prop := {
  cf_limits : cd_resource_limits contract = None;
  cf_distinct : unit_id target <> unit_id predicate;
  cf_target_closed : fg_type_parameters (fu_function target) = [];
  cf_predicate_closed : fg_type_parameters (fu_function predicate) = [];
  cf_predicate_pure : fg_effects (fu_function predicate) = [];
  cf_predicate_plain : fg_contracts (fu_function predicate) = [];
  cf_predicate_bool : fg_result_type (fu_function predicate) = TBool;
  cf_arity : len (cd_bindings contract) = len (fg_parameters (fu_function predicate));
  cf_bindings : forall entry, entry ∈ enumerate (cd_bindings contract) -> BindingFits target predicate entry;
  cf_sources : SourcesAllowed (cd_contract_kind contract) (cb_source <$> cd_bindings contract)
}.

Definition ValidContract (contract : ContractDefinition) : Prop :=
  exists target predicate, IsUnit (cd_target contract) target /\ IsUnit (cd_predicate contract) predicate /\
    ContractFits contract target predicate.

(** The contracts a function has to attach *)
Definition contracts_of (unit : FunctionUnit) : list EntityId :=
  cd_entity_id <$> filter (fun contract => cd_target contract = unit_id unit) contracts.

(** The type a value of a function has: that of its parameter, or that its
    operation declares *)
Inductive ValueType (unit : FunctionUnit) : ValueRef -> TypeExpr -> Prop :=
| value_parameter id t : HasParameter unit id t -> ValueType unit (VRParameter id) t
| value_result operation index t :
    operation ∈ fu_operations unit -> op_result_types operation !! N.to_nat index = Some t ->
    ValueType unit (VROperationResult (mkOperationResultRef (op_entity_id operation) index)) t.

(** An assertion names a contract on its function, and gives its predicate
    arguments of the types of the parameters. *)
Definition ValidAssertion (unit : FunctionUnit) (operation : Operation) : Prop :=
  exists contract predicate, op_immediate operation = ImmEntity (cd_entity_id contract) /\ contract ∈ contracts /\
    cd_target contract = unit_id unit /\ IsUnit (cd_predicate contract) predicate /\
    Forall2 (fun operand id => exists t, HasParameter predicate id t /\ ValueType unit operand t)
      (op_operands operation) (fg_parameters (fu_function predicate)) /\
    op_result_types operation = [contract_result].

Definition ValidOutcome (target : FunctionUnit) (expected : ExpectedOutcome) : Prop :=
  match expected with
  | EOValue value => check_constant types value = Ok tt /\ cv_type value = fg_result_type (fu_function target)
  | EOFailureCode code => (1 <= code <= 4)%N
  end.

(** A test gives a function without effects or type parameters constants of its
    parameters' types, replays nothing, observes nothing, and expects a constant
    of the result type or one of the four traps. *)
Definition ValidTest (test : TestCaseDefinition) : Prop :=
  exists target, IsUnit (tc_target test) target /\ fg_type_parameters (fu_function target) = [] /\
    fg_effects (fu_function target) = [] /\
    Forall2 (fun input id => check_constant types input = Ok tt /\ HasParameter target id (cv_type input))
      (tc_inputs test) (fg_parameters (fu_function target)) /\
    tc_effect_environment test = EnvReplay [] /\ ValidOutcome target (tc_expected test) /\ tc_observations test = [].

Definition is_assertion (operation : Operation) : Prop := op_opcode operation = OpContractAssert.
#[global] Instance is_assertion_dec operation : Decision (is_assertion operation).
Proof. unfold is_assertion. apply _. Defined.

(** The tests a plan runs *)
Definition selected (affected_functions required_tests : list EntityId) : list EntityId :=
  tc_entity_id <$> filter (fun test => tc_target test ∈ affected_functions \/ tc_entity_id test ∈ required_tests) tests.
End valid.

(** ** The stages *)

Lemma parameters_of_Ok unit id parameter :
  NoDup (unit_ids unit) -> parameters_of unit !! id = Some parameter <-> parameter ∈ fu_parameters unit /\ prm_entity_id parameter = id.
Proof.
  intros [_ [Hnd _]%NoDup_app]%NoDup_cons. apply (collect_by_indexed prm_entity_id _ Hnd).
Qed.

Section stages.
Context (types : Definitions) (units : list FunctionUnit) (type_definitions : list TypeDefinition).
Context (constants : list ConstantDefinition) (globals : list GlobalValueDefinition) (contracts : list ContractDefinition).
Context (tests : list TestCaseDefinition) (index : ContractIndex).
Hypothesis Hindex : contracts_ok units constants globals contracts tests index.

Lemma unit_distinct unit : unit ∈ units -> NoDup (unit_ids unit).
Proof using Hindex.
  intros Hu. pose proof (ck_distinct _ _ _ _ _ _ Hindex) as Hd. apply list_elem_of_split in Hu as (l1 & l2 & ->).
  rewrite bind_app in Hd. apply NoDup_app in Hd as (_ & _ & Hd). cbn [mbind list_bind] in Hd. by apply NoDup_app in Hd as [? _].
Qed.

Lemma unit_id_inj u v : u ∈ units -> v ∈ units -> unit_id u = unit_id v -> u = v.
Proof using Hindex.
  intros Hu Hv E. apply list_elem_of_lookup in Hu as [i Hi], Hv as [j Hj].
  assert (ci_functions index !! unit_id u = Some (N.of_nat i)) as H1.
  { apply (ck_functions _ _ _ _ _ _ Hindex). exists u. by rewrite Nat2N.id. }
  assert (ci_functions index !! unit_id u = Some (N.of_nat j)) as H2.
  { apply (ck_functions _ _ _ _ _ _ Hindex). exists v. by rewrite Nat2N.id. }
  rewrite H1 in H2. injection H2 as ->%Nat2N.inj. congruence.
Qed.

Lemma function_index_Ok id position :
  function_index index id = Ok position <-> exists unit, units !! N.to_nat position = Some unit /\ unit_id unit = id.
Proof using Hindex. unfold function_index. rewrite contract_lookup_Ok. apply (ck_functions _ _ _ _ _ _ Hindex). Qed.

Lemma unit_at_Ok id unit : unit_at index id = Ok unit <-> IsUnit units id unit.
Proof using Hindex.
  unfold unit_at, IsUnit. rewrite bind_Ok, (ck_units _ _ _ _ _ _ Hindex). setoid_rewrite function_index_Ok. setoid_rewrite con_at_Ok. split.
  - intros (p & (u & Hu & Hid) & Hu'). rewrite Hu in Hu'. injection Hu' as ->. split; [by eapply list_elem_of_lookup_2|done].
  - intros [[i Hi]%list_elem_of_lookup Hid]. exists (N.of_nat i). rewrite Nat2N.id. split; [by exists unit|done].
Qed.

Lemma parameter_Ok code unit id t :
  unit ∈ units -> (exists p, ok_or (ConTest code) (parameters_of unit !! id) = Ok p /\ prm_value_type p = t) <-> HasParameter unit id t.
Proof using Hindex.
  intros Hu. setoid_rewrite ok_or_Ok. setoid_rewrite (parameters_of_Ok unit id _ (unit_distinct _ Hu)). unfold HasParameter.
  split; [intros (p & [? ?] & ?)|intros (p & ? & ? & ?)]; exists p; tauto.
Qed.

Lemma globals_ids global global' : global ∈ globals -> global' ∈ globals -> gd_entity_id global = gd_entity_id global' -> global = global'.
Proof using Hindex.
  intros H1 H2 E. assert (ci_globals index !! gd_entity_id global = Some global) as E1 by by apply (ck_globals _ _ _ _ _ _ Hindex).
  assert (ci_globals index !! gd_entity_id global = Some global') as E2 by by apply (ck_globals _ _ _ _ _ _ Hindex). congruence.
Qed.

Lemma HasParameter_unique unit id t t' : unit ∈ units -> HasParameter unit id t -> HasParameter unit id t' -> t = t'.
Proof using Hindex.
  intros Hu (p & Hp & Hid & <-) (q & Hq & Hid' & <-). pose proof (parameters_of_Ok unit id p (unit_distinct _ Hu)) as Ep.
  pose proof (parameters_of_Ok unit id q (unit_distinct _ Hu)) as Eq. assert (parameters_of unit !! id = Some p) by by apply Ep.
  assert (parameters_of unit !! id = Some q) by by apply Eq. congruence.
Qed.

(** *** Constants, globals and type definitions *)

Lemma constant_step work constant work' :
  (work + 1 <= MAX_CONTRACT_TEST_WORK)%N ->
  check_constant_entity types work constant = Ok work' <-> check_constant types (kd_value constant) = Ok tt /\ work' = (work + 1)%N.
Proof using Type.
  intros Hle. unfold check_constant_entity. rewrite charged, bind_Ok by done. setoid_rewrite con_type_Ok. setoid_rewrite Ok_inj.
  split; [intros ([] & ? & <-); done|intros [? ->]; by exists tt].
Qed.

Lemma global_step work global work' :
  (work + 1 <= MAX_CONTRACT_TEST_WORK)%N ->
  check_global_entity types index work global = Ok work' <-> ValidGlobal types constants global /\ work' = (work + 1)%N.
Proof using Hindex.
  intros Hle. unfold check_global_entity, ValidGlobal. rewrite charged, bind_Ok by done. setoid_rewrite con_type_Ok. split.
  - intros ([] & Hc & ([] & Hp%con_type_Ok & (k & [Hk Hid]%contract_lookup_Ok%(ck_constants _ _ _ _ _ _ Hindex) & [E%bool_decide_eq_true_1 ->]%guard_Ok)%bind_Ok)%bind_Ok).
    split; [|done]. split_and!; [done..|]. by exists k.
  - intros [(Hc & Hp & k & Hk & Hid & E) ->]. exists tt. split; [done|]. rewrite Hp. cbn [con_type map_err mbind result_bind].
    apply bind_Ok. exists k. split; [by apply contract_lookup_Ok, (ck_constants _ _ _ _ _ _ Hindex)|]. by rewrite bool_decide_true.
Qed.

Lemma constants_stage work work' :
  (work + len constants + len globals <= MAX_CONTRACT_TEST_WORK)%N ->
  validate_constants_and_globals types index work = Ok work' <->
  (forall constant, constant ∈ constants -> check_constant types (kd_value constant) = Ok tt) /\
  (forall global, global ∈ globals -> ValidGlobal types constants global) /\
  work' = (work + len constants + len globals)%N.
Proof using Hindex.
  intros Hle. unfold validate_constants_and_globals.
  rewrite (sorted_values kd_entity_id constants), (sorted_values gd_entity_id globals) by apply Hindex.
  pose proof (fun work work' => fold_counts (check_constant_entity types) (fun _ => 1%N) _ constants work work' (fun w k w' _ => constant_step w k w')) as H1.
  pose proof (fun work work' => fold_counts (check_global_entity types index) (fun _ => 1%N) _ globals work work' (fun w k w' _ => global_step w k w')) as H2.
  rewrite sum_of_ones in H1. rewrite sum_of_ones in H2. rewrite bind_Ok. setoid_rewrite H1; [|lia]. split.
  - intros (w & [Hk ->] & [Hg ->]%H2); [done|lia].
  - intros (Hk & Hg & ->). eexists. split; [done|]. apply H2; [lia|done].
Qed.

Lemma invariants_stage work work' :
  (work + len type_definitions <= MAX_CONTRACT_TEST_WORK)%N ->
  validate_invariant_profile type_definitions work = Ok work' <->
  (forall definition, definition ∈ type_definitions -> td_invariants definition = []) /\ work' = (work + len type_definitions)%N.
Proof using Type.
  intros Hle. unfold validate_invariant_profile. rewrite <- (sum_of_ones type_definitions) in Hle |- *. apply fold_counts; [|done].
  intros w d w' _ Hw. rewrite charged by done. by rewrite guard_Ok, bool_decide_eq_true.
Qed.

(** *** Contracts *)

Definition is_result (source : ContractSource) : bool := match source with CSResult => true | _ => false end.
Definition is_error (source : ContractSource) : bool := match source with CSError => true | _ => false end.

Lemma target_parameters_Ok target id parameter :
  target ∈ units -> target_parameters target !! id = Some parameter <->
  (parameter ∈ fu_parameters target /\ prm_entity_id parameter = id) /\ id ∈ fg_parameters (fu_function target).
Proof using Hindex.
  intros Hu. unfold target_parameters. pose proof (unit_distinct _ Hu) as [_ [Hnd _]%NoDup_app]%NoDup_cons.
  match goal with |- collect_by _ ?l !! _ = _ <-> _ => assert (indexed prm_entity_id l (collect_by prm_entity_id l)) as Hi end; unfold indexed in *.
  { apply collect_by_indexed. clear -Hnd. generalize (fg_parameters (fu_function target)) as ids. intros ids. induction (fu_parameters target) as [|p l IH]; [constructor|]. cbn in Hnd |- *. apply NoDup_cons in Hnd as [Hn Hnd].
      destruct (bool_decide _); [|by apply IH]. cbn. constructor; [|by apply IH]. intros (q & E & Hq)%list_elem_of_fmap.
      apply Hn, list_elem_of_fmap. exists q. split; [done|]. apply list_elem_of_In, filter_In in Hq as [? _]. by apply list_elem_of_In. }
  rewrite Hi, list_elem_of_In, filter_In, <- list_elem_of_In, bool_decide_eq_true. naive_solver.
Qed.

Lemma source_step target source r e out :
  target ∈ units -> binding_source index target source r e = Ok out <->
  exists t, SourceType globals target source t /\ out = (t, r || is_result source, e || is_error source)%bool.
Proof using Hindex.
  intros Hu. destruct source as [id| | |id]; cbn [binding_source is_result is_error]; rewrite ?orb_false_r, ?orb_true_r.
  - rewrite bind_Ok. setoid_rewrite ok_or_Ok. setoid_rewrite (target_parameters_Ok target id _ Hu). setoid_rewrite Ok_inj. split.
    + intros (p & [[Hp Hid] Hin] & <-). eexists. split; [|done]. constructor; [done|]. by exists p.
    + intros (t & Hs & ->). inversion Hs as [? ? Hin (p & Hp & Hid & <-)| | |]; subst. by exists p.
  - rewrite Ok_inj. split; [intros <-; eexists; split; [constructor|done]|]. intros (t & Hs & ->). by inversion Hs.
  - split.
    + destruct (fg_result_type (fu_function target)) eqn:E; intros H; try done. injection H as <-. eexists. split; [by eapply source_error|done].
    + intros (t & Hs & ->). inversion Hs as [| |ok err E|]; subst. by rewrite E.
  - rewrite bind_Ok. setoid_rewrite contract_lookup_Ok. setoid_rewrite (ck_globals _ _ _ _ _ _ Hindex id). setoid_rewrite Ok_inj. split.
    + intros (g & [Hg <-] & <-). eexists. split; [by constructor|done].
    + intros (t & Hs & ->). inversion Hs as [| | |g Hg]; subst. by exists g.
Qed.

Lemma binding_step target predicate w r e entry out :
  target ∈ units -> predicate ∈ units -> (w + 1 <= MAX_CONTRACT_TEST_WORK)%N ->
  check_binding index target predicate (w, r, e) entry = Ok out <-> BindingFits globals target predicate entry /\
    out = (w + 1, r || is_result (cb_source entry.2), e || is_error (cb_source entry.2))%N.
Proof using Hindex.
  intros Ht Hp Hle. destruct entry as [i b]. unfold check_binding, BindingFits. cbn [fst snd]. rewrite charged by done.
  destruct (N.eqb_spec (cb_predicate_parameter b) i) as [E|E]; cbn [negb]; [|split; [done|tauto]].
  rewrite bind_Ok. setoid_rewrite con_at_Ok. setoid_rewrite bind_Ok. setoid_rewrite bind_Ok. setoid_rewrite (source_step _ _ _ _ _ Ht). split.
  - intros (id & Hid & p & Hpp & [[t r'] e'] & (t' & Hs & [= -> -> ->]) & [Eq%bool_decide_eq_true_1 ->]%guard_Ok).
    split; [|done]. split; [done|]. exists id, t'. split_and!; [done| |done]. apply (parameter_Ok CtUnresolvedEntity predicate id t' Hp). by exists p.
  - intros [(_ & id & t & Hid & (p & Hpp & Ept)%(parameter_Ok CtUnresolvedEntity predicate id t Hp) & Hs) ->].
    exists id. split; [done|]. exists p. split; [done|]. eexists (_, _, _). split; [by exists t|]. cbn. by rewrite bool_decide_true.
Qed.

Definition bind_step (st : N * bool * bool) (entry : N * ContractBinding) : N * bool * bool :=
  (st.1.1 + 1, st.1.2 || is_result (cb_source entry.2), st.2 || is_error (cb_source entry.2))%N.

Lemma bind_steps l st :
  foldl bind_step st l = (st.1.1 + len l, st.1.2 || existsb is_result (cb_source <$> l.*2), st.2 || existsb is_error (cb_source <$> l.*2))%N.
Proof using Type.
  revert st. induction l as [|x l IH]; intros [[w r] e]; cbn [foldl fst snd fmap list_fmap existsb].
  - by rewrite len_nil, N.add_0_r, !orb_false_r.
  - rewrite IH. unfold bind_step. cbn [fst snd]. rewrite len_cons, N.add_assoc, !orb_assoc. done.
Qed.

Lemma existsb_result sources : existsb is_result sources = bool_decide (CSResult ∈ sources).
Proof using Type.
  induction sources as [|x l IH]; [done|]. cbn [existsb]. rewrite IH. symmetry. destruct x; cbn [is_result orb];
    try (apply bool_decide_ext; rewrite elem_of_cons; naive_solver). apply bool_decide_eq_true. left.
Qed.

Lemma existsb_error sources : existsb is_error sources = bool_decide (CSError ∈ sources).
Proof using Type.
  induction sources as [|x l IH]; [done|]. cbn [existsb]. rewrite IH. symmetry. destruct x; cbn [is_error orb];
    try (apply bool_decide_ext; rewrite elem_of_cons; naive_solver). apply bool_decide_eq_true. left.
Qed.

Definition supported (kind : ContractKind) : bool :=
  match kind with CKPrecondition | CKPostcondition | CKResultPredicate => true | _ => false end.

Lemma bindings_step contract target predicate work work' :
  target ∈ units -> predicate ∈ units -> (work + len (cd_bindings contract) <= MAX_CONTRACT_TEST_WORK)%N ->
  supported (cd_contract_kind contract) = true ->
  validate_bindings index contract target predicate work = Ok work' <->
  len (cd_bindings contract) = len (fg_parameters (fu_function predicate)) /\
  (forall entry, entry ∈ enumerate (cd_bindings contract) -> BindingFits globals target predicate entry) /\
  SourcesAllowed (cd_contract_kind contract) (cb_source <$> cd_bindings contract) /\
  work' = (work + len (cd_bindings contract))%N.
Proof using Hindex.
  intros Ht Hp Hle Hk. unfold validate_bindings.
  destruct (N.eqb_spec (len (cd_bindings contract)) (len (fg_parameters (fu_function predicate)))) as [E|E]; cbn [negb]; [|split; [done|tauto]].
  assert (len (enumerate (cd_bindings contract)) = len (cd_bindings contract)) as Hl by by unfold len, enumerate; rewrite length_enumerate_from.
  rewrite bind_Ok. setoid_rewrite (fold_pays _ (fun st => st.1.1) (fun _ => True) bind_step (fun _ => 1%N) (BindingFits globals target predicate)).
  - setoid_rewrite bind_steps. cbn [fst snd orb]. rewrite snd_enumerate, existsb_result, existsb_error, Hl.
    generalize (cb_source <$> cd_bindings contract) as sources. intros sources. unfold SourcesAllowed. destruct (cd_contract_kind contract); try done.
    + split; [intros (? & [Hb ->] & H)|intros (_ & Hb & [Hr He] & ->)].
      * do 2 case_bool_decide; try done. injection H as <-. done.
      * eexists. split; [by split|]. by rewrite !bool_decide_false.
    + split; [intros (? & [Hb ->] & H)|intros (_ & Hb & Hre & ->)].
      * do 2 case_bool_decide; try done; injection H as <-; split_and!; try done; tauto.
      * eexists. split; [by split|]. do 2 case_bool_decide; try done. tauto.
    + split; [intros (? & [Hb ->] & H)|intros (_ & Hb & [Hr He] & ->)].
      * do 2 case_bool_decide; try done. injection H as <-. done.
      * eexists. split; [by split|]. rewrite bool_decide_true by done. by rewrite bool_decide_false.
  - intros [[w r] e] entry s' _ _ Hw. by apply binding_step.
  - by intros [[w r] e] entry.
  - done.
  - done.
  - cbn [fst]. rewrite sum_of_ones, Hl. done.
Qed.

(** [self.closures] after the effect validation *)
Hypothesis Hclosures : forall unit, unit ∈ units -> ci_closures index !! unit_id unit = Some (fg_effects (fu_function unit)).

Lemma contract_step work contract work' :
  (work + (1 + len (cd_bindings contract)) <= MAX_CONTRACT_TEST_WORK)%N ->
  validate_contract index work contract = Ok work' <->
  ValidContract units globals contract /\ work' = (work + (1 + len (cd_bindings contract)))%N.
Proof using Hindex Hclosures.
  intros Hle. unfold validate_contract, ValidContract, IsUnit. rewrite charged by lia. rewrite (ck_units _ _ _ _ _ _ Hindex). split.
  - intros H. destruct (bool_decide (is_Some _)) eqn:Hlim; [done|]. fold (supported (cd_contract_kind contract)) in H.
    destruct (supported (cd_contract_kind contract)) eqn:Hk; [|done]. cbn [negb] in H.
    apply bind_Ok in H as (i & (u & Hi & Hid)%function_index_Ok & (j & (v & Hj & Hjd)%function_index_Ok & H)%bind_Ok).
    apply bind_Ok in H as (u' & Hu%con_at_Ok & (v' & Hv%con_at_Ok & H)%bind_Ok).
    rewrite Hi in Hu. injection Hu as <-. rewrite Hj in Hv. injection Hv as <-.
    apply list_elem_of_lookup_2 in Hi, Hj. destruct (_ || _) eqn:E1 in H; [done|]. apply bind_Ok in H as (c & Hc%ok_or_Ok & H).
    rewrite (Hclosures _ Hj) in Hc. injection Hc as <-. destruct (_ || _) eqn:E2 in H; [done|]. simplify_res. N_bool.
    apply bindings_step in H as (Ha & Hb & Hs & ->); [|done..|lia|done]. split; [|lia]. exists u, v. split_and!; [done..|].
    split; try done. destruct (cd_resource_limits contract); [|done]. exfalso. naive_solver.
  - intros [(u & v & [Hu Hid] & [Hv Hjd] & F) ->]. destruct F as [Fl Fd Ft Fp Fe Fc Fb Fa Fbs Fs]. rewrite Fl, bool_decide_false by by intros [].
    assert (supported (cd_contract_kind contract) = true) as Hk by by destruct (cd_contract_kind contract).
    fold (supported (cd_contract_kind contract)). rewrite Hk. cbn [negb].
    apply list_elem_of_lookup in Hu as [i Hi], Hv as [j Hj].
    apply bind_Ok. exists (N.of_nat i). split; [apply function_index_Ok; exists u; by rewrite Nat2N.id|].
    apply bind_Ok. exists (N.of_nat j). split; [apply function_index_Ok; exists v; by rewrite Nat2N.id|].
    apply bind_Ok. exists u. split; [apply con_at_Ok; by rewrite Nat2N.id|]. apply bind_Ok. exists v. split; [apply con_at_Ok; by rewrite Nat2N.id|].
    apply list_elem_of_lookup_2 in Hi, Hj. rewrite (proj2 (N.eqb_neq _ _) Fd), Ft, (Hclosures _ Hj), Fe, Fp, Fc, Fb.
    rewrite !bool_decide_true by done. cbn [orb negb ok_or mbind result_bind]. apply bindings_step; [done..|lia|done|]. split_and!; try done. lia.
Qed.

Lemma contracts_stage work work' :
  (work + sum_of (fun contract => 1 + len (cd_bindings contract))%N contracts <= MAX_CONTRACT_TEST_WORK)%N ->
  validate_contracts index work = Ok work' <->
  (forall contract, contract ∈ contracts -> ValidContract units globals contract) /\
  work' = (work + sum_of (fun contract => 1 + len (cd_bindings contract))%N contracts)%N.
Proof using Hindex Hclosures.
  intros Hle. unfold validate_contracts. rewrite (sorted_values cd_entity_id contracts) by apply Hindex.
  apply fold_counts; [|done]. intros w c w' _. apply contract_step.
Qed.

(** *** Attachments *)

Lemma expected_of unit : default [] (expected_contracts index !! unit_id unit) = contracts_of contracts unit.
Proof using Hindex.
  unfold expected_contracts, contracts_of. rewrite (sorted_values cd_entity_id contracts) by apply Hindex.
  enough (forall m, default [] (foldl expect_contract m contracts !! unit_id unit) =
    default [] (m !! unit_id unit) ++ (cd_entity_id <$> filter (fun c => cd_target c = unit_id unit) contracts)) as ->.
  { by rewrite lookup_empty. }
  clear. induction contracts as [|c l IH]; intros m; cbn [foldl]; [by rewrite app_nil_r|]. rewrite IH. unfold expect_contract.
  rewrite filter_cons. destruct (decide (cd_target c = unit_id unit)) as [->|E].
  - rewrite lookup_insert_eq. cbn. by rewrite <- app_assoc.
  - by rewrite lookup_insert_ne.
Qed.

Lemma attachments_stage work work' :
  (work + len units <= MAX_CONTRACT_TEST_WORK)%N ->
  validate_attachments index work = Ok work' <->
  (forall unit, unit ∈ units -> fg_contracts (fu_function unit) = contracts_of contracts unit) /\ work' = (work + len units)%N.
Proof using Hindex.
  intros Hle. unfold validate_attachments. rewrite (ck_units _ _ _ _ _ _ Hindex). rewrite <- (sum_of_ones units) in Hle |- *.
  apply fold_counts; [|done]. intros w u w' _ Hw. rewrite charged by done. by rewrite guard_Ok, bool_decide_eq_true, expected_of.
Qed.
End stages.
