(* ===== verification/ContractsPlan.v ===== *)
(** * Assertions, tests and their selection

    The stages of contract and test validation that read the code of functions
    ([ordered_operations], [validate_contract_assertions],
    [reject_test_observations]) and those about tests ([validate_tests],
    [select_tests]). *)

From S2P Require Import Prelude Bytes Ids BTree Ssmc Types TypeWalk TypeEnv ConstCheck CfgGraph Cfg.
From S2P Require Import ValueOrder TextRows EffectClosure Effects Contracts ContractsSound.

(** ** The operations of a valid function, block by block *)

Section ordered.
Context (types : Definitions) (unit : FunctionUnit) (gi : GraphIndex).
Hypothesis Hbuild : GraphIndex_build types (fu_function unit) (fu_parameters unit) (fu_blocks unit) (fu_operations unit) = Ok gi.
Hypothesis Hdistinct : NoDup (unit_ids unit).

Lemma graph_facts :
  inventory_ok types (fu_function unit) (gi_parameter_count gi) (gi_parameters gi) (gi_blocks gi) (gi_operations gi) (gi_block_indices gi) /\
  indexed blk_entity_id (fu_blocks unit) (gi_blocks gi) /\ indexed op_entity_id (fu_operations unit) (gi_operations gi).
Proof using Hbuild.
  pose proof (build_spec types (fu_function unit) (fu_parameters unit) (fu_blocks unit) (fu_operations unit)) as H. rewrite Hbuild in H.
  destruct H as ([Hio _] & <- & <- & _ & Hb & Ho & _). done.
Qed.

Lemma collected_blocks : collect_by blk_entity_id (fu_blocks unit) = gi_blocks gi.
Proof using Hbuild Hdistinct.
  destruct graph_facts as (_ & Hb & _). apply map_eq. intros k. apply option_eq. intros b. rewrite (Hb k b).
  apply NoDup_cons in Hdistinct as [_ (_ & _ & [Hd _]%NoDup_app)%NoDup_app]. apply (collect_by_indexed blk_entity_id _ Hd).
Qed.

Lemma collected_operations : operations_of unit = gi_operations gi.
Proof using Hbuild Hdistinct.
  destruct graph_facts as (_ & _ & Ho). apply map_eq. intros k. apply option_eq. intros o. rewrite (Ho k o).
  apply NoDup_cons in Hdistinct as [_ (_ & _ & (_ & _ & Hd)%NoDup_app)%NoDup_app]. apply (collect_by_indexed op_entity_id _ Hd).
Qed.

(** The identities of the operations of a block *)
Definition listed (id : EntityId) : list EntityId := from_option blk_operations [] (gi_blocks gi !! id).

Lemma listed_distinct : NoDup (fg_blocks (fu_function unit) ≫= listed).
Proof using Hbuild.
  destruct graph_facts as (Hio & _ & _).
  assert (forall bid j id, listed bid !! j = Some id -> exists o, gi_operations gi !! id = Some o /\ op_block o = bid /\ op_ordinal o = N.of_nat j) as Hat.
  { intros bid j id Hj. unfold listed in Hj. destruct (gi_blocks gi !! bid) as [b|] eqn:Hb; [|done].
    destruct (io_block_operations _ _ _ _ _ _ _ Hio _ _ _ _ Hb Hj) as (o & Ho & Hbl & Hord & _). by exists o. }
  apply NoDup_bind.
  - intros b1 b2 id _ _ [i Hi]%list_elem_of_lookup [j Hj]%list_elem_of_lookup. destruct (Hat _ _ _ Hi) as (o & Ho & <- & _), (Hat _ _ _ Hj) as (o' & Ho' & <- & _). congruence.
  - intros bid _. apply NoDup_alt. intros i j id Hi Hj. destruct (Hat _ _ _ Hi) as (o & Ho & _ & E), (Hat _ _ _ Hj) as (o' & Ho' & _ & E').
    assert (o = o') as <- by congruence. lia.
  - apply NoDup_alt. intros i j id Hi Hj. rewrite <- (Nat2N.id i) in Hi. rewrite <- (Nat2N.id j) in Hj.
    apply (io_indices _ _ _ _ _ _ _ Hio) in Hi, Hj. rewrite Hi in Hj. by injection Hj as ->%Nat2N.inj.
Qed.

Lemma listed_known id : id ∈ (fg_blocks (fu_function unit) ≫= listed) <-> is_Some (gi_operations gi !! id).
Proof using Hbuild.
  destruct graph_facts as (Hio & _ & _). rewrite list_elem_of_bind. split.
  - intros (bid & [j Hj]%list_elem_of_lookup & _). unfold listed in Hj. destruct (gi_blocks gi !! bid) as [b|] eqn:Hb; [|done].
    destruct (io_block_operations _ _ _ _ _ _ _ Hio _ _ _ _ Hb Hj) as (o & Ho & _). by exists o.
  - intros His. destruct (io_operations _ _ _ _ _ _ _ Hio id His) as (bid & b & Hb & Hin). exists bid. unfold listed. rewrite Hb. split; [done|].
    apply (io_blocks _ _ _ _ _ _ _ Hio). by exists b.
Qed.

Lemma map_res_total {E A B} (f : A -> result E B) l : (forall x, x ∈ l -> exists y, f x = Ok y) -> exists ys, map_res f l = Ok ys.
Proof using Type.
  induction l as [|x l IH]; intros H; [by exists []|]. destruct (H x) as [y Hy]; [by left|]. destruct IH as [ys Hys]; [by intros; apply H; right|].
  exists (y :: ys). cbn. by rewrite Hy; cbn; rewrite Hys.
Qed.

Lemma block_operations_ids b ops :
  map_res (fun id => ok_or (ConTest CtUnresolvedEntity) (gi_operations gi !! id)) (blk_operations b) = Ok ops ->
  op_entity_id <$> ops = blk_operations b.
Proof using Hbuild.
  destruct graph_facts as (_ & _ & Ho). intros H%map_res_Ok. generalize dependent ops. generalize (blk_operations b). intros ids ops H.
  induction H as [|id o ids ops E%ok_or_Ok _ IH]; [done|]. cbn. f_equal; [|done]. by apply Ho in E as [_ ?].
Qed.

(** The loop finds every operation once. *)
Lemma ordered_ok : exists operations, ordered_operations unit (operations_of unit) = Ok operations /\ operations ≡ₚ fu_operations unit.
Proof using Hbuild Hdistinct.
  destruct graph_facts as (Hio & Hb & Ho). unfold ordered_operations. rewrite collected_blocks, collected_operations.
  edestruct (map_res_total (fun block_id => block ← ok_or (ConTest CtUnresolvedEntity) (gi_blocks gi !! block_id);
    map_res (fun id => ok_or (ConTest CtUnresolvedEntity) (gi_operations gi !! id)) (blk_operations block)) (fg_blocks (fu_function unit))) as [out Hout].
  { intros bid [b Hbl]%(io_blocks _ _ _ _ _ _ _ Hio). rewrite Hbl. cbn [ok_or mbind result_bind]. apply map_res_total.
    intros id [j Hj]%list_elem_of_lookup. destruct (io_block_operations _ _ _ _ _ _ _ Hio _ _ _ _ Hbl Hj) as (o & -> & _). by exists o. }
  rewrite Hout. eexists. split; [done|].
  assert (op_entity_id <$> concat out = fg_blocks (fu_function unit) ≫= listed) as Hids.
  { apply map_res_Ok in Hout. clear -Hout Hbuild. induction Hout as [|bid ops ids out H _ IH]; [done|].
    cbn [concat mbind list_bind]. rewrite fmap_app. f_equal; [|done]. apply bind_Ok in H as (b & Hb%ok_or_Ok & H). unfold listed.
    rewrite Hb. by apply block_operations_ids. }
  assert (NoDup (op_entity_id <$> concat out)) as Hnd by by rewrite Hids; apply listed_distinct.
  assert (forall o, o ∈ concat out -> o ∈ fu_operations unit) as Hsub.
  { intros o (ops & Hops & Hin)%list_elem_of_In%in_concat. apply list_elem_of_In in Hin, Hops. apply map_res_Ok in Hout.
    apply list_elem_of_lookup in Hops as [i Hi]. destruct (Forall2_lookup_r _ _ _ _ _ Hout Hi) as (bid & _ & H). apply bind_Ok in H as (b & _ & H%map_res_Ok).
    apply list_elem_of_lookup in Hin as [j Hj]. destruct (Forall2_lookup_r _ _ _ _ _ H Hj) as (id & _ & E%ok_or_Ok). by apply Ho in E as [? _]. }
  apply NoDup_Permutation; [by apply NoDup_fmap_1 in Hnd| |].
  - apply NoDup_cons in Hdistinct as [_ (_ & _ & (_ & _ & Hd)%NoDup_app)%NoDup_app]. by apply NoDup_fmap_1 in Hd.
  - intros o. split; [apply Hsub|]. intros Hin. assert (op_entity_id o ∈ op_entity_id <$> concat out) as (o' & E & Hin')%list_elem_of_fmap.
    { rewrite Hids. apply listed_known. exists o. by apply Ho. }
    assert (gi_operations gi !! op_entity_id o = Some o) as E1 by by apply Ho.
    assert (gi_operations gi !! op_entity_id o = Some o') as E2 by by apply Ho; split; [apply Hsub|]. congruence.
Qed.
End ordered.

(** ** The stages over code *)

Section code.
Context (types : Definitions) (units : list FunctionUnit) (constants : list ConstantDefinition).
Context (globals : list GlobalValueDefinition) (contracts : list ContractDefinition).
Context (tests : list TestCaseDefinition) (index : ContractIndex).
Hypothesis Hindex : contracts_ok units constants globals contracts tests index.
Hypothesis Hgraphs : forall unit, unit ∈ units -> exists gi,
  GraphIndex_build types (fu_function unit) (fu_parameters unit) (fu_blocks unit) (fu_operations unit) = Ok gi.
#[local] Abbreviation distinct := (unit_distinct _ _ _ _ _ _ Hindex).

Lemma operations_of_Ok unit id operation :
  unit ∈ units -> operations_of unit !! id = Some operation <-> operation ∈ fu_operations unit /\ op_entity_id operation = id.
Proof using Hindex.
  intros [_ (_ & _ & (_ & _ & Hd)%NoDup_app)%NoDup_app]%distinct%NoDup_cons. apply (collect_by_indexed op_entity_id _ Hd).
Qed.

Lemma value_type_Ok unit value t :
  unit ∈ units -> Contracts.resolve_value_type value (parameters_of unit) (operations_of unit) = Ok t <-> ValueType unit value t.
Proof using Hindex.
  intros Hu. destruct value as [id|[o i]]; cbn [Contracts.resolve_value_type orr_operation orr_result_index]; rewrite ok_or_Ok.
  - rewrite fmap_Some. setoid_rewrite (parameters_of_Ok unit id _ (distinct _ Hu)). split.
    + intros (p & [Hp Hid] & ->). constructor. by exists p.
    + intros H. inversion H as [? ? (p & Hp & Hid & Et)|]; subst. by exists p.
  - unfold mbind at 1. cbn [mbind option_bind]. split.
    + intros H. destruct (operations_of unit !! o) as [op|] eqn:E; [|done]. apply (operations_of_Ok _ _ _ Hu) in E as [Ho <-]. by constructor.
    + intros H. inversion H as [|op ? ? Ho Ht]; subst. assert (operations_of unit !! op_entity_id op = Some op) as ->; [|done].
      by apply operations_of_Ok.
Qed.

Lemma operands_Ok unit predicate operands ids :
  unit ∈ units -> predicate ∈ units -> length operands = length ids ->
  for_each (fun '(operand, predicate_id) =>
      expected ← ok_or (ConTest CtUnresolvedEntity) (parameters_of predicate !! predicate_id);
      found ← Contracts.resolve_value_type operand (parameters_of unit) (operations_of unit);
      if bool_decide (found = prm_value_type expected) then Ok tt else contract_fail CtAssertType) (zip operands ids) = Ok tt <->
  Forall2 (fun operand id => exists t, HasParameter predicate id t /\ ValueType unit operand t) operands ids.
Proof using Hindex.
  intros Hu Hp Hl. rewrite for_each_Ok. revert ids Hl. induction operands as [|v vs IH]; intros [|id ids] Hl; cbn [zip zip_with]; try done.
  rewrite Forall_cons, Forall2_cons, IH by (cbn in Hl; lia). apply and_iff_compat_r. rewrite bind_Ok. setoid_rewrite bind_Ok.
  setoid_rewrite (value_type_Ok _ _ _ Hu). split.
  - intros (p & Hpp & t & Ht & [->%bool_decide_eq_true_1 _]%guard_Ok). exists (prm_value_type p). split; [|done].
    apply (parameter_Ok _ _ _ _ _ _ Hindex CtUnresolvedEntity _ _ _ Hp). by exists p.
  - intros (t & (p & Hpp & <-)%(parameter_Ok _ _ _ _ _ _ Hindex CtUnresolvedEntity _ _ _ Hp) & Ht). exists p. split; [done|].
    eexists. split; [done|]. by rewrite bool_decide_true.
Qed.

(** *** Assertions *)

Definition assertion_cost (operation : Operation) : N := if bool_decide (is_assertion operation) then 1%N else 0%N.
Definition assertion_count (operations : list Operation) : N := sum_of assertion_cost operations.
Definition assert_step (st : N * N) (operation : Operation) : N * N :=
  (st.1 + assertion_cost operation, st.2 + assertion_cost operation)%N.
Definition assertions_within (st : N * N) : Prop := (st.2 <= st.1)%N.

Lemma con_add_Ok a b c : (a + b <= MAX_CONTRACT_TEST_WORK)%N -> con_add a b = Ok c <-> c = (a + b)%N.
Proof using Type.
  intros Hle. assert (MAX_CONTRACT_TEST_WORK < U64_LIMIT)%N by done. unfold con_add. rewrite ok_or_Ok, checked_add_Some.
  split; [tauto|intros ->; split; [done|lia]].
Qed.

Lemma assertion_step unit st operation st' :
  unit ∈ units -> assertions_within st -> (st.1 + assertion_cost operation <= MAX_CONTRACT_TEST_WORK)%N ->
  check_assertion index unit (parameters_of unit) (operations_of unit) st operation = Ok st' <->
  (is_assertion operation -> ValidAssertion units contracts unit operation) /\ st' = assert_step st operation.
Proof using Hindex.
  destruct st as [w n]. unfold assertions_within, check_assertion, assert_step, assertion_cost. cbn [fst snd]. intros Hu Hn Hle.
  fold (is_assertion operation). destruct (decide (is_assertion operation)) as [Ha|Ha].
  2:{ rewrite !bool_decide_false by done. cbn [negb]. rewrite Ok_inj. cbv iota. rewrite !N.add_0_r. split; [intros <-; split; [done|done]|by intros [_ ->]]. }
  rewrite bool_decide_true in Hle by done. rewrite !bool_decide_true by done. cbn [negb]. rewrite charged by done. rewrite bind_Ok.
  setoid_rewrite con_add_Ok; [|lia]. unfold ValidAssertion. split.
  - intros (n' & -> & H). destruct (op_immediate operation) as [|id| | | | |]; try done.
    apply bind_Ok in H as (c & [Hc <-]%contract_lookup_Ok%(ck_contracts _ _ _ _ _ _ Hindex) & H).
    destruct (N.eqb_spec (cd_target c) (unit_id unit)) as [Ht|]; [|done]. cbn [negb] in H.
    apply bind_Ok in H as (p & Hp%(unit_at_Ok _ _ _ _ _ _ Hindex) & H). destruct (_ || _) eqn:E in H; [done|]. apply orb_false_iff in E as [E1%negb_false_iff%N.eqb_eq E2%negb_false_iff%N.eqb_eq].
    apply bind_Ok in H as ([] & Ho & (r & Hr%con_at_Ok & [->%bool_decide_eq_true_1 ->]%guard_Ok)%bind_Ok).
    split; [|done]. intros _. exists c, p. split_and!; try done.
    + apply operands_Ok; try done; [apply Hp|]. unfold len in *. lia.
    + destruct (op_result_types operation) as [|t0 [|t1 l0]]; unfold len in E2; cbn in E2, Hr; [done|congruence|lia].
  - intros [Hv ->]. destruct (Hv Ha) as (c & p & -> & Hc & Ht & Hp & Ho & Er). eexists. split; [done|].
    apply bind_Ok. exists c. split; [by apply contract_lookup_Ok, (ck_contracts _ _ _ _ _ _ Hindex)|].
    rewrite Ht, N.eqb_refl. cbn [negb]. apply bind_Ok. exists p. split; [by apply (unit_at_Ok _ _ _ _ _ _ Hindex)|].
    pose proof (Forall2_length _ _ _ Ho) as Hl. unfold len. rewrite Hl, N.eqb_refl, Er. cbn [negb orb length].
    rewrite (proj2 (operands_Ok unit p _ _ Hu (proj1 Hp) Hl) Ho). cbn. by rewrite bool_decide_true.
Qed.

Lemma assert_steps operations st :
  foldl assert_step st operations = (st.1 + assertion_count operations, st.2 + assertion_count operations)%N.
Proof using Type.
  revert st. induction operations as [|o l IH]; intros [w n]; cbn [foldl]; [unfold assertion_count; cbn [sum_of fst snd]; by rewrite !N.add_0_r|].
  rewrite IH. unfold assert_step, assertion_count. cbn [sum_of fst snd]. by rewrite !N.add_assoc.
Qed.

Lemma assertion_count_perm l1 l2 : l1 ≡ₚ l2 -> assertion_count l1 = assertion_count l2.
Proof using Type. unfold assertion_count. induction 1; cbn [sum_of]; lia. Qed.

Lemma unit_assertions_step st unit st' :
  unit ∈ units -> assertions_within st -> (st.1 + assertion_count (fu_operations unit) <= MAX_CONTRACT_TEST_WORK)%N ->
  check_unit_assertions index st unit = Ok st' <->
  (forall operation, operation ∈ fu_operations unit -> is_assertion operation -> ValidAssertion units contracts unit operation) /\
  st' = (st.1 + assertion_count (fu_operations unit), st.2 + assertion_count (fu_operations unit))%N.
Proof using Hindex Hgraphs.
  intros Hu Hst Hle. unfold check_unit_assertions. destruct (Hgraphs _ Hu) as [gi Hgi].
  destruct (ordered_ok types unit gi Hgi (distinct _ Hu)) as (ops & -> & Hperm). cbn [mbind result_bind].
  rewrite <- (assertion_count_perm _ _ Hperm) in Hle |- *. rewrite <- assert_steps. setoid_rewrite <- Hperm.
  apply (fold_pays _ fst assertions_within assert_step assertion_cost); try done.
  - intros s o s' _. by apply assertion_step.
  - intros [w n] o. unfold assertions_within, assert_step. cbn [fst snd]. lia.
Qed.

Definition total_assertions : N := sum_of (fun unit => assertion_count (fu_operations unit)) units.

Lemma assertions_stage work st' :
  (work + total_assertions <= MAX_CONTRACT_TEST_WORK)%N ->
  validate_contract_assertions index work = Ok st' <->
  (forall unit operation, unit ∈ units -> operation ∈ fu_operations unit -> is_assertion operation -> ValidAssertion units contracts unit operation) /\
  st' = (work + total_assertions, total_assertions)%N.
Proof using Hindex Hgraphs.
  intros Hle. unfold validate_contract_assertions. rewrite (ck_units _ _ _ _ _ _ Hindex).
  rewrite (fold_pays _ fst assertions_within (fun st unit => (st.1 + assertion_count (fu_operations unit), st.2 + assertion_count (fu_operations unit))%N)
    (fun unit => assertion_count (fu_operations unit)) (fun unit => forall operation, operation ∈ fu_operations unit -> is_assertion operation ->
      ValidAssertion units contracts unit operation)).
  - assert (forall l st, foldl (fun st unit => (st.1 + assertion_count (fu_operations unit), st.2 + assertion_count (fu_operations unit))%N) st l =
      (st.1 + sum_of (fun unit => assertion_count (fu_operations unit)) l, st.2 + sum_of (fun unit => assertion_count (fu_operations unit)) l)%N) as ->.
    { induction l as [|u l IH]; intros [w n]; cbn [foldl sum_of fst snd]; [by rewrite !N.add_0_r|]. rewrite IH. cbn [fst snd]. by rewrite !N.add_assoc. }
    cbn [fst snd]. fold total_assertions. rewrite N.add_0_l. naive_solver.
  - intros s u s' Hu Hs Hw. by apply unit_assertions_step.
  - by intros [w n] u.
  - intros [w n] u. unfold assertions_within. cbn [fst snd]. lia.
  - unfold assertions_within. cbn. lia.
  - done.
Qed.

Lemma observations_stage work work' :
  (work + sum_of (fun unit => len (fu_operations unit)) units <= MAX_CONTRACT_TEST_WORK)%N ->
  reject_test_observations index work = Ok work' <->
  (forall unit operation, unit ∈ units -> operation ∈ fu_operations unit -> op_opcode operation <> OpTestObserve) /\
  work' = (work + sum_of (fun unit => len (fu_operations unit)) units)%N.
Proof using Hindex.
  intros Hle. unfold reject_test_observations. rewrite (ck_units _ _ _ _ _ _ Hindex).
  rewrite (fold_counts _ (fun unit => len (fu_operations unit)) (fun unit => forall operation, operation ∈ fu_operations unit -> op_opcode operation <> OpTestObserve));
    [naive_solver| |done].
  intros w u w' _ Hw. rewrite <- (sum_of_ones (fu_operations u)) in Hw |- *. apply fold_counts; [|done].
  intros x o x' _ Hx. rewrite charged by done. case_bool_decide; [split; [done|tauto]|]. rewrite Ok_inj. naive_solver.
Qed.
End code.

(** ** The stages over tests *)

Section plan.
Context (types : Definitions) (units : list FunctionUnit) (constants : list ConstantDefinition).
Context (globals : list GlobalValueDefinition) (contracts : list ContractDefinition).
Context (tests : list TestCaseDefinition) (index : ContractIndex).
Hypothesis Hindex : contracts_ok units constants globals contracts tests index.
Hypothesis Hclosures : forall unit, unit ∈ units -> ci_closures index !! unit_id unit = Some (fg_effects (fu_function unit)).

Lemma inputs_Ok target inputs ids :
  target ∈ units -> length inputs = length ids ->
  for_each (fun '(input, parameter_id) =>
      con_type (check_constant types input) ≫= fun _ =>
      expected ← ok_or (ConTest CtUnresolvedEntity) (parameters_of target !! parameter_id);
      if bool_decide (cv_type input = prm_value_type expected) then Ok tt else contract_fail CtTestInputType) (zip inputs ids) = Ok tt <->
  Forall2 (fun input id => check_constant types input = Ok tt /\ HasParameter target id (cv_type input)) inputs ids.
Proof using Hindex.
  intros Ht Hl. rewrite for_each_Ok. revert ids Hl. induction inputs as [|v vs IH]; intros [|id ids] Hl; cbn [zip zip_with]; try done.
  rewrite Forall_cons, Forall2_cons, IH by (cbn in Hl; lia). apply and_iff_compat_r. rewrite bind_Ok. setoid_rewrite con_type_Ok. setoid_rewrite bind_Ok. split.
  - intros ([] & Hc & p & Hpp & [E%bool_decide_eq_true_1 _]%guard_Ok). split; [done|].
    apply (parameter_Ok _ _ _ _ _ _ Hindex CtUnresolvedEntity _ _ _ Ht). by exists p.
  - intros [Hc (p & Hpp & E)%(parameter_Ok _ _ _ _ _ _ Hindex CtUnresolvedEntity _ _ _ Ht)]. exists tt. split; [done|]. exists p. split; [done|].
    by rewrite bool_decide_true.
Qed.

Lemma outcome_Ok target expected :
  match expected with
  | EOValue value =>
      con_type (check_constant types value) ≫= fun _ =>
      if bool_decide (cv_type value = fg_result_type (fu_function target)) then Ok tt else contract_fail CtTestExpectedType
  | EOFailureCode code => if (1 <=? code)%N && (code <=? 4)%N then Ok tt else contract_fail CtTestFailureCodeInvalid
  end = Ok tt <-> ValidOutcome types target expected.
Proof using Type.
  destruct expected as [value|code]; cbn [ValidOutcome].
  - rewrite bind_Ok. setoid_rewrite con_type_Ok. setoid_rewrite guard_Ok. setoid_rewrite bool_decide_eq_true. split; [intros ([] & ? & ? & _); done|].
    intros [? ?]. by exists tt.
  - rewrite guard_Ok, andb_true_iff, !N.leb_le. tauto.
Qed.

Lemma test_step work test work' :
  (work + 1 <= MAX_CONTRACT_TEST_WORK)%N ->
  validate_test types index work test = Ok work' <-> ValidTest types units test /\ work' = (work + 1)%N.
Proof using Hindex Hclosures.
  intros Hle. unfold validate_test, ValidTest. rewrite charged, bind_Ok by done. setoid_rewrite (unit_at_Ok _ _ _ _ _ _ Hindex). split.
  - intros (u & Hu & (c & Hc%ok_or_Ok & H)%bind_Ok). rewrite (Hclosures _ (proj1 Hu)) in Hc. injection Hc as <-.
    destruct (_ || _) eqn:E in H; [done|]. apply orb_false_iff in E as [E1%negb_false_iff%bool_decide_eq_true_1 E2%negb_false_iff%bool_decide_eq_true_1].
    destruct (N.eqb_spec (len (tc_inputs test)) (len (fg_parameters (fu_function u)))) as [El|]; [|done]. cbn [negb] in H.
    apply bind_Ok in H as ([] & Hin%inputs_Ok & H); [|apply Hu|unfold len in El; lia]. destruct (negb _) eqn:Ee in H; [done|].
    apply bind_Ok in H as ([] & Ho%outcome_Ok & [Eo%bool_decide_eq_true_1 ->]%guard_Ok).
    split; [|done]. exists u. split_and!; try done. destruct (tc_effect_environment test) as [[|]|]; done.
  - intros [(u & Hu & E1 & E2 & Hin & Ee & Ho & Eo) ->]. exists u. split; [done|]. rewrite (Hclosures _ (proj1 Hu)), E1, E2, Ee, Eo.
    rewrite !bool_decide_true by done. cbn [ok_or mbind result_bind negb orb]. unfold len. pose proof (Forall2_length _ _ _ Hin) as Hl.
    rewrite Hl, N.eqb_refl. cbn [negb]. rewrite (proj2 (inputs_Ok u _ _ (proj1 Hu) Hl) Hin). cbn [mbind result_bind].
    by rewrite (proj2 (outcome_Ok u _) Ho).
Qed.

Lemma tests_stage work work' :
  (work + len tests <= MAX_CONTRACT_TEST_WORK)%N ->
  validate_tests types index work = Ok work' <->
  (forall test, test ∈ tests -> ValidTest types units test) /\ work' = (work + len tests)%N.
Proof using Hindex Hclosures.
  intros Hle. unfold validate_tests. rewrite (sorted_values tc_entity_id tests) by apply Hindex. rewrite <- (sum_of_ones tests) in Hle |- *.
  apply fold_counts; [|done]. intros w t w' _. apply test_step.
Qed.

(** *** Selection *)

Definition member_step (st : gset N * N) (id : EntityId) : gset N * N := ({[id]} ∪ st.1, st.2 + 1)%N.

Lemma member_steps ids st : (foldl member_step st ids).2 = (st.2 + len ids)%N /\ forall id, id ∈ (foldl member_step st ids).1 <-> id ∈ st.1 \/ id ∈ ids.
Proof using Type.
  revert st. induction ids as [|x l IH]; intros [s w]; cbn [foldl].
  - rewrite len_nil. cbn [fst snd]. split; [lia|]. intros id. rewrite elem_of_nil. tauto.
  - destruct (IH (member_step (s, w) x)) as [-> Hm]. rewrite len_cons. cbn [fst snd member_step] in *. split; [lia|].
    intros id. rewrite Hm, elem_of_cons. clear. set_solver.
Qed.

Definition choose_step (chosen : TestCaseDefinition -> bool) (st : list EntityId * N) (test : TestCaseDefinition) : list EntityId * N :=
  (if chosen test then st.1 ++ [tc_entity_id test] else st.1, st.2 + 1)%N.

Lemma choose_steps chosen l st :
  foldl (choose_step chosen) st l = (st.1 ++ (tc_entity_id <$> List.filter chosen l), st.2 + len l)%N.
Proof using Type.
  revert st. induction l as [|x l IH]; intros [s w]; cbn [foldl List.filter]; [rewrite len_nil; cbn; by rewrite app_nil_r, N.add_0_r|].
  rewrite IH, len_cons. unfold choose_step. cbn [fst snd]. rewrite N.add_assoc. f_equal. destruct (chosen x); [|done]. cbn. by rewrite <- app_assoc.
Qed.

Lemma filter_bool {A} (p : A -> bool) (P : A -> Prop) `{forall x, Decision (P x)} l :
  (forall x, x ∈ l -> p x = true <-> P x) -> List.filter p l = filter P l.
Proof using Type.
  induction l as [|x l IH]; intros Hp; [done|]. cbn [List.filter]. rewrite filter_cons, IH by (intros; apply Hp; by right).
  pose proof (Hp x ltac:(by left)) as Hx. destruct (p x), (decide (P x)); try done; naive_solver.
Qed.

Lemma known_function id : (exists unit, IsUnit units id unit) <-> exists position, function_index index id = Ok position.
Proof using Hindex.
  setoid_rewrite (function_index_Ok _ _ _ _ _ _ Hindex). unfold IsUnit. split.
  - intros (u & [i Hi]%list_elem_of_lookup & Hid). exists (N.of_nat i), u. by rewrite Nat2N.id.
  - intros (p & u & Hp & Hid). exists u. split; [by eapply list_elem_of_lookup_2|done].
Qed.

Lemma affect_step st id st' :
  (st.2 + 1 <= MAX_CONTRACT_TEST_WORK)%N -> affect index st id = Ok st' <-> (exists unit, IsUnit units id unit) /\ st' = member_step st id.
Proof using Hindex.
  destruct st as [s w]. cbn [snd]. intros Hw. unfold affect, member_step. rewrite charged by done. rewrite known_function. cbn [fst snd].
  destruct (function_index index id) as [p|e]; cbn [map_err mbind result_bind]; [|split; [done|by intros [[? ?] _]]].
  rewrite Ok_inj. split; [intros <-; split; [by exists p|done]|by intros [_ ->]].
Qed.

Lemma require_step st id st' :
  (st.2 + 1 <= MAX_CONTRACT_TEST_WORK)%N -> require index st id = Ok st' <-> id ∈ tc_entity_id <$> tests /\ st' = member_step st id.
Proof using Hindex.
  destruct st as [s w]. cbn [snd]. intros Hw. unfold require, member_step. rewrite charged by done. cbn [fst snd].
  assert (id ∈ tc_entity_id <$> tests <-> is_Some (ci_tests index !! id)) as ->.
  { rewrite list_elem_of_fmap. split; [intros (t & -> & Ht); exists t; by apply (ck_tests _ _ _ _ _ _ Hindex)|].
    intros [t [Ht <-]%(ck_tests _ _ _ _ _ _ Hindex)]. by exists t. }
  case_bool_decide; cbn [negb]; [|split; [done|tauto]]. rewrite Ok_inj. naive_solver.
Qed.

Lemma chosen_step affected required st test st' :
  (st.2 + 1 <= MAX_CONTRACT_TEST_WORK)%N ->
  choose affected required st test = Ok st' <->
  True /\ st' = choose_step (fun test => bool_decide (tc_target test ∈ affected) || bool_decide (tc_entity_id test ∈ required)) st test.
Proof using Type.
  destruct st as [s w]. cbn [snd]. intros Hw. unfold choose, choose_step. rewrite charged by done. cbn [fst snd].
  destruct (_ || _); rewrite Ok_inj; naive_solver.
Qed.

Lemma selection_stage affected required work out :
  (work + len affected + len required + len tests <= MAX_CONTRACT_TEST_WORK)%N -> (len tests <= MAX_TEST_CASES)%N ->
  select_tests index affected required work = Ok out <->
  (forall function, function ∈ affected -> exists unit, IsUnit units function unit) /\
  (forall test, test ∈ required -> test ∈ tc_entity_id <$> tests) /\
  out = (selected tests affected required, work + len affected + len required + len tests)%N.
Proof using Hindex.
  clear Hclosures. intros Hle Hmax. unfold select_tests. rewrite (sorted_values tc_entity_id tests) by apply Hindex.
  destruct (member_steps affected (∅, work)) as [Hw1 Ha], (member_steps required (∅, work + len affected)%N) as [Hw2 Hr].
  destruct (foldl member_step (∅, work) affected) as [sa wa] eqn:E1, (foldl member_step (∅, (work + len affected)%N) required) as [sr wr] eqn:E2.
  cbn [fst snd] in *. subst wa wr.
  assert (forall s', fold_res (affect index) (∅, work) affected = Ok s' <-> (forall f, f ∈ affected -> exists unit, IsUnit units f unit) /\ s' = (sa, work + len affected)%N) as H1.
  { intros s'. rewrite <- E1. apply (fold_pays (affect index) snd (fun _ => True) member_step (fun _ => 1%N)); try done; [|cbn; rewrite sum_of_ones; lia].
    intros s x s2 _ _ Hs. by apply affect_step. }
  assert (forall s', fold_res (require index) (∅, work + len affected)%N required = Ok s' <->
    (forall t, t ∈ required -> t ∈ tc_entity_id <$> tests) /\ s' = (sr, work + len affected + len required)%N) as H2.
  { intros s'. rewrite <- E2. apply (fold_pays (require index) snd (fun _ => True) member_step (fun _ => 1%N)); try done; [|cbn; rewrite sum_of_ones; lia].
    intros s x s2 _ _ Hs. by apply require_step. }
  assert (forall w s', (w + len tests <= MAX_CONTRACT_TEST_WORK)%N -> fold_res (choose sa sr) ([], w) tests = Ok s' <->
    s' = (selected tests affected required, w + len tests)%N) as H3.
  { intros w s' Hle'. pose proof (fold_pays (choose sa sr) snd (fun _ => True) (choose_step _) (fun _ => 1%N) (fun _ => True) tests ([], w) s'
      (fun s x s' _ _ => chosen_step sa sr s x s')) as H. rewrite H; [|done..|cbn; by rewrite sum_of_ones]. clear H. rewrite choose_steps. cbn [fst snd app].
    unfold selected. rewrite (filter_bool _ (fun test => tc_target test ∈ affected \/ tc_entity_id test ∈ required)); [naive_solver|].
    intros t _. rewrite orb_true_iff, !bool_decide_eq_true, Ha, Hr. set_solver. }
  rewrite bind_Ok. setoid_rewrite H1.
  assert (len (selected tests affected required) <= MAX_SELECTED_TESTS)%N as Hsel.
  { unfold selected. rewrite len_fmap. etrans; [|exact Hmax]. unfold len. pose proof (length_filter (fun test => tc_target test ∈ affected \/ tc_entity_id test ∈ required) tests). lia. }
  split.
  - intros (st1 & [Hf ->] & H). apply bind_Ok in H as (st2 & [Ht ->]%H2 & H). apply bind_Ok in H as (out' & ->%H3 & H); [|done].
    rewrite (proj2 (N.ltb_ge _ _) Hsel) in H. injection H as <-. done.
  - intros (Hf & Ht & ->). exists (sa, work + len affected)%N. split; [done|]. apply bind_Ok. exists (sr, work + len affected + len required)%N. split; [by apply H2|]. apply bind_Ok. exists (selected tests affected required, work + len affected + len required + len tests)%N.
    split; [by apply H3|]. cbv beta iota. by rewrite (proj2 (N.ltb_ge _ _) Hsel).
Qed.
End plan.
