(* ===== verification/ContractsExact.v ===== *)
(** * What contract and test validation accepts

    The composition of the stages: the programs [validate_contract_test_program]
    accepts, its report, its bound on work and the absence of panics. *)

From S2P Require Import Prelude Bytes Ids BTree Ssmc Types TypeWalk TypeEnv ConstCheck CfgGraph Cfg.
From S2P Require Import ValueOrder TextRows EffectClosure Effects Contracts ContractsSound ContractsPlan.

(** ** What the effect validation guarantees *)

Lemma accepted_graphs types units effects requirements adapters known_contracts report unit :
  validate_effect_program types units effects requirements adapters known_contracts = Ok report -> unit ∈ units ->
  exists gi, GraphIndex_build types (fu_function unit) (fu_parameters unit) (fu_blocks unit) (fu_operations unit) = Ok gi.
Proof.
  unfold validate_effect_program. intros (index & _ & (t & Ht & _)%bind_Ok)%bind_Ok Hu.
  destruct (fold_res_each _ _ _ _ _ Ht Hu) as ([e w] & b & H). unfold check_unit in H. apply bind_Ok in H as (r & Hr & _).
  destruct (validate_function_graph _ _ _ _ _) as [r'|] eqn:Ev; [|done]. unfold validate_function_graph in Ev.
  apply bind_Ok in Ev as (gi & Hgi & _). by exists gi.
Qed.

Lemma counted_operations l t t' :
  fold_res Effects.index_unit t l = Ok t' -> ut_operation_count t' = (ut_operation_count t + sum_of (fun x => len (fu_operations x.2)) l)%N.
Proof.
  revert t. induction l as [|[i u] l IH]; intros t; cbn [fold_res sum_of]; [intros [= ->]; lia|].
  intros (t1 & H1 & ->%IH)%bind_Ok. unfold Effects.index_unit in H1. cbv zeta in H1.
  apply bind_Ok in H1 as (s0 & _ & (n1 & _ & (n2 & _ & (n3 & _ & (n4 & _ & (n5 & H5 & H1)%bind_Ok)%bind_Ok)%bind_Ok)%bind_Ok)%bind_Ok).
  apply bind_Ok in H1 as (s1 & _ & ([s2 u2] & _ & ([s3 u3] & _ & [= <-])%bind_Ok)%bind_Ok).
  apply ok_or_Ok, checked_add_Some in H5 as [-> _]. cbn [ut_operation_count snd]. lia.
Qed.

Lemma accepted_sizes types units effects requirements adapters known_contracts report :
  validate_effect_program types units effects requirements adapters known_contracts = Ok report ->
  (len units <= MAX_EFFECT_FUNCTIONS)%N /\ (sum_of (fun unit => len (fu_operations unit)) units <= MAX_EFFECT_OPERATIONS)%N.
Proof.
  unfold validate_effect_program, build_program_index. intros (index & H & _)%bind_Ok. destruct (_ || _) eqn:E1 in H; [done|].
  do 5 (apply bind_Ok in H as ([] & _ & H)). apply bind_Ok in H as (t & Ht%counted_operations & H). destruct (_ || _) eqn:E2 in H; [done|]. clear H.
  simplify_res. N_bool. split; [done|]. rewrite <- (snd_enumerate units) at 1. rewrite sum_of_fmap. cbn [ut_operation_count] in Ht.
  rewrite N.add_0_l in Ht. rewrite <- Ht. done.
Qed.

Lemma closures_of_spec types units effects requirements adapters known_contracts report unit :
  validate_effect_program types units effects requirements adapters known_contracts = Ok report ->
  NoDup (unit_id <$> units) -> unit ∈ units -> closures_of report !! unit_id unit = Some (fg_effects (fu_function unit)).
Proof.
  intros (_ & Hr & _)%accepted_effects Hnd Hu. unfold closures_of. rewrite Hr. clear Hr.
  enough (forall m, foldl (fun closures function => <[fec_function function := fec_effects function]> closures) m
    ((fun unit => mkFunctionEffectClosure (unit_id unit) (fg_effects (fu_function unit))) <$> units) !! unit_id unit = Some (fg_effects (fu_function unit))) by done.
  induction units as [|v l IH]; intros m; [by apply elem_of_nil in Hu|]. cbn in Hnd |- *. apply NoDup_cons in Hnd as [Hv Hnd].
  apply elem_of_cons in Hu as [->|Hu]; [|by apply IH]. clear IH.
  assert (forall m : gmap N (list EntityId), (unit_id v ∉ unit_id <$> l) -> foldl (fun closures function => <[fec_function function := fec_effects function]> closures) m
    ((fun unit => mkFunctionEffectClosure (unit_id unit) (fg_effects (fu_function unit))) <$> l) !! unit_id v = m !! unit_id v) as Hkeep; [|by rewrite Hkeep, lookup_insert_eq].
  clear. induction l as [|w l IH]; intros m Hn; [done|]. cbn in Hn |- *. apply not_elem_of_cons in Hn as [Hne Hn]. rewrite IH by done.
  by rewrite lookup_insert_ne.
Qed.

(** ** Valid programs *)

Section valid_program.
Context (types : Definitions) (units : list FunctionUnit) (type_definitions : list TypeDefinition).
Context (constants : list ConstantDefinition) (globals : list GlobalValueDefinition) (contracts : list ContractDefinition).
Context (tests : list TestCaseDefinition) (affected_functions required_tests : list EntityId).

Record ValidProgram : Prop := {
  vp_constants : forall constant, constant ∈ constants -> check_constant types (kd_value constant) = Ok tt;
  vp_globals : forall global, global ∈ globals -> ValidGlobal types constants global;
  vp_invariants : forall definition, definition ∈ type_definitions -> td_invariants definition = [];
  vp_contracts : forall contract, contract ∈ contracts -> ValidContract units globals contract;
  vp_attachments : forall unit, unit ∈ units -> fg_contracts (fu_function unit) = contracts_of contracts unit;
  vp_assertions : forall unit operation, unit ∈ units -> operation ∈ fu_operations unit -> is_assertion operation ->
    ValidAssertion units contracts unit operation;
  vp_observations : forall unit operation, unit ∈ units -> operation ∈ fu_operations unit -> op_opcode operation <> OpTestObserve;
  vp_tests : forall test, test ∈ tests -> ValidTest types units test;
  vp_affected : forall function, function ∈ affected_functions -> exists unit, IsUnit units function unit;
  vp_required : forall test, test ∈ required_tests -> test ∈ tc_entity_id <$> tests
}.

(** One for each constant, global, type definition, contract, binding, function,
    assertion, operation, test and selection input *)
Definition plan_work : N :=
  (len constants + len globals + len type_definitions + sum_of (fun contract => 1 + len (cd_bindings contract)) contracts +
   len units + total_assertions units + sum_of (fun unit => len (fu_operations unit)) units + len tests +
   len affected_functions + len required_tests + len tests)%N.

Definition plan_report : ContractTestReport :=
  mkContractTestReport (cd_entity_id <$> contracts) (tc_entity_id <$> tests) (selected tests affected_functions required_tests)
    PolicyIncomplete (total_assertions units) plan_work.

Lemma assertions_are_operations : (total_assertions units <= sum_of (fun unit => len (fu_operations unit)) units)%N.
Proof using Type.
  unfold total_assertions. induction units as [|u l IH]; cbn [sum_of]; [done|].
  assert (assertion_count (fu_operations u) <= len (fu_operations u))%N; [|lia]. unfold assertion_count.
  induction (fu_operations u) as [|o os IHo]; cbn [sum_of]; [done|]. rewrite len_cons. unfold assertion_cost at 1. destruct (bool_decide _); lia.
Qed.

(** What the limits of the request leave for the work *)
Definition PLAN_WORK_BOUND : N := 3528376.

Lemma plan_work_bound :
  counts_ok type_definitions constants globals contracts tests affected_functions required_tests ->
  (len units <= MAX_EFFECT_FUNCTIONS)%N -> (sum_of (fun unit => len (fu_operations unit)) units <= MAX_EFFECT_OPERATIONS)%N ->
  (plan_work <= PLAN_WORK_BOUND)%N.
Proof using Type.
  intros [C1 C2 C3 C4 C5 C6 C7 C8] Hu Ho. pose proof assertions_are_operations as Ha. unfold plan_work, PLAN_WORK_BOUND.
  assert (sum_of (fun contract => 1 + len (cd_bindings contract)) contracts = len contracts + sum_of (fun contract => len (cd_bindings contract)) contracts)%N as ->.
  { clear. induction contracts as [|c l IH]; cbn [sum_of]; [done|]. rewrite IH, len_cons. lia. }
  unfold MAX_CONTRACT_TYPE_DEFINITIONS, MAX_CONTRACT_CONSTANTS, MAX_CONTRACT_GLOBALS, MAX_CONTRACTS, MAX_TEST_CASES, MAX_AFFECTED_FUNCTIONS,
    MAX_REQUIRED_TESTS, MAX_TOTAL_CONTRACT_BINDINGS, MAX_EFFECT_FUNCTIONS, MAX_EFFECT_OPERATIONS in *. lia.
Qed.
End valid_program.

(** ** The stages together *)

Section exact.
Context (types : Definitions) (units : list FunctionUnit) (effects : list EffectDefinition) (requirements : list CapabilityRequirement).
Context (adapters : list AdapterImport) (type_definitions : list TypeDefinition) (constants : list ConstantDefinition).
Context (globals : list GlobalValueDefinition) (contracts : list ContractDefinition) (tests : list TestCaseDefinition).
Context (affected_functions required_tests : list EntityId).

#[local] Abbreviation built := (Contracts.build_index units effects requirements adapters type_definitions constants globals contracts tests
  affected_functions required_tests).
#[local] Abbreviation effects_of := (validate_effect_program types units effects requirements adapters (cd_entity_id <$> contracts)).
#[local] Abbreviation validated := (validate_contract_test_program types units effects requirements adapters type_definitions constants
  globals contracts tests affected_functions required_tests).
#[local] Abbreviation valid := (ValidProgram types units type_definitions constants globals contracts tests affected_functions required_tests).
#[local] Abbreviation report_of := (plan_report units type_definitions constants globals contracts tests affected_functions required_tests).
#[local] Abbreviation work_of := (plan_work units type_definitions constants globals contracts tests affected_functions required_tests).

(** The index after the effect validation *)
Lemma closed_index index effect_report :
  built = Ok index -> effects_of = Ok effect_report ->
  contracts_ok units constants globals contracts tests (set_closures (closures_of effect_report) index) /\
  (forall unit, unit ∈ units -> ci_closures (set_closures (closures_of effect_report) index) !! unit_id unit = Some (fg_effects (fu_function unit))).
Proof using Type.
  intros Hi%build_contracts_ok He. split; [by destruct Hi; split|]. intros unit Hu. cbn [set_closures ci_closures].
  eapply closures_of_spec; [exact He| |done]. apply NoDup_alt. intros i j id Hid Hjd. rewrite !list_lookup_fmap in Hid, Hjd.
  apply fmap_Some in Hid as (u & Hu' & ->), Hjd as (v & Hv & E).
  assert (ci_functions index !! unit_id u = Some (N.of_nat i)) as H1 by (apply (ck_functions _ _ _ _ _ _ Hi); exists u; by rewrite Nat2N.id).
  assert (ci_functions index !! unit_id u = Some (N.of_nat j)) as H2 by (apply (ck_functions _ _ _ _ _ _ Hi); exists v; by rewrite Nat2N.id).
  rewrite H1 in H2. by injection H2 as ->%Nat2N.inj.
Qed.

Lemma validated_work index effect_report : built = Ok index -> effects_of = Ok effect_report -> (work_of <= PLAN_WORK_BOUND)%N.
Proof using Type. intros Hi%build_index_counts [Hu Ho]%accepted_sizes. by apply plan_work_bound. Qed.

(** The stages after the effect validation *)
Definition stages (index : ContractIndex) : con_out ContractTestReport :=
  work ← validate_constants_and_globals types index 0;
  work ← validate_invariant_profile type_definitions work;
  work ← validate_contracts index work;
  work ← validate_attachments index work;
  '(work, contract_assertions) ← validate_contract_assertions index work;
  work ← reject_test_observations index work;
  work ← validate_tests types index work;
  '(selected_tests, work) ← select_tests index affected_functions required_tests work;
  contract_assertions ← contract_u32 contract_assertions;
  Ok (mkContractTestReport (btree_keys (ci_contracts index)) (btree_keys (ci_tests index)) selected_tests PolicyIncomplete contract_assertions work).

Lemma stages_exact index report :
  contracts_ok units constants globals contracts tests index ->
  (forall unit, unit ∈ units -> ci_closures index !! unit_id unit = Some (fg_effects (fu_function unit))) ->
  (forall unit, unit ∈ units -> exists gi,
    GraphIndex_build types (fu_function unit) (fu_parameters unit) (fu_blocks unit) (fu_operations unit) = Ok gi) ->
  (work_of <= MAX_CONTRACT_TEST_WORK)%N -> (len tests <= MAX_TEST_CASES)%N -> (total_assertions units < 2 ^ 32)%N ->
  stages index = Ok report <-> valid /\ report = report_of.
Proof using Type.
  intros Hi Hc Hg Hw Ht Ha. unfold plan_work in Hw. unfold stages.
  assert (btree_keys (ci_contracts index) = cd_entity_id <$> contracts) as -> by (apply sorted_keys; apply Hi).
  assert (btree_keys (ci_tests index) = tc_entity_id <$> tests) as -> by (apply sorted_keys; apply Hi).
  pose proof (fun w w' => constants_stage types _ _ _ _ _ _ Hi w w') as S1.
  pose proof (fun w w' => invariants_stage type_definitions w w') as S2.
  pose proof (fun w w' => contracts_stage _ _ _ _ _ _ Hi Hc w w') as S3.
  pose proof (fun w w' => attachments_stage _ _ _ _ _ _ Hi w w') as S4.
  pose proof (fun w w' => assertions_stage _ _ _ _ _ _ _ Hi Hg w w') as S5.
  pose proof (fun w w' => observations_stage _ _ _ _ _ _ Hi w w') as S6.
  pose proof (fun w w' => tests_stage types _ _ _ _ _ _ Hi Hc w w') as S7.
  pose proof (fun w out => selection_stage _ _ _ _ _ _ Hi affected_functions required_tests w out) as S8. split.
  - intros (w1 & (V1 & V2 & ->)%S1 & (w2 & [V3 ->]%S2 & (w3 & [V4 ->]%S3 & (w4 & [V5 ->]%S4 & (st & [V6 ->]%S5 & H)%bind_Ok)%bind_Ok)%bind_Ok)%bind_Ok)%bind_Ok; try lia.
    apply bind_Ok in H as (w6 & [V7 ->]%S6 & (w7 & [V8 ->]%S7 & (out & (V9 & V10 & ->)%S8 & H)%bind_Ok)%bind_Ok); try lia.
    cbv beta iota in H. unfold contract_u32 in H. rewrite (proj2 (N.ltb_lt _ _) Ha) in H. injection H as <-. split; [by split|].
    unfold plan_report, plan_work. f_equal.
  - intros [[V1 V2 V3 V4 V5 V6 V7 V8 V9 V10] ->].
    apply bind_Ok. eexists. split; [apply S1; [lia|by split_and!]|]. apply bind_Ok. eexists. split; [apply S2; [lia|by split]|].
    apply bind_Ok. eexists. split; [apply S3; [lia|by split]|]. apply bind_Ok. eexists. split; [apply S4; [lia|by split]|].
    apply bind_Ok. eexists. split; [apply S5; [lia|by split]|]. cbv beta iota. apply bind_Ok. eexists. split; [apply S6; [lia|by split]|].
    apply bind_Ok. eexists. split; [apply S7; [lia|by split]|]. apply bind_Ok. eexists. split; [apply S8; [lia|done|by split_and!]|].
    cbv beta iota. unfold contract_u32. rewrite (proj2 (N.ltb_lt _ _) Ha). done.
Qed.

Lemma few_assertions effect_report : effects_of = Ok effect_report -> (total_assertions units < 2 ^ 32)%N.
Proof using Type.
  intros [_ Ho]%accepted_sizes. pose proof (assertions_are_operations units) as Ha.
  assert (MAX_EFFECT_OPERATIONS < 2 ^ 32)%N by done. lia.
Qed.

Lemma validated_exact report :
  validated = Ok report <->
  (exists index, built = Ok index) /\ btree_keys types = td_entity_id <$> type_definitions /\
  (exists effect_report, effects_of = Ok effect_report) /\ valid /\ report = report_of.
Proof using Type.
  assert (PLAN_WORK_BOUND <= MAX_CONTRACT_TEST_WORK)%N as Hbound by done.
  assert (forall index er, built = Ok index -> effects_of = Ok er ->
    stages (set_closures (closures_of er) index) = Ok report <-> valid /\ report = report_of) as Hs.
  { intros index er Hi He. destruct (closed_index _ _ Hi He) as [Hok Hc]. pose proof (validated_work _ _ Hi He) as Hw.
    pose proof (build_index_counts _ _ _ _ _ _ _ _ _ _ _ _ Hi) as Hcount. apply stages_exact; try done.
    - intros u Hu. by eapply accepted_graphs.
    - by etrans.
    - apply Hcount.
    - by eapply few_assertions. }
  unfold validate_contract_test_program. rewrite bind_Ok. split.
  - intros (index & Hi & H). destruct (bool_decide _) eqn:E in H; [|done]. apply bool_decide_eq_true in E. cbn [negb] in H.
    apply bind_Ok in H as (er & He & H). unfold con_effect in He. destruct effects_of as [er'|] eqn:Ee; [|done]. injection He as ->.
    change (stages (set_closures (closures_of er) index) = Ok report) in H. apply (Hs _ _ Hi eq_refl) in H as [Hv ->].
    split_and!; eauto.
  - intros ([index Hi] & E & [er He] & Hv). exists index. split; [done|]. rewrite bool_decide_true by done. cbn [negb]. rewrite He.
    cbn [con_effect map_err mbind result_bind]. change (stages (set_closures (closures_of er) index) = Ok report). by apply Hs.
Qed.
End exact.

(** ** No panics *)

Section panics.
Variable bad : ContractFailure.
Hypothesis Hbad : bad = ConPanic \/ bad = ConEffect EffPanic.
#[local] Abbreviation con_safe := (avoids bad).

Lemma con_safe_fail {A} code : con_safe (@contract_fail A code).
Proof using Hbad. apply avoids_err. by destruct Hbad as [->| ->]. Qed.
Lemma con_safe_test {A} code (o : option A) : con_safe (ok_or (ConTest code) o).
Proof using Hbad. destruct o; [done|]. apply avoids_err. by destruct Hbad as [->| ->]. Qed.
Lemma con_safe_type {A} (m : type_result A) : con_safe (con_type m).
Proof using Hbad. destruct m; [done|]. apply avoids_err. by destruct Hbad as [->| ->]. Qed.
Lemma con_safe_effect {A} (m : eff_out A) : eff_safe m -> con_safe (con_effect m).
Proof using Hbad. intros Hm. destruct m as [|e]; [done|]. apply avoids_err. destruct Hbad as [->| ->]; [done|]. intros [= ->]. by apply Hm. Qed.
Lemma con_safe_at {A} (l : list A) i : is_Some (l !! i) -> con_safe (con_at l i).
Proof using Type. intros [x Hx]. unfold con_at. by rewrite Hx. Qed.
Lemma con_safe_add a b : con_safe (con_add a b).
Proof using Hbad. apply con_safe_test. Qed.
Lemma con_safe_charge work amount : con_safe (Contracts.charge work amount).
Proof using Hbad. apply avoids_bind; [apply con_safe_add|]. intros w _. apply avoids_if; [apply con_safe_fail|done]. Qed.
Lemma con_safe_lookup {T} (values : gmap N T) id ids : con_safe (Contracts.lookup values id ids).
Proof using Hbad. unfold Contracts.lookup. destruct (values !! id); [done|]. apply avoids_if; apply con_safe_fail. Qed.
Lemma con_safe_sorted {T} (values : list T) key : con_safe (Contracts.ensure_sorted_by values key).
Proof using Hbad. unfold Contracts.ensure_sorted_by. apply avoids_if; [done|apply con_safe_fail]. Qed.
Lemma con_safe_unique values : con_safe (Contracts.ensure_sorted_unique values).
Proof using Hbad. unfold Contracts.ensure_sorted_unique. apply avoids_if; [done|apply con_safe_fail]. Qed.
Lemma con_safe_insert ids id : con_safe (insert_id ids id).
Proof using Hbad. unfold insert_id. apply avoids_if; [apply con_safe_fail|done]. Qed.
Lemma con_safe_resolve value parameters operations : con_safe (Contracts.resolve_value_type value parameters operations).
Proof using Hbad. destruct value; apply con_safe_test. Qed.
#[local] Hint Resolve con_safe_fail con_safe_test con_safe_type con_safe_add con_safe_charge con_safe_lookup con_safe_sorted
  con_safe_unique con_safe_insert con_safe_resolve : panics.

Lemma con_safe_build units effects requirements adapters type_definitions constants globals contracts tests affected required :
  con_safe (Contracts.build_index units effects requirements adapters type_definitions constants globals contracts tests affected required).
Proof using Hbad.
  unfold Contracts.build_index. apply avoids_bind; [unfold check_counts; no_panic|]. intros _ _.
  apply avoids_bind; [unfold check_orders; no_panic|]. intros _ _. apply avoids_bind; [unfold check_totals, total_of; no_panic|]. intros _ _.
  assert (forall {T} (id : T -> EntityId) ids l, con_safe (insert_ids id ids l)) as Hins by (intros; unfold insert_ids; no_panic).
  assert (forall {T} (id : T -> EntityId) ids l, con_safe (Contracts.index_entities l ids id)) as Hent.
  { intros. unfold Contracts.index_entities. apply avoids_fold. intros x [m s] _. no_panic. }
  apply avoids_bind.
  { apply avoids_fold. intros [i u] [s m] _. unfold Contracts.index_unit. apply avoids_bind; [no_panic|]. intros s1 _.
    do 3 (apply avoids_bind; [apply Hins|intros ? _]). done. }
  intros [ids functions] _. do 4 (apply avoids_bind; [apply Hins|intros ? _]).
  do 4 (apply avoids_bind; [apply Hent|intros [? ?] _]). done.
Qed.

Section index.
Context (types : Definitions) (units : list FunctionUnit) (constants : list ConstantDefinition).
Context (globals : list GlobalValueDefinition) (contracts : list ContractDefinition).
Context (tests : list TestCaseDefinition) (index : ContractIndex).
Hypothesis Hindex : contracts_ok units constants globals contracts tests index.

Lemma con_safe_position id : con_safe (function_index index id).
Proof using Hbad. apply con_safe_lookup. Qed.

Lemma con_safe_known id position : function_index index id = Ok position -> con_safe (con_at (ci_units index) (N.to_nat position)).
Proof using Hindex.
  intros (u & Hu & _)%(function_index_Ok _ _ _ _ _ _ Hindex). apply con_safe_at. rewrite (ck_units _ _ _ _ _ _ Hindex). by exists u.
Qed.

Lemma con_safe_unit id : con_safe (unit_at index id).
Proof using Hbad Hindex. apply avoids_bind; [apply con_safe_position|]. intros p Hp. by eapply con_safe_known. Qed.
#[local] Hint Resolve con_safe_unit con_safe_position : panics.

Lemma con_safe_contract work contract : con_safe (validate_contract index work contract).
Proof using Hbad Hindex.
  unfold validate_contract. apply avoids_bind; [no_panic|]. intros w _. do 2 (apply avoids_if; [no_panic|]).
  apply avoids_bind; [no_panic|]. intros i Hi. apply avoids_bind; [no_panic|]. intros j Hj.
  apply avoids_bind; [by eapply con_safe_known|]. intros t _. apply avoids_bind; [by eapply con_safe_known|]. intros p _.
  apply avoids_if; [no_panic|]. apply avoids_bind; [no_panic|]. intros c _. apply avoids_if; [no_panic|].
  unfold validate_bindings. destruct (N.eqb_spec (len (cd_bindings contract)) (len (fg_parameters (fu_function p)))) as [E|]; cbn [negb]; [|no_panic].
  apply avoids_bind; [|intros [[? ?] ?] _; no_panic]. apply avoids_fold. intros [k b] [[w' r] e] Hk%elem_of_enumerate. unfold check_binding.
  apply avoids_bind; [no_panic|]. intros w2 _. apply avoids_if; [no_panic|]. apply avoids_bind.
  { apply con_safe_at, lookup_lt_is_Some. apply lookup_lt_Some in Hk. unfold len in E. lia. }
  intros id _. apply avoids_bind; [no_panic|]. intros q _. apply avoids_bind; [unfold binding_source; no_panic|]. intros [[? ?] ?] _. no_panic.
Qed.

Lemma con_safe_assertion unit parameters operations st operation : con_safe (check_assertion index unit parameters operations st operation).
Proof using Hbad Hindex.
  destruct st as [w n]. unfold check_assertion. apply avoids_if; [no_panic|]. do 2 (apply avoids_bind; [no_panic|intros ? _]).
  destruct (op_immediate operation); try no_panic. apply avoids_bind; [no_panic|]. intros c _. apply avoids_if; [no_panic|].
  apply avoids_bind; [no_panic|]. intros p _. destruct (_ || _) eqn:E; [no_panic|].
  apply orb_false_iff in E as [_ E%negb_false_iff%N.eqb_eq]. apply avoids_bind; [apply avoids_for_each; intros [? ?] _; no_panic|]. intros _ _.
  apply avoids_bind; [|no_panic]. apply con_safe_at, lookup_lt_is_Some. unfold len in E. lia.
Qed.

Lemma con_safe_ordered unit operations : con_safe (ordered_operations unit operations).
Proof using Hbad.
  unfold ordered_operations. apply avoids_bind; [|done]. apply avoids_map. intros id _. apply avoids_bind; [no_panic|]. intros b _.
  apply avoids_map. intros; no_panic.
Qed.

Lemma con_safe_stages type_definitions affected required : con_safe (stages types type_definitions affected required index).
Proof using Hbad Hindex.
  unfold stages. apply avoids_bind; [unfold validate_constants_and_globals, check_constant_entity, check_global_entity; no_panic|]. intros w1 _.
  apply avoids_bind; [unfold validate_invariant_profile; no_panic|]. intros w2 _.
  apply avoids_bind; [apply avoids_fold; intros; apply con_safe_contract|]. intros w3 _.
  apply avoids_bind; [unfold validate_attachments; no_panic|]. intros w4 _. apply avoids_bind.
  { apply avoids_fold. intros u st _. apply avoids_bind; [apply con_safe_ordered|]. intros ops _.
    apply avoids_fold. intros; apply con_safe_assertion. }
  intros [w5 n] _. apply avoids_bind; [unfold reject_test_observations; no_panic|]. intros w6 _. apply avoids_bind.
  { apply avoids_fold. intros t w _. unfold validate_test. do 3 (apply avoids_bind; [no_panic|intros ? _]). do 2 (apply avoids_if; [no_panic|]).
    apply avoids_bind; [apply avoids_for_each; intros [? ?] _; no_panic|]. intros _ _. no_panic. }
  intros w7 _. apply avoids_bind; [|intros [s w8] _; unfold contract_u32; no_panic]. unfold select_tests. apply avoids_bind.
  { apply avoids_fold. intros f [s w] _. apply avoids_bind; [no_panic|]. intros w' _. apply avoids_bind; [|no_panic].
    destruct (function_index index f); [done|]. apply avoids_err. by destruct Hbad as [->| ->]. }
  intros [s1 v1] _. apply avoids_bind; [apply avoids_fold; intros t [s w] _; unfold require; no_panic|]. intros [s2 v2] _.
  apply avoids_bind; [apply avoids_fold; intros t [s w] _; unfold choose; no_panic|]. intros [s3 v3] _. no_panic.
Qed.
End index.

Lemma con_safe_program types units effects requirements adapters type_definitions constants globals contracts tests affected required :
  con_safe (validate_contract_test_program types units effects requirements adapters type_definitions constants globals contracts tests
    affected required).
Proof using Hbad.
  apply avoids_bind; [apply con_safe_build|]. intros index Hi. apply avoids_if; [no_panic|]. apply avoids_bind.
  { apply con_safe_effect. apply validate_effects_no_panic. }
  intros er He. unfold con_effect in He. destruct (validate_effect_program _ _ _ _ _ _) as [er'|] eqn:Ee; [|done]. injection He as ->.
  eapply con_safe_stages, closed_index; done.
Qed.
End panics.

(** ** Theorems *)

(** C3: a request is accepted exactly if its entities are sorted, distinct and
    within the limits, its type definitions are those of the environment, its
    effect program is accepted, and it is a valid program: well-typed constants
    and globals, no invariants, contracts whose predicates are pure functions
    without contracts that return a truth value and whose parameters are bound
    to sources of their types, functions that attach the contracts on them,
    assertions of those contracts with arguments of the predicate's types, no
    observations, and well-typed tests of functions without effects.  The report
    lists the contracts and the tests, selects the tests of affected functions
    and the required ones, and counts the assertions and the work.  The limit on
    work rejects no request that is valid otherwise. *)
Theorem contract_program_exact types units effects requirements adapters type_definitions constants globals contracts tests affected_functions
    required_tests report :
  validate_contract_test_program types units effects requirements adapters type_definitions constants globals contracts tests
    affected_functions required_tests = Ok report <->
  (exists index, Contracts.build_index units effects requirements adapters type_definitions constants globals contracts tests
    affected_functions required_tests = Ok index) /\
  btree_keys types = td_entity_id <$> type_definitions /\
  (exists effect_report, validate_effect_program types units effects requirements adapters (cd_entity_id <$> contracts) = Ok effect_report) /\
  ValidProgram types units type_definitions constants globals contracts tests affected_functions required_tests /\
  report = plan_report units type_definitions constants globals contracts tests affected_functions required_tests.
Proof. apply validated_exact. Qed.

(** C6: the work of an accepted request is at most 3,528,376, less than a tenth
    of the limit of 50,000,000. *)
Theorem contract_work_bounded types units effects requirements adapters type_definitions constants globals contracts tests
    affected_functions required_tests report :
  validate_contract_test_program types units effects requirements adapters type_definitions constants globals contracts tests
    affected_functions required_tests = Ok report ->
  (ctr_work report <= PLAN_WORK_BOUND)%N /\ (10 * PLAN_WORK_BOUND < MAX_CONTRACT_TEST_WORK)%N /\
  (ctr_contract_assertions report <= MAX_EFFECT_OPERATIONS)%N.
Proof.
  intros ([index Hi] & _ & [er He] & _ & ->)%validated_exact. split_and!; [by eapply validated_work|done|].
  apply accepted_sizes in He as [_ Ho]. cbn [plan_report ctr_contract_assertions]. pose proof (assertions_are_operations units). lia.
Qed.

(** C5: the validator returns a report or a stable error on every input: no index
    into the functions, the parameters of a predicate, the operands or the result
    types can panic, nor one into the closures of the effect validator, nor one
    into the successors, predecessors, flags and bit sets of the CFG validator,
    which does not panic on any function on its own either. *)
Theorem contract_validator_never_panics types units effects requirements adapters type_definitions constants globals contracts tests
    affected_functions required_tests :
  validate_contract_test_program types units effects requirements adapters type_definitions constants globals contracts tests
    affected_functions required_tests <> Err ConPanic /\
  validate_contract_test_program types units effects requirements adapters type_definitions constants globals contracts tests
    affected_functions required_tests <> Err (ConEffect EffPanic) /\
  forall function parameters blocks operations,
    validate_function_graph types function parameters blocks operations <> Err Panicked.
Proof. split_and!; [apply con_safe_program; auto..|]. intros. apply validate_no_panic. Qed.

(** A program for the witnesses: function 1 asserts its precondition 70, that its
    parameter satisfies function 2, and test 80 runs it. *)
Module Plan.
Definition main : FunctionUnit := mkFunctionUnit
  (mkFunctionGraph 1 [] [10%N] contract_result [] 12 [12%N] [70%N] VPrivate)
  [mkParameterDef 10 1 PRFunction 0 TBool]
  [mkBlock 12 1 [] [13%N] (TermReturn (mkReturnTerminator (VROperationResult (mkOperationResultRef 13 0)))) RCRequired]
  [mkOperation 13 12 0 OpContractAssert [VRParameter 10] [contract_result] (ImmEntity 70)].
Definition holds : FunctionUnit := mkFunctionUnit
  (mkFunctionGraph 2 [] [20%N] TBool [] 22 [22%N] [] VPrivate)
  [mkParameterDef 20 2 PRFunction 0 TBool]
  [mkBlock 22 2 [] [] (TermReturn (mkReturnTerminator (VRParameter 20))) RCRequired] [].
Definition units : list FunctionUnit := [main; holds].
Definition contract : ContractDefinition := mkContractDefinition 70 1 CKPrecondition 2 [mkContractBinding 0 (CSParameter 10)] None.
Definition test : TestCaseDefinition :=
  mkTestCaseDefinition 80 1 [mkConstValue TBool (DBool true)] (EnvReplay []) (EOFailureCode 1) [] (mkResourceLimits 0 0 0 0 0 0).
Definition constants : list ConstantDefinition := [mkConstantDefinition 90 (mkConstValue TBool (DBool false))].
Definition globals : list GlobalValueDefinition := [mkGlobalValueDefinition 91 TBool 90 VPrivate].
Definition report : ContractTestReport := mkContractTestReport [70%N] [80%N] [80%N] PolicyIncomplete 1 11.

Lemma plan_accepted : validate_contract_test_program ∅ units [] [] [] [] constants globals [contract] [test] [1%N] [] = Ok report.
Proof. vm_compute. reflexivity. Qed.
End Plan.

Theorem contract_work_bounded_witness :
  (ctr_work Plan.report <= PLAN_WORK_BOUND)%N /\ (10 * PLAN_WORK_BOUND < MAX_CONTRACT_TEST_WORK)%N /\
  (ctr_contract_assertions Plan.report <= MAX_EFFECT_OPERATIONS)%N.
Proof.
  apply (contract_work_bounded ∅ Plan.units [] [] [] [] Plan.constants Plan.globals [Plan.contract] [Plan.test] [1%N] []).
  exact Plan.plan_accepted.
Defined.
