(* ===== verification/Repr.v ===== *)
(** * Values the code's types can hold

    A [u16], a 32-byte identifier or a [String] of the source is a number or a
    list here; [type_repr] and [value_repr] say that every part of a type or of a
    constant is in the range of its Rust type. *)

From S2P Require Import Prelude Bytes Utf8 Ssmc Types.
Set Warnings "-register-all".

Definition I128_MIN : Z := - 2 ^ 127.
Definition I128_MAX : Z := 2 ^ 127 - 1.
Definition U128_MAX : N := 2 ^ 128 - 1.

Definition is_i128 (z : Z) : bool := ((I128_MIN <=? z) && (z <=? I128_MAX))%Z.
Definition is_u128 (n : N) : bool := (n <=? U128_MAX)%N.
Definition is_id (id : N) : bool := (id <? 2 ^ 256)%N.

Lemma is_u128_lt n : is_u128 n = true <-> (n < 2 ^ 128)%N.
Proof. unfold is_u128. rewrite N.leb_le. unfold U128_MAX. rewrite <- N.lt_succ_r. by rewrite N.sub_1_r, N.succ_pred. Qed.

Lemma is_i128_range z : is_i128 z = true <-> (- 2 ^ 127 <= z < 2 ^ 127)%Z.
Proof. unfold is_i128, I128_MIN, I128_MAX. lia. Qed.

Definition type_node_repr (t : TypeExpr) : Prop :=
  match t with
  | TSInt w | TUInt w => (w < 2 ^ 16)%N
  | TNamed definition _ => is_id definition = true
  | TFunctionRef _ _ effects => Forall (fun id => is_id id = true) effects
  | TAdapterHandle id | TCapabilityToken id => is_id id = true
  | TTypeParameter ordinal => (ordinal < 2 ^ 32)%N
  | _ => True
  end.
Definition type_repr : TypeExpr -> Prop := AllNodes type_node_repr.

Definition data_repr (d : ConstData) : Prop :=
  match d with
  | DSInt z => is_i128 z = true
  | DUInt n => is_u128 n = true
  | DF32Bits bits => (bits < 2 ^ 32)%N
  | DF64Bits bits => (bits < 2 ^ 64)%N
  | DText s => from_utf8_ok s = true
  | DRecord r =>
      is_id (rc_definition r) = true /\ Forall (fun f => is_id (fc_member_id f) = true) (rc_fields r)
  | DVariant v => is_id (vk_definition v) = true /\ is_id (vk_member_id v) = true
  | DFunctionRef f => is_id (frv_function f) = true /\ Forall type_repr (frv_type_arguments f)
  | DBuiltinFailure f => (bfv_code f < 2 ^ 16)%N
  | _ => True
  end.

Inductive value_repr : ConstValue -> Prop :=
| value_repr_node t d :
    type_repr t -> data_repr d -> Forall value_repr (const_children d) -> value_repr (mkConstValue t d).

Lemma value_repr_inv t d :
  value_repr (mkConstValue t d) <-> type_repr t /\ data_repr d /\ Forall value_repr (const_children d).
Proof. split; [intros H; by inversion H|]. intros (? & ? & ?). by constructor. Qed.
