(* ===== verification/Fingerprint.v ===== *)
(** * Fingerprints and value hashes (crates/sley-ssmc/src/fingerprint.rs)

    The canonical projection that is hashed: an append-only [Encoder] that
    charges its work, the encoders of types and constants, the value hash, the
    fingerprint of a type definition, and the fingerprint of a function, whose
    parameters, blocks and operations are named by their slots. *)

From S2P Require Import Prelude Bytes Ids Ssmc.
From stdpp Require Import strings.
Set Warnings "-register-all".

Definition SSMC1_FIELD_SCHEMA_HASH : bytes :=
  [x19; x83; xbc; x8d; x6a; xd9; xac; x3c; xb5; x39; x08; x53; xf4; x39; x59; xcf;
   x2c; x3d; xc0; xae; x8e; x0c; xa1; x8c; xa8; x26; x4c; xa4; x96; x01; x33; xae].

Definition MAX_FINGERPRINT_PREIMAGE_BYTES : N := 67108864.
Definition MAX_FINGERPRINT_GRAPH_ENTITIES : N := 2000000.
Definition MAX_FINGERPRINT_OPERATIONS : N := 1000000.
Definition MAX_FINGERPRINT_WORK : N := 100000000.

Inductive FingerprintErrorCode : Type :=
| FpEntityUnsupported
| FpInventoryInvalid
| FpLocalReferenceInvalid
| FpClaimMissing
| FpMismatch
| FpResourceLimit
| FpValueHashTypeUnsupported
| FpValueHashValueInvalid.
#[global] Instance FingerprintErrorCode_eq_dec : EqDecision FingerprintErrorCode.
Proof. solve_decision. Defined.

Definition FingerprintErrorCode_as_str (c : FingerprintErrorCode) : string :=
  match c with
  | FpEntityUnsupported => "FINGERPRINT_ENTITY_UNSUPPORTED"
  | FpInventoryInvalid => "FINGERPRINT_INVENTORY_INVALID"
  | FpLocalReferenceInvalid => "FINGERPRINT_LOCAL_REFERENCE_INVALID"
  | FpClaimMissing => "FINGERPRINT_CLAIM_MISSING"
  | FpMismatch => "FINGERPRINT_MISMATCH"
  | FpResourceLimit => "FINGERPRINT_RESOURCE_LIMIT"
  | FpValueHashTypeUnsupported => "VALUE_HASH_TYPE_UNSUPPORTED"
  | FpValueHashValueInvalid => "VALUE_HASH_VALUE_INVALID"
  end%string.

Definition FingerprintErrorCode_numeric (c : FingerprintErrorCode) : N :=
  match c with
  | FpEntityUnsupported => 25000
  | FpInventoryInvalid => 25001
  | FpLocalReferenceInvalid => 25002
  | FpClaimMissing => 25003
  | FpMismatch => 25004
  | FpResourceLimit => 25005
  | FpValueHashTypeUnsupported => 25006
  | FpValueHashValueInvalid => 25007
  end.

Abbreviation fp_result A := (result FingerprintErrorCode A).

(** ** The encoder *)

Record Encoder : Type := mkEncoder { enc_out : bytes; enc_work : N }.

(** A method of [&mut Encoder]. *)
Definition Enc : Type := Encoder -> fp_result Encoder.
Definition enc_skip : Enc := fun s => Ok s.
Definition enc_seq (e f : Enc) : Enc := fun s => e s ≫= f.
Declare Scope enc_scope.
Notation "e &> f" := (enc_seq e f) (at level 62, right associativity) : enc_scope.
Delimit Scope enc_scope with enc.
Open Scope enc_scope.

(** [for x in xs { f(encoder, x)?; }] *)
Section enc_each.
Context {A : Type} (f : A -> Enc).
Fixpoint enc_each (l : list A) : Enc :=
  match l with
  | [] => enc_skip
  | x :: l => f x &> enc_each l
  end.
End enc_each.

Definition enc_fail (code : FingerprintErrorCode) : Enc := fun _ => Err code.

(** [checked_add] with its error *)
Definition fp_add (a b : N) : fp_result N := ok_or FpResourceLimit (checked_add a b).

Definition ensure_append (length : N) (s : Encoder) : fp_result unit :=
  next ← fp_add (len (enc_out s)) length;
  work ← fp_add (enc_work s) length;
  if (MAX_FINGERPRINT_PREIMAGE_BYTES <? next)%N || (MAX_FINGERPRINT_WORK <? work)%N
  then Err FpResourceLimit else Ok tt.

Definition extend (b : bytes) : Enc := fun s =>
  _ ← ensure_append (len b) s;
  work ← fp_add (enc_work s) (len b);
  if (MAX_FINGERPRINT_WORK <? work)%N then Err FpResourceLimit
  else Ok (mkEncoder (enc_out s ++ b) work).

Definition enc_fixed : bytes -> Enc := extend.
Definition enc_u16 (value : N) : Enc := extend (be_bytes 2 value).
Definition enc_u32 (value : N) : Enc := extend (be_bytes 4 value).
Definition enc_u64 (value : N) : Enc := extend (be_bytes 8 value).
Definition enc_u128 (value : N) : Enc := extend (be_bytes 16 value).
(** [i128::to_be_bytes]: two's complement *)
Definition enc_i128 (value : Z) : Enc := extend (be_bytes 16 (Z.to_N (value mod 2 ^ 128))).
Definition enc_boolean (value : bool) : Enc := extend [if value then x01 else x00].
Definition enc_list_len (length : N) : Enc := enc_u64 length.
Definition enc_bytes (b : bytes) : Enc := fun s =>
  length ← fp_add 8 (len b);
  _ ← ensure_append length s;
  (enc_list_len (len b) &> extend b) s.

Definition encode_entity_ref (entity : EntityId) (enclosing_function : option EntityId) : Enc :=
  if bool_decide (enclosing_function = Some entity) then enc_u32 2
  else enc_u32 1 &> enc_fixed (id_bytes entity).

Definition encode_option {A} (encode : A -> Enc) (value : option A) : Enc :=
  match value with
  | None => enc_u32 1
  | Some value => enc_u32 2 &> encode value
  end.

Definition fp_check_depth (depth : N) : Enc :=
  if (MAX_TYPE_DEPTH <? depth)%N then enc_fail FpResourceLimit else enc_skip.

Section enclosing.
Variable enclosing_function : option EntityId.

Fixpoint encode_type (value : TypeExpr) (depth : N) : Enc :=
  fp_check_depth depth &> enc_u32 (TypeExpr_tag value) &>
  match value with
  | TUnit | TBool | TF32 | TF64 | TBytes | TText => enc_skip
  | TSInt width | TUInt width => enc_u16 width
  | TTuple elements =>
      enc_list_len (len elements) &> enc_each (fun element => encode_type element (depth + 1)) elements
  | TNamed definition arguments =>
      encode_entity_ref definition enclosing_function &> enc_list_len (len arguments) &>
      enc_each (fun argument => encode_type argument (depth + 1)) arguments
  | TVector element | TOption element | TLocalCell element => encode_type element (depth + 1)
  | TOrderedMap key value => encode_type key (depth + 1) &> encode_type value (depth + 1)
  | TResult ok error => encode_type ok (depth + 1) &> encode_type error (depth + 1)
  | TFunctionRef parameters result effects =>
      enc_list_len (len parameters) &> enc_each (fun parameter => encode_type parameter (depth + 1)) parameters &>
      encode_type result (depth + 1) &>
      enc_list_len (len effects) &> enc_each (fun effect => encode_entity_ref effect enclosing_function) effects
  | TAdapterHandle entity | TCapabilityToken entity => encode_entity_ref entity enclosing_function
  | TTypeParameter ordinal => enc_u32 ordinal
  | TBuiltinFailure kind => enc_u16 (BuiltinFailureKind_tag kind)
  end.

Definition encode_function_ref (value : FunctionRefValue) (depth : N) : Enc :=
  encode_entity_ref (frv_function value) enclosing_function &>
  enc_list_len (len (frv_type_arguments value)) &>
  enc_each (fun argument => encode_type argument (depth + 1)) (frv_type_arguments value).

Fixpoint encode_const_value (value : ConstValue) (depth : N) : Enc :=
  match value with
  | mkConstValue value_type data => encode_type value_type depth &> encode_const_data data depth
  end
with encode_const_data (data : ConstData) (depth : N) : Enc :=
  fp_check_depth depth &> enc_u32 (ConstData_tag data) &>
  match data with
  | DUnit => enc_skip
  | DBool value => enc_boolean value
  | DSInt value => enc_i128 value
  | DUInt value => enc_u128 value
  | DF32Bits value => enc_u32 value
  | DF64Bits value => enc_u64 value
  | DBytes value => enc_bytes value
  | DText value => enc_bytes value
  | DSequence values =>
      enc_list_len (len values) &> enc_each (fun value => encode_const_value value (depth + 1)) values
  | DRecord record =>
      encode_entity_ref (rc_definition record) enclosing_function &>
      enc_list_len (len (rc_fields record)) &>
      enc_each (fun field => enc_fixed (id_bytes (fc_member_id field)) &> encode_const_value (fc_value field) (depth + 1))
        (rc_fields record)
  | DVariant variant =>
      encode_entity_ref (vk_definition variant) enclosing_function &>
      enc_fixed (id_bytes (vk_member_id variant)) &>
      encode_option (fun value => encode_const_value value (depth + 1)) (vk_payload variant)
  | DMap entries =>
      enc_list_len (len entries) &>
      enc_each (fun entry => encode_const_value (me_key entry) (depth + 1) &> encode_const_value (me_value entry) (depth + 1))
        entries
  | DOption value => encode_option (fun value => encode_const_value value (depth + 1)) value
  | DResult (ROk value) => enc_u32 1 &> encode_const_value value (depth + 1)
  | DResult (RErr value) => enc_u32 2 &> encode_const_value value (depth + 1)
  | DFunctionRef value => encode_function_ref value (depth + 1)
  | DBuiltinFailure value => enc_u16 (BuiltinFailureKind_tag (bfv_kind value)) &> enc_u16 (bfv_code value)
  end.
End enclosing.

Definition enc_new : Encoder := mkEncoder [] 0.

(** [require_work]: a sum of work that did not overflow, within the bound *)
Definition require_work (work : option N) : fp_result unit :=
  match work with
  | Some value => if (MAX_FINGERPRINT_WORK <? value)%N then Err FpResourceLimit else Ok tt
  | None => Err FpResourceLimit
  end.

(** Chained [checked_add]s *)
Definition sum_checked (first : N) (rest : list N) : option N :=
  foldl (fun acc n => acc ≫= fun acc => checked_add acc n) (Some first) rest.

Section hashing.
Variable blake3 : bytes -> bytes.

(** [hash_validated_value]: type and data are encoded apart, then framed by
    their lengths after the header. *)
Definition hash_validated_value (schema_epoch : bytes) (value : ConstValue) : fp_result bytes :=
  type_bytes ← encode_type None (cv_type value) 1 enc_new;
  data_bytes ← encode_const_data None (cv_data value) 1 enc_new;
  preimage ← (enc_fixed (ascii "SLEYVHS1") &> enc_u32 1 &> enc_fixed schema_epoch
              &> enc_fixed SSMC1_FIELD_SCHEMA_HASH) enc_new;
  appended ← ok_or FpResourceLimit
               (sum_checked 8 [len (enc_out type_bytes); 8; len (enc_out data_bytes)]%N);
  _ ← ensure_append appended preimage;
  _ ← require_work (sum_checked (enc_work type_bytes) [enc_work data_bytes; enc_work preimage; appended]);
  preimage ← (enc_bytes (enc_out type_bytes) &> enc_bytes (enc_out data_bytes)) preimage;
  Ok (digest_type_derive blake3 ValueHash (enc_out preimage)).

Definition finish_fingerprint (schema_epoch : bytes) (kind : N) (body : Encoder) (extra_work : N) : fp_result bytes :=
  preimage ← (enc_fixed (ascii "SLEYSFP1") &> enc_u32 1 &> enc_fixed schema_epoch
              &> enc_fixed SSMC1_FIELD_SCHEMA_HASH &> enc_u32 kind) enc_new;
  appended ← fp_add 8 (len (enc_out body));
  _ ← ensure_append appended preimage;
  _ ← require_work (sum_checked (enc_work body) [enc_work preimage; appended; extra_work]);
  preimage ← enc_bytes (enc_out body) preimage;
  Ok (digest_type_derive blake3 SemanticFingerprint (enc_out preimage)).

Definition encode_form (form : TypeDefForm) : Enc :=
  enc_u32 (TypeDefForm_tag form) &>
  match form with
  | FormRecord fields =>
      enc_list_len (len fields) &>
      enc_each (fun field =>
        enc_fixed (id_bytes (rf_member_id field)) &> encode_type None (rf_value_type field) 1 &>
        enc_u32 (Visibility_tag (rf_visibility field))) fields
  | FormVariant cases =>
      enc_list_len (len cases) &>
      enc_each (fun case =>
        enc_fixed (id_bytes (vc_member_id case)) &>
        encode_option (fun value => encode_type None value 1) (vc_payload_type case)) cases
  end.

Definition encode_type_definition (definition : TypeDefinition) : Enc :=
  enc_list_len (len (td_type_parameters definition)) &>
  enc_each (fun parameter => enc_u32 (tp_ordinal parameter)) (td_type_parameters definition) &>
  encode_form (td_form definition) &>
  enc_list_len (len (td_invariants definition)) &>
  enc_each (fun invariant => encode_entity_ref invariant None) (td_invariants definition) &>
  enc_u32 (Visibility_tag (td_visibility definition)).

Definition fingerprint_type_definition (schema_epoch : bytes) (definition : TypeDefinition) : fp_result bytes :=
  body ← encode_type_definition definition enc_new;
  finish_fingerprint schema_epoch 4 body 0.
End hashing.

Definition verify_fingerprint_claim (computed : bytes) (claimed : option bytes) : fp_result unit :=
  match claimed with
  | None => Err FpClaimMissing
  | Some value => if bool_decide (value = computed) then Ok tt else Err FpMismatch
  end.

Definition verify_unsupported_fingerprint_claim (claimed : option bytes) : fp_result unit :=
  match claimed with Some _ => Err FpEntityUnsupported | None => Ok tt end.

(** ** Functions *)

Record FunctionFingerprintInput : Type := mkFunctionFingerprintInput {
  fi_function : FunctionGraph;
  fi_parameters : list ParameterDef;
  fi_blocks : list Block;
  fi_operations : list Operation
}.

Record ParameterSlot : Type := mkParameterSlot { ps_owner_class : N; ps_block : N; ps_parameter : N }.
Record OperationSlot : Type := mkOperationSlot { os_block : N; os_operation : N }.

Record FunctionMaps : Type := mkFunctionMaps {
  fm_parameters : gmap EntityId (ParameterDef * ParameterSlot);
  fm_blocks : gmap EntityId (Block * N);
  fm_operations : gmap EntityId (Operation * OperationSlot)
}.

(** [if map.insert(key, value).is_some() { return Err(code) }] *)
Definition insert_new {A} (code : FingerprintErrorCode) (key : EntityId) (value : A) (map : gmap EntityId A)
    : fp_result (gmap EntityId A) :=
  match map !! key with Some _ => Err code | None => Ok (<[key := value]> map) end.

(** The maps from the slices of the request *)
Definition inventory {A} (id : A -> EntityId) (items : list A) : fp_result (gmap EntityId A) :=
  fold_res (fun map item => insert_new FpInventoryInvalid (id item) item map) ∅ items.

(** [u32::try_from(index)] *)
Definition slot_number (index : N) : fp_result N :=
  if (index <? 2 ^ 32)%N then Ok index else Err FpResourceLimit.

(** One parameter of a function or of a block *)
Definition place_parameter (input : gmap EntityId ParameterDef) (owner : EntityId) (role : ParameterRole)
    (slot : N -> ParameterSlot) (parameters : gmap EntityId (ParameterDef * ParameterSlot))
    (indexed : N * EntityId) : fp_result (gmap EntityId (ParameterDef * ParameterSlot)) :=
  let '(index, id) := indexed in
  parameter ← ok_or FpInventoryInvalid (input !! id);
  ordinal ← slot_number index;
  if negb (prm_owner parameter =? owner)%N || negb (bool_decide (prm_role parameter = role))
     || negb (prm_ordinal parameter =? ordinal)%N
  then Err FpInventoryInvalid
  else insert_new FpInventoryInvalid id (parameter, slot ordinal) parameters.

Definition place_operation (input : gmap EntityId Operation) (block block_slot : N)
    (operations : gmap EntityId (Operation * OperationSlot)) (indexed : N * EntityId)
    : fp_result (gmap EntityId (Operation * OperationSlot)) :=
  let '(index, id) := indexed in
  operation ← ok_or FpInventoryInvalid (input !! id);
  slot ← slot_number index;
  if negb (op_block operation =? block)%N || negb (op_ordinal operation =? slot)%N
  then Err FpInventoryInvalid
  else insert_new FpInventoryInvalid id (operation, mkOperationSlot block_slot slot) operations.

Definition place_block (parameter_input : gmap EntityId ParameterDef) (block_input : gmap EntityId Block)
    (operation_input : gmap EntityId Operation) (function : EntityId) (maps : FunctionMaps)
    (indexed : N * EntityId) : fp_result FunctionMaps :=
  let '(block_index, id) := indexed in
  block ← ok_or FpInventoryInvalid (block_input !! id);
  if negb (blk_function block =? function)%N then Err FpInventoryInvalid
  else
    block_slot ← slot_number block_index;
    blocks ← insert_new FpInventoryInvalid id (block, block_slot) (fm_blocks maps);
    parameters ← fold_res (place_parameter parameter_input id PRBlock (mkParameterSlot 2 block_slot))
      (fm_parameters maps) (enumerate (blk_parameters block));
    operations ← fold_res (place_operation operation_input id block_slot)
      (fm_operations maps) (enumerate (blk_operations block));
    Ok (mkFunctionMaps parameters blocks operations).

Definition map_len {A} (map : gmap EntityId A) : N := N.of_nat (size map).

Definition FunctionMaps_build (input : FunctionFingerprintInput) : fp_result FunctionMaps :=
  if (MAX_FINGERPRINT_OPERATIONS <? len (fi_operations input))%N then Err FpResourceLimit
  else
    graph_entities ← ok_or FpResourceLimit
      (sum_checked (len (fi_parameters input)) [len (fi_blocks input); len (fi_operations input)]);
    if (MAX_FINGERPRINT_GRAPH_ENTITIES <? graph_entities)%N then Err FpResourceLimit
    else
      let function := fi_function input in
      parameter_input ← inventory prm_entity_id (fi_parameters input);
      block_input ← inventory blk_entity_id (fi_blocks input);
      operation_input ← inventory op_entity_id (fi_operations input);
      parameters ← fold_res (place_parameter parameter_input (fg_entity_id function) PRFunction (mkParameterSlot 1 0))
        ∅ (enumerate (fg_parameters function));
      maps ← fold_res (place_block parameter_input block_input operation_input (fg_entity_id function))
        (mkFunctionMaps parameters ∅ ∅) (enumerate (fg_blocks function));
      if negb (map_len (fm_parameters maps) =? map_len parameter_input)%N
         || negb (map_len (fm_blocks maps) =? map_len block_input)%N
         || negb (map_len (fm_operations maps) =? map_len operation_input)%N
      then Err FpInventoryInvalid
      else Ok maps.

(** A lookup that fails is [LocalReferenceInvalid]. *)
Definition with_local {A} (found : option A) (encode : A -> Enc) : Enc :=
  match found with Some value => encode value | None => enc_fail FpLocalReferenceInvalid end.

Section function.
Variable maps : FunctionMaps.

Definition block_slot (id : EntityId) : Enc := with_local (fm_blocks maps !! id) (fun found => enc_u32 (snd found)).

Definition encode_value_ref (value : ValueRef) : Enc :=
  enc_u32 (ValueRef_tag value) &>
  match value with
  | VRParameter id =>
      with_local (fm_parameters maps !! id) (fun found =>
        enc_u32 (ps_owner_class (snd found)) &> enc_u32 (ps_block (snd found)) &> enc_u32 (ps_parameter (snd found)))
  | VROperationResult result =>
      with_local (fm_operations maps !! orr_operation result) (fun found =>
        if (len (op_result_types (fst found)) <=? orr_result_index result)%N then enc_fail FpLocalReferenceInvalid
        else enc_u32 (os_block (snd found)) &> enc_u32 (os_operation (snd found)) &> enc_u32 (orr_result_index result))
  end.

Definition encode_target_edge (edge : TargetEdge) : Enc :=
  block_slot (te_target edge) &> enc_list_len (len (te_arguments edge)) &>
  enc_each encode_value_ref (te_arguments edge).

Definition encode_switch_edge (edge : SwitchEdge) : Enc :=
  block_slot (se_target edge) &> enc_list_len (len (se_arguments edge)) &>
  enc_each (fun argument =>
    enc_u32 (SwitchArgument_tag argument) &>
    match argument with SAValue value => encode_value_ref value | SACasePayload => enc_skip end) (se_arguments edge).

Definition encode_case_key (key : CaseKey) : Enc :=
  enc_u32 (CaseKey_tag key) &>
  match key with
  | KeyMember member => enc_fixed (id_bytes member)
  | KeyBuiltin value => enc_u32 (BuiltinCase_tag value)
  end.

Definition encode_terminator (terminator : Terminator) : Enc :=
  enc_u32 (Terminator_tag terminator) &>
  match terminator with
  | TermReturn value => encode_value_ref (ret_value value)
  | TermBranch value => encode_target_edge (br_edge value)
  | TermCondBranch value =>
      encode_value_ref (cbr_condition value) &> encode_target_edge (cbr_if_true value) &>
      encode_target_edge (cbr_if_false value)
  | TermVariantSwitch value =>
      encode_value_ref (vs_value value) &> enc_list_len (len (vs_cases value)) &>
      enc_each (fun case => encode_case_key (sc_case_key case) &> encode_switch_edge (sc_edge case)) (vs_cases value)
  | TermTrap value =>
      enc_u32 (TrapCode_tag (trap_code value)) &> encode_option encode_value_ref (trap_payload value)
  end.

Definition encode_immediate (self_id : option EntityId) (immediate : Immediate) : Enc :=
  enc_u32 (Immediate_tag immediate) &>
  match immediate with
  | ImmNone => enc_skip
  | ImmEntity entity => encode_entity_ref entity self_id
  | ImmIndex index => enc_u32 index
  | ImmField member => enc_fixed (id_bytes member)
  | ImmVariant value =>
      encode_entity_ref (vi_definition value) self_id &> enc_fixed (id_bytes (vi_member_id value))
  | ImmObservation value => enc_fixed value
  | ImmFunction value => encode_function_ref self_id value 1
  end.

(** The loop over parameters: their types *)
Definition encode_parameter_type (self_id : option EntityId) (id : EntityId) : Enc :=
  with_local (fm_parameters maps !! id) (fun found => encode_type self_id (prm_value_type (fst found)) 1).

Definition encode_operation (self_id : option EntityId) (id : EntityId) : Enc :=
  with_local (fm_operations maps !! id) (fun found =>
    let operation := fst found in
    enc_u32 (Opcode_tag (op_opcode operation)) &>
    enc_list_len (len (op_operands operation)) &> enc_each encode_value_ref (op_operands operation) &>
    enc_list_len (len (op_result_types operation)) &>
    enc_each (fun result_type => encode_type self_id result_type 1) (op_result_types operation) &>
    encode_immediate self_id (op_immediate operation)).

Definition encode_block (self_id : option EntityId) (id : EntityId) : Enc :=
  with_local (fm_blocks maps !! id) (fun found =>
    let block := fst found in
    enc_u32 (Reachability_tag (blk_reachability block)) &>
    enc_list_len (len (blk_parameters block)) &> enc_each (encode_parameter_type self_id) (blk_parameters block) &>
    enc_list_len (len (blk_operations block)) &> enc_each (encode_operation self_id) (blk_operations block) &>
    encode_terminator (blk_terminator block)).

Definition encode_function (function : FunctionGraph) : Enc :=
  let self_id := Some (fg_entity_id function) in
  enc_list_len (len (fg_type_parameters function)) &>
  enc_each (fun parameter => enc_u32 (tp_ordinal parameter)) (fg_type_parameters function) &>
  enc_list_len (len (fg_parameters function)) &>
  enc_each (encode_parameter_type self_id) (fg_parameters function) &>
  encode_type self_id (fg_result_type function) 1 &>
  enc_list_len (len (fg_effects function)) &>
  enc_each (fun effect => encode_entity_ref effect self_id) (fg_effects function) &>
  block_slot (fg_entry_block function) &>
  enc_list_len (len (fg_blocks function)) &> enc_each (encode_block self_id) (fg_blocks function) &>
  enc_list_len (len (fg_contracts function)) &>
  enc_each (fun contract => encode_entity_ref contract self_id) (fg_contracts function) &>
  enc_u32 (Visibility_tag (fg_visibility function)).
End function.

Definition fingerprint_function (blake3 : bytes -> bytes) (schema_epoch : bytes) (input : FunctionFingerprintInput)
    : fp_result bytes :=
  maps ← FunctionMaps_build input;
  body ← encode_function maps (fi_function input) enc_new;
  inventory_work ← ok_or FpResourceLimit
    (sum_checked (len (fi_parameters input)) [len (fi_blocks input); len (fi_operations input)]);
  finish_fingerprint blake3 schema_epoch 5 body inventory_work.
