(* ===== verification/FingerprintRename.v ===== *)
(** * Function fingerprints do not depend on local names

    The identities of the parameters, blocks and operations of a function, and
    the order of the slices that list them, do not reach the hashed bytes:
    [fingerprint_function] names each by its slot. *)

From S2P Require Import Prelude Bytes Ids Ssmc Fingerprint.
From Stdlib Require Import Setoid Morphisms.
From stdpp Require Import fin_maps.
Set Warnings "-register-all".

(** ** Renaming a function *)

Section rename.
Variables rename_parameter_id rename_block_id rename_operation_id : EntityId -> EntityId.

Definition rename_value (v : ValueRef) : ValueRef :=
  match v with
  | VRParameter id => VRParameter (rename_parameter_id id)
  | VROperationResult r =>
      VROperationResult (mkOperationResultRef (rename_operation_id (orr_operation r)) (orr_result_index r))
  end.

Definition rename_edge (e : TargetEdge) : TargetEdge :=
  mkTargetEdge (rename_block_id (te_target e)) (rename_value <$> te_arguments e).

Definition rename_argument (a : SwitchArgument) : SwitchArgument :=
  match a with SAValue v => SAValue (rename_value v) | SACasePayload => SACasePayload end.

Definition rename_switch_edge (e : SwitchEdge) : SwitchEdge :=
  mkSwitchEdge (rename_block_id (se_target e)) (rename_argument <$> se_arguments e).

Definition rename_case (c : SwitchCase) : SwitchCase :=
  mkSwitchCase (sc_case_key c) (rename_switch_edge (sc_edge c)).

Definition rename_terminator (t : Terminator) : Terminator :=
  match t with
  | TermReturn x => TermReturn (mkReturnTerminator (rename_value (ret_value x)))
  | TermBranch x => TermBranch (mkBranchTerminator (rename_edge (br_edge x)))
  | TermCondBranch x =>
      TermCondBranch (mkCondBranchTerminator (rename_value (cbr_condition x)) (rename_edge (cbr_if_true x))
        (rename_edge (cbr_if_false x)))
  | TermVariantSwitch x =>
      TermVariantSwitch (mkVariantSwitchTerminator (rename_value (vs_value x)) (rename_case <$> vs_cases x))
  | TermTrap x => TermTrap (mkTrapTerminator (trap_code x) (rename_value <$> trap_payload x))
  end.

(** A function's parameter belongs to the function, whose name stays. *)
Definition rename_parameter (p : ParameterDef) : ParameterDef :=
  mkParameterDef (rename_parameter_id (prm_entity_id p))
    (match prm_role p with PRFunction => prm_owner p | PRBlock => rename_block_id (prm_owner p) end)
    (prm_role p) (prm_ordinal p) (prm_value_type p).

Definition rename_block (b : Block) : Block :=
  mkBlock (rename_block_id (blk_entity_id b)) (blk_function b) (rename_parameter_id <$> blk_parameters b)
    (rename_operation_id <$> blk_operations b) (rename_terminator (blk_terminator b)) (blk_reachability b).

Definition rename_operation (o : Operation) : Operation :=
  mkOperation (rename_operation_id (op_entity_id o)) (rename_block_id (op_block o)) (op_ordinal o) (op_opcode o)
    (rename_value <$> op_operands o) (op_result_types o) (op_immediate o).

Definition rename_function (f : FunctionGraph) : FunctionGraph :=
  mkFunctionGraph (fg_entity_id f) (fg_type_parameters f) (rename_parameter_id <$> fg_parameters f)
    (fg_result_type f) (fg_effects f) (rename_block_id (fg_entry_block f)) (rename_block_id <$> fg_blocks f)
    (fg_contracts f) (fg_visibility f).
End rename.

(** ** Encoders up to the bytes and the work they add *)

Definition enc_eq : relation Enc := pointwise_relation Encoder eq.
#[global] Instance enc_eq_equiv : Equivalence enc_eq.
Proof. unfold enc_eq. apply _. Qed.

#[global] Instance enc_seq_proper : Proper (enc_eq ==> enc_eq ==> enc_eq) enc_seq.
Proof. intros e e' He f f' Hf s. unfold enc_seq. rewrite He. destruct (e' s); simpl; [apply Hf|done]. Qed.

Lemma enc_each_fmap {A B} (r : A -> B) (f : A -> Enc) (g : B -> Enc) l :
  (forall x, enc_eq (g (r x)) (f x)) -> enc_eq (enc_each g (r <$> l)) (enc_each f l).
Proof.
  intros H. induction l as [|x l IH]; [done|]. cbn [fmap list_fmap enc_each]. by apply enc_seq_proper.
Qed.

Lemma with_local_fmap {A B} (r : A -> B) (f : A -> Enc) (g : B -> Enc) o :
  (forall x, enc_eq (g (r x)) (f x)) -> enc_eq (with_local (r <$> o) g) (with_local o f).
Proof. intros H. destruct o; cbn; [apply H|done]. Qed.

(** ** Loops over renamed lists *)

Lemma enumerate_from_fmap {A B} (f : A -> B) i l :
  enumerate_from i (f <$> l) = prod_map id f <$> enumerate_from i l.
Proof.
  revert i. induction l as [|x l IH]; intros i; [done|].
  cbn [fmap list_fmap enumerate_from]. by rewrite IH.
Qed.

Lemma fold_res_fmap {E A A' B B'} (h : B -> B') (r : A -> A') (f : B -> A -> result E B) (g : B' -> A' -> result E B')
    acc l :
  (forall b x, g (h b) (r x) = h <$> f b x) -> fold_res g (h acc) (r <$> l) = h <$> fold_res f acc l.
Proof.
  intros H. revert acc. induction l as [|x l IH]; intros acc; [done|]. cbn [fmap list_fmap fold_res].
  rewrite H. destruct (f acc x); cbn; [apply IH|done].
Qed.

(** A map whose keys and values are renamed *)
Definition rename_map {A B} (rho : EntityId -> EntityId) (r : A -> B) (m : gmap EntityId A) : gmap EntityId B :=
  kmap rho (r <$> m).

Section rename_map.
Context (rho : EntityId -> EntityId) `{!Inj (=) (=) rho} {A B : Type} (r : A -> B).

Lemma lookup_rename_map m k : rename_map rho r m !! rho k = r <$> m !! k.
Proof. unfold rename_map. by rewrite lookup_kmap, lookup_fmap by done. Qed.

Lemma map_len_rename m : map_len (rename_map rho r m) = map_len m.
Proof.
  unfold map_len, rename_map. f_equal. rewrite <- (map_size_fmap r m). generalize (r <$> m). clear m.
  intros m. induction m as [|k v m Hk IH] using map_ind; [by rewrite kmap_empty|].
  rewrite kmap_insert, !map_size_insert_None by (rewrite ?lookup_kmap; done). by rewrite IH.
Qed.

Lemma insert_new_rename code k v m :
  insert_new code (rho k) (r v) (rename_map rho r m) = rename_map rho r <$> insert_new code k v m.
Proof.
  unfold insert_new. rewrite lookup_rename_map. destruct (m !! k); cbn; [done|]. f_equal.
  unfold rename_map. by rewrite fmap_insert, kmap_insert by done.
Qed.

Lemma rename_map_empty : rename_map rho r ∅ = ∅.
Proof. unfold rename_map. by rewrite fmap_empty, kmap_empty. Qed.
End rename_map.

Lemma inventory_rename {A} (key : A -> EntityId) rho `{!Inj (=) (=) rho} (r : A -> A) l :
  (forall x, key (r x) = rho (key x)) -> inventory key (r <$> l) = rename_map rho r <$> inventory key l.
Proof.
  intros H. unfold inventory. rewrite <- (rename_map_empty rho r) at 1.
  apply fold_res_fmap. intros m x. rewrite H. by apply insert_new_rename.
Qed.

(** The order in which a slice lists its items does not matter. *)
Lemma inventory_permutation {A} (key : A -> EntityId) l l' : l ≡ₚ l' -> inventory key l = inventory key l'.
Proof.
  unfold inventory. generalize (∅ : gmap EntityId A). intros m H. revert m.
  induction H as [|x l l' _ IH|x y l|l1 l2 l3 _ IH1 _ IH2]; intros m; cbn [fold_res]; [done| | |congruence].
  - destruct (insert_new _ _ _ m); cbn; [apply IH|done].
  - unfold insert_new. destruct (decide (key x = key y)) as [Heq|Hne].
    + rewrite Heq. destruct (m !! key y) eqn:E; cbn; [done|]. by rewrite !lookup_insert_eq.
    + destruct (m !! key x) eqn:Ex, (m !! key y) eqn:Ey; cbn;
        rewrite ?(lookup_insert_ne m _ (key y)), ?(lookup_insert_ne m _ (key x)), ?Ex, ?Ey by congruence; cbn; try done.
      by rewrite insert_insert_ne by congruence.
Qed.

(** ** The maps of a renamed function *)

Section build.
Context (rho_p rho_b rho_o : EntityId -> EntityId).
Context `{!Inj (=) (=) rho_p, !Inj (=) (=) rho_b, !Inj (=) (=) rho_o}.

#[local] Abbreviation ren_parameter := (rename_parameter rho_p rho_b).
#[local] Abbreviation ren_block := (rename_block rho_p rho_b rho_o).
#[local] Abbreviation ren_operation := (rename_operation rho_p rho_b rho_o).
#[local] Abbreviation ren_value := (rename_value rho_p rho_o).
#[local] Abbreviation ren_function := (rename_function rho_p rho_b).

Definition rename_maps (m : FunctionMaps) : FunctionMaps :=
  mkFunctionMaps (rename_map rho_p (prod_map ren_parameter id) (fm_parameters m))
    (rename_map rho_b (prod_map ren_block id) (fm_blocks m))
    (rename_map rho_o (prod_map ren_operation id) (fm_operations m)).

Lemma eqb_rename rho `{!Inj (=) (=) rho} (a b : EntityId) : (rho a =? rho b)%N = (a =? b)%N.
Proof. apply eq_bool_prop_intro. rewrite !Is_true_true, !N.eqb_eq. split; [apply (inj rho)|by intros ->]. Qed.

Lemma ok_or_fmap {E A B} (e : E) (f : A -> B) o : ok_or e (f <$> o) = f <$> ok_or e o.
Proof. by destruct o. Qed.

(** [owner'] is what [owner] becomes as the owner of a parameter in [role]. *)
Lemma place_parameter_rename input owner owner' role slot params x :
  owner' = match role with PRFunction => owner | PRBlock => rho_b owner end ->
  place_parameter (rename_map rho_p ren_parameter input) owner' role slot
    (rename_map rho_p (prod_map ren_parameter id) params) (prod_map id rho_p x)
  = rename_map rho_p (prod_map ren_parameter id) <$> place_parameter input owner role slot params x.
Proof.
  intros ->. destruct x as [index id0]. unfold place_parameter. cbn [prod_map fst snd id].
  rewrite lookup_rename_map, ok_or_fmap by done. destruct (input !! id0) as [p|]; cbn; [|done].
  destruct (slot_number index) as [ordinal|]; cbn; [|done].
  replace (negb (match prm_role p with PRFunction => prm_owner p | PRBlock => rho_b (prm_owner p) end
                 =? match role with PRFunction => owner | PRBlock => rho_b owner end)%N
           || negb (bool_decide (prm_role p = role)))
    with (negb (prm_owner p =? owner)%N || negb (bool_decide (prm_role p = role))).
  2: { destruct (decide (prm_role p = role)) as [Hr|Hr].
       - rewrite Hr. destruct role; [done|]. by rewrite eqb_rename.
       - rewrite !(bool_decide_eq_false_2 _ Hr). by rewrite !orb_true_r. }
  destruct (_ || _ || _); [done|]. by apply insert_new_rename with (v := (p, slot ordinal)).
Qed.

Lemma place_operation_rename input block bslot ops x :
  place_operation (rename_map rho_o ren_operation input) (rho_b block) bslot
    (rename_map rho_o (prod_map ren_operation id) ops) (prod_map id rho_o x)
  = rename_map rho_o (prod_map ren_operation id) <$> place_operation input block bslot ops x.
Proof.
  destruct x as [index id0]. unfold place_operation. cbn [prod_map fst snd id].
  rewrite lookup_rename_map, ok_or_fmap by done. destruct (input !! id0) as [o|]; cbn; [|done].
  destruct (slot_number index) as [slot|]; cbn; [|done]. rewrite eqb_rename by done.
  destruct (_ || _); [done|]. by apply insert_new_rename with (v := (o, mkOperationSlot bslot slot)).
Qed.

Lemma place_block_rename ps bs os function maps x :
  place_block (rename_map rho_p ren_parameter ps) (rename_map rho_b ren_block bs) (rename_map rho_o ren_operation os)
    function (rename_maps maps) (prod_map id rho_b x)
  = rename_maps <$> place_block ps bs os function maps x.
Proof.
  destruct x as [index id0]. unfold place_block, enumerate. cbn [prod_map fst snd id].
  rewrite lookup_rename_map, ok_or_fmap by done. destruct (bs !! id0) as [b|]; cbn; [|done].
  destruct (negb _); [done|]. destruct (slot_number index) as [slot|]; cbn; [|done].
  pose proof (insert_new_rename rho_b (prod_map ren_block id) FpInventoryInvalid id0 (b, slot) (fm_blocks maps)) as Hb.
  cbn in Hb. rewrite Hb. destruct (insert_new _ id0 _ _) as [blocks|]; cbn; [|done].
  change (list_fmap _ _ ?f ?l) with (f <$> l). rewrite !enumerate_from_fmap.
  rewrite (fold_res_fmap (rename_map rho_p (prod_map ren_parameter id)) (prod_map id rho_p)
             (place_parameter ps id0 PRBlock (mkParameterSlot 2 slot)))
    by (intros; by apply place_parameter_rename).
  destruct (fold_res (place_parameter _ _ _ _) _ _) as [params|]; cbn; [|done].
  rewrite (fold_res_fmap (rename_map rho_o (prod_map ren_operation id)) (prod_map id rho_o)
             (place_operation os id0 slot)) by (intros; apply place_operation_rename).
  by destruct (fold_res (place_operation _ _ _) _ _).
Qed.

Definition rename_input (i : FunctionFingerprintInput) : FunctionFingerprintInput :=
  mkFunctionFingerprintInput (ren_function (fi_function i)) (ren_parameter <$> fi_parameters i)
    (ren_block <$> fi_blocks i) (ren_operation <$> fi_operations i).

Lemma FunctionMaps_build_rename i : FunctionMaps_build (rename_input i) = rename_maps <$> FunctionMaps_build i.
Proof.
  destruct i as [f ps bs os]. unfold FunctionMaps_build, rename_input, enumerate.
  cbn [fi_function fi_parameters fi_blocks fi_operations]. rewrite !len_fmap.
  rewrite (inventory_rename prm_entity_id rho_p ren_parameter), (inventory_rename blk_entity_id rho_b ren_block),
    (inventory_rename op_entity_id rho_o ren_operation) by (by intros []).

  cbn [fg_parameters fg_entity_id fg_blocks rename_function]. rewrite !enumerate_from_fmap.
  destruct (_ <? len os)%N; [done|]. destruct (ok_or _ _) as [graph_entities|]; cbn [mbind result_bind fmap result_fmap]; [|done].
  destruct (_ <? graph_entities)%N; [done|].
  destruct (inventory _ ps) as [mp|]; cbn [mbind result_bind fmap result_fmap]; [|done].
  destruct (inventory _ bs) as [mb|]; cbn [mbind result_bind fmap result_fmap]; [|done].
  destruct (inventory _ os) as [mo|]; cbn [mbind result_bind fmap result_fmap]; [|done].
  pose proof (rename_map_empty rho_p (prod_map ren_parameter (@id ParameterSlot))) as He.
  rewrite <- He at 1. rewrite (fold_res_fmap (rename_map rho_p (prod_map ren_parameter id)) (prod_map id rho_p)
             (place_parameter mp (fg_entity_id f) PRFunction (mkParameterSlot 1 0)))
    by (intros; by apply place_parameter_rename).
  destruct (fold_res (place_parameter _ _ _ _) _ _) as [params|]; cbn [mbind result_bind fmap result_fmap]; [|done].
  pose proof (rename_map_empty rho_b (prod_map ren_block (@id N))) as Hb.
  pose proof (rename_map_empty rho_o (prod_map ren_operation (@id OperationSlot))) as Ho.
  rewrite <- Hb at 1. rewrite <- Ho at 1.
  change (mkFunctionMaps (rename_map rho_p _ params) _ _) with (rename_maps (mkFunctionMaps params ∅ ∅)).
  rewrite (fold_res_fmap rename_maps (prod_map id rho_b) (place_block mp mb mo (fg_entity_id f)))
    by (intros; apply place_block_rename).
  destruct (fold_res (place_block _ _ _ _) _ _) as [m|]; cbn [mbind result_bind fmap result_fmap]; [|done].
  cbn [rename_maps fm_parameters fm_blocks fm_operations]. rewrite !map_len_rename by done.
  by destruct (_ || _ || _).
Qed.

(** ** The projection of a renamed function *)

Section encode.
Variable m : FunctionMaps.

Lemma block_slot_rename id0 : enc_eq (block_slot (rename_maps m) (rho_b id0)) (block_slot m id0).
Proof. unfold block_slot. cbn [rename_maps fm_blocks]. rewrite lookup_rename_map by done. by apply with_local_fmap. Qed.

Lemma encode_value_ref_rename v : enc_eq (encode_value_ref (rename_maps m) (ren_value v)) (encode_value_ref m v).
Proof.
  destruct v as [id0|[o i]]; unfold encode_value_ref; cbn [rename_value ValueRef_tag orr_operation orr_result_index].
  - apply enc_seq_proper; [done|]. change (fm_parameters (rename_maps m)) with (rename_map rho_p (prod_map ren_parameter (@id ParameterSlot)) (fm_parameters m)).
    rewrite lookup_rename_map by done. by apply with_local_fmap.
  - apply enc_seq_proper; [done|]. change (fm_operations (rename_maps m)) with (rename_map rho_o (prod_map ren_operation (@id OperationSlot)) (fm_operations m)).
    rewrite lookup_rename_map by done. by apply with_local_fmap.
Qed.

Lemma encode_target_edge_rename e :
  enc_eq (encode_target_edge (rename_maps m) (rename_edge rho_p rho_b rho_o e)) (encode_target_edge m e).
Proof.
  unfold encode_target_edge, rename_edge. cbn [te_target te_arguments]. rewrite len_fmap.
  rewrite block_slot_rename. do 2 (apply enc_seq_proper; [done|]). apply enc_each_fmap, encode_value_ref_rename.
Qed.

Lemma encode_switch_edge_rename e :
  enc_eq (encode_switch_edge (rename_maps m) (rename_switch_edge rho_p rho_b rho_o e)) (encode_switch_edge m e).
Proof.
  unfold encode_switch_edge, rename_switch_edge. cbn [se_target se_arguments]. rewrite len_fmap.
  rewrite block_slot_rename. do 2 (apply enc_seq_proper; [done|]). apply enc_each_fmap.
  intros [v|]; cbn; [|done]. by rewrite encode_value_ref_rename.
Qed.

Lemma encode_terminator_rename t :
  enc_eq (encode_terminator (rename_maps m) (rename_terminator rho_p rho_b rho_o t)) (encode_terminator m t).
Proof.
  destruct t as [[v]|[e]|[v e1 e2]|[v cs]|[c o]]; (apply enc_seq_proper; [done|]);
    cbn [ret_value br_edge cbr_condition cbr_if_true cbr_if_false vs_value vs_cases trap_code trap_payload].
  - apply encode_value_ref_rename.
  - apply encode_target_edge_rename.
  - apply enc_seq_proper; [apply encode_value_ref_rename|]. apply enc_seq_proper; apply encode_target_edge_rename.
  - apply enc_seq_proper; [apply encode_value_ref_rename|].
    apply enc_seq_proper; [unfold enc_list_len; by rewrite <- (len_fmap (rename_case rho_p rho_b rho_o) cs)|].
    apply enc_each_fmap. intros [k e]. cbn [rename_case sc_case_key sc_edge].
    apply enc_seq_proper; [done|]. apply encode_switch_edge_rename.
  - apply enc_seq_proper; [done|]. destruct o as [v|]; [|done].
    apply enc_seq_proper; [done|]. apply encode_value_ref_rename.
Qed.

Lemma encode_parameter_type_rename self id0 :
  enc_eq (encode_parameter_type (rename_maps m) self (rho_p id0)) (encode_parameter_type m self id0).
Proof.
  unfold encode_parameter_type. cbn [rename_maps fm_parameters]. rewrite lookup_rename_map by done. by apply with_local_fmap.
Qed.

Lemma encode_operation_rename self id0 :
  enc_eq (encode_operation (rename_maps m) self (rho_o id0)) (encode_operation m self id0).
Proof.
  unfold encode_operation. cbn [rename_maps fm_operations]. rewrite lookup_rename_map by done. apply with_local_fmap.
  intros [o s]. cbn. rewrite len_fmap. do 2 (apply enc_seq_proper; [done|]).
  apply enc_seq_proper; [|done]. apply enc_each_fmap, encode_value_ref_rename.
Qed.

Lemma encode_block_rename self id0 :
  enc_eq (encode_block (rename_maps m) self (rho_b id0)) (encode_block m self id0).
Proof.
  unfold encode_block. cbn [rename_maps fm_blocks]. rewrite lookup_rename_map by done. apply with_local_fmap.
  intros [b s]. cbn. rewrite !len_fmap, encode_terminator_rename. do 2 (apply enc_seq_proper; [done|]).
  apply enc_seq_proper; [apply enc_each_fmap, encode_parameter_type_rename|]. apply enc_seq_proper; [done|].
  apply enc_seq_proper; [|done]. apply enc_each_fmap, encode_operation_rename.
Qed.

Lemma encode_function_rename f : enc_eq (encode_function (rename_maps m) (ren_function f)) (encode_function m f).
Proof.
  unfold encode_function, rename_function. cbn. rewrite !len_fmap, block_slot_rename.
  do 3 (apply enc_seq_proper; [done|]). apply enc_seq_proper; [apply enc_each_fmap, encode_parameter_type_rename|].
  do 5 (apply enc_seq_proper; [done|]). apply enc_seq_proper; [|done]. apply enc_each_fmap, encode_block_rename.
Qed.
End encode.
End build.

(** The same function with its slices listed in another order *)
Definition same_slices (i j : FunctionFingerprintInput) : Prop :=
  fi_function i = fi_function j /\ Permutation (fi_parameters i) (fi_parameters j) /\
  Permutation (fi_blocks i) (fi_blocks j) /\ Permutation (fi_operations i) (fi_operations j).

Lemma len_permutation {A} (l l' : list A) : l ≡ₚ l' -> len l = len l'.
Proof. unfold len. by intros ->. Qed.

Lemma FunctionMaps_build_permutation i j : same_slices i j -> FunctionMaps_build i = FunctionMaps_build j.
Proof.
  destruct i as [f ps bs os], j as [f' ps' bs' os']. intros (Hf & Hp & Hb & Ho). cbn in *. subst.
  unfold FunctionMaps_build. cbn [fi_function fi_parameters fi_blocks fi_operations].
  by rewrite (len_permutation _ _ Hp), (len_permutation _ _ Hb), (len_permutation _ _ Ho),
    (inventory_permutation prm_entity_id _ _ Hp), (inventory_permutation blk_entity_id _ _ Hb),
    (inventory_permutation op_entity_id _ _ Ho).
Qed.

(** C31: A function and its copy whose parameters, blocks and operations have
    other identities (no two the same), listed in any order, have the same
    fingerprint, or fail in the same way. *)
Theorem fingerprint_function_renaming (blake3 : bytes -> bytes) (epoch : bytes) (i j : FunctionFingerprintInput)
    (rho_p rho_b rho_o : EntityId -> EntityId)
    (Hp : Inj (=) (=) rho_p) (Hb : Inj (=) (=) rho_b) (Ho : Inj (=) (=) rho_o)
    (Hj : same_slices j (rename_input rho_p rho_b rho_o i)) :
  fingerprint_function blake3 epoch j = fingerprint_function blake3 epoch i.
Proof.
  unfold fingerprint_function. rewrite (FunctionMaps_build_permutation _ _ Hj), FunctionMaps_build_rename by done.
  destruct Hj as (-> & H1 & H2 & H3). rewrite (len_permutation _ _ H1), (len_permutation _ _ H2), (len_permutation _ _ H3).
  cbn [rename_input fi_function fi_parameters fi_blocks fi_operations]. rewrite !len_fmap.
  destruct (FunctionMaps_build i) as [m|]; cbn; [|done].
  by rewrite (encode_function_rename rho_p rho_b rho_o m (fi_function i) enc_new).
Qed.

(** A function with two parameters that returns the sum of them, and its copy
    with every identity moved by 100, whose parameters are listed backwards. *)
Definition sample_operation : Operation :=
  (mkOperation 6 5 0 OpIntAddChecked [VRParameter 2; VRParameter 3] [TBool] ImmNone)%N.
Definition sample_parameters : list ParameterDef :=
  [mkParameterDef 2 1 PRFunction 0 TBool; mkParameterDef 3 1 PRFunction 1 TBool]%N.
Definition sample_function : FunctionFingerprintInput :=
  mkFunctionFingerprintInput
    (mkFunctionGraph 1 [] [2; 3] TBool [] 5 [5] [] VPrivate)%N sample_parameters
    [mkBlock 5 1 [] [6] (TermReturn (mkReturnTerminator (VROperationResult (mkOperationResultRef 6 0)))) RCRequired]%N
    [sample_operation].
Definition moved (id : EntityId) : EntityId := (id + 100)%N.
#[local] Instance moved_inj : Inj (=) (=) moved.
Proof. intros a b. unfold moved. lia. Qed.
Definition sample_copy : FunctionFingerprintInput :=
  let copy := rename_input moved moved moved sample_function in
  mkFunctionFingerprintInput (fi_function copy) (rev (fi_parameters copy)) (fi_blocks copy) (fi_operations copy).

Lemma fingerprint_function_renaming_witness :
  is_ok (fingerprint_function (take 32) (repeat x00 32) sample_function) = true /\
  fingerprint_function (take 32) (repeat x00 32) sample_copy
  = fingerprint_function (take 32) (repeat x00 32) sample_function.
Proof.
  split; [by vm_compute|].
  apply (fingerprint_function_renaming (take 32) (repeat x00 32) sample_function sample_copy moved moved moved);
    [apply moved_inj..|]. repeat split; try done. symmetry. apply Permutation_rev.
Defined.
