(* ===== verification/ConstEncoding.v ===== *)
(** * The mutation codec: constants (crates/sley-mutate/src/codec/const_encoding.rs)

    One wire schema ([visit]) with two consumers: measuring, which validates the
    canonical form, and the byte cursor, which emits the encoding chunk by chunk
    and compares two values without building their encodings.  A borrow is the
    value it points to; reserving memory always succeeds. *)

From S2P Require Import Prelude Bytes Ssmc Scb1Core Scb1Cursor.
Set Warnings "-register-all".

(** A call fails with an error of the codec, or panics (an index out of range,
    [unreachable!]). *)
Inductive EncodeStop : Type := Fails (code : ScbErrorCode) | Panics.
Abbreviation enc_result A := (result EncodeStop A).

Definition fails {A} (code : ScbErrorCode) : enc_result A := Err (Fails code).
Definition limit {A} : enc_result A := fails ScbResourceLimit.

(** ** The wire schema *)

Inductive Sequence : Type :=
| SqTypes (v : list TypeExpr)
| SqValues (v : list ConstValue)
| SqFields (v : list (FieldConst ConstValue))
| SqEntries (v : list (MapEntryConst ConstValue))
| SqIds (v : list EntityId).

Inductive Node : Type :=
| NValue (v : ConstValue)
| NData (v : ConstData)
| NType (v : TypeExpr)
| NNamed (definition : EntityId) (arguments : list TypeExpr)
| NFunction (parameters : list TypeExpr) (result : TypeExpr) (effects : list EntityId)
| NFunctionRef (v : FunctionRefValue)
| NFailure (v : BuiltinFailureValue)
| NField (v : FieldConst ConstValue)
| NRecord (v : RecordConst ConstValue)
| NVariant (v : VariantConst ConstValue)
| NEntry (v : MapEntryConst ConstValue)
| NResult (v : ResultConst ConstValue)
| NTypePair (a b : TypeExpr)
| NOption (v : option ConstValue)
| NSequence (v : Sequence)
| NUInt (v : N)
| NSInt (v : Z)
| NBool (v : bool)
| NF32 (v : N)
| NF64 (v : N)
| NRaw (v : bytes)
| NBytes (v : bytes).

Definition Sequence_len (s : Sequence) : N :=
  match s with
  | SqTypes v => len v
  | SqValues v => len v
  | SqFields v => len v
  | SqEntries v => len v
  | SqIds v => len v
  end.

Definition Sequence_get (s : Sequence) (index : N) : enc_result Node :=
  let index := N.to_nat index in
  ok_or Panics
    match s with
    | SqTypes v => NType <$> v !! index
    | SqValues v => NValue <$> v !! index
    | SqFields v => NField <$> v !! index
    | SqEntries v => NEntry <$> v !! index
    | SqIds v => (fun id => NRaw (id_bytes id)) <$> v !! index
    end.

(** A chunk is the bytes it gives, borrowed or copied into a small array. *)
Inductive Chunk : Type :=
| Borrowed (b : bytes)
| Inline (b : bytes).

Definition Chunk_bytes (c : Chunk) : bytes := match c with Borrowed b | Inline b => b end.

(** [bytes[..value.len()].copy_from_slice(value)] in an array of 32 *)
Definition Chunk_inline (value : bytes) : enc_result Chunk :=
  if (len value <=? 32)%N then Ok (Inline value) else Err Panics.

(** The first [length] bytes of the array of 19 the encoder filled. *)
Definition filled (written : option (nat * bytes)) : enc_result Chunk :=
  '(length, out) ← ok_or Panics written;
  Chunk_inline (take length out).
Definition Chunk_unsigned (value : N) : enc_result Chunk :=
  filled (encode_uvar128_into value (replicate 19 x00)).
Definition Chunk_signed (value : Z) : enc_result Chunk :=
  filled (encode_sint128_into value (replicate 19 x00)).
Definition Chunk_uint (value : N) : enc_result Chunk :=
  if (value <? U64_LIMIT)%N then Chunk_unsigned value else limit.

Inductive RecordFields : Type :=
| RfValue (v : ConstValue)
| RfNamed (definition : EntityId) (arguments : list TypeExpr)
| RfTypePair (a b : TypeExpr)
| RfFunction (parameters : list TypeExpr) (result : TypeExpr) (effects : list EntityId)
| RfFunctionRef (v : FunctionRefValue)
| RfFailure (v : BuiltinFailureValue)
| RfField (v : FieldConst ConstValue)
| RfRecord (v : RecordConst ConstValue)
| RfVariant (v : VariantConst ConstValue)
| RfEntry (v : MapEntryConst ConstValue).

Inductive Layout : Type :=
| LAtom (chunk : Chunk)
| LBytes (b : bytes)
| LUnion (tag : N) (payload : option Node)
| LRecord (fields : RecordFields)
| LList (values : Sequence).

Definition RecordFields_len (f : RecordFields) : N :=
  match f with RfFunction _ _ _ | RfVariant _ => 3 | _ => 2 end.

Definition RecordFields_get (f : RecordFields) (index : N) : enc_result Node :=
  match f, index with
  | RfValue v, 0 => Ok (NType (cv_type v))
  | RfValue v, 1 => Ok (NData (cv_data v))
  | RfNamed definition _, 0 => Ok (NRaw (id_bytes definition))
  | RfNamed _ arguments, 1 => Ok (NSequence (SqTypes arguments))
  | RfTypePair a _, 0 => Ok (NType a)
  | RfTypePair _ b, 1 => Ok (NType b)
  | RfFunction parameters _ _, 0 => Ok (NSequence (SqTypes parameters))
  | RfFunction _ result _, 1 => Ok (NType result)
  | RfFunction _ _ effects, 2 => Ok (NSequence (SqIds effects))
  | RfFunctionRef v, 0 => Ok (NRaw (id_bytes (frv_function v)))
  | RfFunctionRef v, 1 => Ok (NSequence (SqTypes (frv_type_arguments v)))
  | RfFailure v, 0 => Ok (NUInt (BuiltinFailureKind_tag (bfv_kind v)))
  | RfFailure v, 1 => Ok (NUInt (bfv_code v))
  | RfField v, 0 => Ok (NRaw (id_bytes (fc_member_id v)))
  | RfField v, 1 => Ok (NValue (fc_value v))
  | RfRecord v, 0 => Ok (NRaw (id_bytes (rc_definition v)))
  | RfRecord v, 1 => Ok (NSequence (SqFields (rc_fields v)))
  | RfVariant v, 0 => Ok (NRaw (id_bytes (vk_definition v)))
  | RfVariant v, 1 => Ok (NRaw (id_bytes (vk_member_id v)))
  | RfVariant v, 2 => Ok (NOption (vk_payload v))
  | RfEntry v, 0 => Ok (NValue (me_key v))
  | RfEntry v, 1 => Ok (NValue (me_value v))
  | _, _ => Err Panics
  end%N.

(** [trait WireConsumer] *)
Record WireConsumer (Output : Type) : Type := mkWireConsumer {
  wc_atom : Chunk -> enc_result Output;
  wc_bytes : bytes -> enc_result Output;
  wc_union : N -> option Node -> enc_result Output;
  wc_record : RecordFields -> enc_result Output;
  wc_list : Sequence -> enc_result Output
}.
Arguments mkWireConsumer {Output}. Arguments wc_atom {Output}. Arguments wc_bytes {Output}.
Arguments wc_union {Output}. Arguments wc_record {Output}. Arguments wc_list {Output}.

Definition BuildLayout : WireConsumer Layout :=
  mkWireConsumer (fun chunk => Ok (LAtom chunk)) (fun b => Ok (LBytes b))
    (fun tag payload => Ok (LUnion tag payload)) (fun fields => Ok (LRecord fields))
    (fun values => Ok (LList values)).

Definition check_depth (depth : N) : enc_result unit :=
  if (MAX_NESTING_DEPTH <? depth)%N then limit else Ok tt.
Definition check_container_depth (depth : N) : enc_result unit :=
  if (MAX_NESTING_DEPTH <=? depth)%N then limit else Ok tt.

(** The payload of a type's union *)
Definition type_payload (v : TypeExpr) : option Node :=
  match v with
  | TUnit | TBool | TF32 | TF64 | TBytes | TText => None
  | TSInt w | TUInt w => Some (NUInt w)
  | TTuple v => Some (NSequence (SqTypes v))
  | TNamed definition arguments => Some (NNamed definition arguments)
  | TVector v | TOption v | TLocalCell v => Some (NType v)
  | TOrderedMap key value => Some (NTypePair key value)
  | TResult ok error => Some (NTypePair ok error)
  | TFunctionRef parameters result effects => Some (NFunction parameters result effects)
  | TAdapterHandle v | TCapabilityToken v => Some (NRaw (id_bytes v))
  | TTypeParameter v => Some (NUInt v)
  | TBuiltinFailure v => Some (NUInt (BuiltinFailureKind_tag v))
  end.

(** The payload of a constant's union *)
Definition data_payload (v : ConstData) : option Node :=
  match v with
  | DUnit => None
  | DBool v => Some (NBool v)
  | DSInt v => Some (NSInt v)
  | DUInt v => Some (NUInt v)
  | DF32Bits v => Some (NF32 v)
  | DF64Bits v => Some (NF64 v)
  | DBytes v => Some (NBytes v)
  | DText v => Some (NBytes v)
  | DSequence v => Some (NSequence (SqValues v))
  | DRecord v => Some (NRecord v)
  | DVariant v => Some (NVariant v)
  | DMap v => Some (NSequence (SqEntries v))
  | DOption v => Some (NOption v)
  | DResult v => Some (NResult v)
  | DFunctionRef v => Some (NFunctionRef v)
  | DBuiltinFailure v => Some (NFailure v)
  end.

Definition is_scalar (node : Node) : bool :=
  match node with NUInt _ | NSInt _ | NBool _ | NF32 _ | NF64 _ | NRaw _ | NBytes _ => true | _ => false end.

Definition visit {O} (node : Node) (depth : N) (consumer : WireConsumer O) : enc_result O :=
  _ ← check_depth depth;
  _ ← (if is_scalar node then Ok tt else check_container_depth depth);
  match node return enc_result O with
  | NValue v => wc_record consumer (RfValue v)
  | NType v => wc_union consumer (TypeExpr_tag v) (type_payload v)
  | NData v => wc_union consumer (ConstData_tag v) (data_payload v)
  | NNamed definition arguments => wc_record consumer (RfNamed definition arguments)
  | NTypePair a b => wc_record consumer (RfTypePair a b)
  | NFunction parameters result effects => wc_record consumer (RfFunction parameters result effects)
  | NFunctionRef v => wc_record consumer (RfFunctionRef v)
  | NFailure v => wc_record consumer (RfFailure v)
  | NField v => wc_record consumer (RfField v)
  | NRecord v => wc_record consumer (RfRecord v)
  | NVariant v => wc_record consumer (RfVariant v)
  | NEntry v => wc_record consumer (RfEntry v)
  | NResult v =>
      wc_union consumer (ResultConst_tag v) (Some (NValue match v with ROk value | RErr value => value end))
  | NOption v => wc_union consumer (if v is Some _ then 1 else 0)%N (NValue <$> v)
  | NSequence v => wc_list consumer v
  | NUInt v => chunk ← Chunk_unsigned v; wc_atom consumer chunk
  | NSInt v => chunk ← Chunk_signed v; wc_atom consumer chunk
  | NBool v => chunk ← Chunk_inline (encode_bool v); wc_atom consumer chunk
  | NF32 v =>
      b ← map_err Fails (encode_f32_bits v);
      chunk ← Chunk_inline b;
      wc_atom consumer chunk
  | NF64 v =>
      b ← map_err Fails (encode_f64_bits v);
      chunk ← Chunk_inline b;
      wc_atom consumer chunk
  | NRaw v => wc_atom consumer (Borrowed v)
  | NBytes v => if (MAX_BYTE_PAYLOAD <? len v)%N then limit else wc_bytes consumer v
  end.

Definition layout (node : Node) (depth : N) : enc_result Layout := visit node depth BuildLayout.

(** ** Lengths *)

Definition add (a b : N) : enc_result N := ok_or (Fails ScbResourceLimit) (checked_add a b).

(** [usize::BITS - value.leading_zeros()] is the number of binary digits. *)
Definition uvar_len (value : N) : N := ((N.max (N.size value) 1 + 6) / 7)%N.

Definition sized (length : N) : enc_result N := add (uvar_len length) length.

Definition checked_length (length : N) : enc_result N :=
  if (MAX_STANDALONE_BYTES <? length)%N then limit else Ok length.

(** [0..n] *)
Definition indices (n : N) : list N := N.of_nat <$> seq 0 (N.to_nat n).

Definition ensure_increasing (order : comparison) : enc_result unit :=
  match order with
  | Lt => Ok tt
  | Eq => fails ScbMapDuplicate
  | Gt => fails ScbMapOrder
  end.

(** The loop of [validate_entity_id_set_order], [previous] its variable *)
Fixpoint validate_ids_from (previous : option EntityId) (values : list EntityId) : enc_result unit :=
  match values with
  | [] => Ok tt
  | value :: values =>
      match previous with
      | Some previous => ensure_increasing (bytes_cmp (id_bytes previous) (id_bytes value))
      | None => Ok tt
      end ≫= fun _ => validate_ids_from (Some value) values
  end.
Definition validate_entity_id_set_order (values : list EntityId) : enc_result unit :=
  validate_ids_from None values.

Section measure.
(** [compare] is [compare_validated], which measures without [canonical]. *)
Variable compare : Node -> Node -> N -> enc_result comparison.

Section node.
Variable rec : Node -> N -> bool -> enc_result N.

Definition measure_record (fields : RecordFields) (depth : N) (canonical : bool) (first_length : option N)
    : enc_result N :=
  fold_res (fun length index =>
    child_length ← match first_length with
                   | Some length => if (index =? 0)%N then Ok length
                                    else child ← RecordFields_get fields index; rec child (depth + 1)%N canonical
                   | None => child ← RecordFields_get fields index; rec child (depth + 1)%N canonical
                   end;
    body ← sized child_length;
    framed ← add (uvar_len (index + 1)) body;
    add length framed)
    (uvar_len (RecordFields_len fields)) (indices (RecordFields_len fields)).

(** The arm of a canonical map in the loop over a list *)
Definition measure_entry (entries : list (MapEntryConst ConstValue)) (index depth : N) : enc_result N :=
  entry ← ok_or Panics (entries !! N.to_nat index);
  key_length ← rec (NValue (me_key entry)) (depth + 2)%N true;
  (if (0 <? index)%N then
     previous ← ok_or Panics (entries !! N.to_nat (index - 1));
     order ← compare (NValue (me_key previous)) (NValue (me_key entry)) (depth + 2)%N;
     ensure_increasing order
   else Ok tt) ≫= fun _ =>
  entry_layout ← layout (NEntry entry) (depth + 1);
  match entry_layout with
  | LRecord fields => measure_record fields (depth + 1) true (Some key_length) ≫= checked_length
  | _ => Err Panics
  end.

Definition measure_list (values : Sequence) (depth : N) (canonical : bool) : enc_result N :=
  match values with
  | SqIds ids => if canonical then validate_entity_id_set_order ids else Ok tt
  | _ => Ok tt
  end ≫= fun _ =>
  length ← fold_res (fun length index =>
    child_length ← match values, canonical with
                   | SqEntries entries, true => measure_entry entries index depth
                   | _, _ => child ← Sequence_get values index; rec child (depth + 1)%N canonical
                   end;
    body ← sized child_length;
    add length body) (uvar_len (Sequence_len values)) (indices (Sequence_len values));
  if (MAX_COLLECTION_ELEMENTS <? Sequence_len values)%N then limit else Ok length.

(** [impl WireConsumer for Measure] *)
Definition Measure (depth : N) (canonical : bool) : WireConsumer N :=
  mkWireConsumer
    (fun chunk => Ok (len (Chunk_bytes chunk)))
    (fun b => sized (len b))
    (fun tag payload =>
      length ← match payload with None => Ok 0%N | Some node => rec node (depth + 1)%N canonical end;
      body ← sized length;
      add (uvar_len tag) body)
    (fun fields => measure_record fields depth canonical None)
    (fun values => measure_list values depth canonical).
End node.

(** [fuel] bounds the levels left; the depth check fails first. *)
Fixpoint measure_fuel (fuel : nat) (node : Node) (depth : N) (canonical : bool) : enc_result N :=
  match fuel with
  | O => Err Panics
  | S fuel => visit node depth (Measure (measure_fuel fuel) depth canonical) ≫= checked_length
  end.
End measure.

(** Levels below [depth], and one for the failing check. *)
Definition depth_fuel (depth : N) : nat := N.to_nat (MAX_NESTING_DEPTH + 2 - depth).

(** [measure(node, depth, false)] compares no keys. *)
Definition measure_validated (node : Node) (depth : N) : enc_result N :=
  measure_fuel (fun _ _ _ => Err Panics) (depth_fuel depth) node depth false.

(** ** The byte cursor *)

Inductive Frame : Type :=
| FNode (node : Node) (depth : N)
| FChunk (chunk : Chunk)
| FChildren (l : Layout) (index depth : N).

Definition MAX_CURSOR_FRAMES : N := 3 * (MAX_NESTING_DEPTH + 1) + 1.

(** [WireCursor]: its stack, the top first. *)
Abbreviation WireCursor := (list Frame).

Definition WireCursor_new (node : Node) (depth : N) : WireCursor := [FNode node depth].

Definition cursor_push (frame : Frame) (stack : WireCursor) : enc_result WireCursor :=
  if (len stack =? MAX_CURSOR_FRAMES)%N then limit else Ok (frame :: stack).

(** The child at [index], or the end of the children *)
Definition next_child (l : Layout) (index : N) : enc_result (option (option Node)) :=
  match l with
  | LUnion _ payload => if (index =? 0)%N then Ok (Some payload) else Ok None
  | LRecord fields =>
      if (index =? RecordFields_len fields)%N then Ok None
      else child ← RecordFields_get fields index; Ok (Some (Some child))
  | LList values =>
      if (index =? Sequence_len values)%N then Ok None
      else child ← Sequence_get values index; Ok (Some (Some child))
  | _ => Err Panics
  end.

(** [WireCursor::next]; [continue] is the recursive call on a shorter stack. *)
Fixpoint cursor_next (stack : WireCursor) : enc_result (option Chunk * WireCursor) :=
  match stack with
  | [] => Ok (None, [])
  | FChunk chunk :: stack => Ok (Some chunk, stack)
  | FNode node depth :: stack =>
      l ← layout node depth;
      match l with
      | LAtom chunk => Ok (Some chunk, stack)
      | LBytes b =>
          stack ← cursor_push (FChunk (Borrowed b)) stack;
          chunk ← Chunk_uint (len b);
          Ok (Some chunk, stack)
      | _ =>
          header ← match l with
                   | LUnion tag _ => Ok tag
                   | LRecord fields => Ok (RecordFields_len fields)
                   | LList values => Ok (Sequence_len values)
                   | _ => Err Panics
                   end;
          stack ← cursor_push (FChildren l 0 depth) stack;
          chunk ← Chunk_uint header;
          Ok (Some chunk, stack)
      end
  | FChildren l index depth :: stack =>
      child ← next_child l index;
      match child with
      | None => cursor_next stack
      | Some child =>
          length ← match child with None => Ok 0%N | Some n => measure_validated n (depth + 1) end;
          stack ← cursor_push (FChildren l (index + 1) depth) stack;
          stack ← match child with Some child => cursor_push (FNode child (depth + 1)) stack | None => Ok stack end;
          match l with
          | LRecord _ =>
              chunk ← Chunk_uint length;
              stack ← cursor_push (FChunk chunk) stack;
              chunk ← Chunk_uint (index + 1);
              Ok (Some chunk, stack)
          | _ => chunk ← Chunk_uint length; Ok (Some chunk, stack)
          end
      end
  end.

(** A chunk with the position reached in it *)
Abbreviation position := (option (Chunk * nat)).

Definition exhausted (p : position) : bool :=
  match p with Some (chunk, i) => bool_decide (i = length (Chunk_bytes chunk)) | None => false end.

Definition start (chunk : option Chunk) : position :=
  match chunk with Some chunk => Some (chunk, O) | None => None end.

Definition advance_cursor (cursor : WireCursor) : enc_result (position * WireCursor) :=
  next ← cursor_next cursor;
  Ok (start (fst next), snd next).

(** The loop of [compare_validated]; it runs out of fuel only as a panic. *)
Fixpoint compare_loop (fuel : nat) (left right : WireCursor) (a b : position) : enc_result comparison :=
  match fuel with
  | O => Err Panics
  | S fuel =>
      if exhausted a then '(a, left) ← advance_cursor left; compare_loop fuel left right a b
      else if exhausted b then '(b, right) ← advance_cursor right; compare_loop fuel left right a b
      else
        match a, b with
        | None, None => Ok Eq
        | None, Some _ => Ok Lt
        | Some _, None => Ok Gt
        | Some (ca, ai), Some (cb, bi) =>
            let common := Nat.min (length (Chunk_bytes ca) - ai) (length (Chunk_bytes cb) - bi) in
            match bytes_cmp (take common (drop ai (Chunk_bytes ca))) (take common (drop bi (Chunk_bytes cb))) with
            | Eq => compare_loop fuel left right (Some (ca, ai + common)) (Some (cb, bi + common))
            | order => Ok order
            end
        end
  end.

(** ** The reference encoding

    The tree of a value: what is on the wire, without depths, limits or
    chunks.  [wire_bytes] is the plain recursive encoder. *)

(** What the canonical form asks of a list: nothing, identifiers that ascend,
    entries whose encoded keys ascend. *)
Inductive ListKind : Type := KPlain | KIds | KMap.

Inductive wire : Type :=
| WAtom (content : enc_result bytes)
| WBytes (b : bytes)
| WUnion (tag : N) (payload : option wire)
| WRecord (fields : list wire)
| WList (kind : ListKind) (items : list wire).

Definition atom_bytes (content : enc_result bytes) : bytes := match content with Ok b => b | Err _ => [] end.
Definition framed (b : bytes) : bytes := encode_uvar (len b) ++ b.

Section wire_bytes.
Variable rec : wire -> bytes.
Fixpoint record_bytes (index : N) (fields : list wire) : bytes :=
  match fields with
  | [] => []
  | w :: fields => encode_uvar index ++ framed (rec w) ++ record_bytes (index + 1) fields
  end.
Fixpoint list_bytes (items : list wire) : bytes :=
  match items with
  | [] => []
  | w :: items => framed (rec w) ++ list_bytes items
  end.
End wire_bytes.

Fixpoint wire_bytes (w : wire) : bytes :=
  match w with
  | WAtom content => atom_bytes content
  | WBytes b => framed b
  | WUnion tag payload =>
      encode_uvar tag ++ framed match payload with Some w => wire_bytes w | None => [] end
  | WRecord fields => encode_uvar (len fields) ++ record_bytes wire_bytes 1 fields
  | WList _ items => encode_uvar (len items) ++ list_bytes wire_bytes items
  end.

(** The same bytes as the chunks a cursor gives. *)
Section wire_chunks.
Variable rec : wire -> list bytes.
Fixpoint record_chunks (index : N) (fields : list wire) : list bytes :=
  match fields with
  | [] => []
  | w :: fields => [encode_uvar index; encode_uvar (len (wire_bytes w))] ++ rec w ++ record_chunks (index + 1) fields
  end.
Fixpoint list_chunks (items : list wire) : list bytes :=
  match items with
  | [] => []
  | w :: items => [encode_uvar (len (wire_bytes w))] ++ rec w ++ list_chunks items
  end.
End wire_chunks.

Fixpoint wire_chunks (w : wire) : list bytes :=
  match w with
  | WAtom content => [atom_bytes content]
  | WBytes b => [encode_uvar (len b); b]
  | WUnion tag payload =>
      [encode_uvar tag;
       encode_uvar (len match payload with Some w => wire_bytes w | None => [] end)]
      ++ match payload with Some w => wire_chunks w | None => [] end
  | WRecord fields => encode_uvar (len fields) :: record_chunks wire_chunks 1 fields
  | WList _ items => encode_uvar (len items) :: list_chunks wire_chunks items
  end.

(** The trees of types and constants *)
Definition id_tree (id : N) : wire := WAtom (Ok (id_bytes id)).
Definition number_tree (n : N) : wire := WAtom (Chunk_bytes <$> Chunk_unsigned n).

Fixpoint type_tree (t : TypeExpr) : wire :=
  WUnion (TypeExpr_tag t)
    match t with
    | TUnit | TBool | TF32 | TF64 | TBytes | TText => None
    | TSInt w | TUInt w => Some (number_tree w)
    | TTuple items => Some (WList KPlain (type_tree <$> items))
    | TNamed definition arguments =>
        Some (WRecord [id_tree definition; WList KPlain (type_tree <$> arguments)])
    | TVector item | TOption item | TLocalCell item => Some (type_tree item)
    | TOrderedMap a b | TResult a b => Some (WRecord [type_tree a; type_tree b])
    | TFunctionRef parameters result effects =>
        Some (WRecord [WList KPlain (type_tree <$> parameters); type_tree result; WList KIds (id_tree <$> effects)])
    | TAdapterHandle id | TCapabilityToken id => Some (id_tree id)
    | TTypeParameter ordinal => Some (number_tree ordinal)
    | TBuiltinFailure kind => Some (number_tree (BuiltinFailureKind_tag kind))
    end.

Definition types_tree (l : list TypeExpr) : wire := WList KPlain (type_tree <$> l).
Definition option_tree (o : option wire) : wire := WUnion (if o is Some _ then 1 else 0)%N o.

Fixpoint value_tree (v : ConstValue) : wire :=
  match v with
  | mkConstValue t data =>
      WRecord [type_tree t;
        WUnion (ConstData_tag data)
          match data with
          | DUnit => None
          | DBool b => Some (WAtom (Ok (encode_bool b)))
          | DSInt x => Some (WAtom (Chunk_bytes <$> Chunk_signed x))
          | DUInt x => Some (number_tree x)
          | DF32Bits x => Some (WAtom (map_err Fails (encode_f32_bits x)))
          | DF64Bits x => Some (WAtom (map_err Fails (encode_f64_bits x)))
          | DBytes b | DText b => Some (WBytes b)
          | DSequence items => Some (WList KPlain (value_tree <$> items))
          | DRecord r =>
              Some (WRecord [id_tree (rc_definition r);
                WList KPlain ((fun f => WRecord [id_tree (fc_member_id f); value_tree (fc_value f)]) <$> rc_fields r)])
          | DVariant x =>
              Some (WRecord [id_tree (vk_definition x); id_tree (vk_member_id x);
                option_tree (value_tree <$> vk_payload x)])
          | DMap entries =>
              Some (WList KMap ((fun e => WRecord [value_tree (me_key e); value_tree (me_value e)]) <$> entries))
          | DOption o => Some (option_tree (value_tree <$> o))
          | DResult r => Some (WUnion (ResultConst_tag r) (Some match r with ROk v | RErr v => value_tree v end))
          | DFunctionRef f => Some (WRecord [id_tree (frv_function f); types_tree (frv_type_arguments f)])
          | DBuiltinFailure f =>
              Some (WRecord [number_tree (BuiltinFailureKind_tag (bfv_kind f)); number_tree (bfv_code f)])
          end]
  end.

Definition data_tree (d : ConstData) : wire :=
  match value_tree (mkConstValue TUnit d) with WRecord [_; w] => w | w => w end.
Definition record_tree (r : RecordConst ConstValue) : wire :=
  WRecord [id_tree (rc_definition r);
    WList KPlain ((fun f => WRecord [id_tree (fc_member_id f); value_tree (fc_value f)]) <$> rc_fields r)].

Definition sequence_tree (s : Sequence) : wire :=
  match s with
  | SqTypes v => types_tree v
  | SqValues v => WList KPlain (value_tree <$> v)
  | SqFields v => WList KPlain ((fun f => WRecord [id_tree (fc_member_id f); value_tree (fc_value f)]) <$> v)
  | SqEntries v => WList KMap ((fun e => WRecord [value_tree (me_key e); value_tree (me_value e)]) <$> v)
  | SqIds v => WList KIds (id_tree <$> v)
  end.

Definition node_tree (n : Node) : wire :=
  match n with
  | NValue v => value_tree v
  | NData v => data_tree v
  | NType v => type_tree v
  | NNamed definition arguments => WRecord [id_tree definition; types_tree arguments]
  | NFunction parameters result effects =>
      WRecord [types_tree parameters; type_tree result; WList KIds (id_tree <$> effects)]
  | NFunctionRef v => WRecord [id_tree (frv_function v); types_tree (frv_type_arguments v)]
  | NFailure v => WRecord [number_tree (BuiltinFailureKind_tag (bfv_kind v)); number_tree (bfv_code v)]
  | NField v => WRecord [id_tree (fc_member_id v); value_tree (fc_value v)]
  | NRecord v => record_tree v
  | NVariant v =>
      WRecord [id_tree (vk_definition v); id_tree (vk_member_id v); option_tree (value_tree <$> vk_payload v)]
  | NEntry v => WRecord [value_tree (me_key v); value_tree (me_value v)]
  | NResult v => WUnion (ResultConst_tag v) (Some match v with ROk v | RErr v => value_tree v end)
  | NTypePair a b => WRecord [type_tree a; type_tree b]
  | NOption v => option_tree (value_tree <$> v)
  | NSequence v => sequence_tree v
  | NUInt v => number_tree v
  | NSInt v => WAtom (Chunk_bytes <$> Chunk_signed v)
  | NBool v => WAtom (Ok (encode_bool v))
  | NF32 v => WAtom (map_err Fails (encode_f32_bits v))
  | NF64 v => WAtom (map_err Fails (encode_f64_bits v))
  | NRaw v => WAtom (Ok v)
  | NBytes v => WBytes v
  end.

(** ** Encoding *)

(** Turns enough for every chunk of both sides, shown by
    [compare_validated_ok]. *)
Definition compare_fuel (left right : Node) : nat :=
  2 * (length (wire_chunks (node_tree left)) + length (wire_chunks (node_tree right))) + 3.

Definition compare_validated (left right : Node) (depth : N) : enc_result comparison :=
  a ← advance_cursor (WireCursor_new left depth);
  b ← advance_cursor (WireCursor_new right depth);
  compare_loop (compare_fuel left right) (snd a) (snd b) (fst a) (fst b).

Definition measure (node : Node) (depth : N) (canonical : bool) : enc_result N :=
  measure_fuel compare_validated (depth_fuel depth) node depth canonical.

Inductive ConstValueByteMeasure : Type :=
| MeasureExact (length : N)
| MeasureOverLimit.

Definition measure_value (value : ConstValue) (cap : N) : enc_result ConstValueByteMeasure :=
  length ← measure (NValue value) 0 true;
  Ok (if (length <=? cap)%N then MeasureExact length else MeasureOverLimit).

(** [while let Some(chunk) = cursor.next()?] *)
Fixpoint emit_loop (fuel : nat) (cursor : WireCursor) (out : bytes) : enc_result bytes :=
  match fuel with
  | O => Err Panics
  | S fuel =>
      next ← cursor_next cursor;
      match next with
      | (Some chunk, cursor) => emit_loop fuel cursor (out ++ Chunk_bytes chunk)
      | (None, _) => Ok out
      end
  end.

Definition encode (node : Node) (depth : N) : enc_result bytes :=
  length ← measure node depth true;
  out ← emit_loop (S (List.length (wire_chunks (node_tree node)))) (WireCursor_new node depth) [];
  if (len out =? length)%N then Ok out else limit.

(** [codec::encode_const_value]: [encode_exact] checks the depth and the total
    length around [ConstValue::encode_value], which is [encode]. *)
Definition encode_at_depth (node : Node) (depth : N) : enc_result bytes :=
  _ ← check_depth depth;
  encoded ← encode node depth;
  if (MAX_STANDALONE_BYTES <? len encoded)%N then limit else Ok encoded.
Definition encode_const_value (value : ConstValue) : enc_result bytes := encode_at_depth (NValue value) 0.
