(* ===== verification/ConstWire.v ===== *)
(** * The mutation codec: what the encoder of constants guarantees

    [encode] succeeds exactly on the values whose tree is within the limits and
    canonical, and then gives the plain recursive encoding [wire_bytes]; the
    cursor gives the chunks of that encoding in order, within its stack, and the
    comparison of two validated values is that of their encodings. *)

From S2P Require Import Prelude Bytes Ssmc Scb1Core Scb1Cursor ConstEncoding.
Set Warnings "-register-all".

(** ** Trees within the limits *)

(** [Forall], by recursion, for predicates on trees. *)
Section all_prop.
Context {A : Type} (P : A -> Prop).
Fixpoint all_prop (l : list A) : Prop :=
  match l with [] => True | x :: l => P x /\ all_prop l end.
End all_prop.

Lemma all_prop_Forall {A} (P : A -> Prop) l : all_prop P l <-> Forall P l.
Proof. induction l; simpl; [done|]. by rewrite Forall_cons, IHl. Qed.

(** The bytes the canonical form orders: identifiers, the keys of entries. *)
Definition entry_key (w : wire) : bytes :=
  match w with WRecord (key :: _) => wire_bytes key | _ => [] end.
Definition list_keys (kind : ListKind) (items : list wire) : list bytes :=
  match kind with KPlain => [] | KIds => wire_bytes <$> items | KMap => entry_key <$> items end.
Definition ascending : list bytes -> Prop := Sorted (fun a b => bytes_cmp a b = Lt).

Section wire_ok.
Variable canonical : bool.

(** The tree at [depth] is within the limits of the codec, and canonical when
    asked. *)
Fixpoint wire_ok (depth : N) (w : wire) : Prop :=
  (len (wire_bytes w) <= MAX_STANDALONE_BYTES)%N /\
  match w with
  | WAtom content => (depth <= MAX_NESTING_DEPTH)%N /\ exists b, content = Ok b
  | WBytes b => (depth <= MAX_NESTING_DEPTH)%N /\ (len b <= MAX_BYTE_PAYLOAD)%N
  | WUnion _ payload =>
      (depth < MAX_NESTING_DEPTH)%N /\ match payload with Some w => wire_ok (depth + 1) w | None => True end
  | WRecord fields => (depth < MAX_NESTING_DEPTH)%N /\ all_prop (wire_ok (depth + 1)) fields
  | WList kind items =>
      (depth < MAX_NESTING_DEPTH)%N /\ (len items <= MAX_COLLECTION_ELEMENTS)%N /\
      (canonical = true -> ascending (list_keys kind items)) /\ all_prop (wire_ok (depth + 1)) items
  end.
End wire_ok.

Lemma wire_ok_len c depth w : wire_ok c depth w -> (len (wire_bytes w) <= MAX_STANDALONE_BYTES)%N.
Proof. by destruct w; intros [? _]. Qed.

(** What the root asks of its depth *)
Definition root_ok (depth : N) (w : wire) : Prop :=
  match w with
  | WAtom content => (depth <= MAX_NESTING_DEPTH)%N /\ exists b, content = Ok b
  | WBytes b => (depth <= MAX_NESTING_DEPTH)%N /\ (len b <= MAX_BYTE_PAYLOAD)%N
  | _ => (depth < MAX_NESTING_DEPTH)%N
  end.

Lemma wire_ok_root c depth w : wire_ok c depth w -> root_ok depth w.
Proof. by destruct w; intros [_ H]; cbn; try (destruct H). Qed.

(** Canonical trees are within the limits. *)
Section wire_ind.
Variable P : wire -> Prop.
Hypothesis atom : forall c, P (WAtom c).
Hypothesis raw : forall b, P (WBytes b).
Hypothesis union : forall tag payload, (if payload is Some w then P w else True) -> P (WUnion tag payload).
Hypothesis record : forall fields, Forall P fields -> P (WRecord fields).
Hypothesis lst : forall kind items, Forall P items -> P (WList kind items).

Fixpoint wire_ind' (w : wire) : P w :=
  let fix all (l : list wire) : Forall P l :=
    match l with [] => Forall_nil_2 P | x :: l => Forall_cons_2 P x l (wire_ind' x) (all l) end in
  match w with
  | WAtom c => atom c
  | WBytes b => raw b
  | WUnion tag payload =>
      union tag payload
        (match payload return (if payload is Some w then P w else True) with
         | Some w => wire_ind' w | None => I end)
  | WRecord fields => record fields (all fields)
  | WList kind items => lst kind items (all items)
  end.
End wire_ind.

Lemma wire_ok_false depth w : wire_ok true depth w -> wire_ok false depth w.
Proof.
  revert depth. induction w using wire_ind'; intros depth; cbn [wire_ok]; [done..| | |].
  - intros (? & ? & Hw). split_and!; [done..|]. destruct payload; auto.
  - rewrite !all_prop_Forall. intros (? & ? & Hw). split_and!; [done..|].
    rewrite Forall_forall in *. auto.
  - rewrite !all_prop_Forall. intros (? & ? & ? & ? & Hw). split_and!; [done..|].
    rewrite Forall_forall in *. auto.
Qed.

(** ** Lengths of numbers *)

Lemma size_lt_pow n k : (n < 2 ^ k)%N <-> (N.size n <= k)%N.
Proof.
  destruct (N.eq_dec n 0%N) as [->|Hn].
  { cbn. split; [lia|intros _]. apply N.neq_0_lt_0, N.pow_nonzero. lia. }
  rewrite N.size_log2 by done. rewrite N.log2_lt_pow2 by lia. lia.
Qed.

Lemma uvar_len_groups fuel n :
  (n < 2 ^ (7 * N.of_nat fuel))%N -> (0 < fuel)%nat -> uvar_len n = len (uvar_groups fuel n).
Proof.
  revert n. induction fuel as [|fuel IH]; intros n Hn Hf; [lia|]. cbn [uvar_groups].
  rewrite N.shiftr_div_pow2. change (2 ^ 7)%N with 128%N.
  destruct (N.eqb_spec (n / 128) 0) as [E|E].
  - assert (n < 128)%N as Hs by (apply N.div_small_iff; lia). apply (size_lt_pow n 7) in Hs.
    unfold uvar_len. rewrite len_cons, len_nil. symmetry. apply (N.div_unique _ _ _ (N.max (N.size n) 1 - 1)); lia.
  - assert (128 <= n)%N as Hs by (rewrite N.div_small_iff in E by lia; lia).
    assert (0 < fuel)%nat as Hf'. { destruct fuel; [|lia]. cbn in Hn. lia. }
    rewrite len_cons, <- IH; [|by apply N.Div0.div_lt_upper_bound; rewrite <- (N.pow_add_r 2 7);
      replace (7 + 7 * N.of_nat fuel)%N with (7 * N.of_nat (S fuel))%N by lia|done].
    unfold uvar_len. assert (N.size (n / 128) + 7 = N.size n)%N as Hz.
      { rewrite !N.size_log2 by lia. change 128%N with (2 ^ 7)%N. rewrite <- N.shiftr_div_pow2, N.log2_shiftr.
        assert (7 <= N.log2 n)%N by (apply N.log2_le_pow2; lia). lia. }
      assert (1 <= N.size (n / 128))%N by (destruct (n / 128)%N; [done|cbn; lia]).
      rewrite !N.max_l by lia. rewrite <- Hz. replace (N.size (n / 128) + 7 + 6)%N with (N.size (n / 128) + 6 + 1 * 7)%N by lia.
      rewrite N.div_add by lia. lia.
Qed.

Lemma uvar_len_uvar n : (n < U64_LIMIT)%N -> uvar_len n = len (encode_uvar n).
Proof. intros Hn. apply (uvar_len_groups 10); [|lia]. unfold U64_LIMIT in Hn. change (2 ^ (7 * N.of_nat 10))%N with (2 ^ 64 * 64)%N. lia. Qed.

Lemma Chunk_uint_ok n : (n < U64_LIMIT)%N -> exists c, Chunk_uint n = Ok c /\ Chunk_bytes c = encode_uvar n.
Proof.
  intros Hn. unfold Chunk_uint. rewrite (proj2 (N.ltb_lt _ _) Hn). unfold Chunk_unsigned, filled.
  assert (n < 2 ^ 128)%N by (unfold U64_LIMIT in Hn; lia).
  rewrite encode_uvar128_into_spec by done. cbn [ok_or mbind result_bind].
  rewrite take_app_length. unfold Chunk_inline. pose proof (length_uvar_groups 19 n).
  replace (len (uvar_groups 19 n) <=? 32)%N with true by (unfold len; lia).
  eexists. split; [done|]. cbn [Chunk_bytes]. change (encode_uvar n) with (uvar_groups 10 n). apply uvar_groups_fuel; try lia.
  unfold U64_LIMIT in Hn. change (2 ^ (7 * N.of_nat 10))%N with (2 ^ 64 * 64)%N. lia.
Qed.

Lemma len_framed b : len (framed b) = (len (encode_uvar (len b)) + len b)%N.
Proof. unfold framed. by rewrite len_app. Qed.

Lemma add_small a b : (a + b < U64_LIMIT)%N -> add a b = Ok (a + b)%N.
Proof. intros H. unfold add, checked_add. by rewrite (proj2 (N.ltb_lt _ _) H). Qed.

Lemma add_Ok a b c : add a b = Ok c <-> c = (a + b)%N /\ (a + b < U64_LIMIT)%N.
Proof. unfold add. by rewrite ok_or_Ok, checked_add_Some. Qed.

(** [sized] of a measured length *)
Lemma sized_Ok n b c :
  n = len b -> (n <= MAX_STANDALONE_BYTES)%N -> sized n = Ok c <-> c = len (framed b).
Proof.
  intros -> Hn. unfold sized. unfold MAX_STANDALONE_BYTES in Hn.
  rewrite add_Ok, uvar_len_uvar, len_framed by (unfold U64_LIMIT; lia).
  split; [by intros [-> _]|]. intros ->. split; [done|].
  pose proof (length_uvar_groups 10 (len b)). change (encode_uvar (len b)) with (uvar_groups 10 (len b)).
  unfold U64_LIMIT, len in *. lia.
Qed.

(** ** The wire schema is the tree *)

(** The children of a record owner, and the layout a tree's root has. *)
Definition RecordFields_nodes (f : RecordFields) : list Node :=
  match f with
  | RfValue v => [NType (cv_type v); NData (cv_data v)]
  | RfNamed definition arguments => [NRaw (id_bytes definition); NSequence (SqTypes arguments)]
  | RfTypePair a b => [NType a; NType b]
  | RfFunction parameters result effects =>
      [NSequence (SqTypes parameters); NType result; NSequence (SqIds effects)]
  | RfFunctionRef v => [NRaw (id_bytes (frv_function v)); NSequence (SqTypes (frv_type_arguments v))]
  | RfFailure v => [NUInt (BuiltinFailureKind_tag (bfv_kind v)); NUInt (bfv_code v)]
  | RfField v => [NRaw (id_bytes (fc_member_id v)); NValue (fc_value v)]
  | RfRecord v => [NRaw (id_bytes (rc_definition v)); NSequence (SqFields (rc_fields v))]
  | RfVariant v => [NRaw (id_bytes (vk_definition v)); NRaw (id_bytes (vk_member_id v)); NOption (vk_payload v)]
  | RfEntry v => [NValue (me_key v); NValue (me_value v)]
  end.

Lemma RecordFields_len_nodes f : RecordFields_len f = len (RecordFields_nodes f).
Proof. by destruct f. Qed.

Lemma RecordFields_get_nodes f i n :
  RecordFields_nodes f !! i = Some n -> RecordFields_get f (N.of_nat i) = Ok n.
Proof. destruct f; destruct i as [|[|[|i]]]; cbn; intros; by simplify_eq. Qed.

Definition Sequence_nodes (s : Sequence) : list Node :=
  match s with
  | SqTypes v => NType <$> v
  | SqValues v => NValue <$> v
  | SqFields v => NField <$> v
  | SqEntries v => NEntry <$> v
  | SqIds v => (fun id => NRaw (id_bytes id)) <$> v
  end.
Definition Sequence_kind (s : Sequence) : ListKind :=
  match s with SqEntries _ => KMap | SqIds _ => KIds | _ => KPlain end.

Lemma Sequence_len_nodes s : Sequence_len s = len (Sequence_nodes s).
Proof. destruct s; cbn [Sequence_len Sequence_nodes]; by rewrite len_fmap. Qed.

Lemma Sequence_get_nodes s i n : Sequence_nodes s !! i = Some n -> Sequence_get s (N.of_nat i) = Ok n.
Proof.
  unfold Sequence_get. rewrite Nat2N.id. destruct s; cbn [Sequence_nodes]; rewrite list_lookup_fmap; by intros ->.
Qed.

Lemma ids_nodes_tree (ids : list EntityId) : node_tree <$> ((fun id => NRaw (id_bytes id)) <$> ids) = id_tree <$> ids.
Proof. by rewrite <- list_fmap_compose. Qed.

Lemma sequence_tree_eq s : sequence_tree s = WList (Sequence_kind s) (node_tree <$> Sequence_nodes s).
Proof. destruct s; cbn [sequence_tree Sequence_kind Sequence_nodes]; by rewrite <- list_fmap_compose. Qed.

Definition layout_tree (l : Layout) : wire :=
  match l with
  | LAtom chunk => WAtom (Ok (Chunk_bytes chunk))
  | LBytes b => WBytes b
  | LUnion tag payload => WUnion tag (node_tree <$> payload)
  | LRecord fields => WRecord (node_tree <$> RecordFields_nodes fields)
  | LList values => WList (Sequence_kind values) (node_tree <$> Sequence_nodes values)
  end.

(** What a consumer does with a layout *)
Definition consume {O} (consumer : WireConsumer O) (l : Layout) : enc_result O :=
  match l with
  | LAtom chunk => wc_atom consumer chunk
  | LBytes b => wc_bytes consumer b
  | LUnion tag payload => wc_union consumer tag payload
  | LRecord fields => wc_record consumer fields
  | LList values => wc_list consumer values
  end.

Lemma visit_layout {O} node depth (consumer : WireConsumer O) :
  visit node depth consumer = l ← layout node depth; consume consumer l.
Proof.
  unfold layout, visit. destruct (check_depth depth) as [[]|]; [|done]. cbn [mbind result_bind].
  destruct node; cbn [is_scalar mbind result_bind]; try (by destruct (check_container_depth depth) as [[]|]).
  - by destruct (Chunk_unsigned v).
  - by destruct (Chunk_signed v).
  - destruct (encode_f32_bits v) as [b|]; [|done]. cbn [map_err mbind result_bind]. by destruct (Chunk_inline b).
  - destruct (encode_f64_bits v) as [b|]; [|done]. cbn [map_err mbind result_bind]. by destruct (Chunk_inline b).
  - by destruct (MAX_BYTE_PAYLOAD <? len v)%N.
Qed.

Lemma type_payload_tree t : type_tree t = WUnion (TypeExpr_tag t) (node_tree <$> type_payload t).
Proof. by destruct t. Qed.

Lemma data_payload_tree d : data_tree d = WUnion (ConstData_tag d) (node_tree <$> data_payload d).
Proof. by destruct d. Qed.

Lemma value_tree_eq v : value_tree v = WRecord [type_tree (cv_type v); data_tree (cv_data v)].
Proof. by destruct v. Qed.

Lemma option_tree_eq o : option_tree (value_tree <$> o) = WUnion (if o is Some _ then 1 else 0)%N (node_tree <$> (NValue <$> o)).
Proof. by destruct o. Qed.

Lemma check_nesting_Ok d u : check_depth d = Ok u <-> (d <= MAX_NESTING_DEPTH)%N.
Proof. unfold check_depth. destruct u. destruct (N.ltb_spec MAX_NESTING_DEPTH d); split; (done || lia). Qed.
Lemma check_container_depth_Ok d u : check_container_depth d = Ok u <-> (d < MAX_NESTING_DEPTH)%N.
Proof. unfold check_container_depth. destruct u. destruct (N.leb_spec MAX_NESTING_DEPTH d); split; (done || lia). Qed.

(** Scalars are short: the small array holds them. *)
Lemma Chunk_inline_Ok b c : Chunk_inline b = Ok c -> c = Inline b.
Proof. unfold Chunk_inline. case_match; [by intros [= <-]|done]. Qed.

Lemma layout_Ok node depth l :
  layout node depth = Ok l -> root_ok depth (node_tree node) /\ node_tree node = layout_tree l.
Proof.
  unfold layout, visit. intros ([] & Hd%check_nesting_Ok & H)%bind_Ok. apply bind_Ok in H as ([] & Hc & H).
  assert (is_scalar node = false -> (depth < MAX_NESTING_DEPTH)%N) as Hc'.
  { intros E. rewrite E in Hc. by apply check_container_depth_Ok in Hc. } clear Hc.
  destruct node; cbn [is_scalar] in Hc'; try specialize (Hc' eq_refl);
    cbn [wc_record wc_union wc_list wc_atom wc_bytes BuildLayout] in H.
  all: try (injection H as <-; cbn [node_tree];
    first [by split | by destruct v | rewrite value_tree_eq; by split | rewrite data_payload_tree; by split
          | rewrite type_payload_tree; by split | rewrite option_tree_eq; by split | rewrite sequence_tree_eq; by split]).
  - apply bind_Ok in H as (c & Hc & [= <-]). cbn [node_tree]. unfold number_tree. rewrite Hc. cbn. eauto.
  - apply bind_Ok in H as (c & Hc & [= <-]). cbn [node_tree]. rewrite Hc. cbn. eauto.
  - apply bind_Ok in H as (c & ->%Chunk_inline_Ok & [= <-]). cbn. eauto.
  - apply bind_Ok in H as (b & Hb & H). apply bind_Ok in H as (c & ->%Chunk_inline_Ok & [= <-]).
    cbn [node_tree]. rewrite Hb. cbn. eauto.
  - apply bind_Ok in H as (b & Hb & H). apply bind_Ok in H as (c & ->%Chunk_inline_Ok & [= <-]).
    cbn [node_tree]. rewrite Hb. cbn. eauto.
  - injection H as <-. cbn. eauto.
  - destruct (N.ltb_spec MAX_BYTE_PAYLOAD (len v)); [done|]. injection H as <-. cbn. eauto.
Qed.

Lemma encode_f32_inline v b : encode_f32_bits v = Ok b -> Chunk_inline b = Ok (Inline b).
Proof. unfold encode_f32_bits. intros (? & _ & [= <-])%bind_Ok. done. Qed.
Lemma encode_f64_inline v b : encode_f64_bits v = Ok b -> Chunk_inline b = Ok (Inline b).
Proof. unfold encode_f64_bits. intros (? & _ & [= <-])%bind_Ok. done. Qed.

Lemma layout_complete node depth : root_ok depth (node_tree node) -> exists l, layout node depth = Ok l.
Proof.
  intros H. unfold layout, visit.
  assert ((depth <= MAX_NESTING_DEPTH)%N /\ (is_scalar node = false -> (depth < MAX_NESTING_DEPTH)%N)) as [Hd Hc].
  { destruct node; cbn [node_tree] in H;
      rewrite ?value_tree_eq, ?data_payload_tree, ?type_payload_tree, ?option_tree_eq, ?sequence_tree_eq in H;
      cbn [root_ok number_tree record_tree] in H; cbn [is_scalar];
      (split; [|intros ?]); first [done | lia | destruct H; lia]. }
  rewrite (proj2 (check_nesting_Ok depth tt) Hd). cbn [mbind result_bind].
  destruct node; cbn [is_scalar] in Hc; try specialize (Hc eq_refl); cbn [is_scalar];
    rewrite ?(proj2 (check_container_depth_Ok depth tt) Hc); cbn [mbind result_bind]; try by eexists.
  - destruct H as [_ [b H]]. cbn in H. destruct (Chunk_unsigned v); [by eexists|done].
  - destruct H as [_ [b H]]. cbn in H. destruct (Chunk_signed v); [by eexists|done].
  - destruct H as [_ [b H]]. cbn [node_tree] in H. destruct (encode_f32_bits v) eqn:E; [|done].
    cbn [map_err mbind result_bind]. rewrite (encode_f32_inline _ _ E). by eexists.
  - destruct H as [_ [b H]]. cbn [node_tree] in H. destruct (encode_f64_bits v) eqn:E; [|done].
    cbn [map_err mbind result_bind]. rewrite (encode_f64_inline _ _ E). by eexists.
  - destruct H as [_ H]. destruct (N.ltb_spec MAX_BYTE_PAYLOAD (len v)); [lia|]. by eexists.
Qed.

(** ** Measuring *)

Lemma indices_len {A} (l : list A) : indices (len l) = N.of_nat <$> seq 0 (length l).
Proof. unfold indices, len. by rewrite Nat2N.id. Qed.

(** A loop that measures children and adds their framed lengths: [get i] is the
    measured length of child [i], [extra i] the length of what precedes it. *)
Section length_loop.
Context (get : N -> enc_result N) (extra : N -> option bytes).

Definition framed_length (length index : N) : enc_result N :=
  child_length ← get index;
  body ← sized child_length;
  match extra index with
  | Some b => framed ← add (len b) body; add length framed
  | None => add length body
  end.

Fixpoint loop_bytes (index : N) (items : list wire) : bytes :=
  match items with
  | [] => []
  | w :: items => default [] (extra index) ++ framed (wire_bytes w) ++ loop_bytes (index + 1) items
  end.

(** [Q i w] is what the measurement of child [i] accepts, once the children
    before it are accepted. *)
Context (items : list wire) (Q : nat -> wire -> Prop).
Hypothesis Q_len : forall i w, Q i w -> (len (wire_bytes w) <= MAX_STANDALONE_BYTES)%N.
Hypothesis get_spec : forall i w n,
  items !! i = Some w -> (forall j v, (j < i)%nat -> items !! j = Some v -> Q j v) ->
  get (N.of_nat i) = Ok n <-> Q i w /\ n = len (wire_bytes w).

Lemma framed_length_Ok i w acc n :
  items !! i = Some w -> (forall j v, (j < i)%nat -> items !! j = Some v -> Q j v) ->
  framed_length acc (N.of_nat i) = Ok n ->
  Q i w /\ n = (acc + len (default [] (extra (N.of_nat i))) + len (framed (wire_bytes w)))%N.
Proof using Q_len get_spec.
  intros Hi Hprev H. unfold framed_length in H.
  apply bind_Ok in H as (c & Hc & H). apply get_spec with (w := w) in Hc as [HQ ->]; [|done..].
  apply bind_Ok in H as (b & Hb & H). rewrite sized_Ok in Hb by eauto. subst b.
  split; [done|]. destruct (extra (N.of_nat i)); cbn [default from_option id].
  - apply bind_Ok in H as (f & [-> _]%add_Ok & [-> _]%add_Ok). lia.
  - apply add_Ok in H as [-> _]. rewrite len_nil. lia.
Qed.

Lemma framed_length_complete i w acc :
  items !! i = Some w -> (forall j v, (j < i)%nat -> items !! j = Some v -> Q j v) -> Q i w ->
  (acc + len (default [] (extra (N.of_nat i))) + len (framed (wire_bytes w)) < U64_LIMIT)%N ->
  framed_length acc (N.of_nat i)
  = Ok (acc + len (default [] (extra (N.of_nat i))) + len (framed (wire_bytes w)))%N.
Proof using Q_len get_spec.
  intros Hi Hprev HQ Hlt. unfold framed_length. rewrite (proj2 (get_spec i w _ Hi Hprev) (conj HQ eq_refl)).
  cbn [mbind result_bind]. rewrite (proj2 (sized_Ok _ (wire_bytes w) _ eq_refl (Q_len _ _ HQ)) eq_refl).
  cbn [mbind result_bind]. destruct (extra (N.of_nat i)); cbn [default from_option id] in *.
  - assert (add (len l) (len (framed (wire_bytes w))) = Ok (len l + len (framed (wire_bytes w)))%N) as ->
      by (apply add_Ok; lia). apply add_Ok. lia.
  - apply add_Ok. rewrite len_nil in *. lia.
Qed.

Lemma lengths_from pre suf acc n :
  items = pre ++ suf -> (forall j v, (j < length pre)%nat -> items !! j = Some v -> Q j v) ->
  fold_res framed_length acc (N.of_nat <$> seq (length pre) (length suf)) = Ok n ->
  (forall i w, items !! i = Some w -> Q i w) /\ n = (acc + len (loop_bytes (len pre) suf))%N.
Proof using Q_len get_spec.
  revert pre acc. induction suf as [|w suf IH]; intros pre acc E Hprev H; cbn in H.
  { injection H as <-. split; [|cbn; rewrite len_nil; lia]. intros i v Hi. apply Hprev; [|done].
    rewrite E, app_nil_r in Hi. by eapply lookup_lt_Some. }
  apply bind_Ok in H as (m & Hm & H).
  assert (items !! length pre = Some w) as Hw by (rewrite E; by apply list_lookup_middle).
  apply framed_length_Ok with (w := w) in Hm as [HQ ->]; [|done..].
  replace (S (length pre)) with (length (pre ++ [w])) in H by (rewrite length_app; cbn; lia).
  apply IH in H as [HQs ->].
  - split; [done|]. cbn [loop_bytes]. rewrite len_app, len_cons, len_nil, !len_app.
    change (N.of_nat (length pre)) with (len pre). replace (len pre + (1 + 0))%N with (len pre + 1)%N by lia. lia.
  - by rewrite <- app_assoc.
  - intros j v Hj Hv. rewrite length_app in Hj. cbn in Hj.
    destruct (decide (j = length pre)) as [->|]; [by simplify_eq|]. apply Hprev; [lia|done].
Qed.

Lemma lengths_complete_from pre suf acc :
  items = pre ++ suf -> (forall i w, items !! i = Some w -> Q i w) ->
  (acc + len (loop_bytes (len pre) suf) < U64_LIMIT)%N ->
  fold_res framed_length acc (N.of_nat <$> seq (length pre) (length suf))
  = Ok (acc + len (loop_bytes (len pre) suf))%N.
Proof using Q_len get_spec.
  revert pre acc. induction suf as [|w suf IH]; intros pre acc E HQ Hlt; cbn [length seq fmap list_fmap fold_res].
  { cbn. rewrite len_nil. f_equal. lia. }
  cbn [loop_bytes] in *. rewrite !len_app in *.
  assert (items !! length pre = Some w) as Hw by (rewrite E; by apply list_lookup_middle).
  pose proof (framed_length_complete (length pre) w acc Hw) as Hf.
  change (N.of_nat (length pre)) with (len pre) in *. rewrite Hf; [|by eauto|by eauto|lia].
  cbn [mbind result_bind].
  replace (S (length pre)) with (length (pre ++ [w])) by (rewrite length_app; cbn; lia).
  assert (len (pre ++ [w]) = len pre + 1)%N as El by (rewrite len_app, len_cons, len_nil; lia).
  rewrite IH; rewrite ?El; [|by rewrite <- app_assoc|done|lia]. f_equal. lia.
Qed.

Lemma lengths_Ok acc n :
  fold_res framed_length acc (indices (len items)) = Ok n ->
  (forall i w, items !! i = Some w -> Q i w) /\ n = (acc + len (loop_bytes 0 items))%N.
Proof using Q_len get_spec. rewrite indices_len. apply (lengths_from [] items); [done|]. cbn. lia. Qed.

Lemma lengths_complete acc :
  (forall i w, items !! i = Some w -> Q i w) -> (acc + len (loop_bytes 0 items) < U64_LIMIT)%N ->
  fold_res framed_length acc (indices (len items)) = Ok (acc + len (loop_bytes 0 items))%N.
Proof using Q_len get_spec. intros. rewrite indices_len. by apply (lengths_complete_from [] items). Qed.
End length_loop.

Lemma loop_bytes_list items i : loop_bytes (fun _ => None) i items = list_bytes wire_bytes items.
Proof. revert i. induction items as [|w items IH]; intros i; [done|]. cbn. by rewrite IH. Qed.

Lemma loop_bytes_record items i :
  loop_bytes (fun i => Some (encode_uvar (i + 1))) i items = record_bytes wire_bytes (i + 1) items.
Proof. revert i. induction items as [|w items IH]; intros i; [done|]. cbn [loop_bytes record_bytes default from_option id]. by rewrite IH. Qed.

Lemma elem_of_indices i n : i ∈ indices n <-> (i < n)%N.
Proof.
  unfold indices. rewrite list_elem_of_fmap. split.
  - intros (k & -> & Hk%elem_of_seq). lia.
  - intros Hi. exists (N.to_nat i). split; [lia|]. apply elem_of_seq. lia.
Qed.

Lemma all_prop_lookup {A} (P : A -> Prop) l : all_prop P l <-> forall i x, l !! i = Some x -> P x.
Proof. by rewrite all_prop_Forall, Forall_lookup. Qed.

(** Consecutive elements in order *)
Lemma Sorted_lookup {A} (R : A -> A -> Prop) l :
  Sorted R l <-> forall i a b, l !! i = Some a -> l !! S i = Some b -> R a b.
Proof.
  induction l as [|x l IH]; [split; [done|constructor]|]. split.
  - intros H i a b Ha Hb. apply Sorted_inv in H as [H Hd]. destruct i as [|i]; cbn in *.
    + simplify_eq. destruct l; [done|]. cbn in Hb. simplify_eq. by inversion Hd.
    + by eapply IH.
  - intros H. constructor.
    + apply IH. intros i a b Ha Hb. by apply (H (S i)).
    + destruct l as [|y l]; constructor. by apply (H 0%nat).
Qed.

Lemma ensure_increasing_Ok c u : ensure_increasing c = Ok u <-> c = Lt.
Proof. destruct u. by destruct c. Qed.

Lemma validate_ids_Ok ids u :
  validate_entity_id_set_order ids = Ok u <-> ascending (list_keys KIds (id_tree <$> ids)).
Proof.
  assert (list_keys KIds (id_tree <$> ids) = id_bytes <$> ids) as ->.
  { cbn [list_keys]. rewrite <- list_fmap_compose. by apply list_fmap_ext. }
  unfold validate_entity_id_set_order, ascending. destruct u.
  enough (forall previous, validate_ids_from previous ids = Ok tt <->
    Sorted (fun a b => bytes_cmp a b = Lt) (option_list (id_bytes <$> previous) ++ (id_bytes <$> ids))) as H by apply (H None).
  induction ids as [|id ids IH]; intros previous.
  { cbn. rewrite app_nil_r. destruct previous; cbn; split; repeat constructor. }
  cbn [validate_ids_from]. rewrite bind_Ok. destruct previous as [p|]; cbn [fmap option_fmap option_map option_list].
  - setoid_rewrite IH. cbn. split.
    + intros ([] & Hlt%ensure_increasing_Ok & Hs). constructor; [done|]. by constructor.
    + intros [Hs Hd]%Sorted_inv. inversion Hd; simplify_eq. exists tt. by rewrite ensure_increasing_Ok.
  - setoid_rewrite IH. cbn. split; [by intros ([] & _ & ?)|]. intros. by exists tt.
Qed.

Section measure_spec.
Variable canonical : bool.

(** What a measurement at one level says of the children's *)
Definition measures (rec : Node -> N -> bool -> enc_result N) (depth : N) : Prop :=
  forall node n, rec node depth canonical = Ok n <->
    wire_ok canonical depth (node_tree node) /\ n = len (wire_bytes (node_tree node)).

Section level.
Variables (rec : Node -> N -> bool -> enc_result N) (depth : N).
Hypothesis rec_spec : measures rec (depth + 1).

(** [first] is the length of the first field, already measured. *)
Lemma measure_record_loop fields first :
  (forall l, first = Some l -> exists node, RecordFields_nodes fields !! 0%nat = Some node /\
     rec node (depth + 1)%N canonical = Ok l) ->
  measure_record rec fields depth canonical first
  = fold_res (framed_length (fun index => child ← RecordFields_get fields index; rec child (depth + 1)%N canonical)
      (fun i => Some (encode_uvar (i + 1))))
      (len (encode_uvar (len (RecordFields_nodes fields)))) (indices (len (node_tree <$> RecordFields_nodes fields))).
Proof using Type.
  intros Hfirst. unfold measure_record. rewrite RecordFields_len_nodes, len_fmap.
  assert (len (RecordFields_nodes fields) < U64_LIMIT)%N as Hl by by destruct fields.
  rewrite uvar_len_uvar by done. apply fold_res_ext_in. intros acc i Hi%elem_of_indices. unfold framed_length.
  assert (match first with
          | Some length => if (i =? 0)%N then Ok length
                           else child ← RecordFields_get fields i; rec child (depth + 1)%N canonical
          | None => child ← RecordFields_get fields i; rec child (depth + 1)%N canonical
          end = child ← RecordFields_get fields i; rec child (depth + 1)%N canonical) as ->.
  { destruct first as [l|]; [|done]. destruct (N.eqb_spec i 0) as [->|]; [|done].
    destruct (Hfirst _ eq_refl) as (node & Hn & <-).
    change 0%N with (N.of_nat 0). by rewrite (RecordFields_get_nodes _ _ _ Hn). }
  rewrite uvar_len_uvar; [done|]. unfold U64_LIMIT in *.
  enough (len (RecordFields_nodes fields) <= 3)%N by lia. by destruct fields.
Qed.

Lemma record_child_spec fields i w n :
  (node_tree <$> RecordFields_nodes fields) !! i = Some w ->
  (child ← RecordFields_get fields (N.of_nat i); rec child (depth + 1)%N canonical) = Ok n <->
  wire_ok canonical (depth + 1) w /\ n = len (wire_bytes w).
Proof using rec_spec.
  rewrite list_lookup_fmap. destruct (RecordFields_nodes fields !! i) as [node|] eqn:E; [|done].
  intros [= <-]. rewrite (RecordFields_get_nodes _ _ _ E). cbn [mbind result_bind]. apply rec_spec.
Qed.

Lemma measure_record_Ok fields first n :
  (forall l, first = Some l -> exists node, RecordFields_nodes fields !! 0%nat = Some node /\
     rec node (depth + 1)%N canonical = Ok l) ->
  measure_record rec fields depth canonical first = Ok n ->
  all_prop (wire_ok canonical (depth + 1)) (node_tree <$> RecordFields_nodes fields) /\
  n = len (wire_bytes (WRecord (node_tree <$> RecordFields_nodes fields))).
Proof using rec_spec.
  intros Hfirst. rewrite measure_record_loop by done. intros H.
  apply (lengths_Ok _ _ _ (fun _ => wire_ok canonical (depth + 1))) in H as [HQ ->].
  - split; [by apply all_prop_lookup|]. cbn [wire_bytes]. rewrite len_app, loop_bytes_record, len_fmap. done.
  - intros _ w. apply wire_ok_len.
  - intros i w m Hi _. by apply record_child_spec.
Qed.

Lemma measure_record_complete fields first :
  (forall l, first = Some l -> exists node, RecordFields_nodes fields !! 0%nat = Some node /\
     rec node (depth + 1)%N canonical = Ok l) ->
  all_prop (wire_ok canonical (depth + 1)) (node_tree <$> RecordFields_nodes fields) ->
  (len (wire_bytes (WRecord (node_tree <$> RecordFields_nodes fields))) <= MAX_STANDALONE_BYTES)%N ->
  measure_record rec fields depth canonical first
  = Ok (len (wire_bytes (WRecord (node_tree <$> RecordFields_nodes fields)))).
Proof using rec_spec.
  intros Hfirst HQ Hl. rewrite measure_record_loop by done.
  assert (len (wire_bytes (WRecord (node_tree <$> RecordFields_nodes fields)))
          = len (encode_uvar (len (RecordFields_nodes fields)))
            + len (loop_bytes (fun i => Some (encode_uvar (i + 1))) 0 (node_tree <$> RecordFields_nodes fields)))%N as E.
  { cbn [wire_bytes]. by rewrite len_app, len_fmap, (loop_bytes_record _ 0). }
  rewrite E in *. apply (lengths_complete _ _ _ (fun _ => wire_ok canonical (depth + 1))).
  - intros _ w. apply wire_ok_len.
  - intros i w m Hi _. by apply record_child_spec.
  - by apply all_prop_lookup.
  - unfold MAX_STANDALONE_BYTES, U64_LIMIT in *. lia.
Qed.

Lemma entry_ok_inv e :
  wire_ok canonical (depth + 1) (node_tree (NEntry e)) <->
  (depth + 1 < MAX_NESTING_DEPTH)%N /\ wire_ok canonical (depth + 2) (value_tree (me_key e)) /\
  wire_ok canonical (depth + 2) (value_tree (me_value e)) /\
  (len (wire_bytes (node_tree (NEntry e))) <= MAX_STANDALONE_BYTES)%N.
Proof using Type.
  cbn [node_tree wire_ok all_prop]. replace (depth + 1 + 1)%N with (depth + 2)%N by lia. tauto.
Qed.
End level.

Section list_level.
Variables (rec : Node -> N -> bool -> enc_result N) (depth : N).
Hypothesis rec_spec : measures rec (depth + 1).

(** Lists: [compare] agrees with the order of the encodings, on validated
    values. *)
Variable compare : Node -> Node -> N -> enc_result comparison.
Hypothesis compare_spec : canonical = true -> forall l r,
  wire_ok false (depth + 2) (node_tree l) -> wire_ok false (depth + 2) (node_tree r) ->
  compare l r (depth + 2)%N = Ok (bytes_cmp (wire_bytes (node_tree l)) (wire_bytes (node_tree r))).
Hypothesis rec_spec2 : measures rec (depth + 2).

Definition list_get (values : Sequence) (index : N) : enc_result N :=
  match values, canonical with
  | SqEntries entries, true => measure_entry compare rec entries index depth
  | _, _ => child ← Sequence_get values index; rec child (depth + 1)%N canonical
  end.

(** What the measurement of element [i] accepts: the element, and its key after
    the key before it. *)
Definition element_ok (values : Sequence) (i : nat) (w : wire) : Prop :=
  wire_ok canonical (depth + 1) w /\
  (canonical = true -> Sequence_kind values = KMap ->
   forall j v, i = S j -> (node_tree <$> Sequence_nodes values) !! j = Some v ->
   bytes_cmp (entry_key v) (entry_key w) = Lt).


Lemma layout_entry e d :
  layout (NEntry e) d = if (d <? MAX_NESTING_DEPTH)%N then Ok (LRecord (RfEntry e)) else limit.
Proof using Type.
  clear compare compare_spec rec_spec2 rec_spec.
  unfold layout, visit, check_depth, check_container_depth. cbn [is_scalar].
  destruct (N.ltb_spec MAX_NESTING_DEPTH d), (N.ltb_spec d MAX_NESTING_DEPTH); try lia; cbn [mbind result_bind];
    destruct (N.leb_spec MAX_NESTING_DEPTH d); (done || lia).
Qed.

Lemma previous_order (entries : list (MapEntryConst ConstValue)) i e :
  canonical = true -> entries !! i = Some e ->
  wire_ok canonical (depth + 2) (value_tree (me_key e)) ->
  (forall j v, (j < i)%nat -> (node_tree <$> (NEntry <$> entries)) !! j = Some v -> wire_ok canonical (depth + 1) v) ->
  (if (0 <? N.of_nat i)%N then
     previous ← ok_or Panics (entries !! N.to_nat (N.of_nat i - 1));
     order ← compare (NValue (me_key previous)) (NValue (me_key e)) (depth + 2)%N;
     ensure_increasing order
   else Ok tt) = Ok tt <->
  (forall j v, i = S j -> (node_tree <$> (NEntry <$> entries)) !! j = Some v ->
   bytes_cmp (entry_key v) (wire_bytes (value_tree (me_key e))) = Lt).
Proof using compare_spec.
  intros Hc He Hkey Hprev. destruct i as [|i].
  { replace (0 <? N.of_nat 0)%N with false by done. split; [|done]. intros _ j v ?. lia. }
  replace (0 <? N.of_nat (S i))%N with true by lia. replace (N.to_nat (N.of_nat (S i) - 1)) with i by lia.
  destruct (entries !! i) as [p|] eqn:Hp; [|exfalso; apply lookup_ge_None in Hp; apply lookup_lt_Some in He; lia].
  cbn [ok_or mbind result_bind].
  assert (forall v, (node_tree <$> (NEntry <$> entries)) !! i = Some v <-> v = node_tree (NEntry p)) as Hv.
  { intros v. rewrite !list_lookup_fmap, Hp. cbn. split; [by intros [= <-]|by intros ->]. }
  assert (wire_ok canonical (depth + 1) (node_tree (NEntry p))) as Hpok by (apply (Hprev i); [lia|by apply Hv]).
  apply (entry_ok_inv depth) in Hpok as (_ & Hpk & _). rewrite Hc in Hpk, Hkey.
  rewrite compare_spec; [|done|by apply wire_ok_false..]. cbn [mbind result_bind node_tree].
  rewrite ensure_increasing_Ok. split.
  - intros Hlt j v [= <-] ->%Hv. done.
  - intros H. by apply (H i (node_tree (NEntry p)) eq_refl), Hv.
Qed.

Lemma measure_entry_Ok (entries : list (MapEntryConst ConstValue)) i e n :
  canonical = true -> entries !! i = Some e ->
  (forall j v, (j < i)%nat -> (node_tree <$> (NEntry <$> entries)) !! j = Some v -> wire_ok canonical (depth + 1) v) ->
  measure_entry compare rec entries (N.of_nat i) depth = Ok n <->
  element_ok (SqEntries entries) i (node_tree (NEntry e)) /\ n = len (wire_bytes (node_tree (NEntry e))).
Proof using compare_spec rec_spec2.
  intros Hc He Hprev. unfold measure_entry, element_ok. rewrite Nat2N.id, He. cbn [ok_or mbind result_bind].
  assert (measures rec (depth + 1 + 1)) as Hrec by (by replace (depth + 1 + 1)%N with (depth + 2)%N by lia).
  assert (forall n, rec (NValue (me_key e)) (depth + 2)%N true = Ok n <->
    wire_ok canonical (depth + 2) (value_tree (me_key e)) /\ n = len (wire_bytes (value_tree (me_key e)))) as Hk.
  { intros m. pose proof (rec_spec2 (NValue (me_key e)) m) as H. by rewrite Hc in *. }
  assert (forall l, Some (len (wire_bytes (value_tree (me_key e)))) = Some l ->
    wire_ok canonical (depth + 2) (value_tree (me_key e)) ->
    exists node, RecordFields_nodes (RfEntry e) !! 0%nat = Some node /\ rec node (depth + 1 + 1)%N canonical = Ok l) as Hfirst.
  { intros l [= <-] Hkey. eexists. split; [done|]. replace (depth + 1 + 1)%N with (depth + 2)%N by lia.
    rewrite Hc. by apply Hk. }
  split.
  - intros H. apply bind_Ok in H as (kl & [Hkey ->]%Hk & H). apply bind_Ok in H as ([] & Hord & H).
    pose proof (proj1 (previous_order entries i e Hc He Hkey Hprev) Hord) as Hord2. clear Hord. rename Hord2 into Hord.
    rewrite layout_entry in H. destruct (N.ltb_spec (depth + 1) MAX_NESTING_DEPTH); [|done].
    cbn [mbind result_bind] in H. apply bind_Ok in H as (m & Hm & H).
    rewrite <- Hc in Hm. apply (measure_record_Ok rec (depth + 1) Hrec) in Hm as [HQ ->]; [|by eauto].
    unfold checked_length in H. destruct (N.ltb_spec MAX_STANDALONE_BYTES (len (wire_bytes (WRecord (node_tree <$> RecordFields_nodes (RfEntry e))))));
      [done|]. injection H as <-. split; [|done]. split.
    + apply entry_ok_inv. destruct HQ as (? & ? & _). cbn [node_tree] in *.
      replace (depth + 1 + 1)%N with (depth + 2)%N in * by lia. done.
    + intros _ _ j v Hj Hv. by eapply Hord.
  - intros [[Hok Hord] ->]. apply entry_ok_inv in Hok as (Hd & Hkey & Hval & Hl).
    rewrite (proj2 (Hk _) (conj Hkey eq_refl)). cbn [mbind result_bind].
    rewrite (proj2 (previous_order entries i e Hc He Hkey Hprev)); [|intros j v Hj Hv; by eapply (Hord Hc)].
    cbn [mbind result_bind]. rewrite layout_entry, (proj2 (N.ltb_lt _ _) Hd). cbn [mbind result_bind].
    rewrite <- Hc. rewrite (measure_record_complete rec (depth + 1) Hrec (RfEntry e)); [|by eauto| |done].
    + cbn [mbind result_bind]. unfold checked_length.
      destruct (N.ltb_spec MAX_STANDALONE_BYTES (len (wire_bytes (WRecord (node_tree <$> RecordFields_nodes (RfEntry e))))));
        [|done]. cbn [node_tree] in Hl. cbn [RecordFields_nodes fmap list_fmap node_tree] in *. lia.
    + replace (depth + 1 + 1)%N with (depth + 2)%N by lia. done.
Qed.

Lemma list_get_spec values i w n :
  (node_tree <$> Sequence_nodes values) !! i = Some w ->
  (forall j v, (j < i)%nat -> (node_tree <$> Sequence_nodes values) !! j = Some v -> element_ok values j v) ->
  list_get values (N.of_nat i) = Ok n <-> element_ok values i w /\ n = len (wire_bytes w).
Proof using compare_spec rec_spec rec_spec2.
  intros Hw Hprev. rewrite list_lookup_fmap in Hw.
  destruct (Sequence_nodes values !! i) as [node|] eqn:Hi; [|done]. injection Hw as <-.
  assert ((canonical = true -> Sequence_kind values <> KMap) ->
    (child ← Sequence_get values (N.of_nat i); rec child (depth + 1)%N canonical) = Ok n <->
    element_ok values i (node_tree node) /\ n = len (wire_bytes (node_tree node))) as Hplain.
  { intros Hk. rewrite (Sequence_get_nodes _ _ _ Hi). cbn [mbind result_bind]. rewrite (rec_spec node n).
    unfold element_ok. naive_solver. }
  destruct values; try (by apply Hplain).
  assert (canonical = true \/ canonical = false) as [Hc|Hc] by (destruct canonical; auto).
  2: { rewrite <- Hplain by congruence. unfold list_get. by rewrite Hc. }
  replace (list_get (SqEntries v) (N.of_nat i)) with (measure_entry compare rec v (N.of_nat i) depth)
    by (unfold list_get; by rewrite Hc).
  cbn [Sequence_nodes] in *. rewrite list_lookup_fmap in Hi.
  destruct (v !! i) as [e|] eqn:He; [|done]. injection Hi as <-.
  apply (measure_entry_Ok v i e n Hc He). intros j x Hj Hx. by eapply Hprev.
Qed.

Lemma measure_list_loop values :
  (len (Sequence_nodes values) < U64_LIMIT)%N ->
  measure_list compare rec values depth canonical =
    _ ← match values with
        | SqIds ids => if canonical then validate_entity_id_set_order ids else Ok tt
        | _ => Ok tt
        end;
    length ← fold_res (framed_length (list_get values) (fun _ => None))
      (len (encode_uvar (len (Sequence_nodes values)))) (indices (len (node_tree <$> Sequence_nodes values)));
    if (MAX_COLLECTION_ELEMENTS <? len (Sequence_nodes values))%N then limit else Ok length.
Proof using Type.
  intros Hl. unfold measure_list. rewrite Sequence_len_nodes, len_fmap, uvar_len_uvar by done.
  by destruct values.
Qed.

Lemma element_order values :
  (canonical = true -> match values with SqIds ids => ascending (list_keys KIds (id_tree <$> ids)) | _ => True end) ->
  (forall i w, (node_tree <$> Sequence_nodes values) !! i = Some w -> element_ok values i w) <->
  all_prop (wire_ok canonical (depth + 1)) (node_tree <$> Sequence_nodes values) /\
  (canonical = true -> ascending (list_keys (Sequence_kind values) (node_tree <$> Sequence_nodes values))).
Proof using Type.
  clear compare compare_spec rec_spec2 rec_spec. intros Hids. rewrite all_prop_lookup. split.
  - intros H. split; [intros i w Hi; by apply (H i w Hi)|]. intros Hc.
    destruct (Sequence_kind values) eqn:Hk; cbn [list_keys]; [constructor| |].
    { destruct values; try done. specialize (Hids Hc). cbn [Sequence_nodes]. by rewrite ids_nodes_tree. }
    cbn [list_keys].
    apply Sorted_lookup. intros i a b Ha Hb.
    apply list_lookup_fmap_Some in Ha as (v & -> & Hv). apply list_lookup_fmap_Some in Hb as (w & -> & Hw).
    destruct (H (S i) w Hw) as [_ Hlt]. by apply (Hlt Hc Hk i).
  - intros [Hok Hasc] i w Hi. split; [by eapply Hok|]. intros Hc Hk j v -> Hv. specialize (Hasc Hc).
    rewrite Hk in Hasc. cbn [list_keys] in Hasc. unfold ascending in Hasc. rewrite Sorted_lookup in Hasc.
    eapply (Hasc j); by rewrite list_lookup_fmap, ?Hv, ?Hi.
Qed.

Lemma measure_list_Ok values n :
  measure_list compare rec values depth canonical = Ok n ->
  (len (Sequence_nodes values) <= MAX_COLLECTION_ELEMENTS)%N /\
  (canonical = true -> ascending (list_keys (Sequence_kind values) (node_tree <$> Sequence_nodes values))) /\
  all_prop (wire_ok canonical (depth + 1)) (node_tree <$> Sequence_nodes values) /\
  n = len (wire_bytes (sequence_tree values)).
Proof using compare_spec rec_spec rec_spec2.
  intros H. assert (len (Sequence_nodes values) <= MAX_COLLECTION_ELEMENTS)%N as Hn.
  { apply bind_Ok in H as (_ & _ & H). apply bind_Ok in H as (m & _ & H).
    rewrite <- Sequence_len_nodes. by destruct (N.ltb_spec MAX_COLLECTION_ELEMENTS (Sequence_len values)). }
  rewrite measure_list_loop in H by (unfold MAX_COLLECTION_ELEMENTS, U64_LIMIT in *; lia).
  apply bind_Ok in H as ([] & Hids & H). apply bind_Ok in H as (m & Hm & H).
  destruct (N.ltb_spec MAX_COLLECTION_ELEMENTS (len (Sequence_nodes values))); [done|]. injection H as <-.
  apply (lengths_Ok _ _ _ (element_ok values)) in Hm as [HQ ->];
    [|intros i w [? _]; by eapply wire_ok_len|intros; by apply list_get_spec].
  apply element_order in HQ as [HQ Hasc].
  - split_and!; [done..|]. rewrite sequence_tree_eq. cbn [wire_bytes].
    by rewrite len_app, loop_bytes_list, len_fmap.
  - intros Hc. destruct values; try done. rewrite Hc in Hids. by apply validate_ids_Ok in Hids.
Qed.

Lemma measure_list_complete values :
  (len (Sequence_nodes values) <= MAX_COLLECTION_ELEMENTS)%N ->
  (canonical = true -> ascending (list_keys (Sequence_kind values) (node_tree <$> Sequence_nodes values))) ->
  all_prop (wire_ok canonical (depth + 1)) (node_tree <$> Sequence_nodes values) ->
  (len (wire_bytes (sequence_tree values)) <= MAX_STANDALONE_BYTES)%N ->
  measure_list compare rec values depth canonical = Ok (len (wire_bytes (sequence_tree values))).
Proof using compare_spec rec_spec rec_spec2.
  intros Hn Hasc HQ Hl. rewrite measure_list_loop by (unfold MAX_COLLECTION_ELEMENTS, U64_LIMIT in *; lia).
  assert (match values with
          | SqIds ids => if canonical then validate_entity_id_set_order ids else Ok tt
          | _ => Ok tt
          end = Ok tt) as ->.
  { destruct values; try done.
    assert (canonical = true \/ canonical = false) as [Hc|Hc] by (destruct canonical; auto); rewrite Hc; [|done].
    apply validate_ids_Ok. specialize (Hasc Hc). cbn [Sequence_kind Sequence_nodes] in Hasc.
    by rewrite ids_nodes_tree in Hasc. }
  cbn [mbind result_bind].
  assert (len (wire_bytes (sequence_tree values)) = len (encode_uvar (len (Sequence_nodes values)))
    + len (loop_bytes (fun _ => None) 0 (node_tree <$> Sequence_nodes values)))%N as E.
  { rewrite sequence_tree_eq. cbn [wire_bytes]. by rewrite len_app, loop_bytes_list, len_fmap. }
  rewrite E in *. rewrite (lengths_complete _ _ _ (element_ok values)).
  - cbn [mbind result_bind]. by destruct (N.ltb_spec MAX_COLLECTION_ELEMENTS (len (Sequence_nodes values))); [lia|].
  - intros i w [? _]. by eapply wire_ok_len.
  - intros. by apply list_get_spec.
  - apply element_order; [|done]. intros Hc. destruct values; try done.
    specialize (Hasc Hc). cbn [Sequence_kind Sequence_nodes] in Hasc. by rewrite ids_nodes_tree in Hasc.
  - unfold MAX_STANDALONE_BYTES, U64_LIMIT in *. lia.
Qed.
End list_level.
End measure_spec.

Lemma checked_length_Ok n m : checked_length n = Ok m <-> m = n /\ (n <= MAX_STANDALONE_BYTES)%N.
Proof.
  unfold checked_length. destruct (N.ltb_spec MAX_STANDALONE_BYTES n); [by split; [|intros [_ ?]; lia]|].
  rewrite Ok_inj. split; [by intros <-|by intros [-> _]].
Qed.

Lemma TypeExpr_tag_bound t : (TypeExpr_tag t < U64_LIMIT)%N. Proof. by destruct t. Qed.
Lemma ConstData_tag_bound d : (ConstData_tag d < U64_LIMIT)%N. Proof. by destruct d. Qed.

Lemma layout_tag node depth tag payload : layout node depth = Ok (LUnion tag payload) -> (tag < U64_LIMIT)%N.
Proof.
  intros [_ H]%layout_Ok. cbn [layout_tree] in H.
  destruct node; cbn [node_tree] in H; rewrite ?value_tree_eq, ?sequence_tree_eq in H; try discriminate.
  - rewrite data_payload_tree in H. injection H as <- _. apply ConstData_tag_bound.
  - rewrite type_payload_tree in H. injection H as <- _. apply TypeExpr_tag_bound.
  - injection H as <- _. by destruct v.
  - injection H as <- _. by destruct v.
Qed.

(** A measurement of a union's payload *)
Lemma payload_length rec canonical depth payload n :
  measures canonical rec (depth + 1) ->
  match payload with None => Ok 0%N | Some node => rec node (depth + 1)%N canonical end = Ok n <->
  match node_tree <$> payload with Some w => wire_ok canonical (depth + 1) w | None => True end /\
  n = len match node_tree <$> payload with Some w => wire_bytes w | None => [] end.
Proof.
  intros Hrec. destruct payload as [node|]; cbn [fmap option_fmap option_map]; [apply Hrec|].
  split; [by intros [= <-]|by intros [_ ->]].
Qed.

Section measure_ok.
Context (compare : Node -> Node -> N -> enc_result comparison) (canonical : bool).
Hypothesis compare_spec : canonical = true -> forall l r depth,
  wire_ok false depth (node_tree l) -> wire_ok false depth (node_tree r) ->
  compare l r depth = Ok (bytes_cmp (wire_bytes (node_tree l)) (wire_bytes (node_tree r))).

Lemma consume_Measure_Ok rec depth node l n :
  measures canonical rec (depth + 1) -> measures canonical rec (depth + 2) ->
  layout node depth = Ok l ->
  consume (Measure compare rec depth canonical) l ≫= checked_length = Ok n <->
  wire_ok canonical depth (layout_tree l) /\ n = len (wire_bytes (layout_tree l)).
Proof using compare_spec.
  intros Hrec Hrec2 Hl. pose proof (layout_Ok _ _ _ Hl) as [Hroot Htree]. rewrite Htree in Hroot.
  destruct l as [chunk|b|tag payload|fields|values]; cbn [consume Measure wc_atom wc_bytes wc_union wc_record wc_list].
  - cbn [mbind result_bind layout_tree wire_ok wire_bytes atom_bytes]. rewrite checked_length_Ok.
    cbn in Hroot. naive_solver.
  - cbn [layout_tree wire_ok wire_bytes]. cbn in Hroot. rewrite bind_Ok. setoid_rewrite checked_length_Ok.
    assert (forall m, sized (len b) = Ok m <-> m = len (framed b)) as Hs.
    { intros m. apply sized_Ok; [done|]. unfold MAX_BYTE_PAYLOAD, MAX_STANDALONE_BYTES in *. lia. }
    setoid_rewrite Hs. naive_solver.
  - cbn [layout_tree wire_ok wire_bytes]. cbn [layout_tree root_ok] in Hroot. rewrite len_app.
    apply layout_tag in Hl. rewrite <- uvar_len_uvar by done. split.
    + intros H. apply bind_Ok in H as (m & H & [-> Hm]%checked_length_Ok).
      apply bind_Ok in H as (k & [Hk ->]%payload_length & H); [|done].
      assert (len match node_tree <$> payload with Some w => wire_bytes w | None => [] end <= MAX_STANDALONE_BYTES)%N
        as Hlen by (destruct (node_tree <$> payload); [by eapply wire_ok_len|done]).
      apply bind_Ok in H as (f & Hf & [-> _]%add_Ok). rewrite sized_Ok in Hf by done. subst f. done.
    + intros [(Hn & _ & Hk) ->].
      assert (len match node_tree <$> payload with Some w => wire_bytes w | None => [] end <= MAX_STANDALONE_BYTES)%N
        as Hlen by (destruct (node_tree <$> payload); [by eapply wire_ok_len|done]).
      rewrite (proj2 (payload_length _ _ _ _ _ Hrec) (conj Hk eq_refl)). cbn [mbind result_bind].
      rewrite (proj2 (sized_Ok _ _ _ eq_refl Hlen) eq_refl). cbn [mbind result_bind].
      rewrite add_small by (unfold MAX_STANDALONE_BYTES, U64_LIMIT in *; lia). cbn [mbind result_bind].
      by apply checked_length_Ok.
  - cbn [layout_tree wire_ok root_ok] in *. split.
    + intros H. apply bind_Ok in H as (m & H & [-> Hm]%checked_length_Ok).
      apply (measure_record_Ok canonical _ _ Hrec) in H as [HQ ->]; [|done]. done.
    + intros [(Hn & _ & HQ) ->]. rewrite (measure_record_complete canonical _ _ Hrec) by done.
      cbn [mbind result_bind]. by apply checked_length_Ok.
  - cbn [layout_tree] in *. rewrite <- sequence_tree_eq. cbn [wire_ok root_ok] in *.
    pose proof (fun H => compare_spec H) as Hcmp. split.
    + intros H. apply bind_Ok in H as (m & H & [-> Hm]%checked_length_Ok).
      apply (measure_list_Ok canonical _ _ Hrec compare) in H as (Hc & Hasc & HQ & ->); [|by auto|done].
      rewrite sequence_tree_eq in Hm |- *. cbn [wire_ok]. by rewrite len_fmap.
    + rewrite sequence_tree_eq at 1. cbn [wire_ok]. rewrite len_fmap. intros [(Hn & _ & Hc & Hasc & HQ) ->].
      rewrite (measure_list_complete canonical _ _ Hrec compare); [|by auto|done..|by rewrite sequence_tree_eq].
      cbn [mbind result_bind]. apply checked_length_Ok. by rewrite sequence_tree_eq.
Qed.

Lemma measure_fuel_Ok fuel depth :
  (MAX_NESTING_DEPTH + 2 <= N.of_nat fuel + depth)%N -> measures canonical (measure_fuel compare fuel) depth.
Proof using compare_spec.
  revert depth. induction fuel as [|fuel IH]; intros depth Hf node n.
  { cbn. split; [done|]. intros [H%wire_ok_root _].
    destruct (node_tree node); cbn [root_ok] in H; lia. }
  cbn [measure_fuel]. rewrite visit_layout.
  assert (measures canonical (measure_fuel compare fuel) (depth + 1)) as H1 by (apply IH; lia).
  assert (measures canonical (measure_fuel compare fuel) (depth + 2)) as H2 by (apply IH; lia).
  destruct (layout node depth) as [l|e] eqn:Hl; cbn [mbind result_bind].
  - pose proof (layout_Ok _ _ _ Hl) as [_ ->]. by eapply consume_Measure_Ok.
  - split; [done|]. intros [H%wire_ok_root _]. destruct (layout_complete _ _ H) as [l Hl']. congruence.
Qed.
End measure_ok.

Lemma depth_fuel_enough depth : (MAX_NESTING_DEPTH + 2 <= N.of_nat (depth_fuel depth) + depth)%N.
Proof. unfold depth_fuel. lia. Qed.

Lemma measure_validated_Ok node depth n :
  measure_validated node depth = Ok n <->
  wire_ok false depth (node_tree node) /\ n = len (wire_bytes (node_tree node)).
Proof. apply measure_fuel_Ok; [done|apply depth_fuel_enough]. Qed.

(** ** The cursor

    The chunks a stack still gives; [next] takes them one at a time. *)

Definition frame_chunks (f : Frame) : list bytes :=
  match f with
  | FNode node _ => wire_chunks (node_tree node)
  | FChunk chunk => [Chunk_bytes chunk]
  | FChildren (LUnion _ payload) index _ =>
      if (index =? 0)%N then
        encode_uvar (len match node_tree <$> payload with Some w => wire_bytes w | None => [] end)
        :: match node_tree <$> payload with Some w => wire_chunks w | None => [] end
      else []
  | FChildren (LRecord fields) index _ =>
      record_chunks wire_chunks (index + 1) (drop (N.to_nat index) (node_tree <$> RecordFields_nodes fields))
  | FChildren (LList values) index _ =>
      list_chunks wire_chunks (drop (N.to_nat index) (node_tree <$> Sequence_nodes values))
  | FChildren _ _ _ => []
  end.

Definition stack_chunks (stack : WireCursor) : list bytes := concat (frame_chunks <$> stack).

(** The number of children an owner has, [index] reaching it at the end *)
Definition layout_count (l : Layout) : N :=
  match l with
  | LUnion _ _ => 1
  | LRecord fields => len (RecordFields_nodes fields)
  | LList values => len (Sequence_nodes values)
  | _ => 0
  end.

Definition frame_ok (f : Frame) : Prop :=
  match f with
  | FNode node depth => wire_ok false depth (node_tree node)
  | FChunk _ => True
  | FChildren l index depth =>
      wire_ok false depth (layout_tree l) /\ (index <= layout_count l)%N /\
      match l with LAtom _ | LBytes _ => False | _ => True end
  end.

(** The owners on the stack are nested: their depths go down by one. *)
Inductive nested : N -> WireCursor -> Prop :=
| nested_nil depth : nested depth []
| nested_cons depth l index stack :
    (depth < MAX_NESTING_DEPTH)%N -> nested depth stack -> nested (depth + 1) (FChildren l index depth :: stack).

(** At most one node and one chunk lie above the owners. *)
Inductive pending : WireCursor -> Prop :=
| pending_owners depth stack : nested depth stack -> pending stack
| pending_node node depth stack : nested depth stack -> pending (FNode node depth :: stack).

Inductive shaped : WireCursor -> Prop :=
| shaped_pending stack : pending stack -> shaped stack
| shaped_chunk chunk stack : pending stack -> shaped (FChunk chunk :: stack).

Definition cursor_ok (stack : WireCursor) : Prop := Forall frame_ok stack /\ shaped stack.

Lemma nested_len depth stack : nested depth stack -> (len stack <= depth)%N /\ (len stack <= MAX_NESTING_DEPTH)%N.
Proof. induction 1; rewrite ?len_nil, ?len_cons; lia. Qed.

Lemma push_small frame stack : (len stack <= 2 * MAX_NESTING_DEPTH)%N -> cursor_push frame stack = Ok (frame :: stack).
Proof.
  intros H. unfold cursor_push. destruct (N.eqb_spec (len stack) MAX_CURSOR_FRAMES) as [E|]; [|done].
  unfold MAX_CURSOR_FRAMES, MAX_NESTING_DEPTH in *. lia.
Qed.

Lemma stack_chunks_cons f stack : stack_chunks (f :: stack) = frame_chunks f ++ stack_chunks stack.
Proof. done. Qed.

(** What [next] owes when the stack still gives [chunks]. *)
Definition next_spec (stack : WireCursor) (chunks : list bytes) : Prop :=
  match chunks with
  | [] => cursor_next stack = Ok (None, [])
  | b :: chunks =>
      exists chunk stack', cursor_next stack = Ok (Some chunk, stack') /\
        Chunk_bytes chunk = b /\ stack_chunks stack' = chunks /\ cursor_ok stack'
  end.

Lemma wire_ok_count l depth : wire_ok false depth (layout_tree l) -> (layout_count l < U64_LIMIT)%N.
Proof.
  destruct l as [| | |fields|values]; intros H; try done; [by destruct fields|].
  cbn [layout_tree wire_ok] in H. rewrite len_fmap in H.
  unfold MAX_COLLECTION_ELEMENTS, U64_LIMIT in *. cbn [layout_count]. lia.
Qed.

Lemma next_node node depth stack :
  cursor_ok (FNode node depth :: stack) -> next_spec (FNode node depth :: stack) (stack_chunks (FNode node depth :: stack)).
Proof.
  intros [[Hok Hs]%Forall_cons Hsh]. cbn [frame_ok] in Hok.
  assert (nested depth stack) as Hn. { inversion Hsh; simplify_eq. by inversion H; simplify_eq; [inversion H0|]. }
  pose proof (nested_len _ _ Hn) as [_ Hlen].
  destruct (layout_complete _ _ (wire_ok_root _ _ _ Hok)) as [l Hl].
  pose proof (layout_Ok _ _ _ Hl) as [Hroot Htree]. rewrite stack_chunks_cons. cbn [frame_chunks].
  rewrite Htree in *. pose proof (wire_ok_count _ _ Hok) as Hcount. pose proof (layout_tag node depth) as Htag.
  assert (forall l', l = l' -> match l' with LAtom _ | LBytes _ => False | _ => True end ->
    cursor_ok (FChildren l' 0 depth :: stack)) as Hchildren.
  { intros l' <- Hl'. split; [|by eapply shaped_pending, pending_owners, nested_cons; [destruct l|]].
    constructor; [|done]. cbn [frame_ok]. split_and!; [done|lia|done]. }
  destruct l as [chunk|b|tag payload|fields|values]; cbn [layout_tree wire_chunks app next_spec cursor_next]; rewrite Hl;
    cbn [mbind result_bind].
  - exists chunk, stack. split_and!; try done. split; [done|]. by eapply shaped_pending, pending_owners.
  - cbn [layout_tree root_ok] in Hroot. rewrite push_small by lia.
    destruct (Chunk_uint_ok (len b)) as (c & -> & Hc); [unfold MAX_BYTE_PAYLOAD, U64_LIMIT in *; lia|].
    exists c, (FChunk (Borrowed b) :: stack). split_and!; try done. split; [by constructor|].
    by eapply shaped_chunk, pending_owners.
  - rewrite push_small by lia. destruct (Chunk_uint_ok tag) as (c & -> & Hc); [by eapply Htag|].
    exists c, (FChildren (LUnion tag payload) 0 depth :: stack). split_and!; [done..|by apply Hchildren].
  - rewrite push_small by lia. rewrite RecordFields_len_nodes.
    destruct (Chunk_uint_ok (len (RecordFields_nodes fields))) as (c & -> & Hc); [done|].
    exists c, (FChildren (LRecord fields) 0 depth :: stack). split_and!; [done|by rewrite len_fmap|done|by apply Hchildren].
  - rewrite push_small by lia. rewrite Sequence_len_nodes.
    destruct (Chunk_uint_ok (len (Sequence_nodes values))) as (c & -> & Hc); [done|].
    exists c, (FChildren (LList values) 0 depth :: stack). split_and!; [done|by rewrite len_fmap|done|by apply Hchildren].
Qed.

Definition child_bytes (child : option Node) : bytes := match child with Some n => wire_bytes (node_tree n) | None => [] end.
Definition child_chunks (child : option Node) : list bytes := match child with Some n => wire_chunks (node_tree n) | None => [] end.

Lemma next_child_end l index depth :
  frame_ok (FChildren l index depth) -> (layout_count l <= index)%N ->
  next_child l index = Ok None /\ frame_chunks (FChildren l index depth) = [].
Proof.
  intros (_ & Hi & Hl) Hge. assert (index = layout_count l) as -> by lia. clear Hi Hge.
  destruct l as [| |tag payload|fields|values]; try done; cbn [next_child frame_chunks layout_count].
  - rewrite RecordFields_len_nodes, N.eqb_refl. split; [done|].
    rewrite drop_ge; [done|]. rewrite length_fmap. unfold len. lia.
  - rewrite Sequence_len_nodes, N.eqb_refl. split; [done|].
    rewrite drop_ge; [done|]. rewrite length_fmap. unfold len. lia.
Qed.

Lemma next_child_some l index depth :
  frame_ok (FChildren l index depth) -> (index < layout_count l)%N ->
  exists child, next_child l index = Ok (Some child) /\
    (forall n, child = Some n -> wire_ok false (depth + 1) (node_tree n)) /\
    frame_chunks (FChildren l index depth)
    = match l with LRecord _ => [encode_uvar (index + 1)] | _ => [] end
      ++ [encode_uvar (len (child_bytes child))] ++ child_chunks child
      ++ frame_chunks (FChildren l (index + 1) depth).
Proof.
  intros (Hok & _ & Hl) Hlt.
  destruct l as [| |tag payload|fields|values]; try done; cbn [next_child frame_chunks layout_count layout_tree wire_ok] in *.
  - assert (index = 0%N) as -> by lia. exists payload. split; [done|]. destruct Hok as (_ & _ & Hok).
    split; [intros n ->; exact Hok|]. cbn. rewrite app_nil_r. by destruct payload.
  - rewrite RecordFields_len_nodes. destruct (N.eqb_spec index (len (RecordFields_nodes fields))) as [|_]; [lia|].
    destruct (lookup_lt_is_Some_2 (RecordFields_nodes fields) (N.to_nat index)) as [n Hn]; [unfold len in Hlt; lia|].
    pose proof (RecordFields_get_nodes _ _ _ Hn) as Hg. rewrite N2Nat.id in Hg. rewrite Hg. cbn [mbind result_bind].
    exists (Some n). split; [done|]. destruct Hok as (_ & _ & Hok). rewrite all_prop_lookup in Hok. split.
    + intros m [= <-]. apply (Hok (N.to_nat index)). by rewrite list_lookup_fmap, Hn.
    + rewrite (drop_S _ (node_tree n)) by (by rewrite list_lookup_fmap, Hn).
      replace (N.to_nat (index + 1)) with (S (N.to_nat index)) by lia. done.
  - rewrite Sequence_len_nodes. destruct (N.eqb_spec index (len (Sequence_nodes values))) as [|_]; [lia|].
    destruct (lookup_lt_is_Some_2 (Sequence_nodes values) (N.to_nat index)) as [n Hn]; [unfold len in Hlt; lia|].
    pose proof (Sequence_get_nodes _ _ _ Hn) as Hg. rewrite N2Nat.id in Hg. rewrite Hg. cbn [mbind result_bind].
    exists (Some n). split; [done|]. destruct Hok as (_ & _ & _ & _ & Hok). rewrite all_prop_lookup in Hok. split.
    + intros m [= <-]. apply (Hok (N.to_nat index)). by rewrite list_lookup_fmap, Hn.
    + rewrite (drop_S _ (node_tree n)) by (by rewrite list_lookup_fmap, Hn).
      replace (N.to_nat (index + 1)) with (S (N.to_nat index)) by lia. done.
Qed.

Lemma next_children l index depth stack :
  cursor_ok (FChildren l index depth :: stack) ->
  (cursor_ok stack -> next_spec stack (stack_chunks stack)) ->
  next_spec (FChildren l index depth :: stack) (stack_chunks (FChildren l index depth :: stack)).
Proof.
  intros [[Hok Hs]%Forall_cons Hsh] IH.
  assert (nested depth stack /\ (depth < MAX_NESTING_DEPTH)%N) as [Hn Hd].
  { inversion Hsh as [? Hp|]; subst. inversion Hp as [? ? Ho|]; subst. by inversion Ho; subst. }
  pose proof (nested_len _ _ Hn) as [_ Hlen]. rewrite stack_chunks_cons.
  destruct (decide (index < layout_count l)%N) as [Hlt|Hge].
  2: { destruct (next_child_end _ _ _ Hok) as [Hnext ->]; [lia|]. cbn [app].
    assert (cursor_ok stack) as Hcur by (split; [done|by eapply shaped_pending, pending_owners]).
    specialize (IH Hcur). destruct (stack_chunks stack); cbn [next_spec cursor_next]; by rewrite Hnext. }
  destruct (next_child_some _ _ _ Hok Hlt) as (child & Hnext & Hchild & ->).
  assert (match child with None => Ok 0%N | Some n => measure_validated n (depth + 1) end
          = Ok (len (child_bytes child))) as Hm.
  { destruct child as [n|]; [|done]. apply measure_validated_Ok. auto. }
  assert (len (child_bytes child) < U64_LIMIT)%N as Hsmall.
  { destruct child as [n|]; [|done]. pose proof (wire_ok_len _ _ _ (Hchild n eq_refl)).
    unfold MAX_STANDALONE_BYTES, U64_LIMIT in *. cbn [child_bytes]. lia. }
  destruct (Chunk_uint_ok _ Hsmall) as (c & Hc & Hcb).
  set (owner := FChildren l (index + 1) depth).
  assert (frame_ok owner) as Hown. { destruct Hok as (? & ? & ?). cbn. split_and!; [done|lia|done]. }
  assert (nested (depth + 1) (owner :: stack)) as Hno by by constructor.
  set (above := match child with Some n => [FNode n (depth + 1)] | None => [] end).
  assert (cursor_push owner stack = Ok (owner :: stack)) as Hp1 by (apply push_small; lia).
  assert (match child with Some n => cursor_push (FNode n (depth + 1)) (owner :: stack) | None => Ok (owner :: stack) end
          = Ok (above ++ owner :: stack)) as Hp2.
  { destruct child; [|done]. apply push_small. rewrite len_cons. unfold MAX_NESTING_DEPTH in *. lia. }
  assert (Forall frame_ok (above ++ owner :: stack)) as Hall.
  { apply Forall_app. split; [|by constructor]. subst above. destruct child; [|done]. constructor; [|done]. by apply Hchild. }
  assert (pending (above ++ owner :: stack)) as Hpend.
  { subst above. destruct child; cbn [app]; [by eapply pending_node|by eapply pending_owners]. }
  assert (stack_chunks (above ++ owner :: stack) = child_chunks child ++ frame_chunks owner ++ stack_chunks stack) as Hchunks.
  { subst above. by destruct child. }
  assert (len (above ++ owner :: stack) <= 2 * MAX_NESTING_DEPTH)%N as Hab.
  { rewrite len_app, len_cons. subst above. destruct child; rewrite ?len_cons, len_nil; unfold MAX_NESTING_DEPTH in *; lia. }
  destruct l as [| |tag payload|fields|values]; try (by destruct Hok as (_ & _ & [])); cbn [app next_spec cursor_next];
    rewrite Hnext; cbn [mbind result_bind]; rewrite Hm; cbn [mbind result_bind]; fold owner; rewrite Hp1; cbn [mbind result_bind];
    rewrite Hp2; cbn [mbind result_bind]; rewrite Hc; cbn [mbind result_bind].
  - exists c, (above ++ owner :: stack). split_and!; [done..|by rewrite Hchunks, <- app_assoc|]. split; [done|by apply shaped_pending].
  - rewrite push_small by done. cbn [mbind result_bind].
    assert (index + 1 < U64_LIMIT)%N as Hi.
    { cbn [layout_count] in Hlt. unfold U64_LIMIT.
      assert (len (RecordFields_nodes fields) <= 3)%N by (by destruct fields). lia. }
    destruct (Chunk_uint_ok _ Hi) as (ci & -> & Hci). cbn [mbind result_bind].
    exists ci, (FChunk c :: above ++ owner :: stack). split_and!; [done..| |].
    + rewrite stack_chunks_cons, Hchunks. cbn [frame_chunks app]. by rewrite Hcb, <- app_assoc.
    + split; [by constructor|by apply shaped_chunk].
  - exists c, (above ++ owner :: stack). split_and!; [done..|by rewrite Hchunks, <- app_assoc|]. split; [done|by apply shaped_pending].
Qed.

Lemma cursor_next_ok stack : cursor_ok stack -> next_spec stack (stack_chunks stack).
Proof.
  induction stack as [|[node depth|chunk|l index depth] stack IH]; intros H.
  - done.
  - by apply next_node.
  - destruct H as [[_ Hs]%Forall_cons Hsh]. exists chunk, stack. split_and!; try done. split; [done|].
    inversion Hsh as [? Hp|]; subst; [|by apply shaped_pending].
    inversion Hp as [? ? Ho|]; subst. by inversion Ho.
  - by apply next_children.
Qed.

Lemma new_cursor_ok node depth : wire_ok false depth (node_tree node) -> cursor_ok (WireCursor_new node depth).
Proof. intros H. split; [by constructor|]. apply shaped_pending. eapply (pending_node _ _ _ (nested_nil _)). Qed.

Lemma new_cursor_chunks node depth : stack_chunks (WireCursor_new node depth) = wire_chunks (node_tree node).
Proof. unfold stack_chunks. cbn. apply app_nil_r. Qed.

(** *** The chunks are the encoding *)

Lemma record_chunks_concat i fields :
  Forall (fun w => concat (wire_chunks w) = wire_bytes w) fields ->
  concat (record_chunks wire_chunks i fields) = record_bytes wire_bytes i fields.
Proof.
  intros H. revert i. induction H as [|w fields Hw _ IH]; intros i; [done|]. cbn [record_chunks record_bytes].
  cbn [app concat]. rewrite concat_app, Hw, IH. unfold framed. by rewrite <- !app_assoc.
Qed.

Lemma list_chunks_concat items :
  Forall (fun w => concat (wire_chunks w) = wire_bytes w) items ->
  concat (list_chunks wire_chunks items) = list_bytes wire_bytes items.
Proof.
  intros H. induction H as [|w items Hw _ IH]; [done|]. cbn [list_chunks list_bytes].
  cbn [app concat]. rewrite concat_app, Hw, IH. unfold framed. by rewrite <- !app_assoc.
Qed.

Lemma wire_chunks_concat w : concat (wire_chunks w) = wire_bytes w.
Proof.
  induction w using wire_ind'; cbn [wire_chunks wire_bytes concat app].
  - apply app_nil_r.
  - by rewrite app_nil_r.
  - destruct payload as [w|]; [by rewrite H|done].
  - by rewrite record_chunks_concat.
  - by rewrite list_chunks_concat.
Qed.

Lemma emit_loop_ok fuel stack out :
  cursor_ok stack -> (length (stack_chunks stack) < fuel)%nat ->
  emit_loop fuel stack out = Ok (out ++ concat (stack_chunks stack)).
Proof.
  revert stack out. induction fuel as [|fuel IH]; intros stack out Hok Hf; [lia|]. cbn [emit_loop].
  pose proof (cursor_next_ok _ Hok) as Hnext. destruct (stack_chunks stack) as [|b chunks]; cbn [next_spec] in Hnext.
  - rewrite Hnext. cbn [mbind result_bind concat]. by rewrite app_nil_r.
  - destruct Hnext as (c & stack' & -> & <- & <- & Hok'). cbn [mbind result_bind].
    rewrite IH by (done || cbn in Hf; lia). cbn [concat]. by rewrite app_assoc.
Qed.

(** *** Comparison *)

(** The bytes a side has not compared yet, by chunk *)
Definition left_over (p : position) (cursor : WireCursor) : list bytes :=
  match p with Some (chunk, i) => [drop i (Chunk_bytes chunk)] | None => [] end ++ stack_chunks cursor.

(** A side is at a position of a chunk, or past its last one. *)
Definition side_ok (p : position) (cursor : WireCursor) : Prop :=
  cursor_ok cursor /\
  match p with Some (chunk, i) => (i <= length (Chunk_bytes chunk))%nat | None => stack_chunks cursor = [] end.

Lemma advance_ok p cursor :
  cursor_ok cursor -> stack_chunks cursor = p ->
  exists q cursor', advance_cursor cursor = Ok (q, cursor') /\ side_ok q cursor' /\ left_over q cursor' = p.
Proof.
  intros Hok <-. unfold advance_cursor. pose proof (cursor_next_ok _ Hok) as H.
  destruct (stack_chunks cursor) as [|b chunks]; cbn [next_spec] in H.
  - rewrite H. exists None, []. split_and!; try done.
    split; [|done]. split; [constructor|]. by apply shaped_pending, (pending_owners 0), nested_nil.
  - destruct H as (c & s & -> & <- & <- & Hs). exists (Some (c, O)), s. split_and!; try done.
    split; [done|]. lia.
Qed.

Lemma advance_exhausted p cursor :
  side_ok p cursor -> exhausted p = true ->
  exists q cursor', advance_cursor cursor = Ok (q, cursor') /\ side_ok q cursor' /\
    left_over p cursor = [] :: left_over q cursor'.
Proof.
  intros [Hok Hp] Hex. destruct p as [[c i]|]; [|done]. cbn in Hex. apply bool_decide_eq_true in Hex as ->.
  destruct (advance_ok _ _ Hok eq_refl) as (q & s & Ha & Hs & Hq). exists q, s. split_and!; try done.
  unfold left_over at 1. by rewrite drop_all, Hq.
Qed.

Lemma lex_compare_app {A} (cmp : A -> A -> comparison) x y u v :
  length x = length y -> lex_compare cmp (x ++ u) (y ++ v) = then_with (lex_compare cmp x y) (lex_compare cmp u v).
Proof.
  revert y. induction x as [|a x IH]; intros [|b y] H; try done. cbn in *. destruct (cmp a b); [|done..].
  apply IH. lia.
Qed.

Lemma bytes_cmp_then_with x y u v :
  length x = length y -> bytes_cmp (x ++ u) (y ++ v) = then_with (bytes_cmp x y) (bytes_cmp u v).
Proof. apply lex_compare_app. Qed.

Definition compare_turns (left right : WireCursor) (a b : position) : nat :=
  2 * (length (left_over a left) + length (left_over b right)) + if exhausted a || exhausted b then 0 else 1.

Lemma compare_loop_ok fuel left right a b :
  side_ok a left -> side_ok b right -> (compare_turns left right a b < fuel)%nat ->
  compare_loop fuel left right a b = Ok (bytes_cmp (concat (left_over a left)) (concat (left_over b right))).
Proof.
  revert left right a b. induction fuel as [|fuel IH]; intros left right a b Ha Hb Hf; [lia|]. cbn [compare_loop].
  unfold compare_turns in Hf. destruct (exhausted a) eqn:Ea; cbn [orb] in Hf.
  { destruct (advance_exhausted _ _ Ha Ea) as (q & s & -> & Hs & Hlo). rewrite Hlo in *. cbn [mbind result_bind].
    apply IH; [done..|]. unfold compare_turns. cbn [length] in Hf. case_match; lia. }
  destruct (exhausted b) eqn:Eb; cbn [orb] in Hf.
  { destruct (advance_exhausted _ _ Hb Eb) as (q & s & -> & Hs & Hlo). rewrite Hlo in *. cbn [mbind result_bind].
    apply IH; [done..|]. unfold compare_turns. cbn [length] in Hf. case_match; lia. }
  destruct Ha as [Hl Ha], Hb as [Hr Hb].
  destruct a as [[ca ai]|], b as [[cb bi]|]; cbn [exhausted] in Ea, Eb;
    try apply bool_decide_eq_false_1 in Ea; try apply bool_decide_eq_false_1 in Eb;
    unfold left_over; cbn [app concat].
  - set (common := Nat.min (length (Chunk_bytes ca) - ai) (length (Chunk_bytes cb) - bi)).
    assert (forall c i, drop i (Chunk_bytes c) = take common (drop i (Chunk_bytes c)) ++ drop (i + common) (Chunk_bytes c)) as Hsplit.
    { intros c i. rewrite <- drop_drop. by rewrite take_drop. }
    assert (forall u v, bytes_cmp (drop ai (Chunk_bytes ca) ++ u) (drop bi (Chunk_bytes cb) ++ v)
      = then_with (bytes_cmp (take common (drop ai (Chunk_bytes ca))) (take common (drop bi (Chunk_bytes cb))))
          (bytes_cmp (drop (ai + common) (Chunk_bytes ca) ++ u) (drop (bi + common) (Chunk_bytes cb) ++ v))) as ->.
    { intros u v. rewrite <- bytes_cmp_then_with by (rewrite !length_take, !length_drop; lia).
      by rewrite !app_assoc, <- !Hsplit. }
    destruct (bytes_cmp (take common (drop ai (Chunk_bytes ca))) (take common (drop bi (Chunk_bytes cb))));
      cbn [then_with]; [|done..].
    apply IH; [split; [done|lia]..|]. unfold compare_turns, left_over in *. cbn [app length] in *.
    assert (exhausted (Some (ca, (ai + common)%nat)) || exhausted (Some (cb, (bi + common)%nat)) = true) as ->.
    { cbn [exhausted]. rewrite orb_true_iff, !bool_decide_eq_true. lia. }
    lia.
  - rewrite Hb. cbn [concat]. destruct (drop ai (Chunk_bytes ca)) eqn:E; [|done].
    apply (f_equal length) in E. rewrite length_drop in E. cbn in E. lia.
  - rewrite Ha. cbn [concat]. destruct (drop bi (Chunk_bytes cb)) eqn:E; [|done].
    apply (f_equal length) in E. rewrite length_drop in E. cbn in E. lia.
  - by rewrite Ha, Hb.
Qed.

Lemma compare_validated_ok l r depth :
  wire_ok false depth (node_tree l) -> wire_ok false depth (node_tree r) ->
  compare_validated l r depth = Ok (bytes_cmp (wire_bytes (node_tree l)) (wire_bytes (node_tree r))).
Proof.
  intros Hl Hr. unfold compare_validated.
  destruct (advance_ok _ _ (new_cursor_ok _ _ Hl) eq_refl) as (a & sl & -> & Hsl & Ea).
  destruct (advance_ok _ _ (new_cursor_ok _ _ Hr) eq_refl) as (b & sr & -> & Hsr & Eb).
  cbn [mbind result_bind fst snd]. rewrite new_cursor_chunks in Ea, Eb.
  rewrite compare_loop_ok; [by rewrite Ea, Eb, !wire_chunks_concat|done..|].
  unfold compare_turns, compare_fuel. rewrite Ea, Eb. case_match; lia.
Qed.

(** ** The encoder *)

Lemma measure_Ok node depth n :
  measure node depth true = Ok n <-> wire_ok true depth (node_tree node) /\ n = len (wire_bytes (node_tree node)).
Proof. apply measure_fuel_Ok; [intros _; apply compare_validated_ok|apply depth_fuel_enough]. Qed.

Lemma encode_Ok node depth b :
  encode node depth = Ok b <-> wire_ok true depth (node_tree node) /\ b = wire_bytes (node_tree node).
Proof.
  assert (wire_ok true depth (node_tree node) -> encode node depth = Ok (wire_bytes (node_tree node))) as Hc.
  { intros H. unfold encode. rewrite (proj2 (measure_Ok _ _ _) (conj H eq_refl)). cbn [mbind result_bind].
    rewrite emit_loop_ok; rewrite ?new_cursor_chunks; [|by apply new_cursor_ok, wire_ok_false|lia].
    cbn [mbind result_bind app]. by rewrite wire_chunks_concat, N.eqb_refl. }
  split; [|intros [H ->]; auto]. intros H. assert (wire_ok true depth (node_tree node)) as Hw.
  { unfold encode in H. apply bind_Ok in H as (n & [Hw _]%measure_Ok & _). done. }
  split; [done|]. specialize (Hc Hw). congruence.
Qed.

Lemma encode_const_value_Ok v b :
  encode_const_value v = Ok b <-> wire_ok true 0 (value_tree v) /\ b = wire_bytes (value_tree v).
Proof.
  unfold encode_const_value, encode_at_depth. cbn [check_depth mbind result_bind N.ltb].
  change (check_depth 0) with (@Ok EncodeStop unit tt). cbn [mbind result_bind]. rewrite bind_Ok.
  setoid_rewrite (encode_Ok (NValue v) 0). cbn [node_tree]. split.
  - intros (c & [Hw ->] & H). case_match; [done|]. by injection H as <-.
  - intros [Hw ->]. eexists. split; [done|]. apply wire_ok_len in Hw. case_match; [lia|done].
Qed.

(** Functional. Measuring a constant under a cap fails exactly when
    encoding it fails, and otherwise tells the length of the encoding, or that it
    is over the cap. *)
Theorem measure_value_exact v cap m :
  measure_value v cap = Ok m <->
  exists b, encode_const_value v = Ok b /\
    m = if (len b <=? cap)%N then MeasureExact (len b) else MeasureOverLimit.
Proof.
  unfold measure_value. rewrite bind_Ok. setoid_rewrite (measure_Ok (NValue v) 0). cbn [node_tree].
  setoid_rewrite encode_const_value_Ok. split.
  - intros (n & [Hw ->] & [= <-]). by eexists.
  - intros (b & [Hw ->] & ->). by eexists.
Qed.
