(* ===== verification/ConstInjective.v ===== *)
(** * The mutation codec: encodings identify values

    Every piece of the reference encoding is self-delimiting or framed by its
    length, so two representable values with the same canonical bytes are equal:
    the machine may take the bytes of a key for the key. *)

From S2P Require Import Prelude Bytes Ssmc Types Repr Scb1Core Scb1Cursor ConstEncoding ConstWire.
Set Warnings "-register-all".

(** ** Numbers and frames *)

Lemma n2b_inj a b : (a < 256)%N -> (b < 256)%N -> n2b a = n2b b -> a = b.
Proof. intros Ha Hb H. apply (f_equal b2n) in H. rewrite !b2n_n2b, !N.mod_small in H by done. done. Qed.

Lemma uvar_groups_prefix fuel a b x y :
  (a < 2 ^ (7 * N.of_nat fuel))%N -> (b < 2 ^ (7 * N.of_nat fuel))%N -> (0 < fuel)%nat ->
  uvar_groups fuel a ++ x = uvar_groups fuel b ++ y -> a = b /\ x = y.
Proof.
  revert a b. induction fuel as [|fuel IH]; intros a b Ha Hb Hf H; [lia|]. cbn [uvar_groups] in H.
  rewrite !land_127, !N.shiftr_div_pow2 in H. change (2 ^ 7)%N with 128%N in H.
  pose proof (N.mod_lt a 128 ltac:(lia)) as Ma. pose proof (N.mod_lt b 128 ltac:(lia)) as Mb.
  pose proof (N.div_mod a 128 ltac:(lia)) as Da. pose proof (N.div_mod b 128 ltac:(lia)) as Db.
  rewrite !lor_128 in H by done.
  assert (forall c, (c < 2 ^ (7 * N.of_nat (S fuel)))%N -> (c / 128 < 2 ^ (7 * N.of_nat fuel))%N) as Hdiv.
  { intros c Hc. apply N.Div0.div_lt_upper_bound. rewrite <- (N.pow_add_r 2 7).
    by replace (7 + 7 * N.of_nat fuel)%N with (7 * N.of_nat (S fuel))%N by lia. }
  pose proof (Hdiv a Ha) as Qa. pose proof (Hdiv b Hb) as Qb. clear Hdiv Ha Hb.
  remember (a / 128)%N as qa eqn:Hqa. remember (a mod 128)%N as ra eqn:Hra. clear Hqa Hra.
  remember (b / 128)%N as qb eqn:Hqb. remember (b mod 128)%N as rb eqn:Hrb. clear Hqb Hrb.
  destruct (N.eqb_spec qa 0) as [Ea|Ea], (N.eqb_spec qb 0) as [Eb|Eb]; cbn [app] in H;
    injection H as H1 H2; apply n2b_inj in H1; try lia; try (exfalso; lia).
  - split; [|done]. lia.
  - assert (0 < fuel)%nat as Hf' by (destruct fuel; [change (2 ^ (7 * N.of_nat 0))%N with 1%N in Qa|]; lia).
    apply IH in H2 as [H2 ->]; [|done..]. split; [|done]. lia.
Qed.

Lemma uvar_prefix a b x y :
  (a < U64_LIMIT)%N -> (b < U64_LIMIT)%N -> encode_uvar a ++ x = encode_uvar b ++ y -> a = b /\ x = y.
Proof.
  intros Ha Hb. apply (uvar_groups_prefix 10); [..|lia]; unfold U64_LIMIT in *;
    change (2 ^ (7 * N.of_nat 10))%N with (2 ^ 64 * 64)%N; lia.
Qed.

Lemma framed_prefix a b x y :
  (len a < U64_LIMIT)%N -> (len b < U64_LIMIT)%N -> framed a ++ x = framed b ++ y -> a = b /\ x = y.
Proof.
  unfold framed. intros Ha Hb H. rewrite <- !app_assoc in H. apply uvar_prefix in H as [Hl H]; [|done..].
  apply app_inj_1 in H; [done|]. unfold len in Hl. lia.
Qed.

Lemma framed_inj a b : (len a < U64_LIMIT)%N -> (len b < U64_LIMIT)%N -> framed a = framed b -> a = b.
Proof. intros Ha Hb H. apply (framed_prefix a b [] []); [done..|]. by rewrite H. Qed.

(** ** Trees *)

Definition short (w : wire) : Prop := (len (wire_bytes w) < U64_LIMIT)%N.

Lemma wire_ok_short c depth w : wire_ok c depth w -> short w.
Proof. intros H%wire_ok_len. unfold short, MAX_STANDALONE_BYTES, U64_LIMIT in *. lia. Qed.

Definition payload_bytes (p : option wire) : bytes := match p with Some w => wire_bytes w | None => [] end.

Lemma union_bytes_inj tag tag' p p' :
  (tag < U64_LIMIT)%N -> (tag' < U64_LIMIT)%N ->
  (if p is Some w then short w else True) -> (if p' is Some w then short w else True) ->
  wire_bytes (WUnion tag p) = wire_bytes (WUnion tag' p') -> tag = tag' /\ payload_bytes p = payload_bytes p'.
Proof.
  intros Ht Ht' Hp Hp' H. cbn [wire_bytes] in H. apply uvar_prefix in H as [-> H]; [|done..].
  apply framed_inj in H; [done|by destruct p|by destruct p'].
Qed.

Abbreviation same_bytes := (Forall2 (fun w w' => wire_bytes w = wire_bytes w')).

Lemma record_bytes_inj i l l' x y :
  (i + len l < U64_LIMIT)%N -> length l = length l' -> Forall short l -> Forall short l' ->
  record_bytes wire_bytes i l ++ x = record_bytes wire_bytes i l' ++ y -> same_bytes l l' /\ x = y.
Proof.
  revert i l'. induction l as [|w l IH]; intros i [|w' l'] Hi Hlen Hs Hs' H; try done.
  apply Forall_cons in Hs as [Hw Hs], Hs' as [Hw' Hs']. rewrite len_cons in Hi.
  cbn [record_bytes] in H. rewrite <- !app_assoc in H. apply uvar_prefix in H as [_ H]; [|lia..].
  apply framed_prefix in H as [E H]; [|done..]. apply IH in H as [? ->]; [|lia|by injection Hlen|done..].
  by split; [constructor|].
Qed.

Lemma list_bytes_inj l l' x y :
  length l = length l' -> Forall short l -> Forall short l' ->
  list_bytes wire_bytes l ++ x = list_bytes wire_bytes l' ++ y -> same_bytes l l' /\ x = y.
Proof.
  revert l'. induction l as [|w l IH]; intros [|w' l'] Hlen Hs Hs' H; try done.
  apply Forall_cons in Hs as [Hw Hs], Hs' as [Hw' Hs']. cbn [list_bytes] in H. rewrite <- !app_assoc in H.
  apply framed_prefix in H as [E H]; [|done..]. apply IH in H as [? ->]; [|by injection Hlen|done..].
  by split; [constructor|].
Qed.

Lemma WRecord_inj l l' :
  (len l < 10)%N -> length l = length l' -> Forall short l -> Forall short l' ->
  wire_bytes (WRecord l) = wire_bytes (WRecord l') -> same_bytes l l'.
Proof.
  intros Hl Hlen Hs Hs' H. cbn [wire_bytes] in H. unfold len in H. rewrite Hlen in H. apply app_inv_head in H.
  apply (f_equal (.++ [])) in H. apply record_bytes_inj in H as [H _]; try done. unfold U64_LIMIT. lia.
Qed.

Lemma WList_inj k k' l l' :
  (len l < U64_LIMIT)%N -> (len l' < U64_LIMIT)%N -> Forall short l -> Forall short l' ->
  wire_bytes (WList k l) = wire_bytes (WList k' l') -> same_bytes l l'.
Proof.
  intros Hl Hl' Hs Hs' H. cbn [wire_bytes] in H. apply uvar_prefix in H as [Hn H]; [|done..].
  apply (f_equal (.++ [])) in H. apply list_bytes_inj in H as [H _]; try done. unfold len in Hn. lia.
Qed.

(** Mapped trees with the same bytes come from equal elements. *)
Lemma same_bytes_map {A} (f : A -> wire) (P Q : A -> Prop) (l l' : list A) :
  Forall (fun x => forall y, P x -> P y -> Q x -> Q y -> wire_bytes (f x) = wire_bytes (f y) -> x = y) l ->
  Forall P l -> Forall P l' -> Forall Q l -> Forall Q l' -> same_bytes (f <$> l) (f <$> l') -> l = l'.
Proof.
  intros H. revert l'. induction H as [|x l Hx _ IH]; intros [|y l'] HP HP' HQ HQ' Hs; try done;
    [inversion Hs..|]. rewrite !Forall_cons in *. cbn in Hs. apply Forall2_cons in Hs as [E Hs].
  f_equal; [naive_solver|]. naive_solver.
Qed.

(** ** Leaves *)

Lemma id_tree_inj a b : is_id a = true -> is_id b = true -> wire_bytes (id_tree a) = wire_bytes (id_tree b) -> a = b.
Proof. unfold is_id. intros Ha Hb H. cbn [wire_bytes id_tree atom_bytes] in H. apply be_bytes_inj in H; lia. Qed.

Lemma Chunk_unsigned_ok n :
  (n < 2 ^ 128)%N -> exists c, Chunk_unsigned n = Ok c /\ Chunk_bytes c = uvar_groups 19 n.
Proof.
  intros Hn. unfold Chunk_unsigned, filled. rewrite encode_uvar128_into_spec by done. cbn [ok_or mbind result_bind].
  rewrite take_app_length. unfold Chunk_inline. pose proof (length_uvar_groups 19 n).
  replace (len (uvar_groups 19 n) <=? 32)%N with true by (unfold len; lia). by eexists.
Qed.

Lemma uvar128_inj a b : (a < 2 ^ 128)%N -> (b < 2 ^ 128)%N -> uvar_groups 19 a = uvar_groups 19 b -> a = b.
Proof.
  intros Ha Hb H. assert (2 ^ 128 <= 2 ^ (7 * N.of_nat 19))%N by (by apply N.pow_le_mono_r).
  apply (uvar_groups_prefix 19 a b [] []); [lia..|]. by rewrite H.
Qed.

Lemma number_tree_inj a b :
  (a < 2 ^ 128)%N -> (b < 2 ^ 128)%N -> wire_bytes (number_tree a) = wire_bytes (number_tree b) -> a = b.
Proof.
  intros Ha Hb H. unfold number_tree in H. destruct (Chunk_unsigned_ok a Ha) as (c & Hc & Ec).
  destruct (Chunk_unsigned_ok b Hb) as (d & Hd & Ed). rewrite Hc, Hd in H. cbn in H. rewrite Ec, Ed in H.
  by apply uvar128_inj.
Qed.

Lemma signed_tree_inj a b :
  is_i128 a = true -> is_i128 b = true ->
  wire_bytes (WAtom (Chunk_bytes <$> Chunk_signed a)) = wire_bytes (WAtom (Chunk_bytes <$> Chunk_signed b)) -> a = b.
Proof.
  unfold is_i128, I128_MIN, I128_MAX. intros Ha Hb H.
  assert (in_sint 128 a) as Ia by (unfold in_sint; lia). assert (in_sint 128 b) as Ib by (unfold in_sint; lia).
  pose proof (zigzag_bound 128 a ltac:(lia) Ia) as Za. pose proof (zigzag_bound 128 b ltac:(lia) Ib) as Zb.
  change (Chunk_signed ?x) with (Chunk_unsigned (zigzag 128 x)) in H.
  destruct (Chunk_unsigned_ok _ Za) as (c & Hc & Ec). destruct (Chunk_unsigned_ok _ Zb) as (d & Hd & Ed).
  change (Z.of_N 128) with 128%Z in *. rewrite Hc, Hd in H. cbn [fmap result_fmap wire_bytes atom_bytes] in H.
  rewrite Ec, Ed in H. apply uvar128_inj in H; [|done..].
  rewrite <- (unzigzag_zigzag 128 a), <- (unzigzag_zigzag 128 b) by (done || lia).
  change (Z.of_N 128) with 128%Z. by rewrite H.
Qed.

(** ** Encodable trees *)

Definition encodable (w : wire) : Prop := exists depth, wire_ok false depth w.

Lemma encodable_short w : encodable w -> short w.
Proof. intros [d H]. by eapply wire_ok_short. Qed.

Lemma encodable_union tag w : encodable (WUnion tag (Some w)) -> encodable w.
Proof. intros [d (_ & _ & H)]. by eexists. Qed.

Lemma encodable_record l : encodable (WRecord l) -> Forall encodable l.
Proof.
  intros [d (_ & _ & H)]. rewrite all_prop_Forall in H. eapply Forall_impl; [exact H|]. intros w Hw. by eexists.
Qed.

Lemma encodable_list k l : encodable (WList k l) -> Forall encodable l /\ (len l < U64_LIMIT)%N.
Proof.
  intros [d (_ & _ & Hn & _ & H)]. rewrite all_prop_Forall in H. split.
  - eapply Forall_impl; [exact H|]. intros w Hw. by eexists.
  - unfold MAX_COLLECTION_ELEMENTS, U64_LIMIT in *. lia.
Qed.

Lemma encodable_shorts l : Forall encodable l -> Forall short l.
Proof. intros H. eapply Forall_impl; [exact H|]. apply encodable_short. Qed.

(** Two encodable trees of one form with the same bytes: their parts agree. *)
Lemma union_parts tag tag' p p' :
  (tag < U64_LIMIT)%N -> (tag' < U64_LIMIT)%N -> encodable (WUnion tag p) -> encodable (WUnion tag' p') ->
  wire_bytes (WUnion tag p) = wire_bytes (WUnion tag' p') -> tag = tag' /\ payload_bytes p = payload_bytes p'.
Proof.
  intros ? ? Hp Hp'. apply union_bytes_inj; try done.
  - destruct p; [|done]. by eapply encodable_short, encodable_union.
  - destruct p'; [|done]. by eapply encodable_short, encodable_union.
Qed.

Lemma record_parts l l' :
  (len l < 10)%N -> length l = length l' -> encodable (WRecord l) -> encodable (WRecord l') ->
  wire_bytes (WRecord l) = wire_bytes (WRecord l') ->
  same_bytes l l' /\ Forall encodable l /\ Forall encodable l'.
Proof.
  intros ? ? Hl%encodable_record Hl'%encodable_record H. split_and!; [|done..].
  apply WRecord_inj; try done; by apply encodable_shorts.
Qed.

Lemma list_parts {A} (f : A -> wire) (P : A -> Prop) k k' l l' :
  Forall (fun x => forall y, P x -> P y -> encodable (f x) -> encodable (f y) ->
    wire_bytes (f x) = wire_bytes (f y) -> x = y) l ->
  Forall P l -> Forall P l' -> encodable (WList k (f <$> l)) -> encodable (WList k' (f <$> l')) ->
  wire_bytes (WList k (f <$> l)) = wire_bytes (WList k' (f <$> l')) -> l = l'.
Proof.
  intros Hf HP HP' [Hl Hn]%encodable_list [Hl' Hn']%encodable_list H.
  apply WList_inj in H; [|done..|by apply encodable_shorts|by apply encodable_shorts].
  rewrite Forall_fmap in Hl, Hl'. by apply (same_bytes_map f P (encodable ∘ f)).
Qed.

Lemma ids_inj k k' l l' :
  Forall (fun id => is_id id = true) l -> Forall (fun id => is_id id = true) l' ->
  encodable (WList k (id_tree <$> l)) -> encodable (WList k' (id_tree <$> l')) ->
  wire_bytes (WList k (id_tree <$> l)) = wire_bytes (WList k' (id_tree <$> l')) -> l = l'.
Proof. apply list_parts, Forall_true. intros x y Hx Hy _ _. by apply id_tree_inj. Qed.

(** ** Types *)

Lemma type_repr_inv t : type_repr t <-> type_node_repr t /\ Forall type_repr (type_children t).
Proof. apply AllNodes_inv. Qed.

Definition type_inj (t : TypeExpr) : Prop := forall t',
  type_repr t -> type_repr t' -> encodable (type_tree t) -> encodable (type_tree t') ->
  wire_bytes (type_tree t) = wire_bytes (type_tree t') -> t = t'.

Lemma width_small w : (w < 2 ^ 16)%N -> (w < 2 ^ 128)%N. Proof. lia. Qed.
Lemma ordinal_small w : (w < 2 ^ 32)%N -> (w < 2 ^ 128)%N. Proof. lia. Qed.

Lemma kind_tag_inj a b : BuiltinFailureKind_tag a = BuiltinFailureKind_tag b -> a = b.
Proof. by destruct a, b. Qed.
Lemma kind_tag_small a : (BuiltinFailureKind_tag a < 2 ^ 128)%N.
Proof. by destruct a. Qed.

Lemma pair_inj a b a' b' :
  type_inj a -> type_inj b -> type_repr a -> type_repr b -> type_repr a' -> type_repr b' ->
  encodable (WRecord [type_tree a; type_tree b]) -> encodable (WRecord [type_tree a'; type_tree b']) ->
  wire_bytes (WRecord [type_tree a; type_tree b]) = wire_bytes (WRecord [type_tree a'; type_tree b']) ->
  a = a' /\ b = b'.
Proof.
  intros Ha Hb ? ? ? ? He He' H. apply record_parts in H as (H & Hl & Hl'); [|done..].
  rewrite !Forall2_cons in H. rewrite !Forall_cons in Hl, Hl'. destruct_and!. split; [by apply Ha|by apply Hb].
Qed.

Lemma type_tree_inj t : type_inj t.
Proof.
  induction t as [t IH] using TypeExpr_ind'. intros t' Hr Hr' He He' H.
  apply type_repr_inv in Hr as [Hn Hc], Hr' as [Hn' Hc'].
  rewrite (type_payload_tree t) in He, H. rewrite (type_payload_tree t') in He', H.
  pose proof (TypeExpr_tag_bound t) as Bt. pose proof (TypeExpr_tag_bound t') as Bt'.
  apply union_parts in H as [Htag H]; [|done..].
  destruct t, t'; try discriminate Htag; clear Htag Bt Bt';
    cbn [type_payload fmap option_fmap option_map node_tree payload_bytes type_node_repr type_children] in *;
    try done; try (apply encodable_union in He, He').
  all: rewrite ?Forall_cons in *; destruct_and?.
  - f_equal. apply number_tree_inj; auto using width_small.
  - f_equal. apply number_tree_inj; auto using width_small.
  - f_equal. by eapply (list_parts type_tree type_repr).
  - apply record_parts in H as (H & Hl & Hl'); [|done..]. rewrite !Forall2_cons in H. rewrite !Forall_cons in Hl, Hl'.
    destruct_and!. f_equal; [by apply id_tree_inj|]. by eapply (list_parts type_tree type_repr).
  - f_equal. naive_solver.
  - apply pair_inj in H as [-> ->]; done.
  - f_equal. naive_solver.
  - apply pair_inj in H as [-> ->]; done.
  - rewrite Forall_app, Forall_singleton in *. destruct_and!.
    apply record_parts in H as (H & Hl & Hl'); [|done..]. rewrite !Forall2_cons in H. rewrite !Forall_cons in Hl, Hl'.
    destruct_and!. f_equal; [by eapply (list_parts type_tree type_repr)|naive_solver|by eapply ids_inj].
  - f_equal. by apply id_tree_inj.
  - f_equal. by apply id_tree_inj.
  - f_equal. naive_solver.
  - f_equal. apply number_tree_inj; auto using ordinal_small.
  - f_equal. apply kind_tag_inj, number_tree_inj; auto using kind_tag_small.
Qed.

(** ** Constants *)

Definition value_inj (v : ConstValue) : Prop := forall v',
  value_repr v -> value_repr v' -> encodable (value_tree v) -> encodable (value_tree v') ->
  wire_bytes (value_tree v) = wire_bytes (value_tree v') -> v = v'.

Lemma field_inj f f' :
  value_inj (fc_value f) -> is_id (fc_member_id f) = true /\ value_repr (fc_value f) ->
  is_id (fc_member_id f') = true /\ value_repr (fc_value f') ->
  encodable (node_tree (NField f)) -> encodable (node_tree (NField f')) ->
  wire_bytes (node_tree (NField f)) = wire_bytes (node_tree (NField f')) -> f = f'.
Proof.
  intros Hf [Hm Hv] [Hm' Hv'] He He' H. cbn [node_tree] in *. apply record_parts in H as (H & Hl & Hl'); [|done..].
  rewrite !Forall2_cons in H. rewrite !Forall_cons in Hl, Hl'. destruct_and!. destruct f, f'; cbn in *.
  f_equal; [by apply id_tree_inj|by apply Hf].
Qed.

Lemma entry_inj e e' :
  value_inj (me_key e) -> value_inj (me_value e) -> value_repr (me_key e) /\ value_repr (me_value e) ->
  value_repr (me_key e') /\ value_repr (me_value e') ->
  encodable (node_tree (NEntry e)) -> encodable (node_tree (NEntry e')) ->
  wire_bytes (node_tree (NEntry e)) = wire_bytes (node_tree (NEntry e')) -> e = e'.
Proof.
  intros Hk Hv [Hm Hw] [Hm' Hw'] He He' H. cbn [node_tree] in *. apply record_parts in H as (H & Hl & Hl'); [|done..].
  rewrite !Forall2_cons in H. rewrite !Forall_cons in Hl, Hl'. destruct_and!. destruct e, e'; cbn in *.
  f_equal; [by apply Hk|by apply Hv].
Qed.

Lemma option_inj o o' :
  Forall value_inj (option_list o) -> Forall value_repr (option_list o) -> Forall value_repr (option_list o') ->
  encodable (node_tree (NOption o)) -> encodable (node_tree (NOption o')) ->
  wire_bytes (node_tree (NOption o)) = wire_bytes (node_tree (NOption o')) -> o = o'.
Proof.
  intros Hi Hr Hr' He He' H. cbn [node_tree] in *. unfold option_tree in *.
  apply union_parts in H as [Ht H]; [|by destruct o|by destruct o'|done..].
  destruct o as [v|], o' as [v'|]; try done. cbn in *. apply encodable_union in He, He'.
  rewrite Forall_singleton in *. f_equal. by apply Hi.
Qed.

Lemma entries_repr (P : ConstValue -> Prop) entries :
  Forall P (entries ≫= fun e => [me_key e; me_value e]) <-> Forall (fun e => P (me_key e) /\ P (me_value e)) entries.
Proof.
  induction entries as [|e entries IH]; [by split|]. cbn. rewrite !Forall_cons, IH. tauto.
Qed.

Lemma float_atom_inj n (enc : N -> scb_result bytes) a b :
  (forall x r, enc x = Ok r -> r = be_bytes n x) -> (a < 256 ^ N.of_nat n)%N -> (b < 256 ^ N.of_nat n)%N ->
  encodable (WAtom (map_err Fails (enc a))) -> encodable (WAtom (map_err Fails (enc b))) ->
  wire_bytes (WAtom (map_err Fails (enc a))) = wire_bytes (WAtom (map_err Fails (enc b))) -> a = b.
Proof.
  intros Henc Ha Hb (d & _ & _ & r & Hr) (d' & _ & _ & r' & Hr') H.
  destruct (enc a) eqn:Ea; [|done]. destruct (enc b) eqn:Eb; [|done]. cbn in H.
  apply Henc in Ea, Eb. subst. by apply be_bytes_inj in H.
Qed.

Lemma encode_f32_bits_be x r : encode_f32_bits x = Ok r -> r = be_bytes 4 x.
Proof. unfold encode_f32_bits. by intros (? & _ & [= <-])%bind_Ok. Qed.
Lemma encode_f64_bits_be x r : encode_f64_bits x = Ok r -> r = be_bytes 8 x.
Proof. unfold encode_f64_bits. by intros (? & _ & [= <-])%bind_Ok. Qed.

Lemma encodable_bytes b : encodable (WBytes b) -> (len b < U64_LIMIT)%N.
Proof. intros (d & _ & _ & H). unfold MAX_BYTE_PAYLOAD, U64_LIMIT in *. lia. Qed.

Definition data_inj (d : ConstData) : Prop := forall d',
  data_repr d -> data_repr d' -> Forall value_repr (const_children d) -> Forall value_repr (const_children d') ->
  encodable (data_tree d) -> encodable (data_tree d') -> wire_bytes (data_tree d) = wire_bytes (data_tree d') -> d = d'.

Lemma data_tree_inj d : Forall value_inj (const_children d) -> data_inj d.
Proof.
  intros IH d' Hn Hn' Hc Hc' He He' H.
  rewrite (data_payload_tree d) in He, H. rewrite (data_payload_tree d') in He', H.
  apply union_parts in H as [Htag H]; [|apply ConstData_tag_bound|apply ConstData_tag_bound|done..].
  destruct d, d'; try discriminate Htag; clear Htag;
    cbn [data_payload fmap option_fmap option_map payload_bytes data_repr const_children] in *;
    try done; try (apply encodable_union in He, He').
  - destruct b, b0; (done || discriminate H).
  - f_equal. by apply signed_tree_inj.
  - rewrite is_u128_lt in Hn, Hn'. f_equal. by apply number_tree_inj.
  - f_equal. by eapply (float_atom_inj 4), H; [apply encode_f32_bits_be|..].
  - f_equal. by eapply (float_atom_inj 8), H; [apply encode_f64_bits_be|..].
  - f_equal. by apply framed_inj; [apply encodable_bytes..|].
  - f_equal. by apply framed_inj; [apply encodable_bytes..|].
  - f_equal. cbn [node_tree sequence_tree] in *. by eapply (list_parts value_tree value_repr).
  - destruct r as [i fs], r0 as [i' fs']. cbn [node_tree record_tree rc_definition rc_fields] in *.
    apply record_parts in H as (H & Hl & Hl'); [|done..]. rewrite !Forall2_cons in H. rewrite !Forall_cons in Hl, Hl'.
    destruct_and!. do 2 f_equal; [by apply id_tree_inj|]. rewrite Forall_fmap in *.
    apply (list_parts (fun f => node_tree (NField f)) (fun f => is_id (fc_member_id f) = true /\ value_repr (fc_value f))
      KPlain KPlain); [|by apply Forall_and|by apply Forall_and|done..]. eapply Forall_impl; [exact IH|]. intros f Hf f' ? ? ? ? ?. by apply field_inj.
  - destruct v as [i m p], v0 as [i' m' p']. cbn [node_tree vk_definition vk_member_id vk_payload] in *.
    apply record_parts in H as (H & Hl & Hl'); [|done..]. rewrite !Forall2_cons in H. rewrite !Forall_cons in Hl, Hl'.
    destruct_and!. do 2 f_equal; [by apply id_tree_inj..|by apply option_inj].
  - f_equal. cbn [node_tree sequence_tree] in *. rewrite entries_repr in *.
    apply (list_parts (fun e => node_tree (NEntry e)) (fun e => value_repr (me_key e) /\ value_repr (me_value e))
      KMap KMap); [|done..]. eapply Forall_impl; [exact IH|]. intros e [? ?] e' ? ? ? ? ?. by apply entry_inj.
  - f_equal. by apply option_inj.
  - cbn [node_tree] in *. apply union_parts in H as [Htag H]; [|by destruct r|by destruct r0|done..].
    destruct r, r0; try discriminate Htag; cbn [payload_bytes] in *; apply encodable_union in He, He';
      rewrite Forall_singleton in *; do 2 f_equal; by apply IH.
  - destruct f as [g ts], f0 as [g' ts']. cbn [node_tree frv_function frv_type_arguments] in *.
    apply record_parts in H as (H & Hl & Hl'); [|done..]. rewrite !Forall2_cons in H. rewrite !Forall_cons in Hl, Hl'.
    destruct_and!. do 2 f_equal; [by apply id_tree_inj|]. eapply (list_parts type_tree type_repr); try done.
    apply Forall_true. intros t. apply type_tree_inj.
  - destruct f as [k c], f0 as [k' c']. cbn [node_tree bfv_kind bfv_code] in *.
    apply record_parts in H as (H & Hl & Hl'); [|done..]. rewrite !Forall2_cons in H. destruct_and!.
    do 2 f_equal; [apply kind_tag_inj, number_tree_inj; auto using kind_tag_small|].
    apply number_tree_inj; auto using width_small.
Qed.

Lemma value_tree_inj v : value_inj v.
Proof.
  induction v as [t d IH] using ConstValue_ind'. intros [t' d'] Hr Hr' He He' H.
  apply value_repr_inv in Hr as (Ht & Hd & Hc), Hr' as (Ht' & Hd' & Hc').
  rewrite (value_tree_eq (mkConstValue t d)) in He, H. rewrite (value_tree_eq (mkConstValue t' d')) in He', H.
  cbn [cv_type cv_data] in *. apply record_parts in H as (H & Hl & Hl'); [|done..].
  rewrite !Forall2_cons in H. rewrite !Forall_cons in Hl, Hl'. destruct_and!.
  f_equal; [by apply type_tree_inj|by apply data_tree_inj].
Qed.

Lemma encode_const_value_inj v w b :
  value_repr v -> value_repr w -> encode_const_value v = Ok b -> encode_const_value w = Ok b -> v = w.
Proof.
  intros Hv Hw [Hok ->]%encode_const_value_Ok [Hok' Hb]%encode_const_value_Ok.
  apply value_tree_inj; try done; eexists; by apply wire_ok_false.
Qed.

(** Two constants with the same canonical bytes are the same
    constant. *)
Theorem encode_const_value_injective v w b :
  value_repr v -> value_repr w -> encode_const_value v = Ok b -> encode_const_value w = Ok b -> v = w.
Proof. apply encode_const_value_inj. Qed.

Lemma encode_const_value_injective_witness :
  let v := mkConstValue (TOption (TUInt 8)) (DOption (Some (mkConstValue (TUInt 8) (DUInt 200)))) in
  exists b, encode_const_value v = Ok b /\ v = v.
Proof.
  set (v := mkConstValue (TOption (TUInt 8)) (DOption (Some (mkConstValue (TUInt 8) (DUInt 200))))).
  assert (value_repr v) as Hv.
  { repeat (constructor || apply Forall_cons_2 || apply AllNodes_node); cbn; (done || lia). }
  eexists. split; [vm_compute; reflexivity|].
  eapply (encode_const_value_injective v v); [exact Hv|exact Hv|vm_compute; reflexivity..].
Defined.
