(* ===== verification/ConstExact.v ===== *)
(** * The mutation codec: what the encoder of constants answers, errors included

    [wire_check] is the recursive reference of the limits and of the canonical
    form: it walks the tree of a value once, in the order of the wire, with
    neither lengths measured apart, cursors nor chunks, and gives the error of
    the first place that breaks a rule.  Encoding a constant is checking its tree
    and writing its bytes. *)

From S2P Require Import Prelude Bytes Ids Ssmc Types Repr Scb1Core Scb1Cursor ConstEncoding ConstWire ConstInjective.
Set Warnings "-register-all".

(** ** The reference check *)

(** What is asked of the key of an entry, once the key itself is checked *)
Abbreviation key_rule := (bytes -> enc_result unit).
Definition no_rule : key_rule := fun _ => Ok tt.
Definition after_key (previous key : bytes) : enc_result unit := ensure_increasing (bytes_cmp previous key).

(** What is asked of a tree before its children *)
Definition root_check (depth : N) (w : wire) : enc_result unit :=
  match w with
  | WAtom content => _ ← check_depth depth; _ ← content; Ok tt
  | WBytes b => _ ← check_depth depth; if (MAX_BYTE_PAYLOAD <? len b)%N then limit else Ok tt
  | _ => check_container_depth depth
  end.

Definition within_limit (w : wire) : enc_result unit :=
  if (MAX_STANDALONE_BYTES <? len (wire_bytes w))%N then limit else Ok tt.

(** Consecutive identifiers ascend. *)
Fixpoint ids_check (previous : option bytes) (ids : list wire) : enc_result unit :=
  match ids with
  | [] => Ok tt
  | id :: ids =>
      match previous with Some previous => after_key previous (wire_bytes id) | None => Ok tt end ≫= fun _ =>
      ids_check (Some (wire_bytes id)) ids
  end.

Section children.
Variable check : key_rule -> wire -> enc_result unit.

Definition fields_check (rule : key_rule) (fields : list wire) : enc_result unit :=
  match fields with
  | [] => Ok tt
  | first :: rest =>
      _ ← check no_rule first;
      _ ← rule (wire_bytes first);
      for_each (check no_rule) rest
  end.

(** The elements of a list, after [length] bytes of it, with the bytes then
    reached; the key of an entry is
    compared with that of the entry before. *)
Fixpoint items_check (kind : ListKind) (previous : option bytes) (length : N) (items : list wire) : enc_result N :=
  match items with
  | [] => Ok length
  | item :: items =>
      _ ← check match kind, previous with KMap, Some previous => after_key previous | _, _ => no_rule end item;
      length ← add length (len (framed (wire_bytes item)));
      items_check kind (Some (entry_key item)) length items
  end.
End children.

(** [rule] is the rule of the first field. *)
Fixpoint wire_check (depth : N) (rule : key_rule) (w : wire) : enc_result unit :=
  _ ← root_check depth w;
  _ ← match w with
      | WAtom _ | WBytes _ | WUnion _ None => Ok tt
      | WUnion _ (Some payload) => wire_check (depth + 1) no_rule payload
      | WRecord fields => fields_check (wire_check (depth + 1)) rule fields
      | WList kind items =>
          _ ← (if kind is KIds then ids_check None items else Ok tt);
          _ ← items_check (wire_check (depth + 1)) kind None (uvar_len (len items)) items;
          if (MAX_COLLECTION_ELEMENTS <? len items)%N then limit else Ok tt
      end;
  within_limit w.

(** ** Measuring is checking *)

Definition checked (depth : N) (w : wire) : enc_result N := _ ← wire_check depth no_rule w; Ok (len (wire_bytes w)).

Lemma bind_assoc {E A B C} (m : result E A) (f : A -> result E B) (g : B -> result E C) :
  (x ← m; f x) ≫= g = (x ← m; f x ≫= g).
Proof. by destruct m. Qed.

Lemma wire_check_len depth rule w : wire_check depth rule w = Ok tt -> (len (wire_bytes w) <= MAX_STANDALONE_BYTES)%N.
Proof.
  intros H. assert (within_limit w = Ok tt) as Hw.
  { destruct w; cbn [wire_check] in H; apply bind_Ok in H as (? & _ & H); by apply bind_Ok in H as (? & _ & H). }
  unfold within_limit in Hw. destruct (N.ltb_spec MAX_STANDALONE_BYTES (len (wire_bytes w))); done.
Qed.

Lemma within_limit_length w : (_ ← within_limit w; Ok (len (wire_bytes w))) = checked_length (len (wire_bytes w)).
Proof. unfold within_limit, checked_length. by case_match. Qed.

(** The depth of a container is within that of an atom. *)
Lemma container_check depth : (_ ← check_depth depth; check_container_depth depth) = check_container_depth depth.
Proof.
  unfold check_depth, check_container_depth.
  destruct (N.ltb_spec MAX_NESTING_DEPTH depth), (N.leb_spec MAX_NESTING_DEPTH depth); (done || lia).
Qed.

Lemma layout_error node depth e : layout node depth = Err e <-> root_check depth (node_tree node) = Err e.
Proof.
  assert (forall P : enc_result Layout, (exists l, P = Ok l) ->
    (_ ← check_container_depth depth; P) = Err e <-> check_container_depth depth = Err e) as Hc.
  { intros P [l ->]. destruct (check_container_depth depth); split; by intros [= <-]. }
  unfold layout, visit. rewrite <- (bind_assoc (check_depth depth)).
  destruct node; cbn [is_scalar node_tree]; rewrite ?container_check;
    rewrite ?value_tree_eq, ?data_payload_tree, ?type_payload_tree, ?option_tree_eq, ?sequence_tree_eq;
    cbn [root_check record_tree]; try (apply Hc; by eexists).
  all: unfold number_tree; cbn [root_check]; destruct (check_depth depth) as [[]|];
    cbn [mbind result_bind]; [|split; by intros [= <-]].
  - destruct (Chunk_unsigned v); split; by intros [= <-].
  - destruct (Chunk_signed v); split; by intros [= <-].
  - done.
  - destruct (encode_f32_bits v) eqn:E; [|split; by intros [= <-]]. cbn [map_err mbind result_bind].
    by rewrite (encode_f32_inline _ _ E).
  - destruct (encode_f64_bits v) eqn:E; [|split; by intros [= <-]]. cbn [map_err mbind result_bind].
    by rewrite (encode_f64_inline _ _ E).
  - done.
  - destruct (MAX_BYTE_PAYLOAD <? len v)%N; split; by intros [= <-].
Qed.

Lemma layout_root node depth l : layout node depth = Ok l -> root_check depth (node_tree node) = Ok tt.
Proof.
  intros Hl. destruct (root_check depth (node_tree node)) as [[]|e] eqn:E; [done|].
  apply layout_error in E. congruence.
Qed.

(** A bound on what was checked *)
Lemma sized_checked b : (len b <= MAX_STANDALONE_BYTES)%N -> sized (len b) = Ok (len (framed b)).
Proof. intros H. by apply (sized_Ok _ b). Qed.

(** A child whose measurement is its check *)
Lemma framed_length_check get extra acc i (c : enc_result unit) w :
  get i = (_ ← c; Ok (len (wire_bytes w))) ->
  (c = Ok tt -> (len (wire_bytes w) <= MAX_STANDALONE_BYTES)%N) ->
  framed_length get extra acc i
  = (_ ← c;
     match extra i with
     | Some b => framed_bytes ← add (len b) (len (framed (wire_bytes w))); add acc framed_bytes
     | None => add acc (len (framed (wire_bytes w)))
     end).
Proof.
  intros Hget Hlen. unfold framed_length. rewrite Hget. destruct c as [[]|]; [|done]. cbn [mbind result_bind].
  by rewrite sized_checked by auto.
Qed.

Section level.
Variables (rec : Node -> N -> bool -> enc_result N) (depth : N).
Hypothesis rec_exact : forall node, rec node (depth + 1)%N true = checked (depth + 1) (node_tree node).

Lemma fields_loop fields pre suf acc :
  RecordFields_nodes fields = pre ++ suf ->
  (acc + (len suf) * (MAX_STANDALONE_BYTES + 100) < U64_LIMIT)%N ->
  fold_res (framed_length (fun index => child ← RecordFields_get fields index; rec child (depth + 1)%N true)
      (fun i => Some (encode_uvar (i + 1)))) acc (N.of_nat <$> seq (length pre) (length suf))
  = (_ ← for_each (wire_check (depth + 1) no_rule) (node_tree <$> suf);
     Ok (acc + len (record_bytes wire_bytes (len pre + 1) (node_tree <$> suf)))%N).
Proof using rec_exact.
  revert pre acc. induction suf as [|node suf IH]; intros pre acc E Hacc.
  { cbn. by rewrite N.add_0_r. }
  cbn [length seq fmap list_fmap fold_res for_each]. rewrite bind_assoc.
  assert (RecordFields_get fields (N.of_nat (length pre)) = Ok node) as Hget.
  { apply RecordFields_get_nodes. rewrite E. by apply list_lookup_middle. }
  rewrite (framed_length_check _ _ _ _ (wire_check (depth + 1) no_rule (node_tree node)) (node_tree node)).
  2: { rewrite Hget. cbn [mbind result_bind]. apply rec_exact. }
  2: { apply wire_check_len. }
  destruct (wire_check (depth + 1) no_rule (node_tree node)) as [[]|] eqn:Hc; [|done].
  apply wire_check_len in Hc. cbn [mbind result_bind record_bytes].
  assert (len (framed (wire_bytes (node_tree node))) <= MAX_STANDALONE_BYTES + 10)%N as Hf.
  { rewrite len_framed. pose proof (length_uvar_groups 10 (len (wire_bytes (node_tree node)))).
    change (encode_uvar ?x) with (uvar_groups 10 x). unfold len at 1. lia. }
  pose proof (length_uvar_groups 10 (N.of_nat (length pre) + 1)) as Hu.
  change (uvar_groups 10 ?x) with (encode_uvar x) in Hu.
  assert (len (encode_uvar (N.of_nat (length pre) + 1)) <= 10)%N as Hu' by (unfold len; lia). clear Hu.
  rewrite len_cons in Hacc. rewrite add_small by (unfold MAX_STANDALONE_BYTES, U64_LIMIT in *; lia).
  cbn [mbind result_bind]. rewrite add_small by (unfold MAX_STANDALONE_BYTES, U64_LIMIT in *; nia).
  cbn [mbind result_bind]. replace (S (length pre)) with (length (pre ++ [node])) by (rewrite length_app; cbn; lia).
  rewrite IH; [|by rewrite <- app_assoc|unfold MAX_STANDALONE_BYTES, U64_LIMIT in *; nia].
  rewrite len_app, len_cons, len_nil. fold (len pre).
  replace (len pre + (1 + 0) + 1)%N with (len pre + 1 + 1)%N by lia. rewrite !len_app.
  by rewrite !N.add_assoc.
Qed.

Lemma measure_record_check fields first :
  (forall l, first = Some l -> exists node, RecordFields_nodes fields !! 0%nat = Some node /\
     rec node (depth + 1)%N true = Ok l) ->
  measure_record rec fields depth true first
  = (_ ← for_each (wire_check (depth + 1) no_rule) (node_tree <$> RecordFields_nodes fields);
     Ok (len (wire_bytes (WRecord (node_tree <$> RecordFields_nodes fields))))).
Proof using rec_exact.
  intros Hfirst. rewrite measure_record_loop by done. rewrite indices_len, length_fmap.
  assert (len (RecordFields_nodes fields) <= 3)%N as Hn by by destruct fields.
  rewrite (fields_loop fields [] (RecordFields_nodes fields)); [|done|].
  - cbn [wire_bytes]. by rewrite len_app, len_fmap.
  - pose proof (length_uvar_groups 10 (len (RecordFields_nodes fields))) as Hu.
    change (uvar_groups 10 ?x) with (encode_uvar x) in Hu. unfold len at 1, MAX_STANDALONE_BYTES, U64_LIMIT. lia.
Qed.
End level.

(** The check accepts what the codec accepts. *)
Lemma check_ok rec depth node :
  rec node depth true = checked depth (node_tree node) -> measures true rec depth ->
  wire_check depth no_rule (node_tree node) = Ok tt <-> wire_ok true depth (node_tree node).
Proof.
  intros Hexact Hspec. pose proof (Hspec node (len (wire_bytes (node_tree node)))) as H. rewrite Hexact in H.
  unfold checked in H. destruct (wire_check _ _ _) as [[]|]; cbn in H; naive_solver.
Qed.

Lemma wire_check_rule depth rule w : wire_check depth rule w = Ok tt -> wire_check depth no_rule w = Ok tt.
Proof.
  destruct w as [| | |fields|]; try done. cbn [wire_check]. destruct (root_check _ _) as [[]|]; [|done].
  cbn [mbind result_bind]. destruct fields as [|first rest]; [done|]. cbn [fields_check].
  destruct (wire_check _ _ _) as [[]|]; [|done]. cbn [mbind result_bind]. by destruct (rule _) as [[]|].
Qed.

(** ** Lists *)

Section list_level.
Variables (rec : Node -> N -> bool -> enc_result N) (depth : N).
Hypothesis rec_exact : forall node, rec node (depth + 1)%N true = checked (depth + 1) (node_tree node).
Hypothesis rec_exact2 : forall node, rec node (depth + 2)%N true = checked (depth + 2) (node_tree node).
Hypothesis rec_spec : measures true rec (depth + 1).
Hypothesis rec_spec2 : measures true rec (depth + 2).

(** An entry is its record, its key compared with the one before. *)
Lemma measure_entry_check entries i e (rule : key_rule) :
  entries !! i = Some e ->
  (wire_check (depth + 2) no_rule (value_tree (me_key e)) = Ok tt ->
   (if (0 <? N.of_nat i)%N then
      previous ← ok_or Panics (entries !! N.to_nat (N.of_nat i - 1));
      order ← compare_validated (NValue (me_key previous)) (NValue (me_key e)) (depth + 2)%N;
      ensure_increasing order
    else Ok tt) = rule (wire_bytes (value_tree (me_key e)))) ->
  measure_entry compare_validated rec entries (N.of_nat i) depth
  = (_ ← wire_check (depth + 1) rule (node_tree (NEntry e)); Ok (len (wire_bytes (node_tree (NEntry e))))).
Proof using rec_exact2.
  intros He Hrule. unfold measure_entry. rewrite Nat2N.id, He. cbn [ok_or mbind result_bind].
  rewrite rec_exact2. unfold checked. rewrite !bind_assoc. cbn [node_tree wire_check root_check fields_check for_each].
  rewrite layout_entry. replace (depth + 1 + 1)%N with (depth + 2)%N by lia.
  unfold check_container_depth. destruct (N.leb_spec MAX_NESTING_DEPTH (depth + 1)) as [Hd|Hd].
  { destruct (me_key e). cbn [value_tree wire_check root_check]. unfold check_container_depth.
    by replace (MAX_NESTING_DEPTH <=? depth + 2)%N with true by lia. }
  cbn [mbind result_bind]. destruct (wire_check (depth + 2) no_rule (value_tree (me_key e))) as [[]|] eqn:Hk; [|done].
  cbn [mbind result_bind]. rewrite Hrule by done. destruct (rule _) as [[]|]; [|done]. cbn [mbind result_bind].
  replace (depth + 1 <? MAX_NESTING_DEPTH)%N with true by lia. cbn [mbind result_bind].
  rewrite (measure_record_check rec (depth + 1)); replace (depth + 1 + 1)%N with (depth + 2)%N by lia; [|done|].
  - cbn [RecordFields_nodes fmap list_fmap node_tree for_each]. rewrite Hk. cbn [mbind result_bind]. rewrite !bind_assoc.
    destruct (wire_check (depth + 2) no_rule (value_tree (me_value e))) as [[]|]; [|done].
    symmetry. apply within_limit_length.
  - intros l [= <-]. exists (NValue (me_key e)). split; [done|]. rewrite rec_exact2. unfold checked. cbn [node_tree].
    by rewrite Hk.
Qed.

(** The rule for the element after [pre] *)
Definition rule_after (kind : ListKind) (previous : option bytes) : key_rule :=
  match kind, previous with KMap, Some previous => after_key previous | _, _ => no_rule end.

Lemma list_get_check values pre node suf :
  Sequence_nodes values = pre ++ node :: suf ->
  (forall n, last pre = Some n -> wire_ok true (depth + 1) (node_tree n)) ->
  list_get true rec depth compare_validated values (len pre)
  = (_ ← wire_check (depth + 1) (rule_after (Sequence_kind values) (entry_key ∘ node_tree <$> last pre)) (node_tree node);
     Ok (len (wire_bytes (node_tree node)))).
Proof using rec_exact rec_exact2 rec_spec2.
  intros E Hlast. assert (Sequence_nodes values !! length pre = Some node) as Hn by (rewrite E; by apply list_lookup_middle).
  unfold list_get, len. destruct values as [v|v|v|entries|v]; cbn [Sequence_kind rule_after];
    try (rewrite (Sequence_get_nodes _ _ _ Hn); cbn [mbind result_bind]; apply rec_exact).
  cbn [Sequence_nodes] in Hn. apply list_lookup_fmap_Some in Hn as (e & -> & He).
  apply measure_entry_check; [done|]. intros Hk. cbn [Sequence_nodes] in E.
  destruct pre as [|previous pre _] using rev_ind; [done|]. rewrite last_snoc in *.
  assert (exists p, previous = NEntry p /\ entries !! length pre = Some p) as (p & -> & Hp).
  { assert ((NEntry <$> entries) !! length pre = Some previous) as Hp.
    { rewrite E, <- app_assoc. by apply list_lookup_middle. }
    apply list_lookup_fmap_Some in Hp as (p & -> & Hp). eauto. }
  rewrite length_app. cbn [length fmap option_fmap option_map compose rule_after].
  replace (0 <? N.of_nat (length pre + 1))%N with true by lia.
  replace (N.to_nat (N.of_nat (length pre + 1) - 1)) with (length pre) by lia.
  rewrite Hp. cbn [ok_or mbind result_bind]. specialize (Hlast _ eq_refl).
  apply (entry_ok_inv true depth) in Hlast as (Hd & Hpk & _).
  rewrite compare_validated_ok; [done|by apply wire_ok_false|].
  apply wire_ok_false. by apply (check_ok rec (depth + 2) (NValue (me_key e))).
Qed.

Lemma items_loop values pre suf acc :
  Sequence_nodes values = pre ++ suf ->
  (forall n, last pre = Some n -> wire_ok true (depth + 1) (node_tree n)) ->
  fold_res (framed_length (list_get true rec depth compare_validated values) (fun _ => None)) acc
    (N.of_nat <$> seq (length pre) (length suf))
  = items_check (wire_check (depth + 1)) (Sequence_kind values) (entry_key ∘ node_tree <$> last pre) acc (node_tree <$> suf).
Proof using rec_exact rec_exact2 rec_spec rec_spec2.
  revert pre acc. induction suf as [|node suf IH]; intros pre acc E Hlast; [done|].
  cbn [length seq fmap list_fmap fold_res items_check].
  rewrite (framed_length_check _ _ _ _ _ (node_tree node) (list_get_check _ _ _ _ E Hlast)) by apply wire_check_len.
  rewrite bind_assoc. fold (rule_after (Sequence_kind values) (entry_key ∘ node_tree <$> last pre)).
  destruct (wire_check _ _ _) as [[]|] eqn:Hc; [|done]. cbn [mbind result_bind].
  destruct (add acc _) as [acc'|]; [|done]. cbn [mbind result_bind].
  replace (S (length pre)) with (length (pre ++ [node])) by (rewrite length_app; cbn; lia).
  rewrite IH; [|by rewrite <- app_assoc|].
  - by rewrite last_snoc.
  - rewrite last_snoc. intros n [= <-]. apply (check_ok rec); [done..|]. by eapply wire_check_rule.
Qed.

Lemma ids_check_tree previous ids :
  validate_ids_from previous ids = ids_check (id_bytes <$> previous) (id_tree <$> ids).
Proof.
  revert previous. induction ids as [|id ids IH]; intros previous; [done|].
  cbn [validate_ids_from ids_check fmap list_fmap]. rewrite (IH (Some id)). by destruct previous.
Qed.

Lemma items_check_length kind previous acc items n :
  items_check (wire_check (depth + 1)) kind previous acc items = Ok n -> n = (acc + len (list_bytes wire_bytes items))%N.
Proof.
  revert previous acc. induction items as [|item items IH]; intros previous acc; cbn [items_check list_bytes].
  - intros [= <-]. rewrite len_nil. lia.
  - intros ([] & _ & H)%bind_Ok. apply bind_Ok in H as (m & [-> _]%add_Ok & ->%IH). rewrite len_app. lia.
Qed.

Lemma measure_list_check values :
  (depth < MAX_NESTING_DEPTH)%N ->
  measure_list compare_validated rec values depth true ≫= checked_length = checked depth (sequence_tree values).
Proof using rec_exact rec_exact2 rec_spec rec_spec2.
  intros Hd. unfold checked. rewrite sequence_tree_eq. cbn [wire_check root_check]. unfold check_container_depth.
  replace (MAX_NESTING_DEPTH <=? depth)%N with false by lia. cbn [mbind result_bind].
  unfold measure_list. rewrite Sequence_len_nodes, len_fmap.
  assert (match values with SqIds ids => validate_entity_id_set_order ids | _ => Ok tt end
    = (if Sequence_kind values is KIds then ids_check None (node_tree <$> Sequence_nodes values) else Ok tt)) as ->.
  { destruct values; try done. cbn [Sequence_kind Sequence_nodes]. rewrite ids_nodes_tree. apply (ids_check_tree None). }
  rewrite !bind_assoc. destruct (if Sequence_kind values is KIds then _ else _) as [[]|]; [|done]. cbn [mbind result_bind].
  rewrite indices_len. pose proof (items_loop values [] (Sequence_nodes values)
    (uvar_len (len (Sequence_nodes values))) eq_refl ltac:(done)) as Hloop. cbn [length last fmap option_fmap option_map] in Hloop.
  rewrite <- Hloop. rewrite (fold_res_ext _ (framed_length (list_get true rec depth compare_validated values) (fun _ => None)))
    by (intros; by destruct values).
  destruct (fold_res _ _ _) as [n|] eqn:Hn; [|done]. cbn [mbind result_bind].
  destruct (N.ltb_spec MAX_COLLECTION_ELEMENTS (len (Sequence_nodes values))) as [|Hcount]; [done|]. cbn [mbind result_bind].
  rewrite within_limit_length. f_equal. symmetry in Hloop. apply items_check_length in Hloop as ->.
  cbn [wire_bytes]. rewrite len_app, len_fmap, uvar_len_uvar by (unfold MAX_COLLECTION_ELEMENTS, U64_LIMIT in *; lia). done.
Qed.
End list_level.

(** ** The encoder *)

Lemma fields_check_each depth fields :
  fields_check (wire_check depth) no_rule fields = for_each (wire_check depth no_rule) fields.
Proof. by destruct fields. Qed.

Lemma consume_check rec depth node l :
  (forall node, rec node (depth + 1)%N true = checked (depth + 1) (node_tree node)) ->
  ((depth < MAX_NESTING_DEPTH)%N -> forall node, rec node (depth + 2)%N true = checked (depth + 2) (node_tree node)) ->
  measures true rec (depth + 1) -> measures true rec (depth + 2) -> layout node depth = Ok l ->
  consume (Measure compare_validated rec depth true) l ≫= checked_length = checked depth (node_tree node).
Proof.
  intros H1 H2 M1 M2 Hl. pose proof (layout_root _ _ _ Hl) as Hroot. pose proof (layout_Ok _ _ _ Hl) as [_ Htree].
  rewrite Htree in *. destruct l as [chunk|b|tag payload|fields|values];
    cbn [consume Measure wc_atom wc_bytes wc_union wc_record wc_list].
  - unfold checked. cbn [layout_tree wire_check]. cbn [layout_tree] in Hroot. rewrite Hroot. cbn [mbind result_bind].
    symmetry. apply within_limit_length.
  - unfold checked. cbn [layout_tree wire_check]. cbn [layout_tree] in Hroot. rewrite Hroot. cbn [mbind result_bind].
    rewrite within_limit_length. rewrite sized_checked; [done|].
    apply layout_Ok in Hl as [Hl _]. rewrite Htree in Hl. cbn in Hl.
    unfold MAX_BYTE_PAYLOAD, MAX_STANDALONE_BYTES in *. lia.
  - unfold checked. cbn [layout_tree wire_check]. cbn [layout_tree] in Hroot. rewrite Hroot. cbn [mbind result_bind].
    apply layout_tag in Hl.
    assert (forall b : bytes, (len b <= MAX_STANDALONE_BYTES)%N ->
      (body ← sized (len b); add (uvar_len tag) body) ≫= checked_length
      = checked_length (len (encode_uvar tag ++ framed b))) as Hunion.
    { intros b Hb. rewrite sized_checked by done. cbn [mbind result_bind]. rewrite uvar_len_uvar, len_app by done.
      rewrite add_small; [done|]. pose proof (length_uvar_groups 10 tag) as Ht. pose proof (length_uvar_groups 10 (len b)) as Hu.
      change (uvar_groups 10 ?x) with (encode_uvar x) in *. rewrite len_framed. unfold len in *.
      unfold MAX_STANDALONE_BYTES, U64_LIMIT in *. lia. }
    destruct payload as [child|]; cbn [fmap option_fmap option_map].
    + rewrite H1. unfold checked. rewrite !bind_assoc. destruct (wire_check (depth + 1) no_rule (node_tree child)) as [[]|] eqn:Hc; [|done].
      apply wire_check_len in Hc. cbn [mbind result_bind]. cbv beta. rewrite Hunion, within_limit_length by done. done.
    + cbn [mbind result_bind]. rewrite within_limit_length. by apply (Hunion []).
  - unfold checked. cbn [layout_tree wire_check]. cbn [layout_tree] in Hroot. rewrite Hroot. cbn [mbind result_bind].
    rewrite measure_record_check, !bind_assoc by done. rewrite fields_check_each.
    destruct (for_each _ _) as [[]|]; [|done]. symmetry. apply within_limit_length.
  - apply layout_Ok in Hl as [Hl _]. rewrite Htree in Hl. cbn [layout_tree root_ok] in Hl.
    rewrite measure_list_check; auto. by rewrite sequence_tree_eq.
Qed.

Lemma measure_fuel_check fuel depth node :
  (depth <= MAX_NESTING_DEPTH + 1)%N -> (MAX_NESTING_DEPTH + 2 <= N.of_nat fuel + depth)%N ->
  measure_fuel compare_validated fuel node depth true = checked depth (node_tree node).
Proof.
  revert depth node. induction fuel as [|fuel IH]; intros depth node Hd Hf; [lia|].
  assert (forall d, (MAX_NESTING_DEPTH + 2 <= N.of_nat fuel + d)%N ->
    measures true (measure_fuel compare_validated fuel) d) as Hm.
  { intros d Hfd. apply measure_fuel_Ok; [intros _; apply compare_validated_ok|done]. }
  cbn [measure_fuel]. rewrite visit_layout. destruct (layout node depth) as [l|e] eqn:Hl; cbn [mbind result_bind].
  - assert (depth <= MAX_NESTING_DEPTH)%N as Hdl.
    { apply layout_Ok in Hl as [Hl _]. destruct (node_tree node); cbn in Hl; lia. }
    apply consume_check; [intros; apply IH; lia|intros; apply IH; lia|apply Hm; lia|apply Hm; lia|done].
  - apply layout_error in Hl. unfold checked. by destruct (node_tree node); cbn [wire_check]; rewrite Hl.
Qed.

Lemma measure_check node depth :
  (depth <= MAX_NESTING_DEPTH + 1)%N -> measure node depth true = checked depth (node_tree node).
Proof. intros Hd. apply measure_fuel_check; [done|apply depth_fuel_enough]. Qed.

(** The check accepts exactly the canonical trees within the limits. *)
Lemma wire_check_ok node depth :
  (depth <= MAX_NESTING_DEPTH + 1)%N ->
  wire_check depth no_rule (node_tree node) = Ok tt <-> wire_ok true depth (node_tree node).
Proof.
  intros Hd. apply (check_ok (fun node depth canonical => measure node depth canonical)); [by apply measure_check|].
  intros n m. apply measure_Ok.
Qed.

Lemma encode_const_value_check v :
  encode_const_value v = (_ ← wire_check 0 no_rule (value_tree v); Ok (wire_bytes (value_tree v))).
Proof.
  destruct (wire_check 0 no_rule (value_tree v)) as [[]|e] eqn:Hc; cbn [mbind result_bind].
  - apply encode_const_value_Ok. split; [|done]. by apply (wire_check_ok (NValue v) 0).
  - unfold encode_const_value, encode_at_depth, encode. change (check_depth 0) with (@Ok EncodeStop unit tt).
    rewrite measure_check by done. unfold checked. cbn [node_tree]. by rewrite Hc.
Qed.

(** ** No panic

    Only a number over 128 bits would make the encoder panic. *)

Fixpoint numbers_fit (w : wire) : Prop :=
  match w with
  | WAtom content => content <> Err Panics
  | WBytes _ | WUnion _ None => True
  | WUnion _ (Some payload) => numbers_fit payload
  | WRecord l | WList _ l => all_prop numbers_fit l
  end.

Lemma bind_no_panic {A B} (m : enc_result A) (f : A -> enc_result B) :
  m <> Err Panics -> (forall x, f x <> Err Panics) -> (m ≫= f) <> Err Panics.
Proof. intros Hm Hf. destruct m as [x|[]]; [apply Hf|done..]. Qed.

Lemma after_key_no_panic a b : after_key a b <> Err Panics.
Proof. unfold after_key. by destruct (bytes_cmp a b). Qed.

Lemma add_no_panic a b : add a b <> Err Panics.
Proof. unfold add. by destruct (checked_add a b). Qed.

Lemma ids_no_panic previous ids : ids_check previous ids <> Err Panics.
Proof.
  revert previous. induction ids as [|id ids IH]; intros previous; [done|]. cbn [ids_check].
  apply bind_no_panic; [|auto]. destruct previous; [apply after_key_no_panic|done].
Qed.

Section children_no_panic.
Context (check : key_rule -> wire -> enc_result unit).

Lemma fields_no_panic rule fields :
  (forall key, rule key <> Err Panics) -> Forall (fun w => check no_rule w <> Err Panics) fields ->
  fields_check check rule fields <> Err Panics.
Proof.
  intros Hrule H. destruct H as [|first rest Hfirst Hrest]; [done|]. cbn [fields_check].
  apply bind_no_panic; [done|intros _]. apply bind_no_panic; [done|intros _].
  induction Hrest; [done|]. by apply bind_no_panic.
Qed.

Lemma items_no_panic kind previous acc items :
  Forall (fun w => forall rule, (forall key, rule key <> Err Panics) -> check rule w <> Err Panics) items ->
  items_check check kind previous acc items <> Err Panics.
Proof.
  intros H. revert previous acc. induction H as [|item items Hitem _ IH]; intros previous acc; [done|]. cbn [items_check].
  apply bind_no_panic; [apply Hitem|intros _; apply bind_no_panic; [apply add_no_panic|auto]].
  intros key. destruct kind, previous; first [done|apply after_key_no_panic].
Qed.
End children_no_panic.

Lemma root_no_panic depth w : numbers_fit w -> root_check depth w <> Err Panics.
Proof.
  intros Hw. destruct w; cbn [root_check numbers_fit] in *; unfold check_depth, check_container_depth.
  - apply bind_no_panic; [by case_match|intros _]. by apply bind_no_panic.
  - apply bind_no_panic; [by case_match|intros _]. by case_match.
  - clear Hw. by case_match.
  - by case_match.
  - by case_match.
Qed.

Lemma wire_check_no_panic w depth rule :
  numbers_fit w -> (forall key, rule key <> Err Panics) -> wire_check depth rule w <> Err Panics.
Proof.
  revert depth rule. induction w as [content|b|tag payload IH|fields IH|kind items IH] using wire_ind';
    intros depth rule Hw Hrule; cbn [wire_check]; (apply bind_no_panic; [by apply root_no_panic|intros _]);
    (apply bind_no_panic; [|intros _; clear; unfold within_limit; by case_match]); cbn [numbers_fit] in Hw.
  - done.
  - done.
  - destruct payload as [w|]; [|done]. by apply IH.
  - apply fields_no_panic; [done|]. apply all_prop_Forall in Hw. rewrite Forall_forall in *. intros w Hin.
    by apply IH; auto.
  - apply bind_no_panic; [destruct kind; try done; apply ids_no_panic|intros _].
    apply bind_no_panic; [|intros _; by case_match].
    apply items_no_panic. apply all_prop_Forall in Hw. rewrite Forall_forall in *. intros w Hin. auto.
Qed.

(** *** The numbers of types and constants of their representation fit. *)

Lemma number_fits n : (n < 2 ^ 128)%N -> numbers_fit (number_tree n).
Proof. intros (c & Hc & _)%Chunk_unsigned_ok. unfold number_tree. cbn. by rewrite Hc. Qed.

Lemma signed_fits z : is_i128 z = true -> numbers_fit (WAtom (Chunk_bytes <$> Chunk_signed z)).
Proof.
  unfold is_i128, I128_MIN, I128_MAX. intros Hz. pose proof (zigzag_bound 128 z ltac:(lia) ltac:(unfold in_sint; lia)) as Hb.
  change (Chunk_signed z) with (Chunk_unsigned (zigzag 128 z)). destruct (Chunk_unsigned_ok _ Hb) as (c & Hc & _).
  change (Z.of_N 128) with 128%Z in *. cbn. by rewrite Hc.
Qed.

Lemma list_fits {A} (f : A -> wire) l : Forall (fun x => numbers_fit (f x)) l -> all_prop numbers_fit (f <$> l).
Proof. rewrite all_prop_Forall. by rewrite Forall_fmap. Qed.

Lemma ids_fit l : all_prop numbers_fit (id_tree <$> l).
Proof. apply list_fits, Forall_forall. done. Qed.

Lemma types_fit l : Forall (fun t => type_repr t -> numbers_fit (type_tree t)) l -> Forall type_repr l ->
  all_prop numbers_fit (type_tree <$> l).
Proof. intros H Hl. apply list_fits. rewrite Forall_forall in *. auto. Qed.

Lemma type_fits t : type_repr t -> numbers_fit (type_tree t).
Proof.
  induction t as [t IH] using TypeExpr_ind'. intros [Hn Hc]%type_repr_inv.
  destruct t; cbn [type_tree numbers_fit all_prop type_node_repr type_children] in *;
    rewrite ?Forall_app, ?Forall_cons in *; destruct_and?; split_and?;
    auto using number_fits, width_small, ordinal_small, kind_tag_small, types_fit, ids_fit; done.
Qed.

Lemma all_types_fit l : Forall type_repr l -> all_prop numbers_fit (type_tree <$> l).
Proof. intros H. apply types_fit; [|done]. apply Forall_true, type_fits. Qed.

Definition fits (v : ConstValue) : Prop := numbers_fit (value_tree v).

Lemma data_fits d : data_repr d -> Forall fits (const_children d) -> numbers_fit (data_tree d).
Proof.
  intros Hd Hc. rewrite data_payload_tree.
  destruct d as [ |b|z|n|n|n|b|s|items|r|v|entries|o|r|f|f]; cbn [data_payload fmap option_fmap option_map numbers_fit node_tree] in *;
    cbn [data_repr const_children sequence_tree numbers_fit] in *.
  - done.
  - done.
  - by apply signed_fits.
  - apply number_fits. by apply is_u128_lt.
  - by destruct (encode_f32_bits n).
  - by destruct (encode_f64_bits n).
  - done.
  - done.
  - by apply list_fits.
  - cbn [record_tree numbers_fit all_prop id_tree]. split_and!; try done. apply list_fits.
    rewrite Forall_fmap in Hc. eapply Forall_impl; [exact Hc|]. by intros f Hf.
  - cbn [numbers_fit all_prop id_tree]. split_and!; try done. destruct (vk_payload v) as [w|]; [|done].
    by inversion Hc.
  - apply list_fits. induction entries as [|e entries IH]; [done|]. cbn [mbind list_bind app] in Hc.
    rewrite !Forall_cons in Hc. destruct Hc as (Hk & Hv & Hc). constructor; [|by apply IH]. by cbn.
  - destruct o as [w|]; [|done]. by inversion Hc.
  - destruct r as [w|w]; by inversion Hc.
  - cbn [numbers_fit all_prop id_tree]. split_and!; try done. by apply all_types_fit, Hd.
  - cbn [numbers_fit all_prop]. split_and!; try done; apply number_fits; [apply kind_tag_small|by apply width_small].
Qed.

Lemma value_fits v : value_repr v -> fits v.
Proof.
  induction v as [t d IH] using ConstValue_ind'. intros (Ht & Hd & Hc)%value_repr_inv.
  unfold fits. rewrite value_tree_eq. cbn [numbers_fit all_prop cv_type cv_data].
  split_and!; [by apply type_fits| |done]. apply data_fits; [done|]. rewrite Forall_forall in *. auto.
Qed.

(** C27: equivalence. Encoding a constant (measure, then emit the chunks of the
    byte cursor, with map keys compared chunk by chunk) is, on every value and
    with the same error, the recursive reference: check the tree of the value
    once, then write its bytes; the check accepts exactly the trees that are
    canonical and within the limits; and on a value whose numbers have their
    width in memory the encoder does not panic. *)
Theorem encode_const_value_exact v :
  encode_const_value v = (_ ← wire_check 0 no_rule (value_tree v); Ok (wire_bytes (value_tree v))) /\
  (wire_check 0 no_rule (value_tree v) = Ok tt <-> wire_ok true 0 (value_tree v)) /\
  (value_repr v -> encode_const_value v <> Err Panics).
Proof.
  split_and!; [apply encode_const_value_check|by apply (wire_check_ok (NValue v))|].
  intros Hv. rewrite encode_const_value_check. apply bind_no_panic; [|done].
  apply wire_check_no_panic; [by apply value_fits|done].
Qed.

(** A map whose second key is lower than its first *)
Definition unordered_map : ConstValue :=
  let key n := mkConstValue (TUInt 8) (DUInt n) in
  mkConstValue (TOrderedMap (TUInt 8) TUnit)
    (DMap [mkMapEntryConst (key 5%N) (mkConstValue TUnit DUnit); mkMapEntryConst (key 4%N) (mkConstValue TUnit DUnit)]).

Lemma encode_const_value_exact_witness :
  encode_const_value unordered_map = Err (Fails ScbMapOrder) /\ encode_const_value unordered_map <> Err Panics.
Proof.
  assert (value_repr unordered_map) as Hv.
  { repeat (constructor || apply Forall_cons_2 || apply AllNodes_node); cbn; (done || lia). }
  split; [|by apply (encode_const_value_exact unordered_map)].
  rewrite (proj1 (encode_const_value_exact unordered_map)). vm_compute. reflexivity.
Defined.
