(* ===== verification/MutCodec.v ===== *)
(** * The mutation value codec: the trait and its combinators

    [trait MutationValueCodec] of crates/sley-mutate/src/codec.rs is the record
    [MutationValueCodec]; its implementations for lists, options, boxes, the
    records of [impl_required_record_codec!] and the tagged unions are functions
    on such records.  [CodecSpec] says what a codec is meant to do (its values,
    their tree on the wire, what decoding them allocates) and [LawfulAt] that it
    does, both ways; the instances derive one from the parts. *)

From S2P Require Import Prelude State Bytes Utf8 Scb1Core Scb1Cursor Scb1Schema Records Ssmc ConstEncoding ConstWire.
Set Warnings "-register-all".

(** ** Decoding: a cursor and a budget

    [cursor: &mut ScbValueCursor<'_>, budget: &mut DecodeBudget]; both are lost when
    a read fails, as every caller passes the failure on.  The budget is what has
    been allocated. *)

Definition MAX_TOTAL_ALLOCATION : N := 134217728.

Abbreviation DM := (ST (N * Reader) EncodeStop).

Definition fail {A} (code : ScbErrorCode) : DM A := fun _ => fails code.

(** A read of the cursor *)
Definition cursor_read {A} (m : RM A) : DM A := fun '(allocated, r) =>
  match m r with
  | (Ok a, r) => Ok (a, (allocated, r))
  | (Err code, _) => fails code
  end.

(** [DecodeBudget::charge] *)
Definition charge (n : N) : DM unit := fun '(allocated, r) =>
  allocated ← ok_or (Fails ScbResourceLimit) (checked_add allocated n);
  if (MAX_TOTAL_ALLOCATION <? allocated)%N then limit else Ok (tt, (allocated, r)).

(** [capacity.checked_mul(size_of::<T>())] *)
Definition checked_mul (a b : N) : option N := if (a * b <? U64_LIMIT)%N then Some (a * b)%N else None.
Definition charge_elements (count size : N) : DM unit :=
  bytes ← lift (ok_or (Fails ScbResourceLimit) (checked_mul count size));
  charge bytes.

(** ** The trait *)

Record MutationValueCodec (A : Type) : Type := mkCodec {
  encode_value : A -> N -> enc_result bytes;
  decode_value : N -> DM A
}.
Arguments mkCodec {A}. Arguments encode_value {A}. Arguments decode_value {A}.

Section exact.
Context {A : Type} (C : MutationValueCodec A).

Definition encode_at_depth (value : A) (depth : N) : enc_result bytes :=
  _ ← check_depth depth;
  encoded ← encode_value C value depth;
  if (MAX_STANDALONE_BYTES <? len encoded)%N then limit else Ok encoded.

Definition encode_exact (value : A) : enc_result bytes := encode_at_depth value 0.

Definition decode_at_depth (depth : N) : DM A := lift (check_depth depth) ≫= fun _ => decode_value C depth.

(** A cursor of its own over [input], on the budget of the caller *)
Definition decode_nested_exact (input : bytes) (depth : N) : DM A := fun '(allocated, r) =>
  cursor ← map_err Fails (cursor_new input);
  '(value, (allocated, cursor)) ← decode_at_depth depth (allocated, cursor);
  _ ← map_err Fails (check_finished cursor);
  Ok (value, (allocated, r)).

Definition decode_exact (input : bytes) : enc_result A :=
  cursor ← map_err Fails (cursor_new input);
  '(value, (_, cursor)) ← decode_at_depth 0 (0%N, cursor);
  _ ← map_err Fails (check_finished cursor);
  Ok value.
End exact.

(** ** Scalars *)

Definition decode_u16 : DM N := cursor_read (cursor_read_uvar 16).
Definition decode_u32 : DM N := cursor_read (cursor_read_uvar 32).
Definition decode_u64 : DM N := cursor_read (cursor_read_uvar 64).

Definition u16_codec : MutationValueCodec N := mkCodec (fun v _ => Ok (encode_uvar v)) (fun _ => decode_u16).
Definition u32_codec : MutationValueCodec N := mkCodec (fun v _ => Ok (encode_uvar v)) (fun _ => decode_u32).
Definition u64_codec : MutationValueCodec N := mkCodec (fun v _ => Ok (encode_uvar v)) (fun _ => decode_u64).
Definition bool_codec : MutationValueCodec bool :=
  mkCodec (fun v _ => Ok (encode_bool v)) (fun _ => cursor_read read_bool).
Definition u128_codec : MutationValueCodec N :=
  mkCodec (fun v _ => ok_or Panics (encode_uvar128 v)) (fun _ => cursor_read (cursor_read_uvar128 128)).
Definition i128_codec : MutationValueCodec Z :=
  mkCodec (fun v _ => ok_or Panics (encode_sint128 v)) (fun _ => cursor_read read_sint128).

(** [\[u8; 32\]] and the identifiers that wrap it and stay bytes here *)
Definition array32_codec : MutationValueCodec bytes :=
  mkCodec (fun v _ => Ok v) (fun _ => cursor_read (take_array 32)).
(** Identifiers of entities and members, which are numbers here *)
Definition id_codec : MutationValueCodec N :=
  mkCodec (fun v _ => Ok (id_bytes v)) (fun _ => b ← cursor_read (take_array 32); mret (be_num b)).

Definition bytes_codec : MutationValueCodec bytes :=
  mkCodec (fun v _ => map_err Fails (encode_bytes v))
    (fun _ => value ← cursor_read read_bytes; charge (len value) ≫= fun _ => mret value).
Definition text_codec : MutationValueCodec bytes :=
  mkCodec (fun v _ => map_err Fails (encode_text v))
    (fun _ => value ← cursor_read cursor_read_text; charge (len value) ≫= fun _ => mret value).

(** [impl_simple_enum_codec!]: a tag of 32 bits *)
Definition simple_enum_codec {A} (tag : A -> N) (from_tag : N -> option A) : MutationValueCodec A :=
  mkCodec (fun v _ => Ok (encode_uvar (tag v)))
    (fun _ => t ← decode_u32; lift (ok_or (Fails ScbUnionInvalid) (from_tag t))).

(** ** Lists, options, boxes *)

(** [for _ in 0..count { values.push(..) }] *)
Section repeat_decode.
Context {S : Type} (step : S -> DM S).
Fixpoint repeat_decode (n : nat) (s : S) : DM S :=
  match n with
  | O => mret s
  | Datatypes.S n => s ← step s; repeat_decode n s
  end.
End repeat_decode.

Definition encode_elements {A} (C : MutationValueCodec A) (values : list A) (depth : N) : enc_result bytes :=
  _ ← check_container_depth depth;
  elements ← map_res (fun value => encode_at_depth C value (depth + 1)) values;
  map_err Fails (encode_list elements).

(** [Vec<T>]; [size] is [size_of::<T>()]. *)
Definition list_codec {A} (size : N) (C : MutationValueCodec A) : MutationValueCodec (list A) :=
  mkCodec (encode_elements C)
    (fun depth =>
      _ ← lift (check_container_depth depth);
      count ← cursor_read read_count;
      _ ← charge_elements count size;
      repeat_decode (fun values =>
        payload ← cursor_read read_sized_payload;
        value ← decode_nested_exact C payload (depth + 1);
        mret (values ++ [value])) (N.to_nat count) []).

Definition box_codec {A} (size : N) (C : MutationValueCodec A) : MutationValueCodec A :=
  mkCodec (encode_value C) (fun depth => charge size ≫= fun _ => decode_value C depth).

(** ** Records

    A field of a record with its codec, and the values of all fields as a
    tuple. *)

Record Field : Type := mkField { fd_tag : N; fd_type : Type; fd_codec : MutationValueCodec fd_type }.
Arguments mkField fd_tag {fd_type}.

Fixpoint values (fields : list Field) : Type :=
  match fields with [] => unit | f :: fields => (fd_type f * values fields)%type end.

(** [encode_record(&\[(tag, encode_at_depth(&self.field, depth)?), ..\])] *)
Fixpoint encode_fields (fields : list Field) (depth : N) : values fields -> enc_result (list (N * bytes)) :=
  match fields with
  | [] => fun _ => Ok []
  | f :: fields => fun '(v, vs) =>
      encoded ← encode_at_depth (fd_codec f) v depth;
      rest ← encode_fields fields depth vs;
      Ok ((fd_tag f, encoded) :: rest)
  end.

Section record_fields.
Context {S : Type} (expected_tags : list N) (decode_field : N -> bytes -> S -> DM S).

(** [S] is what [decode_field] captures. *)
Fixpoint record_fields_loop (tags : list N) (previous : option N) (s : S) : DM S :=
  match tags with
  | [] => mret s
  | expected_tag :: tags =>
      tag ← decode_u32;
      _ ← (match previous with
           | Some previous =>
               if (tag =? previous)%N then fail ScbFieldDuplicate
               else if (tag <? previous)%N then fail ScbFieldOrder else mret tt
           | None => mret tt
           end : DM unit);
      if (tag =? expected_tag)%N then
        payload ← cursor_read read_sized_payload;
        s ← decode_field tag payload s;
        record_fields_loop tags (Some tag) s
      else fail (if existsb (N.eqb tag) expected_tags then ScbFieldOrder else ScbFieldUnknown)
  end.

Definition decode_record_fields (s : S) : DM S :=
  count ← cursor_read read_record_field_count;
  if (count =? len expected_tags)%N then record_fields_loop expected_tags None s
  else fail (if (count <? len expected_tags)%N then ScbFieldMissing else ScbFieldUnknown).
End record_fields.

(** A turn of the loop over the fields of a record some of which may be missing:
    the previous tag and the variables *)
Definition tagged_field {X} (assign : N -> bytes -> X -> DM X) : option N * X -> DM (option N * X) := fun '(previous, xs) =>
  tag ← decode_u32;
  _ ← (match previous with
       | Some previous =>
           if (tag =? previous)%N then fail ScbFieldDuplicate
           else if (tag <? previous)%N then fail ScbFieldOrder else mret tt
       | None => mret tt
       end : DM unit);
  payload ← cursor_read read_sized_payload;
  xs ← assign tag payload xs;
  mret (Some tag, xs).

(** The variables of a record's decoder, one per field *)
Fixpoint variables (fields : list Field) : Type :=
  match fields with [] => unit | f :: fields => (option (fd_type f) * variables fields)%type end.
Fixpoint unset (fields : list Field) : variables fields :=
  match fields with [] => tt | f :: fields => (None, unset fields) end.

(** [match tag { $tag => $field = Some(decode_nested_exact(payload, depth, budget)?), .. }] *)
Fixpoint assign (fields : list Field) (depth : N) (tag : N) (payload : bytes) : variables fields -> DM (variables fields) :=
  match fields with
  | [] => fun _ => fail ScbFieldUnknown
  | f :: fields => fun '(x, xs) =>
      if (tag =? fd_tag f)%N then v ← decode_nested_exact (fd_codec f) payload depth; mret (Some v, xs)
      else xs ← assign fields depth tag payload xs; mret (x, xs)
  end.

(** [$field.ok_or_else(|| ScbError::new(ScbErrorCode::FieldMissing))?] for every field *)
Fixpoint assigned (fields : list Field) : variables fields -> enc_result (values fields) :=
  match fields with
  | [] => fun _ => Ok tt
  | f :: fields => fun '(x, xs) =>
      v ← ok_or (Fails ScbFieldMissing) x;
      vs ← assigned fields xs;
      Ok (v, vs)
  end.

Definition record_decode (fields : list Field) (depth : N) : DM (values fields) :=
  _ ← lift (check_container_depth depth);
  xs ← decode_record_fields (fd_tag <$> fields) (assign fields (depth + 1)) (unset fields);
  lift (assigned fields xs).

(** [impl_required_record_codec!]; the implementations written out by hand say the
    same.  [make] and [get] are the struct and its fields. *)
Definition record_codec {R} (fields : list Field) (make : values fields -> R) (get : R -> values fields) : MutationValueCodec R :=
  mkCodec
    (fun v depth =>
      _ ← check_container_depth depth;
      encoded ← encode_fields fields (depth + 1) (get v);
      map_err Fails (encode_record encoded))
    (fun depth => vs ← record_decode fields depth; mret (make vs)).

(** ** Tagged unions *)

(** An arm of an enum: a unit variant (with its test), or one that holds a value. *)
Inductive Arm (A : Type) : Type :=
| UnitArm (tag : N) (value : A) (test : A -> bool)
| DataArm (tag : N) {B : Type} (C : MutationValueCodec B) (make : B -> A) (get : A -> option B).
Arguments UnitArm {A}. Arguments DataArm {A} tag {B}.

Section union.
Context {A : Type} (tag : A -> N).

Definition arm_tag (arm : Arm A) : N := match arm with UnitArm t _ _ | DataArm t _ _ _ => t end.

(** [match self { Self::X(value) => encode_union(self.tag(), &encode_at_depth(value, depth)?), .. }] *)
Fixpoint encode_arms (arms : list (Arm A)) (depth : N) (v : A) : enc_result bytes :=
  match arms with
  | [] => Err Panics
  | UnitArm _ _ test :: arms =>
      if test v then map_err Fails (encode_union (tag v) []) else encode_arms arms depth v
  | DataArm _ C _ get :: arms =>
      match get v with
      | Some b => payload ← encode_at_depth C b depth; map_err Fails (encode_union (tag v) payload)
      | None => encode_arms arms depth v
      end
  end.

(** [match tag { t if payload.is_empty() => Ok(Self::X), t => Ok(Self::Y(decode_nested_exact(..)?)), .. }] *)
Fixpoint decode_arms (arms : list (Arm A)) (depth : N) (t : N) (payload : bytes) : DM A :=
  match arms with
  | [] => fail ScbUnionInvalid
  | UnitArm t' v _ :: arms =>
      if (t =? t')%N && bool_decide (payload = []) then mret v else decode_arms arms depth t payload
  | DataArm t' C make _ :: arms =>
      if (t =? t')%N then b ← decode_nested_exact C payload depth; mret (make b)
      else decode_arms arms depth t payload
  end.

Definition union_decode (arms : list (Arm A)) (depth : N) : DM A :=
  _ ← lift (check_container_depth depth);
  '(t, payload) ← cursor_read read_union;
  decode_arms arms (depth + 1) t payload.

Definition union_codec (arms : list (Arm A)) : MutationValueCodec A :=
  mkCodec (fun v depth => _ ← check_container_depth depth; encode_arms arms (depth + 1) v) (union_decode arms).
End union.

Definition option_codec {A} (C : MutationValueCodec A) : MutationValueCodec (option A) :=
  union_codec (fun o => if o is Some _ then 1 else 0)%N
    [UnitArm 0 None (fun o => if o is None then true else false); DataArm 1 C Some (fun o => o)].

(** Instances about a codec are found by its name. *)
#[global] Typeclasses Opaque u16_codec u32_codec u64_codec bool_codec u128_codec i128_codec array32_codec id_codec
  bytes_codec text_codec simple_enum_codec list_codec box_codec record_codec union_codec option_codec.
