(* ===== verification/MutCodecLaws.v ===== *)
(** * The mutation value codec: what its combinators guarantee

    [Reads m E]: [m] accepts exactly the byte strings that [E] relates to a value
    and to what reading it allocates, as long as the budget lasts.  [LawfulAt]: a
    codec encodes a value to the bytes of its tree when the tree is within the
    limits and canonical, and reads exactly those bytes. *)

From S2P Require Import Prelude State Bytes Utf8 Scb1Core Scb1Cursor Scb1Schema Records Ssmc ConstEncoding ConstWire ConstInjective Repr MutCodec.
Set Warnings "-register-all".

(** ** Reads *)

(** A cursor of [ScbValueCursor::new] *)
Definition bounded (r : Reader) : Prop :=
  (rd_position r <= len (rd_input r))%N /\ (len (rd_input r) <= MAX_STANDALONE_BYTES)%N.

Lemma bounded_ok r : bounded r -> reader_ok r.
Proof. intros [? ?]. split; [done|]. by apply small_limit. Qed.

Lemma bounded_advance r bs tl : bounded r -> rest r = bs ++ tl -> bounded (advance (len bs) r).
Proof. intros Hb Hr. split; [|apply Hb]. by apply (reader_ok_advance bs tl); [apply bounded_ok|]. Qed.

Lemma bounded_small r bs tl : bounded r -> rest r = bs ++ tl -> small bs.
Proof.
  intros Hb Hr. pose proof (len_rest r (bounded_ok _ Hb)) as Hl. rewrite Hr, len_app in Hl. destruct Hb. unfold small. lia.
Qed.

Lemma bounded_new input : small input -> bounded (Reader_new input).
Proof. intros H. split; cbn; [lia|done]. Qed.

Definition Reads {A} (m : DM A) (E : A -> N -> bytes -> Prop) : Prop :=
  forall b r, bounded r -> (b <= MAX_TOTAL_ALLOCATION)%N -> forall a s,
  m (b, r) = Ok (a, s) <->
  exists n bs tl, E a n bs /\ rest r = bs ++ tl /\ (b + n <= MAX_TOTAL_ALLOCATION)%N /\ s = ((b + n)%N, advance (len bs) r).

Lemma reads_iff {A} (m : DM A) E F :
  Reads m E -> (forall a n bs, small bs -> E a n bs <-> F a n bs) -> Reads m F.
Proof.
  intros Hm HEF b r Hr Hb a s. rewrite (Hm b r Hr Hb a s).
  split; intros (n & bs & tl & HE & Hrest & H); exists n, bs, tl; split_and!; try apply H; try done.
  all: apply HEF; [by eapply bounded_small|done].
Qed.

Lemma reads_ret {A} (a : A) : Reads (mret a) (fun x n bs => x = a /\ n = 0%N /\ bs = []).
Proof.
  intros b r Hr Hb x s. unfold mret, ST_ret. rewrite Ok_inj. split.
  - intros [= <- <-]. exists 0%N, [], (rest r). split_and!; try done; [lia|]. f_equal; [lia|]. by rewrite len_nil, advance_0.
  - intros (n & bs & tl & (-> & -> & ->) & _ & _ & ->). f_equal. f_equal; [lia|]. by rewrite len_nil, advance_0.
Qed.

Lemma reads_fail {A} (m : DM A) : (forall s x, m s <> Ok x) -> Reads m (fun _ _ _ => False).
Proof. intros Hm b r _ _ a s. split; [by intros ?%Hm|]. by intros (? & ? & ? & [] & _). Qed.

Lemma reads_lift {A} (m : enc_result A) : Reads (lift m) (fun a n bs => m = Ok a /\ n = 0%N /\ bs = []).
Proof.
  destruct m as [a|e]; unfold lift; cbn.
  - refine (reads_iff _ _ _ (reads_ret a) _). intros x n bs _. rewrite Ok_inj. naive_solver.
  - refine (reads_iff _ _ _ (reads_fail _ _) _); [done|]. naive_solver.
Qed.

Lemma reads_bind_when {A B} (m : DM A) (k : A -> DM B) E F :
  Reads m E -> (forall a n bs, E a n bs -> Reads (k a) (F a)) ->
  Reads (m ≫= k) (fun x n bs => exists a n1 n2 bs1 bs2, E a n1 bs1 /\ F a x n2 bs2 /\ n = (n1 + n2)%N /\ bs = bs1 ++ bs2).
Proof.
  intros Hm Hk b r Hr Hb x s. rewrite ST_bind_Ok. split.
  - intros (a & s1 & Ha & Hx). apply Hm in Ha as (n1 & bs1 & tl & HE & Hrest & Hn1 & ->); [|done..].
    apply (Hk a n1 bs1 HE) in Hx as (n2 & bs2 & tl2 & HF & Hrest2 & Hn2 & ->); [|by eapply bounded_advance|done].
    exists (n1 + n2)%N, (bs1 ++ bs2), tl2. split_and!; [by exists a, n1, n2, bs1, bs2| |lia|].
    + rewrite <- app_assoc, <- Hrest2, (rest_advance_app bs1 tl) by done. done.
    + by rewrite N.add_assoc, len_app, advance_advance.
  - intros (n & bs & tl & (a & n1 & n2 & bs1 & bs2 & HE & HF & -> & ->) & Hrest & Hn & ->).
    rewrite <- app_assoc in Hrest. exists a, ((b + n1)%N, advance (len bs1) r). split.
    + apply Hm; [done..|]. exists n1, bs1, (bs2 ++ tl). split_and!; try done. lia.
    + apply (Hk a n1 bs1 HE); [by eapply bounded_advance|lia|]. exists n2, bs2, tl. split_and!; [done| |lia|].
      * by rewrite (rest_advance_app bs1 (bs2 ++ tl)).
      * by rewrite N.add_assoc, len_app, advance_advance.
Qed.

Lemma reads_bind {A B} (m : DM A) (k : A -> DM B) E F :
  Reads m E -> (forall a, Reads (k a) (F a)) ->
  Reads (m ≫= k) (fun x n bs => exists a n1 n2 bs1 bs2, E a n1 bs1 /\ F a x n2 bs2 /\ n = (n1 + n2)%N /\ bs = bs1 ++ bs2).
Proof. intros Hm Hk. apply reads_bind_when; auto. Qed.

(** A check before the rest *)
Lemma reads_check {A B} (m : enc_result A) (k : A -> DM B) F :
  (forall a, Reads (k a) (F a)) -> Reads (lift m ≫= k) (fun x n bs => exists a, m = Ok a /\ F a x n bs).
Proof.
  intros Hk. refine (reads_iff _ _ _ (reads_bind _ _ _ _ (reads_lift m) Hk) _). intros x n bs _. split.
  - intros (a & n1 & n2 & bs1 & bs2 & (? & -> & ->) & ? & -> & ->). exists a. by rewrite N.add_0_l.
  - intros (a & ? & ?). by exists a, 0%N, n, [], bs.
Qed.

(** A function of what was read *)
Lemma reads_map {A B} (m : DM A) E (f : A -> B) :
  Reads m E -> Reads (m ≫= fun a => mret (f a)) (fun x n bs => exists a, x = f a /\ E a n bs).
Proof.
  intros Hm. refine (reads_iff _ _ _ (reads_bind _ _ _ _ Hm (fun a => reads_ret (f a))) _). intros x n bs _. split.
  - intros (a & n1 & n2 & bs1 & bs2 & ? & (-> & -> & ->) & -> & ->). exists a. by rewrite N.add_0_r, app_nil_r.
  - intros (a & -> & ?). exists a, n, 0%N, bs, []. by rewrite N.add_0_r, app_nil_r.
Qed.

(** A read of the cursor allocates nothing. *)
Lemma reads_cursor {A} (m : RM A) E : Strict m E -> Reads (cursor_read m) (fun a n bs => n = 0%N /\ E a bs).
Proof.
  intros [Hc Hs] b r Hr Hb a s. unfold cursor_read. destruct (m r) as [[a'|e] r'] eqn:Hm.
  - rewrite Ok_inj. split.
    + intros [= -> <-]. apply Hs in Hm as (bs & HE & Hrest & ->); [|by apply bounded_ok].
      exists 0%N, bs, (rest (advance (len bs) r)). split_and!; try done; [lia|]. f_equal. lia.
    + intros (n & bs & tl & (-> & HE) & Hrest & _ & ->). rewrite (Hc a bs tl r (bounded_ok _ Hr) HE Hrest) in Hm.
      injection Hm as -> ->. by rewrite N.add_0_r.
  - split; [done|]. intros (n & bs & tl & (-> & HE) & Hrest & _ & ->).
    by rewrite (Hc a bs tl r (bounded_ok _ Hr) HE Hrest) in Hm.
Qed.

Lemma reads_charge n0 : Reads (charge n0) (fun _ n bs => n = n0 /\ bs = []).
Proof.
  intros b r Hr Hb [] s. unfold charge, ok_or. destruct (checked_add b n0) as [c|] eqn:Ec.
  - apply checked_add_Some in Ec as [-> _]. cbn [mbind result_bind]. destruct (N.ltb_spec MAX_TOTAL_ALLOCATION (b + n0)) as [Hl|Hl].
    + split; [done|]. intros (n & bs & tl & [-> ->] & _ & ? & ->). lia.
    + rewrite Ok_inj. split.
      * intros [= <-]. exists n0, [], (rest r). split_and!; try done. by rewrite len_nil, advance_0.
      * intros (n & bs & tl & [-> ->] & _ & _ & ->). by rewrite len_nil, advance_0.
  - split; [done|]. intros (n & bs & tl & [-> ->] & _ & Hn & ->). exfalso.
    assert (checked_add b n0 = Some (b + n0)%N) as E; [|congruence]. apply checked_add_Some. split; [done|].
    eapply N.le_lt_trans; [exact Hn|]. done.
Qed.

Lemma reads_charge_elements count size : Reads (charge_elements count size) (fun _ n bs => n = (count * size)%N /\ bs = []).
Proof.
  unfold charge_elements, checked_mul. destruct (N.ltb_spec (count * size) U64_LIMIT) as [_|Hl].
  - refine (reads_iff _ _ _ (reads_check _ _ _ (fun n => reads_charge n)) _). intros u n bs _. cbn [ok_or]. setoid_rewrite Ok_inj. naive_solver.
  - intros b r Hr Hb u s. split; [done|]. intros (n & bs & tl & [-> ->] & _ & Hn & ->). exfalso.
    apply (N.lt_irrefl U64_LIMIT). eapply N.le_lt_trans; [exact Hl|]. eapply (N.le_lt_trans _ MAX_TOTAL_ALLOCATION); [lia|done].
Qed.

Lemma check_depth_lift depth u : check_depth depth = Ok u <-> (depth <= MAX_NESTING_DEPTH)%N.
Proof. apply check_nesting_Ok. Qed.

Lemma cursor_new_Ok input r : cursor_new input = Ok r <-> small input /\ r = Reader_new input.
Proof.
  unfold cursor_new. rewrite bind_Ok. setoid_rewrite ensure_Ok. setoid_rewrite N.leb_le. setoid_rewrite Ok_inj.
  split; [by intros ([] & ? & <-)|intros [? ->]; by exists tt].
Qed.

Lemma check_finished_Ok r u : check_finished r = Ok u <-> is_finished r = true.
Proof. unfold check_finished. destruct u, (is_finished r); done. Qed.

(** Reading all of an input *)
Lemma reads_whole {A} (m : DM A) E input b a s u :
  Reads m E -> small input -> (b <= MAX_TOTAL_ALLOCATION)%N ->
  m (b, Reader_new input) = Ok (a, s) /\ check_finished s.2 = Ok u <->
  exists n, E a n input /\ (b + n <= MAX_TOTAL_ALLOCATION)%N /\ s = ((b + n)%N, advance (len input) (Reader_new input)).
Proof.
  intros Hm Hs Hb. pose proof (bounded_new input Hs) as Hr. rewrite (Hm b _ Hr Hb), check_finished_Ok. split.
  - intros [(n & bs & tl & HE & Hrest & Hn & ->) Hf]. cbn [snd] in Hf.
    rewrite is_finished_rest, (rest_advance_app bs tl) in Hf; [|done|by apply bounded_ok; eapply bounded_advance]. subst tl.
    rewrite app_nil_r in Hrest. change (rest (Reader_new input)) with input in Hrest. subst bs. by exists n.
  - intros (n & HE & Hn & ->). assert (rest (Reader_new input) = input ++ []) as Hrest by by rewrite app_nil_r.
    split; [by exists n, input, []|]. cbn [snd].
    rewrite is_finished_rest; [|by apply bounded_ok; eapply bounded_advance]. by eapply rest_advance_app.
Qed.

(** ** What a codec is meant to do *)

(** The values of the type, their tree on the wire, and what decoding one
    allocates *)
Class CodecSpec {A} (C : MutationValueCodec A) : Type := mkSpec {
  repr : A -> Prop;
  tree : A -> wire;
  cost : A -> N
}.
Arguments mkSpec {A C}. Arguments repr {A} C {_}. Arguments tree {A} C {_}. Arguments cost {A} C {_}.

(** What [decode_value] reads at [depth] *)
Definition decodes {A} (C : MutationValueCodec A) `{!CodecSpec C} (depth : N) (v : A) (n : N) (bs : bytes) : Prop :=
  repr C v /\ n = cost C v /\ wire_ok true depth (tree C v) /\ bs = wire_bytes (tree C v).

Class LawfulAt {A} (C : MutationValueCodec A) `{!CodecSpec C} (depth : N) : Prop := {
  lawful_encode v b : repr C v -> encode_at_depth C v depth = Ok b <-> wire_ok true depth (tree C v) /\ b = wire_bytes (tree C v);
  lawful_decode : (depth <= MAX_NESTING_DEPTH)%N -> Reads (decode_value C depth) (decodes C depth)
}.

Lemma encode_at_depth_Ok {A} (C : MutationValueCodec A) v depth b :
  encode_at_depth C v depth = Ok b <-> (depth <= MAX_NESTING_DEPTH)%N /\ encode_value C v depth = Ok b /\ small b.
Proof.
  unfold encode_at_depth. rewrite bind_Ok. setoid_rewrite check_depth_lift. setoid_rewrite bind_Ok. split.
  - intros (_ & Hd & e & He & H). destruct (N.ltb_spec MAX_STANDALONE_BYTES (len e)); [done|]. injection H as <-. done.
  - intros (Hd & He & Hs). exists tt. split; [done|]. exists b. split; [done|].
    destruct (N.ltb_spec MAX_STANDALONE_BYTES (len b)); [unfold small in Hs; lia|done].
Qed.

Lemma wire_ok_depth c depth w : wire_ok c depth w -> (depth <= MAX_NESTING_DEPTH)%N.
Proof. intros Hw%wire_ok_root. destruct w; cbn in Hw; first [by destruct Hw|by apply N.lt_le_incl]. Qed.

Lemma reads_at_depth {A} (C : MutationValueCodec A) `{!CodecSpec C} depth :
  LawfulAt C depth -> Reads (decode_at_depth C depth) (decodes C depth).
Proof.
  intros [_ HC]. unfold decode_at_depth. destruct (decide (depth <= MAX_NESTING_DEPTH)%N) as [Hd|Hd].
  - refine (reads_iff _ _ _ (reads_check _ _ _ (fun _ => HC Hd)) _). intros x n bs _. setoid_rewrite check_depth_lift.
    split; [by intros (_ & _ & ?)|intros ?; by exists tt].
  - refine (reads_iff _ _ _ (reads_fail _ _) _).
    + intros s' [x s2] (u & s1 & H & _)%ST_bind_Ok. apply lift_Ok in H as [?%check_depth_lift _]. done.
    + intros x n bs _. split; [done|]. by intros (_ & _ & ?%wire_ok_depth & _).
Qed.

(** A nested value: all of the bytes of its payload *)
Lemma reads_nested {A} (C : MutationValueCodec A) `{!CodecSpec C} input depth :
  LawfulAt C depth ->
  Reads (decode_nested_exact C input depth) (fun v n bs => decodes C depth v n input /\ bs = []).
Proof.
  intros HC%reads_at_depth b r Hr Hb v s. unfold decode_nested_exact.
  rewrite bind_Ok. setoid_rewrite bind_Ok. setoid_rewrite map_err_iff. setoid_rewrite cursor_new_Ok. split.
  - intros (cur & [Hs ->] & [x [b' cur']] & Hx & (u & Hf%map_err_iff & [= <- <-])%bind_Ok).
    destruct (proj1 (reads_whole _ _ input b x (b', cur') u HC Hs Hb) (conj Hx Hf)) as (n & HE & Hn & [= -> _]).
    exists n, [], (rest r). split_and!; try done. by rewrite len_nil, advance_0.
  - intros (n & bs & tl & [HE ->] & _ & Hn & ->). rewrite len_nil, advance_0.
    assert (small input) as Hs by (destruct HE as (_ & _ & Hw & ->); by apply wire_ok_len in Hw).
    destruct (proj2 (reads_whole _ _ input b v ((b + n)%N, advance (len input) (Reader_new input)) tt HC Hs Hb)) as [Hx Hf]; [by exists n|].
    exists (Reader_new input). split; [done|]. exists (v, ((b + n)%N, advance (len input) (Reader_new input))).
    split; [exact Hx|]. cbn [snd] in Hf. by rewrite Hf.
Qed.

Lemma reads_sized_payload : Reads (cursor_read read_sized_payload) (fun p n bs => n = 0%N /\ small p /\ bs = chunk p).
Proof. apply (reads_cursor _ _ strict_sized_payload). Qed.

(** ** Whole inputs *)

Lemma decode_exact_Ok {A} (C : MutationValueCodec A) `{!CodecSpec C} input v :
  LawfulAt C 0 -> decode_exact C input = Ok v <->
  repr C v /\ (cost C v <= MAX_TOTAL_ALLOCATION)%N /\ encode_exact C v = Ok input.
Proof.
  intros HC. pose proof (reads_at_depth C 0 HC) as Hd. unfold decode_exact, encode_exact.
  rewrite bind_Ok. setoid_rewrite map_err_iff. setoid_rewrite cursor_new_Ok. split.
  - intros (cur & [Hs ->] & ([x [b' cur']] & Hx & (u & Hf%map_err_iff & [= <-])%bind_Ok)%bind_Ok).
    destruct (proj1 (reads_whole _ _ input 0 x (b', cur') u Hd Hs (N.le_0_l _)) (conj Hx Hf)) as (n & (HR & -> & Hw & ->) & Hn & _).
    split_and!; [done|lia|]. by apply lawful_encode.
  - intros (HR & Hn & He%lawful_encode); [|done]. destruct He as [Hw ->]. set (bs := wire_bytes (tree C v)).
    assert (small bs) as Hs by by apply wire_ok_len in Hw.
    set (s := ((0 + cost C v)%N, advance (len bs) (Reader_new bs))).
    destruct (proj2 (reads_whole _ _ bs 0 v s tt Hd Hs (N.le_0_l _))) as [Hx Hf]; [by exists (cost C v)|].
    exists (Reader_new bs). split; [done|]. apply bind_Ok. exists (v, s). split; [exact Hx|].
    unfold s in *. cbn [snd] in Hf. by rewrite Hf.
Qed.

(** ** Scalars *)

(** A codec without depth whose encoding is one atom *)
Lemma lawful_atom {A} (C : MutationValueCodec A) `{!CodecSpec C} (enc : A -> enc_result bytes) depth :
  (forall v d, encode_value C v d = enc v) -> (forall v, repr C v -> tree C v = WAtom (enc v)) ->
  (forall v b, repr C v -> enc v = Ok b -> small b) -> (forall v, cost C v = 0%N) ->
  Reads (decode_value C depth) (fun v n bs => n = 0%N /\ repr C v /\ enc v = Ok bs) -> LawfulAt C depth.
Proof.
  intros He Ht Hs Hn Hr. split.
  - intros v b HR. rewrite encode_at_depth_Ok, He, (Ht v HR). cbn [wire_ok wire_bytes]. split.
    + intros (Hd & Hb & Hsm). rewrite Hb. cbn [atom_bytes]. split_and!; try done. by exists b.
    + intros ((Hsm & Hd & b' & Hb) & ->). rewrite Hb in *. done.
  - intros Hd. refine (reads_iff _ _ _ Hr _). intros v n bs Hsm. unfold decodes. rewrite Hn. split.
    + intros (-> & HR & Hb). rewrite (Ht v HR). cbn [wire_ok wire_bytes]. rewrite Hb. cbn [atom_bytes]. split_and!; try done. by exists bs.
    + intros (HR & -> & Hw & Hb). rewrite (Ht v HR) in Hw, Hb. cbn [wire_ok wire_bytes] in Hw, Hb.
      destruct Hw as (_ & _ & b' & Hb'). rewrite Hb' in Hb. cbn in Hb. by subst bs.
Qed.

Lemma number_tree_uvar n : (n < U64_LIMIT)%N -> number_tree n = WAtom (Ok (encode_uvar n)).
Proof.
  intros Hn. destruct (Chunk_uint_ok n Hn) as (c & Hc & Hb). unfold Chunk_uint in Hc.
  rewrite (proj2 (N.ltb_lt _ _) Hn) in Hc. unfold number_tree. rewrite Hc. cbn. by rewrite Hb.
Qed.

Lemma number_tree_uvar128 n : (n < 2 ^ 128)%N -> number_tree n = WAtom (ok_or Panics (encode_uvar128 n)).
Proof.
  intros Hn. destruct (Chunk_unsigned_ok n Hn) as (c & Hc & Hb). unfold number_tree. rewrite Hc, encode_uvar128_spec by done.
  cbn. by rewrite Hb.
Qed.

Lemma small_short b : (len b <= 32)%N -> small b.
Proof. unfold small, MAX_STANDALONE_BYTES. lia. Qed.

Lemma uvar128_small n b : (n < 2 ^ 128)%N -> encode_uvar128 n = Some b -> small b.
Proof.
  intros Hn E. rewrite (encode_uvar128_spec n Hn) in E. apply (inj Some) in E. rewrite <- E. clear E. apply small_short.
  pose proof (length_uvar_groups 19 n). unfold len. lia.
Qed.

(** Unsigned integers of 64 bits and less *)
Section uint.
Variable w : N.
Hypothesis Hw : (w <= 64)%N.
Hypothesis Hw' : (w =? 0)%N || (64 <? w)%N = false.

Lemma uint_limit v : (v < 2 ^ w)%N -> (v < U64_LIMIT)%N.
Proof using Hw. intros Hv. eapply N.lt_le_trans; [exact Hv|]. unfold U64_LIMIT. apply N.pow_le_mono_r; [discriminate|exact Hw]. Qed.

Lemma lawful_uint (C : MutationValueCodec N) (HC : CodecSpec C) depth :
  (forall v d, encode_value C v d = Ok (encode_uvar v)) -> decode_value C depth = cursor_read (cursor_read_uvar w) ->
  repr C = (fun v => v < 2 ^ w)%N -> tree C = number_tree -> cost C = (fun _ => 0%N) -> LawfulAt C depth.
Proof using Hw Hw'.
  intros He Hd HR HT HK. apply (lawful_atom C (fun v => Ok (encode_uvar v))); rewrite ?HR, ?HT, ?HK; try done.
  - intros v Hv. by apply number_tree_uvar, uint_limit.
  - intros v b _ [= <-]. apply uvar_small.
  - rewrite Hd. refine (reads_iff _ _ _ (reads_cursor _ _ (strict_cursor_uvar w Hw')) _). intros v n bs _. rewrite Ok_inj. naive_solver.
Qed.
End uint.

#[export] Instance u16_spec : CodecSpec u16_codec := mkSpec (fun v => v < 2 ^ 16)%N number_tree (fun _ => 0%N).
#[export] Instance u32_spec : CodecSpec u32_codec := mkSpec (fun v => v < 2 ^ 32)%N number_tree (fun _ => 0%N).
#[export] Instance u64_spec : CodecSpec u64_codec := mkSpec (fun v => v < 2 ^ 64)%N number_tree (fun _ => 0%N).
#[export] Instance u16_lawful depth : LawfulAt u16_codec depth.
Proof. by apply (lawful_uint 16). Qed.
#[export] Instance u32_lawful depth : LawfulAt u32_codec depth.
Proof. by apply (lawful_uint 32). Qed.
#[export] Instance u64_lawful depth : LawfulAt u64_codec depth.
Proof. by apply (lawful_uint 64). Qed.

#[export] Instance bool_spec : CodecSpec bool_codec := mkSpec (fun _ => True) (fun v => WAtom (Ok (encode_bool v))) (fun _ => 0%N).
#[export] Instance bool_lawful depth : LawfulAt bool_codec depth.
Proof.
  apply (lawful_atom bool_codec (fun v => Ok (encode_bool v))); try done.
  - intros [] b _ [= <-]; by apply small_short.
  - refine (reads_iff _ _ _ (reads_cursor _ _ (codec_strict (StrictCodec := Scb1Cursor.bool_codec))) _).
    intros v n bs _. rewrite !Ok_inj. naive_solver.
Qed.

#[export] Instance u128_spec : CodecSpec u128_codec := mkSpec (fun v => is_u128 v = true) number_tree (fun _ => 0%N).
#[export] Instance u128_lawful depth : LawfulAt u128_codec depth.
Proof.
  apply (lawful_atom u128_codec (fun v => ok_or Panics (encode_uvar128 v))); try done; cbn [repr u128_spec].
  - intros v Hv%is_u128_lt. by apply number_tree_uvar128.
  - intros v b Hv%is_u128_lt Hb%ok_or_Ok. by eapply uvar128_small.
  - refine (reads_iff _ _ _ (reads_cursor _ _ strict_cursor_uvar128) _). intros v n bs _.
    unfold no_panic. rewrite !ok_or_Ok, is_u128_lt. naive_solver.
Qed.

Lemma is_i128_sint z : is_i128 z = true <-> in_sint 128 z.
Proof. rewrite is_i128_range. done. Qed.

#[export] Instance i128_spec : CodecSpec i128_codec :=
  mkSpec (fun v => is_i128 v = true) (fun v => WAtom (Chunk_bytes <$> Chunk_signed v)) (fun _ => 0%N).
#[export] Instance i128_lawful depth : LawfulAt i128_codec depth.
Proof.
  apply (lawful_atom i128_codec (fun v => ok_or Panics (encode_sint128 v))); try done; cbn [repr tree i128_spec].
  - intros v Hv%is_i128_sint%(zigzag_bound 128); [|done]. apply (number_tree_uvar128 (zigzag 128 v) Hv).
  - intros v b Hv Hb%ok_or_Ok. apply is_i128_sint, (zigzag_bound 128) in Hv; [|done]. by eapply uvar128_small.
  - refine (reads_iff _ _ _ (reads_cursor _ _ (codec_strict (StrictCodec := sint128_codec))) _). intros v n bs _.
    unfold no_panic. rewrite !ok_or_Ok, is_i128_sint. naive_solver.
Qed.

#[export] Instance array32_spec : CodecSpec array32_codec := mkSpec (fun v => len v = 32%N) (fun v => WAtom (Ok v)) (fun _ => 0%N).
#[export] Instance array32_lawful depth : LawfulAt array32_codec depth.
Proof.
  apply (lawful_atom array32_codec Ok); try done; cbn [repr array32_spec].
  - intros v b Hv [= <-]. apply small_short. by rewrite Hv.
  - refine (reads_iff _ _ _ (reads_cursor _ _ (strict_take_exact 32)) _). intros v n bs _. rewrite Ok_inj. naive_solver.
Qed.

Lemma id_bytes_len id : len (id_bytes id) = 32%N.
Proof. unfold len, id_bytes. by rewrite length_be_bytes. Qed.

Lemma id_bytes_num b : len b = 32%N -> is_id (be_num b) = true /\ id_bytes (be_num b) = b.
Proof.
  intros Hl. pose proof (be_num_bound b) as Hb. rewrite Hl in Hb. split; [unfold is_id; by apply N.ltb_lt|].
  unfold id_bytes. replace 32%nat with (length b) by (unfold len in Hl; lia). apply be_bytes_be_num.
Qed.

Lemma be_num_id id : is_id id = true -> be_num (id_bytes id) = id.
Proof. intros Hi%N.ltb_lt. by apply be_num_be_bytes. Qed.

#[export] Instance id_spec : CodecSpec id_codec := mkSpec (fun v => is_id v = true) id_tree (fun _ => 0%N).
#[export] Instance id_lawful depth : LawfulAt id_codec depth.
Proof.
  apply (lawful_atom id_codec (fun v => Ok (id_bytes v))); try done; cbn [repr id_spec].
  - intros v b _ [= <-]. apply small_short. by rewrite id_bytes_len.
  - refine (reads_iff _ _ _ (reads_map _ _ be_num (reads_cursor _ _ (strict_take_exact 32))) _). intros v n bs _. rewrite Ok_inj. split.
    + intros (b & -> & -> & -> & Hl). destruct (id_bytes_num b Hl) as [Hi Hb]. by rewrite Hb.
    + intros (-> & Hi & <-). exists (id_bytes v). rewrite be_num_id by done. split_and!; done || apply id_bytes_len.
Qed.

(** ** Bytes and text *)

Lemma framed_chunk b : framed b = chunk b.
Proof. done. Qed.

Lemma lawful_sized (C : MutationValueCodec bytes) `{!CodecSpec C} (m : RM bytes) (P : bytes -> Prop) depth :
  (forall v d, encode_value C v d = map_err Fails (encode_bytes v)) ->
  decode_value C depth = (value ← cursor_read m; charge (len value) ≫= fun _ => mret value) ->
  Strict m (fun v bs => P v /\ encode_bytes v = Ok bs) ->
  repr C = P -> tree C = WBytes -> cost C = len -> LawfulAt C depth.
Proof.
  intros He Hd Hm HR HT HK. split; rewrite ?HR, ?HT.
  - intros v b _. rewrite encode_at_depth_Ok, He, map_err_iff, encode_bytes_Ok. cbn [wire_ok wire_bytes]. rewrite framed_chunk.
    unfold small. naive_solver.
  - intros Hdep. rewrite Hd. refine (reads_iff _ _ _ (reads_bind _ _ _ _ (reads_cursor _ _ Hm)
      (fun v => reads_map _ _ (fun _ => v) (reads_charge (len v)))) _).
    intros v n bs Hsm. unfold decodes. rewrite HR, HT, HK. cbn [wire_ok wire_bytes]. setoid_rewrite encode_bytes_Ok. rewrite framed_chunk. split.
    + intros (v' & n1 & n2 & b1 & b2 & (-> & HP & Hl & ->) & (_ & -> & -> & ->) & -> & ->). rewrite app_nil_r in *. rewrite N.add_0_l. done.
    + intros (HP & -> & (_ & _ & Hl) & ->). exists v, 0%N, (len v), (chunk v), []. rewrite app_nil_r. split_and!; done || by exists tt.
Qed.

#[export] Instance bytes_spec : CodecSpec bytes_codec := mkSpec (fun _ => True) WBytes len.
#[export] Instance bytes_lawful depth : LawfulAt bytes_codec depth.
Proof. by apply (lawful_sized _ read_bytes (fun _ => True)); try apply codec_strict. Qed.

#[export] Instance text_spec : CodecSpec text_codec := mkSpec (fun v => from_utf8_ok v = true) WBytes len.
#[export] Instance text_lawful depth : LawfulAt text_codec depth.
Proof. by apply (lawful_sized _ cursor_read_text (fun v => from_utf8_ok v = true)); try apply codec_strict. Qed.

(** ** Simple enums *)

Section simple_enum.
Context {A : Type} (tag : A -> N) (from_tag : N -> option A).

#[export] Instance simple_enum_spec : CodecSpec (simple_enum_codec tag from_tag) :=
  mkSpec (fun _ => True) (fun v => number_tree (tag v)) (fun _ => 0%N).

Class EnumTags : Prop := {
  enum_tag_small v : (tag v < 2 ^ 32)%N;
  enum_from_tag t v : from_tag t = Some v <-> t = tag v
}.

Lemma lawful_enum w (C : MutationValueCodec A) (HC : CodecSpec C) depth :
  (w <= 64)%N -> (w =? 0)%N || (64 <? w)%N = false ->
  (forall v, tag v < 2 ^ w)%N -> (forall t v, from_tag t = Some v <-> t = tag v) ->
  (forall v d, encode_value C v d = Ok (encode_uvar (tag v))) ->
  decode_value C depth = (t ← cursor_read (cursor_read_uvar w); lift (ok_or (Fails ScbUnionInvalid) (from_tag t))) ->
  repr C = (fun _ => True) -> tree C = (fun v => number_tree (tag v)) -> cost C = (fun _ => 0%N) -> LawfulAt C depth.
Proof using Type.
  intros Hw Hw' Hs Hf He Hd HR HT HK. apply (lawful_atom C (fun v => Ok (encode_uvar (tag v)))); rewrite ?HR, ?HT, ?HK; try done.
  - intros v _. apply number_tree_uvar. by apply (uint_limit w Hw).
  - intros v b _ [= <-]. apply uvar_small.
  - rewrite Hd. refine (reads_iff _ _ _ (reads_bind _ _ _ _ (reads_cursor _ _ (strict_cursor_uvar w Hw'))
      (fun t => reads_lift (ok_or (Fails ScbUnionInvalid) (from_tag t)))) _).
    intros v n bs _. setoid_rewrite ok_or_Ok. setoid_rewrite Hf. rewrite Ok_inj. split.
    + intros (t & n1 & n2 & b1 & b2 & (-> & _ & ->) & (-> & -> & ->) & -> & ->). by rewrite app_nil_r.
    + intros (-> & _ & <-). exists (tag v), 0%N, 0%N, (encode_uvar (tag v)), []. rewrite app_nil_r. split_and!; done || apply Hs.
Qed.

#[export] Instance simple_enum_lawful depth : EnumTags -> LawfulAt (simple_enum_codec tag from_tag) depth.
Proof using Type. intros [Hs Hf]. by apply (lawful_enum 32). Qed.
End simple_enum.

(** ** Lists *)

Definition sum (l : list N) : N := foldr N.add 0%N l.

(** The items of a loop whose state is [s] before the first *)
Section chain.
Context {S I : Type} (P : S -> I -> Prop) (next : S -> I -> S).
Fixpoint chain (s : S) (items : list I) : Prop :=
  match items with [] => True | it :: items => P s it /\ chain (next s it) items end.
End chain.

Lemma chain_Forall {S I} (P : I -> Prop) (next : S -> I -> S) s items : chain (fun _ => P) next s items <-> Forall P items.
Proof. revert s. induction items as [|it l IH]; intros s; cbn [chain]; [done|]. by rewrite Forall_cons, IH. Qed.

Lemma reads_repeat {S I} (P : S -> I -> Prop) next (k : I -> N) (enc : I -> bytes) (step : S -> DM S) n s :
  (forall s, Reads (step s) (fun s' m bs => exists it, P s it /\ s' = next s it /\ m = k it /\ bs = enc it)) ->
  Reads (repeat_decode step n s) (fun s' m bs => exists items, length items = n /\ chain P next s items /\
    s' = foldl next s items /\ m = sum (k <$> items) /\ bs = concat (enc <$> items)).
Proof.
  intros Hstep. revert s. induction n as [|n IH]; intros s; cbn [repeat_decode].
  - refine (reads_iff _ _ _ (reads_ret s) _). intros s' m bs _. split.
    + intros (-> & -> & ->). by exists [].
    + by intros ([|] & ? & _ & -> & -> & ->).
  - refine (reads_iff _ _ _ (reads_bind _ _ _ _ (Hstep s) IH) _). intros s' m bs _. split.
    + intros (a & n1 & n2 & b1 & b2 & (it & HP & -> & -> & ->) & (items & <- & Hc & -> & -> & ->) & -> & ->). by exists (it :: items).
    + intros ([|it items] & [= <-] & [HP Hc] & -> & -> & ->).
      exists (next s it), (k it), (sum (k <$> items)), (enc it), (concat (enc <$> items)). split_and!; [by exists it|by exists items|done..].
Qed.

Lemma list_bytes_concat ws : list_bytes wire_bytes ws = concat ((fun w => chunk (wire_bytes w)) <$> ws).
Proof. induction ws as [|w ws IH]; [done|]. cbn [list_bytes fmap list_fmap concat]. by rewrite IH. Qed.

Section elements.
Context {A : Type} (C : MutationValueCodec A) `{!CodecSpec C} (depth : N).
Context `{HC : !LawfulAt C (depth + 1)}.

(** The trees of elements, one level below *)
Definition trees_ok (l : list A) : Prop := Forall (fun v => wire_ok true (depth + 1) (tree C v)) l.

Lemma encode_elements_Ok kind l b :
  Forall (repr C) l ->
  encode_elements C l depth = Ok b <->
  (depth < MAX_NESTING_DEPTH)%N /\ (len l <= MAX_COLLECTION_ELEMENTS)%N /\ trees_ok l /\ b = wire_bytes (WList kind (tree C <$> l)).
Proof using HC.
  intros HR. unfold encode_elements. rewrite bind_Ok. setoid_rewrite check_container_depth_Ok. setoid_rewrite bind_Ok.
  setoid_rewrite map_res_Ok. setoid_rewrite map_err_iff. setoid_rewrite encode_list_Ok.
  assert (forall els, Forall2 (fun x y => encode_at_depth C x (depth + 1) = Ok y) l els <->
    trees_ok l /\ els = wire_bytes <$> (tree C <$> l)) as Hels.
  { clear b. induction HR as [|v l Hv HR IH]; intros els.
    - split; [intros H; inversion H; by split; [constructor|]|intros [_ ->]; constructor].
    - rewrite !fmap_cons. unfold trees_ok. rewrite Forall_cons. fold (trees_ok l). split.
      + intros H. inversion H as [|? y ? ys Hy Hys]; subst. apply IH in Hys as [? ->]. apply lawful_encode in Hy as [? ->]; done.
      + intros ([? ?] & ->). constructor; [by apply lawful_encode|by apply IH]. }
  setoid_rewrite Hels. cbn [wire_bytes]. rewrite list_bytes_concat. split.
  - intros (_ & Hd & els & [Ht ->] & Hl & _ & ->). rewrite !len_fmap in *. split_and!; try done.
    f_equal. f_equal. rewrite <- !list_fmap_compose. done.
  - intros (Hd & Hl & Ht & ->). exists tt. split; [done|]. eexists. split; [done|]. rewrite !len_fmap.
    split_and!; [done| |].
    + rewrite !Forall_fmap. eapply Forall_impl; [exact Ht|]. intros v Hw. by apply wire_ok_len in Hw.
    + f_equal. f_equal. rewrite <- !list_fmap_compose. done.
Qed.

Lemma reads_element {B} (k : bytes -> A -> DM B) F :
  (forall p v, Reads (k p v) (F p v)) ->
  Reads (payload ← cursor_read read_sized_payload; value ← decode_nested_exact C payload (depth + 1); k payload value)
    (fun x n bs => exists v m b2, repr C v /\ wire_ok true (depth + 1) (tree C v) /\ F (wire_bytes (tree C v)) v x m b2 /\
       n = (cost C v + m)%N /\ bs = chunk (wire_bytes (tree C v)) ++ b2).
Proof using HC.
  intros Hk. refine (reads_iff _ _ _ (reads_bind _ _ _ _ reads_sized_payload (fun p => reads_bind _ _ _ _
    (reads_nested C p (depth + 1) HC) (Hk p))) _). intros x n bs _. split.
  - intros (p & n1 & n2 & b1 & b2 & (-> & Hp & ->) & (v & n3 & n4 & b3 & b4 & ((HR & -> & Hw & ->) & ->) & HF & -> & ->) & -> & ->).
    by exists v, n4, b4.
  - intros (v & m & b2 & HR & Hw & HF & -> & ->).
    exists (wire_bytes (tree C v)), 0%N, (cost C v + m)%N, (chunk (wire_bytes (tree C v))), b2.
    split_and!; [done|by apply wire_ok_len in Hw|done| |done..]. by exists v, (cost C v), m, [], b2.
Qed.
End elements.

#[export] Instance list_spec {A} size (C : MutationValueCodec A) `{!CodecSpec C} : CodecSpec (list_codec size C) :=
  mkSpec (Forall (repr C)) (fun l => WList KPlain (tree C <$> l)) (fun l => len l * size + sum (cost C <$> l))%N.

#[export] Instance list_lawful {A} size (C : MutationValueCodec A) `{!CodecSpec C} depth :
  LawfulAt C (depth + 1) -> LawfulAt (list_codec size C) depth.
Proof.
  intros HC. split.
  - intros l b HR. rewrite encode_at_depth_Ok. cbn [encode_value list_codec]. rewrite (encode_elements_Ok C depth KPlain) by done.
    cbn [tree list_spec wire_ok list_keys]. rewrite all_prop_Forall, Forall_fmap. unfold small, trees_ok, compose. split.
    + intros (Hd & (Hd' & Hl & Ht & ->) & Hs). rewrite len_fmap. split_and!; try done. intros _. constructor.
    + intros ((Hs & Hd & Hl & _ & Ht) & ->). rewrite len_fmap in Hl. split_and!; try done. by apply N.lt_le_incl.
  - intros _. cbn [decode_value list_codec].
    refine (reads_iff _ _ _ (reads_check _ _ _ (fun _ => reads_bind _ _ _ _
      (reads_cursor _ _ (strict_read_len MAX_COLLECTION_ELEMENTS eq_refl)) (fun count => reads_bind _ _ _ _ (reads_charge_elements count size)
      (fun _ => reads_repeat (fun _ v => repr C v /\ wire_ok true (depth + 1) (tree C v)) (fun l v => l ++ [v]) (cost C)
        (fun v => chunk (wire_bytes (tree C v))) _ _ _ (fun l => reads_iff _ _ _ (reads_element C depth _ _ (fun p v => reads_ret (l ++ [v]))) _))))) _).
    + intros l' n bs _. split.
      * intros (v & m & b2 & HR & Hw & (-> & -> & ->) & -> & ->). exists v. by rewrite N.add_0_r, app_nil_r.
      * intros (v & [HR Hw] & -> & -> & ->). exists v, 0%N, []. by rewrite N.add_0_r, app_nil_r.
    + intros l n bs Hsm. unfold decodes. cbn [repr tree cost list_spec wire_ok wire_bytes list_keys].
      rewrite all_prop_Forall, Forall_fmap, list_bytes_concat, !len_fmap. setoid_rewrite check_container_depth_Ok. unfold compose.
      assert (forall items l0 : list A, foldl (fun (l : list A) v => l ++ [v]) l0 items = l0 ++ items) as Hfold.
      { induction items as [|x items IH]; intros l0; cbn [foldl]; [by rewrite app_nil_r|]. by rewrite IH, <- app_assoc. }
      setoid_rewrite chain_Forall. setoid_rewrite Forall_and. setoid_rewrite Hfold. rewrite <- list_fmap_compose. split.
      * intros (_ & Hd & c & n1 & n2 & b1 & b2 & (-> & Hc & ->) & (_ & n3 & n4 & b3 & b4 & (-> & ->) & (items & Hn & [HR Hw] & -> & -> & ->) & -> & ->) & -> & ->).
        assert (c = len items) as -> by (unfold len; lia). split_and!; try done. intros _. constructor.
      * intros (HR & -> & (Hs & Hd & Hc & _ & Hw) & ->). exists tt. split; [done|].
        exists (len l), 0%N, (len l * size + sum (cost C <$> l))%N, (encode_uvar (len l)), (concat ((fun v => chunk (wire_bytes (tree C v))) <$> l)).
        split_and!; try done. exists tt, (len l * size)%N, (sum (cost C <$> l)), [], (concat ((fun v => chunk (wire_bytes (tree C v))) <$> l)).
        split_and!; try done. exists l. split_and!; try done. unfold len. lia.
Qed.

(** ** Boxes *)

#[export] Instance box_spec {A} size (C : MutationValueCodec A) `{!CodecSpec C} : CodecSpec (box_codec size C) :=
  mkSpec (repr C) (tree C) (fun v => size + cost C v)%N.

#[export] Instance box_lawful {A} size (C : MutationValueCodec A) `{!CodecSpec C} depth :
  LawfulAt C depth -> LawfulAt (box_codec size C) depth.
Proof.
  intros HC. split.
  - intros v b HR. exact (lawful_encode (C := C) v b HR).
  - intros Hd. cbn [decode_value box_codec]. refine (reads_iff _ _ _ (reads_bind _ _ _ _ (reads_charge size) (fun _ => lawful_decode Hd)) _).
    intros v n bs _. unfold decodes. cbn [repr tree cost box_spec]. split.
    + by intros (_ & n1 & n2 & b1 & b2 & (-> & ->) & (HR & -> & Hw & ->) & -> & ->).
    + intros (HR & -> & Hw & ->). by exists tt, size, (cost C v), [], (wire_bytes (tree C v)).
Qed.

(** ** The loop over the fields of a record *)

Section record_fields.
Context {S : Type} (expected_tags : list N) (decode_field : N -> bytes -> S -> DM S).
(** What the payload of a field does to the variables, and what it allocates *)
Variable F : N -> bytes -> S -> S -> N -> Prop.
Hypothesis Hfield : forall t p s, Reads (decode_field t p s) (fun s' n bs => F t p s s' n /\ bs = []).

Fixpoint fields_rel (tags : list N) (s s' : S) (n : N) (bs : bytes) : Prop :=
  match tags with
  | [] => s' = s /\ n = 0%N /\ bs = []
  | t :: tags => exists p s1 n1 n2 bs2, small p /\ F t p s s1 n1 /\ fields_rel tags s1 s' n2 bs2 /\
      n = (n1 + n2)%N /\ bs = field_enc (t, p) ++ bs2
  end.

(** Tags of 32 bits that ascend from [previous] *)
Fixpoint ascending_tags (previous : option N) (tags : list N) : Prop :=
  match tags with
  | [] => True
  | t :: tags => match previous with Some p => (p < t)%N | None => True end /\ (t < 2 ^ 32)%N /\ ascending_tags (Some t) tags
  end.

Lemma reads_previous (previous : option N) t :
  match previous with Some p => (p < t)%N | None => True end ->
  Reads (match previous with
         | Some p => if (t =? p)%N then fail ScbFieldDuplicate else if (t <? p)%N then fail ScbFieldOrder else mret tt
         | None => mret tt end : DM unit) (fun _ n bs => n = 0%N /\ bs = []).
Proof using Type.
  intros Hp. assert (Reads (mret tt : DM unit) (fun _ n bs => n = 0%N /\ bs = [])) as Hr.
  { refine (reads_iff _ _ _ (reads_ret tt) _). intros [] n bs _. naive_solver. }
  destruct previous as [p|]; [|done]. destruct (N.eqb_spec t p); [lia|]. destruct (N.ltb_spec t p); [lia|done].
Qed.

Lemma reads_fields_loop tags previous s :
  ascending_tags previous tags ->
  Reads (record_fields_loop expected_tags decode_field tags previous s) (fun s' n bs => fields_rel tags s s' n bs).
Proof using Hfield.
  revert previous s. induction tags as [|t tags IH]; intros previous s; cbn [record_fields_loop ascending_tags fields_rel].
  - intros _. apply reads_ret.
  - intros (Hp & Ht & Ha).
    refine (reads_iff _ _ (fun s' n bs => exists p s1 n1 n2 bs2, small p /\ F t p s s1 n1 /\ fields_rel tags s1 s' n2 bs2 /\
      n = (n1 + n2)%N /\ bs = field_enc (t, p) ++ bs2) (reads_bind_when _ _ _
      (fun t' s' n bs => t' = t /\ exists p s1 n1 n2 bs2, small p /\ F t p s s1 n1 /\ fields_rel tags s1 s' n2 bs2 /\
         n = (n1 + n2)%N /\ bs = chunk p ++ bs2) (reads_cursor _ _ (strict_cursor_uvar 32 eq_refl)) _) _).
    + intros t' n' bs' (-> & Ht' & ->). destruct (N.eqb_spec t' t) as [->|Hne].
      * refine (reads_iff _ _ _ (reads_bind _ _ _ _ (reads_previous previous t Hp) (fun _ => reads_bind _ _ _ _ reads_sized_payload
          (fun p => reads_bind _ _ _ _ (Hfield t p s) (fun s1 => IH (Some t) s1 Ha)))) _). intros s' n bs _. split.
        -- intros (_ & n1 & n2 & b1 & b2 & (-> & ->) & (p & n3 & n4 & b3 & b4 & (-> & Hs & ->) &
             (s1 & n5 & n6 & b5 & b6 & (HF & ->) & Hr & -> & ->) & -> & ->) & -> & ->). split; [done|].
           exists p, s1, n5, n6, b6. split_and!; done.
        -- intros (_ & p & s1 & n1 & n2 & b2 & Hs & HF & Hr & -> & ->).
           exists tt, 0%N, (n1 + n2)%N, [], (chunk p ++ b2). split_and!; try done.
           exists p, 0%N, (n1 + n2)%N, (chunk p), b2. split_and!; try done. by exists s1, n1, n2, [], b2.
      * refine (reads_iff _ _ _ (reads_fail _ _) _); [|naive_solver].
        intros st [x st'] (u & st1 & _ & Hx)%ST_bind_Ok. done.
    + intros s' n bs _. split.
      * intros (t' & n1 & n2 & b1 & b2 & (-> & _ & ->) & (-> & p & s1 & m1 & m2 & b3 & Hs & HF & Hr & -> & ->) & -> & ->).
        exists p, s1, m1, m2, b3. unfold field_enc. rewrite <- app_assoc. split_and!; done.
      * intros (p & s1 & n1 & n2 & b2 & Hs & HF & Hr & -> & ->).
        exists t, 0%N, (n1 + n2)%N, (encode_uvar t), (chunk p ++ b2). unfold field_enc. rewrite <- app_assoc.
        split_and!; try done. by exists p, s1, n1, n2, b2.
Qed.

Lemma reads_record_fields s :
  ascending_tags None expected_tags -> (len expected_tags <= MAX_RECORD_FIELDS)%N ->
  Reads (decode_record_fields expected_tags decode_field s)
    (fun s' n bs => exists b2, fields_rel expected_tags s s' n b2 /\ bs = encode_uvar (len expected_tags) ++ b2).
Proof using Hfield.
  intros Ha Hl. unfold decode_record_fields.
  refine (reads_iff _ _ _ (reads_bind_when _ _ _ (fun c s' n bs => c = len expected_tags /\ fields_rel expected_tags s s' n bs)
    (reads_cursor _ _ (strict_read_len MAX_RECORD_FIELDS eq_refl)) _) _).
  - intros c n bs _. destruct (N.eqb_spec c (len expected_tags)) as [->|Hne].
    + refine (reads_iff _ _ _ (reads_fields_loop expected_tags None s Ha) _). intros s' n' b' _. split; [done|by intros [_ ?]].
    + refine (reads_iff _ _ _ (reads_fail _ _) _); [done|]. intros s' n' b' _. split; [done|by intros [? _]].
  - intros s' n bs _. split.
    + intros (c & n1 & n2 & b1 & b2 & (-> & _ & ->) & (-> & Hr) & -> & ->). by exists b2.
    + intros (b2 & Hr & ->). by exists (len expected_tags), 0%N, n, (encode_uvar (len expected_tags)), b2.
Qed.
End record_fields.

(** ** The loop over fields that may be missing *)

Definition last_tag (o : option N) (tags : list N) : option N := foldl (fun _ t => Some t) o tags.

Section tagged.
Context {X : Type} (assign : N -> bytes -> X -> DM X).
Variable R : N -> bytes -> X -> X -> N -> Prop.
Hypothesis Hassign : forall t p x, Reads (assign t p x) (fun x' n bs => R t p x x' n /\ bs = []).

(** The tag read is above the previous one. *)
Lemma reads_tag_order (previous : option N) t :
  Reads (match previous with
         | Some p => if (t =? p)%N then fail ScbFieldDuplicate else if (t <? p)%N then fail ScbFieldOrder else mret tt
         | None => mret tt end : DM unit)
    (fun _ n bs => match previous with Some p => (p < t)%N | None => True end /\ n = 0%N /\ bs = []).
Proof using Type.
  assert ({match previous with Some p => (p < t)%N | None => True end} + {exists p, previous = Some p /\ (t <= p)%N}) as [Hp|(p & -> & Hp)].
  { destruct previous as [p|]; [|by left]. destruct (decide (p < t)%N); [by left|]. right. exists p. split; [done|lia]. }
  - refine (reads_iff _ _ _ (reads_previous previous t Hp) _). naive_solver.
  - destruct (N.eqb_spec t p) as [->|Hne]; [|destruct (N.ltb_spec t p); [|lia]].
    all: refine (reads_iff _ _ _ (reads_fail _ _) _); [done|intros _ n bs _; lia].
Qed.

Lemma reads_tagged_field st :
  Reads (tagged_field assign st) (fun st' n bs => exists t p,
    (match st.1 with Some q => (q < t)%N | None => True end /\ (t < 2 ^ 32)%N) /\ small p /\
    R t p st.2 st'.2 n /\ st'.1 = Some t /\ bs = field_enc (t, p)).
Proof using Hassign.
  destruct st as [o xs]. unfold tagged_field. refine (reads_iff _ _ _ (reads_bind _ _ _ _ (reads_cursor _ _ (strict_cursor_uvar 32 eq_refl))
    (fun t => reads_bind _ _ _ _ (reads_tag_order o t) (fun _ => reads_bind _ _ _ _ reads_sized_payload
      (fun p => reads_map _ _ (fun xs => (Some t, xs)) (Hassign t p xs))))) _).
  intros [o' xs'] n bs _. cbn [fst snd]. unfold field_enc. split.
  - intros (t & n1 & n2 & b1 & b2 & (-> & Ht & ->) & (_ & n3 & n4 & b3 & b4 & (Ho & -> & ->) &
      (p & n5 & n6 & b5 & b6 & (-> & Hp & ->) & (xs1 & [= -> ->] & Hr & ->) & -> & ->) & -> & ->) & -> & ->).
    exists t, p. rewrite app_nil_r. by split_and!.
  - intros (t & p & (Ho & Ht) & Hp & Hr & -> & ->). exists t, 0%N, n, (encode_uvar t), (chunk p). split_and!; try done.
    exists tt, 0%N, n, [], (chunk p). split_and!; try done. exists p, 0%N, n, (chunk p), []. rewrite app_nil_r. split_and!; try done.
    by exists xs'.
Qed.

Lemma reads_tagged_loop n st :
  Reads (repeat_decode (tagged_field assign) n st) (fun st' m bs => exists tags,
    length tags = n /\ ascending_tags st.1 tags /\ fields_rel R tags st.2 st'.2 m bs /\ st'.1 = last_tag st.1 tags).
Proof using Hassign.
  revert st. induction n as [|n IH]; intros st; cbn [repeat_decode].
  - refine (reads_iff _ _ _ (reads_ret st) _). intros st' m bs _. split.
    + intros (-> & -> & ->). by exists [].
    + intros ([|t tags] & ? & _ & Hr & E'); [|done]. destruct Hr as (E & -> & ->). split; [|done]. cbn in E'. destruct st, st'. cbn in *. by subst.
  - refine (reads_iff _ _ _ (reads_bind _ _ _ _ (reads_tagged_field st) IH) _). intros st' m bs _. split.
    + intros (st1 & n1 & n2 & b1 & b2 & (t & p & [Ho Ht] & Hp & Hr & E & ->) & (tags & <- & Ha & Hrs & Hl) & -> & ->).
      rewrite E in Ha, Hl. exists (t :: tags). split_and!; try done. by exists p, st1.2, n1, n2, b2.
    + intros ([|t tags] & [= <-] & (Ho & Ht & Ha) & (p & xs1 & n1 & n2 & b2 & Hp & Hr & Hrs & -> & ->) & Hl).
      exists (Some t, xs1), n1, n2, (field_enc (t, p)), b2. split_and!; try done; [by exists t, p|by exists tags].
Qed.

(** The tags are those of the variables that are set. *)
Section set.
Context (set : N -> X -> bool) (all : list N).
Hypothesis Hset : forall t p x x' n, R t p x x' n -> t ∈ all /\ forall i, i ∈ all -> set i x' = (i =? t)%N || set i x.

Lemma tags_set tags x x' n bs :
  fields_rel R tags x x' n bs -> Forall (fun t => t ∈ all) tags /\ forall i, i ∈ all -> set i x' = bool_decide (i ∈ tags) || set i x.
Proof using Hset.
  revert x n bs. induction tags as [|t tags IH]; intros x n bs; [by intros (-> & _)|].
  intros (p & s1 & n1 & n2 & b2 & _ & [Ht Hr]%Hset & [Hall Hs]%IH & _). split; [by constructor|].
  intros i Hi. rewrite Hs, Hr, orb_assoc by done. f_equal. apply eq_true_iff_eq.
  rewrite orb_true_iff, !bool_decide_eq_true, N.eqb_eq, elem_of_cons. tauto.
Qed.

Lemma ascending_tags_sorted o tags : ascending_tags o tags ->
  StronglySorted N.lt tags /\ Forall (fun t => match o with Some p => (p < t)%N | None => True end) tags.
Proof using Type.
  revert o. induction tags as [|t tags IH]; intros o; [split; constructor|]. intros (Ho & _ & [Hs Hf]%IH). split; [by constructor|].
  constructor; [done|]. eapply Forall_impl; [exact Hf|]. cbv beta. intros t' Ht'. destruct o; [lia|done].
Qed.

Lemma tags_exact tags x x' n bs :
  ascending_tags None tags -> fields_rel R tags x x' n bs -> StronglySorted N.lt all -> (forall i, i ∈ all -> set i x = false) ->
  tags = filter (fun i => set i x' = true) all.
Proof using Hset.
  intros [Hs _]%ascending_tags_sorted [Hall Hst]%tags_set Hsall Hx.
  assert (StronglySorted N.lt (filter (fun i => set i x' = true) all)) as Hsf.
  { clear - Hsall. induction Hsall as [|i l Hl IH Hi]; [constructor|]. rewrite filter_cons. case_decide; [|done].
    constructor; [done|]. apply Forall_forall. intros j [_ Hj]%list_elem_of_filter. rewrite Forall_forall in Hi. by apply Hi. }
  apply (lt_key_unique id N.compare N_total_compare); [exact Hs|exact Hsf|].
  assert (forall l : list N, StronglySorted N.lt l -> NoDup l) as Hnd.
  { intros l Hl. pose proof (lt_key_NoDup id N.compare N_total_compare l Hl) as Hn. by rewrite list_fmap_id in Hn. }
  apply NoDup_Permutation; [by apply Hnd..|]. intros i. rewrite list_elem_of_filter. split.
  - intros Hi. rewrite Forall_forall in Hall. specialize (Hall i Hi). split; [|done]. rewrite Hst, (bool_decide_eq_true_2 _ Hi) by done. done.
  - intros [Hsi Hi]. rewrite Hst, Hx, orb_false_r in Hsi by done. by apply bool_decide_eq_true in Hsi.
Qed.
End set.
End tagged.

(** ** Records *)

Class FieldSpecs (fields : list Field) : Type := mkFieldSpecs {
  fields_repr : values fields -> Prop;
  fields_trees : values fields -> list wire;
  fields_cost : values fields -> N;
  (** What the payload [p] of the field with tag [t] does to the variables *)
  assign_rel : N -> N -> bytes -> variables fields -> variables fields -> N -> Prop
}.
Arguments mkFieldSpecs {fields}. Arguments fields_repr fields {_}. Arguments fields_trees fields {_}.
Arguments fields_cost fields {_}. Arguments assign_rel fields {_}.

#[export] Instance nil_field_specs : FieldSpecs [] :=
  mkFieldSpecs (fields := []) (fun _ => True) (fun _ => []) (fun _ => 0%N) (fun _ _ _ _ _ _ => False).
#[export] Instance cons_field_specs f fields `{!CodecSpec (fd_codec f), !FieldSpecs fields} : FieldSpecs (f :: fields) :=
  mkFieldSpecs (fields := f :: fields)
    (fun '(v, vs) => repr (fd_codec f) v /\ fields_repr fields vs)
    (fun '(v, vs) => tree (fd_codec f) v :: fields_trees fields vs)
    (fun '(v, vs) => cost (fd_codec f) v + fields_cost fields vs)%N
    (fun depth t p '(x, xs) '(x', xs') n =>
      if (t =? fd_tag f)%N then xs' = xs /\ exists v, x' = Some v /\ decodes (fd_codec f) depth v n p
      else x' = x /\ assign_rel fields depth t p xs xs' n).

(** The laws of all fields at a depth *)
Class FieldsLawful (fields : list Field) `{!FieldSpecs fields} (depth : N) : Prop := {
  fields_encode vs l : fields_repr fields vs -> encode_fields fields depth vs = Ok l <->
    Forall (wire_ok true depth) (fields_trees fields vs) /\ l = zip (fd_tag <$> fields) (wire_bytes <$> fields_trees fields vs);
  fields_assign t p xs : Reads (assign fields depth t p xs) (fun xs' n bs => assign_rel fields depth t p xs xs' n /\ bs = []);
  fields_decode xs' n bs : NoDup (fd_tag <$> fields) ->
    fields_rel (assign_rel fields depth) (fd_tag <$> fields) (unset fields) xs' n bs <->
    exists vs, assigned fields xs' = Ok vs /\ fields_repr fields vs /\ Forall (wire_ok true depth) (fields_trees fields vs) /\
      n = fields_cost fields vs /\ bs = concat (field_enc <$> zip (fd_tag <$> fields) (wire_bytes <$> fields_trees fields vs));
  fields_length vs : length (fields_trees fields vs) = length fields
}.

Lemma assigned_complete fields vs : exists xs, assigned fields xs = Ok vs.
Proof.
  induction fields as [|f fields IH]; [exists tt; by destruct vs|]. destruct vs as [v vs]. destruct (IH vs) as [xs H].
  exists (Some v, xs). cbn. by rewrite H.
Qed.

#[export] Instance nil_fields_lawful depth : FieldsLawful [] depth.
Proof.
  split; cbn.
  - intros [] l _. rewrite Ok_inj. split; [intros <-; by split|by intros [_ ->]].
  - intros t p xs. refine (reads_iff _ _ _ (reads_fail _ _) _); [done|naive_solver].
  - intros [] n bs _. setoid_rewrite Ok_inj. split; [intros (_ & -> & ->); exists tt; by split_and!|by intros ([] & _ & _ & _ & -> & ->)].
  - done.
Qed.

Section cons.
Context (f : Field) (fields : list Field) `{!CodecSpec (fd_codec f), !FieldSpecs fields} (depth : N).
Context `{HC : !LawfulAt (fd_codec f) depth, HF : !FieldsLawful fields depth}.

Lemma fields_rel_frame tags x xs x' xs' n bs :
  fd_tag f ∉ tags ->
  fields_rel (assign_rel (f :: fields) depth) tags ((x, xs) : variables (f :: fields)) ((x', xs') : variables (f :: fields)) n bs <->
  x' = x /\ fields_rel (assign_rel fields depth) tags xs xs' n bs.
Proof using Type.
  revert x xs n bs. induction tags as [|t tags IH]; intros x xs n bs Hn; cbn [fields_rel].
  - split; [by intros ([= -> ->] & -> & ->)|by intros (-> & -> & -> & ->)].
  - apply not_elem_of_cons in Hn as [Hne Hn]. cbn [assign_rel cons_field_specs]. split.
    + intros (p & [y ys] & n1 & n2 & b2 & Hs & HA & Hr & -> & ->). destruct (N.eqb_spec t (fd_tag f)) as [->|_]; [done|].
      destruct HA as [-> HA]. apply IH in Hr as [-> Hr]; [|done]. split; [done|]. by exists p, ys, n1, n2, b2.
    + intros (-> & p & ys & n1 & n2 & b2 & Hs & HA & Hr & -> & ->). exists p, (x, ys), n1, n2, b2.
      destruct (N.eqb_spec t (fd_tag f)) as [->|_]; [done|]. split_and!; try done. by apply IH.
Qed.

#[export] Instance cons_fields_lawful : FieldsLawful (f :: fields) depth.
Proof using HC HF.
  split.
  - intros [v vs] l [Hv Hvs]. cbn [encode_fields fields_trees cons_field_specs fmap list_fmap zip zip_with].
    rewrite Forall_cons. split.
    + intros (b & [Hw ->]%lawful_encode & (l' & [Hws ->]%fields_encode & [= <-])%bind_Ok)%bind_Ok; done.
    + intros ([Hw Hws] & ->). apply bind_Ok. exists (wire_bytes (tree (fd_codec f) v)). split; [by apply lawful_encode|].
      apply bind_Ok. exists (zip (fd_tag <$> fields) (wire_bytes <$> fields_trees fields vs)). split; [by apply fields_encode|done].
  - intros t p [x xs]. cbn [assign assign_rel cons_field_specs]. destruct (N.eqb_spec t (fd_tag f)) as [->|_].
    + refine (reads_iff _ _ _ (reads_map _ _ _ (reads_nested (fd_codec f) p depth HC)) _). intros [y ys] n bs _. split.
      * intros (v & [= -> ->] & Hd & ->). split_and!; try done. by exists v.
      * intros ((-> & v & -> & Hd) & ->). by exists v.
    + refine (reads_iff _ _ _ (reads_map _ _ _ (fields_assign t p xs)) _). intros [y ys] n bs _. split.
      * intros (zs & [= -> ->] & HA & ->). done.
      * intros ((-> & HA) & ->). by exists ys.
  - intros [x' xs'] n bs [Hni Hnd]%NoDup_cons. cbn [fmap list_fmap fields_rel unset assign_rel cons_field_specs assigned fields_trees fields_repr fields_cost zip zip_with concat].
    setoid_rewrite bind_Ok. setoid_rewrite bind_Ok. setoid_rewrite ok_or_Ok. setoid_rewrite Ok_inj. split.
    + intros (p & [y ys] & n1 & n2 & b2 & Hs & HA & Hr & -> & ->). rewrite N.eqb_refl in HA. destruct HA as (-> & v & -> & HR & -> & Hw & ->).
      apply fields_rel_frame in Hr as [-> Hr]; [|done]. apply fields_decode in Hr as (vs & Hv & HRs & Hws & -> & ->); [|done].
      exists (v, vs). split_and!; try done; [|by rewrite Forall_cons]. exists v. split; [done|]. by exists vs.
    + intros ([v vs] & (v' & -> & vs' & Hvs & [= -> ->]) & [HR HRs] & [Hw Hws]%Forall_cons & -> & ->).
      exists (wire_bytes (tree (fd_codec f) v)), (Some v, unset fields), (cost (fd_codec f) v), (fields_cost fields vs),
        (concat (field_enc <$> zip (fd_tag <$> fields) (wire_bytes <$> fields_trees fields vs))).
      split_and!; [by apply wire_ok_len in Hw| | |done..].
      * rewrite N.eqb_refl. split; [done|]. by exists v.
      * apply fields_rel_frame; [done|]. split; [done|]. apply fields_decode; [done|]. by exists vs.
  - intros [v vs]. cbn. by rewrite fields_length.
Qed.
End cons.

(** Tags that count up from [i] *)
Fixpoint numbered_tags (i : N) (tags : list N) : bool :=
  match tags with [] => true | t :: tags => (t =? i)%N && numbered_tags (i + 1) tags end.

Lemma record_bytes_concat i tags ws :
  numbered_tags i tags = true -> length tags = length ws ->
  record_bytes wire_bytes i ws = concat (field_enc <$> zip tags (wire_bytes <$> ws)).
Proof.
  revert i ws. induction tags as [|t tags IH]; intros i [|w ws]; try done. cbn [numbered_tags]. intros [->%N.eqb_eq Hn]%andb_prop [= Hl].
  cbn [record_bytes fmap list_fmap zip zip_with concat]. unfold field_enc at 1. cbn [fst snd]. by rewrite (IH (i + 1)%N), framed_chunk, <- app_assoc.
Qed.

Lemma numbered_sorted i tags : numbered_tags i tags = true -> strictly_sorted tags = true.
Proof.
  revert i. induction tags as [|t tags IH]; intros i; [done|]. cbn [numbered_tags]. intros [->%N.eqb_eq Hn]%andb_prop.
  destruct tags as [|t tags]; [done|]. change (strictly_sorted (i :: t :: tags)) with ((i <? t)%N && strictly_sorted (t :: tags)).
  rewrite (IH _ Hn). cbn [numbered_tags] in Hn. apply andb_prop in Hn as [->%N.eqb_eq _]. destruct (N.ltb_spec i (i + 1)); [done|lia].
Qed.

Lemma numbered_ascending i tags previous :
  numbered_tags i tags = true -> (i + len tags <= 2 ^ 32)%N -> match previous with Some p => (p < i)%N | None => True end ->
  ascending_tags previous tags.
Proof.
  revert i previous. induction tags as [|t tags IH]; intros i previous; [done|]. cbn [numbered_tags ascending_tags].
  intros [->%N.eqb_eq Hn]%andb_prop. rewrite len_cons. intros Hl Hp. split_and!; [done|lia|]. apply (IH (i + 1)%N); [done|lia..].
Qed.

Lemma numbered_tags_NoDup i tags : numbered_tags i tags = true -> NoDup tags.
Proof.
  intros Hn%numbered_sorted%strictly_sorted_spec. induction Hn as [|t tags _ IH Hall]; [constructor|].
  constructor; [|done]. intros Hin. rewrite Forall_forall in Hall. specialize (Hall _ Hin). lia.
Qed.

Section record.
Context (fields : list Field) `{!FieldSpecs fields}.
Hypothesis Hnum : numbered_tags 1 (fd_tag <$> fields) = true.
Hypothesis Hlen : (len fields <= MAX_RECORD_FIELDS)%N.

Lemma record_tags_ascending : ascending_tags None (fd_tag <$> fields).
Proof using Hnum Hlen. apply (numbered_ascending 1); [done| |done]. rewrite len_fmap. unfold MAX_RECORD_FIELDS in Hlen. lia. Qed.

Section depth.
Context (depth : N) `{HF : !FieldsLawful fields (depth + 1)}.

Lemma record_tree_bytes vs :
  wire_bytes (WRecord (fields_trees fields vs)) =
  encode_uvar (len fields) ++ concat (field_enc <$> zip (fd_tag <$> fields) (wire_bytes <$> fields_trees fields vs)).
Proof using HF Hnum.
  pose proof (fields_length (FieldsLawful := HF) vs) as Hl. cbn [wire_bytes]. rewrite (record_bytes_concat 1 (fd_tag <$> fields)).
  - unfold len. by rewrite Hl.
  - done.
  - by rewrite length_fmap.
Qed.

Lemma reads_record_decode :
  Reads (record_decode fields depth) (fun vs n bs => fields_repr fields vs /\ n = fields_cost fields vs /\
    wire_ok true depth (WRecord (fields_trees fields vs)) /\ bs = wire_bytes (WRecord (fields_trees fields vs))).
Proof using HF Hnum Hlen.
  assert (len (fd_tag <$> fields) <= MAX_RECORD_FIELDS)%N as Hl by by rewrite len_fmap.
  pose proof (reads_record_fields (fd_tag <$> fields) (assign fields (depth + 1)) (assign_rel fields (depth + 1))
    (fun t p xs => fields_assign t p xs) (unset fields) record_tags_ascending Hl) as Hr.
  unfold record_decode. refine (reads_iff _ _ _ (reads_check _ _ _ (fun _ : unit => reads_bind _ _ _ _ Hr (fun xs => reads_lift (assigned fields xs)))) _).
  intros vs n bs Hsm. setoid_rewrite check_container_depth_Ok. setoid_rewrite (fun xs' n bs => fields_decode xs' n bs (numbered_tags_NoDup 1 _ Hnum)).
  rewrite record_tree_bytes, len_fmap. cbn [wire_ok]. rewrite all_prop_Forall. split.
  - intros (_ & Hd & xs & n1 & n2 & b1 & b2 & (b3 & (vs' & Hvs & HR & Hw & -> & ->) & ->) & (Hvs' & -> & ->) & -> & ->).
    rewrite Hvs in Hvs'. injection Hvs' as ->. rewrite N.add_0_r. rewrite app_nil_r in Hsm |- *. rewrite record_tree_bytes. split_and!; done.
  - intros (HR & -> & (Hs & Hd & Hw) & ->). exists tt. split; [done|].
    destruct (assigned_complete fields vs) as [xs Hxs].
    exists xs, (fields_cost fields vs), 0%N, (encode_uvar (len fields) ++ concat (field_enc <$> zip (fd_tag <$> fields) (wire_bytes <$> fields_trees fields vs))), [].
    rewrite N.add_0_r, app_nil_r. split_and!; try done. eexists. split; [|done]. exists vs. split_and!; done.
Qed.
End depth.
End record.

#[export] Instance record_spec {R} fields (make : values fields -> R) get `{!FieldSpecs fields} : CodecSpec (record_codec fields make get) :=
  mkSpec (fun v => fields_repr fields (get v)) (fun v => WRecord (fields_trees fields (get v))) (fun v => fields_cost fields (get v)).

(** The bytes of a record with numbered fields *)
Lemma encode_fields_record fields `{!FieldSpecs fields} depth `{HF : !FieldsLawful fields (depth + 1)} vs b :
  numbered_tags 1 (fd_tag <$> fields) = true -> (len fields <= MAX_RECORD_FIELDS)%N -> fields_repr fields vs ->
  (exists encoded, encode_fields fields (depth + 1) vs = Ok encoded /\ encode_record encoded = Ok b) <->
  Forall (wire_ok true (depth + 1)) (fields_trees fields vs) /\ b = wire_bytes (WRecord (fields_trees fields vs)).
Proof.
  intros Hnum Hlen HR. rewrite (record_tree_bytes fields Hnum depth vs).
  set (tags := fd_tag <$> fields) in *. set (l := zip tags (wire_bytes <$> fields_trees fields vs)).
  assert (len l = len fields) as Hll.
  { unfold l, len, tags. rewrite length_zip_with, !length_fmap, fields_length. lia. }
  assert (l.*1 = tags) as Hl1.
  { unfold l. rewrite fst_zip; [done|]. unfold tags. by rewrite !length_fmap, fields_length. }
  assert (Forall (wire_ok true (depth + 1)) (fields_trees fields vs) -> fields_ok l) as Hok.
  { intros Hw. split; [|by apply tags_ascending; rewrite Hl1; eapply numbered_sorted].
    apply Forall_forall. intros [t p] Hin. split; cbn [fst snd].
    - assert (t ∈ tags) as Ht by (rewrite <- Hl1; apply list_elem_of_fmap; by exists (t, p)).
      pose proof (record_tags_ascending fields Hnum Hlen) as Ha. revert Ha Ht. fold tags. generalize (@None N) as o. clear.
      induction tags as [|t' tags IH]; intros o; [intros _ ?%not_elem_of_nil; done|]. intros (_ & Ht & Ha) [->|Hin]%elem_of_cons; [done|by eapply IH].
    - apply elem_of_zip_r in Hin. apply list_elem_of_fmap in Hin as (w & -> & Hin). rewrite Forall_forall in Hw.
      by apply (wire_ok_len _ _ _ (Hw _ Hin)). }
  split.
  - intros (e & [Hw ->]%fields_encode & He); [|done]. apply encode_sorted_record in He as [_ ->]; [|by apply Hok]. by rewrite <- Hll.
  - intros [Hw ->]. exists l. split; [by apply fields_encode|]. apply encode_sorted_record; [by apply Hok|]. by rewrite Hll.
Qed.

Lemma record_lawful {R} fields (make : values fields -> R) get `{!FieldSpecs fields} depth :
  FieldsLawful fields (depth + 1) -> numbered_tags 1 (fd_tag <$> fields) = true -> (len fields <= MAX_RECORD_FIELDS)%N ->
  (forall vs, get (make vs) = vs) -> (forall v, make (get v) = v) -> LawfulAt (record_codec fields make get) depth.
Proof.
  intros HF Hnum Hlen Hgm Hmg. split.
  - intros v b HR. cbn [repr tree record_spec] in *. rewrite encode_at_depth_Ok. cbn [encode_value record_codec].
    rewrite bind_Ok. setoid_rewrite check_container_depth_Ok. setoid_rewrite bind_Ok. setoid_rewrite map_err_iff.
    cbn [wire_ok]. rewrite all_prop_Forall. pose proof (encode_fields_record fields depth (get v) b Hnum Hlen HR) as He. split.
    + intros (Hd & (_ & Hd' & H%He) & Hs). destruct H as [Hw ->]. done.
    + intros ((Hs & Hd & Hw) & ->). split; [by apply N.lt_le_incl|]. split; [|done]. exists tt. split; [done|]. by apply He.
  - intros _. cbn [decode_value record_codec]. refine (reads_iff _ _ _ (reads_map _ _ make (reads_record_decode fields Hnum Hlen depth)) _).
    intros v n bs _. unfold decodes. cbn [repr tree cost record_spec]. split.
    + intros (vs & -> & ?). by rewrite Hgm.
    + intros H. exists (get v). by rewrite Hmg.
Qed.

(** ** Tagged unions *)

Class ArmSpecs {A} (arms : list (Arm A)) : Type := mkArmSpecs {
  arms_repr : A -> Prop;
  arms_payload : A -> option wire;
  arms_cost : A -> N;
  (** What the payload of a tag is read as *)
  arms_rel : N -> N -> bytes -> A -> N -> Prop
}.
Arguments mkArmSpecs {A arms}. Arguments arms_repr {A} arms {_}. Arguments arms_payload {A} arms {_}.
Arguments arms_cost {A} arms {_}. Arguments arms_rel {A} arms {_}.

Section arm_specs.
Context {A : Type}.

#[export] Instance nil_arm_specs : ArmSpecs (@nil (Arm A)) :=
  mkArmSpecs (fun _ => False) (fun _ => None) (fun _ => 0%N) (fun _ _ _ _ _ => False).

#[export] Instance unit_arm_specs t (a : A) test arms `{!ArmSpecs arms} : ArmSpecs (UnitArm t a test :: arms) :=
  mkArmSpecs (fun v => if test v then True else arms_repr arms v) (fun v => if test v then None else arms_payload arms v)
    (fun v => if test v then 0%N else arms_cost arms v)
    (fun depth t' p v n => if (t' =? t)%N && bool_decide (p = []) then v = a /\ n = 0%N else arms_rel arms depth t' p v n).

#[export] Instance data_arm_specs t {B} (C : MutationValueCodec B) (make : B -> A) get arms `{!CodecSpec C, !ArmSpecs arms} :
    ArmSpecs (DataArm t C make get :: arms) :=
  mkArmSpecs (fun v => match get v with Some b => repr C b | None => arms_repr arms v end)
    (fun v => match get v with Some b => Some (tree C b) | None => arms_payload arms v end)
    (fun v => match get v with Some b => cost C b | None => arms_cost arms v end)
    (fun depth t' p v n => if (t' =? t)%N then exists b, v = make b /\ decodes C depth b n p else arms_rel arms depth t' p v n).
End arm_specs.

Class ArmsLawful {A} (tag : A -> N) (arms : list (Arm A)) `{!ArmSpecs arms} (depth : N) : Prop := {
  arms_decode t p : Reads (decode_arms arms depth t p) (fun v n bs => arms_rel arms depth t p v n /\ bs = []);
  arms_encode v b : arms_repr arms v ->
    encode_arms tag arms depth v = Ok b <->
    match arms_payload arms v with Some w => wire_ok true depth w | None => True end /\
    b = wire_bytes (WUnion (tag v) (arms_payload arms v));
  arms_tagged v : arms_repr arms v -> tag v ∈ arm_tag <$> arms;
  arms_agree t p v n : arms_rel arms depth t p v n <->
    t = tag v /\ arms_repr arms v /\ n = arms_cost arms v /\
    match arms_payload arms v with Some w => wire_ok true depth w /\ p = wire_bytes w | None => p = [] end
}.

#[export] Instance nil_arms_lawful {A} (tag : A -> N) depth : ArmsLawful tag [] depth.
Proof.
  split; cbn; [|done|done|].
  - intros t p. refine (reads_iff _ _ _ (reads_fail _ _) _); [done|naive_solver].
  - intros t p v n. split; [done|]. by intros (_ & ? & _).
Qed.

Section arms.
Context {A : Type} (tag : A -> N) (arms : list (Arm A)) `{!ArmSpecs arms} (depth : N) (t : N).
Hypothesis Hfresh : forall v, tag v = t -> tag v ∉ arm_tag <$> arms.

Lemma unit_arm_lawful (a : A) test :
  ArmsLawful tag arms depth -> (forall v, test v = true <-> v = a) -> tag a = t ->
  ArmsLawful tag (UnitArm t a test :: arms) depth.
Proof using Hfresh.
  intros HA Htest Ht. assert (forall v, arms_repr arms v -> test v = false) as Hno.
  { intros v Hv. destruct (test v) eqn:E; [|done]. apply Htest in E as ->. apply arms_tagged in Hv. by apply Hfresh in Hv. }
  split; cbn [arms_rel arms_repr arms_payload arms_cost unit_arm_specs decode_arms encode_arms].
  - intros t' p. destruct (_ && _); [|apply arms_decode].
    refine (reads_iff _ _ _ (reads_ret a) _). naive_solver.
  - intros v b. destruct (test v) eqn:E; [|apply arms_encode]. intros _. rewrite map_err_iff, encode_union_Ok. cbn [wire_bytes].
    split; [by intros [_ ->]|]. intros [_ ->]. split; [|done]. rewrite len_nil. unfold MAX_STANDALONE_BYTES. lia.
  - intros v Hv. rewrite fmap_cons. apply elem_of_cons. destruct (test v) eqn:E; [|right; by apply arms_tagged].
    left. apply Htest in E as ->. done.
  - intros t' p v n. destruct (N.eqb_spec t' t) as [->|Hne]; cbn [andb].
    + destruct (bool_decide (p = [])) eqn:Ep.
      * apply bool_decide_eq_true in Ep as ->. split.
        -- intros [-> ->]. assert (test a = true) as -> by by apply Htest. done.
        -- intros (Htv & HR & -> & _). destruct (test v) eqn:E; [by apply Htest in E|].
           apply arms_tagged in HR. by apply Hfresh in HR.
      * apply bool_decide_eq_false in Ep. rewrite arms_agree. split.
        -- intros (Htv & HR & _). apply arms_tagged in HR. by apply Hfresh in HR.
        -- intros (Htv & HR & _ & Hp). destruct (test v) eqn:E; [done|]. apply arms_tagged in HR. by apply Hfresh in HR.
    + rewrite arms_agree. split.
      * intros (-> & HR & Hn & Hp). by rewrite (Hno v HR).
      * intros (-> & HR & Hn & Hp). destruct (test v) eqn:E; [apply Htest in E as ->; by subst t|done].
Qed.

Lemma data_arm_lawful {B} (C : MutationValueCodec B) `{!CodecSpec C} (make : B -> A) get :
  LawfulAt C depth -> ArmsLawful tag arms depth ->
  (forall v b, get v = Some b <-> v = make b) -> (forall b, tag (make b) = t) ->
  ArmsLawful tag (DataArm t C make get :: arms) depth.
Proof using Hfresh.
  intros HC HA Hget Ht. assert (forall v, arms_repr arms v -> get v = None) as Hno.
  { intros v Hv. destruct (get v) as [b|] eqn:E; [|done]. apply Hget in E as ->. apply arms_tagged in Hv. by apply Hfresh in Hv. }
  split; cbn [arms_rel arms_repr arms_payload arms_cost data_arm_specs decode_arms encode_arms].
  - intros t' p. destruct (_ =? _)%N; [|apply arms_decode].
    refine (reads_iff _ _ _ (reads_map _ _ make (reads_nested C p depth HC)) _). naive_solver.
  - intros v b. destruct (get v) as [x|] eqn:E; [|apply arms_encode]. intros HR. cbn [wire_bytes]. split.
    + intros (y & [Hw ->]%lawful_encode & [_ ->]%map_err_iff%encode_union_Ok)%bind_Ok; done.
    + intros [Hw ->]. apply bind_Ok. exists (wire_bytes (tree C x)). split; [by apply lawful_encode|].
      apply map_err_iff, encode_union_Ok. split; [by apply wire_ok_len in Hw|done].
  - intros v Hv. rewrite fmap_cons. apply elem_of_cons. destruct (get v) as [x|] eqn:E; [|right; by apply arms_tagged].
    left. apply Hget in E as ->. apply Ht.
  - intros t' p v n. destruct (N.eqb_spec t' t) as [->|Hne].
    + split.
      * intros (b & -> & HR & -> & Hw & ->). rewrite (proj2 (Hget (make b) b) eq_refl). by rewrite Ht.
      * intros (Htv & HR & -> & Hp). destruct (get v) as [b|] eqn:E.
        -- apply Hget in E as ->. destruct Hp as [Hw ->]. by exists b.
        -- apply arms_tagged in HR. by apply Hfresh in HR.
    + rewrite arms_agree. split.
      * intros (-> & HR & Hn & Hp). by rewrite (Hno v HR).
      * intros (-> & HR & Hn & Hp). destruct (get v) as [b|] eqn:E; [apply Hget in E as ->; by rewrite Ht in Hne|done].
Qed.
End arms.

#[export] Instance union_spec {A} (tag : A -> N) arms `{!ArmSpecs arms} : CodecSpec (union_codec tag arms) :=
  mkSpec (arms_repr arms) (fun v => WUnion (tag v) (arms_payload arms v)) (arms_cost arms).

Section union.
Context {A : Type} (tag : A -> N) (arms : list (Arm A)) `{!ArmSpecs arms} (depth : N).
Context `{HA : !ArmsLawful tag arms (depth + 1)}.
Hypothesis Htag : forall v, (tag v < 2 ^ 32)%N.

Lemma reads_union_decode :
  Reads (union_decode arms depth) (fun v n bs => arms_repr arms v /\ n = arms_cost arms v /\
    wire_ok true depth (WUnion (tag v) (arms_payload arms v)) /\ bs = wire_bytes (WUnion (tag v) (arms_payload arms v))).
Proof using HA Htag.
  assert (Reads (union_decode arms depth) (fun v n bs => (depth < MAX_NESTING_DEPTH)%N /\ exists p,
    arms_rel arms (depth + 1) (tag v) p v n /\ small p /\ bs = encode_uvar (tag v) ++ chunk p)) as Hr.
  { refine (reads_iff _ _ _ (reads_check _ _ _ (fun _ : unit => reads_bind _ _ _ (fun u v n bs => arms_rel arms (depth + 1) u.1 u.2 v n /\ bs = [])
      (reads_cursor _ _ (codec_strict (StrictCodec := Scb1Cursor.union_codec))) _)) _); [intros [t p]; apply arms_decode|].
    intros v n bs _. setoid_rewrite check_container_depth_Ok. setoid_rewrite encode_union_Ok. split.
    - intros (_ & Hd & [t p] & n1 & n2 & b1 & b2 & (-> & _ & Hp & ->) & (HR & ->) & -> & ->). cbn [fst snd] in *.
      split; [done|]. exists p. rewrite app_nil_r. assert (t = tag v) as -> by by apply arms_agree in HR as (-> & _). done.
    - intros (Hd & p & HR & Hp & ->). exists tt. split; [done|]. exists (tag v, p), 0%N, n, (encode_uvar (tag v) ++ chunk p), [].
      rewrite app_nil_r. split_and!; try done. apply Htag. }
  refine (reads_iff _ _ _ Hr _). intros v n bs Hs. setoid_rewrite arms_agree. cbn [wire_ok wire_bytes]. split.
  - intros (Hd & p & (_ & HR & -> & Hp) & Hsp & ->). destruct (arms_payload arms v) as [w|].
    + destruct Hp as [Hw ->]. split_and!; done.
    + subst p. split_and!; done.
  - intros (HR & -> & (_ & Hd & Hw) & ->). split; [done|]. destruct (arms_payload arms v) as [w|].
    + exists (wire_bytes w). split_and!; try done. by apply wire_ok_len in Hw.
    + exists []. by split_and!.
Qed.

Lemma union_lawful : LawfulAt (union_codec tag arms) depth.
Proof using HA Htag.
  split.
  - intros v b HR. cbn [repr tree union_spec] in *. rewrite encode_at_depth_Ok. cbn [encode_value MutCodec.union_codec wire_ok].
    rewrite bind_Ok. setoid_rewrite check_container_depth_Ok. setoid_rewrite (fun b => arms_encode v b HR). split.
    + intros (_ & (_ & Hd & Hw & ->) & Hs). done.
    + intros ((Hs & Hd & Hw) & ->). split; [by apply N.lt_le_incl|]. split; [by exists tt|done].
  - intros _. exact reads_union_decode.
Qed.
End union.

(** ** Automation *)

(** The tag of an arm is not that of a later one. *)
Ltac fresh_arm := intros ? ->; apply (bool_decide_unpack _); vm_compute; exact I.

Ltac split_pairs := repeat match goal with x : _ * _ |- _ => destruct x | x : unit |- _ => destruct x end.

(** The test of a unit variant, the data of another *)
Ltac arm_test := intros v; split; [by destruct v|by intros ->].
Ltac arm_get := intros v b; split; [by destruct v; intros [= <-]|intros ->; split_pairs; reflexivity].

(** The laws of a part *)
Ltac part_lawful := cbn [fd_codec fd_type]; typeclasses eauto.


Ltac arms_lawful :=
  first
    [ apply nil_arms_lawful
    | apply unit_arm_lawful; [fresh_arm|arms_lawful|arm_test|reflexivity]
    | apply data_arm_lawful; [fresh_arm|part_lawful|arms_lawful|arm_get|by intros ?; split_pairs] ].
Ltac fields_lawful := repeat first [apply cons_fields_lawful; [part_lawful|] | apply nil_fields_lawful].
