(* ===== verification/MutConst.v ===== *)
(** * The mutation value codec: types and constants (crates/sley-mutate/src/codec.rs)

    The implementations for [TypeExpr], [ConstValue] and what they hold.  Their
    encoders are those of [ConstEncoding]; this file has their decoders, and the
    sets of identifiers. *)

From S2P Require Import Prelude State Bytes Utf8 Scb1Core Scb1Cursor Scb1Schema Records Ssmc ConstEncoding MutCodec.
Set Warnings "-register-all".

(** ** Layout

    [core::mem::size_of::<T>()] of the types that are allocated, which the compiler
    chooses *)

Inductive SizedType : Type :=
| SzU32 | SzEntityId | SzTypeExpr | SzConstValue | SzFieldConst | SzMapEntryConst
| SzTypeParameterDef | SzRecordField | SzVariantCase | SzValueRef | SzSwitchArgument | SzSwitchCase
| SzContractBinding | SzReplayBinding | SzAdapterConfig | SzExpectedObservation
| SzMutationOperation | SzBoundPrecondition.

Class RustLayout : Type := size_of : SizedType -> N.

(** ** Sets of identifiers *)

(** [EntityIdSet]: ascending identifiers *)
Record EntityIdSet : Type := mkEntityIdSet { as_slice : list EntityId }.
#[global] Instance EntityIdSet_eq_dec : EqDecision EntityIdSet.
Proof. solve_decision. Defined.

(** [values.windows(2).any(|pair| pair\[0\] == pair\[1\])] *)
Fixpoint any_equal_pair (l : list EntityId) : bool :=
  match l with x :: (y :: _) as l' => (x =? y)%N || any_equal_pair l' | _ => false end.

(** [EntityIdSet::from_unsorted]: [None] is [EntityIdSetError::Duplicate]. *)
Definition from_unsorted (values : list EntityId) : option EntityIdSet :=
  let values := sort_by N.compare values in
  if any_equal_pair values then None else Some (mkEntityIdSet values).

Section layout.
Context `{RustLayout}.

(** [match previous.cmp(&value) { Less => {}, Equal => .., Greater => .. }] *)
Definition ordered_after (order : comparison) : DM unit := lift (ensure_increasing order).

Definition EntityIdSet_codec : MutationValueCodec EntityIdSet :=
  mkCodec (fun v => encode_elements id_codec (as_slice v))
    (fun depth =>
      _ ← lift (check_container_depth depth);
      count ← cursor_read read_count;
      _ ← charge_elements count (size_of SzEntityId);
      '(_, values) ← repeat_decode (fun '(previous, values) =>
        payload ← cursor_read read_sized_payload;
        value ← decode_nested_exact id_codec payload (depth + 1);
        _ ← (if previous is Some previous then ordered_after (previous ?= value)%N else mret tt : DM unit);
        mret (Some value, values ++ [value])) (N.to_nat count) (None, []);
      lift (ok_or (Fails ScbMapDuplicate) (from_unsorted values))).

(** [encode_entity_id_set_vec] and [decode_entity_id_set_vec]: a [Vec] in the same
    form *)
Definition entity_id_set_vec_codec : MutationValueCodec (list EntityId) :=
  mkCodec (fun values depth =>
      _ ← check_container_depth depth;
      _ ← validate_entity_id_set_order values;
      elements ← map_res (fun value => encode_at_depth id_codec value (depth + 1)) values;
      map_err Fails (encode_list elements))
    (fun depth =>
      _ ← lift (check_container_depth depth);
      count ← cursor_read read_count;
      _ ← charge_elements count (size_of SzEntityId);
      '(_, values) ← repeat_decode (fun '(previous_payload, values) =>
        payload ← cursor_read read_sized_payload;
        value ← decode_nested_exact id_codec payload (depth + 1);
        _ ← (if previous_payload is Some previous then ordered_after (bytes_cmp previous payload) else mret tt : DM unit);
        mret (Some payload, values ++ [value])) (N.to_nat count) (None, []);
      mret values).

(** ** Enums *)

Definition BuiltinFailureKind_from_tag (tag : N) : option BuiltinFailureKind :=
  match tag with
  | 1 => Some BFArithmetic
  | 2 => Some BFIndex
  | 3 => Some BFDuplicateKey
  | 4 => Some BFContractViolation
  | 5 => Some BFCapability
  | _ => None
  end%N.

(** [impl MutationValueCodec for BuiltinFailureKind]: a tag of 16 bits *)
Definition BuiltinFailureKind_codec : MutationValueCodec BuiltinFailureKind :=
  mkCodec (fun v _ => Ok (encode_uvar (BuiltinFailureKind_tag v)))
    (fun _ => tag ← decode_u16; lift (ok_or (Fails ScbUnionInvalid) (BuiltinFailureKind_from_tag tag))).

(** [impl MutationValueCodec for IntegerWidth] *)
Definition IntegerWidth_codec : MutationValueCodec IntegerWidth := u16_codec.

(** ** Types

    [T] is the codec of the types inside. *)

Section types.
Variable T : MutationValueCodec TypeExpr.

Definition types_codec : MutationValueCodec (list TypeExpr) := list_codec (size_of SzTypeExpr) T.
Definition box_type_codec : MutationValueCodec TypeExpr := box_codec (size_of SzTypeExpr) T.

Definition NamedType_fields : list Field := [mkField 1 id_codec; mkField 2 types_codec].
Definition NamedType_codec : MutationValueCodec (EntityId * list TypeExpr) :=
  mkCodec (fun '(definition, arguments) => encode (NNamed definition arguments))
    (fun depth => '((definition, (arguments, tt)) : values NamedType_fields) ← record_decode NamedType_fields depth;
                  mret (definition, arguments)).

(** [MapType] and [ResultType] *)
Definition TypePair_fields : list Field := [mkField 1 box_type_codec; mkField 2 box_type_codec].
Definition TypePair_codec : MutationValueCodec (TypeExpr * TypeExpr) :=
  mkCodec (fun '(a, b) => encode (NTypePair a b))
    (fun depth => '((a, (b, tt)) : values TypePair_fields) ← record_decode TypePair_fields depth; mret (a, b)).

Definition FunctionType_fields : list Field :=
  [mkField 1 types_codec; mkField 2 box_type_codec; mkField 3 entity_id_set_vec_codec].
Definition FunctionType_codec : MutationValueCodec (list TypeExpr * TypeExpr * list EntityId) :=
  mkCodec (fun '(parameters, result, effects) => encode (NFunction parameters result effects))
    (fun depth => '((parameters, (result, (effects, tt))) : values FunctionType_fields) ← record_decode FunctionType_fields depth;
                  mret (parameters, result, effects)).

Definition TypeExpr_arms : list (Arm TypeExpr) := [
  UnitArm 1 TUnit (fun t => if t is TUnit then true else false);
  UnitArm 2 TBool (fun t => if t is TBool then true else false);
  DataArm 3 IntegerWidth_codec TSInt (fun t => if t is TSInt w then Some w else None);
  DataArm 4 IntegerWidth_codec TUInt (fun t => if t is TUInt w then Some w else None);
  UnitArm 5 TF32 (fun t => if t is TF32 then true else false);
  UnitArm 6 TF64 (fun t => if t is TF64 then true else false);
  UnitArm 7 TBytes (fun t => if t is TBytes then true else false);
  UnitArm 8 TText (fun t => if t is TText then true else false);
  DataArm 9 types_codec TTuple (fun t => if t is TTuple l then Some l else None);
  DataArm 10 NamedType_codec (fun x => TNamed x.1 x.2) (fun t => if t is TNamed d l then Some (d, l) else None);
  DataArm 11 box_type_codec TVector (fun t => if t is TVector u then Some u else None);
  DataArm 12 TypePair_codec (fun x => TOrderedMap x.1 x.2) (fun t => if t is TOrderedMap a b then Some (a, b) else None);
  DataArm 13 box_type_codec TOption (fun t => if t is TOption u then Some u else None);
  DataArm 14 TypePair_codec (fun x => TResult x.1 x.2) (fun t => if t is TResult a b then Some (a, b) else None);
  DataArm 15 FunctionType_codec (fun x => TFunctionRef x.1.1 x.1.2 x.2)
    (fun t => if t is TFunctionRef l r e then Some (l, r, e) else None);
  DataArm 16 id_codec TAdapterHandle (fun t => if t is TAdapterHandle x then Some x else None);
  DataArm 17 id_codec TCapabilityToken (fun t => if t is TCapabilityToken x then Some x else None);
  DataArm 18 box_type_codec TLocalCell (fun t => if t is TLocalCell u then Some u else None);
  DataArm 19 u32_codec TTypeParameter (fun t => if t is TTypeParameter n then Some n else None);
  DataArm 20 BuiltinFailureKind_codec TBuiltinFailure (fun t => if t is TBuiltinFailure k then Some k else None)
].

Definition TypeExpr_codec_of : MutationValueCodec TypeExpr :=
  mkCodec (fun t => encode (NType t)) (union_decode TypeExpr_arms).
End types.

(** [fuel] levels of types; at the last one the check of the depth fails before
    anything is read. *)
Fixpoint TypeExpr_codec_fuel (fuel : nat) : MutationValueCodec TypeExpr :=
  match fuel with
  | O => mkCodec (fun t => encode (NType t)) (fun _ => fail ScbResourceLimit)
  | S fuel => TypeExpr_codec_of (TypeExpr_codec_fuel fuel)
  end.
Definition TypeExpr_codec : MutationValueCodec TypeExpr := TypeExpr_codec_fuel (N.to_nat MAX_NESTING_DEPTH).

(** ** Constants *)

Definition FunctionRefValue_fields : list Field := [mkField 1 id_codec; mkField 2 (types_codec TypeExpr_codec)].
Definition FunctionRefValue_codec : MutationValueCodec FunctionRefValue :=
  mkCodec (fun v => encode (NFunctionRef v))
    (fun depth => '((function, (type_arguments, tt)) : values FunctionRefValue_fields) ← record_decode FunctionRefValue_fields depth;
                  mret (mkFunctionRefValue function type_arguments)).

Definition BuiltinFailureValue_fields : list Field := [mkField 1 BuiltinFailureKind_codec; mkField 2 u16_codec].
Definition BuiltinFailureValue_codec : MutationValueCodec BuiltinFailureValue :=
  mkCodec (fun v => encode (NFailure v))
    (fun depth => '((kind, (code, tt)) : values BuiltinFailureValue_fields) ← record_decode BuiltinFailureValue_fields depth;
                  mret (mkBuiltinFailureValue kind code)).

(** [encode_f32_value_bits], [decode_f32_value_bits] *)
Definition f32_bits_codec : MutationValueCodec N :=
  mkCodec (fun v _ => map_err Fails (encode_f32_bits v)) (fun _ => cursor_read read_f32_bits).
Definition f64_bits_codec : MutationValueCodec N :=
  mkCodec (fun v _ => map_err Fails (encode_f64_bits v)) (fun _ => cursor_read read_f64_bits).

Section constants.
Variable V : MutationValueCodec ConstValue.

Definition values_codec : MutationValueCodec (list ConstValue) := list_codec (size_of SzConstValue) V.
Definition box_value_codec : MutationValueCodec ConstValue := box_codec (size_of SzConstValue) V.

Definition FieldConst_fields : list Field := [mkField 1 id_codec; mkField 2 V].
Definition FieldConst_codec : MutationValueCodec (FieldConst ConstValue) :=
  mkCodec (fun v => encode (NField v))
    (fun depth => '((member_id, (value, tt)) : values FieldConst_fields) ← record_decode FieldConst_fields depth;
                  mret (mkFieldConst member_id value)).

Definition RecordConst_fields : list Field := [mkField 1 id_codec; mkField 2 (list_codec (size_of SzFieldConst) FieldConst_codec)].
Definition RecordConst_codec : MutationValueCodec (RecordConst ConstValue) :=
  mkCodec (fun v => encode (NRecord v))
    (fun depth => '((definition, (fields, tt)) : values RecordConst_fields) ← record_decode RecordConst_fields depth;
                  mret (mkRecordConst definition fields)).

Definition VariantConst_fields : list Field := [mkField 1 id_codec; mkField 2 id_codec; mkField 3 (option_codec box_value_codec)].
Definition VariantConst_codec : MutationValueCodec (VariantConst ConstValue) :=
  mkCodec (fun v => encode (NVariant v))
    (fun depth => '((definition, (member_id, (payload, tt))) : values VariantConst_fields) ← record_decode VariantConst_fields depth;
                  mret (mkVariantConst definition member_id payload)).

Definition MapEntryConst_fields : list Field := [mkField 1 V; mkField 2 V].
Definition MapEntryConst_codec : MutationValueCodec (MapEntryConst ConstValue) :=
  mkCodec (fun v => encode (NEntry v))
    (fun depth => '((key, (value, tt)) : values MapEntryConst_fields) ← record_decode MapEntryConst_fields depth;
                  mret (mkMapEntryConst key value)).

Definition ResultConst_arms : list (Arm (ResultConst ConstValue)) := [
  DataArm 1 box_value_codec ROk (fun r => if r is ROk v then Some v else None);
  DataArm 2 box_value_codec RErr (fun r => if r is RErr v then Some v else None)
].
Definition ResultConst_codec : MutationValueCodec (ResultConst ConstValue) :=
  mkCodec (fun v => encode (NResult v)) (union_decode ResultConst_arms).

(** [encode_map_entries] and [decode_map_entries]: the keys are encoded again to
    compare them. *)
Definition map_entries_codec : MutationValueCodec (list (MapEntryConst ConstValue)) :=
  mkCodec (fun entries => encode (NSequence (SqEntries entries)))
    (fun depth =>
      _ ← lift (check_container_depth depth);
      count ← cursor_read read_count;
      _ ← charge_elements count (size_of SzMapEntryConst);
      '(_, values) ← repeat_decode (fun '(previous_key, values) =>
        payload ← cursor_read read_sized_payload;
        value ← decode_nested_exact MapEntryConst_codec payload (depth + 1);
        key ← lift (encode_at_depth V (me_key value) (depth + 2));
        _ ← (if previous_key is Some previous then ordered_after (bytes_cmp previous key) else mret tt : DM unit);
        mret (Some key, values ++ [value])) (N.to_nat count) (None, []);
      mret values).

Definition ConstData_arms : list (Arm ConstData) := [
  UnitArm 1 DUnit (fun d => if d is DUnit then true else false);
  DataArm 2 bool_codec DBool (fun d => if d is DBool b then Some b else None);
  DataArm 3 i128_codec DSInt (fun d => if d is DSInt x then Some x else None);
  DataArm 4 u128_codec DUInt (fun d => if d is DUInt x then Some x else None);
  DataArm 5 f32_bits_codec DF32Bits (fun d => if d is DF32Bits x then Some x else None);
  DataArm 6 f64_bits_codec DF64Bits (fun d => if d is DF64Bits x then Some x else None);
  DataArm 7 bytes_codec DBytes (fun d => if d is DBytes b then Some b else None);
  DataArm 8 text_codec DText (fun d => if d is DText s then Some s else None);
  DataArm 9 values_codec DSequence (fun d => if d is DSequence l then Some l else None);
  DataArm 10 RecordConst_codec DRecord (fun d => if d is DRecord r then Some r else None);
  DataArm 11 VariantConst_codec DVariant (fun d => if d is DVariant v then Some v else None);
  DataArm 12 map_entries_codec DMap (fun d => if d is DMap l then Some l else None);
  DataArm 13 (option_codec box_value_codec) DOption (fun d => if d is DOption o then Some o else None);
  DataArm 14 ResultConst_codec DResult (fun d => if d is DResult r then Some r else None);
  DataArm 15 FunctionRefValue_codec DFunctionRef (fun d => if d is DFunctionRef f then Some f else None);
  DataArm 16 BuiltinFailureValue_codec DBuiltinFailure (fun d => if d is DBuiltinFailure f then Some f else None)
].
Definition ConstData_codec : MutationValueCodec ConstData :=
  mkCodec (fun v => encode (NData v)) (union_decode ConstData_arms).

Definition ConstValue_fields : list Field := [mkField 1 TypeExpr_codec; mkField 2 ConstData_codec].
Definition ConstValue_codec_of : MutationValueCodec ConstValue :=
  mkCodec (fun v => encode (NValue v))
    (fun depth => '((value_type, (data, tt)) : values ConstValue_fields) ← record_decode ConstValue_fields depth;
                  mret (mkConstValue value_type data)).
End constants.

Fixpoint ConstValue_codec_fuel (fuel : nat) : MutationValueCodec ConstValue :=
  match fuel with
  | O => mkCodec (fun v => encode (NValue v)) (fun _ => fail ScbResourceLimit)
  | S fuel => ConstValue_codec_of (ConstValue_codec_fuel fuel)
  end.
Definition ConstValue_codec : MutationValueCodec ConstValue := ConstValue_codec_fuel (N.to_nat MAX_NESTING_DEPTH).

(** [decode_const_value] *)
Definition decode_const_value (input : bytes) : enc_result ConstValue := decode_exact ConstValue_codec input.
End layout.

#[global] Typeclasses Opaque EntityIdSet_codec entity_id_set_vec_codec BuiltinFailureKind_codec IntegerWidth_codec
  types_codec box_type_codec NamedType_codec TypePair_codec FunctionType_codec TypeExpr_codec_of TypeExpr_codec_fuel TypeExpr_codec
  FunctionRefValue_codec BuiltinFailureValue_codec f32_bits_codec f64_bits_codec values_codec box_value_codec FieldConst_codec
  RecordConst_codec VariantConst_codec MapEntryConst_codec ResultConst_codec map_entries_codec ConstData_codec
  ConstValue_codec_of ConstValue_codec_fuel ConstValue_codec.
