(* ===== verification/MutConstLaws.v ===== *)
(** * The mutation value codec: laws for types and constants

    [LawfulAt] for every codec of [MutConst]: what is decoded is exactly what
    [ConstEncoding.encode] writes, for the values of [type_repr] and
    [value_repr]. *)

From S2P Require Import Prelude State Bytes Utf8 Scb1Core Scb1Cursor Scb1Schema Records Ssmc Types ConstEncoding ConstWire ConstInjective Repr MutCodec MutCodecLaws MutConst.
Set Warnings "-register-all".

(** ** Variations *)

(** A law under another description of the same *)
Lemma lawful_ext {A} (C : MutationValueCodec A) (S1 S2 : CodecSpec C) depth :
  (forall v, repr C (CodecSpec := S1) v <-> repr C (CodecSpec := S2) v) ->
  (forall v, repr C (CodecSpec := S2) v -> tree C (CodecSpec := S1) v = tree C (CodecSpec := S2) v) ->
  (forall v, cost C (CodecSpec := S1) v = cost C (CodecSpec := S2) v) ->
  LawfulAt C (CodecSpec0 := S1) depth -> LawfulAt C (CodecSpec0 := S2) depth.
Proof.
  intros HR HT HK [He Hd]. split.
  - intros v b Hv. rewrite <- HT by done. by apply He, HR.
  - intros Hdep. refine (reads_iff _ _ _ (Hd Hdep) _). intros v n bs _. unfold decodes. rewrite HR, HK. split.
    + intros (Hv & -> & Hw & ->). by rewrite <- HT.
    + intros (Hv & -> & Hw & ->). by rewrite HT.
Qed.

(** A codec whose encoder is that of a node *)
Lemma lawful_node {A} (C : MutationValueCodec A) `{!CodecSpec C} (node : A -> Node) E depth :
  (forall v d, encode_value C v d = encode (node v) d) -> (forall v, tree C v = node_tree (node v)) ->
  ((depth <= MAX_NESTING_DEPTH)%N -> Reads (decode_value C depth) E) -> (forall v n bs, E v n bs <-> decodes C depth v n bs) -> LawfulAt C depth.
Proof.
  intros He Ht Hr HE. split.
  - intros v b _. rewrite encode_at_depth_Ok, He, Ht. rewrite encode_Ok. split; [by intros (_ & [? ->] & _)|].
    intros [Hw ->]. split_and!; [by eapply wire_ok_depth|done..|by apply wire_ok_len in Hw].
  - intros Hd. refine (reads_iff _ _ _ (Hr Hd) _). auto.
Qed.

#[export] Instance option_spec {A} (C : MutationValueCodec A) `{!CodecSpec C} : CodecSpec (option_codec C) :=
  mkSpec (fun o => if o is Some v then repr C v else True) (fun o => option_tree (tree C <$> o)) (fun o => if o is Some v then cost C v else 0%N).

#[export] Instance option_lawful {A} (C : MutationValueCodec A) `{!CodecSpec C} depth :
  LawfulAt C (depth + 1) -> LawfulAt (option_codec C) depth.
Proof.
  intros HC. unfold option_codec. set (tag := fun o : option A => if o is Some _ then 1%N else 0%N).
  set (arms := [UnitArm 0 None _; DataArm 1 C Some _]).
  assert (LawfulAt (union_codec tag arms) depth) as HU.
  { apply union_lawful; [|by intros [v|]].
    apply unit_arm_lawful; [intros [v|]; set_solver|apply data_arm_lawful; try done|by intros [?|]|done].
    - intros v _. set_solver.
    - apply nil_arms_lawful. }
  revert HU. apply lawful_ext; by intros [v|].
Qed.

(** ** Ordered loops *)

Section ordered.
Context {I K : Type} (key : I -> K) (cmp : K -> K -> comparison) (Hcmp : TotalCompare cmp).
Context (Q : I -> Prop) (k : I -> N) (enc : I -> bytes).

Lemma chain_above o l items :
  chain (fun st it => above cmp st.1 (key it) /\ Q it) (fun st it => (Some (key it), st.2 ++ [it])) (o, l) items <->
  Forall Q items /\ Scb1Schema.ascending key cmp items /\ Forall (fun it => above cmp o (key it)) items.
Proof using Hcmp.
  revert o l. induction items as [|it items IH]; intros o l; cbn [chain fst snd].
  - split; [intros _; split_and!; constructor|done].
  - rewrite IH, !Forall_cons. unfold Scb1Schema.ascending. split.
    + intros ((Ha & HQ) & HQs & Hs & Hab). split_and!; try done.
      * constructor; [done|]. exact Hab.
      * eapply Forall_impl; [exact Hab|]. intros x Hx. destruct o as [p|]; [|done]. cbn in *. by eapply (tc_trans _ Hcmp).
    + intros ([HQ HQs] & Hs & [Ha _]). apply StronglySorted_inv in Hs as [Hs Hx]. split_and!; done.
Qed.

Lemma reads_ordered step n :
  (forall st, Reads (step st) (fun st' m bs => exists it, (above cmp st.1 (key it) /\ Q it) /\
     st' = (Some (key it), st.2 ++ [it]) /\ m = k it /\ bs = enc it)) ->
  Reads (repeat_decode step n (None, [])) (fun st' m bs => exists items, length items = n /\ Forall Q items /\
    Scb1Schema.ascending key cmp items /\ st' = (key <$> last items, items) /\ m = sum (k <$> items) /\ bs = concat (enc <$> items)).
Proof using Hcmp.
  intros Hstep. refine (reads_iff _ _ _ (reads_repeat _ _ k enc step n (None, []) Hstep) _). intros st' m bs _.
  setoid_rewrite chain_above. setoid_rewrite fold_push. cbn [fst snd app].
  assert (forall items, match last items with Some it => Some (key it) | None => None end = key <$> last items) as Hlast
    by (intros items; by destruct (last items)).
  setoid_rewrite Hlast. split.
  - intros (items & Hn & (HQ & Hs & _) & -> & -> & ->). by exists items.
  - intros (items & Hn & HQ & Hs & -> & -> & ->). exists items. split_and!; try done. by apply Forall_true.
Qed.

(** The canonical order of [wire_ok] *)
Lemma ascending_keys (f : K -> bytes) items :
  (forall x y, x ∈ items -> y ∈ items -> bytes_cmp (f (key x)) (f (key y)) = cmp (key x) (key y)) ->
  ConstWire.ascending ((fun it => f (key it)) <$> items) <-> Scb1Schema.ascending key cmp items.
Proof using Hcmp.
  intros Hf. unfold ConstWire.ascending, Scb1Schema.ascending. split.
  - intros Hs. apply Sorted_StronglySorted in Hs; [|intros x y z; apply (tc_trans _ bytes_total_compare)].
    induction items as [|x items IH]; [constructor|]. cbn in Hs. apply StronglySorted_inv in Hs as [Hs Hx].
    constructor; [apply IH; [|done]; intros y z Hy Hz; apply Hf; by right|].
    rewrite Forall_fmap in Hx. apply Forall_forall. intros y Hy. rewrite Forall_forall in Hx. specialize (Hx y Hy).
    unfold compose in Hx. rewrite Hf in Hx; [done|left|by right].
  - intros Hs. apply StronglySorted_Sorted. induction Hs as [|x items Hs IH Hx]; [constructor|]. cbn.
    constructor; [apply IH; intros y z Hy Hz; apply Hf; by right|].
    rewrite Forall_fmap. apply Forall_forall. intros y Hy. rewrite Forall_forall in Hx. unfold compose. rewrite Hf; [by apply Hx|left|by right].
Qed.
End ordered.

(** The order of identifiers is the order of their bytes. *)
Lemma id_compare x y : is_id x = true -> is_id y = true -> bytes_cmp (id_bytes x) (id_bytes y) = (x ?= y)%N.
Proof.
  intros Hx Hy. rewrite <- be_num_compare by (unfold id_bytes; by rewrite !length_be_bytes). by rewrite !be_num_id.
Qed.

Section layout.
Context `{RustLayout}.

(** ** Sets of identifiers *)

Definition ids_cost (l : list EntityId) : N := (len l * size_of SzEntityId)%N.

Definition EntityIdSet_ok (s : EntityIdSet) : Prop :=
  Forall (fun id => is_id id = true) (as_slice s) /\ StronglySorted N.lt (as_slice s).

#[export] Instance EntityIdSet_spec : CodecSpec EntityIdSet_codec :=
  mkSpec EntityIdSet_ok (fun s => WList KIds (id_tree <$> as_slice s)) (fun s => ids_cost (as_slice s)).

#[export] Instance entity_id_set_vec_spec : CodecSpec entity_id_set_vec_codec :=
  mkSpec (Forall (fun id => is_id id = true)) (fun l => WList KIds (id_tree <$> l)) ids_cost.

Lemma reads_ordered_after {B} order (m : DM B) E :
  Reads m E -> Reads (ordered_after order ≫= fun _ => m) (fun x n bs => order = Lt /\ E x n bs).
Proof.
  intros Hm. refine (reads_iff _ _ _ (reads_check _ _ _ (fun _ => Hm)) _). intros x n bs _. setoid_rewrite ensure_increasing_Ok.
  split; [by intros (_ & ? & ?)|by intros [? ?]; exists tt].
Qed.

Lemma reads_above {K B} (cmp : K -> K -> comparison) (previous : option K) x (m : DM B) E :
  Reads m E ->
  Reads ((if previous is Some p then ordered_after (cmp p x) else mret tt : DM unit) ≫= fun _ => m)
    (fun y n bs => above cmp previous x /\ E y n bs).
Proof.
  intros Hm. destruct previous as [p|]; cbn [above]; [by apply reads_ordered_after|].
  refine (reads_iff _ _ _ (reads_bind _ _ _ _ (reads_ret tt) (fun _ => Hm)) _). intros y n bs _. split.
  - intros (_ & n1 & n2 & b1 & b2 & (_ & -> & ->) & ? & -> & ->). by rewrite N.add_0_l.
  - intros [_ ?]. by exists tt, 0%N, n, [], bs.
Qed.

(** A list whose elements come in the order of a key *)
Section ordered_list.
Context {A K : Type} (C : MutationValueCodec A) `{!CodecSpec C} (size depth : N) (kind : ListKind).
Context (key : A -> K) (cmp : K -> K -> comparison) (Hcmp : TotalCompare cmp).
Context (step : option K * list A -> DM (option K * list A)).
Hypothesis Hstep : forall st, Reads (step st) (fun st' m bs => exists v,
  (above cmp st.1 (key v) /\ repr C v /\ wire_ok true (depth + 1) (tree C v)) /\
  st' = (Some (key v), st.2 ++ [v]) /\ m = cost C v /\ bs = chunk (wire_bytes (tree C v))).
Hypothesis Hkeys : forall l, Forall (repr C) l -> Forall (fun v => wire_ok true (depth + 1) (tree C v)) l ->
  ConstWire.ascending (list_keys kind (tree C <$> l)) <-> Scb1Schema.ascending key cmp l.

Lemma reads_ordered_list {B} (k : list A -> DM B) F :
  (forall l, Reads (k l) (fun x n bs => F l x /\ n = 0%N /\ bs = [])) ->
  Reads (_ ← lift (check_container_depth depth);
         count ← cursor_read read_count;
         _ ← charge_elements count size;
         '(_, values) ← repeat_decode step (N.to_nat count) (None, []);
         k values)
    (fun x n bs => exists l, F l x /\ Forall (repr C) l /\ n = (len l * size + sum (cost C <$> l))%N /\
       wire_ok true depth (WList kind (tree C <$> l)) /\ bs = wire_bytes (WList kind (tree C <$> l))).
Proof using Hcmp Hstep Hkeys.
  intros Hk. refine (reads_iff _ _ _ (reads_check _ _ _ (fun _ => reads_bind _ _ _ _
    (reads_cursor _ _ (strict_read_len MAX_COLLECTION_ELEMENTS eq_refl)) (fun count => reads_bind _ _ _ _ (reads_charge_elements count size)
    (fun _ => reads_bind _ _ _ (fun st x n bs => F st.2 x /\ n = 0%N /\ bs = [])
      (reads_ordered key cmp Hcmp (fun v => repr C v /\ wire_ok true (depth + 1) (tree C v)) (cost C)
        (fun v => chunk (wire_bytes (tree C v))) step (N.to_nat count) Hstep) _)))) _); [intros [o l]; apply Hk|].
  intros x n bs Hsm. cbn [wire_ok wire_bytes]. setoid_rewrite check_container_depth_Ok.
  setoid_rewrite all_prop_Forall. setoid_rewrite Forall_fmap. setoid_rewrite list_bytes_concat. setoid_rewrite len_fmap.
  setoid_rewrite Forall_and. setoid_rewrite <- list_fmap_compose. unfold compose. split.
  - intros (_ & Hd & c & n1 & n2 & b1 & b2 & (-> & Hc & ->) & (_ & n3 & n4 & b3 & b4 & (-> & ->) &
      (st & n5 & n6 & b5 & b6 & (items & Hn & [HR Hw] & Ha & -> & -> & ->) & (HF & -> & ->) & -> & ->) & -> & ->) & -> & ->).
    cbn [snd] in HF. assert (c = len items) as -> by (unfold len; lia). rewrite app_nil_r, N.add_0_r. exists items. split_and!; try done.
    + by rewrite app_nil_r in Hsm.
    + intros _. by apply Hkeys.
  - intros (l & HF & HR & -> & (Hs & Hd & Hc & Ha & Hw) & ->). exists tt. split; [done|].
    exists (len l), 0%N, (len l * size + sum (cost C <$> l))%N, (encode_uvar (len l)), (concat ((fun v => chunk (wire_bytes (tree C v))) <$> l)).
    split_and!; try done. exists tt, (len l * size)%N, (sum (cost C <$> l)), [], (concat ((fun v => chunk (wire_bytes (tree C v))) <$> l)).
    split_and!; try done.
    exists (key <$> last l, l), (sum (cost C <$> l)), 0%N, (concat ((fun v => chunk (wire_bytes (tree C v))) <$> l)), [].
    rewrite N.add_0_r, app_nil_r. split_and!; try done. exists l. split_and!; try done; [unfold len; lia|]. by apply Hkeys; [..|apply Ha].
Qed.
End ordered_list.

(** The keys of identifiers *)
Lemma id_keys l :
  Forall (repr id_codec) l ->
  ConstWire.ascending (list_keys KIds (tree id_codec <$> l)) <-> StronglySorted (fun x y => (x ?= y)%N = Lt) l.
Proof.
  intros Hl. cbn [list_keys]. rewrite <- list_fmap_compose. rewrite Forall_forall in Hl.
  apply (ascending_keys id N.compare N_total_compare id_bytes). intros x y Hx Hy. apply id_compare; [by apply Hl..].
Qed.

Lemma sorted_lt (l : list N) : StronglySorted (fun x y => (x ?= y)%N = Lt) l <-> StronglySorted N.lt l.
Proof. reflexivity. Qed.

Lemma ids_cost_eq (l : list N) : (len l * size_of SzEntityId + sum (cost id_codec <$> l))%N = ids_cost l.
Proof. unfold ids_cost. assert (sum (cost id_codec <$> l) = 0%N) as ->; [|by rewrite N.add_0_r]. by induction l. Qed.

(** The elements of a set, whose order the encoder takes as given *)
Lemma ids_encode depth l b :
  Forall (repr id_codec) l -> ConstWire.ascending (list_keys KIds (id_tree <$> l)) ->
  (depth <= MAX_NESTING_DEPTH)%N /\ encode_elements id_codec l depth = Ok b /\ small b <->
  wire_ok true depth (WList KIds (id_tree <$> l)) /\ b = wire_bytes (WList KIds (id_tree <$> l)).
Proof.
  intros HR Ha. rewrite (encode_elements_Ok id_codec depth KIds) by done.
  cbn [wire_ok]. rewrite all_prop_Forall, Forall_fmap, len_fmap. unfold small, trees_ok, compose. split.
  - intros (Hd & (Hd' & Hl & Ht & ->) & Hs). by split_and!.
  - intros ((Hs & Hd & Hl & _ & Ht) & ->). split_and!; try done. by apply N.lt_le_incl.
Qed.

Lemma from_unsorted_sorted l : StronglySorted N.lt l -> from_unsorted l = Some (mkEntityIdSet l).
Proof.
  intros Hs. unfold from_unsorted. rewrite (sort_by_id id N.compare N_total_compare) by by apply sorted_lt.
  assert (any_equal_pair l = false) as ->; [|done].
  induction Hs as [|x l Hs IH Hx]; [done|]. destruct l as [|y l]; [done|]. change ((x =? y)%N || any_equal_pair (y :: l) = false).
  rewrite IH, orb_false_r. apply N.eqb_neq. apply Forall_inv in Hx. lia.
Qed.

#[export] Instance EntityIdSet_lawful depth : LawfulAt EntityIdSet_codec depth.
Proof.
  split.
  - intros [l] b [HR Hs]. rewrite encode_at_depth_Ok. cbn [encode_value EntityIdSet_codec as_slice] in *.
    apply ids_encode; [done|]. apply id_keys; [done|]. by apply sorted_lt.
  - intros _. cbn [decode_value EntityIdSet_codec]. refine (reads_iff _ _ _ (reads_ordered_list id_codec (size_of SzEntityId) depth KIds
      id N.compare N_total_compare _ _ _ _ (fun l s => ok_or (Fails ScbMapDuplicate) (from_unsorted l) = Ok s) _) _).
    + intros [o l]. refine (reads_iff _ _ _ (reads_element id_codec depth _ _ (fun p v => reads_above N.compare o v _ _ (reads_ret (Some v, l ++ [v])))) _).
      intros st n bs _. cbn [fst snd]. split.
      * intros (v & m & b2 & HR & Hw & (Ha & -> & -> & ->) & -> & ->). exists v. by rewrite N.add_0_r, app_nil_r.
      * intros (v & (Ha & HR & Hw) & -> & -> & ->). exists v, 0%N, []. by rewrite N.add_0_r, app_nil_r.
    + intros l HR _. by apply id_keys.
    + intros l. refine (reads_iff _ _ _ (reads_lift _) _). done.
    + intros [l] n bs _. unfold decodes. cbn [repr tree cost EntityIdSet_spec as_slice]. unfold EntityIdSet_ok. cbn [as_slice]. rewrite <- ids_cost_eq.
      assert (forall l', wire_ok true depth (WList KIds (id_tree <$> l')) -> Forall (repr id_codec) l' -> StronglySorted N.lt l') as Hsort.
      { intros l' (_ & _ & _ & Ha & _) HR. by apply sorted_lt, id_keys, Ha. } split.
      * intros (l' & Hf & HR & -> & Hw & ->). rewrite from_unsorted_sorted in Hf by by eapply Hsort. injection Hf as <-. split_and!; try done. by eapply Hsort.
      * intros ([HR Hs] & -> & Hw & ->). exists l. by rewrite from_unsorted_sorted.
Qed.

#[export] Instance entity_id_set_vec_lawful depth : LawfulAt entity_id_set_vec_codec depth.
Proof.
  split.
  - intros l b HR. rewrite encode_at_depth_Ok. cbn [repr tree entity_id_set_vec_spec encode_value entity_id_set_vec_codec] in *.
    assert (forall u, validate_entity_id_set_order l = Ok u <-> ConstWire.ascending (list_keys KIds (id_tree <$> l))) as Hv by apply validate_ids_Ok.
    assert (forall b, (_ ← check_container_depth depth; _ ← validate_entity_id_set_order l;
      elements ← map_res (fun value => encode_at_depth id_codec value (depth + 1)) l; map_err Fails (encode_list elements)) = Ok b <->
      ConstWire.ascending (list_keys KIds (id_tree <$> l)) /\ encode_elements id_codec l depth = Ok b) as Hb.
    { intros b'. unfold encode_elements. destruct (check_container_depth depth) as [[]|]; cbn [mbind result_bind]; [|naive_solver].
      rewrite bind_Ok, <- (Hv tt). split; [by intros ([] & ? & ?)|]. intros [? ?]. by exists tt. }
    rewrite Hb. split.
    + intros (Hd & (Ha & He) & Hs). by apply ids_encode.
    + intros [Hw Hbb]. assert (ConstWire.ascending (list_keys KIds (id_tree <$> l))) as Ha by by apply Hw.
      pose proof (proj2 (ids_encode depth l b HR Ha) (conj Hw Hbb)) as (? & ? & ?). done.
  - intros _. cbn [decode_value entity_id_set_vec_codec]. refine (reads_iff _ _ _ (reads_ordered_list id_codec (size_of SzEntityId) depth KIds
      id_bytes bytes_cmp bytes_total_compare _ _ _ _ (fun l s => s = l) _) _).
    + intros [o l]. refine (reads_iff _ _ _ (reads_element id_codec depth _ _ (fun p v => reads_above bytes_cmp o p _ _ (reads_ret (Some p, l ++ [v])))) _).
      intros st n bs _. cbn [fst snd]. split.
      * intros (v & m & b2 & HR & Hw & (Ha & -> & -> & ->) & -> & ->). exists v. by rewrite N.add_0_r, app_nil_r.
      * intros (v & (Ha & HR & Hw) & -> & -> & ->). exists v, 0%N, []. by rewrite N.add_0_r, app_nil_r.
    + intros l HR _. cbn [list_keys]. rewrite <- list_fmap_compose. apply (ascending_keys id_bytes bytes_cmp bytes_total_compare id). done.
    + intros l. apply reads_ret.
    + intros l n bs _. unfold decodes. cbn [repr tree cost entity_id_set_vec_spec]. rewrite <- ids_cost_eq. split.
      * by intros (l' & -> & Hrest).
      * intros Hrest. by exists l.
Qed.

(** ** Records and unions encoded as nodes *)

(** What a codec is meant to do when it reads a record or a union *)
Definition record_node_spec {R} (C : MutationValueCodec R) fields `{!FieldSpecs fields} (get : R -> values fields) : CodecSpec C :=
  mkSpec (fun v => fields_repr fields (get v)) (fun v => WRecord (fields_trees fields (get v))) (fun v => fields_cost fields (get v)).
Definition union_node_spec {A} (C : MutationValueCodec A) (tag : A -> N) arms `{!ArmSpecs arms} : CodecSpec C :=
  mkSpec (arms_repr arms) (fun v => WUnion (tag v) (arms_payload arms v)) (arms_cost arms).

Lemma record_node_lawful {R} (C : MutationValueCodec R) fields `{!FieldSpecs fields} (get : R -> values fields) make node k depth :
  FieldsLawful fields (depth + 1) -> numbered_tags 1 (fd_tag <$> fields) = true -> (len fields <= MAX_RECORD_FIELDS)%N ->
  (forall v d, encode_value C v d = encode (node v) d) -> (forall v, WRecord (fields_trees fields (get v)) = node_tree (node v)) ->
  decode_value C depth = record_decode fields depth ≫= k -> (forall vs, k vs = mret (make vs)) ->
  (forall vs, get (make vs) = vs) -> (forall v, make (get v) = v) -> LawfulAt C (CodecSpec0 := record_node_spec C fields get) depth.
Proof.
  intros HF Hnum Hlen He Ht Hd Hk Hgm Hmg. refine (lawful_node C (CodecSpec0 := record_node_spec C fields get) node _ depth He Ht (fun _ => _) _).
  - rewrite Hd. refine (reads_bind _ _ _ _ (reads_record_decode fields Hnum Hlen depth) (fun vs => _)). rewrite Hk. apply reads_ret.
  - intros v n bs. unfold decodes, record_node_spec. cbn [repr tree cost]. split.
    + intros (vs & n1 & n2 & b1 & b2 & (HR & -> & Hw & ->) & (-> & -> & ->) & -> & ->). by rewrite Hgm, N.add_0_r, app_nil_r.
    + intros (HR & -> & Hw & ->). exists (get v), (fields_cost fields (get v)), 0%N, (wire_bytes (WRecord (fields_trees fields (get v)))), [].
      rewrite N.add_0_r, app_nil_r, Hmg. by split_and!.
Qed.

Lemma union_node_lawful {A} (C : MutationValueCodec A) (tag : A -> N) arms `{!ArmSpecs arms} node depth :
  ArmsLawful tag arms (depth + 1) -> (forall v, tag v < 2 ^ 32)%N ->
  (forall v d, encode_value C v d = encode (node v) d) -> (forall v, WUnion (tag v) (arms_payload arms v) = node_tree (node v)) ->
  decode_value C depth = union_decode arms depth -> LawfulAt C (CodecSpec0 := union_node_spec C tag arms) depth.
Proof.
  intros HA Htag He Ht Hd. refine (lawful_node C (CodecSpec0 := union_node_spec C tag arms) node _ depth He Ht (fun _ => _) _).
  - rewrite Hd. apply (reads_union_decode tag arms depth Htag).
  - done.
Qed.

(** ** Enums *)

#[export] Instance BuiltinFailureKind_spec : CodecSpec BuiltinFailureKind_codec :=
  mkSpec (fun _ => True) (fun k => number_tree (BuiltinFailureKind_tag k)) (fun _ => 0%N).
#[export] Instance BuiltinFailureKind_lawful depth : LawfulAt BuiltinFailureKind_codec depth.
Proof.
  apply (lawful_enum BuiltinFailureKind_tag BuiltinFailureKind_from_tag 16); try done; [by intros []|].
  intros t v. unfold BuiltinFailureKind_from_tag. split; [|by intros ->; destruct v]. by repeat case_match; intros [= <-].
Qed.

#[export] Instance IntegerWidth_spec : CodecSpec IntegerWidth_codec := u16_spec.
#[export] Instance IntegerWidth_lawful depth : LawfulAt IntegerWidth_codec depth := u16_lawful depth.

(** ** Types *)

(** What decoding a type allocates *)
Fixpoint type_cost (t : TypeExpr) : N :=
  match t with
  | TTuple items => len items * size_of SzTypeExpr + sum (type_cost <$> items)
  | TNamed _ arguments => len arguments * size_of SzTypeExpr + sum (type_cost <$> arguments)
  | TVector item | TOption item | TLocalCell item => size_of SzTypeExpr + type_cost item
  | TOrderedMap a b | TResult a b => size_of SzTypeExpr + type_cost a + (size_of SzTypeExpr + type_cost b)
  | TFunctionRef parameters result effects =>
      len parameters * size_of SzTypeExpr + sum (type_cost <$> parameters) + (size_of SzTypeExpr + type_cost result) + ids_cost effects
  | _ => 0
  end%N.

Section types.
Variable T : MutationValueCodec TypeExpr.
Definition type_spec : CodecSpec T := mkSpec type_repr type_tree type_cost.
#[local] Existing Instance type_spec.
Variable depth : N.
Hypothesis HT : forall d, (depth <= d)%N -> LawfulAt T d.

#[export] Instance types_spec : CodecSpec (types_codec T) := list_spec (size_of SzTypeExpr) T.
#[export] Instance box_type_spec : CodecSpec (box_type_codec T) := box_spec (size_of SzTypeExpr) T.
#[export] Instance NamedType_spec : CodecSpec (NamedType_codec T) := record_node_spec _ (NamedType_fields T) (fun '(d, l) => (d, (l, tt))).
#[export] Instance TypePair_spec : CodecSpec (TypePair_codec T) := record_node_spec _ (TypePair_fields T) (fun '(a, b) => (a, (b, tt))).
#[export] Instance FunctionType_spec : CodecSpec (FunctionType_codec T) :=
  record_node_spec _ (FunctionType_fields T) (fun '(p, r, e) => (p, (r, (e, tt)))).

Lemma types_lawful d : (depth <= d)%N -> LawfulAt (types_codec T) d.
Proof using HT. intros Hd. apply list_lawful, HT. lia. Qed.
Lemma box_type_lawful d : (depth <= d)%N -> LawfulAt (box_type_codec T) d.
Proof using HT. intros Hd. by apply box_lawful, HT. Qed.

#[local] Hint Extern 0 (LawfulAt (types_codec _) _) => apply types_lawful; lia : typeclass_instances.
#[local] Hint Extern 0 (LawfulAt (box_type_codec _) _) => apply box_type_lawful; lia : typeclass_instances.

Lemma NamedType_lawful d : (depth <= d)%N -> LawfulAt (NamedType_codec T) d.
Proof using HT.
  intros Hd. apply (record_node_lawful _ (NamedType_fields T) _ (fun '(d, (l, tt)) => (d, l)) (fun '(d, l) => NNamed d l) (fun '(d, (l, tt)) => mret (d, l))); try done.
  - fields_lawful.
  - by intros [].
  - by intros [].
  - by intros (? & ? & []).
  - by intros (? & ? & []).
  - by intros [].
Qed.

Lemma TypePair_lawful d : (depth <= d)%N -> LawfulAt (TypePair_codec T) d.
Proof using HT.
  intros Hd. apply (record_node_lawful _ (TypePair_fields T) _ (fun '(a, (b, tt)) => (a, b)) (fun '(a, b) => NTypePair a b) (fun '(a, (b, tt)) => mret (a, b))); try done.
  - fields_lawful.
  - by intros [].
  - by intros [].
  - by intros (? & ? & []).
  - by intros (? & ? & []).
  - by intros [].
Qed.

Lemma FunctionType_lawful d : (depth <= d)%N -> LawfulAt (FunctionType_codec T) d.
Proof using HT.
  intros Hd. apply (record_node_lawful _ (FunctionType_fields T) _ (fun '(p, (r, (e, tt))) => (p, r, e)) (fun '(p, r, e) => NFunction p r e)
    (fun '(p, (r, (e, tt))) => mret (p, r, e))); try done.
  - fields_lawful.
  - by intros [[]].
  - by intros [[]].
  - by intros (? & ? & ? & []).
  - by intros (? & ? & ? & []).
  - by intros [[]].
Qed.

#[local] Hint Extern 0 (LawfulAt (NamedType_codec _) _) => apply NamedType_lawful; lia : typeclass_instances.
#[local] Hint Extern 0 (LawfulAt (TypePair_codec _) _) => apply TypePair_lawful; lia : typeclass_instances.
#[local] Hint Extern 0 (LawfulAt (FunctionType_codec _) _) => apply FunctionType_lawful; lia : typeclass_instances.

Lemma TypeExpr_arms_lawful d : (depth <= d)%N -> ArmsLawful TypeExpr_tag (TypeExpr_arms T) d.
Proof using HT.
  intros Hd. unfold TypeExpr_arms.
  arms_lawful.
Qed.

Lemma type_arms_repr t : arms_repr (TypeExpr_arms T) t <-> type_repr t.
Proof.
  rewrite type_repr_inv. destruct t; cbn; rewrite ?Forall_app, ?Forall_cons, ?Forall_nil; tauto.
Qed.

Lemma type_arms_tree t : WUnion (TypeExpr_tag t) (arms_payload (TypeExpr_arms T) t) = type_tree t.
Proof. by destruct t. Qed.

Lemma type_arms_cost t : arms_cost (TypeExpr_arms T) t = type_cost t.
Proof. destruct t; cbn; rewrite ?N.add_0_r, ?N.add_0_l, ?N.add_assoc; done. Qed.
End types.

Lemma TypeExpr_codec_of_lawful T depth :
  (forall d, (depth < d)%N -> LawfulAt T (CodecSpec0 := type_spec T) d) ->
  LawfulAt (TypeExpr_codec_of T) (CodecSpec0 := type_spec _) depth.
Proof.
  intros HT. apply (lawful_ext _ (union_node_spec _ TypeExpr_tag (TypeExpr_arms T))).
  - apply type_arms_repr.
  - intros v _. apply type_arms_tree.
  - apply type_arms_cost.
  - apply (union_node_lawful _ _ _ NType).
    + apply (TypeExpr_arms_lawful T (depth + 1)); [|lia]. intros d Hd. apply HT. lia.
    + by intros [].
    + done.
    + apply type_arms_tree.
    + done.
Qed.

(** A depth that leaves no level for anything *)
Lemma lawful_exhausted {A} (C : MutationValueCodec A) `{!CodecSpec C} (node : A -> Node) depth :
  (MAX_NESTING_DEPTH <= depth)%N -> (forall v d, encode_value C v d = encode (node v) d) -> (forall v, tree C v = node_tree (node v)) ->
  (forall v, root_ok MAX_NESTING_DEPTH (node_tree (node v)) -> False) -> (forall d, decode_value C d = fail ScbResourceLimit) -> LawfulAt C depth.
Proof.
  intros Hd He Ht Hr Hv. apply (lawful_node C node (fun _ _ _ => False) depth He Ht).
  - intros _. rewrite Hv. by apply reads_fail.
  - intros v n bs. split; [done|]. intros (_ & _ & Hw & _). assert (depth = MAX_NESTING_DEPTH) as -> by (apply wire_ok_depth in Hw; lia).
    apply wire_ok_root in Hw. rewrite Ht in Hw. by apply Hr in Hw.
Qed.

Lemma TypeExpr_fuel_lawful fuel depth :
  (MAX_NESTING_DEPTH <= depth + N.of_nat fuel)%N -> LawfulAt (TypeExpr_codec_fuel fuel) (CodecSpec0 := type_spec _) depth.
Proof.
  revert depth. induction fuel as [|fuel IH]; intros depth Hd; cbn [TypeExpr_codec_fuel].
  - apply (lawful_exhausted _ NType); [lia|done..| |done]. intros v. cbn [node_tree]. rewrite type_payload_tree. by apply N.lt_irrefl.
  - apply TypeExpr_codec_of_lawful. intros d Hlt. apply IH. lia.
Qed.

#[export] Instance TypeExpr_spec : CodecSpec TypeExpr_codec := type_spec _.
#[export] Instance TypeExpr_lawful depth : LawfulAt TypeExpr_codec depth.
Proof. apply TypeExpr_fuel_lawful. lia. Qed.
#[export] Instance TypeExprs_lawful depth : LawfulAt (types_codec TypeExpr_codec) depth.
Proof. apply (types_lawful _ 0); [intros d _; apply TypeExpr_lawful|apply N.le_0_l]. Qed.

(** ** Constants without constants inside *)

#[export] Instance FunctionRefValue_spec : CodecSpec FunctionRefValue_codec :=
  record_node_spec _ FunctionRefValue_fields (fun v => (frv_function v, (frv_type_arguments v, tt))).
#[export] Instance FunctionRefValue_lawful depth : LawfulAt FunctionRefValue_codec depth.
Proof.
  apply (record_node_lawful _ FunctionRefValue_fields _ (fun '(f, (l, tt)) => mkFunctionRefValue f l) NFunctionRef
    (fun '(f, (l, tt)) => mret (mkFunctionRefValue f l))); try done.
  - fields_lawful.
  - by intros (? & ? & []).
  - by intros (? & ? & []).
  - by intros [].
Qed.

#[export] Instance BuiltinFailureValue_spec : CodecSpec BuiltinFailureValue_codec :=
  record_node_spec _ BuiltinFailureValue_fields (fun v => (bfv_kind v, (bfv_code v, tt))).
#[export] Instance BuiltinFailureValue_lawful depth : LawfulAt BuiltinFailureValue_codec depth.
Proof.
  apply (record_node_lawful _ BuiltinFailureValue_fields _ (fun '(k, (c, tt)) => mkBuiltinFailureValue k c) NFailure
    (fun '(k, (c, tt)) => mret (mkBuiltinFailureValue k c))); try done.
  - fields_lawful.
  - by intros (? & ? & []).
  - by intros (? & ? & []).
  - by intros [].
Qed.

Lemma float_lawful (C : MutationValueCodec N) (HC : CodecSpec C) w (enc : N -> scb_result bytes) read depth
    `{HS : !StrictCodec (fun x => x < w)%N enc read} :
  (forall v d, encode_value C v d = map_err Fails (enc v)) -> decode_value C depth = cursor_read read ->
  repr C = (fun x => x < w)%N -> tree C = (fun v => WAtom (map_err Fails (enc v))) -> cost C = (fun _ => 0%N) ->
  (forall v b, enc v = Ok b -> (len b <= 32)%N) -> LawfulAt C depth.
Proof.
  intros He Hd HR HT HK Hl. apply (lawful_atom C (fun v => map_err Fails (enc v))); rewrite ?HR, ?HT, ?HK; try done.
  - intros v b _ Hb%map_err_iff. apply small_short. by eapply Hl.
  - rewrite Hd. refine (reads_iff _ _ _ (reads_cursor _ _ (codec_strict (StrictCodec := HS))) _). intros v n bs _.
    rewrite map_err_iff. naive_solver.
Qed.

#[export] Instance f32_bits_spec : CodecSpec f32_bits_codec :=
  mkSpec (fun v => v < 2 ^ 32)%N (fun v => WAtom (map_err Fails (encode_f32_bits v))) (fun _ => 0%N).
#[export] Instance f32_bits_lawful depth : LawfulAt f32_bits_codec depth.
Proof.
  apply (float_lawful _ _ (2 ^ 32) encode_f32_bits read_f32_bits _ (HS := Scb1Cursor.f32_codec)); try done.
  intros v b ->%encode_f32_bits_be. unfold len. by rewrite length_be_bytes.
Qed.
#[export] Instance f64_bits_spec : CodecSpec f64_bits_codec :=
  mkSpec (fun v => v < 2 ^ 64)%N (fun v => WAtom (map_err Fails (encode_f64_bits v))) (fun _ => 0%N).
#[export] Instance f64_bits_lawful depth : LawfulAt f64_bits_codec depth.
Proof.
  apply (float_lawful _ _ (2 ^ 64) encode_f64_bits read_f64_bits _ (HS := Scb1Cursor.f64_codec)); try done.
  intros v b ->%encode_f64_bits_be. unfold len. by rewrite length_be_bytes.
Qed.

(** ** Constants *)

(** What decoding a constant allocates *)
Fixpoint value_cost (v : ConstValue) : N :=
  let boxed v := (size_of SzConstValue + value_cost v)%N in
  match v with
  | mkConstValue t data =>
      type_cost t +
      match data with
      | DBytes b | DText b => len b
      | DSequence items => len items * size_of SzConstValue + sum (value_cost <$> items)
      | DRecord r =>
          len (rc_fields r) * size_of SzFieldConst + sum ((fun f => value_cost (fc_value f)) <$> rc_fields r)
      | DVariant x => if vk_payload x is Some v then boxed v else 0
      | DMap entries =>
          len entries * size_of SzMapEntryConst + sum ((fun e => value_cost (me_key e) + value_cost (me_value e)) <$> entries)
      | DOption o => if o is Some v then boxed v else 0
      | DResult (ROk v) | DResult (RErr v) => boxed v
      | DFunctionRef f => len (frv_type_arguments f) * size_of SzTypeExpr + sum (type_cost <$> frv_type_arguments f)
      | _ => 0
      end
  end%N.

Section constants.
Variable V : MutationValueCodec ConstValue.
Definition value_spec : CodecSpec V := mkSpec value_repr value_tree value_cost.
#[local] Existing Instance value_spec.
Variable depth : N.
Hypothesis HV : forall d, (depth <= d)%N -> LawfulAt V d.
#[local] Hint Extern 0 (LawfulAt V _) => apply HV; lia : typeclass_instances.

#[export] Instance values_spec : CodecSpec (values_codec V) := list_spec (size_of SzConstValue) V.
#[export] Instance box_value_spec : CodecSpec (box_value_codec V) := box_spec (size_of SzConstValue) V.
#[export] Instance FieldConst_spec : CodecSpec (FieldConst_codec V) :=
  record_node_spec _ (FieldConst_fields V) (fun f => (fc_member_id f, (fc_value f, tt))).
#[export] Instance RecordConst_spec : CodecSpec (RecordConst_codec V) :=
  record_node_spec _ (RecordConst_fields V) (fun r => (rc_definition r, (rc_fields r, tt))).
#[export] Instance VariantConst_spec : CodecSpec (VariantConst_codec V) :=
  record_node_spec _ (VariantConst_fields V) (fun v => (vk_definition v, (vk_member_id v, (vk_payload v, tt)))).
#[export] Instance MapEntryConst_spec : CodecSpec (MapEntryConst_codec V) :=
  record_node_spec _ (MapEntryConst_fields V) (fun e => (me_key e, (me_value e, tt))).
#[export] Instance ResultConst_spec : CodecSpec (ResultConst_codec V) := union_node_spec _ ResultConst_tag (ResultConst_arms V).
#[export] Instance map_entries_spec : CodecSpec (map_entries_codec V) :=
  mkSpec (Forall (repr (MapEntryConst_codec V))) (fun l => WList KMap (tree (MapEntryConst_codec V) <$> l))
    (fun l => len l * size_of SzMapEntryConst + sum (cost (MapEntryConst_codec V) <$> l))%N.

Lemma values_lawful d : (depth <= d)%N -> LawfulAt (values_codec V) d.
Proof using HV. intros Hd. apply list_lawful, HV. lia. Qed.
Lemma box_value_lawful d : (depth <= d)%N -> LawfulAt (box_value_codec V) d.
Proof using HV. intros Hd. by apply box_lawful, HV. Qed.
#[local] Hint Extern 0 (LawfulAt (values_codec _) _) => apply values_lawful; lia : typeclass_instances.
#[local] Hint Extern 0 (LawfulAt (box_value_codec _) _) => apply box_value_lawful; lia : typeclass_instances.

Lemma FieldConst_lawful d : (depth <= d)%N -> LawfulAt (FieldConst_codec V) d.
Proof using HV.
  intros Hd. apply (record_node_lawful _ (FieldConst_fields V) _ (fun '(m, (v, tt)) => mkFieldConst m v) NField
    (fun '(m, (v, tt)) => mret (mkFieldConst m v))); try done.
  - fields_lawful.
  - by intros (? & ? & []).
  - by intros (? & ? & []).
  - by intros [].
Qed.
#[local] Hint Extern 0 (LawfulAt (FieldConst_codec _) _) => apply FieldConst_lawful; lia : typeclass_instances.

Lemma RecordConst_lawful d : (depth <= d)%N -> LawfulAt (RecordConst_codec V) d.
Proof using HV.
  intros Hd. apply (record_node_lawful _ (RecordConst_fields V) _ (fun '(m, (v, tt)) => mkRecordConst m v) NRecord
    (fun '(m, (v, tt)) => mret (mkRecordConst m v))); try done.
  - fields_lawful.
  - by intros (? & ? & []).
  - by intros (? & ? & []).
  - by intros [].
Qed.

Lemma VariantConst_lawful d : (depth <= d)%N -> LawfulAt (VariantConst_codec V) d.
Proof using HV.
  intros Hd. apply (record_node_lawful _ (VariantConst_fields V) _ (fun '(a, (b, (v, tt))) => mkVariantConst a b v) NVariant
    (fun '(a, (b, (v, tt))) => mret (mkVariantConst a b v))); try done.
  - fields_lawful.
  - by intros (? & ? & ? & []).
  - by intros (? & ? & ? & []).
  - by intros [].
Qed.

Lemma MapEntryConst_lawful d : (depth <= d)%N -> LawfulAt (MapEntryConst_codec V) d.
Proof using HV.
  intros Hd. apply (record_node_lawful _ (MapEntryConst_fields V) _ (fun '(m, (v, tt)) => mkMapEntryConst m v) NEntry
    (fun '(m, (v, tt)) => mret (mkMapEntryConst m v))); try done.
  - fields_lawful.
  - by intros (? & ? & []).
  - by intros (? & ? & []).
  - by intros [].
Qed.

Lemma ResultConst_lawful d : (depth <= d)%N -> LawfulAt (ResultConst_codec V) d.
Proof using HV.
  intros Hd. apply (union_node_lawful _ _ _ NResult); try done; [arms_lawful|by intros []|by intros []].
Qed.

(** The key of an entry within the limits is encoded again. *)
Lemma entry_key_encoded d e b :
  (depth <= d)%N -> repr (MapEntryConst_codec V) e -> wire_ok true (d + 1) (tree (MapEntryConst_codec V) e) ->
  encode_at_depth V (me_key e) (d + 2) = Ok b <-> b = entry_key (tree (MapEntryConst_codec V) e).
Proof using HV.
  intros Hd [Hk _] (_ & _ & Hw & _). rewrite <- N.add_assoc in Hw.
  assert (LawfulAt V (d + 2)) as HL by (apply HV; lia). rewrite lawful_encode by done. cbn [tree value_spec]. by split; [intros [_ ->]|].
Qed.

Lemma map_entries_lawful d : (depth <= d)%N -> LawfulAt (map_entries_codec V) d.
Proof using HV.
  intros Hd. apply (lawful_node _ (fun l => NSequence (SqEntries l)) (fun l' n bs => exists l, l' = l /\ Forall (repr (MapEntryConst_codec V)) l /\
    n = (len l * size_of SzMapEntryConst + sum (cost (MapEntryConst_codec V) <$> l))%N /\
    wire_ok true d (WList KMap (tree (MapEntryConst_codec V) <$> l)) /\ bs = wire_bytes (WList KMap (tree (MapEntryConst_codec V) <$> l)))); try done.
  - intros _. cbn [decode_value map_entries_codec].
    apply (reads_ordered_list (MapEntryConst_codec V) (size_of SzMapEntryConst) d KMap
      (fun e => entry_key (tree (MapEntryConst_codec V) e)) bytes_cmp bytes_total_compare); [| |intros l; apply reads_ret].
    + intros [o l]. assert (LawfulAt (MapEntryConst_codec V) (d + 1)) as HM by (apply MapEntryConst_lawful; lia).
      refine (reads_iff _ _ _ (reads_element (MapEntryConst_codec V) d _ _ (fun p v =>
        reads_check _ _ _ (fun key => reads_above bytes_cmp o key _ _ (reads_ret (Some key, l ++ [v]))))) _).
      intros st n bs _. cbn [fst snd]. split.
      * intros (v & m & b2 & HR & Hw & (key & Hkey & Ha & -> & -> & ->) & -> & ->). apply entry_key_encoded in Hkey as ->; [|done..].
        exists v. by rewrite N.add_0_r, app_nil_r.
      * intros (v & (Ha & HR & Hw) & -> & -> & ->). exists v, 0%N, []. rewrite N.add_0_r, app_nil_r. split_and!; try done.
        exists (entry_key (tree (MapEntryConst_codec V) v)). split_and!; try done. by apply entry_key_encoded.
    + intros l _ _. cbn [list_keys]. rewrite <- list_fmap_compose.
      by apply (ascending_keys (fun e => entry_key (tree (MapEntryConst_codec V) e)) bytes_cmp bytes_total_compare id).
  - intros l n bs. unfold decodes. split; [by intros (l' & -> & Hrest)|intros Hrest; by exists l].
Qed.
#[local] Hint Extern 0 (LawfulAt (RecordConst_codec _) _) => apply RecordConst_lawful; lia : typeclass_instances.
#[local] Hint Extern 0 (LawfulAt (VariantConst_codec _) _) => apply VariantConst_lawful; lia : typeclass_instances.
#[local] Hint Extern 0 (LawfulAt (ResultConst_codec _) _) => apply ResultConst_lawful; lia : typeclass_instances.
#[local] Hint Extern 0 (LawfulAt (map_entries_codec _) _) => apply map_entries_lawful; lia : typeclass_instances.

#[export] Instance ConstData_spec : CodecSpec (ConstData_codec V) := union_node_spec _ ConstData_tag (ConstData_arms V).

Lemma data_arms_tree v : WUnion (ConstData_tag v) (arms_payload (ConstData_arms V) v) = node_tree (NData v).
Proof. cbn [node_tree]. rewrite data_payload_tree. destruct v; try done. - by destruct r. Qed.

Lemma ConstData_lawful d : (depth <= d)%N -> LawfulAt (ConstData_codec V) d.
Proof using HV.
  intros Hd. apply (union_node_lawful _ _ _ NData); try done; [arms_lawful|by intros []|apply data_arms_tree].
Qed.
#[local] Hint Extern 0 (LawfulAt (ConstData_codec _) _) => apply ConstData_lawful; lia : typeclass_instances.

Lemma Forall_trivial {A} (l : list A) : Forall (fun _ => True) l <-> True.
Proof. split; [done|]. intros _. by apply Forall_true. Qed.

Lemma option_list_Forall (o : option ConstValue) P : (if o is Some v then P v else True) <-> Forall P (option_list o).
Proof. destruct o; cbn; rewrite ?Forall_cons, ?Forall_nil; tauto. Qed.

Lemma data_arms_repr d : arms_repr (ConstData_arms V) d <-> data_repr d /\ Forall value_repr (const_children d).
Proof.
  destruct d as [| | | | | | | |items|r|v|entries|o|r| |]; cbn; try (rewrite ?Forall_nil; tauto).
  - setoid_rewrite Forall_fmap. unfold compose. rewrite !Forall_and, Forall_trivial. tauto.
  - rewrite <- option_list_Forall. tauto.
  - rewrite entries_repr, !Forall_and, Forall_trivial. tauto.
  - rewrite option_list_Forall. tauto.
  - destruct r; rewrite Forall_cons, Forall_nil; tauto.
Qed.

Lemma data_arms_cost t d : (type_cost t + arms_cost (ConstData_arms V) d)%N = value_cost (mkConstValue t d).
Proof.
  destruct d as [| | | | | | | |items|r|v|entries|o|r| |]; cbn; rewrite ?N.add_0_r, ?N.add_0_l; try done.
  - do 3 f_equal. apply list_fmap_ext. intros i f _. by rewrite N.add_0_l, N.add_0_r.
  - do 3 f_equal. apply list_fmap_ext. intros i e _. by rewrite N.add_0_r.
  - by destruct r.
Qed.
End constants.

Lemma ConstValue_codec_of_lawful V depth :
  (forall d, (depth < d)%N -> LawfulAt V (CodecSpec0 := value_spec V) d) ->
  LawfulAt (ConstValue_codec_of V) (CodecSpec0 := value_spec _) depth.
Proof.
  intros HV.
  assert (forall d, (depth < d)%N -> LawfulAt (ConstData_codec V) d) as HD.
  { intros d Hd. apply (ConstData_lawful V (depth + 1)); [|lia]. intros d' Hd'. apply HV. lia. }
  apply (lawful_ext _ (record_node_spec _ (ConstValue_fields V) (fun v => (cv_type v, (cv_data v, tt))))).
  - intros [t d]. rewrite value_repr_inv, <- (data_arms_repr V). cbn. tauto.
  - intros [t d] _. rewrite value_tree_eq. cbn [tree record_node_spec fields_trees cons_field_specs nil_field_specs fd_codec cv_type cv_data].
    do 3 f_equal. apply data_arms_tree.
  - intros [t d]. rewrite <- (data_arms_cost V). cbn. by rewrite N.add_0_r.
  - apply (record_node_lawful _ (ConstValue_fields V) _ (fun '(t, (d, tt)) => mkConstValue t d) NValue
      (fun '(t, (d, tt)) => mret (mkConstValue t d))); try done.
    + apply cons_fields_lawful; [apply TypeExpr_lawful|]. apply cons_fields_lawful; [apply HD; lia|apply nil_fields_lawful].
    + intros [t d]. cbn [node_tree]. rewrite value_tree_eq. cbn [fields_trees cons_field_specs nil_field_specs fd_codec cv_type cv_data].
      do 3 f_equal. apply data_arms_tree.
    + by intros (? & ? & []).
    + by intros (? & ? & []).
    + by intros [].
Qed.

Lemma ConstValue_fuel_lawful fuel depth :
  (MAX_NESTING_DEPTH <= depth + N.of_nat fuel)%N -> LawfulAt (ConstValue_codec_fuel fuel) (CodecSpec0 := value_spec _) depth.
Proof.
  revert depth. induction fuel as [|fuel IH]; intros depth Hd; cbn [ConstValue_codec_fuel].
  - apply (lawful_exhausted _ NValue); [lia|done..| |done]. intros v. cbn [node_tree]. rewrite value_tree_eq. by apply N.lt_irrefl.
  - apply ConstValue_codec_of_lawful. intros d Hlt. apply IH. lia.
Qed.

#[export] Instance ConstValue_spec : CodecSpec ConstValue_codec := value_spec _.
#[export] Instance ConstValue_lawful depth : LawfulAt ConstValue_codec depth.
Proof. apply ConstValue_fuel_lawful. lia. Qed.

(** ** Whole inputs *)

Lemma encode_exact_const v : encode_exact ConstValue_codec v = encode_const_value v.
Proof. done. Qed.

(** C15: roundtrip. A byte string decodes to a constant exactly when it is the
    encoding of that constant and decoding it allocates no more than the budget:
    nothing else is accepted, the fuel of the model never shows, and the two
    sides of the codec agree on depths, limits and canonical form. *)
Theorem decode_const_value_exact input v :
  decode_const_value input = Ok v <->
  value_repr v /\ (value_cost v <= MAX_TOTAL_ALLOCATION)%N /\ encode_const_value v = Ok input.
Proof. unfold decode_const_value. rewrite (decode_exact_Ok ConstValue_codec) by apply _. by rewrite encode_exact_const. Qed.
End layout.
