(* ===== verification/MutValue.v ===== *)
(** * The values a mutation proposes (crates/sley-mutate/src/value_generated.rs, codec.rs)

    The bodies of the 18 kinds of entities, and the codecs of what they hold: the
    records of [impl_required_record_codec!] and the unions, written out in codec.rs
    and instances of [record_codec] and [union_codec] here. *)

From S2P Require Import Prelude State Bytes Scb1Core Scb1Cursor Scb1Schema Records Ssmc ConstEncoding MutCodec MutConst.
Set Warnings "-register-all".

(** ** Bodies *)

Record WorkspaceBody : Type := mkWorkspaceBody {
  wb_packages : EntityIdSet;
  wb_root_namespace : EntityId;
  wb_capability_requirements : EntityIdSet;
  wb_contracts : EntityIdSet;
  wb_tests : EntityIdSet
}.
#[global] Instance WorkspaceBody_eq_dec : EqDecision WorkspaceBody.
Proof. solve_decision. Defined.

Record PackageBody : Type := mkPackageBody {
  pb_workspace : EntityId;
  pb_root_namespace : EntityId;
  pb_dependencies : EntityIdSet;
  pb_exports : EntityIdSet
}.
#[global] Instance PackageBody_eq_dec : EqDecision PackageBody.
Proof. solve_decision. Defined.

Record NamespaceBody : Type := mkNamespaceBody {
  nb_parent : option EntityId;
  nb_members : EntityIdSet
}.
#[global] Instance NamespaceBody_eq_dec : EqDecision NamespaceBody.
Proof. solve_decision. Defined.

Record TypeDefBody : Type := mkTypeDefBody {
  tdb_type_parameters : list TypeParameterDef;
  tdb_form : TypeDefForm;
  tdb_invariants : EntityIdSet;
  tdb_visibility : Visibility
}.
#[global] Instance TypeDefBody_eq_dec : EqDecision TypeDefBody.
Proof. solve_decision. Defined.

Record FunctionBody : Type := mkFunctionBody {
  fb_type_parameters : list TypeParameterDef;
  fb_parameters : list EntityId;
  fb_result_type : TypeExpr;
  fb_effects : EntityIdSet;
  fb_entry_block : EntityId;
  fb_blocks : list EntityId;
  fb_contracts : EntityIdSet;
  fb_visibility : Visibility
}.
#[global] Instance FunctionBody_eq_dec : EqDecision FunctionBody.
Proof. solve_decision. Defined.

Record ParameterBody : Type := mkParameterBody {
  prb_owner : EntityId;
  prb_role : ParameterRole;
  prb_ordinal : N;
  prb_value_type : TypeExpr
}.
#[global] Instance ParameterBody_eq_dec : EqDecision ParameterBody.
Proof. solve_decision. Defined.

Record BlockBody : Type := mkBlockBody {
  bb_function : EntityId;
  bb_parameters : list EntityId;
  bb_operations : list EntityId;
  bb_terminator : Terminator;
  bb_reachability : Reachability
}.
#[global] Instance BlockBody_eq_dec : EqDecision BlockBody.
Proof. solve_decision. Defined.

Record OperationBody : Type := mkOperationBody {
  ob_block : EntityId;
  ob_ordinal : N;
  ob_opcode : N;
  ob_operands : list ValueRef;
  ob_result_types : list TypeExpr;
  ob_immediate : Immediate
}.
#[global] Instance OperationBody_eq_dec : EqDecision OperationBody.
Proof. solve_decision. Defined.

Record ConstantBody : Type := mkConstantBody {
  kb_value : ConstValue
}.
#[global] Instance ConstantBody_eq_dec : EqDecision ConstantBody.
Proof. solve_decision. Defined.

Record GlobalValueBody : Type := mkGlobalValueBody {
  gvb_value_type : TypeExpr;
  gvb_initializer : EntityId;
  gvb_visibility : Visibility
}.
#[global] Instance GlobalValueBody_eq_dec : EqDecision GlobalValueBody.
Proof. solve_decision. Defined.

Record EffectDefBody : Type := mkEffectDefBody {
  edb_effect_kind : EffectKind;
  edb_scope_type : TypeExpr;
  edb_request_type : TypeExpr;
  edb_response_type : TypeExpr;
  edb_failure_type : TypeExpr;
  edb_visibility : Visibility
}.
#[global] Instance EffectDefBody_eq_dec : EqDecision EffectDefBody.
Proof. solve_decision. Defined.

Record CapabilityRequirementBody : Type := mkCapabilityRequirementBody {
  crb_effect : EntityId;
  crb_allowed_scopes : list ConstValue;
  crb_constraint_contracts : EntityIdSet
}.
#[global] Instance CapabilityRequirementBody_eq_dec : EqDecision CapabilityRequirementBody.
Proof. solve_decision. Defined.

Record ContractBody : Type := mkContractBody {
  ctb_target : EntityId;
  ctb_contract_kind : ContractKind;
  ctb_predicate : EntityId;
  ctb_bindings : list ContractBinding;
  ctb_resource_limits : option ResourceLimits
}.
#[global] Instance ContractBody_eq_dec : EqDecision ContractBody.
Proof. solve_decision. Defined.

Record TestCaseBody : Type := mkTestCaseBody {
  tcb_target : EntityId;
  tcb_inputs : list ConstValue;
  tcb_effect_environment : EffectEnvironment;
  tcb_expected : ExpectedOutcome;
  tcb_observations : list ExpectedObservation;
  tcb_resource_limits : ResourceLimits
}.
#[global] Instance TestCaseBody_eq_dec : EqDecision TestCaseBody.
Proof. solve_decision. Defined.

Record AdapterImportBody : Type := mkAdapterImportBody {
  aib_adapter_id : bytes;
  aib_abi_version : N;
  aib_request_type : TypeExpr;
  aib_response_type : TypeExpr;
  aib_failure_type : TypeExpr;
  aib_effects : EntityIdSet
}.
#[global] Instance AdapterImportBody_eq_dec : EqDecision AdapterImportBody.
Proof. solve_decision. Defined.

Record EntryPointBody : Type := mkEntryPointBody {
  epb_function : EntityId;
  epb_exposure : EntryExposure
}.
#[global] Instance EntryPointBody_eq_dec : EqDecision EntryPointBody.
Proof. solve_decision. Defined.

Record PolicyBindingBody : Type := mkPolicyBindingBody {
  pbb_subject : EntityId;
  pbb_requirements : EntityIdSet
}.
#[global] Instance PolicyBindingBody_eq_dec : EqDecision PolicyBindingBody.
Proof. solve_decision. Defined.

Record DependencyBindingBody : Type := mkDependencyBindingBody {
  dbb_dependency_root : bytes;
  dbb_external_package : EntityId;
  dbb_local_namespace : EntityId
}.
#[global] Instance DependencyBindingBody_eq_dec : EqDecision DependencyBindingBody.
Proof. solve_decision. Defined.

Inductive EntityBodyValue : Type :=
| BWorkspace (x : WorkspaceBody)
| BPackage (x : PackageBody)
| BNamespace (x : NamespaceBody)
| BTypeDef (x : TypeDefBody)
| BFunction (x : FunctionBody)
| BParameter (x : ParameterBody)
| BBlock (x : BlockBody)
| BOperation (x : OperationBody)
| BConstant (x : ConstantBody)
| BGlobalValue (x : GlobalValueBody)
| BEffectDef (x : EffectDefBody)
| BCapabilityRequirement (x : CapabilityRequirementBody)
| BContract (x : ContractBody)
| BTestCase (x : TestCaseBody)
| BAdapterImport (x : AdapterImportBody)
| BEntryPoint (x : EntryPointBody)
| BPolicyBinding (x : PolicyBindingBody)
| BDependencyBinding (x : DependencyBindingBody).
#[global] Instance EntityBodyValue_eq_dec : EqDecision EntityBodyValue.
Proof. solve_decision. Defined.

Definition kind_tag (v : EntityBodyValue) : N :=
  match v with
  | BWorkspace _ => 1
  | BPackage _ => 2
  | BNamespace _ => 3
  | BTypeDef _ => 4
  | BFunction _ => 5
  | BParameter _ => 6
  | BBlock _ => 7
  | BOperation _ => 8
  | BConstant _ => 9
  | BGlobalValue _ => 10
  | BEffectDef _ => 11
  | BCapabilityRequirement _ => 12
  | BContract _ => 13
  | BTestCase _ => 14
  | BAdapterImport _ => 15
  | BEntryPoint _ => 16
  | BPolicyBinding _ => 17
  | BDependencyBinding _ => 18
  end.

(** ** Enums *)

Definition Visibility_from_tag (tag : N) : option Visibility :=
  match tag with
  | 1 => Some VPrivate
  | 2 => Some VPackage
  | 3 => Some VWorkspace
  | 4 => Some VExported
  | _ => None
  end%N.

Definition ParameterRole_from_tag (tag : N) : option ParameterRole :=
  match tag with
  | 1 => Some PRFunction
  | 2 => Some PRBlock
  | _ => None
  end%N.

Definition Reachability_from_tag (tag : N) : option Reachability :=
  match tag with
  | 1 => Some RCRequired
  | 2 => Some RCExplicitlyUnreachable
  | _ => None
  end%N.

Definition ContractKind_from_tag (tag : N) : option ContractKind :=
  match tag with
  | 1 => Some CKPrecondition
  | 2 => Some CKPostcondition
  | 3 => Some CKInvariant
  | 4 => Some CKEffectBound
  | 5 => Some CKCapabilityBound
  | 6 => Some CKResultPredicate
  | 7 => Some CKResourceCeiling
  | _ => None
  end%N.

Definition EntryExposure_from_tag (tag : N) : option EntryExposure :=
  match tag with
  | 1 => Some EELocal
  | 2 => Some EEProtocol
  | _ => None
  end%N.

Definition BuiltinCase_from_tag (tag : N) : option BuiltinCase :=
  match tag with
  | 1 => Some BCNone
  | 2 => Some BCSome
  | 3 => Some BCOk
  | 4 => Some BCErr
  | _ => None
  end%N.

Definition TrapCode_from_tag (tag : N) : option TrapCode :=
  match tag with
  | 1 => Some TrapUnreachable
  | 2 => Some TrapResourceExhausted
  | 3 => Some TrapAdapterContractViolation
  | 4 => Some TrapInternalInvariant
  | _ => None
  end%N.

Definition Visibility_codec : MutationValueCodec Visibility := simple_enum_codec Visibility_tag Visibility_from_tag.
Definition ParameterRole_codec : MutationValueCodec ParameterRole := simple_enum_codec ParameterRole_tag ParameterRole_from_tag.
Definition Reachability_codec : MutationValueCodec Reachability := simple_enum_codec Reachability_tag Reachability_from_tag.
Definition ContractKind_codec : MutationValueCodec ContractKind := simple_enum_codec ContractKind_tag ContractKind_from_tag.
Definition EntryExposure_codec : MutationValueCodec EntryExposure := simple_enum_codec EntryExposure_tag EntryExposure_from_tag.
Definition BuiltinCase_codec : MutationValueCodec BuiltinCase := simple_enum_codec BuiltinCase_tag BuiltinCase_from_tag.
Definition TrapCode_codec : MutationValueCodec TrapCode := simple_enum_codec TrapCode_tag TrapCode_from_tag.
Definition EffectKind_codec : MutationValueCodec EffectKind := simple_enum_codec EffectKind_tag EffectKind_from_tag.

Section layout.
Context `{RustLayout}.

(** ** Values, operations, terminators *)

Definition OperationResultRef_fields : list Field := [mkField 1 id_codec; mkField 2 u32_codec].
Definition OperationResultRef_codec : MutationValueCodec OperationResultRef :=
  record_codec OperationResultRef_fields
    (fun '(operation, (result_index, tt)) => mkOperationResultRef operation result_index)
    (fun x => (orr_operation x, (orr_result_index x, tt))).

Definition ValueRef_arms : list (Arm ValueRef) := [
  DataArm 1 id_codec VRParameter (fun x => if x is VRParameter y then Some y else None);
  DataArm 2 OperationResultRef_codec VROperationResult (fun x => if x is VROperationResult y then Some y else None)
].
Definition ValueRef_codec : MutationValueCodec ValueRef := union_codec ValueRef_tag ValueRef_arms.

Definition VariantImmediate_fields : list Field := [mkField 1 id_codec; mkField 2 id_codec].
Definition VariantImmediate_codec : MutationValueCodec VariantImmediate :=
  record_codec VariantImmediate_fields (fun '(definition, (member_id, tt)) => mkVariantImmediate definition member_id)
    (fun x => (vi_definition x, (vi_member_id x, tt))).

Definition Immediate_arms : list (Arm Immediate) := [
  UnitArm 1 ImmNone (fun x => if x is ImmNone then true else false);
  DataArm 2 id_codec ImmEntity (fun x => if x is ImmEntity y then Some y else None);
  DataArm 3 u32_codec ImmIndex (fun x => if x is ImmIndex y then Some y else None);
  DataArm 4 id_codec ImmField (fun x => if x is ImmField y then Some y else None);
  DataArm 5 VariantImmediate_codec ImmVariant (fun x => if x is ImmVariant y then Some y else None);
  DataArm 6 array32_codec ImmObservation (fun x => if x is ImmObservation y then Some y else None);
  DataArm 7 FunctionRefValue_codec ImmFunction (fun x => if x is ImmFunction y then Some y else None)
].
Definition Immediate_codec : MutationValueCodec Immediate := union_codec Immediate_tag Immediate_arms.

Definition TargetEdge_fields : list Field := [
  mkField 1 id_codec; mkField 2 (list_codec (size_of SzValueRef) ValueRef_codec)].
Definition TargetEdge_codec : MutationValueCodec TargetEdge :=
  record_codec TargetEdge_fields (fun '(target, (arguments, tt)) => mkTargetEdge target arguments)
    (fun x => (te_target x, (te_arguments x, tt))).

Definition CaseKey_arms : list (Arm CaseKey) := [
  DataArm 1 id_codec KeyMember (fun x => if x is KeyMember y then Some y else None);
  DataArm 2 BuiltinCase_codec KeyBuiltin (fun x => if x is KeyBuiltin y then Some y else None)
].
Definition CaseKey_codec : MutationValueCodec CaseKey := union_codec CaseKey_tag CaseKey_arms.

Definition SwitchArgument_arms : list (Arm SwitchArgument) := [
  DataArm 1 ValueRef_codec SAValue (fun x => if x is SAValue y then Some y else None);
  UnitArm 2 SACasePayload (fun x => if x is SACasePayload then true else false)
].
Definition SwitchArgument_codec : MutationValueCodec SwitchArgument := union_codec SwitchArgument_tag SwitchArgument_arms.

Definition SwitchEdge_fields : list Field := [
  mkField 1 id_codec; mkField 2 (list_codec (size_of SzSwitchArgument) SwitchArgument_codec)].
Definition SwitchEdge_codec : MutationValueCodec SwitchEdge :=
  record_codec SwitchEdge_fields (fun '(target, (arguments, tt)) => mkSwitchEdge target arguments)
    (fun x => (se_target x, (se_arguments x, tt))).

Definition SwitchCase_fields : list Field := [mkField 1 CaseKey_codec; mkField 2 SwitchEdge_codec].
Definition SwitchCase_codec : MutationValueCodec SwitchCase :=
  record_codec SwitchCase_fields (fun '(case_key, (edge, tt)) => mkSwitchCase case_key edge)
    (fun x => (sc_case_key x, (sc_edge x, tt))).

Definition ReturnTerminator_fields : list Field := [mkField 1 ValueRef_codec].
Definition ReturnTerminator_codec : MutationValueCodec ReturnTerminator :=
  record_codec ReturnTerminator_fields (fun '(value, tt) => mkReturnTerminator value)
    (fun x => (ret_value x, tt)).

Definition BranchTerminator_fields : list Field := [mkField 1 TargetEdge_codec].
Definition BranchTerminator_codec : MutationValueCodec BranchTerminator :=
  record_codec BranchTerminator_fields (fun '(edge, tt) => mkBranchTerminator edge)
    (fun x => (br_edge x, tt)).

Definition CondBranchTerminator_fields : list Field := [
  mkField 1 ValueRef_codec; mkField 2 TargetEdge_codec; mkField 3 TargetEdge_codec].
Definition CondBranchTerminator_codec : MutationValueCodec CondBranchTerminator :=
  record_codec CondBranchTerminator_fields
    (fun '(condition, (if_true, (if_false, tt))) => mkCondBranchTerminator condition if_true if_false)
    (fun x => (cbr_condition x, (cbr_if_true x, (cbr_if_false x, tt)))).

Definition VariantSwitchTerminator_fields : list Field := [
  mkField 1 ValueRef_codec; mkField 2 (list_codec (size_of SzSwitchCase) SwitchCase_codec)].
Definition VariantSwitchTerminator_codec : MutationValueCodec VariantSwitchTerminator :=
  record_codec VariantSwitchTerminator_fields (fun '(value, (cases, tt)) => mkVariantSwitchTerminator value cases)
    (fun x => (vs_value x, (vs_cases x, tt))).

Definition TrapTerminator_fields : list Field := [mkField 1 TrapCode_codec; mkField 2 (option_codec ValueRef_codec)].
Definition TrapTerminator_codec : MutationValueCodec TrapTerminator :=
  record_codec TrapTerminator_fields (fun '(code, (payload, tt)) => mkTrapTerminator code payload)
    (fun x => (trap_code x, (trap_payload x, tt))).

Definition Terminator_arms : list (Arm Terminator) := [
  DataArm 1 ReturnTerminator_codec TermReturn (fun x => if x is TermReturn y then Some y else None);
  DataArm 2 BranchTerminator_codec TermBranch (fun x => if x is TermBranch y then Some y else None);
  DataArm 3 CondBranchTerminator_codec TermCondBranch (fun x => if x is TermCondBranch y then Some y else None);
  DataArm 4 VariantSwitchTerminator_codec TermVariantSwitch (fun x => if x is TermVariantSwitch y then Some y else None);
  DataArm 5 TrapTerminator_codec TermTrap (fun x => if x is TermTrap y then Some y else None)
].
Definition Terminator_codec : MutationValueCodec Terminator := union_codec Terminator_tag Terminator_arms.

(** ** Type definitions, contracts, tests *)

Definition TypeParameterDef_fields : list Field := [mkField 1 u32_codec].
Definition TypeParameterDef_codec : MutationValueCodec TypeParameterDef :=
  record_codec TypeParameterDef_fields (fun '(ordinal, tt) => mkTypeParameterDef ordinal)
    (fun x => (tp_ordinal x, tt)).

Definition RecordField_fields : list Field := [
  mkField 1 id_codec; mkField 2 TypeExpr_codec; mkField 3 Visibility_codec].
Definition RecordField_codec : MutationValueCodec RecordField :=
  record_codec RecordField_fields
    (fun '(member_id, (value_type, (visibility, tt))) => mkRecordField member_id value_type visibility)
    (fun x => (rf_member_id x, (rf_value_type x, (rf_visibility x, tt)))).

Definition VariantCase_fields : list Field := [mkField 1 id_codec; mkField 2 (option_codec TypeExpr_codec)].
Definition VariantCase_codec : MutationValueCodec VariantCase :=
  record_codec VariantCase_fields (fun '(member_id, (payload_type, tt)) => mkVariantCase member_id payload_type)
    (fun x => (vc_member_id x, (vc_payload_type x, tt))).

Definition TypeDefForm_arms : list (Arm TypeDefForm) := [
  DataArm 1 (list_codec (size_of SzRecordField) RecordField_codec) FormRecord (fun x => if x is FormRecord y then Some y else None);
  DataArm 2 (list_codec (size_of SzVariantCase) VariantCase_codec) FormVariant (fun x => if x is FormVariant y then Some y else None)
].
Definition TypeDefForm_codec : MutationValueCodec TypeDefForm := union_codec TypeDefForm_tag TypeDefForm_arms.

Definition ContractSource_arms : list (Arm ContractSource) := [
  DataArm 1 id_codec CSParameter (fun x => if x is CSParameter y then Some y else None);
  UnitArm 2 CSResult (fun x => if x is CSResult then true else false);
  UnitArm 3 CSError (fun x => if x is CSError then true else false);
  DataArm 4 id_codec CSGlobal (fun x => if x is CSGlobal y then Some y else None)
].
Definition ContractSource_codec : MutationValueCodec ContractSource := union_codec ContractSource_tag ContractSource_arms.

Definition ContractBinding_fields : list Field := [mkField 1 u32_codec; mkField 2 ContractSource_codec].
Definition ContractBinding_codec : MutationValueCodec ContractBinding :=
  record_codec ContractBinding_fields
    (fun '(predicate_parameter, (source, tt)) => mkContractBinding predicate_parameter source)
    (fun x => (cb_predicate_parameter x, (cb_source x, tt))).

Definition ResourceLimits_fields : list Field := [
  mkField 1 u64_codec; mkField 2 u64_codec; mkField 3 u64_codec; mkField 4 u64_codec; mkField 5 u64_codec;
  mkField 6 u64_codec].
Definition ResourceLimits_codec : MutationValueCodec ResourceLimits :=
  record_codec ResourceLimits_fields
    (fun '(fuel, (memory_bytes, (output_bytes, (effect_count, (call_depth, (wall_timeout_millis, tt)))))) =>
       mkResourceLimits fuel memory_bytes output_bytes effect_count call_depth wall_timeout_millis)
    (fun x => (rl_fuel x, (rl_memory_bytes x, (rl_output_bytes x,
       (rl_effect_count x, (rl_call_depth x, (rl_wall_timeout_millis x, tt))))))).

Definition ReplayBinding_fields : list Field := [
  mkField 1 id_codec; mkField 2 (list_codec (size_of SzConstValue) ConstValue_codec);
  mkField 3 (ResultConst_codec ConstValue_codec)].
Definition ReplayBinding_codec : MutationValueCodec ReplayBinding :=
  record_codec ReplayBinding_fields
    (fun '(adapter_import, (request, (response, tt))) => mkReplayBinding adapter_import request response)
    (fun x => (rb_adapter_import x, (rb_request x, (rb_response x, tt)))).

Definition AdapterConfig_fields : list Field := [mkField 1 id_codec; mkField 2 ConstValue_codec].
Definition AdapterConfig_codec : MutationValueCodec AdapterConfig :=
  record_codec AdapterConfig_fields
    (fun '(adapter_import, (configuration, tt)) => mkAdapterConfig adapter_import configuration)
    (fun x => (ac_adapter_import x, (ac_configuration x, tt))).

Definition EffectEnvironment_arms : list (Arm EffectEnvironment) := [
  DataArm 1 (list_codec (size_of SzReplayBinding) ReplayBinding_codec) EnvReplay (fun x => if x is EnvReplay y then Some y else None);
  DataArm 2 (list_codec (size_of SzAdapterConfig) AdapterConfig_codec) EnvDeterministicAdapters (fun x => if x is EnvDeterministicAdapters y then Some y else None)
].
Definition EffectEnvironment_codec : MutationValueCodec EffectEnvironment := union_codec EffectEnvironment_tag EffectEnvironment_arms.

Definition ExpectedOutcome_arms : list (Arm ExpectedOutcome) := [
  DataArm 1 ConstValue_codec EOValue (fun x => if x is EOValue y then Some y else None);
  DataArm 2 u32_codec EOFailureCode (fun x => if x is EOFailureCode y then Some y else None)
].
Definition ExpectedOutcome_codec : MutationValueCodec ExpectedOutcome := union_codec ExpectedOutcome_tag ExpectedOutcome_arms.

Definition ExpectedObservation_fields : list Field := [mkField 1 array32_codec; mkField 2 ConstValue_codec].
Definition ExpectedObservation_codec : MutationValueCodec ExpectedObservation :=
  record_codec ExpectedObservation_fields
    (fun '(observation_id, (value, tt)) => mkExpectedObservation observation_id value)
    (fun x => (eo_observation_id x, (eo_value x, tt))).

(** ** Bodies *)

Definition WorkspaceBody_fields : list Field := [
  mkField 1 EntityIdSet_codec; mkField 2 id_codec; mkField 3 EntityIdSet_codec; mkField 4 EntityIdSet_codec;
  mkField 5 EntityIdSet_codec].
Definition WorkspaceBody_codec : MutationValueCodec WorkspaceBody :=
  record_codec WorkspaceBody_fields
    (fun '(packages, (root_namespace, (capability_requirements, (contracts, (tests, tt))))) =>
       mkWorkspaceBody packages root_namespace capability_requirements contracts tests)
    (fun x => (wb_packages x, (wb_root_namespace x,
       (wb_capability_requirements x, (wb_contracts x, (wb_tests x, tt)))))).

Definition PackageBody_fields : list Field := [
  mkField 1 id_codec; mkField 2 id_codec; mkField 3 EntityIdSet_codec; mkField 4 EntityIdSet_codec].
Definition PackageBody_codec : MutationValueCodec PackageBody :=
  record_codec PackageBody_fields
    (fun '(workspace, (root_namespace, (dependencies, (exports, tt)))) =>
       mkPackageBody workspace root_namespace dependencies exports)
    (fun x => (pb_workspace x, (pb_root_namespace x, (pb_dependencies x, (pb_exports x, tt))))).

Definition NamespaceBody_fields : list Field := [mkField 1 (option_codec id_codec); mkField 2 EntityIdSet_codec].
Definition NamespaceBody_codec : MutationValueCodec NamespaceBody :=
  record_codec NamespaceBody_fields (fun '(parent, (members, tt)) => mkNamespaceBody parent members)
    (fun x => (nb_parent x, (nb_members x, tt))).

Definition TypeDefBody_fields : list Field := [
  mkField 1 (list_codec (size_of SzTypeParameterDef) TypeParameterDef_codec); mkField 2 TypeDefForm_codec;
  mkField 3 EntityIdSet_codec; mkField 4 Visibility_codec].
Definition TypeDefBody_codec : MutationValueCodec TypeDefBody :=
  record_codec TypeDefBody_fields
    (fun '(type_parameters, (form, (invariants, (visibility, tt)))) =>
       mkTypeDefBody type_parameters form invariants visibility)
    (fun x => (tdb_type_parameters x, (tdb_form x, (tdb_invariants x, (tdb_visibility x, tt))))).

Definition FunctionBody_fields : list Field := [
  mkField 1 (list_codec (size_of SzTypeParameterDef) TypeParameterDef_codec);
  mkField 2 (list_codec (size_of SzEntityId) id_codec); mkField 3 TypeExpr_codec; mkField 4 EntityIdSet_codec;
  mkField 5 id_codec; mkField 6 (list_codec (size_of SzEntityId) id_codec); mkField 7 EntityIdSet_codec;
  mkField 8 Visibility_codec].
Definition FunctionBody_codec : MutationValueCodec FunctionBody :=
  record_codec FunctionBody_fields
    (fun '(type_parameters, (parameters, (result_type, (effects, (entry_block, (blocks, (contracts, (visibility, tt)))))))) =>
       mkFunctionBody type_parameters parameters result_type effects entry_block blocks contracts visibility)
    (fun x => (fb_type_parameters x, (fb_parameters x, (fb_result_type x, (fb_effects x,
       (fb_entry_block x, (fb_blocks x, (fb_contracts x, (fb_visibility x, tt))))))))).

Definition ParameterBody_fields : list Field := [
  mkField 1 id_codec; mkField 2 ParameterRole_codec; mkField 3 u32_codec; mkField 4 TypeExpr_codec].
Definition ParameterBody_codec : MutationValueCodec ParameterBody :=
  record_codec ParameterBody_fields
    (fun '(owner, (role, (ordinal, (value_type, tt)))) => mkParameterBody owner role ordinal value_type)
    (fun x => (prb_owner x, (prb_role x, (prb_ordinal x, (prb_value_type x, tt))))).

Definition BlockBody_fields : list Field := [
  mkField 1 id_codec; mkField 2 (list_codec (size_of SzEntityId) id_codec);
  mkField 3 (list_codec (size_of SzEntityId) id_codec); mkField 4 Terminator_codec; mkField 5 Reachability_codec].
Definition BlockBody_codec : MutationValueCodec BlockBody :=
  record_codec BlockBody_fields
    (fun '(function, (parameters, (operations, (terminator, (reachability, tt))))) =>
       mkBlockBody function parameters operations terminator reachability)
    (fun x => (bb_function x, (bb_parameters x, (bb_operations x, (bb_terminator x, (bb_reachability x, tt)))))).

Definition OperationBody_fields : list Field := [
  mkField 1 id_codec; mkField 2 u32_codec; mkField 3 u32_codec;
  mkField 4 (list_codec (size_of SzValueRef) ValueRef_codec); mkField 5 (types_codec TypeExpr_codec);
  mkField 6 Immediate_codec].
Definition OperationBody_codec : MutationValueCodec OperationBody :=
  record_codec OperationBody_fields
    (fun '(block, (ordinal, (opcode, (operands, (result_types, (immediate, tt)))))) =>
       mkOperationBody block ordinal opcode operands result_types immediate)
    (fun x => (ob_block x, (ob_ordinal x, (ob_opcode x,
       (ob_operands x, (ob_result_types x, (ob_immediate x, tt))))))).

Definition ConstantBody_fields : list Field := [mkField 1 ConstValue_codec].
Definition ConstantBody_codec : MutationValueCodec ConstantBody :=
  record_codec ConstantBody_fields (fun '(value, tt) => mkConstantBody value)
    (fun x => (kb_value x, tt)).

Definition GlobalValueBody_fields : list Field := [
  mkField 1 TypeExpr_codec; mkField 2 id_codec; mkField 3 Visibility_codec].
Definition GlobalValueBody_codec : MutationValueCodec GlobalValueBody :=
  record_codec GlobalValueBody_fields
    (fun '(value_type, (initializer, (visibility, tt))) => mkGlobalValueBody value_type initializer visibility)
    (fun x => (gvb_value_type x, (gvb_initializer x, (gvb_visibility x, tt)))).

Definition EffectDefBody_fields : list Field := [
  mkField 1 EffectKind_codec; mkField 2 TypeExpr_codec; mkField 3 TypeExpr_codec; mkField 4 TypeExpr_codec;
  mkField 5 TypeExpr_codec; mkField 6 Visibility_codec].
Definition EffectDefBody_codec : MutationValueCodec EffectDefBody :=
  record_codec EffectDefBody_fields
    (fun '(effect_kind, (scope_type, (request_type, (response_type, (failure_type, (visibility, tt)))))) =>
       mkEffectDefBody effect_kind scope_type request_type response_type failure_type visibility)
    (fun x => (edb_effect_kind x, (edb_scope_type x, (edb_request_type x,
       (edb_response_type x, (edb_failure_type x, (edb_visibility x, tt))))))).

Definition CapabilityRequirementBody_fields : list Field := [
  mkField 1 id_codec; mkField 2 (values_codec ConstValue_codec); mkField 3 EntityIdSet_codec].
Definition CapabilityRequirementBody_codec : MutationValueCodec CapabilityRequirementBody :=
  record_codec CapabilityRequirementBody_fields
    (fun '(effect, (allowed_scopes, (constraint_contracts, tt))) =>
       mkCapabilityRequirementBody effect allowed_scopes constraint_contracts)
    (fun x => (crb_effect x, (crb_allowed_scopes x, (crb_constraint_contracts x, tt)))).

(** [ContractBody]: the limits are a field that may be missing, and the tags are
    read as they come. *)
Definition ContractBody_fields : list Field := [
  mkField 1 id_codec; mkField 2 ContractKind_codec; mkField 3 id_codec;
  mkField 4 (list_codec (size_of SzContractBinding) ContractBinding_codec); mkField 5 ResourceLimits_codec].

Definition encode_ContractBody (v : ContractBody) (depth : N) : enc_result bytes :=
  _ ← check_container_depth depth;
  target ← encode_at_depth id_codec (ctb_target v) (depth + 1);
  contract_kind ← encode_at_depth ContractKind_codec (ctb_contract_kind v) (depth + 1);
  predicate ← encode_at_depth id_codec (ctb_predicate v) (depth + 1);
  bindings ← encode_at_depth (list_codec (size_of SzContractBinding) ContractBinding_codec) (ctb_bindings v) (depth + 1);
  let fields := [(1, target); (2, contract_kind); (3, predicate); (4, bindings)]%N in
  fields ← match ctb_resource_limits v with
           | Some resource_limits =>
               encoded ← encode_at_depth ResourceLimits_codec resource_limits (depth + 1);
               Ok (fields ++ [(5%N, encoded)])
           | None => Ok fields
           end;
  map_err Fails (encode_record fields).

Definition decode_ContractBody (depth : N) : DM ContractBody :=
  _ ← lift (check_container_depth depth);
  count ← cursor_read read_record_field_count;
  if ((4 <=? count) && (count <=? 5))%N then
    '(_, (target, (contract_kind, (predicate, (bindings, (resource_limits, tt)))))) ←
      repeat_decode (tagged_field (assign ContractBody_fields (depth + 1))) (N.to_nat count) (None, unset ContractBody_fields);
    target ← lift (ok_or (Fails ScbFieldMissing) target);
    contract_kind ← lift (ok_or (Fails ScbFieldMissing) contract_kind);
    predicate ← lift (ok_or (Fails ScbFieldMissing) predicate);
    bindings ← lift (ok_or (Fails ScbFieldMissing) bindings);
    mret (mkContractBody target contract_kind predicate bindings resource_limits)
  else fail (if (count <? 4)%N then ScbFieldMissing else ScbFieldUnknown).

Definition ContractBody_codec : MutationValueCodec ContractBody := mkCodec encode_ContractBody decode_ContractBody.

Definition TestCaseBody_fields : list Field := [
  mkField 1 id_codec; mkField 2 (values_codec ConstValue_codec); mkField 3 EffectEnvironment_codec;
  mkField 4 ExpectedOutcome_codec; mkField 5 (list_codec (size_of SzExpectedObservation) ExpectedObservation_codec);
  mkField 6 ResourceLimits_codec].
Definition TestCaseBody_codec : MutationValueCodec TestCaseBody :=
  record_codec TestCaseBody_fields
    (fun '(target, (inputs, (effect_environment, (expected, (observations, (resource_limits, tt)))))) =>
       mkTestCaseBody target inputs effect_environment expected observations resource_limits)
    (fun x => (tcb_target x, (tcb_inputs x, (tcb_effect_environment x,
       (tcb_expected x, (tcb_observations x, (tcb_resource_limits x, tt))))))).

Definition AdapterImportBody_fields : list Field := [
  mkField 1 array32_codec; mkField 2 u32_codec; mkField 3 TypeExpr_codec; mkField 4 TypeExpr_codec;
  mkField 5 TypeExpr_codec; mkField 6 EntityIdSet_codec].
Definition AdapterImportBody_codec : MutationValueCodec AdapterImportBody :=
  record_codec AdapterImportBody_fields
    (fun '(adapter_id, (abi_version, (request_type, (response_type, (failure_type, (effects, tt)))))) =>
       mkAdapterImportBody adapter_id abi_version request_type response_type failure_type effects)
    (fun x => (aib_adapter_id x, (aib_abi_version x, (aib_request_type x,
       (aib_response_type x, (aib_failure_type x, (aib_effects x, tt))))))).

Definition EntryPointBody_fields : list Field := [mkField 1 id_codec; mkField 2 EntryExposure_codec].
Definition EntryPointBody_codec : MutationValueCodec EntryPointBody :=
  record_codec EntryPointBody_fields (fun '(function, (exposure, tt)) => mkEntryPointBody function exposure)
    (fun x => (epb_function x, (epb_exposure x, tt))).

Definition PolicyBindingBody_fields : list Field := [mkField 1 id_codec; mkField 2 EntityIdSet_codec].
Definition PolicyBindingBody_codec : MutationValueCodec PolicyBindingBody :=
  record_codec PolicyBindingBody_fields
    (fun '(subject, (requirements, tt)) => mkPolicyBindingBody subject requirements)
    (fun x => (pbb_subject x, (pbb_requirements x, tt))).

Definition DependencyBindingBody_fields : list Field := [
  mkField 1 array32_codec; mkField 2 id_codec; mkField 3 id_codec].
Definition DependencyBindingBody_codec : MutationValueCodec DependencyBindingBody :=
  record_codec DependencyBindingBody_fields
    (fun '(dependency_root, (external_package, (local_namespace, tt))) =>
       mkDependencyBindingBody dependency_root external_package local_namespace)
    (fun x => (dbb_dependency_root x, (dbb_external_package x, (dbb_local_namespace x, tt)))).

Definition EntityBodyValue_arms : list (Arm EntityBodyValue) := [
  DataArm 1 WorkspaceBody_codec BWorkspace (fun x => if x is BWorkspace y then Some y else None);
  DataArm 2 PackageBody_codec BPackage (fun x => if x is BPackage y then Some y else None);
  DataArm 3 NamespaceBody_codec BNamespace (fun x => if x is BNamespace y then Some y else None);
  DataArm 4 TypeDefBody_codec BTypeDef (fun x => if x is BTypeDef y then Some y else None);
  DataArm 5 FunctionBody_codec BFunction (fun x => if x is BFunction y then Some y else None);
  DataArm 6 ParameterBody_codec BParameter (fun x => if x is BParameter y then Some y else None);
  DataArm 7 BlockBody_codec BBlock (fun x => if x is BBlock y then Some y else None);
  DataArm 8 OperationBody_codec BOperation (fun x => if x is BOperation y then Some y else None);
  DataArm 9 ConstantBody_codec BConstant (fun x => if x is BConstant y then Some y else None);
  DataArm 10 GlobalValueBody_codec BGlobalValue (fun x => if x is BGlobalValue y then Some y else None);
  DataArm 11 EffectDefBody_codec BEffectDef (fun x => if x is BEffectDef y then Some y else None);
  DataArm 12 CapabilityRequirementBody_codec BCapabilityRequirement (fun x => if x is BCapabilityRequirement y then Some y else None);
  DataArm 13 ContractBody_codec BContract (fun x => if x is BContract y then Some y else None);
  DataArm 14 TestCaseBody_codec BTestCase (fun x => if x is BTestCase y then Some y else None);
  DataArm 15 AdapterImportBody_codec BAdapterImport (fun x => if x is BAdapterImport y then Some y else None);
  DataArm 16 EntryPointBody_codec BEntryPoint (fun x => if x is BEntryPoint y then Some y else None);
  DataArm 17 PolicyBindingBody_codec BPolicyBinding (fun x => if x is BPolicyBinding y then Some y else None);
  DataArm 18 DependencyBindingBody_codec BDependencyBinding (fun x => if x is BDependencyBinding y then Some y else None)
].
Definition EntityBodyValue_codec : MutationValueCodec EntityBodyValue := union_codec kind_tag EntityBodyValue_arms.
End layout.

#[global] Typeclasses Opaque
  Visibility_codec ParameterRole_codec Reachability_codec ContractKind_codec EntryExposure_codec 
  BuiltinCase_codec TrapCode_codec EffectKind_codec OperationResultRef_codec VariantImmediate_codec 
  TargetEdge_codec SwitchEdge_codec SwitchCase_codec ReturnTerminator_codec BranchTerminator_codec 
  CondBranchTerminator_codec VariantSwitchTerminator_codec TrapTerminator_codec TypeParameterDef_codec 
  RecordField_codec VariantCase_codec ContractBinding_codec ResourceLimits_codec ReplayBinding_codec 
  AdapterConfig_codec ExpectedObservation_codec ValueRef_codec Immediate_codec CaseKey_codec 
  SwitchArgument_codec Terminator_codec TypeDefForm_codec ContractSource_codec EffectEnvironment_codec 
  ExpectedOutcome_codec WorkspaceBody_codec PackageBody_codec NamespaceBody_codec TypeDefBody_codec 
  FunctionBody_codec ParameterBody_codec BlockBody_codec OperationBody_codec ConstantBody_codec 
  GlobalValueBody_codec EffectDefBody_codec CapabilityRequirementBody_codec ContractBody_codec 
  TestCaseBody_codec AdapterImportBody_codec EntryPointBody_codec PolicyBindingBody_codec 
  DependencyBindingBody_codec EntityBodyValue_codec.
