(* ===== verification/MutValueLaws.v ===== *)
(** * The values a mutation proposes: laws

    Every codec of [MutValue] reads exactly what it writes: the instances derive
    it from the parts, and [ContractBody], whose last field may be missing, is
    done by hand. *)

From S2P Require Import Prelude State Bytes Scb1Core Scb1Cursor Scb1Schema Records Ssmc ConstEncoding ConstWire MutCodec MutCodecLaws MutConst MutConstLaws MutValue.
Set Warnings "-register-all".

Ltac enum_tags from_tag :=
  split; [by intros []|intros t v; unfold from_tag; split; [by repeat case_match; intros [= <-]|by intros ->; destruct v]].
Ltac record_laws :=
  apply record_lawful; [fields_lawful|reflexivity|by vm_compute|intros vs; cbn in vs; split_pairs; reflexivity|by intros []].
Ltac union_laws := apply union_lawful; [arms_lawful|by intros []].

(** ** Enums *)

#[export] Instance Visibility_tags : EnumTags Visibility_tag Visibility_from_tag.
Proof. enum_tags Visibility_from_tag. Qed.
#[export] Instance Visibility_spec : CodecSpec Visibility_codec := simple_enum_spec Visibility_tag Visibility_from_tag.
#[export] Instance Visibility_lawful depth : LawfulAt Visibility_codec depth.
Proof. apply simple_enum_lawful, _. Qed.

#[export] Instance ParameterRole_tags : EnumTags ParameterRole_tag ParameterRole_from_tag.
Proof. enum_tags ParameterRole_from_tag. Qed.
#[export] Instance ParameterRole_spec : CodecSpec ParameterRole_codec := simple_enum_spec ParameterRole_tag ParameterRole_from_tag.
#[export] Instance ParameterRole_lawful depth : LawfulAt ParameterRole_codec depth.
Proof. apply simple_enum_lawful, _. Qed.

#[export] Instance Reachability_tags : EnumTags Reachability_tag Reachability_from_tag.
Proof. enum_tags Reachability_from_tag. Qed.
#[export] Instance Reachability_spec : CodecSpec Reachability_codec := simple_enum_spec Reachability_tag Reachability_from_tag.
#[export] Instance Reachability_lawful depth : LawfulAt Reachability_codec depth.
Proof. apply simple_enum_lawful, _. Qed.

#[export] Instance ContractKind_tags : EnumTags ContractKind_tag ContractKind_from_tag.
Proof. enum_tags ContractKind_from_tag. Qed.
#[export] Instance ContractKind_spec : CodecSpec ContractKind_codec := simple_enum_spec ContractKind_tag ContractKind_from_tag.
#[export] Instance ContractKind_lawful depth : LawfulAt ContractKind_codec depth.
Proof. apply simple_enum_lawful, _. Qed.

#[export] Instance EntryExposure_tags : EnumTags EntryExposure_tag EntryExposure_from_tag.
Proof. enum_tags EntryExposure_from_tag. Qed.
#[export] Instance EntryExposure_spec : CodecSpec EntryExposure_codec := simple_enum_spec EntryExposure_tag EntryExposure_from_tag.
#[export] Instance EntryExposure_lawful depth : LawfulAt EntryExposure_codec depth.
Proof. apply simple_enum_lawful, _. Qed.

#[export] Instance BuiltinCase_tags : EnumTags BuiltinCase_tag BuiltinCase_from_tag.
Proof. enum_tags BuiltinCase_from_tag. Qed.
#[export] Instance BuiltinCase_spec : CodecSpec BuiltinCase_codec := simple_enum_spec BuiltinCase_tag BuiltinCase_from_tag.
#[export] Instance BuiltinCase_lawful depth : LawfulAt BuiltinCase_codec depth.
Proof. apply simple_enum_lawful, _. Qed.

#[export] Instance TrapCode_tags : EnumTags TrapCode_tag TrapCode_from_tag.
Proof. enum_tags TrapCode_from_tag. Qed.
#[export] Instance TrapCode_spec : CodecSpec TrapCode_codec := simple_enum_spec TrapCode_tag TrapCode_from_tag.
#[export] Instance TrapCode_lawful depth : LawfulAt TrapCode_codec depth.
Proof. apply simple_enum_lawful, _. Qed.

#[export] Instance EffectKind_tags : EnumTags EffectKind_tag EffectKind_from_tag.
Proof. enum_tags EffectKind_from_tag. Qed.
#[export] Instance EffectKind_spec : CodecSpec EffectKind_codec := simple_enum_spec EffectKind_tag EffectKind_from_tag.
#[export] Instance EffectKind_lawful depth : LawfulAt EffectKind_codec depth.
Proof. apply simple_enum_lawful, _. Qed.

Section layout.
Context `{RustLayout}.

(** The constants of [MutConst], at every depth *)
#[export] Instance ConstValues_lawful depth : LawfulAt (values_codec ConstValue_codec) depth.
Proof. apply (values_lawful _ 0); [intros d _; apply ConstValue_lawful|apply N.le_0_l]. Qed.
#[export] Instance ConstResult_lawful depth : LawfulAt (ResultConst_codec ConstValue_codec) depth.
Proof. apply (ResultConst_lawful _ 0); [intros d _; apply ConstValue_lawful|apply N.le_0_l]. Qed.

(** ** Values, operations, terminators *)

#[export] Instance OperationResultRef_spec : CodecSpec OperationResultRef_codec := record_spec OperationResultRef_fields _ _.
#[export] Instance OperationResultRef_lawful depth : LawfulAt OperationResultRef_codec depth.
Proof. record_laws. Qed.
#[export] Instance ValueRef_spec : CodecSpec ValueRef_codec := union_spec ValueRef_tag ValueRef_arms.
#[export] Instance ValueRef_lawful depth : LawfulAt ValueRef_codec depth.
Proof. union_laws. Qed.
#[export] Instance VariantImmediate_spec : CodecSpec VariantImmediate_codec := record_spec VariantImmediate_fields _ _.
#[export] Instance VariantImmediate_lawful depth : LawfulAt VariantImmediate_codec depth.
Proof. record_laws. Qed.
#[export] Instance Immediate_spec : CodecSpec Immediate_codec := union_spec Immediate_tag Immediate_arms.
#[export] Instance Immediate_lawful depth : LawfulAt Immediate_codec depth.
Proof. union_laws. Qed.
#[export] Instance TargetEdge_spec : CodecSpec TargetEdge_codec := record_spec TargetEdge_fields _ _.
#[export] Instance TargetEdge_lawful depth : LawfulAt TargetEdge_codec depth.
Proof. record_laws. Qed.
#[export] Instance CaseKey_spec : CodecSpec CaseKey_codec := union_spec CaseKey_tag CaseKey_arms.
#[export] Instance CaseKey_lawful depth : LawfulAt CaseKey_codec depth.
Proof. union_laws. Qed.
#[export] Instance SwitchArgument_spec : CodecSpec SwitchArgument_codec := union_spec SwitchArgument_tag SwitchArgument_arms.
#[export] Instance SwitchArgument_lawful depth : LawfulAt SwitchArgument_codec depth.
Proof. union_laws. Qed.
#[export] Instance SwitchEdge_spec : CodecSpec SwitchEdge_codec := record_spec SwitchEdge_fields _ _.
#[export] Instance SwitchEdge_lawful depth : LawfulAt SwitchEdge_codec depth.
Proof. record_laws. Qed.
#[export] Instance SwitchCase_spec : CodecSpec SwitchCase_codec := record_spec SwitchCase_fields _ _.
#[export] Instance SwitchCase_lawful depth : LawfulAt SwitchCase_codec depth.
Proof. record_laws. Qed.
#[export] Instance ReturnTerminator_spec : CodecSpec ReturnTerminator_codec := record_spec ReturnTerminator_fields _ _.
#[export] Instance ReturnTerminator_lawful depth : LawfulAt ReturnTerminator_codec depth.
Proof. record_laws. Qed.
#[export] Instance BranchTerminator_spec : CodecSpec BranchTerminator_codec := record_spec BranchTerminator_fields _ _.
#[export] Instance BranchTerminator_lawful depth : LawfulAt BranchTerminator_codec depth.
Proof. record_laws. Qed.
#[export] Instance CondBranchTerminator_spec : CodecSpec CondBranchTerminator_codec := record_spec CondBranchTerminator_fields _ _.
#[export] Instance CondBranchTerminator_lawful depth : LawfulAt CondBranchTerminator_codec depth.
Proof. record_laws. Qed.
#[export] Instance VariantSwitchTerminator_spec : CodecSpec VariantSwitchTerminator_codec := record_spec VariantSwitchTerminator_fields _ _.
#[export] Instance VariantSwitchTerminator_lawful depth : LawfulAt VariantSwitchTerminator_codec depth.
Proof. record_laws. Qed.
#[export] Instance TrapTerminator_spec : CodecSpec TrapTerminator_codec := record_spec TrapTerminator_fields _ _.
#[export] Instance TrapTerminator_lawful depth : LawfulAt TrapTerminator_codec depth.
Proof. record_laws. Qed.
#[export] Instance Terminator_spec : CodecSpec Terminator_codec := union_spec Terminator_tag Terminator_arms.
#[export] Instance Terminator_lawful depth : LawfulAt Terminator_codec depth.
Proof. union_laws. Qed.

(** ** Type definitions, contracts, tests *)

#[export] Instance TypeParameterDef_spec : CodecSpec TypeParameterDef_codec := record_spec TypeParameterDef_fields _ _.
#[export] Instance TypeParameterDef_lawful depth : LawfulAt TypeParameterDef_codec depth.
Proof. record_laws. Qed.
#[export] Instance RecordField_spec : CodecSpec RecordField_codec := record_spec RecordField_fields _ _.
#[export] Instance RecordField_lawful depth : LawfulAt RecordField_codec depth.
Proof. record_laws. Qed.
#[export] Instance VariantCase_spec : CodecSpec VariantCase_codec := record_spec VariantCase_fields _ _.
#[export] Instance VariantCase_lawful depth : LawfulAt VariantCase_codec depth.
Proof. record_laws. Qed.
#[export] Instance TypeDefForm_spec : CodecSpec TypeDefForm_codec := union_spec TypeDefForm_tag TypeDefForm_arms.
#[export] Instance TypeDefForm_lawful depth : LawfulAt TypeDefForm_codec depth.
Proof. union_laws. Qed.
#[export] Instance ContractSource_spec : CodecSpec ContractSource_codec := union_spec ContractSource_tag ContractSource_arms.
#[export] Instance ContractSource_lawful depth : LawfulAt ContractSource_codec depth.
Proof. union_laws. Qed.
#[export] Instance ContractBinding_spec : CodecSpec ContractBinding_codec := record_spec ContractBinding_fields _ _.
#[export] Instance ContractBinding_lawful depth : LawfulAt ContractBinding_codec depth.
Proof. record_laws. Qed.
#[export] Instance ResourceLimits_spec : CodecSpec ResourceLimits_codec := record_spec ResourceLimits_fields _ _.
#[export] Instance ResourceLimits_lawful depth : LawfulAt ResourceLimits_codec depth.
Proof. record_laws. Qed.
#[export] Instance ReplayBinding_spec : CodecSpec ReplayBinding_codec := record_spec ReplayBinding_fields _ _.
#[export] Instance ReplayBinding_lawful depth : LawfulAt ReplayBinding_codec depth.
Proof. record_laws. Qed.
#[export] Instance AdapterConfig_spec : CodecSpec AdapterConfig_codec := record_spec AdapterConfig_fields _ _.
#[export] Instance AdapterConfig_lawful depth : LawfulAt AdapterConfig_codec depth.
Proof. record_laws. Qed.
#[export] Instance EffectEnvironment_spec : CodecSpec EffectEnvironment_codec := union_spec EffectEnvironment_tag EffectEnvironment_arms.
#[export] Instance EffectEnvironment_lawful depth : LawfulAt EffectEnvironment_codec depth.
Proof. union_laws. Qed.
#[export] Instance ExpectedOutcome_spec : CodecSpec ExpectedOutcome_codec := union_spec ExpectedOutcome_tag ExpectedOutcome_arms.
#[export] Instance ExpectedOutcome_lawful depth : LawfulAt ExpectedOutcome_codec depth.
Proof. union_laws. Qed.
#[export] Instance ExpectedObservation_spec : CodecSpec ExpectedObservation_codec := record_spec ExpectedObservation_fields _ _.
#[export] Instance ExpectedObservation_lawful depth : LawfulAt ExpectedObservation_codec depth.
Proof. record_laws. Qed.

(** ** Bodies *)

#[export] Instance WorkspaceBody_spec : CodecSpec WorkspaceBody_codec := record_spec WorkspaceBody_fields _ _.
#[export] Instance WorkspaceBody_lawful depth : LawfulAt WorkspaceBody_codec depth.
Proof. record_laws. Qed.
#[export] Instance PackageBody_spec : CodecSpec PackageBody_codec := record_spec PackageBody_fields _ _.
#[export] Instance PackageBody_lawful depth : LawfulAt PackageBody_codec depth.
Proof. record_laws. Qed.
#[export] Instance NamespaceBody_spec : CodecSpec NamespaceBody_codec := record_spec NamespaceBody_fields _ _.
#[export] Instance NamespaceBody_lawful depth : LawfulAt NamespaceBody_codec depth.
Proof. record_laws. Qed.
#[export] Instance TypeDefBody_spec : CodecSpec TypeDefBody_codec := record_spec TypeDefBody_fields _ _.
#[export] Instance TypeDefBody_lawful depth : LawfulAt TypeDefBody_codec depth.
Proof. record_laws. Qed.
#[export] Instance FunctionBody_spec : CodecSpec FunctionBody_codec := record_spec FunctionBody_fields _ _.
#[export] Instance FunctionBody_lawful depth : LawfulAt FunctionBody_codec depth.
Proof. record_laws. Qed.
#[export] Instance ParameterBody_spec : CodecSpec ParameterBody_codec := record_spec ParameterBody_fields _ _.
#[export] Instance ParameterBody_lawful depth : LawfulAt ParameterBody_codec depth.
Proof. record_laws. Qed.
#[export] Instance BlockBody_spec : CodecSpec BlockBody_codec := record_spec BlockBody_fields _ _.
#[export] Instance BlockBody_lawful depth : LawfulAt BlockBody_codec depth.
Proof. record_laws. Qed.
#[export] Instance OperationBody_spec : CodecSpec OperationBody_codec := record_spec OperationBody_fields _ _.
#[export] Instance OperationBody_lawful depth : LawfulAt OperationBody_codec depth.
Proof. record_laws. Qed.
#[export] Instance ConstantBody_spec : CodecSpec ConstantBody_codec := record_spec ConstantBody_fields _ _.
#[export] Instance ConstantBody_lawful depth : LawfulAt ConstantBody_codec depth.
Proof. record_laws. Qed.
#[export] Instance GlobalValueBody_spec : CodecSpec GlobalValueBody_codec := record_spec GlobalValueBody_fields _ _.
#[export] Instance GlobalValueBody_lawful depth : LawfulAt GlobalValueBody_codec depth.
Proof. record_laws. Qed.
#[export] Instance EffectDefBody_spec : CodecSpec EffectDefBody_codec := record_spec EffectDefBody_fields _ _.
#[export] Instance EffectDefBody_lawful depth : LawfulAt EffectDefBody_codec depth.
Proof. record_laws. Qed.
#[export] Instance CapabilityRequirementBody_spec : CodecSpec CapabilityRequirementBody_codec := record_spec CapabilityRequirementBody_fields _ _.
#[export] Instance CapabilityRequirementBody_lawful depth : LawfulAt CapabilityRequirementBody_codec depth.
Proof. record_laws. Qed.
#[export] Instance TestCaseBody_spec : CodecSpec TestCaseBody_codec := record_spec TestCaseBody_fields _ _.
#[export] Instance TestCaseBody_lawful depth : LawfulAt TestCaseBody_codec depth.
Proof. record_laws. Qed.
#[export] Instance AdapterImportBody_spec : CodecSpec AdapterImportBody_codec := record_spec AdapterImportBody_fields _ _.
#[export] Instance AdapterImportBody_lawful depth : LawfulAt AdapterImportBody_codec depth.
Proof. record_laws. Qed.
#[export] Instance EntryPointBody_spec : CodecSpec EntryPointBody_codec := record_spec EntryPointBody_fields _ _.
#[export] Instance EntryPointBody_lawful depth : LawfulAt EntryPointBody_codec depth.
Proof. record_laws. Qed.
#[export] Instance PolicyBindingBody_spec : CodecSpec PolicyBindingBody_codec := record_spec PolicyBindingBody_fields _ _.
#[export] Instance PolicyBindingBody_lawful depth : LawfulAt PolicyBindingBody_codec depth.
Proof. record_laws. Qed.
#[export] Instance DependencyBindingBody_spec : CodecSpec DependencyBindingBody_codec := record_spec DependencyBindingBody_fields _ _.
#[export] Instance DependencyBindingBody_lawful depth : LawfulAt DependencyBindingBody_codec depth.
Proof. record_laws. Qed.

(** ** Contracts *)

(** The fields of a contract that are always there *)
Definition ContractBody_required : list Field :=
  [mkField 1 id_codec; mkField 2 ContractKind_codec; mkField 3 id_codec;
   mkField 4 (list_codec (size_of SzContractBinding) ContractBinding_codec)].

Definition contract_required (v : ContractBody) : values ContractBody_required :=
  (ctb_target v, (ctb_contract_kind v, (ctb_predicate v, (ctb_bindings v, tt)))).
Definition contract_all (v : ContractBody) (r : ResourceLimits) : values ContractBody_fields :=
  (ctb_target v, (ctb_contract_kind v, (ctb_predicate v, (ctb_bindings v, (r, tt))))).

#[export] Instance ContractBody_spec : CodecSpec ContractBody_codec :=
  mkSpec (fun v => match ctb_resource_limits v with
                   | Some r => fields_repr ContractBody_fields (contract_all v r)
                   | None => fields_repr ContractBody_required (contract_required v)
                   end)
    (fun v => WRecord match ctb_resource_limits v with
                      | Some r => fields_trees ContractBody_fields (contract_all v r)
                      | None => fields_trees ContractBody_required (contract_required v)
                      end)
    (fun v => match ctb_resource_limits v with
              | Some r => fields_cost ContractBody_fields (contract_all v r)
              | None => fields_cost ContractBody_required (contract_required v)
              end).

#[export] Instance contract_all_lawful d : FieldsLawful ContractBody_fields d.
Proof. fields_lawful. Qed.
#[export] Instance contract_required_lawful d : FieldsLawful ContractBody_required d.
Proof. fields_lawful. Qed.

Lemma encode_contract_fields v depth b :
  encode_ContractBody v depth = Ok b <->
  (depth < MAX_NESTING_DEPTH)%N /\ exists encoded, encode_record encoded = Ok b /\
    match ctb_resource_limits v with
    | Some r => encode_fields ContractBody_fields (depth + 1) (contract_all v r)
    | None => encode_fields ContractBody_required (depth + 1) (contract_required v)
    end = Ok encoded.
Proof.
  assert (encode_ContractBody v depth = (_ ← check_container_depth depth;
    encoded ← match ctb_resource_limits v with
              | Some r => encode_fields ContractBody_fields (depth + 1) (contract_all v r)
              | None => encode_fields ContractBody_required (depth + 1) (contract_required v)
              end; map_err Fails (encode_record encoded))) as ->.
  { unfold encode_ContractBody, contract_all, contract_required. destruct v as [target kind predicate bindings [r|]]; cbn;
      destruct (check_container_depth depth); cbn; try done; repeat (destruct (encode_at_depth _ _ _); cbn; try done). }
  rewrite bind_Ok. setoid_rewrite check_container_depth_Ok. split.
  - intros (_ & Hd & (e & He & Hb%map_err_iff)%bind_Ok). split; [done|]. by exists e.
  - intros (Hd & e & Hb & He). exists tt. split; [done|]. apply bind_Ok. exists e. by rewrite map_err_iff.
Qed.

(** *** The tags of a contract *)

(** Whether the variable of a tag is set *)
Definition contract_var (i : N) (xs : variables ContractBody_fields) : bool :=
  let '(x1, (x2, (x3, (x4, (x5, _))))) := xs in
  match i with
  | 1 => bool_decide (is_Some x1)
  | 2 => bool_decide (is_Some x2)
  | 3 => bool_decide (is_Some x3)
  | 4 => bool_decide (is_Some x4)
  | _ => bool_decide (is_Some x5)
  end%N.

Lemma contract_set depth t p xs xs' n : assign_rel ContractBody_fields depth t p xs xs' n ->
  t ∈ [1; 2; 3; 4; 5]%N /\ forall i, i ∈ [1; 2; 3; 4; 5]%N -> contract_var i xs' = (i =? t)%N || contract_var i xs.
Proof.
  intros Hr. assert (t ∈ [1; 2; 3; 4; 5]%N) as Ht.
  { destruct xs as (x1 & x2 & x3 & x4 & x5 & []), xs' as (y1 & y2 & y3 & y4 & y5 & []). cbn in Hr. rewrite !elem_of_cons, elem_of_nil.
    repeat (case_match; [lia|]). by destruct Hr as (_ & _ & _ & _ & _ & []). }
  split; [done|]. intros i Hi. rewrite !elem_of_cons, elem_of_nil in Ht, Hi.
  destruct xs as (x1 & x2 & x3 & x4 & x5 & []), xs' as (y1 & y2 & y3 & y4 & y5 & []).
  destruct Ht as [->|[->|[->|[->|[->|[]]]]]]; cbn in Hr; destruct Hi as [->|[->|[->|[->|[->|[]]]]]]; cbn; naive_solver.
Qed.

Lemma contract_tags_shape depth tags xs n bs :
  ascending_tags None tags ->
  fields_rel (assign_rel ContractBody_fields depth) tags (unset ContractBody_fields) xs n bs ->
  (forall i, (1 <= i <= 4)%N -> contract_var i xs = true) -> tags = [1; 2; 3; 4]%N \/ tags = [1; 2; 3; 4; 5]%N.
Proof.
  intros Ha Hr Hv. assert (tags = filter (fun i => contract_var i xs = true) [1; 2; 3; 4; 5]%N) as ->.
  { eapply tags_exact; [apply contract_set|exact Ha|exact Hr|by repeat constructor|].
    intros i Hi. rewrite !elem_of_cons, elem_of_nil in Hi. by destruct Hi as [->|[->|[->|[->|[->|[]]]]]]. }
  rewrite !filter_cons, filter_nil, !(Hv _) by lia. destruct (contract_var 5 xs); [by right|by left].
Qed.

(** The variables of a contract without limits *)
Definition contract_vars (x : variables ContractBody_required) : variables ContractBody_fields :=
  let '(x1, (x2, (x3, (x4, _)))) := x in (x1, (x2, (x3, (x4, (None, tt))))).

Lemma contract_assign_required depth t p ys xs' n : (t <= 4)%N ->
  assign_rel ContractBody_fields depth t p (contract_vars ys) xs' n <->
  exists ys', xs' = contract_vars ys' /\ assign_rel ContractBody_required depth t p ys ys' n.
Proof.
  intros Ht. destruct ys as (y1 & y2 & y3 & y4 & []), xs' as (x1 & x2 & x3 & x4 & x5 & []). split.
  - intros Hr. exists (x1, (x2, (x3, (x4, tt)))). cbn in Hr |- *. repeat case_match; try lia; naive_solver.
  - intros ((z1 & z2 & z3 & z4 & []) & [= -> -> -> -> ->] & Hr). cbn in Hr |- *. repeat case_match; try lia; naive_solver.
Qed.

Lemma contract_rel_required depth tags ys xs' n bs : Forall (fun t => t <= 4)%N tags ->
  fields_rel (assign_rel ContractBody_fields depth) tags (contract_vars ys) xs' n bs <->
  exists ys', xs' = contract_vars ys' /\ fields_rel (assign_rel ContractBody_required depth) tags ys ys' n bs.
Proof.
  intros Ht. revert ys n bs. induction Ht as [|t tags Ht Hts IH]; intros ys n bs; cbn [fields_rel].
  - split; [intros (-> & ? & ?); by exists ys|intros (ys' & -> & -> & ?); done].
  - split.
    + intros (p & s1 & n1 & n2 & b2 & Hp & (ys1 & -> & H1)%contract_assign_required & (ys' & -> & H2)%IH & -> & ->); [|done].
      exists ys'. split; [done|]. by exists p, ys1, n1, n2, b2.
    + intros (ys' & -> & p & ys1 & n1 & n2 & b2 & Hp & H1 & H2 & -> & ->). exists p, (contract_vars ys1), n1, n2, b2.
      split_and!; try done; [apply contract_assign_required; [done|by exists ys1]|apply IH; by exists ys'].
Qed.

(** What the variables of a contract make *)
Definition contract_of (xs : variables ContractBody_fields) : enc_result ContractBody :=
  match xs with
  | (Some target, (Some contract_kind, (Some predicate, (Some bindings, (resource_limits, _))))) =>
      Ok (mkContractBody target contract_kind predicate bindings resource_limits)
  | _ => fails ScbFieldMissing
  end.

Lemma contract_of_vars ys v : contract_of (contract_vars ys) = Ok v <->
  ctb_resource_limits v = None /\ assigned ContractBody_required ys = Ok (contract_required v).
Proof.
  destruct ys as ([y1|] & [y2|] & [y3|] & [y4|] & []); cbn; try naive_solver. destruct v. cbn. unfold contract_required. cbn. split.
  - by intros [= -> -> -> -> <-].
  - by intros (-> & [= -> -> -> ->]).
Qed.

Lemma contract_of_set xs v : contract_of xs = Ok v -> forall i, (1 <= i <= 4)%N -> contract_var i xs = true.
Proof.
  destruct xs as ([y1|] & [y2|] & [y3|] & [y4|] & y5 & []); cbn; try done. intros _ i Hi.
  assert (i = 1 \/ i = 2 \/ i = 3 \/ i = 4)%N as [->|[->|[->| ->]]] by lia; done.
Qed.

Lemma contract_of_all xs v : (exists vs, assigned ContractBody_fields xs = Ok vs) -> contract_of xs = Ok v <->
  exists r, ctb_resource_limits v = Some r /\ assigned ContractBody_fields xs = Ok (contract_all v r).
Proof.
  destruct xs as ([y1|] & [y2|] & [y3|] & [y4|] & [y5|] & []); intros [vs Hvs]; try done. clear vs Hvs. cbn. destruct v. unfold contract_all. cbn. split.
  - intros [= -> -> -> -> <-]. by exists y5.
  - by intros (r & -> & [= -> -> -> -> ->]).
Qed.

Lemma reads_contract depth :
  Reads (decode_ContractBody depth) (fun v n bs => (depth < MAX_NESTING_DEPTH)%N /\ exists tags xs b2,
    (4 <= length tags <= 5)%nat /\ ascending_tags None tags /\
    fields_rel (assign_rel ContractBody_fields (depth + 1)) tags (unset ContractBody_fields) xs n b2 /\
    contract_of xs = Ok v /\ bs = encode_uvar (len tags) ++ b2).
Proof.
  unfold decode_ContractBody.
  refine (reads_iff _ _ _ (reads_check _ _ _ (fun _ => reads_bind _ _ _ (fun c v n bs => (4 <= c <= 5)%N /\ exists tags xs,
      length tags = N.to_nat c /\ ascending_tags None tags /\
      fields_rel (assign_rel ContractBody_fields (depth + 1)) tags (unset ContractBody_fields) xs n bs /\ contract_of xs = Ok v)
    (reads_cursor _ _ (strict_read_len MAX_RECORD_FIELDS eq_refl)) _)) _).
  - intros c. destruct (N.leb_spec 4 c); [destruct (N.leb_spec c 5)|]; cbn [andb].
    + refine (reads_iff _ _ _ (reads_bind _ _ _ (fun st v n bs => contract_of st.2 = Ok v /\ n = 0%N /\ bs = [])
        (reads_tagged_loop (assign ContractBody_fields (depth + 1)) (assign_rel ContractBody_fields (depth + 1)) (fun t p xs => fields_assign t p xs) (N.to_nat c) (None, unset ContractBody_fields)) _) _).
      * intros [o xs]. match goal with |- Reads ?m _ => assert (m = lift (contract_of xs)) as -> end.
        { by destruct xs as ([x1|] & [x2|] & [x3|] & [x4|] & x5 & []). }
        apply reads_lift.
      * intros v n bs _. split.
        -- intros ([o xs] & n1 & n2 & b1 & b2 & (tags & Hl & Ha & Hr & _) & (Hv & -> & ->) & -> & ->). rewrite N.add_0_r, app_nil_r.
           split; [done|]. by exists tags, xs.
        -- intros (_ & tags & xs & Hl & Ha & Hr & Hv). exists (last_tag None tags, xs), n, 0%N, bs, [].
           rewrite N.add_0_r, app_nil_r. split_and!; try done. by exists tags.
    + refine (reads_iff _ _ _ (reads_fail _ _) _); [done|]. intros v n bs _. split; [done|]. intros [? _]. lia.
    + refine (reads_iff _ _ _ (reads_fail _ _) _); [done|]. intros v n bs _. split; [done|]. intros [? _]. lia.
  - intros v n bs _. setoid_rewrite check_container_depth_Ok. split.
    + intros (_ & Hd & c & n1 & n2 & b1 & b2 & (-> & _ & ->) & (Hc & tags & xs & Hl & Ha & Hr & Hv) & -> & ->). split; [done|].
      assert (c = len tags) as -> by (unfold len; lia). exists tags, xs, b2. split_and!; try done; unfold len in Hc; lia.
    + intros (Hd & tags & xs & b2 & Hl & Ha & Hr & Hv & ->). exists tt. split; [done|].
      exists (len tags), 0%N, n, (encode_uvar (len tags)), b2. split_and!; try done; try (unfold len; lia).
      * unfold len, MAX_RECORD_FIELDS. lia.
      * exists tags, xs. split_and!; try done. unfold len. lia.
Qed.

(** A record with all of some fields *)
Lemma record_wire fields `{!FieldSpecs fields} depth `{HF : !FieldsLawful fields (depth + 1)} vs bs :
  numbered_tags 1 (fd_tag <$> fields) = true -> small bs ->
  (depth < MAX_NESTING_DEPTH)%N /\ Forall (wire_ok true (depth + 1)) (fields_trees fields vs) /\
  bs = encode_uvar (len fields) ++ concat (field_enc <$> zip (fd_tag <$> fields) (wire_bytes <$> fields_trees fields vs)) <->
  wire_ok true depth (WRecord (fields_trees fields vs)) /\ bs = wire_bytes (WRecord (fields_trees fields vs)).
Proof.
  intros Hnum Hsm. rewrite <- (record_tree_bytes fields Hnum depth vs). cbn [wire_ok]. rewrite all_prop_Forall. split.
  - intros (Hd & Hw & ->). by split_and!.
  - intros ((_ & Hd & Hw) & ->). by split_and!.
Qed.

Lemma contract_required_decodes depth v n bs : ctb_resource_limits v = None -> small bs ->
  ((depth < MAX_NESTING_DEPTH)%N /\ exists xs b2,
    fields_rel (assign_rel ContractBody_fields (depth + 1)) [1; 2; 3; 4]%N (unset ContractBody_fields) xs n b2 /\
    contract_of xs = Ok v /\ bs = encode_uvar 4 ++ b2) <-> decodes ContractBody_codec depth v n bs.
Proof.
  intros Hr Hsm. unfold decodes. cbn [repr tree cost ContractBody_spec]. rewrite Hr.
  rewrite <- (record_wire ContractBody_required) by (apply contract_required_lawful || done). change (len ContractBody_required) with 4%N.
  change (unset ContractBody_fields) with (contract_vars (unset ContractBody_required)).
  setoid_rewrite contract_rel_required; [|by repeat constructor].
  setoid_rewrite (fields_decode (fields := ContractBody_required)); [|by apply (numbered_tags_NoDup 1)]. split.
  - intros (Hd & xs & b2 & (ys & -> & vs & Hvs & HR & Hw & -> & ->) & [_ Hv]%contract_of_vars & ->).
    rewrite Hvs in Hv. injection Hv as ->. by split_and!.
  - intros (HR & -> & Hd & Hw & ->). split; [done|].
    destruct (assigned_complete ContractBody_required (contract_required v)) as [ys Hys].
    eexists (contract_vars ys), _. split_and!; [exists ys; split; [done|]; exists (contract_required v); by split_and!|by apply contract_of_vars|done].
Qed.

Lemma contract_all_decodes depth v r n bs : ctb_resource_limits v = Some r -> small bs ->
  ((depth < MAX_NESTING_DEPTH)%N /\ exists xs b2,
    fields_rel (assign_rel ContractBody_fields (depth + 1)) [1; 2; 3; 4; 5]%N (unset ContractBody_fields) xs n b2 /\
    contract_of xs = Ok v /\ bs = encode_uvar 5 ++ b2) <-> decodes ContractBody_codec depth v n bs.
Proof.
  intros Hr Hsm. unfold decodes. cbn [repr tree cost ContractBody_spec]. rewrite Hr.
  rewrite <- (record_wire ContractBody_fields) by (apply contract_all_lawful || done). change (len ContractBody_fields) with 5%N.
  setoid_rewrite (fields_decode (fields := ContractBody_fields)); [|by apply (numbered_tags_NoDup 1)]. split.
  - intros (Hd & xs & b2 & (vs & Hvs & HR & Hw & -> & ->) & Hv & ->). apply contract_of_all in Hv as (r' & Hr' & Hv'); [|by eexists].
    rewrite Hr in Hr'. injection Hr' as <-. rewrite Hvs in Hv'. injection Hv' as ->. by split_and!.
  - intros (HR & -> & Hd & Hw & ->). split; [done|].
    destruct (assigned_complete ContractBody_fields (contract_all v r)) as [xs Hxs].
    eexists xs, _. split_and!; [exists (contract_all v r); by split_and!| |done]. apply contract_of_all; [by eexists|]. by exists r.
Qed.

(** The number of the fields says which of them are there. *)
Lemma contract_of_five depth xs n bs v :
  fields_rel (assign_rel ContractBody_fields depth) [1; 2; 3; 4; 5]%N (unset ContractBody_fields) xs n bs -> contract_of xs = Ok v ->
  exists r, ctb_resource_limits v = Some r.
Proof.
  intros (vs & Hvs & _)%(fields_decode (fields := ContractBody_fields)) Hv; [|by apply (numbered_tags_NoDup 1)].
  apply contract_of_all in Hv as (r & Hr & _); [|by eexists]. by exists r.
Qed.
Lemma contract_of_four depth xs n bs v :
  fields_rel (assign_rel ContractBody_fields depth) [1; 2; 3; 4]%N (unset ContractBody_fields) xs n bs -> contract_of xs = Ok v ->
  ctb_resource_limits v = None.
Proof.
  change (unset ContractBody_fields) with (contract_vars (unset ContractBody_required)).
  intros (ys & -> & _)%contract_rel_required [Hr _]%contract_of_vars; [done|by repeat constructor].
Qed.

#[export] Instance ContractBody_lawful depth : LawfulAt ContractBody_codec depth.
Proof.
  split.
  - intros v b HR. rewrite encode_at_depth_Ok. cbn [encode_value ContractBody_codec]. rewrite encode_contract_fields.
    cbn [tree ContractBody_spec wire_ok] in *. rewrite all_prop_Forall. cbn [repr ContractBody_spec] in HR.
    assert (forall fields (HS : FieldSpecs fields) (vs : values fields) (HL : FieldsLawful fields (depth + 1)),
      fields_repr fields vs -> numbered_tags 1 (fd_tag <$> fields) = true -> (len fields <= MAX_RECORD_FIELDS)%N ->
      (depth <= MAX_NESTING_DEPTH)%N /\ ((depth < MAX_NESTING_DEPTH)%N /\ exists encoded, encode_record encoded = Ok b /\
        encode_fields fields (depth + 1) vs = Ok encoded) /\ small b <->
      (small (wire_bytes (WRecord (fields_trees fields vs))) /\ (depth < MAX_NESTING_DEPTH)%N /\ Forall (wire_ok true (depth + 1)) (fields_trees fields vs)) /\
      b = wire_bytes (WRecord (fields_trees fields vs))) as Hgen.
    { intros fields HS vs HL HR' Hnum Hlen. pose proof (encode_fields_record fields depth vs b Hnum Hlen HR') as He. split.
      - intros (_ & (Hd & e & Hb & Hf) & Hs). destruct (proj1 He) as [Hw ->]; [by exists e|]. by split_and!.
      - intros ((Hs & Hd & Hw) & ->). destruct (proj2 He) as (e & Hf & Hb); [done|]. split_and!; try done; first [by apply N.lt_le_incl | by exists e]. }
    destruct (ctb_resource_limits v) as [r|];
      [apply (Hgen ContractBody_fields _ (contract_all v r) _)|apply (Hgen ContractBody_required _ (contract_required v) _)]; try done; by vm_compute.
  - intros _. refine (reads_iff _ _ _ (reads_contract depth) _). intros v n bs Hsm. split.
    + intros (Hd & tags & xs & b2 & Hl & Ha & Hr & Hv & ->).
      destruct (contract_tags_shape _ _ _ _ _ Ha Hr (contract_of_set _ _ Hv)) as [-> | ->].
      * apply contract_required_decodes; [by eapply contract_of_four|done|]. split; [done|]. by exists xs, b2.
      * destruct (contract_of_five _ _ _ _ _ Hr Hv) as [r Hlim]. apply (contract_all_decodes _ _ r); [done|done|]. split; [done|]. by exists xs, b2.
    + intros Hdec. destruct (ctb_resource_limits v) as [r|] eqn:Hlim.
      * apply (contract_all_decodes _ _ r) in Hdec as (Hd & xs & b2 & Hr & Hv & ->); [|done..]. split; [done|].
        exists [1; 2; 3; 4; 5]%N, xs, b2. split_and!; done || (cbn; lia).
      * apply contract_required_decodes in Hdec as (Hd & xs & b2 & Hr & Hv & ->); [|done..]. split; [done|].
        exists [1; 2; 3; 4]%N, xs, b2. split_and!; done || (cbn; lia).
Qed.

(** ** Entity bodies *)

#[export] Instance EntityBodyValue_spec : CodecSpec EntityBodyValue_codec := union_spec kind_tag EntityBodyValue_arms.
#[export] Instance EntityBodyValue_lawful depth : LawfulAt EntityBodyValue_codec depth.
Proof. union_laws. Qed.

(** C14: roundtrip. A byte string decodes to the body of an entity exactly when
    the body is made of values of its types, decoding it stays within the budget
    and the byte string is its encoding: the encoding of every kind of body is
    canonical, and nothing but it is read. *)
Theorem entity_body_exact input v :
  decode_exact EntityBodyValue_codec input = Ok v <->
  repr EntityBodyValue_codec v /\ (cost EntityBodyValue_codec v <= MAX_TOTAL_ALLOCATION)%N /\
  encode_exact EntityBodyValue_codec v = Ok input.
Proof. apply decode_exact_Ok, _. Qed.

(** The predicate parameter of a binding is a number: 300 is written in two bytes. *)
Example contract_binding_bytes :
  encode_exact ContractBinding_codec (mkContractBinding 300 CSResult) = Ok [x02; x01; x02; xac; x02; x02; x02; x02; x00].
Proof. vm_compute. reflexivity. Qed.
End layout.
