(* ===== verification/VmInt.v ===== *)
(** * The virtual machine: checked integers (crates/sley-vm/src/extended.rs)

    The kernel shared by the typed and the compact machine.  An [i128] is a [Z]
    and a [u128] an [N]; the operations of the language that can leave their
    range are written out: [checked_add] and its like give [None], [<<] drops
    the bits that leave the word.  The theorem says that the kernel computes the
    exact mathematical result or the failure code of the contract table, at every
    width. *)

From S2P Require Import Prelude Bytes Ssmc Repr.
Set Warnings "-register-all".

Open Scope Z_scope.

(** [struct ExtendedFault]: state impossible after successful lowering. *)
Inductive ExtendedFault : Type := Fault.
#[global] Instance ExtendedFault_eq_dec : EqDecision ExtendedFault.
Proof. solve_decision. Defined.

Abbreviation fault_result A := (result ExtendedFault A).

(** ** The arithmetic of [i128] and [u128] *)

Definition as_i128 (z : Z) : option Z := if is_i128 z then Some z else None.
Definition as_u128 (n : N) : option N := if is_u128 n then Some n else None.

(** [checked_add], [checked_sub], [checked_mul], [checked_div], [checked_rem],
    [checked_neg] of [i128] and [u128]. *)
Definition i128_add (a b : Z) : option Z := as_i128 (a + b).
Definition i128_sub (a b : Z) : option Z := as_i128 (a - b).
Definition i128_mul (a b : Z) : option Z := as_i128 (a * b).
Definition i128_div (a b : Z) : option Z := if b =? 0 then None else as_i128 (Z.quot a b).
Definition i128_rem (a b : Z) : option Z :=
  if (b =? 0) || ((a =? I128_MIN) && (b =? -1)) then None else as_i128 (Z.rem a b).
Definition i128_neg (a : Z) : option Z := as_i128 (- a).
Definition u128_add (a b : N) : option N := as_u128 (a + b).
Definition u128_sub (a b : N) : option N := if (a <? b)%N then None else Some (a - b)%N.
Definition u128_mul (a b : N) : option N := as_u128 (a * b).

(** [a << n] for [n < 128]: the bits past the word are dropped. *)
Definition i128_shl (a : Z) (n : N) : Z := (Z.shiftl a (Z.of_N n) + 2 ^ 127) mod 2 ^ 128 - 2 ^ 127.
Definition u128_shl (a n : N) : N := (N.shiftl a n mod 2 ^ 128)%N.
(** [a >> n] for [n < 128]: arithmetic on [i128]. *)
Definition i128_shr (a : Z) (n : N) : Z := Z.shiftr a (Z.of_N n).
Definition u128_shr (a n : N) : N := N.shiftr a n.

(** ** The kernel *)

Definition ARITHMETIC_OVERFLOW : N := 1.
Definition ARITHMETIC_DIVIDE_BY_ZERO : N := 2.
Definition ARITHMETIC_INVALID_SHIFT : N := 3.

Inductive Checked : Type :=
| CheckedValue (signed_value : Z) (unsigned_value : N)
| CheckedFailure (code : N).

Definition signed_bounds (bits : N) : Z * Z :=
  if (128 <=? bits)%N then (I128_MIN, I128_MAX)
  else let half := i128_shl 1 (bits - 1) in (- half, half - 1).

Definition unsigned_max (bits : N) : N :=
  if (128 <=? bits)%N then U128_MAX else (u128_shl 1 bits - 1)%N.

Definition fits (signed : bool) (bits : N) (signed_value : Z) (unsigned_value : N) : bool :=
  if signed then
    let '(low, high) := signed_bounds bits in (low <=? signed_value) && (signed_value <=? high)
  else (unsigned_value <=? unsigned_max bits)%N.

Section kernel.
Context (opcode : Opcode) (signed : bool) (bits : N).

(** The closure [read] *)
Definition read_operand (value : ConstData) : fault_result (Z * N) :=
  operand ← match value with
            | DSInt value => if signed then Ok (value, 0%N) else Err Fault
            | DUInt value => if signed then Err Fault else Ok (0, value)
            | _ => Err Fault
            end;
  if fits signed bits (fst operand) (snd operand) then Ok operand else Err Fault.

(** The closure [ranged] *)
Definition ranged (signed_value : option Z) (unsigned_value : option N) : Checked :=
  match signed, signed_value, unsigned_value with
  | true, Some value, _ =>
      if fits true bits value 0 then CheckedValue value 0 else CheckedFailure ARITHMETIC_OVERFLOW
  | false, _, Some value =>
      if fits false bits 0 value then CheckedValue 0 value else CheckedFailure ARITHMETIC_OVERFLOW
  | _, _, _ => CheckedFailure ARITHMETIC_OVERFLOW
  end.

(** The arm of [IntAddChecked], [IntSubChecked] and [IntMulChecked] *)
Definition checked_ring (left right : ConstData) : fault_result Checked :=
  '(ls, lu) ← read_operand left;
  '(rs, ru) ← read_operand right;
  let '(signed_value, unsigned_value) :=
    match opcode with
    | OpIntAddChecked => (i128_add ls rs, u128_add lu ru)
    | OpIntSubChecked => (i128_sub ls rs, u128_sub lu ru)
    | _ => (i128_mul ls rs, u128_mul lu ru)
    end in
  Ok (ranged signed_value unsigned_value).

(** The arm of [IntDivChecked] and [IntRemChecked] *)
Definition checked_quotient (left right : ConstData) : fault_result Checked :=
  '(ls, lu) ← read_operand left;
  '(rs, ru) ← read_operand right;
  if (signed && (rs =? 0)) || (negb signed && (ru =? 0)%N) then
    Ok (CheckedFailure ARITHMETIC_DIVIDE_BY_ZERO)
  else if signed && (rs =? -1) && (ls =? fst (signed_bounds bits)) then
    Ok (CheckedFailure ARITHMETIC_OVERFLOW)
  else if signed then
    Ok (ranged (if bool_decide (opcode = OpIntDivChecked) then i128_div ls rs else i128_rem ls rs) None)
  else
    Ok (ranged None (Some (if bool_decide (opcode = OpIntDivChecked) then lu / ru else lu mod ru)%N)).

(** The arm of [IntNegChecked] *)
Definition checked_negation (value : ConstData) : fault_result Checked :=
  '(signed_value, _) ← read_operand value;
  if signed_value =? fst (signed_bounds bits) then Ok (CheckedFailure ARITHMETIC_OVERFLOW)
  else Ok (ranged (i128_neg signed_value) None).

(** The arm of [IntShlChecked] and [IntShrChecked] *)
Definition checked_shift (value amount : ConstData) : fault_result Checked :=
  '(signed_value, unsigned_value) ← read_operand value;
  amount ← match amount with DUInt amount => Ok amount | _ => Err Fault end;
  guard! fits false 32 0 amount else Fault;
  if negb ((amount <? 2 ^ 32)%N && (amount <? bits)%N) then Ok (CheckedFailure ARITHMETIC_INVALID_SHIFT)
  else if bool_decide (opcode = OpIntShrChecked) then
    Ok (if signed then CheckedValue (i128_shr signed_value amount) 0
        else CheckedValue 0 (u128_shr unsigned_value amount))
  else if signed then
    let '(low, high) := signed_bounds bits in
    let representable :=
      match signed_value ?= 0 with
      | Eq => true
      | Gt => signed_value <=? i128_shr high amount
      | Lt => i128_shr low amount <=? signed_value
      end in
    Ok (if representable then CheckedValue (i128_shl signed_value amount) 0
        else CheckedFailure ARITHMETIC_OVERFLOW)
  else
    Ok (if (unsigned_value <=? u128_shr (unsigned_max bits) amount)%N
        then CheckedValue 0 (u128_shl unsigned_value amount) else CheckedFailure ARITHMETIC_OVERFLOW).

Definition checked_integer_data (operands : list ConstData) : fault_result Checked :=
  match opcode, operands with
  | (OpIntAddChecked | OpIntSubChecked | OpIntMulChecked), [lhs; rhs] => checked_ring lhs rhs
  | (OpIntDivChecked | OpIntRemChecked), [lhs; rhs] => checked_quotient lhs rhs
  | OpIntNegChecked, [value] => checked_negation value
  | (OpIntShlChecked | OpIntShrChecked), [value; amount] => checked_shift value amount
  | _, _ => Err Fault
  end.

Definition checked_integer (operands : list ConstValue) : fault_result Checked :=
  match operands with
  | [value] => checked_integer_data [cv_data value]
  | [lhs; rhs] => checked_integer_data [cv_data lhs; cv_data rhs]
  | _ => Err Fault
  end.
End kernel.

(** The signedness and width of an epoch-1 integer type. *)
Definition integer_width (value : TypeExpr) : option (bool * N) :=
  match value with
  | TSInt width => if is_epoch_1 width then Some (true, width) else None
  | TUInt width => if is_epoch_1 width then Some (false, width) else None
  | _ => None
  end.

Definition arithmetic_value (outcome : Checked) (signed : bool) (result_type : TypeExpr)
    : fault_result ConstValue :=
  match result_type with
  | TResult ok error =>
      Ok (mkConstValue result_type
        (DResult match outcome with
                 | CheckedValue signed_value unsigned_value =>
                     ROk (mkConstValue ok (if signed then DSInt signed_value else DUInt unsigned_value))
                 | CheckedFailure code =>
                     RErr (mkConstValue error (DBuiltinFailure (mkBuiltinFailureValue BFArithmetic code)))
                 end))
  | _ => Err Fault
  end.

(** ** The mathematical integers of a width *)

Definition width_min (signed : bool) (bits : N) : Z := if signed then - 2 ^ (Z.of_N bits - 1) else 0.
Definition width_max (signed : bool) (bits : N) : Z :=
  if signed then 2 ^ (Z.of_N bits - 1) - 1 else 2 ^ Z.of_N bits - 1.
Definition in_width (signed : bool) (bits : N) (z : Z) : bool :=
  (width_min signed bits <=? z) && (z <=? width_max signed bits).

(** The number an operand stands for, when it has the form and the width. *)
Definition operand_number (signed : bool) (bits : N) (d : ConstData) : option Z :=
  match d with
  | DSInt z => if signed && in_width true bits z then Some z else None
  | DUInt n => if negb signed && in_width false bits (Z.of_N n) then Some (Z.of_N n) else None
  | _ => None
  end.

(** A number in the representation of the kernel. *)
Definition number_pair (signed : bool) (z : Z) : Z * N := if signed then (z, 0%N) else (0, Z.to_N z).
Definition number_value (signed : bool) (z : Z) : Checked :=
  CheckedValue (fst (number_pair signed z)) (snd (number_pair signed z)).

Definition exact_value (signed : bool) (bits : N) (z : Z) : Checked :=
  if in_width signed bits z then number_value signed z else CheckedFailure ARITHMETIC_OVERFLOW.

(** The contract table: the exact result over the integers.  A quotient is
    truncated; the remainder of the least number by minus one is an overflow,
    as its quotient is; a shift right is the floor of the quotient. *)
Definition exact_binary (opcode : Opcode) (signed : bool) (bits : N) (x y : Z) : Checked :=
  match opcode with
  | OpIntAddChecked => exact_value signed bits (x + y)
  | OpIntSubChecked => exact_value signed bits (x - y)
  | OpIntMulChecked => exact_value signed bits (x * y)
  | OpIntDivChecked =>
      if y =? 0 then CheckedFailure ARITHMETIC_DIVIDE_BY_ZERO else exact_value signed bits (Z.quot x y)
  | OpIntRemChecked =>
      if y =? 0 then CheckedFailure ARITHMETIC_DIVIDE_BY_ZERO
      else if in_width signed bits (Z.quot x y) then number_value signed (Z.rem x y)
      else CheckedFailure ARITHMETIC_OVERFLOW
  | OpIntShlChecked =>
      if Z.of_N bits <=? y then CheckedFailure ARITHMETIC_INVALID_SHIFT
      else exact_value signed bits (x * 2 ^ y)
  | _ =>
      if Z.of_N bits <=? y then CheckedFailure ARITHMETIC_INVALID_SHIFT
      else number_value signed (x / 2 ^ y)
  end.

Definition exact_integer (opcode : Opcode) (signed : bool) (bits : N) (operands : list ConstData)
    : fault_result Checked :=
  match opcode, operands with
  | (OpIntAddChecked | OpIntSubChecked | OpIntMulChecked | OpIntDivChecked | OpIntRemChecked), [d; e] =>
      match operand_number signed bits d, operand_number signed bits e with
      | Some x, Some y => Ok (exact_binary opcode signed bits x y)
      | _, _ => Err Fault
      end
  | OpIntNegChecked, [d] =>
      match operand_number signed bits d with
      | Some x => Ok (exact_value signed bits (- x))
      | None => Err Fault
      end
  | (OpIntShlChecked | OpIntShrChecked), [d; e] =>
      match operand_number signed bits d, operand_number false 32 e with
      | Some x, Some y => Ok (exact_binary opcode signed bits x y)
      | _, _ => Err Fault
      end
  | _, _ => Err Fault
  end.

(** ** The bounds of a width *)

Lemma is_epoch_1_cases bits :
  is_epoch_1 bits = true <-> bits = 8%N \/ bits = 16%N \/ bits = 32%N \/ bits = 64%N \/ bits = 128%N.
Proof. unfold is_epoch_1. lia. Qed.

(** Every fact about the five widths, by cases on the width. *)
Ltac each_width H :=
  apply is_epoch_1_cases in H; destruct H as [H|[H|[H|[H|H]]]]; subst.

Lemma signed_bounds_eq bits :
  is_epoch_1 bits = true -> signed_bounds bits = (width_min true bits, width_max true bits).
Proof. intros H. each_width H; reflexivity. Qed.

Lemma unsigned_max_eq bits :
  is_epoch_1 bits = true -> Z.of_N (unsigned_max bits) = width_max false bits.
Proof. intros H. each_width H; reflexivity. Qed.

Lemma signed_range bits :
  is_epoch_1 bits = true ->
  - 2 ^ 127 <= width_min true bits < 0 /\ width_max true bits = - width_min true bits - 1.
Proof. intros H. each_width H; vm_compute; repeat split; congruence. Qed.

Lemma unsigned_range bits :
  is_epoch_1 bits = true -> width_min false bits = 0 /\ 0 < width_max false bits < 2 ^ 128.
Proof. intros H. each_width H; vm_compute; repeat split; congruence. Qed.

Lemma fits_eq signed bits z :
  is_epoch_1 bits = true -> (signed = true \/ 0 <= z) ->
  fits signed bits (fst (number_pair signed z)) (snd (number_pair signed z)) = in_width signed bits z.
Proof.
  intros Hw Hz. unfold fits, in_width. destruct signed; cbn [number_pair fst snd].
  - rewrite signed_bounds_eq by done. done.
  - destruct Hz as [|Hz]; [done|]. pose proof (unsigned_max_eq _ Hw). unfold width_min. lia.
Qed.

Lemma read_operand_eq signed bits d :
  is_epoch_1 bits = true ->
  read_operand signed bits d = match operand_number signed bits d with
                               | Some z => Ok (number_pair signed z)
                               | None => Err Fault
                               end.
Proof.
  intros Hw. unfold read_operand, operand_number. destruct d; try done; destruct signed; try done;
    cbn [mbind result_bind andb negb fst snd].
  - pose proof (fits_eq true bits x Hw (or_introl eq_refl)) as E. cbn [number_pair fst snd] in E.
    rewrite E. by destruct (in_width true bits x).
  - pose proof (fits_eq false bits (Z.of_N x) Hw (or_intror (N2Z.is_nonneg _))) as E.
    cbn [number_pair fst snd] in E. rewrite N2Z.id in E. rewrite E.
    destruct (in_width false bits (Z.of_N x)); [|done]. cbn [number_pair]. by rewrite N2Z.id.
Qed.

Lemma operand_number_range signed bits d z :
  operand_number signed bits d = Some z -> in_width signed bits z = true.
Proof.
  unfold operand_number. destruct d; try done; destruct signed; cbn; try done; case_match; by intros [= <-].
Qed.

(** ** The kernel computes the contract table *)

Section exactness.
Context (signed : bool) (bits : N).
Hypothesis Hwidth : is_epoch_1 bits = true.

Lemma in_width_i128 z : in_width true bits z = true -> is_i128 z = true.
Proof using Hwidth.
  pose proof (signed_range _ Hwidth). unfold in_width, is_i128, I128_MIN, I128_MAX. lia.
Qed.

Lemma in_width_u128 n : in_width false bits (Z.of_N n) = true -> is_u128 n = true.
Proof using Hwidth.
  pose proof (unsigned_range _ Hwidth). unfold in_width, is_u128, U128_MAX. lia.
Qed.

Lemma ranged_signed z u : ranged true bits (as_i128 z) u = exact_value true bits z.
Proof using Hwidth.
  unfold ranged, as_i128, exact_value. pose proof (in_width_i128 z).
  pose proof (fits_eq true bits z Hwidth (or_introl eq_refl)) as E. cbn [number_pair fst snd] in E.
  destruct (is_i128 z); [by rewrite E|]. destruct (in_width true bits z); [|done]. naive_solver.
Qed.

Lemma ranged_unsigned n z : ranged false bits z (as_u128 n) = exact_value false bits (Z.of_N n).
Proof using Hwidth.
  unfold ranged, as_u128, exact_value. pose proof (in_width_u128 n).
  pose proof (fits_eq false bits (Z.of_N n) Hwidth (or_intror (N2Z.is_nonneg _))) as E.
  cbn [number_pair fst snd] in E. rewrite N2Z.id in E. unfold number_value. cbn [number_pair fst snd].
  rewrite N2Z.id. destruct (is_u128 n); [by rewrite E|]. destruct (in_width false bits (Z.of_N n)); [|done].
  naive_solver.
Qed.

Lemma exact_value_low z : z < 0 -> exact_value false bits z = CheckedFailure ARITHMETIC_OVERFLOW.
Proof using Hwidth.
  pose proof (unsigned_range _ Hwidth). unfold exact_value, in_width. intros Hz.
  by replace (width_min false bits <=? z) with false by lia.
Qed.

(** A shift by less than the width stays in the word when the product does. *)
Lemma shl_signed x k :
  in_width true bits x = true -> (k < bits)%N ->
  (let '(low, high) := signed_bounds bits in
   if match x ?= 0 with Eq => true | Gt => x <=? i128_shr high k | Lt => i128_shr low k <=? x end
   then CheckedValue (i128_shl x k) 0 else CheckedFailure ARITHMETIC_OVERFLOW)
  = exact_value true bits (x * 2 ^ Z.of_N k).
Proof using Hwidth.
  intros Hx Hk. rewrite signed_bounds_eq by done. unfold exact_value, in_width, i128_shr, i128_shl.
  rewrite !Z.shiftr_div_pow2, Z.shiftl_mul_pow2 by lia.
  pose proof (signed_range _ Hwidth) as [Hlo Hhi].
  assert (width_min true bits = - 2 ^ (Z.of_N bits - 1 - Z.of_N k) * 2 ^ Z.of_N k) as Hexact.
  { unfold width_min. rewrite Z.mul_opp_l, <- Z.pow_add_r by lia. do 2 f_equal. lia. }
  set (p := 2 ^ Z.of_N k) in *. assert (0 < p) by (subst p; apply Z.pow_pos_nonneg; lia).
  set (q := 2 ^ (Z.of_N bits - 1 - Z.of_N k)) in *.
  assert (width_min true bits / p = - q) as Hdiv by (rewrite Hexact; apply Z.div_mul; lia).
  rewrite Hdiv. pose proof (Z.div_mod (width_max true bits) p ltac:(lia)) as Hmod.
  pose proof (Z.mod_pos_bound (width_max true bits) p ltac:(lia)).
  assert (match x ?= 0 with Eq => true | Gt => x <=? width_max true bits / p | Lt => - q <=? x end
          = (width_min true bits <=? x * p) && (x * p <=? width_max true bits)) as Hb.
  { set (d := width_max true bits / p) in *. apply eq_true_iff_eq. rewrite andb_true_iff, !Z.leb_le.
    destruct (Z.compare_spec x 0) as [->|Hx0|Hx0]; [split; [lia|done]| |]; rewrite Z.leb_le.
    - rewrite Hexact, <- Z.mul_le_mono_pos_r by done. assert (x * p < 0) by (apply Z.mul_neg_pos; done). lia.
    - assert (0 < x * p) by (apply Z.mul_pos_pos; done). split.
      + intros Hd%(Z.mul_le_mono_nonneg_r _ _ p); lia.
      + intros [_ Hd]. apply Z.lt_succ_r, (Z.mul_lt_mono_pos_r p); lia. }
  rewrite <- Hb. destruct (match x ?= 0 with Eq => _ | _ => _ end) eqn:E; [|done].
  unfold number_value. cbn [number_pair fst snd]. f_equal. rewrite Z.mod_small; lia.
Qed.

Lemma shl_unsigned n k :
  in_width false bits (Z.of_N n) = true -> (k < bits)%N ->
  (if (n <=? u128_shr (unsigned_max bits) k)%N
   then CheckedValue 0 (u128_shl n k) else CheckedFailure ARITHMETIC_OVERFLOW)
  = exact_value false bits (Z.of_N n * 2 ^ Z.of_N k).
Proof using Hwidth.
  intros Hx Hk. unfold exact_value, in_width, u128_shr, u128_shl.
  rewrite N.shiftr_div_pow2, N.shiftl_mul_pow2.
  pose proof (unsigned_range _ Hwidth) as [Hlo Hhi]. pose proof (unsigned_max_eq _ Hwidth) as Hmax.
  change (2 ^ Z.of_N k) with (Z.of_N 2 ^ Z.of_N k). rewrite <- N2Z.inj_pow.
  set (p := (2 ^ k)%N) in *. assert (0 < p)%N by (subst p; apply N.neq_0_lt_0, N.pow_nonzero; lia).
  pose proof (N.div_mod (unsigned_max bits) p ltac:(lia)) as Hmod.
  pose proof (N.mod_lt (unsigned_max bits) p ltac:(lia)).
  set (d := (unsigned_max bits / p)%N) in *. rewrite Hlo.
  assert ((n <=? d)%N = (0 <=? Z.of_N n * Z.of_N p) && (Z.of_N n * Z.of_N p <=? width_max false bits)) as Hb.
  { apply eq_true_iff_eq. rewrite andb_true_iff, !Z.leb_le, N.leb_le, <- Hmax, <- N2Z.inj_mul, <- N2Z.inj_le.
    clear - Hmod H0 H. set (r := (unsigned_max bits mod p)%N) in *. clearbody d r p.
    split; [intros Hd%(N.mul_le_mono_r _ _ p); split; [lia|nia]|].
    intros [_ Hd]. apply N.lt_succ_r, (N.mul_lt_mono_pos_r p); lia. }
  rewrite <- Hb. destruct (N.leb_spec n d) as [Hd|]; [|done]. apply (N.mul_le_mono_r _ _ p) in Hd.
  unfold number_value. cbn [number_pair fst snd]. f_equal. rewrite N.mod_small; lia.
Qed.

Lemma ranged_some_signed z u : ranged true bits (Some z) u = exact_value true bits z.
Proof using Hwidth.
  unfold ranged, exact_value. pose proof (fits_eq true bits z Hwidth (or_introl eq_refl)) as E.
  cbn [number_pair fst snd] in E. by rewrite E.
Qed.

Lemma ranged_some_unsigned n z : ranged false bits z (Some n) = exact_value false bits (Z.of_N n).
Proof using Hwidth.
  unfold ranged, exact_value. pose proof (fits_eq false bits (Z.of_N n) Hwidth (or_intror (N2Z.is_nonneg _))) as E.
  cbn [number_pair fst snd] in E. rewrite N2Z.id in E. unfold number_value. cbn [number_pair fst snd].
  by rewrite E, N2Z.id.
Qed.

(** The only quotient that leaves the width is that of the least number by
    minus one. *)
Lemma quot_in_width x y :
  in_width signed bits x = true -> in_width signed bits y = true -> y <> 0 ->
  in_width signed bits (Z.quot x y) = negb (signed && (y =? -1) && (x =? width_min true bits)).
Proof using Hwidth.
  intros Hx Hy Hy0. pose proof (Z.quot_rem' x y) as Hq.
  pose proof (Z.rem_bound_abs x y Hy0) as Hr.
  pose proof (signed_range _ Hwidth) as [? ?]. pose proof (unsigned_range _ Hwidth) as [? ?].
  assert (Z.abs (Z.quot x y) * Z.abs y <= Z.abs x) as Hle.
  { rewrite <- Z.abs_mul. pose proof (Z.mul_quot_le (Z.abs x) (Z.abs y)).
    pose proof (Z.quot_abs x y Hy0) as Hqa. rewrite Z.abs_mul, <- Hqa. nia. }
  unfold in_width in *. destruct signed; cbn [andb negb].
  - apply eq_true_iff_eq. rewrite andb_true_iff, negb_true_iff, andb_false_iff in *.
    rewrite !Z.leb_le, !Z.eqb_neq in *. set (q := Z.quot x y) in *.
    destruct (Z.eq_dec y (-1)) as [->|Hy1].
    + assert (q = - x) by (subst q; change (-1) with (- (1)); rewrite Z.quot_opp_r, Z.quot_1_r; lia). lia.
    + destruct (Z.eq_dec y 1) as [->|]; [subst q; rewrite Z.quot_1_r; lia|].
      split; [intros _; by left|intros _]. nia.
  - pose proof (Z.quot_pos x y). set (q := Z.quot x y) in *. nia.
Qed.

Lemma rem_in_width x y :
  in_width signed bits x = true -> in_width signed bits y = true -> y <> 0 ->
  in_width signed bits (Z.rem x y) = true.
Proof using Hwidth.
  intros Hx Hy Hy0. pose proof (Z.rem_bound_abs x y Hy0).
  pose proof (signed_range _ Hwidth) as [? ?]. pose proof (unsigned_range _ Hwidth) as [? ?].
  pose proof (Z.rem_nonneg x y). pose proof (Z.rem_nonpos x y).
  unfold in_width in *. destruct signed; lia.
Qed.
End exactness.

Section table.
Context (opcode : Opcode) (signed : bool) (bits : N).
Hypothesis Hwidth : is_epoch_1 bits = true.

Lemma number_pair_nonneg d x : operand_number false bits d = Some x -> x = Z.of_N (Z.to_N x).
Proof using Hwidth.
  intros H%operand_number_range. pose proof (unsigned_range _ Hwidth). unfold in_width in H. lia.
Qed.

Lemma checked_ring_exact d e :
  opcode = OpIntAddChecked \/ opcode = OpIntSubChecked \/ opcode = OpIntMulChecked ->
  checked_ring opcode signed bits d e = exact_integer opcode signed bits [d; e].
Proof using Hwidth.
  intros Hop. unfold checked_ring. rewrite !read_operand_eq by done.
  replace (exact_integer opcode signed bits [d; e]) with
    (match operand_number signed bits d, operand_number signed bits e with
     | Some x, Some y => Ok (exact_binary opcode signed bits x y)
     | _, _ => Err Fault
     end : fault_result Checked) by (by destruct Hop as [->|[->| ->]]).
  destruct (operand_number signed bits d) as [x|] eqn:Hx; [|done]. cbn [mbind result_bind].
  destruct (operand_number signed bits e) as [y|] eqn:Hy; [|by destruct (number_pair signed x)].
  unfold number_pair, i128_add, i128_sub, i128_mul, u128_add, u128_sub, u128_mul.
  destruct signed.
  - destruct Hop as [->|[->| ->]]; cbn [mbind result_bind exact_binary]; by rewrite ranged_signed.
  - apply number_pair_nonneg in Hx, Hy. rewrite Hx, Hy, !N2Z.id.
    destruct Hop as [->|[->| ->]]; cbn [mbind result_bind exact_binary].
    + rewrite ranged_unsigned by done. do 2 f_equal. lia.
    + destruct (N.ltb_spec (Z.to_N x) (Z.to_N y)).
      * rewrite exact_value_low by (done || lia). done.
      * rewrite ranged_some_unsigned by done. do 2 f_equal. lia.
    + rewrite ranged_unsigned by done. do 2 f_equal. lia.
Qed.

Lemma exact_quotient x y :
  in_width signed bits x = true -> in_width signed bits y = true -> y <> 0 ->
  exact_value signed bits (Z.quot x y)
  = if signed && (y =? -1) && (x =? width_min true bits) then CheckedFailure ARITHMETIC_OVERFLOW
    else number_value signed (Z.quot x y).
Proof using Hwidth.
  intros Hx Hy Hy0. unfold exact_value. rewrite quot_in_width by done.
  by destruct (signed && (y =? -1) && (x =? width_min true bits)).
Qed.

Lemma checked_quotient_exact d e :
  opcode = OpIntDivChecked \/ opcode = OpIntRemChecked ->
  checked_quotient opcode signed bits d e = exact_integer opcode signed bits [d; e].
Proof using Hwidth.
  intros Hop. unfold checked_quotient. rewrite !read_operand_eq, signed_bounds_eq by done. cbn [fst].
  replace (exact_integer opcode signed bits [d; e]) with
    (match operand_number signed bits d, operand_number signed bits e with
     | Some x, Some y => Ok (exact_binary opcode signed bits x y)
     | _, _ => Err Fault
     end : fault_result Checked) by (by destruct Hop as [->| ->]).
  destruct (operand_number signed bits d) as [x|] eqn:Hx; [|done]. cbn [mbind result_bind].
  destruct (operand_number signed bits e) as [y|] eqn:Hy; [|by destruct (number_pair signed x)].
  pose proof (operand_number_range _ _ _ _ Hx) as Rx. pose proof (operand_number_range _ _ _ _ Hy) as Ry.
  assert (exact_binary opcode signed bits x y =
    if y =? 0 then CheckedFailure ARITHMETIC_DIVIDE_BY_ZERO
    else if signed && (y =? -1) && (x =? width_min true bits) then CheckedFailure ARITHMETIC_OVERFLOW
    else exact_value signed bits (if bool_decide (opcode = OpIntDivChecked) then Z.quot x y else Z.rem x y)) as ->.
  { destruct (Z.eqb_spec y 0) as [->|Hy0]; [by destruct Hop as [->| ->]|].
    destruct Hop as [->| ->]; cbn [exact_binary]; rewrite (proj2 (Z.eqb_neq _ _) Hy0).
    - rewrite exact_quotient, bool_decide_eq_true_2 by done.
      destruct (signed && (y =? -1) && (x =? width_min true bits)) eqn:H; [done|]. rewrite exact_quotient by done. by rewrite H.
    - rewrite quot_in_width by done. destruct (signed && (y =? -1) && (x =? width_min true bits)) eqn:H; cbn [negb]; [done|].
      rewrite bool_decide_eq_false_2 by done. unfold exact_value. by rewrite rem_in_width. }
  destruct (Z.eqb_spec y 0) as [->|Hy0].
  { unfold number_pair. by destruct signed. }
  unfold number_pair. destruct signed; cbn [andb orb negb mbind result_bind fst snd].
  - rewrite (proj2 (Z.eqb_neq _ _) Hy0). cbn [orb]. case_match; [done|].
    unfold i128_div, i128_rem. rewrite (proj2 (Z.eqb_neq _ _) Hy0). cbn [orb].
    destruct (bool_decide (opcode = OpIntDivChecked)); [by rewrite ranged_signed|].
    destruct ((x =? I128_MIN) && (y =? -1)) eqn:E; [|by rewrite ranged_signed].
    pose proof (signed_range _ Hwidth). unfold in_width, I128_MIN in *. lia.
  - apply number_pair_nonneg in Hx, Hy. replace (Z.to_N y =? 0)%N with false by lia. cbn [orb].
    rewrite ranged_some_unsigned by done. do 2 f_equal.
    destruct (bool_decide (opcode = OpIntDivChecked)); [rewrite N2Z.inj_quot|rewrite N2Z.inj_rem];
      by rewrite <- Hx, <- Hy.
Qed.

Lemma checked_negation_exact d :
  signed = true -> opcode = OpIntNegChecked ->
  checked_negation signed bits d = exact_integer opcode signed bits [d].
Proof using Hwidth.
  intros -> ->. unfold checked_negation. rewrite read_operand_eq, signed_bounds_eq by done. cbn [fst exact_integer].
  destruct (operand_number true bits d) as [x|] eqn:Hx; [|done]. cbn [mbind result_bind number_pair].
  pose proof (operand_number_range _ _ _ _ Hx) as Rx. pose proof (signed_range _ Hwidth) as [? ?].
  destruct (Z.eqb_spec x (width_min true bits)) as [->|]; [|by rewrite <- ranged_signed with (u := None)].
  unfold exact_value. by replace (in_width true bits (- width_min true bits)) with false by (unfold in_width; lia).
Qed.

Lemma checked_shift_exact d e :
  opcode = OpIntShlChecked \/ opcode = OpIntShrChecked ->
  checked_shift opcode signed bits d e = exact_integer opcode signed bits [d; e].
Proof using Hwidth.
  intros Hop. unfold checked_shift. rewrite !read_operand_eq by done.
  replace (exact_integer opcode signed bits [d; e]) with
    (match operand_number signed bits d, operand_number false 32 e with
     | Some x, Some y => Ok (exact_binary opcode signed bits x y)
     | _, _ => Err Fault
     end : fault_result Checked) by (by destruct Hop as [->| ->]).
  destruct (operand_number signed bits d) as [x|] eqn:Hx; [|done]. cbn [mbind result_bind].
  pose proof (operand_number_range _ _ _ _ Hx) as Rx.
  destruct e; try by destruct (number_pair signed x). cbn [operand_number andb negb].
  pose proof (fits_eq false 32 (Z.of_N x0) eq_refl (or_intror (N2Z.is_nonneg _))) as E.
  cbn [number_pair fst snd] in E. rewrite N2Z.id in E.
  destruct (number_pair signed x) as [s u] eqn:Hp. cbn [mbind result_bind]. rewrite E.
  destruct (in_width false 32 (Z.of_N x0)) eqn:R32; cbn [ensure mbind result_bind]; [|done].
  assert (x0 < 2 ^ 32)%N by (unfold in_width, width_max in R32; lia).
  assert ((x0 <? 2 ^ 32)%N && (x0 <? bits)%N = negb (Z.of_N bits <=? Z.of_N x0)) as -> by lia.
  rewrite negb_involutive. destruct (Z.leb_spec (Z.of_N bits) (Z.of_N x0)).
  { destruct Hop as [->| ->]; cbn [exact_binary]; by replace (Z.of_N bits <=? Z.of_N x0) with true by lia. }
  assert (exact_binary opcode signed bits x (Z.of_N x0) =
    if bool_decide (opcode = OpIntShrChecked) then number_value signed (x / 2 ^ Z.of_N x0)
    else exact_value signed bits (x * 2 ^ Z.of_N x0)) as ->.
  { destruct Hop as [->| ->]; cbn [exact_binary];
      replace (Z.of_N bits <=? Z.of_N x0) with false by lia; [rewrite bool_decide_eq_false_2 by done|
      rewrite bool_decide_eq_true_2 by done]; done. }
  unfold number_pair in Hp. destruct signed; simplify_eq.
  - destruct (bool_decide (opcode = OpIntShrChecked)); [|by rewrite <- shl_signed by (done || lia); case_match].
    unfold i128_shr. by rewrite Z.shiftr_div_pow2 by lia.
  - rewrite (number_pair_nonneg _ _ Hx) in Rx. rewrite (number_pair_nonneg _ _ Hx), !N2Z.id.
    destruct (bool_decide (opcode = OpIntShrChecked)); [|by rewrite <- shl_unsigned by (done || lia)].
    unfold number_value, u128_shr. cbn [number_pair fst snd]. rewrite N.shiftr_div_pow2. do 2 f_equal.
    apply N2Z.inj. rewrite Z2N.id by (apply Z.div_pos; [|apply Z.pow_pos_nonneg]; lia).
    rewrite N2Z.inj_div, N2Z.inj_pow. done.
Qed.
End table.

Lemma checked_integer_data_exact opcode signed bits operands :
  is_epoch_1 bits = true -> (opcode = OpIntNegChecked -> signed = true) ->
  checked_integer_data opcode signed bits operands = exact_integer opcode signed bits operands.
Proof.
  intros Hw Hneg. destruct operands as [|d [|e [|? ?]]]; try (by destruct opcode).
  - destruct opcode; try done. by apply checked_negation_exact; auto.
  - destruct opcode; try done; cbn [checked_integer_data];
      (apply checked_ring_exact || apply checked_quotient_exact || apply checked_shift_exact); auto.
Qed.

(** ** What the kernel returns *)

(** A value in the representation of the width, or one of the codes *)
Definition outcome_ok (signed : bool) (bits : N) (outcome : Checked) : Prop :=
  match outcome with
  | CheckedValue s u => fits signed bits s u = true
  | CheckedFailure code => (1 <= code <= 3)%N
  end.

Lemma exact_value_ok signed bits z : is_epoch_1 bits = true -> outcome_ok signed bits (exact_value signed bits z).
Proof.
  intros Hw. unfold exact_value. destruct (in_width signed bits z) eqn:E; [|done]. cbn. rewrite fits_eq; [done|done|].
  destruct signed; [by left|right]. unfold in_width, width_min in E. lia.
Qed.

Lemma number_value_ok signed bits z :
  is_epoch_1 bits = true -> in_width signed bits z = true -> outcome_ok signed bits (number_value signed z).
Proof. intros Hw Hz. pose proof (exact_value_ok signed bits z Hw) as H. unfold exact_value in H. by rewrite Hz in H. Qed.

Lemma shift_right_in_width signed bits x k :
  is_epoch_1 bits = true -> in_width signed bits x = true -> 0 <= k -> in_width signed bits (x / 2 ^ k) = true.
Proof.
  intros Hw Hx Hk. pose proof (signed_range _ Hw) as [? ?]. pose proof (unsigned_range _ Hw) as [? ?].
  assert (0 < 2 ^ k) as Hp by (by apply Z.pow_pos_nonneg). set (p := 2 ^ k) in *. clearbody p.
  pose proof (Z.div_mod x p ltac:(lia)) as E. pose proof (Z.mod_pos_bound x p Hp).
  set (q := x / p) in *. clearbody q.
  unfold in_width in *. destruct signed; apply andb_true_iff in Hx as [? ?]; apply andb_true_iff; rewrite !Z.leb_le in *; nia.
Qed.

Lemma exact_binary_ok opcode signed bits x y :
  is_epoch_1 bits = true -> in_width signed bits x = true ->
  match opcode with
  | OpIntShlChecked | OpIntShrChecked => 0 <= y
  | OpIntAddChecked | OpIntSubChecked | OpIntMulChecked | OpIntDivChecked | OpIntRemChecked => in_width signed bits y = true
  | _ => False
  end ->
  outcome_ok signed bits (exact_binary opcode signed bits x y).
Proof.
  intros Hw Hx Hy. destruct opcode; try done; cbn [exact_binary]; try by apply exact_value_ok.
  - case_match; [done|]. by apply exact_value_ok.
  - destruct (Z.eqb_spec y 0); [done|]. destruct (in_width signed bits (Z.quot x y)); [|done].
    apply number_value_ok; [done|]. by apply rem_in_width.
  - case_match; [done|]. by apply exact_value_ok.
  - case_match; [done|]. apply number_value_ok; [done|]. by apply shift_right_in_width.
Qed.

(** C26: bounds. At every integer width the kernel computes the exact result of
    the contract table over the mathematical integers (a result outside the
    width is the overflow code, a zero divisor and a shift past the width have
    their own codes), and it faults exactly when an operand has the wrong form
    or lies outside its width. *)
Theorem checked_integer_exact opcode signed bits operands :
  is_epoch_1 bits = true -> (opcode = OpIntNegChecked -> signed = true) ->
  checked_integer_data opcode signed bits operands = exact_integer opcode signed bits operands.
Proof. apply checked_integer_data_exact. Qed.

Lemma checked_integer_exact_witness :
  checked_integer_data OpIntShlChecked true 128 [DSInt (-1); DUInt 127]
  = exact_integer OpIntShlChecked true 128 [DSInt (-1); DUInt 127]
  /\ exact_integer OpIntShlChecked true 128 [DSInt (-1); DUInt 127] = Ok (CheckedValue I128_MIN 0)
  /\ exact_integer OpIntShlChecked true 128 [DSInt 1; DUInt 127] = Ok (CheckedFailure ARITHMETIC_OVERFLOW)
  /\ exact_integer OpIntRemChecked true 8 [DSInt (-128); DSInt (-1)] = Ok (CheckedFailure ARITHMETIC_OVERFLOW).
Proof.
  split; [apply checked_integer_exact; [reflexivity|discriminate]|]. repeat split; vm_compute; reflexivity.
Defined.
