(* ===== verification/VmFloat.v ===== *)
(** * The virtual machine: floating point (crates/sley-vm/src/extended.rs)

    An [f32] or [f64] is a [spec_float] of the Standard Library, IEEE 754
    rounding to nearest, ties to even; [from_bits] and [to_bits] are the
    interchange encodings.  The theorem says that every result the machine stores
    is in the canonical form the type checker admits. *)

From S2P Require Import Prelude Bytes Ssmc Types VmInt.
From Stdlib Require Import Floats.SpecFloat.
Set Warnings "-register-all".

Open Scope Z_scope.

Definition CANONICAL_NAN_F32 : N := 0x7fc00000.
Definition CANONICAL_NAN_F64 : N := 0x7ff8000000000000.

(** ** Formats

    [width] is the number of stored bits of the mantissa, one less than the
    precision; the exponent field has [exponent_width] bits. *)
Record FloatFormat : Type := mkFloatFormat { width : Z; exponent_width : Z }.
Definition binary32 : FloatFormat := mkFloatFormat 23 8.
Definition binary64 : FloatFormat := mkFloatFormat 52 11.

Section format.
Variable fmt : FloatFormat.
Definition prec : Z := width fmt + 1.
Definition emax : Z := 2 ^ (exponent_width fmt - 1).
Definition lowest : Z := emin prec emax.

(** [f32::from_bits] *)
Definition from_bits (bits : N) : spec_float :=
  let b := Z.of_N bits in
  let mantissa := b mod 2 ^ width fmt in
  let exponent := (b / 2 ^ width fmt) mod 2 ^ exponent_width fmt in
  let sign := 0 <? b / 2 ^ (width fmt + exponent_width fmt) in
  if exponent =? 2 ^ exponent_width fmt - 1 then
    if mantissa =? 0 then S754_infinity sign else S754_nan
  else if exponent =? 0 then
    match mantissa with Z.pos m => S754_finite sign m lowest | _ => S754_zero sign end
  else
    match mantissa + 2 ^ width fmt with
    | Z.pos m => S754_finite sign m (exponent - 1 + lowest)
    | _ => S754_nan
    end.

(** The fields of an encoding side by side. *)
Definition join (sign : bool) (exponent mantissa : Z) : N :=
  Z.to_N ((if sign then 2 ^ (width fmt + exponent_width fmt) else 0) + exponent * 2 ^ width fmt + mantissa).

(** [f32::to_bits]; a NaN, whose payload is not modelled, is the quiet one. *)
Definition to_bits (f : spec_float) : N :=
  match f with
  | S754_zero s => join s 0 0
  | S754_infinity s => join s (2 ^ exponent_width fmt - 1) 0
  | S754_nan => join false (2 ^ exponent_width fmt - 1) (2 ^ (width fmt - 1))
  | S754_finite s m e =>
      if Z.pos m <? 2 ^ width fmt then join s 0 (Z.pos m)
      else join s (e - lowest + 1) (Z.pos m - 2 ^ width fmt)
  end.

(** [f32::mul_add]: the product is exact and the sum is rounded once. *)
Definition fused (a b c : spec_float) : spec_float :=
  let add_zero s :=
    match c with
    | S754_zero t => S754_zero (if eqb s t then s else false)
    | _ => c
    end in
  let add_infinity s :=
    match c with
    | S754_nan => S754_nan
    | S754_infinity t => if eqb s t then S754_infinity s else S754_nan
    | _ => S754_infinity s
    end in
  match a, b with
  | S754_nan, _ | _, S754_nan => S754_nan
  | S754_infinity _, S754_zero _ | S754_zero _, S754_infinity _ => S754_nan
  | S754_infinity s, S754_infinity t | S754_infinity s, S754_finite t _ _ | S754_finite s _ _, S754_infinity t =>
      add_infinity (xorb s t)
  | S754_zero s, S754_zero t | S754_zero s, S754_finite t _ _ | S754_finite s _ _, S754_zero t =>
      add_zero (xorb s t)
  | S754_finite s m1 e1, S754_finite t m2 e2 =>
      let m := cond_Zopp (xorb s t) (Z.pos (m1 * m2)) in
      let e := e1 + e2 in
      match c with
      | S754_nan => S754_nan
      | S754_infinity _ => c
      | S754_zero _ => binary_normalize prec emax m e false
      | S754_finite u mc ec =>
          let ez := Z.min e ec in
          binary_normalize prec emax
            (Z.shiftl m (e - ez) + Z.shiftl (cond_Zopp u (Z.pos mc)) (ec - ez)) ez false
      end
  end.

(** [canonical_f32]: one quiet NaN and no negative zero *)
Definition canonical (nan : N) (value : spec_float) : N :=
  match value with
  | S754_nan => nan
  | S754_zero _ => 0
  | _ => to_bits value
  end.

(** The [match] on the opcode and the values *)
Definition float_arithmetic (opcode : Opcode) (values : list spec_float) : fault_result spec_float :=
  match opcode, values with
  | OpFloatAdd, [a; b] => Ok (SFadd prec emax a b)
  | OpFloatSub, [a; b] => Ok (SFsub prec emax a b)
  | OpFloatMul, [a; b] => Ok (SFmul prec emax a b)
  | OpFloatDiv, [a; b] => Ok (SFdiv prec emax a b)
  | OpFloatNeg, [a] => Ok (SFopp a)
  | OpFloatFma, [a; b; c] => Ok (fused a b c)
  | _, _ => Err Fault
  end.
End format.

Definition canonical_f32 : spec_float -> N := canonical binary32 CANONICAL_NAN_F32.
Definition canonical_f64 : spec_float -> N := canonical binary64 CANONICAL_NAN_F64.

Definition float_operation (opcode : Opcode) (operands : list ConstValue) (result_type : TypeExpr)
    : fault_result ConstValue :=
  data ← match result_type with
         | TF32 =>
             values ← map_res (fun value => match cv_data value with
                                            | DF32Bits bits => Ok (from_bits binary32 bits)
                                            | _ => Err Fault
                                            end) operands;
             result ← float_arithmetic binary32 opcode values;
             Ok (DF32Bits (canonical_f32 result))
         | TF64 =>
             values ← map_res (fun value => match cv_data value with
                                            | DF64Bits bits => Ok (from_bits binary64 bits)
                                            | _ => Err Fault
                                            end) operands;
             result ← float_arithmetic binary64 opcode values;
             Ok (DF64Bits (canonical_f64 result))
         | _ => Err Fault
         end;
  Ok (mkConstValue result_type data).

(** [f32::partial_cmp]: [None] when unordered *)
Definition float_partial_order (left right : ConstData) : fault_result (option comparison) :=
  match left, right with
  | DF32Bits a, DF32Bits b => Ok (SFcompare (from_bits binary32 a) (from_bits binary32 b))
  | DF64Bits a, DF64Bits b => Ok (SFcompare (from_bits binary64 a) (from_bits binary64 b))
  | _, _ => Err Fault
  end.

Definition is_float_data (value : ConstData) : bool :=
  match value with DF32Bits _ | DF64Bits _ => true | _ => false end.

(** 1.5 + 2.25 = 3.75; 1 / 3; the least subnormal halved is zero; infinity - infinity *)
Example float_samples :
  let op o l := float_arithmetic binary32 o (from_bits binary32 <$> l) in
  let bits r := canonical_f32 <$> r in
  bits (op OpFloatAdd [0x3fc00000; 0x40100000]%N) = Ok 0x40700000%N /\
  bits (op OpFloatDiv [0x3f800000; 0x40400000]%N) = Ok 0x3eaaaaab%N /\
  bits (op OpFloatDiv [0x00000001; 0x40000000]%N) = Ok 0%N /\
  bits (op OpFloatSub [0x7f800000; 0x7f800000]%N) = Ok CANONICAL_NAN_F32 /\
  bits (op OpFloatMul [0x7f7fffff; 0x40000000]%N) = Ok 0x7f800000%N /\
  (* 1.1 * 1.1 - 1.21, fused and not *)
  bits (op OpFloatFma [0x3f8ccccd; 0x3f8ccccd; 0xbf9ae148]%N) = Ok 0x3275c290%N.
Proof. vm_compute. repeat split. Qed.

(** ** Rounding gives a valid float

    [valid_binary]: the mantissa has [prec] digits, or fewer at the lowest
    exponent, and the exponent is below the infinities. *)

Lemma Zdigits2_log2 m : 0 < m -> Zdigits2 m = Z.log2 m + 1.
Proof.
  destruct m as [|p|p]; try lia. intros _. cbn [Zdigits2]. change digits2_pos with Pos.size.
  destruct p; cbn [Z.log2 Pos.size]; lia.
Qed.

Lemma digits2_pos_log2 p : Z.pos (digits2_pos p) = Z.log2 (Z.pos p) + 1.
Proof. apply (Zdigits2_log2 (Z.pos p)). lia. Qed.

Lemma Zdigits2_nonneg m : 0 <= Zdigits2 m.
Proof. destruct m; simpl; lia. Qed.

Lemma Zdigits2_bounds m d : 0 < m -> 0 <= d -> m < 2 ^ d -> Zdigits2 m <= d.
Proof. intros Hm Hd H. rewrite Zdigits2_log2 by done. apply Z.log2_lt_pow2 in H; lia. Qed.

Lemma lt_pow2_Zdigits2 m : 0 <= m -> m < 2 ^ Zdigits2 m.
Proof.
  intros Hm. destruct (Z.eq_dec m 0) as [->|]; [done|]. rewrite Zdigits2_log2 by lia. apply Z.log2_spec. lia.
Qed.

Lemma pow2_le_Zdigits2 m : 0 < m -> 2 ^ (Zdigits2 m - 1) <= m.
Proof. intros Hm. rewrite Zdigits2_log2 by lia. replace (_ - 1) with (Z.log2 m) by lia. by apply Z.log2_spec. Qed.

(** The digits left by a shift to the right *)
Lemma Zdigits2_div m k : 0 <= m -> 0 <= k -> Zdigits2 (m / 2 ^ k) = Z.max 0 (Zdigits2 m - k).
Proof.
  intros Hm Hk. destruct (Z.eq_dec m 0) as [->|]; [rewrite Z.div_0_l by (apply Z.pow_nonzero; lia); cbn; lia|].
  rewrite (Zdigits2_log2 m) by lia. destruct (Z_lt_le_dec m (2 ^ k)) as [Hlt|Hle].
  - rewrite Z.div_small by lia. apply Z.log2_lt_pow2 in Hlt; [cbn; lia|lia].
  - assert (k <= Z.log2 m) by (apply Z.log2_le_pow2; lia).
    assert (0 < m / 2 ^ k) by (apply Z.div_str_pos; lia).
    rewrite Zdigits2_log2, <- Z.shiftr_div_pow2, Z.log2_shiftr by lia. lia.
Qed.

Lemma shr_1_m r : 0 <= shr_m r -> shr_m (shr_1 r) = shr_m r / 2 /\ 0 <= shr_m (shr_1 r).
Proof.
  destruct r as [m r s]. cbn [shr_m]. intros Hm. destruct m as [|p|p]; [done| |lia].
  rewrite <- Z.div2_div. by destruct p.
Qed.

Lemma iter_shr p r :
  0 <= shr_m r -> shr_m (iter_pos shr_1 p r) = shr_m r / 2 ^ Z.pos p /\ 0 <= shr_m (iter_pos shr_1 p r).
Proof.
  revert r. induction p as [p IH|p IH|]; intros r Hr; cbn [iter_pos].
  - destruct (shr_1_m r Hr) as [E1 H1], (IH _ H1) as [E2 H2], (IH _ H2) as [E3 H3]. split; [|done].
    rewrite E3, E2, E1, !Z.div_div by lia. f_equal.
    replace (Z.pos p~1) with (1 + Z.pos p + Z.pos p) by lia. rewrite !Z.pow_add_r by lia. lia.
  - destruct (IH _ Hr) as [E2 H2], (IH _ H2) as [E3 H3]. split; [|done].
    rewrite E3, E2, !Z.div_div by lia. f_equal.
    replace (Z.pos p~0) with (Z.pos p + Z.pos p) by lia. rewrite !Z.pow_add_r by lia. lia.
  - by apply shr_1_m.
Qed.

Section valid.
Variable fmt : FloatFormat.
#[local] Abbreviation prec := (prec fmt).
#[local] Abbreviation emax := (emax fmt).
#[local] Abbreviation lowest := (lowest fmt).
Hypothesis prec_positive : 1 < prec.
Hypothesis prec_below_emax : prec < emax.

Lemma fexp_max e : fexp prec emax e = Z.max (e - prec) lowest.
Proof. done. Qed.

(** What [shr_fexp] leaves of a mantissa whose exponent is not too large *)
Lemma shr_fexp_spec m e l :
  0 <= m -> e <= fexp prec emax (Zdigits2 m + e) ->
  let r := shr_fexp prec emax m e l in
  let k := fexp prec emax (Zdigits2 m + e) - e in
  shr_m r.1 = m / 2 ^ k /\ 0 <= shr_m r.1 /\ r.2 = e + k.
Proof.
  intros Hm He. unfold shr_fexp. set (k := fexp _ _ _ - e). assert (0 <= k) as Hk by (unfold k; lia).
  assert (shr_m (shr_record_of_loc m l) = m) as Hr by (by destruct l as [|[]]).
  destruct k as [|p|p] eqn:E; [..|lia]; cbn [shr fst snd].
  - rewrite Hr, Z.div_1_r. lia.
  - pose proof (iter_shr p (shr_record_of_loc m l)) as H. rewrite Hr in H. destruct (H Hm). auto.
Qed.

(** A mantissa of exactly [prec] digits, or fewer at the lowest exponent, is
    still valid after one is added, up to one more shift. *)
Lemma binary_round_aux_valid s m e l :
  0 <= m -> e <= fexp prec emax (Zdigits2 m + e) ->
  valid_binary prec emax (binary_round_aux prec emax s m e l) = true.
Proof.
  intros Hm He. unfold binary_round_aux.
  destruct (shr_fexp prec emax m e l) as [r1 e1] eqn:E1.
  pose proof (shr_fexp_spec m e l Hm He) as H1. rewrite E1 in H1. cbn [fst snd] in H1.
  destruct H1 as (Hm1 & Hp1 & He1). set (m2 := round_nearest_even _ _).
  assert (shr_m r1 <= m2 <= shr_m r1 + 1) as Hm2
    by (unfold m2, round_nearest_even; destruct (loc_of_shr_record r1) as [|[]]; try destruct (Z.even _); lia).
  rewrite fexp_max in *. set (k := Z.max _ _ - e) in *.
  assert (Zdigits2 (shr_m r1) = Z.max 0 (Zdigits2 m - k)) as Hd1 by (rewrite Hm1; apply Zdigits2_div; lia).
  pose proof (Zdigits2_nonneg m) as Hdm.
  assert (Zdigits2 (shr_m r1) <= prec) as Hd1' by lia.
  pose proof (lt_pow2_Zdigits2 _ Hp1) as Hlt.
  assert (2 ^ Zdigits2 (shr_m r1) <= 2 ^ prec) as Hpow by (apply Z.pow_le_mono_r; lia).
  (* the lowest exponent, or all digits present *)
  assert (e1 = lowest \/ (lowest <= e1 /\ 2 ^ (prec - 1) <= shr_m r1)) as Hcase.
  { destruct (Z.max_spec (Zdigits2 m + e - prec) lowest) as [[? E]|[? E]]; [left; unfold k in *; lia|].
    right. split; [unfold k in *; lia|]. assert (Zdigits2 (shr_m r1) = prec) as Hd by (unfold k in *; lia).
    rewrite <- Hd. apply pow2_le_Zdigits2. destruct (Z.eq_dec (shr_m r1) 0) as [H0|]; [|lia].
    rewrite H0 in Hd. cbn in Hd. lia. }
  clear E1 Hm1 He1 Hd1 He. clearbody m2 k.
  assert (e1 <= fexp prec emax (Zdigits2 m2 + e1)) as Hf.
  { rewrite fexp_max. pose proof (Zdigits2_nonneg m2). destruct Hcase as [-> |[Hlow Hall]]; [lia|].
    assert (prec - 1 <= Z.log2 m2) by (apply Z.log2_le_pow2; lia).
    assert (0 < m2) by (pose proof (Z.pow_pos_nonneg 2 (prec - 1)); lia).
    rewrite Zdigits2_log2 by lia. lia. }
  destruct (shr_fexp prec emax m2 e1 loc_Exact) as [r2 e2] eqn:E2.
  pose proof (shr_fexp_spec m2 e1 loc_Exact ltac:(lia) Hf) as H2. rewrite E2 in H2. cbn [fst snd] in H2.
  destruct H2 as (Hm3 & Hp3 & He2). rewrite fexp_max in *.
  destruct (shr_m r2) as [|p|p] eqn:Er; [done| |lia].
  destruct (e2 <=? emax - prec) eqn:Hmax; [|done]. cbn [valid_binary]. unfold bounded. rewrite Hmax, andb_true_r.
  unfold canonical_mantissa. rewrite digits2_pos_log2, <- Zdigits2_log2, fexp_max by lia. apply Z.eqb_eq.
  assert (0 < m2) as Hpos by (destruct (Z.eq_dec m2 0) as [H0|]; [rewrite H0, Z.div_0_l in Hm3 by (apply Z.pow_nonzero; lia); lia|lia]).
  rewrite Hm3, Zdigits2_div by lia.
  assert (m2 <= 2 ^ prec) as Hm2' by lia.
  assert (Zdigits2 m2 <= prec + 1) by (apply Zdigits2_bounds; [lia..|rewrite Z.pow_add_r by lia; lia]).
  destruct Hcase as [-> |[Hlow Hall]]; [lia|].
  assert (prec <= Zdigits2 m2) by (rewrite Zdigits2_log2 by lia; assert (prec - 1 <= Z.log2 m2) by (apply Z.log2_le_pow2; lia); lia).
  lia.
Qed.

Lemma iter_xO p n : Z.pos (Pos.iter xO p n) = Z.pos p * 2 ^ Z.pos n.
Proof.
  revert p. induction n as [|n IH] using Pos.peano_ind; intros p; [cbn; lia|].
  rewrite Pos.iter_succ, Pos2Z.inj_xO, IH, Pos2Z.inj_succ, Z.pow_succ_r by lia. lia.
Qed.

(** A mantissa aligned to a lower exponent keeps its value. *)
Lemma shl_align_spec m e f mz ez :
  shl_align m e f = (mz, ez) ->
  (e <= f /\ mz = m /\ ez = e) \/ (f < e /\ Z.pos mz = Z.pos m * 2 ^ (e - f) /\ ez = f).
Proof.
  unfold shl_align. destruct (f - e) as [|d|d] eqn:E; intros [= <- <-]; [left; lia..|right].
  replace (e - f) with (Z.pos d) by lia. split_and!; [lia|apply iter_xO|done].
Qed.

Lemma binary_round_valid s m e : valid_binary prec emax (binary_round prec emax s m e) = true.
Proof.
  unfold binary_round. pose proof (digits2_pos_log2 m) as Hd.
  remember (fexp prec emax (Z.pos (digits2_pos m) + e)) as f eqn:Hf.
  destruct (shl_align m e f) as [mz ez] eqn:E. apply binary_round_aux_valid; [lia|].
  apply shl_align_spec in E as [(Hle & -> & ->)|(Hlt & Hmz & ->)]; cbn [Zdigits2]; [lia|].
  rewrite digits2_pos_log2, Hmz, Z.log2_mul_pow2 by lia.
  replace (e - f + Z.log2 (Z.pos m) + 1 + f) with (Z.pos (digits2_pos m) + e) by lia. lia.
Qed.

Lemma binary_normalize_valid m e s : valid_binary prec emax (binary_normalize prec emax m e s) = true.
Proof. destruct m; [done|apply binary_round_valid..]. Qed.

Lemma bounded_spec m e :
  bounded prec emax m e = true <-> fexp prec emax (Z.pos (digits2_pos m) + e) = e /\ e <= emax - prec.
Proof. unfold bounded, canonical_mantissa. lia. Qed.

(** A product of two valid floats has enough digits. *)
Lemma SFmul_valid x y :
  valid_binary prec emax x = true -> valid_binary prec emax y = true ->
  valid_binary prec emax (SFmul prec emax x y) = true.
Proof.
  destruct x as [| | |s m e], y as [| | |t n f]; try done. cbn [valid_binary SFmul].
  rewrite !bounded_spec, !digits2_pos_log2, !fexp_max. intros [Hx _] [Hy _].
  apply binary_round_aux_valid; [lia|]. rewrite Zdigits2_log2, fexp_max, Pos2Z.inj_mul by lia.
  pose proof (Z.log2_mul_below (Z.pos m) (Z.pos n) ltac:(lia) ltac:(lia)).
  pose proof (Z.log2_nonneg (Z.pos m)). pose proof (Z.log2_nonneg (Z.pos n)).
  assert (lowest < 0) by (unfold lowest, VmFloat.lowest, emin; lia). lia.
Qed.

Lemma SFdiv_valid x y :
  valid_binary prec emax (SFdiv prec emax x y) = true.
Proof.
  destruct x as [| | |s m e], y as [| | |t n f]; try done. cbn [valid_binary SFdiv].
  unfold SFdiv_core_binary. set (e' := Z.min _ _).
  set (m' := match e - f - e' with Z0 => _ | Zpos _ => _ | Zneg _ => _ end).
  assert (m' = Z.pos m * 2 ^ (e - f - e')) as Hm'.
  { unfold m'. destruct (e - f - e') as [|p|p] eqn:E; [lia| |unfold e' in E; lia].
    by rewrite Z.shiftl_mul_pow2 by lia. }
  clearbody m'.
  destruct (Z.div_eucl m' (Z.pos n)) as [q r] eqn:E.
  pose proof (Z_div_mod m' (Z.pos n) ltac:(lia)) as Hdiv. rewrite E in Hdiv. destruct Hdiv as [Hq Hr].
  assert (0 <= e - f - e') as Hs by (unfold e'; lia).
  assert (0 < m') as Hm by (rewrite Hm'; apply Z.mul_pos_pos; [lia|apply Z.pow_pos_nonneg; lia]).
  assert (0 <= q) as Hq0 by nia.
  apply binary_round_aux_valid; [done|].
  (* the quotient keeps the digits of the dividend that the divisor does not have *)
  assert (Z.log2 m' - Z.log2 (Z.pos n) <= Zdigits2 q) as Hdig.
  { destruct (Z.eq_dec q 0) as [->|].
    - assert (m' <= Z.pos n) as Hmn%Z.log2_le_mono by (clear - Hq Hr; lia). change (Zdigits2 0) with 0. lia.
    - rewrite Zdigits2_log2 by lia. enough (Z.log2 m' < Z.log2 q + Z.log2 (Z.pos n) + 2) by lia.
      apply Z.log2_lt_pow2; [done|]. destruct (Z.log2_spec q) as [_ H1]; [lia|].
      destruct (Z.log2_spec (Z.pos n)) as [_ H2]; [lia|]. unfold Z.succ in *.
      replace (Z.log2 q + Z.log2 (Z.pos n) + 2) with ((Z.log2 q + 1) + (Z.log2 (Z.pos n) + 1)) by lia.
      pose proof (Z.log2_nonneg q). pose proof (Z.log2_nonneg (Z.pos n)). rewrite Z.pow_add_r by lia. nia. }
  rewrite Hm', Z.log2_mul_pow2 in Hdig by lia. rewrite fexp_max.
  assert (e' <= Z.max (Z.log2 (Z.pos m) + e - (Z.log2 (Z.pos n) + f) - prec) lowest) as He'.
  { unfold e'. rewrite fexp_max, !Zdigits2_log2 by lia. lia. }
  lia.
Qed.

Lemma SFopp_valid x : valid_binary prec emax x = true -> valid_binary prec emax (SFopp x) = true.
Proof. by destruct x. Qed.

Lemma SFadd_valid x y :
  valid_binary prec emax x = true -> valid_binary prec emax y = true ->
  valid_binary prec emax (SFadd prec emax x y) = true.
Proof.
  intros Hx Hy. destruct x as [s| s| |s m e], y as [t| t| |t n f]; try done; try (by destruct s, t).
  apply binary_normalize_valid.
Qed.

Lemma SFsub_valid x y :
  valid_binary prec emax x = true -> valid_binary prec emax y = true ->
  valid_binary prec emax (SFsub prec emax x y) = true.
Proof.
  intros Hx Hy. destruct x as [s| s| |s m e], y as [t| t| |t n f]; try done; try (by destruct s, t).
  apply binary_normalize_valid.
Qed.

Lemma fused_valid a b c :
  valid_binary prec emax c = true -> valid_binary prec emax (fused fmt a b c) = true.
Proof.
  intros Hc. destruct a as [s| s| |s m e], b as [t| t| |t n f]; try done;
    destruct c as [u| u| |u k g]; try done; try (by destruct s, t, u);
    apply binary_normalize_valid.
Qed.

Hypothesis width_field : 0 < width fmt.
Hypothesis exponent_field : 1 < exponent_width fmt.

Lemma two_emax : 2 ^ exponent_width fmt = 2 * emax.
Proof. unfold emax, VmFloat.emax. rewrite <- Z.pow_succ_r by lia. f_equal. lia. Qed.

Lemma from_bits_valid bits : valid_binary prec emax (from_bits fmt bits) = true.
Proof.
  unfold from_bits. set (b := Z.of_N bits). set (M := b mod _). set (E := (b / _) mod _).
  assert (0 <= M < 2 ^ width fmt) as HM by (apply Z.mod_pos_bound, Z.pow_pos_nonneg; lia).
  assert (0 <= E < 2 ^ exponent_width fmt) as HE by (apply Z.mod_pos_bound, Z.pow_pos_nonneg; lia).
  clearbody M E. generalize (0 <? b / 2 ^ (width fmt + exponent_width fmt)). intros sign.
  rewrite two_emax in *. assert (lowest = 3 - emax - prec) as Hlow by done.
  assert (prec = width fmt + 1) as Hprec by done.
  destruct (E =? 2 * emax - 1) eqn:HE1; [by destruct (M =? 0)|].
  destruct (E =? 0) eqn:HE0.
  - destruct M as [|m|m]; [done| |done]. cbn [valid_binary]. rewrite bounded_spec, fexp_max. split; [|lia].
    pose proof (Zdigits2_bounds (Z.pos m) (width fmt) ltac:(lia) ltac:(lia) ltac:(lia)). cbn [Zdigits2] in *. lia.
  - destruct (M + 2 ^ width fmt) as [|m|m] eqn:Hm; [done| |done]. cbn [valid_binary].
    rewrite bounded_spec, fexp_max, digits2_pos_log2. split; [|lia].
    replace (Z.log2 (Z.pos m)) with (width fmt); [lia|]. symmetry. apply Z.log2_unique; [lia|].
    rewrite Z.pow_succ_r by lia. lia.
Qed.

Lemma join_range s E M :
  0 <= E < 2 ^ exponent_width fmt -> 0 <= M < 2 ^ width fmt ->
  Z.of_N (join fmt s E M) = (if s then 2 ^ (width fmt + exponent_width fmt) else 0) + (E * 2 ^ width fmt + M) /\
  0 <= E * 2 ^ width fmt + M < 2 ^ (width fmt + exponent_width fmt).
Proof.
  intros HE HM. unfold join. rewrite Z.pow_add_r by lia.
  assert (0 <= E * 2 ^ width fmt + M < 2 ^ width fmt * 2 ^ exponent_width fmt) as H by nia.
  split; [|done]. destruct s; rewrite Z2N.id; lia.
Qed.

(** The encoding of a valid float that is neither zero nor a NaN *)
Definition plain_encoding (bits : N) : Prop :=
  exists s E M, bits = join fmt s E M /\ 0 <= E < 2 ^ exponent_width fmt /\ 0 <= M < 2 ^ width fmt /\
    0 < E * 2 ^ width fmt + M /\ (E = 2 ^ exponent_width fmt - 1 -> M = 0).

Lemma to_bits_plain x :
  valid_binary prec emax x = true ->
  match x with S754_nan | S754_zero _ => True | _ => plain_encoding (to_bits fmt x) end.
Proof.
  assert (0 < 2 ^ width fmt) as Hw by (apply Z.pow_pos_nonneg; lia).
  assert (lowest = 3 - emax - prec) as Hlow by done. assert (prec = width fmt + 1) as Hprec by done.
  destruct x as [s| s| |s m e]; try done; cbn [valid_binary to_bits].
  - intros _. exists s, (2 ^ exponent_width fmt - 1), 0. rewrite two_emax. split_and!; try lia; nia.
  - rewrite bounded_spec, fexp_max. intros [Hm He].
    destruct (Z.ltb_spec (Z.pos m) (2 ^ width fmt)) as [Hlt|Hge].
    + exists s, 0, (Z.pos m). rewrite two_emax. split_and!; try done; lia.
    + assert (width fmt <= Z.log2 (Z.pos m)) as Hl by (by apply Z.log2_le_pow2).
      rewrite digits2_pos_log2 in Hm. assert (Z.log2 (Z.pos m) = width fmt) as Hl' by lia.
      pose proof (Z.log2_spec (Z.pos m) ltac:(lia)) as [_ Hm2]. rewrite Hl', Z.pow_succ_r in Hm2 by lia.
      exists s, (e - lowest + 1), (Z.pos m - 2 ^ width fmt). rewrite two_emax. split_and!; try done; try lia; nia.
Qed.
End valid.

(** ** Canonical results *)

Lemma land_field b j k :
  (N.land b (N.shiftl (N.ones j) k) = N.shiftl ((b / 2 ^ k) mod 2 ^ j) k)%N.
Proof.
  rewrite <- N.land_ones, <- N.shiftr_div_pow2. apply N.bits_inj. intros n.
  rewrite N.land_spec. destruct (N.lt_ge_cases n k) as [Hn|Hn].
  - by rewrite !N.shiftl_spec_low, andb_false_r.
  - rewrite !N.shiftl_spec_high', N.land_spec, N.shiftr_spec' by done. do 2 f_equal. lia.
Qed.

(** The fields read back from a joined encoding *)
Lemma join_fields fmt s E M (Hw : 0 < width fmt) (He : 1 < exponent_width fmt) :
  0 <= E < 2 ^ exponent_width fmt -> 0 <= M < 2 ^ width fmt ->
  Z.of_N (join fmt s E M) mod 2 ^ width fmt = M /\
  (Z.of_N (join fmt s E M) / 2 ^ width fmt) mod 2 ^ exponent_width fmt = E.
Proof.
  intros HE HM. destruct (join_range fmt Hw He s E M HE HM) as [-> _]. rewrite Z.pow_add_r by lia.
  assert (0 < 2 ^ width fmt) by lia.
  replace ((if s then 2 ^ width fmt * 2 ^ exponent_width fmt else 0) + (E * 2 ^ width fmt + M))
    with (M + ((if s then 2 ^ exponent_width fmt else 0) + E) * 2 ^ width fmt) by (destruct s; lia).
  rewrite Z.mod_add, Z.div_add, Z.mod_small, (Z.div_small M) by lia. split; [done|].
  destruct s; [|by rewrite Z.mod_small by lia].
  replace (0 + (2 ^ exponent_width fmt + E)) with (E + 1 * 2 ^ exponent_width fmt) by lia.
  by rewrite Z.mod_add, Z.mod_small by lia.
Qed.

Lemma of_N_ones k : Z.of_N (N.ones k) = 2 ^ Z.of_N k - 1.
Proof.
  rewrite N.ones_equiv. assert (0 < 2 ^ k)%N by (apply N.neq_0_lt_0, N.pow_nonzero; lia).
  rewrite N2Z.inj_pred, N2Z.inj_pow by lia. change (Z.of_N 2) with 2. lia.
Qed.

(** The two checks of the type checker, for masks of the format's fields *)
Lemma plain_not_nan fmt bits (Hw : 0 < width fmt) (He : 1 < exponent_width fmt) :
  plain_encoding fmt bits ->
  let w := Z.to_N (width fmt) in let k := Z.to_N (exponent_width fmt) in
  (bits < 2 ^ (1 + w + k))%N /\ bits <> (2 ^ (w + k))%N /\
  (N.land bits (N.shiftl (N.ones k) w) = N.shiftl (N.ones k) w -> N.land bits (N.ones w) = 0%N).
Proof.
  intros (s & E & M & -> & HE & HM & Hpos & Hnan) w k.
  destruct (join_range fmt Hw He s E M HE HM) as [Hj Hr]. destruct (join_fields fmt s E M Hw He HE HM) as [Hm Hf].
  assert (Z.of_N (2 ^ (w + k)) = 2 ^ (width fmt + exponent_width fmt)) as Hp
    by (unfold w, k; rewrite N2Z.inj_pow, N2Z.inj_add, !Z2N.id by lia; done).
  assert (Z.of_N (2 ^ (1 + w + k)) = 2 * 2 ^ (width fmt + exponent_width fmt)) as Hp1.
  { replace (1 + w + k)%N with (N.succ (w + k)) by lia. rewrite N.pow_succ_r', N2Z.inj_mul, Hp. lia. }
  split_and!; [destruct s; lia..|].
  rewrite land_field, N.land_ones. rewrite !N.shiftl_mul_pow2. intros Hall.
  apply N.mul_cancel_r in Hall; [|by apply N.pow_nonzero].
  apply N2Z.inj. rewrite N2Z.inj_mod, N2Z.inj_pow. unfold w. rewrite Z2N.id by lia. change (Z.of_N 2) with 2.
  rewrite Hm. apply Hnan. rewrite <- Hf, <- (Z2N.id (width fmt)), <- (Z2N.id (exponent_width fmt)) by lia.
  fold w k. apply (f_equal Z.of_N) in Hall.
  rewrite N2Z.inj_mod, N2Z.inj_div, !N2Z.inj_pow, of_N_ones in Hall. done.
Qed.

Lemma plain_f32 bits : plain_encoding binary32 bits -> (bits < 2 ^ 32)%N /\ check_f32 bits = Ok tt.
Proof.
  intros H. destruct (plain_not_nan binary32 bits ltac:(done) ltac:(done) H) as (H1 & H2 & H3).
  split; [exact H1|]. unfold check_f32. destruct (N.eqb_spec bits 0x80000000) as [E|_]; [by destruct H2|].
  destruct (N.eqb_spec (N.land bits 0x7f800000) 0x7f800000) as [E|_]; [|done].
  by rewrite (H3 E : N.land bits 0x7fffff = 0%N).
Qed.

Lemma plain_f64 bits : plain_encoding binary64 bits -> (bits < 2 ^ 64)%N /\ check_f64 bits = Ok tt.
Proof.
  intros H. destruct (plain_not_nan binary64 bits ltac:(done) ltac:(done) H) as (H1 & H2 & H3).
  split; [exact H1|]. unfold check_f64. destruct (N.eqb_spec bits 0x8000000000000000) as [E|_]; [by destruct H2|].
  destruct (N.eqb_spec (N.land bits 0x7ff0000000000000) 0x7ff0000000000000) as [E|_]; [|done].
  by rewrite (H3 E : N.land bits 0x000fffffffffffff = 0%N).
Qed.

(** What an interchange format needs of its two widths *)
Definition format_ok (fmt : FloatFormat) : Prop :=
  0 < width fmt /\ 1 < exponent_width fmt /\ prec fmt < emax fmt.
Lemma binary32_ok : format_ok binary32. Proof. done. Qed.
Lemma binary64_ok : format_ok binary64. Proof. done. Qed.

Lemma float_arithmetic_valid fmt opcode values r :
  format_ok fmt -> Forall (fun x => valid_binary (prec fmt) (emax fmt) x = true) values ->
  float_arithmetic fmt opcode values = Ok r -> valid_binary (prec fmt) (emax fmt) r = true.
Proof.
  intros (Hw & He & Hp) Hv H. assert (1 < prec fmt) as Hp1 by (unfold prec; lia).
  unfold float_arithmetic in H.
  destruct opcode; try done; destruct values as [|a [|b [|c [|]]]]; try done; injection H as <-;
    repeat match goal with H : Forall _ (_ :: _) |- _ => apply Forall_cons in H as [? H] end.
  - by apply SFadd_valid.
  - by apply SFsub_valid.
  - by apply SFmul_valid.
  - by apply SFdiv_valid.
  - by apply SFopp_valid.
  - by apply fused_valid.
Qed.

Lemma canonical_plain fmt nan x :
  format_ok fmt -> valid_binary (prec fmt) (emax fmt) x = true ->
  canonical fmt nan x = nan \/ canonical fmt nan x = 0%N \/ plain_encoding fmt (canonical fmt nan x).
Proof.
  intros (Hw & He & Hp) Hx. pose proof (to_bits_plain fmt ltac:(unfold prec; lia) Hp Hw He x Hx) as H. destruct x; cbn; auto.
Qed.

(** The form of a stored float *)
Definition canonical_float (v : ConstValue) : Prop :=
  match cv_type v, cv_data v with
  | TF32, DF32Bits bits => (bits < 2 ^ 32)%N /\ check_f32 bits = Ok tt
  | TF64, DF64Bits bits => (bits < 2 ^ 64)%N /\ check_f64 bits = Ok tt
  | _, _ => False
  end.

Lemma read_floats_valid fmt (f : ConstValue -> fault_result spec_float) operands values :
  format_ok fmt -> (forall v x, f v = Ok x -> exists bits, x = from_bits fmt bits) ->
  map_res f operands = Ok values -> Forall (fun x => valid_binary (prec fmt) (emax fmt) x = true) values.
Proof.
  intros (Hw & He & Hp) Hf. revert values. induction operands as [|v l IH]; intros values H; cbn in H; [by simplify_eq|].
  apply bind_Ok in H as (x & Hx & H). apply bind_Ok in H as (xs & Hxs & [= <-]). constructor; [|auto].
  destruct (Hf _ _ Hx) as [bits ->]. by apply from_bits_valid.
Qed.

Lemma float_operation_canonical_form opcode operands t v :
  float_operation opcode operands t = Ok v -> cv_type v = t /\ canonical_float v.
Proof.
  unfold float_operation. intros (data & H & [= <-])%bind_Ok. cbn [cv_type cv_data]. split; [done|].
  unfold canonical_float. cbn [cv_type cv_data].
  destruct t; try done; apply bind_Ok in H as (values & Hv & H); apply bind_Ok in H as (r & Hr & [= <-]).
  - assert (valid_binary (prec binary32) (emax binary32) r = true) as Hvalid.
    { eapply float_arithmetic_valid; [apply binary32_ok| |exact Hr].
      eapply read_floats_valid; [apply binary32_ok| |exact Hv]. intros w x Hw.
      cbn beta in Hw. destruct (cv_data w); try done; injection Hw as <-; by eexists. }
    unfold canonical_f32. destruct (canonical_plain binary32 CANONICAL_NAN_F32 r binary32_ok Hvalid) as [-> |[-> |H]];
      [done|done|by apply plain_f32].
  - assert (valid_binary (prec binary64) (emax binary64) r = true) as Hvalid.
    { eapply float_arithmetic_valid; [apply binary64_ok| |exact Hr].
      eapply read_floats_valid; [apply binary64_ok| |exact Hv]. intros w x Hw.
      cbn beta in Hw. destruct (cv_data w); try done; injection Hw as <-; by eexists. }
    unfold canonical_f64. destruct (canonical_plain binary64 CANONICAL_NAN_F64 r binary64_ok Hvalid) as [-> |[-> |H]];
      [done|done|by apply plain_f64].
Qed.

(** Every float an operation of the machine stores has the type of its
    register and the canonical form the type checker asks of constants: it is the
    one quiet NaN, or no NaN and not negative zero. *)
Theorem float_results_canonical (opcode : Opcode) (operands : list ConstValue) (t : TypeExpr) (v : ConstValue)
    (H : float_operation opcode operands t = Ok v) :
  cv_type v = t /\
  match cv_type v, cv_data v with
  | TF32, DF32Bits bits => (bits < 2 ^ 32)%N /\ check_f32 bits = Ok tt
  | TF64, DF64Bits bits => (bits < 2 ^ 64)%N /\ check_f64 bits = Ok tt
  | _, _ => False
  end.
Proof. by apply float_operation_canonical_form in H. Qed.

(** Zero over zero is the quiet NaN. *)
Lemma float_results_canonical_witness :
  let zero := mkConstValue TF32 (DF32Bits 0) in
  let result := mkConstValue TF32 (DF32Bits CANONICAL_NAN_F32) in
  float_operation OpFloatDiv [zero; zero] TF32 = Ok result /\ check_f32 CANONICAL_NAN_F32 = Ok tt.
Proof.
  intros zero result. split; [by vm_compute|].
  apply (float_results_canonical OpFloatDiv [zero; zero] TF32 result eq_refl).
Defined.
