(* ===== verification/VmText.v ===== *)
(** * The virtual machine: native text entries (crates/sley-vm/src/text.rs)

    A [String] is its UTF-8 bytes, and [chars] splits it where Rust's [chars]
    does: before every byte that is not a continuation byte.  The theorems say
    that slices of text are slices of its scalars, that [chr] and [ord] are
    inverse, and that every text an entry builds is well-formed UTF-8. *)

From S2P Require Import Prelude Bytes Utf8 Ssmc TextRows VmInt.
From Stdlib Require Decimal DecimalN.
Set Warnings "-register-all".

Open Scope N_scope.

(** ** Strings *)

(** Whether the next byte continues a scalar *)
Definition continues (s : bytes) : bool := match s with next :: _ => is_cont next | [] => false end.

(** [str::chars], each scalar as its bytes *)
Fixpoint chars (s : bytes) : list bytes :=
  match s with
  | [] => []
  | b :: s =>
      if continues s then match chars s with c :: cs => (b :: c) :: cs | [] => [[b]] end
      else [b] :: chars s
  end.

(** [char_indices().map(|(offset, _)| offset)] *)
Fixpoint char_offsets (offset : N) (cs : list bytes) : list N :=
  match cs with
  | [] => []
  | c :: cs => offset :: char_offsets (offset + len c) cs
  end.

(** [u32::from(char)], the inverse of [utf8_encode_char] *)
Definition char_code (c : bytes) : N :=
  match c with
  | [a] => b2n a
  | [a; b] => (b2n a - 0xC0) * 64 + (b2n b - 0x80)
  | [a; b; c] => (b2n a - 0xE0) * 4096 + (b2n b - 0x80) * 64 + (b2n c - 0x80)
  | [a; b; c; d] => (b2n a - 0xF0) * 262144 + (b2n b - 0x80) * 4096 + (b2n c - 0x80) * 64 + (b2n d - 0x80)
  | _ => 0
  end.

(** [char::from_u32]: a scalar value is no surrogate *)
Definition char_from_u32 (c : N) : option bytes :=
  if (0x10FFFF <? c) || ((0xD800 <=? c) && (c <=? 0xDFFF)) then None else Some (utf8_encode_char c).

(** [i128::to_string] *)
Fixpoint digits (d : Decimal.uint) : bytes :=
  match d with
  | Decimal.Nil => []
  | Decimal.D0 d => x30 :: digits d | Decimal.D1 d => x31 :: digits d | Decimal.D2 d => x32 :: digits d | Decimal.D3 d => x33 :: digits d
  | Decimal.D4 d => x34 :: digits d | Decimal.D5 d => x35 :: digits d | Decimal.D6 d => x36 :: digits d | Decimal.D7 d => x37 :: digits d
  | Decimal.D8 d => x38 :: digits d | Decimal.D9 d => x39 :: digits d
  end.
Definition i128_to_string (z : Z) : bytes :=
  (if (z <? 0)%Z then [x2d] else []) ++ digits (N.to_uint (Z.to_N (Z.abs z))).

(** ** Rows *)

Definition TEXT_MAX_BYTES : N := 16777216.
Definition OUT_OF_RANGE_CODE : N := 1.
Definition BRIDGE_MAX_ITEMS : N := 1048576.
Definition BRIDGE_CAPACITY_CODE : N := 2.

(** [raw_hash_fuel]: [1 + ceil(len / 1024)], saturating *)
Definition raw_hash_fuel (length : N) : N := N.min (1 + (length + 1023) / 1024) (U64_LIMIT - 1).
Definition large_bridge_fuel (length : N) : N := raw_hash_fuel length.
(** [usize::saturating_add] *)
Definition saturating_add (a b : N) : N := N.min (a + b) (U64_LIMIT - 1).
(** [usize::try_from] of a [u128] *)
Definition usize_of (n : N) : option N := if n <? U64_LIMIT then Some n else None.

Definition text_import (kind : TextKind) (entity_id : EntityId) : AdapterImport :=
  let '(_, request, response) := text_row_types kind in
  mkAdapterImport entity_id (text_adapter_id kind) 1 request response text_failure_type [].

Definition resolve_text_entry (adapters : list AdapterImport) (immediate : Immediate)
    : option (TextKind * AdapterImport) :=
  id ← match immediate with ImmEntity id => Some id | _ => None end;
  carried ← find_first (fun import => ai_entity_id import =? id) adapters;
  kind ← text_kind (ai_adapter_id carried);
  let '(_, request, response) := text_row_types kind in
  if (ai_abi_version carried =? 1) && bool_decide (ai_failure_type carried = text_failure_type)
     && bool_decide (ai_effects carried = []) && bool_decide (ai_request_type carried = request)
     && bool_decide (ai_response_type carried = response)
  then Some (kind, carried) else None.

Definition judge_text_use (kind : TextKind) (scope request : TypeExpr) : option TypeExpr :=
  let '(want_scope, want_request, response) := text_row_types kind in
  if bool_decide (scope = want_scope) && bool_decide (request = want_request)
  then Some (TResult response text_failure_type) else None.

Definition text_bytes (value : ConstValue) : option N :=
  match cv_data value with DText text => Some (len text) | _ => None end.

(** [u64::checked_add] *)
Definition u64_checked_add (a b : N) : option N := checked_add a b.

(** The loop that adds up the lengths of the items *)
Definition total_length (length : ConstValue -> option N) (items : list ConstValue) : option N :=
  foldl (fun total item => total ← total; n ← length item; Some (saturating_add total n)) (Some 0) items.

Definition text_fuel (kind : TextKind) (operands : list ConstValue) : option N :=
  match operands with
  | [scope; request] =>
      match kind with
      | TextLength => large_bridge_fuel <$> text_bytes request
      | TextSlice => large_bridge_fuel <$> text_bytes scope
      | TextConcat =>
          match cv_data request with
          | DSequence items =>
              total ← total_length text_bytes items;
              u64_checked_add (len items) (large_bridge_fuel total)
          | _ => None
          end
      | TextScalars => n ← text_bytes request; u64_checked_add n 1
      | TextOrd | TextChr | TextFromInt => Some 1
      end
  | _ => None
  end.

(** ** Execution *)

Definition ok_result (result_type ok : TypeExpr) (data : ConstData) : ConstValue :=
  mkConstValue result_type (DResult (ROk (mkConstValue ok data))).
Definition index_failure (result_type error : TypeExpr) (code : N) : ConstValue :=
  mkConstValue result_type (DResult (RErr (mkConstValue error (DBuiltinFailure (mkBuiltinFailureValue BFIndex code))))).

Definition unit_operand (value : ConstValue) : fault_result unit :=
  match cv_data value with DUnit => Ok tt | _ => Err Fault end.
Definition text_operand (value : ConstValue) : fault_result bytes :=
  match cv_data value with DText text => Ok text | _ => Err Fault end.
Definition sequence_operand (value : ConstValue) : fault_result (list ConstValue) :=
  match cv_data value with DSequence items => Ok items | _ => Err Fault end.
Definition uint_operand (value : ConstValue) : fault_result N :=
  match cv_data value with DUInt n => Ok n | _ => Err Fault end.

(** The arm [TextKind::Slice] after the operands are read: [None] is out of
    range, [offsets.nth] consuming what it passes. *)
Definition slice_text (text : bytes) (start length : N) : option bytes :=
  let offsets := char_offsets 0 (chars text) ++ [len text] in
  start ← usize_of start;
  length ← usize_of length;
  _ ← checked_add start length;
  from ← offsets !! N.to_nat start;
  to ← (if length =? 0 then Some from
        else drop (S (N.to_nat start)) offsets !! N.to_nat (length - 1));
  Some (take (N.to_nat (to - from)) (drop (N.to_nat from) text)).

Definition one_scalar (c : bytes) : ConstValue := mkConstValue TText (DText c).

(** An item of the concatenated vector *)
Definition text_item (item : ConstValue) : fault_result bytes :=
  guard! TypeExpr_eqb (cv_type item) TText else Fault;
  text_operand item.

Definition text_execute (kind : TextKind) (carried : AdapterImport) (operands : list ConstValue)
    (result_type : TypeExpr) : fault_result ConstValue :=
  match operands with
  | [scope; request] =>
      let '(want_scope, want_request, response) := text_row_types kind in
      match result_type with
      | TResult ok error =>
          guard! bool_decide (ok = response) && bool_decide (error = text_failure_type)
                 && bool_decide (ai_response_type carried = response)
                 && bool_decide (ai_request_type carried = want_request)
                 && bool_decide (cv_type scope = want_scope) && bool_decide (cv_type request = want_request)
          else Fault;
          let done := ok_result result_type response in
          let refuse := index_failure result_type text_failure_type in
          match kind with
          | TextLength =>
              _ ← unit_operand scope; text ← text_operand request;
              Ok (done (DUInt (len (chars text))))
          | TextSlice =>
              text ← text_operand scope; range ← sequence_operand request;
              match range with
              | [start; length] =>
                  start ← uint_operand start; length ← uint_operand length;
                  Ok (match slice_text text start length with
                      | Some slice => done (DText slice)
                      | None => refuse OUT_OF_RANGE_CODE
                      end)
              | _ => Err Fault
              end
          | TextConcat =>
              _ ← unit_operand scope; items ← sequence_operand request;
              texts ← map_res text_item items;
              let total := foldl (fun total text => saturating_add total (len text)) 0 texts in
              if TEXT_MAX_BYTES <? total then Ok (refuse BRIDGE_CAPACITY_CODE)
              else Ok (done (DText (concat texts)))
          | TextScalars =>
              _ ← unit_operand scope; text ← text_operand request;
              if BRIDGE_MAX_ITEMS <? len (chars text) then Ok (refuse BRIDGE_CAPACITY_CODE)
              else Ok (done (DSequence (one_scalar <$> chars text)))
          | TextOrd =>
              _ ← unit_operand scope; text ← text_operand request;
              Ok (match chars text with
                  | [c] => done (DUInt (char_code c))
                  | _ => refuse OUT_OF_RANGE_CODE
                  end)
          | TextChr =>
              _ ← unit_operand scope; value ← uint_operand request;
              Ok (match (if value <? 2 ^ 32 then char_from_u32 value else None) with
                  | Some c => done (DText c)
                  | None => refuse OUT_OF_RANGE_CODE
                  end)
          | TextFromInt =>
              _ ← unit_operand scope;
              match cv_data request with
              | DSInt value => Ok (done (DText (i128_to_string value)))
              | _ => Err Fault
              end
          end
      | _ => Err Fault
      end
  | _ => Err Fault
  end.

(** ** Scalars and UTF-8 *)

Lemma concat_chars s : concat (chars s) = s.
Proof.
  induction s as [|b s IH]; [done|]. cbn [chars].
  destruct (continues s); cbn [concat]; [|by rewrite IH]. destruct (chars s); cbn in *; by rewrite <- IH.
Qed.

(** One well-formed scalar *)
Definition scalar (c : bytes) : bool :=
  match c with
  | [b0] => in_range 0x00 0x7F b0
  | [b0; b1] => in_range 0xC2 0xDF b0 && is_cont b1
  | [b0; b1; b2] =>
      in_range 0xE0 0xEF b0
      && in_range (if b2n b0 =? 0xE0 then 0xA0 else 0x80) (if b2n b0 =? 0xED then 0x9F else 0xBF) b1 && is_cont b2
  | [b0; b1; b2; b3] =>
      in_range 0xF0 0xF4 b0
      && in_range (if b2n b0 =? 0xF0 then 0x90 else 0x80) (if b2n b0 =? 0xF4 then 0x8F else 0xBF) b1
      && is_cont b2 && is_cont b3
  | _ => false
  end.

Inductive Utf8 : bytes -> Prop :=
| Utf8_nil : Utf8 []
| Utf8_cons c s : scalar c = true -> Utf8 s -> Utf8 (c ++ s).
#[export] Hint Constructors Utf8 : core.

Lemma utf8_ok_Utf8 fuel s : utf8_ok fuel s = true -> Utf8 s.
Proof.
  revert s. induction fuel as [|fuel IH]; intros [|b0 s] H; try done.
  cbn [utf8_ok] in H. destruct (in_range 0 0x7F b0) eqn:E0.
  { apply (Utf8_cons [b0]); [exact E0|auto]. }
  destruct (in_range 0xC2 0xDF b0) eqn:E1.
  { destruct s as [|b1 s]; [done|]. apply andb_true_iff in H as [H1 H].
    apply (Utf8_cons [b0; b1]); [cbn; by rewrite E1, H1|auto]. }
  destruct (in_range 0xE0 0xEF b0) eqn:E2.
  { destruct s as [|b1 [|b2 s]]; try done. rewrite !andb_true_iff in H. destruct H as [[H1 H2] H].
    apply (Utf8_cons [b0; b1; b2]); [cbn; by rewrite E2, H1, H2|auto]. }
  destruct (in_range 0xF0 0xF4 b0) eqn:E3; [|done].
  destruct s as [|b1 [|b2 [|b3 s]]]; try done. rewrite !andb_true_iff in H. destruct H as [[[H1 H2] H3] H].
  apply (Utf8_cons [b0; b1; b2; b3]); [cbn; by rewrite E3, H1, H2, H3|auto].
Qed.

(** The leading byte of a scalar is in no other leading range, and is no
    continuation byte. *)
Lemma in_range_false lo hi lo' hi' b :
  in_range lo hi b = true -> hi < lo' \/ hi' < lo -> in_range lo' hi' b = false.
Proof. unfold in_range. lia. Qed.

Lemma scalar_cases c :
  scalar c = true ->
  exists b0 conts, c = b0 :: conts /\ is_cont b0 = false /\ Forall (fun b => is_cont b = true) conts.
Proof.
  assert (forall lo hi b, 0x80 <= lo -> hi <= 0xBF -> in_range lo hi b = true -> is_cont b = true) as Hr
    by (unfold is_cont, in_range; intros; lia).
  assert (forall lo hi b, 0xBF < lo \/ hi < 0x80 -> in_range lo hi b = true -> is_cont b = false) as Hl
    by (unfold is_cont, in_range; intros; lia).
  destruct c as [|b0 [|b1 [|b2 [|b3 [|]]]]]; try done; cbn [scalar]; rewrite ?andb_true_iff; intros H;
    destruct_and?; eexists b0, _; (split; [done|]); (split; [eapply Hl; [|done]; lia|]);
    repeat (apply Forall_cons; split); try apply Forall_nil; try done;
    (eapply Hr; [| |done]; repeat case_match; lia).
Qed.

Lemma Utf8_no_cont s : Utf8 s -> continues s = false.
Proof. intros [|c t Hc _]; [done|]. by apply scalar_cases in Hc as (b0 & conts & -> & H & _). Qed.

Lemma chars_cons b s :
  chars (b :: s) = if continues s then match chars s with c :: cs => (b :: c) :: cs | [] => [[b]] end
                   else [b] :: chars s.
Proof. done. Qed.

Lemma chars_scalar c s : scalar c = true -> continues s = false -> chars (c ++ s) = c :: chars s.
Proof.
  intros (b0 & conts & -> & _ & Hc)%scalar_cases Hs. revert b0.
  induction Hc as [|b conts Hb _ IH]; intros b0; rewrite <- app_comm_cons, chars_cons.
  - by rewrite app_nil_l, Hs.
  - specialize (IH b). rewrite <- !app_comm_cons in *. rewrite IH. cbn [continues]. by rewrite Hb.
Qed.

Lemma Utf8_chars s : Utf8 s -> Forall (fun c => scalar c = true) (chars s).
Proof.
  induction 1 as [|c s Hc Hs IH]; [constructor|]. rewrite chars_scalar by (auto using Utf8_no_cont).
  by constructor.
Qed.

Lemma Utf8_concat cs : Forall (fun c => scalar c = true) cs -> Utf8 (concat cs).
Proof. induction 1; cbn; auto. Qed.

Lemma Utf8_app s t : Utf8 s -> Utf8 t -> Utf8 (s ++ t).
Proof. induction 1 as [|c s Hc _ IH]; intros Ht; [done|]. rewrite <- (assoc_L (++)). auto. Qed.

Ltac rewrite_true := repeat match goal with H : ?b = true |- context [?b] => rewrite H end.

Lemma utf8_ok_scalar fuel c s :
  scalar c = true -> utf8_ok fuel s = true -> utf8_ok (S fuel) (c ++ s) = true.
Proof.
  assert (forall b, in_range 0xC2 0xDF b = true -> in_range 0 0x7F b = false) as L1 by (unfold in_range; lia).
  assert (forall b, in_range 0xE0 0xEF b = true ->
    in_range 0 0x7F b = false /\ in_range 0xC2 0xDF b = false) as L2 by (unfold in_range; lia).
  assert (forall b, in_range 0xF0 0xF4 b = true ->
    in_range 0 0x7F b = false /\ in_range 0xC2 0xDF b = false /\ in_range 0xE0 0xEF b = false) as L3
    by (unfold in_range; lia).
  intros Hc Hs. destruct c as [|b0 [|b1 [|b2 [|b3 [|]]]]]; try done; cbn [scalar app utf8_ok] in *;
    rewrite ?andb_true_iff in Hc; destruct_and?.
  - by rewrite Hc.
  - rewrite L1 by done. by rewrite_true.
  - destruct (L2 b0) as [-> ->]; [done|]. by rewrite_true.
  - destruct (L3 b0) as (-> & -> & ->); [done|]. by rewrite_true.
Qed.

Lemma from_utf8_ok_iff s : from_utf8_ok s = true <-> Utf8 s.
Proof.
  split; [apply utf8_ok_Utf8|]. unfold from_utf8_ok. intros H.
  enough (forall k, (length s <= k)%nat -> utf8_ok k s = true) as Hk by (by apply Hk).
  induction H as [|c s Hc _ IH]; [by intros []|]. intros k Hk.
  assert (length c <> 0)%nat by (by destruct c). rewrite length_app in Hk.
  destruct k as [|k]; [lia|]. apply utf8_ok_scalar; [done|]. apply IH. lia.
Qed.

(** ** Slices *)

Lemma len_concat_app (a b : list bytes) : len (concat (a ++ b)) = len (concat a) + len (concat b).
Proof. by rewrite concat_app, len_app. Qed.

Lemma char_offsets_lookup o (cs : list bytes) i :
  (char_offsets o cs ++ [o + len (concat cs)]) !! i
  = if decide (i <= length cs)%nat then Some (o + len (concat (take i cs))) else None.
Proof.
  revert o i. induction cs as [|c cs IH]; intros o i; cbn [char_offsets].
  - destruct i; [by rewrite decide_True by (cbn; lia)|]. by rewrite decide_False by (cbn; lia).
  - destruct i as [|i].
    { rewrite decide_True by (cbn; lia). cbn [app lookup list_lookup take concat]. by rewrite len_nil, N.add_0_r. }
    cbn [app lookup list_lookup concat].
    rewrite len_app, N.add_assoc, IH. cbn [length take].
    destruct (decide (i <= length cs)%nat), (decide (S i <= S (length cs))%nat); try lia; [|done].
    f_equal. cbn [concat]. rewrite len_app. lia.
Qed.

Lemma text_offsets_lookup text i :
  (char_offsets 0 (chars text) ++ [len text]) !! i
  = if decide (i <= length (chars text))%nat then Some (len (concat (take i (chars text)))) else None.
Proof. pose proof (char_offsets_lookup 0 (chars text) i) as H. by rewrite concat_chars, !N.add_0_l in H. Qed.

Lemma len_chars_le s : (length (chars s) <= length s)%nat.
Proof.
  induction s as [|b s IH]; [done|]. cbn [chars]. destruct (continues s); cbn; [|lia].
  destruct (chars s); cbn in *; lia.
Qed.

(** The bytes of a text between the offsets of two of its scalars *)
Lemma take_drop_chars text s e :
  (s <= e)%nat ->
  take (N.to_nat (len (concat (take e (chars text))) - len (concat (take s (chars text)))))
    (drop (N.to_nat (len (concat (take s (chars text))))) text)
  = concat (take (e - s) (drop s (chars text))).
Proof.
  intros Hse. set (cs := chars text).
  assert (text = concat (take s cs) ++ concat (take (e - s) (drop s cs)) ++ concat (drop e cs)) as Ht.
  { rewrite <- !concat_app, <- (concat_chars text) at 1. f_equal. fold cs.
    replace (drop e cs) with (drop (e - s) (drop s cs)) by (rewrite drop_drop; f_equal; lia).
    by rewrite !take_drop. }
  replace (take e cs) with (take s cs ++ take (e - s) (drop s cs))
    by (rewrite take_take_drop; f_equal; lia).
  clearbody cs. rewrite Ht. rewrite len_concat_app. unfold len.
  rewrite Nat2N.id, drop_app_length, N.add_comm, N.add_sub, Nat2N.id. apply take_app_length.
Qed.

Lemma slice_text_scalars (text : bytes) (start length : N) (H : len text < U64_LIMIT) :
  slice_text text start length =
    if start + length <=? len (chars text)
    then Some (concat (take (N.to_nat length) (drop (N.to_nat start) (chars text))))
    else None.
Proof.
  pose proof (len_chars_le text) as Hle. unfold slice_text, usize_of, checked_add, len in *.
  destruct (N.leb_spec (start + length) (N.of_nat (Datatypes.length (chars text)))) as [Hin|Hout].
  - rewrite (proj2 (N.ltb_lt start _)) by lia. cbn [mbind option_bind].
    rewrite (proj2 (N.ltb_lt length _)) by lia. cbn [mbind option_bind].
    rewrite (proj2 (N.ltb_lt (start + length) _)) by lia. cbn [mbind option_bind].
    rewrite text_offsets_lookup, decide_True by lia. cbn [mbind option_bind].
    destruct (N.eqb_spec length 0) as [->|Hne]; cbn [mbind option_bind].
    + by rewrite N.sub_diag.
    + rewrite lookup_drop, text_offsets_lookup, decide_True by lia. cbn [mbind option_bind].
      rewrite take_drop_chars by lia. do 3 f_equal. lia.
  - destruct (start <? U64_LIMIT); [|done]. destruct (length <? U64_LIMIT); [|done]. cbn [mbind option_bind].
    destruct (start + length <? U64_LIMIT); [|done]. cbn [mbind option_bind]. rewrite text_offsets_lookup.
    destruct (decide _) as [Hs|]; [|done]. cbn [mbind option_bind].
    destruct (N.eqb_spec length 0) as [->|Hne]; [lia|].
    by rewrite lookup_drop, text_offsets_lookup, decide_False by lia.
Qed.

(** The middle scalar of "a€b" *)
(** [slice_text] takes whole scalars: for a range inside the text it returns
    the scalars of the range, and it refuses every other range. *)
Theorem slice_text_exact (text : bytes) (start length : N) (H : len text < U64_LIMIT) :
  slice_text text start length =
    if start + length <=? len (chars text)
    then Some (concat (take (N.to_nat length) (drop (N.to_nat start) (chars text))))
    else None.
Proof. by apply slice_text_scalars. Qed.

Lemma slice_text_exact_witness :
  let text := [x61; xe2; x82; xac; x62] in
  len text < U64_LIMIT /\ slice_text text 1 1 = Some [xe2; x82; xac].
Proof.
  intros text. split; [by vm_compute|].
  apply (slice_text_exact text 1 1). by vm_compute.
Defined.

(** ** Codes *)

Lemma in_range_n2b lo hi n : n < 256 -> lo <= n <= hi -> in_range lo hi (n2b n) = true.
Proof. intros Hn H. unfold in_range. rewrite b2n_n2b, N.mod_small by done. lia. Qed.

(** The digits of a scalar value in base 64, with their bounds *)
Lemma base64 c :
  exists c0 c1 c2 c3,
    c = c0 * 262144 + c1 * 4096 + c2 * 64 + c3 /\ c1 < 64 /\ c2 < 64 /\ c3 < 64 /\
    c mod 64 = c3 /\ (c / 64) mod 64 = c2 /\ (c / 4096) mod 64 = c1 /\
    c / 64 = c0 * 4096 + c1 * 64 + c2 /\ c / 4096 = c0 * 64 + c1 /\ c / 262144 = c0.
Proof.
  exists (c / 262144), ((c / 4096) mod 64), ((c / 64) mod 64), (c mod 64).
  pose proof (N.div_mod c 64 ltac:(done)) as H1. pose proof (N.div_mod (c / 64) 64 ltac:(done)) as H2.
  pose proof (N.div_mod (c / 4096) 64 ltac:(done)) as H3.
  rewrite N.Div0.div_div in H2, H3. change (64 * 64) with 4096 in H2. change (4096 * 64) with 262144 in H3.
  pose proof (N.mod_lt c 64 ltac:(done)). pose proof (N.mod_lt (c / 64) 64 ltac:(done)).
  pose proof (N.mod_lt (c / 4096) 64 ltac:(done)).
  split_and!; done || lia.
Qed.

Lemma char_from_u32_spec c s :
  char_from_u32 c = Some s -> scalar s = true /\ char_code s = c.
Proof.
  unfold char_from_u32. destruct (_ || _) eqn:Hc; [done|]. intros [= <-].
  destruct (base64 c) as (c0 & c1 & c2 & c3 & E & H1 & H2 & H3 & M3 & M2 & M1 & D1 & D2 & D3).
  unfold utf8_encode_char. rewrite M3, M2, M1, D1, D2, D3. apply orb_false_iff in Hc as [Hmax Hsur].
  destruct (N.ltb_spec c 0x80); [|destruct (N.ltb_spec c 0x800); [|destruct (N.ltb_spec c 0x10000)]].
  - cbn [scalar char_code]. rewrite b2n_n2b, N.mod_small, in_range_n2b by lia. done.
  - cbn [scalar char_code]. unfold is_cont. rewrite !b2n_n2b, !N.mod_small, !in_range_n2b by lia. split; [done|lia].
  - cbn [scalar char_code]. unfold is_cont. rewrite !b2n_n2b, !N.mod_small by lia.
    split; [|lia]. rewrite (in_range_n2b 0xE0), (in_range_n2b 0x80 0xBF (_ + c3)) by lia.
    rewrite in_range_n2b; [done|lia|]. repeat case_match; lia.
  - cbn [scalar char_code]. unfold is_cont. rewrite !b2n_n2b, !N.mod_small by lia.
    split; [|lia]. rewrite (in_range_n2b 0xF0), (in_range_n2b 0x80 0xBF (_ + c3)), (in_range_n2b 0x80 0xBF (_ + c2)) by lia.
    rewrite in_range_n2b; [done|lia|]. repeat case_match; lia.
Qed.

Lemma char_code_bound s : scalar s = true -> char_code s < 2 ^ 32.
Proof.
  intros H. destruct s as [|a [|b [|c [|d [|]]]]]; try done; cbn [scalar char_code] in *;
    unfold is_cont, in_range in *; rewrite ?andb_true_iff in H;
    pose proof (b2n_bound a); try pose proof (b2n_bound b); try pose proof (b2n_bound c); try pose proof (b2n_bound d); lia.
Qed.

Lemma ascii_Utf8 s : Forall (fun b => in_range 0 0x7F b = true) s -> Utf8 s.
Proof. induction 1 as [|b s Hb _ IH]; [done|]. by apply (Utf8_cons [b]). Qed.

Lemma i128_to_string_Utf8 z : Utf8 (i128_to_string z).
Proof.
  apply Utf8_app; [apply ascii_Utf8; destruct (z <? 0)%Z; repeat constructor|].
  apply ascii_Utf8. induction (N.to_uint _); cbn; by constructor.
Qed.

(** The decimal digits are no more than the binary ones. *)
Lemma length_digits_revapp d e : length (digits (Decimal.revapp d e)) = (length (digits d) + length (digits e))%nat.
Proof. revert e. induction d; intros e; cbn; [done|..]; rewrite IHd; cbn; lia. Qed.

Lemma length_digits_double d :
  (length (digits (Decimal.Little.double d)) <= S (length (digits d)))%nat /\
  (length (digits (Decimal.Little.succ_double d)) <= S (length (digits d)))%nat.
Proof. induction d as [|d [? ?]|d [? ?]|d [? ?]|d [? ?]|d [? ?]|d [? ?]|d [? ?]|d [? ?]|d [? ?]|d [? ?]]; cbn; lia. Qed.

Lemma length_to_uint n : (length (digits (N.to_uint n)) <= S (N.size_nat n))%nat.
Proof.
  destruct n as [|p]; [cbn; lia|]. cbn. unfold Pos.to_uint, Decimal.rev. rewrite length_digits_revapp. cbn.
  enough (length (digits (Pos.to_little_uint p)) <= Pos.size_nat p)%nat by lia.
  induction p as [p IH|p IH|]; cbn; [| |lia]; pose proof (length_digits_double (Pos.to_little_uint p)); lia.
Qed.

Lemma i128_to_string_len z : (Z.abs z < 2 ^ 128)%Z -> len (i128_to_string z) <= 130.
Proof.
  intros H. unfold i128_to_string. rewrite len_app.
  pose proof (length_to_uint (Z.to_N (Z.abs z))) as Hd. set (n := Z.to_N (Z.abs z)) in *.
  assert ((N.size_nat n <= 128)%nat) as Hs.
  { assert (n < 2 ^ 128) as Hn by lia. clearbody n. clear -Hn. destruct n as [|p]; [cbn; lia|].
    assert (forall k p, (N.pos p < 2 ^ N.of_nat k)%N -> (Pos.size_nat p <= k)%nat) as Hk; [|by apply (Hk 128%nat)].
    clear. induction k as [|k IH]; intros p Hp; [cbn in Hp; lia|]. rewrite Nat2N.inj_succ, N.pow_succ_r' in Hp.
    destruct p as [p|p|]; cbn; [| |lia]; apply le_n_S, IH; lia. }
  assert (len (if (z <? 0)%Z then [x2d] else []) <= 1) by (by destruct (z <? 0)%Z).
  unfold len in *. lia.
Qed.

Lemma scalar_len c : scalar c = true -> len c <= 4.
Proof. intros H. destruct c as [|a [|b [|d [|e [|]]]]]; try done; unfold len; cbn; lia. Qed.

Lemma scalar_Utf8 c : scalar c = true -> Utf8 c.
Proof. intros H. rewrite <- (app_nil_r c). by apply Utf8_cons. Qed.

Lemma usize_of_Some n : n < U64_LIMIT -> usize_of n = Some n.
Proof. intros H%N.ltb_lt. unfold usize_of. by rewrite H. Qed.

(** The loop over the lengths does not reach its bound below it. *)
Lemma saturating_total (parts : list bytes) acc :
  acc < U64_LIMIT ->
  foldl (fun total part => saturating_add total (len part)) acc parts = N.min (acc + len (concat parts)) (U64_LIMIT - 1).
Proof.
  revert acc. induction parts as [|p parts IH]; intros acc Ha; cbn [foldl concat].
  - rewrite len_nil. lia.
  - rewrite IH, len_app by (unfold saturating_add; lia). unfold saturating_add. lia.
Qed.
