(* ===== verification/VmBridge.v ===== *)
(** * The virtual machine: host bridge entries (crates/sley-vm/src/extended.rs)

    The pure imports an [adapter_invoke] may name: conversions between bytes and
    vectors, the push, raw hashing, and byte strings.  How an immediate is
    resolved to a row of the import inventory, what a use costs, and what it
    computes.  BLAKE3 and SHA-256 are parameters. *)

From S2P Require Import Prelude Bytes Ids Utf8 Ssmc TextRows VmInt VmText.
From stdpp Require Import strings.
Set Warnings "-register-all".

Open Scope N_scope.

(** [BridgeEntry] names the entry of an identity, [BridgeKind] the entry of a
    resolved row; they have the same cases. *)
Inductive BridgeKind : Type :=
| BytesToVector
| VectorToBytes
| VectorPush
| RawHash
| RawHashLarge
| RawSha256
| BytesConcat
| BytesSlice
| BytesLength.
#[global] Instance BridgeKind_eq_dec : EqDecision BridgeKind.
Proof. solve_decision. Defined.

Definition RAW_HASH_MAX_BYTES : N := 1048576.
Definition LARGE_BRIDGE_MAX_BYTES : N := 67108864.

Definition u8_type : TypeExpr := TUInt 8.
Definition u8vec_type : TypeExpr := TVector u8_type.
Definition bridge_index_error : TypeExpr := TBuiltinFailure BFIndex.

(** ** Identities *)

Definition bridge_entry_bytes (code : bytes) : bytes := ascii "SLY1/BRIDGE/" ++ code ++ replicate 16 x00.
Definition bridge_entry_id (code : bytes) : EntityId := be_num (bridge_entry_bytes code).

Definition is_push_identity (id : EntityId) : bool :=
  let bytes := id_bytes id in
  bool_decide (take 16 bytes = take 16 (id_bytes (bridge_entry_id (ascii "PSH1"))))
  && forallb (fun b => bool_decide (b = x00)) (drop 20 bytes).

Definition push_discriminator (id : EntityId) : N := be_num (take 4 (drop 16 (id_bytes id))).

(** The chain of identities in [resolve_bridge_entry] *)
Definition bridge_entry (id : EntityId) : option BridgeKind :=
  if id =? bridge_entry_id (ascii "B2V1") then Some BytesToVector
  else if id =? bridge_entry_id (ascii "V2B1") then Some VectorToBytes
  else if is_push_identity id then Some VectorPush
  else if id =? bridge_entry_id (ascii "RHW1") then Some RawHash
  else if id =? bridge_entry_id (ascii "RHW2") then Some RawHashLarge
  else if id =? bridge_entry_id (ascii "RSH2") then Some RawSha256
  else if id =? bridge_entry_id (ascii "BCT1") then Some BytesConcat
  else if id =? bridge_entry_id (ascii "BSL1") then Some BytesSlice
  else if id =? bridge_entry_id (ascii "BLN1") then Some BytesLength
  else None.

(** The frozen request and response types; a push row has any element type. *)
Definition bridge_row_types (kind : BridgeKind) : option (TypeExpr * TypeExpr) :=
  match kind with
  | BytesToVector => Some (TBytes, u8vec_type)
  | VectorToBytes => Some (u8vec_type, TBytes)
  | RawHash | RawHashLarge | RawSha256 => Some (TBytes, TBytes)
  | BytesConcat => Some (TVector TBytes, TBytes)
  | BytesSlice => Some (TTuple [u64_type; u64_type], TBytes)
  | BytesLength => Some (TBytes, u64_type)
  | VectorPush => None
  end.

(** The frozen fields every row shares *)
Definition frozen_fields (carried : AdapterImport) : bool :=
  bool_decide (ai_adapter_id carried = id_bytes (ai_entity_id carried))
  && (ai_abi_version carried =? 1)
  && bool_decide (ai_failure_type carried = bridge_index_error)
  && bool_decide (ai_effects carried = []).

Definition is_push_row (carried : AdapterImport) : bool :=
  is_push_identity (ai_entity_id carried) && frozen_fields carried
  && bool_decide (ai_response_type carried = TVector (ai_request_type carried)).

Definition resolve_bridge_entry (adapters : list AdapterImport) (id : EntityId)
    : option (BridgeKind * AdapterImport) :=
  carried ← find_first (fun import => ai_entity_id import =? id) adapters;
  entry ← bridge_entry (ai_entity_id carried);
  if negb (frozen_fields carried) then None
  else
    match bridge_row_types entry with
    | None => if is_push_row carried then Some (VectorPush, carried) else None
    | Some (request, response) =>
        if bool_decide (ai_request_type carried = request) && bool_decide (ai_response_type carried = response)
        then Some (entry, carried) else None
    end.

Definition serves_push (scope request : TypeExpr) (carried : AdapterImport) : bool :=
  is_push_row carried && bool_decide (ai_request_type carried = request)
  && bool_decide (ai_response_type carried = scope).

Definition resolve_push_row (adapters : list AdapterImport) (scope request : TypeExpr)
    : option (BridgeKind * AdapterImport) :=
  carried ← find_first (fun carried => (ai_entity_id carried =? bridge_entry_id (ascii "PSH1"))
                                 && serves_push scope request carried) adapters;
  Some (VectorPush, carried).

Definition resolve_push_use (adapters : list AdapterImport) (immediate : EntityId) (scope request : TypeExpr)
    : option (BridgeKind * AdapterImport) :=
  if immediate =? bridge_entry_id (ascii "PSH1") then resolve_push_row adapters scope request
  else
    carried ← find_first (fun carried => ai_entity_id carried =? immediate) adapters;
    if serves_push scope request carried then Some (VectorPush, carried) else None.

Definition has_push_row (adapters : list AdapterImport) : bool := existsb is_push_row adapters.

(** ** Fuel *)

Definition bytes_length (value : ConstValue) : option N :=
  match cv_data value with DBytes b => Some (len b) | _ => None end.
Definition items_of (value : ConstValue) : option (list ConstValue) :=
  match cv_data value with DSequence items => Some items | _ => None end.

(** The [match] on the resolved kind, for two operands *)
Definition bridge_entry_fuel (kind : BridgeKind) (request : ConstValue) : option N :=
  match kind with
  | BytesToVector => bytes_length request
  | VectorToBytes => items ← items_of request; Some (len items)
  | RawHash => n ← bytes_length request; Some (raw_hash_fuel n)
  | VectorPush | BytesLength => Some 1
  | RawHashLarge | RawSha256 => n ← bytes_length request; Some (large_bridge_fuel n)
  | BytesConcat =>
      items ← items_of request;
      total ← total_length bytes_length items;
      u64_checked_add (len items) (large_bridge_fuel total)
  | BytesSlice =>
      items ← items_of request;
      match items with
      | [_; length] =>
          match cv_data length with
          | DUInt length => Some (large_bridge_fuel (default (U64_LIMIT - 1) (usize_of length)))
          | _ => None
          end
      | _ => None
      end
  end.

Definition bridge_fuel_surcharge (adapters : list AdapterImport) (immediate : Immediate) (operands : list ConstValue)
    : option N :=
  match immediate with
  | ImmEntity entry =>
      match is_push_identity entry, operands with
      | true, [scope; request] =>
          _ ← resolve_push_use adapters entry (cv_type scope) (cv_type request); Some 1
      | _, _ =>
          match resolve_bridge_entry adapters entry with
          | None =>
              found ← resolve_text_entry adapters immediate;
              text_fuel (fst found) operands
          | Some (kind, _) =>
              match operands with [_; request] => bridge_entry_fuel kind request | _ => None end
          end
      end
  | _ => None
  end.

(** ** Execution *)

Section execute.
Context (blake3 sha256 : bytes -> bytes).

Definition bytes_operand (value : ConstValue) : fault_result bytes :=
  match cv_data value with DBytes b => Ok b | _ => Err Fault end.

Definition bridge_vector_push_owned (carried : AdapterImport) (scope request : ConstValue) (result_type : TypeExpr)
    : fault_result ConstValue :=
  match result_type with
  | TResult ok error =>
      guard! bool_decide (ok = ai_response_type carried) && bool_decide (error = ai_failure_type carried)
             && bool_decide (cv_type scope = ai_response_type carried)
             && bool_decide (cv_type request = ai_request_type carried)
      else Fault;
      items ← sequence_operand scope;
      if BRIDGE_MAX_ITEMS <=? len items then Ok (index_failure result_type error BRIDGE_CAPACITY_CODE)
      else Ok (ok_result result_type ok (DSequence (items ++ [request])))
  | _ => Err Fault
  end.

Definition execute_vector_push_owned (adapters : list AdapterImport) (immediate : Immediate)
    (scope request : ConstValue) (result_type : TypeExpr) : fault_result ConstValue :=
  match immediate with
  | ImmEntity entry =>
      guard! is_push_identity entry else Fault;
      found ← ok_or Fault (resolve_push_use adapters entry (cv_type scope) (cv_type request));
      bridge_vector_push_owned (snd found) scope request result_type
  | _ => Err Fault
  end.

(** [bytes.push(u8::try_from(byte)?)] *)
Definition byte_item (item : ConstValue) : fault_result byte :=
  n ← uint_operand item;
  guard! (n <? 256) else Fault;
  Ok (n2b n).

(** [scope[start..start + length]], [None] when the range is outside *)
Definition slice_bytes (b : bytes) (start length : N) : option bytes :=
  end_ ← (if U64_LIMIT * U64_LIMIT <=? start + length then None else Some (start + length));
  start ← usize_of start;
  end_ ← usize_of end_;
  if end_ <=? len b then Some (take (N.to_nat (end_ - start)) (drop (N.to_nat start) b)) else None.

Definition bridge_execute (entry : BridgeKind) (carried : AdapterImport) (operands : list ConstValue)
    (result_type : TypeExpr) : fault_result ConstValue :=
  match result_type, operands with
  | TResult ok error, [scope; request] =>
      guard! bool_decide (ok = ai_response_type carried) && bool_decide (error = ai_failure_type carried) else Fault;
      let done := ok_result result_type ok in
      let capacity := index_failure result_type error BRIDGE_CAPACITY_CODE in
      let typed scope_type := ensure (bool_decide (cv_type scope = scope_type)
                                      && bool_decide (cv_type request = ai_request_type carried)) Fault in
      let hash limit digest :=
        _ ← typed TUnit; _ ← unit_operand scope; b ← bytes_operand request;
        if limit <? len b then Ok capacity else Ok (done (DBytes (digest b))) in
      match entry with
      | BytesToVector =>
          _ ← typed TUnit; _ ← unit_operand scope; b ← bytes_operand request;
          if BRIDGE_MAX_ITEMS <? len b then Ok capacity
          else Ok (done (DSequence ((fun byte => mkConstValue u8_type (DUInt (b2n byte))) <$> b)))
      | VectorToBytes =>
          _ ← typed TUnit; _ ← unit_operand scope; items ← sequence_operand request;
          if BRIDGE_MAX_ITEMS <? len items then Ok capacity
          else b ← map_res byte_item items; Ok (done (DBytes b))
      | VectorPush => bridge_vector_push_owned carried scope request result_type
      | RawHash => hash RAW_HASH_MAX_BYTES blake3
      | RawHashLarge => hash LARGE_BRIDGE_MAX_BYTES blake3
      | RawSha256 => hash LARGE_BRIDGE_MAX_BYTES sha256
      | BytesConcat =>
          _ ← typed TUnit; _ ← unit_operand scope; items ← sequence_operand request;
          parts ← map_res bytes_operand items;
          let total := foldl (fun total b => saturating_add total (len b)) 0 parts in
          if LARGE_BRIDGE_MAX_BYTES <? total then Ok capacity else Ok (done (DBytes (concat parts)))
      | BytesLength =>
          _ ← typed TUnit; _ ← unit_operand scope; b ← bytes_operand request;
          Ok (done (DUInt (len b)))
      | BytesSlice =>
          _ ← typed TBytes; b ← bytes_operand scope; range ← sequence_operand request;
          match range with
          | [start; length] =>
              start ← uint_operand start; length ← uint_operand length;
              Ok (match slice_bytes b start length with
                  | Some slice => done (DBytes slice)
                  | None => index_failure result_type error 1
                  end)
          | _ => Err Fault
          end
      end
  | _, _ => Err Fault
  end.
End execute.

(** The identities are what the comments of the source say. *)
Example bridge_identities :
  bridge_entry (be_num (ascii "SLY1/BRIDGE/PSH1" ++ [x00; x00; x01; x02] ++ replicate 12 x00)) = Some VectorPush /\
  push_discriminator (be_num (ascii "SLY1/BRIDGE/PSH1" ++ [x00; x00; x01; x02] ++ replicate 12 x00)) = 258 /\
  bridge_entry (bridge_entry_id (ascii "BSL1")) = Some BytesSlice.
Proof. by vm_compute. Qed.
