(* ===== verification/VmJudge.v ===== *)
(** * The virtual machine: the signature judgement (crates/sley-vm/src/extended.rs)

    [judge_extended_operation] derives the result type of an operation from its
    opcode, immediate and operand types, or fails with a lowering code.  The arms
    of its [match] are grouped by family; each group is a function of its own. *)

From S2P Require Import Prelude Bytes Ids Ssmc Types TypeWalk TextRows VmInt VmText VmBridge.
From stdpp Require Import strings.
Set Warnings "-register-all".

Open Scope N_scope.

Inductive LowerErrorCode : Type :=
| LeProfileUnsupported
| LeOpcodeUnsupported
| LeSignatureMismatch
| LeImmediateMismatch
| LeLocalReferenceInvalid
| LeCacheKeyUnsupported
| LeResourceLimit.
#[global] Instance LowerErrorCode_eq_dec : EqDecision LowerErrorCode.
Proof. solve_decision. Defined.

Definition LowerErrorCode_as_str (c : LowerErrorCode) : string :=
  match c with
  | LeProfileUnsupported => "VM_LOWER_PROFILE_UNSUPPORTED"
  | LeOpcodeUnsupported => "VM_LOWER_OPCODE_UNSUPPORTED"
  | LeSignatureMismatch => "VM_LOWER_SIGNATURE_MISMATCH"
  | LeImmediateMismatch => "VM_LOWER_IMMEDIATE_MISMATCH"
  | LeLocalReferenceInvalid => "VM_LOWER_LOCAL_REFERENCE_INVALID"
  | LeCacheKeyUnsupported => "VM_LOWER_CACHE_KEY_UNSUPPORTED"
  | LeResourceLimit => "VM_LOWER_RESOURCE_LIMIT"
  end%string.

Definition LowerErrorCode_numeric (c : LowerErrorCode) : N :=
  match c with
  | LeProfileUnsupported => 26000
  | LeOpcodeUnsupported => 26001
  | LeSignatureMismatch => 26002
  | LeImmediateMismatch => 26003
  | LeLocalReferenceInvalid => 26004
  | LeCacheKeyUnsupported => 26005
  | LeResourceLimit => 26006
  end.

Abbreviation lower_result A := (result LowerErrorCode A).

Definition MAX_TUPLE_ARITY : N := 64.

(** ** Walks over types *)

Fixpoint contains_float (value : TypeExpr) : bool :=
  match value with
  | TF32 | TF64 => true
  | TTuple items => existsb contains_float items
  | TNamed _ arguments => existsb contains_float arguments
  | TVector inner | TOption inner | TLocalCell inner => contains_float inner
  | TOrderedMap key value => contains_float key || contains_float value
  | TResult ok error => contains_float ok || contains_float error
  | TFunctionRef parameters result _ => existsb contains_float parameters || contains_float result
  | _ => false
  end.

Fixpoint contains_cell (value : TypeExpr) : bool :=
  match value with
  | TLocalCell _ => true
  | TTuple items => existsb contains_cell items
  | TNamed _ arguments => existsb contains_cell arguments
  | TVector inner | TOption inner => contains_cell inner
  | TOrderedMap key value => contains_cell key || contains_cell value
  | TResult ok error => contains_cell ok || contains_cell error
  | TFunctionRef parameters result _ => existsb contains_cell parameters || contains_cell result
  | _ => false
  end.

Fixpoint contains_host_handle (value : TypeExpr) : bool :=
  match value with
  | TAdapterHandle _ | TCapabilityToken _ => true
  | TTuple items => existsb contains_host_handle items
  | TNamed _ arguments => existsb contains_host_handle arguments
  | TVector inner | TOption inner | TLocalCell inner => contains_host_handle inner
  | TOrderedMap key value => contains_host_handle key || contains_host_handle value
  | TResult ok error => contains_host_handle ok || contains_host_handle error
  | TFunctionRef parameters result _ => existsb contains_host_handle parameters || contains_host_handle result
  | _ => false
  end.

Definition check_result_type (result_type : TypeExpr) : lower_result unit :=
  if contains_cell result_type || contains_host_handle result_type then Err LeSignatureMismatch else Ok tt.

Definition arithmetic_result (value : TypeExpr) : TypeExpr := TResult value (TBuiltinFailure BFArithmetic).
Definition contract_assert_result : TypeExpr := TResult TUnit (TBuiltinFailure BFContractViolation).
Definition map_result (key value : TypeExpr) : TypeExpr :=
  TResult (TOrderedMap key value) (TBuiltinFailure BFDuplicateKey).
Definition named (definition : EntityId) : TypeExpr := TNamed definition [].
Definition named_definition (value : TypeExpr) : option EntityId :=
  match value with TNamed definition [] => Some definition | _ => None end.

Definition ordered (value : TypeExpr) : bool :=
  match value with TBool | TSInt _ | TUInt _ | TBytes | TText | TF32 | TF64 => true | _ => false end.
Definition is_float (value : TypeExpr) : bool := match value with TF32 | TF64 => true | _ => false end.

(** ** The inventory *)

Record LoweringContext : Type := mkLoweringContext {
  lc_types : Definitions;
  lc_constants : list ConstantDefinition;
  lc_globals : list GlobalValueDefinition;
  lc_functions : list FunctionGraph;
  lc_parameters : list ParameterDef;
  lc_contracts : list ContractDefinition;
  lc_adapters : list AdapterImport;
  lc_function : EntityId
}.

Definition map_key_admissible (types : Definitions) (key : TypeExpr) : bool :=
  match traits types key with Ok traits => total_order traits | Err _ => false end && negb (contains_float key).

Definition record_fields (types : Definitions) (id : EntityId) : lower_result (list RecordField) :=
  match definition types id with
  | Ok found =>
      match td_type_parameters found, td_form found with
      | [], FormRecord fields => Ok fields
      | _, _ => Err LeImmediateMismatch
      end
  | Err _ => Err LeImmediateMismatch
  end.

Definition variant_cases (types : Definitions) (id : EntityId) : lower_result (list VariantCase) :=
  match definition types id with
  | Ok found =>
      match td_type_parameters found, td_form found with
      | [], FormVariant cases => Ok cases
      | _, _ => Err LeImmediateMismatch
      end
  | Err _ => Err LeImmediateMismatch
  end.

Definition find_case (cases : list VariantCase) (member : MemberId) : option VariantCase :=
  find_first (fun case => vc_member_id case =? member) cases.

Definition find_constant (constants : list ConstantDefinition) (id : EntityId) : option ConstantDefinition :=
  find_first (fun constant => kd_entity_id constant =? id) constants.

Definition global_initializer (globals : list GlobalValueDefinition) (constants : list ConstantDefinition)
    (global : EntityId) : option (GlobalValueDefinition * ConstantDefinition) :=
  definition ← find_first (fun candidate => gd_entity_id candidate =? global) globals;
  constant ← find_constant constants (gd_initializer definition);
  if bool_decide (cv_type (kd_value constant) = gd_value_type definition) then Some (definition, constant) else None.

(** The parameters, result and effects of a function without type parameters *)
Definition function_signature (context : LoweringContext) (function : EntityId)
    : lower_result (list TypeExpr * TypeExpr * list EntityId) :=
  graph ← ok_or LeImmediateMismatch
    (graph ← find_first (fun graph => fg_entity_id graph =? function) (lc_functions context);
     match fg_type_parameters graph with [] => Some graph | _ => None end);
  parameters ← map_res (fun parameter =>
      found ← ok_or LeImmediateMismatch
        (find_first (fun candidate => prm_entity_id candidate =? parameter) (lc_parameters context));
      Ok (prm_value_type found)) (fg_parameters graph);
  Ok (parameters, fg_result_type graph, fg_effects graph).

(** ** The families *)

Definition immediate_none (value : Immediate) : lower_result unit :=
  match value with ImmNone => Ok tt | _ => Err LeImmediateMismatch end.
Definition single_declared (declared : list TypeExpr) : lower_result TypeExpr :=
  match declared with [value] => Ok value | _ => Err LeSignatureMismatch end.
Definition no_operands (operands : list TypeExpr) : lower_result unit :=
  match operands with [] => Ok tt | _ => Err LeSignatureMismatch end.
Definition entity_immediate (immediate : Immediate) : lower_result EntityId :=
  match immediate with ImmEntity id => Ok id | _ => Err LeImmediateMismatch end.
Definition function_immediate (immediate : Immediate) : lower_result FunctionRefValue :=
  match immediate with ImmFunction reference => Ok reference | _ => Err LeImmediateMismatch end.
Definition variant_immediate (immediate : Immediate) : lower_result VariantImmediate :=
  match immediate with ImmVariant variant => Ok variant | _ => Err LeImmediateMismatch end.

Section judge.
Variable context : LoweringContext.
#[local] Abbreviation types := (lc_types context).
Variable opcode : Opcode.
Variable immediate : Immediate.
Variable operands declared : list TypeExpr.

Definition judge_constant : lower_result TypeExpr :=
  id ← entity_immediate immediate;
  no_operands operands ≫= fun _ =>
  constant ← ok_or LeImmediateMismatch (find_constant (lc_constants context) id);
  Ok (cv_type (kd_value constant)).

Definition judge_global : lower_result TypeExpr :=
  id ← entity_immediate immediate;
  no_operands operands ≫= fun _ =>
  found ← ok_or LeImmediateMismatch (global_initializer (lc_globals context) (lc_constants context) id);
  Ok (gd_value_type (fst found)).

Definition judge_function_ref : lower_result TypeExpr :=
  reference ← function_immediate immediate;
  guard! bool_decide (frv_type_arguments reference = []) else LeImmediateMismatch;
  no_operands operands ≫= fun _ =>
  '(parameters, result, effects) ← function_signature context (frv_function reference);
  Ok (TFunctionRef parameters result effects).

Definition judge_call : lower_result TypeExpr :=
  reference ← function_immediate immediate;
  guard! bool_decide (frv_type_arguments reference = []) else LeImmediateMismatch;
  '(parameters, result, _) ← function_signature context (frv_function reference);
  guard! bool_decide (operands = parameters) else LeSignatureMismatch;
  Ok result.

Definition judge_contract_assert : lower_result TypeExpr :=
  id ← entity_immediate immediate;
  definition ← ok_or LeImmediateMismatch
    (find_first (fun candidate => cd_entity_id candidate =? id) (lc_contracts context));
  guard! match cd_contract_kind definition with
         | CKPrecondition | CKPostcondition | CKResultPredicate => true
         | _ => false
         end && bool_decide (cd_resource_limits definition = None) else LeImmediateMismatch;
  guard! (cd_target definition =? lc_function context) && negb (cd_predicate definition =? cd_target definition)
  else LeImmediateMismatch;
  predicate ← ok_or LeImmediateMismatch
    (find_first (fun graph => fg_entity_id graph =? cd_predicate definition) (lc_functions context));
  guard! bool_decide (fg_effects predicate = []) && bool_decide (fg_contracts predicate = [])
  else LeImmediateMismatch;
  '(parameters, result, _) ← function_signature context (cd_predicate definition);
  guard! bool_decide (result = TBool) && (len (cd_bindings definition) =? len parameters)
         && bool_decide (operands = parameters)
  else LeSignatureMismatch;
  Ok contract_assert_result.

Definition judge_tuple : lower_result TypeExpr :=
  match opcode, immediate, operands with
  | OpTupleNew, _, _ =>
      immediate_none immediate ≫= fun _ =>
      guard! (len operands <=? MAX_TUPLE_ARITY) else LeSignatureMismatch;
      Ok (TTuple operands)
  | _, ImmIndex index, [TTuple items] => ok_or LeImmediateMismatch (items !! N.to_nat index)
  | _, ImmIndex _, _ => Err LeSignatureMismatch
  | _, _, _ => Err LeImmediateMismatch
  end.

Definition judge_vector : lower_result TypeExpr :=
  immediate_none immediate ≫= fun _ =>
  match opcode, operands with
  | OpVectorNew, [] =>
      declared ← single_declared declared;
      match declared with TVector _ => Ok declared | _ => Err LeSignatureMismatch end
  | OpVectorNew, first :: rest =>
      guard! forallb (fun value => bool_decide (value = first)) rest else LeSignatureMismatch;
      Ok (TVector first)
  | OpVectorLen, [TVector _] => Ok u64_type
  | OpVectorGet, [TVector element; index] =>
      guard! bool_decide (index = u64_type) else LeSignatureMismatch;
      Ok (TOption element)
  | OpVectorSet, [TVector element; index; replacement] =>
      guard! bool_decide (index = u64_type) && bool_decide (replacement = element) else LeSignatureMismatch;
      Ok (TResult (TVector element) (TBuiltinFailure BFIndex))
  | _, _ => Err LeSignatureMismatch
  end.

Definition judge_integer : lower_result TypeExpr :=
  immediate_none immediate ≫= fun _ =>
  match opcode, operands with
  | OpIntNegChecked, [value] =>
      match integer_width value with
      | Some (true, _) => Ok (arithmetic_result value)
      | _ => Err LeSignatureMismatch
      end
  | (OpIntShlChecked | OpIntShrChecked), [value; amount] =>
      guard! bool_decide (is_Some (integer_width value)) && bool_decide (amount = u32_type) else LeSignatureMismatch;
      Ok (arithmetic_result value)
  | (OpIntAddChecked | OpIntSubChecked | OpIntMulChecked | OpIntDivChecked | OpIntRemChecked), [a; b] =>
      guard! bool_decide (a = b) && bool_decide (is_Some (integer_width a)) else LeSignatureMismatch;
      Ok (arithmetic_result a)
  | _, _ => Err LeSignatureMismatch
  end.

Definition judge_float : lower_result TypeExpr :=
  immediate_none immediate ≫= fun _ =>
  match opcode, operands with
  | OpFloatNeg, [value] => guard! is_float value else LeSignatureMismatch; Ok value
  | OpFloatFma, [a; b; c] =>
      guard! bool_decide (a = b) && bool_decide (b = c) && is_float a else LeSignatureMismatch; Ok a
  | (OpFloatAdd | OpFloatSub | OpFloatMul | OpFloatDiv), [a; b] =>
      guard! bool_decide (a = b) && is_float a else LeSignatureMismatch; Ok a
  | _, _ => Err LeSignatureMismatch
  end.

Definition judge_record : lower_result TypeExpr :=
  match opcode with
  | OpRecordNew =>
      definition ← entity_immediate immediate;
      fields ← record_fields types definition;
      guard! bool_decide (operands = rf_value_type <$> fields) else LeSignatureMismatch;
      Ok (named definition)
  | _ =>
      match immediate, operands with
      | ImmField member, [value] =>
          definition ← ok_or LeSignatureMismatch (named_definition value);
          fields ← record_fields types definition;
          field ← ok_or LeImmediateMismatch (find_first (fun field => rf_member_id field =? member) fields);
          Ok (rf_value_type field)
      | ImmField _, _ => Err LeSignatureMismatch
      | _, _ => Err LeImmediateMismatch
      end
  end.

Definition judge_variant : lower_result TypeExpr :=
  variant ← variant_immediate immediate;
  match opcode with
  | OpVariantNew =>
      cases ← variant_cases types (vi_definition variant);
      case ← ok_or LeImmediateMismatch (find_case cases (vi_member_id variant));
      match vc_payload_type case, operands with
      | Some payload, [operand] => guard! bool_decide (operand = payload) else LeSignatureMismatch; Ok tt
      | None, [] => Ok tt
      | _, _ => Err LeSignatureMismatch
      end ≫= fun _ =>
      Ok (named (vi_definition variant))
  | _ =>
      match operands with
      | [value] =>
          guard! bool_decide (named_definition value = Some (vi_definition variant)) else LeSignatureMismatch;
          cases ← variant_cases types (vi_definition variant);
          case ← ok_or LeImmediateMismatch (find_case cases (vi_member_id variant));
          payload ← ok_or LeImmediateMismatch (vc_payload_type case);
          Ok (TOption payload)
      | _ => Err LeSignatureMismatch
      end
  end.

(** [operands] alternates [key] and [value]. *)
Fixpoint aligned (key value : TypeExpr) (operands : list TypeExpr) : bool :=
  match operands with
  | [] => true
  | operand :: operands => bool_decide (operand = key) && aligned value key operands
  end.

Definition judge_map_new : lower_result TypeExpr :=
  guard! Nat.even (length operands) else LeSignatureMismatch;
  match operands with
  | key :: value :: _ =>
      guard! aligned key value operands && map_key_admissible types key else LeSignatureMismatch;
      Ok (map_result key value)
  | _ =>
      declared ← single_declared declared;
      match declared with
      | TResult (TOrderedMap key _) (TBuiltinFailure BFDuplicateKey) =>
          guard! map_key_admissible types key else LeSignatureMismatch;
          Ok declared
      | _ => Err LeSignatureMismatch
      end
  end.

Definition judge_map : lower_result TypeExpr :=
  immediate_none immediate ≫= fun _ =>
  match opcode, operands with
  | OpMapNew, _ => judge_map_new
  | (OpMapGet | OpMapContains | OpMapRemove), [TOrderedMap key value; probe] =>
      guard! bool_decide (probe = key) else LeSignatureMismatch;
      Ok (match opcode with
          | OpMapGet => TOption value
          | OpMapContains => TBool
          | _ => TOrderedMap key value
          end)
  | OpMapInsert, [TOrderedMap key value; probe; replacement] =>
      guard! bool_decide (probe = key) && bool_decide (replacement = value) else LeSignatureMismatch;
      Ok (TOrderedMap key value)
  | _, _ => Err LeSignatureMismatch
  end.

Definition judge_cell : lower_result TypeExpr :=
  immediate_none immediate ≫= fun _ =>
  match opcode, operands with
  | OpCellNew, [value] =>
      guard! match traits types value with Ok traits => persistable traits | Err _ => false end
      else LeSignatureMismatch;
      Ok (TLocalCell value)
  | OpCellGet, [TLocalCell inner] => Ok inner
  | OpCellSet, [TLocalCell inner; value] => guard! bool_decide (value = inner) else LeSignatureMismatch; Ok TUnit
  | _, _ => Err LeSignatureMismatch
  end.

Definition judge_comparison : lower_result TypeExpr :=
  immediate_none immediate ≫= fun _ =>
  match opcode, operands with
  | OpValueHash, [value] => guard! is_ok (require_hashable types value) else LeSignatureMismatch; Ok TBytes
  | (OpEqual | OpNotEqual), [a; b] =>
      guard! bool_decide (a = b) && is_ok (require_hashable types a)
             && negb (contains_float a && negb (is_float a))
      else LeSignatureMismatch;
      Ok TBool
  | (OpLessThan | OpLessEqual | OpGreaterThan | OpGreaterEqual), [a; b] =>
      guard! bool_decide (a = b) && ordered a else LeSignatureMismatch;
      Ok TBool
  | OpBoolNot, [TBool] => Ok TBool
  | (OpBoolAnd | OpBoolOr), [TBool; TBool] => Ok TBool
  | _, _ => Err LeSignatureMismatch
  end.

Definition judge_option : lower_result TypeExpr :=
  immediate_none immediate ≫= fun _ =>
  match opcode, operands with
  | OpOptionSome, [payload] => Ok (TOption payload)
  | OpOptionNone, [] =>
      declared ← single_declared declared;
      match declared with TOption _ => Ok declared | _ => Err LeSignatureMismatch end
  | (OpResultOk | OpResultErr), [payload] =>
      declared ← single_declared declared;
      match declared with
      | TResult ok error =>
          let expected := if bool_decide (opcode = OpResultOk) then ok else error in
          guard! bool_decide (payload = expected) else LeSignatureMismatch;
          Ok declared
      | _ => Err LeSignatureMismatch
      end
  | _, _ => Err LeSignatureMismatch
  end.

(** The scope and response types of a use of a resolved row *)
Definition judge_bridge_use (entry : BridgeKind) (carried : AdapterImport) (scope request : TypeExpr)
    : lower_result TypeExpr :=
  let want scope_type request_type response :=
    guard! bool_decide (scope = scope_type) && bool_decide (request = request_type) else LeSignatureMismatch;
    Ok response in
  match entry with
  | VectorPush => want (ai_response_type carried) (ai_request_type carried) (ai_response_type carried)
  | BytesToVector => want TUnit TBytes u8vec_type
  | VectorToBytes => want TUnit u8vec_type TBytes
  | RawHash => want TUnit TBytes TBytes
  | RawHashLarge | RawSha256 | BytesConcat => want TUnit (ai_request_type carried) TBytes
  | BytesLength => want TUnit TBytes u64_type
  | BytesSlice => want TBytes (ai_request_type carried) TBytes
  end.

Definition judge_push (entry : EntityId) : lower_result TypeExpr :=
  guard! (if entry =? bridge_entry_id (ascii "PSH1") then has_push_row (lc_adapters context)
          else existsb (fun carried => (ai_entity_id carried =? entry) && is_push_row carried) (lc_adapters context))
  else LeOpcodeUnsupported;
  match operands with
  | [scope; request] =>
      found ← ok_or LeSignatureMismatch (resolve_push_use (lc_adapters context) entry scope request);
      Ok (TResult (ai_response_type (snd found)) bridge_index_error)
  | _ => Err LeSignatureMismatch
  end.

Definition judge_adapter : lower_result TypeExpr :=
  entry ← entity_immediate immediate;
  if is_push_identity entry then judge_push entry
  else
    match resolve_bridge_entry (lc_adapters context) entry, operands with
    | Some (kind, carried), [scope; request] =>
        response_type ← judge_bridge_use kind carried scope request;
        Ok (TResult response_type bridge_index_error)
    | Some _, _ => Err LeSignatureMismatch
    | None, _ =>
        match resolve_text_entry (lc_adapters context) immediate, operands with
        | Some (kind, _), [scope; request] => ok_or LeSignatureMismatch (judge_text_use kind scope request)
        | Some _, _ => Err LeSignatureMismatch
        | None, _ => Err LeOpcodeUnsupported
        end
    end.

Definition judge_family : lower_result TypeExpr :=
  match opcode with
  | OpConstantRef => judge_constant
  | OpTupleNew | OpTupleGet => judge_tuple
  | OpVectorNew | OpVectorLen | OpVectorGet | OpVectorSet => judge_vector
  | OpIntAddChecked | OpIntSubChecked | OpIntMulChecked | OpIntDivChecked | OpIntRemChecked
  | OpIntNegChecked | OpIntShlChecked | OpIntShrChecked => judge_integer
  | OpFloatAdd | OpFloatSub | OpFloatMul | OpFloatDiv | OpFloatNeg | OpFloatFma => judge_float
  | OpRecordNew | OpRecordGet => judge_record
  | OpVariantNew | OpVariantGet => judge_variant
  | OpMapNew | OpMapGet | OpMapContains | OpMapRemove | OpMapInsert => judge_map
  | OpCellNew | OpCellGet | OpCellSet => judge_cell
  | OpValueHash | OpEqual | OpNotEqual | OpLessThan | OpLessEqual | OpGreaterThan | OpGreaterEqual
  | OpBoolNot | OpBoolAnd | OpBoolOr => judge_comparison
  | OpGlobalGet => judge_global
  | OpFunctionRef => judge_function_ref
  | OpContractAssert => judge_contract_assert
  | OpCallDirect => judge_call
  | OpOptionSome | OpOptionNone | OpResultOk | OpResultErr => judge_option
  | OpAdapterInvoke => judge_adapter
  | _ => Err LeOpcodeUnsupported
  end.

Definition judge_extended_operation : lower_result TypeExpr :=
  let cell_opcode := bool_decide (opcode = OpCellGet) || bool_decide (opcode = OpCellSet) in
  guard! negb (negb cell_opcode && existsb contains_cell operands) else LeSignatureMismatch;
  derived ← judge_family;
  guard! bool_decide (declared = [derived]) else LeSignatureMismatch;
  Ok derived.
End judge.
