(* ===== verification/VmExec.v ===== *)
(** * The virtual machine: extended operations (crates/sley-vm/src/extended.rs)

    [execute_extended_instruction] runs one operation over values that are already
    read.  The arms of its [match] are grouped by family as in [VmJudge].  Cells
    are the only state; an operation returns its value and the cells after it. *)

From S2P Require Import Prelude Bytes Ids Ssmc Types TextRows Fingerprint ConstEncoding.
From S2P Require Import VmInt VmFloat VmText VmBridge VmJudge.
Set Warnings "-register-all".

Open Scope N_scope.

Record ExecutionContext : Type := mkExecutionContext {
  ec_types : Definitions;
  ec_constants : list ConstantDefinition;
  ec_globals : list GlobalValueDefinition;
  ec_schema_epoch : bytes;
  ec_adapters : list AdapterImport
}.

(** The [cells] of the context, which the operations mutate: a handle is an
    index into them. *)
Abbreviation Cells := (list ConstValue).

(** ** Helpers *)

Definition compare_data (a b : ConstData) : fault_result comparison :=
  match a, b with
  | DBool a, DBool b => Ok (if a then (if b then Eq else Gt) else if b then Lt else Eq)
  | DSInt a, DSInt b => Ok (a ?= b)%Z
  | DUInt a, DUInt b => Ok (a ?= b)
  | DBytes a, DBytes b => Ok (bytes_cmp a b)
  | DText a, DText b => Ok (bytes_cmp a b)
  | _, _ => Err Fault
  end.

Definition key_bytes (value : ConstValue) : fault_result bytes :=
  match ConstEncoding.encode_const_value value with Ok b => Ok b | Err _ => Err Fault end.

Abbreviation MapEntry := (MapEntryConst ConstValue).

Definition keyed_entries (entries : list MapEntry) : fault_result (list (bytes * MapEntry)) :=
  map_res (fun entry => bytes ← key_bytes (me_key entry); Ok (bytes, entry)) entries.

Definition sorted_map (entries : list MapEntry) : fault_result (list MapEntry) :=
  keyed ← keyed_entries entries;
  Ok (snd <$> sort_by (fun a b => bytes_cmp (fst a) (fst b)) keyed).

Definition map_entries (value : ConstValue) : fault_result (list MapEntry) :=
  match cv_data value with DMap entries => Ok entries | _ => Err Fault end.

Definition map_value (result_type : TypeExpr) (entries : list MapEntry) : fault_result ConstValue :=
  entries ← sorted_map entries;
  Ok (mkConstValue result_type (DMap entries)).

Definition bool_value (value : bool) : ConstValue := mkConstValue TBool (DBool value).
Definition bool_operand (value : ConstValue) : fault_result bool :=
  match cv_data value with DBool b => Ok b | _ => Err Fault end.

Definition builtin_error (error : TypeExpr) (kind : BuiltinFailureKind) (code : N) : ConstValue :=
  mkConstValue error (DBuiltinFailure (mkBuiltinFailureValue kind code)).

Definition lowered {A} (r : lower_result A) : fault_result A :=
  match r with Ok a => Ok a | Err _ => Err Fault end.

Section execute.
Context (blake3 sha256 : bytes -> bytes).
Variable context : ExecutionContext.
Variable opcode : Opcode.
Variable immediate : Immediate.
Variable operands : list ConstValue.
Variable result_type : TypeExpr.

Definition typed (data : ConstData) : ConstValue := mkConstValue result_type data.

Definition execute_constant : fault_result ConstValue :=
  match immediate, operands with
  | ImmEntity id, [] => kd_value <$> ok_or Fault (find_constant (ec_constants context) id)
  | _, _ => Err Fault
  end.

Definition execute_global : fault_result ConstValue :=
  match immediate, operands with
  | ImmEntity global, [] =>
      found ← ok_or Fault (global_initializer (ec_globals context) (ec_constants context) global);
      Ok (kd_value (snd found))
  | _, _ => Err Fault
  end.

Definition execute_record : fault_result ConstValue :=
  match opcode, immediate, operands with
  | OpRecordNew, ImmEntity definition, values =>
      fields ← lowered (record_fields (ec_types context) definition);
      guard! (len fields =? len values) else Fault;
      Ok (typed (DRecord (mkRecordConst definition
                            (zip_with (fun field value => mkFieldConst (rf_member_id field) value) fields values))))
  | OpRecordGet, ImmField member, [record] =>
      match cv_data record with
      | DRecord record =>
          fc_value <$> ok_or Fault (find_first (fun field => fc_member_id field =? member) (rc_fields record))
      | _ => Err Fault
      end
  | _, _, _ => Err Fault
  end.

Definition execute_variant : fault_result ConstValue :=
  match opcode, immediate, operands with
  | OpVariantNew, ImmVariant variant, [] =>
      Ok (typed (DVariant (mkVariantConst (vi_definition variant) (vi_member_id variant) None)))
  | OpVariantNew, ImmVariant variant, [value] =>
      Ok (typed (DVariant (mkVariantConst (vi_definition variant) (vi_member_id variant) (Some value))))
  | OpVariantGet, ImmVariant variant, [value] =>
      match cv_data value with
      | DVariant found =>
          Ok (typed (DOption (if vk_member_id found =? vi_member_id variant then vk_payload found else None)))
      | _ => Err Fault
      end
  | _, _, _ => Err Fault
  end.

(** The loop of [MapNew] over the pairs of values, with the keys it has seen;
    [None] when a key repeats. *)
Fixpoint map_pairs (seen : list bytes) (values : list ConstValue) : fault_result (option (list MapEntry)) :=
  match values with
  | [] => Ok (Some [])
  | [_] => Err Fault
  | key :: value :: values =>
      bytes ← key_bytes key;
      if existsb (fun b => bool_decide (b = bytes)) seen then Ok None
      else
        entries ← map_pairs (seen ++ [bytes]) values;
        Ok (match entries with Some entries => Some (mkMapEntryConst key value :: entries) | None => None end)
  end.

Definition execute_map : fault_result ConstValue :=
  match opcode, operands with
  | OpMapNew, values =>
      match result_type with
      | TResult ok error =>
          entries ← map_pairs [] values;
          match entries with
          | None => Ok (typed (DResult (RErr (builtin_error error BFDuplicateKey 1))))
          | Some entries => map ← map_value ok entries; Ok (typed (DResult (ROk map)))
          end
      | _ => Err Fault
      end
  | OpMapGet, [map; key] =>
      query ← key_bytes key;
      entries ← map_entries map;
      keyed ← keyed_entries entries;
      Ok (typed (DOption ((fun found => me_value (snd found)) <$>
                            find_first (fun entry => bool_decide (fst entry = query)) keyed)))
  | OpMapContains, [map; key] =>
      query ← key_bytes key;
      entries ← map_entries map;
      keyed ← keyed_entries entries;
      Ok (bool_value (existsb (fun entry => bool_decide (fst entry = query)) keyed))
  | OpMapInsert, [map; key; value] =>
      query ← key_bytes key;
      entries ← map_entries map;
      keyed ← keyed_entries entries;
      map_value result_type
        ((snd <$> List.filter (fun entry => negb (bool_decide (fst entry = query))) keyed) ++ [mkMapEntryConst key value])
  | OpMapRemove, [map; key] =>
      query ← key_bytes key;
      entries ← map_entries map;
      keyed ← keyed_entries entries;
      map_value result_type (snd <$> List.filter (fun entry => negb (bool_decide (fst entry = query))) keyed)
  | _, _ => Err Fault
  end.

Definition execute_cell (cells : Cells) : fault_result (ConstValue * Cells) :=
  match opcode, operands with
  | OpCellNew, [value] => Ok (typed (DUInt (len cells)), cells ++ [value])
  | OpCellGet, [cell] =>
      index ← uint_operand cell;
      index ← ok_or Fault (usize_of index);
      value ← ok_or Fault (cells !! N.to_nat index);
      Ok (value, cells)
  | OpCellSet, [cell; value] =>
      index ← uint_operand cell;
      index ← ok_or Fault (usize_of index);
      guard! (index <? len cells) else Fault;
      Ok (typed DUnit, <[N.to_nat index := value]> cells)
  | _, _ => Err Fault
  end.

Definition execute_sequence : fault_result ConstValue :=
  match opcode, operands with
  | (OpTupleNew | OpVectorNew), items => Ok (typed (DSequence items))
  | OpTupleGet, [tuple] =>
      match immediate with
      | ImmIndex index => items ← sequence_operand tuple; ok_or Fault (items !! N.to_nat index)
      | _ => Err Fault
      end
  | OpVectorLen, [vector] => items ← sequence_operand vector; Ok (typed (DUInt (len items)))
  | OpVectorGet, [vector; index] =>
      items ← sequence_operand vector; index ← uint_operand index;
      Ok (typed (DOption (index ← usize_of index; items !! N.to_nat index)))
  | OpVectorSet, [vector; index; replacement] =>
      items ← sequence_operand vector; index ← uint_operand index;
      match result_type with
      | TResult ok error =>
          Ok (match usize_of index with
              | Some index =>
                  if index <? len items
                  then ok_result result_type ok (DSequence (<[N.to_nat index := replacement]> items))
                  else index_failure result_type error 1
              | None => index_failure result_type error 1
              end)
      | _ => Err Fault
      end
  | _, _ => Err Fault
  end.

Definition execute_integer : fault_result ConstValue :=
  match result_type with
  | TResult ok _ =>
      '(signed, bits) ← ok_or Fault (integer_width ok);
      guard! match opcode, operands with
             | (OpIntShlChecked | OpIntShrChecked), [value; amount] =>
                 bool_decide (cv_type value = ok) && bool_decide (cv_type amount = u32_type)
             | _, values => forallb (fun value => bool_decide (cv_type value = ok)) values
             end else Fault;
      outcome ← checked_integer opcode signed bits operands;
      arithmetic_value outcome signed result_type
  | _ => Err Fault
  end.

(** The order of two floats by a comparison opcode *)
Definition float_comparison (order : option comparison) : bool :=
  match opcode, order with
  | OpEqual, Some Eq => true
  | OpEqual, _ => false
  | OpNotEqual, Some Eq => false
  | OpNotEqual, _ => true
  | OpLessThan, Some Lt => true
  | OpLessEqual, Some (Lt | Eq) => true
  | OpGreaterThan, Some Gt => true
  | OpGreaterEqual, Some (Gt | Eq) => true
  | _, _ => false
  end.

Definition data_comparison (a b : ConstValue) : fault_result bool :=
  match opcode with
  | OpEqual => Ok (bool_decide (a = b))
  | OpNotEqual => Ok (negb (bool_decide (a = b)))
  | OpLessThan => order ← compare_data (cv_data a) (cv_data b); Ok (match order with Lt => true | _ => false end)
  | OpLessEqual => order ← compare_data (cv_data a) (cv_data b); Ok (match order with Gt => false | _ => true end)
  | OpGreaterThan => order ← compare_data (cv_data a) (cv_data b); Ok (match order with Gt => true | _ => false end)
  | _ => order ← compare_data (cv_data a) (cv_data b); Ok (match order with Lt => false | _ => true end)
  end.

Definition execute_comparison : fault_result ConstValue :=
  match operands with
  | [a; b] =>
      if is_float_data (cv_data a)
      then order ← float_partial_order (cv_data a) (cv_data b); Ok (bool_value (float_comparison order))
      else answer ← data_comparison a b; Ok (bool_value answer)
  | _ => Err Fault
  end.

Definition execute_boolean : fault_result ConstValue :=
  match opcode, operands with
  | OpBoolNot, [value] => value ← bool_operand value; Ok (bool_value (negb value))
  | OpBoolAnd, [a; b] => a ← bool_operand a; b ← bool_operand b; Ok (bool_value (a && b))
  | OpBoolOr, [a; b] => a ← bool_operand a; b ← bool_operand b; Ok (bool_value (a || b))
  | _, _ => Err Fault
  end.

Definition execute_option : fault_result ConstValue :=
  match opcode, operands with
  | OpOptionSome, [payload] => Ok (typed (DOption (Some payload)))
  | OpOptionNone, [] => Ok (typed (DOption None))
  | OpResultOk, [payload] => Ok (typed (DResult (ROk payload)))
  | OpResultErr, [payload] => Ok (typed (DResult (RErr payload)))
  | _, _ => Err Fault
  end.

Definition execute_value_hash : fault_result ConstValue :=
  match operands with
  | [value] =>
      match hash_validated_value blake3 (ec_schema_epoch context) value with
      | Ok hash => Ok (typed (DBytes hash))
      | Err _ => Err Fault
      end
  | _ => Err Fault
  end.

Definition execute_function_ref : fault_result ConstValue :=
  match immediate, operands with
  | ImmFunction reference, [] => Ok (typed (DFunctionRef reference))
  | _, _ => Err Fault
  end.

Definition execute_adapter : fault_result ConstValue :=
  match immediate with
  | ImmEntity entry =>
      let push := is_push_identity entry in
      let text := if negb push && bool_decide (resolve_bridge_entry (ec_adapters context) entry = None)
                  then resolve_text_entry (ec_adapters context) immediate else None in
      match text with
      | Some (kind, carried) => text_execute kind carried operands result_type
      | None =>
          '(entry, carried) ← ok_or Fault
            match push, operands with
            | true, [scope; request] => resolve_push_use (ec_adapters context) entry (cv_type scope) (cv_type request)
            | _, _ => resolve_bridge_entry (ec_adapters context) entry
            end;
          bridge_execute blake3 sha256 entry carried operands result_type
      end
  | _ => Err Fault
  end.

(** The operations that do not touch the cells *)
Definition execute_pure : fault_result ConstValue :=
  match opcode with
  | OpConstantRef => execute_constant
  | OpRecordNew | OpRecordGet => execute_record
  | OpVariantNew | OpVariantGet => execute_variant
  | OpMapNew | OpMapGet | OpMapContains | OpMapInsert | OpMapRemove => execute_map
  | OpValueHash => execute_value_hash
  | OpGlobalGet => execute_global
  | OpFunctionRef => execute_function_ref
  | OpTupleNew | OpVectorNew | OpTupleGet | OpVectorLen | OpVectorGet | OpVectorSet => execute_sequence
  | OpIntAddChecked | OpIntSubChecked | OpIntMulChecked | OpIntDivChecked | OpIntRemChecked
  | OpIntNegChecked | OpIntShlChecked | OpIntShrChecked => execute_integer
  | OpFloatAdd | OpFloatSub | OpFloatMul | OpFloatDiv | OpFloatNeg | OpFloatFma =>
      float_operation opcode operands result_type
  | OpEqual | OpNotEqual | OpLessThan | OpLessEqual | OpGreaterThan | OpGreaterEqual => execute_comparison
  | OpBoolNot | OpBoolAnd | OpBoolOr => execute_boolean
  | OpOptionSome | OpOptionNone | OpResultOk | OpResultErr => execute_option
  | OpAdapterInvoke => execute_adapter
  | _ => Err Fault
  end.

Definition execute_extended_instruction (cells : Cells) : fault_result (ConstValue * Cells) :=
  match opcode with
  | OpCellNew | OpCellGet | OpCellSet => execute_cell cells
  | _ => value ← execute_pure; Ok (value, cells)
  end.
End execute.

(** ** Static admission of constants *)

(** The constant an operation reads *)
Definition referenced_constant (constants : list ConstantDefinition) (globals : list GlobalValueDefinition)
    (opcode : Opcode) (immediate : Immediate) : option ConstValue :=
  match opcode, immediate with
  | OpConstantRef, ImmEntity id => kd_value <$> find_constant constants id
  | OpGlobalGet, ImmEntity id => (fun found => kd_value (snd found)) <$> global_initializer globals constants id
  | _, _ => None
  end.

(** Every constant an operation names has a canonical form. *)
Definition require_canonical_referenced_constants (operations : list Operation) (constants : list ConstantDefinition)
    (globals : list GlobalValueDefinition) : lower_result unit :=
  for_each (fun operation =>
    match referenced_constant constants globals (op_opcode operation) (op_immediate operation) with
    | Some value => if is_ok (ConstEncoding.encode_const_value value) then Ok tt else Err LeImmediateMismatch
    | None => Ok tt
    end) operations.
