(* ===== verification/VmTyped.v ===== *)
(** * The virtual machine: typed values

    What it means that a value at run time has its type: it is built like a
    constant of the type, its integers fit their width, its floats are canonical,
    its text is UTF-8, and a map lists its entries in the order of the canonical
    bytes of their keys.  A cell handle has its type under the types of the
    cells. *)

From S2P Require Import Prelude Bytes Utf8 Ssmc Types TypeEnv ConstCheck ConstEncoding.
From S2P Require Import TextRows VmInt VmFloat VmText VmBridge VmJudge VmExec.
Set Warnings "-register-all".

Open Scope N_scope.

(** ** Substituting no arguments *)

Lemma with_children_self t : with_children t (type_children t) = t.
Proof. destruct t; cbn [with_children type_children]; try done. by rewrite last_snoc, take_app_length. Qed.

Lemma map_res_id {E A} (f : A -> result E A) l l' :
  Forall (fun x => forall r, f x = Ok r -> r = x) l -> map_res f l = Ok l' -> l' = l.
Proof.
  intros Hl. revert l'. induction Hl as [|x l Hx _ IH]; intros l' H; [by injection H|].
  cbn in H. apply bind_Ok in H as (y & ->%Hx & H). apply bind_Ok in H as (ys & ->%IH & [= <-]). done.
Qed.

Lemma substitute_nothing t d r : substitute t [] d = Ok r -> r = t.
Proof.
  revert d r. induction t as [t IH] using TypeExpr_ind'. intros d r. rewrite substitute_eq.
  intros (_ & _ & H)%bind_Ok.
  assert (forall k, map_res (fun c => substitute c [] (d + 1)) (type_children t) ≫= k = Ok r ->
    k (type_children t) = Ok r) as Hc.
  { intros k (l & Hl & Hk)%bind_Ok. apply map_res_id in Hl as ->; [done|].
    eapply Forall_impl; [exact IH|]. intros c Hc r'. apply Hc. }
  destruct t; try (apply Hc in H; rewrite with_children_self in H; by injection H). done.
Qed.

Lemma substitute_nothing_Ok env t d :
  WellFormed env 0 t -> type_height t + d <= MAX_TYPE_DEPTH + 1 -> substitute t [] d = Ok t.
Proof.
  revert d. induction t as [t IH] using TypeExpr_ind'. intros d Hwf Hh.
  apply AllNodes_inv in Hwf as [Hn Hc]. rewrite type_height_eq in Hh.
  rewrite substitute_eq, (proj2 (check_depth_Ok d tt)) by lia. cbn [mbind result_bind].
  assert (map_res (fun c => substitute c [] (d + 1)) (type_children t) = Ok (type_children t)) as Hm.
  { apply map_res_Ok. assert (max_height (type_children t) <= MAX_TYPE_DEPTH - d) as Hmax%max_height_le by lia.
    assert (d <= MAX_TYPE_DEPTH) as Hd by lia. clear Hn Hh. induction IH as [|c cs Hcs _ IHl]; [constructor|].
    apply Forall_cons in Hc as [? ?], Hmax as [? ?]. constructor; [|auto]. apply Hcs; [done|lia]. }
  destruct t; try (rewrite Hm; cbn [mbind result_bind]; by rewrite with_children_self).
  unfold node_ok in Hn. cbn [node_check] in Hn. by rewrite (proj2 (N.leb_le 0 ordinal) (N.le_0_l _)) in Hn.
Qed.

(** ** Values *)

Definition bytes_lt (a b : bytes) : Prop := bytes_cmp a b = Lt.
Definition encodes (value : ConstValue) (b : bytes) : Prop := ConstEncoding.encode_const_value value = Ok b.

Definition leaf_ok (t : TypeExpr) (d : ConstData) : Prop :=
  match t, d with
  | TUnit, DUnit | TBool, DBool _ => True
  | TSInt w, DSInt x => is_epoch_1 w = true /\ fits true w x 0 = true
  | TUInt w, DUInt x => is_epoch_1 w = true /\ fits false w 0 x = true
  | TF32, DF32Bits bits => bits < 2 ^ 32 /\ check_f32 bits = Ok tt
  | TF64, DF64Bits bits => bits < 2 ^ 64 /\ check_f64 bits = Ok tt
  | TBytes, DBytes b => len b < U64_LIMIT
  | TText, DText s => from_utf8_ok s = true /\ len s < U64_LIMIT
  | TFunctionRef _ _ _, DFunctionRef _ => True
  | TBuiltinFailure k, DBuiltinFailure f => k = bfv_kind f /\ check_builtin_failure (bfv_kind f) (bfv_code f) = Ok tt
  | _, _ => False
  end.

Section typed.
Variable env : Definitions.

Inductive ValueTyped : ConstValue -> Prop :=
| VT_leaf t d : leaf_ok t d -> ValueTyped (mkConstValue t d)
| VT_tuple types values :
    len values < U64_LIMIT ->
    Forall2 (fun v t => cv_type v = t /\ ValueTyped v) values types ->
    ValueTyped (mkConstValue (TTuple types) (DSequence values))
| VT_vector e values :
    len values < U64_LIMIT ->
    Forall (fun v => cv_type v = e /\ ValueTyped v) values ->
    ValueTyped (mkConstValue (TVector e) (DSequence values))
| VT_record id args def fields values :
    env !! id = Some def -> td_form def = FormRecord fields ->
    Forall2 (fun v f => rf_member_id f = fc_member_id v /\
      member_type (rf_value_type f) args (cv_type (fc_value v)) /\ ValueTyped (fc_value v)) values fields ->
    ValueTyped (mkConstValue (TNamed id args) (DRecord (mkRecordConst id values)))
| VT_case id args def cases case payload :
    env !! id = Some def -> td_form def = FormVariant cases ->
    find_case cases (vc_member_id case) = Some case ->
    match vc_payload_type case, payload with
    | None, None => True
    | Some f, Some v => member_type f args (cv_type v)
    | _, _ => False
    end ->
    (forall v, payload = Some v -> ValueTyped v) ->
    ValueTyped (mkConstValue (TNamed id args) (DVariant (mkVariantConst id (vc_member_id case) payload)))
| VT_map k v entries keys :
    Forall (fun e => (cv_type (me_key e) = k /\ ValueTyped (me_key e)) /\
                     (cv_type (me_value e) = v /\ ValueTyped (me_value e))) entries ->
    Forall2 (fun e b => encodes (me_key e) b) entries keys ->
    StronglySorted bytes_lt keys ->
    ValueTyped (mkConstValue (TOrderedMap k v) (DMap entries))
| VT_none t : ValueTyped (mkConstValue (TOption t) (DOption None))
| VT_some v : ValueTyped v -> ValueTyped (mkConstValue (TOption (cv_type v)) (DOption (Some v)))
| VT_ok v e : ValueTyped v -> ValueTyped (mkConstValue (TResult (cv_type v) e) (DResult (ROk v)))
| VT_err o v : ValueTyped v -> ValueTyped (mkConstValue (TResult o (cv_type v)) (DResult (RErr v))).

(** [v] has type [t]. *)
Definition has_type (v : ConstValue) (t : TypeExpr) : Prop := cv_type v = t /\ ValueTyped v.

(** [v] is the value of a register of type [t]: a cell handle for a cell, with
    [cells] the types of the cells. *)
Definition register_typed (cells : list TypeExpr) (v : ConstValue) (t : TypeExpr) : Prop :=
  cv_type v = t /\
  match t with
  | TLocalCell inner => exists i, cv_data v = DUInt i /\ i < len cells /\ cells !! N.to_nat i = Some inner
  | _ => ValueTyped v
  end.

Definition cells_typed (types : list TypeExpr) (cells : list ConstValue) : Prop := Forall2 has_type cells types.

(** *** Canonical forms *)

Lemma has_type_tuple v types :
  has_type v (TTuple types) ->
  exists values, v = mkConstValue (TTuple types) (DSequence values) /\ len values < U64_LIMIT /\ Forall2 has_type values types.
Proof. intros [E H]. inversion H; simplify_eq/=; [by destruct d|]. by eexists. Qed.

Lemma has_type_vector v e :
  has_type v (TVector e) ->
  exists values, v = mkConstValue (TVector e) (DSequence values) /\ len values < U64_LIMIT /\
    Forall (fun v => has_type v e) values.
Proof. intros [E H]. inversion H; simplify_eq/=; [by destruct d|]. by eexists. Qed.

Lemma has_type_uint v w :
  has_type v (TUInt w) -> exists n, v = mkConstValue (TUInt w) (DUInt n) /\ is_epoch_1 w = true /\ fits false w 0 n = true.
Proof. intros [E H]. inversion H; simplify_eq/=; destruct d; try done. by eexists. Qed.

Lemma has_type_sint v w :
  has_type v (TSInt w) -> exists z, v = mkConstValue (TSInt w) (DSInt z) /\ is_epoch_1 w = true /\ fits true w z 0 = true.
Proof. intros [E H]. inversion H; simplify_eq/=; destruct d; try done. by eexists. Qed.

Lemma has_type_bool v : has_type v TBool -> exists b, v = mkConstValue TBool (DBool b).
Proof. intros [E H]. inversion H; simplify_eq/=; destruct d; try done. by eexists. Qed.

Lemma has_type_unit v : has_type v TUnit -> v = mkConstValue TUnit DUnit.
Proof. intros [E H]. inversion H; simplify_eq/=; by destruct d. Qed.

Lemma has_type_bytes v : has_type v TBytes -> exists b, v = mkConstValue TBytes (DBytes b) /\ len b < U64_LIMIT.
Proof. intros [E H]. inversion H; simplify_eq/=; destruct d; try done. by eexists. Qed.

Lemma has_type_text v :
  has_type v TText -> exists s, v = mkConstValue TText (DText s) /\ Utf8 s /\ len s < U64_LIMIT.
Proof.
  intros [E H]. inversion H as [? ? L| | | | | | | | | ]; simplify_eq/=; destruct d; try done.
  destruct L as [Hu Hl]. apply from_utf8_ok_iff in Hu. by eexists.
Qed.

Lemma has_type_map v k t :
  has_type v (TOrderedMap k t) ->
  exists entries keys, v = mkConstValue (TOrderedMap k t) (DMap entries) /\
    Forall (fun e => has_type (me_key e) k /\ has_type (me_value e) t) entries /\
    Forall2 (fun e b => encodes (me_key e) b) entries keys /\ StronglySorted bytes_lt keys.
Proof. intros [E H]. inversion H; simplify_eq/=; [by destruct d|]. by eexists _, _. Qed.

Lemma has_type_record v id :
  has_type v (named id) -> (exists fields, record_fields env id = Ok fields) ->
  exists fields values, record_fields env id = Ok fields /\
    v = mkConstValue (named id) (DRecord (mkRecordConst id values)) /\
    Forall2 (fun x f => fc_member_id x = rf_member_id f /\ has_type (fc_value x) (rf_value_type f)) values fields.
Proof.
  unfold named. intros [E H] [fields Hf]. unfold record_fields, definition in Hf.
  inversion H as [t d L| | |id' args def fields' values Hd Hform Hv|id' args def cases case payload Hd Hform| | | | | ];
    simplify_eq/=; [by destruct d| |]; rewrite Hd in Hf; cbn in Hf; rewrite Hform in Hf; destruct (td_type_parameters def) eqn:Htp; try done.
  exists fields', values. unfold record_fields, definition. rewrite Hd. cbn. rewrite Htp, Hform. split_and!; [done..|].
  eapply Forall2_impl; [exact Hv|]. cbn. intros x f (Hm & [dp Ht] & Hx). split; [done|]. split; [|done].
  symmetry. by apply substitute_nothing in Ht.
Qed.

Lemma has_type_variant v id cases :
  has_type v (named id) -> variant_cases env id = Ok cases ->
  exists case payload, find_case cases (vc_member_id case) = Some case /\
    v = mkConstValue (named id) (DVariant (mkVariantConst id (vc_member_id case) payload)) /\
    match vc_payload_type case, payload with
    | None, None => True
    | Some f, Some x => has_type x f
    | _, _ => False
    end.
Proof.
  unfold named. intros [E H] Hf. unfold variant_cases, definition in Hf.
  inversion H as [t d L| | |id' args def fields' values Hd Hform Hv|id' args def cases' case payload Hd Hform Hcase Hp Hv| | | | | ];
    simplify_eq/=; [by destruct d| |]; rewrite Hd in Hf; cbn in Hf; rewrite Hform in Hf; destruct (td_type_parameters def) eqn:Htp; try done.
  injection Hf as <-. exists case, payload. split_and!; [done..|].
  destruct (vc_payload_type case), payload as [x|]; try done. destruct Hp as [dp Ht].
  apply substitute_nothing in Ht. split; [done|]. by apply Hv.
Qed.

Lemma has_type_not_cell v t : has_type v t -> forall inner, t <> TLocalCell inner.
Proof. intros [<- H] inner E. inversion H; simplify_eq/=. by destruct d. Qed.

Lemma register_typed_value cells v t :
  contains_cell t = false -> register_typed cells v t -> has_type v t.
Proof. intros Hc [E H]. split; [done|]. by destruct t. Qed.

Lemma has_type_register cells v t : has_type v t -> register_typed cells v t.
Proof.
  intros H. pose proof (has_type_not_cell v t H) as Hn. destruct H as [E H]. split; [done|].
  destruct t; try done. by destruct (Hn t).
Qed.

(** *** Building typed values *)

Definition returns (r : fault_result ConstValue) (t : TypeExpr) : Prop := exists v, r = Ok v /\ has_type v t.

Lemma returns_Ok v t : has_type v t -> returns (Ok v) t.
Proof. by exists v. Qed.

Lemma leaf_has_type t d : leaf_ok t d -> has_type (mkConstValue t d) t.
Proof. intros H. split; [done|]. by constructor. Qed.

Lemma some_has_type v t : has_type v t -> has_type (mkConstValue (TOption t) (DOption (Some v))) (TOption t).
Proof. intros [<- H]. split; [done|]. by apply VT_some. Qed.

Lemma option_has_type (o : option ConstValue) t :
  (forall v, o = Some v -> has_type v t) -> has_type (mkConstValue (TOption t) (DOption o)) (TOption t).
Proof. destruct o as [v|]; intros H; [by apply some_has_type, H|]. split; [done|apply VT_none]. Qed.

Lemma ok_has_type v ok error :
  has_type v ok -> has_type (mkConstValue (TResult ok error) (DResult (ROk v))) (TResult ok error).
Proof. intros [<- H]. split; [done|]. by apply VT_ok. Qed.

Lemma err_has_type v ok error :
  has_type v error -> has_type (mkConstValue (TResult ok error) (DResult (RErr v))) (TResult ok error).
Proof. intros [<- H]. split; [done|]. by apply VT_err. Qed.

Lemma builtin_error_has_type kind code :
  check_builtin_failure kind code = Ok tt ->
  has_type (builtin_error (TBuiltinFailure kind) kind code) (TBuiltinFailure kind).
Proof. intros H. by apply leaf_has_type. Qed.

Lemma index_failure_has_type ok code :
  1 <= code <= 2 -> has_type (index_failure (TResult ok bridge_index_error) bridge_index_error code) (TResult ok bridge_index_error).
Proof.
  intros H. apply err_has_type, leaf_has_type. split; [done|]. cbn. unfold check_builtin_failure.
  by replace _ with true by lia.
Qed.

Lemma bool_has_type b : has_type (bool_value b) TBool.
Proof. by apply leaf_has_type. Qed.

Lemma uint_has_type w n : is_epoch_1 w = true -> n < 2 ^ w -> has_type (mkConstValue (TUInt w) (DUInt n)) (TUInt w).
Proof.
  intros Hw Hn. apply leaf_has_type. split; [done|]. unfold fits. apply N.leb_le.
  pose proof (unsigned_max_eq _ Hw) as E. unfold width_max in E. lia.
Qed.

Lemma u64_has_type n : n < U64_LIMIT -> has_type (mkConstValue u64_type (DUInt n)) u64_type.
Proof. intros H. by apply uint_has_type. Qed.

Lemma uint_bound v w :
  has_type v (TUInt w) -> exists n, v = mkConstValue (TUInt w) (DUInt n) /\ n < 2 ^ w.
Proof.
  intros (n & -> & Hw & Hn)%has_type_uint. exists n. split; [done|]. unfold fits in Hn.
  pose proof (unsigned_max_eq _ Hw) as E. unfold width_max in E. lia.
Qed.

Lemma vector_has_type values e :
  len values < U64_LIMIT -> Forall (fun v => has_type v e) values ->
  has_type (mkConstValue (TVector e) (DSequence values)) (TVector e).
Proof. intros Hl H. split; [done|]. by apply VT_vector. Qed.

Lemma text_has_type s : Utf8 s -> len s < U64_LIMIT -> has_type (mkConstValue TText (DText s)) TText.
Proof. intros H Hl. apply leaf_has_type. split; [by apply from_utf8_ok_iff|done]. Qed.

End typed.
