(* ===== verification/VmMap.v ===== *)
(** * The virtual machine: ordered maps

    The map operations of the machine keep the entries of a map in the order of
    the canonical bytes of their keys, and compute lookup, insertion and deletion
    in the finite map from those bytes to values that the entries stand for. *)

From S2P Require Import Prelude Bytes Ids Ssmc Types ConstEncoding ConstWire.
From S2P Require Import VmInt VmFloat VmText VmBridge VmJudge VmExec VmTyped.
Set Warnings "-register-all".

#[global] Instance byte_countable : Countable Byte.byte := inj_countable' b2n n2b n2b_b2n.

(** ** Keyed entries *)

Abbreviation keyed := (bytes * MapEntry)%type.

(** Each entry stands beside the encoding of its key. *)
Definition keyed_ok (l : list keyed) : Prop := Forall (fun p => encodes (me_key p.2) p.1) l.

(** ... in the order of the encodings. *)
Definition canonical_entries (l : list keyed) : Prop :=
  keyed_ok l /\ StronglySorted (fun a b => bytes_cmp a.1 b.1 = Lt) l.

(** The finite map the entries stand for *)
Definition map_of (l : list keyed) : gmap bytes ConstValue :=
  list_to_map ((fun p : keyed => (p.1, me_value p.2)) <$> l).

Lemma key_bytes_Ok v b : key_bytes v = Ok b <-> encodes v b.
Proof. unfold key_bytes, encodes. destruct (encode_const_value v); split; congruence. Qed.

Lemma key_bytes_Err v : key_bytes v = Err Fault <-> is_ok (encode_const_value v) = false.
Proof. unfold key_bytes. by destruct (encode_const_value v). Qed.

Lemma keyed_entries_Ok entries l : keyed_entries entries = Ok l <-> entries = l.*2 /\ keyed_ok l.
Proof.
  unfold keyed_entries, keyed_ok. rewrite map_res_Ok. split.
  - intros H. induction H as [|e [b e'] es l Hp _ [-> IH]]; [by split|].
    apply bind_Ok in Hp as (b' & Hb & [= -> ->]). split; [done|]. constructor; [by apply key_bytes_Ok|done].
  - intros [-> H]. induction H as [|[b e] l Hp _ IH]; [constructor|]. constructor; [|done].
    cbn in *. apply key_bytes_Ok in Hp. by rewrite Hp.
Qed.

(** The keys of a value's entries, as [VT_map] lists them *)
Lemma canonical_zip entries keys :
  Forall2 (fun e b => encodes (me_key e) b) entries keys -> StronglySorted bytes_lt keys ->
  exists l, entries = l.*2 /\ keys = l.*1 /\ canonical_entries l.
Proof.
  intros H. induction H as [|e b es keys He _ IH]; intros Hs.
  { exists []. split_and!; try done. split; constructor. }
  apply StronglySorted_inv in Hs as [Hs Hb]. destruct (IH Hs) as (l & -> & -> & Hk & Hl).
  exists ((b, e) :: l). split_and!; [done..|]. split; [by constructor|]. constructor; [done|].
  by rewrite Forall_fmap in Hb.
Qed.

Lemma canonical_unzip l :
  canonical_entries l -> Forall2 (fun e b => encodes (me_key e) b) l.*2 l.*1 /\ StronglySorted bytes_lt l.*1.
Proof.
  intros [Hk Hs]. split.
  - induction Hk; constructor; [done|]. apply IHHk. by inversion Hs.
  - clear Hk. induction Hs as [|p l Hs IH Hp]; rewrite ?fmap_cons; constructor; [done|]. by apply Forall_fmap.
Qed.

Lemma canonical_NoDup l : canonical_entries l -> NoDup l.*1.
Proof. intros [_ H]. apply (lt_key_NoDup fst bytes_cmp bytes_total_compare l H). Qed.

(** Sorting distinct keys gives a canonical map with the same entries. *)
Lemma sorted_map_keyed l :
  keyed_ok l -> NoDup l.*1 ->
  exists l', sorted_map l.*2 = Ok l'.*2 /\ canonical_entries l' /\ l' ≡ₚ l.
Proof.
  intros Hk Hn. unfold sorted_map. rewrite (proj2 (keyed_entries_Ok l.*2 l)) by done. cbn [mbind result_bind].
  exists (sort_by (fun a b => bytes_cmp a.1 b.1) l). split; [done|].
  pose proof (sort_by_perm fst bytes_cmp l) as Hp. split; [|exact Hp]. split.
  - unfold keyed_ok. by rewrite Hp.
  - by apply (sort_by_lt fst bytes_cmp bytes_total_compare).
Qed.

Lemma map_of_keys (l : list keyed) : ((fun p : keyed => (p.1, me_value p.2)) <$> l).*1 = l.*1.
Proof. rewrite <- list_fmap_compose. by apply list_fmap_ext. Qed.

Lemma map_of_permutation l l' : NoDup l.*1 -> l ≡ₚ l' -> map_of l = map_of l'.
Proof. intros Hn Hp. apply list_to_map_proper; [by rewrite map_of_keys|by rewrite Hp]. Qed.

Lemma map_of_lookup q l :
  map_of l !! q = (fun p => me_value p.2) <$> find_first (fun p => bool_decide (p.1 = q)) l.
Proof.
  unfold map_of. induction l as [|[b e] l IH]; [done|]. cbn [fmap list_fmap list_to_map foldr find_first fst snd].
  destruct (decide (b = q)) as [->|Hne].
  - by rewrite bool_decide_eq_true_2, lookup_insert_eq by done.
  - by rewrite bool_decide_eq_false_2, lookup_insert_ne, IH by done.
Qed.

Lemma map_of_contains q l :
  existsb (fun p : keyed => bool_decide (p.1 = q)) l = bool_decide (is_Some (map_of l !! q)).
Proof.
  apply eq_true_iff_eq. rewrite bool_decide_eq_true, map_of_lookup, fmap_is_Some.
  induction l as [|p l IH]; cbn [existsb find_first]; [by split; [|intros [? ?]]|].
  destruct (bool_decide (p.1 = q)); cbn [orb]; [by split; [eexists|]|exact IH].
Qed.

(** *** The entries with other keys *)

Abbreviation others q l := (List.filter (fun p : keyed => negb (bool_decide (p.1 = q))) l).

Lemma elem_of_others q l p : p ∈ others q l <-> p ∈ l /\ p.1 <> q.
Proof. rewrite !list_elem_of_In, filter_In. rewrite negb_true_iff, bool_decide_eq_false. done. Qed.

Lemma others_keys q l : NoDup l.*1 -> NoDup (others q l).*1 /\ q ∉ (others q l).*1.
Proof.
  intros Hn. split.
  - induction l as [|p l IH]; cbn; [constructor|]. rewrite fmap_cons in Hn. apply NoDup_cons in Hn as [Hp Hn].
    destruct (negb _); [|auto]. rewrite fmap_cons. constructor; [|auto].
    intros (p' & E & Hp')%list_elem_of_fmap. apply elem_of_others in Hp' as [Hp' _]. apply Hp. rewrite E.
    by apply list_elem_of_fmap_2.
  - intros (p & -> & [_ Hp]%elem_of_others)%list_elem_of_fmap. done.
Qed.

Lemma others_keyed q l : keyed_ok l -> keyed_ok (others q l).
Proof.
  unfold keyed_ok. rewrite !Forall_forall. intros H p Hp. apply H. apply elem_of_others in Hp. tauto.
Qed.

Lemma map_of_others q l : map_of (others q l) = delete q (map_of l).
Proof.
  unfold map_of. induction l as [|[b e] l IH]; cbn [List.filter fst]; [symmetry; apply delete_empty|].
  destruct (decide (b = q)) as [->|Hne].
  - rewrite bool_decide_eq_true_2 by done. cbn [negb]. rewrite IH. cbn. by rewrite delete_insert_eq.
  - rewrite bool_decide_eq_false_2 by done. cbn [negb fmap list_fmap list_to_map foldr fst snd]. rewrite IH.
    by rewrite delete_insert_ne.
Qed.

(** ** The operations *)

Section operations.
Context (blake3 sha256 : bytes -> bytes) (context : ExecutionContext) (immediate : Immediate).
#[local] Abbreviation run opcode operands t := (execute_map opcode operands t).
#[local] Abbreviation map_data t l := (mkConstValue t (DMap (snd <$> l))).

Lemma map_value_keyed t l :
  keyed_ok l -> NoDup l.*1 ->
  exists l', map_value t l.*2 = Ok (map_data t l') /\ canonical_entries l' /\ l' ≡ₚ l.
Proof.
  intros Hk Hn. destruct (sorted_map_keyed l Hk Hn) as (l' & Hs & Hl').
  exists l'. unfold map_value. rewrite Hs. by split.
Qed.

Section probe.
Context (t result_type : TypeExpr) (l : list keyed) (key : ConstValue) (q : bytes).
Hypothesis Hl : canonical_entries l.
Hypothesis Hq : encodes key q.

#[local] Lemma probe_entries : keyed_entries l.*2 = Ok l.
Proof using Hl. apply keyed_entries_Ok. split; [done|apply Hl]. Qed.

Lemma execute_map_get :
  run OpMapGet [map_data t l; key] result_type = Ok (mkConstValue result_type (DOption (map_of l !! q))).
Proof using Hl Hq.
  unfold execute_map. rewrite (proj2 (key_bytes_Ok _ _) Hq). cbn [mbind result_bind map_entries cv_data].
  rewrite probe_entries. cbn [mbind result_bind]. by rewrite map_of_lookup.
Qed.

Lemma execute_map_contains :
  run OpMapContains [map_data t l; key] result_type = Ok (bool_value (bool_decide (is_Some (map_of l !! q)))).
Proof using Hl Hq.
  unfold execute_map. rewrite (proj2 (key_bytes_Ok _ _) Hq). cbn [mbind result_bind map_entries cv_data].
  rewrite probe_entries. cbn [mbind result_bind]. by rewrite map_of_contains.
Qed.

Lemma execute_map_insert value :
  exists l', run OpMapInsert [map_data t l; key; value] result_type = Ok (map_data result_type l') /\
    canonical_entries l' /\ map_of l' = <[q := value]> (map_of l) /\
    l' ≡ₚ others q l ++ [(q, mkMapEntryConst key value)].
Proof using Hl Hq.
  unfold execute_map. rewrite (proj2 (key_bytes_Ok _ _) Hq). cbn [mbind result_bind map_entries cv_data].
  rewrite probe_entries. cbn [mbind result_bind].
  destruct (others_keys q l (canonical_NoDup l Hl)) as [Hn Hnq].
  assert (NoDup (others q l ++ [(q, mkMapEntryConst key value)]).*1) as Hnd.
  { rewrite fmap_app. apply NoDup_app. split_and!; [done| |apply NoDup_singleton].
    intros b Hb Hbq. apply list_elem_of_singleton in Hbq as ->. done. }
  destruct (map_value_keyed result_type (others q l ++ [(q, mkMapEntryConst key value)])) as (l' & Hv & Hc & Hp).
  { apply Forall_app. split; [apply others_keyed, Hl|by repeat constructor]. }
  { done. }
  exists l'. rewrite fmap_app in Hv. split_and!; [exact Hv|done| |done].
  rewrite (map_of_permutation _ _ (canonical_NoDup _ Hc) Hp).
  rewrite (map_of_permutation _ ((q, mkMapEntryConst key value) :: others q l)) by (done || by rewrite Permutation_app_comm).
  unfold map_of at 1. cbn [fmap list_fmap list_to_map foldr fst snd me_value].
  fold (map_of (others q l)). by rewrite map_of_others, insert_delete_eq.
Qed.

Lemma execute_map_remove :
  exists l', run OpMapRemove [map_data t l; key] result_type = Ok (map_data result_type l') /\
    canonical_entries l' /\ map_of l' = delete q (map_of l) /\ l' ≡ₚ others q l.
Proof using Hl Hq.
  unfold execute_map. rewrite (proj2 (key_bytes_Ok _ _) Hq). cbn [mbind result_bind map_entries cv_data].
  rewrite probe_entries. cbn [mbind result_bind].
  destruct (others_keys q l (canonical_NoDup l Hl)) as [Hn _].
  destruct (map_value_keyed result_type (others q l)) as (l' & Hv & Hc & Hp); [apply others_keyed, Hl|done|].
  exists l'. split_and!; [done|done| |done].
  by rewrite (map_of_permutation _ _ (canonical_NoDup _ Hc) Hp), map_of_others.
Qed.
End probe.

(** *** The map of a list of pairs *)

(** [key, value, key, value, ..] *)
Definition flat (l : list keyed) : list ConstValue := p ← l; [me_key p.2; me_value p.2].

Lemma map_pairs_keyed l seen :
  keyed_ok l -> NoDup seen ->
  map_pairs seen (flat l) = Ok (if bool_decide (NoDup (seen ++ l.*1)) then Some l.*2 else None).
Proof.
  intros Hk. revert seen. induction Hk as [|[b [k v]] l Hb _ IH]; intros seen Hs.
  { rewrite bool_decide_eq_true_2; [done|]. by rewrite app_nil_r. }
  cbn [flat mbind list_bind app fst snd me_key me_value map_pairs]. cbn in Hb.
  rewrite (proj2 (key_bytes_Ok _ _) Hb). cbn [mbind result_bind].
  assert (existsb (fun x => bool_decide (x = b)) seen = bool_decide (b ∈ seen)) as ->.
  { apply eq_true_iff_eq. rewrite existsb_exists, bool_decide_eq_true. setoid_rewrite bool_decide_eq_true.
    setoid_rewrite <- list_elem_of_In. split; [by intros (? & ? & ->)|eauto]. }
  destruct (decide (b ∈ seen)) as [Hin|Hnin].
  - rewrite bool_decide_eq_true_2, bool_decide_eq_false_2; [done| |done].
    rewrite fmap_cons. intros (_ & H & _)%NoDup_app. apply (H b Hin). left.
  - rewrite bool_decide_eq_false_2 by done. fold (flat l). change (l ≫= _) with (flat l).
    rewrite IH by (apply NoDup_app; split_and!; [done| |apply NoDup_singleton];
                   intros x Hx ->%list_elem_of_singleton; done).
    cbn [mbind result_bind]. rewrite <- (assoc_L (++)). cbn [app]. rewrite fmap_cons. cbn [fst].
    by destruct (bool_decide _).
Qed.

Lemma execute_map_new ok error l :
  keyed_ok l ->
  (~ NoDup l.*1 /\ run OpMapNew (flat l) (TResult ok error)
      = Ok (mkConstValue (TResult ok error) (DResult (RErr (builtin_error error BFDuplicateKey 1))))) \/
  (NoDup l.*1 /\ exists l', run OpMapNew (flat l) (TResult ok error)
      = Ok (mkConstValue (TResult ok error) (DResult (ROk (map_data ok l')))) /\
    canonical_entries l' /\ l' ≡ₚ l /\ map_of l' = map_of l).
Proof.
  intros Hk. unfold execute_map. rewrite map_pairs_keyed by (done || constructor). cbn [mbind result_bind app].
  destruct (decide (NoDup l.*1)) as [Hn|Hn]; [right|left; by rewrite bool_decide_eq_false_2].
  rewrite bool_decide_eq_true_2 by done. split; [done|].
  destruct (map_value_keyed ok l Hk Hn) as (l' & Hv & Hc & Hp). exists l'. rewrite Hv. split_and!; try done.
  apply map_of_permutation; [by apply canonical_NoDup|done].
Qed.
End operations.

(** C24: The map operations refine finite maps from the canonical bytes of keys:
    on a map whose entries are canonical, get looks the key up, contains tells
    whether it is there, and insert and remove return canonical maps that stand
    for insertion and deletion; new refuses a repeated key and otherwise returns
    a canonical map of its pairs. *)
Theorem map_operations_refine (t result_type ok error : TypeExpr) (l pairs : list keyed) (key value : ConstValue)
    (q : bytes) (Hl : canonical_entries l) (Hq : encodes key q) (Hpairs : keyed_ok pairs) :
  let map := mkConstValue t (DMap l.*2) in
  execute_map OpMapGet [map; key] result_type = Ok (mkConstValue result_type (DOption (map_of l !! q))) /\
  execute_map OpMapContains [map; key] result_type = Ok (bool_value (bool_decide (is_Some (map_of l !! q)))) /\
  (exists l', execute_map OpMapInsert [map; key; value] result_type = Ok (mkConstValue result_type (DMap l'.*2)) /\
    canonical_entries l' /\ map_of l' = <[q := value]> (map_of l)) /\
  (exists l', execute_map OpMapRemove [map; key] result_type = Ok (mkConstValue result_type (DMap l'.*2)) /\
    canonical_entries l' /\ map_of l' = delete q (map_of l)) /\
  (if decide (NoDup pairs.*1) then
     exists l', execute_map OpMapNew (flat pairs) (TResult ok error)
       = Ok (mkConstValue (TResult ok error) (DResult (ROk (mkConstValue ok (DMap l'.*2))))) /\
       canonical_entries l' /\ map_of l' = map_of pairs
   else
     execute_map OpMapNew (flat pairs) (TResult ok error)
     = Ok (mkConstValue (TResult ok error) (DResult (RErr (builtin_error error BFDuplicateKey 1))))).
Proof.
  intros map. split_and!.
  - by apply execute_map_get.
  - by apply execute_map_contains.
  - destruct (execute_map_insert t result_type l key q Hl Hq value) as (l' & ? & ? & ? & _). by exists l'.
  - destruct (execute_map_remove t result_type l key q Hl Hq) as (l' & ? & ? & ? & _). by exists l'.
  - destruct (execute_map_new ok error pairs Hpairs) as [[Hn H]|[Hn (l' & ? & ? & _ & ?)]].
    + by rewrite decide_False.
    + rewrite decide_True by done. by exists l'.
Qed.

(** {false: 1, true: 2} probed at true *)
Definition sample_key (b : bool) : ConstValue := mkConstValue TBool (DBool b).
Definition sample_bytes (b : bool) : bytes :=
  match encode_const_value (sample_key b) with Ok bytes => bytes | Err _ => [] end.
Definition sample_entries : list keyed :=
  [(sample_bytes false, mkMapEntryConst (sample_key false) (mkConstValue (TUInt 8) (DUInt 1)));
   (sample_bytes true, mkMapEntryConst (sample_key true) (mkConstValue (TUInt 8) (DUInt 2)))].

Lemma map_operations_refine_witness :
  let map := mkConstValue (TOrderedMap TBool (TUInt 8)) (DMap sample_entries.*2) in
  execute_map OpMapGet [map; sample_key true] (TOption (TUInt 8))
  = Ok (mkConstValue (TOption (TUInt 8)) (DOption (Some (mkConstValue (TUInt 8) (DUInt 2))))).
Proof.
  assert (canonical_entries sample_entries) as Hl by (split; repeat constructor; by vm_compute).
  assert (encodes (sample_key true) (sample_bytes true)) as Hq by (by vm_compute).
  exact (proj1 (map_operations_refine (TOrderedMap TBool (TUInt 8)) (TOption (TUInt 8)) TUnit TUnit sample_entries
    sample_entries (sample_key true) (sample_key true) (sample_bytes true) Hl Hq (proj1 Hl))).
Defined.
