(* ===== verification/VmHost.v ===== *)
(** * The virtual machine: host entries return typed values

    The text entries and the bridge entries, run on operands of the types their
    row was judged for, return a value of the judged result type: neither faults,
    and every refusal is a failure value of the row. *)

From S2P Require Import Prelude Bytes Ids Utf8 Ssmc Types TypeEnv ConstCheck TextRows.
From S2P Require Import VmInt VmFloat VmText VmBridge VmJudge VmExec VmTyped.
Set Warnings "-register-all".

Open Scope N_scope.

Section host.
Variable env : Definitions.
#[local] Abbreviation has_type := (has_type env).
#[local] Abbreviation returns := (returns env).

(** A result or a refusal of an entry whose failures are [Index] *)
Lemma refusal_sound ok code :
  1 <= code <= 2 ->
  returns (Ok (index_failure (TResult ok (TBuiltinFailure BFIndex)) (TBuiltinFailure BFIndex) code))
    (TResult ok (TBuiltinFailure BFIndex)).
Proof. intros H. by apply returns_Ok, index_failure_has_type. Qed.

Lemma ok_result_sound ok error d :
  has_type (mkConstValue ok d) ok -> returns (Ok (ok_result (TResult ok error) ok d)) (TResult ok error).
Proof. intros H. by apply returns_Ok, ok_has_type. Qed.

Lemma u64_pair v :
  has_type v (TTuple [u64_type; u64_type]) ->
  exists m n, v = mkConstValue (TTuple [u64_type; u64_type]) (DSequence [mkConstValue u64_type (DUInt m); mkConstValue u64_type (DUInt n)])
    /\ m < U64_LIMIT /\ n < U64_LIMIT.
Proof.
  intros (values & -> & _ & H)%has_type_tuple. apply Forall2_cons_inv_r in H as (x & ? & Hx & H & ->).
  apply Forall2_cons_inv_r in H as (y & ? & Hy & H%Forall2_nil_inv_r & ->). subst.
  apply uint_bound in Hx as (m & -> & Hm), Hy as (n & -> & Hn). by exists m, n.
Qed.

(** ** Text *)

Lemma text_items items :
  Forall (fun v => has_type v TText) items ->
  exists texts, map_res text_item items = Ok texts /\ Forall Utf8 texts.
Proof.
  induction 1 as [|v l Hv _ (texts & Hm & Hu)]; [by exists []|]. apply has_type_text in Hv as (s & -> & Hs & _).
  exists (s :: texts). cbn [map_res]. change (text_item (mkConstValue TText (DText s))) with (@Ok ExtendedFault _ s).
  cbn [mbind result_bind]. rewrite Hm. by split; [|constructor].
Qed.

Lemma Utf8_concat_texts texts : Forall Utf8 texts -> Utf8 (concat texts).
Proof. induction 1; cbn; [done|]. by apply Utf8_app. Qed.

Lemma len_chars text : len (chars text) <= len text.
Proof. pose proof (len_chars_le text). unfold len. lia. Qed.

Lemma slice_text_typed text start length s :
  Utf8 text -> len text < U64_LIMIT -> slice_text text start length = Some s -> has_type (mkConstValue TText (DText s)) TText.
Proof.
  intros Hu Hl Hs. apply text_has_type.
  - rewrite slice_text_scalars in Hs by done. case_match; [|done]. simplify_eq.
    by apply Utf8_concat, Forall_take, Forall_drop, Utf8_chars.
  - unfold slice_text in Hs. repeat (apply bind_Some in Hs as (? & _ & Hs)). simplify_eq.
    unfold len in *. rewrite length_take, length_drop. lia.
Qed.

Lemma text_entry_sound kind carried scope request :
  let '(want_scope, want_request, response) := text_row_types kind in
  ai_request_type carried = want_request -> ai_response_type carried = response ->
  has_type scope want_scope -> has_type request want_request ->
  returns (text_execute kind carried [scope; request] (TResult response text_failure_type)) (TResult response text_failure_type).
Proof.
  destruct (text_row_types kind) as [[want_scope want_request] response] eqn:E. intros Hq Hp Hs Hr.
  unfold text_execute. rewrite E. rewrite !bool_decide_eq_true_2 by (done || by destruct Hs, Hr).
  cbn [andb ensure mbind result_bind].
  destruct kind; injection E as <- <- <-;
    repeat match goal with
    | H : has_type _ TUnit |- _ => apply has_type_unit in H as ->
    | H : has_type _ TText |- _ => apply has_type_text in H as (text & -> & Hu & Hl)
    end; cbn [cv_data unit_operand text_operand mbind result_bind].
  - pose proof (len_chars text). apply ok_result_sound, u64_has_type. lia.
  - apply u64_pair in Hr as (m & n & -> & Hm & Hn). cbn [cv_data sequence_operand uint_operand mbind result_bind].
    destruct (slice_text text m n) as [s|] eqn:Es; [|by apply refusal_sound].
    by eapply ok_result_sound, slice_text_typed.
  - apply has_type_vector in Hr as (items & -> & _ & Hi). cbn [cv_data sequence_operand mbind result_bind].
    destruct (text_items items Hi) as (texts & -> & Hu). cbn [mbind result_bind].
    rewrite saturating_total, N.add_0_l by done. destruct (N.ltb_spec TEXT_MAX_BYTES (N.min (len (concat texts)) (U64_LIMIT - 1))) as [|Hmax];
      [by apply refusal_sound|].
    apply ok_result_sound, text_has_type; [by apply Utf8_concat_texts|]. unfold TEXT_MAX_BYTES, U64_LIMIT in *. lia.
  - destruct (N.ltb_spec BRIDGE_MAX_ITEMS (len (chars text))) as [|Hmax]; [by apply refusal_sound|].
    apply ok_result_sound, vector_has_type; [rewrite len_fmap; unfold BRIDGE_MAX_ITEMS, U64_LIMIT in *; lia|].
    apply Forall_fmap. eapply Forall_impl; [by apply Utf8_chars|]. intros s Hs. cbn.
    pose proof (scalar_len _ Hs). apply text_has_type; [by apply scalar_Utf8|]. unfold U64_LIMIT. lia.
  - apply Utf8_chars in Hu. destruct (chars text) as [|s [|]]; [by apply refusal_sound| |by apply refusal_sound].
    apply Forall_cons in Hu as [Hu _]. apply ok_result_sound, uint_has_type; [done|]. by apply char_code_bound.
  - apply uint_bound in Hr as (n & -> & Hn). cbn [cv_data uint_operand mbind result_bind].
    destruct (if n <? 2 ^ 32 then char_from_u32 n else None) as [s|] eqn:Es; [|by apply refusal_sound].
    destruct (n <? 2 ^ 32); [|done]. apply char_from_u32_spec in Es as [Hs _]. pose proof (scalar_len _ Hs).
    apply ok_result_sound, text_has_type; [by apply scalar_Utf8|]. unfold U64_LIMIT. lia.
  - apply has_type_sint in Hr as (z & -> & Hw & Hf). cbn [cv_data].
    pose proof (fits_eq true 64 z Hw (or_introl eq_refl)) as Hz. cbn [number_pair fst snd] in Hz.
    rewrite Hf in Hz. symmetry in Hz. unfold in_width, width_min, width_max in Hz.
    apply ok_result_sound, text_has_type; [apply i128_to_string_Utf8|].
    pose proof (i128_to_string_len z ltac:(lia)). unfold U64_LIMIT. lia.
Qed.

(** A use a resolved text row was judged for *)
Lemma text_use_sound adapters immediate kind carried t1 t2 t scope request :
  resolve_text_entry adapters immediate = Some (kind, carried) -> judge_text_use kind t1 t2 = Some t ->
  has_type scope t1 -> has_type request t2 -> returns (text_execute kind carried [scope; request] t) t.
Proof.
  intros Hr Hj Hs Hq. pose proof (text_entry_sound kind carried scope request) as Hsound.
  unfold resolve_text_entry in Hr. apply bind_Some in Hr as (id & _ & (import & _ & (k & _ & Hr)%bind_Some)%bind_Some).
  unfold judge_text_use in Hj. destruct (text_row_types k) as [[s q] r] eqn:E.
  destruct (_ && _) eqn:Hg in Hr; [|done]. injection Hr as -> ->. rewrite E in Hj, Hsound.
  rewrite !andb_true_iff, !bool_decide_eq_true in Hg. destruct Hg as [[_ Hg1] Hg2].
  destruct (_ && _) eqn:Hw in Hj; [|done]. injection Hj as <-.
  rewrite andb_true_iff, !bool_decide_eq_true in Hw. destruct Hw as [-> ->]. by apply Hsound.
Qed.

(** ** Bridge entries *)

(** What a resolved row fixes *)
Definition row_ok (kind : BridgeKind) (carried : AdapterImport) : Prop :=
  ai_failure_type carried = bridge_index_error /\
  match bridge_row_types kind with
  | Some (request, response) => ai_request_type carried = request /\ ai_response_type carried = response
  | None => ai_response_type carried = TVector (ai_request_type carried)
  end.

Lemma push_row_ok carried : is_push_row carried = true -> row_ok VectorPush carried.
Proof. unfold is_push_row, frozen_fields. rewrite !andb_true_iff, !bool_decide_eq_true. intros. by destruct_and!. Qed.

Lemma resolve_bridge_entry_row adapters id kind carried :
  resolve_bridge_entry adapters id = Some (kind, carried) -> row_ok kind carried.
Proof.
  unfold resolve_bridge_entry. intros (import & _ & (entry & _ & H)%bind_Some)%bind_Some.
  destruct (frozen_fields import) eqn:Hf; [|done]. cbn [negb] in H.
  destruct (bridge_row_types entry) as [[request response]|] eqn:E.
  - destruct (_ && _) eqn:Hb in H; [|done]. injection H as -> ->. rewrite andb_true_iff, !bool_decide_eq_true in Hb.
    unfold frozen_fields in Hf. rewrite !andb_true_iff, !bool_decide_eq_true in Hf. unfold row_ok. rewrite E. tauto.
  - destruct (is_push_row import) eqn:Hp; [|done]. injection H as <- ->. by apply push_row_ok.
Qed.

Lemma resolve_push_use_row adapters immediate scope request kind carried :
  resolve_push_use adapters immediate scope request = Some (kind, carried) ->
  kind = VectorPush /\ row_ok VectorPush carried /\ request = ai_request_type carried /\ scope = ai_response_type carried.
Proof.
  assert (forall carried, serves_push scope request carried = true -> row_ok VectorPush carried /\
    request = ai_request_type carried /\ scope = ai_response_type carried) as Hserves.
  { intros x. unfold serves_push. rewrite !andb_true_iff, !bool_decide_eq_true. intros [[Hp <-] <-]. by split; [apply push_row_ok|]. }
  unfold resolve_push_use, resolve_push_row. destruct (immediate =? _); intros (x & Hx & H)%bind_Some.
  - injection H as <- <-. apply find_first_Some in Hx as [_ [_ Hx]%andb_true_iff]. by split; [|apply Hserves].
  - destruct (serves_push scope request x) eqn:Hs; [|done]. injection H as <- <-. by split; [|apply Hserves].
Qed.

Lemma vector_push_sound carried scope request :
  row_ok VectorPush carried -> has_type scope (ai_response_type carried) -> has_type request (ai_request_type carried) ->
  returns (bridge_vector_push_owned carried scope request (TResult (ai_response_type carried) bridge_index_error))
    (TResult (ai_response_type carried) bridge_index_error).
Proof.
  intros [Hf Hr] Hs Hq. cbn in Hr. unfold bridge_vector_push_owned.
  rewrite !bool_decide_eq_true_2 by (done || by destruct Hs, Hq). cbn [andb ensure mbind result_bind].
  rewrite Hr in Hs |- *. apply has_type_vector in Hs as (items & -> & Hl & Hi). cbn [cv_data sequence_operand mbind result_bind].
  destruct (N.leb_spec BRIDGE_MAX_ITEMS (len items)); [by apply refusal_sound|].
  apply ok_result_sound, vector_has_type; [rewrite len_app; unfold BRIDGE_MAX_ITEMS, U64_LIMIT, len in *; cbn; lia|].
  apply Forall_app. by split; [|apply Forall_singleton].
Qed.

Lemma byte_items items :
  Forall (fun v => has_type v u8_type) items ->
  exists b, map_res byte_item items = Ok b /\ len b = len items.
Proof.
  induction 1 as [|v l Hv _ (b & Hm & Hl)]; [by exists []|]. apply uint_bound in Hv as (n & -> & Hn).
  assert (byte_item (mkConstValue (TUInt 8) (DUInt n)) = Ok (n2b n)) as E.
  { unfold byte_item. cbn [uint_operand cv_data mbind result_bind]. by rewrite (proj2 (N.ltb_lt n 256) Hn). }
  exists (n2b n :: b). cbn [map_res]. rewrite E. cbn [mbind result_bind]. rewrite Hm. split; [done|]. by rewrite !len_cons, Hl.
Qed.

Lemma bytes_items items :
  Forall (fun v => has_type v TBytes) items -> exists parts, map_res bytes_operand items = Ok parts.
Proof.
  induction 1 as [|v l Hv _ (b & Hm)]; [by exists []|]. apply has_type_bytes in Hv as (s & -> & _).
  exists (s :: b). cbn [map_res bytes_operand cv_data mbind result_bind]. by rewrite Hm.
Qed.

Lemma bytes_sound b error :
  len b < U64_LIMIT -> returns (Ok (ok_result (TResult TBytes error) TBytes (DBytes b))) (TResult TBytes error).
Proof. intros H. by apply ok_result_sound, leaf_has_type. Qed.

Section digests.
Context (blake3 sha256 : bytes -> bytes).
Hypothesis Hblake3 : forall b, len (blake3 b) = 32.
Hypothesis Hsha256 : forall b, len (sha256 b) = 32.

Lemma bridge_entry_sound kind carried scope request t1 t2 response :
  row_ok kind carried -> judge_bridge_use kind carried t1 t2 = Ok response ->
  has_type scope t1 -> has_type request t2 ->
  returns (bridge_execute blake3 sha256 kind carried [scope; request] (TResult response bridge_index_error))
    (TResult response bridge_index_error).
Proof using Hblake3 Hsha256.
  intros Hrow Hj Hs Hq. destruct (decide (kind = VectorPush)) as [->|Hpush].
  { apply bind_Ok in Hj as (_ & [->%bool_decide_eq_true ->%bool_decide_eq_true]%ensure_Ok%andb_true_iff & [= <-]).
    unfold bridge_execute. destruct Hrow as [Hf Hr].
    rewrite !bool_decide_eq_true_2 by done. cbn [andb ensure mbind result_bind]. by apply vector_push_sound. }
  destruct Hrow as [Hf Hr]. unfold judge_bridge_use in Hj. unfold bridge_execute.
  destruct kind; try done; cbn in Hr; destruct Hr as [Hr1 Hr2]; rewrite ?Hr1 in Hj;
    apply bind_Ok in Hj as (_ & [->%bool_decide_eq_true ->%bool_decide_eq_true]%ensure_Ok%andb_true_iff & [= <-]);
    rewrite Hr2, Hf, Hr1; rewrite !bool_decide_eq_true_2 by (done || by destruct Hs, Hq); cbn [andb ensure mbind result_bind];
    repeat match goal with
    | H : has_type _ TUnit |- _ => apply has_type_unit in H as ->
    | H : has_type _ TBytes |- _ => apply has_type_bytes in H as (b & -> & Hb)
    | H : has_type _ (TVector _) |- _ => apply has_type_vector in H as (items & -> & Hl & Hi)
    | H : has_type _ (TTuple _) |- _ => apply u64_pair in H as (m & n & -> & Hm & Hn)
    | H : has_type _ u8vec_type |- _ => unfold u8vec_type in H
    end; cbn [cv_data unit_operand bytes_operand sequence_operand uint_operand mbind result_bind].
  - destruct (N.ltb_spec BRIDGE_MAX_ITEMS (len b)); [by apply refusal_sound|].
    apply ok_result_sound, vector_has_type; [by rewrite len_fmap|]. apply Forall_fmap, Forall_forall. intros x _.
    apply uint_has_type; [done|]. apply b2n_bound.
  - destruct (N.ltb_spec BRIDGE_MAX_ITEMS (len items)); [by apply refusal_sound|].
    destruct (byte_items items Hi) as (b & -> & E). apply bytes_sound. by rewrite E.
  - destruct (N.ltb_spec RAW_HASH_MAX_BYTES (len b)); [by apply refusal_sound|]. apply bytes_sound. by rewrite Hblake3.
  - destruct (N.ltb_spec LARGE_BRIDGE_MAX_BYTES (len b)); [by apply refusal_sound|]. apply bytes_sound. by rewrite Hblake3.
  - destruct (N.ltb_spec LARGE_BRIDGE_MAX_BYTES (len b)); [by apply refusal_sound|]. apply bytes_sound. by rewrite Hsha256.
  - destruct (bytes_items items Hi) as (parts & ->). cbn [mbind result_bind]. rewrite saturating_total, N.add_0_l by done.
    destruct (N.ltb_spec LARGE_BRIDGE_MAX_BYTES (N.min (len (concat parts)) (U64_LIMIT - 1))); [by apply refusal_sound|].
    apply bytes_sound. unfold LARGE_BRIDGE_MAX_BYTES, U64_LIMIT in *. lia.
  - unfold slice_bytes. destruct (_ ≫= _) as [s|] eqn:E; [|by apply refusal_sound]. apply bytes_sound.
    repeat (apply bind_Some in E as (? & _ & E)). case_match; [|done]. simplify_eq.
    unfold len in *. rewrite length_take, length_drop. lia.
  - by apply ok_result_sound, u64_has_type.
Qed.
End digests.
End host.
