(* ===== verification/VmSound.v ===== *)
(** * The virtual machine: judged operations are safe

    [judge_extended_operation] types an operation when a function is lowered;
    [execute_extended_instruction] runs it.  On operands of the judged types the
    machine returns a value of the judged result type, and cells of their types.
    Its fault ("state impossible after successful lowering") is left only for a
    value that the canonical codec refuses to encode: a map key, or the operand
    of [value_hash]. *)

From S2P Require Import Prelude Bytes Ids Utf8 Ssmc Types TypeWalk TypeEnv ConstCheck TextRows Fingerprint Scb1Core ConstEncoding ConstWire.
From S2P Require Import VmInt VmFloat VmText VmBridge VmJudge VmExec VmTyped VmMap VmHost.
Set Warnings "-register-all".

Open Scope N_scope.

#[local] Arguments find_constant : simpl never.
#[local] Arguments global_initializer : simpl never.
#[local] Arguments function_signature : simpl never.
#[local] Arguments record_fields : simpl never.
#[local] Arguments variant_cases : simpl never.
#[local] Arguments find_case : simpl never.
#[local] Arguments execute_map : simpl never.
#[local] Arguments map_of : simpl never.

(** [inv_typed] opens the typing of a list of operands. *)
Ltac inv_operands :=
  repeat match goal with
  | H : Forall2 _ _ [] |- _ => apply Forall2_nil_inv_r in H; subst
  | H : Forall2 _ _ (_ :: _) |- _ =>
      let v := fresh "v" in let l := fresh "l" in let Hv := fresh "Hv" in
      apply Forall2_cons_inv_r in H as (v & l & Hv & H & ->)
  end.

Section sound.
Context (blake3 sha256 : bytes -> bytes).
Hypothesis Hblake3 : forall b, len (blake3 b) = 32.
Hypothesis Hsha256 : forall b, len (sha256 b) = 32.
Variable c : LoweringContext.
Variable epoch : bytes.
#[local] Abbreviation env := (lc_types c).
#[local] Abbreviation has_type := (has_type env).

(** The context the interpreter builds from the inventory the function was
    lowered against *)
Definition run_context : ExecutionContext :=
  mkExecutionContext env (lc_constants c) (lc_globals c) epoch (lc_adapters c).

(** The definitions are in order. *)
Hypothesis Hdefinitions : forall id def, env !! id = Some def -> definition_ok env def.

#[local] Abbreviation returns := (returns env).

(** ** Arithmetic *)

Definition is_ring (opcode : Opcode) : bool :=
  match opcode with
  | OpIntAddChecked | OpIntSubChecked | OpIntMulChecked | OpIntDivChecked | OpIntRemChecked => true
  | _ => false
  end.
Definition is_shift (opcode : Opcode) : bool :=
  match opcode with OpIntShlChecked | OpIntShrChecked => true | _ => false end.
Definition is_integer (opcode : Opcode) : bool :=
  is_ring opcode || is_shift opcode || bool_decide (opcode = OpIntNegChecked).

Lemma integer_width_number w v signed bits :
  integer_width w = Some (signed, bits) -> has_type v w ->
  is_epoch_1 bits = true /\ exists z, operand_number signed bits (cv_data v) = Some z /\ in_width signed bits z = true.
Proof using.
  intros Hw Hv. destruct w; try done; cbn in Hw; destruct (is_epoch_1 _) eqn:E; simplify_eq; split; try done.
  - apply has_type_sint in Hv as (z & -> & _ & Hf). exists z. cbn [cv_data operand_number].
    pose proof (fits_eq true bits z E (or_introl eq_refl)) as Hz. cbn [number_pair fst snd] in Hz. rewrite <- Hz, Hf. done.
  - apply has_type_uint in Hv as (n & -> & _ & Hf). exists (Z.of_N n). cbn [cv_data operand_number].
    pose proof (fits_eq false bits (Z.of_N n) E (or_intror (N2Z.is_nonneg _))) as Hz.
    cbn [number_pair fst snd] in Hz. rewrite N2Z.id in Hz. rewrite <- Hz, Hf. done.
Qed.

Lemma arithmetic_value_sound w signed bits outcome :
  integer_width w = Some (signed, bits) -> outcome_ok signed bits outcome ->
  returns (arithmetic_value outcome signed (arithmetic_result w)) (arithmetic_result w).
Proof using.
  intros Hw Ho. apply returns_Ok. destruct outcome as [s u|code].
  - apply ok_has_type. destruct w; try done; cbn in Hw; destruct (is_epoch_1 _) eqn:E; simplify_eq; by apply leaf_has_type.
  - apply err_has_type, leaf_has_type. cbn in Ho |- *. split; [done|]. unfold check_builtin_failure.
    by replace _ with true by lia.
Qed.

Lemma execute_integer_sound opcode operands w signed bits outcome :
  integer_width w = Some (signed, bits) ->
  match opcode, operands with
  | (OpIntShlChecked | OpIntShrChecked), [value; amount] =>
      bool_decide (cv_type value = w) && bool_decide (cv_type amount = u32_type)
  | _, values => forallb (fun value => bool_decide (cv_type value = w)) values
  end = true ->
  checked_integer opcode signed bits operands = Ok outcome -> outcome_ok signed bits outcome ->
  returns (execute_integer opcode operands (arithmetic_result w)) (arithmetic_result w).
Proof using.
  intros Hw Hg Hc Ho. unfold execute_integer. cbn [arithmetic_result]. rewrite Hw. cbn [ok_or mbind result_bind].
  rewrite Hg. cbn [ensure mbind result_bind]. rewrite Hc. cbn [mbind result_bind]. by eapply arithmetic_value_sound.
Qed.

Lemma has_type_decide v w : has_type v w -> bool_decide (cv_type v = w) = true.
Proof using. intros [<- _]. by apply bool_decide_eq_true_2. Qed.

Lemma binary_integer_sound opcode v1 v2 w signed bits :
  has_type v1 w -> has_type v2 (if is_shift opcode then u32_type else w) ->
  is_ring opcode || is_shift opcode = true -> integer_width w = Some (signed, bits) ->
  returns (execute_integer opcode [v1; v2] (arithmetic_result w)) (arithmetic_result w).
Proof using.
  intros H1 H2 Hop Hw.
  destruct (integer_width_number _ _ _ _ Hw H1) as (Hb & x & Hx & Hix).
  assert (exists y, operand_number (negb (is_shift opcode) && signed) (if is_shift opcode then 32 else bits) (cv_data v2) = Some y /\
    in_width (negb (is_shift opcode) && signed) (if is_shift opcode then 32 else bits) y = true) as (y & Hy & Hiy).
  { destruct (is_shift opcode); [by apply (integer_width_number u32_type v2 false 32)|by apply (integer_width_number w v2 signed bits)]. }
  eapply execute_integer_sound; [exact Hw| | |].
  - destruct opcode; try done; cbn in H2 |- *; by rewrite (has_type_decide _ _ H1), (has_type_decide _ _ H2).
  - cbn [checked_integer]. rewrite checked_integer_data_exact by (done || by destruct opcode).
    destruct opcode; try done; cbn [is_shift negb andb] in Hy; cbn [exact_integer]; rewrite Hx, Hy; done.
  - apply exact_binary_ok; [done..|]. destruct opcode; try done; cbn [is_shift negb andb] in Hiy; try done;
      unfold in_width, width_min in Hiy; lia.
Qed.

Definition is_float_operation (opcode : Opcode) : bool :=
  match opcode with OpFloatAdd | OpFloatSub | OpFloatMul | OpFloatDiv | OpFloatNeg | OpFloatFma => true | _ => false end.

Lemma float_has_type_data v w : has_type v w -> is_float w = true ->
  match w with
  | TF32 => exists bits, cv_data v = DF32Bits bits
  | _ => exists bits, w = TF64 /\ cv_data v = DF64Bits bits
  end.
Proof using.
  intros [<- H] Hw. inversion H as [w d L| | | | | | | | | ]; subst; try done. destruct w, d; try done; by eexists.
Qed.

Lemma float_operation_sound opcode operands w n :
  Forall2 has_type operands (replicate n w) -> is_float w = true ->
  (forall fmt values, length values = n -> is_ok (float_arithmetic fmt opcode values) = true) ->
  returns (float_operation opcode operands w) w.
Proof using.
  intros H Hw Hop.
  assert (exists v, float_operation opcode operands w = Ok v) as [v Hv].
  { assert (length operands = n) as Hn by (by rewrite (Forall2_length _ _ _ H), length_replicate).
    assert (Forall (fun v => has_type v w) operands) as Hall.
    { rewrite Forall_forall. intros v [i Hi]%list_elem_of_lookup.
      destruct (Forall2_lookup_l _ _ _ _ _ H Hi) as (w' & Hr & Hv). by apply lookup_replicate in Hr as [-> _]. }
    clear H. unfold float_operation. destruct w; try done.
    - match goal with |- context [map_res ?f operands] => assert (exists values, map_res f operands = Ok values) as [values Hm] end.
      { clear Hn. induction Hall as [|v l Hv _ [values IH]]; [by eexists|]. destruct (float_has_type_data _ _ Hv eq_refl) as [bits E].
        cbn [map_res]. rewrite E. cbn [mbind result_bind]. rewrite IH. by eexists. }
      rewrite Hm. cbn [mbind result_bind]. apply map_res_Ok, Forall2_length in Hm.
      specialize (Hop binary32 values ltac:(congruence)). destruct (float_arithmetic _ _ _); [by eexists|done].
    - match goal with |- context [map_res ?f operands] => assert (exists values, map_res f operands = Ok values) as [values Hm] end.
      { clear Hn. induction Hall as [|v l Hv _ [values IH]]; [by eexists|]. destruct (float_has_type_data _ _ Hv eq_refl) as (bits & _ & E).
        cbn [map_res]. rewrite E. cbn [mbind result_bind]. rewrite IH. by eexists. }
      rewrite Hm. cbn [mbind result_bind]. apply map_res_Ok, Forall2_length in Hm.
      specialize (Hop binary64 values ltac:(congruence)). destruct (float_arithmetic _ _ _); [by eexists|done]. }
  exists v. split; [done|]. apply float_operation_canonical_form in Hv as [Ht Hf]. destruct v as [t' d]. cbn in Ht. subst.
  apply leaf_has_type. unfold canonical_float in Hf. cbn in Hf. by destruct w, d.
Qed.


(** ** Typed maps *)

Definition entries_typed (k v : TypeExpr) (l : list keyed) : Prop :=
  Forall (fun p => has_type (me_key p.2) k /\ has_type (me_value p.2) v) l.

Lemma map_has_type k v l :
  canonical_entries l -> entries_typed k v l -> has_type (mkConstValue (TOrderedMap k v) (DMap l.*2)) (TOrderedMap k v).
Proof using.
  intros Hl He. split; [done|]. apply canonical_unzip in Hl as [Hk Hs]. apply (VT_map _ _ _ _ l.*1); [|done..].
  apply Forall_fmap. exact He.
Qed.

Lemma has_type_entries x k v :
  has_type x (TOrderedMap k v) ->
  exists l, x = mkConstValue (TOrderedMap k v) (DMap l.*2) /\ canonical_entries l /\ entries_typed k v l.
Proof using.
  intros (entries & keys & -> & He & Hk & Hs)%has_type_map. destruct (canonical_zip _ _ Hk Hs) as (l & -> & -> & Hl).
  exists l. split_and!; [done..|]. apply Forall_fmap in He. exact He.
Qed.

Lemma others_typed k v q l : entries_typed k v l -> entries_typed k v (others q l).
Proof using. unfold entries_typed. rewrite !Forall_forall. intros H p Hp. apply H. apply elem_of_others in Hp. tauto. Qed.

Lemma typed_pairs k v l types :
  Forall2 has_type (flat l) types -> aligned k v types = true -> entries_typed k v l.
Proof using.
  revert types. induction l as [|p l IH]; intros types Ht Ha; [constructor|]. cbn in Ht.
  apply Forall2_cons_inv_l in Ht as (tk & ? & Hk & Ht & ->). apply Forall2_cons_inv_l in Ht as (tv & ? & Hv & Ht & ->).
  cbn [aligned] in Ha. rewrite !andb_true_iff, !bool_decide_eq_true in Ha. destruct Ha as (-> & -> & Ha).
  constructor; [done|]. by eapply IH.
Qed.

(** *** Keys the codec refuses *)

Definition unencodable (value : ConstValue) : Prop := is_ok (ConstEncoding.encode_const_value value) = false.

Lemma encodes_or value : (exists b, encodes value b) \/ unencodable value.
Proof using. unfold encodes, unencodable. destruct (ConstEncoding.encode_const_value value) as [b|]; [left; by exists b|by right]. Qed.

Fixpoint alternate (values : list ConstValue) : list ConstValue :=
  match values with key :: _ :: values => key :: alternate values | _ => [] end.

(** The operands an operation encodes to compare keys *)
Definition key_operands (opcode : Opcode) (operands : list ConstValue) : list ConstValue :=
  match opcode, operands with
  | OpMapNew, _ => alternate operands
  | (OpMapGet | OpMapContains | OpMapInsert | OpMapRemove), _ :: key :: _ => [key]
  | _, _ => []
  end.

(** The operands of [MapNew] as keyed pairs, unless a key has no encoding *)
Lemma map_pairs_cases seen values :
  NoDup seen -> Nat.even (length values) = true ->
  (exists l, values = flat l /\ keyed_ok l) \/ map_pairs seen values = Ok None \/
  map_pairs seen values = Err Fault /\ Exists unencodable (alternate values).
Proof using.
  intros Hs. remember (length values) as n eqn:Hn. revert seen values Hs Hn.
  induction n as [n IH] using lt_wf_ind. intros seen [|k [|v values]] Hs -> He; try done; [left; exists []; by split; [|constructor]|].
  cbn [map_pairs alternate]. destruct (encodes_or k) as [[b Hb]|Hk].
  2:{ right; right. rewrite (proj2 (key_bytes_Err _) Hk). split; [done|by left]. }
  rewrite (proj2 (key_bytes_Ok _ _) Hb). cbn [mbind result_bind].
  destruct (existsb _ seen) eqn:E; [by right; left|].
  assert (NoDup (seen ++ [b])) as Hs'.
  { apply NoDup_app. split_and!; [done| |apply NoDup_singleton]. intros x Hx ->%list_elem_of_singleton.
    rewrite <- not_true_iff_false in E. apply E, existsb_exists. exists b. rewrite bool_decide_eq_true.
    split; [by apply list_elem_of_In|done]. }
  destruct (IH (length values) ltac:(cbn; lia) (seen ++ [b]) values Hs' eq_refl He) as [(l & -> & Hl)|[-> |[-> Hu]]].
  - left. exists ((b, mkMapEntryConst k v) :: l). split; [done|]. by constructor.
  - by right; left.
  - right; right. split; [done|by right].
Qed.

(** ** The families *)

Section family.
Variable immediate : Immediate.
Variable operands : list ConstValue.
Variable types declared : list TypeExpr.
Variable opcode : Opcode.
Variable t : TypeExpr.
Hypothesis Htyped : Forall2 has_type operands types.
(** The constant the operation reads is a value of its type. *)
Definition constant_read_typed : Prop :=
  forall v, referenced_constant (lc_constants c) (lc_globals c) opcode immediate = Some v -> ValueTyped env v.

Lemma constant_sound :
  constant_read_typed -> opcode = OpConstantRef -> judge_constant c immediate types = Ok t -> returns (execute_constant run_context immediate operands) t.
Proof using Htyped.
  unfold constant_read_typed. intros Hconstant ->. unfold judge_constant, execute_constant. intros H. destruct immediate; try done. destruct types; [|done].
  inv_operands. cbn in H, Hconstant |- *. simplify_res. rewrite H in Hconstant |- *. apply returns_Ok. by split; [|apply Hconstant].
Qed.

Lemma global_sound :
  constant_read_typed -> opcode = OpGlobalGet -> judge_global c immediate types = Ok t -> returns (execute_global run_context immediate operands) t.
Proof using Htyped.
  unfold constant_read_typed. intros Hconstant ->. unfold judge_global, execute_global. intros H. destruct immediate; try done. destruct types; [|done].
  inv_operands. cbn in H, Hconstant |- *. simplify_res. rewrite H in Hconstant |- *. apply returns_Ok. cbn.
  unfold global_initializer in H. apply bind_Some in H as (g & _ & (k & Hk & H)%bind_Some).
  case_bool_decide as E; [|done]. simplify_eq/=. by split; [|apply Hconstant].
Qed.

Lemma function_ref_sound :
  judge_function_ref c immediate types = Ok t -> returns (execute_function_ref immediate operands t) t.
Proof using Htyped.
  unfold judge_function_ref, execute_function_ref. intros H. destruct immediate; try done.
  cbn in H. apply bind_Ok in H as (_ & _ & H). destruct types; [|done]. inv_operands. cbn in H.
  apply bind_Ok in H as ([[p r] e] & _ & [= <-]). apply returns_Ok. by apply leaf_has_type.
Qed.

(** ** Tuples and vectors *)

Lemma tuple_new_sound :
  len operands < U64_LIMIT -> has_type (mkConstValue (TTuple types) (DSequence operands)) (TTuple types).
Proof using Htyped. intros H. split; [done|]. by apply VT_tuple. Qed.

Lemma tuple_sound :
  len operands < U64_LIMIT -> opcode = OpTupleNew \/ opcode = OpTupleGet ->
  judge_tuple opcode immediate types = Ok t -> returns (execute_sequence opcode immediate operands t) t.
Proof using Htyped.
  intros Hl [-> | ->]; unfold judge_tuple, execute_sequence.
  - intros (_ & _ & (_ & _ & [= <-])%bind_Ok)%bind_Ok. by apply returns_Ok, tuple_new_sound.
  - intros H. destruct immediate; try done. destruct types as [|[] [|]]; try done. inv_operands.
    apply has_type_tuple in Hv as (l & -> & _ & Hi). apply ok_or_Ok in H. cbn.
    destruct (Forall2_lookup_r _ _ _ _ _ Hi H) as (v & Hv & Ht). rewrite Hv. by exists v.
Qed.

Lemma vector_sound :
  len operands < U64_LIMIT ->
  opcode = OpVectorNew \/ opcode = OpVectorLen \/ opcode = OpVectorGet \/ opcode = OpVectorSet ->
  judge_vector opcode immediate types declared = Ok t -> returns (execute_sequence opcode immediate operands t) t.
Proof using Htyped.
  intros Hl Hop (_ & _ & H)%bind_Ok. destruct Hop as [-> |[-> |[-> | ->]]]; unfold execute_sequence.
  - apply returns_Ok. destruct types as [|first rest].
    + inv_operands. apply bind_Ok in H as (d & _ & H). destruct d; simplify_eq. by apply vector_has_type.
    + apply bind_Ok in H as ([] & Hr%ensure_Ok & [= <-]). apply vector_has_type; [done|].
      inv_operands. constructor; [done|]. rewrite forallb_forall in Hr.
      rewrite Forall_forall. intros x Hx. apply list_elem_of_lookup in Hx as [i Hi].
      destruct (Forall2_lookup_l _ _ _ _ _ Htyped Hi) as (y & Hy & Hxy).
      apply list_elem_of_lookup_2, list_elem_of_In, Hr, bool_decide_eq_true in Hy as ->. done.
  - destruct types as [|[] [|]]; try done. inv_operands. apply has_type_vector in Hv as (items & -> & Hi & _).
    simplify_eq. by apply returns_Ok, u64_has_type.
  - destruct types as [|[] [|index [|]]]; try done. cbn in H. simplify_res. inv_operands.
    apply has_type_vector in Hv as (items & -> & Hi & Ht). apply uint_bound in Hv0 as (n & -> & Hn).
    apply returns_Ok, option_has_type. intros x Hx. apply bind_Some in Hx as (i & _ & Hx).
    by apply (Forall_lookup_1 _ _ _ _ Ht Hx).
  - destruct types as [|[] [|index [|r [|]]]]; try done. cbn in H. simplify_res. inv_operands.
    apply has_type_vector in Hv as (items & -> & Hi & Ht). apply uint_bound in Hv0 as (n & -> & Hn).
    cbn [sequence_operand uint_operand cv_data mbind result_bind]. apply returns_Ok.
    rewrite usize_of_Some by done.
    destruct (N.ltb_spec n (len items)); [|by apply index_failure_has_type].
    apply ok_has_type, vector_has_type; [unfold len; by rewrite length_insert|].
    by apply Forall_insert.
Qed.

(** ** Arithmetic *)

Lemma integer_sound :
  is_integer opcode = true -> judge_integer opcode immediate types = Ok t ->
  returns (execute_integer opcode operands t) t.
Proof using Htyped.
  intros Hop (_ & _ & H)%bind_Ok. destruct (is_ring opcode || is_shift opcode) eqn:E.
  - assert (exists w w2, types = [w; w2] /\ w2 = (if is_shift opcode then u32_type else w) /\
      is_Some (integer_width w) /\ t = arithmetic_result w) as (w & w2 & -> & -> & [[signed bits] Hw] & ->).
    { destruct types as [|w [|w2 [|]]]; try by destruct opcode.
      exists w, w2. by destruct opcode; try done; cbn in H |- *; simplify_res. }
    inv_operands. by eapply binary_integer_sound.
  - assert (opcode = OpIntNegChecked) as -> by (destruct opcode; naive_solver).
    destruct types as [|w [|]]; try done. destruct (integer_width w) as [[[] bits]|] eqn:Hw; try done. simplify_eq.
    inv_operands. destruct (integer_width_number _ _ _ _ Hw Hv) as (Hb & x & Hx & Hix).
    eapply execute_integer_sound; [exact Hw| | |].
    + cbn. by rewrite (has_type_decide _ _ Hv).
    + cbn [checked_integer]. rewrite checked_integer_data_exact by done. cbn [exact_integer]. by rewrite Hx.
    + by apply exact_value_ok.
Qed.

(** Operands of one float type are read. *)
Lemma float_sound :
  is_float_operation opcode = true -> judge_float opcode immediate types = Ok t ->
  returns (float_operation opcode operands t) t.
Proof using Htyped.
  intros Hop (_ & _ & H)%bind_Ok.
  assert (exists n, types = replicate n t /\ is_float t = true /\
    forall fmt values, length values = n -> is_ok (float_arithmetic fmt opcode values) = true) as (n & -> & Hf & Ha).
  { destruct opcode; try done; destruct types as [|a [|b [|d [|]]]]; try done; cbn in H; simplify_res.
    1-4: by exists 2%nat; split_and!; [| |intros fmt [|? [|? [|]]]].
    - by exists 1%nat; split_and!; [| |intros fmt [|? [|]]].
    - by exists 3%nat; split_and!; [| |intros fmt [|? [|? [|? [|]]]]]. }
  by eapply float_operation_sound.
Qed.

(** ** Records and variants *)

Lemma record_fields_Ok id fields :
  record_fields env id = Ok fields ->
  exists def, env !! id = Some def /\ td_type_parameters def = [] /\ td_form def = FormRecord fields.
Proof using.
  clear. unfold record_fields, definition. destruct (env !! id) as [def|]; [|done]. cbn. intros H.
  exists def. split; [done|]. repeat case_match; by simplify_eq.
Qed.

Lemma variant_cases_Ok id cases :
  variant_cases env id = Ok cases ->
  exists def, env !! id = Some def /\ td_type_parameters def = [] /\ td_form def = FormVariant cases.
Proof using.
  clear. unfold variant_cases, definition. destruct (env !! id) as [def|]; [|done]. cbn. intros H.
  exists def. split; [done|]. repeat case_match; by simplify_eq.
Qed.

(** A member of a definition without parameters has its own type. *)
Lemma member_type_self id def u :
  env !! id = Some def -> td_type_parameters def = [] -> u ∈ form_types (td_form def) -> member_type u [] u.
Proof using Hdefinitions.
  intros Hd Hp Hu. exists 1. pose proof (def_types _ _ (Hdefinitions _ _ Hd)) as H.
  rewrite Forall_forall in H. destruct (H u Hu) as [Hw Hh]. rewrite Hp in Hw. eapply substitute_nothing_Ok; [exact Hw|]. lia.
Qed.

Lemma named_definition_Some w id : named_definition w = Some id -> w = named id.
Proof using. clear. unfold named_definition. destruct w; try done. case_match; [|done]. by intros [= ->]. Qed.

Lemma record_new_sound id fields :
  record_fields env id = Ok fields -> types = rf_value_type <$> fields ->
  has_type (mkConstValue (named id) (DRecord (mkRecordConst id
    (zip_with (fun field value => mkFieldConst (rf_member_id field) value) fields operands)))) (named id).
Proof using Hdefinitions Htyped.
  intros (def & Hd & Hp & Hf)%record_fields_Ok Ht. split; [done|]. eapply VT_record; [done..|].
  assert (forall f, f ∈ fields -> member_type (rf_value_type f) [] (rf_value_type f)) as Hm.
  { intros f Hin. eapply member_type_self; [done..|]. rewrite Hf. cbn. by apply list_elem_of_fmap_2. }
  clear -Hm Htyped Ht. rewrite Ht in Htyped. clear Ht.
  revert operands Htyped. induction fields as [|f fs IH]; intros l Hl; inv_operands; cbn; [constructor|].
  cbn in Hl. inv_operands. destruct Hv as [Hvt Hv]. constructor; [|apply IH; [|done]; set_solver].
  cbn. split; [done|]. split; [|done]. rewrite Hvt. apply Hm. by left.
Qed.

Lemma record_sound :
  opcode = OpRecordNew \/ opcode = OpRecordGet ->
  judge_record c opcode immediate types = Ok t -> returns (execute_record run_context opcode immediate operands t) t.
Proof using Hdefinitions Htyped.
  intros [-> | ->] H; unfold judge_record, execute_record in *.
  - apply bind_Ok in H as (id & Hid & H). destruct immediate; simplify_eq/=.
    apply bind_Ok in H as (fields & Hf & (_ & Hop%ensure_Ok%bool_decide_eq_true & [= <-])%bind_Ok). rewrite Hf. cbn [lowered mbind result_bind].
    pose proof (Forall2_length _ _ _ Htyped) as Hlen. rewrite Hop, length_fmap in Hlen.
    replace (len fields =? len operands) with true by (unfold len; rewrite Hlen; lia).
    by apply returns_Ok, record_new_sound.
  - destruct immediate as [| | |member| | |]; try done. destruct types as [|w [|]]; try done. inv_operands.
    apply bind_Ok in H as (id & Hn%ok_or_Ok%named_definition_Some & (fields & Hf & (field & Hfield%ok_or_Ok & [= <-])%bind_Ok)%bind_Ok).
    subst w. destruct (has_type_record _ _ _ Hv) as (fields' & values & Hf' & -> & Hall); [by eexists|].
    rewrite Hf in Hf'. injection Hf' as <-. cbn [cv_data named]. clear Hv Hf.
    induction Hall as [|x f values fields [Hm Hx] _ IH]; [done|]. cbn [find_first rc_fields fmap] in *. rewrite Hm.
    destruct (rf_member_id f =? member); [|by apply IH]. simplify_eq. by apply returns_Ok.
Qed.

Lemma variant_new_has_type id case payload cases :
  variant_cases env id = Ok cases -> find_case cases (vc_member_id case) = Some case ->
  match vc_payload_type case, payload with
  | None, None => True
  | Some f, Some v => has_type v f
  | _, _ => False
  end ->
  has_type (mkConstValue (named id) (DVariant (mkVariantConst id (vc_member_id case) payload))) (named id).
Proof using Hdefinitions.
  intros (def & Hd & Hp & Hf)%variant_cases_Ok Hc H. split; [done|]. eapply VT_case; [done..| |].
  - destruct (vc_payload_type case) as [f|] eqn:E, payload as [v|]; try done. destruct H as [-> _].
    eapply member_type_self; [done..|]. rewrite Hf. cbn. apply find_first_Some in Hc as [Hin _].
    apply list_elem_of_omap. by exists case.
  - intros v ->. destruct (vc_payload_type case); [|done]. by destruct H.
Qed.

Lemma find_case_member cases member case : find_case cases member = Some case -> vc_member_id case = member.
Proof using. clear. by intros [_ H%N.eqb_eq]%find_first_Some. Qed.

Lemma variant_sound :
  opcode = OpVariantNew \/ opcode = OpVariantGet ->
  judge_variant c opcode immediate types = Ok t -> returns (execute_variant opcode immediate operands t) t.
Proof using Hdefinitions Htyped.
  intros [-> | ->] H; unfold judge_variant, execute_variant in *; apply bind_Ok in H as (variant & Hi & H);
    destruct immediate as [| | | |x| |]; try done; injection Hi as ->.
  - apply bind_Ok in H as (cases & Hc & (case & Hcase%ok_or_Ok & ([] & Hp & [= <-])%bind_Ok)%bind_Ok).
    pose proof (find_case_member _ _ _ Hcase) as E. rewrite <- E in Hcase |- *.
    destruct (vc_payload_type case) as [p|] eqn:Ep, types as [|w [|]]; try done; inv_operands;
      apply returns_Ok; eapply variant_new_has_type; try done; rewrite Ep; [|done].
    by apply bind_Ok in Hp as ([] & ->%ensure_Ok%bool_decide_eq_true & _).
  - destruct types as [|w [|]]; try done. inv_operands.
    apply bind_Ok in H as (_ & Hn%ensure_Ok%bool_decide_eq_true%named_definition_Some & H). subst w.
    apply bind_Ok in H as (cases & Hc & (case & Hcase%ok_or_Ok & (p & Hp%ok_or_Ok & [= <-])%bind_Ok)%bind_Ok).
    destruct (has_type_variant _ _ _ _ Hv Hc) as (found & payload & Hf & -> & Hpay). cbn [cv_data vk_member_id vk_payload].
    apply returns_Ok, option_has_type. intros x Hx. destruct (N.eqb_spec (vc_member_id found) (vi_member_id variant)) as [E|]; [|done].
    rewrite E, Hcase in Hf. simplify_eq. rewrite Hp in Hpay. done.
Qed.

(** ** Comparisons *)

Definition is_comparison (opcode : Opcode) : bool :=
  match opcode with OpEqual | OpNotEqual | OpLessThan | OpLessEqual | OpGreaterThan | OpGreaterEqual => true | _ => false end.

Lemma is_float_data_type v w : has_type v w -> is_float_data (cv_data v) = is_float w.
Proof using.
  clear. intros [<- H]. inversion H as [w d L| | | | | | | | | ]; subst; try done. by destruct w, d.
Qed.

Lemma ordered_data v w : has_type v w -> ordered w = true -> leaf_ok w (cv_data v).
Proof using. clear. intros [<- H] Hw. by inversion H; subst. Qed.

Lemma compare_data_Ok v1 v2 w :
  has_type v1 w -> has_type v2 w -> ordered w = true -> is_float w = false ->
  exists order, compare_data (cv_data v1) (cv_data v2) = Ok order.
Proof using.
  clear. intros H1 H2 Ho Hf. apply ordered_data in H1, H2; [|done..].
  destruct w; try done; destruct (cv_data v1), (cv_data v2); try done; by eexists.
Qed.

Lemma float_partial_order_Ok v1 v2 w :
  has_type v1 w -> has_type v2 w -> is_float w = true ->
  exists order, float_partial_order (cv_data v1) (cv_data v2) = Ok order.
Proof using.
  clear. intros H1 H2 Hw. pose proof (float_has_type_data _ _ H1 Hw) as E1. pose proof (float_has_type_data _ _ H2 Hw) as E2.
  destruct w; try done; destruct E1 as (? & E1), E2 as (? & E2); [|destruct E1 as [_ E1], E2 as [_ E2]];
    rewrite E1, E2; by eexists.
Qed.

Lemma comparison_sound :
  is_comparison opcode = true -> judge_comparison c opcode immediate types = Ok t ->
  returns (execute_comparison opcode operands) t.
Proof using Htyped.
  intros Hop (_ & _ & H)%bind_Ok.
  assert (exists w, types = [w; w] /\ t = TBool /\ (opcode = OpEqual \/ opcode = OpNotEqual \/ ordered w = true))
    as (w & -> & -> & Ho).
  { destruct opcode; try done; destruct types as [|a [|b [|]]]; try done; simplify_res; naive_solver. }
  inv_operands. unfold execute_comparison. rewrite (is_float_data_type _ _ Hv). destruct (is_float w) eqn:Hf.
  - destruct (float_partial_order_Ok _ _ _ Hv Hv0 Hf) as [order ->]. apply returns_Ok, bool_has_type.
  - assert (exists b, data_comparison opcode v v0 = Ok b) as [b ->].
    { unfold data_comparison. destruct Ho as [-> |[-> |Ho]]; [by eexists|by eexists|].
      destruct (compare_data_Ok _ _ _ Hv Hv0 Ho Hf) as [order ->]. destruct opcode; by eexists. }
    apply returns_Ok, bool_has_type.
Qed.

Lemma boolean_sound :
  opcode = OpBoolNot \/ opcode = OpBoolAnd \/ opcode = OpBoolOr ->
  judge_comparison c opcode immediate types = Ok t -> returns (execute_boolean opcode operands) t.
Proof using Htyped.
  intros Hop (_ & _ & H)%bind_Ok. destruct Hop as [-> |[-> | ->]].
  - destruct types as [|[] [|]]; try done. inv_operands. injection H as <-. apply has_type_bool in Hv as [b ->].
    apply returns_Ok, bool_has_type.
  - destruct types as [|[] [|[] [|]]]; try done. inv_operands. injection H as <-.
    apply has_type_bool in Hv as [b ->], Hv0 as [b' ->]. apply returns_Ok, bool_has_type.
  - destruct types as [|[] [|[] [|]]]; try done. inv_operands. injection H as <-.
    apply has_type_bool in Hv as [b ->], Hv0 as [b' ->]. apply returns_Ok, bool_has_type.
Qed.

Lemma option_sound :
  opcode = OpOptionSome \/ opcode = OpOptionNone \/ opcode = OpResultOk \/ opcode = OpResultErr ->
  judge_option opcode immediate types declared = Ok t -> returns (execute_option opcode operands t) t.
Proof using Htyped.
  intros Hop (_ & _ & H)%bind_Ok. destruct Hop as [-> |[-> |[-> | ->]]].
  - destruct types as [|w [|]]; try done. inv_operands. injection H as <-. by apply returns_Ok, some_has_type.
  - destruct types; try done. inv_operands. apply bind_Ok in H as (d & _ & H). destruct d; simplify_eq.
    apply returns_Ok. by apply option_has_type.
  - destruct types as [|w [|]]; try done. inv_operands. apply bind_Ok in H as (d & _ & H). destruct d; try done.
    apply bind_Ok in H as (_ & ->%ensure_Ok%bool_decide_eq_true & [= <-]). by apply returns_Ok, ok_has_type.
  - destruct types as [|w [|]]; try done. inv_operands. apply bind_Ok in H as (d & _ & H). destruct d; try done.
    apply bind_Ok in H as (_ & ->%ensure_Ok%bool_decide_eq_true & [= <-]). by apply returns_Ok, err_has_type.
Qed.

(** ** Maps *)

Definition is_map (opcode : Opcode) : bool :=
  match opcode with OpMapNew | OpMapGet | OpMapContains | OpMapInsert | OpMapRemove => true | _ => false end.

Lemma map_sound :
  is_map opcode = true -> judge_map c opcode immediate types declared = Ok t ->
  returns (execute_map opcode operands t) t \/
  execute_map opcode operands t = Err Fault /\ Exists unencodable (key_operands opcode operands).
Proof using Htyped.
  intros Hop (_ & _ & H)%bind_Ok. destruct opcode; try done.
  - unfold judge_map_new in H. apply bind_Ok in H as (_ & Heven%ensure_Ok & H).
    assert (exists k v, t = map_result k v /\ aligned k v types = true) as (k & v & -> & Ha).
    { destruct types as [|k [|v rest]].
      - apply bind_Ok in H as (d & _ & H). repeat (case_match; try done).
        simplify_res. by eexists _, _.
      - done.
      - apply bind_Ok in H as (_ & H%ensure_Ok & [= <-]). apply andb_true_iff in H as [Ha _]. by exists k, v. }
    rewrite <- (Forall2_length _ _ _ Htyped) in Heven.
    destruct (map_pairs_cases [] operands (NoDup_nil_2) Heven) as [(l & E & Hl)|[E|[E Hu]]].
    + left. rewrite E in Htyped |- *. pose proof (typed_pairs _ _ _ _ Htyped Ha) as He.
      destruct (execute_map_new (TOrderedMap k v) (TBuiltinFailure BFDuplicateKey) l Hl) as [[_ E']|[_ (l' & E' & Hl' & Hp & _)]];
        unfold map_result; rewrite E'; apply returns_Ok; [by apply err_has_type, builtin_error_has_type|].
      apply ok_has_type, map_has_type; [done|]. unfold entries_typed. by rewrite Hp.
    + left. unfold execute_map, map_result. rewrite E. by apply returns_Ok, err_has_type, builtin_error_has_type.
    + right. split; [|done]. unfold execute_map, map_result. by rewrite E.
  - destruct types as [|[] [|probe [|]]]; try done. simplify_res. inv_operands.
    apply has_type_entries in Hv as (l & -> & Hl & He). destruct (encodes_or v0) as [[q Hq]|Hq]; [left|right].
    + rewrite (execute_map_get _ _ _ _ _ Hl Hq). apply returns_Ok, option_has_type. intros x Hx.
      rewrite map_of_lookup in Hx. apply fmap_Some in Hx as (p & [Hp _]%find_first_Some & ->).
      apply (proj1 (Forall_forall _ _) He p Hp).
    + split; [|by left]. unfold execute_map. by rewrite (proj2 (key_bytes_Err _) Hq).
  - destruct types as [|[] [|probe [|]]]; try done. simplify_res. inv_operands.
    apply has_type_entries in Hv as (l & -> & Hl & He). destruct (encodes_or v0) as [[q Hq]|Hq]; [left|right].
    + rewrite (execute_map_contains _ _ _ _ _ Hl Hq). apply returns_Ok, bool_has_type.
    + split; [|by left]. unfold execute_map. by rewrite (proj2 (key_bytes_Err _) Hq).
  - destruct types as [|[] [|probe [|r [|]]]]; try done. simplify_res. inv_operands.
    apply has_type_entries in Hv as (l & -> & Hl & He). destruct (encodes_or v0) as [[q Hq]|Hq]; [left|right].
    + match goal with |- returns (execute_map _ [mkConstValue ?a _; _; _] ?b) _ =>
        destruct (execute_map_insert a b _ _ _ Hl Hq v1) as (l' & -> & Hl' & _ & Hp) end.
      apply returns_Ok, map_has_type; [done|]. unfold entries_typed. rewrite Hp. apply Forall_app. split; [by apply others_typed|].
      by apply Forall_singleton.
    + split; [|by left]. unfold execute_map. by rewrite (proj2 (key_bytes_Err _) Hq).
  - destruct types as [|[] [|probe [|]]]; try done. simplify_res. inv_operands.
    apply has_type_entries in Hv as (l & -> & Hl & He). destruct (encodes_or v0) as [[q Hq]|Hq]; [left|right].
    + match goal with |- returns (execute_map _ [mkConstValue ?a _; _] ?b) _ =>
        destruct (execute_map_remove a b _ _ _ Hl Hq) as (l' & -> & Hl' & _ & Hp) end.
      apply returns_Ok, map_has_type; [done|]. unfold entries_typed. rewrite Hp. by apply others_typed.
    + split; [|by left]. unfold execute_map. by rewrite (proj2 (key_bytes_Err _) Hq).
Qed.

(** ** Hashes and host entries *)

Lemma value_hash_sound :
  judge_comparison c OpValueHash immediate types = Ok t ->
  returns (execute_value_hash blake3 run_context operands t) t \/
  execute_value_hash blake3 run_context operands t = Err Fault /\
  Exists (fun v => is_ok (hash_validated_value blake3 epoch v) = false) operands.
Proof using Hblake3 Htyped.
  intros (_ & _ & H)%bind_Ok. destruct types as [|w [|]]; try done.
  apply bind_Ok in H as (_ & _ & [= <-]). inv_operands. unfold execute_value_hash. cbn [run_context ec_schema_epoch].
  destruct (hash_validated_value blake3 epoch v) as [hash|] eqn:E; [left|right].
  - apply returns_Ok, leaf_has_type. cbn. unfold hash_validated_value in E. simplify_res.
    unfold Ids.digest_type_derive, Ids.digest. by rewrite Hblake3.
  - split; [done|]. left. by rewrite E.
Qed.

Lemma adapter_sound :
  judge_adapter c immediate types = Ok t -> returns (execute_adapter blake3 sha256 run_context immediate operands t) t.
Proof using Hblake3 Hsha256 Htyped.
  intros (entry & Hi & H)%bind_Ok. destruct immediate as [|x| | | | |]; try done. injection Hi as ->.
  unfold execute_adapter. cbn [run_context ec_adapters]. destruct (is_push_identity entry); cbn [negb andb].
  - apply bind_Ok in H as (_ & _ & H). destruct types as [|a [|b [|]]]; try done. inv_operands.
    apply bind_Ok in H as ([kind carried] & Hr%ok_or_Ok & [= <-]). destruct Hv as [<- Hv], Hv0 as [<- Hv0]. rewrite Hr.
    cbn [ok_or mbind result_bind]. apply resolve_push_use_row in Hr as (-> & Hrow & Eq & Es).
    eapply bridge_entry_sound; try done; [|by split..].
    unfold judge_bridge_use. by rewrite !bool_decide_eq_true_2 by done.
  - destruct (resolve_bridge_entry (lc_adapters c) entry) as [[kind carried]|] eqn:Hr.
    + rewrite bool_decide_eq_false_2 by done. destruct types as [|a [|b [|]]]; try done. inv_operands.
      apply bind_Ok in H as (response & Hj & [= <-]). cbn [ok_or mbind result_bind].
      eapply bridge_entry_sound; try done. by eapply resolve_bridge_entry_row.
    + rewrite bool_decide_eq_true_2 by done.
      destruct (resolve_text_entry (lc_adapters c) (ImmEntity entry)) as [[kind carried]|] eqn:Ht; [|done].
      destruct types as [|a [|b [|]]]; try done. inv_operands. apply ok_or_Ok in H.
      by eapply text_use_sound.
Qed.

End family.

(** The operations on values *)
Lemma pure_sound opcode immediate operands types declared t :
  constant_read_typed immediate opcode ->
  Forall2 has_type operands types -> len operands < U64_LIMIT -> opcode <> OpCallDirect -> opcode <> OpContractAssert ->
  match opcode with OpCellNew | OpCellGet | OpCellSet => False | _ => True end ->
  judge_family c opcode immediate types declared = Ok t ->
  returns (execute_pure blake3 sha256 run_context opcode immediate operands t) t \/
  execute_pure blake3 sha256 run_context opcode immediate operands t = Err Fault /\
  (Exists unencodable (key_operands opcode operands) \/
   opcode = OpValueHash /\ Exists (fun v => is_ok (hash_validated_value blake3 epoch v) = false) operands).
Proof using Hblake3 Hsha256 Hdefinitions.
  intros Hconstant Htyped Hl Hc1 Hc2 Hcell H.
  destruct opcode; try done; cbn [judge_family execute_pure] in H |- *;
    try (left; first [ by eapply constant_sound | by eapply global_sound | by eapply function_ref_sound
      | eapply tuple_sound; by eauto | eapply vector_sound; by eauto | by eapply integer_sound | by eapply float_sound
      | eapply record_sound; by eauto | eapply variant_sound; by eauto | by eapply comparison_sound
      | eapply boolean_sound; by eauto | eapply option_sound; by eauto | by eapply adapter_sound ]);
    try (edestruct map_sound as [?|[? ?]]; [exact Htyped| |exact H|by left|right; split; [done|by left]]; done).
  edestruct value_hash_sound as [?|[? ?]]; [exact Htyped|exact H|by left|right; split; [done|by right]].
Qed.

(** ** Cells *)

#[local] Abbreviation register_typed := (register_typed env).

Lemma cells_typed_snoc Σ cells v w :
  cells_typed env Σ cells -> has_type v w -> cells_typed env (Σ ++ [w]) (cells ++ [v]).
Proof using. intros H Hv. apply Forall2_app; [done|]. by constructor. Qed.

Lemma register_cell Σ v inner :
  register_typed Σ v (TLocalCell inner) ->
  exists i, cv_data v = DUInt i /\ i < len Σ /\ Σ !! N.to_nat i = Some inner.
Proof using. by intros [_ H]. Qed.

(** What a cell operation returns, with the types of the cells after it *)
Definition steps (Σ : list TypeExpr) (r : fault_result (ConstValue * Cells)) (t : TypeExpr) : Prop :=
  exists v cells' Σ', r = Ok (v, cells') /\ Σ `prefix_of` Σ' /\ cells_typed env Σ' cells' /\ register_typed Σ' v t.

Lemma cell_sound Σ opcode immediate operands types cells t :
  match opcode with OpCellNew | OpCellGet | OpCellSet => True | _ => False end ->
  (opcode = OpCellNew -> existsb contains_cell types = false) ->
  Forall2 (register_typed Σ) operands types -> cells_typed env Σ cells -> len cells < U64_LIMIT ->
  judge_cell c opcode immediate types = Ok t -> steps Σ (execute_cell opcode operands t cells) t.
Proof using.
  intros Hop Hnew Htyped Hcells Hlen (_ & _ & H)%bind_Ok.
  assert (len Σ = len cells) as HΣ by (unfold len; by rewrite (Forall2_length _ _ _ Hcells)).
  destruct opcode; try done.
  - destruct types as [|w [|]]; try done. apply bind_Ok in H as (_ & _ & [= <-]).
    specialize (Hnew eq_refl). cbn in Hnew. rewrite orb_false_r in Hnew. inv_operands.
    apply register_typed_value in Hv; [|done]. exists (mkConstValue (TLocalCell w) (DUInt (len cells))), (cells ++ [v]), (Σ ++ [w]).
    split_and!; [done|by apply prefix_app_r|by apply cells_typed_snoc|]. split; [done|]. exists (len cells).
    rewrite len_app, HΣ. split_and!; [done|unfold len; cbn; lia|].
    unfold len in *. rewrite Nat2N.id. assert (length cells = length Σ) as -> by lia. by apply list_lookup_middle.
  - destruct types as [|[] [|]]; try done. injection H as <-. inv_operands. apply register_cell in Hv as (i & E & Hi & Hw).
    destruct (Forall2_lookup_r _ _ _ _ _ Hcells Hw) as (x & Hx & Ht).
    cbn [execute_cell]. unfold uint_operand. rewrite E. cbn [mbind result_bind]. rewrite usize_of_Some by lia.
    cbn [ok_or mbind result_bind]. rewrite Hx. exists x, cells, Σ. split_and!; [done..|].
    by apply has_type_register.
  - destruct types as [|[] [|w [|]]]; try done. apply bind_Ok in H as (_ & ->%ensure_Ok%bool_decide_eq_true & [= <-]).
    inv_operands. apply register_cell in Hv as (i & E & Hi & Hw).
    destruct (Forall2_lookup_r _ _ _ _ _ Hcells Hw) as (x & Hx & Ht).
    assert (has_type v0 item) as Hv0'.
    { pose proof (has_type_not_cell _ _ _ Ht) as Hn. destruct Hv0 as [E0 Hv0]. split; [done|].
      destruct item as [| | | | | | | | | | | | | | | | |inner| |]; try done. by destruct (Hn inner). }
    cbn [execute_cell]. unfold uint_operand. rewrite E. cbn [mbind result_bind]. rewrite usize_of_Some by lia.
    cbn [ok_or mbind result_bind]. rewrite (proj2 (N.ltb_lt i (len cells))) by lia. cbn [ensure mbind result_bind].
    exists (mkConstValue TUnit DUnit), (<[N.to_nat i:=v0]> cells), Σ. split_and!; [done|done| |by apply has_type_register, leaf_has_type].
    rewrite <- (list_insert_id Σ (N.to_nat i) item) by done. by apply Forall2_insert.
Qed.

(** ** Judged operations *)

(** A value the canonical codec refuses: a map key, or the operand of
    [value_hash] *)
Definition refused_by_codec (opcode : Opcode) (operands : list ConstValue) : Prop :=
  Exists unencodable (key_operands opcode operands) \/
  opcode = OpValueHash /\ Exists (fun v => is_ok (hash_validated_value blake3 epoch v) = false) operands.

Lemma operation_sound opcode immediate operands types declared t Σ cells :
  constant_read_typed immediate opcode ->
  judge_extended_operation c opcode immediate types declared = Ok t ->
  opcode <> OpCallDirect -> opcode <> OpContractAssert ->
  Forall2 (register_typed Σ) operands types -> cells_typed env Σ cells ->
  len operands < U64_LIMIT -> len cells < U64_LIMIT ->
  let r := execute_extended_instruction blake3 sha256 run_context opcode immediate operands t cells in
  steps Σ r t \/ r = Err Fault /\ refused_by_codec opcode operands.
Proof using Hblake3 Hsha256 Hdefinitions.
  intros Hconstant Hj Hc1 Hc2 Htyped Hcells Hl1 Hl2 r. subst r. unfold judge_extended_operation in Hj.
  apply bind_Ok in Hj as (_ & Hg%ensure_Ok & (derived & Hj & (_ & _ & [= ->])%bind_Ok)%bind_Ok).
  destruct (match opcode with OpCellNew | OpCellGet | OpCellSet => true | _ => false end) eqn:Hcell.
  - left. assert (execute_extended_instruction blake3 sha256 run_context opcode immediate operands t cells =
      execute_cell opcode operands t cells) as -> by (by destruct opcode).
    eapply cell_sound; try done; [by destruct opcode| |by destruct opcode].
    intros ->. by apply negb_true_iff in Hg.
  - assert (existsb contains_cell types = false) as Hno.
    { rewrite !bool_decide_eq_false_2 in Hg by (intros ->; done). by apply negb_true_iff in Hg. }
    assert (Forall2 has_type operands types) as Hvalues.
    { clear -Htyped Hno. induction Htyped as [|v w l l' Hv _ IH]; [constructor|]. cbn in Hno. apply orb_false_iff in Hno as [? ?].
      constructor; [by eapply register_typed_value|auto]. }
    assert (execute_extended_instruction blake3 sha256 run_context opcode immediate operands t cells =
      value ← execute_pure blake3 sha256 run_context opcode immediate operands t; Ok (value, cells)) as ->
      by (by destruct opcode).
    destruct (pure_sound opcode immediate operands types declared t) as [(v & -> & Hv)|[-> Hr]]; try done; [by destruct opcode| |].
    + left. exists v, cells, Σ. split_and!; [done..|]. by apply has_type_register.
    + right. by split.
Qed.
End sound.

(** C7: An operation whose judgement at lowering succeeded does not fault when the
    machine runs it on registers of the judged types, whatever the cells hold: it
    returns a value of the judged result type and leaves every cell with its type.
    The one exception is a value that the canonical codec refuses to encode. *)
Theorem judged_operation_is_safe (blake3 sha256 : bytes -> bytes) (c : LoweringContext) (epoch : bytes)
    (opcode : Opcode) (immediate : Immediate) (operands : list ConstValue) (types declared : list TypeExpr)
    (t : TypeExpr) (Σ : list TypeExpr) (cells : Cells)
    (Hblake3 : forall b, len (blake3 b) = 32) (Hsha256 : forall b, len (sha256 b) = 32)
    (Hdefinitions : forall id def, lc_types c !! id = Some def -> definition_ok (lc_types c) def)
    (Hconstant : constant_read_typed c immediate opcode)
    (Hjudged : judge_extended_operation c opcode immediate types declared = Ok t)
    (Hcall : opcode <> OpCallDirect) (Hassert : opcode <> OpContractAssert)
    (Hoperands : Forall2 (register_typed (lc_types c) Σ) operands types)
    (Hcells : cells_typed (lc_types c) Σ cells)
    (Hmemory : len operands < U64_LIMIT /\ len cells < U64_LIMIT) :
  match execute_extended_instruction blake3 sha256 (run_context c epoch) opcode immediate operands t cells with
  | Ok (v, cells') =>
      exists Σ', Σ `prefix_of` Σ' /\ cells_typed (lc_types c) Σ' cells' /\ register_typed (lc_types c) Σ' v t
  | Err Fault => refused_by_codec blake3 epoch opcode operands
  end.
Proof.
  destruct Hmemory as [Hl1 Hl2].
  destruct (operation_sound blake3 sha256 Hblake3 Hsha256 c epoch Hdefinitions opcode immediate operands types declared t Σ cells Hconstant)
    as [(v & cells' & Σ' & -> & H)|[-> H]]; try done. by exists Σ'.
Qed.

Definition empty_inventory : LoweringContext := mkLoweringContext ∅ [] [] [] [] [] [] 0.

(** Seven is stored in the second of two cells. *)
Lemma judged_operation_is_safe_witness :
  let digest := fun _ : bytes => replicate 32 x00 in
  let octet n := mkConstValue (TUInt 8) (DUInt n) in
  let Σ := [TUInt 8; TUInt 8] in
  let handle := mkConstValue (TLocalCell (TUInt 8)) (DUInt 1) in
  judge_extended_operation empty_inventory OpCellSet ImmNone [TLocalCell (TUInt 8); TUInt 8] [TUnit] = Ok TUnit /\
  execute_extended_instruction digest digest (run_context empty_inventory []) OpCellSet ImmNone [handle; octet 7] TUnit [octet 0; octet 1]
    = Ok (mkConstValue TUnit DUnit, [octet 0; octet 7]) /\
  exists Σ', Σ `prefix_of` Σ' /\ cells_typed ∅ Σ' [octet 0; octet 7] /\ register_typed ∅ Σ' (mkConstValue TUnit DUnit) TUnit.
Proof.
  intros digest octet Σ handle. split; [reflexivity|]. split; [reflexivity|].
  assert (forall n, n < 256 -> has_type ∅ (octet n) (TUInt 8)) as Hb by (intros n Hn; by apply uint_has_type).
  apply (judged_operation_is_safe digest digest empty_inventory [] OpCellSet ImmNone [handle; octet 7]
    [TLocalCell (TUInt 8); TUInt 8] [TUnit] TUnit Σ [octet 0; octet 1]); try done.
  - repeat apply Forall2_cons_2; [|by apply has_type_register, Hb|by apply Forall2_nil_2]. split; [done|]. by exists 1.
  - repeat apply Forall2_cons_2; [by apply Hb|by apply Hb|by apply Forall2_nil_2].
Defined.

(** [true] under [n] options *)
Fixpoint nested (n : nat) : ConstValue :=
  match n with
  | O => mkConstValue TBool (DBool true)
  | S n => let inner := nested n in mkConstValue (TOption (cv_type inner)) (DOption (Some inner))
  end.

Lemma nested_has_type n : has_type ∅ (nested n) (cv_type (nested n)).
Proof. induction n as [|n IH]; [by apply leaf_has_type|]. by apply some_has_type. Qed.

Lemma wire_ok_payload c depth tag w : wire_ok c depth (WUnion tag (Some w)) -> wire_ok c (depth + 1) w.
Proof. by intros (_ & _ & H). Qed.
Lemma wire_ok_second c depth a b : wire_ok c depth (WRecord [a; b]) -> wire_ok c (depth + 1) b.
Proof. by intros (_ & _ & _ & H & _). Qed.

(** Each option takes three levels of the encoding: the record of the value, the
    union of its data and that of the option. *)
Lemma nested_levels c n depth : wire_ok c depth (value_tree (nested n)) -> depth + 3 * N.of_nat n + 1 < MAX_NESTING_DEPTH.
Proof.
  revert depth. induction n as [|n IH]; intros depth H; apply wire_ok_second in H.
  - apply wire_ok_root in H. cbn in H. lia.
  - apply wire_ok_payload in H. cbn [fmap option_fmap option_map] in H. unfold option_tree in H. apply wire_ok_payload, IH in H. lia.
Qed.

#[local] Arguments ConstEncoding.encode_const_value : simpl never.

(** The map that [map_new] makes of one entry *)
Lemma map_new_one blake3 sha256 c cells key value :
  let t := map_result (cv_type key) (cv_type value) in
  execute_extended_instruction blake3 sha256 c OpMapNew ImmNone [key; value] t cells
  = if is_ok (ConstEncoding.encode_const_value key)
    then Ok (mkConstValue t (DResult (ROk (mkConstValue (TOrderedMap (cv_type key) (cv_type value)) (DMap [mkMapEntryConst key value])))), cells)
    else Err Fault.
Proof.
  intros t. unfold execute_extended_instruction. cbn. unfold execute_map. cbn. unfold key_bytes.
  destruct (ConstEncoding.encode_const_value key) eqn:E; cbn; [|done].
  unfold map_value, sorted_map, keyed_entries. cbn. unfold key_bytes. by rewrite E.
Qed.

Definition nested_map (n : nat) : TypeExpr := map_result (cv_type (nested n)) TBool.

(** Up to sixty options a type is within the depth limit of types. *)
Lemma nested_judged :
  Forall (fun n => judge_extended_operation empty_inventory OpMapNew ImmNone [cv_type (nested n); TBool] [nested_map n] = Ok (nested_map n))
    (seq 0 61).
Proof. repeat (apply Forall_cons_2; [by vm_compute|]). apply Forall_nil_2. Qed.
Lemma nested_encoded : Forall (fun n => is_ok (ConstEncoding.encode_const_value (nested n)) = true) (seq 0 21).
Proof. repeat (apply Forall_cons_2; [by vm_compute|]). apply Forall_nil_2. Qed.

(** C40: the exception happens, and where it does is exact.  A key of [n] nested
    options, for [n] up to sixty, is a value of a type for which [map_new] is judged;
    the machine makes the map if [n] is at most twenty and faults if it is more,
    because a nested option takes three levels of the canonical encoding, whose limit
    is the sixty-four of the types. *)
Theorem deep_map_key_faults n :
  (n <= 60)%nat ->
  let value := mkConstValue TBool (DBool true) in
  has_type ∅ (nested n) (cv_type (nested n)) /\
  judge_extended_operation empty_inventory OpMapNew ImmNone [cv_type (nested n); TBool] [nested_map n] = Ok (nested_map n) /\
  forall blake3 sha256, execute_extended_instruction blake3 sha256 (run_context empty_inventory []) OpMapNew ImmNone [nested n; value] (nested_map n) []
    = if (n <=? 20)%nat
      then Ok (mkConstValue (nested_map n) (DResult (ROk (mkConstValue (TOrderedMap (cv_type (nested n)) TBool)
             (DMap [mkMapEntryConst (nested n) value])))), [])
      else Err Fault.
Proof.
  intros Hn value. split_and!; [apply nested_has_type| |].
  - pose proof nested_judged as H. rewrite Forall_forall in H. apply H, elem_of_seq. lia.
  - intros blake3 sha256. rewrite (map_new_one blake3 sha256 _ [] (nested n) value).
    destruct (Nat.leb_spec n 20) as [Hle|Hgt].
    + pose proof nested_encoded as H. rewrite Forall_forall in H. by rewrite H by (apply elem_of_seq; lia).
    + destruct (ConstEncoding.encode_const_value (nested n)) as [b|] eqn:E; [|done]. exfalso.
      apply encode_const_value_Ok in E as [E _]. apply nested_levels in E. unfold MAX_NESTING_DEPTH in E. lia.
Qed.

Lemma deep_map_key_faults_witness :
  let value := mkConstValue TBool (DBool true) in
  let digest := fun _ : bytes => replicate 32 x00 in
  is_ok (execute_extended_instruction digest digest (run_context empty_inventory []) OpMapNew ImmNone [nested 20; value] (nested_map 20) []) = true /\
  execute_extended_instruction digest digest (run_context empty_inventory []) OpMapNew ImmNone [nested 21; value] (nested_map 21) [] = Err Fault.
Proof.
  intros value digest. split.
  - exact (f_equal is_ok (proj2 (proj2 (deep_map_key_faults 20 ltac:(lia))) digest digest)).
  - exact (proj2 (proj2 (deep_map_key_faults 21 ltac:(lia))) digest digest).
Defined.
