(* ===== verification/VmAdmission.v ===== *)
(** * The virtual machine: admitted constants

    Two checks stand before a constant reaches the machine: the type checker
    accepts it, and [require_canonical_referenced_constants] finds that it has a
    canonical form.  Together they say that the constant is a value of its type at
    run time, maps in the order of the canonical bytes of their keys included. *)

From S2P Require Import Prelude Bytes Utf8 Scb1Core Ssmc Types TypeWalk TypeEnv ConstCheck ConstEncoding Repr ConstWire.
From S2P Require Import VmInt VmFloat VmText VmJudge VmExec VmTyped.
Set Warnings "-register-all".

Open Scope N_scope.

(** ** Canonical parts *)

Definition canonical_tree (w : wire) : Prop := exists depth, wire_ok true depth w.

Lemma wire_ok_shallower canonical w depth depth' :
  depth' <= depth -> wire_ok canonical depth w -> wire_ok canonical depth' w.
Proof.
  revert depth depth'. induction w using wire_ind'; intros depth depth' Hd; cbn [wire_ok].
  - intros (? & ? & ?). split_and!; [done|lia|done].
  - intros (? & ? & ?). split_and!; [done|lia|done].
  - intros (? & ? & Hw). split_and!; [done|lia|]. destruct payload as [w|]; [|done].
    apply (H (depth + 1)); [lia|done].
  - rewrite !all_prop_Forall. intros (? & ? & Hw). split_and!; [done|lia|]. rewrite Forall_forall in *.
    intros x Hx. apply (H x Hx (depth + 1)); [lia|auto].
  - rewrite !all_prop_Forall. intros (? & ? & ? & ? & Hw). split_and!; [done|lia|done..|]. rewrite Forall_forall in *.
    intros x Hx. apply (H x Hx (depth + 1)); [lia|auto].
Qed.

Lemma canonical_encodes v : canonical_tree (value_tree v) -> encodes v (wire_bytes (value_tree v)).
Proof. intros [d H]. apply encode_const_value_Ok. split; [|done]. by apply (wire_ok_shallower _ _ d); [lia|]. Qed.

Lemma canonical_union tag w : canonical_tree (WUnion tag (Some w)) -> canonical_tree w.
Proof. intros [d (_ & _ & H)]. by exists (d + 1). Qed.

Lemma canonical_record l : canonical_tree (WRecord l) -> Forall canonical_tree l.
Proof.
  intros [d (_ & _ & H)]. apply all_prop_Forall in H. eapply Forall_impl; [exact H|]. intros w Hw. by exists (d + 1).
Qed.

Lemma canonical_list kind l :
  canonical_tree (WList kind l) -> Forall canonical_tree l /\ len l <= MAX_COLLECTION_ELEMENTS /\ ascending (list_keys kind l).
Proof.
  intros [d (_ & _ & Hl & Ha & H)]. apply all_prop_Forall in H. split_and!; [|done|by apply Ha].
  eapply Forall_impl; [exact H|]. intros w Hw. by exists (d + 1).
Qed.

Lemma canonical_payload tag w tag' w' :
  canonical_tree (WRecord [w'; WUnion tag (Some (WUnion tag' (Some w)))]) -> canonical_tree w.
Proof. intros H%canonical_record. apply Forall_cons in H as [_ H]. apply Forall_cons in H as [H _]. by do 2 apply canonical_union in H. Qed.

Lemma canonical_data v w tag : canonical_tree (WRecord [v; WUnion tag (Some w)]) -> canonical_tree w.
Proof. intros H%canonical_record. apply Forall_cons in H as [_ H]. apply Forall_cons in H as [H _]. by apply canonical_union in H. Qed.

Lemma ascending_sorted l : ascending l -> StronglySorted bytes_lt l.
Proof.
  intros H. apply Sorted_StronglySorted; [|exact H]. intros a b d. apply (tc_trans _ bytes_total_compare).
Qed.

(** ** Admitted constants are values *)

Lemma Forall2_with_l {A B} (P : A -> Prop) (R : A -> B -> Prop) l k :
  Forall P l -> Forall2 R l k -> Forall2 (fun x y => P x /\ R x y) l k.
Proof. intros HP H. induction H; inversion HP; constructor; auto. Qed.

Lemma in_range_signed w x : is_epoch_1 w = true -> is_i128 x = true -> signed_in_range w x -> fits true w x 0 = true.
Proof.
  intros Hw Hr [_ H]. pose proof (fits_eq true w x Hw (or_introl eq_refl)) as E. cbn [number_pair fst snd] in E. rewrite E.
  clear E. apply is_i128_range in Hr.
  unfold in_width, width_min, width_max. destruct H as [->|H]; cbn; lia.
Qed.

Lemma in_range_unsigned w n : is_epoch_1 w = true -> is_u128 n = true -> unsigned_in_range w n -> fits false w 0 n = true.
Proof.
  intros Hw Hr [_ H]. apply is_u128_lt in Hr. unfold fits. pose proof (unsigned_max_eq _ Hw) as E. unfold width_max in E.
  destruct H as [->|H]; lia.
Qed.

Section admitted.
Variable env : Definitions.

Lemma leaf_admitted t d :
  leaf_typed env t d -> data_repr d -> canonical_tree (value_tree (mkConstValue t d)) -> leaf_ok t d.
Proof using.
  intros Ht Hd Hc. destruct t, d; try done; cbn in Ht, Hd |- *.
  - split; [apply Ht|]. apply in_range_signed; [apply Ht|done..].
  - split; [apply Ht|]. apply in_range_unsigned; [apply Ht|done..].
  - unfold MAX_CONSTANT_PAYLOAD_BYTES, U64_LIMIT in *. lia.
  - unfold MAX_CONSTANT_PAYLOAD_BYTES, U64_LIMIT in *. split; [done|lia].
Qed.

Definition admitted (v : ConstValue) : Prop :=
  ConstTyped env v -> value_repr v -> canonical_tree (value_tree v) -> ValueTyped env v.

Lemma admitted_values (values : list ConstValue) :
  Forall admitted values -> Forall value_repr values -> Forall canonical_tree (value_tree <$> values) ->
  Forall (fun v => ConstTyped env v -> ValueTyped env v) values.
Proof using.
  intros Ha Hr Hc. rewrite Forall_fmap in Hc. rewrite Forall_forall in *. intros v Hv Ht. apply Ha; [done..|by apply Hr|by apply Hc].
Qed.

Lemma collection_small n : n <= MAX_COLLECTION_ELEMENTS -> n < U64_LIMIT.
Proof using. unfold MAX_COLLECTION_ELEMENTS, U64_LIMIT. lia. Qed.

Lemma sequence_admitted t values :
  Forall admitted values -> Forall value_repr values -> canonical_tree (value_tree (mkConstValue t (DSequence values))) ->
  Forall (fun v => ConstTyped env v -> ValueTyped env v) values /\ len values < U64_LIMIT.
Proof using.
  intros Ha Hr Hc. cbn [value_tree] in Hc. apply canonical_data, canonical_list in Hc as (Hc & Hl & _).
  rewrite len_fmap in Hl. split; [by apply admitted_values|by apply collection_small].
Qed.

Lemma entry_key_tree (e : MapEntry) : entry_key (WRecord [value_tree (me_key e); value_tree (me_value e)]) = wire_bytes (value_tree (me_key e)).
Proof using. done. Qed.

Lemma map_admitted t entries :
  canonical_tree (value_tree (mkConstValue t (DMap entries))) ->
  Forall (fun e => canonical_tree (value_tree (me_key e)) /\ canonical_tree (value_tree (me_value e))) entries /\
  let keys := (fun e => wire_bytes (value_tree (me_key e))) <$> entries in
  Forall2 (fun e b => encodes (me_key e) b) entries keys /\ StronglySorted bytes_lt keys.
Proof using.
  intros Hc. cbn [value_tree] in Hc. apply canonical_data, canonical_list in Hc as (Hc & _ & Ha).
  rewrite Forall_fmap in Hc.
  assert (Forall (fun e => canonical_tree (value_tree (me_key e)) /\ canonical_tree (value_tree (me_value e))) entries) as Hp.
  { eapply Forall_impl; [exact Hc|]. intros e He. apply canonical_record in He. rewrite !Forall_cons in He. tauto. }
  split; [done|]. split.
  - clear -Hp. induction Hp as [|e l [He _] _ IH]; constructor; [by apply canonical_encodes|done].
  - apply ascending_sorted. cbn [list_keys] in Ha. rewrite <- list_fmap_compose in Ha. exact Ha.
Qed.

Lemma constant_admitted v : admitted v.
Proof using.
  induction v as [t d IH] using ConstValue_ind'. intros Ht [Htr [Hdr Hcr]]%value_repr_inv Hc.
  inversion Ht as [t' d' L|types values H2|e values Hl H2|id args def fields values Hd Hform H2|id args def cases case Hd Hform Hcase Hp
    |id args def cases case f v Hd Hform Hcase Hp Hm Hv|k v tr entries Hl Htr' Hkey Hnd H2|t'|v Hv|v e Hv|o v Hv]; subst;
    cbn [const_children] in IH, Hcr.
  - apply VT_leaf. by apply leaf_admitted.
  - destruct (sequence_admitted _ _ IH Hcr Hc) as [Hall Hlen]. apply VT_tuple; [done|].
    eapply Forall2_impl; [exact (Forall2_with_l _ _ _ _ Hall H2)|]. intros v w (Hv & Hw & ?). auto.
  - destruct (sequence_admitted _ _ IH Hcr Hc) as [Hall Hlen]. apply VT_vector; [done|]. rewrite Forall_forall in *.
    intros v Hv. destruct (H2 v Hv). auto.
  - cbn [value_tree rc_fields] in Hc. apply canonical_data, canonical_record in Hc. rewrite !Forall_cons in Hc.
    destruct Hc as (_ & [Hc _]%canonical_list & _). rewrite Forall_fmap in Hc. cbn [rc_fields] in IH, Hcr.
    eapply VT_record; [done..|]. rewrite Forall_fmap in IH, Hcr.
    eapply Forall2_impl; [exact (Forall2_with_l _ _ _ _ Hc (Forall2_with_l _ _ _ _ IH (Forall2_with_l _ _ _ _ Hcr H2)))|].
    cbn. intros x f (Hx & Ha & Hr & ? & ? & ?). split_and!; [done..|]. apply Ha; [done..|].
    apply canonical_record in Hx. rewrite !Forall_cons in Hx. tauto.
  - eapply VT_case; [done..| |done]. by rewrite Hp.
  - cbn [value_tree vk_payload fmap option_fmap option_map option_tree] in Hc. apply canonical_data, canonical_record in Hc.
    rewrite !Forall_cons in Hc. destruct Hc as (_ & _ & Hc%canonical_union & _).
    eapply VT_case; [done..| |]; [by rewrite Hp|]. intros w [= <-]. cbn in IH, Hcr.
    rewrite Forall_singleton in IH, Hcr. by apply IH.
  - destruct (map_admitted _ _ Hc) as (Hp & Hk & Hs). eapply VT_map; [|done..]. clear Hk Hs Hc Ht Hnd Hl.
    induction Hp as [|e l [Hk Hv] _ IHl]; [constructor|]. cbn [mbind list_bind] in IH, Hcr.
    apply Forall_app in IH as [IH1 IH], Hcr as [Hcr1 Hcr]. rewrite !Forall_cons in IH1, Hcr1.
    apply Forall_cons in H2 as [((? & ?) & (? & ?)) Hrest]. destruct IH1 as (Hak & Hav & _), Hcr1 as (? & ? & _).
    constructor; [|by apply IHl]. split; (split; [done|]); [by apply Hak|by apply Hav].
  - apply VT_none.
  - cbn [value_tree fmap option_fmap option_map option_tree] in Hc. apply canonical_data, canonical_union in Hc.
    apply VT_some. cbn in IH, Hcr. apply Forall_cons in IH as [IH _], Hcr as [Hcr _]. by apply IH.
  - cbn [value_tree] in Hc. apply canonical_data, canonical_union in Hc.
    apply VT_ok. cbn in IH, Hcr. apply Forall_cons in IH as [IH _], Hcr as [Hcr _]. by apply IH.
  - cbn [value_tree] in Hc. apply canonical_data, canonical_union in Hc.
    apply VT_err. cbn in IH, Hcr. apply Forall_cons in IH as [IH _], Hcr as [Hcr _]. by apply IH.
Qed.
End admitted.

(** C25: The constant an operation reads is a value of its type at run time: the
    type checker accepted the constants of the inventory, and the operations
    passed the static admission, so it also lists its maps in canonical order. *)
Theorem referenced_constants_typed (env : Definitions) (operations : list Operation)
    (constants : list ConstantDefinition) (globals : list GlobalValueDefinition) (o : Operation) (v : ConstValue)
    (Hchecked : Forall (fun k => check_constant env (kd_value k) = Ok tt /\ value_repr (kd_value k)) constants)
    (Hadmitted : require_canonical_referenced_constants operations constants globals = Ok tt)
    (Ho : o ∈ operations)
    (Hv : referenced_constant constants globals (op_opcode o) (op_immediate o) = Some v) :
  has_type env v (cv_type v).
Proof.
  split; [done|]. apply for_each_Ok in Hadmitted. rewrite Forall_forall in Hadmitted. specialize (Hadmitted _ Ho).
  cbv beta in Hadmitted. rewrite Hv in Hadmitted. destruct (encode_const_value v) as [b|] eqn:E; [|done].
  apply encode_const_value_Ok in E as [E _].
  assert (exists k, k ∈ constants /\ kd_value k = v) as (k & Hk & <-).
  { unfold referenced_constant in Hv. destruct (op_opcode o), (op_immediate o); try done.
    - apply fmap_Some in Hv as (k & [Hk _]%find_first_Some & ->). by exists k.
    - apply fmap_Some in Hv as ([g k] & Hg & ->). unfold global_initializer in Hg.
      apply bind_Some in Hg as (? & _ & (k' & [Hk _]%find_first_Some & Hg)%bind_Some). case_bool_decide; simplify_eq. by exists k. }
  rewrite Forall_forall in Hchecked. destruct (Hchecked k Hk) as [[Ht _]%check_constant_sound Hr].
  apply constant_admitted; [done..|]. by exists 0.
Qed.

(** A constant map with one entry is read. *)
Lemma referenced_constants_typed_witness :
  let bool b := mkConstValue TBool (DBool b) in
  let map := mkConstValue (TOrderedMap TBool TBool) (DMap [mkMapEntryConst (bool false) (bool true)]) in
  let k := mkConstantDefinition 7 map in
  let o := mkOperation 1 2 0 OpConstantRef [] [TOrderedMap TBool TBool] (ImmEntity 7) in
  check_constant ∅ map = Ok tt /\ has_type ∅ map (cv_type map).
Proof.
  intros bool map k o.
  assert (check_constant ∅ map = Ok tt) as E by (by vm_compute). split; [exact E|].
  apply (referenced_constants_typed ∅ [o] [k] [] o map); [|by vm_compute|by left|done].
  apply Forall_singleton. split; [exact E|].
  repeat (constructor || apply Forall_cons_2 || apply AllNodes_node).
Defined.
