(* ===== verification/VmBytecode.v ===== *)
(** * The virtual machine: bytecode (crates/sley-vm/src/lower.rs, lib.rs)

    The register bytecode a function is lowered to, the canonical byte encoding
    of it, and the preimage of the cache key it is stored under.  Registers and
    block slots are dense indices ([u32]). *)

From S2P Require Import Prelude Bytes Ids Ssmc Fingerprint VmJudge.
From stdpp Require Import strings.
Set Warnings "-register-all".

Open Scope N_scope.

(** ** Bytecode *)

Definition Register : Type := N.
Definition BlockSlot : Type := N.

Definition MAX_REGISTERS : N := 1000000.
Definition MAX_LOWERED_BLOCKS : N := 4096.
Definition MAX_INSTRUCTIONS : N := 1000000.
Definition MAX_INSTRUCTION_VALUES : N := 65535.
Definition MAX_LOWERING_WORK : N := 100000000.
Definition MAX_BYTECODE_BYTES : N := 67108864.

Record Instruction : Type := mkInstruction {
  in_opcode : N;
  in_operands : list Register;
  in_results : list Register;
  in_immediate : Immediate
}.
#[global] Instance Instruction_eq_dec : EqDecision Instruction.
Proof. solve_decision. Defined.

Record BytecodeTargetEdge : Type := mkBytecodeTargetEdge {
  bte_target : BlockSlot;
  bte_arguments : list Register
}.
#[global] Instance BytecodeTargetEdge_eq_dec : EqDecision BytecodeTargetEdge.
Proof. solve_decision. Defined.

Inductive BytecodeSwitchArgument : Type :=
| BSAValue (register : Register)
| BSACasePayload.
#[global] Instance BytecodeSwitchArgument_eq_dec : EqDecision BytecodeSwitchArgument.
Proof. solve_decision. Defined.

Record BytecodeSwitchEdge : Type := mkBytecodeSwitchEdge {
  bse_target : BlockSlot;
  bse_arguments : list BytecodeSwitchArgument
}.
#[global] Instance BytecodeSwitchEdge_eq_dec : EqDecision BytecodeSwitchEdge.
Proof. solve_decision. Defined.

Record BytecodeSwitchCase : Type := mkBytecodeSwitchCase {
  bsc_case_key : CaseKey;
  bsc_edge : BytecodeSwitchEdge
}.
#[global] Instance BytecodeSwitchCase_eq_dec : EqDecision BytecodeSwitchCase.
Proof. solve_decision. Defined.

Inductive BytecodeTerminator : Type :=
| BReturn (register : Register)
| BBranch (edge : BytecodeTargetEdge)
| BCondBranch (condition : Register) (if_true if_false : BytecodeTargetEdge)
| BVariantSwitch (value : Register) (cases : list BytecodeSwitchCase)
| BTrap (code : N) (payload : option Register).
#[global] Instance BytecodeTerminator_eq_dec : EqDecision BytecodeTerminator.
Proof. solve_decision. Defined.

Record BytecodeBlock : Type := mkBytecodeBlock {
  bb_slot : BlockSlot;
  bb_parameter_registers : list Register;
  bb_instructions : list Instruction;
  bb_terminator : BytecodeTerminator;
  bb_reachability : N
}.
#[global] Instance BytecodeBlock_eq_dec : EqDecision BytecodeBlock.
Proof. solve_decision. Defined.

Record BytecodeFunction : Type := mkBytecodeFunction {
  bf_function : EntityId;
  bf_parameter_registers : list Register;
  bf_register_types : list TypeExpr;
  bf_result_type : TypeExpr;
  bf_entry_block : BlockSlot;
  bf_blocks : list BytecodeBlock
}.
#[global] Instance BytecodeFunction_eq_dec : EqDecision BytecodeFunction.
Proof. solve_decision. Defined.

(** ** Profiles and cache keys *)

Record CacheProfile : Type := mkCacheProfile {
  cp_vm_version : N * N * N;
  cp_lowering_profile : N;
  cp_lowerer_version : N * N * N;
  cp_entry_type_arguments : N;
  cp_adapter_abi_entries : N;
  cp_execution_abi_flags : N
}.
#[global] Instance CacheProfile_eq_dec : EqDecision CacheProfile.
Proof. solve_decision. Defined.

Definition RESTRICTED_V1 : CacheProfile := mkCacheProfile (1, 0, 0) 1 (1, 0, 0) 0 0 0.
Definition EXTENDED_V1 : CacheProfile := mkCacheProfile (1, 0, 0) 2 (2, 0, 0) 0 0 0.
Definition is_extended (profile : CacheProfile) : bool := bool_decide (profile = EXTENDED_V1).

Definition SSMC1_DECODER_LIMITS_HASH : bytes :=
  [x38; x97; x91; xb1; x70; xbc; x9d; x85; x75; xf7; xe6; xf3; x38; xe4; xf9; xe9;
   xf2; xb7; x5f; x35; xd7; xa2; xe5; x2c; x7c; xb1; x06; xcb; x2c; xd6; x13; x6a].

Definition push_version (version : N * N * N) : bytes :=
  let '(major, minor, patch) := version in be_bytes 4 major ++ be_bytes 4 minor ++ be_bytes 4 patch.

Definition cache_key_preimage (schema_epoch state_root : bytes) (entry_function : EntityId) (profile : CacheProfile)
    : lower_result bytes :=
  guard! bool_decide (profile = RESTRICTED_V1) || bool_decide (profile = EXTENDED_V1) else LeCacheKeyUnsupported;
  Ok (ascii "SLEYBCK1" ++ be_bytes 4 1 ++ schema_epoch ++ SSMC1_FIELD_SCHEMA_HASH ++ SSMC1_DECODER_LIMITS_HASH
      ++ state_root ++ id_bytes entry_function
      ++ push_version (cp_vm_version profile) ++ be_bytes 4 (cp_lowering_profile profile)
      ++ push_version (cp_lowerer_version profile)
      ++ be_bytes 8 (cp_entry_type_arguments profile) ++ be_bytes 8 (cp_adapter_abi_entries profile)
      ++ be_bytes 8 (cp_execution_abi_flags profile)).

Definition derive_cache_key (blake3 : bytes -> bytes) (schema_epoch state_root : bytes) (entry_function : EntityId)
    (profile : CacheProfile) : lower_result bytes :=
  preimage ← cache_key_preimage schema_epoch state_root entry_function profile;
  Ok (digest_type_derive blake3 BytecodeCacheKey preimage).

(** ** The encoder

    [Encoder] is the bytes written so far; a method either extends them or fails. *)

Module Bytecode.
Definition Write : Type := bytes -> lower_result bytes.

Definition skip : Write := fun s => Ok s.
Definition then_write (e f : Write) : Write := fun s => e s ≫= f.
Notation "e >> f" := (then_write e f) (at level 62, right associativity).

Section each.
Context {A : Type} (f : A -> Write).
Fixpoint each (l : list A) : Write :=
  match l with
  | [] => skip
  | x :: l => f x >> each l
  end.
End each.

Definition raw (b : bytes) : Write := fun s =>
  next ← ok_or LeResourceLimit (checked_add (len s) (len b));
  guard! next <=? MAX_BYTECODE_BYTES else LeResourceLimit;
  Ok (s ++ b).

Definition u16 (value : N) : Write := raw (be_bytes 2 value).
Definition u32 (value : N) : Write := raw (be_bytes 4 value).
Definition u64 (value : N) : Write := raw (be_bytes 8 value).
Definition length (value : N) : Write := u64 value.
Definition registers (values : list Register) : Write := length (len values) >> each u32 values.
Definition entity (value : EntityId) : Write := u32 1 >> raw (id_bytes value).

Fixpoint type_expr (value : TypeExpr) (depth : N) : Write :=
  if MAX_TYPE_DEPTH <? depth then fun _ => Err LeResourceLimit
  else
    u32 (TypeExpr_tag value) >>
    match value with
    | TUnit | TBool | TF32 | TF64 | TBytes | TText => skip
    | TSInt width | TUInt width => u16 width
    | TTuple values => length (len values) >> each (fun value => type_expr value (depth + 1)) values
    | TNamed definition arguments =>
        entity definition >> length (len arguments) >> each (fun argument => type_expr argument (depth + 1)) arguments
    | TVector value | TOption value | TLocalCell value => type_expr value (depth + 1)
    | TOrderedMap key value => type_expr key (depth + 1) >> type_expr value (depth + 1)
    | TResult ok error => type_expr ok (depth + 1) >> type_expr error (depth + 1)
    | TFunctionRef parameters result effects =>
        length (len parameters) >> each (fun parameter => type_expr parameter (depth + 1)) parameters >>
        type_expr result (depth + 1) >> length (len effects) >> each entity effects
    | TAdapterHandle value | TCapabilityToken value => entity value
    | TTypeParameter value => u32 value
    | TBuiltinFailure value => u16 (BuiltinFailureKind_tag value)
    end.

Definition immediate (value : Immediate) : Write :=
  u32 (Immediate_tag value) >>
  match value with
  | ImmNone => skip
  | ImmEntity id => entity id
  | ImmIndex index => u32 index
  | ImmField member => raw (id_bytes member)
  | ImmVariant variant => entity (vi_definition variant) >> raw (id_bytes (vi_member_id variant))
  | ImmObservation digest => raw digest
  | ImmFunction function =>
      entity (frv_function function) >> length (len (frv_type_arguments function)) >>
      each (fun argument => type_expr argument 1) (frv_type_arguments function)
  end.

Definition edge (value : BytecodeTargetEdge) : Write := u32 (bte_target value) >> registers (bte_arguments value).

Definition switch_argument (value : BytecodeSwitchArgument) : Write :=
  match value with
  | BSAValue value => u32 1 >> u32 value
  | BSACasePayload => u32 2
  end.
Definition switch_edge (value : BytecodeSwitchEdge) : Write :=
  u32 (bse_target value) >> length (len (bse_arguments value)) >> each switch_argument (bse_arguments value).

Definition case_key (value : CaseKey) : Write :=
  match value with
  | KeyMember value => u32 1 >> raw (id_bytes value)
  | KeyBuiltin value => u32 2 >> u32 (BuiltinCase_tag value)
  end.

Definition terminator (value : BytecodeTerminator) : Write :=
  match value with
  | BReturn value => u32 1 >> u32 value
  | BBranch value => u32 2 >> edge value
  | BCondBranch condition if_true if_false => u32 3 >> u32 condition >> edge if_true >> edge if_false
  | BVariantSwitch value cases =>
      u32 4 >> u32 value >> length (len cases) >>
      each (fun case => case_key (bsc_case_key case) >> switch_edge (bsc_edge case)) cases
  | BTrap code payload =>
      u32 5 >> u32 code >> match payload with None => u32 1 | Some value => u32 2 >> u32 value end
  end.

Section encode.
Variable extended : bool.

Definition instruction (value : Instruction) : Write :=
  u32 (in_opcode value) >> registers (in_operands value) >> registers (in_results value) >>
  if extended then immediate (in_immediate value) else skip.

Definition block (value : BytecodeBlock) : Write :=
  u32 (bb_slot value) >> registers (bb_parameter_registers value) >>
  length (len (bb_instructions value)) >> each instruction (bb_instructions value) >>
  terminator (bb_terminator value) >> u32 (bb_reachability value).

Definition encode_body (value : BytecodeFunction) : Write :=
  raw (id_bytes (bf_function value)) >> registers (bf_parameter_registers value) >>
  length (len (bf_register_types value)) >> each (fun value_type => type_expr value_type 1) (bf_register_types value) >>
  type_expr (bf_result_type value) 1 >> u32 (bf_entry_block value) >>
  length (len (bf_blocks value)) >> each block (bf_blocks value).

Definition encode_function (value : BytecodeFunction) (callees : list BytecodeFunction) : lower_result bytes :=
  (raw (ascii (if extended then "SLEYBC02" else "SLEYBC01")) >> u32 1 >> encode_body value >>
   if extended then length (len callees) >> each encode_body callees else skip) [].
End encode.
End Bytecode.

(** ** The preimage of the cache key *)

Lemma app_inj_l (a b c d : bytes) : length a = length c -> a ++ b = c ++ d -> a = c /\ b = d.
Proof. intros H1 H2. by apply app_inj_1. Qed.

(** The preimage of a cache key is 224 bytes, and keys made from different schema
    epochs, state roots, functions or profiles have different preimages. *)
Theorem cache_key_preimage_injective (epoch epoch' root root' : bytes) (f f' : EntityId) (p p' : CacheProfile) (b : bytes)
    (Hepoch : length epoch = 32%nat /\ length epoch' = 32%nat) (Hroot : length root = 32%nat /\ length root' = 32%nat)
    (Hf : f < 2 ^ 256 /\ f' < 2 ^ 256) (Hb : cache_key_preimage epoch root f p = Ok b) :
  len b = 224 /\
  (cache_key_preimage epoch' root' f' p' = Ok b -> epoch = epoch' /\ root = root' /\ f = f' /\ p = p').
Proof.
  destruct Hepoch as [He He'], Hroot as [Hr Hr'], Hf as [Hf Hf'].
  unfold cache_key_preimage in *. apply bind_Ok in Hb as (_ & Hp%ensure_Ok%orb_true_iff & Hb).
  rewrite !bool_decide_eq_true in Hp. apply Ok_inj in Hb as <-. split.
  - unfold len. rewrite !length_app, He, Hr. unfold id_bytes. rewrite !length_be_bytes. by destruct Hp as [-> | ->].
  - intros (_ & Hp'%ensure_Ok%orb_true_iff & E)%bind_Ok. apply (proj1 (Ok_inj _ _)) in E. symmetry in E.
    do 2 (apply app_inj_l in E as [_ E]; [|done]). rewrite !bool_decide_eq_true in Hp'.
    apply app_inj_l in E as [-> E]; [|congruence]. do 2 (apply app_inj_l in E as [_ E]; [|done]).
    apply app_inj_l in E as [-> E]; [|congruence]. apply app_inj_l in E as [E1 E]; [|unfold id_bytes; by rewrite !length_be_bytes].
    apply be_bytes_inj in E1 as ->; [|done..]. split_and!; [done..|].
    destruct Hp as [-> | ->], Hp' as [-> | ->]; [done| | |done]; exfalso; revert E; vm_compute; discriminate.
Qed.

Lemma cache_key_preimage_injective_witness :
  exists b, cache_key_preimage (replicate 32 x01) (replicate 32 x02) 3 RESTRICTED_V1 = Ok b /\ len b = 224.
Proof.
  eexists. split; [reflexivity|].
  apply (cache_key_preimage_injective (replicate 32 x01) (replicate 32 x01) (replicate 32 x02) (replicate 32 x02) 3 3
    RESTRICTED_V1 RESTRICTED_V1); [done..|reflexivity].
Defined.
