(* ===== verification/VmLower.v ===== *)
(** * The virtual machine: lowering (crates/sley-vm/src/lower.rs)

    [lower_function] validates a function graph, numbers its values densely,
    judges its operations and emits bytecode; under the extended profile the
    functions it calls are lowered with it.  [judge_function_operations] stops
    after the judgement.  Both charge their work to one budget. *)

From S2P Require Import Prelude State Bytes Ids BTree Ssmc Types CfgGraph Cfg VmJudge VmExec VmBytecode.
Set Warnings "-register-all".

Open Scope N_scope.

(** ** Requests and outcomes *)

Record LoweringInput : Type := mkLoweringInput {
  li_types : Definitions;
  li_function : FunctionGraph;
  li_parameters : list ParameterDef;
  li_blocks : list Block;
  li_operations : list Operation;
  li_schema_epoch : bytes;
  li_state_root : bytes;
  li_profile : CacheProfile;
  li_constants : list ConstantDefinition;
  li_globals : list GlobalValueDefinition;
  li_functions : list FunctionGraph;
  li_contracts : list ContractDefinition;
  li_adapters : list AdapterImport
}.

Record LoweredFunction : Type := mkLoweredFunction {
  lf_bytecode : BytecodeFunction;
  lf_bytes : bytes;
  lf_cache_key : bytes;
  lf_lowering_work : N;
  lf_callees : list BytecodeFunction
}.

Record OperationJudgment : Type := mkOperationJudgment { oj_operations : N; oj_work : N }.

(** [LowerCfg] is the validator's failure, the panics of its model included. *)
Inductive LoweringError : Type :=
| LowerCfg (failure : CfgFailure)
| LowerCode (code : LowerErrorCode).

Abbreviation lowering A := (result LoweringError A).
Definition lower_fail {A} (code : LowerErrorCode) : lowering A := Err (LowerCode code).
Definition lower_code {A} (m : lower_result A) : lowering A := map_err LowerCode m.
Definition lower_cfg {A} (m : cfg_out A) : lowering A := map_err LowerCfg m.
Definition local_or {A} (o : option A) : lowering A := ok_or (LowerCode LeLocalReferenceInvalid) o.
Definition resource_or {A} (o : option A) : lowering A := ok_or (LowerCode LeResourceLimit) o.

(** ** The budget

    A computation that is passed [work: &mut u64]. *)

Abbreviation M := (ST N LoweringError).

Definition charge (amount : N) : M unit := fun work =>
  work ← resource_or (checked_add work amount);
  if MAX_LOWERING_WORK <? work then lower_fail LeResourceLimit else Ok (tt, work).

(** ** Inventories *)

(** [owned_inventory] and [narrow]: the parameters, blocks and operations of one function *)
Definition owned_blocks (input : LoweringInput) (graph : FunctionGraph) : list Block :=
  filter (fun block => blk_function block = fg_entity_id graph) (li_blocks input).

Definition narrow (input : LoweringInput) (graph : FunctionGraph) : LoweringInput :=
  let blocks := owned_blocks input graph in
  let block_ids : gset N := list_to_set (blk_entity_id <$> blocks) in
  mkLoweringInput (li_types input) graph
    (filter (fun parameter => prm_owner parameter = fg_entity_id graph \/ prm_owner parameter ∈ block_ids) (li_parameters input))
    blocks
    (filter (fun operation => op_block operation ∈ block_ids) (li_operations input))
    (li_schema_epoch input) (li_state_root input) (li_profile input) (li_constants input) (li_globals input)
    (li_functions input) (li_contracts input) (li_adapters input).

Definition preflight_resources (input : LoweringInput) : lowering N :=
  if (MAX_LOWERED_BLOCKS <? len (li_blocks input)) || (MAX_INSTRUCTIONS <? len (li_operations input))
  then lower_fail LeResourceLimit
  else
    registers ← fold_res (fun registers operation =>
      if (MAX_INSTRUCTION_VALUES <? len (op_operands operation)) || (MAX_INSTRUCTION_VALUES <? len (op_result_types operation))
      then lower_fail LeResourceLimit
      else resource_or (checked_add registers (len (op_result_types operation))))
      (len (li_parameters input)) (li_operations input);
    if MAX_REGISTERS <? registers then lower_fail LeResourceLimit
    else
      work ← resource_or
        (value ← checked_add 1 (len (li_parameters input));
         value ← checked_add value (len (li_blocks input));
         checked_add value (len (li_operations input)));
      if MAX_LOWERING_WORK <? work then lower_fail LeResourceLimit else Ok work.

(** ** Registers *)

Record Maps : Type := mkMaps {
  mp_parameters : gmap N (ParameterDef * Register);
  mp_blocks : gmap N (Block * BlockSlot);
  mp_operations : gmap N (Operation * list Register);
  mp_register_types : list TypeExpr;
  mp_function_parameters : list Register
}.

(** [u32::try_from] *)
Definition u32_index (value : N) : lowering N := if value <? 2 ^ 32 then Ok value else lower_fail LeResourceLimit.

Definition allocate_register (types : list TypeExpr) (value_type : TypeExpr) : M (list TypeExpr * Register) :=
  if MAX_REGISTERS <=? len types then lift (lower_fail LeResourceLimit)
  else
    register ← lift (u32_index (len types));
    charge 1 ≫= fun _ => mret (types ++ [value_type], register).

(** The inventory of a kind by entity, as [collect] makes it: the last one wins *)
Definition inventory {T} (id : T -> EntityId) (values : list T) : gmap N T :=
  foldl (fun m value => <[id value := value]> m) ∅ values.

(** A Parameter gets a register of its type. *)
Definition build_parameter (parameter_inventory : gmap N ParameterDef) (maps : Maps) (id : EntityId) : M (Maps * Register) :=
  value ← lift (local_or (parameter_inventory !! id));
  '(types, register) ← allocate_register (mp_register_types maps) (prm_value_type value);
  mret (mkMaps (<[id := (value, register)]> (mp_parameters maps)) (mp_blocks maps) (mp_operations maps) types
    (mp_function_parameters maps), register).

Definition build_operation (operation_inventory : gmap N Operation) (maps : Maps) (id : EntityId) : M Maps :=
  operation ← lift (local_or (operation_inventory !! id));
  '(types, results) ← fold (fun '(types, results) result_type =>
      '(types, register) ← allocate_register types result_type; mret (types, results ++ [register]))
    (mp_register_types maps, []) (op_result_types operation);
  mret (mkMaps (mp_parameters maps) (mp_blocks maps) (<[id := (operation, results)]> (mp_operations maps)) types
    (mp_function_parameters maps)).

Section build.
Variable input : LoweringInput.
#[local] Abbreviation parameter_inventory := (inventory prm_entity_id (li_parameters input)).
#[local] Abbreviation block_inventory := (inventory blk_entity_id (li_blocks input)).
#[local] Abbreviation operation_inventory := (inventory op_entity_id (li_operations input)).

Definition build_block (maps : Maps) (slot_id : N * EntityId) : M Maps :=
  let '(slot, id) := slot_id in
  block ← lift (local_or (block_inventory !! id));
  slot ← lift (u32_index slot);
  let maps := mkMaps (mp_parameters maps) (<[id := (block, slot)]> (mp_blocks maps)) (mp_operations maps)
    (mp_register_types maps) (mp_function_parameters maps) in
  maps ← fold (fun maps id => '(maps, _) ← build_parameter parameter_inventory maps id; mret maps) maps (blk_parameters block);
  fold (build_operation operation_inventory) maps (blk_operations block).

Definition Maps_build : M Maps :=
  maps ← fold (fun maps id =>
      '(maps, register) ← build_parameter parameter_inventory maps id;
      mret (mkMaps (mp_parameters maps) (mp_blocks maps) (mp_operations maps) (mp_register_types maps)
        (mp_function_parameters maps ++ [register])))
    (mkMaps ∅ ∅ ∅ [] []) (fg_parameters (li_function input));
  maps ← fold build_block maps (enumerate (fg_blocks (li_function input)));
  if (N.of_nat (size (mp_parameters maps)) =? len (li_parameters input)) &&
     (N.of_nat (size (mp_blocks maps)) =? len (li_blocks input)) &&
     (N.of_nat (size (mp_operations maps)) =? len (li_operations input))
  then mret maps else lift (lower_fail LeLocalReferenceInvalid).
End build.

Section maps.
Variable maps : Maps.

Definition register (value : ValueRef) : lowering Register :=
  match value with
  | VRParameter id => local_or (snd <$> mp_parameters maps !! id)
  | VROperationResult value =>
      local_or ('(_, results) ← mp_operations maps !! orr_operation value; results !! N.to_nat (orr_result_index value))
  end.

Definition value_type (value : ValueRef) : lowering TypeExpr :=
  register ← register value;
  local_or (mp_register_types maps !! N.to_nat register).

Definition block_slot (id : EntityId) : lowering BlockSlot := local_or (snd <$> mp_blocks maps !! id).

(** ** Judgement *)

Definition validate_operation (operation : Operation) : M unit :=
  expected_operands ← lift
    match op_opcode operation with
    | OpBoolNot => Ok 1
    | OpBoolAnd | OpBoolOr => Ok 2
    | _ => lower_fail LeOpcodeUnsupported
    end;
  if negb (bool_decide (op_immediate operation = ImmNone)) then lift (lower_fail LeImmediateMismatch)
  else if negb (len (op_operands operation) =? expected_operands) || negb (bool_decide (op_result_types operation = [TBool]))
  then lift (lower_fail LeSignatureMismatch)
  else
    each (fun operand =>
      found ← lift (value_type operand);
      if bool_decide (found = TBool) then charge 1 else lift (lower_fail LeSignatureMismatch)) (op_operands operation) ≫= fun _ =>
    charge 1.

(** The loop over the operations of every block *)
Definition for_operations (f : Operation -> M unit) (function : FunctionGraph) : M unit :=
  each (fun block_id =>
    '(block, _) ← lift (local_or (mp_blocks maps !! block_id));
    each (fun operation_id =>
      '(operation, _) ← lift (local_or (mp_operations maps !! operation_id));
      f operation) (blk_operations block)) (fg_blocks function).

Definition validate_operations (input : LoweringInput) : M unit := for_operations validate_operation (li_function input).

Definition judge_operation (context : LoweringContext) (operation : Operation) : M unit :=
  operand_types ← collect (fun operand =>
    found ← lift (value_type operand); charge 1 ≫= fun _ => mret found) (op_operands operation);
  lift (lower_code (judge_extended_operation context (op_opcode operation) (op_immediate operation) operand_types
    (op_result_types operation))) ≫= fun _ =>
  charge 1.
End maps.

(** The judgement reads the inventories of the request, not those of one function. *)
Definition judge_context (root : LoweringInput) (function : EntityId) : LoweringContext :=
  mkLoweringContext (li_types root) (li_constants root) (li_globals root) (li_functions root) (li_parameters root)
    (li_contracts root) (li_adapters root) function.

Definition judge_extended (input root : LoweringInput) (maps : Maps) : M unit :=
  lift (lower_code (check_result_type (fg_result_type (li_function input)))) ≫= fun _ =>
  for_operations maps (judge_operation maps (judge_context root (fg_entity_id (li_function input)))) (li_function input).

(** ** Emission *)

Section emit.
Variable maps : Maps.
#[local] Abbreviation register := (register maps).
#[local] Abbreviation block_slot := (block_slot maps).

Definition lower_edge (value : TargetEdge) : M BytecodeTargetEdge :=
  arguments ← lift (map_res register (te_arguments value));
  charge (len arguments) ≫= fun _ =>
  target ← lift (block_slot (te_target value));
  mret (mkBytecodeTargetEdge target arguments).

Definition lower_case (case : SwitchCase) : M BytecodeSwitchCase :=
  charge 1 ≫= fun _ =>
  arguments ← collect (fun argument =>
    charge 1 ≫= fun _ =>
    match argument with
    | SAValue value => register ← lift (register value); mret (BSAValue register)
    | SACasePayload => mret BSACasePayload
    end) (se_arguments (sc_edge case));
  target ← lift (block_slot (se_target (sc_edge case)));
  mret (mkBytecodeSwitchCase (sc_case_key case) (mkBytecodeSwitchEdge target arguments)).

Definition lower_terminator (value : Terminator) : M BytecodeTerminator :=
  charge 1 ≫= fun _ =>
  match value with
  | TermReturn value => register ← lift (register (ret_value value)); mret (BReturn register)
  | TermBranch value => edge ← lower_edge (br_edge value); mret (BBranch edge)
  | TermCondBranch value =>
      condition ← lift (register (cbr_condition value));
      if_true ← lower_edge (cbr_if_true value);
      if_false ← lower_edge (cbr_if_false value);
      mret (BCondBranch condition if_true if_false)
  | TermVariantSwitch value =>
      cases ← collect lower_case (vs_cases value);
      selected ← lift (register (vs_value value));
      mret (BVariantSwitch selected cases)
  | TermTrap value =>
      payload ← lift
        match trap_payload value with
        | None => Ok None
        | Some payload => register ← register payload; Ok (Some register)
        end;
      mret (BTrap (TrapCode_tag (trap_code value)) payload)
  end.

Definition emit_instruction (extended : bool) (id : EntityId) : M Instruction :=
  '(operation, results) ← lift (local_or (mp_operations maps !! id));
  operands ← lift (map_res register (op_operands operation));
  charge (len operands) ≫= fun _ =>
  mret (mkInstruction (Opcode_tag (op_opcode operation)) operands results
    (if extended then op_immediate operation else ImmNone)).

Definition emit_block (extended : bool) (id : EntityId) : M BytecodeBlock :=
  '(block, slot) ← lift (local_or (mp_blocks maps !! id));
  parameter_registers ← lift (map_res (fun id => local_or (snd <$> mp_parameters maps !! id)) (blk_parameters block));
  instructions ← collect (emit_instruction extended) (blk_operations block);
  terminator ← lower_terminator (blk_terminator block);
  mret (mkBytecodeBlock slot parameter_registers instructions terminator (Reachability_tag (blk_reachability block))).

Definition emit_function (input : LoweringInput) : M BytecodeFunction :=
  let function := li_function input in
  blocks ← collect (emit_block (is_extended (li_profile input))) (fg_blocks function);
  entry ← lift (block_slot (fg_entry_block function));
  mret (mkBytecodeFunction (fg_entity_id function) (mp_function_parameters maps) (mp_register_types maps)
    (fg_result_type function) entry blocks).
End emit.

(** ** Calls *)

(** The function an instruction enters: the callee of [call_direct] or the
    predicate of [contract_assert] *)
Definition called_by (contracts : list ContractDefinition) (instruction : Instruction) : option EntityId :=
  match in_immediate instruction with
  | ImmFunction reference =>
      if in_opcode instruction =? Opcode_tag OpCallDirect then Some (frv_function reference) else None
  | ImmEntity contract =>
      if in_opcode instruction =? Opcode_tag OpContractAssert
      then cd_predicate <$> find_first (fun candidate => cd_entity_id candidate =? contract) contracts
      else None
  | _ => None
  end.

Definition called_functions (contracts : list ContractDefinition) (bytecode : BytecodeFunction) : list EntityId :=
  omap (called_by contracts) (bf_blocks bytecode ≫= bb_instructions).

Definition has_declarations (graph : FunctionGraph) : bool :=
  negb (bool_decide (fg_type_parameters graph = [])) || negb (bool_decide (fg_effects graph = []))
  || negb (bool_decide (fg_contracts graph = [])).

Definition lower_callee (input : LoweringInput) (graph : FunctionGraph) : M BytecodeFunction :=
  let callee_input := narrow input graph in
  lift (lower_cfg (validate_function_graph (li_types callee_input) graph (li_parameters callee_input)
    (li_blocks callee_input) (li_operations callee_input))) ≫= fun _ =>
  if has_declarations graph then lift (lower_fail LeProfileUnsupported)
  else
    maps ← Maps_build callee_input;
    judge_extended callee_input input maps ≫= fun _ =>
    emit_function maps callee_input.

Definition find_function (functions : list FunctionGraph) (id : EntityId) : option FunctionGraph :=
  find_first (fun graph => fg_entity_id graph =? id) functions.

(** The worklist of [lower_callees]: [pending.pop()] takes the last element,
    here the first of the list.  [next_pending] is the turns that skip a function. *)
Fixpoint next_pending (entry : EntityId) (done : gmap N BytecodeFunction) (pending : list EntityId)
    : option (EntityId * list EntityId) :=
  match pending with
  | [] => None
  | function :: pending =>
      if (function =? entry) || bool_decide (is_Some (done !! function)) then next_pending entry done pending
      else Some (function, pending)
  end.

(** Every unit of fuel lowers another function of the request. *)
Fixpoint lower_pending (fuel : nat) (input : LoweringInput) (pending : list EntityId) (done : gmap N BytecodeFunction)
    : M (gmap N BytecodeFunction) :=
  match fuel, next_pending (fg_entity_id (li_function input)) done pending with
  | S fuel, Some (function, pending) =>
      graph ← lift (ok_or (LowerCode LeImmediateMismatch) (find_function (li_functions input) function));
      bytecode ← lower_callee input graph;
      lower_pending fuel input (reverse (called_functions (li_contracts input) bytecode) ++ pending)
        (<[function := bytecode]> done)
  | _, _ => mret done
  end.

Definition lower_callees (input : LoweringInput) (entry : BytecodeFunction) : M (list BytecodeFunction) :=
  done ← lower_pending (S (length (li_functions input))) input (reverse (called_functions (li_contracts input) entry)) ∅;
  mret (btree_values done).

(** ** The entry points *)

Definition judge_function_operations (root : LoweringInput) : lowering OperationJudgment :=
  if negb (is_extended (li_profile root)) then lower_fail LeProfileUnsupported
  else
    let input := narrow root (li_function root) in
    work ← preflight_resources input;
    '(maps, work) ← Maps_build input work;
    '(_, work) ← judge_extended input root maps work;
    lower_code (require_canonical_referenced_constants (li_operations input) (li_constants input) (li_globals input)) ≫= fun _ =>
    Ok (mkOperationJudgment (len (li_operations input)) work).

Section lower.
Variable blake3 : bytes -> bytes.

Definition lower_function (root : LoweringInput) : lowering LoweredFunction :=
  let extended := is_extended (li_profile root) in
  let input := if extended then narrow root (li_function root) else root in
  lower_cfg (validate_function_graph (li_types input) (li_function input) (li_parameters input) (li_blocks input)
    (li_operations input)) ≫= fun _ =>
  cache_key ← lower_code (derive_cache_key blake3 (li_schema_epoch input) (li_state_root input)
    (fg_entity_id (li_function input)) (li_profile input));
  if has_declarations (li_function input) then lower_fail LeProfileUnsupported
  else
    work ← preflight_resources input;
    '(maps, work) ← Maps_build input work;
    '(_, work) ← (if extended then judge_extended input root maps else validate_operations maps input) work;
    lower_code (require_canonical_referenced_constants (li_operations input) (li_constants input) (li_globals input)) ≫= fun _ =>
    '(bytecode, work) ← emit_function maps input work;
    '(callees, work) ← (if extended then lower_callees root bytecode else mret []) work;
    encoded ← lower_code (Bytecode.encode_function extended bytecode callees);
    Ok (mkLoweredFunction bytecode encoded cache_key work callees).
End lower.

(** ** Lemmas on budgeted computations *)

Lemma charge_Ok amount work u work' :
  charge amount work = Ok (u, work') <-> work' = work + amount /\ work' <= MAX_LOWERING_WORK.
Proof.
  unfold charge, resource_or. rewrite bind_Ok. setoid_rewrite ok_or_Ok. setoid_rewrite checked_add_Some.
  destruct u. split.
  - intros (w & [-> _] & H). destruct (N.ltb_spec MAX_LOWERING_WORK (work + amount)); [done|].
    injection H as <-. split; [done|lia].
  - intros [-> H]. exists (work + amount). unfold MAX_LOWERING_WORK, U64_LIMIT in *. split; [lia|].
    destruct (N.ltb_spec 100000000 (work + amount)); [lia|done].
Qed.

Lemma lower_code_Ok {A} (m : lower_result A) a : lower_code m = Ok a <-> m = Ok a.
Proof. destruct m; cbn; split; congruence. Qed.
Lemma lower_cfg_Ok {A} (m : cfg_out A) a : lower_cfg m = Ok a <-> m = Ok a.
Proof. destruct m; cbn; split; congruence. Qed.

(** [inv_returns] opens the hypotheses [m ⇓ a]. *)
Ltac inv_returns :=
  repeat (progress simplify_eq/= || match goal with
  | H : mret _ ⇓ _ |- _ => apply returns_ret in H
  | H : lift _ ⇓ _ |- _ => apply returns_lift in H
  | H : (_ ≫= _) ⇓ _ |- _ => apply returns_bind in H as (? & ? & ?)
  | H : each _ _ ⇓ _ |- _ => apply returns_each in H
  | H : collect _ _ ⇓ _ |- _ => apply returns_collect in H
  | H : charge _ ⇓ _ |- _ => clear H
  | H : lower_code _ = Ok _ |- _ => apply lower_code_Ok in H
  | H : lower_cfg _ = Ok _ |- _ => apply lower_cfg_Ok in H
  | H : local_or _ = Ok _ |- _ => apply ok_or_Ok in H
  | x : _ * _ |- _ => destruct x
  | x : unit |- _ => destruct x
  end).

(** *** The budget is kept *)

Definition budgeted {A} (m : M A) : Prop :=
  forall work a work', work <= MAX_LOWERING_WORK -> m work = Ok (a, work') -> work <= work' <= MAX_LOWERING_WORK.

Lemma budgeted_ret {A} (a : A) : budgeted (mret a).
Proof. intros w b w' ? [= _ <-]. lia. Qed.
Lemma budgeted_lift {A} (m : lowering A) : budgeted (lift m).
Proof. intros w b w' ? [_ ->]%lift_Ok. lia. Qed.
Lemma budgeted_charge amount : budgeted (charge amount).
Proof. intros w b w' ? [-> ?]%charge_Ok. lia. Qed.
Lemma budgeted_bind {A B} (m : M A) (k : A -> M B) : budgeted m -> (forall a, budgeted (k a)) -> budgeted (m ≫= k).
Proof.
  intros Hm Hk w b w'' Hw (a & w' & H & H')%ST_bind_Ok. apply Hm in H; [|done]. apply Hk in H'; lia.
Qed.

Lemma budgeted_each {A} (f : A -> M unit) l : (forall x, budgeted (f x)) -> budgeted (each f l).
Proof. intros Hf. induction l; [apply budgeted_ret|]. by apply budgeted_bind. Qed.
Lemma budgeted_collect {A B} (f : A -> M B) l : (forall x, budgeted (f x)) -> budgeted (collect f l).
Proof. intros Hf. induction l; [apply budgeted_ret|]. do 2 (apply budgeted_bind; [done|intros]). apply budgeted_ret. Qed.
Lemma budgeted_fold {A B} (f : B -> A -> M B) b l : (forall b x, budgeted (f b x)) -> budgeted (fold f b l).
Proof. intros Hf. revert b. induction l; intros b; [apply budgeted_ret|]. by apply budgeted_bind. Qed.

Create HintDb budget discriminated.
#[export] Hint Resolve budgeted_ret budgeted_lift budgeted_charge : budget.
#[export] Hint Extern 1 (budgeted (_ ≫= _)) => apply budgeted_bind; [|intros ?; cbv beta] : budget.
#[export] Hint Extern 1 (budgeted (each _ _)) => apply budgeted_each; intros ?; cbv beta : budget.
#[export] Hint Extern 1 (budgeted (collect _ _)) => apply budgeted_collect; intros ?; cbv beta : budget.
#[export] Hint Extern 1 (budgeted (fold _ _ _)) => apply budgeted_fold; intros ? ?; cbv beta : budget.
#[export] Hint Extern 2 (budgeted (match ?x with _ => _ end)) => destruct x : budget.
#[export] Hint Extern 2 (budgeted ((match ?x with _ => _ end) _)) => destruct x; cbv beta : budget.
Ltac budget := eauto 100 with budget.

Lemma budgeted_allocate types t : budgeted (allocate_register types t).
Proof. unfold allocate_register. budget. Qed.
#[export] Hint Resolve budgeted_allocate : budget.

Lemma budgeted_build input : budgeted (Maps_build input).
Proof. unfold Maps_build, build_block, build_operation, build_parameter. budget. Qed.

Lemma budgeted_judge input root maps : budgeted (judge_extended input root maps).
Proof. unfold judge_extended, for_operations, judge_operation. budget. Qed.

Lemma budgeted_validate maps input : budgeted (validate_operations maps input).
Proof. unfold validate_operations, for_operations, validate_operation. budget. Qed.

Lemma budgeted_emit maps input : budgeted (emit_function maps input).
Proof. unfold emit_function, emit_block, emit_instruction, lower_terminator, lower_case, lower_edge. budget. Qed.
#[export] Hint Resolve budgeted_build budgeted_judge budgeted_validate budgeted_emit : budget.

Lemma budgeted_callee input graph : budgeted (lower_callee input graph).
Proof. unfold lower_callee. budget. Qed.
#[export] Hint Resolve budgeted_callee : budget.

Lemma budgeted_callees input entry : budgeted (lower_callees input entry).
Proof.
  unfold lower_callees. apply budgeted_bind; [|budget].
  generalize (reverse (called_functions (li_contracts input) entry)), (∅ : gmap N BytecodeFunction).
  generalize (S (length (li_functions input))). intros fuel. induction fuel as [|fuel IH]; intros pending done; cbn; [budget|].
  destruct (next_pending _ _ _) as [[]|]; budget.
Qed.
#[export] Hint Resolve budgeted_callees : budget.

Lemma preflight_Ok input work : preflight_resources input = Ok work -> work <= MAX_LOWERING_WORK.
Proof.
  unfold preflight_resources. destruct (_ || _); [done|]. intros (registers & _ & H)%bind_Ok.
  destruct (_ <? _); [done|]. apply bind_Ok in H as (w & _ & H).
  destruct (N.ltb_spec MAX_LOWERING_WORK w); [done|]. by injection H as <-.
Qed.
