(* ===== verification/VmLowering.v ===== *)
(** * The virtual machine: what lowering emits

    The numbering gives every value of the function a register of its own, of
    the value's type; the bytecode is the function with its values and blocks
    replaced by their numbers, and every operation of it was judged on the types
    of its registers. *)

From S2P Require Import Prelude State Bytes Ids BTree Ssmc Types CfgGraph Cfg CfgSafety VmJudge VmExec VmBytecode VmLower.
Set Warnings "-register-all".

Open Scope N_scope.

Lemma inventory_Some {T} (id : T -> EntityId) l k x : inventory id l !! k = Some x -> x ∈ l /\ id x = k.
Proof.
  unfold inventory. enough (forall m, foldl (fun m value => <[id value := value]> m) m l !! k = Some x ->
    m !! k = Some x \/ x ∈ l /\ id x = k) as H by (intros Hk; by apply H in Hk as [Hk|]; [by rewrite lookup_empty in Hk|]).
  induction l as [|y l IH]; intros m H; cbn in H; [by left|]. apply IH in H as [H|[? ?]]; [|right; split; [by right|done]].
  apply lookup_insert_Some in H as [[<- ->]|[_ H]]; [right; split; [by left|done]|by left].
Qed.

(** ** The numbering *)

Section maps.
Variable input : LoweringInput.

Record maps_ok (m : Maps) : Prop := {
  mo_parameter : forall id p r, mp_parameters m !! id = Some (p, r) ->
    p ∈ li_parameters input /\ prm_entity_id p = id /\ mp_register_types m !! N.to_nat r = Some (prm_value_type p);
  mo_operation : forall id o rs, mp_operations m !! id = Some (o, rs) ->
    o ∈ li_operations input /\ op_entity_id o = id /\
    Forall2 (fun r t => mp_register_types m !! N.to_nat r = Some t) rs (op_result_types o);
  mo_block : forall id b slot, mp_blocks m !! id = Some (b, slot) ->
    b ∈ li_blocks input /\ blk_entity_id b = id /\ fg_blocks (li_function input) !! N.to_nat slot = Some id;
  mo_injective : forall v v' r, register m v = Ok r -> register m v' = Ok r -> v = v';
  mo_length : len (mp_register_types m) <= MAX_REGISTERS
}.

Lemma register_has_type m v r : maps_ok m -> register m v = Ok r ->
  exists t, mp_register_types m !! N.to_nat r = Some t.
Proof using.
  intros Hm H. destruct v as [id|[id index]]; cbn in H; apply ok_or_Ok in H.
  - apply fmap_Some in H as ([p r'] & H & ->). apply (mo_parameter _ Hm) in H as (_ & _ & H). by eexists.
  - apply bind_Some in H as ([o rs] & H & Hr). apply (mo_operation _ Hm) in H as (_ & _ & H).
    destruct (Forall2_lookup_l _ _ _ _ _ H Hr) as (t & _ & Ht). by exists t.
Qed.

Lemma register_lt m v r : maps_ok m -> register m v = Ok r -> r < len (mp_register_types m).
Proof using. intros Hm [t Ht%lookup_lt_Some]%register_has_type; [|done]. unfold len. lia. Qed.

Lemma allocate_returns types t types' r :
  allocate_register types t ⇓ (types', r) -> types' = types ++ [t] /\ r = len types /\ len types' <= MAX_REGISTERS.
Proof using.
  unfold allocate_register. destruct (N.leb_spec MAX_REGISTERS (len types)) as [Hl|Hl]; intros Hr; inv_returns.
  unfold u32_index in *. destruct (_ <? _); [|done]. simplify_eq. autorewrite with sley_rw. split_and!; [done..|lia].
Qed.

(** Fresh registers for a list of types *)
Definition fresh (types : list TypeExpr) (n : nat) : list Register := (fun i => len types + N.of_nat i) <$> seq 0 n.

Lemma fresh_S types t n : fresh types (S n) = len types :: fresh (types ++ [t]) n.
Proof using.
  unfold fresh. cbn [seq fmap list_fmap]. f_equal; [lia|]. rewrite <- seq_shift, <- list_fmap_compose.
  apply list_fmap_ext. intros i j _. cbn. rewrite len_app, len_cons, len_nil. lia.
Qed.

Lemma fresh_lookup types n i r : fresh types n !! i = Some r <-> r = len types + N.of_nat i /\ (i < n)%nat.
Proof using.
  unfold fresh. rewrite list_lookup_fmap. destruct (decide (i < n)%nat) as [Hi|Hi].
  - rewrite lookup_seq_lt by done. cbn. split; [intros [= <-]|intros [-> _]]; done.
  - rewrite lookup_seq_ge by lia. split; [done|]. intros [_ ?]. lia.
Qed.

Lemma fresh_typed types ts :
  Forall2 (fun r t => (types ++ ts) !! N.to_nat r = Some t) (fresh types (length ts)) ts.
Proof using.
  apply Forall2_same_length_lookup_2; [by unfold fresh; rewrite length_fmap, length_seq|].
  intros i r t [-> Hi]%fresh_lookup Ht. rewrite lookup_app_r by (unfold len; lia). rewrite <- Ht. f_equal. unfold len. lia.
Qed.

Lemma allocate_all ts types acc types' rs :
  len types <= MAX_REGISTERS ->
  fold (fun '(types, results) result_type =>
      '(types, register) ← allocate_register types result_type; mret (types, results ++ [register]))
    (types, acc) ts ⇓ (types', rs) ->
  types' = types ++ ts /\ rs = acc ++ fresh types (length ts) /\ len types' <= MAX_REGISTERS.
Proof using.
  revert types acc. induction ts as [|t ts IH]; intros types acc Hl H; cbn [fold] in H.
  - inv_returns. by rewrite !app_nil_r.
  - apply returns_bind in H as ([types1 acc1] & H1 & H). apply returns_bind in H1 as ([types2 r] & H1 & H2).
    apply allocate_returns in H1 as (-> & -> & Hl'). inv_returns.
    apply IH in H as (-> & -> & ?); [|done]. cbn [length]. rewrite (fresh_S _ t). by split_and!; [rewrite <- app_assoc|rewrite <- app_assoc|].
Qed.

Lemma typed_app {types more r} {t : TypeExpr} : types !! N.to_nat r = Some t -> (types ++ more) !! N.to_nat r = Some t.
Proof using. by apply lookup_app_l_Some. Qed.

Lemma typed_app_all types more rs (ts : list TypeExpr) :
  Forall2 (fun r t => types !! N.to_nat r = Some t) rs ts ->
  Forall2 (fun r t => (types ++ more) !! N.to_nat r = Some t) rs ts.
Proof using. intros H. eapply Forall2_impl; [exact H|]. intros r t. apply typed_app. Qed.

(** *** Adding a value *)

Lemma register_insert_parameter m id p r types fps v :
  register (mkMaps (<[id := (p, r)]> (mp_parameters m)) (mp_blocks m) (mp_operations m) types fps) v =
  if bool_decide (v = VRParameter id) then Ok r else register m v.
Proof using.
  destruct v as [id'|]; cbn; [|done]. case_bool_decide as E; [injection E as ->|].
  - by rewrite lookup_insert_eq.
  - rewrite lookup_insert_ne by congruence. done.
Qed.

Lemma add_parameter m id p types :
  maps_ok m -> p ∈ li_parameters input -> prm_entity_id p = id ->
  types = mp_register_types m ++ [prm_value_type p] -> len types <= MAX_REGISTERS ->
  maps_ok (mkMaps (<[id := (p, len (mp_register_types m))]> (mp_parameters m)) (mp_blocks m) (mp_operations m) types
    (mp_function_parameters m)).
Proof using.
  intros Hm Hp Hid -> Hl. split; cbn.
  - intros id' p' r [[<- [= <- <-]]|[_ H]]%lookup_insert_Some.
    + split_and!; [done..|]. rewrite lookup_app_r by (unfold len; lia). unfold len. by rewrite Nat2N.id, Nat.sub_diag.
    + apply (mo_parameter _ Hm) in H as (? & ? & ?). split_and!; [done..|]. by apply typed_app.
  - intros id' o rs (? & ? & ?)%(mo_operation _ Hm). split_and!; [done..|]. by apply typed_app_all.
  - apply (mo_block _ Hm).
  - intros v v' r. rewrite !register_insert_parameter. repeat case_bool_decide; subst; try done.
    + intros [= <-] Hlt%(register_lt _ _ _ Hm). lia.
    + intros Hlt [= <-]. apply (register_lt _ _ _ Hm) in Hlt. lia.
    + apply (mo_injective _ Hm).
  - done.
Qed.

Lemma add_operation m id o types :
  maps_ok m -> o ∈ li_operations input -> op_entity_id o = id ->
  types = mp_register_types m ++ op_result_types o -> len types <= MAX_REGISTERS ->
  maps_ok (mkMaps (mp_parameters m) (mp_blocks m)
    (<[id := (o, fresh (mp_register_types m) (length (op_result_types o)))]> (mp_operations m)) types
    (mp_function_parameters m)).
Proof using.
  intros Hm Ho Hid -> Hl. split; cbn.
  - intros id' p r (? & ? & ?)%(mo_parameter _ Hm). split_and!; [done..|]. by apply typed_app.
  - intros id' o' rs [[<- [= <- <-]]|[_ H]]%lookup_insert_Some.
    + split_and!; [done..|]. apply fresh_typed.
    + apply (mo_operation _ Hm) in H as (? & ? & ?). split_and!; [done..|]. by apply typed_app_all.
  - apply (mo_block _ Hm).
  - assert (forall v r, register (mkMaps (mp_parameters m) (mp_blocks m)
        (<[id := (o, fresh (mp_register_types m) (length (op_result_types o)))]> (mp_operations m))
        (mp_register_types m ++ op_result_types o) (mp_function_parameters m)) v = Ok r ->
      (exists index, v = VROperationResult (mkOperationResultRef id index) /\ r = len (mp_register_types m) + index)
      \/ register m v = Ok r) as Hr.
    { intros [id'|[id' index]] r H; [by right|]. cbn in H. apply ok_or_Ok, bind_Some in H as ([o' rs] & H & Hi).
      apply lookup_insert_Some in H as [[<- [= <- <-]]|[_ H]].
      - apply fresh_lookup in Hi as [-> _]. left. exists index. split; [done|]. by rewrite N2Nat.id.
      - right. cbn. by rewrite H, <- (ok_or_Ok (LowerCode LeLocalReferenceInvalid)) in *. }
    intros v v' r [(i & -> & Ei)|Hv]%Hr [(i' & -> & Ei')|Hv']%Hr.
    + do 2 f_equal. lia.
    + apply (register_lt _ _ _ Hm) in Hv'. lia.
    + apply (register_lt _ _ _ Hm) in Hv. lia.
    + by eapply mo_injective.
  - done.
Qed.
End maps.

(** *** The loops *)

Definition same_except (P : EntityId -> Prop) (m m' : Maps) : Prop :=
  (forall id, ~ P id -> mp_parameters m' !! id = mp_parameters m !! id) /\
  mp_function_parameters m' = mp_function_parameters m.

Lemma same_except_refl P m : same_except P m m.
Proof. done. Qed.
Lemma same_except_trans P m m' m'' : same_except P m m' -> same_except P m' m'' -> same_except P m m''.
Proof. intros [H1 H2] [H3 H4]. split; [|congruence]. intros id Hid. by rewrite H3, H1. Qed.

Section build.
Variable input : LoweringInput.
#[local] Abbreviation maps_ok := (maps_ok input).

Lemma build_parameter_returns m id m' r :
  maps_ok m -> build_parameter (inventory prm_entity_id (li_parameters input)) m id ⇓ (m', r) ->
  maps_ok m' /\ (exists p, mp_parameters m' = <[id := (p, r)]> (mp_parameters m)) /\
  mp_function_parameters m' = mp_function_parameters m.
Proof using.
  intros Hm H. unfold build_parameter in H. inv_returns.
  match goal with H : allocate_register _ _ ⇓ _ |- _ => apply allocate_returns in H as (? & ? & ?) end. inv_returns.
  match goal with H : inventory _ _ !! _ = Some _ |- _ => apply inventory_Some in H as [? ?] end.
  split_and!; [by apply add_parameter|by eexists|done].
Qed.

Lemma build_operation_returns m id m' :
  maps_ok m -> build_operation (inventory op_entity_id (li_operations input)) m id ⇓ m' ->
  maps_ok m' /\ same_except (fun _ => False) m m'.
Proof using.
  intros Hm H. unfold build_operation in H. inv_returns.
  match goal with H : fold _ _ _ ⇓ _ |- _ => apply allocate_all in H as (? & ? & ?); [|apply Hm] end. inv_returns.
  match goal with H : inventory _ _ !! _ = Some _ |- _ => apply inventory_Some in H as [? ?] end.
  split; [by apply add_operation|done].
Qed.

(** A block's own parameters are the only ones it adds. *)
Lemma build_block_returns m slot id m' :
  maps_ok m -> fg_blocks (li_function input) !! N.to_nat slot = Some id -> build_block input m (slot, id) ⇓ m' ->
  maps_ok m' /\ same_except (fun p => exists b, b ∈ li_blocks input /\ p ∈ blk_parameters b) m m'.
Proof using.
  intros Hm Hslot H. unfold build_block in H. cbv zeta in H. inv_returns. unfold u32_index in *.
  destruct (_ <? _); [|done]. inv_returns.
  match goal with H : inventory _ _ !! _ = Some ?b |- _ => apply inventory_Some in H as [Hb Hid]; rename b into block end.
  set (P := fun p => exists b, b ∈ li_blocks input /\ p ∈ blk_parameters b).
  match goal with H : fold (build_operation _) ?m1 _ ⇓ _, H' : fold _ ?m0 _ ⇓ _ |- _ =>
    rename m1 into middle; rename H' into Hps; rename H into Hos; set (start := m0) in * end.
  assert (maps_ok start) as Hstart.
  { split; cbn; try apply Hm. intros id' b s [[<- [= <- <-]]|[_ Hold]]%lookup_insert_Some; [done|by apply (mo_block _ _ Hm)]. }
  assert (maps_ok middle /\ same_except P m middle) as [Hmiddle Hsame].
  { assert (forall l, (forall p, p ∈ l -> P p) -> forall m0 m1, maps_ok m0 -> same_except P m m0 ->
      fold (fun maps id => '(maps, _) ← build_parameter (inventory prm_entity_id (li_parameters input)) maps id; mret maps) m0 l ⇓ m1 ->
      maps_ok m1 /\ same_except P m m1) as Hl.
    { clear. intros l Hl. induction l as [|p l IH]; intros m0 m1 H0 H1 H; cbn [fold] in H; [by inv_returns|].
      apply returns_bind in H as (m2 & H2 & H). inv_returns.
      match goal with H : build_parameter _ _ _ ⇓ _ |- _ => apply build_parameter_returns in H as (Hm2 & [q Hq] & Hf); [|done] end.
      eapply IH; [|exact Hm2| |exact H]; [intros; apply Hl; by right|].
      eapply same_except_trans; [exact H1|]. split; [|done]. intros id Hid. rewrite Hq, lookup_insert_ne; [done|].
      intros <-. apply Hid, Hl. by left. }
    eapply (Hl (blk_parameters block)); [|exact Hstart|done|exact Hps]. intros p Hp. by exists block. }
  revert Hmiddle Hsame Hos. generalize middle. induction (blk_operations block) as [|o l IH]; intros m1 H1 H2 H; cbn [fold] in H.
  - by inv_returns.
  - apply returns_bind in H as (m2 & H3 & H). apply build_operation_returns in H3 as [H3 [H4 H5]]; [|done].
    eapply IH; [exact H3| |exact H]. eapply same_except_trans; [exact H2|]. split; [|done]. intros p _. apply H4; tauto.
Qed.

Definition numbered (m : Maps) (id : EntityId) (r : Register) : Prop := exists p, mp_parameters m !! id = Some (p, r).

Hypothesis Hnodup : NoDup (fg_parameters (li_function input)).
Hypothesis Hdisjoint : forall b id, b ∈ li_blocks input -> id ∈ blk_parameters b -> id ∉ fg_parameters (li_function input).

Lemma build_function_parameters l m m' :
  NoDup l -> maps_ok m -> (forall id r, numbered m id r -> id ∉ l) ->
  fold (fun maps id =>
      '(maps, register) ← build_parameter (inventory prm_entity_id (li_parameters input)) maps id;
      mret (mkMaps (mp_parameters maps) (mp_blocks maps) (mp_operations maps) (mp_register_types maps)
        (mp_function_parameters maps ++ [register]))) m l ⇓ m' ->
  maps_ok m' /\ (forall id r, numbered m id r -> numbered m' id r) /\
  exists rs, mp_function_parameters m' = mp_function_parameters m ++ rs /\ Forall2 (numbered m') l rs.
Proof using.
  revert m. induction l as [|id l IH]; intros m Hn Hm Hfresh H; cbn [fold] in H.
  - inv_returns. split_and!; [done..|]. exists []. by rewrite app_nil_r.
  - apply NoDup_cons in Hn as [Hid Hn]. apply returns_bind in H as (m2 & H2 & H). inv_returns.
    match goal with H : build_parameter _ _ _ ⇓ (?m, ?r) |- _ =>
      apply build_parameter_returns in H as (Hm2 & [q Hq] & Hf); [|done]; rename m into m1; rename r into r1 end.
    apply IH in H as (H1 & Hkeep & rs & Hrs & Hall); [|done| |].
    + split_and!; [done| |].
      * intros id' r' [p Hp]. apply Hkeep. exists p. cbn. rewrite Hq, lookup_insert_ne; [done|]. intros <-.
        apply (Hfresh id r'); [by exists p|left].
      * exists (r1 :: rs). cbn in Hrs. rewrite Hrs, Hf, <- app_assoc. split; [done|]. constructor; [|done].
        apply Hkeep. exists q. cbn. by rewrite Hq, lookup_insert_eq.
    + destruct Hm2. by split.
    + intros id' r' [p Hp]. cbn in Hp. rewrite Hq in Hp. apply lookup_insert_Some in Hp as [[<- _]|[Hne Hp]]; [done|].
      intros Hin. apply (Hfresh id' r'); [by exists p|by right].
Qed.

Lemma build_returns m :
  Maps_build input ⇓ m ->
  maps_ok m /\ Forall2 (numbered m) (fg_parameters (li_function input)) (mp_function_parameters m).
Proof using Hnodup Hdisjoint.
  intros H. unfold Maps_build in H. apply returns_bind in H as (m1 & H1 & H). apply returns_bind in H as (m2 & H2 & H).
  destruct (_ && _); [|by inv_returns]. inv_returns.
  apply build_function_parameters in H1 as (Hm1 & _ & rs & Hrs & Hall); [|done| |].
  2:{ split; cbn; try done; try (intros ? ? ? Hl; by rewrite lookup_empty in Hl).
      intros [id|[id i]] v' r Hl; cbn in Hl; by rewrite lookup_empty in Hl. }
  2:{ intros id r [p Hp]. cbn in Hp. by rewrite lookup_empty in Hp. }
  cbn in Hrs. subst rs.
  enough (maps_ok m /\ same_except (fun p => exists b, b ∈ li_blocks input /\ p ∈ blk_parameters b) m1 m) as [Hm [Hsame Hfp]].
  { split; [done|]. rewrite Hfp. apply Forall2_same_length_lookup_2; [by eapply Forall2_length|]. intros i id r Hi Hr.
    destruct (Forall2_lookup_lr _ _ _ _ _ _ Hall Hi Hr) as [p Hp]. exists p. rewrite Hsame; [done|].
    intros (b & Hb & Hin). eapply Hdisjoint; [exact Hb|exact Hin|by eapply list_elem_of_lookup_2]. }
  assert (forall s id, (s, id) ∈ enumerate (fg_blocks (li_function input)) -> fg_blocks (li_function input) !! N.to_nat s = Some id) as Hslots
    by (intros s id; apply elem_of_enumerate).
  revert Hm1 H2 Hslots. generalize (same_except_refl (fun p => exists b, b ∈ li_blocks input /\ p ∈ blk_parameters b) m1).
  generalize m1 at 2 3 4. induction (enumerate _) as [|[s id] l IH]; intros m0 Hs Hm H Hslots; cbn [fold] in H.
  - inv_returns. done.
  - apply returns_bind in H as (m2 & H2 & H). apply build_block_returns in H2 as [H3 H4]; [|done|apply Hslots; left].
    eapply IH; [|exact H3|exact H|intros; apply Hslots; by right]. by eapply same_except_trans.
Qed.
End build.

(** ** Emission

    The bytecode is the function, values replaced by their registers and blocks
    by their slots. *)

Section emitted.
Variable m : Maps.
Variable extended : bool.

Definition refers (v : ValueRef) (r : Register) : Prop := register m v = Ok r.
Definition slot_of (id : EntityId) (slot : BlockSlot) : Prop := exists b, mp_blocks m !! id = Some (b, slot).

Definition emitted_instruction (id : EntityId) (i : Instruction) : Prop :=
  exists o, mp_operations m !! id = Some (o, in_results i) /\
    in_opcode i = Opcode_tag (op_opcode o) /\ in_immediate i = (if extended then op_immediate o else ImmNone) /\
    Forall2 refers (op_operands o) (in_operands i).

Definition emitted_edge (e : TargetEdge) (b : BytecodeTargetEdge) : Prop :=
  Forall2 refers (te_arguments e) (bte_arguments b) /\ slot_of (te_target e) (bte_target b).

Definition emitted_argument (a : SwitchArgument) (b : BytecodeSwitchArgument) : Prop :=
  match a, b with
  | SAValue v, BSAValue r => refers v r
  | SACasePayload, BSACasePayload => True
  | _, _ => False
  end.

Definition emitted_case (c : SwitchCase) (b : BytecodeSwitchCase) : Prop :=
  sc_case_key c = bsc_case_key b /\
  Forall2 emitted_argument (se_arguments (sc_edge c)) (bse_arguments (bsc_edge b)) /\
  slot_of (se_target (sc_edge c)) (bse_target (bsc_edge b)).

Definition emitted_terminator (t : Terminator) (b : BytecodeTerminator) : Prop :=
  match t, b with
  | TermReturn v, BReturn r => refers (ret_value v) r
  | TermBranch e, BBranch b => emitted_edge (br_edge e) b
  | TermCondBranch c, BCondBranch r b1 b2 =>
      refers (cbr_condition c) r /\ emitted_edge (cbr_if_true c) b1 /\ emitted_edge (cbr_if_false c) b2
  | TermVariantSwitch s, BVariantSwitch r cases =>
      refers (vs_value s) r /\ Forall2 emitted_case (vs_cases s) cases
  | TermTrap t, BTrap code payload =>
      code = TrapCode_tag (trap_code t) /\
      match trap_payload t, payload with
      | None, None => True
      | Some v, Some r => refers v r
      | _, _ => False
      end
  | _, _ => False
  end.

Definition emitted_block (id : EntityId) (bb : BytecodeBlock) : Prop :=
  exists b, mp_blocks m !! id = Some (b, bb_slot bb) /\
    Forall2 (numbered m) (blk_parameters b) (bb_parameter_registers bb) /\
    Forall2 emitted_instruction (blk_operations b) (bb_instructions bb) /\
    emitted_terminator (blk_terminator b) (bb_terminator bb).

Record emitted (function : FunctionGraph) (bc : BytecodeFunction) : Prop := {
  em_function : bf_function bc = fg_entity_id function;
  em_parameters : bf_parameter_registers bc = mp_function_parameters m;
  em_types : bf_register_types bc = mp_register_types m;
  em_result : bf_result_type bc = fg_result_type function;
  em_entry : slot_of (fg_entry_block function) (bf_entry_block bc);
  em_blocks : Forall2 emitted_block (fg_blocks function) (bf_blocks bc)
}.

Lemma block_slot_Ok id slot : block_slot m id = Ok slot -> slot_of id slot.
Proof using. intros H. apply ok_or_Ok, fmap_Some in H as ([b s] & H & ->). by exists b. Qed.

Lemma lower_edge_returns e b : lower_edge m e ⇓ b -> emitted_edge e b.
Proof using.
  intros H. unfold lower_edge in H. inv_returns. split; [by apply map_res_Ok|by apply block_slot_Ok].
Qed.

Lemma lower_case_returns c b : lower_case m c ⇓ b -> emitted_case c b.
Proof using.
  intros H. unfold lower_case in H. inv_returns. split_and!; [done| |by apply block_slot_Ok]. cbn.
  match goal with H : Forall2 _ _ _ |- _ => eapply Forall2_impl; [exact H|] end.
  intros a r Ha. cbv beta in Ha. destruct a; inv_returns; done.
Qed.

Lemma lower_terminator_returns t b : lower_terminator m t ⇓ b -> emitted_terminator t b.
Proof using.
  intros H. unfold lower_terminator in H. apply returns_bind in H as (u & _ & H). destruct t; inv_returns.
  - done.
  - by apply lower_edge_returns.
  - split_and!; [done|by apply lower_edge_returns..].
  - split; [done|]. eapply Forall2_impl; [done|]. apply lower_case_returns.
  - split; [done|]. destruct (trap_payload _); [|by simplify_res]. by simplify_res.
Qed.

Lemma emit_instruction_returns id i : emit_instruction m extended id ⇓ i -> emitted_instruction id i.
Proof using.
  intros H. unfold emit_instruction in H. inv_returns. eexists. split_and!; [done..|]. by apply map_res_Ok.
Qed.

Lemma emit_block_returns id bb : emit_block m extended id ⇓ bb -> emitted_block id bb.
Proof using.
  intros H. unfold emit_block in H. inv_returns. eexists. split_and!; [done|..]; cbn.
  - match goal with H : map_res _ _ = _ |- _ => apply map_res_Ok in H; eapply Forall2_impl; [exact H|] end.
    intros p r Hp. cbv beta in Hp. apply ok_or_Ok, fmap_Some in Hp as ([q r'] & Hp & ->). by exists q.
  - eapply Forall2_impl; [done|]. apply emit_instruction_returns.
  - by apply lower_terminator_returns.
Qed.
End emitted.

Lemma emit_returns m input bc :
  emit_function m input ⇓ bc -> emitted m (is_extended (li_profile input)) (li_function input) bc.
Proof.
  intros H. unfold emit_function in H. cbv zeta in H. inv_returns. split; cbn; try done.
  - by apply block_slot_Ok.
  - eapply Forall2_impl; [done|]. apply emit_block_returns.
Qed.

(** ** Judgement *)

(** Every operation of every block *)
Definition operation_in (m : Maps) (function : FunctionGraph) (o : Operation) : Prop :=
  exists bid b slot id rs, bid ∈ fg_blocks function /\ mp_blocks m !! bid = Some (b, slot) /\
    id ∈ blk_operations b /\ mp_operations m !! id = Some (o, rs).

Definition judged (c : LoweringContext) (m : Maps) (o : Operation) : Prop :=
  exists ts t, Forall2 (fun v t => value_type m v = Ok t) (op_operands o) ts /\
    judge_extended_operation c (op_opcode o) (op_immediate o) ts (op_result_types o) = Ok t.

Lemma for_operations_returns m f function u :
  for_operations m f function ⇓ u -> forall o, operation_in m function o -> f o ⇓ tt.
Proof.
  intros H o (bid & b & slot & id & rs & Hbid & Hb & Hid & Ho). unfold for_operations in H. inv_returns.
  rewrite Forall_forall in H. specialize (H _ Hbid). cbv beta in H. rewrite Hb in H. cbn in H. inv_returns.
  match goal with H : Forall _ _ |- _ => rewrite Forall_forall in H; specialize (H _ Hid); cbv beta in H; rewrite Ho in H end.
  by inv_returns.
Qed.

Lemma judge_returns input root m u :
  judge_extended input root m ⇓ u ->
  check_result_type (fg_result_type (li_function input)) = Ok tt /\
  forall o, operation_in m (li_function input) o ->
    judged (judge_context root (fg_entity_id (li_function input))) m o.
Proof.
  intros H. unfold judge_extended in H. apply returns_bind in H as ([] & Hr & H). inv_returns. split; [done|].
  intros o Ho. eapply for_operations_returns in H; [|exact Ho]. unfold judge_operation in H. inv_returns.
  eexists _, _. split; [|done]. eapply Forall2_impl; [done|]. intros v t Hv. cbv beta in Hv. by inv_returns.
Qed.

(** ** Lowered bodies *)

(** What the validator says of the identities: every value and block is declared once. *)
Record declared_once (function : FunctionGraph) (bs : list Block) : Prop := {
  do_blocks : NoDup (fg_blocks function);
  do_parameters : NoDup (fg_parameters function);
  do_disjoint : forall b id, b ∈ bs -> id ∈ blk_parameters b -> id ∉ fg_parameters function;
  do_block_parameters : forall b, b ∈ bs -> NoDup (blk_parameters b);
  do_block_operations : forall b, b ∈ bs -> NoDup (blk_operations b);
  do_parameter_block : forall b b' id, b ∈ bs -> b' ∈ bs -> id ∈ blk_parameters b -> id ∈ blk_parameters b' ->
    blk_entity_id b = blk_entity_id b';
  do_operation_block : forall b b' id, b ∈ bs -> b' ∈ bs -> id ∈ blk_operations b -> id ∈ blk_operations b' ->
    blk_entity_id b = blk_entity_id b'
}.

Lemma validated_once types function ps bs os report :
  validate_function_graph types function ps bs os = Ok report -> declared_once function bs.
Proof.
  intros H. unfold validate_function_graph in H. apply bind_Ok in H as (gi & Hgi & _).
  pose proof (build_spec types function ps bs os) as B. rewrite Hgi in B.
  destruct B as ([Hinv _] & _ & <- & _ & Hbs & _).
  assert (forall b, b ∈ bs -> gi_blocks gi !! blk_entity_id b = Some b) as Hgb by (intros b Hb; by apply Hbs).
  assert (forall b j id, b ∈ bs -> blk_parameters b !! j = Some id -> exists p, gi_parameters gi !! id = Some p /\
      prm_owner p = blk_entity_id b /\ prm_role p = PRBlock /\ prm_ordinal p = N.of_nat j) as Hbp.
  { intros b j id Hb Hj. destruct (io_block_parameters _ _ _ _ _ _ _ Hinv _ _ _ _ (Hgb _ Hb) Hj) as (p & ? & ? & ? & ? & _).
    by exists p. }
  assert (forall b j id, b ∈ bs -> blk_operations b !! j = Some id -> exists o, gi_operations gi !! id = Some o /\
      op_block o = blk_entity_id b /\ op_ordinal o = N.of_nat j) as Hbo.
  { intros b j id Hb Hj. destruct (io_block_operations _ _ _ _ _ _ _ Hinv _ _ _ _ (Hgb _ Hb) Hj) as (o & ? & ? & ? & _).
    by exists o. }
  assert (forall j id, fg_parameters (gi_function gi) !! j = Some id -> exists p, gi_parameters gi !! id = Some p /\
      prm_role p = PRFunction /\ prm_ordinal p = N.of_nat j) as Hfp.
  { intros j id Hj. destruct (io_function_parameters _ _ _ _ _ _ _ Hinv _ _ Hj) as (p & ? & _ & ? & ? & _). by exists p. }
  split.
  - apply NoDup_alt. intros i j id Hi Hj. rewrite <- (Nat2N.id i) in Hi. rewrite <- (Nat2N.id j) in Hj.
    apply (io_indices _ _ _ _ _ _ _ Hinv) in Hi, Hj. rewrite Hi in Hj. injection Hj. lia.
  - apply NoDup_alt. intros i j id (p & Hp & _ & Hi)%Hfp (q & Hq & _ & Hj)%Hfp. rewrite Hp in Hq. injection Hq as <-. lia.
  - intros b id Hb [j Hj]%list_elem_of_lookup_1 [i Hi]%list_elem_of_lookup_1.
    destruct (Hbp _ _ _ Hb Hj) as (p & Hp & _ & Hr & _). destruct (Hfp _ _ Hi) as (q & Hq & Hr' & _).
    rewrite Hp in Hq. injection Hq as <-. congruence.
  - intros b Hb. apply NoDup_alt. intros i j id (p & Hp & _ & _ & Hi)%(Hbp _ _ _ Hb) (q & Hq & _ & _ & Hj)%(Hbp _ _ _ Hb).
    rewrite Hp in Hq. injection Hq as <-. lia.
  - intros b Hb. apply NoDup_alt. intros i j id (p & Hp & _ & Hi)%(Hbo _ _ _ Hb) (q & Hq & _ & Hj)%(Hbo _ _ _ Hb).
    rewrite Hp in Hq. injection Hq as <-. lia.
  - intros b b' id Hb Hb' [i Hi]%list_elem_of_lookup_1 [j Hj]%list_elem_of_lookup_1.
    destruct (Hbp _ _ _ Hb Hi) as (p & Hp & Ho & _). destruct (Hbp _ _ _ Hb' Hj) as (q & Hq & Ho' & _).
    rewrite Hp in Hq. injection Hq as <-. congruence.
  - intros b b' id Hb Hb' [i Hi]%list_elem_of_lookup_1 [j Hj]%list_elem_of_lookup_1.
    destruct (Hbo _ _ _ Hb Hi) as (p & Hp & Ho & _). destruct (Hbo _ _ _ Hb' Hj) as (q & Hq & Ho' & _).
    rewrite Hp in Hq. injection Hq as <-. congruence.
Qed.

(** [bc] is the extended lowering of the function [graph] of the request. *)
Record lowered_body (root : LoweringInput) (graph : FunctionGraph) (m : Maps) (bc : BytecodeFunction) : Prop := {
  lb_valid : exists report, validate_function_graph (li_types root) graph (li_parameters (narrow root graph))
    (li_blocks (narrow root graph)) (li_operations (narrow root graph)) = Ok report;
  lb_plain : has_declarations graph = false;
  lb_maps : maps_ok (narrow root graph) m;
  lb_parameters : Forall2 (numbered m) (fg_parameters graph) (mp_function_parameters m);
  lb_result : check_result_type (fg_result_type graph) = Ok tt;
  lb_judged : forall o, operation_in m graph o -> judged (judge_context root (fg_entity_id graph)) m o;
  lb_emitted : emitted m true graph bc
}.

Lemma body_returns root graph report m bc u :
  is_extended (li_profile root) = true ->
  validate_function_graph (li_types root) graph (li_parameters (narrow root graph)) (li_blocks (narrow root graph))
    (li_operations (narrow root graph)) = Ok report ->
  has_declarations graph = false -> Maps_build (narrow root graph) ⇓ m -> judge_extended (narrow root graph) root m ⇓ u ->
  emit_function m (narrow root graph) ⇓ bc -> lowered_body root graph m bc.
Proof.
  intros Hext Hv Hd Hm Hj He. pose proof (validated_once _ _ _ _ _ _ Hv) as Honce.
  apply build_returns in Hm as [Hm Hps]; [|apply (do_parameters _ _ Honce)|apply (do_disjoint _ _ Honce)]. apply judge_returns in Hj as [Hr Hj]. apply emit_returns in He.
  cbn [narrow li_profile li_function] in *. rewrite Hext in He. split; try done. by exists report.
Qed.

Lemma lower_callee_returns root graph bc :
  is_extended (li_profile root) = true -> lower_callee root graph ⇓ bc -> exists m, lowered_body root graph m bc.
Proof.
  intros Hext H. unfold lower_callee in H. cbv zeta in H. apply returns_bind in H as (report & Hv & H). inv_returns.
  destruct (has_declarations graph) eqn:Hd; [by inv_returns|].
  apply returns_bind in H as (m & Hm & H). apply returns_bind in H as (u & Hu & H). exists m. by eapply body_returns.
Qed.

(** ** The callees *)

Lemma find_function_Some fs id graph : find_function fs id = Some graph -> graph ∈ fs /\ fg_entity_id graph = id.
Proof. intros [H E%N.eqb_eq]%find_first_Some. done. Qed.

Lemma next_pending_Some entry done pending f rest :
  next_pending entry done pending = Some (f, rest) ->
  f <> entry /\ done !! f = None /\ exists skipped, pending = skipped ++ f :: rest /\
    forall g, g ∈ skipped -> g = entry \/ is_Some (done !! g).
Proof.
  induction pending as [|g pending IH]; cbn; [done|]. destruct (_ || _) eqn:E; intros H.
  - apply IH in H as (Hf & Hd & skipped & -> & Hs). split_and!; [done..|]. exists (g :: skipped). split; [done|].
    intros g' [->|Hg']%elem_of_cons; [|by apply Hs]. apply orb_true_iff in E as [E|E].
    + left. by apply N.eqb_eq.
    + right. by apply bool_decide_eq_true_1 in E.
  - injection H as <- <-. apply orb_false_iff in E as [E1 E2]. apply bool_decide_eq_false_1 in E2. split_and!.
    + by apply N.eqb_neq.
    + by apply eq_None_not_Some.
    + exists []. split; [done|]. by intros ? ?%elem_of_nil.
Qed.

Lemma next_pending_None entry done pending :
  next_pending entry done pending = None -> forall g, g ∈ pending -> g = entry \/ is_Some (done !! g).
Proof.
  induction pending as [|h pending IH]; cbn; [by intros _ ? ?%elem_of_nil|]. destruct (_ || _) eqn:E; intros H; [|done].
  intros g [->|Hg]%elem_of_cons; [|by apply IH]. apply orb_true_iff in E as [E|E].
  - left. by apply N.eqb_eq.
  - right. by apply bool_decide_eq_true_1 in E.
Qed.

Section callees.
Variable root : LoweringInput.
Variable entry : BytecodeFunction.
#[local] Abbreviation calls := (called_functions (li_contracts root)).
#[local] Abbreviation self := (fg_entity_id (li_function root)).

(** [f] is called by the entry or by a function that is done *)
Inductive called (done : gmap N BytecodeFunction) : EntityId -> Prop :=
| Called_entry f : f ∈ calls entry -> called done f
| Called_callee g bc f : called done g -> done !! g = Some bc -> f ∈ calls bc -> called done f.

Lemma called_mono done done' f : done ⊆ done' -> called done f -> called done' f.
Proof using.
  intros Hsub. induction 1 as [f Hf|g bc f _ IH Hg Hf]; [by apply Called_entry|].
  eapply Called_callee; [exact IH|by eapply lookup_weaken|done].
Qed.

Record pending_ok (pending : list EntityId) (done : gmap N BytecodeFunction) : Prop := {
  po_called : forall f, f ∈ pending -> called done f;
  po_done : forall f bc, done !! f = Some bc -> called done f /\ f <> self /\
    exists graph, find_function (li_functions root) f = Some graph /\ lower_callee root graph ⇓ bc;
  po_entry : forall f, f ∈ calls entry -> f = self \/ is_Some (done !! f) \/ f ∈ pending;
  po_closed : forall g bc f, done !! g = Some bc -> f ∈ calls bc -> f = self \/ is_Some (done !! f) \/ f ∈ pending
}.

(** One turn *)
Lemma pending_step pending done f rest graph bc :
  pending_ok pending done -> next_pending self done pending = Some (f, rest) ->
  find_function (li_functions root) f = Some graph -> lower_callee root graph ⇓ bc ->
  pending_ok (reverse (calls bc) ++ rest) (<[f := bc]> done).
Proof using.
  intros [Hc Hd He Hcl] Hn Hf Hbc. apply next_pending_Some in Hn as (Hne & Hnone & skipped & -> & Hs).
  assert (forall g, called done g -> called (<[f := bc]> done) g) as Hmono by (intros g; by apply called_mono, insert_subseteq).
  assert (called (<[f := bc]> done) f) as Hcf by (apply Hmono, Hc; set_solver).
  assert (forall g, g = self \/ is_Some (done !! g) \/ g ∈ skipped ++ f :: rest ->
    g = self \/ is_Some (<[f := bc]> done !! g) \/ g ∈ reverse (calls bc) ++ rest) as Hkeep.
  { intros g. rewrite lookup_insert_is_Some', !elem_of_app, elem_of_cons. intros [?|[?|[Hg|[->|?]]]]; try tauto.
    destruct (Hs _ Hg); tauto. }
  split.
  - intros g [Hg|Hg]%elem_of_app; [|apply Hmono, Hc; set_solver]. rewrite elem_of_reverse in Hg.
    eapply Called_callee; [exact Hcf|by rewrite lookup_insert_eq|done].
  - intros g bc' [[<- <-]|[_ Hg]]%lookup_insert_Some; [split_and!; [done..|]; by exists graph|].
    apply Hd in Hg as (? & ? & ?). split_and!; [by apply Hmono|done..].
  - intros g Hg. by apply Hkeep, He.
  - intros g bc' h [[<- <-]|[_ Hg]]%lookup_insert_Some Hh; [|by eapply Hkeep, Hcl].
    right. right. apply elem_of_app. left. by apply elem_of_reverse.
Qed.

(** The functions done are distinct functions of the request, so there are not more turns than those. *)
Lemma done_size done pending :
  pending_ok pending done -> (size done <= length (li_functions root))%nat.
Proof using.
  intros H. rewrite <- size_dom, <- (length_fmap fg_entity_id). apply submseteq_length, NoDup_submseteq; [apply NoDup_elements|].
  intros f [bc Hf]%elem_of_elements%elem_of_dom.
  apply (po_done _ _ H) in Hf as (_ & _ & graph & [Hg <-]%find_function_Some & _). by apply list_elem_of_fmap_2.
Qed.

Lemma lower_pending_returns fuel pending done done' :
  pending_ok pending done -> (length (li_functions root) < size done + fuel)%nat ->
  lower_pending fuel root pending done ⇓ done' -> exists pending', pending_ok pending' done' /\ next_pending self done' pending' = None.
Proof using.
  revert pending done. induction fuel as [|fuel IH]; intros pending done Hok Hfuel H.
  - apply done_size in Hok. lia.
  - cbn [lower_pending] in H. destruct (next_pending _ _ _) as [[f rest]|] eqn:Hn; [|inv_returns; by exists pending].
    apply returns_bind in H as (graph & Hg & H). apply returns_bind in H as (bc & Hbc & H).
    apply returns_lift, ok_or_Ok in Hg. eapply IH in H; [exact H| |]; [by eapply pending_step|].
    apply next_pending_Some in Hn as (_ & Hnone & _). rewrite map_size_insert_None by done. lia.
Qed.

Lemma lower_callees_returns callees :
  lower_callees root entry ⇓ callees ->
  exists done, callees = btree_values done /\ pending_ok [] done.
Proof using.
  intros H. unfold lower_callees in H. apply returns_bind in H as (done & H & H'). apply returns_ret in H' as <-.
  apply lower_pending_returns in H as (pending & Hok & Hn).
  - exists done. split; [done|]. pose proof (next_pending_None _ _ _ Hn) as Hp. destruct Hok as [Hc Hd He Hcl]. split.
    + by intros ? ?%elem_of_nil.
    + done.
    + intros f [?|[?|Hf]]%He; [tauto..|]. apply Hp in Hf. tauto.
    + intros g bc f Hg [?|[?|Hf]]%(Hcl _ _ _ Hg); [tauto..|]. apply Hp in Hf. tauto.
  - split.
    + intros f. rewrite elem_of_reverse. apply Called_entry.
    + intros f bc Hf. by rewrite lookup_empty in Hf.
    + intros f Hf. right. right. by apply elem_of_reverse.
    + intros f bc g Hf. by rewrite lookup_empty in Hf.
  - cbn. lia.
Qed.
End callees.
