(* ===== verification/VmLowered.v ===== *)
(** * The virtual machine: theorems on lowered functions

    The bounds of a lowering, the table of callees, the typing of the bytecode,
    and how the judgement alone relates to lowering. *)

From S2P Require Import Prelude State Bytes Ids BTree Ssmc Types CfgGraph Cfg CfgSafety VmJudge VmExec VmBytecode VmLower VmLowering.
Set Warnings "-register-all".

Open Scope N_scope.

(** ** The entry point *)

Lemma has_declarations_false graph :
  has_declarations graph = false -> fg_type_parameters graph = [] /\ fg_effects graph = [] /\ fg_contracts graph = [].
Proof.
  intros [[H1 H2]%orb_false_iff H3]%orb_false_iff.
  repeat match goal with H : negb _ = false |- _ => apply negb_false_iff, bool_decide_eq_true_1 in H end. done.
Qed.

(** A successful lowering under the extended profile, step by step *)
Record lowering_steps (blake3 : bytes -> bytes) (root : LoweringInput) (lf : LoweredFunction) : Prop := {
  ls_input := narrow root (li_function root);
  ls_valid : exists report, validate_function_graph (li_types root) (li_function root) (li_parameters ls_input)
    (li_blocks ls_input) (li_operations ls_input) = Ok report;
  ls_plain : has_declarations (li_function root) = false;
  ls_constants : require_canonical_referenced_constants (li_operations ls_input) (li_constants root) (li_globals root) = Ok tt;
  ls_work : exists m w0 w1 w2 w3, preflight_resources ls_input = Ok w0 /\ Maps_build ls_input w0 = Ok (m, w1) /\
    judge_extended ls_input root m w1 = Ok (tt, w2) /\ emit_function m ls_input w2 = Ok (lf_bytecode lf, w3) /\
    lower_callees root (lf_bytecode lf) w3 = Ok (lf_callees lf, lf_lowering_work lf);
  ls_bytes : Bytecode.encode_function true (lf_bytecode lf) (lf_callees lf) = Ok (lf_bytes lf)
}.

Lemma lower_function_steps blake3 root lf :
  is_extended (li_profile root) = true -> lower_function blake3 root = Ok lf -> lowering_steps blake3 root lf.
Proof.
  intros Hext H. unfold lower_function in H. rewrite Hext in H. cbv zeta in H.
  apply bind_Ok in H as (report & Hv%lower_cfg_Ok & H). apply bind_Ok in H as (key & _ & H).
  destruct (has_declarations _) eqn:Hd; [done|].
  apply bind_Ok in H as (w0 & H0 & H). apply bind_Ok in H as ([m w1] & H1 & H). apply bind_Ok in H as ([[] w2] & H2 & H).
  apply bind_Ok in H as ([] & Hc%lower_code_Ok & H). apply bind_Ok in H as ([bc w3] & H3 & H).
  apply bind_Ok in H as ([callees w4] & H4 & H). apply bind_Ok in H as (b & Hb%lower_code_Ok & [= <-]).
  split; cbn; try done; [by exists report|]. by exists m, w0, w1, w2, w3.
Qed.

(** The entry and each callee is the lowering of its function. *)
Lemma lowered_entry blake3 root lf :
  is_extended (li_profile root) = true -> lower_function blake3 root = Ok lf ->
  exists m, lowered_body root (li_function root) m (lf_bytecode lf).
Proof.
  intros Hext H%lower_function_steps; [|done]. destruct H as [input [report Hv] Hd _ (m & w0 & w1 & w2 & w3 & _ & Hm & Hj & He & _) _].
  exists m. eapply body_returns; try done; [by exists w0, w1|by exists w1, w2|by exists w2, w3].
Qed.

Lemma lowered_callees blake3 root lf :
  is_extended (li_profile root) = true -> lower_function blake3 root = Ok lf ->
  exists done, lf_callees lf = btree_values done /\ pending_ok root (lf_bytecode lf) [] done.
Proof.
  intros Hext H%lower_function_steps; [|done]. destruct H as [input _ _ _ (m & w0 & w1 & w2 & w3 & _ & _ & _ & _ & Hc) _].
  apply (lower_callees_returns root (lf_bytecode lf)). by exists w3, (lf_lowering_work lf).
Qed.

Lemma lower_callee_function root graph bc :
  lower_callee root graph ⇓ bc -> bf_function bc = fg_entity_id graph.
Proof.
  intros H. unfold lower_callee in H. cbv zeta in H. apply returns_bind in H as (report & _ & H).
  destruct (has_declarations graph); [by inv_returns|].
  apply returns_bind in H as (m & _ & H). apply returns_bind in H as (u & _ & H). by apply emit_returns, em_function in H.
Qed.

Lemma callee_body blake3 root lf bc :
  is_extended (li_profile root) = true -> lower_function blake3 root = Ok lf -> bc ∈ lf_callees lf ->
  exists graph m, find_function (li_functions root) (bf_function bc) = Some graph /\ lowered_body root graph m bc.
Proof.
  intros Hext H Hbc. destruct (lowered_callees _ _ _ Hext H) as (callees & E & Hok). rewrite E in Hbc.
  apply elem_of_btree_values in Hbc as [f Hf]. apply (po_done _ _ _ _ Hok) in Hf as (_ & _ & graph & Hg & Hl).
  pose proof (lower_callee_function _ _ _ Hl) as Hid. destruct (find_function_Some _ _ _ Hg) as [_ Hgid].
  destruct (lower_callee_returns _ _ _ Hext Hl) as [m Hm]. exists graph, m. split; [|done]. by rewrite Hid, Hgid.
Qed.

(** ** Bounds *)

(** A writer extends the bytes, and not past the limit. *)
Definition appends (e : Bytecode.Write) : Prop :=
  forall s s', len s <= MAX_BYTECODE_BYTES -> e s = Ok s' -> (exists b, s' = s ++ b) /\ len s' <= MAX_BYTECODE_BYTES.

Lemma appends_skip : appends Bytecode.skip.
Proof. intros s s' Hs [= <-]. split; [|done]. exists []. by rewrite app_nil_r. Qed.
Lemma appends_fail e : appends (fun _ => Err e).
Proof. done. Qed.
Lemma appends_raw b : appends (Bytecode.raw b).
Proof.
  intros s s' _ (n & Hn & (_ & H%ensure_Ok & [= <-])%bind_Ok)%bind_Ok.
  apply ok_or_Ok, checked_add_Some in Hn as [-> _]. split; [by exists b|]. rewrite len_app. lia.
Qed.
Lemma appends_then e f : appends e -> appends f -> appends (Bytecode.then_write e f).
Proof.
  intros He Hf s s'' Hs (s' & H & H')%bind_Ok. destruct (He _ _ Hs H) as [[b ->] Hs'].
  destruct (Hf _ _ Hs' H') as [[c ->] ?]. split; [|done]. exists (b ++ c). by rewrite app_assoc.
Qed.
Lemma appends_each {A} (f : A -> Bytecode.Write) l : (forall x, x ∈ l -> appends (f x)) -> appends (Bytecode.each f l).
Proof.
  induction l as [|x l IH]; intros H; [apply appends_skip|]. apply appends_then; [apply H; left|].
  apply IH. intros; apply H; by right.
Qed.

Create HintDb appends discriminated.
#[export] Hint Resolve appends_skip appends_fail appends_raw appends_then : appends.
#[export] Hint Extern 2 (appends (Bytecode.each _ _)) => apply appends_each; intros : appends.
#[export] Hint Extern 3 (appends (match ?x with _ => _ end)) => destruct x : appends.
#[export] Hint Unfold Bytecode.u16 Bytecode.u32 Bytecode.u64 Bytecode.length Bytecode.registers Bytecode.entity : appends.

Lemma appends_type t depth : appends (Bytecode.type_expr t depth).
Proof.
  revert depth. induction t as [t IH] using TypeExpr_ind'. intros depth.
  destruct t; cbn [Bytecode.type_expr]; (destruct (_ <? _); [apply appends_fail|]);
    cbn [type_children] in IH; rewrite ?Forall_app, ?Forall_cons in IH; rewrite ?Forall_forall in IH;
    autounfold with appends; destruct_and?; eauto 20 with appends.
Qed.
#[export] Hint Resolve appends_type : appends.

Lemma appends_body extended bc : appends (Bytecode.encode_body extended bc).
Proof.
  unfold Bytecode.encode_body, Bytecode.block, Bytecode.instruction, Bytecode.immediate, Bytecode.terminator, Bytecode.edge,
    Bytecode.switch_edge, Bytecode.switch_argument, Bytecode.case_key. autounfold with appends. eauto 100 with appends.
Qed.
#[export] Hint Resolve appends_body : appends.

Lemma encode_function_bound extended bc callees b :
  Bytecode.encode_function extended bc callees = Ok b -> len b <= MAX_BYTECODE_BYTES.
Proof.
  intros H. unfold Bytecode.encode_function in H.
  match type of H with ?e [] = _ => assert (appends e) as He end.
  { autounfold with appends. eauto 30 with appends. }
  apply He in H as [_ H]; [done|]. rewrite len_nil. unfold MAX_BYTECODE_BYTES. lia.
Qed.

Lemma emitted_registers m extended input function bc :
  maps_ok input m -> emitted m extended function bc -> len (bf_register_types bc) <= MAX_REGISTERS.
Proof. intros Hm He. rewrite (em_types _ _ _ _ He). apply (mo_length _ _ Hm). Qed.

(** A lowering stays within its limits: the work it charged, the canonical
    bytes, and the registers of the entry and, under the extended profile, of
    every callee. *)
Theorem lowering_bounds (blake3 : bytes -> bytes) (root : LoweringInput) (lf : LoweredFunction)
    (Hlower : lower_function blake3 root = Ok lf) :
  lf_lowering_work lf <= MAX_LOWERING_WORK /\ len (lf_bytes lf) <= MAX_BYTECODE_BYTES /\
  (is_extended (li_profile root) = true ->
   Forall (fun bc => len (bf_register_types bc) <= MAX_REGISTERS) (lf_bytecode lf :: lf_callees lf)).
Proof.
  assert (lf_lowering_work lf <= MAX_LOWERING_WORK /\ len (lf_bytes lf) <= MAX_BYTECODE_BYTES) as [Hw Hb].
  - unfold lower_function in Hlower. apply bind_Ok in Hlower as (_ & _ & (key & _ & H)%bind_Ok).
    destruct (has_declarations _); [done|]. apply bind_Ok in H as (w0 & H0%preflight_Ok & H).
    apply bind_Ok in H as ([m w1] & H1 & H). apply bind_Ok in H as ([[] w2] & H2 & H). apply bind_Ok in H as (_ & _ & H).
    apply bind_Ok in H as ([bc w3] & H3 & H).
    apply bind_Ok in H as ([callees w4] & H4 & (b & Hb%lower_code_Ok%encode_function_bound & [= <-])%bind_Ok).
    split; [|done]. apply budgeted_build in H1; [|done]. apply budgeted_emit in H3.
    + destruct (is_extended _); [apply budgeted_callees in H4; [|lia]|apply budgeted_ret in H4; [|lia]]; cbn; lia.
    + destruct (is_extended _); [apply budgeted_judge in H2|apply budgeted_validate in H2]; lia.
  - split_and!; [done..|]. intros Hext. constructor.
    + destruct (lowered_entry _ _ _ Hext Hlower) as [m [_ _ Hm _ _ _ He]]. by eapply emitted_registers.
    + apply Forall_forall. intros bc Hbc. destruct (callee_body _ _ _ _ Hext Hlower Hbc) as (graph & m & _ & [_ _ Hm _ _ _ He]).
      by eapply emitted_registers.
Qed.

(** ** Callees *)

(** A function the entry calls, directly or through functions of the table *)
Inductive calls (contracts : list ContractDefinition) (entry : BytecodeFunction) (table : list BytecodeFunction) : EntityId -> Prop :=
| Calls_entry f : f ∈ called_functions contracts entry -> calls contracts entry table f
| Calls_callee bc f : calls contracts entry table (bf_function bc) -> bc ∈ table ->
    f ∈ called_functions contracts bc -> calls contracts entry table f.

Lemma done_function root entry pending done f bc :
  pending_ok root entry pending done -> done !! f = Some bc -> bf_function bc = f.
Proof.
  intros H Hf. apply (po_done _ _ _ _ H) in Hf as (_ & _ & graph & [_ <-]%find_function_Some & Hl).
  by apply lower_callee_function in Hl.
Qed.

Lemma table_functions root entry pending done :
  pending_ok root entry pending done -> bf_function <$> btree_values done = btree_keys done.
Proof.
  intros H. unfold btree_values, btree_keys. rewrite <- list_fmap_compose. apply list_fmap_ext.
  intros i [f bc] Hi. cbn. eapply done_function; [exact H|]. apply elem_of_btree_iter. by eapply list_elem_of_lookup_2.
Qed.

(** C11: The table of callees is the transitive closure of the calls of the entry: it
    holds, in ascending order and once each, exactly the functions that the entry
    calls, directly or through other functions of the table, itself excepted.
    The worklist always comes to an end. *)
Theorem callees_are_the_calls (blake3 : bytes -> bytes) (root : LoweringInput) (lf : LoweredFunction)
    (Hextended : is_extended (li_profile root) = true) (Hlower : lower_function blake3 root = Ok lf) :
  let ids := bf_function <$> lf_callees lf in
  strictly_sorted ids = true /\
  forall f, f ∈ ids <-> calls (li_contracts root) (lf_bytecode lf) (lf_callees lf) f /\ f <> fg_entity_id (li_function root).
Proof.
  destruct (lowered_callees _ _ _ Hextended Hlower) as (done & -> & H). cbv zeta. rewrite (table_functions _ _ _ _ H).
  split; [apply btree_keys_sorted|]. intros f. rewrite elem_of_btree_keys.
  assert (forall g, called root (lf_bytecode lf) done g -> calls (li_contracts root) (lf_bytecode lf) (btree_values done) g) as Hcalls.
  { induction 1 as [g Hg|g bc g' _ IH Hg Hg']; [by apply Calls_entry|]. apply (Calls_callee _ _ _ bc); [|by apply elem_of_btree_values; exists g|done].
    by rewrite (done_function _ _ _ _ _ _ H Hg). }
  split.
  - intros [bc Hf]. apply (po_done _ _ _ _ H) in Hf as (Hc & Hne & _). by split; [apply Hcalls|].
  - intros [Hc Hne]. destruct Hc as [f Hf|bc f _ Hbc Hf].
    + destruct (po_entry _ _ _ _ H _ Hf) as [?|[?|?%elem_of_nil]]; done.
    + apply elem_of_btree_values in Hbc as [g Hg].
      destruct (po_closed _ _ _ _ H _ _ _ Hg Hf) as [?|[?|?%elem_of_nil]]; done.
Qed.

(** ** Typed code *)

Section typed_code.
Variable c : LoweringContext.
Variable bc : BytecodeFunction.

Definition register_type (r : Register) : option TypeExpr := bf_register_types bc !! N.to_nat r.

Definition instruction_typed (i : Instruction) : Prop :=
  exists opcode ts r t, in_opcode i = Opcode_tag opcode /\
    Forall2 (fun r t => register_type r = Some t) (in_operands i) ts /\
    in_results i = [r] /\ register_type r = Some t /\
    judge_extended_operation c opcode (in_immediate i) ts [t] = Ok t.

(** The registers in the order of their definitions *)
Definition block_definitions (b : BytecodeBlock) : list Register :=
  bb_parameter_registers b ++ (bb_instructions b ≫= in_results).
Definition definitions : list Register := bf_parameter_registers bc ++ (bf_blocks bc ≫= block_definitions).

Record code_typed : Prop := {
  ct_instructions : forall b i, b ∈ bf_blocks bc -> i ∈ bb_instructions b -> instruction_typed i;
  ct_slots : forall i b, bf_blocks bc !! i = Some b -> bb_slot b = N.of_nat i;
  ct_entry : exists b, bf_blocks bc !! N.to_nat (bf_entry_block bc) = Some b;
  ct_once : NoDup definitions;
  ct_defined : forall r, r ∈ definitions -> exists t, register_type r = Some t
}.
End typed_code.

Lemma judged_result c opcode immediate ts declared t :
  judge_extended_operation c opcode immediate ts declared = Ok t -> declared = [t].
Proof.
  unfold judge_extended_operation. intros (_ & _ & (d & _ & (_ & H%ensure_Ok%bool_decide_eq_true & [= <-])%bind_Ok)%bind_Ok)%bind_Ok.
  done.
Qed.

Lemma narrow_block root graph b : b ∈ li_blocks (narrow root graph) -> blk_function b = fg_entity_id graph /\ b ∈ li_blocks root.
Proof. cbn. unfold owned_blocks. by intros [? ?]%list_elem_of_filter. Qed.

Section body.
Context (root : LoweringInput) (graph : FunctionGraph) (m : Maps) (bc : BytecodeFunction).
Hypothesis H : lowered_body root graph m bc.

Lemma body_once : declared_once graph (li_blocks (narrow root graph)).
Proof using H. destruct (lb_valid _ _ _ _ H) as [report Hv]. by eapply validated_once. Qed.

Lemma body_blocks : Forall2 (emitted_block m true) (fg_blocks graph) (bf_blocks bc).
Proof using H. apply (em_blocks _ _ _ _ (lb_emitted _ _ _ _ H)). Qed.

Lemma body_register_type v r : register m v = Ok r -> exists t, register_type bc r = Some t.
Proof using H.
  intros Hr. unfold register_type. rewrite (em_types _ _ _ _ (lb_emitted _ _ _ _ H)).
  eapply register_has_type; [apply (lb_maps _ _ _ _ H)|done].
Qed.

Lemma body_slot id slot : slot_of m id slot -> fg_blocks graph !! N.to_nat slot = Some id.
Proof using H. intros [b Hb]. by apply (mo_block _ _ (lb_maps _ _ _ _ H)) in Hb as (_ & _ & Hb). Qed.

Lemma body_position i id : fg_blocks graph !! i = Some id -> forall slot, slot_of m id slot -> slot = N.of_nat i.
Proof using H.
  intros Hi slot Hs%body_slot. pose proof (NoDup_lookup _ _ _ _ (do_blocks _ _ body_once) Hi Hs). lia.
Qed.

(** The operation of an instruction was judged on the types of its registers. *)
Lemma body_instruction b i :
  b ∈ bf_blocks bc -> i ∈ bb_instructions b -> instruction_typed (judge_context root (fg_entity_id graph)) bc i.
Proof using H.
  intros [j Hj]%list_elem_of_lookup_1 [k Hk]%list_elem_of_lookup_1.
  destruct (Forall2_lookup_r _ _ _ _ _ body_blocks Hj) as (bid & Hbid & blk & Hblk & _ & Hops & _).
  destruct (Forall2_lookup_r _ _ _ _ _ Hops Hk) as (oid & Hoid & o & Ho & Hopcode & Himm & Hoperands).
  destruct (lb_judged _ _ _ _ H o) as (ts & t & Hts & Hjudge).
  { exists bid, blk, (bb_slot b), oid, (in_results i). split_and!; [by eapply list_elem_of_lookup_2|done|by eapply list_elem_of_lookup_2|done]. }
  pose proof (judged_result _ _ _ _ _ _ Hjudge) as Hdecl.
  pose proof (mo_operation _ _ (lb_maps _ _ _ _ H) _ _ _ Ho) as (_ & _ & Hres). rewrite Hdecl in Hjudge, Hres.
  inversion Hres as [|r ? l ? Hr Hnil Heq]; subst. inversion Hnil; subst.
  exists (op_opcode o), ts, r, t. unfold register_type. rewrite (em_types _ _ _ _ (lb_emitted _ _ _ _ H)). split_and!; try done.
  - clear -Hts Hoperands. revert ts Hts. induction Hoperands as [|v r l rs Hr _ IH]; intros ts Hts.
    + apply Forall2_nil_inv_l in Hts as ->. constructor.
    + apply Forall2_cons_inv_l in Hts as (t & ts' & Ht & Hts & ->). constructor; [|by apply IH].
      unfold value_type in Ht. unfold refers in Hr. rewrite Hr in Ht. by apply ok_or_Ok in Ht.
  - by rewrite Himm.
Qed.

(** *** Each register is defined once *)

(** The values a block defines, and a function *)
Definition result_values (id : EntityId) (o : Operation) : list ValueRef :=
  (fun i => VROperationResult (mkOperationResultRef id (N.of_nat i))) <$> seq 0 (length (op_result_types o)).
Definition operation_values (id : EntityId) : list ValueRef :=
  match mp_operations m !! id with Some (o, _) => result_values id o | None => [] end.
Definition block_values (id : EntityId) : list ValueRef :=
  match mp_blocks m !! id with
  | Some (b, _) => (VRParameter <$> blk_parameters b) ++ (blk_operations b ≫= operation_values)
  | None => []
  end.

Lemma numbered_refers l rs : Forall2 (numbered m) l rs -> Forall2 (refers m) (VRParameter <$> l) rs.
Proof using Type.
  intros Hl. apply Forall2_fmap_l. eapply Forall2_impl; [exact Hl|]. intros id r [p Hp]. unfold refers. cbn. by rewrite Hp.
Qed.

Lemma Forall2_bind {A B C D} (R : A -> B -> Prop) (Q : C -> D -> Prop) (f : A -> list C) (g : B -> list D) l k :
  (forall x y, x ∈ l -> R x y -> Forall2 Q (f x) (g y)) -> Forall2 R l k -> Forall2 Q (l ≫= f) (k ≫= g).
Proof using Type.
  intros Hfg HR. induction HR as [|x y l k Hxy _ IH]; [constructor|]. apply Forall2_app; [apply Hfg; [left|done]|].
  apply IH. intros; apply Hfg; [by right|done].
Qed.

Lemma operation_values_refer id i : emitted_instruction m true id i -> Forall2 (refers m) (operation_values id) (in_results i).
Proof using H.
  intros (o & Ho & _). unfold operation_values. rewrite Ho.
  pose proof (mo_operation _ _ (lb_maps _ _ _ _ H) _ _ _ Ho) as (_ & _ & Hres). apply Forall2_length in Hres.
  apply Forall2_same_length_lookup_2; [unfold result_values; by rewrite length_fmap, length_seq|].
  intros k v r Hv Hr. unfold result_values in Hv. apply list_lookup_fmap_Some in Hv as (k' & -> & Hk).
  apply lookup_seq in Hk as [-> Hk]. unfold refers. cbn. rewrite Ho. cbn. by rewrite Nat2N.id, Hr.
Qed.

Lemma block_values_refer id b : emitted_block m true id b -> Forall2 (refers m) (block_values id) (block_definitions b).
Proof using H.
  intros (blk & Hb & Hps & Hops & _). unfold block_values. rewrite Hb. apply Forall2_app; [by apply numbered_refers|].
  eapply Forall2_bind; [|exact Hops]. intros oid i _. apply operation_values_refer.
Qed.

Lemma values_refer :
  Forall2 (refers m) ((VRParameter <$> fg_parameters graph) ++ (fg_blocks graph ≫= block_values)) (definitions bc).
Proof using H.
  unfold definitions. apply Forall2_app.
  - apply numbered_refers. rewrite (em_parameters _ _ _ _ (lb_emitted _ _ _ _ H)). apply (lb_parameters _ _ _ _ H).
  - eapply Forall2_bind; [|apply body_blocks]. intros id b _. apply block_values_refer.
Qed.

Lemma block_value_in id v :
  v ∈ block_values id -> exists b slot, mp_blocks m !! id = Some (b, slot) /\
    match v with
    | VRParameter p => p ∈ blk_parameters b
    | VROperationResult r => orr_operation r ∈ blk_operations b
    end.
Proof using Type.
  unfold block_values. destruct (mp_blocks m !! id) as [[b slot]|]; [|by intros ?%elem_of_nil]. intros Hv. exists b, slot. split; [done|].
  apply elem_of_app in Hv as [(p & -> & Hp)%list_elem_of_fmap|(oid & Hv & Ho)%list_elem_of_bind]; [done|].
  unfold operation_values in Hv. destruct (mp_operations m !! oid) as [[o rs]|]; [|by apply elem_of_nil in Hv].
  apply list_elem_of_fmap in Hv as (i & -> & _). done.
Qed.

Lemma operation_values_NoDup l : NoDup l -> NoDup (l ≫= operation_values).
Proof using Type.
  intros Hl. apply NoDup_bind; [| |done].
  - intros id id' v _ _ Hv Hv'. unfold operation_values in Hv, Hv'.
    destruct (mp_operations m !! id) as [[o rs]|]; [|by apply elem_of_nil in Hv].
    destruct (mp_operations m !! id') as [[o' rs']|]; [|by apply elem_of_nil in Hv'].
    apply list_elem_of_fmap in Hv as (i & -> & _), Hv' as (i' & [= ->] & _). done.
  - intros id _. unfold operation_values. destruct (mp_operations m !! id) as [[o rs]|]; [|constructor].
    apply NoDup_fmap_2_strong; [|apply NoDup_seq]. intros i j _ _ [= E]. lia.
Qed.

Lemma values_NoDup : NoDup ((VRParameter <$> fg_parameters graph) ++ (fg_blocks graph ≫= block_values)).
Proof using H.
  pose proof body_once as [Hblocks Hps Hdisj Hbps Hbos Hpb Hob]. pose proof (mo_block _ _ (lb_maps _ _ _ _ H)) as Hmb.
  apply NoDup_app. split_and!.
  - apply NoDup_fmap_2; [|done]. by intros ? ? [= ->].
  - intros v (p & -> & Hp)%list_elem_of_fmap (id & Hv & Hid)%list_elem_of_bind.
    apply block_value_in in Hv as (b & slot & (Hb & _)%Hmb & Hv). by eapply Hdisj.
  - apply NoDup_bind; [| |done].
    + intros id id' v _ _ (b & slot & (Hb & <- & _)%Hmb & Hv)%block_value_in (b' & slot' & (Hb' & <- & _)%Hmb & Hv')%block_value_in.
      destruct v; [by eapply Hpb|by eapply Hob].
    + intros id _. unfold block_values. destruct (mp_blocks m !! id) as [[b slot]|] eqn:E; [|constructor].
      apply Hmb in E as (Hb & _). apply NoDup_app. split_and!.
      * apply NoDup_fmap_2; [|by apply Hbps]. by intros ? ? [= ->].
      * intros v (p & -> & _)%list_elem_of_fmap (oid & Hv & _)%list_elem_of_bind. unfold operation_values in Hv.
        destruct (mp_operations m !! oid) as [[o rs]|]; [|by apply elem_of_nil in Hv].
        by apply list_elem_of_fmap in Hv as (i & ? & _).
      * apply operation_values_NoDup. by apply Hbos.
Qed.

Lemma body_typed : code_typed (judge_context root (fg_entity_id graph)) bc.
Proof using H.
  split.
  - apply body_instruction.
  - intros i b Hb. destruct (Forall2_lookup_r _ _ _ _ _ body_blocks Hb) as (id & Hid & blk & Hblk & _).
    eapply body_position; [exact Hid|by exists blk].
  - pose proof (body_slot _ _ (em_entry _ _ _ _ (lb_emitted _ _ _ _ H))) as Hs.
    destruct (Forall2_lookup_l _ _ _ _ _ body_blocks Hs) as (b & Hb & _). by exists b.
  - apply NoDup_alt. intros i j r Hi Hj.
    destruct (Forall2_lookup_r _ _ _ _ _ values_refer Hi) as (v & Hv & Hr).
    destruct (Forall2_lookup_r _ _ _ _ _ values_refer Hj) as (v' & Hv' & Hr').
    rewrite (mo_injective _ _ (lb_maps _ _ _ _ H) _ _ _ Hr Hr') in Hv. by eapply NoDup_lookup; [apply values_NoDup|..].
  - intros r [i Hi]%list_elem_of_lookup_1. destruct (Forall2_lookup_r _ _ _ _ _ values_refer Hi) as (v & Hv & Hr).
    by eapply body_register_type.
Qed.
End body.

(** C9: Lowered code is typed, the entry and every callee: each register is defined
    once and has a type, block slots are positions, and every instruction was
    judged on the types of the registers it reads, with the type of its result
    register as the result. *)
Theorem lowered_code_typed (blake3 : bytes -> bytes) (root : LoweringInput) (lf : LoweredFunction)
    (Hextended : is_extended (li_profile root) = true) (Hlower : lower_function blake3 root = Ok lf) :
  code_typed (judge_context root (fg_entity_id (li_function root))) (lf_bytecode lf) /\
  Forall (fun bc => code_typed (judge_context root (bf_function bc)) bc) (lf_callees lf).
Proof.
  split.
  - destruct (lowered_entry _ _ _ Hextended Hlower) as [m Hm]. by eapply body_typed.
  - apply Forall_forall. intros bc Hbc. destruct (callee_body _ _ _ _ Hextended Hlower Hbc) as (graph & m & Hg & Hm).
    apply find_function_Some in Hg as [_ <-]. by eapply body_typed.
Qed.

(** ** Judgement and lowering *)

Lemma extended_cache_key blake3 epoch state_root entry profile :
  is_extended profile = true -> exists key, derive_cache_key blake3 epoch state_root entry profile = Ok key.
Proof.
  intros ->%bool_decide_eq_true_1. unfold derive_cache_key, cache_key_preimage. cbn [ensure orb bool_decide].
  rewrite (bool_decide_true (EXTENDED_V1 = EXTENDED_V1)), orb_true_r by done. by eexists.
Qed.

(** The judgement alone agrees with lowering, on a function that the validator
    accepts and that declares no type parameters, effects or contracts: when it
    fails, lowering fails with the same error; when lowering succeeds, it does,
    and has charged no more work. *)
Theorem judgement_agrees (blake3 : bytes -> bytes) (root : LoweringInput) (report : CfgReport)
    (Hextended : is_extended (li_profile root) = true)
    (Hvalid : let input := narrow root (li_function root) in
      validate_function_graph (li_types root) (li_function root) (li_parameters input) (li_blocks input)
        (li_operations input) = Ok report)
    (Hplain : has_declarations (li_function root) = false) :
  (forall e, judge_function_operations root = Err e -> lower_function blake3 root = Err e) /\
  (forall lf, lower_function blake3 root = Ok lf ->
     exists j, judge_function_operations root = Ok j /\ oj_work j <= lf_lowering_work lf).
Proof.
  cbv zeta in Hvalid. unfold judge_function_operations. rewrite Hextended. cbn [negb]. split.
  - intros e He. unfold lower_function. rewrite Hextended. cbv zeta in He |- *. revert He.
    set (input := narrow root (li_function root)) in *.
    change (li_types input) with (li_types root). change (li_function input) with (li_function root).
    rewrite Hvalid, Hplain. cbn [lower_cfg map_err mbind result_bind].
    destruct (extended_cache_key blake3 (li_schema_epoch root) (li_state_root root) (fg_entity_id (li_function root)) _ Hextended)
      as [key Hkey].
    change (derive_cache_key _ _ _ _ _) with (derive_cache_key blake3 (li_schema_epoch root) (li_state_root root)
      (fg_entity_id (li_function root)) (li_profile root)). rewrite Hkey. cbn [lower_code map_err mbind result_bind].
    destruct (preflight_resources _) as [w0|]; [|by intros [= ->]]. cbn [mbind result_bind].
    destruct (Maps_build _ _) as [[m w1]|]; [|by intros [= ->]]. cbn [mbind result_bind].
    destruct (judge_extended _ _ _ _) as [[[] w2]|]; [|by intros [= ->]]. cbn [mbind result_bind].
    destruct (lower_code _) as [[]|]; [done|by intros [= ->]].
  - intros lf H%lower_function_steps; [|done]. destruct H as [input _ _ Hc (m & w0 & w1 & w2 & w3 & H0 & Hm & Hj & He & Hl) _].
    cbv zeta. unfold input in *. rewrite H0. cbn [mbind result_bind]. rewrite Hm. cbn [mbind result_bind]. rewrite Hj.
    cbn [mbind result_bind narrow li_operations li_constants li_globals] in Hc |- *. rewrite Hc. cbn [lower_code map_err mbind result_bind].
    eexists. split; [done|]. cbn. apply preflight_Ok in H0. apply budgeted_build in Hm; [|done].
    apply budgeted_judge in Hj; [|lia]. apply budgeted_emit in He; [|lia]. apply budgeted_callees in Hl; lia.
Qed.

(** ** Samples *)

Module Sample.
Definition sample_hash : bytes -> bytes := fun _ => replicate 32 x00.

Definition leaf_function (effects : list EntityId) : FunctionGraph :=
  mkFunctionGraph 2 [] [6] TBool effects 11 [11] [] VPrivate.
Definition entry : FunctionGraph := mkFunctionGraph 1 [] [5] TBool [] 10 [10] [] VPrivate.
Definition parameters : list ParameterDef :=
  [mkParameterDef 5 1 PRFunction 0 TBool; mkParameterDef 6 2 PRFunction 0 TBool].
Definition returns_result (block function operation : EntityId) : Block :=
  mkBlock block function [] [operation] (TermReturn (mkReturnTerminator
    (VROperationResult (mkOperationResultRef operation 0)))) RCRequired.
Definition blocks : list Block := [returns_result 10 1 20; returns_result 11 2 21].
Definition call : Operation :=
  mkOperation 20 10 0 OpCallDirect [VRParameter 5] [TBool] (ImmFunction (mkFunctionRefValue 2 [])).

Definition request (function : FunctionGraph) (effects : list EntityId) (body : Operation) (constants : list ConstantDefinition)
    : LoweringInput :=
  mkLoweringInput ∅ function parameters blocks [call; body] (replicate 32 x01) (replicate 32 x02) EXTENDED_V1
    constants [] [entry; leaf_function effects] [] [].

(** The entry calls a function that negates its parameter. *)
Definition negation : Operation := mkOperation 21 11 0 OpBoolNot [VRParameter 6] [TBool] ImmNone.
Definition plain : LoweringInput := request entry [] negation [].

Definition lowered : LoweredFunction :=
  Eval vm_compute in
    match lower_function sample_hash plain with Ok lf => lf | Err _ => mkLoweredFunction (mkBytecodeFunction 0 [] [] TUnit 0 []) [] [] 0 [] end.
Lemma lowers : lower_function sample_hash plain = Ok lowered.
Proof. vm_compute. reflexivity. Qed.

(** The called function looks a parameter up in a constant map whose two keys are out of order. *)
Definition unordered : ConstValue :=
  let bool b := mkConstValue TBool (DBool b) in
  mkConstValue (TOrderedMap TBool TBool)
    (DMap [mkMapEntryConst (bool true) (bool false); mkMapEntryConst (bool false) (bool true)]).
Definition reading (function : FunctionGraph) : LoweringInput :=
  mkLoweringInput ∅ function parameters
    [returns_result 10 1 20; mkBlock 11 2 [] [21; 22] (TermReturn (mkReturnTerminator
      (VROperationResult (mkOperationResultRef 22 0)))) RCRequired]
    [call; mkOperation 21 11 0 OpConstantRef [] [TOrderedMap TBool TBool] (ImmEntity 7);
     mkOperation 22 11 1 OpMapContains [VROperationResult (mkOperationResultRef 21 0); VRParameter 6] [TBool] ImmNone]
    (replicate 32 x01) (replicate 32 x02) EXTENDED_V1 [mkConstantDefinition 7 unordered] [] [entry; leaf_function []] [] [].
End Sample.

Lemma lowering_bounds_witness : lf_lowering_work Sample.lowered <= MAX_LOWERING_WORK.
Proof. exact (proj1 (lowering_bounds Sample.sample_hash Sample.plain Sample.lowered Sample.lowers)). Defined.

Lemma callees_are_the_calls_witness :
  bf_function <$> lf_callees Sample.lowered = [2] /\
  calls [] (lf_bytecode Sample.lowered) (lf_callees Sample.lowered) 2.
Proof.
  split; [vm_compute; reflexivity|].
  apply (proj2 (callees_are_the_calls Sample.sample_hash Sample.plain Sample.lowered eq_refl Sample.lowers) 2).
  replace (bf_function <$> lf_callees Sample.lowered) with [2] by (vm_compute; reflexivity). by apply list_elem_of_singleton.
Defined.

Lemma lowered_code_typed_witness :
  code_typed (judge_context Sample.plain 1) (lf_bytecode Sample.lowered) /\ length (lf_callees Sample.lowered) = 1%nat.
Proof.
  split; [|vm_compute; reflexivity].
  exact (proj1 (lowered_code_typed Sample.sample_hash Sample.plain Sample.lowered eq_refl Sample.lowers)).
Defined.

Lemma judgement_agrees_witness :
  exists j, judge_function_operations Sample.plain = Ok j /\ oj_work j <= lf_lowering_work Sample.lowered.
Proof.
  apply (proj2 (judgement_agrees Sample.sample_hash Sample.plain (mkCfgReport [10] 0 0) eq_refl
    ltac:(vm_compute; reflexivity) eq_refl) Sample.lowered Sample.lowers).
Defined.

(** The judgement accepts a function that lowering refuses: the function
    declares nothing, but calls one that declares an effect. *)
Theorem judged_not_lowered :
  let root := Sample.request Sample.entry [9] Sample.negation [] in
  has_declarations (li_function root) = false /\
  (exists j, judge_function_operations root = Ok j) /\
  forall blake3, lower_function blake3 root = Err (LowerCode LeProfileUnsupported).
Proof. split_and!; [done|vm_compute; by eexists|intros blake3; by vm_compute]. Qed.
