(* ===== verification/VmConstants.v ===== *)
(** * The virtual machine: lowering and the values of constants

    Lowering reads the constants of a request in two places: the judgement of an
    operation, which needs the type of a constant, and the admission of the
    constants of the entry, which needs their canonical form.  So the values that
    callees read are not looked at. *)

From S2P Require Import Prelude State Bytes Ids BTree Ssmc Types CfgGraph Cfg VmJudge VmExec VmBytecode VmLower VmLowering VmLowered.
Set Warnings "-register-all".

Open Scope N_scope.

(** The same constants, but for their values *)
Definition same_declarations : list ConstantDefinition -> list ConstantDefinition -> Prop :=
  Forall2 (fun a b => kd_entity_id a = kd_entity_id b /\ cv_type (kd_value a) = cv_type (kd_value b)).

Definition with_constants (root : LoweringInput) (constants : list ConstantDefinition) : LoweringInput :=
  mkLoweringInput (li_types root) (li_function root) (li_parameters root) (li_blocks root) (li_operations root)
    (li_schema_epoch root) (li_state_root root) (li_profile root) constants (li_globals root) (li_functions root)
    (li_contracts root) (li_adapters root).

Lemma each_ext {S E A} (f g : A -> ST S E unit) l :
  (forall x s, x ∈ l -> f x s = g x s) -> forall s, each f l s = each g l s.
Proof.
  induction l as [|x l IH]; intros H s; [done|]. cbn [each]. unfold mbind, ST_bind. rewrite H by left.
  destruct (g x s) as [[[] s']|]; [|done]. cbn. apply IH. intros y s'' Hy. apply H. by right.
Qed.

Lemma each_congr {S E A} (f g : A -> ST S E unit) l : (forall x s, f x s = g x s) -> forall s, each f l s = each g l s.
Proof. intros H. apply each_ext. auto. Qed.

Lemma for_operations_congr maps (f g : Operation -> M unit) function :
  (forall o w, f o w = g o w) -> forall w, for_operations maps f function w = for_operations maps g function w.
Proof.
  intros H. apply each_congr. intros block w. unfold mbind at 1 3, ST_bind at 1 3.
  destruct (lift _ w) as [[[b ?] w']|]; [|done]. cbn. apply each_congr. intros id w''. unfold mbind, ST_bind.
  destruct (lift _ w'') as [[[o ?] w3]|]; [|done]. apply H.
Qed.

Lemma found_same l l' id :
  same_declarations l l' ->
  option_Forall2 (fun a b => cv_type (kd_value a) = cv_type (kd_value b)) (find_constant l id) (find_constant l' id).
Proof.
  unfold find_constant. induction 1 as [|a b l l' [Hid Ht] _ IH]; cbn [find_first]; [constructor|].
  rewrite <- Hid. destruct (kd_entity_id a =? id); [by constructor|apply IH].
Qed.

Section revalued.
Context (root : LoweringInput) (constants : list ConstantDefinition).
Hypothesis Hsame : same_declarations (li_constants root) constants.
#[local] Abbreviation root' := (with_constants root constants).

Lemma judge_same function opcode immediate operands declared :
  judge_extended_operation (judge_context root' function) opcode immediate operands declared
  = judge_extended_operation (judge_context root function) opcode immediate operands declared.
Proof using Hsame.
  assert (judge_family (judge_context root' function) opcode immediate operands declared
    = judge_family (judge_context root function) opcode immediate operands declared) as H;
    [|unfold judge_extended_operation; by rewrite H].
  destruct opcode; try reflexivity; cbn [judge_family]; unfold judge_constant, judge_global;
    (destruct (entity_immediate immediate) as [id|]; [|done]); cbn [mbind result_bind]; (destruct (no_operands operands); [|done]);
    cbn [mbind result_bind judge_context with_constants lc_constants lc_globals li_constants li_globals].
  - destruct (found_same _ _ id Hsame) as [x y Ht|]; cbn; by rewrite ?Ht.
  - unfold global_initializer. destruct (find_first _ (li_globals root)) as [g|]; [|done]. cbn [mbind option_bind].
    destruct (found_same _ _ (gd_initializer g) Hsame) as [x y Ht|]; [|done]. cbn. rewrite Ht. by destruct (bool_decide _).
Qed.

Lemma judge_operation_same maps function o w :
  judge_operation maps (judge_context root' function) o w = judge_operation maps (judge_context root function) o w.
Proof using Hsame.
  unfold judge_operation, mbind, ST_bind. destruct (collect _ _ w) as [[ts w']|]; [|done]. cbn. by rewrite judge_same.
Qed.

Lemma judge_extended_same input input' maps w :
  li_function input' = li_function input -> judge_extended input' root' maps w = judge_extended input root maps w.
Proof using Hsame.
  intros Hf. unfold judge_extended. rewrite Hf. unfold mbind at 1 2, ST_bind at 1 2.
  destruct (lift _ w) as [[[] w']|]; [|done]. cbn. apply for_operations_congr. intros o v. apply judge_operation_same.
Qed.

Lemma lower_callee_same graph w : lower_callee root' graph w = lower_callee root graph w.
Proof using Hsame.
  unfold lower_callee. cbv zeta. unfold mbind at 1 4, ST_bind at 1 4. cbn [narrow with_constants li_types li_parameters li_blocks li_operations].
  change (owned_blocks root' graph) with (owned_blocks root graph).
  destruct (lift _ w) as [[? w']|]; [|done]. cbn [mbind result_bind]. destruct (has_declarations graph); [done|].
  unfold mbind, ST_bind. change (Maps_build (narrow root' graph) w') with (Maps_build (narrow root graph) w').
  destruct (Maps_build _ w') as [[maps w1]|]; [|done]. cbn [mbind result_bind].
  rewrite (judge_extended_same (narrow root graph)) by done.
  by destruct (judge_extended _ _ _ w1) as [[[] w2]|].
Qed.

Lemma lower_pending_same fuel pending done_ w :
  lower_pending fuel root' pending done_ w = lower_pending fuel root pending done_ w.
Proof using Hsame.
  revert pending done_ w. induction fuel as [|fuel IH]; intros pending done_ w; [done|]. cbn [lower_pending with_constants li_function li_functions li_contracts].
  destruct (next_pending _ done_ pending) as [[function rest]|]; [|done]. unfold mbind, ST_bind.
  destruct (lift _ w) as [[graph w1]|]; [|done]. cbn [mbind result_bind]. rewrite lower_callee_same.
  destruct (lower_callee root graph w1) as [[bytecode w2]|]; [|done]. cbn [mbind result_bind]. apply IH.
Qed.

(** The callees do not depend on the values of constants. *)
Lemma lower_callees_same entry w : lower_callees root' entry w = lower_callees root entry w.
Proof using Hsame.
  unfold lower_callees, mbind, ST_bind. cbn [with_constants li_functions li_contracts]. by rewrite lower_pending_same.
Qed.
End revalued.

(** The admission of the entry's constants has one error. *)
Lemma referenced_error operations constants globals :
  require_canonical_referenced_constants operations constants globals
  = if is_ok (require_canonical_referenced_constants operations constants globals) then Ok tt else Err LeImmediateMismatch.
Proof.
  unfold require_canonical_referenced_constants. destruct (for_each _ _) as [[]|e] eqn:E; [done|].
  apply for_each_Err in E as (o & _ & E). repeat case_match; by simplify_eq.
Qed.

(** C28: error. The values of the constants of a request, maps out of canonical order
    among them, are looked at only where the entry refers to them: change the values
    of the constants of a program that was lowered, but not their types, and the
    program is lowered to the same code, callees included, if the constants the entry
    refers to are canonical, and refused with [LeImmediateMismatch] if not.  The
    constants that only callees refer to are not looked at. *)
Theorem lowering_checks_entry_constants blake3 root constants lf :
  is_extended (li_profile root) = true -> same_declarations (li_constants root) constants ->
  lower_function blake3 root = Ok lf ->
  lower_function blake3 (with_constants root constants)
  = if is_ok (require_canonical_referenced_constants (li_operations (narrow root (li_function root))) constants (li_globals root))
    then Ok lf else Err (LowerCode LeImmediateMismatch).
Proof.
  intros Hext Hsame. unfold lower_function. cbn [with_constants li_profile li_globals]. rewrite Hext. cbv zeta.
  set (input := narrow root (li_function root)).
  change (narrow (with_constants root constants) (li_function (with_constants root constants)))
    with (with_constants input constants).
  intros (report & Hv & H)%bind_Ok. apply bind_Ok in H as (key & Hk & H). destruct (has_declarations (li_function input)) eqn:Hd; [done|].
  apply bind_Ok in H as (w0 & H0 & H). apply bind_Ok in H as ([maps w1] & H1 & H). apply bind_Ok in H as ([[] w2] & H2 & H).
  apply bind_Ok in H as ([] & _ & H). apply bind_Ok in H as ([bytecode w3] & H3 & H).
  change (Maps_build (with_constants input constants)) with (Maps_build input).
  change (preflight_resources (with_constants input constants)) with (preflight_resources input).
  cbn [with_constants li_types li_function li_parameters li_blocks li_operations li_schema_epoch li_state_root li_profile li_constants li_globals].
  rewrite Hv. cbn [mbind result_bind]. rewrite Hk. cbn [mbind result_bind]. rewrite Hd, H0. cbn [mbind result_bind].
  rewrite H1. cbn [mbind result_bind]. rewrite (judge_extended_same root constants Hsame input) by done.
  rewrite H2. cbn [mbind result_bind]. rewrite referenced_error. change (li_globals input) with (li_globals root).
  destruct (is_ok _); [|done]. cbn [lower_code map_err mbind result_bind].
  change (emit_function maps (with_constants input constants)) with (emit_function maps input).
  rewrite H3. cbn [mbind result_bind].
  by rewrite (lower_callees_same root constants Hsame).
Qed.

(** The called function of [Sample.reading] looks a key up in a constant map: it is
    lowered with its two keys in order and out of order, and to the same code. *)
Module Revalued.
Definition ordered : ConstValue :=
  let bool b := mkConstValue TBool (DBool b) in
  mkConstValue (TOrderedMap TBool TBool)
    (DMap [mkMapEntryConst (bool false) (bool true); mkMapEntryConst (bool true) (bool false)]).
Definition canonical : LoweringInput := with_constants (Sample.reading Sample.entry) [mkConstantDefinition 7 ordered].
Definition unordered : list ConstantDefinition := [mkConstantDefinition 7 Sample.unordered].

Definition lowered : LoweredFunction := Eval vm_compute in
  match lower_function Sample.sample_hash canonical with Ok lf => lf | Err _ => Sample.lowered end.
Lemma revalued_lowers : lower_function Sample.sample_hash canonical = Ok lowered.
Proof. vm_compute. reflexivity. Qed.
End Revalued.

Lemma lowering_checks_entry_constants_witness :
  is_ok (ConstEncoding.encode_const_value Sample.unordered) = false /\
  lower_function Sample.sample_hash (Sample.reading Sample.entry) = Ok Revalued.lowered /\
  lower_function Sample.sample_hash (with_constants (Sample.reading (Sample.leaf_function [])) Revalued.unordered)
    = Err (LowerCode LeImmediateMismatch).
Proof.
  split; [by vm_compute|]. split; [|by vm_compute].
  change (Sample.reading Sample.entry) with (with_constants Revalued.canonical Revalued.unordered).
  rewrite (lowering_checks_entry_constants Sample.sample_hash Revalued.canonical Revalued.unordered Revalued.lowered eq_refl
    ltac:(repeat constructor) Revalued.revalued_lowers). by vm_compute.
Defined.
