(* ===== verification/VmValue.v ===== *)
(** * The virtual machine: values in registers (crates/sley-vm/src/execute.rs)

    The value units a value is charged, and the values registers hold: a root
    constant, a path to the part that is meant, and cached units. *)

From S2P Require Import Prelude State Bytes Ids Ssmc Types VmInt VmText VmJudge VmExec VmBytecode.
Set Warnings "-register-all".

Open Scope N_scope.

(** ** Value units *)

Definition U64_MAX : N := U64_LIMIT - 1.

(** [items.map(f).fold(0, saturating_add)] *)
Definition saturating_sum {A} (f : A -> N) (l : list A) : N := foldl (fun total x => saturating_add total (f x)) 0 l.

(** The sum itself *)
Section sum.
Context {A : Type} (f : A -> N).
Fixpoint sum_with (l : list A) : N := match l with [] => 0 | x :: l => f x + sum_with l end.
End sum.

(** [u64::try_from(n).unwrap_or(u64::MAX)] and [saturating_mul] *)
Definition u64_or_max (n : N) : N := N.min n U64_MAX.
Definition saturating_mul (a b : N) : N := N.min (a * b) U64_MAX.

Fixpoint value_units_type (value : TypeExpr) : N :=
  match value with
  | TSInt _ | TUInt _ | TBuiltinFailure _ => 3
  | TUnit | TBool | TF32 | TF64 | TBytes | TText => 1
  | TTuple items =>
      saturating_add (saturating_add 1 (u64_or_max (len items))) (saturating_sum value_units_type items)
  | TNamed _ arguments =>
      saturating_add (saturating_add 33 (u64_or_max (len arguments))) (saturating_sum value_units_type arguments)
  | TVector item | TOption item | TLocalCell item => saturating_add 1 (value_units_type item)
  | TOrderedMap key value | TResult key value =>
      saturating_add (saturating_add 1 (value_units_type key)) (value_units_type value)
  | TFunctionRef parameters result effects =>
      saturating_add
        (saturating_add
          (saturating_add
            (saturating_add (saturating_add 1 (u64_or_max (len parameters))) (saturating_sum value_units_type parameters))
            (value_units_type result))
          (u64_or_max (len effects)))
        (saturating_mul (u64_or_max (len effects)) 32)
  | TAdapterHandle _ | TCapabilityToken _ => 33
  | TTypeParameter _ => 5
  end.

Fixpoint value_units_const (value : ConstValue) : N :=
  match value with
  | mkConstValue value_type data =>
      saturating_add (saturating_add 1 (value_units_type value_type)) (value_units_data data)
  end
with value_units_data (value : ConstData) : N :=
  match value with
  | DBool _ => 2
  | DSInt _ | DUInt _ => 17
  | DF32Bits _ | DBuiltinFailure _ => 5
  | DF64Bits _ => 9
  | DBytes b => saturating_add 1 (u64_or_max (len b))
  | DText text => saturating_add 1 (u64_or_max (len text))
  | DSequence values =>
      saturating_add (saturating_add 1 (u64_or_max (len values))) (saturating_sum value_units_const values)
  | DRecord record =>
      saturating_add (saturating_add 33 (u64_or_max (len (rc_fields record))))
        (saturating_sum (fun field => saturating_add 32 (value_units_const (fc_value field))) (rc_fields record))
  | DVariant variant =>
      saturating_add 65
        match vk_payload variant with None => 0 | Some value => saturating_add 1 (value_units_const value) end
  | DMap entries =>
      saturating_add (saturating_add 1 (u64_or_max (len entries)))
        (saturating_sum (fun entry => saturating_add (value_units_const (me_key entry)) (value_units_const (me_value entry)))
          entries)
  | DUnit | DOption None => 1
  | DOption (Some value) => saturating_add 2 (value_units_const value)
  | DResult (ROk value) | DResult (RErr value) => saturating_add 2 (value_units_const value)
  | DFunctionRef reference =>
      saturating_add (saturating_add 33 (u64_or_max (len (frv_type_arguments reference))))
        (saturating_sum value_units_type (frv_type_arguments reference))
  end.

(** ** Values in registers *)

Inductive Step : Type :=
| StepPayload
| StepItem (index : N).
#[global] Instance Step_eq_dec : EqDecision Step.
Proof. solve_decision. Defined.

Definition MAX_VIEW_PATH : N := 6.

(** The inline path and its depth are one list. *)
Record RuntimeValue : Type := mkRuntimeValue {
  rv_root : ConstValue;
  rv_path : list Step;
  rv_units : N;
  rv_parts : option (list N);
  rv_inner : option (list N)
}.

Definition step_into (value : ConstValue) (step : Step) : option ConstValue :=
  match step, cv_data value with
  | StepPayload, DVariant variant => vk_payload variant
  | StepPayload, (DOption (Some payload) | DResult (ROk payload) | DResult (RErr payload)) => Some payload
  | StepItem index, DSequence items => items !! N.to_nat index
  | StepItem index, DRecord record => fc_value <$> rc_fields record !! N.to_nat index
  | _, _ => None
  end.

(** [Vec::swap_remove]: the element removed; what stays of the vector is dropped here. *)
Definition swap_remove {A} (items : list A) (index : N) : option A :=
  if index <? len items then items !! N.to_nat index else None.

Definition step_out (value : ConstValue) (step : Step) : option ConstValue :=
  match step, cv_data value with
  | StepPayload, DVariant variant => vk_payload variant
  | StepPayload, (DOption (Some payload) | DResult (ROk payload) | DResult (RErr payload)) => Some payload
  | StepItem index, DSequence items => swap_remove items index
  | StepItem index, DRecord record => fc_value <$> swap_remove (rc_fields record) index
  | _, _ => None
  end.

Definition follow (step : ConstValue -> Step -> option ConstValue) (path : list Step) (value : ConstValue)
    : fault_result ConstValue :=
  fold_res (fun value next => ok_or Fault (step value next)) value path.

Definition with_units (value : ConstValue) (units : N) : RuntimeValue := mkRuntimeValue value [] units None None.
Definition rv_new (value : ConstValue) : RuntimeValue := with_units value (value_units_const value).
Definition with_inner (value : ConstValue) (units : N) (inner : option (list N)) : RuntimeValue :=
  mkRuntimeValue value [] units None inner.
Definition with_parts (value : ConstValue) (units : N) (parts : list N) : RuntimeValue :=
  mkRuntimeValue value [] units (Some parts) None.

Definition part_units (value : RuntimeValue) (index : N) : option N :=
  parts ← rv_parts value; parts !! N.to_nat index.

Definition rv_value (value : RuntimeValue) : fault_result ConstValue := follow step_into (rv_path value) (rv_root value).

Definition view (value : RuntimeValue) (step : Step) (units : N) : fault_result RuntimeValue :=
  target ← rv_value value;
  part ← ok_or Fault (step_into target step);
  if len (rv_path value) =? MAX_VIEW_PATH then Ok (with_units part units)
  else
    Ok (mkRuntimeValue (rv_root value) (rv_path value ++ [step]) units
      (if bool_decide (step = StepPayload) then rv_inner value else None) None).

(** [checked_sub] *)
Definition checked_sub (a b : N) : option N := if b <=? a then Some (a - b) else None.

Definition payload_view (value : RuntimeValue) : fault_result RuntimeValue :=
  target ← rv_value value;
  wrapper_units ←
    match cv_data target with
    | DVariant variant =>
        match vk_payload variant with
        | Some _ => Ok (saturating_add 67 (value_units_type (cv_type target)))
        | None => Err Fault
        end
    | DOption (Some _) | DResult _ => Ok (saturating_add 3 (value_units_type (cv_type target)))
    | _ => Err Fault
    end;
  units ← ok_or Fault (checked_sub (rv_units value) wrapper_units);
  view value StepPayload units.

Definition item_view (value : RuntimeValue) (index units : N) : fault_result RuntimeValue := view value (StepItem index) units.

Section sharing.
(** Whether this value is the only owner of its root ([Arc::strong_count], [Arc::try_unwrap]) *)
Variable sole : RuntimeValue -> bool.

Definition into_value (value : RuntimeValue) : fault_result ConstValue :=
  follow (if sole value then step_out else step_into) (rv_path value) (rv_root value).
End sharing.

(** ** Registers *)

Abbreviation Registers := (list (option RuntimeValue)).

Definition read_register (registers : Registers) (register : Register) : fault_result RuntimeValue :=
  ok_or Fault (registers !! N.to_nat register ≫= id).

Definition take_register (register : Register) : ST Registers ExtendedFault RuntimeValue := fun registers =>
  value ← read_register registers register;
  Ok (value, <[N.to_nat register := None]> registers).

Definition write_register (registers : Registers) (register : Register) (value : RuntimeValue) : fault_result Registers :=
  if register <? len registers then Ok (<[N.to_nat register := Some value]> registers) else Err Fault.

(** ** Units are sums

    A saturating sum is the sum, or [u64::MAX]. *)

Fixpoint type_weight (value : TypeExpr) : N :=
  match value with
  | TSInt _ | TUInt _ | TBuiltinFailure _ => 3
  | TUnit | TBool | TF32 | TF64 | TBytes | TText => 1
  | TTuple items => 1 + len items + sum_with type_weight items
  | TNamed _ arguments => 33 + len arguments + sum_with type_weight arguments
  | TVector item | TOption item | TLocalCell item => 1 + type_weight item
  | TOrderedMap key value | TResult key value => 1 + type_weight key + type_weight value
  | TFunctionRef parameters result effects =>
      1 + len parameters + sum_with type_weight parameters + type_weight result + len effects + len effects * 32
  | TAdapterHandle _ | TCapabilityToken _ => 33
  | TTypeParameter _ => 5
  end.

Fixpoint value_weight (value : ConstValue) : N :=
  match value with
  | mkConstValue value_type data => 1 + type_weight value_type + data_weight data
  end
with data_weight (value : ConstData) : N :=
  match value with
  | DBool _ => 2
  | DSInt _ | DUInt _ => 17
  | DF32Bits _ | DBuiltinFailure _ => 5
  | DF64Bits _ => 9
  | DBytes b => 1 + len b
  | DText text => 1 + len text
  | DSequence values => 1 + len values + sum_with value_weight values
  | DRecord record =>
      33 + len (rc_fields record) + sum_with (fun field => 32 + value_weight (fc_value field)) (rc_fields record)
  | DVariant variant => 65 + match vk_payload variant with None => 0 | Some value => 1 + value_weight value end
  | DMap entries =>
      1 + len entries + sum_with (fun entry => value_weight (me_key entry) + value_weight (me_value entry)) entries
  | DUnit | DOption None => 1
  | DOption (Some value) => 2 + value_weight value
  | DResult (ROk value) | DResult (RErr value) => 2 + value_weight value
  | DFunctionRef reference =>
      33 + len (frv_type_arguments reference) + sum_with type_weight (frv_type_arguments reference)
  end.

Definition capped (n : N) : N := N.min n U64_MAX.

(** [a] is the capped [x]. *)
Lemma capped_add a b x y : a = capped x -> b = capped y -> saturating_add a b = capped (x + y).
Proof. intros -> ->. unfold saturating_add, capped, U64_MAX. lia. Qed.
Lemma capped_constant a : a <= U64_MAX -> a = capped a.
Proof. unfold capped. lia. Qed.
Lemma capped_mul a b : saturating_mul (u64_or_max a) b = capped (a * b).
Proof. unfold saturating_mul, u64_or_max, capped. destruct (N.eq_0_gt_0_cases b) as [-> |]; [lia|]. nia. Qed.

Lemma capped_sum {A} (f g : A -> N) l :
  Forall (fun x => f x = capped (g x)) l -> saturating_sum f l = capped (sum_with g l).
Proof.
  intros H. unfold saturating_sum. enough (forall n, foldl (fun total x => saturating_add total (f x)) (capped n) l = capped (n + sum_with g l)) as E
    by (change 0 with (capped 0); apply E).
  induction H as [|x l Hx _ IH]; intros n; cbn [foldl sum_with]; [by rewrite N.add_0_r|].
  rewrite (capped_add _ _ n (g x)) by done. rewrite IH. f_equal. lia.
Qed.

(** [capped_units] follows the additions of a saturating sum. *)
Ltac capped_units :=
  eapply eq_trans;
  [repeat lazymatch goal with
   | |- saturating_add _ _ = _ => apply capped_add
   | |- saturating_mul _ _ = _ => apply capped_mul
   | |- saturating_sum _ _ = _ => apply capped_sum; eassumption
   | |- u64_or_max _ = _ => reflexivity
   | |- capped _ = _ => reflexivity
   | |- value_units_type _ = _ => eassumption
   | |- value_units_const _ = _ => eassumption
   | |- value_units_data _ = _ => eassumption
   | |- _ => apply capped_constant; vm_compute; discriminate
   end
  | f_equal; lia].

Lemma value_units_type_capped t : value_units_type t = capped (type_weight t).
Proof.
  induction t as [t IH] using TypeExpr_ind'.
  destruct t; cbn [value_units_type type_weight]; unfold type_children in IH;
    rewrite ?Forall_app, ?Forall_cons in IH; destruct_and?; capped_units.
Qed.

Lemma value_units_capped v : value_units_const v = capped (value_weight v).
Proof.
  induction v as [t d IH] using ConstValue_ind'. cbn [value_units_const value_weight].
  pose proof (value_units_type_capped t) as Ht.
  enough (value_units_data d = capped (data_weight d)) by capped_units.
  destruct d as [| | | | | | | |items|r|v|entries|o|r|f|f]; cbn [const_children value_units_data data_weight] in *.
  1-9: capped_units.
  - rewrite Forall_fmap in IH.
    assert (Forall (fun x => saturating_add 32 (value_units_const (fc_value x)) = capped (32 + value_weight (fc_value x))) (rc_fields r)).
    { eapply Forall_impl; [exact IH|]. cbn. intros x Hx. capped_units. }
    rewrite (capped_sum _ (fun x => 32 + value_weight (fc_value x))) by done. capped_units.
  - destruct (vk_payload v); cbn in IH; [apply Forall_cons in IH as [? _]|]; capped_units.
  - assert (Forall (fun e => saturating_add (value_units_const (me_key e)) (value_units_const (me_value e))
        = capped (value_weight (me_key e) + value_weight (me_value e))) entries).
    { induction entries as [|e l IHl]; [constructor|]. cbn in IH. rewrite !Forall_cons in IH. destruct IH as (Hk & Hv & IH).
      constructor; [capped_units|by apply IHl]. }
    rewrite (capped_sum _ (fun e => value_weight (me_key e) + value_weight (me_value e))) by done. capped_units.
  - destruct o; cbn in IH; [apply Forall_cons in IH as [? _]|]; capped_units.
  - destruct r; cbn in IH; apply Forall_cons in IH as [? _]; capped_units.
  - assert (Forall (fun x => value_units_type x = capped (type_weight x)) (frv_type_arguments f)).
    { apply Forall_forall. intros x _. apply value_units_type_capped. }
    capped_units.
  - capped_units.
Qed.

(** Units below the maximum are exact. *)
Lemma units_exact v n : n < U64_MAX -> value_units_const v = n <-> value_weight v = n.
Proof. rewrite value_units_capped. unfold capped. lia. Qed.

Lemma units_bound v n : n <= U64_MAX -> value_weight v = n -> value_units_const v = n.
Proof. rewrite value_units_capped. unfold capped. lia. Qed.

Lemma type_units_exact t n : value_units_type t = n -> type_weight t < U64_MAX -> type_weight t = n.
Proof. rewrite value_units_type_capped. unfold capped. lia. Qed.

(** ** Well-formed register values

    [rv_ok rv v]: [rv] stands for [v], and its cached units are exact. *)

Definition parts_of (v : ConstValue) : list ConstValue :=
  match cv_data v with
  | DSequence items => items
  | DRecord record => fc_value <$> rc_fields record
  | _ => []
  end.

Definition parts_ok (v : ConstValue) (parts : list N) : Prop := Forall2 (fun n x => n = value_weight x) parts (parts_of v).

Record rv_ok (rv : RuntimeValue) (v : ConstValue) : Prop := {
  ro_value : rv_value rv = Ok v;
  ro_units : rv_units rv = value_weight v;
  ro_small : value_weight v < U64_MAX;
  ro_parts : forall parts, rv_parts rv = Some parts -> parts_ok v parts;
  ro_inner : forall parts w, rv_inner rv = Some parts -> step_into v StepPayload = Some w -> parts_ok w parts
}.

Lemma swap_remove_lookup {A} (l : list A) i : swap_remove l i = l !! N.to_nat i.
Proof.
  unfold swap_remove. destruct (N.ltb_spec i (len l)) as [Hi|Hi]; [done|]. symmetry. apply lookup_ge_None. unfold len in Hi. lia.
Qed.

Lemma step_out_into v s : step_out v s = step_into v s.
Proof. destruct v as [t d], s as [|i]; [done|]. destruct d; cbn; rewrite ?swap_remove_lookup; done. Qed.

Lemma follow_out_into path v : follow step_out path v = follow step_into path v.
Proof. unfold follow. apply fold_res_ext. intros b x. by rewrite step_out_into. Qed.

Lemma into_value_eq sole rv : into_value sole rv = rv_value rv.
Proof. unfold into_value, rv_value. destruct (sole rv); [apply follow_out_into|done]. Qed.

Lemma follow_app f path path' v : follow f (path ++ path') v = follow f path v ≫= follow f path'.
Proof. unfold follow. apply fold_res_app. Qed.

Lemma with_units_ok v units : units = value_weight v -> value_weight v < U64_MAX -> rv_ok (with_units v units) v.
Proof. intros -> H. by split. Qed.

Lemma rv_new_ok v : value_weight v < U64_MAX -> rv_ok (rv_new v) v.
Proof. intros H. apply with_units_ok; [|done]. rewrite value_units_capped. unfold capped. lia. Qed.

Lemma with_parts_ok v units parts :
  units = value_weight v -> value_weight v < U64_MAX -> parts_ok v parts -> rv_ok (with_parts v units parts) v.
Proof. intros -> H Hp. split; cbn; try done. by intros ? [= <-]. Qed.

Lemma with_inner_ok v w units inner :
  units = value_weight v -> value_weight v < U64_MAX -> step_into v StepPayload = Some w ->
  (forall parts, inner = Some parts -> parts_ok w parts) -> rv_ok (with_inner v units inner) v.
Proof. intros -> H Hw Hp. split; try done. cbn [with_inner rv_inner]. intros parts w' Hi Hw'. rewrite Hw in Hw'. injection Hw' as <-. by apply Hp. Qed.

Lemma sum_with_elem {A} (f : A -> N) l x : x ∈ l -> f x <= sum_with f l.
Proof. induction 1 as [x l|x y l _ IH]; cbn; lia. Qed.

(** A part weighs less than the whole. *)
Lemma step_weight v s w : step_into v s = Some w -> value_weight w < value_weight v.
Proof.
  destruct v as [t d], s as [|i]; cbn [step_into cv_data value_weight].
  - destruct d as [| | | | | | | | | |[m id [p|]]| |[o|]|[o|o]| |]; try done; intros [= ->]; cbn [data_weight vk_payload]; lia.
  - destruct d; try done; cbn [data_weight].
    + intros H%list_elem_of_lookup_2. pose proof (sum_with_elem value_weight _ _ H). lia.
    + intros (x & H & ->)%fmap_Some. apply list_elem_of_lookup_2 in H.
      pose proof (sum_with_elem (fun field => 32 + value_weight (fc_value field)) _ _ H) as Hx. cbv beta in Hx. lia.
Qed.

Lemma view_ok rv v s w units :
  rv_ok rv v -> step_into v s = Some w -> units = value_weight w -> exists rv', view rv s units = Ok rv' /\ rv_ok rv' w.
Proof.
  intros Hrv Hs ->. pose proof (step_weight _ _ _ Hs) as Hlt. pose proof (ro_small _ _ Hrv) as Hsmall.
  unfold view. rewrite (ro_value _ _ Hrv). cbn [mbind result_bind]. rewrite Hs. cbn [ok_or mbind result_bind].
  destruct (_ =? _); eexists; (split; [done|]); [apply with_units_ok; [done|lia]|].
  split; cbn [rv_units rv_parts rv_inner]; [|done|lia| |done].
  - unfold rv_value. cbn [rv_path rv_root]. rewrite follow_app. pose proof (ro_value _ _ Hrv) as E. unfold rv_value in E. rewrite E. cbn.
    by rewrite Hs.
  - case_bool_decide as E; [|done]. intros parts Hp. rewrite E in Hs. by eapply ro_inner.
Qed.

Lemma payload_view_ok rv v w :
  rv_ok rv v -> step_into v StepPayload = Some w -> exists rv', payload_view rv = Ok rv' /\ rv_ok rv' w.
Proof.
  intros Hrv Hs. pose proof (ro_small _ _ Hrv) as Hsmall. pose proof (ro_units _ _ Hrv) as Hunits.
  unfold payload_view. rewrite (ro_value _ _ Hrv). cbn [mbind result_bind]. destruct v as [t d]. cbn [cv_data cv_type].
  assert (type_weight t < U64_MAX) as Ht by (cbn [value_weight] in Hsmall; lia).
  assert (value_units_type t = type_weight t) as Et by (symmetry; by apply type_units_exact).
  assert (forall k, k + type_weight t + value_weight w = value_weight (mkConstValue t d) ->
    ok_or Fault (checked_sub (rv_units rv) (saturating_add k (value_units_type t))) = Ok (value_weight w)) as Hk.
  { intros k Hk. unfold checked_sub, saturating_add. rewrite Hunits, Et. fold U64_MAX.
    rewrite N.min_l by lia. destruct (N.leb_spec (k + type_weight t) (value_weight (mkConstValue t d))); [cbn [ok_or]; f_equal; lia|lia]. }
  cbn [value_weight] in Hk. cbn [step_into cv_data] in Hs.
  destruct d as [| | | | | | | | | |[m id [p|]]| |[o|]|[o|o]| |]; try done; injection Hs as ->; cbn [data_weight vk_payload] in Hk;
    cbn [vk_payload mbind result_bind]; (rewrite Hk by lia); cbn [mbind result_bind]; by eapply view_ok.
Qed.

Lemma item_view_ok rv v i w units :
  rv_ok rv v -> step_into v (StepItem i) = Some w -> units = value_weight w -> exists rv', item_view rv i units = Ok rv' /\ rv_ok rv' w.
Proof. apply view_ok. Qed.
