(* ===== verification/VmOwned.v ===== *)
(** * The virtual machine: operations that own their operands (crates/sley-vm/src/execute/owned.rs)

    The frequent operations are executed on the registers themselves: an operand
    that is dead after the instruction is moved out of its register, a projection
    may share the root it projects from, and the units of the result come from
    those of the operands.  [VmOwnedSound] shows that they return the value of the
    reference operation and its units. *)

From S2P Require Import Prelude State Bytes Ids Ssmc Types ConstEncoding VmInt VmText VmJudge VmExec VmBytecode VmValue.
Set Warnings "-register-all".

Open Scope N_scope.

Definition constant_index (constants : list ConstantDefinition) : gmap N RuntimeValue :=
  foldl (fun index constant =>
    match index !! kd_entity_id constant with
    | Some _ => index
    | None => <[kd_entity_id constant := rv_new (kd_value constant)]> index
    end) ∅ constants.

(** ** Search *)

Definition key_order (stored query_value : ConstValue) (query : bytes) : fault_result comparison :=
  let encoded := b ← key_bytes stored; Ok (bytes_cmp b query) in
  match cv_data stored, cv_data query_value with
  | DBytes left_bytes, DBytes right_bytes =>
      if (len left_bytes =? len right_bytes) && bool_decide (cv_type stored = cv_type query_value)
      then Ok (bytes_cmp left_bytes right_bytes)
      else encoded
  | _, _ => encoded
  end.

(** The position found, or the one to insert at.  [entries[middle]] is in bounds. *)
Fixpoint search_loop (fuel : nat) (entries : list MapEntry) (query_value : ConstValue) (query : bytes) (low high : N)
    : fault_result (N + N) :=
  match fuel with
  | O => Ok (inr low)
  | S fuel =>
      if low <? high then
        let middle := low + (high - low) / 2 in
        entry ← ok_or Fault (entries !! N.to_nat middle);
        order ← key_order (me_key entry) query_value query;
        match order with
        | Lt => search_loop fuel entries query_value query (middle + 1) high
        | Gt => search_loop fuel entries query_value query low middle
        | Eq => Ok (inl middle)
        end
      else Ok (inr low)
  end.

Definition search (entries : list MapEntry) (query_value : ConstValue) (query : bytes) : fault_result (N + N) :=
  search_loop (S (length entries)) entries query_value query 0 (len entries).

Definition shares_well (value : ConstValue) : bool :=
  match cv_data value with
  | DSequence _ | DMap _ | DRecord _ | DBytes _ | DText _ | DVariant _ | DOption (Some _) | DResult _ => true
  | _ => false
  end.

Definition whole (value_type : TypeExpr) (data_units : N) : option N :=
  units ← checked_add 1 (value_units_type value_type); checked_add units data_units.

Abbreviation R := (ST Registers ExtendedFault).
Definition fault {A} : R A := fun _ => Err Fault.
Definition or_fault {A} (o : option A) : R A := lift (ok_or Fault o).
Definition read (register : Register) : R RuntimeValue := fun registers =>
  value ← read_register registers register; Ok (value, registers).

Definition operand (register : Register) (dead : bool) : R RuntimeValue :=
  if dead then take_register register else read register.

Section execute.
Variable sole : RuntimeValue -> bool.
Variable types : Definitions.
Variable constants : gmap N RuntimeValue.
Variable opcode : Opcode.
Variable immediate : Immediate.
Variable mask : N.
Variable result_type : TypeExpr.

Definition dead (k : N) : bool := (k <? 64) && N.testbit mask k.
Definition typed_value (data : ConstData) : ConstValue := mkConstValue result_type data.

(** Moving out of a shared root would copy it: [unique] *)
Definition movable (k : N) (register : Register) : R bool := fun registers =>
  Ok (dead k && match read_register registers register with Ok value => sole value | Err _ => false end, registers).

(** The loop over the operands of a constructor; [part] is what a part adds to the units. *)
Definition gather_step (part : N -> option N) (state : N * list N * list ConstValue) (operand_at : N * Register)
    : R (N * list N * list ConstValue) :=
  let '(units, parts, items) := state in
  let '(k, register) := operand_at in
  value ← operand register (dead k);
  units ← or_fault (n ← part (rv_units value); checked_add units n);
  item ← lift (into_value sole value);
  mret (units, parts ++ [rv_units value], items ++ [item]).

Definition gather (part : N -> option N) (units : N) (operands : list Register) : R (N * list N * list ConstValue) :=
  fold (gather_step part) (units, [], []) (enumerate operands).

Definition own_constant : R (option RuntimeValue) :=
  match immediate with
  | ImmEntity id => value ← or_fault (constants !! id); mret (Some value)
  | _ => fault
  end.

Definition own_sequence (operands : list Register) : R (option RuntimeValue) :=
  units ← or_fault (checked_add 1 (len operands));
  '(units, parts, items) ← gather Some units operands;
  units ← or_fault (whole result_type units);
  let value := typed_value (DSequence items) in
  mret (Some (if bool_decide (opcode = OpTupleNew) then with_parts value units parts else with_units value units)).

Definition own_record (operands : list Register) : R (option RuntimeValue) :=
  match immediate with
  | ImmEntity definition =>
      fields ← lift (VmExec.lowered (record_fields types definition));
      if negb (len fields =? len operands) then fault
      else
        units ← or_fault (checked_add 33 (len operands));
        '(units, parts, items) ← gather (checked_add 32) units operands;
        units ← or_fault (whole result_type units);
        mret (Some (with_parts
          (typed_value (DRecord (mkRecordConst definition
            (zip_with (fun field value => mkFieldConst (rf_member_id field) value) fields items)))) units parts))
  | _ => fault
  end.

Definition own_variant (operands : list Register) : R (option RuntimeValue) :=
  match immediate with
  | ImmVariant variant =>
      '(payload, payload_units) ←
        match operands with
        | [register] =>
            value ← operand register (dead 0);
            units ← or_fault (checked_add 1 (rv_units value));
            payload ← lift (into_value sole value);
            mret (Some payload, units)
        | _ => mret (None, 0)
        end;
      units ← or_fault (n ← checked_add 65 payload_units; whole result_type n);
      mret (Some (with_units
        (typed_value (DVariant (mkVariantConst (vi_definition variant) (vi_member_id variant) payload))) units))
  | _ => fault
  end.

Definition own_wrapper (register : Register) : R (option RuntimeValue) :=
  value ← operand register (dead 0);
  units ← or_fault (n ← checked_add 2 (rv_units value); whole result_type n);
  payload ← lift (into_value sole value);
  let data :=
    match opcode with
    | OpOptionSome => DOption (Some payload)
    | OpResultOk => DResult (ROk payload)
    | _ => DResult (RErr payload)
    end in
  mret (Some (with_inner (typed_value data) units (rv_parts value))).

(** [u32::try_from] *)
Definition u32_of (value : N) : option N := if value <? 2 ^ 32 then Some value else None.

(** A projected part by its position: moved, shared or copied *)
Definition project (position : ConstValue -> option N) (part : ConstValue -> N -> option ConstValue) (register : Register)
    : R (option RuntimeValue) :=
  moved ← movable 0 register;
  if (moved : bool) then
    source ← take_register register;
    value ← lift (into_value sole source);
    element ← or_fault (index ← position value; part value index);
    mret (Some (with_units element (value_units_const element)))
  else
    source ← read register;
    value ← lift (rv_value source);
    index ← or_fault (position value);
    element ← or_fault (part value index);
    if shares_well element then
      index ← or_fault (u32_of index);
      shared ← lift (item_view source index (default (value_units_const element) (part_units source index)));
      mret (Some shared)
    else mret (Some (with_units element (value_units_const element))).

(** [index] of a sequence, as long as it has one *)
Definition sequence_part (value : ConstValue) (index : N) : option ConstValue :=
  match cv_data value with DSequence items => swap_remove items index | _ => None end.
Definition record_part (value : ConstValue) (index : N) : option ConstValue :=
  match cv_data value with DRecord record => fc_value <$> swap_remove (rc_fields record) index | _ => None end.

(** [fields.iter().position(..)] *)
Definition field_position (member : MemberId) (value : ConstValue) : option N :=
  match cv_data value with
  | DRecord record => (fun found => N.of_nat (fst found)) <$> list_find (fun field => fc_member_id field = member) (rc_fields record)
  | _ => None
  end.

Definition own_tuple_get (register : Register) : R (option RuntimeValue) :=
  match immediate with ImmIndex index => project (fun _ => Some index) sequence_part register | _ => fault end.
Definition own_record_get (register : Register) : R (option RuntimeValue) :=
  match immediate with ImmField member => project (field_position member) record_part register | _ => fault end.

Definition uint_data (value : ConstValue) : option N := match cv_data value with DUInt n => Some n | _ => None end.
Definition sequence_data (value : ConstValue) : option (list ConstValue) :=
  match cv_data value with DSequence items => Some items | _ => None end.
Definition map_data (value : ConstValue) : option (list MapEntry) :=
  match cv_data value with DMap entries => Some entries | _ => None end.

(** The value a register holds, borrowed *)
Definition read_value (register : Register) : R ConstValue := value ← read register; lift (rv_value value).

Definition walked (value : ConstValue) : option RuntimeValue := Some (with_units value (value_units_const value)).

Definition own_vector_get (vector index : Register) : R (option RuntimeValue) :=
  found ← read_value index;
  index ← or_fault (uint_data found);
  moved ← movable 0 vector;
  items ←
    (if (moved : bool)
     then source ← take_register vector; value ← lift (into_value sole source); or_fault (sequence_data value)
     else value ← read_value vector; or_fault (sequence_data value));
  let element := position ← usize_of index; if position <? len items then items !! N.to_nat position else None in
  mret (walked (typed_value (DOption element))).

Definition own_vector_set (vector index replacement : Register) : R (option RuntimeValue) :=
  found ← read_value index;
  index ← or_fault (uint_data found);
  '(ok, error) ← or_fault (match result_type with TResult ok error => Some (ok, error) | _ => None end);
  vector ← operand vector (dead 0);
  value ← lift (into_value sole vector);
  items ← or_fault (sequence_data value);
  match (position ← usize_of index; if position <? len items then Some position else None) with
  | Some position =>
      replacement ← operand replacement (dead 2);
      old ← or_fault (items !! N.to_nat position);
      item ← lift (into_value sole replacement);
      let inner :=
        units ← checked_sub (rv_units vector) (value_units_type (cv_type value));
        units ← checked_add units (value_units_type ok);
        units ← checked_sub units (value_units_const old);
        checked_add units (rv_units replacement) in
      let result := typed_value (DResult (ROk (mkConstValue ok (DSequence (<[N.to_nat position := item]> items))))) in
      mret (Some (with_units result
        (default (value_units_const result) (inner ← inner; n ← checked_add 2 inner; whole result_type n))))
  | None => mret (walked (typed_value (DResult (RErr (builtin_error error BFIndex 1)))))
  end.

Definition own_map_read (map key : Register) : R (option RuntimeValue) :=
  key_value ← read_value key;
  query ← lift (key_bytes key_value);
  map ← read_value map;
  entries ← or_fault (map_data map);
  found ← lift (search entries key_value query);
  let position := match found with inl position => Some position | inr _ => None end in
  mret (walked
    (if bool_decide (opcode = OpMapGet)
     then typed_value (DOption (position ← position; me_value <$> entries !! N.to_nat position))
     else mkConstValue TBool (DBool (bool_decide (is_Some position))))).

(** The units of an updated map: its type, and what the update took and gave *)
Definition updated_units (map_units : N) (map_type : TypeExpr) (removed added : option N) : option N :=
  removed ← removed;
  units ← checked_sub map_units (value_units_type map_type);
  units ← checked_add units (value_units_type result_type);
  units ← checked_sub units removed;
  added ← added;
  checked_add units added.

Definition own_map_insert (map key value : Register) : R (option RuntimeValue) :=
  key ← operand key (dead 1);
  value ← operand value (dead 2);
  map ← operand map (dead 0);
  map_value ← lift (into_value sole map);
  key_value ← lift (into_value sole key);
  query ← lift (key_bytes key_value);
  entries ← or_fault (map_data map_value);
  item ← lift (into_value sole value);
  let entry := mkMapEntryConst key_value item in
  found ← lift (search entries key_value query);
  '(entries, removed, added) ←
    match found with
    | inl position =>
        old ← or_fault (entries !! N.to_nat position);
        mret (<[N.to_nat position := entry]> entries,
              checked_add (value_units_const (me_key old)) (value_units_const (me_value old)),
              checked_add (rv_units key) (rv_units value))
    | inr position =>
        mret (take (N.to_nat position) entries ++ entry :: drop (N.to_nat position) entries, Some 0,
              n ← checked_add 1 (rv_units key); checked_add n (rv_units value))
    end;
  let result := typed_value (DMap entries) in
  mret (Some (with_units result
    (default (value_units_const result) (updated_units (rv_units map) (cv_type map_value) removed added)))).

Definition own_map_remove (map key : Register) : R (option RuntimeValue) :=
  key_value ← read_value key;
  query ← lift (key_bytes key_value);
  map ← operand map (dead 0);
  map_value ← lift (into_value sole map);
  entries ← or_fault (map_data map_value);
  found ← lift (search entries key_value query);
  '(entries, removed) ←
    match found with
    | inl position =>
        entry ← or_fault (entries !! N.to_nat position);
        mret (delete (N.to_nat position) entries,
              n ← checked_add 1 (value_units_const (me_key entry)); checked_add n (value_units_const (me_value entry)))
    | inr _ => mret (entries, Some 0)
    end;
  let result := typed_value (DMap entries) in
  mret (Some (with_units result
    (default (value_units_const result) (updated_units (rv_units map) (cv_type map_value) removed (Some 0))))).

(** [owned::execute]: [None] defers to the reference operation. *)
Definition owned_execute (operands : list Register) : R (option RuntimeValue) :=
  match opcode, operands with
  | OpConstantRef, [] => own_constant
  | (OpTupleNew | OpVectorNew), operands => own_sequence operands
  | OpRecordNew, operands => own_record operands
  | OpVariantNew, ([] | [_]) => own_variant operands
  | (OpOptionSome | OpResultOk | OpResultErr), [register] => own_wrapper register
  | OpTupleGet, [register] => own_tuple_get register
  | OpRecordGet, [register] => own_record_get register
  | OpVectorGet, [vector; index] => own_vector_get vector index
  | OpVectorSet, [vector; index; replacement] => own_vector_set vector index replacement
  | (OpMapGet | OpMapContains), [map; key] => own_map_read map key
  | OpMapInsert, [map; key; value] => own_map_insert map key value
  | OpMapRemove, [map; key] => own_map_remove map key
  | _, _ => mret None
  end.
End execute.
