(* ===== verification/VmOwnedSound.v ===== *)
(** * The virtual machine: owned operations return what the reference operations do

    On registers that hold the operands, [owned_execute] returns a register value
    that stands for the value of the reference operation, with exact units,
    whatever the reference counts of roots are; it changes no register but the
    operands that are dead. *)

From S2P Require Import Prelude State Bytes Ids Ssmc Types ConstEncoding ConstWire.
From S2P Require Import VmInt VmFloat VmText VmBridge VmJudge VmExec VmTyped VmMap VmBytecode VmValue VmOwned.
Set Warnings "-register-all".

Open Scope N_scope.

(** ** Weights *)

Lemma sum_with_app {A} (f : A -> N) l l' : sum_with f (l ++ l') = sum_with f l + sum_with f l'.
Proof. induction l as [|x l IH]; cbn; [done|]. rewrite IH. lia. Qed.

Lemma sum_with_insert {A} (f : A -> N) l i x y :
  l !! i = Some x -> sum_with f (<[i := y]> l) + f x = sum_with f l + f y.
Proof.
  revert i. induction l as [|z l IH]; intros [|i] H; try done; simpl in H |- *; [injection H as ->; lia|].
  specialize (IH _ H). simpl. lia.
Qed.

Lemma sum_with_delete {A} (f : A -> N) l i x : l !! i = Some x -> sum_with f (delete i l) + f x = sum_with f l.
Proof. revert i. induction l as [|z l IH]; intros [|i] H; try done; simpl in H |- *; [injection H as ->; lia|]. specialize (IH _ H). lia. Qed.

Lemma sum_with_insert_at {A} (f : A -> N) l i x : sum_with f (take i l ++ x :: drop i l) = sum_with f l + f x.
Proof. rewrite sum_with_app. cbn. rewrite <- (take_drop i l) at 3. rewrite sum_with_app. lia. Qed.

Lemma sum_with_Forall2 {A B} (f : A -> N) (g : B -> N) l k :
  Forall2 (fun x y => f x = g y) l k -> sum_with f l = sum_with g k.
Proof. induction 1 as [|x y l k H _ IH]; cbn; lia. Qed.

Lemma sum_with_fmap {A B} (f : B -> N) (g : A -> B) l : sum_with f (g <$> l) = sum_with (fun x => f (g x)) l.
Proof. induction l as [|x l IH]; cbn; [done|]. by rewrite IH. Qed.

Lemma checked_add_lt a b : a + b < U64_LIMIT -> checked_add a b = Some (a + b).
Proof. intros H. by apply checked_add_Some. Qed.

Lemma whole_lt t d : 1 + type_weight t + d < U64_MAX -> whole t d = Some (1 + type_weight t + d).
Proof.
  intros H. unfold whole. assert (value_units_type t = type_weight t) as -> by (symmetry; apply type_units_exact; [done|lia]).
  unfold U64_MAX in H. rewrite checked_add_lt by lia. cbn [mbind option_bind]. apply checked_add_lt. lia.
Qed.

Lemma whole_Some t d n : whole t d = Some n -> type_weight t < U64_MAX -> n = 1 + type_weight t + d.
Proof.
  intros H Ht. unfold whole in H. assert (value_units_type t = type_weight t) as E by (symmetry; by apply type_units_exact).
  rewrite E in H. apply bind_Some in H as (a & [-> _]%checked_add_Some & [-> _]%checked_add_Some). done.
Qed.

(** ** Registers *)

Definition holds (regs : Registers) (r : Register) (v : ConstValue) : Prop :=
  exists rv, regs !! N.to_nat r = Some (Some rv) /\ rv_ok rv v.

Lemma read_holds regs r v : holds regs r v -> exists rv, read_register regs r = Ok rv /\ rv_ok rv v.
Proof. intros (rv & H & Hrv). exists rv. unfold read_register. by rewrite H. Qed.

Section operands.
Variable mask : N.
Variable operands : list Register.
#[local] Abbreviation dead := (dead mask).

(** An operand that is dead occurs once. *)
Definition dead_once : Prop :=
  forall k j r, dead k = true -> operands !! N.to_nat k = Some r -> operands !! N.to_nat j = Some r -> j = k.

(** [after taken regs0 regs]: the dead operands in [taken] may have been moved out of [regs0]. *)
Definition after (taken : N -> Prop) (regs0 regs : Registers) : Prop :=
  length regs = length regs0 /\
  forall r, regs !! N.to_nat r = regs0 !! N.to_nat r \/
    exists k, taken k /\ dead k = true /\ operands !! N.to_nat k = Some r.

Lemma after_refl taken regs : after taken regs regs.
Proof using. split; [done|]. by left. Qed.

Lemma after_weaken (taken taken' : N -> Prop) regs0 regs :
  (forall k, taken k -> taken' k) -> after taken regs0 regs -> after taken' regs0 regs.
Proof using. intros H [Hl Ha]. split; [done|]. intros r. destruct (Ha r) as [?|(k & ? & ?)]; [by left|right; exists k; auto]. Qed.

Hypothesis Hdead : dead_once.

(** An operand that was not taken is still there. *)
Lemma read_after taken regs0 regs k r v :
  after taken regs0 regs -> operands !! N.to_nat k = Some r -> ~ taken k -> holds regs0 r v ->
  exists rv, read_register regs r = Ok rv /\ rv_ok rv v.
Proof using Hdead.
  intros [_ Ha] Hk Ht Hh. destruct (Ha r) as [E|(j & Hj & Hd & Hr)].
  - apply read_holds. destruct Hh as (rv & H & Hrv). exists rv. by rewrite E.
  - assert (k = j) as -> by by eapply Hdead. done.
Qed.

Lemma read_ok taken regs0 regs k r v :
  after taken regs0 regs -> operands !! N.to_nat k = Some r -> ~ taken k -> holds regs0 r v ->
  exists rv, read r regs = Ok (rv, regs) /\ rv_ok rv v.
Proof using Hdead.
  intros Ha Hk Ht Hh. destruct (read_after _ _ _ _ _ _ Ha Hk Ht Hh) as (rv & Hrv & Hok). exists rv. unfold read. by rewrite Hrv.
Qed.

Lemma read_value_ok taken regs0 regs k r v :
  after taken regs0 regs -> operands !! N.to_nat k = Some r -> ~ taken k -> holds regs0 r v ->
  read_value r regs = Ok (v, regs).
Proof using Hdead.
  intros Ha Hk Ht Hh. destruct (read_ok _ _ _ _ _ _ Ha Hk Ht Hh) as (rv & Hrv & Hok).
  unfold read_value, mbind, ST_bind. rewrite Hrv. cbn. rewrite (ro_value _ _ Hok). done.
Qed.

Lemma take_ok taken regs0 regs k r v :
  after taken regs0 regs -> operands !! N.to_nat k = Some r -> ~ taken k -> dead k = true -> holds regs0 r v ->
  exists rv regs', take_register r regs = Ok (rv, regs') /\ rv_ok rv v /\ after (fun j => j = k \/ taken j) regs0 regs'.
Proof using Hdead.
  intros Ha Hk Ht Hd Hh. destruct (read_after _ _ _ _ _ _ Ha Hk Ht Hh) as (rv & Hrv & Hok).
  exists rv, (<[N.to_nat r := None]> regs). unfold take_register. rewrite Hrv. cbn. split_and!; [done..|].
  destruct Ha as [Hl Ha]. split; [by rewrite length_insert|]. intros r'.
  destruct (decide (r' = r)) as [->|Hne].
  - right. exists k. split_and!; [by left|done..].
  - rewrite list_lookup_insert_ne by lia. destruct (Ha r') as [?|(j & ? & ?)]; [by left|right; exists j; auto].
Qed.

Lemma operand_ok taken regs0 regs k r v :
  after taken regs0 regs -> operands !! N.to_nat k = Some r -> ~ taken k -> holds regs0 r v ->
  exists rv regs', operand r (dead k) regs = Ok (rv, regs') /\ rv_ok rv v /\ after (fun j => j = k \/ taken j) regs0 regs'.
Proof using Hdead.
  intros Ha Hk Ht Hh. unfold operand. destruct (dead k) eqn:Hd; [by eapply take_ok|].
  destruct (read_ok _ _ _ _ _ _ Ha Hk Ht Hh) as (rv & Hrv & Hok). exists rv, regs. split_and!; [done..|].
  eapply after_weaken; [|exact Ha]. by right.
Qed.
End operands.

(** [step H] runs the next action of a computation, known by [H : action regs = Ok _]. *)
Lemma ST_step {S E A B} (m : ST S E A) (k : A -> ST S E B) s a s' : m s = Ok (a, s') -> (m ≫= k) s = k a s'.
Proof. intros H. unfold mbind, ST_bind. by rewrite H. Qed.

Lemma lift_step {S E A B} (m : result E A) (k : A -> ST S E B) s a : m = Ok a -> (lift m ≫= k) s = k a s.
Proof. intros ->. done. Qed.

Lemma or_fault_step {A B} (o : option A) (k : A -> R B) s a : o = Some a -> (or_fault o ≫= k) s = k a s.
Proof. intros ->. done. Qed.

Lemma ST_assoc {S E A B C} (m : ST S E A) (k : A -> ST S E B) (j : B -> ST S E C) s :
  ((m ≫= k) ≫= j) s = (m ≫= fun a => k a ≫= j) s.
Proof. unfold mbind, ST_bind. destruct (m s) as [[a s']|]; done. Qed.

Lemma ret_step {S E A B} (a : A) (k : A -> ST S E B) s : ((mret a : ST S E A) ≫= k) s = k a s.
Proof. done. Qed.

Lemma into_value_ok sole rv v : rv_ok rv v -> into_value sole rv = Ok v.
Proof. intros H. rewrite into_value_eq. apply (ro_value _ _ H). Qed.

(** ** Constructors *)

Section owned.
Variable sole : RuntimeValue -> bool.
Variable mask : N.
Variable operands : list Register.
Hypothesis Hdead : dead_once mask operands.
Variable regs0 : Registers.
Variable values : list ConstValue.
Hypothesis Hvalues : Forall2 (holds regs0) operands values.
#[local] Abbreviation after := (after mask operands).

(** What an arm has to return for the value [v] *)
Definition gives (m : R (option RuntimeValue)) (v : ConstValue) : Prop :=
  exists rv regs', m regs0 = Ok (Some rv, regs') /\ rv_ok rv v /\ after (fun _ => True) regs0 regs'.

Lemma after_any taken regs : after taken regs0 regs -> after (fun _ => True) regs0 regs.
Proof using Type. by apply after_weaken. Qed.

Lemma value_at k r : operands !! k = Some r -> exists v, values !! k = Some v /\ holds regs0 r v.
Proof using Hvalues. intros H. destruct (Forall2_lookup_l _ _ _ _ _ Hvalues H) as (v & ? & ?). by exists v. Qed.

Lemma gather_loop part extra rest i units parts items regs :
  (forall n, extra + n < U64_LIMIT -> part n = Some (extra + n)) ->
  drop (N.to_nat i) operands = rest -> after (fun k => k < i) regs0 regs ->
  let vs := drop (N.to_nat i) values in
  units + sum_with (fun v => extra + value_weight v) vs < U64_LIMIT ->
  exists regs', fold (gather_step sole mask part) (units, parts, items) (enumerate_from i rest) regs =
    Ok ((units + sum_with (fun v => extra + value_weight v) vs, parts ++ (value_weight <$> vs), items ++ vs), regs') /\
    after (fun _ => True) regs0 regs'.
Proof using Hdead Hvalues.
  intros Hpart. revert i units parts items regs. induction rest as [|r rest IH]; intros i units parts items regs Hrest Ha vs Hsum.
  - assert (vs = []) as ->.
    { apply Forall2_length in Hvalues. unfold vs. apply nil_length_inv. rewrite length_drop.
      apply (f_equal length) in Hrest. rewrite length_drop in Hrest. cbn in Hrest. lia. }
    cbn [enumerate_from fold fmap list_fmap]. exists regs. rewrite N.add_0_r, !app_nil_r. split; [done|by eapply after_any].
  - assert (operands !! N.to_nat i = Some r) as Hr by (rewrite <- (Nat.add_0_r (N.to_nat i)), <- lookup_drop, Hrest; done).
    destruct (value_at _ _ Hr) as (v & Hv & Hh). assert (vs = v :: drop (N.to_nat (i + 1)) values) as Evs.
    { unfold vs. replace (N.to_nat (i + 1)) with (S (N.to_nat i)) by lia. by apply drop_S. }
    rewrite Evs in Hsum. cbn [sum_with] in Hsum. cbv beta in Hsum.
    assert (~ i < i) as Hfresh by lia.
    destruct (operand_ok _ _ Hdead _ _ _ _ _ _ Ha Hr Hfresh Hh) as (rv & regs1 & Hop & Hrv & Ha1).
    edestruct (IH (i + 1) (units + (extra + value_weight v)) (parts ++ [value_weight v]) (items ++ [v]) regs1) as (regs' & Hl & Ha').
    + replace (N.to_nat (i + 1)) with (S (N.to_nat i)) by lia. erewrite drop_S in Hrest by exact Hr. by injection Hrest.
    + eapply after_weaken; [|exact Ha1]. cbv beta. intros k [->|?]; lia.
    + lia.
    + exists regs'. split; [|done]. cbn [enumerate_from fold].
      assert (gather_step sole mask part (units, parts, items) (i, r) regs =
        Ok ((units + (extra + value_weight v), parts ++ [value_weight v], items ++ [v]), regs1)) as Hstep.
      { unfold gather_step. rewrite (ST_step _ _ _ _ _ Hop), (ro_units _ _ Hrv).
        rewrite (or_fault_step _ _ _ (units + (extra + value_weight v)));
          [|rewrite Hpart by lia; cbn [mbind option_bind]; apply checked_add_lt; lia].
        by rewrite (lift_step _ _ _ _ (into_value_ok _ _ _ Hrv)). }
      rewrite (ST_step _ _ _ _ _ Hstep), Hl, Evs. cbn [sum_with fmap list_fmap].
      by rewrite <- !app_assoc, <- N.add_assoc.
Qed.

Lemma gather_ok part extra units :
  (forall n, extra + n < U64_LIMIT -> part n = Some (extra + n)) ->
  units + sum_with (fun v => extra + value_weight v) values < U64_LIMIT ->
  exists regs', gather sole mask part units operands regs0 =
    Ok ((units + sum_with (fun v => extra + value_weight v) values, value_weight <$> values, values), regs') /\
    after (fun _ => True) regs0 regs'.
Proof using Hdead Hvalues.
  intros Hpart Hsum. destruct (gather_loop part extra operands 0 units [] [] regs0 Hpart) as (regs' & H & Ha); try done.
  - apply after_refl.
  - by exists regs'.
Qed.
Lemma weights_parts l : Forall2 (fun n x => n = value_weight x) (value_weight <$> l) l.
Proof using Type. induction l; constructor; auto. Qed.

Lemma gives_intro m v rv regs' :
  m regs0 = Ok (Some rv, regs') -> rv_ok rv v -> after (fun _ => True) regs0 regs' -> gives m v.
Proof using Type. intros. by exists rv, regs'. Qed.

Section result.
Variable opcode : Opcode.
Variable immediate : Immediate.
Variable result_type : TypeExpr.
#[local] Abbreviation typed := (mkConstValue result_type).

Lemma own_sequence_ok :
  value_weight (typed (DSequence values)) < U64_MAX ->
  gives (own_sequence sole opcode mask result_type operands) (typed (DSequence values)).
Proof using Hdead Hvalues.
  intros Hw. pose proof Hw as Hlt. cbn [value_weight data_weight] in Hlt. pose proof (Forall2_length _ _ _ Hvalues) as Hlen.
  assert (len operands = len values) as El by (unfold len; lia). unfold own_sequence.
  destruct (gather_ok Some 0 (1 + len operands)) as (regs' & Hg & Ha); [done|change (sum_with (fun v => 0 + value_weight v) values) with (sum_with value_weight values); unfold U64_MAX in *; lia|].
  change (sum_with (fun v => 0 + value_weight v) values) with (sum_with value_weight values) in Hg.
  eapply gives_intro; [|shelve|exact Ha].
  rewrite (or_fault_step _ _ _ (1 + len operands)) by (apply checked_add_lt; unfold U64_MAX in *; lia).
  rewrite (ST_step _ _ _ _ _ Hg).
  rewrite (or_fault_step _ _ _ (value_weight (typed (DSequence values))));
    [reflexivity|]. rewrite whole_lt by lia. cbn [value_weight data_weight]. f_equal; lia.
  Unshelve. case_bool_decide; [apply with_parts_ok|apply with_units_ok]; try done. apply weights_parts.
Qed.

Lemma own_variant_ok variant payload :
  immediate = ImmVariant variant -> values = option_list payload ->
  let v := typed (DVariant (mkVariantConst (vi_definition variant) (vi_member_id variant) payload)) in
  value_weight v < U64_MAX -> gives (own_variant sole immediate mask result_type operands) v.
Proof using Hdead Hvalues.
  intros -> Hp v Hw. pose proof Hw as Hlt. cbn [v value_weight data_weight vk_payload] in Hlt.
  unfold own_variant. destruct payload as [w|]; cbn [option_list] in Hp; rewrite Hp in Hvalues.
  - apply Forall2_cons_inv_r in Hvalues as (r & l & Hr & Hnil & E). apply Forall2_nil_inv_r in Hnil as ->. rewrite E.
    destruct (operand_ok mask operands Hdead _ _ _ 0 _ _ (after_refl _ _ (fun _ => False) regs0) ltac:(by rewrite E) ltac:(tauto) Hr)
      as (rv & regs1 & Hop & Hrv & Ha). eapply gives_intro; [|apply with_units_ok; [reflexivity|exact Hw]|by eapply after_any].
    rewrite ST_assoc, (ST_step _ _ _ _ _ Hop), ST_assoc, (ro_units _ _ Hrv).
    rewrite (or_fault_step _ _ _ (1 + value_weight w)) by (apply checked_add_lt; unfold U64_MAX in *; lia).
    rewrite ST_assoc, (lift_step _ _ _ _ (into_value_ok _ _ _ Hrv)), ret_step.
    rewrite (or_fault_step _ _ _ (value_weight v)); [done|].
    rewrite checked_add_lt by (unfold U64_MAX in *; lia). cbn [mbind option_bind]. rewrite whole_lt by lia.
    cbn [v value_weight data_weight vk_payload]. f_equal; lia.
  - apply Forall2_nil_inv_r in Hvalues as ->.
    eapply gives_intro; [|apply with_units_ok; [reflexivity|exact Hw]|apply after_refl].
    rewrite ret_step, (or_fault_step _ _ _ (value_weight v)); [done|].
    cbn [checked_add]. rewrite checked_add_lt by done. cbn [mbind option_bind]. rewrite whole_lt by lia.
    cbn [v value_weight data_weight vk_payload]. f_equal; lia.
Qed.

(** [Some], [Ok] and [Err] *)
Definition wrapped (w : ConstValue) : ConstData :=
  match opcode with
  | OpOptionSome => DOption (Some w)
  | OpResultOk => DResult (ROk w)
  | _ => DResult (RErr w)
  end.

Lemma own_wrapper_ok r w :
  operands = [r] -> values = [w] -> value_weight (typed (wrapped w)) < U64_MAX ->
  gives (own_wrapper sole opcode mask result_type r) (typed (wrapped w)).
Proof using Hdead Hvalues.
  intros E Ev Hw. rewrite E, Ev in Hvalues. apply Forall2_cons_1 in Hvalues as [Hr _].
  destruct (operand_ok mask operands Hdead _ _ _ 0 _ _ (after_refl _ _ (fun _ => False) regs0) ltac:(by rewrite E) ltac:(tauto) Hr)
    as (rv & regs1 & Hop & Hrv & Ha).
  assert (value_weight (typed (wrapped w)) = 1 + type_weight result_type + (2 + value_weight w)) as Ew by (unfold wrapped; destruct opcode; done).
  eapply gives_intro; [|eapply (with_inner_ok _ w _ (rv_parts rv)); [reflexivity|exact Hw|unfold wrapped; by destruct opcode|apply (ro_parts _ _ Hrv)]|by eapply after_any].
  unfold own_wrapper. rewrite (ST_step _ _ _ _ _ Hop), (ro_units _ _ Hrv).
  rewrite (or_fault_step _ _ _ (value_weight (typed (wrapped w)))).
  - by rewrite (lift_step _ _ _ _ (into_value_ok _ _ _ Hrv)).
  - rewrite checked_add_lt by (unfold U64_MAX in *; lia). cbn [mbind option_bind]. rewrite whole_lt by lia. by rewrite Ew.
Qed.

Lemma own_record_ok types definition fields :
  immediate = ImmEntity definition -> record_fields types definition = Ok fields -> len fields = len values ->
  let v := typed (DRecord (mkRecordConst definition
    (zip_with (fun field value => mkFieldConst (rf_member_id field) value) fields values))) in
  value_weight v < U64_MAX -> gives (own_record sole types immediate mask result_type operands) v.
Proof using Hdead Hvalues.
  intros -> Hf Hl v Hw. pose proof (Forall2_length _ _ _ Hvalues) as Hlen.
  assert (length fields = length values) as Hlf by (unfold len in Hl; lia).
  set (entries := zip_with (fun field value => mkFieldConst (rf_member_id field) value) fields values) in *.
  assert (fc_value <$> entries = values) as Hentries.
  { subst entries. clear -Hlf. revert values Hlf.
    induction fields as [|f fs IH]; intros [|x xs] Hlf; try done. cbn in Hlf |- *. f_equal. apply IH. lia. }
  assert (sum_with (fun field => 32 + value_weight (fc_value field)) entries = sum_with (fun v => 32 + value_weight v) values) as Hsum
    by (by rewrite <- Hentries, sum_with_fmap).
  assert (len entries = len operands) as Hle by (rewrite <- (len_fmap fc_value), Hentries; unfold len; lia).
  pose proof Hw as Hlt. cbn [v value_weight data_weight rc_fields] in Hlt. rewrite Hsum, Hle in Hlt.
  destruct (gather_ok (checked_add 32) 32 (33 + len operands)) as (regs' & Hg & Ha);
    [intros n Hn; by apply checked_add_lt|unfold U64_MAX in *; lia|].
  eapply gives_intro; [|apply with_parts_ok; [reflexivity|exact Hw|]|exact Ha].
  - unfold own_record. rewrite (lift_step _ _ _ fields) by (by rewrite Hf).
    replace (negb (len fields =? len operands)) with false by (unfold len in *; lia).
    rewrite (or_fault_step _ _ _ (33 + len operands)) by (apply checked_add_lt; unfold U64_MAX in *; lia).
    rewrite (ST_step _ _ _ _ _ Hg). rewrite (or_fault_step _ _ _ (value_weight v)); [reflexivity|].
    rewrite whole_lt by lia. cbn [v value_weight data_weight rc_fields]. rewrite Hsum, Hle. f_equal; lia.
  - unfold parts_ok. cbn [v parts_of cv_data rc_fields]. rewrite Hentries. apply weights_parts.
Qed.

Lemma own_constant_ok index id v :
  immediate = ImmEntity id -> index !! id = Some (rv_new v) -> value_weight v < U64_MAX -> gives (own_constant index immediate) v.
Proof using Type.
  intros -> Hi Hw. eapply gives_intro; [|by apply rv_new_ok|apply after_refl]. unfold own_constant. by rewrite (or_fault_step _ _ _ _ Hi).
Qed.

(** *** Projections *)

Lemma parts_of_step v i : parts_of v !! N.to_nat i = step_into v (StepItem i).
Proof using Type. destruct v as [t d]. destruct d; cbn; try done. by rewrite list_lookup_fmap. Qed.

Lemma part_units_ok rv v i w :
  rv_ok rv v -> step_into v (StepItem i) = Some w -> default (value_units_const w) (part_units rv i) = value_weight w.
Proof using Type.
  intros Hrv Hw. assert (value_units_const w = value_weight w) as E.
  { apply units_bound; [|done]. pose proof (step_weight _ _ _ Hw). pose proof (ro_small _ _ Hrv). lia. }
  unfold part_units. destruct (rv_parts rv) as [ps|] eqn:Hps; [|done]. cbn [mbind option_bind].
  pose proof (ro_parts _ _ Hrv _ Hps) as Hok. unfold parts_ok in Hok. rewrite <- parts_of_step in Hw.
  destruct (Forall2_lookup_r _ _ _ _ _ Hok Hw) as (n & Hn & ->). by rewrite Hn.
Qed.

Lemma movable_ok k r regs : exists b, movable sole mask k r regs = Ok (b, regs) /\ (b = true -> dead mask k = true).
Proof using Type. eexists. split; [done|]. by intros [? _]%andb_true_iff. Qed.

(** The operand [k] holds [v]. *)
Definition operand_at (k : N) (r : Register) (v : ConstValue) : Prop := operands !! N.to_nat k = Some r /\ holds regs0 r v.

Lemma take_moved k r v taken regs :
  operand_at k r v -> dead mask k = true -> after taken regs0 regs -> ~ taken k ->
  exists rv regs', take_register r regs = Ok (rv, regs') /\ rv_ok rv v /\ after (fun j => j = k \/ taken j) regs0 regs'.
Proof using Hdead. intros [Hk Hh] Hd Ha Ht. by eapply take_ok. Qed.

Lemma project_ok position part r v i w :
  operand_at 0 r v -> position v = Some i -> part v i = Some w -> step_into v (StepItem i) = Some w ->
  i < 2 ^ 32 -> gives (project sole mask position part r) w.
Proof using Hdead.
  intros Hr Hpos Hpart Hstep Hi. unfold gives, project. pose proof Hr as [_ (rv0 & H0 & Hrv0)].
  assert (value_weight w < U64_MAX) as Hw by (pose proof (step_weight _ _ _ Hstep); pose proof (ro_small _ _ Hrv0); lia).
  assert (value_units_const w = value_weight w) as Hunits by (apply units_bound; [lia|done]).
  destruct (movable_ok 0 r regs0) as (moved & Hm & Hmoved). rewrite (ST_step _ _ _ _ _ Hm). destruct moved.
  - destruct (take_moved 0 r v (fun _ => False) regs0 Hr (Hmoved eq_refl) (after_refl _ _ _ _)) as (rv & regs1 & Ht & Hrv & Ha); [tauto|].
    exists (with_units w (value_units_const w)), regs1. split_and!; [|by apply with_units_ok|by eapply after_any].
    rewrite (ST_step _ _ _ _ _ Ht), (lift_step _ _ _ _ (into_value_ok _ _ _ Hrv)).
    rewrite (or_fault_step _ _ _ w); [done|]. by rewrite Hpos.
  - destruct Hr as [_ Hh]. assert (read r regs0 = Ok (rv0, regs0)) as Hread.
    { unfold read, read_register. by rewrite H0. }
    assert (forall (f : RuntimeValue -> R (option RuntimeValue)), (read r ≫= f) regs0 = f rv0 regs0) as Hgo by (intros f; by apply ST_step).
    rewrite Hgo, (lift_step _ _ _ _ (ro_value _ _ Hrv0)), (or_fault_step _ _ _ _ Hpos), (or_fault_step _ _ _ _ Hpart).
    destruct (shares_well w).
    + rewrite (or_fault_step _ _ _ i) by (unfold u32_of; by replace (i <? 2 ^ 32) with true by lia).
      destruct (item_view_ok rv0 v i w _ Hrv0 Hstep (part_units_ok _ _ _ _ Hrv0 Hstep)) as (rv' & Hv & Hrv').
      exists rv', regs0. split_and!; [by rewrite (lift_step _ _ _ _ Hv)|done|apply after_refl].
    + exists (with_units w (value_units_const w)), regs0. split_and!; [done|by apply with_units_ok|apply after_refl].
Qed.

Lemma own_tuple_get_ok r v i items w :
  immediate = ImmIndex i -> operand_at 0 r v -> cv_data v = DSequence items -> items !! N.to_nat i = Some w ->
  i < 2 ^ 32 -> gives (own_tuple_get sole immediate mask r) w.
Proof using Hdead.
  intros -> Hr Hd Hw Hi. unfold own_tuple_get. eapply (project_ok _ _ _ v i); [done|done| | |done].
  - unfold sequence_part. by rewrite Hd, swap_remove_lookup.
  - destruct v as [t d]. cbn in Hd. by subst d.
Qed.

Lemma list_find_first {A} (P : A -> Prop) `{forall x, Decision (P x)} (p : A -> bool) l x :
  (forall x, p x = true <-> P x) -> find_first p l = Some x -> exists i, list_find P l = Some (i, x) /\ l !! i = Some x.
Proof using Type.
  intros Hp. induction l as [|y l IH]; [done|]. cbn. destruct (p y) eqn:E.
  - intros [= ->]. rewrite decide_True by by apply Hp. by exists O.
  - intros Hx. rewrite decide_False by (intros Hy; apply Hp in Hy; congruence).
    destruct (IH Hx) as (i & Hi & Hl). exists (S i). by rewrite Hi.
Qed.

Lemma own_record_get_ok r v member record field :
  immediate = ImmField member -> operand_at 0 r v -> cv_data v = DRecord record ->
  find_first (fun field => fc_member_id field =? member) (rc_fields record) = Some field ->
  len (rc_fields record) <= 2 ^ 32 -> gives (own_record_get sole immediate mask r) (fc_value field).
Proof using Hdead.
  intros -> Hr Hd Hf Hlen. unfold own_record_get.
  destruct (list_find_first (fun field => fc_member_id field = member) _ _ _ (fun x => N.eqb_eq _ _) Hf) as (i & Hi & Hl).
  eapply (project_ok _ _ _ v (N.of_nat i)); [done| | | |apply lookup_lt_Some in Hl; unfold len in Hlen; lia].
  - unfold field_position. rewrite Hd. cbn. by rewrite Hi.
  - unfold record_part. by rewrite Hd, swap_remove_lookup, Nat2N.id, Hl.
  - destruct v as [t d]. cbn in Hd. subst d. cbn. by rewrite Nat2N.id, Hl.
Qed.

(** *** Vectors *)

Lemma read_value_at k r v taken regs :
  operand_at k r v -> after taken regs0 regs -> ~ taken k -> read_value r regs = Ok (v, regs).
Proof using Hdead. intros [Hk Hh] Ha Ht. by eapply read_value_ok. Qed.

Lemma operand_moved k r v taken regs :
  operand_at k r v -> after taken regs0 regs -> ~ taken k ->
  exists rv regs', operand r (dead mask k) regs = Ok (rv, regs') /\ rv_ok rv v /\ after (fun j => j = k \/ taken j) regs0 regs'.
Proof using Hdead. intros [Hk Hh] Ha Ht. by eapply operand_ok. Qed.

(** The element at a position that may not fit a machine word *)
Lemma position_lookup {A} (items : list A) index :
  (position ← usize_of index; if position <? len items then items !! N.to_nat position else None)
  = (position ← usize_of index; items !! N.to_nat position).
Proof using Type. destruct (usize_of index); [|done]. cbn. apply swap_remove_lookup. Qed.

Lemma walked_ok v rv : value_weight v < U64_MAX -> walked v = Some rv -> rv_ok rv v.
Proof using Type. intros Hw [= <-]. apply with_units_ok; [|done]. apply units_bound; [lia|done]. Qed.

Lemma gives_walked v regs' (m : R (option RuntimeValue)) :
  m regs0 = Ok (walked v, regs') -> value_weight v < U64_MAX -> after (fun _ => True) regs0 regs' -> gives m v.
Proof using Type. intros Hm Hw Ha. unfold walked in Hm. eapply gives_intro; [exact Hm|by apply walked_ok|done]. Qed.

Lemma own_vector_get_ok vector index v w items n :
  operand_at 0 vector v -> operand_at 1 index w -> cv_data v = DSequence items -> cv_data w = DUInt n ->
  let result := typed (DOption (position ← usize_of n; items !! N.to_nat position)) in
  value_weight result < U64_MAX -> gives (own_vector_get sole mask result_type vector index) result.
Proof using Hdead.
  intros Hv Hi Hd Hn result Hw. pose proof (after_refl mask operands (fun _ => False) regs0) as Hrefl.
  assert (exists regs', own_vector_get sole mask result_type vector index regs0 = Ok (walked result, regs') /\
    after (fun _ => True) regs0 regs') as (regs' & Hrun & Ha); [|by eapply gives_walked].
  unfold own_vector_get, result.
  rewrite (ST_step _ _ _ _ _ (read_value_at 1 index w _ _ Hi Hrefl ltac:(tauto))), (or_fault_step _ _ _ n) by (unfold uint_data; by rewrite Hn).
  rewrite <- position_lookup. destruct (movable_ok 0 vector regs0) as (moved & Hm & Hmoved). rewrite (ST_step _ _ _ _ _ Hm). destruct moved.
  - destruct (take_moved 0 vector v _ _ Hv (Hmoved eq_refl) Hrefl) as (rv & regs1 & Ht & Hrv & Ha); [tauto|].
    exists regs1. split; [|by eapply after_any].
    rewrite ST_assoc, (ST_step _ _ _ _ _ Ht), ST_assoc, (lift_step _ _ _ _ (into_value_ok _ _ _ Hrv)).
    by rewrite (or_fault_step _ _ _ items) by (unfold sequence_data; by rewrite Hd).
  - exists regs0. split; [|apply after_refl].
    rewrite ST_assoc, (ST_step _ _ _ _ _ (read_value_at 0 vector v _ _ Hv Hrefl ltac:(tauto))).
    by rewrite (or_fault_step _ _ _ items) by (unfold sequence_data; by rewrite Hd).
Qed.

(** The units an update derives, when it does, are those of the result. *)
Lemma derived_units result (units : option N) :
  value_weight result < U64_MAX -> (forall n, units = Some n -> n = value_weight result) ->
  rv_ok (with_units result (default (value_units_const result) units)) result.
Proof using Type.
  intros Hw Hu. apply with_units_ok; [|done]. destruct units as [n|]; cbn; [by apply Hu|]. apply units_bound; [lia|done].
Qed.

Lemma checked_sub_Some a b n : checked_sub a b = Some n <-> n + b = a.
Proof using Type. unfold checked_sub. destruct (N.leb_spec b a); split; intros Hx; simplify_eq; f_equal; lia. Qed.

Lemma own_vector_set_ok vector index replacement v w x items n ok error :
  operand_at 0 vector v -> operand_at 1 index w -> operand_at 2 replacement x ->
  cv_data v = DSequence items -> cv_data w = DUInt n -> result_type = TResult ok error ->
  let result :=
    match usize_of n with
    | Some position =>
        if position <? len items then ok_result result_type ok (DSequence (<[N.to_nat position := x]> items))
        else index_failure result_type error 1
    | None => index_failure result_type error 1
    end in
  value_weight result < U64_MAX -> gives (own_vector_set sole mask result_type vector index replacement) result.
Proof using Hdead.
  intros Hv Hi Hx Hd Hn Ht result Hw. pose proof (after_refl mask operands (fun _ => False) regs0) as Hrefl.
  destruct (operand_moved 0 vector v _ _ Hv Hrefl) as (rv & regs1 & Hop & Hrv & Ha); [tauto|].
  unfold gives, own_vector_set.
  rewrite (ST_step _ _ _ _ _ (read_value_at 1 index w _ _ Hi Hrefl ltac:(tauto))), (or_fault_step _ _ _ n) by (unfold uint_data; by rewrite Hn).
  rewrite (or_fault_step _ _ _ (ok, error)) by by rewrite Ht.
  rewrite (ST_step _ _ _ _ _ Hop), (lift_step _ _ _ _ (into_value_ok _ _ _ Hrv)).
  rewrite (or_fault_step _ _ _ items) by (unfold sequence_data; by rewrite Hd).
  destruct (usize_of n) as [p|] eqn:Hp; cbn [mbind option_bind].
  2:{ exists (with_units result (value_units_const result)), regs1. split_and!; [done| |by eapply after_any].
      by apply walked_ok. }
  destruct (N.ltb_spec p (len items)) as [Hlt|Hge].
  2:{ exists (with_units result (value_units_const result)), regs1. split_and!; [done| |by eapply after_any].
      by apply walked_ok. }
  destruct (operand_moved 2 replacement x _ _ Hx Ha) as (rx & regs2 & Hop2 & Hrx & Ha2); [lia|].
  rewrite (ST_step _ _ _ _ _ Hop2).
  assert (is_Some (items !! N.to_nat p)) as [old Hold] by (apply lookup_lt_is_Some; unfold len in Hlt; lia).
  rewrite (or_fault_step _ _ _ _ Hold), (lift_step _ _ _ _ (into_value_ok _ _ _ Hrx)). cbv zeta.
  eexists _, _. split_and!; [reflexivity| |by eapply after_any]. apply derived_units; [exact Hw|].
  intros m Hm. rewrite (ro_units _ _ Hrv), (ro_units _ _ Hrx) in Hm.
  destruct v as [tv dv]. cbn [cv_data cv_type] in Hd, Hm. subst dv.
  pose proof (sum_with_insert value_weight items _ old x Hold) as Hsum.
  pose proof (ro_small _ _ Hrv) as Hsmall. pose proof (ro_small _ _ Hrx) as Hsmallx.
  assert (value_weight old < value_weight (mkConstValue tv (DSequence items))) as Hold_lt
    by (by eapply (step_weight _ (StepItem p))).
  assert (value_weight result = 1 + type_weight result_type + (2 + (1 + type_weight ok + (1 + len items +
    sum_with value_weight (<[N.to_nat p := x]> items))))) as Er.
  { unfold result, ok_result. cbn [value_weight data_weight]. unfold len. by rewrite length_insert. }
  rewrite Er in Hw |- *. cbn [value_weight data_weight] in Hsmall, Hold_lt, Hm.
  assert (value_units_type tv = type_weight tv) as Etv by (symmetry; apply type_units_exact; [done|lia]).
  assert (value_units_type ok = type_weight ok) as Eok by (symmetry; apply type_units_exact; [done|lia]).
  assert (value_units_const old = value_weight old) as Eold by (apply units_bound; [lia|done]).
  rewrite Etv, Eok, Eold in Hm. apply bind_Some in Hm as (inner & Hinner & Hm).
  apply bind_Some in Hinner as (u1 & H1%checked_sub_Some & Hinner). apply bind_Some in Hinner as (u2 & [-> _]%checked_add_Some & Hinner).
  apply bind_Some in Hinner as (u3 & H3%checked_sub_Some & [-> _]%checked_add_Some).
  apply bind_Some in Hm as (u4 & [-> _]%checked_add_Some & Hm). apply whole_Some in Hm; [|lia]. rewrite Hm. lia.
Qed.

End result.
End owned.
