(* ===== verification/VmOwnedMap.v ===== *)
(** * The virtual machine: owned map operations and the agreement of the two paths

    The binary search of [search] finds the entry with the encoding asked for, or
    the place of a new one; comparing raw bytes instead of encodings is sound.
    The last theorem joins this with VmOwnedSound: whatever [owned_execute]
    returns is what [execute_extended_instruction] returns. *)

From S2P Require Import Prelude State Bytes Ids Ssmc Types ConstEncoding ConstWire.
From S2P Require Import VmInt VmFloat VmText VmBridge VmJudge VmExec VmTyped VmMap VmBytecode VmValue VmOwned VmOwnedSound.
Set Warnings "-register-all".

Open Scope N_scope.

(** ** The order of keys *)

Lemma bytes_cmp_self b : bytes_cmp b b = Eq.
Proof. by apply (tc_eq _ bytes_total_compare). Qed.

(** The encodings of byte strings of one type and one length differ in the bytes only. *)
Lemma encodes_bytes_cmp t a b x y :
  encodes (mkConstValue t (DBytes a)) x -> encodes (mkConstValue t (DBytes b)) y -> len a = len b ->
  bytes_cmp x y = bytes_cmp a b.
Proof.
  unfold encodes. rewrite !encode_const_value_Ok. intros [_ ->] [_ ->] Hlen. rewrite !value_tree_eq. cbn [cv_type cv_data].
  rewrite !data_payload_tree. unfold data_payload. cbn [fmap option_fmap option_map node_tree ConstData_tag].
  cbn [wire_bytes record_bytes]. unfold framed. rewrite !len_app, Hlen. rewrite !app_nil_r, <- !app_assoc.
  repeat (rewrite bytes_cmp_then_with by done; rewrite bytes_cmp_self; cbn [then_with]). done.
Qed.

Lemma key_order_ok stored query_value q k :
  encodes stored k -> encodes query_value q -> key_order stored query_value q = Ok (bytes_cmp k q).
Proof.
  intros Hk Hq. assert (Ok (bytes_cmp k q) = (b ← key_bytes stored; Ok (bytes_cmp b q)) :> fault_result comparison) as E
    by by rewrite (proj2 (key_bytes_Ok _ _) Hk).
  unfold key_order. destruct stored as [t d], query_value as [t' d']. cbn [cv_data cv_type].
  destruct d; try by rewrite E. destruct d'; try by rewrite E.
  match goal with |- (if ?c && ?d then _ else _) = _ => destruct c eqn:Hl; [|by rewrite E]; destruct (bool_decide_reflect (t = t')) as [<-|] end;
    [|by rewrite E]. cbn [andb]. apply N.eqb_eq in Hl. by rewrite (encodes_bytes_cmp _ _ _ _ _ Hk Hq Hl).
Qed.

(** ** Binary search *)

Section search.
Variable l : list keyed.
Variable key : ConstValue.
Variable q : bytes.
Hypothesis Hl : canonical_entries l.
Hypothesis Hq : encodes key q.

(** What [search] finds: the entry, or the place between the smaller and the larger keys *)
Definition found_at (found : N + N) : Prop :=
  match found with
  | inl p => exists e, l !! N.to_nat p = Some (q, e)
  | inr p => p <= len l /\ Forall (fun x => bytes_cmp x.1 q = Lt) (take (N.to_nat p) l)
      /\ Forall (fun x => bytes_cmp q x.1 = Lt) (drop (N.to_nat p) l)
  end.

Lemma sorted_before i j x y : (i < j)%nat -> l !! i = Some x -> l !! j = Some y -> bytes_cmp x.1 y.1 = Lt.
Proof using Hl.
  intros Hij Hi Hj. destruct Hl as [_ Hs]. rewrite <- (take_drop_middle l i x Hi) in Hs.
  apply (StronglySorted_app_1_r (fun a b : keyed => bytes_cmp a.1 b.1 = Lt)) in Hs. apply StronglySorted_cons in Hs as [Hs _].
  rewrite Forall_forall in Hs. apply Hs. apply list_elem_of_lookup. exists (j - S i)%nat. rewrite lookup_drop.
  by replace (S i + (j - S i))%nat with j by lia.
Qed.

Lemma search_loop_ok fuel low high :
  low <= high <= len l -> (N.to_nat (high - low) < fuel)%nat ->
  (forall i x, (i < N.to_nat low)%nat -> l !! i = Some x -> bytes_cmp x.1 q = Lt) ->
  (forall i x, (N.to_nat high <= i)%nat -> l !! i = Some x -> bytes_cmp q x.1 = Lt) ->
  exists found, search_loop fuel l.*2 key q low high = Ok found /\ found_at found.
Proof using Hl Hq.
  revert low high. induction fuel as [|fuel IH]; intros low high Hb Hf Hlow Hhigh; [lia|]. cbn [search_loop].
  destruct (N.ltb_spec low high) as [Hlt|Hge].
  2:{ assert (low = high) as -> by lia. exists (inr high). split; [done|]. split_and!; [lia| |].
      - apply Forall_lookup. intros i x Hx. destruct (decide (i < N.to_nat high)%nat) as [Hi|Hi].
        + rewrite lookup_take_lt in Hx by done. by eapply Hlow.
        + rewrite lookup_take_ge in Hx by lia. done.
      - apply Forall_lookup. intros i x Hx. rewrite lookup_drop in Hx. eapply Hhigh; [|exact Hx]. lia. }
  set (middle := low + (high - low) / 2). assert (low <= middle < high) as Hm.
  { subst middle. pose proof (N.div_lt (high - low) 2) as Hdiv. revert Hdiv. generalize ((high - low) / 2). intros d Hdiv. specialize (Hdiv ltac:(lia) ltac:(lia)). lia. }
  destruct (lookup_lt_is_Some_2 l (N.to_nat middle)) as [[k e] Hk]; [unfold len in Hb; lia|].
  rewrite list_lookup_fmap, Hk. cbn [fmap option_fmap option_map ok_or mbind result_bind snd].
  assert (encodes (me_key e) k) as He by (destruct Hl as [Hko _]; by apply (Forall_lookup_1 _ _ _ _ Hko Hk)).
  rewrite (key_order_ok _ _ _ _ He Hq). cbn [mbind result_bind]. destruct (bytes_cmp k q) eqn:E.
  - exists (inl middle). split; [done|]. exists e. apply (tc_eq _ bytes_total_compare) in E. by subst k.
  - apply IH; [lia|lia| |done]. intros i x Hi Hx. destruct (decide (i = N.to_nat middle)) as [->|Hne].
    + rewrite Hk in Hx. by injection Hx as <-.
    + destruct (decide (i < N.to_nat middle)%nat); [|lia].
      eapply (tc_trans _ bytes_total_compare); [|exact E]. by apply (sorted_before i (N.to_nat middle) x (k, e)).
  - assert (bytes_cmp q k = Lt) as E' by by rewrite (tc_opp _ bytes_total_compare), E.
    apply IH; [lia|lia|done|]. intros i x Hi Hx. destruct (decide (i = N.to_nat middle)) as [->|Hne].
    + rewrite Hk in Hx. by injection Hx as <-.
    + eapply (tc_trans _ bytes_total_compare); [exact E'|]. apply (sorted_before (N.to_nat middle) i (k, e) x); [lia|done..].
Qed.

Lemma search_ok : exists found, search l.*2 key q = Ok found /\ found_at found.
Proof using Hl Hq.
  unfold search. replace (len l.*2) with (len l) by by rewrite len_fmap. rewrite length_fmap.
  apply search_loop_ok; [lia|unfold len; lia|intros ?? Hi; lia|].
  intros i x Hi Hx. apply lookup_lt_Some in Hx. unfold len in Hi. lia.
Qed.

(** *** What the position says of the map *)

Lemma absent p : found_at (inr p) -> q ∉ l.*1.
Proof using Type.
  clear Hl Hq key. intros (_ & Hlo & Hhi) (x & Hxq & Hx)%list_elem_of_fmap. rewrite <- (take_drop (N.to_nat p) l) in Hx. subst q.
  rewrite Forall_forall in Hlo, Hhi. apply elem_of_app in Hx as [Hx|Hx]; [apply Hlo in Hx|apply Hhi in Hx]; cbv beta in Hx;
    by rewrite bytes_cmp_self in Hx.
Qed.

Lemma map_of_found found :
  found_at found -> map_of l !! q = match found with inl p => me_value <$> l.*2 !! N.to_nat p | inr _ => None end.
Proof using Hl.
  destruct found as [p|p]; intros H.
  - destruct H as (e & He). rewrite list_lookup_fmap, He. unfold map_of. apply elem_of_list_to_map_1.
    + rewrite map_of_keys. by apply canonical_NoDup.
    + apply list_elem_of_fmap. exists (q, e). split; [done|]. by apply list_elem_of_lookup_2 in He.
  - apply absent in H. unfold map_of. apply not_elem_of_list_to_map_1. by rewrite map_of_keys.
Qed.

Lemma others_all k : q ∉ k.*1 -> others q k = k.
Proof using Type.
  induction k as [|x k IH]; [done|]. rewrite fmap_cons, not_elem_of_cons. intros [Hx Hk]. cbn.
  rewrite bool_decide_eq_false_2 by congruence. cbn. by rewrite IH.
Qed.

Lemma others_middle k e k' : NoDup (k ++ (q, e) :: k').*1 -> others q (k ++ (q, e) :: k') = k ++ k'.
Proof using Type.
  rewrite fmap_app, fmap_cons. intros (_ & Hk & [Hk' _]%NoDup_cons)%NoDup_app.
  rewrite List.filter_app. cbn. rewrite bool_decide_eq_true_2 by done. cbn.
  rewrite !others_all; [done|done|]. intros Hin. apply (Hk q Hin). apply list_elem_of_here.
Qed.

(** A canonical map is determined by its entries. *)
Lemma canonical_unique k k' : canonical_entries k -> canonical_entries k' -> k ≡ₚ k' -> k = k'.
Proof using Type. intros [_ Hk] [_ Hk']. by apply (lt_key_unique fst bytes_cmp bytes_total_compare). Qed.

Lemma canonical_keys k : canonical_entries k <-> keyed_ok k /\ StronglySorted bytes_lt k.*1.
Proof using Type.
  split.
  - intros H. split; [apply H|]. by apply canonical_unzip.
  - intros [Hk Hs]. split; [done|]. clear -Hs. induction k as [|x k IH]; [constructor|]. rewrite fmap_cons in Hs.
    apply StronglySorted_cons in Hs as [Hx Hs]. constructor; [auto|]. by rewrite Forall_fmap in Hx.
Qed.

(** The entry found is replaced, or a new one is put at its place. *)
Definition placed (found : N + N) (entry : keyed) : list keyed :=
  match found with
  | inl p => <[N.to_nat p := entry]> l
  | inr p => take (N.to_nat p) l ++ entry :: drop (N.to_nat p) l
  end.

Lemma placed_ok found e :
  found_at found -> me_key e = key -> canonical_entries (placed found (q, e)) /\ placed found (q, e) ≡ₚ others q l ++ [(q, e)].
Proof using Hl Hq.
  intros Hf Hkey. assert (encodes (me_key e) q) as He by by rewrite Hkey. destruct found as [p|p]; cbn [placed].
  - destruct Hf as (old & Hold). pose proof (take_drop_middle l _ _ Hold) as El. split.
    + apply canonical_keys. apply canonical_keys in Hl as [Hk Hs]. split.
      * unfold keyed_ok. apply Forall_insert; [exact Hk|exact He].
      * by rewrite list_fmap_insert, (list_insert_id l.*1) by (by rewrite list_lookup_fmap, Hold).
    + rewrite (insert_take_drop l (N.to_nat p) (q, e)) by by apply lookup_lt_Some in Hold. rewrite <- El at 3.
      rewrite others_middle by (rewrite El; by apply canonical_NoDup).
      rewrite <- Permutation_middle. by rewrite (Permutation_app_comm _ [_]).
  - pose proof (absent _ Hf) as Habs. destruct Hf as (_ & Hlo & Hhi). split.
    + destruct Hl as [Hk Hs]. rewrite <- (take_drop (N.to_nat p) l) in Hk, Hs. split.
      * unfold keyed_ok in *. rewrite Forall_app in Hk |- *. rewrite Forall_cons. tauto.
      * apply StronglySorted_app in Hs as (Hcross & Ht & Hd). apply StronglySorted_app. rewrite StronglySorted_cons.
        rewrite Forall_forall in Hlo, Hhi. split_and!; [|done| |done].
        -- intros x y Hx [->|Hy]%elem_of_cons; [by apply Hlo|by apply Hcross].
        -- apply Forall_forall. intros y Hy. by apply Hhi.
    + rewrite others_all by done. rewrite <- Permutation_middle, take_drop. by rewrite (Permutation_app_comm _ [_]).
Qed.

Definition dropped (found : N + N) : list keyed :=
  match found with inl p => delete (N.to_nat p) l | inr _ => l end.

Lemma dropped_ok found : found_at found -> canonical_entries (dropped found) /\ dropped found = others q l.
Proof using Hl.
  intros Hf. assert (dropped found = others q l) as E.
  { destruct found as [p|p]; cbn [dropped]; [|by rewrite (others_all l) by by eapply absent].
    destruct Hf as (e & He). pose proof (take_drop_middle l _ _ He) as El. rewrite delete_take_drop. rewrite <- El at 3.
    by rewrite others_middle by (rewrite El; by apply canonical_NoDup). }
  split; [|done]. rewrite E. split; [apply others_keyed, Hl|]. destruct Hl as [_ Hs]. clear -Hs.
  induction Hs as [|x k Hs IH Hx]; cbn; [constructor|]. destruct (negb _); [|done]. constructor; [done|].
  rewrite Forall_forall in *. intros y [Hy _]%elem_of_others. by apply Hx.
Qed.
End search.

(** ** Map operations *)

Definition entry_weight (e : MapEntry) : N := value_weight (me_key e) + value_weight (me_value e).

Lemma updated_units_Some mu mt rt removed added n :
  updated_units rt mu mt removed added = Some n ->
  exists r a, removed = Some r /\ added = Some a /\ n + r + value_units_type mt = mu + value_units_type rt + a.
Proof.
  unfold updated_units. intros H. apply bind_Some in H as (r & Hr & H). apply bind_Some in H as (u1 & H1%checked_sub_Some & H).
  apply bind_Some in H as (u2 & [-> _]%checked_add_Some & H). apply bind_Some in H as (u3 & H3%checked_sub_Some & H).
  apply bind_Some in H as (a & Ha & [-> _]%checked_add_Some). exists r, a. split_and!; [done..|]. lia.
Qed.

Lemma checked_sum a b n : checked_add a b = Some n -> n = a + b.
Proof. by intros [-> _]%checked_add_Some. Qed.

Section maps.
Variable sole : RuntimeValue -> bool.
Variable mask : N.
Variable operands : list Register.
Hypothesis Hdead : dead_once mask operands.
Variable regs0 : Registers.
Variable opcode : Opcode.
Variable result_type : TypeExpr.
Variable t : TypeExpr.
Variable l : list keyed.
Variable key_value : ConstValue.
Variable q : bytes.
Hypothesis Hl : canonical_entries l.
Hypothesis Hq : encodes key_value q.
#[local] Abbreviation gives := (gives mask operands regs0).
#[local] Abbreviation operand_at := (operand_at operands regs0).
#[local] Abbreviation map := (mkConstValue t (DMap l.*2)).
#[local] Abbreviation refl := (after_refl mask operands (fun _ => False) regs0).

Lemma own_map_read_ok rm rk :
  operand_at 0 rm map -> operand_at 1 rk key_value ->
  let result :=
    if bool_decide (opcode = OpMapGet) then mkConstValue result_type (DOption (map_of l !! q))
    else bool_value (bool_decide (is_Some (map_of l !! q))) in
  value_weight result < U64_MAX -> gives (own_map_read opcode result_type rm rk) result.
Proof using Hdead Hl Hq.
  intros Hm Hk result Hw. destruct (search_ok l key_value q Hl Hq) as (found & Hs & Hf).
  pose proof (map_of_found l q Hl found Hf) as Hmap.
  apply (gives_walked _ _ _ _ regs0); [|exact Hw|apply after_refl]. unfold own_map_read.
  rewrite (ST_step _ _ _ _ _ (read_value_at _ _ Hdead _ 1 rk _ _ _ Hk refl ltac:(tauto))).
  rewrite (lift_step _ _ _ _ (proj2 (key_bytes_Ok _ _) Hq)).
  rewrite (ST_step _ _ _ _ _ (read_value_at _ _ Hdead _ 0 rm _ _ _ Hm refl ltac:(tauto))).
  rewrite (or_fault_step _ _ _ l.*2) by done. rewrite (lift_step _ _ _ _ Hs). unfold result. rewrite Hmap.
  case_bool_decide; (destruct found as [p|p]; [|done]). all: destruct Hf as (e & He).
  - done.
  - by rewrite !bool_decide_eq_true_2 by (rewrite ?list_lookup_fmap, ?He; by eexists).
Qed.

(** The units of an update that took [taken] and gave [given] *)
Lemma update_ok (l' : list keyed) taken given (removed added : option N) :
  let result := mkConstValue result_type (DMap l'.*2) in
  value_weight result < U64_MAX -> value_weight map < U64_MAX ->
  len l' + sum_with entry_weight l'.*2 + taken = len l + sum_with entry_weight l.*2 + given ->
  (forall n, removed = Some n -> n = taken) -> (forall n, added = Some n -> n = given) ->
  rv_ok (with_units result (default (value_units_const result) (updated_units result_type (value_weight map) t removed added))) result.
Proof using Type.
  intros result Hw Hm Hsum Hr Ha. apply derived_units; [exact Hw|]. intros n (r & a & ->%Hr & ->%Ha & Hn)%updated_units_Some.
  assert (value_weight result = 1 + type_weight result_type + (1 + len l' + sum_with entry_weight l'.*2)) as Er
    by (cbn [result value_weight data_weight]; by rewrite len_fmap).
  assert (value_weight map = 1 + type_weight t + (1 + len l + sum_with entry_weight l.*2)) as Em
    by (cbn [value_weight data_weight]; by rewrite len_fmap).
  rewrite <- (type_units_exact t (value_units_type t) eq_refl) in Hn by lia.
  rewrite <- (type_units_exact result_type (value_units_type result_type) eq_refl) in Hn by lia. lia.
Qed.

Lemma entry_small k (e : MapEntry) i :
  l !! i = Some (k, e) -> value_weight map < U64_MAX ->
  value_units_const (me_key e) = value_weight (me_key e) /\ value_units_const (me_value e) = value_weight (me_value e).
Proof using Type.
  intros He Hm. assert (entry_weight e <= sum_with entry_weight l.*2) as Hle.
  { assert (l.*2 !! i = Some e) as Hi by by rewrite list_lookup_fmap, He.
    pose proof (sum_with_delete entry_weight l.*2 i e Hi). lia. }
  cbn [value_weight data_weight] in Hm.
  change (sum_with (fun entry => value_weight (me_key entry) + value_weight (me_value entry)) l.*2) with (sum_with entry_weight l.*2) in Hm.
  unfold entry_weight in Hle at 1. split; (apply units_bound; [lia|done]).
Qed.

Lemma own_map_insert_ok rm rk rx x :
  operand_at 0 rm map -> operand_at 1 rk key_value -> operand_at 2 rx x -> 
  forall l', canonical_entries l' -> l' ≡ₚ others q l ++ [(q, mkMapEntryConst key_value x)] ->
  let result := mkConstValue result_type (DMap l'.*2) in
  value_weight result < U64_MAX -> gives (own_map_insert sole mask result_type rm rk rx) result.
Proof using Hdead Hl Hq.
  intros Hm Hk Hx l' Hl' Hp result Hw. destruct (search_ok l key_value q Hl Hq) as (found & Hs & Hf).
  destruct (placed_ok l key_value q Hl Hq found (mkMapEntryConst key_value x) Hf eq_refl) as [Hc Hpp].
  assert (l' = placed l found (q, mkMapEntryConst key_value x)) as -> by (apply canonical_unique; [done..|by rewrite Hp, Hpp]).
  destruct (operand_moved _ _ Hdead _ 1 rk _ _ _ Hk refl) as (vk & regs1 & Hop1 & Hvk & Ha1); [tauto|].
  destruct (operand_moved _ _ Hdead _ 2 rx _ _ _ Hx Ha1) as (vx & regs2 & Hop2 & Hvx & Ha2); [lia|].
  destruct (operand_moved _ _ Hdead _ 0 rm _ _ _ Hm Ha2) as (vm & regs3 & Hop3 & Hvm & Ha3); [lia|].
  unfold own_map_insert, gives.
  rewrite (ST_step _ _ _ _ _ Hop1), (ST_step _ _ _ _ _ Hop2), (ST_step _ _ _ _ _ Hop3).
  rewrite !(lift_step _ _ _ _ (into_value_ok _ _ _ Hvm)), (lift_step _ _ _ _ (into_value_ok _ _ _ Hvk)).
  rewrite (lift_step _ _ _ _ (proj2 (key_bytes_Ok _ _) Hq)), (or_fault_step _ _ _ l.*2) by done.
  rewrite (lift_step _ _ _ _ (into_value_ok _ _ _ Hvx)). cbv zeta. rewrite (lift_step _ _ _ _ Hs).
  pose proof (ro_small _ _ Hvm) as Hsmall. destruct found as [p|p].
  - destruct Hf as (e & He). assert (l.*2 !! N.to_nat p = Some e) as Hp2 by by rewrite list_lookup_fmap, He.
    rewrite ST_assoc, (or_fault_step _ _ _ _ Hp2), ret_step.
    eexists _, _. split_and!; [reflexivity| |by eapply after_any].
    rewrite (ro_units _ _ Hvm), (ro_units _ _ Hvk), (ro_units _ _ Hvx). cbn [cv_type].
    destruct (entry_small _ _ _ He Hsmall) as [-> ->]. unfold result. cbn [placed].
    replace (<[N.to_nat p:=mkMapEntryConst key_value x]> l.*2) with ((<[N.to_nat p := (q, mkMapEntryConst key_value x)]> l).*2)
      by by rewrite list_fmap_insert.
    eapply update_ok; [exact Hw|exact Hsmall| |by intros n ?%checked_sum|by intros n ?%checked_sum].
    pose proof (sum_with_insert entry_weight l.*2 (N.to_nat p) e (mkMapEntryConst key_value x) Hp2) as Hsum.
    rewrite list_fmap_insert. unfold len. rewrite length_insert. cbn [snd]. unfold entry_weight in Hsum at 2 4. cbn [me_key me_value] in Hsum. lia.
  - rewrite ret_step. eexists _, _. split_and!; [reflexivity| |by eapply after_any].
    rewrite (ro_units _ _ Hvm), (ro_units _ _ Hvk), (ro_units _ _ Hvx). cbn [cv_type]. unfold result. cbn [placed].
    replace (take (N.to_nat p) l.*2 ++ mkMapEntryConst key_value x :: drop (N.to_nat p) l.*2)
      with ((take (N.to_nat p) l ++ (q, mkMapEntryConst key_value x) :: drop (N.to_nat p) l).*2)
      by by rewrite fmap_app, fmap_cons, fmap_take, fmap_drop.
    eapply (update_ok _ 0 (1 + value_weight key_value + value_weight x)); [exact Hw|exact Hsmall| |by intros n [= <-]|].
    + rewrite fmap_app, fmap_cons, fmap_take, fmap_drop. cbn [snd]. rewrite sum_with_insert_at. unfold entry_weight at 2. cbn [me_key me_value].
      unfold len. rewrite length_app, length_take, length_cons, length_drop. destruct Hf as (Hp0 & _). unfold len in Hp0. lia.
    + intros n (m & ->%checked_sum & ->%checked_sum)%bind_Some. done.
Qed.

Lemma own_map_remove_ok rm rk :
  operand_at 0 rm map -> operand_at 1 rk key_value ->
  forall l', canonical_entries l' -> l' ≡ₚ others q l ->
  let result := mkConstValue result_type (DMap l'.*2) in
  value_weight result < U64_MAX -> gives (own_map_remove sole mask result_type rm rk) result.
Proof using Hdead Hl Hq.
  intros Hm Hk l' Hl' Hp result Hw. destruct (search_ok l key_value q Hl Hq) as (found & Hs & Hf).
  destruct (dropped_ok l q Hl found Hf) as [Hc Hpp].
  assert (l' = dropped l found) as -> by (apply canonical_unique; [done..|by rewrite Hp, Hpp]).
  destruct (operand_moved _ _ Hdead _ 0 rm _ _ _ Hm refl) as (vm & regs1 & Hop & Hvm & Ha); [tauto|].
  unfold own_map_remove, gives.
  rewrite (ST_step _ _ _ _ _ (read_value_at _ _ Hdead _ 1 rk _ _ _ Hk refl ltac:(tauto))).
  rewrite (lift_step _ _ _ _ (proj2 (key_bytes_Ok _ _) Hq)), (ST_step _ _ _ _ _ Hop).
  rewrite (lift_step _ _ _ _ (into_value_ok _ _ _ Hvm)), (or_fault_step _ _ _ l.*2), (lift_step _ _ _ _ Hs) by done.
  pose proof (ro_small _ _ Hvm) as Hsmall. destruct found as [p|p].
  - destruct Hf as (e & He). assert (l.*2 !! N.to_nat p = Some e) as Hp2 by by rewrite list_lookup_fmap, He.
    rewrite ST_assoc, (or_fault_step _ _ _ _ Hp2), ret_step.
    eexists _, _. split_and!; [reflexivity| |by eapply after_any]. rewrite (ro_units _ _ Hvm). cbn [cv_type].
    destruct (entry_small _ _ _ He Hsmall) as [-> ->]. unfold result. cbn [dropped].
    rewrite <- list_fmap_delete. eapply (update_ok _ (1 + value_weight (me_key e) + value_weight (me_value e)) 0); [exact Hw|exact Hsmall| | |by intros n [= <-]].
    + pose proof (sum_with_delete entry_weight l.*2 (N.to_nat p) e Hp2) as Hsum. rewrite list_fmap_delete.
      unfold entry_weight in Hsum at 2. unfold len. pose proof (lookup_lt_Some _ _ _ He). rewrite length_delete by (by eexists). lia.
    + intros n (m & ->%checked_sum & ->%checked_sum)%bind_Some. done.
  - rewrite ret_step. eexists _, _. split_and!; [reflexivity| |by eapply after_any]. rewrite (ro_units _ _ Hvm). cbn [cv_type].
    unfold result. cbn [dropped]. eapply (update_ok _ 0 0); [exact Hw|exact Hsmall|lia|by intros n [= <-]|by intros n [= <-]].
Qed.
End maps.

(** ** The constants *)

Lemma constant_index_lookup constants id :
  constant_index constants !! id = (fun found => rv_new (kd_value found)) <$> find_constant constants id.
Proof.
  unfold constant_index, find_constant.
  enough (forall m : gmap N RuntimeValue,
    foldl (fun index constant =>
      match index !! kd_entity_id constant with
      | Some _ => index
      | None => <[kd_entity_id constant := rv_new (kd_value constant)]> index
      end) m constants !! id
    = match m !! id with
      | Some v => Some v
      | None => (fun found => rv_new (kd_value found)) <$> find_first (fun constant => kd_entity_id constant =? id) constants
      end) as H by by rewrite H, lookup_empty.
  induction constants as [|c cs IH]; intros m; cbn [foldl find_first]; [by destruct (m !! id)|]. rewrite IH.
  destruct (N.eqb_spec (kd_entity_id c) id) as [<-|Hne].
  - destruct (m !! kd_entity_id c) eqn:E; [by rewrite E|]. by rewrite lookup_insert_eq.
  - destruct (m !! kd_entity_id c) eqn:E; [done|]. by rewrite lookup_insert_ne by congruence.
Qed.

(** ** The two paths agree *)

(** The maps operations take are canonical, and positions in records are 32 bits wide. *)
Definition operand_form (v : ConstValue) : Prop :=
  match cv_data v with
  | DMap entries => exists l, entries = l.*2 /\ canonical_entries l
  | DRecord record => len (rc_fields record) <= 2 ^ 32
  | _ => True
  end.

Definition immediate_form (immediate : Immediate) : Prop :=
  match immediate with ImmIndex index => index < 2 ^ 32 | _ => True end.

(** The operations [owned_execute] takes over *)
Definition owns (opcode : Opcode) : bool :=
  match opcode with
  | OpConstantRef | OpTupleNew | OpVectorNew | OpRecordNew | OpVariantNew | OpOptionSome | OpResultOk | OpResultErr
  | OpTupleGet | OpRecordGet | OpVectorGet | OpVectorSet | OpMapGet | OpMapContains | OpMapInsert | OpMapRemove => true
  | _ => false
  end.

Lemma operand_value operands values regs k r v :
  Forall2 (holds regs) operands values -> operands !! N.to_nat k = Some r -> values !! N.to_nat k = Some v ->
  operand_at operands regs k r v.
Proof.
  intros H Hr Hv. split; [done|]. destruct (Forall2_lookup_lr _ _ _ _ _ _ H Hr Hv) as (rv & ?). by exists rv.
Qed.

Section agreement.
Context (blake3 sha256 : bytes -> bytes).
Variable sole : RuntimeValue -> bool.
Variable context : ExecutionContext.
Variable opcode : Opcode.
Variable immediate : Immediate.
Variable mask : N.
Variable operands : list Register.
Variable values : list ConstValue.
Variable result_type : TypeExpr.
Variable regs : Registers.
Variable value : ConstValue.
Hypothesis Hdead : dead_once mask operands.
Hypothesis Hvalues : Forall2 (holds regs) operands values.
Hypothesis Hform : Forall operand_form values.
Hypothesis Himmediate : immediate_form immediate.
Hypothesis Hweight : value_weight value < U64_MAX.
#[local] Abbreviation gives := (gives mask operands regs).
#[local] Abbreviation owned :=
  (owned_execute sole (ec_types context) (constant_index (ec_constants context)) opcode immediate mask result_type operands).
#[local] Abbreviation reference := (execute_pure blake3 sha256 context opcode immediate values result_type).

(** [arm]: the operands of a reference arm, and the registers that hold them *)
Ltac arm Eo H :=
  rewrite Eo in H |- *; cbn [execute_pure] in H;
  unfold execute_constant, execute_sequence, execute_record, execute_variant, execute_option, execute_map in H;
  repeat case_match; try done; simplify_eq;
  let Hlen := fresh in
  pose proof (Forall2_length _ _ _ Hvalues) as Hlen; destruct operands as [|? [|? [|? [|]]]]; try discriminate Hlen; clear Hlen.

Lemma agrees_constant : opcode = OpConstantRef -> reference = Ok value -> gives owned value.
Proof using Hdead Hvalues Hform Himmediate Hweight.
  intros Eo H. arm Eo H. cbn [owned_execute].
  destruct (find_constant _ _) as [c|] eqn:Hc; [|done]. injection H as <-.
  by eapply own_constant_ok; [done|rewrite constant_index_lookup, Hc|].
Qed.

Lemma agrees_new : opcode = OpTupleNew \/ opcode = OpVectorNew -> reference = Ok value -> gives owned value.
Proof using Hdead Hvalues Hform Himmediate Hweight.
  intros [Eo|Eo] H; rewrite Eo in H |- *; cbn in H; injection H as <-; cbn [owned_execute]; by apply (own_sequence_ok _ _ _ Hdead).
Qed.

Lemma agrees_record_new : opcode = OpRecordNew -> reference = Ok value -> gives owned value.
Proof using Hdead Hvalues Hform Himmediate Hweight.
  intros Eo H. rewrite Eo in H |- *. cbn [execute_pure] in H. unfold execute_record in H.
  destruct immediate; try done. apply bind_Ok in H as (fields & Hf & H). destruct (N.eqb_spec (len fields) (len values)) as [Hl|]; [|done].
  injection H as <-. cbn [owned_execute]. eapply (own_record_ok _ _ _ Hdead); [exact Hvalues|done| |done|done].
  unfold VmExec.lowered in Hf. destruct (record_fields _ _); [by injection Hf as ->|done].
Qed.

Lemma agrees_variant_new : opcode = OpVariantNew -> reference = Ok value -> gives owned value.
Proof using Hdead Hvalues Hform Himmediate Hweight.
  intros Eo H. arm Eo H; cbn [owned_execute].
  - by apply (own_variant_ok _ _ _ Hdead _ _ Hvalues _ _ _ None).
  - by eapply (own_variant_ok _ _ _ Hdead _ _ Hvalues _ _ _ (Some _)).
Qed.

Lemma agrees_wrapper :
  opcode = OpOptionSome \/ opcode = OpResultOk \/ opcode = OpResultErr -> reference = Ok value -> gives owned value.
Proof using Hdead Hvalues Hform Himmediate Hweight.
  intros [Eo|[Eo|Eo]] H; arm Eo H; cbn [owned_execute];
    match goal with |- context [own_wrapper _ ?o] => by apply (own_wrapper_ok _ _ _ Hdead _ _ Hvalues o) end.
Qed.

Lemma agrees_tuple_get : opcode = OpTupleGet -> reference = Ok value -> gives owned value.
Proof using Hdead Hvalues Hform Himmediate Hweight.
  intros Eo H. arm Eo H. cbn [owned_execute]. apply bind_Ok in H as (items & Hi & Hv%ok_or_Ok).
  unfold sequence_operand in Hi. destruct (cv_data _) eqn:Hd in Hi; try done. injection Hi as <-.
  eapply (own_tuple_get_ok _ _ _ Hdead); [done|by eapply operand_value|exact Hd|exact Hv|done].
Qed.

Lemma agrees_record_get : opcode = OpRecordGet -> reference = Ok value -> gives owned value.
Proof using Hdead Hvalues Hform Himmediate Hweight.
  intros Eo H. arm Eo H. cbn [owned_execute]. match type of H with fmap _ (ok_or _ ?o) = _ => destruct o as [found|] eqn:Hfound end; [|done].
  injection H as <-. eapply (own_record_get_ok _ _ _ Hdead); [done|by eapply operand_value|done|exact Hfound|].
  apply Forall_cons in Hform as [Hr _]. unfold operand_form in Hr. by case_match; simplify_eq.
Qed.

Lemma agrees_vector_get : opcode = OpVectorGet -> reference = Ok value -> gives owned value.
Proof using Hdead Hvalues Hform Himmediate Hweight.
  intros Eo H. arm Eo H. cbn [owned_execute]. apply bind_Ok in H as (items & Hi & H). apply bind_Ok in H as (n & Hn & [= <-]).
  unfold sequence_operand in Hi. destruct (cv_data _) eqn:Hd in Hi; try done. injection Hi as <-.
  unfold uint_operand in Hn. destruct (cv_data _) eqn:He in Hn; try done. injection Hn as <-.
  eapply (own_vector_get_ok _ _ _ Hdead); [by eapply operand_value|by eapply operand_value|exact Hd|exact He|done].
Qed.

Lemma agrees_vector_set : opcode = OpVectorSet -> reference = Ok value -> gives owned value.
Proof using Hdead Hvalues Hform Himmediate Hweight.
  intros Eo H. rewrite Eo in H |- *. cbn [execute_pure] in H. unfold execute_sequence in H.
  destruct values as [|v [|w [|x [|]]]]; try done. apply bind_Ok in H as (items & Hi & H). apply bind_Ok in H as (n & Hn & H).
  pose proof (Forall2_length _ _ _ Hvalues) as Hlen. destruct operands as [|? [|? [|? [|]]]]; try discriminate Hlen.
  unfold sequence_operand in Hi. destruct (cv_data _) eqn:Hd in Hi; try done. injection Hi as <-.
  unfold uint_operand in Hn. destruct (cv_data _) eqn:He in Hn; try done. injection Hn as <-.
  destruct result_type eqn:Et; try done. injection H as <-. cbn [owned_execute].
  eapply (own_vector_set_ok _ _ _ Hdead _ _ _ _ _ v w x); [by eapply operand_value..|exact Hd|exact He|done|done].
Qed.

Lemma agrees_map_operation :
  opcode = OpMapGet \/ opcode = OpMapContains \/ opcode = OpMapInsert \/ opcode = OpMapRemove ->
  reference = Ok value -> gives owned value.
Proof using Hdead Hvalues Hform Himmediate Hweight.
  intros Eo H. assert (execute_map opcode values result_type = Ok value) as Hr
    by (destruct Eo as [E|[E|[E|E]]]; rewrite E in H |- *; exact H). clear H.
  assert (exists m key rest, values = m :: key :: rest) as (m & key & rest & Ev)
    by (unfold execute_map in Hr; destruct Eo as [E|[E|[E|E]]]; rewrite E in Hr; destruct values as [|m [|key rest]]; try done; by exists m, key, rest).
  assert (exists q, encodes key q) as (q & Hq).
  { unfold execute_map in Hr. destruct Eo as [E|[E|[E|E]]]; rewrite E, Ev in Hr; destruct rest as [|? [|]]; try done;
      apply bind_Ok in Hr as (q & Hq & _); exists q; by apply key_bytes_Ok. }
  assert (exists t l, m = mkConstValue t (DMap l.*2) /\ canonical_entries l) as (t & l & -> & Hl).
  { rewrite Ev in Hform. apply Forall_cons in Hform as [Hm _]. destruct m as [t d]. unfold operand_form in Hm. cbn in Hm.
    unfold execute_map in Hr. destruct Eo as [E|[E|[E|E]]]; rewrite E, Ev in Hr; destruct rest as [|? [|]]; try done;
      apply bind_Ok in Hr as (? & _ & Hr); unfold map_entries in Hr; cbn [cv_data] in Hr; destruct d; try done;
      destruct Hm as (l & -> & Hl); by exists t, l. }
  pose proof (Forall2_length _ _ _ Hvalues) as Hlen. rewrite Ev in Hlen.
  destruct operands as [|rm [|rk ro]]; try discriminate Hlen. rewrite Ev in Hr, Hvalues.
  pose proof (operand_value _ _ _ 0 _ _ Hvalues eq_refl eq_refl) as Hm. pose proof (operand_value _ _ _ 1 _ _ Hvalues eq_refl eq_refl) as Hk.
  destruct Eo as [E|[E|[E|E]]]; rewrite E in Hr |- *.
  - destruct rest; [|by unfold execute_map in Hr]. destruct ro; [|done]. rewrite (execute_map_get _ _ _ _ _ Hl Hq) in Hr. injection Hr as <-.
    cbn [owned_execute]. by apply (own_map_read_ok _ _ Hdead _ OpMapGet result_type t l key q Hl Hq).
  - destruct rest; [|by unfold execute_map in Hr]. destruct ro; [|done]. rewrite (execute_map_contains _ _ _ _ _ Hl Hq) in Hr. injection Hr as <-.
    cbn [owned_execute]. by apply (own_map_read_ok _ _ Hdead _ OpMapContains result_type t l key q Hl Hq).
  - destruct rest as [|x [|]]; try by unfold execute_map in Hr. destruct ro as [|rx [|]]; try done.
    pose proof (operand_value _ _ _ 2 _ _ Hvalues eq_refl eq_refl) as Hx.
    destruct (execute_map_insert t result_type l key q Hl Hq x) as (l' & Hrun & Hc & _ & Hp). rewrite Hrun in Hr. injection Hr as <-.
    cbn [owned_execute]. by eapply (own_map_insert_ok _ _ _ Hdead _ result_type t l key q Hl Hq rm rk rx x).
  - destruct rest; [|by unfold execute_map in Hr]. destruct ro; [|done].
    destruct (execute_map_remove t result_type l key q Hl Hq) as (l' & Hrun & Hc & _ & Hp). rewrite Hrun in Hr. injection Hr as <-.
    cbn [owned_execute]. by eapply (own_map_remove_ok _ _ _ Hdead _ result_type t l key q Hl Hq rm rk).
Qed.

Lemma owned_agrees_pure : owns opcode = true -> reference = Ok value -> gives owned value.
Proof using Hdead Hvalues Hform Himmediate Hweight.
  intros Ho H. destruct opcode eqn:Eo; try discriminate Ho; rewrite <- Eo in H |- *.
  all: first [ apply agrees_constant; [exact Eo|exact H] | apply agrees_new; [tauto|exact H] | apply agrees_tuple_get; [exact Eo|exact H]
    | apply agrees_record_new; [exact Eo|exact H] | apply agrees_record_get; [exact Eo|exact H]
    | apply agrees_variant_new; [exact Eo|exact H] | apply agrees_wrapper; [tauto|exact H] | apply agrees_vector_get; [exact Eo|exact H]
    | apply agrees_vector_set; [exact Eo|exact H] | apply agrees_map_operation; [tauto|exact H] ].
Qed.

Lemma defers : owns opcode = false -> owned regs = Ok (None, regs).
Proof using Type. destruct opcode; done. Qed.

Lemma owned_agrees_extended cells cells' :
  execute_extended_instruction blake3 sha256 context opcode immediate values result_type cells = Ok (value, cells') ->
  if owns opcode then cells' = cells /\ gives owned value else owned regs = Ok (None, regs).
Proof using Hdead Hvalues Hform Himmediate Hweight.
  unfold execute_extended_instruction. intros H. destruct (owns opcode) eqn:Ho; [|by apply defers].
  assert ((v ← reference; Ok (v, cells)) = Ok (value, cells')) as Hr by (destruct opcode; try discriminate Ho; exact H).
  apply bind_Ok in Hr as (v & Hv & [= -> ->]). split; [done|]. by apply owned_agrees_pure.
Qed.
End agreement.

(** C10: The ownership-aware execution of an operation agrees with
    the reference: on registers that hold the operands with exact units, with a
    mask that marks operands that occur once, and canonical maps, whatever the
    reference operation returns is what [owned_execute] returns when it takes the
    operation over, with the exact units of the value and no cell changed,
    whichever values share their roots; only operands marked dead leave their
    registers.  It defers on every other operation. *)
Theorem owned_execute_agrees (blake3 sha256 : bytes -> bytes) sole context opcode immediate mask operands values result_type
    regs value cells cells'
    (Hdead : dead_once mask operands) (Hvalues : Forall2 (holds regs) operands values)
    (Hform : Forall operand_form values) (Himmediate : immediate_form immediate) (Hweight : value_weight value < U64_MAX)
    (Hreference : execute_extended_instruction blake3 sha256 context opcode immediate values result_type cells = Ok (value, cells')) :
  let run := owned_execute sole (ec_types context) (constant_index (ec_constants context)) opcode immediate mask result_type
    operands regs in
  if owns opcode then
    cells' = cells /\
    exists rv regs', run = Ok (Some rv, regs') /\ rv_value rv = Ok value /\ rv_units rv = value_units_const value /\
      length regs' = length regs /\
      forall r, regs' !! N.to_nat r = regs !! N.to_nat r \/
        exists k, dead mask k = true /\ operands !! N.to_nat k = Some r
  else run = Ok (None, regs).
Proof.
  intros run. pose proof (owned_agrees_extended blake3 sha256 sole context opcode immediate mask operands values result_type regs value
    Hdead Hvalues Hform Himmediate Hweight cells cells' Hreference) as H.
  destruct (owns opcode); [|exact H]. destruct H as (-> & rv & regs' & Hrun & Hrv & Hlen & Hregs). split; [done|].
  exists rv, regs'. split_and!; [done|apply (ro_value _ _ Hrv)| |done|].
  - rewrite (ro_units _ _ Hrv). symmetry. apply units_bound; [lia|done].
  - intros r. destruct (Hregs r) as [?|(k & _ & ? & ?)]; [by left|right; eauto].
Qed.

(** An insertion into {false: 1}, whose map dies with it *)
Definition sample_map : ConstValue := mkConstValue (TOrderedMap TBool (TUInt 8)) (DMap (take 1 sample_entries).*2).
Definition sample_registers : Registers :=
  [Some (rv_new sample_map); Some (rv_new (sample_key true)); Some (rv_new (mkConstValue (TUInt 8) (DUInt 2)))].
Definition sample_context : ExecutionContext := mkExecutionContext ∅ [] [] [] [].

Lemma sample_form : Forall operand_form [sample_map; sample_key true; mkConstValue (TUInt 8) (DUInt 2)].
Proof.
  repeat constructor. exists (take 1 sample_entries). split; [reflexivity|].
  split; [|by repeat constructor]. constructor; [|constructor]. vm_compute. reflexivity.
Qed.

Lemma sample_holds :
  Forall2 (holds sample_registers) [0; 1; 2] [sample_map; sample_key true; mkConstValue (TUInt 8) (DUInt 2)].
Proof. repeat constructor; (eexists; split; [reflexivity|apply rv_new_ok; vm_compute; reflexivity]). Qed.

Lemma sample_dead : dead_once 1 [0; 1; 2].
Proof.
  intros k j r Hd Hk Hj. assert (NoDup [0; 1; 2]) as Hn by (apply (bool_decide_eq_true _); vm_compute; reflexivity).
  pose proof (NoDup_lookup _ _ _ _ Hn Hk Hj). lia.
Qed.

Lemma owned_execute_agrees_witness :
  exists rv regs',
    owned_execute (fun _ => true) ∅ ∅ OpMapInsert ImmNone 1 (TOrderedMap TBool (TUInt 8)) [0; 1; 2] sample_registers
    = Ok (Some rv, regs') /\
    rv_value rv = Ok (mkConstValue (TOrderedMap TBool (TUInt 8)) (DMap sample_entries.*2)) /\ rv_units rv = 59.
Proof.
  edestruct (owned_execute_agrees (fun _ => []) (fun _ => []) (fun _ => true) sample_context OpMapInsert ImmNone 1 [0; 1; 2]
    [sample_map; sample_key true; mkConstValue (TUInt 8) (DUInt 2)] (TOrderedMap TBool (TUInt 8)) sample_registers
    (mkConstValue (TOrderedMap TBool (TUInt 8)) (DMap sample_entries.*2)) [] []
    sample_dead sample_holds sample_form I) as (_ & rv & regs' & H & Hv & Hu & _).
  - vm_compute. reflexivity.
  - vm_compute. reflexivity.
  - exists rv, regs'. split_and!; [exact H|exact Hv|]. rewrite Hu. vm_compute. reflexivity.
Defined.
