(* ===== verification/VmLiveness.v ===== *)
(** * The virtual machine: register liveness (crates/sley-vm/src/execute/liveness.rs)

    [compute] finds, for every instruction, the operands that no path reads
    again, and for every block the registers that are live after it.  The
    theorem at the end: what is reported dead is not read again on any path
    before it is defined again, and the search always ends. *)

From S2P Require Import Prelude State Bytes Ids Ssmc VmBytecode.
Set Warnings "-register-all".

Open Scope N_scope.

Record FnLiveness : Type := mkFnLiveness {
  dead_operands : list (list N);
  live_out : list (gset Register)
}.

Definition FnLiveness_default : FnLiveness := mkFnLiveness [] [].

Definition dead_after_terminator (live : FnLiveness) (block : nat) (register : Register) : bool :=
  match live_out live !! block with Some out => negb (bool_decide (register ∈ out)) | None => false end.

Definition mask (live : FnLiveness) (block instruction : nat) : N :=
  default 0 (masks ← dead_operands live !! block; masks !! instruction).

Definition successors (terminator : BytecodeTerminator) : list nat :=
  match terminator with
  | BReturn _ | BTrap _ _ => []
  | BBranch edge => [N.to_nat (bte_target edge)]
  | BCondBranch _ if_true if_false => [N.to_nat (bte_target if_true); N.to_nat (bte_target if_false)]
  | BVariantSwitch _ cases => (fun case => N.to_nat (bse_target (bsc_edge case))) <$> cases
  end.

(** The registers of the arguments that are not the payload *)
Definition argument_registers (arguments : list BytecodeSwitchArgument) : list Register :=
  omap (fun argument => match argument with BSAValue register => Some register | BSACasePayload => None end) arguments.

Definition terminator_reads (terminator : BytecodeTerminator) : list Register :=
  match terminator with
  | BReturn register => [register]
  | BBranch edge => bte_arguments edge
  | BCondBranch condition if_true if_false => condition :: bte_arguments if_true ++ bte_arguments if_false
  | BVariantSwitch value cases => value :: (cases ≫= fun case => argument_registers (bse_arguments (bsc_edge case)))
  | BTrap _ payload => option_list payload
  end.

(** Sets of registers by block *)
Abbreviation Live := (list (gset Register)).

Section compute.
Variable blocks : list BytecodeBlock.
#[local] Abbreviation count := (length blocks).

(** [None] when a target is out of range *)
Definition add_predecessor (index : nat) (predecessors : list (list nat)) (successor : nat) : option (list (list nat)) :=
  found ← predecessors !! successor;
  Some (if bool_decide (index ∈ found) then predecessors else <[successor := found ++ [index]]> predecessors).

Fixpoint fold_option {A B} (f : A -> B -> option A) (a : A) (l : list B) : option A :=
  match l with [] => Some a | b :: l => a ← f a b; fold_option f a l end.

Definition predecessors : option (list (list nat)) :=
  fold_option (fun found '(index, block) => fold_option (add_predecessor index) found (successors (bb_terminator block)))
    (replicate count []) (imap pair blocks).

(** The registers a block defines: its parameters and the results of its instructions *)
Definition defines (block : BytecodeBlock) : list Register :=
  bb_parameter_registers block ++ (bb_instructions block ≫= in_results).

Definition defined_in : gmap Register nat :=
  foldl (fun found '(index, block) => foldl (fun found register => <[register := index]> found) found (defines block))
    ∅ (imap pair blocks).

(** The reads that no definition of the block comes before *)
Fixpoint upward_reads (local : gset Register) (instructions : list Instruction) (terminator : list Register) : list Register :=
  let exposed := filter (fun register => register ∉ local) in
  match instructions with
  | [] => exposed terminator
  | instruction :: instructions =>
      exposed (in_operands instruction)
      ++ upward_reads (list_to_set (in_results instruction) ∪ local) instructions terminator
  end.

Definition upward (block : BytecodeBlock) : list Register :=
  upward_reads (list_to_set (bb_parameter_registers block)) (bb_instructions block) (terminator_reads (bb_terminator block)).

Definition has (live : Live) (block : nat) (register : Register) : bool :=
  match live !! block with Some found => bool_decide (register ∈ found) | None => false end.
Definition add (live : Live) (block : nat) (register : Register) : Live := alter (fun found => {[register]} ∪ found) block live.

Section propagate.
Variable preds : list (list nat).
Variable register : Register.

(** One predecessor of the block popped *)
Definition visit_predecessor (state : Live * Live * list nat) (predecessor : nat) : Live * Live * list nat :=
  let '(live_in, live_out, work) := state in
  let live_out := add live_out predecessor register in
  if bool_decide (defined_in !! register = Some predecessor) then (live_in, live_out, work)
  else if has live_in predecessor register then (live_in, live_out, work)
  else (add live_in predecessor register, live_out, predecessor :: work).

(** [work.pop()] takes the block pushed last. *)
Fixpoint propagate (fuel : nat) (live_in live_out : Live) (work : list nat) : Live * Live * list nat :=
  match fuel, work with
  | S fuel, at_block :: work =>
      let '(live_in, live_out, work) := foldl visit_predecessor (live_in, live_out, work) (default [] (preds !! at_block)) in
      propagate fuel live_in live_out work
  | _, _ => (live_in, live_out, work)
  end.

(** A read that is exposed; a block enters the work at most once. *)
Definition expose (index : nat) (state : Live * Live) : Live * Live :=
  let '(live_in, live_out) := state in
  if has live_in index register then (live_in, live_out)
  else
    let '(live_in, live_out, _) := propagate (S count) (add live_in index register) live_out [index] in
    (live_in, live_out).
End propagate.

Definition live_sets (preds : list (list nat)) : Live * Live :=
  foldl (fun state '(index, block) => foldl (fun state register => expose preds register index state) state (upward block))
    (replicate count ∅, replicate count ∅) (imap pair blocks).

(** Bit [k] is set when operand [k] occurs once and is not read later. *)
Definition operand_mask (operands : list Register) (later out : gset Register) : N :=
  if (length operands <=? 64)%nat then
    foldl (fun mask '(k, register) =>
      if (count_occ N.eq_dec operands register =? 1)%nat && bool_decide (register ∉ later) && bool_decide (register ∉ out)
      then N.lor mask (N.shiftl 1 (N.of_nat k)) else mask) 0 (imap pair operands)
  else 0.

(** The masks of the instructions, and what is read from here on *)
Fixpoint block_masks (out : gset Register) (instructions : list Instruction) (terminator : list Register)
    : list N * gset Register :=
  match instructions with
  | [] => ([], list_to_set terminator)
  | instruction :: instructions =>
      let '(masks, later) := block_masks out instructions terminator in
      (operand_mask (in_operands instruction) later out :: masks, list_to_set (in_operands instruction) ∪ later)
  end.

Definition compute : FnLiveness :=
  match predecessors with
  | None => FnLiveness_default
  | Some preds =>
      let '(_, live_out) := live_sets preds in
      mkFnLiveness
        (imap (fun index block =>
           fst (block_masks (default ∅ (live_out !! index)) (bb_instructions block) (terminator_reads (bb_terminator block)))) blocks)
        live_out
  end.
End compute.

(** ** What may be read *)

Section reading.
Variable blocks : list BytecodeBlock.

(** [will_read b k r]: from instruction [k] of block [b] on, some path reads [r]
    before it defines [r] again. *)
Inductive will_read : nat -> nat -> Register -> Prop :=
| Read_operand b block k i r :
    blocks !! b = Some block -> bb_instructions block !! k = Some i -> r ∈ in_operands i -> will_read b k r
| Read_later b block k i r :
    blocks !! b = Some block -> bb_instructions block !! k = Some i -> r ∉ in_results i -> will_read b (S k) r -> will_read b k r
| Read_terminator b block r :
    blocks !! b = Some block -> r ∈ terminator_reads (bb_terminator block) -> will_read b (length (bb_instructions block)) r
| Read_successor b block s target r :
    blocks !! b = Some block -> s ∈ successors (bb_terminator block) -> blocks !! s = Some target ->
    r ∉ bb_parameter_registers target -> will_read s 0 r -> will_read b (length (bb_instructions block)) r.
End reading.

(** ** Lemmas *)

Lemma has_true live b r : has live b r = true <-> exists found, live !! b = Some found /\ r ∈ found.
Proof.
  unfold has. destruct (live !! b) as [s|]; [|by split; [|intros (? & ? & _)]]. rewrite bool_decide_eq_true.
  split; [intros H; by exists s|by intros (? & [= <-] & ?)].
Qed.

Lemma has_add_true live b r b' r' :
  has (add live b r) b' r' = true <-> has live b' r' = true \/ (b' = b /\ r' = r /\ is_Some (live !! b)).
Proof.
  rewrite !has_true. unfold add. destruct (decide (b' = b)) as [->|Hne].
  - rewrite list_lookup_alter_eq. destruct (live !! b) as [s|]; cbn.
    + split.
      * intros (? & [= <-] & [Hr%elem_of_singleton|Hr]%elem_of_union); [|left; by exists s]. right. by split_and!; [..|eexists].
      * intros [(? & [= <-] & Hr)|(_ & -> & _)]; eexists; (split; [done|set_solver]).
    + split; [by intros (? & ? & _)|]. intros [(? & ? & _)|(_ & _ & [? ?])]; done.
  - rewrite list_lookup_alter_ne by done. split; [tauto|]. by intros [?|(? & _)].
Qed.

Lemma length_add live b r : length (add live b r) = length live.
Proof. apply length_alter. Qed.

Lemma has_replicate n b r : has (replicate n ∅) b r = false.
Proof. unfold has. destruct (_ !! b) as [s|] eqn:E; [|done]. by apply lookup_replicate in E as [-> _]. Qed.

Section sound.
Variable blocks : list BytecodeBlock.
#[local] Abbreviation count := (length blocks).

Lemma defined_in_Some r b : defined_in blocks !! r = Some b -> exists block, blocks !! b = Some block /\ r ∈ defines block.
Proof.
  unfold defined_in.
  enough (forall l (m : gmap Register nat), (forall b block, (b, block) ∈ l -> blocks !! b = Some block) ->
    (forall r b, m !! r = Some b -> exists block, blocks !! b = Some block /\ r ∈ defines block) ->
    forall r b, foldl (fun found '(index, block) => foldl (fun found register => <[register := index]> found) found (defines block)) m l !! r = Some b ->
    exists block, blocks !! b = Some block /\ r ∈ defines block) as H.
  { apply H; [|intros ? ?; by rewrite lookup_empty]. by intros i block (j & b' & [= -> ->] & Hj)%elem_of_lookup_imap. }
  clear r b. induction l as [|[i block] l IH]; intros m Hl Hm; cbn [foldl]; [exact Hm|]. apply IH.
  - intros; apply Hl; by right.
  - assert (blocks !! i = Some block) as Hi by (apply Hl; left).
    assert (forall ds, (forall r, r ∈ ds -> r ∈ defines block) -> forall m : gmap Register nat,
      (forall r b, m !! r = Some b -> exists block, blocks !! b = Some block /\ r ∈ defines block) ->
      forall r b, foldl (fun found register => <[register := i]> found) m ds !! r = Some b ->
      exists block, blocks !! b = Some block /\ r ∈ defines block) as Hds; [|by apply Hds].
    clear m Hm. induction ds as [|d ds IHd]; intros Hin m Hm; cbn [foldl]; [exact Hm|].
    apply IHd; [intros; apply Hin; by right|]. intros r b [[<- <-]|[_ H]]%lookup_insert_Some; [|by apply Hm].
    exists block. split; [done|]. apply Hin. left.
Qed.

(** *** Predecessors *)

Definition preds_ok (preds : list (list nat)) : Prop :=
  length preds = count /\
  forall b block s, blocks !! b = Some block -> s ∈ successors (bb_terminator block) -> exists l, preds !! s = Some l /\ b ∈ l.

Definition preds_below (preds : list (list nat)) : Prop := forall s l b, preds !! s = Some l -> b ∈ l -> (b < count)%nat.

Lemma add_predecessor_below i preds s preds' :
  (i < count)%nat -> preds_below preds -> add_predecessor i preds s = Some preds' -> preds_below preds'.
Proof.
  unfold add_predecessor. intros Hi Hp (l & Hl & [= <-])%bind_Some. case_bool_decide; [done|].
  intros t k b [(<- & <- & _)|[_ Ht]]%list_lookup_insert_Some Hb; [|by eapply Hp].
  apply elem_of_app in Hb as [Hb| ->%list_elem_of_singleton]; [by eapply Hp|done].
Qed.

Lemma predecessors_below preds : predecessors blocks = Some preds -> preds_below preds.
Proof.
  unfold predecessors.
  assert (preds_below (replicate count [])) as H0 by (intros s l b [-> _]%lookup_replicate Hb; by apply elem_of_nil in Hb).
  assert (forall i block, (i, block) ∈ imap pair blocks -> (i < count)%nat) as Hl
    by (intros i block (j & b & [= -> ->] & Hj)%elem_of_lookup_imap; by eapply lookup_lt_Some).
  revert H0 Hl. generalize (replicate count (@nil nat)), (imap pair blocks). intros p l. revert p.
  induction l as [|[i block] l IH]; intros p H0 Hl H; cbn [fold_option] in H; [by injection H as <-|].
  apply bind_Some in H as (p1 & H1 & H). eapply IH; [|intros; eapply Hl; by right|exact H].
  assert (i < count)%nat as Hi by (eapply Hl; left). clear -Hi H0 H1. revert p H0 H1.
  induction (successors (bb_terminator block)) as [|s ss IH]; intros p H0 H1; cbn [fold_option] in H1; [by injection H1 as <-|].
  apply bind_Some in H1 as (p2 & H2 & H1). eapply IH; [|exact H1]. by eapply add_predecessor_below.
Qed.

Lemma add_predecessor_Some i preds s preds' :
  add_predecessor i preds s = Some preds' ->
  length preds' = length preds /\ (exists l, preds' !! s = Some l /\ i ∈ l) /\
  forall t l b, preds !! t = Some l -> b ∈ l -> exists l', preds' !! t = Some l' /\ b ∈ l'.
Proof.
  unfold add_predecessor. intros H. apply bind_Some in H as (l & Hl & [= <-]). case_bool_decide as Hin.
  - split_and!; [done|by exists l|intros t l' b Ht Hb; by exists l'].
  - assert (s < length preds)%nat by by eapply lookup_lt_Some.
    split_and!; [by rewrite length_insert| |].
    + exists (l ++ [i]). rewrite list_lookup_insert_eq by done. split; [done|]. set_solver.
    + intros t l' b Ht Hb. destruct (decide (t = s)) as [->|Hne].
      * exists (l ++ [i]). rewrite list_lookup_insert_eq by done. rewrite Hl in Ht. injection Ht as <-. split; [done|]. set_solver.
      * exists l'. by rewrite list_lookup_insert_ne.
Qed.

Lemma add_predecessors_Some i ss preds preds' :
  fold_option (add_predecessor i) preds ss = Some preds' ->
  length preds' = length preds /\ (forall s, s ∈ ss -> exists l, preds' !! s = Some l /\ i ∈ l) /\
  forall t l b, preds !! t = Some l -> b ∈ l -> exists l', preds' !! t = Some l' /\ b ∈ l'.
Proof.
  revert preds. induction ss as [|s ss IH]; intros preds H; cbn [fold_option] in H.
  - injection H as <-. split_and!; [done|by intros s ?%elem_of_nil|intros t l b Ht Hb; by exists l].
  - apply bind_Some in H as (p1 & H1 & H). apply add_predecessor_Some in H1 as (L1 & (l1 & Hl1 & Hi1) & K1).
    apply IH in H as (L2 & S2 & K2). split_and!; [congruence| |].
    + intros s' [->|Hs]%elem_of_cons; [by apply (K2 _ _ _ Hl1)|by apply S2].
    + intros t l b Ht Hb. destruct (K1 _ _ _ Ht Hb) as (l' & Ht' & Hb'). by apply (K2 _ _ _ Ht').
Qed.

Lemma predecessors_ok preds : predecessors blocks = Some preds -> preds_ok preds.
Proof.
  unfold predecessors. intros H.
  enough (forall l p, fold_option (fun found '(index, block) => fold_option (add_predecessor index) found (successors (bb_terminator block))) p l = Some preds ->
    length preds = length p /\
    (forall b block s, (b, block) ∈ l -> s ∈ successors (bb_terminator block) -> exists l, preds !! s = Some l /\ b ∈ l) /\
    forall t l b, p !! t = Some l -> b ∈ l -> exists l', preds !! t = Some l' /\ b ∈ l') as Hg.
  { apply Hg in H as (L & S & _). split; [by rewrite L, length_replicate|]. intros b block s Hb. apply S.
    apply list_elem_of_lookup. exists b. by rewrite list_lookup_imap, Hb. }
  clear H. induction l as [|[i block] l IH]; intros p H; cbn [fold_option] in H.
  - injection H as <-. split_and!; [done|by intros b bl s ?%elem_of_nil|intros t l b Ht Hb; by exists l].
  - apply bind_Some in H as (p1 & H1 & H). apply add_predecessors_Some in H1 as (L1 & S1 & K1). apply IH in H as (L2 & S2 & K2).
    split_and!; [congruence| |].
    + intros b bl s [[= -> ->]|Hb]%elem_of_cons Hs; [|by eapply S2]. destruct (S1 _ Hs) as (l1 & Hl1 & Hi). by apply (K2 _ _ _ Hl1).
    + intros t l' b Ht Hb. destruct (K1 _ _ _ Ht Hb) as (l1 & Ht1 & Hb1). by apply (K2 _ _ _ Ht1).
Qed.

(** *** The worklist *)

Section wave.
Variable preds : list (list nat).
Hypothesis Hbelow : preds_below preds.
Variable r : Register.
#[local] Abbreviation visit := (visit_predecessor blocks r).

Definition found (live : Live) : gset nat := list_to_set (filter (fun b => has live b r = true) (seq 0 count)).

Lemma elem_of_found live b : b ∈ found live <-> has live b r = true /\ (b < count)%nat.
Proof. unfold found. rewrite elem_of_list_to_set, list_elem_of_filter, elem_of_seq. split; intros [? ?]; (split; [done|lia]). Qed.

Lemma found_le live : (size (found live) <= count)%nat.
Proof.
  rewrite <- (size_set_seq (C := gset nat) 0 count). apply subseteq_size. intros b [_ Hb]%elem_of_found. apply elem_of_set_seq. lia.
Qed.

Definition through (live_in live_out : Live) : Prop :=
  forall p, has live_out p r = true -> defined_in blocks !! r = Some p \/ has live_in p r = true.

(** What one pop does: [before] and [after] the predecessors are visited *)
Record visited (l : list nat) (before after : Live * Live * list nat) : Prop := {
  vs_lengths : length after.1.1 = length before.1.1 /\ length after.1.2 = length before.1.2;
  vs_in : forall b x, has before.1.1 b x = true -> has after.1.1 b x = true;
  vs_out : forall b x, has before.1.2 b x = true -> has after.1.2 b x = true;
  vs_others_in : forall b x, x <> r -> has after.1.1 b x = true -> has before.1.1 b x = true;
  vs_others_out : forall b x, x <> r -> has after.1.2 b x = true -> has before.1.2 b x = true;
  vs_all : forall p, p ∈ l -> has after.1.2 p r = true;
  vs_through : through before.1.1 before.1.2 -> through after.1.1 after.1.2;
  vs_new : forall s, has after.1.1 s r = true -> has before.1.1 s r = true \/ s ∈ after.2;
  vs_work : forall s, s ∈ before.2 -> s ∈ after.2;
  vs_measure : (length after.2 + size (found before.1.1) = length before.2 + size (found after.1.1))%nat
}.

Lemma visit_visited p state :
  length state.1.1 = count -> length state.1.2 = count -> (p < count)%nat -> visited [p] state (visit state p).
Proof.
  destruct state as [[li lo] w]. cbn. intros Hi Ho Hp. unfold visit_predecessor.
  assert (is_Some (lo !! p)) as Hlo by (apply lookup_lt_is_Some; lia). assert (is_Some (li !! p)) as Hli by (apply lookup_lt_is_Some; lia).
  assert (forall q, q ∈ [p] -> has (add lo p r) q r = true) as Hall.
  { intros q ->%list_elem_of_singleton. apply has_add_true. by right. }
  case_bool_decide as Hd; [|destruct (has li p r) eqn:Hhas].
  - split; cbn; try done; try by rewrite length_add.
    + intros b x Hb. apply has_add_true. by left.
    + intros b x Hx [?|(_ & -> & _)]%has_add_true; done.
    + intros H q [Hq|(-> & _ & _)]%has_add_true; [by apply H|by left].
    + by left.
  - split; cbn; try done; try by rewrite length_add.
    + intros b x Hb. apply has_add_true. by left.
    + intros b x Hx [?|(_ & -> & _)]%has_add_true; done.
    + intros H q [Hq|(-> & _ & _)]%has_add_true; [by apply H|by right].
    + by left.
  - split; cbn; try done; try by rewrite !length_add.
    + intros b x Hb. apply has_add_true. by left.
    + intros b x Hb. apply has_add_true. by left.
    + intros b x Hx [?|(_ & -> & _)]%has_add_true; done.
    + intros b x Hx [?|(_ & -> & _)]%has_add_true; done.
    + intros H q [Hq|(-> & _ & _)]%has_add_true.
      * destruct (H _ Hq) as [?|?]; [by left|right; apply has_add_true; by left].
      * right. apply has_add_true. by right.
    + intros s [?|(-> & _)]%has_add_true; [by left|right; left].
    + intros s Hs. by right.
    + assert (found (add li p r) = {[p]} ∪ found li) as ->.
      { apply set_eq. intros b. rewrite elem_of_union, elem_of_singleton, !elem_of_found, has_add_true. naive_solver lia. }
      rewrite size_union, size_singleton; [lia|]. intros b ->%elem_of_singleton [E _]%elem_of_found. congruence.
Qed.

Lemma visited_trans l l' s1 s2 s3 : visited l s1 s2 -> visited l' s2 s3 -> visited (l ++ l') s1 s3.
Proof.
  intros [[L1 L1'] I1 O1 OI1 OO1 A1 T1 N1 W1 M1] [[L2 L2'] I2 O2 OI2 OO2 A2 T2 N2 W2 M2]. split; auto; try lia.
  - intros p [Hp|Hp]%elem_of_app; auto.
  - intros s [Hs|Hs]%N2; [|by right]. destruct (N1 _ Hs); auto.
Qed.

Lemma visited_all l state :
  length state.1.1 = count -> length state.1.2 = count -> (forall p, p ∈ l -> (p < count)%nat) ->
  visited l state (foldl visit state l).
Proof.
  revert state. induction l as [|p l IH]; intros state Hi Ho Hl; cbn [foldl].
  - split; try done; [by intros p ?%elem_of_nil|by left].
  - pose proof (visit_visited p state Hi Ho (Hl _ (list_elem_of_here _ _))) as Hv. eapply (visited_trans [p]); [exact Hv|].
    destruct (vs_lengths _ _ _ Hv) as [E1 E2]. apply IH; [congruence|congruence|intros; apply Hl; by right].
Qed.

(** What the search for the reads of [r] leaves *)
Record closed (live_in live_out : Live) (work : list nat) : Prop := {
  cl_lengths : length live_in = count /\ length live_out = count;
  cl_edges : forall s p l, has live_in s r = true -> s ∉ work -> preds !! s = Some l -> p ∈ l -> has live_out p r = true;
  cl_through : through live_in live_out
}.

Lemma propagate_closed fuel li lo work :
  closed li lo work -> (length work + count < fuel + size (found li))%nat ->
  let after := propagate blocks preds r fuel li lo work in
  closed after.1.1 after.1.2 [] /\
  (forall b x, has li b x = true -> has after.1.1 b x = true) /\
  (forall b x, has lo b x = true -> has after.1.2 b x = true) /\
  (forall b x, x <> r -> has after.1.1 b x = true -> has li b x = true) /\
  (forall b x, x <> r -> has after.1.2 b x = true -> has lo b x = true).
Proof using Hbelow.
  revert li lo work. induction fuel as [|fuel IH]; intros li lo work Hc Hf; [pose proof (found_le li); lia|].
  cbn [propagate]. destruct work as [|a work]; [done|]. destruct Hc as [[Li Lo] He Ht].
  assert (visited (default [] (preds !! a)) (li, lo, work) (foldl visit (li, lo, work) (default [] (preds !! a)))) as Hv.
  { apply visited_all; [done..|]. intros p Hp. destruct (preds !! a) as [l|] eqn:E; [by eapply Hbelow|by apply elem_of_nil in Hp]. }
  destruct (foldl visit _ _) as [[li1 lo1] work1]. destruct Hv as [[E1 E2] I O OI OO A T N W M]. cbn [fst snd] in *.
  specialize (IH li1 lo1 work1). cbv zeta in IH. destruct IH as (C' & I' & O' & OI' & OO').
  - split; [split; congruence| |by apply T]. intros s p l Hs Hw Hl Hp. destruct (decide (s = a)) as [->|Hne].
    + apply A. by rewrite Hl.
    + destruct (N s Hs) as [Hs'|?]; [|done]. apply O. eapply He; [exact Hs'| |exact Hl|exact Hp].
      intros [?|Hin]%elem_of_cons; [done|]. by apply Hw, W.
  - cbn in Hf. lia.
  - split_and!; auto.
Qed.
End wave.

(** *** The sets *)

Section sets.
Variable preds : list (list nat).
Hypothesis Hbelow : preds_below preds.

Definition all_closed (state : Live * Live) : Prop := forall r, closed preds r state.1 state.2 [].

Lemma closed_same r li lo li' lo' work :
  length li' = length li -> length lo' = length lo ->
  (forall b, has li' b r = has li b r) -> (forall b, has lo' b r = has lo b r) -> closed preds r li lo work -> closed preds r li' lo' work.
Proof.
  intros E1 E2 Hi Ho [[L1 L2] He Ht]. split.
  - split; congruence.
  - intros s p l. rewrite Hi, Ho. apply He.
  - intros p. rewrite Ho, Hi. apply Ht.
Qed.

Lemma same_has (live live' : Live) r :
  (forall b, has live b r = true -> has live' b r = true) -> (forall b, has live' b r = true -> has live b r = true) ->
  forall b, has live' b r = has live b r.
Proof. intros H1 H2 b. apply eq_true_iff_eq. split; auto. Qed.

Lemma expose_closed r index state :
  (index < count)%nat -> all_closed state ->
  let state' := expose blocks preds r index state in
  all_closed state' /\ has state'.1 index r = true /\ (forall b x, has state.1 b x = true -> has state'.1 b x = true).
Proof using Hbelow.
  destruct state as [li lo]. intros Hi Hc. unfold expose. destruct (has li index r) eqn:Hhas; [done|].
  assert (length li = count /\ length lo = count) as [Li Lo] by apply (Hc r).
  assert (is_Some (li !! index)) as Hli by (apply lookup_lt_is_Some; lia).
  destruct (propagate_closed preds Hbelow r (S count) (add li index r) lo [index]) as (C & I & O & OI & OO).
  - destruct (Hc r) as [_ He Ht]. split.
    + by rewrite length_add.
    + intros s p l [Hs|(-> & _)]%has_add_true Hw; [|set_solver]. eapply He; [exact Hs|set_solver].
    + intros p [?|?]%Ht; [by left|right; apply has_add_true; by left].
  - assert (found r (add li index r) ≢ ∅) as Hne.
    { assert (index ∈ found r (add li index r)) as Hin by (apply elem_of_found; split; [apply has_add_true; by right|done]). set_solver. }
    apply size_non_empty_iff in Hne; [|..]. cbn. lia.
  - cbv zeta in *. destruct (propagate _ _ _ _ _ _ _) as [[li' lo'] w']. cbn [fst snd] in *. split_and!.
    + intros x. destruct (decide (x = r)) as [->|Hx]; [exact C|]. destruct (Hc x) as [L He Ht]. cbn [fst snd] in *.
      destruct C as [[C1 C2] _ _]. apply (closed_same x li lo); [congruence|congruence| | |by split].
      * apply same_has; [intros b Hb; apply I; apply has_add_true; by left|].
        intros b Hb. apply OI in Hb; [|done]. apply has_add_true in Hb as [?|(_ & ? & _)]; [done|congruence].
      * apply same_has; [intros b; apply O|intros b; by apply OO].
    + apply I. apply has_add_true. by right.
    + intros b x Hb. apply I. apply has_add_true. by left.
Qed.

Lemma live_sets_closed :
  let state := live_sets blocks preds in
  all_closed state /\ forall b block r, blocks !! b = Some block -> r ∈ upward block -> has state.1 b r = true.
Proof using Hbelow.
  unfold live_sets.
  enough (forall l state, (forall b block, (b, block) ∈ l -> (b < count)%nat) -> all_closed state ->
    let state' := foldl (fun state '(index, block) =>
      foldl (fun state register => expose blocks preds register index state) state (upward block)) state l in
    all_closed state' /\ (forall b x, has state.1 b x = true -> has state'.1 b x = true) /\
    forall b block r, (b, block) ∈ l -> r ∈ upward block -> has state'.1 b r = true) as H.
  { destruct (H (imap pair blocks) (replicate count ∅, replicate count ∅)) as (Hc & _ & Hu).
    - intros b block (j & bl & [= -> ->] & Hj)%elem_of_lookup_imap. by eapply lookup_lt_Some.
    - intros r. split; cbn; [by rewrite length_replicate|by intros s p l; rewrite has_replicate|by intros p; rewrite has_replicate].
    - split; [exact Hc|]. intros b block r Hb. apply Hu. apply list_elem_of_lookup. exists b. by rewrite list_lookup_imap, Hb. }
  induction l as [|[b block] l IH]; intros state Hl Hc; cbn [foldl].
  - split_and!; [done|done|]. by intros ? ? ? ?%elem_of_nil.
  - assert (b < count)%nat as Hb by (eapply Hl; left).
    assert (forall us state, all_closed state ->
      let state' := foldl (fun state register => expose blocks preds register b state) state us in
      all_closed state' /\ (forall b x, has state.1 b x = true -> has state'.1 b x = true) /\
      forall r, r ∈ us -> has state'.1 b r = true) as Hus.
    { clear -Hb Hbelow. induction us as [|u us IH]; intros state Hc; cbn [foldl].
      - split_and!; [done|done|]. by intros ? ?%elem_of_nil.
      - destruct (expose_closed u b state Hb Hc) as (C1 & H1 & M1). destruct (IH _ C1) as (C2 & M2 & U2). split_and!; auto.
        intros r [->|Hr]%elem_of_cons; auto. }
    destruct (Hus (upward block) state Hc) as (C1 & M1 & U1). destruct (IH _ (fun b' bl Hin => Hl b' bl (list_elem_of_further _ _ _ Hin)) C1) as (C2 & M2 & U2).
    split_and!; auto. intros b' bl r [[= -> ->]|Hin]%elem_of_cons Hr; [by apply M2, U1|by eapply U2].
Qed.
End sets.
End sound.

(** ** Soundness *)

(** What is read from an instruction on, in its block *)
Lemma upward_reads_later local code term r :
  r ∈ upward_reads local code term -> r ∈ (block_masks ∅ code term).2 /\ r ∉ local.
Proof.
  revert local. induction code as [|i code IH]; intros local; cbn [upward_reads block_masks].
  - intros [Hr Ht]%list_elem_of_filter. split; [by apply elem_of_list_to_set|done].
  - destruct (block_masks ∅ code term) as [ms later]. cbn [snd] in *. intros [[Hr Hi]%list_elem_of_filter|Hr]%elem_of_app.
    + split; [|done]. apply elem_of_union. left. by apply elem_of_list_to_set.
    + apply IH in Hr as [Hl Hn]. split; set_solver.
Qed.

Lemma block_masks_later out code term : (block_masks out code term).2 = (block_masks ∅ code term).2.
Proof.
  induction code as [|i code IH]; [done|]. cbn [block_masks]. destruct (block_masks out code term), (block_masks ∅ code term). cbn in *. by rewrite IH.
Qed.

Lemma block_masks_lookup out code term k i :
  code !! k = Some i ->
  (block_masks out code term).1 !! k = Some (operand_mask (in_operands i) (block_masks ∅ (drop (S k) code) term).2 out).
Proof.
  revert k. induction code as [|i' code IH]; intros [|k] H; try done; cbn [block_masks drop] in *;
    destruct (block_masks out code term) as [ms later] eqn:E; cbn in *.
  - injection H as ->. rewrite drop_0, <- (block_masks_later out), E. done.
  - by apply IH.
Qed.

Lemma operand_mask_bit operands later out k :
  N.testbit (operand_mask operands later out) (N.of_nat k) = true ->
  exists r, operands !! k = Some r /\ count_occ N.eq_dec operands r = 1%nat /\ (r ∉ later) /\ (r ∉ out).
Proof.
  unfold operand_mask. destruct (_ <=? _)%nat; [|by rewrite N.bits_0].
  enough (forall l m, (forall j r, (j, r) ∈ l -> operands !! j = Some r) ->
    N.testbit (foldl (fun mask '(k, register) =>
      if (count_occ N.eq_dec operands register =? 1)%nat && bool_decide (register ∉ later) && bool_decide (register ∉ out)
      then N.lor mask (N.shiftl 1 (N.of_nat k)) else mask) m l) (N.of_nat k) = true ->
    N.testbit m (N.of_nat k) = true \/
    exists r, operands !! k = Some r /\ count_occ N.eq_dec operands r = 1%nat /\ (r ∉ later) /\ (r ∉ out)) as H.
  { intros Hb. apply H in Hb as [Hb|?]; [by rewrite N.bits_0 in Hb|done|]. by intros j r (? & ? & [= -> ->] & Hj)%elem_of_lookup_imap. }
  induction l as [|[j r] l IH]; intros m Hl Hb; cbn [foldl] in Hb; [by left|].
  apply IH in Hb as [Hb|?]; [|by right|intros; apply Hl; by right]. case_match eqn:E; [|by left].
  rewrite N.lor_spec in Hb. apply orb_true_iff in Hb as [?|Hb]; [by left|]. right. apply andb_true_iff in E as [[E1 E2]%andb_true_iff E3].
  rewrite N.shiftl_1_l, N.pow2_bits_eqb in Hb. apply N.eqb_eq, Nat2N.inj in Hb as ->.
  exists r. split_and!; [apply Hl; left|by apply Nat.eqb_eq|by apply bool_decide_eq_true in E2|by apply bool_decide_eq_true in E3].
Qed.

Section theorem.
Variable blocks : list BytecodeBlock.
Variable preds : list (list nat).
Hypothesis Hpreds : predecessors blocks = Some preds.
#[local] Abbreviation sets := (live_sets blocks preds).

Lemma edge_live b block s r :
  blocks !! b = Some block -> s ∈ successors (bb_terminator block) -> has sets.1 s r = true -> has sets.2 b r = true.
Proof using Hpreds.
  intros Hb Hs Hh. destruct (live_sets_closed blocks preds (predecessors_below _ _ Hpreds)) as [Hc _].
  destruct (predecessors_ok _ _ Hpreds) as [_ Hp]. destruct (Hp _ _ _ Hb Hs) as (l & Hl & Hbl).
  eapply (cl_edges _ _ _ _ _ _ (Hc r)); [exact Hh|apply not_elem_of_nil|exact Hl|exact Hbl].
Qed.

Lemma through_live b block r :
  blocks !! b = Some block -> r ∉ defines block -> has sets.2 b r = true -> has sets.1 b r = true.
Proof using Hpreds.
  intros Hb Hr Hh. destruct (live_sets_closed blocks preds (predecessors_below _ _ Hpreds)) as [Hc _].
  destruct (cl_through _ _ _ _ _ _ (Hc r) _ Hh) as [Hd|?]; [|done].
  destruct (defined_in_Some _ _ _ Hd) as (block' & Hb' & Hr'). rewrite Hb in Hb'. injection Hb' as <-. done.
Qed.

(** A value that may be read is exposed by the rest of its block, or live after it. *)
Lemma will_read_live b k r :
  will_read blocks b k r -> forall block, blocks !! b = Some block ->
  (forall local, r ∉ local -> r ∈ upward_reads local (drop k (bb_instructions block)) (terminator_reads (bb_terminator block))) \/
  (r ∉ (drop k (bb_instructions block) ≫= in_results)) /\ has sets.2 b r = true.
Proof using Hpreds.
  intros H. induction H as [b bl k i r Hb Hk Hr|b bl k i r Hb Hk Hr _ IH|b bl r Hb Hr|b bl s tg r Hb Hs Ht Hr _ IH];
    intros block Hb'; rewrite Hb in Hb'; injection Hb' as <-.
  - left. intros local Hl. rewrite (drop_S _ _ _ Hk). cbn [upward_reads]. apply elem_of_app. left. by apply list_elem_of_filter.
  - destruct (IH _ Hb) as [Hu|[Hn Hh]].
    + left. intros local Hl. rewrite (drop_S _ _ _ Hk). cbn [upward_reads]. apply elem_of_app. right. apply Hu.
      rewrite elem_of_union, elem_of_list_to_set. tauto.
    + right. split; [|done]. rewrite (drop_S _ _ _ Hk). cbn. rewrite elem_of_app. tauto.
  - left. intros local Hl. rewrite drop_all. cbn. by apply list_elem_of_filter.
  - right. rewrite drop_all. split; [apply not_elem_of_nil|]. eapply edge_live; [exact Hb|exact Hs|].
    destruct (IH _ Ht) as [Hu|[Hn Hh]].
    + destruct (live_sets_closed blocks preds (predecessors_below _ _ Hpreds)) as [_ Hup]. eapply Hup; [exact Ht|].
      rewrite drop_0 in Hu. apply Hu. by rewrite elem_of_list_to_set.
    + rewrite drop_0 in Hn. eapply through_live; [exact Ht| |exact Hh]. unfold defines. rewrite elem_of_app. tauto.
Qed.
End theorem.

Section facts.
Variable blocks : list BytecodeBlock.
#[local] Abbreviation live := (compute blocks).

Lemma mask_dead b block k i j r :
  blocks !! b = Some block -> bb_instructions block !! k = Some i -> in_operands i !! j = Some r ->
  N.testbit (mask live b k) (N.of_nat j) = true ->
  count_occ N.eq_dec (in_operands i) r = 1%nat /\ ~ will_read blocks b (S k) r.
Proof.
  intros Hb Hk Hj Hbit. unfold mask, compute in Hbit. destruct (predecessors blocks) as [preds|] eqn:Hp; [|by rewrite N.bits_0 in Hbit].
  pose proof (will_read_live blocks preds Hp b (S k) r) as Hlive. destruct (live_sets blocks preds) as [li lo]. cbn [dead_operands snd] in *.
  rewrite list_lookup_imap, Hb in Hbit. cbn [fmap option_fmap option_map mbind option_bind] in Hbit.
  rewrite (block_masks_lookup _ _ _ _ _ Hk) in Hbit. cbn [default] in Hbit.
  destruct (operand_mask_bit _ _ _ _ Hbit) as (r' & Hr' & Hone & Hlater & Hout). rewrite Hj in Hr'. injection Hr' as <-. split; [done|].
  intros Hw. destruct (Hlive Hw _ Hb) as [Hu|[_ Hh]].
  - apply Hlater. eapply (upward_reads_later ∅). apply Hu. set_solver.
  - apply has_true in Hh as (s & Hs & Hr). rewrite Hs in Hout. done.
Qed.

Lemma dead_after_dead b block s target r :
  blocks !! b = Some block -> dead_after_terminator live b r = true ->
  s ∈ successors (bb_terminator block) -> blocks !! s = Some target -> r ∉ bb_parameter_registers target -> ~ will_read blocks s 0 r.
Proof.
  intros Hb Hd Hs Ht Hr Hw. unfold dead_after_terminator, compute in Hd. destruct (predecessors blocks) as [preds|] eqn:Hp; [|done].
  pose proof (will_read_live blocks preds Hp b (length (bb_instructions block)) r) as Hlive.
  destruct (live_sets blocks preds) as [li lo] eqn:E. cbn [live_out snd] in *.
  assert (has lo b r = true) as Hh.
  { change lo with (li, lo).2. rewrite <- E. eapply (edge_live _ _ Hp); [exact Hb|exact Hs|].
    destruct (will_read_live blocks preds Hp s 0 r Hw _ Ht) as [Hu|[Hn Hh]].
    - destruct (live_sets_closed blocks preds (predecessors_below _ _ Hp)) as [_ Hup]. eapply Hup; [exact Ht|].
      rewrite drop_0 in Hu. apply Hu. by rewrite elem_of_list_to_set.
    - rewrite drop_0 in Hn. eapply (through_live _ _ Hp); [exact Ht| |exact Hh]. unfold defines. rewrite elem_of_app. tauto. }
  apply has_true in Hh as (out & Hout & Hin). rewrite Hout in Hd. by rewrite negb_true_iff, bool_decide_eq_false in Hd.
Qed.
End facts.

(** C12: An operand whose bit is set in the mask of its instruction occurs once among
    the operands and is not read again on any path before it is defined again,
    and neither is a register reported dead after a terminator, in any successor
    that does not take it as a parameter. *)
Theorem liveness_sound blocks b block k i j s target r (Hb : blocks !! b = Some block) :
  (bb_instructions block !! k = Some i -> in_operands i !! j = Some r ->
   N.testbit (mask (compute blocks) b k) (N.of_nat j) = true ->
   count_occ N.eq_dec (in_operands i) r = 1%nat /\ ~ will_read blocks b (S k) r) /\
  (dead_after_terminator (compute blocks) b r = true ->
   s ∈ successors (bb_terminator block) -> blocks !! s = Some target -> r ∉ bb_parameter_registers target ->
   ~ will_read blocks s 0 r).
Proof. split; [apply mask_dead; exact Hb|apply dead_after_dead; exact Hb]. Qed.

(** A loop: block 1 reads register 0 in every round and hands register 1 to itself. *)
Definition sample_loop : list BytecodeBlock :=
  [mkBytecodeBlock 0 [] [mkInstruction (Opcode_tag OpBoolNot) [0] [1] ImmNone] (BBranch (mkBytecodeTargetEdge 1 [1])) 0;
   mkBytecodeBlock 1 [2] [mkInstruction (Opcode_tag OpBoolAnd) [2; 0] [3] ImmNone]
     (BCondBranch 3 (mkBytecodeTargetEdge 1 [3]) (mkBytecodeTargetEdge 2 [])) 0;
   mkBytecodeBlock 2 [] [] (BReturn 3) 0].

Lemma liveness_sound_witness :
  mask (compute sample_loop) 1 0 = 1 /\ dead_after_terminator (compute sample_loop) 0 1 = true /\
  ~ will_read sample_loop 1 1 2 /\ ~ will_read sample_loop 1 0 1.
Proof.
  split_and!; [vm_compute; reflexivity..| |].
  - eapply (proj1 (liveness_sound sample_loop 1 _ 0 _ 0 0 (mkBytecodeBlock 0 [] [] (BReturn 0) 0) 2 eq_refl) eq_refl eq_refl).
    vm_compute. reflexivity.
  - eapply (proj2 (liveness_sound sample_loop 0 _ 0 (mkInstruction 0 [] [] ImmNone) 0 1 _ 1 eq_refl)).
    + vm_compute. reflexivity.
    + by left.
    + reflexivity.
    + cbn. set_solver.
Defined.
