(* ===== verification/VmRun.v ===== *)
(** * The virtual machine: the interpreter (crates/sley-vm/src/execute.rs)

    One turn of the loop of [run] is a function on machines: the runtime of the
    current frame, the stack of suspended callers, and the code position.  A
    turn that stops keeps the runtime it stops in, since the counts of an
    outcome are read from it even after a fault. *)

From S2P Require Import Prelude State Bytes Ids Ssmc Types TypeWalk ConstCheck Fingerprint ConstEncoding.
From S2P Require Import VmInt VmText VmBridge VmJudge VmExec VmBytecode VmLower VmValue VmOwned VmLiveness.
Set Warnings "-register-all".

Open Scope N_scope.

(** ** Requests and outcomes *)

Definition MAX_EXECUTION_INPUTS : N := 262144.
Definition MAX_EXECUTION_INPUT_VALUE_UNITS : N := 67108864.
Definition MAX_EXECUTION_CELLS : N := 1048576.
Definition MAX_CALL_DEPTH : N := 256.
Definition BRIDGE_ELEMENT_FUEL : N := 1.

Record ExecutionLimits : Type := mkExecutionLimits {
  max_instructions : N;
  max_fuel : N;
  max_value_units : N;
  max_output_units : N;
  cancel_at_fuel : option N
}.

Record ExecutionRequest : Type := mkExecutionRequest {
  rq_inputs : list ConstValue;
  rq_limits : ExecutionLimits
}.

Record ExecutionSource : Type := mkExecutionSource {
  es_types : Definitions;
  es_constants : list ConstantDefinition;
  es_globals : list GlobalValueDefinition;
  es_contracts : list ContractDefinition;
  es_adapters : list AdapterImport;
  es_schema_epoch : bytes;
  es_state_root : bytes;
  es_profile : CacheProfile;
  es_function : EntityId
}.

(** [ExecutionSource::lowering] *)
Definition source_of (input : LoweringInput) : ExecutionSource :=
  mkExecutionSource (li_types input) (li_constants input) (li_globals input) (li_contracts input) (li_adapters input)
    (li_schema_epoch input) (li_state_root input) (li_profile input) (fg_entity_id (li_function input)).

Inductive ResourceKind : Type := RKInstruction | RKFuel | RKValueUnits | RKOutputUnits | RKCallDepth.
#[global] Instance ResourceKind_eq_dec : EqDecision ResourceKind.
Proof. solve_decision. Defined.

Definition ResourceKind_tag (kind : ResourceKind) : N :=
  match kind with RKInstruction => 1 | RKFuel => 2 | RKValueUnits => 3 | RKOutputUnits => 4 | RKCallDepth => 5 end.

Inductive ExecutionTermination : Type :=
| Success (value : ConstValue)
| ResourceLimit (kind : ResourceKind)
| Cancelled
| Trap (trap_tag : N) (payload : option ConstValue)
| InternalInvariant.

Inductive ExecutionStatusCode : Type := StResourceLimit | StCancelled | StTrap | StInternalInvariant.

Definition ExecutionStatusCode_numeric (code : ExecutionStatusCode) : N :=
  match code with StResourceLimit => 27002 | StCancelled => 27003 | StTrap => 27004 | StInternalInvariant => 27005 end.

Definition status_code (termination : ExecutionTermination) : option ExecutionStatusCode :=
  match termination with
  | Success _ => None
  | ResourceLimit _ => Some StResourceLimit
  | Cancelled => Some StCancelled
  | Trap _ _ => Some StTrap
  | InternalInvariant => Some StInternalInvariant
  end.

Inductive ExecutionErrorCode : Type := InputCountMismatch | InputTypeMismatch | InputNotCanonical.

Definition ExecutionErrorCode_numeric (code : ExecutionErrorCode) : N :=
  match code with InputCountMismatch => 27000 | InputTypeMismatch => 27001 | InputNotCanonical => 27006 end.

Inductive ExecutionError : Type :=
| ExecLowering (error : LoweringError)
| ExecType (error : TypeErrorCode)
| ExecFingerprint (error : FingerprintErrorCode)
| ExecStatus (code : ExecutionStatusCode)
| ExecInput (code : ExecutionErrorCode).

Record CoreOutcome : Type := mkCoreOutcome {
  co_termination : ExecutionTermination;
  co_instruction_count : N;
  co_fuel_used : N;
  co_peak_value_units : N;
  co_peak_call_depth : N
}.

(** ** The runtime of a frame *)

Record Runtime : Type := mkRuntime {
  registers : Registers;
  block : nat;
  instruction_count : N;
  fuel_used : N;
  live_value_units : N;
  peak_value_units : N;
  cells : Cells;
  max_call_depth : N;
  peak_call_depth : N;
  returned : option RuntimeValue
}.

Definition set_registers (regs : Registers) (rt : Runtime) : Runtime :=
  mkRuntime regs (block rt) (instruction_count rt) (fuel_used rt) (live_value_units rt) (peak_value_units rt) (cells rt)
    (max_call_depth rt) (peak_call_depth rt) (returned rt).
Definition set_block (target : nat) (rt : Runtime) : Runtime :=
  mkRuntime (registers rt) target (instruction_count rt) (fuel_used rt) (live_value_units rt) (peak_value_units rt) (cells rt)
    (max_call_depth rt) (peak_call_depth rt) (returned rt).
Definition set_cells (new : Cells) (rt : Runtime) : Runtime :=
  mkRuntime (registers rt) (block rt) (instruction_count rt) (fuel_used rt) (live_value_units rt) (peak_value_units rt) new
    (max_call_depth rt) (peak_call_depth rt) (returned rt).
Definition set_returned (value : option RuntimeValue) (rt : Runtime) : Runtime :=
  mkRuntime (registers rt) (block rt) (instruction_count rt) (fuel_used rt) (live_value_units rt) (peak_value_units rt) (cells rt)
    (max_call_depth rt) (peak_call_depth rt) value.
Definition count_instruction (rt : Runtime) : Runtime :=
  mkRuntime (registers rt) (block rt) (saturating_add (instruction_count rt) 1) (fuel_used rt) (live_value_units rt)
    (peak_value_units rt) (cells rt) (max_call_depth rt) (peak_call_depth rt) (returned rt).
Definition burn_fuel (rt : Runtime) : Runtime :=
  mkRuntime (registers rt) (block rt) (instruction_count rt) (saturating_add (fuel_used rt) 1) (live_value_units rt)
    (peak_value_units rt) (cells rt) (max_call_depth rt) (peak_call_depth rt) (returned rt).
Definition set_value_units (live : N) (rt : Runtime) : Runtime :=
  mkRuntime (registers rt) (block rt) (instruction_count rt) (fuel_used rt) live (N.max (peak_value_units rt) live) (cells rt)
    (max_call_depth rt) (peak_call_depth rt) (returned rt).

(** Copies the shared budgets and cells back from a finished callee frame. *)
Definition adopt_frame (runtime child : Runtime) : Runtime :=
  mkRuntime (registers runtime) (block runtime) (instruction_count child) (fuel_used child) (live_value_units child)
    (peak_value_units child) (cells child) (max_call_depth runtime) (peak_call_depth child) (returned runtime).

(** ** Actions

    A [RuntimeResult<Option<ExecutionTermination>>] in three outcomes: go on, stop
    with a termination, or fault.  The runtime is kept in each. *)

Inductive Halt (A : Type) : Type :=
| Go (a : A)
| Stop (termination : ExecutionTermination)
| Broken.
Arguments Go {A} a.
Arguments Stop {A} termination.
Arguments Broken {A}.

Definition Act (A : Type) : Type := Runtime -> Halt A * Runtime.

#[global] Instance Act_ret : MRet Act := fun A a rt => (Go a, rt).
#[global] Instance Act_bind : MBind Act := fun A B k m rt =>
  match m rt with
  | (Go a, rt) => k a rt
  | (Stop termination, rt) => (Stop termination, rt)
  | (Broken, rt) => (Broken, rt)
  end.

Definition stop {A} (termination : ExecutionTermination) : Act A := fun rt => (Stop termination, rt).
Definition broken {A} : Act A := fun rt => (Broken, rt).
Definition attempt {A} (m : fault_result A) : Act A := fun rt => match m with Ok a => (Go a, rt) | Err _ => (Broken, rt) end.
Definition gets {A} (f : Runtime -> A) : Act A := fun rt => (Go (f rt), rt).
Definition modify (f : Runtime -> Runtime) : Act unit := fun rt => (Go tt, f rt).

(** An operation on registers *)
Definition on_registers {A} (m : R A) : Act A := fun rt =>
  match m (registers rt) with Ok (a, regs) => (Go a, set_registers regs rt) | Err _ => (Broken, rt) end.

Definition write (register : Register) (value : RuntimeValue) : Act unit :=
  on_registers (fun regs => regs ← write_register regs register value; Ok (tt, regs)).

Section machine.
Context (blake3 sha256 : bytes -> bytes).
Variable limits : ExecutionLimits.

(** [instruction] tells whether the ceiling of instructions applies. *)
Definition charge_action (instruction : bool) : Act unit := fun rt =>
  if match cancel_at_fuel limits with Some cancel_at => cancel_at <=? fuel_used rt | None => false end then (Stop Cancelled, rt)
  else if (instruction : bool) && (max_instructions limits <=? instruction_count rt) then (Stop (ResourceLimit RKInstruction), rt)
  else if max_fuel limits <=? fuel_used rt then (Stop (ResourceLimit RKFuel), rt)
  else (Go tt, burn_fuel rt).

Definition charge_value (amount : N) (rt : Runtime) : option Runtime :=
  next ← checked_add (live_value_units rt) amount;
  if max_value_units limits <? next then None else Some (set_value_units next rt).

(** A value charged, or the run stops *)
Definition charge_units (amount : N) : Act unit := fun rt =>
  match charge_value amount rt with Some rt => (Go tt, rt) | None => (Stop (ResourceLimit RKValueUnits), rt) end.

Fixpoint charge_bridge_actions (fuel : nat) : Act unit :=
  match fuel with
  | O => mret tt
  | S fuel => charge_action false ≫= fun _ => charge_bridge_actions fuel
  end.

(** ** Instructions *)

Section instructions.
Variable source : ExecutionSource.
Variable constants : gmap N RuntimeValue.
Variable sole : RuntimeValue -> bool.

Definition execution_context : ExecutionContext :=
  mkExecutionContext (es_types source) (es_constants source) (es_globals source) (es_schema_epoch source) (es_adapters source).

(** Executes one restricted-v1 boolean instruction. *)
Definition execute_restricted (instruction : Instruction) : Act unit :=
  operands ← on_registers (collect (fun register => value ← read_value register; lift (bool_operand value)) (in_operands instruction));
  match in_results instruction with
  | [result_register] =>
      charge_units (value_units_const (bool_value false)) ≫= fun _ =>
      value ← attempt
        (if in_opcode instruction =? 102 then match operands with [value] => Ok (negb value) | _ => Err Fault end
         else if in_opcode instruction =? 103 then match operands with [l; r] => Ok (l && r) | _ => Err Fault end
         else if in_opcode instruction =? 104 then match operands with [l; r] => Ok (l || r) | _ => Err Fault end
         else Err Fault);
      modify count_instruction ≫= fun _ =>
      write result_register (rv_new (bool_value value))
  | _ => broken
  end.

(** The end of an instruction: the cell ceiling, the charge, and the result *)
Definition store_result (register : Register) (value : RuntimeValue) (stored : N) : Act unit :=
  held ← gets cells;
  if MAX_EXECUTION_CELLS <=? len held then stop (ResourceLimit RKValueUnits)
  else
    charge_units (saturating_add (rv_units value) stored) ≫= fun _ =>
    modify count_instruction ≫= fun _ =>
    write register value.

(** The push onto a vector, which takes its operands *)
Definition execute_push (instruction : Instruction) (mask : N) (result_type : TypeExpr) : Act RuntimeValue :=
  match in_operands instruction with
  | [scope_register; request_register] =>
      charge_bridge_actions (N.to_nat BRIDGE_ELEMENT_FUEL) ≫= fun _ =>
      request ← on_registers (operand request_register (N.testbit mask 1));
      request_value ← attempt (into_value sole request);
      scope ← on_registers (operand scope_register (N.testbit mask 0));
      scope_value ← attempt (into_value sole scope);
      value ← attempt (execute_vector_push_owned (es_adapters source) (in_immediate instruction) scope_value request_value result_type);
      mret (with_units value
        match cv_data value with
        | DResult (ROk _) => saturating_add (saturating_add (saturating_add 4 (value_units_type result_type)) (rv_units scope)) (rv_units request)
        | _ => value_units_const value
        end)
  | _ => broken
  end.

(** The reference operation on borrowed operands, with the units it stores in cells *)
Definition execute_borrowed (opcode : Opcode) (instruction : Instruction) (result_type : TypeExpr) : Act (RuntimeValue * N) :=
  bridge_elements ←
    (if bool_decide (opcode = OpAdapterInvoke)
     then
       operands ← on_registers (collect read_value (in_operands instruction));
       mret (bridge_fuel_surcharge (es_adapters source) (in_immediate instruction) operands)
     else mret None);
  match bridge_elements with
  | Some elements => charge_bridge_actions (N.to_nat (saturating_mul elements BRIDGE_ELEMENT_FUEL))
  | None => mret tt
  end ≫= fun _ =>
  operands ← on_registers (collect read_value (in_operands instruction));
  held ← gets cells;
  '(value, held) ← attempt (execute_extended_instruction blake3 sha256 execution_context opcode (in_immediate instruction)
    operands result_type held);
  modify (set_cells held) ≫= fun _ =>
  let stored :=
    match opcode with
    | OpCellNew | OpCellSet => match last operands with Some value => value_units_const value | None => 0 end
    | _ => 0
    end in
  mret (rv_new value, stored).

Definition execute_extended (instruction : Instruction) (mask : N) (register_types : list TypeExpr) : Act unit :=
  opcode ← attempt (ok_or Fault (Opcode_from_tag (in_opcode instruction)));
  match in_results instruction with
  | [register] =>
      result_type ← attempt (ok_or Fault (register_types !! N.to_nat register));
      let owned_push :=
        bool_decide (opcode = OpAdapterInvoke) &&
        match in_immediate instruction with ImmEntity entry => is_push_identity entry | _ => false end in
      '(value, stored) ←
        (if owned_push then value ← execute_push instruction mask result_type; mret (value, 0)
         else
           produced ← on_registers (owned_execute sole (es_types source) constants opcode (in_immediate instruction) mask result_type
             (in_operands instruction));
           match produced with
           | Some value => mret (value, 0)
           | None => execute_borrowed opcode instruction result_type
           end);
      found ← attempt (rv_value value);
      if bool_decide (cv_type found = result_type) then store_result register value stored else broken
  | _ => broken
  end.
End instructions.

(** ** Terminators *)

Section terminators.
Variable blocks : list BytecodeBlock.
Variable live : FnLiveness.

Definition bind_values (target : BlockSlot) (values : list RuntimeValue) : Act unit :=
  match blocks !! N.to_nat target with
  | Some found =>
      if negb (len (bb_parameter_registers found) =? len values) then broken
      else
        on_registers (each (fun '(register, value) => fun regs => regs ← write_register regs register value; Ok (tt, regs))
          (zip (bb_parameter_registers found) values)) ≫= fun _ =>
        modify (set_block (N.to_nat target))
  | None => broken
  end.

(** An argument is moved where it occurs last, if it is dead after the block. *)
Definition edge_operand (source_block : nat) (register : Register) (later : list Register) : Act RuntimeValue :=
  on_registers (operand register (bool_decide (register ∉ later) && dead_after_terminator live source_block register)).

Fixpoint edge_values (source_block : nat) (arguments : list Register) : Act (list RuntimeValue) :=
  match arguments with
  | [] => mret []
  | register :: later =>
      charge_action false ≫= fun _ =>
      value ← edge_operand source_block register later;
      values ← edge_values source_block later;
      mret (value :: values)
  end.

Definition bind_edge (edge : BytecodeTargetEdge) (source_block : nat) : Act unit :=
  values ← edge_values source_block (bte_arguments edge);
  bind_values (bte_target edge) values.

(** The payload is handed out once for each argument that asks for it, moved the last time. *)
Fixpoint switch_values (source_block : nat) (payload : option RuntimeValue) (arguments : list BytecodeSwitchArgument)
    : Act (list RuntimeValue) :=
  match arguments with
  | [] => mret []
  | argument :: later =>
      charge_action false ≫= fun _ =>
      '(value, payload) ←
        match argument with
        | BSAValue register => value ← edge_operand source_block register (argument_registers later); mret (value, payload)
        | BSACasePayload =>
            charge_action false ≫= fun _ =>
            match payload with
            | Some value => mret (value, if bool_decide (BSACasePayload ∈ later) then payload else None)
            | None => stop InternalInvariant
            end
        end;
      values ← switch_values source_block payload later;
      mret (value :: values)
  end.

Definition bind_switch_edge (edge : BytecodeSwitchEdge) (payload : option RuntimeValue) (source_block : nat) : Act unit :=
  values ← switch_values source_block payload (bse_arguments edge);
  bind_values (bse_target edge) values.

Definition selected_case (value : RuntimeValue) : fault_result (CaseKey * option RuntimeValue) :=
  found ← rv_value value;
  '(key, has_payload) ←
    match cv_data found with
    | DVariant variant => Ok (KeyMember (vk_member_id variant), bool_decide (is_Some (vk_payload variant)))
    | DOption None => Ok (KeyBuiltin BCNone, false)
    | DOption (Some _) => Ok (KeyBuiltin BCSome, true)
    | DResult (ROk _) => Ok (KeyBuiltin BCOk, true)
    | DResult (RErr _) => Ok (KeyBuiltin BCErr, true)
    | _ => Err Fault
    end;
  if (has_payload : bool) then payload ← payload_view value; Ok (key, Some payload) else Ok (key, None).

Fixpoint take_case (key : CaseKey) (payload : option RuntimeValue) (source_block : nat) (cases : list BytecodeSwitchCase) : Act unit :=
  match cases with
  | [] => stop InternalInvariant
  | case :: cases =>
      charge_action false ≫= fun _ =>
      if bool_decide (bsc_case_key case = key) then bind_switch_edge (bsc_edge case) payload source_block
      else take_case key payload source_block cases
  end.

(** [true] when the function returned, with the value in [returned] *)
Definition dispatch_terminator (terminator : BytecodeTerminator) (result_type : TypeExpr) : Act bool :=
  charge_action false ≫= fun _ =>
  source_block ← gets block;
  match terminator with
  | BReturn register =>
      value ← on_registers (take_register register);
      found ← attempt (rv_value value);
      if negb (bool_decide (cv_type found = result_type)) then stop InternalInvariant
      else if max_output_units limits <? rv_units value then stop (ResourceLimit RKOutputUnits)
      else modify (set_returned (Some value)) ≫= fun _ => mret true
  | BBranch edge => bind_edge edge source_block ≫= fun _ => mret false
  | BCondBranch condition if_true if_false =>
      found ← on_registers (read_value condition);
      match cv_data found with
      | DBool condition => bind_edge (if condition then if_true else if_false) source_block ≫= fun _ => mret false
      | _ => stop InternalInvariant
      end
  | BVariantSwitch value cases =>
      let carried_as_argument := existsb (fun case => bool_decide (value ∈ argument_registers (bse_arguments (bsc_edge case)))) cases in
      selected ← on_registers (operand value (negb carried_as_argument && dead_after_terminator live source_block value));
      '(key, payload) ← attempt (selected_case selected);
      take_case key payload source_block cases ≫= fun _ => mret false
  | BTrap code payload =>
      payload ←
        match payload with
        | Some register => value ← on_registers (read_value register); mret (Some value)
        | None => mret None
        end;
      match payload with
      | Some value => if max_output_units limits <? value_units_const value then stop (ResourceLimit RKOutputUnits) else stop (Trap code payload)
      | None => stop (Trap code None)
      end
  end.
End terminators.

(** ** Frames *)

Inductive ReturnShape : Type := Direct | ContractAssertion.

Record Current : Type := mkCurrent {
  cu_blocks : list BytecodeBlock;
  cu_result_type : TypeExpr;
  cu_register_types : list TypeExpr;
  cu_pc : nat;
  cu_func : nat
}.

(** A suspended caller: its runtime, its code, and what it does with the value returned *)
Record Suspended : Type := mkSuspended {
  su_runtime : Runtime;
  su_current : Current;
  su_result_register : Register;
  su_shape : ReturnShape
}.

Definition contract_assert_value (held : bool) : ConstValue :=
  mkConstValue contract_assert_result
    (DResult (if held then ROk (mkConstValue TUnit DUnit) else RErr (builtin_error (TBuiltinFailure BFContractViolation) BFContractViolation 1))).

Definition advance (current : Current) : Current :=
  mkCurrent (cu_blocks current) (cu_result_type current) (cu_register_types current) (S (cu_pc current)) (cu_func current).
Definition rewind (current : Current) : Current :=
  mkCurrent (cu_blocks current) (cu_result_type current) (cu_register_types current) 0 (cu_func current).
Definition enter_body (body : BytecodeFunction) (func : nat) : Current :=
  mkCurrent (bf_blocks body) (bf_result_type body) (bf_register_types body) 0 func.

(** Restores the entry frame, with the shared budgets. *)
Definition unwind (rt : Runtime) (stack : list Suspended) : Runtime :=
  foldl (fun rt parent => adopt_frame (su_runtime parent) rt) rt stack.

Section frames.
Variable lowered : LoweredFunction.
Variable contracts : list ContractDefinition.

(** The position of a callee in the table, from 1; the first one wins *)
Definition callee_index : gmap N nat :=
  foldl (fun index '(position, callee) =>
    match index !! bf_function callee with
    | Some _ => index
    | None => <[bf_function callee := S position]> index
    end) ∅ (imap pair (lf_callees lowered)).

Definition find_body (function : EntityId) : option (BytecodeFunction * nat) :=
  match (position ← callee_index !! function; callee ← lf_callees lowered !! (position - 1)%nat; Some (callee, position)) with
  | Some found => Some found
  | None => if bf_function (lf_bytecode lowered) =? function then Some (lf_bytecode lowered, O) else None
  end.

Definition open_frame (callee : BytecodeFunction) (frames : N) (rt : Runtime) : Runtime :=
  mkRuntime (replicate (length (bf_register_types callee)) None) (N.to_nat (bf_entry_block callee)) (instruction_count rt)
    (fuel_used rt) (live_value_units rt) (peak_value_units rt) (cells rt) (max_call_depth rt)
    (N.max (peak_call_depth rt) (saturating_add frames 1)) None.

(** The arguments are charged to the child and written to its parameters.  The
    caller's runtime is the state; [None] when a charge is refused, and then the
    child's budgets are adopted. *)
Fixpoint bind_operands (mask : N) (child : Runtime) (arguments : list (N * (Register * Register))) : Act Runtime :=
  match arguments with
  | [] => mret child
  | (k, (register, parameter)) :: arguments =>
      value ← on_registers (operand register (dead mask k));
      match charge_value (rv_units value) child with
      | None => modify (fun rt => adopt_frame rt child) ≫= fun _ => stop (ResourceLimit RKValueUnits)
      | Some child =>
          regs ← attempt (write_register (registers child) parameter value);
          bind_operands mask (set_registers regs child) arguments
      end
  end.

Definition prepare_frame (instruction : Instruction) (register_types : list TypeExpr) (frames : N) (function : EntityId)
    (shape : ReturnShape) (mask : N) : Act (Runtime * Current * Register * ReturnShape) :=
  ceiling ← gets max_call_depth;
  if ceiling <? saturating_add frames 1 then stop (ResourceLimit RKCallDepth)
  else
    charge_action false ≫= fun _ =>
    '(callee, func) ← attempt (ok_or Fault (find_body function));
    match in_results instruction with
    | [result_register] =>
        result_type ← attempt (ok_or Fault (register_types !! N.to_nat result_register));
        let declared_matches :=
          match shape with
          | Direct => bool_decide (bf_result_type callee = result_type)
          | ContractAssertion =>
              bool_decide (bf_result_type callee = TBool) && bool_decide (result_type = contract_assert_result)
          end in
        if negb declared_matches || negb (len (in_operands instruction) =? len (bf_parameter_registers callee)) then broken
        else
          child ← gets (open_frame callee frames);
          modify (set_cells []) ≫= fun _ =>
          child ← bind_operands mask child (enumerate (zip (in_operands instruction) (bf_parameter_registers callee)));
          mret (child, enter_body callee func, result_register, shape)
    | _ => broken
    end.

Definition prepare_call (instruction : Instruction) (register_types : list TypeExpr) (frames : N) (mask : N)
    : Act (Runtime * Current * Register * ReturnShape) :=
  match in_immediate instruction with
  | ImmFunction reference => prepare_frame instruction register_types frames (frv_function reference) Direct mask
  | _ => broken
  end.

Definition prepare_contract_assert (instruction : Instruction) (register_types : list TypeExpr) (frames : N) (mask : N)
    : Act (Runtime * Current * Register * ReturnShape) :=
  match in_immediate instruction with
  | ImmEntity contract =>
      definition ← attempt (ok_or Fault (find_first (fun candidate => cd_entity_id candidate =? contract) contracts));
      prepare_frame instruction register_types frames (cd_predicate definition) ContractAssertion mask
  | _ => broken
  end.

(** The caller charges and takes the value its callee returned. *)
Definition take_returned (returned : option RuntimeValue) (result_register : Register) (shape : ReturnShape) : Act unit :=
  returned ← attempt (ok_or Fault returned);
  value ←
    match shape with
    | Direct => mret returned
    | ContractAssertion =>
        answer ← attempt (rv_value returned);
        held ← attempt (bool_operand answer);
        mret (rv_new (contract_assert_value held))
    end;
  charge_units (rv_units value) ≫= fun _ =>
  modify count_instruction ≫= fun _ =>
  write result_register value.
End frames.

(** ** The loop *)

Record Machine : Type := mkMachine {
  ma_runtime : Runtime;
  ma_stack : list Suspended;
  ma_current : Current
}.

(** After a turn: the next machine, or the end, with the runtime it leaves *)
Inductive Turn : Type :=
| Next (machine : Machine)
| Ended (termination : ExecutionTermination) (rt : Runtime)
| Faulted (rt : Runtime).

Section loop.
Variable lowered : LoweredFunction.
Variable source : ExecutionSource.
(** Whether a value is the only owner of its root, at each point of the run *)
Variable sole : Machine -> RuntimeValue -> bool.

Definition livenesses : list FnLiveness :=
  compute (bf_blocks (lf_bytecode lowered)) :: ((fun callee => compute (bf_blocks callee)) <$> lf_callees lowered).

Definition live_of (func : nat) : FnLiveness := default FnLiveness_default (livenesses !! func).

(** One instruction: it enters a function, or runs in this frame. *)
Definition execute_instruction (m : Machine) (instruction : Instruction) (at_block : nat)
    : Act (option (Runtime * Current * Register * ReturnShape)) :=
  let current := ma_current m in
  charge_action true ≫= fun _ =>
  if is_extended (es_profile source) then
    let mask := mask (live_of (cu_func current)) at_block (cu_pc current) in
    let frames := saturating_add (len (ma_stack m)) 1 in
    if in_opcode instruction =? Opcode_tag OpCallDirect then
      entered ← prepare_call lowered instruction (cu_register_types current) frames mask; mret (Some entered)
    else if in_opcode instruction =? Opcode_tag OpContractAssert then
      entered ← prepare_contract_assert lowered (es_contracts source) instruction (cu_register_types current) frames mask; mret (Some entered)
    else
      execute_extended source (constant_index (es_constants source)) (sole m) instruction mask (cu_register_types current) ≫= fun _ =>
      mret None
  else execute_restricted instruction ≫= fun _ => mret None.

(** The end of a function: its value goes to the caller, or out of the run. *)
Definition finish_function (rt : Runtime) (m : Machine) : Turn :=
  match ma_stack m with
  | [] =>
      match returned rt with
      | Some value =>
          match into_value (sole m) value with
          | Ok value => Ended (Success value) (set_returned None rt)
          | Err _ => Faulted (set_returned None rt)
          end
      | None => Faulted rt
      end
  | parent :: stack =>
      match take_returned (returned rt) (su_result_register parent) (su_shape parent) (adopt_frame (su_runtime parent) rt) with
      | (Go _, rt) => Next (mkMachine rt stack (su_current parent))
      | (Stop termination, rt) => Ended termination (unwind rt stack)
      | (Broken, rt) => Faulted rt
      end
  end.

(** Popping the caller of a function that did not return and unwinding the rest is unwinding them all. *)
Definition step (m : Machine) : Turn :=
  let rt := ma_runtime m in
  let current := ma_current m in
  match cu_blocks current !! block rt with
  | None => Faulted rt
  | Some found =>
      match bb_instructions found !! cu_pc current with
      | Some instruction =>
          match execute_instruction m instruction (block rt) rt with
          | (Go (Some (child, callee, result_register, shape)), rt) =>
              Next (mkMachine child (mkSuspended rt (advance current) result_register shape :: ma_stack m) callee)
          | (Go None, rt) => Next (mkMachine rt (ma_stack m) (advance current))
          | (Stop termination, rt) => Ended termination (unwind rt (ma_stack m))
          | (Broken, rt) => Faulted rt
          end
      | None =>
          match dispatch_terminator (cu_blocks current) (live_of (cu_func current)) (bb_terminator found) (cu_result_type current) rt with
          | (Go false, rt) => Next (mkMachine rt (ma_stack m) (rewind current))
          | (Go true, rt) => finish_function rt m
          | (Stop termination, rt) => Ended termination (unwind rt (ma_stack m))
          | (Broken, rt) => Faulted rt
          end
      end
  end.

(** Every turn burns fuel, so [max_fuel] turns and one more are enough. *)
Fixpoint run (turns : nat) (m : Machine) : option (ExecutionTermination * Runtime) :=
  match turns with
  | O => None
  | S turns =>
      match step m with
      | Next m => run turns m
      | Ended termination rt => Some (termination, rt)
      | Faulted rt => Some (InternalInvariant, rt)
      end
  end.

Definition initial_value_units (types : list TypeExpr) (bytes : bytes) (input_units : N) : N :=
  saturating_add (saturating_add input_units (len types)) (len bytes).

(** The inputs in the registers of the parameters *)
Fixpoint bind_inputs (parameters : list Register) (inputs : list ConstValue) (regs : Registers) : fault_result Registers :=
  match inputs, parameters with
  | [], _ => Ok regs
  | _ :: _, [] => Err Fault
  | value :: inputs, register :: parameters =>
      regs ← write_register regs register (rv_new value);
      bind_inputs parameters inputs regs
  end.

Definition entry_runtime (max_call_depth input_units : N) (regs : Registers) : Runtime :=
  let units := initial_value_units (bf_register_types (lf_bytecode lowered)) (lf_bytes lowered) input_units in
  mkRuntime regs (N.to_nat (bf_entry_block (lf_bytecode lowered))) 0 0 units units [] max_call_depth 1 None.

Definition outcome_of (termination : ExecutionTermination) (rt : Runtime) : CoreOutcome :=
  mkCoreOutcome termination (instruction_count rt) (fuel_used rt) (peak_value_units rt) (peak_call_depth rt).

(** [None] only if the turns run out *)
Definition run_core (input_units : N) (inputs : list ConstValue) (max_call_depth : N) : option CoreOutcome :=
  if max_call_depth =? 0 then Some (mkCoreOutcome (ResourceLimit RKCallDepth) 0 0 0 0)
  else
    let rt := entry_runtime max_call_depth input_units [] in
    if max_value_units limits <? peak_value_units rt then Some (outcome_of (ResourceLimit RKValueUnits) rt)
    else
      let empty := replicate (length (bf_register_types (lf_bytecode lowered))) None in
      match bind_inputs (bf_parameter_registers (lf_bytecode lowered)) inputs empty with
      | Err _ => Some (outcome_of InternalInvariant rt)
      | Ok regs =>
          '(termination, rt) ← run (S (N.to_nat (max_fuel limits)))
            (mkMachine (entry_runtime max_call_depth input_units regs) [] (enter_body (lf_bytecode lowered) O));
          Some (outcome_of termination rt)
      end.
End loop.
End machine.
