(* ===== verification/VmRunBounds.v ===== *)
(** * The virtual machine: the budgets of a run (crates/sley-vm/src/execute.rs)

    Every turn of the interpreter burns fuel, so a run ends; and what a run
    reports stays within the limits it was given.  A relation on runtimes,
    graded by the instructions counted, says what an action may do to the
    budgets; the loop's invariant is on the machine. *)

From S2P Require Import Prelude State Bytes Ids Ssmc Types TypeWalk ConstCheck Fingerprint ConstEncoding.
From S2P Require Import VmInt VmText VmBridge VmJudge VmExec VmBytecode VmLower VmValue VmOwned VmLiveness VmRun VmLowered.
Set Warnings "-register-all".

Open Scope N_scope.

Section bounds.
Context (blake3 sha256 : bytes -> bytes).
Variable limits : ExecutionLimits.
Hypothesis fuel_is_u64 : max_fuel limits < 2 ^ 64.

(** ** Actions *)

(** What an action that counts at most [n] instructions does to the budgets *)
Record within (n : N) (before after : Runtime) : Prop := {
  wi_fuel : fuel_used before <= fuel_used after;
  wi_fuel_limit : fuel_used after <= N.max (fuel_used before) (max_fuel limits);
  wi_cancel : forall c, cancel_at_fuel limits = Some c -> fuel_used after <= N.max (fuel_used before) c;
  wi_peak : peak_value_units before <= peak_value_units after;
  wi_peak_limit : peak_value_units after <= N.max (peak_value_units before) (max_value_units limits);
  wi_count : instruction_count after <= instruction_count before + n;
  wi_ceiling : max_call_depth after = max_call_depth before;
  wi_depth : peak_call_depth before <= peak_call_depth after <= N.max (peak_call_depth before) (max_call_depth before)
}.

(** Why an action stops *)
Definition reason (termination : ExecutionTermination) (rt : Runtime) : Prop :=
  match termination with
  | Cancelled => exists c, cancel_at_fuel limits = Some c /\ c <= fuel_used rt
  | ResourceLimit RKFuel => max_fuel limits <= fuel_used rt
  | ResourceLimit RKInstruction => max_instructions limits <= instruction_count rt
  | _ => True
  end.

Definition keeps {A} (n : N) (m : Act A) : Prop :=
  forall rt, within n rt (m rt).2 /\ match (m rt).1 with Stop termination => reason termination (m rt).2 | _ => True end.

Lemma within_refl n rt : within n rt rt.
Proof. split; intros; lia. Qed.

Lemma within_trans n k a b c : within n a b -> within k b c -> within (n + k) a c.
Proof.
  intros [] []. split; intros; try lia.
  specialize (wi_cancel0 _ H). specialize (wi_cancel1 _ H). lia.
Qed.

Lemma within_le n k a b : within n a b -> n <= k -> within k a b.
Proof. intros [] ?. split; intros; auto; lia. Qed.

Lemma keeps_ret {A} n (a : A) : keeps n (mret a).
Proof. intros rt. split; [apply within_refl|done]. Qed.
Lemma keeps_stop {A} n termination : (forall rt, reason termination rt) -> keeps (A:=A) n (stop termination).
Proof. intros H rt. split; [apply within_refl|apply H]. Qed.
Lemma keeps_broken {A} n : keeps (A:=A) n broken.
Proof. intros rt. split; [apply within_refl|done]. Qed.
Lemma keeps_gets {A} n (f : Runtime -> A) : keeps n (gets f).
Proof. intros rt. split; [apply within_refl|done]. Qed.
Lemma keeps_attempt {A} n (m : fault_result A) : keeps n (attempt m).
Proof. intros rt. unfold attempt. destruct m; split; try done; apply within_refl. Qed.
Lemma keeps_on_registers {A} n (m : R A) : keeps n (on_registers m).
Proof. intros rt. unfold on_registers. destruct (m (registers rt)) as [[a regs]|]; (split; [split; cbn; intros; lia|done]). Qed.
Lemma keeps_write n register value : keeps n (write register value).
Proof. apply keeps_on_registers. Qed.
Lemma keeps_modify n f : (forall rt, within n rt (f rt)) -> keeps n (modify f).
Proof. intros H rt. split; [apply H|done]. Qed.

Lemma keeps_bind {A B} n k (m : Act A) (f : A -> Act B) : keeps n m -> (forall a, keeps k (f a)) -> keeps (n + k) (m ≫= f).
Proof.
  intros Hm Hf rt. unfold mbind, Act_bind. specialize (Hm rt) as [Hw Hr].
  destruct (m rt) as [[a|t|] rt1]; cbn in *.
  - destruct (Hf a rt1) as [Hw' Hr']. split; [by eapply within_trans|done].
  - split; [eapply within_le; [done|lia]|done].
  - split; [eapply within_le; [done|lia]|done].
Qed.

(** Actions that count nothing, and the one that does *)
Lemma quiet_bind {A B} n (m : Act A) (f : A -> Act B) : keeps 0 m -> (forall a, keeps n (f a)) -> keeps n (m ≫= f).
Proof. intros. apply (keeps_bind 0 n); auto. Qed.

Lemma keeps_count : keeps 1 (modify count_instruction).
Proof. apply keeps_modify. intros rt. split; cbn; intros; unfold saturating_add; lia. Qed.


Lemma keeps_charge_action instruction : keeps 0 (charge_action limits instruction).
Proof using fuel_is_u64.
  intros rt. unfold charge_action. destruct (cancel_at_fuel limits) as [c|] eqn:Hc.
  - destruct (N.leb_spec c (fuel_used rt)); [split; [apply within_refl|cbn; eauto]|].
    destruct (instruction && _) eqn:Hi; [split; [apply within_refl|cbn; destruct instruction; [by apply N.leb_le in Hi|done]]|].
    destruct (N.leb_spec (max_fuel limits) (fuel_used rt)); [split; [apply within_refl|done]|].
    split; [|done]. split; cbn; unfold saturating_add, U64_LIMIT; intros; simplify_eq; lia.
  - destruct (instruction && _) eqn:Hi; [split; [apply within_refl|cbn; destruct instruction; [by apply N.leb_le in Hi|done]]|].
    destruct (N.leb_spec (max_fuel limits) (fuel_used rt)); [split; [apply within_refl|done]|].
    split; [|done]. split; cbn; unfold saturating_add, U64_LIMIT; intros; simplify_eq; lia.
Qed.

(** An action that goes on after a charge has burned fuel, and had its instruction allowed. *)
Lemma charge_action_go instruction rt rt' :
  charge_action limits instruction rt = (Go tt, rt') ->
  fuel_used rt' = fuel_used rt + 1 /\ instruction_count rt' = instruction_count rt /\
  (instruction = true -> instruction_count rt < max_instructions limits).
Proof using fuel_is_u64.
  unfold charge_action. destruct (match cancel_at_fuel limits with Some _ => _ | None => _ end); [done|].
  destruct (instruction && _) eqn:Hi; [done|]. destruct (N.leb_spec (max_fuel limits) (fuel_used rt)); [done|].
  intros [= <-]. cbn. unfold saturating_add, U64_LIMIT. repeat split; [lia|].
  intros ->. apply andb_false_iff in Hi as [|Hi]; [done|by apply N.leb_gt in Hi].
Qed.

Lemma charge_value_within amount rt rt' : charge_value limits amount rt = Some rt' -> within 0 rt rt'.
Proof.
  unfold charge_value. intros (next & Hn & H)%bind_Some.
  destruct (N.ltb_spec (max_value_units limits) next); [done|]. injection H as <-.
  split; cbn; intros; lia.
Qed.

Lemma keeps_charge_units amount : keeps 0 (charge_units limits amount).
Proof.
  intros rt. unfold charge_units. destruct (charge_value limits amount rt) as [rt'|] eqn:H; cbn.
  - split; [by eapply charge_value_within|done].
  - split; [apply within_refl|done].
Qed.

Lemma keeps_charge_bridge_actions fuel : keeps 0 (charge_bridge_actions limits fuel).
Proof using fuel_is_u64.
  induction fuel as [|fuel IH]; cbn [charge_bridge_actions]; [apply keeps_ret|].
  apply quiet_bind; [apply keeps_charge_action|done].
Qed.


(** Goes through an action: each bind is quiet unless it is the count *)
Ltac budget :=
  repeat first
    [ simple apply keeps_ret | simple apply keeps_broken | simple apply keeps_gets | simple apply keeps_attempt | simple apply keeps_on_registers | simple apply keeps_write
    | simple apply keeps_charge_action | simple apply keeps_charge_units | simple apply keeps_charge_bridge_actions
    | apply (keeps_stop _ (ResourceLimit RKValueUnits)); done | apply (keeps_stop _ (ResourceLimit RKOutputUnits)); done
    | apply (keeps_stop _ InternalInvariant); done | apply (keeps_stop _ (ResourceLimit RKCallDepth)); done
    | apply (keeps_stop _ (Trap _ _)); done
    | simple apply (keeps_modify 0); intros ?; split; cbn; intros; lia
    | match goal with |- keeps _ (modify count_instruction ≫= _) => idtac end; apply (keeps_bind 1 0); [apply keeps_count|intros ?]
    | match goal with |- keeps _ (_ ≫= _) => idtac end; apply quiet_bind; [|intros ?]
    | progress cbv zeta
    | match goal with |- keeps _ (if ?b then _ else _) => destruct b end
    | match goal with |- keeps _ (match ?x with _ => _ end) => destruct x end ].

Lemma keeps_execute_restricted instruction : keeps 1 (execute_restricted limits instruction).
Proof using fuel_is_u64. unfold execute_restricted. budget. Qed.

Lemma keeps_store_result register value stored : keeps 1 (store_result limits register value stored).
Proof using fuel_is_u64. unfold store_result. budget. Qed.

Lemma keeps_execute_push source sole instruction mask result_type :
  keeps 0 (execute_push limits source sole instruction mask result_type).
Proof using fuel_is_u64. unfold execute_push. budget. Qed.

Lemma keeps_execute_borrowed source opcode instruction result_type :
  keeps 0 (execute_borrowed blake3 sha256 limits source opcode instruction result_type).
Proof using fuel_is_u64. unfold execute_borrowed. budget. Qed.

Lemma keeps_execute_extended source constants sole instruction mask register_types :
  keeps 1 (execute_extended blake3 sha256 limits source constants sole instruction mask register_types).
Proof using fuel_is_u64.
  unfold execute_extended. budget; try apply keeps_store_result; try apply keeps_execute_push; try apply keeps_execute_borrowed.
Qed.

(** ** Terminators *)

Lemma keeps_bind_values blocks target values : keeps 0 (bind_values blocks target values).
Proof. unfold bind_values. budget. Qed.

Lemma keeps_edge_values live source_block arguments : keeps 0 (edge_values limits live source_block arguments).
Proof using fuel_is_u64. induction arguments as [|r later IH]; cbn [edge_values]; budget; [apply keeps_on_registers|done]. Qed.

Lemma keeps_switch_values live source_block arguments :
  forall payload, keeps 0 (switch_values limits live source_block payload arguments).
Proof using fuel_is_u64. induction arguments as [|r later IH]; intros payload; cbn [switch_values]; budget; try apply keeps_on_registers; apply IH. Qed.

Lemma keeps_bind_edge blocks live edge source_block : keeps 0 (bind_edge limits blocks live edge source_block).
Proof using fuel_is_u64. unfold bind_edge. budget; [apply keeps_edge_values|apply keeps_bind_values]. Qed.

Lemma keeps_bind_switch_edge blocks live edge payload source_block :
  keeps 0 (bind_switch_edge limits blocks live edge payload source_block).
Proof using fuel_is_u64. unfold bind_switch_edge. budget; [apply keeps_switch_values|apply keeps_bind_values]. Qed.

Lemma keeps_take_case blocks live key payload source_block cases :
  keeps 0 (take_case limits blocks live key payload source_block cases).
Proof using fuel_is_u64.
  induction cases as [|case cases IH]; cbn [take_case]; budget; [apply keeps_bind_switch_edge|done].
Qed.


(** An action that starts with a charge and counts at most [n] instructions *)
Definition charged {A} (n : N) (instruction : bool) (m : Act A) : Prop :=
  exists k, m = (charge_action limits instruction ≫= k) /\ forall u, keeps n (k u).

Lemma charged_keeps {A} n instruction (m : Act A) : charged n instruction m -> keeps n m.
Proof using fuel_is_u64. intros (k & -> & Hk). apply quiet_bind; [apply keeps_charge_action|done]. Qed.

Lemma charged_go {A} n instruction (m : Act A) rt a rt' :
  charged n instruction m -> m rt = (Go a, rt') ->
  fuel_used rt < fuel_used rt' /\ (instruction = true -> instruction_count rt < max_instructions limits).
Proof using fuel_is_u64.
  intros (k & Hm & Hk) H. rewrite Hm in H. unfold mbind, Act_bind in H.
  destruct (charge_action limits instruction rt) as [[[]|?|] rt1] eqn:Hc; try done.
  apply charge_action_go in Hc as (Hf & _ & Hi). split; [|done].
  destruct (Hk tt rt1) as [[] _]. rewrite H in *. cbn in *. lia.
Qed.

Lemma charged_dispatch_terminator blocks live terminator result_type :
  charged 0 false (dispatch_terminator limits blocks live terminator result_type).
Proof using fuel_is_u64.
  eexists. split; [reflexivity|]. intros []. cbn beta. budget; try apply keeps_bind_edge; try apply keeps_take_case.
Qed.

(** ** Frames *)

Lemma within_same n rt rt' :
  instruction_count rt' = instruction_count rt -> fuel_used rt' = fuel_used rt -> peak_value_units rt' = peak_value_units rt ->
  max_call_depth rt' = max_call_depth rt -> peak_call_depth rt' = peak_call_depth rt -> within n rt rt'.
Proof. intros. split; intros; lia. Qed.

Lemma within_adopt n rt child : within n rt child -> within n rt (adopt_frame rt child).
Proof. intros []. split; cbn; auto. Qed.

Lemma bind_operands_within mask arguments rt0 :
  forall child rt, within 0 rt0 child -> within 0 rt0 rt -> max_call_depth rt = max_call_depth rt0 ->
  match bind_operands limits mask child arguments rt with
  | (Go child, rt) => within 0 rt0 child /\ within 0 rt0 rt
  | (Stop termination, rt) => within 0 rt0 rt /\ reason termination rt
  | (Broken, rt) => within 0 rt0 rt
  end.
Proof.
  induction arguments as [|[k [register parameter]] arguments IH]; intros child rt Hc Hr Hm; cbn [bind_operands]; [done|].
  unfold on_registers, mbind at 1, Act_bind at 1.
  destruct (operand register (dead mask k) (registers rt)) as [[value regs]|]; [|done].
  destruct (charge_value limits (rv_units value) child) as [child'|] eqn:Hv.
  - pose proof (within_trans _ _ _ _ _ Hc (charge_value_within _ _ _ Hv)) as Hc'. rewrite N.add_0_r in Hc'.
    unfold mbind, Act_bind, attempt. destruct (write_register _ _ _) as [regs'|].
    + apply IH; [destruct Hc'; split; cbn; auto|destruct Hr; split; cbn; auto|done].
    + destruct Hr; split; cbn; auto.
  - cbn. split; [|done]. destruct Hc. split; cbn; auto; rewrite Hm; done.
Qed.

Lemma bind_operands_fuel mask arguments :
  forall child rt, match bind_operands limits mask child arguments rt with
  | (Go child', _) => fuel_used child' = fuel_used child
  | _ => True
  end.
Proof.
  induction arguments as [|[k [register parameter]] arguments IH]; intros child rt; cbn [bind_operands]; [done|].
  unfold on_registers, mbind at 1, Act_bind at 1.
  destruct (operand register (dead mask k) (registers rt)) as [[value regs]|]; [|done].
  destruct (charge_value limits (rv_units value) child) as [child'|] eqn:Hv; [|done].
  unfold mbind, Act_bind, attempt. destruct (write_register _ _ _) as [regs'|]; [|done].
  specialize (IH (set_registers regs' child') (set_registers regs rt)).
  destruct (bind_operands _ _ _ _) as [[|?|] ?]; try done. rewrite IH.
  unfold charge_value in Hv. apply bind_Some in Hv as (next & _ & Hv). destruct (_ <? _); by simplify_eq.
Qed.

(** A frame opened: the callee's runtime has the budgets, one charge later. *)
Definition opened (frames : N) (rt : Runtime) (result : Halt (Runtime * Current * Register * ReturnShape) * Runtime) : Prop :=
  match result with
  | (Go (child, _, _, _), rt') =>
      within 0 rt child /\ within 0 rt rt' /\ fuel_used rt < fuel_used child /\ saturating_add frames 1 <= max_call_depth rt
  | (Stop termination, rt') => within 0 rt rt' /\ reason termination rt'
  | (Broken, rt') => within 0 rt rt'
  end.

Lemma opened_bind {A} frames rt0 (m : Act A) k rt :
  within 0 rt0 rt -> keeps 0 m -> (forall a rt1, m rt = (Go a, rt1) -> within 0 rt0 rt1 -> opened frames rt0 (k a rt1)) ->
  opened frames rt0 ((m ≫= k) rt).
Proof.
  intros Hrt Hm Hk. unfold mbind, Act_bind. destruct (Hm rt) as [Hw Hr]. pose proof (within_trans _ _ _ _ _ Hrt Hw) as Hw'.
  destruct (m rt) as [[a|termination|] rt1]; cbn in *; auto.
Qed.

Lemma attempt_go {A} (m : fault_result A) rt a rt' : attempt m rt = (Go a, rt') -> rt' = rt.
Proof. unfold attempt. destruct m; congruence. Qed.

Lemma opened_broken frames rt0 rt : within 0 rt0 rt -> opened frames rt0 (broken rt).
Proof. done. Qed.

Lemma opens_frame lowered instruction register_types frames function shape mask rt :
  opened frames rt (prepare_frame limits lowered instruction register_types frames function shape mask rt).
Proof using fuel_is_u64.
  unfold prepare_frame. apply opened_bind; [apply within_refl|apply keeps_gets|].
  intros ceiling ? [= <- <-] _. destruct (N.ltb_spec (max_call_depth rt) (saturating_add frames 1)); [by split; [apply within_refl|]|].
  apply opened_bind; [apply within_refl|apply keeps_charge_action|]. intros [] rt1 Hc Hw1.
  apply charge_action_go in Hc as (Hf & _ & _).
  apply opened_bind; [done|apply keeps_attempt|]. intros [callee func] ? H1 _.
  apply attempt_go in H1 as ->.
  destruct (in_results instruction) as [|result_register [|]]; [done| |done].
  apply opened_bind; [done|apply keeps_attempt|]. intros result_type ? H2 _.
  apply attempt_go in H2 as ->.
  destruct (_ || _); [done|]. cbv zeta.
  apply opened_bind; [done|apply keeps_gets|]. intros child ? [= <- <-] _.
  apply opened_bind; [done|apply (keeps_modify 0); intros ?; split; cbn; intros; lia|]. intros [] ? [= <-] Hw2.
  assert (within 0 rt1 (open_frame callee frames rt1)) as Hw3.
  { split; cbn; intros; try lia. destruct Hw1. cbn in *. rewrite <- wi_ceiling0 in *. lia. }
  unfold mbind, Act_bind.
  pose proof (bind_operands_within mask (enumerate (zip (in_operands instruction) (bf_parameter_registers callee))) rt
    (open_frame callee frames rt1) (set_cells [] rt1)) as Hb.
  pose proof (bind_operands_fuel mask (enumerate (zip (in_operands instruction) (bf_parameter_registers callee)))
    (open_frame callee frames rt1) (set_cells [] rt1)) as Hg.
  destruct (bind_operands _ _ _ _ _) as [[child|termination|] rt2].
  all: pose proof (within_trans _ _ _ _ _ Hw1 Hw3); cbn in *; pose proof (wi_ceiling _ _ _ Hw1).
  - destruct (Hb ltac:(auto) ltac:(auto) ltac:(auto)). split; [done|split; [done|split; [lia|done]]].
  - apply Hb; auto.
  - apply Hb; auto.
Qed.

Lemma opens_call lowered instruction register_types frames mask rt :
  opened frames rt (prepare_call limits lowered instruction register_types frames mask rt).
Proof using fuel_is_u64. unfold prepare_call. destruct (in_immediate instruction); try (apply within_refl). apply opens_frame. Qed.

Lemma opens_contract_assert lowered contracts instruction register_types frames mask rt :
  opened frames rt (prepare_contract_assert limits lowered contracts instruction register_types frames mask rt).
Proof using fuel_is_u64.
  unfold prepare_contract_assert. destruct (in_immediate instruction); try (apply within_refl).
  apply opened_bind; [apply within_refl|apply keeps_attempt|]. intros definition ? ->%attempt_go _. apply opens_frame.
Qed.

Lemma opened_keeps frames (m : Act _) : (forall rt, opened frames rt (m rt)) -> keeps 0 m.
Proof.
  intros H rt. specialize (H rt). unfold opened in H. destruct (m rt) as [[[[[child ?] ?] ?]|?|] rt1]; cbn; intuition.
Qed.

(** ** Machines *)

(** After an instruction that was allowed *)
Definition progress (rt rt' : Runtime) : Prop :=
  within 1 rt rt' /\ fuel_used rt < fuel_used rt' /\ instruction_count rt < max_instructions limits.

Lemma charged_progress {A} (m : Act A) rt :
  charged 1 true m ->
  match m rt with
  | (Go _, rt') => progress rt rt'
  | (Stop termination, rt') => (rt' = rt \/ progress rt rt') /\ reason termination rt'
  | (Broken, rt') => progress rt rt'
  end.
Proof using fuel_is_u64.
  intros (k & -> & Hk). unfold mbind, Act_bind.
  pose proof (keeps_charge_action true rt) as [Hw Hr].
  destruct (charge_action limits true rt) as [[[]|termination|] rt1] eqn:Hc.
  - apply charge_action_go in Hc as (Hf & Hi & Ha). specialize (Hk tt rt1) as [Hw' Hr'].
    pose proof (within_trans _ _ _ _ _ Hw Hw') as Hw''. assert (progress rt (k tt rt1).2).
    { split; [done|]. split; [|auto]. destruct Hw'. lia. }
    destruct (k tt rt1) as [[a|termination|] rt2]; auto.
  - split; [left|done]. unfold charge_action in Hc. repeat case_match; by simplify_eq.
  - unfold charge_action in Hc. repeat case_match; by simplify_eq.
Qed.

Section machines.
Variable lowered : LoweredFunction.
Variable source : ExecutionSource.
Variable sole : Machine -> RuntimeValue -> bool.
Variable ceiling : N.
Hypothesis ceiling_is_usize : ceiling < 2 ^ 64 - 1.

(** A runtime below which [held] calls wait to be counted *)
Record budgeted (held : N) (rt : Runtime) : Prop := {
  bu_fuel : fuel_used rt <= max_fuel limits;
  bu_cancel : forall c, cancel_at_fuel limits = Some c -> fuel_used rt <= c;
  bu_peak : peak_value_units rt <= max_value_units limits;
  bu_ceiling : max_call_depth rt = ceiling;
  bu_depth : peak_call_depth rt <= ceiling;
  bu_instructions : instruction_count rt + held + 1 <= max_instructions limits + ceiling;
  bu_count : instruction_count rt + held <= fuel_used rt
}.

Record bounded (m : Machine) : Prop := {
  bo_runtime : budgeted (len (ma_stack m)) (ma_runtime m);
  bo_ceiling : Forall (fun parent => max_call_depth (su_runtime parent) = ceiling) (ma_stack m);
  bo_stack : len (ma_stack m) + 1 <= ceiling
}.

Lemma budgeted_within held rt rt' : budgeted held rt -> within 0 rt rt' -> budgeted held rt'.
Proof. intros [] []. split; intros; try lia. specialize (bu_cancel0 _ H). specialize (wi_cancel0 _ H). lia. Qed.

Lemma budgeted_le held held' rt : budgeted held rt -> held' <= held -> budgeted held' rt.
Proof. intros [] ?. split; auto; lia. Qed.

(** An instruction that was allowed, counted after a charge *)
Lemma budgeted_counted held rt rt' :
  budgeted held rt -> within 1 rt rt' -> instruction_count rt < max_instructions limits -> fuel_used rt < fuel_used rt' ->
  held + 1 <= ceiling -> budgeted held rt'.
Proof.
  intros [] [] ???. split; intros; try lia. specialize (bu_cancel0 _ H2). specialize (wi_cancel0 _ H2). lia.
Qed.

(** The turn that ends: what it leaves *)
Definition ends (termination : ExecutionTermination) (rt : Runtime) : Prop := budgeted 0 rt /\ reason termination rt.

Lemma unwind_ends termination stack :
  forall rt, budgeted 0 rt -> reason termination rt -> Forall (fun parent => max_call_depth (su_runtime parent) = ceiling) stack ->
  ends termination (unwind rt stack).
Proof.
  induction stack as [|parent stack IH]; intros rt Hb Hr Hs; [by split|].
  apply Forall_cons in Hs as [Hp Hs]. apply (IH (adopt_frame (su_runtime parent) rt)); [|by destruct termination as [|[]| | |]|done].
  destruct Hb. split; cbn; auto.
Qed.

Lemma charged_execute_instruction m instruction at_block :
  charged 1 true (execute_instruction blake3 sha256 limits lowered source sole m instruction at_block).
Proof using fuel_is_u64.
  eexists. split; [reflexivity|]. intros []. cbn beta. destruct (is_extended (es_profile source)).
  - cbv zeta. destruct (_ =? _); [|destruct (_ =? _)].
    + eapply (keeps_bind 0 1); [eapply opened_keeps; intros; apply opens_call|intros; apply keeps_ret].
    + eapply (keeps_bind 0 1); [eapply opened_keeps; intros; apply opens_contract_assert|intros; apply keeps_ret].
    + eapply (keeps_bind 1 0); [apply keeps_execute_extended|intros; apply keeps_ret].
  - eapply (keeps_bind 1 0); [apply keeps_execute_restricted|intros; apply keeps_ret].
Qed.

(** An instruction that enters a function *)
Lemma execute_instruction_opens m instruction at_block rt child callee register shape rt' :
  execute_instruction blake3 sha256 limits lowered source sole m instruction at_block rt = (Go (Some (child, callee, register, shape)), rt') ->
  within 0 rt child /\ within 0 rt rt' /\ fuel_used rt + 2 <= fuel_used child /\
  saturating_add (saturating_add (len (ma_stack m)) 1) 1 <= max_call_depth rt.
Proof using fuel_is_u64.
  clear ceiling_is_usize ceiling.
  unfold execute_instruction. unfold mbind at 1, Act_bind at 1. pose proof (keeps_charge_action true rt) as [Hw _].
  destruct (charge_action limits true rt) as [[[]|?|] rt1] eqn:Hc; [|done|done]. apply charge_action_go in Hc as (Hf & _ & _).
  assert (Hopen : forall act : Act (Runtime * Current * Register * ReturnShape), (forall rt, opened (saturating_add (len (ma_stack m)) 1) rt (act rt)) ->
    (act ≫= fun entered => mret (M:=Act) (Some entered)) rt1 = (Go (Some (child, callee, register, shape)), rt') ->
    within 0 rt child /\ within 0 rt rt' /\ fuel_used rt + 2 <= fuel_used child /\
    saturating_add (saturating_add (len (ma_stack m)) 1) 1 <= max_call_depth rt).
  { intros act Ha H. specialize (Ha rt1). unfold mbind, Act_bind in H. destruct (act rt1) as [[[[[] ?] ?]|?|] rt2]; try done.
    unfold mret, Act_ret in H. simplify_eq. destruct Ha as (H1 & H2 & H3 & H4). cbn in *.
    pose proof (within_trans _ _ _ _ _ Hw H1). pose proof (within_trans _ _ _ _ _ Hw H2).
    pose proof (wi_ceiling _ _ _ Hw). split; [done|split; [done|split; lia]]. }
  destruct (is_extended (es_profile source)).
  - cbv zeta. destruct (_ =? _); [|destruct (_ =? _)].
    + apply Hopen. intros. apply opens_call.
    + apply Hopen. intros. apply opens_contract_assert.
    + unfold mbind, Act_bind. destruct (execute_extended _ _ _ _ _ _ _ _ _ _) as [[|?|] ?]; discriminate.
  - unfold mbind, Act_bind. destruct (execute_restricted _ _ _) as [[|?|] ?]; discriminate.
Qed.

(** A function that returns: its call is counted, and one frame fewer waits. *)
Lemma keeps_take_returned returned register shape : keeps 1 (take_returned limits returned register shape).
Proof. unfold take_returned. budget. Qed.

Lemma budgeted_returned held rt rt' : budgeted (held + 1) rt -> within 1 rt rt' -> budgeted held rt'.
Proof. intros [] []. split; intros; try lia. specialize (bu_cancel0 _ H). specialize (wi_cancel0 _ H). lia. Qed.

Lemma finish_function_bounded fuel rt m :
  budgeted (len (ma_stack m)) rt -> Forall (fun parent => max_call_depth (su_runtime parent) = ceiling) (ma_stack m) ->
  len (ma_stack m) + 1 <= ceiling -> fuel < fuel_used rt ->
  match finish_function limits sole rt m with
  | Next m' => bounded m' /\ fuel < fuel_used (ma_runtime m')
  | Ended termination rt => ends termination rt
  | Faulted rt => ends InternalInvariant rt
  end.
Proof.
  intros Hb Hs Hl Hf. unfold finish_function. destruct (ma_stack m) as [|parent stack].
  - assert (budgeted 0 (set_returned None rt)) by (destruct Hb; split; cbn; auto).
    destruct (returned rt); [|by split]. destruct (into_value _ _); by split.
  - apply Forall_cons in Hs as [Hp Hs].
    assert (len (parent :: stack) = len stack + 1) as Hlen by (unfold len; cbn; lia). rewrite Hlen in *.
    assert (budgeted (len stack + 1) (adopt_frame (su_runtime parent) rt)) as Hb' by (destruct Hb; split; cbn; auto).
    destruct (keeps_take_returned (returned rt) (su_result_register parent) (su_shape parent) (adopt_frame (su_runtime parent) rt)) as [Hw Hr].
    pose proof (wi_fuel _ _ _ Hw) as Hg. cbn in Hg.
    destruct (take_returned _ _ _ _ _) as [[u|termination|] rt'] eqn:Hrun; cbn in Hw, Hr, Hg.
    + split; cbn; [|lia]. split; cbn; [by eapply budgeted_returned|done|lia].
    + apply unwind_ends; [|done|done]. eapply budgeted_le; [by eapply budgeted_returned|lia].
    + split; [|done]. eapply budgeted_le; [by eapply budgeted_returned|lia].
Qed.

Lemma step_bounded m :
  bounded m ->
  match step blake3 sha256 limits lowered source sole m with
  | Next m' => bounded m' /\ fuel_used (ma_runtime m) < fuel_used (ma_runtime m')
  | Ended termination rt => ends termination rt
  | Faulted rt => ends InternalInvariant rt
  end.
Proof using fuel_is_u64 ceiling_is_usize.
  intros [Hb Hs Hl]. unfold step. destruct (cu_blocks _ !! _) as [found|]; [|split; [by eapply budgeted_le; [|lia]|done]].
  destruct (bb_instructions found !! cu_pc (ma_current m)) as [instruction|].
  - pose proof (charged_progress _ (ma_runtime m) (charged_execute_instruction m instruction (block (ma_runtime m)))) as Hp.
    destruct (execute_instruction _ _ _ _ _ _ _ _ _ _) as [[[[[[child callee] register] shape]|]|termination|] rt'] eqn:He.
    + apply execute_instruction_opens in He as (H1 & H2 & H3 & H4). destruct Hp as (_ & _ & Ha). cbn.
      split; [|lia]. destruct Hb. split; cbn.
      * assert (len (mkSuspended rt' (advance (ma_current m)) register shape :: ma_stack m) = len (ma_stack m) + 1) as -> by (unfold len; cbn; lia).
        rewrite bu_ceiling0 in H4. unfold saturating_add, U64_LIMIT in H4.
        destruct H1. split; intros; try lia. specialize (bu_cancel0 _ H). specialize (wi_cancel0 _ H). lia.
      * apply Forall_cons. split; [|done]. cbn. destruct H2. lia.
      * rewrite bu_ceiling0 in H4. unfold saturating_add, U64_LIMIT in H4. unfold len in *. cbn. lia.
    + destruct Hp as (Hw & Hf & Ha). cbn. split; [|lia]. split; cbn; [|done|done]. by eapply budgeted_counted.
    + destruct Hp as [Hp Hr]. apply unwind_ends; [|done|done].
      destruct Hp as [->|(Hw & Hf & Ha)]; [by eapply budgeted_le; [|lia]|].
      eapply budgeted_le; [by eapply budgeted_counted|lia].
    + destruct Hp as (Hw & Hf & Ha). split; [|done]. eapply budgeted_le; [by eapply budgeted_counted|lia].
  - pose proof (charged_dispatch_terminator (cu_blocks (ma_current m)) (live_of lowered (cu_func (ma_current m))) (bb_terminator found)
      (cu_result_type (ma_current m))) as Hd.
    pose proof (charged_keeps _ _ _ Hd (ma_runtime m)) as [Hw Hr].
    destruct (dispatch_terminator _ _ _ _ _ _) as [[returned|termination|] rt'] eqn:Hrun; cbn in Hw, Hr.
    + apply (charged_go _ _ _ _ _ _ Hd) in Hrun as [Hf _]. pose proof (budgeted_within _ _ _ Hb Hw) as Hb'.
      destruct returned; [by apply finish_function_bounded|]. cbn. split; [|lia]. by split.
    + apply unwind_ends; [|done|done]. eapply budgeted_le; [by eapply budgeted_within|lia].
    + split; [|done]. eapply budgeted_le; [by eapply budgeted_within|lia].
Qed.

(** Fuel that has burned never comes back, so the turns are enough. *)
Lemma run_ends turns :
  forall m, bounded m -> (N.to_nat (max_fuel limits - fuel_used (ma_runtime m)) < turns)%nat ->
  exists termination rt, run blake3 sha256 limits lowered source sole turns m = Some (termination, rt) /\ ends termination rt.
Proof using fuel_is_u64 ceiling_is_usize.
  induction turns as [|turns IH]; intros m Hm Hf; [lia|]. cbn [run]. pose proof (step_bounded m Hm) as Hs.
  destruct (step _ _ _ _ _ _ _) as [m'|termination rt|rt]; [|by eauto..].
  destruct Hs as [Hm' Hlt]. apply IH; [done|]. pose proof (bu_fuel _ _ (bo_runtime _ Hm')). lia.
Qed.
End machines.

End bounds.

Lemma run_core_within blake3 sha256 limits lowered source sole input_units inputs ceiling
    (Hfuel : max_fuel limits < 2 ^ 64) (Hceiling : ceiling < 2 ^ 64 - 1) :
  exists outcome,
    run_core blake3 sha256 limits lowered source sole input_units inputs ceiling = Some outcome /\
    co_fuel_used outcome <= max_fuel limits /\
    (forall c, cancel_at_fuel limits = Some c -> co_fuel_used outcome <= c) /\
    co_instruction_count outcome <= co_fuel_used outcome /\
    co_instruction_count outcome <= max_instructions limits + (ceiling - 1) /\
    co_peak_call_depth outcome <= ceiling /\
    (co_peak_value_units outcome <= max_value_units limits \/
     co_termination outcome = ResourceLimit RKValueUnits /\ co_fuel_used outcome = 0) /\
    match co_termination outcome with
    | Cancelled => cancel_at_fuel limits = Some (co_fuel_used outcome)
    | ResourceLimit RKFuel => co_fuel_used outcome = max_fuel limits
    | ResourceLimit RKInstruction => max_instructions limits <= co_instruction_count outcome
    | _ => True
    end.
Proof.
  unfold run_core. destruct (N.eqb_spec ceiling 0) as [->|Hc]; [eexists; split; [done|]; cbn; repeat split; intros; auto; lia|].
  destruct (N.ltb_spec (max_value_units limits) (peak_value_units (entry_runtime lowered ceiling input_units []))) as [|Hv];
    [eexists; split; [done|]; cbn; repeat split; intros; auto; lia|].
  cbn in Hv. destruct (bind_inputs _ _ _) as [regs|]; [|eexists; split; [done|]; cbn; repeat split; intros; auto; lia].
  destruct (run_ends blake3 sha256 limits Hfuel lowered source sole ceiling Hceiling (S (N.to_nat (max_fuel limits)))
    (mkMachine (entry_runtime lowered ceiling input_units regs) [] (enter_body (lf_bytecode lowered) 0%nat)))
    as (termination & rt & -> & [] & Hr).
  - split; cbn; [split; cbn; intros|done|]; unfold len; cbn; lia.
  - cbn. lia.
  - eexists. split; [done|]. cbn. repeat split; auto; try lia.
    destruct termination as [|[]| | |]; auto; cbn in Hr; [lia|]. destruct Hr as (c & Hcc & ?). specialize (bu_cancel0 _ Hcc). rewrite Hcc. f_equal. lia.
Qed.

(** C13: A run ends, whatever it runs: each turn burns fuel, so [max_fuel] turns and one
    more never run out.  What it reports is within the limits of the request: the fuel
    within its limit and before the point of cancellation, the frames within the
    ceiling, the units within their limit unless the run never started; a count of
    instructions is within its limit and one for each call that waited, since a call is
    counted when it returns; and a run that stops for cancellation, for instructions or
    for fuel has reached that limit.  A run that is refused before it starts, because
    its inputs alone pass the limit on units, reports those units and no fuel.  When the
    limits on units, output and call depth stop a run is not stated here. *)
Theorem run_ends_within_limits blake3 sha256 limits lowered source sole input_units inputs ceiling
    (Hfuel : max_fuel limits < 2 ^ 64) (Hceiling : ceiling < 2 ^ 64 - 1) :
  exists outcome,
    run_core blake3 sha256 limits lowered source sole input_units inputs ceiling = Some outcome /\
    co_fuel_used outcome <= max_fuel limits /\
    (forall c, cancel_at_fuel limits = Some c -> co_fuel_used outcome <= c) /\
    co_instruction_count outcome <= co_fuel_used outcome /\
    co_instruction_count outcome <= max_instructions limits + (ceiling - 1) /\
    co_peak_call_depth outcome <= ceiling /\
    (co_peak_value_units outcome <= max_value_units limits \/
     co_termination outcome = ResourceLimit RKValueUnits /\ co_fuel_used outcome = 0) /\
    match co_termination outcome with
    | Cancelled => cancel_at_fuel limits = Some (co_fuel_used outcome)
    | ResourceLimit RKFuel => co_fuel_used outcome = max_fuel limits
    | ResourceLimit RKInstruction => max_instructions limits <= co_instruction_count outcome
    | _ => True
    end.
Proof. by apply run_core_within. Qed.


(** ** Samples *)

Module CallSample.
(** The entry calls a function of one instruction. *)
Definition limits (max_instructions max_fuel : N) : ExecutionLimits := mkExecutionLimits max_instructions max_fuel 1000 1000 None.
Definition input : ConstValue := mkConstValue TBool (DBool true).
Definition outcome (max_instructions max_fuel : N) : option CoreOutcome :=
  run_core Sample.sample_hash Sample.sample_hash (limits max_instructions max_fuel) Sample.lowered (source_of Sample.plain)
    (fun _ _ => true) 0 [input] MAX_CALL_DEPTH.
End CallSample.

Example call_sample_fuel :
  (fun outcome => (co_termination outcome, co_instruction_count outcome, co_fuel_used outcome, co_peak_call_depth outcome))
    <$> CallSample.outcome 10 3 = Some (ResourceLimit RKFuel, 1, 3, 2).
Proof. vm_compute. reflexivity. Qed.

Lemma run_ends_within_limits_witness :
  (exists outcome, CallSample.outcome 1 100 = Some outcome /\ co_instruction_count outcome <= 1 + 255) /\
  (fun outcome => (co_termination outcome, co_instruction_count outcome)) <$> CallSample.outcome 1 100
    = Some (Success (mkConstValue TBool (DBool false)), 2).
Proof.
  split; [|vm_compute; reflexivity].
  destruct (run_ends_within_limits Sample.sample_hash Sample.sample_hash (CallSample.limits 1 100) Sample.lowered
    (source_of Sample.plain) (fun _ _ => true) 0 [CallSample.input] MAX_CALL_DEPTH ltac:(reflexivity) ltac:(reflexivity))
    as (outcome & Hrun & _ & _ & _ & Hcount & _).
  exists outcome. exact (conj Hrun Hcount).
Defined.
