(* ===== verification/VmInput.v ===== *)
(** * The virtual machine: admission of inputs, and observations
    (crates/sley-vm/src/execute.rs)

    Validation of the inputs of a request before it runs, the structural walks
    of the package path, and the observation that binds an outcome: the whole
    of [execute_function]. *)

From S2P Require Import Prelude State Bytes Ids Ssmc Types TypeWalk ConstCheck Repr Fingerprint ConstEncoding.
From S2P Require Import VmInt VmText VmBridge VmJudge VmExec VmBytecode VmLower VmValue VmRun.
From stdpp Require Import strings.
Set Warnings "-register-all".

Open Scope N_scope.

(** ** Walks over a stack of pending values *)

(** [while let Some(x) = pending.pop()]: [visit] refuses, or gives what to push, in
    order; the head of [pending] is the top of the stack. *)
Section walk.
Context {A : Type} (visit : A -> option (list A)).
Fixpoint walk (fuel : nat) (pending : list A) : option bool :=
  match pending with
  | [] => Some true
  | x :: rest =>
      match fuel with
      | O => None
      | S fuel => match visit x with None => Some false | Some nested => walk fuel (rev nested ++ rest) end
      end
  end.
End walk.

(** The nodes of a value, each pushed once *)
Fixpoint value_nodes (value : ConstValue) : nat :=
  match value with
  | mkConstValue _ data =>
      S match data with
        | DSequence values => sum_list_with value_nodes values
        | DRecord record => sum_list_with (fun field => value_nodes (fc_value field)) (rc_fields record)
        | DVariant variant => match vk_payload variant with Some value => value_nodes value | None => 0 end
        | DMap entries => sum_list_with (fun entry => value_nodes (me_key entry) + value_nodes (me_value entry)) entries
        | DOption (Some value) => value_nodes value
        | DResult (ROk value) | DResult (RErr value) => value_nodes value
        | _ => 0
        end
  end%nat.

Fixpoint type_nodes (value : TypeExpr) : nat :=
  S match value with
    | TTuple items => sum_list_with type_nodes items
    | TNamed _ arguments => sum_list_with type_nodes arguments
    | TVector item | TOption item | TLocalCell item => type_nodes item
    | TOrderedMap a b | TResult a b => type_nodes a + type_nodes b
    | TFunctionRef parameters result _ => sum_list_with type_nodes parameters + type_nodes result
    | _ => 0
    end%nat.

(** [push_nested_values]: map keys before their values *)
Definition push_nested_values (value : ConstValue) : list ConstValue := const_children (cv_data value).

Definition width_fits (value : ConstValue) : bool :=
  match cv_type value, cv_data value with
  | TSInt width, DSInt number => is_epoch_1 width && fits true width number 0
  | TUInt width, DUInt number => is_epoch_1 width && fits false width 0 number
  | TSInt _, _ | TUInt _, _ | _, DSInt _ | _, DUInt _ => false
  | _, _ => true
  end.

Definition integers_fit_declared_widths (value : ConstValue) : option bool :=
  walk (fun value => if width_fits value then Some (push_nested_values value) else None) (value_nodes value) [value].

(** Whether a type is the template with each parameter replaced by its argument. *)
Definition instantiates_visit (arguments : list TypeExpr) (pair : TypeExpr * TypeExpr) : option (list (TypeExpr * TypeExpr)) :=
  match pair with
  | (TTypeParameter index, actual) =>
      if bool_decide (argument_at arguments index = Some actual) then Some [] else None
  | (TTuple templates, TTuple actuals) =>
      if len templates =? len actuals then Some (zip templates actuals) else None
  | (TNamed template targuments, TNamed actual aarguments) =>
      if (template =? actual) && (len targuments =? len aarguments) then Some (zip targuments aarguments) else None
  | (TVector template, TVector actual) | (TOption template, TOption actual) | (TLocalCell template, TLocalCell actual) =>
      Some [(template, actual)]
  | (TOrderedMap tkey tvalue, TOrderedMap akey avalue) => Some [(tkey, akey); (tvalue, avalue)]
  | (TResult tok terror, TResult aok aerror) => Some [(tok, aok); (terror, aerror)]
  | (TFunctionRef tparameters tresult teffects, TFunctionRef aparameters aresult aeffects) =>
      if bool_decide (teffects = aeffects) && (len tparameters =? len aparameters)
      then Some (zip tparameters aparameters ++ [(tresult, aresult)]) else None
  | (template, actual) => if bool_decide (template = actual) then Some [] else None
  end.

Definition instantiates_to (template : TypeExpr) (arguments : list TypeExpr) (actual : TypeExpr) : option bool :=
  walk (instantiates_visit arguments) (type_nodes template) [(template, actual)].

(** An answer of [instantiates_to], which always has one *)
Definition instantiates (template : TypeExpr) (arguments : list TypeExpr) (actual : TypeExpr) : bool :=
  default false (instantiates_to template arguments actual).

Section layouts.
Variable types : Definitions.

Definition record_fields_agree (id : EntityId) (arguments : list TypeExpr) (record : RecordConst ConstValue) : bool :=
  (rc_definition record =? id) &&
  match definition types id with
  | Ok def =>
      match td_form def with
      | FormRecord fields =>
          (len (td_type_parameters def) =? len arguments) && (len fields =? len (rc_fields record)) &&
          forallb (fun '(field, value) =>
            (rf_member_id field =? fc_member_id value) && instantiates (rf_value_type field) arguments (cv_type (fc_value value)))
            (zip fields (rc_fields record))
      | FormVariant _ => false
      end
  | Err _ => false
  end.

Definition variant_payload_agrees (id : EntityId) (arguments : list TypeExpr) (variant : VariantConst ConstValue) : bool :=
  (vk_definition variant =? id) &&
  match definition types id with
  | Ok def =>
      match td_form def with
      | FormVariant cases =>
          (len (td_type_parameters def) =? len arguments) &&
          match find_first (fun case => vc_member_id case =? vk_member_id variant) cases with
          | Some case =>
              match vc_payload_type case, vk_payload variant with
              | None, None => true
              | Some payload_type, Some payload => instantiates payload_type arguments (cv_type payload)
              | _, _ => false
              end
          | None => false
          end
      | FormRecord _ => false
      end
  | Err _ => false
  end.

(** One value agrees with the form and the parts its type declares. *)
Definition parts_agree (value : ConstValue) : bool :=
  match cv_type value, cv_data value with
  | TUnit, DUnit | TBool, DBool _ | TSInt _, DSInt _ | TUInt _, DUInt _ | TF32, DF32Bits _ | TF64, DF64Bits _
  | TBytes, DBytes _ | TText, DText _ | TFunctionRef _ _ _, DFunctionRef _ | TOption _, DOption None => true
  | TBuiltinFailure kind, DBuiltinFailure failure => bool_decide (kind = bfv_kind failure)
  | TTuple elements, DSequence values =>
      (len values =? len elements) && forallb (fun '(item, item_type) => bool_decide (cv_type item = item_type)) (zip values elements)
  | TVector element, DSequence values => forallb (fun item => bool_decide (cv_type item = element)) values
  | TOrderedMap key value, DMap entries =>
      forallb (fun entry => bool_decide (cv_type (me_key entry) = key) && bool_decide (cv_type (me_value entry) = value)) entries
  | TOption element, DOption (Some item) => bool_decide (cv_type item = element)
  | TResult ok _, DResult (ROk item) => bool_decide (cv_type item = ok)
  | TResult _ error, DResult (RErr item) => bool_decide (cv_type item = error)
  | TNamed id arguments, DRecord record => record_fields_agree id arguments record
  | TNamed id arguments, DVariant variant => variant_payload_agrees id arguments variant
  | _, _ => false
  end.

Definition nested_types_agree (value : ConstValue) : option bool :=
  walk (fun value => if parts_agree value then Some (push_nested_values value) else None) (value_nodes value) [value].
End layouts.

(** ** Validation of inputs *)

Abbreviation exec_result A := (result ExecutionError A).

Definition input_fail {A} (code : ExecutionErrorCode) : exec_result A := Err (ExecInput code).
Definition preexecution_resource_error : ExecutionError := ExecStatus StResourceLimit.

Record ValidatedInputs : Type := mkValidatedInputs { vi_hashes : list bytes; vi_value_units : N }.

Definition enforce_input_count (count : N) : exec_result unit :=
  if MAX_EXECUTION_INPUTS <? count then Err preexecution_resource_error else Ok tt.

Definition add_input_units (current amount : N) : exec_result N :=
  match checked_add current amount with
  | Some value => if value <=? MAX_EXECUTION_INPUT_VALUE_UNITS then Ok value else Err preexecution_resource_error
  | None => Err preexecution_resource_error
  end.

Definition check_input_shape (types : Definitions) (expected : TypeExpr) (value : ConstValue) : exec_result N :=
  map_err ExecType (check_constant types value) ≫= fun _ =>
  map_err ExecType (require_hashable types (cv_type value)) ≫= fun _ =>
  if bool_decide (cv_type value = expected) then Ok (value_units_const value) else input_fail InputTypeMismatch.

Definition require_canonical_encoding (value : ConstValue) : exec_result unit :=
  match measure_value value U64_MAX with Ok _ => Ok tt | Err _ => input_fail InputNotCanonical end.

(** The package path judges structure only. *)
Definition require_canonical_form (value : ConstValue) : exec_result unit :=
  require_canonical_encoding value ≫= fun _ =>
  if default false (integers_fit_declared_widths value) then Ok tt else input_fail InputNotCanonical.

Definition require_nested_type_agreement (types : Definitions) (value : ConstValue) : exec_result unit :=
  if default false (nested_types_agree types value) then Ok tt else input_fail InputNotCanonical.

Section execution.
Context (blake3 sha256 : bytes -> bytes).

(** One input against the type found for it, if any *)
Definition validate_input (types : Definitions) (schema_epoch : bytes) (found : option TypeExpr) (validated : ValidatedInputs)
    (value : ConstValue) : exec_result ValidatedInputs :=
  expected ← ok_or (ExecInput InputTypeMismatch) found;
  amount ← check_input_shape types expected value;
  units ← add_input_units (vi_value_units validated) amount;
  require_canonical_encoding value ≫= fun _ =>
  hash ← map_err ExecFingerprint (hash_validated_value blake3 schema_epoch value);
  Ok (mkValidatedInputs (vi_hashes validated ++ [hash]) units).

Definition validate_inputs (input : LoweringInput) (request : ExecutionRequest) : exec_result ValidatedInputs :=
  if negb (len (rq_inputs request) =? len (fg_parameters (li_function input))) then input_fail InputCountMismatch
  else
    enforce_input_count (len (rq_inputs request)) ≫= fun _ =>
    fold_res (fun validated '(index, value) =>
      validate_input (li_types input) (li_schema_epoch input)
        (parameter ← fg_parameters (li_function input) !! index;
         prm_value_type <$> find_first (fun candidate => prm_entity_id candidate =? parameter) (li_parameters input))
        validated value) (mkValidatedInputs [] 0) (imap pair (rq_inputs request)).

(** The types of a loaded image are those of its registers. *)
Definition validate_loaded_inputs (source : ExecutionSource) (bytecode : BytecodeFunction) (request : ExecutionRequest)
    : exec_result ValidatedInputs :=
  if negb (len (rq_inputs request) =? len (bf_parameter_registers bytecode)) then input_fail InputCountMismatch
  else
    enforce_input_count (len (rq_inputs request)) ≫= fun _ =>
    fold_res (fun validated '(index, value) =>
      validate_input (es_types source) (es_schema_epoch source)
        (register ← bf_parameter_registers bytecode !! index; bf_register_types bytecode !! N.to_nat register)
        validated value) (mkValidatedInputs [] 0) (imap pair (rq_inputs request)).

(** ** Observations *)

Definition encode_value_hash (source : ExecutionSource) (value : ConstValue) : exec_result bytes :=
  map_err ExecType (require_hashable (es_types source) (cv_type value)) ≫= fun _ =>
  map_err ExecFingerprint (hash_validated_value blake3 (es_schema_epoch source) value).

Definition encode_termination (source : ExecutionSource) (termination : ExecutionTermination) : exec_result bytes :=
  match termination with
  | Success value => hash ← encode_value_hash source value; Ok (be_bytes 4 1 ++ hash)
  | ResourceLimit kind => Ok (be_bytes 4 2 ++ be_bytes 4 (ResourceKind_tag kind))
  | Cancelled => Ok (be_bytes 4 3)
  | Trap trap_tag payload =>
      payload ←
        match payload with
        | None => Ok (be_bytes 4 1)
        | Some value => hash ← encode_value_hash source value; Ok (be_bytes 4 2 ++ hash)
        end;
      Ok (be_bytes 4 4 ++ be_bytes 4 trap_tag ++ payload)
  | InternalInvariant => Ok (be_bytes 4 5)
  end.

Definition MAX_OBSERVATION_PREIMAGE_BYTES : N := 67108864.

Definition checked_mul (a b : N) : option N := if a * b <? U64_LIMIT then Some (a * b) else None.

Definition encode_cancellation (cancel_at : option N) : bytes :=
  match cancel_at with None => be_bytes 4 1 | Some value => be_bytes 4 2 ++ be_bytes 8 value end.

Definition observation_preimage (source : ExecutionSource) (limits : ExecutionLimits) (cache_key : bytes) (input_hashes : list bytes)
    (termination : ExecutionTermination) (instruction_count fuel_used peak_value_units : N) : exec_result bytes :=
  ok_or (ExecFingerprint FpResourceLimit)
    (product ← checked_mul (len input_hashes) 32;
     capacity ← checked_add product 512;
     if capacity <=? MAX_OBSERVATION_PREIMAGE_BYTES then Some tt else None) ≫= fun _ =>
  ending ← encode_termination source termination;
  Ok (ascii "SLEYOBS1" ++ be_bytes 4 1 ++ es_schema_epoch source ++ SSMC1_FIELD_SCHEMA_HASH ++ SSMC1_DECODER_LIMITS_HASH
      ++ es_state_root source ++ id_bytes (es_function source) ++ cache_key
      ++ push_version (cp_vm_version RESTRICTED_V1) ++ be_bytes 4 1
      ++ be_bytes 8 (len input_hashes) ++ concat input_hashes
      ++ be_bytes 8 (max_instructions limits) ++ be_bytes 8 (max_fuel limits) ++ be_bytes 8 (max_value_units limits)
      ++ be_bytes 8 (max_output_units limits) ++ encode_cancellation (cancel_at_fuel limits)
      ++ ending
      ++ be_bytes 8 instruction_count ++ be_bytes 8 fuel_used ++ be_bytes 8 peak_value_units
      ++ be_bytes 8 0 ++ be_bytes 8 0 ++ be_bytes 8 0 ++ be_bytes 8 0).

Record ExecutionOutcome : Type := mkExecutionOutcome {
  eo_state_root : bytes;
  eo_schema_epoch : bytes;
  eo_function : EntityId;
  eo_cache_key : bytes;
  eo_termination : ExecutionTermination;
  eo_instruction_count : N;
  eo_fuel_used : N;
  eo_peak_value_units : N;
  eo_observation_id : bytes
}.

Definition finish (source : ExecutionSource) (limits : ExecutionLimits) (cache_key : bytes) (input_hashes : list bytes)
    (termination : ExecutionTermination) (instruction_count fuel_used peak_value_units : N) : exec_result ExecutionOutcome :=
  preimage ← observation_preimage source limits cache_key input_hashes termination instruction_count fuel_used peak_value_units;
  Ok (mkExecutionOutcome (es_state_root source) (es_schema_epoch source) (es_function source) cache_key termination
        instruction_count fuel_used peak_value_units (digest_type_derive blake3 Observation preimage)).

Definition derive_observation_id (input : LoweringInput) (limits : ExecutionLimits) (cache_key : bytes) (input_hashes : list bytes)
    (termination : ExecutionTermination) (instruction_count fuel_used peak_value_units : N) : exec_result bytes :=
  preimage ← observation_preimage (source_of input) limits cache_key input_hashes termination instruction_count fuel_used peak_value_units;
  Ok (digest_type_derive blake3 Observation preimage).

(** [None] only if the turns of the run run out *)
Definition execute_core (sole : Machine -> RuntimeValue -> bool) (source : ExecutionSource) (lowered : LoweredFunction)
    (validated : ValidatedInputs) (request : ExecutionRequest) : option (exec_result ExecutionOutcome) :=
  outcome ← run_core blake3 sha256 (rq_limits request) lowered source sole (vi_value_units validated) (rq_inputs request) MAX_CALL_DEPTH;
  Some (finish source (rq_limits request) (lf_cache_key lowered) (vi_hashes validated) (co_termination outcome)
          (co_instruction_count outcome) (co_fuel_used outcome) (co_peak_value_units outcome)).

Definition execute_function (sole : Machine -> RuntimeValue -> bool) (input : LoweringInput) (request : ExecutionRequest)
    : option (exec_result ExecutionOutcome) :=
  match map_err ExecLowering (lower_function blake3 input) with
  | Err error => Some (Err error)
  | Ok lowered =>
      match validate_inputs input request with
      | Err error => Some (Err error)
      | Ok validated => execute_core sole (source_of input) lowered validated request
      end
  end.

Definition validated_execution_input_hashes (input : LoweringInput) (request : ExecutionRequest) : exec_result (list bytes) :=
  vi_hashes <$> validate_inputs input request.
End execution.
