(* ===== verification/VmInputSound.v ===== *)
(** * The virtual machine: what the admission of inputs establishes
    (crates/sley-vm/src/execute.rs)

    The walks over pending stacks end and decide what they are meant to; inputs
    that were admitted are values of the types of the parameters; and an
    observation determines what it observed. *)

From S2P Require Import Prelude State Bytes Ids Ssmc Types TypeWalk TypeEnv ConstCheck Repr Fingerprint ConstEncoding ConstWire.
From S2P Require Import VmInt VmText VmBridge VmJudge VmExec VmTyped VmAdmission VmBytecode VmLower VmLowering VmLowered.
From S2P Require Import VmValue VmRun VmRunBounds VmInput.
From stdpp Require Import strings.
Set Warnings "-register-all".

Open Scope N_scope.

(** ** Walks *)

Lemma sum_list_with_rev {A} (f : A -> nat) l : sum_list_with f (rev l) = sum_list_with f l.
Proof. induction l as [|x l IH]; [done|]. cbn [rev]. rewrite sum_list_with_app, IH. cbn. lia. Qed.

Section walks.
Context {A : Type} (visit : A -> option (list A)) (size : A -> nat).

(** A node that the walk accepts, with all it leads to *)
Inductive accepted : A -> Prop :=
| Accepted x nested : visit x = Some nested -> Forall accepted nested -> accepted x.

Lemma accepted_inv x : accepted x <-> exists nested, visit x = Some nested /\ Forall accepted nested.
Proof. split; [by destruct 1; eauto|]. intros (nested & ? & ?). by econstructor. Qed.

Hypothesis size_pos : forall x, (0 < size x)%nat.
Hypothesis size_visit : forall x nested, visit x = Some nested -> (sum_list_with size nested < size x)%nat.

Lemma walk_decides fuel :
  forall pending, (sum_list_with size pending <= fuel)%nat ->
  exists b, walk visit fuel pending = Some b /\ (b = true <-> Forall accepted pending).
Proof using size_pos size_visit.
  induction fuel as [|fuel IH]; intros [|x rest] Hf; cbn [walk sum_list_with] in *.
  1,3: by exists true; split; [|split; [constructor|]].
  - specialize (size_pos x). lia.
  - destruct (visit x) as [nested|] eqn:Hv.
    + pose proof (size_visit _ _ Hv). destruct (IH (rev nested ++ rest)) as (b & Hb & Hiff).
      { rewrite sum_list_with_app, sum_list_with_rev. lia. }
      exists b. split; [done|]. rewrite Hiff, Forall_app, Forall_cons, accepted_inv. rewrite Hv.
      split.
      * intros [Hn%Forall_rev ?]. rewrite rev_involutive in Hn. split; [by exists nested|done].
      * intros [(? & [= <-] & ?) ?]. split; [by apply Forall_rev|done].
    + exists false. split; [done|]. split; [done|]. rewrite Forall_cons, accepted_inv, Hv. by intros [(? & ? & ?) ?].
Qed.
End walks.

(** ** Instantiation *)

Lemma type_nodes_eq t : type_nodes t = S (sum_list_with type_nodes (type_children t)).
Proof.
  destruct t; cbn [type_nodes type_children sum_list_with]; try lia. rewrite sum_list_with_app. cbn. lia.
Qed.

Lemma sum_list_with_zip_l {A B} (f : A -> nat) (l : list A) (k : list B) :
  (sum_list_with (fun p => f p.1) (zip l k) <= sum_list_with f l)%nat.
Proof. revert k. induction l as [|x l IH]; intros [|y k]; cbn; try lia. specialize (IH k). lia. Qed.

Definition pair_nodes (pair : TypeExpr * TypeExpr) : nat := type_nodes pair.1.

Lemma instantiates_visit_size arguments pair nested :
  instantiates_visit arguments pair = Some nested -> (sum_list_with pair_nodes nested < pair_nodes pair)%nat.
Proof.
  destruct pair as [template actual]. unfold pair_nodes at 2. cbn [fst]. rewrite type_nodes_eq.
  assert (forall l k, sum_list_with pair_nodes (zip l k) <= sum_list_with type_nodes l)%nat as Hz by (intros; apply sum_list_with_zip_l).
  destruct template, actual; cbn [instantiates_visit type_children sum_list_with]; intros H; repeat case_match; simplify_eq;
    try (cbn; lia); unfold pair_nodes at 1; cbn [sum_list_with fst]; try lia.
  - specialize (Hz items items0). unfold pair_nodes in *. lia.
  - specialize (Hz arguments0 arguments1). unfold pair_nodes in *. lia.
  - rewrite !sum_list_with_app. specialize (Hz parameters parameters0). unfold pair_nodes in *. cbn. lia.
Qed.

Section instantiates.
Variable arguments : list TypeExpr.
Abbreviation accepts := (accepted (instantiates_visit arguments)).

Lemma accepts_zip l k :
  length l = length k -> (forall c, c ∈ l -> forall r, accepts (c, r) -> forall d, substitute c arguments d = Ok r \/ substitute c arguments d = Err TeDepthLimit) ->
  Forall accepts (zip l k) ->
  forall d, map_res (fun c => substitute c arguments d) l = Ok k \/ map_res (fun c => substitute c arguments d) l = Err TeDepthLimit.
Proof.
  revert k. induction l as [|c l IH]; intros [|r k] Hl Hc Hz d; try done; [by left|]. cbn [zip zip_with] in Hz.
  apply Forall_cons in Hz as [H1 Hz]. cbn [map_res].
  destruct (Hc c ltac:(left) r H1 d) as [-> | ->]; [|by right]. cbn [mbind result_bind].
  destruct (IH k ltac:(by injection Hl) ltac:(intros; apply Hc; [by right|done]) Hz d) as [-> | ->]; [by left|by right].
Qed.

Definition parameter (t : TypeExpr) : bool := match t with TTypeParameter _ => true | _ => false end.

Lemma visit_node t r nested :
  parameter t = false -> instantiates_visit arguments (t, r) = Some nested ->
  nested = zip (type_children t) (type_children r) /\ length (type_children t) = length (type_children r) /\
  with_children t (type_children r) = r.
Proof.
  intros Hp H. destruct t, r; try done; cbn [instantiates_visit] in H; repeat case_match; simplify_eq;
    repeat match goal with
    | E : (_ && _) = true |- _ => apply andb_true_iff in E as [? ?]
    | E : (_ =? _) = true |- _ => apply N.eqb_eq in E
    | E : bool_decide _ = true |- _ => apply bool_decide_eq_true in E; simplify_eq
    end; unfold len in *; subst; try (split_and!; [done|cbn; lia|reflexivity]); try done.
  cbn [type_children with_children]. assert (length parameters = length parameters0) as Hl by lia.
  rewrite last_snoc, Hl, take_app_length, !length_app. split_and!; [|cbn; lia|done].
  rewrite zip_with_app by done. done.
Qed.

Lemma node_visit t l :
  parameter t = false -> length l = length (type_children t) ->
  instantiates_visit arguments (t, with_children t l) = Some (zip (type_children t) l).
Proof.
  intros Hp Hl. destruct t; try done; cbn [type_children] in *;
    try (destruct l as [|? [|? [|]]]; try done; cbn [with_children instantiates_visit]; try rewrite bool_decide_true by done; done).
  - cbn. unfold len. rewrite Hl, N.eqb_refl. done.
  - cbn. unfold len. rewrite Hl, !N.eqb_refl. done.
  - rewrite length_app in Hl. cbn in Hl. destruct l as [|x l] using rev_ind; [cbn in Hl; lia|]. clear IHl.
    rewrite length_app in Hl. cbn in Hl. cbn [with_children]. rewrite last_snoc, take_app_length' by lia.
    cbn [instantiates_visit]. rewrite bool_decide_true by done. unfold len. replace (length l) with (length parameters) by lia.
    rewrite N.eqb_refl. cbn [andb]. f_equal. rewrite zip_with_app by lia. done.
Qed.

Lemma substitute_node t d :
  parameter t = false ->
  substitute t arguments d = Types.check_depth d ≫= fun _ =>
    l ← map_res (fun c => substitute c arguments (d + 1)) (type_children t); Ok (with_children t l).
Proof. intros. rewrite substitute_eq. by destruct t. Qed.

Lemma accepts_substitute t :
  forall r, accepts (t, r) -> forall d, substitute t arguments d = Ok r \/ substitute t arguments d = Err TeDepthLimit.
Proof.
  induction t as [t IH] using TypeExpr_ind'. intros r (nested & Hv & Hn)%accepted_inv d.
  destruct (parameter t) eqn:Hp.
  - destruct t; try done. cbn in Hv. case_bool_decide as Ha; [|done]. rewrite substitute_eq.
    unfold Types.check_depth. destruct (_ <? d); [by right|]. cbn. rewrite Ha. by left.
  - apply visit_node in Hv as (-> & Hl & Hr); [|done]. rewrite substitute_node by done.
    unfold Types.check_depth. destruct (_ <? d); [by right|]. cbn [mbind result_bind]. rewrite Forall_forall in IH.
    destruct (accepts_zip _ _ Hl (fun c Hc r => IH c Hc r) Hn (d + 1)) as [-> | ->]; [|by right]. left. cbn. by rewrite Hr.
Qed.

Lemma substitute_accepts t :
  forall r d, substitute t arguments d = Ok r -> accepts (t, r).
Proof.
  induction t as [t IH] using TypeExpr_ind'. intros r d H. apply accepted_inv. destruct (parameter t) eqn:Hp.
  - destruct t; try done. rewrite substitute_eq in H. apply bind_Ok in H as (_ & _ & H). exists [].
    split; [|done]. cbn. unfold ok_or in H. destruct (argument_at arguments ordinal) as [x|]; [|done]. apply Ok_inj in H as ->.
    by rewrite bool_decide_true.
  - rewrite substitute_node in H by done. apply bind_Ok in H as (_ & _ & H). apply bind_Ok in H as (l & Hl & H).
    apply Ok_inj in H as <-. apply map_res_Ok in Hl. pose proof (Forall2_length _ _ _ Hl) as Hlen.
    eexists. split; [by apply node_visit|]. clear Hp Hlen. induction Hl as [|c r cs rs Hc _ IHl]; [done|].
    apply Forall_cons in IH as [IHc IH]. cbn [zip zip_with]. apply Forall_cons. split; [by eapply IHc|by apply IHl].
Qed.

Lemma instantiates_decides t r : exists b, instantiates_to t arguments r = Some b /\ (b = true <-> accepts (t, r)).
Proof.
  destruct (walk_decides (instantiates_visit arguments) pair_nodes) with (fuel := type_nodes t) (pending := [(t, r)]) as (b & Hb & Hiff).
  - intros []. unfold pair_nodes. rewrite type_nodes_eq. lia.
  - apply instantiates_visit_size.
  - cbn. unfold pair_nodes. cbn. lia.
  - exists b. split; [done|]. rewrite Hiff, Forall_singleton. done.
Qed.
End instantiates.

(** The instantiation walk agrees with explicit substitution, without building
    the substituted type: it always answers; where substitution gives a type the
    answer is whether it is the actual one, and where it fails for a parameter
    without an argument the answer is no, whatever the order of the walk. *)
Theorem instantiates_to_exact (template actual : TypeExpr) (arguments : list TypeExpr) (depth : N) :
  match substitute template arguments depth with
  | Ok result => instantiates_to template arguments actual = Some (bool_decide (result = actual))
  | Err TeDepthLimit => exists b, instantiates_to template arguments actual = Some b
  | Err _ => instantiates_to template arguments actual = Some false
  end.
Proof.
  destruct (instantiates_decides arguments template actual) as (b & -> & Hb).
  destruct (substitute template arguments depth) as [result|e] eqn:Hs.
  - f_equal. apply eq_true_iff_eq. rewrite Hb, bool_decide_eq_true. split.
    + intros Ha. destruct (accepts_substitute _ _ _ Ha depth); congruence.
    + intros ->. by eapply substitute_accepts.
  - assert (e <> TeDepthLimit -> Some b = Some false) as Hf.
    { intros He. f_equal. destruct b; [|done]. destruct (accepts_substitute _ _ _ (proj1 Hb eq_refl) depth); congruence. }
    destruct e; eauto; by apply Hf.
Qed.

(** ** Values of their types *)

Section nested.
Variable env : Definitions.
Hypothesis env_ok : forall id def, env !! id = Some def -> definition_ok env def.

Lemma value_nodes_eq t d : value_nodes (mkConstValue t d) = S (sum_list_with value_nodes (const_children d)).
Proof using Type.
  cbn [value_nodes]. f_equal. destruct d as [| | | | | | | |items|r|v|entries|o|r| |]; cbn [const_children sum_list_with]; try done.
  - induction (rc_fields r) as [|f l IH]; cbn; [done|]. by rewrite <- IH.
  - destruct (vk_payload v); cbn; lia.
  - induction entries as [|e l IH]; cbn; [done|]. rewrite IH. cbn. lia.
  - destruct o; cbn; lia.
  - destruct r; cbn; lia.
Qed.

(** A walk over values with one condition at each node *)
Definition nodes_pass (pass : ConstValue -> bool) (v : ConstValue) : option bool :=
  walk (fun value => if pass value then Some (push_nested_values value) else None) (value_nodes v) [v].

Lemma nodes_pass_true (pass : ConstValue -> bool) v :
  accepted (fun value => if pass value then Some (push_nested_values value) else None) v -> nodes_pass pass v = Some true.
Proof using Type.
  intros Ha. destruct (walk_decides (fun value => if pass value then Some (push_nested_values value) else None) value_nodes)
    with (fuel := value_nodes v) (pending := [v]) as (b & Hb & Hiff).
  - intros []. rewrite value_nodes_eq. lia.
  - intros [t d] nested H. destruct (pass _); [|done]. injection H as <-. rewrite value_nodes_eq. unfold push_nested_values. cbn. lia.
  - cbn. lia.
  - unfold nodes_pass. rewrite Hb. f_equal. apply Hiff. by apply Forall_singleton.
Qed.

(** A part at the type of a member *)
Lemma member_well_formed def f args t :
  definition_ok env def -> f ∈ form_types (td_form def) -> len args = len (td_type_parameters def) ->
  Forall (WellFormed env 0) args -> member_type f args t -> WellFormed env 0 t.
Proof using Type.
  intros [_ _ _ Ht _] Hf Hl Ha [d' Hs]. rewrite Forall_forall in Ht. destruct (Ht _ Hf) as [Hwf Hh]. rewrite <- Hl in Hwf.
  destruct (substitute_well_formed env 0 f args 1) as (r & Hr & Hwr & _); [|done|].
  - apply check_type_inner_spec. split; [done|]. unfold MAX_TYPE_DEPTH in *. lia.
  - destruct (substitute_depth _ _ 1 _ _ Hs); congruence.
Qed.

Lemma member_instantiates f args t : member_type f args t -> instantiates f args t = true.
Proof using Type.
  intros [d Hs]. unfold instantiates. destruct (instantiates_decides args f t) as (b & -> & Hb). cbn. apply Hb.
  by eapply substitute_accepts.
Qed.

Lemma named_arity id args def :
  WellFormed env 0 (TNamed id args) -> env !! id = Some def -> len args = len (td_type_parameters def) /\ Forall (WellFormed env 0) args.
Proof using Type.
  unfold WellFormed. rewrite AllNodes_inv. intros [Hn Hc] Hd. split; [|done]. unfold node_ok in Hn. cbn in Hn.
  apply bind_Ok in Hn as (_ & _ & Hn). unfold Types.definition in Hn. rewrite Hd in Hn. cbn in Hn. by apply ensure_Ok, N.eqb_eq in Hn.
Qed.

(** Where a typed value stands with its type well formed, both conditions hold, and so do they for its parts. *)
Definition stands (v : ConstValue) : Prop := ConstTyped env v /\ WellFormed env 0 (cv_type v) /\ value_repr v.

Lemma width_fits_typed t d : leaf_typed env t d -> data_repr d -> width_fits (mkConstValue t d) = true.
Proof using Type.
  intros Ht Hd. destruct t, d; try done; cbn in Ht, Hd |- *; apply andb_true_iff; (split; [apply Ht|]).
  - apply in_range_signed; [apply Ht|done..].
  - apply in_range_unsigned; [apply Ht|done..].
Qed.

Lemma Forall_one {A} (P : A -> Prop) x : Forall P [x] -> P x.
Proof using Type. by intros [? _]%Forall_cons. Qed.

Lemma stands_node v : stands v -> parts_agree env v = true /\ width_fits v = true /\ Forall stands (const_children (cv_data v)).
Proof using env_ok.
  destruct v as [t d]. intros (Ht & Hw & Hr). apply value_repr_inv in Hr as (_ & Hdr & Hcr). cbn [cv_type cv_data] in *.
  pose proof (proj1 (AllNodes_inv _ _) Hw) as [_ Hchildren].
  unfold parts_agree, width_fits. cbn [cv_type cv_data].
  inversion Ht as [t' d' L|types values H2|e values Hl H2|id args def fields values Hd Hform H2|id args def cases case Hd Hform Hcase Hp
    |id args def cases case f v Hd Hform Hcase Hp Hm Hv|k v tr entries Hl Htr' Hkey Hnd H2|t'|v Hv|v e Hv|o v Hv]; subst;
    cbn [const_children type_children] in Hcr, Hchildren |- *.
  - pose proof (width_fits_typed _ _ L Hdr) as Hf. split_and!; [|exact Hf|]; destruct t, d; try done.
    cbn in L. by rewrite bool_decide_true by apply L.
  - split_and!; [|done|].
    + unfold len. rewrite (Forall2_length _ _ _ H2), N.eqb_refl. cbn. clear -H2. induction H2 as [|v t vs ts [Hv _] _ IH]; [done|]. cbn.
      rewrite bool_decide_true by done. exact IH.
    + clear -H2 Hcr Hchildren. induction H2 as [|v t vs ts [<- Hv] _ IH]; [done|]. apply Forall_cons in Hcr as [? ?], Hchildren as [? ?].
      constructor; [by split_and!|by apply IH].
  - apply Forall_one in Hchildren. split_and!; [|done|].
    + clear -H2. induction H2 as [|v vs [Hv _] _ IH]; [done|]. cbn. by rewrite bool_decide_true by done.
    + rewrite Forall_forall in *. intros v Hv. destruct (H2 v Hv) as [<- ?]. split_and!; auto.
  - destruct (named_arity _ _ _ Hw Hd) as [Ha Hwa]. pose proof (env_ok _ _ Hd) as Hok. split_and!; [|done|].
    + unfold record_fields_agree, Types.definition. cbn [rc_definition rc_fields]. rewrite N.eqb_refl, Hd. cbn [ok_or andb]. rewrite Hform, Ha.
      unfold len. rewrite (Forall2_length _ _ _ H2), !N.eqb_refl. cbn [andb]. clear -H2.
      induction H2 as [|v f vs fs (Hi & Hm & _) _ IH]; [done|]. cbn. rewrite Hi, N.eqb_refl, (member_instantiates _ _ _ Hm). exact IH.
    + cbn [rc_fields] in *. rewrite Forall_fmap in *. rewrite Forall_forall in *. intros v Hv.
      destruct (list_elem_of_lookup_1 _ _ Hv) as [i Hvi].
      destruct (Forall2_lookup_l _ _ _ _ _ H2 Hvi) as (f & Hf%list_elem_of_lookup_2 & Hi & Hm & Htv). split_and!; [done| |by apply Hcr].
      eapply (member_well_formed def); [done| |done|exact Hwa|exact Hm]. rewrite Hform. cbn. by apply list_elem_of_fmap_2.
  - destruct (named_arity _ _ _ Hw Hd) as [Ha _]. split_and!; [|done|done].
    unfold variant_payload_agrees, Types.definition. cbn [vk_definition vk_member_id vk_payload]. rewrite N.eqb_refl, Hd. cbn [ok_or andb].
    by rewrite Hform, Ha, N.eqb_refl, Hcase, Hp.
  - destruct (named_arity _ _ _ Hw Hd) as [Ha Hwa]. pose proof (env_ok _ _ Hd) as Hok. split_and!; [|done|].
    + unfold variant_payload_agrees, Types.definition. cbn [vk_definition vk_member_id vk_payload]. rewrite N.eqb_refl, Hd. cbn [ok_or andb].
      rewrite Hform, Ha, N.eqb_refl, Hcase, Hp. by apply member_instantiates.
    + cbn in Hcr. apply Forall_cons in Hcr as [Hcr _]. apply Forall_singleton. split_and!; [done| |done].
      eapply (member_well_formed def); [done| |done|done|exact Hm]. rewrite Hform. cbn.
      apply find_first_Some in Hcase as [Hin _]. apply list_elem_of_omap. by exists case.
  - apply Forall_cons in Hchildren as [Hk Hv%Forall_one]. split_and!; [|done|].
    + clear -H2. induction H2 as [|e es [[<- _] [<- _]] _ IH]; [done|]. cbn. rewrite !bool_decide_true by done. exact IH.
    + rewrite Forall_forall in H2. pose proof (proj1 (Forall_forall _ _) Hcr) as Hcr'. apply Forall_forall. intros w (e & [->|[->|[]%not_elem_of_nil]%elem_of_cons]%elem_of_cons & He)%list_elem_of_bind.
      all: destruct (H2 e He) as [[<- ?] [<- ?]]; split_and!; [done|done|]; apply Hcr', list_elem_of_bind; exists e; (split; [rewrite !elem_of_cons; tauto|done]).
  - done.
  - apply Forall_one in Hchildren, Hcr. rewrite bool_decide_true by done. split_and!; [done|done|]. by apply Forall_singleton.
  - apply Forall_cons in Hchildren as [Hc _]. apply Forall_one in Hcr. rewrite bool_decide_true by done. split_and!; [done|done|].
    by apply Forall_singleton.
  - apply Forall_cons in Hchildren as [_ Hc%Forall_one]. apply Forall_one in Hcr. rewrite bool_decide_true by done.
    split_and!; [done|done|]. by apply Forall_singleton.
Qed.

Lemma stands_accepted v :
  stands v ->
  accepted (fun value => if parts_agree env value then Some (push_nested_values value) else None) v /\
  accepted (fun value => if width_fits value then Some (push_nested_values value) else None) v.
Proof using env_ok.
  induction v as [t d IH] using ConstValue_ind'. intros (Hp & Hf & Hc)%stands_node.
  rewrite !accepted_inv, Hp, Hf. cbn [cv_data] in Hc. rewrite Forall_forall in IH, Hc.
  split; (eexists; split; [done|]); apply Forall_forall; intros v Hv; by apply IH, Hc.
Qed.
End nested.

(** A constant that the type checker accepted passes both structural walks of
    the package path: each value nested in it has the type its container declares,
    layouts of named types instantiated included, and each integer is in the range of
    its declared width. *)
Theorem checked_values_agree (definitions : list TypeDefinition) (env : Definitions) (v : ConstValue)
    (Henv : TypeEnvironment_new definitions = Ok env) (Hrepr : value_repr v) (Hchecked : check_constant env v = Ok tt) :
  nested_types_agree env v = Some true /\ integers_fit_declared_widths v = Some true.
Proof.
  apply TypeEnvironment_new_spec in Henv as (_ & _ & Hok & _).
  assert (WellFormed env 0 (cv_type v)) as Hw.
  { unfold check_constant in Hchecked. apply bind_Ok in Hchecked as ([] & Hc & _). unfold check_closed_type, check_type in Hc.
    apply bind_Ok in Hc as ([] & Hc & _). by apply check_type_inner_spec in Hc as [Hc _]. }
  destruct (stands_accepted env Hok v) as [Hp Hf].
  - split_and!; [by apply check_constant_sound in Hchecked as [? _]|done|done].
  - split; by apply nodes_pass_true.
Qed.

(** ** Admitted inputs *)

Lemma map_err_Ok {E E' A} (f : E -> E') (m : result E A) a : map_err f m = Ok a -> m = Ok a.
Proof. destruct m; cbn; congruence. Qed.

Section inputs.
Context (blake3 : bytes -> bytes).

Lemma require_canonical_encoding_Ok v u : require_canonical_encoding v = Ok u -> wire_ok true 0 (value_tree v).
Proof.
  unfold require_canonical_encoding. destruct (measure_value v U64_MAX) as [m|] eqn:E; [|done]. intros _.
  apply measure_value_exact in E as (b & Hb & _). by apply encode_const_value_Ok in Hb as [? _].
Qed.

Lemma validate_input_Ok types epoch found validated v validated' :
  validate_input blake3 types epoch found validated v = Ok validated' ->
  found = Some (cv_type v) /\ check_constant types v = Ok tt /\ wire_ok true 0 (value_tree v) /\
  vi_value_units validated' = vi_value_units validated + value_units_const v /\
  vi_value_units validated' <= MAX_EXECUTION_INPUT_VALUE_UNITS /\
  exists hash, hash_validated_value blake3 epoch v = Ok hash /\ vi_hashes validated' = vi_hashes validated ++ [hash].
Proof.
  unfold validate_input. intros (expected & ->%ok_or_Ok & H)%bind_Ok. apply bind_Ok in H as (amount & Ha & H).
  apply bind_Ok in H as (units & Hu & H). apply bind_Ok in H as ([] & Hc%require_canonical_encoding_Ok & H).
  apply bind_Ok in H as (hash & Hh%map_err_Ok & H). apply Ok_inj in H as <-. cbn.
  unfold check_input_shape in Ha. apply bind_Ok in Ha as ([] & Hk%map_err_Ok & Ha). apply bind_Ok in Ha as ([] & _ & Ha).
  case_bool_decide as Ht; [|done]. apply Ok_inj in Ha as <-. unfold add_input_units, checked_add in Hu.
  destruct (_ <? U64_LIMIT); [|done]. destruct (N.leb_spec (vi_value_units validated + value_units_const v) MAX_EXECUTION_INPUT_VALUE_UNITS);
    [|done]. apply Ok_inj in Hu as <-. subst. split_and!; [done..|by exists hash].
Qed.

Lemma validate_fold types epoch (found : nat -> option TypeExpr) inputs :
  forall k validated validated',
  fold_res (fun validated '(index, value) => validate_input blake3 types epoch (found index) validated value) validated
    (imap (fun i v => ((k + i)%nat, v)) inputs) = Ok validated' ->
  (forall i v, inputs !! i = Some v ->
     found (k + i)%nat = Some (cv_type v) /\ check_constant types v = Ok tt /\ wire_ok true 0 (value_tree v)) /\
  vi_value_units validated' = vi_value_units validated + sum_with value_units_const inputs /\
  (vi_value_units validated <= MAX_EXECUTION_INPUT_VALUE_UNITS -> vi_value_units validated' <= MAX_EXECUTION_INPUT_VALUE_UNITS) /\
  exists hashes, Forall2 (fun v hash => hash_validated_value blake3 epoch v = Ok hash) inputs hashes /\
    vi_hashes validated' = vi_hashes validated ++ hashes.
Proof.
  induction inputs as [|v inputs IH]; intros k validated validated' H.
  - cbn in H. injection H as <-. split_and!; [by intros i v Hi; rewrite lookup_nil in Hi|cbn; lia|done|].
    exists []. by rewrite app_nil_r.
  - rewrite imap_cons in H. cbn [fold_res] in H. apply bind_Ok in H as (v1 & H1%validate_input_Ok & H).
    rewrite Nat.add_0_r in H1. destruct H1 as (Hf & Hc & Hw & Hu & Hm & hash & Hh & Hhs).
    rewrite (imap_ext _ (fun i v => ((S k + i)%nat, v))) in H; [|intros; cbn; f_equal; lia].
    apply IH in H as (Hall & Hu' & Hm' & hashes & Hhashes & Hhs'). split_and!.
    + intros [|i] w Hi; cbn in Hi; [injection Hi as <-; by rewrite Nat.add_0_r|].
      replace (k + S i)%nat with (S k + i)%nat by lia. by apply Hall.
    + rewrite Hu', Hu. cbn [sum_with]. lia.
    + intros _. by apply Hm'.
    + exists (hash :: hashes). split; [by constructor|]. by rewrite Hhs', Hhs, <- app_assoc.
Qed.
End inputs.

(** The parameters of a lowered function, in its code and in its inventory *)
Lemma lowered_parameter_types blake3 input lf :
  is_extended (li_profile input) = true -> lower_function blake3 input = Ok lf -> NoDup (prm_entity_id <$> li_parameters input) ->
  Forall2 (fun id register =>
    (prm_value_type <$> find_first (fun candidate => prm_entity_id candidate =? id) (li_parameters input)) =
    bf_register_types (lf_bytecode lf) !! N.to_nat register)
    (fg_parameters (li_function input)) (bf_parameter_registers (lf_bytecode lf)).
Proof.
  intros Hext Hlower Hnd. destruct (lowered_entry _ _ _ Hext Hlower) as [m [_ _ Hmaps Hps _ _ Hem]].
  rewrite (em_parameters _ _ _ _ Hem), (em_types _ _ _ _ Hem). eapply Forall2_impl; [exact Hps|].
  intros id r [p Hp]. apply (mo_parameter _ _ Hmaps) in Hp as (Hin & Hid & ->).
  assert (p ∈ li_parameters input) as Hin' by (by apply list_elem_of_filter in Hin as [_ ?]).
  clear Hps. induction (li_parameters input) as [|q l IH]; [by apply elem_of_nil in Hin'|].
  cbn [fmap list_fmap] in Hnd. apply NoDup_cons in Hnd as [Hq Hnd]. cbn [find_first].
  apply elem_of_cons in Hin' as [->|Hin']; [by rewrite Hid, N.eqb_refl|].
  destruct (N.eqb_spec (prm_entity_id q) id) as [E|]; [|by apply IH].
  exfalso. apply Hq. rewrite E, <- Hid. by apply list_elem_of_fmap_2.
Qed.

Lemma units_small (l : list ConstValue) :
  sum_with value_units_const l <= MAX_EXECUTION_INPUT_VALUE_UNITS -> sum_with value_weight l = sum_with value_units_const l.
Proof.
  induction l as [|v l IH]; intros H; cbn [sum_with] in *; [done|]. rewrite IH by lia.
  assert (value_weight v = value_units_const v) as -> by (apply units_exact; [unfold U64_MAX, U64_LIMIT, MAX_EXECUTION_INPUT_VALUE_UNITS in *; lia|done]).
  done.
Qed.

Definition admitted_input (input : LoweringInput) (v : ConstValue) (id : EntityId) : Prop :=
  exists p, p ∈ li_parameters input /\ prm_entity_id p = id /\ has_type (li_types input) v (prm_value_type p).

Lemma validate_inputs_ok blake3 input request validated :
  Forall value_repr (rq_inputs request) -> validate_inputs blake3 input request = Ok validated ->
  Forall2 (admitted_input input) (rq_inputs request) (fg_parameters (li_function input)) /\
  len (rq_inputs request) <= MAX_EXECUTION_INPUTS /\
  sum_with value_weight (rq_inputs request) = vi_value_units validated /\
  vi_value_units validated <= MAX_EXECUTION_INPUT_VALUE_UNITS /\
  Forall2 (fun v hash => hash_validated_value blake3 (li_schema_epoch input) v = Ok hash) (rq_inputs request) (vi_hashes validated).
Proof.
  intros Hrepr H. unfold validate_inputs in H. destruct (N.eqb_spec (len (rq_inputs request)) (len (fg_parameters (li_function input)))) as [Hl|];
    [|done]. cbn [negb] in H. apply bind_Ok in H as ([] & Hn & H). unfold enforce_input_count in Hn.
  destruct (N.ltb_spec MAX_EXECUTION_INPUTS (len (rq_inputs request))); [done|].
  rewrite (imap_ext _ (fun i v => ((0 + i)%nat, v))) in H by done.
  apply (validate_fold blake3 (li_types input) (li_schema_epoch input) (fun index => parameter ← fg_parameters (li_function input) !! index;
    prm_value_type <$> find_first (fun candidate => prm_entity_id candidate =? parameter) (li_parameters input))) in H
    as (Hall & Hu & Hm & hashes & Hh & Hhs). cbn [vi_value_units vi_hashes] in *. specialize (Hm ltac:(lia)). rewrite N.add_0_l in Hu.
  assert (sum_with value_weight (rq_inputs request) = vi_value_units validated) by (rewrite Hu in Hm |- *; by apply units_small).
  split_and!; [|done|done|done|by rewrite Hhs].
  apply Forall2_same_length_lookup_2; [unfold len in Hl; lia|]. intros i v id Hv Hid. destruct (Hall i v Hv) as (Hf & Hc & Hw).
  cbn [Nat.add] in Hf. rewrite Hid in Hf. cbn in Hf. apply fmap_Some in Hf as (p & [Hin Hp%N.eqb_eq]%find_first_Some & Ht).
  exists p. split_and!; [done..|]. split; [done|]. apply constant_admitted; [by apply check_constant_sound in Hc as [? _]| |by exists 0].
  rewrite Forall_forall in Hrepr. by eapply Hrepr, list_elem_of_lookup_2.
Qed.

(** C22: Inputs that validation accepts are one value for each parameter, of the type
    the parameter declares and in canonical order; their units are exact, within the
    limit, and their hashes are those of the values. *)
Theorem validated_inputs_typed (blake3 : bytes -> bytes) (input : LoweringInput) (request : ExecutionRequest) (validated : ValidatedInputs)
    (Hrepr : Forall value_repr (rq_inputs request)) (Hvalid : validate_inputs blake3 input request = Ok validated) :
  Forall2 (admitted_input input) (rq_inputs request) (fg_parameters (li_function input)) /\
  len (rq_inputs request) <= MAX_EXECUTION_INPUTS /\
  sum_with value_weight (rq_inputs request) = vi_value_units validated /\
  vi_value_units validated <= MAX_EXECUTION_INPUT_VALUE_UNITS /\
  Forall2 (fun v hash => hash_validated_value blake3 (li_schema_epoch input) v = Ok hash) (rq_inputs request) (vi_hashes validated).
Proof. by apply validate_inputs_ok. Qed.

(** Validation against the registers of lowered code is validation against the
    inventory it was lowered from: the same inputs pass, with the same units and hashes,
    and the others are refused with the same error. *)
Theorem loaded_inputs_agree (blake3 : bytes -> bytes) (input : LoweringInput) (lowered : LoweredFunction) (request : ExecutionRequest)
    (Hextended : is_extended (li_profile input) = true) (Hlower : lower_function blake3 input = Ok lowered)
    (Hnodup : NoDup (prm_entity_id <$> li_parameters input)) :
  validate_loaded_inputs blake3 (source_of input) (lf_bytecode lowered) request = validate_inputs blake3 input request.
Proof.
  pose proof (lowered_parameter_types _ _ _ Hextended Hlower Hnodup) as Hps. unfold validate_loaded_inputs, validate_inputs.
  assert (len (bf_parameter_registers (lf_bytecode lowered)) = len (fg_parameters (li_function input))) as ->
    by (unfold len; by rewrite (Forall2_length _ _ _ Hps)).
  destruct (negb _) eqn:Hl; [done|]. apply negb_false_iff, N.eqb_eq in Hl.
  destruct (enforce_input_count _) as [[]|]; [|done]. cbn [mbind result_bind].
  apply fold_res_ext_in. intros validated [i v] (j & w & [= -> ->] & Hj)%elem_of_lookup_imap. f_equal.
  assert (exists id, fg_parameters (li_function input) !! j = Some id) as [id Hid].
  { apply lookup_lt_is_Some. apply lookup_lt_Some in Hj. unfold len in Hl. lia. }
  destruct (Forall2_lookup_l _ _ _ _ _ Hps Hid) as (register & Hr & E). rewrite Hid.
  replace (bf_parameter_registers (lf_bytecode lowered) !! j) with (Some register) by (symmetry; exact Hr).
  symmetry. exact E.
Qed.

(** ** Observations *)

Lemma be_bytes_app n x y (a b : bytes) :
  x < 256 ^ N.of_nat n -> y < 256 ^ N.of_nat n -> be_bytes n x ++ a = be_bytes n y ++ b -> x = y /\ a = b.
Proof. intros Hx Hy H. apply app_inj_l in H as [H ->]; [|by rewrite !length_be_bytes]. by apply be_bytes_inj in H as ->. Qed.

Lemma concat_inj (l k : list bytes) (a b : bytes) :
  Forall (fun h => length h = 32%nat) l -> Forall (fun h => length h = 32%nat) k -> length l = length k ->
  concat l ++ a = concat k ++ b -> l = k /\ a = b.
Proof.
  intros Hl. revert k. induction Hl as [|x l Hx _ IH]; intros k Hk Hlen H; destruct Hk as [|y k Hy Hk]; try done.
  cbn [concat] in H. rewrite <- !app_assoc in H. apply app_inj_l in H as [-> H]; [|congruence].
  injection Hlen as Hlen. by destruct (IH k Hk Hlen H) as [-> ->].
Qed.

(** A request as the program represents it *)
Record limits_repr (limits : ExecutionLimits) : Prop := {
  lr_instructions : max_instructions limits < 2 ^ 64;
  lr_fuel : max_fuel limits < 2 ^ 64;
  lr_value_units : max_value_units limits < 2 ^ 64;
  lr_output_units : max_output_units limits < 2 ^ 64;
  lr_cancel : forall c, cancel_at_fuel limits = Some c -> c < 2 ^ 64
}.

Definition termination_repr (termination : ExecutionTermination) : Prop :=
  match termination with Trap tag _ => tag < 2 ^ 32 | _ => True end.

Section observations.
Context (blake3 : bytes -> bytes).
Hypothesis hash_length : forall b, length (blake3 b) = 32%nat.

(** The same ending, with values told apart by their hashes *)
Definition same_termination (source source' : ExecutionSource) (t t' : ExecutionTermination) : Prop :=
  match t, t' with
  | Success v, Success v' => encode_value_hash blake3 source v = encode_value_hash blake3 source' v'
  | Trap tag None, Trap tag' None => tag = tag'
  | Trap tag (Some v), Trap tag' (Some v') => tag = tag' /\ encode_value_hash blake3 source v = encode_value_hash blake3 source' v'
  | _, _ => t = t'
  end.

Lemma encode_value_hash_length source v h : encode_value_hash blake3 source v = Ok h -> length h = 32%nat.
Proof using hash_length.
  unfold encode_value_hash. intros ([] & _ & H)%bind_Ok. apply map_err_Ok in H. unfold hash_validated_value in H.
  repeat (apply bind_Ok in H as (? & _ & H)). apply Ok_inj in H as <-. apply hash_length.
Qed.

Lemma cancellation_app c c' (a b : bytes) :
  (forall x, c = Some x -> x < 2 ^ 64) -> (forall x, c' = Some x -> x < 2 ^ 64) ->
  encode_cancellation c ++ a = encode_cancellation c' ++ b -> c = c' /\ a = b.
Proof using Type.
  intros H H' E. destruct c as [x|], c' as [y|]; cbn [encode_cancellation] in E; rewrite <- ?app_assoc in E;
    apply be_bytes_app in E as [? E]; try done.
  apply be_bytes_app in E as [-> ->]; [done|by apply H|by apply H'].
Qed.

Lemma termination_app source source' t t' e e' (a b : bytes) :
  termination_repr t -> termination_repr t' ->
  encode_termination blake3 source t = Ok e -> encode_termination blake3 source' t' = Ok e' -> e ++ a = e' ++ b ->
  same_termination source source' t t' /\ a = b.
Proof using hash_length.
  intros Hr Hr' He He' E.
  destruct t as [v|kind| |tag [v|]|], t' as [v'|kind'| |tag' [v'|]|]; cbn [encode_termination mbind result_bind] in He, He';
    repeat match goal with H : _ ≫= _ = Ok _ |- _ => apply bind_Ok in H as (? & ? & H) end;
    repeat match goal with H : Ok _ = Ok _ |- _ => apply (proj1 (Ok_inj _ _)) in H; subst end;
    rewrite <- ?app_assoc in E; apply be_bytes_app in E as [? E]; try done.
  - apply app_inj_l in E as [<- ->]; [|transitivity 32%nat; [|symmetry]; eapply encode_value_hash_length; eassumption]. split; [|done].
    cbn. congruence.
  - apply be_bytes_app in E as [E ->]; [|by destruct kind|by destruct kind']. split; [|done]. by destruct kind, kind'.
  - apply be_bytes_app in E as [-> E]; [|done|done]. apply be_bytes_app in E as [_ E]; [|done|done].
    apply app_inj_l in E as [<- ->]; [|transitivity 32%nat; [|symmetry]; eapply encode_value_hash_length; eassumption]. split; [|done].
    cbn. split; congruence.
  - apply be_bytes_app in E as [-> E]; [|done|done]. by apply be_bytes_app in E as [_ ->].
Qed.
End observations.

(** The length of a list of hashes is a [u64]. *)
Lemma hashes_bound {A} (l : list A) :
  ok_or (ExecFingerprint FpResourceLimit)
    (product ← checked_mul (len l) 32; capacity ← checked_add product 512;
     if capacity <=? MAX_OBSERVATION_PREIMAGE_BYTES then Some tt else None) = Ok tt -> len l < 2 ^ 64.
Proof.
  intros H. apply ok_or_Ok, bind_Some in H as (p & Hp & _). unfold checked_mul in Hp.
  destruct (N.ltb_spec (len l * 32) U64_LIMIT); [|done]. unfold U64_LIMIT in *. lia.
Qed.

(** A source as the program represents it *)
Record source_repr (source : ExecutionSource) : Prop := {
  sr_epoch : length (es_schema_epoch source) = 32%nat;
  sr_root : length (es_state_root source) = 32%nat;
  sr_function : es_function source < 2 ^ 256
}.

(** C23: The preimage of an observation determines the run it reports: two runs with the
    same preimage have the same epoch, state root, function and cache key, the same
    input hashes, the same limits and cancellation point, the same ending up to the
    hashes of its values, and the same counts. *)
Theorem observation_preimage_injective (blake3 : bytes -> bytes) source source' limits limits' key key' hashes hashes' t t'
    count count' fuel fuel' units units' (preimage : bytes)
    (Hblake : forall b, length (blake3 b) = 32%nat)
    (Hs : source_repr source /\ source_repr source') (Hl : limits_repr limits /\ limits_repr limits')
    (Hk : length key = 32%nat /\ length key' = 32%nat)
    (Hh : Forall (fun h => length h = 32%nat) hashes /\ Forall (fun h => length h = 32%nat) hashes')
    (Ht : termination_repr t /\ termination_repr t')
    (Hcounts : Forall (fun n => n < 2 ^ 64) [count; count'; fuel; fuel'; units; units'])
    (Hp : observation_preimage blake3 source limits key hashes t count fuel units = Ok preimage)
    (Hp' : observation_preimage blake3 source' limits' key' hashes' t' count' fuel' units' = Ok preimage) :
  es_schema_epoch source = es_schema_epoch source' /\ es_state_root source = es_state_root source' /\
  es_function source = es_function source' /\ key = key' /\ hashes = hashes' /\ limits = limits' /\
  same_termination blake3 source source' t t' /\ count = count' /\ fuel = fuel' /\ units = units'.
Proof.
  destruct Hs as [[He Hr Hf] [He' Hr' Hf']], Hl as [[L1 L2 L3 L4 L5] [M1 M2 M3 M4 M5]], Hk as [Hk Hk'], Hh as [Hh Hh'], Ht as [Ht Ht'].
  unfold observation_preimage in Hp, Hp'.
  apply bind_Ok in Hp as ([] & Hn%hashes_bound & Hp). apply bind_Ok in Hp as (e & Hend & Hp). apply Ok_inj in Hp as <-.
  apply bind_Ok in Hp' as ([] & Hn'%hashes_bound & Hp'). apply bind_Ok in Hp' as (e' & Hend' & E). apply (proj1 (Ok_inj _ _)) in E. symmetry in E.
  repeat match goal with H : Forall _ (_ :: _) |- _ => apply Forall_cons in H as [? H] end. clear Hcounts.
  do 2 (apply app_inj_l in E as [_ E]; [|done]). apply app_inj_l in E as [-> E]; [|congruence].
  do 2 (apply app_inj_l in E as [_ E]; [|done]). apply app_inj_l in E as [-> E]; [|congruence].
  apply be_bytes_app in E as [-> E]; [|done..]. apply app_inj_l in E as [-> E]; [|congruence].
  do 2 (apply app_inj_l in E as [_ E]; [|done]).
  apply be_bytes_app in E as [Hlen E]; [|done..]. apply concat_inj in E as [-> E]; [|done..|unfold len in Hlen; lia].
  apply be_bytes_app in E as [E1 E]; [|done..]. apply be_bytes_app in E as [E2 E]; [|done..].
  apply be_bytes_app in E as [E3 E]; [|done..]. apply be_bytes_app in E as [E4 E]; [|done..].
  apply cancellation_app in E as [E5 E]; [|done..].
  eapply (termination_app blake3 Hblake source source' t t') in E as [Hsame E]; [|done..].
  apply be_bytes_app in E as [-> E]; [|done..]. apply be_bytes_app in E as [-> E]; [|done..].
  apply be_bytes_app in E as [-> _]; [|done..].
  split_and!; try done. destruct limits, limits'; cbn in *; congruence.
Qed.

(** [execute_function] always answers.  An outcome it reports is of a run within the
    limits of the request, under the cache key of the lowered code, and its observation is
    the one rederived from what it reports and the hashes of the validated inputs; an
    error is a failure of lowering, or of validation of code that lowered, or of hashing
    the value the run ended with. *)
Theorem execute_function_reports (blake3 sha256 : bytes -> bytes) sole (input : LoweringInput) (request : ExecutionRequest)
    (Hfuel : max_fuel (rq_limits request) < 2 ^ 64) :
  exists answer, execute_function blake3 sha256 sole input request = Some answer /\
  match lower_function blake3 input with
  | Err error => answer = Err (ExecLowering error)
  | Ok lowered =>
      match validate_inputs blake3 input request with
      | Err error => answer = Err error
      | Ok validated =>
          match answer with
          | Ok outcome =>
              derive_observation_id blake3 input (rq_limits request) (lf_cache_key lowered) (vi_hashes validated) (eo_termination outcome)
                (eo_instruction_count outcome) (eo_fuel_used outcome) (eo_peak_value_units outcome) = Ok (eo_observation_id outcome) /\
              eo_cache_key outcome = lf_cache_key lowered /\ eo_function outcome = fg_entity_id (li_function input) /\
              eo_fuel_used outcome <= max_fuel (rq_limits request) /\
              eo_instruction_count outcome <= max_instructions (rq_limits request) + 255 /\
              (eo_peak_value_units outcome <= max_value_units (rq_limits request) \/
               eo_termination outcome = ResourceLimit RKValueUnits /\ eo_fuel_used outcome = 0)
          | Err error =>
              exists termination, encode_termination blake3 (source_of input) termination = Err error \/
                error = ExecFingerprint FpResourceLimit
          end
      end
  end.
Proof.
  unfold execute_function. destruct (lower_function blake3 input) as [lowered|error]; cbn [map_err]; [|by eexists].
  destruct (validate_inputs blake3 input request) as [validated|error]; [|by eexists]. unfold execute_core.
  destruct (run_core_within blake3 sha256 (rq_limits request) lowered (source_of input) sole (vi_value_units validated) (rq_inputs request)
    MAX_CALL_DEPTH Hfuel ltac:(reflexivity)) as (outcome & -> & H1 & _ & _ & H4 & _ & H6 & _).
  eexists. split; [reflexivity|]. unfold finish, derive_observation_id.
  destruct (observation_preimage _ _ _ _ _ _ _ _ _) as [preimage|error] eqn:E; cbn [mbind result_bind].
  - cbn. rewrite E. by split_and!.
  - exists (co_termination outcome). unfold observation_preimage in E. apply bind_Err in E as [E|([] & _ & E)].
    + right. unfold ok_or in E. destruct (_ ≫= _); [done|]. by injection E as <-.
    + left. by apply bind_Err in E as [E|(e & _ & E)].
Qed.

(** ** Samples *)

Module RequestSample.
Definition request : ExecutionRequest := mkExecutionRequest [CallSample.input] (CallSample.limits 10 100).
Definition validated : ValidatedInputs :=
  Eval vm_compute in match validate_inputs Sample.sample_hash Sample.plain request with Ok v => v | Err _ => mkValidatedInputs [] 0 end.
Lemma valid : validate_inputs Sample.sample_hash Sample.plain request = Ok validated.
Proof. vm_compute. reflexivity. Qed.
Lemma repr : Forall value_repr (rq_inputs request).
Proof. repeat constructor. Qed.

(** A generic pair of two vectors of its parameter *)
Definition pair_type : TypeDefinition :=
  mkTypeDefinition 7 [mkTypeParameterDef 0] (FormRecord [mkRecordField 1 (TVector (TTypeParameter 0)) VPrivate; mkRecordField 2 (TTypeParameter 0) VPrivate])
    [] VPrivate.
Definition uint (n : N) : ConstValue := mkConstValue (TUInt 8) (DUInt n).
Definition pair_value : ConstValue :=
  mkConstValue (TNamed 7 [TUInt 8]) (DRecord (mkRecordConst 7
    [mkFieldConst 1 (mkConstValue (TVector (TUInt 8)) (DSequence [uint 3; uint 4])); mkFieldConst 2 (uint 255)])).
Definition preimage (max_fuel : N) : option bytes :=
  match observation_preimage Sample.sample_hash (source_of Sample.plain) (CallSample.limits 10 max_fuel) (replicate 32 x03) (vi_hashes validated)
    (Trap 5 None) 1 2 3 with Ok b => Some b | Err _ => None end.
End RequestSample.

Lemma validated_inputs_typed_witness :
  Forall2 (admitted_input Sample.plain) [CallSample.input] [5] /\ vi_value_units RequestSample.validated = 4.
Proof.
  split; [|reflexivity].
  exact (proj1 (validated_inputs_typed Sample.sample_hash Sample.plain RequestSample.request RequestSample.validated
    RequestSample.repr RequestSample.valid)).
Defined.

Lemma loaded_inputs_agree_witness :
  validate_loaded_inputs Sample.sample_hash (source_of Sample.plain) (lf_bytecode Sample.lowered) RequestSample.request
    = Ok RequestSample.validated.
Proof.
  rewrite (loaded_inputs_agree Sample.sample_hash Sample.plain Sample.lowered RequestSample.request eq_refl Sample.lowers).
  - apply RequestSample.valid.
  - apply (bool_decide_unpack _). vm_compute. exact I.
Defined.

Lemma checked_values_agree_witness :
  exists env, TypeEnvironment_new [RequestSample.pair_type] = Ok env /\
  nested_types_agree env RequestSample.pair_value = Some true /\ integers_fit_declared_widths RequestSample.pair_value = Some true.
Proof.
  eexists. split; [vm_compute; reflexivity|].
  apply (checked_values_agree [RequestSample.pair_type]); [vm_compute; reflexivity| |vm_compute; reflexivity].
  repeat constructor.
Defined.

Lemma observation_preimage_injective_witness :
  exists b,
    observation_preimage Sample.sample_hash (source_of Sample.plain) (CallSample.limits 10 9) (replicate 32 x03)
      (vi_hashes RequestSample.validated) (Trap 5 None) 1 2 3 = Ok b /\
    same_termination Sample.sample_hash (source_of Sample.plain) (source_of Sample.plain) (Trap 5 None) (Trap 5 None).
Proof.
  eexists. split; [vm_compute; reflexivity|].
  refine (proj1 (proj2 (proj2 (proj2 (proj2 (proj2 (proj2
    (observation_preimage_injective Sample.sample_hash (source_of Sample.plain) (source_of Sample.plain) (CallSample.limits 10 9)
      (CallSample.limits 10 9) (replicate 32 x03) (replicate 32 x03) (vi_hashes RequestSample.validated) (vi_hashes RequestSample.validated)
      (Trap 5 None) (Trap 5 None) 1 1 2 2 3 3 _ _ _ _ _ _ _ _ _ _)))))))).
  - intros b. reflexivity.
  - split; split; reflexivity.
  - split; split; try reflexivity; discriminate.
  - split; reflexivity.
  - split; repeat constructor.
  - split; reflexivity.
  - repeat constructor.
  - vm_compute. reflexivity.
  - vm_compute. reflexivity.
Defined.

Lemma execute_function_reports_witness :
  exists answer,
    execute_function Sample.sample_hash Sample.sample_hash (fun _ _ => true) Sample.plain RequestSample.request = Some answer /\
    match answer with
    | Ok outcome => eo_cache_key outcome = lf_cache_key Sample.lowered /\ eo_termination outcome = Success (mkConstValue TBool (DBool false))
    | Err _ => False
    end.
Proof.
  destruct (execute_function_reports Sample.sample_hash Sample.sample_hash (fun _ _ => true) Sample.plain RequestSample.request
    ltac:(reflexivity)) as (answer & Hrun & H).
  exists answer. split; [exact Hrun|]. rewrite Sample.lowers, RequestSample.valid in H.
  assert (execute_function Sample.sample_hash Sample.sample_hash (fun _ _ => true) Sample.plain RequestSample.request
    = Some answer) as E by exact Hrun.
  vm_compute in E. injection E as <-. destruct H as (_ & Hkey & _). split; [exact Hkey|reflexivity].
Defined.
