(* ===== verification/VmFrame.v ===== *)
(** * The virtual machine: frames of accepted code

    A frame of the interpreter against the run on types of its function
    (CfgSafety): at each point of the code, every value that is available there and
    may still be read is in its register, with its type.  The values that moved out
    of their registers are those liveness marks dead. *)

From S2P Require Import Prelude State Bytes Ids BTree Ssmc Types TypeWalk TypeEnv ConstCheck CfgGraph Cfg CfgSafety Fingerprint ConstEncoding.
From S2P Require Import VmInt VmText VmBridge VmJudge VmExec VmTyped VmMap VmHost VmSound VmAdmission VmBytecode VmLower VmLowering VmLowered.
From S2P Require Import VmValue VmOwned VmOwnedSound VmOwnedMap VmLiveness VmRun VmRunBounds VmInput VmInputSound.
Set Warnings "-register-all".

Open Scope N_scope.

(** ** Checked bodies *)

(** Lowered code with the index the validator built for its function *)
Record body (root : LoweringInput) (m : Maps) (bc : BytecodeFunction) (gi : GraphIndex) (entry : nat) (g : Graph) : Prop := {
  by_lowered : lowered_body root (gi_function gi) m bc;
  by_types : gi_types gi = li_types root;
  by_inventory : inventory_ok (gi_types gi) (gi_function gi) (gi_parameter_count gi) (gi_parameters gi) (gi_blocks gi)
    (gi_operations gi) (gi_block_indices gi);
  by_flow : flow_ok gi entry g;
  by_parameters : indexed prm_entity_id (li_parameters (narrow root (gi_function gi))) (gi_parameters gi);
  by_blocks : indexed blk_entity_id (li_blocks (narrow root (gi_function gi))) (gi_blocks gi);
  by_operations : indexed op_entity_id (li_operations (narrow root (gi_function gi))) (gi_operations gi);
  by_values : validate_values_and_terminators gi = Ok tt
}.

Lemma lowered_body_checked root graph m bc :
  lowered_body root graph m bc -> exists gi entry g, body root m bc gi entry g /\ gi_function gi = graph.
Proof.
  intros H. destruct (lb_valid _ _ _ _ H) as [report Hv]. unfold validate_function_graph in Hv.
  apply bind_Ok in Hv as (gi & Hgi & Hv). apply bind_Ok in Hv as ([] & Hvalues & _).
  pose proof (build_spec (li_types root) graph (li_parameters (narrow root graph)) (li_blocks (narrow root graph))
    (li_operations (narrow root graph))) as B. rewrite Hgi in B.
  destruct B as ([Hinv (entry & g & Hflow)] & Ht & <- & Hps & Hbs & Hos & _). exists gi, entry, g. by split.
Qed.

Section body.
Context (root : LoweringInput) (m : Maps) (bc : BytecodeFunction) (gi : GraphIndex) (entry : nat) (g : Graph).
Hypothesis Hbody : body root m bc gi entry g.

Abbreviation graph := (gi_function gi).
Abbreviation input := (narrow root graph).
Abbreviation read := (CfgSafety.read graph (li_parameters input)).
Abbreviation run_operation := (run_operation graph (li_parameters input) (li_operations input)).
Abbreviation run_operations := (run_operations graph (li_parameters input) (li_operations input)).
Abbreviation leaves := (leaves (gi_types gi) graph (li_parameters input) (li_blocks input)).
Abbreviation terminator_ready := (terminator_ready (gi_types gi) graph (li_parameters input)).
Abbreviation good := (good gi entry g).

#[local] Abbreviation Hlowered := (by_lowered _ _ _ _ _ _ Hbody).
#[local] Abbreviation Hmaps := (lb_maps _ _ _ _ Hlowered).
#[local] Abbreviation Hinv := (by_inventory _ _ _ _ _ _ Hbody).

(** Block [b] of the code, at its instruction [k], where the run on types is at [c] *)
Record point (b k : nat) (c : Config) (bb : BytecodeBlock) (blk : Block) (c0 : Config) : Prop := {
  pt_good : good c0 blk;
  pt_block : fg_blocks graph !! b = Some (at_block c0);
  pt_code : bf_blocks bc !! b = Some bb;
  pt_emitted : mp_blocks m !! at_block c0 = Some (blk, bb_slot bb);
  pt_parameters : Forall2 (numbered m) (blk_parameters blk) (bb_parameter_registers bb);
  pt_instructions : Forall2 (emitted_instruction m true) (blk_operations blk) (bb_instructions bb);
  pt_terminator : emitted_terminator m (blk_terminator blk) (bb_terminator bb);
  pt_run : run_operations c0 (take k (blk_operations blk)) = Some c;
  pt_length : (k <= length (blk_operations blk))%nat
}.

Lemma emitted_same id blk slot : mp_blocks m !! id = Some (blk, slot) -> gi_blocks gi !! id = Some blk.
Proof using Hbody.
  intros H. apply (mo_block _ _ Hmaps) in H as (Hin & Hid & _). by apply (by_blocks _ _ _ _ _ _ Hbody).
Qed.

Lemma operation_same id o rs : mp_operations m !! id = Some (o, rs) -> gi_operations gi !! id = Some o.
Proof using Hbody.
  intros H. apply (mo_operation _ _ Hmaps) in H as (Hin & Hid & _). by apply (by_operations _ _ _ _ _ _ Hbody).
Qed.

Lemma enter_point c0 blk :
  good c0 blk -> exists b bb, point b 0 c0 bb blk c0.
Proof using Hbody.
  intros Hg. assert (at_block c0 ∈ fg_blocks graph) as Hin
    by (apply (io_blocks _ _ _ _ _ _ _ Hinv); eexists; apply (gd_block _ _ _ _ _ Hg)).
  apply list_elem_of_lookup_1 in Hin as [b Hb].
  destruct (Forall2_lookup_l _ _ _ _ _ (body_blocks _ _ _ _ Hlowered) Hb) as (bb & Hbb & blk' & He & Hps & Hops & Ht).
  pose proof (emitted_same _ _ _ He) as Hsame. rewrite (gd_block _ _ _ _ _ Hg) in Hsame. injection Hsame as <-.
  exists b, bb. split; try done. lia.
Qed.

(** *** Values have the types of their registers *)

Definition config_typed (c : Config) : Prop :=
  (forall id t, locals c !! id = Some t -> exists p, gi_parameters gi !! id = Some p /\ t = prm_value_type p) /\
  (forall id ts, results c !! id = Some ts -> exists o, gi_operations gi !! id = Some o /\ ts = op_result_types o).

Lemma operation_of_same id : lookup_by op_entity_id (li_operations input) id = gi_operations gi !! id.
Proof using Hbody. apply lookup_by_indexed, (by_operations _ _ _ _ _ _ Hbody). Qed.

Lemma run_operation_typed c id c' : run_operation c id = Some c' -> config_typed c -> config_typed c'.
Proof using Hbody.
  unfold CfgSafety.run_operation. rewrite operation_of_same. intros (o & Ho & (ts & _ & [= <-])%bind_Some)%bind_Some [Hl Hr].
  split; cbn; [done|]. intros i ts' [[<- <-]|[_ ?]]%lookup_insert_Some; [by exists o|by apply Hr].
Qed.

Lemma run_operations_typed l : forall c c', run_operations c l = Some c' -> config_typed c -> config_typed c'.
Proof using Hbody.
  induction l as [|id l IH]; intros c c' H Hc; cbn in H; [by injection H as <-|].
  apply bind_Some in H as (c1 & H1 & H). eapply IH; [exact H|]. by eapply run_operation_typed.
Qed.

Lemma good_typed c blk : good c blk -> config_typed c.
Proof using Type. intros [_ _ Hl _ Hr]. split; [intros id t H; by apply Hl in H as [_ ?]|done]. Qed.

Lemma point_typed b k c bb blk c0 : point b k c bb blk c0 -> config_typed c.
Proof using Hbody. intros [Hg _ _ _ _ _ _ Hrun _]. eapply run_operations_typed; [exact Hrun|]. by eapply good_typed. Qed.

Lemma read_type c v t r : config_typed c -> read c v = Some t -> refers m v r -> register_type bc r = Some t.
Proof using Hbody.
  intros [Hl Hrs] Hread Hr. unfold register_type. rewrite (em_types _ _ _ _ (lb_emitted _ _ _ _ Hlowered)).
  unfold refers in Hr. destruct v as [id|[op index]]; cbn in Hr, Hread; apply ok_or_Ok in Hr.
  - apply fmap_Some in Hr as ([p r'] & Hp & ->). cbn [snd]. apply (mo_parameter _ _ Hmaps) in Hp as (Hin & Hid & ->). f_equal.
    assert (gi_parameters gi !! id = Some p) as Hp by by apply (by_parameters _ _ _ _ _ _ Hbody).
    destruct (locals c !! id) as [t'|] eqn:E.
    + injection Hread as <-. destruct (Hl _ _ E) as (p' & Hp' & ->). congruence.
    + unfold function_parameter in Hread. case_decide; [|done].
      rewrite (lookup_by_indexed _ _ _ _ (by_parameters _ _ _ _ _ _ Hbody)), Hp in Hread. by injection Hread as <-.
  - apply bind_Some in Hr as ([o rs] & Ho & Hr). pose proof (operation_same _ _ _ Ho) as Ho'.
    apply (mo_operation _ _ Hmaps) in Ho as (_ & _ & Hts). apply bind_Some in Hread as (ts & Hts' & Ht). cbn in Hts', Ht, Hr.
    apply Hrs in Hts' as (o' & Ho2 & ->). assert (o' = o) as -> by congruence.
    destruct (Forall2_lookup_l _ _ _ _ _ Hts Hr) as (t' & Ht' & ->). congruence.
Qed.

(** *** Points of a block *)

Lemma run_operations_app l l' c : run_operations c (l ++ l') = run_operations c l ≫= fun c' => run_operations c' l'.
Proof using Type.
  revert c. induction l as [|id l IH]; intros c; [done|]. cbn [app CfgSafety.run_operations].
  destruct (run_operation c id); [apply IH|done].
Qed.

(** The operation of the instruction at a point runs. *)
Lemma point_step b k c bb blk c0 i :
  point b k c bb blk c0 -> bb_instructions bb !! k = Some i ->
  exists id o ts, mp_operations m !! id = Some (o, in_results i) /\ in_opcode i = Opcode_tag (op_opcode o) /\
    in_immediate i = op_immediate o /\ Forall2 (refers m) (op_operands o) (in_operands i) /\
    mapM (read c) (op_operands o) = Some ts /\ operation_in m graph o /\
    let c' := mkConfig (at_block c) (locals c) (<[id := op_result_types o]> (results c)) in point b (S k) c' bb blk c0.
Proof using Hbody.
  intros [Hg Hb Hbb He Hps Hops Hterm Hrun Hk] Hi.
  destruct (Forall2_lookup_r _ _ _ _ _ Hops Hi) as (id & Hid & o & Ho & Hop & Himm & Hrefs).
  destruct (block_checked gi entry g Hinv (by_values _ _ _ _ _ _ Hbody) c0 blk Hg) as [Hok _].
  destruct (run_operations_good gi _ _ entry g Hinv (by_flow _ _ _ _ _ _ Hbody) (by_parameters _ _ _ _ _ _ Hbody)
    (by_operations _ _ _ _ _ _ Hbody) blk [] (blk_operations blk) c0 Hg Hok eq_refl) as (c1 & Hall & _); [by intros ? ?%elem_of_nil|].
  pose proof (take_S_r _ _ _ Hid) as Htake. rewrite <- (take_drop (S k) (blk_operations blk)), run_operations_app in Hall.
  apply bind_Some in Hall as (c2 & Hc2 & _). pose proof Hc2 as Hc2'. rewrite Htake, run_operations_app, Hrun in Hc2.
  cbn [mbind option_bind CfgSafety.run_operations] in Hc2.
  destruct (run_operation c id) as [c3|] eqn:Hc3; [|done]. cbn [mbind option_bind] in Hc2. injection Hc2 as ->.
  unfold CfgSafety.run_operation in Hc3. rewrite operation_of_same, (operation_same _ _ _ Ho) in Hc3. cbn [mbind option_bind] in Hc3.
  apply bind_Some in Hc3 as (ts & Hts & [= <-]).
  exists id, o, ts. split_and!; try done.
  - exists (at_block c0), blk, (bb_slot bb), id, (in_results i).
    split_and!; [by eapply list_elem_of_lookup_2|done|by eapply list_elem_of_lookup_2|done].
  - split; try done. apply lookup_lt_Some in Hid. lia.
Qed.

(** The terminator of a block finds what it reads, and every way it can go is open. *)
Lemma point_end b k c bb blk c0 :
  point b k c bb blk c0 -> bb_instructions bb !! k = None ->
  k = length (bb_instructions bb) /\ good c blk /\ terminator_ready c (blk_terminator blk) /\
  (forall sw, blk_terminator blk = TermVariantSwitch sw ->
     exists t cases, read c (vs_value sw) = Some t /\ expected_switch_cases gi t = Ok cases) /\
  forall o, leaves c (blk_terminator blk) o -> exists c' blk', o = Some c' /\ good c' blk'.
Proof using Hbody.
  intros [Hg Hb Hbb He Hps Hops Hterm Hrun Hk] Hi.
  apply lookup_ge_None in Hi. pose proof (Forall2_length _ _ _ Hops) as Hl.
  assert (k = length (bb_instructions bb)) as -> by lia. split; [done|]. rewrite <- Hl, firstn_all in Hrun.
  destruct (block_checked gi entry g Hinv (by_values _ _ _ _ _ _ Hbody) c0 blk Hg) as [Hok Hv].
  destruct (run_operations_good gi _ _ entry g Hinv (by_flow _ _ _ _ _ _ Hbody) (by_parameters _ _ _ _ _ _ Hbody)
    (by_operations _ _ _ _ _ _ Hbody) blk [] (blk_operations blk) c0 Hg Hok eq_refl) as (c1 & Hall & Hg1 & _ & Hdone);
    [by intros ? ?%elem_of_nil|].
  assert (c1 = c) as -> by congruence. split; [done|].
  assert (forall sw, blk_terminator blk = TermVariantSwitch sw ->
     exists t cases, read c (vs_value sw) = Some t /\ expected_switch_cases gi t = Ok cases) as Hswitch.
  { intros sw Hsw. unfold validate_terminator in Hv. rewrite Hsw in Hv. unfold validate_switch in Hv.
    apply bind_Ok in Hv as (t & Ht & Hv). apply bind_Ok in Hv as (cases & Hcases & _). exists t, cases. split; [|done].
    by apply (read_at_end gi _ entry g Hinv (by_flow _ _ _ _ _ _ Hbody) (by_parameters _ _ _ _ _ _ Hbody) c blk Hg1 Hdone). }
  apply and_assoc. split; [|exact (fun o => proj2 (terminator_good gi _ _ entry g Hinv (by_flow _ _ _ _ _ _ Hbody)
    (by_parameters _ _ _ _ _ _ Hbody) (by_blocks _ _ _ _ _ _ Hbody) c blk Hg1 Hdone Hv) o)].
  split; [|exact Hswitch].
  by apply (terminator_good gi _ _ entry g Hinv (by_flow _ _ _ _ _ _ Hbody) (by_parameters _ _ _ _ _ _ Hbody)
    (by_blocks _ _ _ _ _ _ Hbody) c blk).
Qed.

(** ** Registers *)

Definition register_holds (Σ : list TypeExpr) (regs : Registers) (r : Register) (t : TypeExpr) : Prop :=
  exists rv x, regs !! N.to_nat r = Some (Some rv) /\ rv_ok rv x /\ register_typed (li_types root) Σ x t.

(** What may be read from instruction [k] of block [b] on is in its register, but for [hole]. *)
Definition ready_but (hole : Register -> Prop) (Σ : list TypeExpr) (regs : Registers) (b k : nat) (c : Config) : Prop :=
  length regs = length (bf_register_types bc) /\
  forall v t r, read c v = Some t -> refers m v r -> ~ hole r -> will_read (bf_blocks bc) b k r -> register_holds Σ regs r t.

Definition ready := ready_but (fun _ => False).

Lemma register_typed_prefix Σ Σ' x t : Σ `prefix_of` Σ' -> register_typed (li_types root) Σ x t -> register_typed (li_types root) Σ' x t.
Proof using Type.
  intros [k ->] [Hx Ht]. split; [done|]. destruct t; try done. destruct Ht as (i & Hi & Hl & Hs). exists i. split_and!; [done| |].
  - unfold len in *. rewrite length_app. lia.
  - by apply lookup_app_l_Some.
Qed.

Lemma register_holds_prefix Σ Σ' regs r t : Σ `prefix_of` Σ' -> register_holds Σ regs r t -> register_holds Σ' regs r t.
Proof using Type. intros HΣ (rv & x & ? & ? & ?). exists rv, x. split_and!; [done..|]. by eapply register_typed_prefix. Qed.

Lemma ready_prefix hole Σ Σ' regs b k c : Σ `prefix_of` Σ' -> ready_but hole Σ regs b k c -> ready_but hole Σ' regs b k c.
Proof using Type.
  intros HΣ [Hl H]. split; [done|]. intros v t r Hv Hr Hh Hw. eapply register_holds_prefix; [exact HΣ|by eapply H].
Qed.

(** The operands of an instruction *)
Lemma operands_held Σ regs b k c bb i vs ts :
  ready Σ regs b k c -> bf_blocks bc !! b = Some bb -> bb_instructions bb !! k = Some i ->
  Forall2 (refers m) vs (in_operands i) -> mapM (read c) vs = Some ts ->
  exists values, Forall2 (holds regs) (in_operands i) values /\ Forall2 (register_typed (li_types root) Σ) values ts.
Proof using Type.
  intros [_ H] Hb Hi Hrefs Hts. apply mapM_Some in Hts.
  assert (forall r, r ∈ in_operands i -> will_read (bf_blocks bc) b k r) as Hw by (intros r Hr; by eapply Read_operand).
  revert ts Hts. induction Hrefs as [|v r vs rs Hr _ IH]; intros ts Hts.
  - apply Forall2_nil_inv_l in Hts as ->. exists []. by split.
  - apply Forall2_cons_inv_l in Hts as (t & ts' & Ht & Hts & ->).
    destruct (IH ltac:(intros; apply Hw; by right) _ Hts) as (values & H1 & H2).
    destruct (H v t r Ht Hr ltac:(tauto) ltac:(apply Hw; left)) as (rv & x & ? & ? & ?).
    exists (x :: values). split; constructor; try done. by exists rv.
Qed.

(** After an instruction that may have moved its dead operands, everything but its result is there. *)
Lemma ready_after Σ regs regs' b k c bb i id o r0 :
  ready Σ regs b k c -> bf_blocks bc !! b = Some bb -> bb_instructions bb !! k = Some i ->
  mp_operations m !! id = Some (o, in_results i) -> in_results i = [r0] ->
  after (mask (compute (bf_blocks bc)) b k) (in_operands i) (fun _ => True) regs regs' ->
  ready_but (fun r => r = r0) Σ regs' b (S k) (mkConfig (at_block c) (locals c) (<[id := op_result_types o]> (results c))).
Proof using Type.
  intros [Hlen H] Hb Hi Ho Hres [Hl Hmoved]. split; [congruence|]. intros v t r Hv Hr Hne Hw.
  assert (read c v = Some t) as Hv'.
  { destruct v as [pid|[op index]]; [done|]. cbn in Hv |- *. destruct (decide (op = id)) as [->|Hd].
    - unfold refers in Hr. cbn in Hr. apply ok_or_Ok in Hr. rewrite Ho, Hres in Hr. cbn in Hr. exfalso. apply Hne.
      destruct (N.to_nat index); [by injection Hr|done].
    - by rewrite lookup_insert_ne in Hv by done. }
  assert (will_read (bf_blocks bc) b k r) as Hwk.
  { eapply Read_later; [done|done| |done]. rewrite Hres. by intros ->%list_elem_of_singleton. }
  destruct (H v t r Hv' Hr ltac:(tauto) Hwk) as (rv & x & Hx & Hrv & Ht). exists rv, x. split_and!; [|done..].
  destruct (Hmoved r) as [->|(j & _ & Hdead & Hj)]; [done|]. exfalso.
  unfold dead in Hdead. apply andb_true_iff in Hdead as [_ Hdead].
  destruct (mask_dead (bf_blocks bc) b bb k i (N.to_nat j) r) as [_ Hno]; [done..|by rewrite N2Nat.id|by apply Hno].
Qed.

(** Writing the result closes the hole. *)
Lemma ready_write Σ regs b k c r0 t0 rv x :
  ready_but (fun r => r = r0) Σ regs b k c -> (forall v t, read c v = Some t -> refers m v r0 -> t = t0) ->
  (N.to_nat r0 < length (bf_register_types bc))%nat -> rv_ok rv x -> register_typed (li_types root) Σ x t0 ->
  exists regs', write_register regs r0 rv = Ok regs' /\ ready Σ regs' b k c.
Proof using Type.
  intros [Hlen H] Ht0 Hr0 Hrv Ht. unfold write_register.
  destruct (N.ltb_spec r0 (len regs)); [|unfold len in *; lia].
  eexists. split; [done|]. split; [by rewrite length_insert|]. intros v t r Hv Hr _ Hw.
  destruct (decide (r = r0)) as [->|Hne].
  - exists rv, x. rewrite list_lookup_insert_eq by lia. split_and!; [done..|]. by rewrite (Ht0 _ _ Hv Hr).
  - destruct (H v t r Hv Hr Hne Hw) as (rv' & x' & Hx & ?). exists rv', x'.
    rewrite list_lookup_insert_ne by (intros E; apply Hne; lia). done.
Qed.

(** ** Edges *)

(** The registers that may have left at the terminator of block [b] *)
Definition left_at (b : nat) (regs regs' : Registers) : Prop :=
  length regs' = length regs /\
  forall r, regs' !! N.to_nat r = regs !! N.to_nat r \/ dead_after_terminator (compute (bf_blocks bc)) b r = true.

Lemma left_at_refl b regs : left_at b regs regs.
Proof using Type. split; [done|]. by left. Qed.

Lemma left_at_trans b regs regs' regs'' : left_at b regs regs' -> left_at b regs' regs'' -> left_at b regs regs''.
Proof using Type.
  intros [Hl H] [Hl' H']. split; [congruence|]. intros r. destruct (H' r) as [->|?]; [|by right]. apply H.
Qed.

(** An operand that is held, moved only if [move] *)
Lemma operand_held Σ regs r t (move : bool) :
  register_holds Σ regs r t ->
  exists rv x regs', operand r move regs = Ok (rv, regs') /\ rv_ok rv x /\ register_typed (li_types root) Σ x t /\
    length regs' = length regs /\
    forall r', regs' !! N.to_nat r' = regs !! N.to_nat r' \/ (move = true /\ r' = r).
Proof using Type.
  intros (rv & x & Hr & Hrv & Ht). exists rv, x. unfold operand. destruct move.
  - unfold take_register, read_register. rewrite Hr. eexists. split_and!; [done..|by rewrite length_insert|].
    intros r'. destruct (decide (r' = r)) as [->|Hne]; [by right|left]. rewrite list_lookup_insert_ne; [done|]. intros E. apply Hne. lia.
  - exists regs. unfold VmOwned.read, read_register. rewrite Hr. split_and!; [done..|]. by left.
Qed.

Lemma register_holds_same Σ regs regs' r t :
  regs' !! N.to_nat r = regs !! N.to_nat r -> register_holds Σ regs r t -> register_holds Σ regs' r t.
Proof using Type. intros E (rv & x & H & ?). exists rv, x. by rewrite E. Qed.

(** Values in flight *)
Definition carries (Σ : list TypeExpr) (rv : RuntimeValue) (t : TypeExpr) : Prop :=
  exists x, rv_ok rv x /\ register_typed (li_types root) Σ x t.

(** A run that stops here stops for a limit. *)
Definition limit_stop (termination : ExecutionTermination) : Prop :=
  match termination with ResourceLimit _ | Cancelled => True | _ => False end.

Definition quiet (rt rt' : Runtime) : Prop := cells rt' = cells rt /\ block rt' = block rt.

Definition quietly {A} (rt : Runtime) (P : A -> Runtime -> Prop) (result : Halt A * Runtime) : Prop :=
  match result with
  | (Go a, rt') => quiet rt rt' /\ P a rt'
  | (Stop termination, _) => limit_stop termination
  | (Broken, _) => False
  end.

Lemma quiet_trans a b c : quiet a b -> quiet b c -> quiet a c.
Proof using Type. intros [? ?] [? ?]. split; congruence. Qed.

Lemma quietly_bind {A B} rt0 rt (mm : Act A) (k : A -> Act B) P Q :
  quiet rt0 rt -> quietly rt P (mm rt) -> (forall a rt', quiet rt0 rt' -> P a rt' -> quietly rt0 Q (k a rt')) ->
  quietly rt0 Q ((mm ≫= k) rt).
Proof using Type.
  intros Hq Hm Hk. unfold mbind, Act_bind. destruct (mm rt) as [[a|termination|] rt']; cbn in Hm; [|done..].
  apply Hk; [|apply Hm]. eapply quiet_trans; [exact Hq|apply Hm].
Qed.

Lemma quietly_charge limits instruction rt :
  quietly rt (fun _ rt' => registers rt' = registers rt) (charge_action limits instruction rt).
Proof using Type. unfold charge_action. repeat case_match; done. Qed.

Lemma quietly_operand Σ rt r t move :
  register_holds Σ (registers rt) r t ->
  quietly rt (fun rv rt' => carries Σ rv t /\ length (registers rt') = length (registers rt) /\
    forall r', registers rt' !! N.to_nat r' = registers rt !! N.to_nat r' \/ (move = true /\ r' = r))
    (on_registers (operand r move) rt).
Proof using Type.
  intros H. destruct (operand_held Σ _ _ _ move H) as (rv & x & regs' & E & Hrv & Ht & Hl & Hr). unfold on_registers. rewrite E.
  cbn. split; [done|]. split_and!; [by exists x|done|done].
Qed.

Lemma held_later Σ regs regs' r (move : bool) later ts :
  Forall2 (register_holds Σ regs) later ts ->
  (forall r', regs' !! N.to_nat r' = regs !! N.to_nat r' \/ (move = true /\ r' = r)) -> (move = true -> r ∉ later) ->
  Forall2 (register_holds Σ regs') later ts.
Proof using Type.
  intros H Hm Hn. induction H as [|r' t' rs' ts' Ht' _ IH]; constructor.
  - eapply register_holds_same; [|exact Ht']. destruct (Hm r') as [?|[Hv ->]]; [done|]. exfalso. apply (Hn Hv). left.
  - apply IH. intros Hv Hin. apply (Hn Hv). by right.
Qed.

Lemma edge_values_held limits Σ b arguments :
  forall ts rt, Forall2 (register_holds Σ (registers rt)) arguments ts ->
  quietly rt (fun values rt' => Forall2 (carries Σ) values ts /\ left_at b (registers rt) (registers rt'))
    (edge_values limits (compute (bf_blocks bc)) b arguments rt).
Proof using Type.
  induction arguments as [|r later IH]; intros ts rt H; cbn [edge_values].
  - apply Forall2_nil_inv_l in H as ->. split; [done|]. split; [constructor|apply left_at_refl].
  - apply Forall2_cons_inv_l in H as (t & ts' & Ht & Hts & ->).
    eapply (quietly_bind _ _ _ _ (fun _ rt' => registers rt' = registers rt)); [done|apply quietly_charge|]. intros [] rt1 Hq1 E1.
    unfold edge_operand.
    eapply (quietly_bind _ _ _ _ _ _ Hq1); [apply (quietly_operand Σ); by rewrite E1|]. intros rv rt2 Hq2 (Hrv & Hl & Hm).
    assert (left_at b (registers rt1) (registers rt2)) as Hleft.
    { split; [done|]. intros r'. destruct (Hm r') as [->|[[_ Hd]%andb_true_iff ->]]; [by left|by right]. }
    rewrite E1 in Hleft.
    eapply (quietly_bind _ _ _ _ _ _ Hq2).
    + apply (IH ts'). rewrite <- E1 in Hts. eapply held_later; [exact Hts|exact Hm|].
      intros [Hn _]%andb_true_iff. by apply bool_decide_eq_true in Hn.
    + intros values rt3 Hq3 [Hvs Hleft']. split; [done|]. split; [by constructor|by eapply left_at_trans].
Qed.

(** *** Entering a block *)

Lemma write_register_Ok regs r rv : (N.to_nat r < length regs)%nat -> write_register regs r rv = Ok (<[N.to_nat r := Some rv]> regs).
Proof using Type. intros H. unfold write_register. destruct (N.ltb_spec r (len regs)); [done|]. unfold len in *. lia. Qed.

Definition write_each : list (Register * RuntimeValue) -> R unit :=
  each (fun '(register, value) => fun regs => regs ← write_register regs register value; Ok (tt, regs)).

Lemma writes_spec rs :
  forall values regs, length rs = length values -> Forall (fun r => (N.to_nat r < length regs)%nat) rs -> NoDup rs ->
  exists regs', write_each (zip rs values) regs = Ok (tt, regs') /\ length regs' = length regs /\
    (forall r, r ∉ rs -> regs' !! N.to_nat r = regs !! N.to_nat r) /\
    forall j r rv, rs !! j = Some r -> values !! j = Some rv -> regs' !! N.to_nat r = Some (Some rv).
Proof using Type.
  unfold write_each. induction rs as [|r rs IH]; intros [|rv values] regs Hl Hb Hnd; try done.
  - exists regs. split_and!; [done..|]. intros j r rv Hr. by rewrite lookup_nil in Hr.
  - apply Forall_cons in Hb as [Hr Hb]. apply NoDup_cons in Hnd as [Hn Hnd]. injection Hl as Hl.
    destruct (IH values (<[N.to_nat r := Some rv]> regs) Hl) as (regs' & E & Hlen & Hsame & Hset); [|done|].
    { eapply Forall_impl; [exact Hb|]. intros r'. by rewrite length_insert. }
    exists regs'. split_and!.
    + cbn [zip zip_with each]. unfold mbind, ST_bind. rewrite (write_register_Ok _ _ _ Hr). exact E.
    + by rewrite Hlen, length_insert.
    + intros r' Hr'. apply not_elem_of_cons in Hr' as [Hne Hr']. rewrite (Hsame _ Hr').
      apply list_lookup_insert_ne. intros E'. apply Hne. lia.
    + intros [|j] r' rv' Hj Hv; cbn in Hj, Hv; [|by eapply Hset]. injection Hj as <-. injection Hv as <-.
      rewrite (Hsame _ Hn). by rewrite list_lookup_insert_eq.
Qed.

#[local] Abbreviation enter := (CfgSafety.enter (li_parameters input) (li_blocks input)).

Lemma parameter_bound id r : numbered m id r -> (N.to_nat r < length (bf_register_types bc))%nat.
Proof using Hbody.
  intros [p Hp]. apply (mo_parameter _ _ Hmaps) in Hp as (_ & _ & H). rewrite (em_types _ _ _ _ (lb_emitted _ _ _ _ Hlowered)).
  by apply lookup_lt_Some in H.
Qed.

Lemma numbered_refers_one id r : numbered m id r -> refers m (VRParameter id) r.
Proof using Type. intros [p Hp]. unfold refers. cbn. by rewrite Hp. Qed.

Lemma numbered_NoDup ids rs : NoDup ids -> Forall2 (numbered m) ids rs -> NoDup rs.
Proof using Hbody.
  intros Hnd H. apply NoDup_alt. intros i j r Hi Hj.
  destruct (Forall2_lookup_r _ _ _ _ _ H Hi) as (id & Hid & Hr%numbered_refers_one).
  destruct (Forall2_lookup_r _ _ _ _ _ H Hj) as (id' & Hid' & Hr'%numbered_refers_one).
  pose proof (mo_injective _ _ Hmaps _ _ _ Hr Hr') as [= ->]. by eapply NoDup_lookup.
Qed.

Lemma block_in_input id blk : gi_blocks gi !! id = Some blk -> blk ∈ li_blocks input.
Proof using Hbody. intros H. by apply (by_blocks _ _ _ _ _ _ Hbody) in H as [? _]. Qed.

Lemma enter_ready Σ rt b k c bb blk c0 regs0 target ts c' blk' slot values :
  point b k c bb blk c0 -> good c blk -> k = length (bb_instructions bb) ->
  ready Σ regs0 b k c -> left_at b regs0 (registers rt) ->
  slot_of m target slot -> N.to_nat slot ∈ successors (bb_terminator bb) ->
  enter c target ts = Some c' -> good c' blk' -> Forall2 (carries Σ) values ts ->
  exists bb' rt', bind_values (bf_blocks bc) slot values rt = (Go tt, rt') /\ cells rt' = cells rt /\ block rt' = N.to_nat slot /\
    ready Σ (registers rt') (N.to_nat slot) 0 c' /\ point (N.to_nat slot) 0 c' bb' blk' c'.
Proof using Hbody.
  intros Hp Hgc -> [Hlen Hready] [Hleft Hmoved] Hslot Hsucc Henter Hgood Hvalues.
  pose proof (body_once _ _ _ _ Hlowered) as Honce.
  destruct (enter_point _ _ Hgood) as (b' & bb' & Hp').
  unfold CfgSafety.enter in Henter. apply bind_Some in Henter as (tb & Htb & Henter). apply bind_Some in Henter as (types & Htypes & Henter).
  case_decide as E; [|done]. subst types. apply (inj Some) in Henter. subst c'. cbn [at_block] in *.
  assert (b' = N.to_nat slot) as ->.
  { eapply NoDup_lookup; [apply (do_blocks _ _ Honce)|exact (pt_block _ _ _ _ _ _ Hp')|]. by apply (body_slot _ _ _ _ Hlowered). }
  assert (tb = blk') as ->.
  { rewrite (lookup_by_indexed _ _ _ _ (by_blocks _ _ _ _ _ _ Hbody)) in Htb. pose proof (gd_block _ _ _ _ _ Hgood) as H'. cbn in H'. congruence. }
  pose proof (pt_parameters _ _ _ _ _ _ Hp') as Hps. pose proof (Forall2_length _ _ _ Hps) as Hl1.
  apply mapM_Some in Htypes. pose proof (Forall2_length _ _ _ Htypes) as Hl2. pose proof (Forall2_length _ _ _ Hvalues) as Hl3.
  assert (NoDup (blk_parameters blk')) as Hnd.
  { eapply (do_block_parameters _ _ Honce), block_in_input, (gd_block _ _ _ _ _ Hgood). }
  assert (length (bb_parameter_registers bb') = length values) as Hl4 by congruence.
  destruct (writes_spec (bb_parameter_registers bb') values (registers rt)) as (regs' & Hw & Hlw & Hsame & Hset); [exact Hl4| |by eapply numbered_NoDup|].
  { apply Forall_forall. intros r [j Hj]%list_elem_of_lookup_1. destruct (Forall2_lookup_r _ _ _ _ _ Hps Hj) as (id & _ & Hid).
    apply parameter_bound in Hid. rewrite Hleft, Hlen. exact Hid. }
  exists bb', (set_block (N.to_nat slot) (set_registers regs' rt)). split_and!; [|done|done| |done].
  { unfold bind_values. rewrite (pt_code _ _ _ _ _ _ Hp'). unfold len. rewrite Hl4, N.eqb_refl. cbn [negb].
    unfold on_registers, mbind at 1, Act_bind at 1.
    match goal with |- context [each ?f ?l ?r] => replace (each f l r) with (Ok (E:=ExtendedFault) (tt, regs')) by (symmetry; exact Hw) end.
    done. }
  split; [cbn; lia|]. intros v t r Hv Hr _ Hw'. cbn [registers set_block set_registers].
  assert (forall id, v = VRParameter id -> id ∈ blk_parameters blk' -> register_holds Σ regs' r t) as Hlocal.
  { intros id -> Hin. pose proof Hin as [j Hj]%list_elem_of_lookup_1.
    destruct (Forall2_lookup_l _ _ _ _ _ Hps Hj) as (r' & Hr' & Hn%numbered_refers_one).
    assert (r' = r) as -> by (unfold refers in *; congruence).
    destruct (Forall2_lookup_l _ _ _ _ _ Htypes Hj) as (t' & Ht' & _).
    destruct (Forall2_lookup_r _ _ _ _ _ Hvalues Ht') as (rv & Hrv & x & Hx & Hxt).
    exists rv, x. split_and!; [by eapply Hset|done|]. cbn in Hv.
    rewrite (elem_of_list_to_map_1 _ _ t') in Hv; [by injection Hv as <-|by rewrite fst_zip by lia|].
    apply list_elem_of_lookup. exists j. by rewrite lookup_zip_with, Hj, Ht'. }
  destruct (decide (r ∈ bb_parameter_registers bb')) as [[j Hj]%list_elem_of_lookup_1|Hnr].
  { destruct (Forall2_lookup_r _ _ _ _ _ Hps Hj) as (id & Hid & Hn%numbered_refers_one).
    eapply Hlocal; [by eapply (mo_injective _ _ Hmaps)|by eapply list_elem_of_lookup_2]. }
  assert (read c v = Some t) as Hvc.
  { destruct v as [id|]; [|done]. cbn in Hv |- *. destruct (list_to_map _ !! id) as [t'|] eqn:El.
    - exfalso. apply elem_of_list_to_map_2, elem_of_zip_l in El. apply Hnr.
      apply list_elem_of_lookup_1 in El as [j Hj]. destruct (Forall2_lookup_l _ _ _ _ _ Hps Hj) as (r' & Hr' & Hn%numbered_refers_one).
      assert (r' = r) as -> by (unfold refers in *; congruence). by eapply list_elem_of_lookup_2.
    - destruct (locals c !! id) as [t'|] eqn:Elc; [|done]. exfalso. apply (gd_locals _ _ _ _ _ Hgc) in Elc as [Hin _].
      unfold function_parameter in Hv. case_decide as Hfp; [|done].
      eapply (do_disjoint _ _ Honce); [eapply block_in_input, (gd_block _ _ _ _ _ Hgc)|exact Hin|exact Hfp]. }
  assert (will_read (bf_blocks bc) b (length (bb_instructions bb)) r) as Hwb.
  { eapply Read_successor; [apply (pt_code _ _ _ _ _ _ Hp)|exact Hsucc|apply (pt_code _ _ _ _ _ _ Hp')|exact Hnr|exact Hw']. }
  eapply register_holds_same; [apply (Hsame _ Hnr)|].
  destruct (Hmoved r) as [E|Hdead]; [|exfalso; eapply dead_after_dead; [apply (pt_code _ _ _ _ _ _ Hp)|exact Hdead|exact Hsucc
    |apply (pt_code _ _ _ _ _ _ Hp')|exact Hnr|exact Hw']].
  eapply register_holds_same; [exact E|]. eapply Hready; [exact Hvc|exact Hr|tauto|exact Hwb].
Qed.

(** *** Terminators *)

Lemma reads_held Σ regs b k c bb blk c0 v t r :
  ready Σ regs b k c -> point b k c bb blk c0 -> k = length (bb_instructions bb) ->
  read c v = Some t -> refers m v r -> r ∈ terminator_reads (bb_terminator bb) -> register_holds Σ regs r t.
Proof using Type.
  intros [_ H] Hp -> Hv Hr Hin. eapply H; [done..|tauto|]. eapply Read_terminator; [apply (pt_code _ _ _ _ _ _ Hp)|done].
Qed.

Lemma all_held Σ regs b k c bb blk c0 vs ts rs :
  ready Σ regs b k c -> point b k c bb blk c0 -> k = length (bb_instructions bb) ->
  mapM (read c) vs = Some ts -> Forall2 (refers m) vs rs -> (forall r, r ∈ rs -> r ∈ terminator_reads (bb_terminator bb)) ->
  Forall2 (register_holds Σ regs) rs ts.
Proof using Type.
  intros Hready Hp Hk Hts%mapM_Some Hrs Hin. revert ts Hts. induction Hrs as [|v r vs rs Hr _ IH]; intros ts Hts.
  - apply Forall2_nil_inv_l in Hts as ->. constructor.
  - apply Forall2_cons_inv_l in Hts as (t & ts' & Ht & Hts & ->). constructor; [|apply IH; [intros; apply Hin; by right|done]].
    eapply reads_held; try done. apply Hin. left.
Qed.

(** A frame at the start of a block *)
Definition at_start (Σ : list TypeExpr) (rt : Runtime) : Prop :=
  exists c bb blk, ready Σ (registers rt) (block rt) 0 c /\ point (block rt) 0 c bb blk c.

Definition moves {A} (Σ : list TypeExpr) (rt : Runtime) (result : Halt A * Runtime) : Prop :=
  match result with
  | (Go _, rt') => cells rt' = cells rt /\ at_start Σ rt'
  | (Stop termination, _) => limit_stop termination
  | (Broken, _) => False
  end.

Lemma bind_edge_moves limits Σ rt b k c bb blk c0 e be :
  point b k c bb blk c0 -> good c blk -> k = length (bb_instructions bb) -> ready Σ (registers rt) b k c ->
  emitted_edge m e be -> N.to_nat (bte_target be) ∈ successors (bb_terminator bb) ->
  (forall r, r ∈ bte_arguments be -> r ∈ terminator_reads (bb_terminator bb)) ->
  (exists c' blk', take_edge graph (li_parameters input) (li_blocks input) c e = Some c' /\ good c' blk') ->
  moves Σ rt (bind_edge limits (bf_blocks bc) (compute (bf_blocks bc)) be b rt).
Proof using Hbody.
  intros Hp Hgc Hk Hready [Hargs Hslot] Hsucc Hin (c' & blk' & Htake & Hgood).
  unfold take_edge in Htake. apply bind_Some in Htake as (ts & Hts & Henter).
  pose proof (edge_values_held limits Σ b (bte_arguments be) ts rt (all_held _ _ _ _ _ _ _ _ _ _ _ Hready Hp Hk Hts Hargs Hin)) as He.
  unfold bind_edge, mbind, Act_bind. destruct (edge_values _ _ _ _ _) as [[values|termination|] rt1]; [|done..].
  destruct He as ([Hcells Hblock] & Hvalues & Hleft).
  destruct (enter_ready Σ rt1 b k c bb blk c0 (registers rt) (te_target e) ts c' blk' (bte_target be) values)
    as (bb' & rt' & -> & Hc & Hb & Hr & Hp'); try done.
  split; [congruence|]. exists c', bb', blk'. by rewrite Hb.
Qed.

(** The value a switch selects on *)
Lemma expected_payload d args cases def variants case tp :
  expected_switch_cases gi (TNamed d args) = Ok cases -> gi_types gi !! d = Some def -> td_form def = FormVariant variants ->
  case ∈ variants -> vc_payload_type case = Some tp -> exists t', substitute tp args 1 = Ok t'.
Proof using Type.
  unfold expected_switch_cases. intros H Hd Hf Hin Hp. apply bind_Ok in H as (l & H & _).
  unfold Types.definition in H. rewrite Hd in H. cbn in H. rewrite Hf in H.
  apply map_res_Ok in H. apply list_elem_of_lookup_1 in Hin as [j Hj].
  destruct (Forall2_lookup_l _ _ _ _ _ H Hj) as (kp & _ & Hk). cbv beta in Hk. rewrite Hp in Hk.
  apply bind_Ok in Hk as (p & Hk & _). destruct (instantiate_in_scope _ _ _ _) as [t'|] eqn:E; [|done].
  exists t'. by eapply instantiate_substitutes.
Qed.

Lemma selected_case_sound Σ rv t cases :
  carries Σ rv t -> expected_switch_cases gi t = Ok cases ->
  exists key payload ptype, selected_case rv = Ok (key, payload) /\ TypeCase (gi_types gi) t key ptype /\
    match ptype with Some tp => exists rv', payload = Some rv' /\ carries Σ rv' tp | None => payload = None end.
Proof using Hbody.
  intros (x & Hrv & Hx & Ht) Hcases.
  assert (forall w, step_into x StepPayload = Some w -> ValueTyped (li_types root) w ->
    exists rv', payload_view rv = Ok rv' /\ carries Σ rv' (cv_type w)) as Hview.
  { intros w Hs Hw. destruct (payload_view_ok _ _ _ Hrv Hs) as (rv' & E & Hrv'). exists rv'. split; [done|].
    exists w. split; [done|]. by apply has_type_register. }
  assert (ValueTyped (li_types root) x) as Htx by (destruct t; first [exact Ht | discriminate Hcases]). clear Ht.
  unfold selected_case. rewrite (ro_value _ _ Hrv). cbn [mbind result_bind].
  destruct Htx as [t' d' L|types values ? ?|e values ? ?|id args def fields values ? ? ?|id args def variants case payload Hd Hf Hcase Hp Hv
    |k v entries keys ? ? ?|t'|v Hv|v e Hv|o v Hv]; cbn [cv_type] in Hx; subst t; try discriminate Hcases.
  - destruct t', d'; done.
  - unfold expected_switch_cases, Types.definition in Hcases. rewrite <- (by_types _ _ _ _ _ _ Hbody) in H. rewrite H in Hcases.
    cbn in Hcases. by rewrite H0 in Hcases.
  - rewrite <- (by_types _ _ _ _ _ _ Hbody) in Hd. apply find_first_Some in Hcase as [Hin _]. cbn [cv_data vk_member_id vk_payload].
    destruct (vc_payload_type case) as [f|] eqn:Hpt, payload as [w|]; try done.
    + rewrite bool_decide_eq_true_2 by done. destruct (Hview w eq_refl ltac:(by apply Hv)) as (rv' & E & Hc).
      destruct (expected_payload _ _ _ _ _ _ _ Hcases Hd Hf Hin Hpt) as (t' & Ht'). destruct Hp as [dp Hdp].
      destruct (substitute_depth _ _ 1 _ _ Hdp) as [Hs|Hs]; rewrite Hs in Ht'; [|done]. injection Ht' as <-.
      exists (KeyMember (vc_member_id case)), (Some rv'), (Some (cv_type w)). rewrite E. split_and!; [done| |by exists rv'].
      by eapply Case_payload.
    + rewrite bool_decide_eq_false_2 by (intros []; done).
      exists (KeyMember (vc_member_id case)), None, None. split_and!; [done| |done]. by eapply Case_bare.
  - exists (KeyBuiltin BCNone), None, None. split_and!; [done|constructor|done].
  - destruct (Hview v eq_refl Hv) as (rv' & E & Hc). exists (KeyBuiltin BCSome), (Some rv'), (Some (cv_type v)). cbn [cv_data].
    rewrite E. split_and!; [done|constructor|by exists rv'].
  - destruct (Hview v eq_refl Hv) as (rv' & E & Hc). exists (KeyBuiltin BCOk), (Some rv'), (Some (cv_type v)). cbn [cv_data].
    rewrite E. split_and!; [done|constructor|by exists rv'].
  - destruct (Hview v eq_refl Hv) as (rv' & E & Hc). exists (KeyBuiltin BCErr), (Some rv'), (Some (cv_type v)). cbn [cv_data].
    rewrite E. split_and!; [done|constructor|by exists rv'].
Qed.

(** What an argument of a case is given *)
Definition argument_held (Σ : list TypeExpr) (regs : Registers) (ptype : option TypeExpr) (a : BytecodeSwitchArgument) (t : TypeExpr) : Prop :=
  match a with BSAValue r => register_holds Σ regs r t | BSACasePayload => ptype = Some t end.

Definition payload_held (Σ : list TypeExpr) (ptype : option TypeExpr) (payload : option RuntimeValue) : Prop :=
  match ptype with Some tp => exists rv, payload = Some rv /\ carries Σ rv tp | None => True end.

Lemma arguments_later Σ regs regs' r (move : bool) ptype later ts :
  Forall2 (argument_held Σ regs ptype) later ts ->
  (forall r', regs' !! N.to_nat r' = regs !! N.to_nat r' \/ (move = true /\ r' = r)) -> (move = true -> r ∉ argument_registers later) ->
  Forall2 (argument_held Σ regs' ptype) later ts.
Proof using Type.
  intros H Hm Hn. induction H as [|a t' as' ts' Ht' _ IH]; constructor.
  - destruct a as [r'|]; [|done]. eapply register_holds_same; [|exact Ht'].
    destruct (Hm r') as [?|[Hv ->]]; [done|]. exfalso. apply (Hn Hv). left.
  - apply IH. intros Hv Hin. apply (Hn Hv). destruct a; [by right|done].
Qed.

Lemma switch_values_held limits Σ b ptype arguments :
  forall ts payload rt, Forall2 (argument_held Σ (registers rt) ptype) arguments ts ->
  (BSACasePayload ∈ arguments -> payload_held Σ ptype payload) ->
  quietly rt (fun values rt' => Forall2 (carries Σ) values ts /\ left_at b (registers rt) (registers rt'))
    (switch_values limits (compute (bf_blocks bc)) b payload arguments rt).
Proof using Type.
  induction arguments as [|a later IH]; intros ts payload rt H Hpay; cbn [switch_values].
  - apply Forall2_nil_inv_l in H as ->. split; [done|]. split; [constructor|apply left_at_refl].
  - apply Forall2_cons_inv_l in H as (t & ts' & Ht & Hts & ->).
    eapply (quietly_bind _ _ _ _ (fun _ rt' => registers rt' = registers rt)); [done|apply quietly_charge|]. intros [] rt1 Hq1 E1.
    destruct a as [r|].
    + unfold mbind at 1, Act_bind at 1, mbind at 1, Act_bind at 1. unfold edge_operand.
      pose proof (quietly_operand Σ rt1 r t (bool_decide (r ∉ argument_registers later) && dead_after_terminator (compute (bf_blocks bc)) b r)
        ltac:(by rewrite E1)) as Hq. destruct (on_registers _ rt1) as [[rv|termination|] rt2]; [|done..].
      destruct Hq as (Hq & Hrv & Hl & Hm). cbn [mret Act_ret].
      assert (left_at b (registers rt1) (registers rt2)) as Hleft.
      { split; [done|]. intros r'. destruct (Hm r') as [->|[[_ Hd]%andb_true_iff ->]]; [by left|by right]. }
      rewrite E1 in Hleft.
      eapply (quietly_bind _ _ _ _ _ _ (quiet_trans _ _ _ Hq1 Hq)).
      * apply (IH ts'); [|intros Hin; apply Hpay; by right]. rewrite <- E1 in Hts. eapply arguments_later; [exact Hts|exact Hm|].
        intros [Hn _]%andb_true_iff. by apply bool_decide_eq_true in Hn.
      * intros values rt3 Hq3 [Hvs Hleft']. split; [done|]. split; [by constructor|by eapply left_at_trans].
    + unfold mbind at 1, Act_bind at 1, mbind at 1, Act_bind at 1.
      pose proof (quietly_charge limits false rt1) as Hq. destruct (charge_action _ _ rt1) as [[[]|termination|] rt2]; [|done..].
      destruct Hq as (Hq & E2). unfold payload_held in Hpay. cbn in Ht. rewrite Ht in Hpay.
      destruct (Hpay ltac:(left)) as (rv & -> & Hrv). cbn [mret Act_ret].
      eapply (quietly_bind _ _ _ _ _ _ (quiet_trans _ _ _ Hq1 Hq)).
      * apply (IH ts'); [by rewrite E2, E1|]. intros Hin. rewrite bool_decide_eq_true_2 by done. rewrite Ht. by exists rv.
      * intros values rt3 Hq3 [Hvs Hleft']. split; [done|]. split; [by constructor|]. by rewrite <- E1, <- E2.
Qed.

(** The edge of the case that was selected *)
Definition case_open (Σ : list TypeExpr) (regs : Registers) (c : Config) (ptype : option TypeExpr) (source : SwitchCase) (case : BytecodeSwitchCase) : Prop :=
  exists ts c' blk', Forall2 (argument_held Σ regs ptype) (bse_arguments (bsc_edge case)) ts /\
    enter c (se_target (sc_edge source)) ts = Some c' /\ good c' blk'.

Lemma take_case_moves limits Σ rt b k c bb blk c0 regs0 key payload ptype sources cases :
  point b k c bb blk c0 -> good c blk -> k = length (bb_instructions bb) -> ready Σ regs0 b k c -> left_at b regs0 (registers rt) ->
  Forall2 (emitted_case m) sources cases -> (forall case, case ∈ cases -> N.to_nat (bse_target (bsc_edge case)) ∈ successors (bb_terminator bb)) ->
  key ∈ sc_case_key <$> sources -> payload_held Σ ptype payload ->
  (forall source case, source ∈ sources -> case ∈ cases -> sc_case_key source = key -> emitted_case m source case ->
    case_open Σ (registers rt) c ptype source case) ->
  moves Σ rt (take_case limits (bf_blocks bc) (compute (bf_blocks bc)) key payload b cases rt).
Proof using Hbody.
  intros Hp Hgc Hk Hready Hleft Hem. revert rt Hleft. induction Hem as [|source case sources cases Hc _ IH]; intros rt Hleft Hsucc Hkey Hpay Hopen.
  { by apply elem_of_nil in Hkey. }
  cbn [take_case]. unfold mbind at 1, Act_bind at 1.
  pose proof (quietly_charge limits false rt) as Hq. destruct (charge_action _ _ rt) as [[[]|termination|] rt1]; [|done..].
  destruct Hq as ([Hcells Hblock] & E1). pose proof Hc as (Ekey & Eargs & Eslot). case_bool_decide as Hd.
  - destruct (Hopen source case ltac:(left) ltac:(left) ltac:(congruence) Hc) as (ts & c' & blk' & Hts & Henter & Hgood).
    rewrite <- E1 in Hts.
    pose proof (switch_values_held limits Σ b ptype _ ts payload rt1 Hts ltac:(done)) as He.
    unfold bind_switch_edge, mbind, Act_bind. destruct (switch_values _ _ _ _ _ _) as [[values|termination|] rt2]; [|done..].
    destruct He as ([Hcells2 Hblock2] & Hvalues & Hleft').
    destruct (enter_ready Σ rt2 b k c bb blk c0 regs0 (se_target (sc_edge source)) ts c' blk' (bse_target (bsc_edge case)) values)
      as (bb' & rt' & -> & Hcl & Hb & Hr & Hp'); try done.
    + eapply left_at_trans; [exact Hleft|]. by rewrite <- E1.
    + apply Hsucc. left.
    + split; [congruence|]. exists c', bb', blk'. by rewrite Hb.
  - assert (moves Σ rt1 (take_case limits (bf_blocks bc) (compute (bf_blocks bc)) key payload b cases rt1)) as H.
    { apply IH; [by rewrite E1|intros ? ?; apply Hsucc; by right| |done|].
      - apply elem_of_cons in Hkey as [->|?]; [congruence|done].
      - intros s' c1 Hs Hc1. rewrite E1. apply Hopen; by right. }
    destruct (take_case _ _ _ _ _ _ _ rt1) as [[?|?|] ?]; [|done..]. destruct H as [H1 H2]. split; [congruence|done].
Qed.

(** What the end of a block does *)
Definition dispatched (Σ : list TypeExpr) (rt : Runtime) (result : Halt bool * Runtime) : Prop :=
  match result with
  | (Go false, rt') => cells rt' = cells rt /\ at_start Σ rt'
  | (Go true, rt') => cells rt' = cells rt /\ exists rv, returned rt' = Some rv /\ carries Σ rv (bf_result_type bc)
  | (Stop (ResourceLimit _ | Cancelled | Trap _ _), _) => True
  | _ => False
  end.

Lemma moves_dispatched Σ rt (mm : Act unit) : moves Σ rt (mm rt) -> dispatched Σ rt ((mm ≫= fun _ => mret false : Act bool) rt).
Proof using Type. unfold mbind, Act_bind. destruct (mm rt) as [[[]|[]|] rt']; done. Qed.

Lemma dispatched_from Σ rt rt1 result : cells rt1 = cells rt -> dispatched Σ rt1 result -> dispatched Σ rt result.
Proof using Type. intros E. unfold dispatched. by rewrite E. Qed.

Lemma read_value_held Σ rt r t :
  register_holds Σ (registers rt) r t ->
  exists x, on_registers (read_value r) rt = (Go x, rt) /\ register_typed (li_types root) Σ x t.
Proof using Type.
  intros (rv & x & Hr & Hrv & Ht). exists x. split; [|done]. unfold on_registers, read_value, VmOwned.read, read_register, mbind, ST_bind, lift.
  rewrite Hr. cbn. rewrite (ro_value _ _ Hrv). by destruct rt.
Qed.

Lemma switch_dispatched limits Σ rt b k c bb blk c0 sw r cases :
  point b k c bb blk c0 -> good c blk -> k = length (bb_instructions bb) -> ready Σ (registers rt) b k c -> block rt = b ->
  blk_terminator blk = TermVariantSwitch sw -> bb_terminator bb = BVariantSwitch r cases ->
  refers m (vs_value sw) r -> Forall2 (emitted_case m) (vs_cases sw) cases ->
  (exists t cs, read c (vs_value sw) = Some t /\ expected_switch_cases gi t = Ok cs) ->
  (forall o, leaves c (blk_terminator blk) o -> exists c' blk', o = Some c' /\ good c' blk') ->
  dispatched Σ rt (dispatch_terminator limits (bf_blocks bc) (compute (bf_blocks bc)) (BVariantSwitch r cases) (bf_result_type bc) rt).
Proof using Hbody.
  intros Hp Hgc Hk Hready Hb Hsw Hterm Hr Hcases (t & cs & Hv & Hcs) Hleaves. rewrite Hsw in Hleaves.
  unfold dispatch_terminator. unfold mbind at 1, Act_bind at 1.
  pose proof (quietly_charge limits false rt) as Hq. destruct (charge_action _ _ rt) as [[[]|[]|] rt1]; [|done..].
  destruct Hq as ([Hcells Hblock] & E1). unfold mbind at 1, Act_bind at 1, gets at 1. rewrite Hblock, Hb.
  assert (register_holds Σ (registers rt1) r t) as Hheld.
  { rewrite E1. eapply reads_held; try done. rewrite Hterm. left. }
  set (carried := existsb _ cases). unfold mbind at 1, Act_bind at 1.
  pose proof (quietly_operand Σ rt1 r t (negb carried && dead_after_terminator (compute (bf_blocks bc)) b r) Hheld) as Ho.
  destruct (on_registers _ rt1) as [[rv|[]|] rt2]; [|done..]. destruct Ho as ([Hcells2 Hblock2] & Hrv & Hl & Hm).
  destruct (selected_case_sound _ _ _ _ Hrv Hcs) as (key & payload & ptype & -> & Hcase & Hpay).
  unfold mbind at 1, Act_bind at 1. cbn [attempt].
  apply (dispatched_from _ _ rt2); [congruence|].
  apply (moves_dispatched Σ rt2 (take_case _ _ _ key payload b cases)).
  assert (key ∈ sc_case_key <$> vs_cases sw) as Hkey.
  { apply dec_stable. intros Hn. by destruct (Hleaves _ (Leave_missing _ _ _ _ _ _ _ _ _ Hv Hcase Hn)) as (? & ? & ? & _). }
  apply (take_case_moves limits Σ rt2 b k c bb blk c0 (registers rt) key payload ptype (vs_cases sw)); try done.
  - split; [by rewrite Hl, E1|]. intros r'. rewrite <- E1. destruct (Hm r') as [->|[[_ Hd]%andb_true_iff ->]]; [by left|by right].
  - intros case Hin. rewrite Hterm. cbn [successors]. apply list_elem_of_fmap. by exists case.
  - by destruct ptype.
  - intros source case Hs Hin <- (Ekey & Eargs & _).
    destruct (Hleaves _ (Leave_case _ _ _ _ _ _ _ _ _ _ Hv Hcase Hs eq_refl)) as (c' & blk' & Htake & Hgood).
    unfold CfgSafety.take_case in Htake. apply bind_Some in Htake as (ts & Hts & Henter). exists ts, c', blk'. split; [|done].
    apply mapM_Some in Hts. eapply (arguments_later Σ (registers rt1) _ r (negb carried && dead_after_terminator (compute (bf_blocks bc)) b r));
      [|exact Hm|].
    + assert (forall r', r' ∈ argument_registers (bse_arguments (bsc_edge case)) -> r' ∈ terminator_reads (bb_terminator bb)) as Hreads.
      { intros r' Hr'. rewrite Hterm. right. apply list_elem_of_bind. by exists case. }
      revert Hreads Eargs Hts. clear -Hready Hp Hk E1. generalize (bse_arguments (bsc_edge case)) as bas. generalize (se_arguments (sc_edge source)) as sas.
      intros sas bas Hreads H. revert ts. induction H as [|a ba sas bas Ha _ IH]; intros ts Hts.
      { apply Forall2_nil_inv_l in Hts as ->. constructor. }
      apply Forall2_cons_inv_l in Hts as (ta & ts' & Hta & Hts & ->). constructor.
      * destruct a as [v|], ba as [r'|]; try done. rewrite E1. eapply reads_held; try done. apply Hreads. left.
      * apply IH; [|done]. intros r' Hr'. apply Hreads. destruct ba; [by right|done].
    + intros [Hn _]%andb_true_iff Hc. apply negb_true_iff in Hn. unfold carried in Hn.
      apply eq_true_false_abs in Hn; [done|]. apply existsb_exists. exists case. split; [by apply list_elem_of_In|].
      by apply bool_decide_eq_true.
Qed.

(** The end of a block goes on in a block, returns a value of the result's type, or stops for a limit or a trap. *)
Lemma dispatch_ready limits Σ rt k c bb blk c0 :
  point (block rt) k c bb blk c0 -> bb_instructions bb !! k = None -> ready Σ (registers rt) (block rt) k c ->
  dispatched Σ rt (dispatch_terminator limits (bf_blocks bc) (compute (bf_blocks bc)) (bb_terminator bb) (bf_result_type bc) rt).
Proof using Hbody.
  intros Hp Hend Hready. destruct (point_end _ _ _ _ _ _ Hp Hend) as (Hk & Hgc & Hterm & Hsw & Hleaves).
  pose proof (pt_terminator _ _ _ _ _ _ Hp) as Hem. pose proof (em_result _ _ _ _ (lb_emitted _ _ _ _ Hlowered)) as Hres.
  assert (forall r v t, read c v = Some t -> refers m v r -> r ∈ terminator_reads (bb_terminator bb) -> register_holds Σ (registers rt) r t) as Hheld
    by (intros; by eapply reads_held).
  destruct (bb_terminator bb) as [r|e|r e1 e2|r cases|code payload] eqn:Hbt, (blk_terminator blk) as [v|br|br|sw|tr] eqn:Hblk; try done.
  4: { destruct Hem as [Hr Hcases]. eapply switch_dispatched; try done; [|by rewrite Hblk]. by apply Hsw. }
  all: unfold dispatch_terminator; unfold mbind at 1, Act_bind at 1.
  all: pose proof (quietly_charge limits false rt) as Hq; destruct (charge_action _ _ rt) as [[[]|[]|] rt1]; [|done..].
  all: destruct Hq as ([Hcells Hblock] & E1); unfold mbind at 1, Act_bind at 1, gets at 1; rewrite ?Hblock.
  all: rewrite <- E1 in Hheld, Hready; eapply dispatched_from; [exact Hcells|].
  - destruct (operand_held Σ _ _ _ true (Hheld r _ _ Hterm Hem ltac:(left))) as (rv & x & regs' & E & Hrv & Ht & _).
    cbn [operand] in E. unfold mbind at 1, Act_bind at 1, on_registers. rewrite E. unfold mbind at 1, Act_bind at 1, attempt.
    rewrite (ro_value _ _ Hrv), Hres. rewrite bool_decide_eq_true_2 by apply Ht. cbn [negb].
    destruct (_ <? _); [done|]. cbn. split; [done|]. exists rv. split; [done|]. rewrite Hres. by exists x.
  - apply (moves_dispatched _ _ (bind_edge _ _ _ e _)). eapply bind_edge_moves; try done; [rewrite Hbt; left|by rewrite Hbt|].
    destruct (Hleaves _ (Leave_branch _ _ _ _ _ br)) as (c' & blk' & E & ?). by exists c', blk'.
  - destruct Hem as (Hr & He1 & He2). destruct (read_value_held Σ rt1 _ _ (Hheld r _ _ Hterm Hr ltac:(left))) as (x & E & Hx).
    unfold mbind at 1, Act_bind at 1. rewrite E. apply register_typed_value in Hx; [|done]. apply has_type_bool in Hx as [cond ->].
    cbn [cv_data]. apply (moves_dispatched _ _ (bind_edge _ _ _ (if cond then e1 else e2) _)).
    destruct cond; (eapply bind_edge_moves; try done; [rewrite Hbt; set_solver| |]).
    + rewrite Hbt. cbn. set_solver.
    + destruct (Hleaves _ (Leave_true _ _ _ _ _ br)) as (c' & blk' & E' & ?). by exists c', blk'.
    + rewrite Hbt. cbn. set_solver.
    + destruct (Hleaves _ (Leave_false _ _ _ _ _ br)) as (c' & blk' & E' & ?). by exists c', blk'.
  - destruct Hem as [_ Hem]. cbn [terminator_ready] in Hterm. destruct (trap_payload tr) as [v|], payload as [r|]; try done.
    destruct Hterm as [t Ht]. destruct (read_value_held Σ rt1 _ _ (Hheld r _ _ Ht Hem ltac:(left))) as (x & E & Hx).
    unfold mbind at 1, Act_bind at 1, mbind at 1, Act_bind at 1. rewrite E. cbn. by destruct (_ <? _).
Qed.
End body.
