(* ===== verification/VmFrameStep.v ===== *)
(** * The virtual machine: instructions of accepted code

    One instruction of a frame that is ready (VmFrame), other than a call: either it
    stops for a limit, or its result is in its register and the frame is ready for
    the next one.  The two exceptions are named by [excused]. *)

From S2P Require Import Prelude State Bytes Ids BTree Ssmc Types TypeWalk TypeEnv ConstCheck CfgGraph Cfg CfgSafety Fingerprint ConstEncoding.
From S2P Require Import VmInt VmText VmBridge VmJudge VmExec VmTyped VmMap VmHost VmSound VmAdmission VmBytecode VmLower VmLowering VmLowered.
From S2P Require Import VmValue VmOwned VmOwnedSound VmOwnedMap VmLiveness VmRun VmRunBounds VmInput VmInputSound VmFrame.
Set Warnings "-register-all".

Open Scope N_scope.

(** What a request has to be, besides lowered.  Each field but the last is the work of
    a validator of the request (the type environment, the constant checker, the effect
    validator's inventories) or holds of machine integers.  The last, that the entry
    block of a function has no parameters, is checked nowhere: a graph that breaks it
    is accepted and lowered, and its run may fault. *)
Record program_ok (root : LoweringInput) : Prop := {
  (* the definitions are well formed *)
  pg_definitions : forall id def, li_types root !! id = Some def -> definition_ok (li_types root) def;
  pg_records : forall id def fields, li_types root !! id = Some def -> td_form def = FormRecord fields -> len fields <= 2 ^ 32;
  (* the constants are typed, their maps in canonical order *)
  pg_constants : Forall (fun k => ValueTyped (li_types root) (kd_value k)) (li_constants root);
  (* indices and counts of machine integers *)
  pg_operations : Forall (fun o => immediate_form (op_immediate o) /\ len (op_operands o) < U64_LIMIT) (li_operations root);
  (* identifiers name one entity *)
  pg_parameters : NoDup (prm_entity_id <$> li_parameters root);
  pg_function : forall graph, find_function (li_functions root) (fg_entity_id (li_function root)) = Some graph -> graph = li_function root;
  (* no entry block has parameters *)
  pg_entries : forall graph b, graph = li_function root \/ graph ∈ li_functions root -> b ∈ li_blocks root ->
    blk_function b = fg_entity_id graph -> blk_entity_id b = fg_entry_block graph -> blk_parameters b = []
}.

Lemma value_form env v : (forall id def fields, env !! id = Some def -> td_form def = FormRecord fields -> len fields <= 2 ^ 32) ->
  ValueTyped env v -> operand_form v.
Proof.
  intros Hr H. unfold operand_form. destruct H as [t d L| | |id args def fields values Hd Hf Hv| |k v entries keys _ Hk Hs| | | |]; cbn [cv_data]; try done.
  - destruct t, d; done.
  - specialize (Hr _ _ _ Hd Hf). cbn. apply Forall2_length in Hv. unfold len in *. by rewrite Hv.
  - destruct (canonical_zip _ _ Hk Hs) as (l & -> & _ & Hc). by exists l.
Qed.

Lemma register_form env Σ v t : (forall id def fields, env !! id = Some def -> td_form def = FormRecord fields -> len fields <= 2 ^ 32) ->
  register_typed env Σ v t -> operand_form v.
Proof.
  intros Hr [<- Ht]. destruct (cv_type v) eqn:E; try by eapply value_form.
  destruct Ht as (i & Hi & _). unfold operand_form. by rewrite Hi.
Qed.

Lemma collect_held regs rs values : Forall2 (holds regs) rs values -> collect read_value rs regs = Ok (values, regs).
Proof.
  intros H. induction H as [|r v rs values (rv & Hr & Hrv) _ IH]; [done|]. cbn [collect]. unfold mbind at 1, ST_bind at 1.
  assert (read_value r regs = Ok (v, regs)) as ->.
  { unfold read_value, mbind, ST_bind, VmOwned.read, read_register. rewrite Hr. cbn. by rewrite (ro_value _ _ Hrv). }
  cbn [mbind result_bind]. unfold mbind at 1, ST_bind at 1. by rewrite IH.
Qed.

Lemma read_held rt r v : holds (registers rt) r v -> on_registers (read_value r) rt = (Go v, rt).
Proof.
  intros (rv & Hr & Hrv). unfold on_registers, read_value, VmOwned.read, read_register, mbind, ST_bind, lift. rewrite Hr. cbn.
  rewrite (ro_value _ _ Hrv). by destruct rt.
Qed.

Lemma collected rt rs values :
  Forall2 (holds (registers rt)) rs values -> on_registers (collect read_value rs) rt = (Go values, rt).
Proof. intros H. unfold on_registers. rewrite (collect_held _ _ _ H). by destruct rt. Qed.

Lemma quietly_bridge limits n rt :
  quietly rt (fun _ rt' => registers rt' = registers rt) (charge_bridge_actions limits n rt).
Proof.
  revert rt. induction n as [|n IH]; intros rt; cbn [charge_bridge_actions]; [done|].
  eapply (quietly_bind _ _ _ _ (fun _ rt' => registers rt' = registers rt)); [done|apply quietly_charge|].
  intros [] rt1 Hq1 E1. specialize (IH rt1). destruct (charge_bridge_actions _ _ rt1) as [[[]|t|] rt2]; [|done..].
  destruct IH as [? E2]. split; [by eapply quiet_trans|congruence].
Qed.

Lemma occurs_once (l : list Register) i j r :
  count_occ N.eq_dec l r = 1%nat -> l !! i = Some r -> l !! j = Some r -> i = j.
Proof.
  assert (forall l : list Register, count_occ N.eq_dec l r = O -> forall i, l !! i <> Some r) as H0.
  { clear. intros l Hc i Hi%list_elem_of_lookup_2. apply (count_occ_not_In N.eq_dec) in Hc. by apply Hc, list_elem_of_In. }
  revert i j. induction l as [|x l IH]; intros i j Hc Hi Hj; [done|]. cbn [count_occ] in Hc.
  destruct (N.eq_dec x r) as [->|Hne].
  - injection Hc as Hc. destruct i, j; cbn in Hi, Hj; [done|by apply H0 in Hj|by apply H0 in Hi|by apply H0 in Hi].
  - destruct i, j; cbn in Hi, Hj; [congruence..|]. f_equal. by apply IH.
Qed.

(** A mask of liveness marks operands that occur once. *)
Lemma mask_dead_once blocks b block k i :
  blocks !! b = Some block -> bb_instructions block !! k = Some i -> dead_once (mask (compute blocks) b k) (in_operands i).
Proof.
  intros Hb Hk j j' r [_ Hd]%andb_true_iff Hr Hr'.
  destruct (mask_dead blocks b block k i (N.to_nat j) r Hb Hk Hr) as [Hone _]; [by rewrite N2Nat.id|].
  apply N2Nat.inj. by eapply occurs_once.
Qed.

(** *** The push *)

Lemma push_agrees blake3 sha256 context entry operands t v :
  is_push_identity entry = true -> execute_adapter blake3 sha256 context (ImmEntity entry) operands t = Ok v ->
  exists scope request, operands = [scope; request] /\
    execute_vector_push_owned (ec_adapters context) (ImmEntity entry) scope request t = Ok v.
Proof.
  intros Hp H. unfold execute_adapter in H. rewrite Hp in H. cbn [negb andb] in H.
  apply bind_Ok in H as ([kind carried] & Hr%ok_or_Ok & H).
  assert (exists scope request, operands = [scope; request]) as (scope & request & ->).
  { unfold bridge_execute in H. destruct t; try done. destruct operands as [|scope [|request [|]]]; try done. by exists scope, request. }
  exists scope, request. split; [done|]. pose proof (resolve_push_use_row _ _ _ _ _ _ Hr) as (-> & _).
  unfold execute_vector_push_owned. rewrite Hp, Hr. cbn [ensure ok_or mbind result_bind snd].
  unfold bridge_execute in H. destruct t; try done. by apply bind_Ok in H as (_ & _ & H).
Qed.

Lemma push_units adapters immediate scope request t v :
  execute_vector_push_owned adapters immediate scope request t = Ok v ->
  match cv_data v with
  | DResult (ROk _) => value_weight v = 4 + type_weight t + value_weight scope + value_weight request
  | _ => True
  end.
Proof.
  unfold execute_vector_push_owned. destruct immediate; try done. intros (_ & _ & ([kind carried] & _ & H)%bind_Ok)%bind_Ok.
  unfold bridge_vector_push_owned in H. destruct t as [| | | | | | | | | | | | |ok error| | | | | |]; try done.
  apply bind_Ok in H as (_ & Hg%ensure_Ok & (items & Hi & H)%bind_Ok).
  apply andb_true_iff in Hg as [[[->%bool_decide_eq_true_1 _]%andb_true_iff Hs%bool_decide_eq_true_1]%andb_true_iff _].
  destruct (_ <=? _); injection H as <-; [done|]. cbn [cv_data ok_result].
  unfold sequence_operand in Hi. destruct scope as [ts ds]. cbn [cv_data cv_type] in Hi, Hs. destruct ds; try done. injection Hi as <-.
  cbn [value_weight data_weight ok_result]. rewrite sum_with_app, len_app. cbn [sum_with snd] in Hs |- *. subst ts.
  unfold len. cbn [length type_weight]. lia.
Qed.

Lemma push_saturates t a b n : n = 4 + type_weight t + a + b -> n < U64_MAX ->
  saturating_add (saturating_add (saturating_add 4 (value_units_type t)) a) b = n.
Proof. intros -> H. pose proof (value_units_type_capped t) as ->. unfold saturating_add, capped, U64_MAX in *. lia. Qed.

(** ** The instruction at a point *)

Section executing.
Context (root : LoweringInput) (m : Maps) (bc : BytecodeFunction) (gi : GraphIndex) (entry : nat) (g : Graph).
Hypothesis Hbody : body root m bc gi entry g.
#[local] Abbreviation graph := (gi_function gi).
#[local] Abbreviation read := (CfgSafety.read graph (li_parameters (narrow root graph))).
#[local] Abbreviation point := (point root m bc gi entry g).

Definition next (c : Config) (id : EntityId) (o : Operation) : Config :=
  mkConfig (at_block c) (locals c) (<[id := op_result_types o]> (results c)).

(** What is known of an instruction that is about to run *)
Record executing (Σ : list TypeExpr) (regs : Registers) (b k : nat) (c : Config) (bb : BytecodeBlock) (blk : Block) (c0 : Config)
    (i : Instruction) (id : EntityId) (o : Operation) (r0 : Register) (t : TypeExpr) (ts : list TypeExpr) (values : list ConstValue) : Prop := {
  ex_mapped : mp_operations m !! id = Some (o, in_results i);
  ex_opcode : in_opcode i = Opcode_tag (op_opcode o);
  ex_immediate : in_immediate i = op_immediate o;
  ex_refers : Forall2 (refers m) (op_operands o) (in_operands i);
  ex_in : o ∈ li_operations root;
  ex_results : in_results i = [r0];
  ex_type : register_type bc r0 = Some t;
  ex_judged : judge_extended_operation (judge_context root (fg_entity_id graph)) (op_opcode o) (op_immediate o) ts [t] = Ok t;
  ex_operands : Forall2 (fun r t => register_type bc r = Some t) (in_operands i) ts;
  ex_values : Forall2 (holds regs) (in_operands i) values;
  ex_typed : Forall2 (register_typed (li_types root) Σ) values ts;
  ex_next : point b (S k) (next c id o) bb blk c0;
  ex_only : forall v t', read (next c id o) v = Some t' -> refers m v r0 -> t' = t
}.

Lemma Opcode_tag_inj o o' : Opcode_tag o = Opcode_tag o' -> o = o'.
Proof.
  intros H. apply Opcode_tag_roundtrip in H as H1. rewrite (proj2 (Opcode_tag_roundtrip _ o') eq_refl) in H1. congruence.
Qed.

Lemma executing_at Σ regs b k c bb blk c0 i :
  point b k c bb blk c0 -> bb_instructions bb !! k = Some i -> ready root m bc gi Σ regs b k c ->
  exists id o r0 t ts values, executing Σ regs b k c bb blk c0 i id o r0 t ts values.
Proof using Hbody.
  intros Hp Hi Hready. destruct (point_step _ _ _ _ _ _ Hbody _ _ _ _ _ _ _ Hp Hi) as (id & o & ts & Ho & Hop & Himm & Hrefs & Hts & Hin & Hnext).
  destruct (operands_held _ _ _ _ _ _ _ _ _ _ _ _ _ Hready (pt_code _ _ _ _ _ _ _ _ _ _ _ _ Hp) Hi Hrefs Hts) as (values & Hvals & Hvt).
  destruct (body_instruction _ _ _ _ (by_lowered _ _ _ _ _ _ Hbody) bb i) as (opcode & ts' & r0 & t & Hop' & Hts' & Hres & Hr0 & Hj);
    [eapply list_elem_of_lookup_2, (pt_code _ _ _ _ _ _ _ _ _ _ _ _ Hp)|by eapply list_elem_of_lookup_2|].
  assert (opcode = op_opcode o) as -> by (apply Opcode_tag_inj; congruence).
  assert (ts' = ts) as ->.
  { pose proof (point_typed _ _ _ _ _ _ Hbody _ _ _ _ _ _ Hp) as Hc. apply mapM_Some in Hts. clear -Hbody Hrefs Hts Hts' Hc.
    revert ts ts' Hts Hts'. induction Hrefs as [|v r vs rs Hr _ IH]; intros ts ts' H1 H2.
    - apply Forall2_nil_inv_l in H1 as ->, H2 as ->. done.
    - apply Forall2_cons_inv_l in H1 as (t1 & ts1 & E1 & H1 & ->), H2 as (t2 & ts2 & E2 & H2 & ->). f_equal; [|by apply IH].
      pose proof (read_type _ _ _ _ _ _ Hbody _ _ _ _ Hc E1 Hr). congruence. }
  exists id, o, r0, t, ts, values. split; try done.
  - apply (mo_operation _ _ (lb_maps _ _ _ _ (by_lowered _ _ _ _ _ _ Hbody))) in Ho as (Ho & _). cbn in Ho.
    by apply list_elem_of_filter in Ho as [_ Ho].
  - by rewrite <- Himm.
  - intros v t' Hv Hr. pose proof (read_type _ _ _ _ _ _ Hbody _ _ _ _ (point_typed _ _ _ _ _ _ Hbody _ _ _ _ _ _ Hnext) Hv Hr). congruence.
Qed.

(** The result is written, and the frame is ready for the next instruction. *)
Lemma executing_written Σ Σ' regs regs' regs'' b k c bb blk c0 i id o r0 t ts values rv x :
  executing Σ regs b k c bb blk c0 i id o r0 t ts values -> bb_instructions bb !! k = Some i -> ready root m bc gi Σ regs b k c ->
  after (mask (compute (bf_blocks bc)) b k) (in_operands i) (fun _ => True) regs regs' ->
  Σ `prefix_of` Σ' -> rv_ok rv x -> register_typed (li_types root) Σ' x t -> regs'' = <[N.to_nat r0 := Some rv]> regs' ->
  ready root m bc gi Σ' regs'' b (S k) (next c id o).
Proof using Hbody.
  intros He Hi Hready Ha HΣ Hrv Hx ->.
  pose proof (ready_after _ _ _ _ _ _ _ _ _ _ _ _ _ _ _ Hready (pt_code _ _ _ _ _ _ _ _ _ _ _ _ (ex_next _ _ _ _ _ _ _ _ _ _ _ _ _ _ _ He)) Hi
    (ex_mapped _ _ _ _ _ _ _ _ _ _ _ _ _ _ _ He) (ex_results _ _ _ _ _ _ _ _ _ _ _ _ _ _ _ He) Ha) as Hbut.
  apply (ready_prefix _ _ _ _ _ _ Σ') in Hbut; [|done].
  assert (N.to_nat r0 < length (bf_register_types bc))%nat as Hr
    by (pose proof (ex_type _ _ _ _ _ _ _ _ _ _ _ _ _ _ _ He) as Ht; unfold register_type in Ht; by apply lookup_lt_Some in Ht).
  destruct (ready_write _ _ _ _ _ _ _ _ _ _ t rv x Hbut (ex_only _ _ _ _ _ _ _ _ _ _ _ _ _ _ _ He) Hr Hrv Hx) as (regs2 & Hw & H2).
  rewrite write_register_Ok in Hw; [by injection Hw as <-|]. rewrite (proj1 Hbut). exact Hr.
Qed.
End executing.

Section step.
Context (blake3 sha256 : bytes -> bytes).
Hypothesis Hblake3 : forall b, len (blake3 b) = 32.
Hypothesis Hsha256 : forall b, len (sha256 b) = 32.
Context (limits : ExecutionLimits) (root : LoweringInput) (sole : RuntimeValue -> bool).
Hypothesis Hprogram : program_ok root.
#[local] Abbreviation types := (li_types root).
#[local] Abbreviation context := (execution_context (source_of root)).

(** An instruction about which nothing is said: the codec refuses one of its values, or
    its result would count more units than fit in 64 bits. *)
Definition excused (m : Machine) : Prop :=
  exists found i opcode values r t,
    cu_blocks (ma_current m) !! block (ma_runtime m) = Some found /\ bb_instructions found !! cu_pc (ma_current m) = Some i /\
    in_opcode i = Opcode_tag opcode /\ in_results i = [r] /\ cu_register_types (ma_current m) !! N.to_nat r = Some t /\
    Forall2 (holds (registers (ma_runtime m))) (in_operands i) values /\
    (refused_by_codec blake3 (li_schema_epoch root) opcode values \/
     exists v cells', execute_extended_instruction blake3 sha256 context opcode (in_immediate i) values t (cells (ma_runtime m)) = Ok (v, cells') /\
       U64_MAX <= value_weight v).

Section instruction.
Variable Σ : list TypeExpr.
Variable rt : Runtime.
Variable i : Instruction.
Variable mask : N.
Variable opcode : Opcode.
Variable values : list ConstValue.
Variable t : TypeExpr.
Variable v : ConstValue.
Variable cells' : Cells.
Hypothesis Hdead : dead_once mask (in_operands i).
Hypothesis Hvalues : Forall2 (holds (registers rt)) (in_operands i) values.
Hypothesis Hreference : execute_extended_instruction blake3 sha256 context opcode (in_immediate i) values t (cells rt) = Ok (v, cells').
Hypothesis Hweight : value_weight v < U64_MAX.

(** The value of the instruction, with the registers its dead operands left *)
Definition computes (result : Halt (RuntimeValue * N) * Runtime) : Prop :=
  match result with
  | (Go (rv, _), rt') => block rt' = block rt /\ cells rt' = cells' /\ rv_ok rv v /\
      after mask (in_operands i) (fun _ => True) (registers rt) (registers rt')
  | (Stop termination, _) => limit_stop termination
  | (Broken, _) => False
  end.

Lemma computes_borrowed : computes (execute_borrowed blake3 sha256 limits (source_of root) opcode i t rt).
Proof using Hvalues Hreference Hweight.
  unfold execute_borrowed. pose proof (collected rt _ _ Hvalues) as Hc.
  assert (exists elements, ((if bool_decide (opcode = OpAdapterInvoke)
     then
       operands ← on_registers (collect read_value (in_operands i));
       mret (bridge_fuel_surcharge (es_adapters (source_of root)) (in_immediate i) operands)
     else mret None) : Act (option N)) rt = (Go elements, rt)) as (elements & E).
  { case_bool_decide; [|by eexists]. unfold mbind, Act_bind. rewrite Hc. by eexists. }
  unfold mbind at 1, Act_bind at 1. rewrite E. clear E.
  set (charges := match elements with Some _ => _ | None => _ end).
  assert (quietly rt (fun _ rt' => registers rt' = registers rt) (charges rt)) as Hq by (subst charges; destruct elements; [apply quietly_bridge|done]).
  unfold mbind at 1, Act_bind at 1. destruct (charges rt) as [[[]|t0|] rt1]; [|done..]. destruct Hq as ([Hcells Hblock] & E1).
  assert (Forall2 (holds (registers rt1)) (in_operands i) values) as Hv1 by by rewrite E1.
  unfold mbind at 1, Act_bind at 1. rewrite (collected _ _ _ Hv1). unfold mbind at 1, Act_bind at 1, gets. rewrite Hcells.
  unfold mbind at 1, Act_bind at 1. rewrite Hreference. cbn. split_and!; [done..| |].
  - by apply rv_new_ok.
  - cbn. rewrite E1. apply after_refl.
Qed.

Lemma computes_owned : owns opcode = true -> Forall operand_form values -> immediate_form (in_immediate i) ->
  exists rv regs', owned_execute sole types (constant_index (es_constants (source_of root))) opcode (in_immediate i) mask t (in_operands i)
    (registers rt) = Ok (Some rv, regs') /\ rv_ok rv v /\ after mask (in_operands i) (fun _ => True) (registers rt) regs' /\ cells' = cells rt.
Proof using Hdead Hvalues Hreference Hweight.
  intros Ho Hform Himm.
  pose proof (owned_agrees_extended blake3 sha256 sole context opcode (in_immediate i) mask (in_operands i) values t (registers rt) v
    Hdead Hvalues Hform Himm Hweight (cells rt) cells' Hreference) as H.
  rewrite Ho in H. destruct H as [-> (rv & regs' & E & Hrv & Ha)]. exists rv, regs'. done.
Qed.

Lemma computes_push entry : opcode = OpAdapterInvoke -> in_immediate i = ImmEntity entry -> is_push_identity entry = true ->
  computes ((value ← execute_push limits (source_of root) sole i mask t; mret (value, 0) : Act (RuntimeValue * N)) rt).
Proof using Hdead Hvalues Hreference Hweight.
  intros Ho Himm Hp. rewrite Ho, Himm in Hreference. unfold execute_extended_instruction in Hreference. cbn [execute_pure] in Hreference.
  apply bind_Ok in Hreference as (v' & Hr & [= -> <-]). apply push_agrees in Hr as (scope & request & -> & Hr); [|done].
  apply Forall2_cons_inv_r in Hvalues as (rs & l & Hs & Hl & Eo). apply Forall2_cons_inv_r in Hl as (rq & l' & Hq & ->%Forall2_nil_inv_r & ->).
  pose proof (push_units _ _ _ _ _ _ Hr) as Hu. rewrite Eo in Hdead. unfold computes. rewrite Eo.
  unfold execute_push. rewrite Eo, Himm. unfold mbind at 1, Act_bind at 1. unfold mbind at 1, Act_bind at 1.
  pose proof (quietly_bridge limits (N.to_nat BRIDGE_ELEMENT_FUEL) rt) as Hb.
  destruct (charge_bridge_actions _ _ rt) as [[[]|t0|] rt1]; [|done..]. destruct Hb as ([Hcells Hblock] & E1).
  destruct (operand_ok mask [rs; rq] Hdead (fun _ => False) (registers rt) (registers rt) 1 rq request) as (rvq & regs1 & Hrq & Hokq & Ha1);
    [apply after_refl|done|tauto|done|].
  destruct (operand_ok mask [rs; rq] Hdead (fun j => j = 1 \/ False) (registers rt) regs1 0 rs scope) as (rvs & regs2 & Hrs & Hoks & Ha2);
    [done|done|by intros [?|?]|done|].
  unfold mbind at 1, Act_bind at 1. unfold on_registers at 1. rewrite E1.
  change (N.testbit mask 1) with (dead mask 1). rewrite Hrq. unfold mbind at 1, Act_bind at 1. rewrite (into_value_ok _ _ _ Hokq). cbn [attempt].
  unfold mbind at 1, Act_bind at 1. unfold on_registers at 1. cbn [registers set_registers]. change (N.testbit mask 0) with (dead mask 0). rewrite Hrs.
  unfold mbind at 1, Act_bind at 1. rewrite (into_value_ok _ _ _ Hoks). cbn [attempt]. unfold mbind at 1, Act_bind at 1.
  cbn [source_of es_adapters]. cbn [execution_context source_of ec_adapters es_adapters] in Hr. rewrite Hr. cbn [attempt mret Act_ret].
  split_and!; [exact Hblock|by rewrite <- H0| |by eapply after_any].
  apply with_units_ok; [|done]. assert (value_units_const v = value_weight v) as Hv by by apply units_exact.
  destruct (cv_data v) as [| | | | | | | | | | | | |[w|w]| |] eqn:Hd; try done. clear Hd.
  rewrite (ro_units _ _ Hokq), (ro_units _ _ Hoks).
  by apply push_saturates.
Qed.

(** The whole instruction: the result is written where its dead operands left. *)
Definition stores (r : Register) (result : Halt unit * Runtime) : Prop :=
  match result with
  | (Go _, rt') => block rt' = block rt /\ cells rt' = cells' /\ len cells' < MAX_EXECUTION_CELLS /\
      exists rv regs', rv_ok rv v /\ after mask (in_operands i) (fun _ => True) (registers rt) regs' /\
        registers rt' = <[N.to_nat r := Some rv]> regs'
  | (Stop termination, _) => limit_stop termination
  | (Broken, _) => False
  end.

Lemma stores_result r rv stored rt1 :
  block rt1 = block rt -> cells rt1 = cells' -> rv_ok rv v -> after mask (in_operands i) (fun _ => True) (registers rt) (registers rt1) ->
  (N.to_nat r < length (registers rt))%nat -> stores r (store_result limits r rv stored rt1).
Proof using Type.
  intros Hb Hc Hrv Ha Hr. unfold store_result. unfold mbind at 1, Act_bind at 1, gets. rewrite Hc.
  destruct (N.leb_spec MAX_EXECUTION_CELLS (len cells')); [done|]. unfold mbind at 1, Act_bind at 1, charge_units.
  destruct (charge_value limits _ rt1) as [rt2|] eqn:E; [|done]. unfold charge_value in E. apply bind_Some in E as (next & _ & E).
  destruct (_ <? next); [done|]. injection E as <-. unfold mbind at 1, Act_bind at 1, modify, write, on_registers.
  cbn [registers count_instruction set_value_units]. rewrite write_register_Ok by (destruct Ha as [-> _]; exact Hr). cbn.
  split_and!; [done..|]. exists rv, (registers rt1). done.
Qed.

Lemma stores_extended r register_types :
  in_opcode i = Opcode_tag opcode -> in_results i = [r] -> register_types !! N.to_nat r = Some t -> cv_type v = t ->
  (N.to_nat r < length (registers rt))%nat -> Forall operand_form values -> immediate_form (in_immediate i) ->
  stores r (execute_extended blake3 sha256 limits (source_of root) (constant_index (es_constants (source_of root))) sole i mask register_types rt).
Proof using Hdead Hvalues Hreference Hweight.
  intros Hop Hres Ht Hv Hr Hform Himm. unfold execute_extended.
  rewrite Hop, (proj2 (Opcode_tag_roundtrip _ opcode) eq_refl), Hres. unfold mbind at 1, Act_bind at 1. cbn [ok_or attempt].
  unfold mbind at 1, Act_bind at 1. rewrite Ht. cbn [ok_or attempt]. unfold mbind at 1, Act_bind at 1.
  set (owned_push := bool_decide _ && _). set (produced := if owned_push then _ else _).
  assert (computes (produced rt)) as Hp.
  { subst produced. destruct owned_push eqn:Hpush; subst owned_push.
    - apply andb_true_iff in Hpush as [Ho%bool_decide_eq_true_1 Hpush]. 
      assert (exists entry, in_immediate i = ImmEntity entry /\ is_push_identity entry = true) as (entry & Ei & He)
        by (clear -Hpush; destruct (in_immediate i); try done; by eexists).
      by eapply computes_push.
    - unfold mbind at 1, Act_bind at 1, on_registers at 1. cbn [source_of es_types]. destruct (owns opcode) eqn:Ho.
      + destruct (computes_owned Ho Hform Himm) as (rv & regs' & E & Hrv & Ha & Hc). cbn [source_of es_constants] in E |- *.
        rewrite E. cbn. split_and!; [done|by symmetry|done|exact Ha].
      + assert (owned_execute sole types (constant_index (li_constants root)) opcode (in_immediate i) mask t (in_operands i) (registers rt)
          = Ok (None, registers rt)) as E by exact (defers sole context opcode (in_immediate i) mask (in_operands i) t (registers rt) Ho).
        cbn [source_of es_constants]. rewrite E. replace (set_registers (registers rt) rt) with rt by by destruct rt. apply computes_borrowed. }
  destruct (produced rt) as [[[rv stored]|t0|] rt1]; [|done..]. destruct Hp as (Hb & Hc & Hrv & Ha).
  unfold mbind at 1, Act_bind at 1. rewrite (ro_value _ _ Hrv). cbn [attempt]. rewrite bool_decide_eq_true_2 by done.
  by apply stores_result.
Qed.
End instruction.

Lemma constants_read immediate opcode f : constant_read_typed (judge_context root f) immediate opcode.
Proof using Hprogram.
  intros v Hv. pose proof (pg_constants _ Hprogram) as Hc. rewrite Forall_forall in Hc. cbn in Hv |- *.
  assert (exists k, k ∈ li_constants root /\ kd_value k = v) as (k & Hk & <-); [|by apply Hc].
  unfold referenced_constant in Hv. destruct opcode, immediate; try done.
  - apply fmap_Some in Hv as (k & [Hk _]%find_first_Some & ->). by exists k.
  - apply fmap_Some in Hv as ([g k] & Hg & ->). unfold global_initializer in Hg.
    apply bind_Some in Hg as (? & _ & (k' & [Hk _]%find_first_Some & Hg)%bind_Some). case_bool_decide; simplify_eq. by exists k.
Qed.

(** A frame of [bc] at a point where it is ready *)
Definition frame_ready (m : Maps) (bc : BytecodeFunction) (gi : GraphIndex) (entry : nat) (g : Graph) (Σ : list TypeExpr)
    (regs : Registers) (b k : nat) : Prop :=
  exists c bb blk c0, point root m bc gi entry g b k c bb blk c0 /\ ready root m bc gi Σ regs b k c.

Definition cells_ok (Σ : list TypeExpr) (held : Cells) : Prop := cells_typed types Σ held /\ len held < MAX_EXECUTION_CELLS.

Lemma instruction_ready m bc gi entry g Σ rt k found i current stack :
  body root m bc gi entry g -> cells_ok Σ (cells rt) -> bf_blocks bc !! block rt = Some found -> bb_instructions found !! k = Some i ->
  in_opcode i <> Opcode_tag OpCallDirect -> in_opcode i <> Opcode_tag OpContractAssert ->
  frame_ready m bc gi entry g Σ (registers rt) (block rt) k ->
  cu_blocks current = bf_blocks bc -> cu_pc current = k -> cu_register_types current = bf_register_types bc ->
  excused (mkMachine rt stack current) \/
  match execute_extended blake3 sha256 limits (source_of root) (constant_index (es_constants (source_of root))) sole i
      (mask (compute (bf_blocks bc)) (block rt) k) (bf_register_types bc) rt with
  | (Go _, rt') => block rt' = block rt /\ exists Σ', Σ `prefix_of` Σ' /\ cells_ok Σ' (cells rt') /\
      frame_ready m bc gi entry g Σ' (registers rt') (block rt) (S k)
  | (Stop termination, _) => limit_stop termination
  | (Broken, _) => False
  end.
Proof using Hblake3 Hsha256 Hprogram.
  intros Hbody [Hcells Hlen] Hfound Hi Hcall Hassert (c & bb & blk & c0 & Hp & Hready) Hcb Hpc Hct.
  assert (bb = found) as -> by (pose proof (pt_code _ _ _ _ _ _ _ _ _ _ _ _ Hp); congruence).
  destruct (executing_at _ _ _ _ _ _ Hbody _ _ _ _ _ _ _ _ _ Hp Hi Hready) as (id & o & r0 & t & ts & values & He).
  pose proof He as [Hmapped Hop Himm Hrefs Hin Hres Hr0 Hj _ Hvalues Htyped Hnext Honly].
  pose proof (pg_operations _ Hprogram) as Hops. rewrite Forall_forall in Hops. destruct (Hops _ Hin) as [Hform Hcount].
  assert (len values < U64_LIMIT) as Hlv.
  { unfold len. rewrite <- (Forall2_length _ _ _ Hvalues).
    rewrite <- (Forall2_length _ _ _ Hrefs). exact Hcount. }
  assert (op_opcode o <> OpCallDirect /\ op_opcode o <> OpContractAssert) as [Hc1 Hc2] by (split; intros E; rewrite E in Hop; done).
  assert (len (cells rt) < U64_LIMIT) as Hlc by (unfold MAX_EXECUTION_CELLS, U64_LIMIT in *; lia).
  assert (Forall operand_form values) as Hforms.
  { apply Forall_forall. intros x [j Hx]%list_elem_of_lookup_1. destruct (Forall2_lookup_l _ _ _ _ _ Htyped Hx) as (w & _ & Hw).
    eapply register_form; [apply (pg_records _ Hprogram)|exact Hw]. }
  assert (forall P, P -> (excused (mkMachine rt stack current) \/ P)) as Hright by (intros; by right).
  assert (refused_by_codec blake3 (li_schema_epoch root) (op_opcode o) values \/
     (exists v cells', execute_extended_instruction blake3 sha256 context (op_opcode o) (in_immediate i) values t (cells rt) = Ok (v, cells') /\
       U64_MAX <= value_weight v) -> excused (mkMachine rt stack current)) as Hexcused.
  { intros H. exists found, i, (op_opcode o), values, r0, t. cbn [ma_current ma_runtime]. rewrite Hcb, Hpc, Hct. by split_and!. }
  pose proof (operation_sound blake3 sha256 Hblake3 Hsha256 (judge_context root (fg_entity_id (gi_function gi))) (li_schema_epoch root)
    (pg_definitions _ Hprogram) (op_opcode o) (op_immediate o) values ts [t] t Σ (cells rt) (constants_read _ _ _) Hj Hc1 Hc2 Htyped Hcells Hlv Hlc) as Hs.
  destruct Hs as [(v & cells' & Σ' & Hrun & HΣ & Hcells' & Hv)|[_ Hrefused]]; [|by left; apply Hexcused; left].
  change (run_context (judge_context root (fg_entity_id (gi_function gi))) (li_schema_epoch root)) with context in Hrun. rewrite <- Himm in Hrun.
  destruct (N.lt_ge_cases (value_weight v) U64_MAX) as [Hw|Hw]; [|by left; apply Hexcused; right; exists v, cells'].
  apply Hright.
  assert (N.to_nat r0 < length (registers rt))%nat as Hbound.
  { rewrite (proj1 Hready). unfold register_type in Hr0. by apply lookup_lt_Some in Hr0. }
  rewrite <- Himm in Hform.
  pose proof (stores_extended rt i (mask (compute (bf_blocks bc)) (block rt) k) (op_opcode o) values t v cells'
    (mask_dead_once _ _ _ _ _ Hfound Hi) Hvalues Hrun Hw r0 (bf_register_types bc) Hop Hres Hr0 (proj1 Hv) Hbound Hforms Hform) as Hst.
  destruct (execute_extended _ _ _ _ _ _ _ _ _ rt) as [[[]|t0|] rt']; [|done..].
  destruct Hst as (Hb & Hc & Hl & rv & regs' & Hrv & Ha & Eregs). split; [done|]. exists Σ'. split; [done|]. rewrite Hc. split; [done|].
  exists (next c id o), found, blk, c0. split; [done|]. by eapply executing_written.
Qed.
End step.
