(* ===== verification/VmFrameCall.v ===== *)
(** * The virtual machine: calls of accepted code

    The functions of a lowered program, the frame a call opens with its arguments,
    and the frames that wait for their callees. *)

From S2P Require Import Prelude State Bytes Ids BTree Ssmc Types TypeWalk TypeEnv ConstCheck CfgGraph Cfg CfgSafety Fingerprint ConstEncoding.
From S2P Require Import VmInt VmText VmBridge VmJudge VmExec VmTyped VmMap VmHost VmSound VmAdmission VmBytecode VmLower VmLowering VmLowered.
From S2P Require Import VmValue VmOwned VmOwnedSound VmOwnedMap VmLiveness VmRun VmRunBounds VmInput VmInputSound VmFrame VmFrameStep.
Set Warnings "-register-all".

Open Scope N_scope.

Lemma find_unique {A} (key : A -> EntityId) l x id :
  NoDup (key <$> l) -> x ∈ l -> key x = id -> find_first (fun y => key y =? id) l = Some x.
Proof.
  intros Hnd Hx <-. destruct (find_first _ _) as [y|] eqn:E.
  - apply find_first_Some in E as [Hy Heq%N.eqb_eq]. apply list_elem_of_lookup in Hy as [a Ha], Hx as [b Hb].
    assert (a = b) as -> by (eapply (NoDup_lookup _ _ _ (key y) Hnd); rewrite list_lookup_fmap; [by rewrite Ha|rewrite Hb; cbn; congruence]).
    congruence.
  - rewrite find_first_None in E. specialize (E _ Hx). cbn in E. by rewrite N.eqb_refl in E.
Qed.

(** ** The table of callees *)

Definition add_callee (index : gmap N nat) (entry : nat * BytecodeFunction) : gmap N nat :=
  let '(position, callee) := entry in
  match index !! bf_function callee with
  | Some _ => index
  | None => <[bf_function callee := S position]> index
  end.

Lemma index_spec f : forall (entries : list (nat * BytecodeFunction)) (index : gmap N nat),
  foldl add_callee index entries !! f =
  match index !! f with
  | Some p => Some p
  | None => (fun e => S (fst e)) <$> find_first (fun e => bf_function (snd e) =? f) entries
  end.
Proof.
  induction entries as [|[position callee] entries IH]; intros index; cbn [foldl find_first]; [by destruct (index !! f)|].
  rewrite IH. cbn [add_callee fst snd]. destruct (N.eqb_spec (bf_function callee) f) as [->|Hne].
  - destruct (index !! f) as [p|] eqn:E; [by rewrite E|]. by rewrite lookup_insert_eq.
  - destruct (index !! bf_function callee); [done|]. by rewrite lookup_insert_ne.
Qed.

Lemma callee_index_spec lf f :
  callee_index lf !! f = (fun e => S (fst e)) <$> find_first (fun e => bf_function (snd e) =? f) (imap pair (lf_callees lf)).
Proof. unfold callee_index. pose proof (index_spec f (imap pair (lf_callees lf)) ∅) as H. by rewrite lookup_empty in H. Qed.

Lemma find_body_callee lf f :
  f ∈ bf_function <$> lf_callees lf ->
  exists bc p, find_body lf f = Some (bc, S p) /\ lf_callees lf !! p = Some bc /\ bf_function bc = f.
Proof.
  intros (bc & -> & Hbc)%list_elem_of_fmap. unfold find_body. rewrite callee_index_spec.
  destruct (find_first _ _) as [[p bc']|] eqn:E.
  - apply find_first_Some in E as [Hin Heq%N.eqb_eq]. cbn [fst snd] in *. apply list_elem_of_lookup in Hin as [j Hj].
    rewrite list_lookup_imap in Hj. apply fmap_Some in Hj as (x & Hx & [= -> ->]).
    cbn [fmap option_fmap option_map mbind option_bind fst]. rewrite Nat.sub_succ, Nat.sub_0_r, Hx. by exists x, j.
  - exfalso. rewrite find_first_None in E. apply list_elem_of_lookup in Hbc as [j Hj]. specialize (E (j, bc)). cbn in E.
    rewrite N.eqb_refl in E. discriminate E. apply list_elem_of_lookup. exists j. by rewrite list_lookup_imap, Hj.
Qed.

Lemma find_body_entry lf f :
  f ∉ bf_function <$> lf_callees lf -> bf_function (lf_bytecode lf) = f -> find_body lf f = Some (lf_bytecode lf, O).
Proof.
  intros Hn <-. unfold find_body. rewrite callee_index_spec. destruct (find_first _ _) as [[p bc']|] eqn:E; [|by cbn; rewrite N.eqb_refl].
  exfalso. apply find_first_Some in E as [Hin Heq%N.eqb_eq]. cbn [snd] in *. apply Hn. apply list_elem_of_lookup in Hin as [j Hj].
  rewrite list_lookup_imap in Hj. apply fmap_Some in Hj as (x & Hx & [= -> ->]). rewrite <- Heq. apply list_elem_of_fmap_2. by eapply list_elem_of_lookup_2.
Qed.

(** ** The functions of a program *)

Section program.
Context (blake3 : bytes -> bytes) (root : LoweringInput) (lf : LoweredFunction).
Hypothesis Hext : is_extended (li_profile root) = true.
Hypothesis Hlower : lower_function blake3 root = Ok lf.
Hypothesis Hprogram : program_ok root.

(** The code at an index of the program, 0 for the entry, with the function it was lowered from *)
Definition program_body (func : nat) (bc : BytecodeFunction) (graph : FunctionGraph) : Prop :=
  match func with
  | O => bc = lf_bytecode lf /\ graph = li_function root
  | S p => lf_callees lf !! p = Some bc /\ find_function (li_functions root) (bf_function bc) = Some graph
  end.

Lemma program_lowered func bc graph : program_body func bc graph -> exists m, lowered_body root graph m bc.
Proof using Hext Hlower.
  destruct func as [|p]; intros [H1 H2].
  - subst bc graph. by eapply lowered_entry.
  - apply list_elem_of_lookup_2 in H1. destruct (callee_body _ _ _ _ Hext Hlower H1) as (graph' & m & Hg & Hm). exists m. congruence.
Qed.

Lemma program_graph func bc graph : program_body func bc graph -> graph = li_function root \/ graph ∈ li_functions root.
Proof using Type. destruct func as [|p]; intros [H1 H2]; [by left|right]. by apply find_function_Some in H2 as [? _]. Qed.

Lemma live_of_body func bc graph : program_body func bc graph -> live_of lf func = compute (bf_blocks bc).
Proof using Type.
  unfold live_of, livenesses. destruct func as [|p]; intros [H1 _]; [by subst|].
  rewrite lookup_cons, list_lookup_fmap, H1. done.
Qed.

Lemma called_body func caller graph' f graph :
  program_body func caller graph' -> f ∈ called_functions (li_contracts root) caller -> find_function (li_functions root) f = Some graph ->
  exists bc func', find_body lf f = Some (bc, func') /\ program_body func' bc graph.
Proof using Hext Hlower Hprogram.
  intros Hcaller Hf Hgraph. destruct (lowered_callees _ _ _ Hext Hlower) as (done & Hvalues & Hok).
  pose proof (table_functions _ _ _ _ Hok) as Hids. rewrite <- Hvalues in Hids.
  assert (f = fg_entity_id (li_function root) \/ is_Some (done !! f)) as Hwhere.
  { destruct func as [|p]; destruct Hcaller as [H1 H2].
    - subst caller. destruct (po_entry _ _ _ _ Hok _ Hf) as [?|[?|?%elem_of_nil]]; [by left|by right|done].
    - apply list_elem_of_lookup_2 in H1. rewrite Hvalues in H1. apply elem_of_btree_values in H1 as [h Hh].
      destruct (po_closed _ _ _ _ Hok _ _ _ Hh Hf) as [?|[?|?%elem_of_nil]]; [by left|by right|done]. }
  destruct (decide (f ∈ bf_function <$> lf_callees lf)) as [Hin|Hn].
  - destruct (find_body_callee _ _ Hin) as (bc & p & E & Hp & Hid). exists bc, (S p). split; [done|]. split; [done|]. by rewrite Hid.
  - destruct Hwhere as [->|Hd].
    + exists (lf_bytecode lf), O. split.
      * apply find_body_entry; [done|]. destruct (lowered_entry _ _ _ Hext Hlower) as [m Hm].
        by rewrite (em_function _ _ _ _ (lb_emitted _ _ _ _ Hm)).
      * split; [done|]. by apply (pg_function _ Hprogram).
    + exfalso. apply Hn. rewrite Hids. by apply elem_of_btree_keys.
Qed.

(** What an instruction enters is among the functions its code calls. *)
Lemma instruction_calls bc b k found i f :
  bf_blocks bc !! b = Some found -> bb_instructions found !! k = Some i -> called_by (li_contracts root) i = Some f ->
  f ∈ called_functions (li_contracts root) bc.
Proof using Type.
  intros Hb Hk Hf. unfold called_functions. apply list_elem_of_omap. exists i. split; [|done].
  apply list_elem_of_bind. exists found. split; by eapply list_elem_of_lookup_2.
Qed.

(** The parameters of a body, in its code and in its inventory *)
Lemma body_parameter_types graph m bc :
  lowered_body root graph m bc ->
  Forall2 (fun id register =>
    (prm_value_type <$> find_first (fun candidate => prm_entity_id candidate =? id) (li_parameters root)) = register_type bc register)
    (fg_parameters graph) (bf_parameter_registers bc).
Proof using Hprogram.
  intros [_ _ Hmaps Hps _ _ Hem]. unfold register_type. rewrite (em_parameters _ _ _ _ Hem), (em_types _ _ _ _ Hem).
  eapply Forall2_impl; [exact Hps|].
  intros id r [p Hp]. apply (mo_parameter _ _ Hmaps) in Hp as (Hin & Hid & ->).
  assert (p ∈ li_parameters root) as Hin' by (by apply list_elem_of_filter in Hin as [_ ?]).
  by rewrite (find_unique prm_entity_id _ _ _ (pg_parameters _ Hprogram) Hin' Hid).
Qed.

(** The signature a call is judged on is that of the code it enters. *)
Lemma signature_parameters context f graph m bc ps t effects :
  lc_functions context = li_functions root -> lc_parameters context = li_parameters root ->
  find_function (li_functions root) f = Some graph -> lowered_body root graph m bc ->
  function_signature context f = Ok (ps, t, effects) ->
  t = bf_result_type bc /\ Forall2 (fun t r => register_type bc r = Some t) ps (bf_parameter_registers bc).
Proof using Hprogram.
  intros Hfs Hps Hf Hbody H. unfold function_signature in H. rewrite Hfs, Hps in H. unfold find_function in Hf. rewrite Hf in H.
  apply bind_Ok in H as (graph' & Hg%ok_or_Ok & H). cbn [mbind option_bind] in Hg. destruct (fg_type_parameters graph); [|done]. injection Hg as <-.
  apply bind_Ok in H as (ps' & Hps' & [= <- <- <-]). split; [by rewrite (em_result _ _ _ _ (lb_emitted _ _ _ _ Hbody))|].
  apply map_res_Ok in Hps'. pose proof (body_parameter_types _ _ _ Hbody) as Hb.
  apply Forall2_same_length_lookup_2; [by rewrite <- (Forall2_length _ _ _ Hps'), (Forall2_length _ _ _ Hb)|].
  intros j t r Ht Hr. destruct (Forall2_lookup_r _ _ _ _ _ Hps' Ht) as (id & Hid & Hp). cbv beta in Hp.
  apply bind_Ok in Hp as (p & Hp%ok_or_Ok & [= <-]). pose proof (Forall2_lookup_lr _ _ _ _ _ _ Hb Hid Hr) as Hj. cbv beta in Hj.
  rewrite Hp in Hj. done.
Qed.
End program.

(** ** The arguments of a call *)

Section arguments.
Variable limits : ExecutionLimits.
Variable mask : N.
Variable operands : list Register.
Hypothesis Hdead : dead_once mask operands.
Variable regs0 : Registers.
#[local] Abbreviation after := (after mask operands).

(** [rt] is the caller's runtime after the call took its operands, and [child'] the callee's. *)
Definition bound (rt child : Runtime) (params : list Register) (values : list ConstValue) (result : Halt Runtime * Runtime) : Prop :=
  match result with
  | (Go child', rt') =>
      quiet rt rt' /\ after (fun _ => True) regs0 (registers rt') /\
      block child' = block child /\ cells child' = cells child /\ length (registers child') = length (registers child) /\
      (forall r, r ∉ params -> registers child' !! N.to_nat r = registers child !! N.to_nat r) /\
      Forall2 (holds (registers child')) params values
  | (Stop termination, _) => limit_stop termination
  | (Broken, _) => False
  end.

Lemma charge_value_same amount rt rt' :
  charge_value limits amount rt = Some rt' ->
  registers rt' = registers rt /\ block rt' = block rt /\ cells rt' = cells rt /\ returned rt' = returned rt.
Proof using Type.
  unfold charge_value. intros (next & _ & H)%bind_Some. destruct (_ <? next); [done|]. injection H as <-. done.
Qed.

Lemma bind_operands_ok : forall ops params values gone child rt,
  operands = gone ++ ops -> length ops = length params -> Forall2 (holds regs0) ops values ->
  after (fun j => j < len gone) regs0 (registers rt) ->
  NoDup params -> Forall (fun p => (N.to_nat p < length (registers child))%nat) params ->
  bound rt child params values (bind_operands limits mask child (enumerate_from (len gone) (zip ops params)) rt).
Proof using Hdead.
  induction ops as [|r ops IH]; intros [|p params] values gone child rt Hops Hl Hv Ha Hnd Hb; try discriminate Hl.
  - apply Forall2_nil_inv_l in Hv as ->. cbn. split_and!; [done|by eapply after_any|done..|constructor].
  - apply Forall2_cons_inv_l in Hv as (v & vs & Hv & Hvs & ->). injection Hl as Hl. apply NoDup_cons in Hnd as [Hnp Hnd].
    apply Forall_cons in Hb as [Hp Hb]. cbn [zip zip_with enumerate_from bind_operands].
    destruct (operand_ok mask operands Hdead (fun j => j < len gone) regs0 (registers rt) (len gone) r v)
      as (rv & regs1 & E & Hrv & Ha1); [done|by unfold len; rewrite Nat2N.id, Hops, list_lookup_middle|lia|done|].
    unfold mbind at 1, Act_bind at 1, on_registers at 1. rewrite E.
    destruct (charge_value limits (rv_units rv) child) as [child1|] eqn:Hcharge; [|done].
    apply charge_value_same in Hcharge as (Hr1 & Hb1 & Hc1 & _).
    unfold mbind at 1, Act_bind at 1. rewrite Hr1, (write_register_Ok _ _ _ Hp). cbn [attempt].
    set (child2 := set_registers (<[N.to_nat p := Some rv]> (registers child)) child1).
    specialize (IH params vs (gone ++ [r]) child2 (set_registers regs1 rt)). rewrite len_app in IH.
    change (len gone + len [r]) with (len gone + 1) in IH. unfold bound in IH |- *.
    destruct (bind_operands limits mask child2 _ _) as [[child'|t|] rt'].
    + destruct IH as ([Hq1 Hq2] & Hafter & Hb' & Hc' & Hl' & Hsame & Hheld); try done.
      * by rewrite <- app_assoc.
      * eapply after_weaken; [|exact Ha1]. intros j [->|?]; lia.
      * eapply Forall_impl; [exact Hb|]. intros q. subst child2. cbn. by rewrite length_insert.
      * subst child2. cbn in *. rewrite length_insert in Hl'. split_and!; try congruence; [done| |].
        -- intros q Hq. apply not_elem_of_cons in Hq as [Hne Hq]. rewrite (Hsame _ Hq). apply list_lookup_insert_ne. intros Eq. apply Hne. lia.
        -- constructor; [|done]. exists rv. split; [|done]. rewrite (Hsame _ Hnp). by apply list_lookup_insert_eq.
    + apply IH; try done; [by rewrite <- app_assoc|eapply after_weaken; [|exact Ha1]; intros j [->|?]; lia|].
      eapply Forall_impl; [exact Hb|]. intros q. subst child2. cbn. by rewrite length_insert.
    + apply IH; try done; [by rewrite <- app_assoc|eapply after_weaken; [|exact Ha1]; intros j [->|?]; lia|].
      eapply Forall_impl; [exact Hb|]. intros q. subst child2. cbn. by rewrite length_insert.
Qed.
End arguments.

(** ** A frame at its entry *)

Section entered.
Context (root : LoweringInput).
Hypothesis Hprogram : program_ok root.

Lemma frame_at_entry Σ graph m bc regs ts values :
  lowered_body root graph m bc -> graph = li_function root \/ graph ∈ li_functions root ->
  length regs = length (bf_register_types bc) ->
  Forall2 (holds regs) (bf_parameter_registers bc) values -> Forall2 (register_typed (li_types root) Σ) values ts ->
  Forall2 (fun t r => register_type bc r = Some t) ts (bf_parameter_registers bc) ->
  exists gi entry g, gi_function gi = graph /\ body root m bc gi entry g /\
    frame_ready root m bc gi entry g Σ regs (N.to_nat (bf_entry_block bc)) 0.
Proof using Hprogram.
  intros Hlb Hgraph Hlen Hheld Htyped Htypes. destruct (lowered_body_checked _ _ _ _ Hlb) as (gi & entry & g & Hbody & Eg).
  exists gi, entry, g. split; [done|]. split; [done|]. subst graph.
  destruct (initial_good gi (li_blocks (narrow root (gi_function gi))) entry g) as [blk Hgood];
    [apply (by_inventory _ _ _ _ _ _ Hbody)|apply (by_flow _ _ _ _ _ _ Hbody)|apply (by_blocks _ _ _ _ _ _ Hbody)| |].
  { intros b Hb. rewrite (lookup_by_indexed _ _ _ _ (by_blocks _ _ _ _ _ _ Hbody)) in Hb.
    apply (by_blocks _ _ _ _ _ _ Hbody) in Hb as [Hin Hid]. apply narrow_block in Hin as [Hf Hin].
    by eapply (pg_entries _ Hprogram). }
  destruct (enter_point _ _ _ _ _ _ Hbody _ _ Hgood) as (b & bb & Hp).
  assert (b = N.to_nat (bf_entry_block bc)) as <-.
  { eapply NoDup_lookup; [apply (do_blocks _ _ (body_once _ _ _ _ Hlb))|exact (pt_block _ _ _ _ _ _ _ _ _ _ _ _ Hp)|].
    apply (body_slot _ _ _ _ Hlb), (em_entry _ _ _ _ (lb_emitted _ _ _ _ Hlb)). }
  exists (initial (gi_function gi)), bb, blk, (initial (gi_function gi)). split; [done|]. split; [done|].
  intros v t r Hv Hr _ _. pose proof (read_type _ _ _ _ _ _ Hbody _ _ _ _ (good_typed _ _ _ _ _ Hgood) Hv Hr) as Hrt.
  destruct v as [id|res]; [|by cbn in Hv; rewrite lookup_empty in Hv]. cbn in Hv. rewrite lookup_empty in Hv.
  unfold function_parameter in Hv. case_decide as Hin; [|done]. apply list_elem_of_lookup in Hin as [j Hj].
  pose proof (lb_parameters _ _ _ _ Hlb) as Hps. rewrite <- (em_parameters _ _ _ _ (lb_emitted _ _ _ _ Hlb)) in Hps.
  destruct (Forall2_lookup_l _ _ _ _ _ Hps Hj) as (r' & Hr' & Hn%numbered_refers_one).
  assert (r' = r) as -> by (unfold refers in *; congruence).
  destruct (Forall2_lookup_l _ _ _ _ _ Hheld Hr') as (x & Hx & rv & Hrv & Hok).
  destruct (Forall2_lookup_l _ _ _ _ _ Htyped Hx) as (t' & Ht' & Hxt).
  pose proof (Forall2_lookup_lr _ _ _ _ _ _ Htypes Ht' Hr') as Ht2. cbv beta in Ht2.
  exists rv, x. split_and!; [done..|]. congruence.
Qed.
End entered.

(** ** Frames that run and frames that wait *)

Section frames.
Context (blake3 : bytes -> bytes) (root : LoweringInput) (lf : LoweredFunction) (limits : ExecutionLimits).
Hypothesis Hext : is_extended (li_profile root) = true.
Hypothesis Hlower : lower_function blake3 root = Ok lf.
Hypothesis Hprogram : program_ok root.

Record current_ok (cu : Current) (bc : BytecodeFunction) (graph : FunctionGraph) : Prop := {
  cr_body : program_body root lf (cu_func cu) bc graph;
  cr_blocks : cu_blocks cu = bf_blocks bc;
  cr_result : cu_result_type cu = bf_result_type bc;
  cr_registers : cu_register_types cu = bf_register_types bc
}.

(** The frame at a code position is ready. *)
Definition running (Σ : list TypeExpr) (regs : Registers) (b : nat) (cu : Current) : Prop :=
  exists bc m gi entry g, current_ok cu bc (gi_function gi) /\ body root m bc gi entry g /\
    frame_ready root m bc gi entry g Σ regs b (cu_pc cu).

(** What the caller makes of a value of type [returned] *)
Definition shape_type (shape : ReturnShape) (returned t : TypeExpr) : Prop :=
  match shape with
  | Direct => t = returned
  | ContractAssertion => returned = TBool /\ t = contract_assert_result
  end.

(** A suspended frame is ready but for the register of its result. *)
Definition waiting (Σ : list TypeExpr) (parent : Suspended) (tc : TypeExpr) : Prop :=
  let r0 := su_result_register parent in
  let b := block (su_runtime parent) in
  let k := cu_pc (su_current parent) in
  exists bc m gi entry g t, current_ok (su_current parent) bc (gi_function gi) /\ body root m bc gi entry g /\
    shape_type (su_shape parent) tc t /\ (N.to_nat r0 < length (bf_register_types bc))%nat /\
    exists c bb blk c0, point root m bc gi entry g b k c bb blk c0 /\
      ready_but root m bc gi (fun r => r = r0) Σ (registers (su_runtime parent)) b k c /\
      forall v t', CfgSafety.read (gi_function gi) (li_parameters (narrow root (gi_function gi))) c v = Some t' -> refers m v r0 -> t' = t.

Definition opens (Σ : list TypeExpr) (rt : Runtime) (cu : Current) (result : Halt (Runtime * Current * Register * ReturnShape) * Runtime) : Prop :=
  match result with
  | (Go (child, callee, r0, shape), rt') =>
      running Σ (registers child) (block child) callee /\ cells child = cells rt /\
      waiting Σ (mkSuspended rt' (advance cu) r0 shape) (cu_result_type callee)
  | (Stop termination, _) => limit_stop termination
  | (Broken, _) => False
  end.

Lemma prepare_frame_opens m bc gi entry g Σ rt cu frames shape f graphf c found blk c0 i id o r0 t ts values :
  current_ok cu bc (gi_function gi) -> body root m bc gi entry g ->
  ready root m bc gi Σ (registers rt) (block rt) (cu_pc cu) c -> bb_instructions found !! cu_pc cu = Some i ->
  executing root m bc gi entry g Σ (registers rt) (block rt) (cu_pc cu) c found blk c0 i id o r0 t ts values ->
  f ∈ called_functions (li_contracts root) bc -> find_function (li_functions root) f = Some graphf ->
  (forall mf bf, lowered_body root graphf mf bf -> shape_type shape (bf_result_type bf) t /\
    Forall2 (fun t r => register_type bf r = Some t) ts (bf_parameter_registers bf)) ->
  opens Σ rt cu (prepare_frame limits lf i (cu_register_types cu) frames f shape (mask (compute (bf_blocks bc)) (block rt) (cu_pc cu)) rt).
Proof using Hext Hlower Hprogram.
  intros Hcu Hbody Hready Hi He Hf Hgraph Hsig.
  pose proof He as [_ _ _ _ _ Hres Hr0 _ _ Hvalues Htyped Hnext Honly]. pose proof (pt_code _ _ _ _ _ _ _ _ _ _ _ _ Hnext) as Hfound.
  destruct (called_body _ _ _ Hext Hlower Hprogram _ _ _ _ _ (cr_body _ _ _ Hcu) Hf Hgraph) as (bf & func & Hfind & Hbf).
  destruct (program_lowered _ _ _ Hext Hlower _ _ _ Hbf) as (mf & Hlf). destruct (Hsig _ _ Hlf) as [Hshape Hparams].
  unfold prepare_frame. unfold mbind at 1, Act_bind at 1, gets at 1. destruct (_ <? _); [done|].
  unfold mbind at 1, Act_bind at 1. pose proof (quietly_charge limits false rt) as Hq.
  destruct (charge_action _ _ rt) as [[[]|t0|] rt1]; [|done..]. destruct Hq as ([Hcells Hblock] & E1).
  unfold mbind at 1, Act_bind at 1. rewrite Hfind. cbn [ok_or attempt]. rewrite Hres.
  unfold mbind at 1, Act_bind at 1. rewrite (cr_registers _ _ _ Hcu). pose proof Hr0 as Hr0'. unfold register_type in Hr0'. rewrite Hr0'. cbn [ok_or attempt].
  replace (match shape with Direct => _ | ContractAssertion => _ end) with true
    by (destruct shape; cbn in Hshape; [|destruct Hshape as [-> ->]]; by rewrite ?bool_decide_eq_true_2).
  assert (length (in_operands i) = length (bf_parameter_registers bf)) as Hcount
    by (by rewrite (Forall2_length _ _ _ Hvalues), (Forall2_length _ _ _ Htyped), (Forall2_length _ _ _ Hparams)).
  unfold len. rewrite Hcount, N.eqb_refl. cbn [negb orb].
  unfold mbind at 1, Act_bind at 1, gets at 1. unfold mbind at 1, Act_bind at 1, modify at 1.
  destruct (lowered_body_checked _ _ _ _ Hlf) as (gif & ef & gf & Hbodyf & Egf).
  pose proof (mask_dead_once _ _ _ _ _ Hfound Hi) as Hdead.
  pose proof (bind_operands_ok limits (mask (compute (bf_blocks bc)) (block rt) (cu_pc cu)) (in_operands i) Hdead (registers rt)
    (in_operands i) (bf_parameter_registers bf) values [] (open_frame bf frames rt1) (set_cells [] rt1) eq_refl Hcount Hvalues) as Hb.
  unfold bound in Hb. unfold mbind at 1, Act_bind at 1. unfold enumerate. change (len []) with 0 in Hb.
  assert (NoDup (bf_parameter_registers bf)) as Hnd.
  { eapply (numbered_NoDup _ _ _ _ _ _ Hbodyf); [apply (do_parameters _ _ (body_once _ _ _ _ Hlf))|].
    rewrite (em_parameters _ _ _ _ (lb_emitted _ _ _ _ Hlf)). apply (lb_parameters _ _ _ _ Hlf). }
  assert (Forall (fun p => (N.to_nat p < length (registers (open_frame bf frames rt1)))%nat) (bf_parameter_registers bf)) as Hbounds.
  { cbn. rewrite length_replicate. apply Forall_forall. intros p [j Hj]%list_elem_of_lookup_1.
    destruct (Forall2_lookup_r _ _ _ _ _ Hparams Hj) as (w & _ & Hw). unfold register_type in Hw. by apply lookup_lt_Some in Hw. }
  assert (after (mask (compute (bf_blocks bc)) (block rt) (cu_pc cu)) (in_operands i) (fun j => j < 0) (registers rt) (registers (set_cells [] rt1))) as Ha0
    by (cbn; rewrite E1; apply after_refl).
  specialize (Hb Ha0 Hnd Hbounds). destruct (bind_operands _ _ _ _ _) as [[child|t0|] rt2]; [|done..].
  destruct Hb as ([_ Hblock2] & Hafter & Hbc & Hcc & Hlc & _ & Hheld). cbn in Hblock2, Hbc, Hcc. rewrite Hblock in Hblock2. cbn [mret Act_ret opens].
  split_and!.
  - destruct (frame_at_entry root Hprogram Σ graphf mf bf (registers child) ts values) as (gi2 & e2 & g2 & Eg2 & Hbody2 & Hframe); try done.
    + by eapply program_graph.
    + rewrite Hlc. cbn. by rewrite length_replicate.
    + exists bf, mf, gi2, e2, g2. rewrite Hbc. split; [|done]. split; [by rewrite Eg2|done..].
  - congruence.
  - exists bc, m, gi, entry, g, t. cbn [su_current su_shape su_result_register su_runtime]. split.
    { destruct Hcu as [H1 H2 H3 H4]. by split. }
    split_and!; [done|done|by apply lookup_lt_Some in Hr0'|]. rewrite Hblock2. exists (next c id o), found, blk, c0. split_and!; [done| |done].
    eapply (ready_after _ _ _ _ _ (registers rt)); [exact Hready|exact Hfound|exact Hi|by destruct He|exact Hres|exact Hafter].
Qed.

(** ** What a call is judged on *)

Lemma judged_family c opcode immediate ts declared t :
  judge_extended_operation c opcode immediate ts declared = Ok t -> judge_family c opcode immediate ts declared = Ok t.
Proof using Type.
  unfold judge_extended_operation. intros (_ & _ & (d & Hd & (_ & _ & [= <-])%bind_Ok)%bind_Ok)%bind_Ok. exact Hd.
Qed.

Lemma signature_function context f ps t effects :
  function_signature context f = Ok (ps, t, effects) -> exists graph, find_function (lc_functions context) f = Some graph.
Proof using Type.
  unfold function_signature. intros (graph & Hg%ok_or_Ok & _)%bind_Ok. apply bind_Some in Hg as (graph' & Hg & _). by exists graph'.
Qed.

Lemma call_opens m bc gi entry g Σ rt cu frames c found blk c0 i id o r0 t ts values :
  current_ok cu bc (gi_function gi) -> body root m bc gi entry g ->
  ready root m bc gi Σ (registers rt) (block rt) (cu_pc cu) c -> bb_instructions found !! cu_pc cu = Some i ->
  executing root m bc gi entry g Σ (registers rt) (block rt) (cu_pc cu) c found blk c0 i id o r0 t ts values ->
  op_opcode o = OpCallDirect ->
  opens Σ rt cu (prepare_call limits lf i (cu_register_types cu) frames (mask (compute (bf_blocks bc)) (block rt) (cu_pc cu)) rt).
Proof using Hext Hlower Hprogram.
  intros Hcu Hbody Hready Hi He Ho. pose proof He as [_ Hop Himm _ _ _ _ Hj _ _ _ Hnext _]. rewrite Ho in Hj, Hop.
  pose proof (pt_code _ _ _ _ _ _ _ _ _ _ _ _ Hnext) as Hfound. apply judged_family in Hj. cbn [judge_family] in Hj. unfold judge_call in Hj.
  apply bind_Ok in Hj as (reference & Hr & Hj). apply bind_Ok in Hj as (_ & _ & Hj). apply bind_Ok in Hj as ([[ps result] effects] & Hs & Hj).
  apply bind_Ok in Hj as (_ & ->%ensure_Ok%bool_decide_eq_true_1 & [= ->]).
  unfold function_immediate in Hr. rewrite <- Himm in Hr. unfold prepare_call. destruct (in_immediate i) as [| | | | | |] eqn:Ei; try done. injection Hr as ->.
  destruct (signature_function _ _ _ _ _ Hs) as [graphf Hgraph].
  eapply prepare_frame_opens; try done.
  - eapply instruction_calls; [exact Hfound|exact Hi|]. unfold called_by. by rewrite Ei, Hop, N.eqb_refl.
  - intros mf bf Hbf. destruct (signature_parameters root Hprogram (judge_context root (fg_entity_id (gi_function gi))) _ _ _ _ _ _ _
      eq_refl eq_refl Hgraph Hbf Hs) as [-> ?]. done.
Qed.

Lemma assert_opens m bc gi entry g Σ rt cu frames c found blk c0 i id o r0 t ts values :
  current_ok cu bc (gi_function gi) -> body root m bc gi entry g ->
  ready root m bc gi Σ (registers rt) (block rt) (cu_pc cu) c -> bb_instructions found !! cu_pc cu = Some i ->
  executing root m bc gi entry g Σ (registers rt) (block rt) (cu_pc cu) c found blk c0 i id o r0 t ts values ->
  op_opcode o = OpContractAssert ->
  opens Σ rt cu (prepare_contract_assert limits lf (es_contracts (source_of root)) i (cu_register_types cu) frames
    (mask (compute (bf_blocks bc)) (block rt) (cu_pc cu)) rt).
Proof using Hext Hlower Hprogram.
  intros Hcu Hbody Hready Hi He Ho. pose proof He as [_ Hop Himm _ _ _ _ Hj _ _ _ Hnext _]. rewrite Ho in Hj, Hop.
  pose proof (pt_code _ _ _ _ _ _ _ _ _ _ _ _ Hnext) as Hfound. apply judged_family in Hj. cbn [judge_family] in Hj. unfold judge_contract_assert in Hj.
  apply bind_Ok in Hj as (contract & Hr & Hj). apply bind_Ok in Hj as (definition & Hd%ok_or_Ok & Hj).
  apply bind_Ok in Hj as (_ & _ & Hj). apply bind_Ok in Hj as (_ & _ & Hj). apply bind_Ok in Hj as (predicate & _ & Hj).
  apply bind_Ok in Hj as (_ & _ & Hj). apply bind_Ok in Hj as ([[ps result] effects] & Hs & Hj).
  apply bind_Ok in Hj as (_ & Hg%ensure_Ok & [= <-]).
  apply andb_true_iff in Hg as [[->%bool_decide_eq_true_1 _]%andb_true_iff ->%bool_decide_eq_true_1].
  unfold entity_immediate in Hr. rewrite <- Himm in Hr. unfold prepare_contract_assert.
  destruct (in_immediate i) as [|x| | | | |] eqn:Ei; try done. injection Hr as ->.
  cbn [judge_context lc_contracts] in Hd. cbn [source_of es_contracts]. unfold mbind at 1, Act_bind at 1. rewrite Hd. cbn [ok_or attempt].
  destruct (signature_function _ _ _ _ _ Hs) as [graphf Hgraph].
  eapply prepare_frame_opens; try done.
  - eapply instruction_calls; [exact Hfound|exact Hi|]. unfold called_by. by rewrite Ei, Hop, N.eqb_refl, Hd.
  - intros mf bf Hbf. destruct (signature_parameters root Hprogram (judge_context root (fg_entity_id (gi_function gi))) _ _ _ _ _ _ _
      eq_refl eq_refl Hgraph Hbf Hs) as [Hb ?]. done.
Qed.
End frames.
