(* ===== verification/ContractsVm.v ===== *)
(** * Contract assertions from validation to lowering

    The assertions of a program that contract validation accepts are accepted by
    the judgement of the lowering, which reads the same entities on its own. *)

From S2P Require Import Prelude Bytes Ids BTree Ssmc Types TypeWalk TypeEnv ConstCheck CfgGraph Cfg.
From S2P Require Import ValueOrder TextRows EffectClosure Effects Contracts ContractsSound ContractsPlan ContractsExact.
From S2P Require Import VmJudge VmExec VmFrameCall.

(** What the judgement of function [unit] reads of a program *)
Definition program_context (types : Definitions) (units : list FunctionUnit) (constants : list ConstantDefinition)
    (globals : list GlobalValueDefinition) (contracts : list ContractDefinition) (adapters : list AdapterImport) (unit : FunctionUnit)
    : LoweringContext :=
  mkLoweringContext types constants globals (fu_function <$> units) (units ≫= fu_parameters) contracts adapters (unit_id unit).

Section judged.
Context (types : Definitions) (units : list FunctionUnit) (constants : list ConstantDefinition).
Context (globals : list GlobalValueDefinition) (contracts : list ContractDefinition) (tests : list TestCaseDefinition).
Context (adapters : list AdapterImport) (index : ContractIndex).
Hypothesis Hindex : contracts_ok units constants globals contracts tests index.

Lemma parameters_sublist : prm_entity_id <$> (units ≫= fu_parameters) `sublist_of` (units ≫= unit_ids).
Proof using Type.
  clear. induction units as [|u l IH]; [done|]. cbn [mbind list_bind]. rewrite fmap_app. apply sublist_app; [|done].
  unfold unit_ids. apply sublist_cons. by apply sublist_inserts_r.
Qed.

Lemma units_sublist : unit_id <$> units `sublist_of` (units ≫= unit_ids).
Proof using Type.
  clear. induction units as [|u l IH]; [done|]. cbn. apply sublist_skip. by apply sublist_inserts_l.
Qed.

Lemma found_parameter predicate id t :
  predicate ∈ units -> HasParameter predicate id t ->
  exists p, find_first (fun candidate => prm_entity_id candidate =? id)%N (units ≫= fu_parameters) = Some p /\ prm_value_type p = t.
Proof using Hindex.
  intros Hu (p & Hp & Hid & Ht). exists p. split; [|done]. apply find_unique; [|apply list_elem_of_bind; by exists predicate|done].
  apply (sublist_NoDup _ (units ≫= unit_ids)); [apply Hindex|apply parameters_sublist].
Qed.

Lemma found_function predicate id :
  IsUnit units id predicate -> find_first (fun graph => fg_entity_id graph =? id)%N (fu_function <$> units) = Some (fu_function predicate).
Proof using Hindex.
  intros [Hu Hid]. apply find_unique; [|by apply list_elem_of_fmap_2|done]. rewrite <- list_fmap_compose.
  apply (sublist_NoDup _ (units ≫= unit_ids)); [apply Hindex|apply units_sublist].
Qed.

Lemma ValueType_unique unit value t t' : unit ∈ units -> ValueType unit value t -> ValueType unit value t' -> t = t'.
Proof using Hindex.
  intros Hu H1%(value_type_Ok _ _ _ _ _ _ Hindex _ _ _ Hu) H2%(value_type_Ok _ _ _ _ _ _ Hindex _ _ _ Hu). congruence.
Qed.

(** The signature of a predicate, from the types of the operands *)
Lemma assertion_signature unit predicate operands ids ts :
  unit ∈ units -> predicate ∈ units ->
  Forall2 (fun operand id => exists t, HasParameter predicate id t /\ ValueType unit operand t) operands ids ->
  Forall2 (ValueType unit) operands ts ->
  map_res (fun parameter =>
      found ← ok_or LeImmediateMismatch (find_first (fun candidate => prm_entity_id candidate =? parameter)%N (units ≫= fu_parameters));
      Ok (prm_value_type found)) ids = Ok ts.
Proof using Hindex.
  intros Hu Hp H. revert ts. induction H as [|v id vs ids (t & Ht & Hv) _ IH]; intros ts Hts; inversion Hts as [|? t' ? ts' Hv' Hts']; subst; [done|].
  cbn [map_res]. destruct (found_parameter _ _ _ Hp Ht) as (p & -> & <-). cbn [ok_or mbind result_bind]. rewrite (IH ts' Hts').
  by rewrite (ValueType_unique _ _ _ _ Hu Hv Hv').
Qed.

Lemma valid_assertion_judged unit operation ts :
  unit ∈ units -> (forall contract, contract ∈ contracts -> ValidContract units globals contract) ->
  ValidAssertion units contracts unit operation -> Forall2 (ValueType unit) (op_operands operation) ts ->
  judge_contract_assert (program_context types units constants globals contracts adapters unit) (op_immediate operation) ts = Ok contract_assert_result.
Proof using Hindex.
  intros Hu Hcs (c & p & Him & Hc & Ht & Hp & Ho & _) Hts. destruct (Hcs c Hc) as (u & p' & [Hu' Hid'] & Hp' & F).
  assert (p' = p) as -> by (destruct Hp, Hp'; eapply (unit_id_inj _ _ _ _ _ _ Hindex); [done..|congruence]).
  destruct F as [Fl Fd _ Fp Fe Fc Fb Fa _ Fs]. pose proof (Forall2_length _ _ _ Ho) as Hlo. pose proof (Forall2_length _ _ _ Hts) as Hlt.
  unfold judge_contract_assert. rewrite Him. cbn [entity_immediate mbind result_bind program_context lc_contracts lc_function lc_functions].
  assert (find_first (fun candidate => cd_entity_id candidate =? cd_entity_id c)%N contracts = Some c) as ->.
  { apply find_unique; [|done|done]. apply strictly_sorted_NoDup, Hindex. }
  cbn [ok_or mbind result_bind]. rewrite Fl, Ht, N.eqb_refl. rewrite (bool_decide_true (None = None)) by done.
  assert (match cd_contract_kind c with CKPrecondition | CKPostcondition | CKResultPredicate => true | _ => false end = true) as -> by by destruct (cd_contract_kind c).
  assert ((cd_predicate c =? unit_id unit)%N = false) as ->.
  { apply N.eqb_neq. destruct Hp as [_ Hp]. congruence. }
  rewrite (found_function p _ Hp). cbn [andb negb ensure ok_or mbind result_bind]. rewrite Fe, Fc, !bool_decide_true by done. cbn [andb ensure mbind result_bind].
  unfold function_signature. cbn [program_context lc_functions lc_parameters]. rewrite (found_function p _ Hp). cbn [mbind option_bind].
  rewrite Fp. cbn [ok_or mbind result_bind]. rewrite (assertion_signature unit p _ _ ts Hu (proj1 Hp) Ho Hts). cbn [mbind result_bind].
  rewrite Fb, !bool_decide_true by done. unfold len in *. replace (length (cd_bindings c)) with (length ts) by lia. by rewrite N.eqb_refl.
Qed.
End judged.

(** C4: in a program that contract validation accepts, the lowering's judgement of
    a contract assertion is determined by the types of its operands, which are those of
    the predicate's parameters: with no local cell among them it is accepted, with the
    result type the operation declares; with one it is refused for its signature, since
    validation has no rule about cells and the lowering lets only [cell_get] and
    [cell_set] take them. *)
Theorem accepted_assertions_judged types units effects requirements adapters type_definitions constants globals contracts tests
    affected_functions required_tests report unit operation ts :
  validate_contract_test_program types units effects requirements adapters type_definitions constants globals contracts tests
    affected_functions required_tests = Ok report ->
  unit ∈ units -> operation ∈ fu_operations unit -> op_opcode operation = OpContractAssert ->
  Forall2 (ValueType unit) (op_operands operation) ts ->
  judge_extended_operation (program_context types units constants globals contracts adapters unit) (op_opcode operation)
    (op_immediate operation) ts (op_result_types operation)
  = if existsb contains_cell ts then Err LeSignatureMismatch else Ok contract_assert_result.
Proof.
  intros ([index Hi%build_contracts_ok] & _ & _ & Hv & _)%validated_exact Hu Ho Hop Hts.
  pose proof (vp_assertions _ _ _ _ _ _ _ _ _ Hv _ _ Hu Ho Hop) as Ha. unfold judge_extended_operation.
  rewrite Hop. destruct (existsb contains_cell ts); [done|]. cbn [andb negb ensure mbind result_bind judge_family].
  rewrite (valid_assertion_judged types _ _ _ _ _ adapters _ Hi _ _ _ Hu (vp_contracts _ _ _ _ _ _ _ _ _ Hv) Ha Hts). cbn [mbind result_bind].
  destruct Ha as (_ & _ & _ & _ & _ & _ & _ & ->). by rewrite bool_decide_true.
Qed.

(** A contract whose predicate reads a cell: it is accepted. *)
Module CellPlan.
Definition cell : TypeExpr := TLocalCell TBool.
Definition main : FunctionUnit := mkFunctionUnit
  (mkFunctionGraph 1 [] [10%N] contract_result [] 12 [12%N] [70%N] VPrivate)
  [mkParameterDef 10 1 PRFunction 0 cell]
  [mkBlock 12 1 [] [13%N] (TermReturn (mkReturnTerminator (VROperationResult (mkOperationResultRef 13 0)))) RCRequired]
  [mkOperation 13 12 0 OpContractAssert [VRParameter 10] [contract_result] (ImmEntity 70)].
Definition holds : FunctionUnit := mkFunctionUnit
  (mkFunctionGraph 2 [] [20%N] TBool [] 22 [22%N] [] VPrivate)
  [mkParameterDef 20 2 PRFunction 0 cell]
  [mkBlock 22 2 [] [23%N] (TermReturn (mkReturnTerminator (VROperationResult (mkOperationResultRef 23 0)))) RCRequired]
  [mkOperation 23 22 0 OpCellGet [VRParameter 20] [TBool] ImmNone].
Definition units : list FunctionUnit := [main; holds].
Definition contract : ContractDefinition := mkContractDefinition 70 1 CKPrecondition 2 [mkContractBinding 0 (CSParameter 10)] None.
Definition report : ContractTestReport := mkContractTestReport [70%N] [] [] PolicyIncomplete 1 8.

Lemma cell_plan_accepted : validate_contract_test_program ∅ units [] [] [] [] [] [] [contract] [] [1%N] [] = Ok report.
Proof. vm_compute. reflexivity. Qed.
End CellPlan.

(** A judged assertion, and one that is refused for its cell *)
Theorem accepted_assertions_judged_witness :
  judge_extended_operation (program_context ∅ Plan.units Plan.constants Plan.globals [Plan.contract] [] Plan.main) OpContractAssert
    (ImmEntity 70) [TBool] [contract_result] = Ok contract_assert_result /\
  judge_extended_operation (program_context ∅ CellPlan.units [] [] [CellPlan.contract] [] CellPlan.main) OpContractAssert
    (ImmEntity 70) [CellPlan.cell] [contract_result] = Err LeSignatureMismatch.
Proof.
  split.
  - apply (accepted_assertions_judged ∅ Plan.units [] [] [] [] Plan.constants Plan.globals [Plan.contract] [Plan.test] [1%N] [] Plan.report
      Plan.main (mkOperation 13 12 0 OpContractAssert [VRParameter 10] [contract_result] (ImmEntity 70)) [TBool]).
    + exact Plan.plan_accepted.
    + left.
    + left.
    + reflexivity.
    + constructor; [|constructor]. constructor. exists (mkParameterDef 10 1 PRFunction 0 TBool). split; [left|done].
  - apply (accepted_assertions_judged ∅ CellPlan.units [] [] [] [] [] [] [CellPlan.contract] [] [1%N] [] CellPlan.report
      CellPlan.main (mkOperation 13 12 0 OpContractAssert [VRParameter 10] [contract_result] (ImmEntity 70)) [CellPlan.cell]).
    + exact CellPlan.cell_plan_accepted.
    + left.
    + left.
    + reflexivity.
    + constructor; [|constructor]. constructor. exists (mkParameterDef 10 1 PRFunction 0 CellPlan.cell). split; [left|done].
Defined.
