(* ===== verification/VmRunSafe.v ===== *)
(** * The virtual machine: the safety of accepted programs

    A machine that runs a lowered program is in order: its frame is ready, each
    frame that waits is ready but for its result, and the cells have their types.
    A turn keeps this, so a run of an accepted program on validated inputs never
    faults, and a value it returns has the declared type. *)

From S2P Require Import Prelude State Bytes Ids BTree Ssmc Types TypeWalk TypeEnv ConstCheck CfgGraph Cfg CfgSafety Fingerprint ConstEncoding.
From S2P Require Import Repr VmInt VmText VmBridge VmJudge VmExec VmTyped VmMap VmHost VmSound VmAdmission VmBytecode VmLower VmLowering VmLowered.
From S2P Require Import VmValue VmOwned VmOwnedSound VmOwnedMap VmLiveness VmRun VmRunBounds VmInput VmInputSound VmFrame VmFrameStep VmFrameCall.
Set Warnings "-register-all".

Open Scope N_scope.

Section safe.
Context (blake3 sha256 : bytes -> bytes).
Hypothesis Hblake3 : forall b, len (blake3 b) = 32.
Hypothesis Hsha256 : forall b, len (sha256 b) = 32.
Context (root : LoweringInput) (lf : LoweredFunction) (limits : ExecutionLimits) (sole : Machine -> RuntimeValue -> bool).
Hypothesis Hext : is_extended (li_profile root) = true.
Hypothesis Hlower : lower_function blake3 root = Ok lf.
Hypothesis Hprogram : program_ok root.
#[local] Abbreviation types := (li_types root).
#[local] Abbreviation running := (running root lf).
#[local] Abbreviation waiting := (waiting root lf).
#[local] Abbreviation step := (VmRun.step blake3 sha256 limits lf (source_of root) sole).

(** Each waiting frame takes a value of the result's type of the frame above it. *)
Fixpoint stack_ok (Σ : list TypeExpr) (stack : list Suspended) (returned : TypeExpr) : Prop :=
  match stack with
  | [] => returned = bf_result_type (lf_bytecode lf)
  | parent :: stack => waiting Σ parent returned /\ stack_ok Σ stack (cu_result_type (su_current parent))
  end.

Definition machine_ok (m : Machine) : Prop :=
  exists Σ, cells_ok root Σ (cells (ma_runtime m)) /\
    running Σ (registers (ma_runtime m)) (block (ma_runtime m)) (ma_current m) /\
    stack_ok Σ (ma_stack m) (cu_result_type (ma_current m)).

Lemma waiting_prefix Σ Σ' parent t : Σ `prefix_of` Σ' -> waiting Σ parent t -> waiting Σ' parent t.
Proof using Type.
  intros HΣ (bc & m & gi & entry & g & t0 & Hcu & Hbody & Hshape & Hr & c & bb & blk & c0 & Hp & Hready & Honly).
  exists bc, m, gi, entry, g, t0. split_and!; [done..|]. exists c, bb, blk, c0. split_and!; [done| |done]. by eapply ready_prefix.
Qed.

Lemma stack_prefix Σ Σ' stack t : Σ `prefix_of` Σ' -> stack_ok Σ stack t -> stack_ok Σ' stack t.
Proof using Type.
  intros HΣ. revert t. induction stack as [|parent stack IH]; intros t; [done|]. intros [Hw Hs].
  split; [by eapply waiting_prefix|by apply IH].
Qed.

(** *** Returning *)

Lemma contract_value_typed held : has_type types (contract_assert_value held) contract_assert_result.
Proof using Type.
  destruct held; [apply ok_has_type; by apply leaf_has_type|apply err_has_type, builtin_error_has_type; by vm_compute].
Qed.

Lemma shaped_value Σ rv shape tc t rt :
  carries root Σ rv tc -> shape_type shape tc t ->
  exists value, ((match shape with
    | Direct => mret rv
    | ContractAssertion =>
        answer ← attempt (rv_value rv);
        held ← attempt (bool_operand answer);
        mret (rv_new (contract_assert_value held))
    end) : Act RuntimeValue) rt = (Go value, rt) /\ carries root Σ value t.
Proof using Type.
  intros (x & Hrv & Hx) Hshape. destruct shape; cbn in Hshape.
  - subst t. exists rv. split; [done|]. by exists x.
  - destruct Hshape as [-> ->]. apply register_typed_value in Hx; [|done]. apply has_type_bool in Hx as [held ->].
    exists (rv_new (contract_assert_value held)). unfold mbind at 1, Act_bind at 1. rewrite (ro_value _ _ Hrv). split; [done|].
    exists (contract_assert_value held). split; [|by apply has_type_register, contract_value_typed].
    apply rv_new_ok. destruct held; by vm_compute.
Qed.

Lemma returned_running Σ parent tc rv rt :
  waiting Σ parent tc -> carries root Σ rv tc -> registers rt = registers (su_runtime parent) -> block rt = block (su_runtime parent) ->
  match take_returned limits (Some rv) (su_result_register parent) (su_shape parent) rt with
  | (Go _, rt') => cells rt' = cells rt /\ running Σ (registers rt') (block rt') (su_current parent)
  | (Stop termination, _) => limit_stop termination
  | (Broken, _) => False
  end.
Proof using Type.
  intros (bc & m & gi & entry & g & t & Hcu & Hbody & Hshape & Hr & c & bb & blk & c0 & Hp & Hready & Honly) Hrv Hregs Hblock.
  unfold take_returned. unfold mbind at 1, Act_bind at 1. cbn [ok_or attempt].
  destruct (shaped_value Σ rv _ tc t rt Hrv Hshape) as (value & E & x & Hok & Hx).
  unfold mbind at 1, Act_bind at 1. rewrite E. unfold mbind at 1, Act_bind at 1, charge_units.
  destruct (charge_value limits _ rt) as [rt1|] eqn:Hc; [|done]. apply charge_value_same in Hc as (Hr1 & Hb1 & Hc1 & _).
  unfold mbind at 1, Act_bind at 1, modify, write, on_registers. cbn [registers count_instruction]. rewrite Hr1, Hregs.
  destruct (ready_write _ _ _ _ _ _ _ _ _ _ t value x Hready Honly Hr Hok Hx) as (regs' & Hw & Hready').
  rewrite Hw. cbn. split; [done|]. rewrite Hb1, Hblock. exists bc, m, gi, entry, g. split_and!; [done..|].
  by exists c, bb, blk, c0.
Qed.

(** *** A turn *)

(** What a turn comes to *)
Definition turns_well (result : Turn) : Prop :=
  match result with
  | Next m => machine_ok m
  | Ended (Success v) _ => has_type types v (fg_result_type (li_function root))
  | Ended InternalInvariant _ => False
  | Ended _ _ => True
  | Faulted _ => False
  end.

Lemma limit_ended termination rt : limit_stop termination -> turns_well (Ended termination rt).
Proof using Type. by destruct termination. Qed.

Lemma entry_result_plain x Σ :
  register_typed types Σ x (bf_result_type (lf_bytecode lf)) -> has_type types x (fg_result_type (li_function root)).
Proof using Hext Hlower.
  destruct (lowered_entry _ _ _ Hext Hlower) as [m Hm]. rewrite (em_result _ _ _ _ (lb_emitted _ _ _ _ Hm)).
  apply register_typed_value. pose proof (lb_result _ _ _ _ Hm) as Hr. unfold check_result_type in Hr.
  by destruct (contains_cell _).
Qed.

Lemma finish_well Σ rt rv m :
  returned rt = Some rv -> carries root Σ rv (cu_result_type (ma_current m)) -> cells_ok root Σ (cells rt) ->
  stack_ok Σ (ma_stack m) (cu_result_type (ma_current m)) -> turns_well (finish_function limits sole rt m).
Proof using Hext Hlower.
  intros Hret Hrv Hcells Hstack. unfold finish_function. destruct (ma_stack m) as [|parent stack]; rewrite Hret.
  - destruct Hrv as (x & Hok & Hx). rewrite (into_value_ok _ _ _ Hok). cbn in Hstack |- *. rewrite Hstack in Hx. by eapply entry_result_plain.
  - destruct Hstack as [Hw Hs].
    pose proof (returned_running Σ parent _ rv (adopt_frame (su_runtime parent) rt) Hw Hrv eq_refl eq_refl) as H.
    destruct (take_returned _ _ _ _ _) as [[[]|termination|] rt']; [|by apply limit_ended|done].
    destruct H as [Hc Hrun]. exists Σ. cbn [ma_runtime ma_stack ma_current]. rewrite Hc. split_and!; [exact Hcells|done|done].
Qed.

Lemma excused_same rt1 m :
  registers rt1 = registers (ma_runtime m) -> block rt1 = block (ma_runtime m) -> cells rt1 = cells (ma_runtime m) ->
  excused blake3 sha256 root (mkMachine rt1 (ma_stack m) (ma_current m)) -> excused blake3 sha256 root m.
Proof using Type. intros Hr Hb Hc. unfold excused. cbn [ma_runtime ma_current]. by rewrite Hr, Hb, Hc. Qed.

(** A point of the code of a frame that runs *)
Lemma running_at Σ regs b cu :
  running Σ regs b cu -> exists bc m gi entry g c found blk c0, current_ok root lf cu bc (gi_function gi) /\ body root m bc gi entry g /\
    point root m bc gi entry g b (cu_pc cu) c found blk c0 /\ ready root m bc gi Σ regs b (cu_pc cu) c.
Proof using Type. intros (bc & m & gi & entry & g & ? & ? & c & bb & blk & c0 & ? & ?). by exists bc, m, gi, entry, g, c, bb, blk, c0. Qed.

Lemma advance_running Σ regs b cu bc m gi entry g :
  current_ok root lf cu bc (gi_function gi) -> body root m bc gi entry g -> frame_ready root m bc gi entry g Σ regs b (S (cu_pc cu)) ->
  running Σ regs b (advance cu).
Proof using Type. intros [H1 H2 H3 H4] Hbody Hf. exists bc, m, gi, entry, g. split; [by split|done]. Qed.

Lemma dispatch_well m Σ bc mm gi entry g c found blk c0 :
  let rt := ma_runtime m in let cu := ma_current m in
  current_ok root lf cu bc (gi_function gi) -> body root mm bc gi entry g ->
  point root mm bc gi entry g (block rt) (cu_pc cu) c found blk c0 -> ready root mm bc gi Σ (registers rt) (block rt) (cu_pc cu) c ->
  bb_instructions found !! cu_pc cu = None -> cells_ok root Σ (cells rt) -> stack_ok Σ (ma_stack m) (cu_result_type cu) ->
  turns_well
    match dispatch_terminator limits (cu_blocks cu) (live_of lf (cu_func cu)) (bb_terminator found) (cu_result_type cu) rt with
    | (Go false, rt) => Next (mkMachine rt (ma_stack m) (rewind cu))
    | (Go true, rt) => finish_function limits sole rt m
    | (Stop termination, rt) => Ended termination (unwind rt (ma_stack m))
    | (Broken, rt) => Faulted rt
    end.
Proof using Hext Hlower.
  intros rt cu Hcu Hbody Hp Hready Hend Hcells Hstack. pose proof Hcu as [Hb Hblocks Hres Hregs].
  pose proof (dispatch_ready _ _ _ _ _ _ Hbody limits Σ rt _ _ _ _ _ Hp Hend Hready) as H.
  rewrite (live_of_body _ _ _ _ _ Hb), Hblocks, Hres. unfold dispatched in H.
  destruct (dispatch_terminator _ _ _ _ _ _) as [[[|]|termination|] rt']; [| |by destruct termination|done].
  - destruct H as (Hc & rv & Hret & Hrv). eapply (finish_well Σ); [done|fold cu; by rewrite Hres|by rewrite Hc|done].
  - destruct H as (Hc & c' & bb' & blk' & Hready' & Hp'). exists Σ. cbn [ma_runtime ma_stack ma_current]. rewrite Hc. split_and!; [done| |exact Hstack].
    exists bc, mm, gi, entry, g. split; [by split|]. split; [done|]. by exists c', bb', blk', c'.
Qed.

Lemma execute_well m Σ bc mm gi entry g c found blk c0 i :
  let rt := ma_runtime m in let cu := ma_current m in
  current_ok root lf cu bc (gi_function gi) -> body root mm bc gi entry g ->
  point root mm bc gi entry g (block rt) (cu_pc cu) c found blk c0 -> ready root mm bc gi Σ (registers rt) (block rt) (cu_pc cu) c ->
  bb_instructions found !! cu_pc cu = Some i -> cells_ok root Σ (cells rt) -> stack_ok Σ (ma_stack m) (cu_result_type cu) ->
  excused blake3 sha256 root m \/ turns_well
    match execute_instruction blake3 sha256 limits lf (source_of root) sole m i (block rt) rt with
    | (Go (Some (child, callee, result_register, shape)), rt) =>
        Next (mkMachine child (mkSuspended rt (advance cu) result_register shape :: ma_stack m) callee)
    | (Go None, rt) => Next (mkMachine rt (ma_stack m) (advance cu))
    | (Stop termination, rt) => Ended termination (unwind rt (ma_stack m))
    | (Broken, rt) => Faulted rt
    end.
Proof using Hblake3 Hsha256 Hext Hlower Hprogram.
  intros rt cu Hcu Hbody Hp Hready Hi Hcells Hstack. pose proof Hcu as [Hb Hblocks Hres Hregs].
  unfold execute_instruction. unfold mbind at 1, Act_bind at 1. pose proof (quietly_charge limits true rt) as Hq.
  destruct (charge_action _ _ rt) as [[[]|termination|] rt1]; [|by right; apply limit_ended|done].
  destruct Hq as ([Hc1 Hb1] & E1). cbn [source_of es_profile]. change (ma_current m) with cu. rewrite Hext, (live_of_body _ _ _ _ _ Hb).
  rewrite <- E1, <- Hb1 in Hready. rewrite <- Hb1 in Hp |- *. rewrite <- Hc1 in Hcells.
  destruct (executing_at _ _ _ _ _ _ Hbody _ _ _ _ _ _ _ _ _ Hp Hi Hready) as (id & o & r0 & t & ts & values & He).
  pose proof (ex_opcode _ _ _ _ _ _ _ _ _ _ _ _ _ _ _ _ _ _ _ _ _ He) as Hop.
  assert (forall result, opens root lf Σ rt1 cu result -> turns_well
    match ((entered ← (fun _ => result); mret (Some entered)) : Act (option (Runtime * Current * Register * ReturnShape))) rt1 with
    | (Go (Some (child, callee, result_register, shape)), rt) =>
        Next (mkMachine child (mkSuspended rt (advance cu) result_register shape :: ma_stack m) callee)
    | (Go None, rt) => Next (mkMachine rt (ma_stack m) (advance cu))
    | (Stop termination, rt) => Ended termination (unwind rt (ma_stack m))
    | (Broken, rt) => Faulted rt
    end) as Hopens.
  { intros [[[[[child callee] r] shape]|termination|] rt2] H; cbn; [|by apply limit_ended|done].
    destruct H as (Hrun & Hc & Hw). exists Σ. cbn [ma_runtime ma_stack ma_current]. rewrite Hc. by split_and!. }
  destruct (N.eqb_spec (in_opcode i) (Opcode_tag OpCallDirect)) as [Hcall|Hcall].
  { right. apply (Hopens (prepare_call _ _ _ _ _ _ rt1)). eapply (call_opens blake3); try done. apply Opcode_tag_inj. congruence. }
  destruct (N.eqb_spec (in_opcode i) (Opcode_tag OpContractAssert)) as [Hassert|Hassert].
  { right. apply (Hopens (prepare_contract_assert _ _ _ _ _ _ _ rt1)). eapply (assert_opens blake3); try done. apply Opcode_tag_inj. congruence. }
  destruct (instruction_ready blake3 sha256 Hblake3 Hsha256 limits root (sole m) Hprogram mm bc gi entry g Σ rt1 (cu_pc cu) found i cu (ma_stack m))
    as [Hex|H]; try done; [by apply (pt_code _ _ _ _ _ _ _ _ _ _ _ _ Hp)|by exists c, found, blk, c0| |].
  { left. by apply (excused_same rt1 m). }
  right. rewrite Hregs. unfold mbind at 1, Act_bind at 1.
  destruct (execute_extended _ _ _ _ _ _ _ _ _ rt1) as [[[]|termination|] rt2]; [|by apply limit_ended|done].
  destruct H as (Hb2 & Σ' & HΣ & Hcells' & Hframe). exists Σ'. cbn [ma_runtime ma_stack ma_current mret Act_ret]. rewrite Hb2. split_and!; [done| |].
  - by eapply advance_running.
  - by eapply stack_prefix.
Qed.

Lemma step_well m : machine_ok m -> excused blake3 sha256 root m \/ turns_well (step m).
Proof using Hblake3 Hsha256 Hext Hlower Hprogram.
  intros (Σ & Hcells & Hrun & Hstack).
  apply running_at in Hrun as (bc & mm & gi & entry & g & c & found & blk & c0 & Hcu & Hbody & Hp & Hready).
  unfold VmRun.step. rewrite (cr_blocks _ _ _ _ _ Hcu) at 1. rewrite (pt_code _ _ _ _ _ _ _ _ _ _ _ _ Hp).
  destruct (bb_instructions found !! cu_pc (ma_current m)) as [i|] eqn:Hi.
  - by eapply execute_well.
  - right. by eapply dispatch_well.
Qed.

(** *** Runs *)

(** A machine the run comes to *)
Definition reaches : Machine -> Machine -> Prop := rtc (fun m m' => step m = Next m').

Lemma run_well turns : forall m termination rt,
  machine_ok m -> run blake3 sha256 limits lf (source_of root) sole turns m = Some (termination, rt) ->
  (exists m', reaches m m' /\ excused blake3 sha256 root m') \/ turns_well (Ended termination rt).
Proof using Hblake3 Hsha256 Hext Hlower Hprogram.
  induction turns as [|turns IH]; intros m termination rt Hm H; [done|]. cbn [run] in H.
  destruct (step_well m Hm) as [Hex|Hw]; [left; by exists m|].
  destruct (step m) as [m'|t' rt'|rt'] eqn:E; [|by injection H as <- <-; right|done].
  destruct (IH m' termination rt Hw H) as [(m2 & Hreach & Hex)|?]; [|by right]. left. exists m2. split; [|done].
  by eapply rtc_l.
Qed.

(** *** The start *)

Lemma bind_inputs_ok : forall params inputs regs,
  length params = length inputs -> NoDup params -> Forall (fun p => (N.to_nat p < length regs)%nat) params ->
  Forall (fun v => value_weight v < U64_MAX) inputs ->
  exists regs', bind_inputs params inputs regs = Ok regs' /\ length regs' = length regs /\
    (forall r, r ∉ params -> regs' !! N.to_nat r = regs !! N.to_nat r) /\ Forall2 (holds regs') params inputs.
Proof using Type.
  clear. induction params as [|p params IH]; intros [|v inputs] regs Hl Hnd Hb Hw; try discriminate Hl.
  - exists regs. split_and!; [done..|constructor].
  - injection Hl as Hl. apply NoDup_cons in Hnd as [Hnp Hnd]. apply Forall_cons in Hb as [Hp Hb], Hw as [Hv Hw].
    destruct (IH inputs (<[N.to_nat p := Some (rv_new v)]> regs) Hl Hnd) as (regs' & E & Hlen & Hsame & Hheld); [|done|].
    { eapply Forall_impl; [exact Hb|]. intros q. by rewrite length_insert. }
    exists regs'. cbn [bind_inputs]. rewrite (write_register_Ok _ _ _ Hp). cbn [mbind result_bind]. split_and!; [done|by rewrite Hlen, length_insert| |].
    + intros q Hq. apply not_elem_of_cons in Hq as [Hne Hq]. rewrite (Hsame _ Hq). apply list_lookup_insert_ne. intros E'. apply Hne. lia.
    + constructor; [|done]. exists (rv_new v). split; [|by apply rv_new_ok]. rewrite (Hsame _ Hnp). by apply list_lookup_insert_eq.
Qed.

Lemma admitted_types m inputs :
  lowered_body root (li_function root) m (lf_bytecode lf) ->
  Forall2 (admitted_input root) inputs (fg_parameters (li_function root)) ->
  exists ts, Forall2 (register_typed types []) inputs ts /\
    Forall2 (fun t r => register_type (lf_bytecode lf) r = Some t) ts (bf_parameter_registers (lf_bytecode lf)).
Proof using Hprogram.
  intros Hm Hin. pose proof (body_parameter_types _ Hprogram _ _ _ Hm) as Hps. revert Hin.
  generalize (inputs). clear inputs. induction Hps as [|id r ids rs Hr _ IH]; intros inputs Hin.
  - apply Forall2_nil_inv_r in Hin as ->. exists []. by split.
  - apply Forall2_cons_inv_r in Hin as (v & vs & (p & Hp & Hid & Hv) & Hin & ->). destruct (IH vs Hin) as (ts & H1 & H2).
    exists (prm_value_type p :: ts). split; constructor; [by apply has_type_register|done| |done]. rewrite <- Hr.
    by rewrite (find_unique prm_entity_id _ _ _ (pg_parameters _ Hprogram) Hp Hid).
Qed.

Definition start (ceiling units : N) (regs : Registers) : Machine :=
  mkMachine (entry_runtime lf ceiling units regs) [] (enter_body (lf_bytecode lf) O).

Lemma start_ok ceiling request validated :
  Forall value_repr (rq_inputs request) -> validate_inputs blake3 root request = Ok validated ->
  exists regs,
    bind_inputs (bf_parameter_registers (lf_bytecode lf)) (rq_inputs request)
      (replicate (length (bf_register_types (lf_bytecode lf))) None) = Ok regs /\
    machine_ok (start ceiling (vi_value_units validated) regs).
Proof using Hext Hlower Hprogram.
  intros Hrepr Hvalid. destruct (validate_inputs_ok _ _ _ _ Hrepr Hvalid) as (Hin & _ & Hsum & Hunits & _).
  destruct (lowered_entry _ _ _ Hext Hlower) as [m Hm]. destruct (admitted_types _ _ Hm Hin) as (ts & Hts & Hrs).
  destruct (lowered_body_checked _ _ _ _ Hm) as (gi & e & g & Hbody & Eg).
  destruct (bind_inputs_ok (bf_parameter_registers (lf_bytecode lf)) (rq_inputs request)
    (replicate (length (bf_register_types (lf_bytecode lf))) None)) as (regs & E & Hl & _ & Hheld).
  - eapply eq_trans; symmetry; [exact (Forall2_length _ _ _ Hrs)|exact (Forall2_length _ _ _ Hts)].
  - eapply (numbered_NoDup _ _ _ _ _ _ Hbody); [apply (do_parameters _ _ (body_once _ _ _ _ Hm))|].
    rewrite (em_parameters _ _ _ _ (lb_emitted _ _ _ _ Hm)). apply (lb_parameters _ _ _ _ Hm).
  - rewrite length_replicate. apply Forall_forall. intros p [j Hj]%list_elem_of_lookup_1.
    destruct (Forall2_lookup_r _ _ _ _ _ Hrs Hj) as (w & _ & Hw). unfold register_type in Hw. by apply lookup_lt_Some in Hw.
  - apply Forall_forall. intros v Hv. pose proof (sum_with_elem value_weight _ _ Hv). rewrite Hsum in *.
    unfold MAX_EXECUTION_INPUT_VALUE_UNITS, U64_MAX, U64_LIMIT in *. lia.
  - exists regs. split; [done|]. exists []. cbn [start ma_runtime ma_stack ma_current entry_runtime registers block cells]. split_and!.
    + split; [constructor|done].
    + destruct (frame_at_entry root Hprogram [] (li_function root) m (lf_bytecode lf) regs ts (rq_inputs request)) as (gi2 & e2 & g2 & Eg2 & Hb2 & Hf2);
        try done; [by left|by rewrite Hl, length_replicate|].
      exists (lf_bytecode lf), m, gi2, e2, g2. split; [|done]. rewrite Eg2. by split.
    + done.
Qed.

Lemma run_core_safe ceiling request validated outcome :
  Forall value_repr (rq_inputs request) -> validate_inputs blake3 root request = Ok validated ->
  run_core blake3 sha256 limits lf (source_of root) sole (vi_value_units validated) (rq_inputs request) ceiling = Some outcome ->
  (exists regs m, bind_inputs (bf_parameter_registers (lf_bytecode lf)) (rq_inputs request)
      (replicate (length (bf_register_types (lf_bytecode lf))) None) = Ok regs /\
    reaches (start ceiling (vi_value_units validated) regs) m /\ excused blake3 sha256 root m) \/
  match co_termination outcome with
  | Success v => has_type types v (fg_result_type (li_function root))
  | InternalInvariant => False
  | ResourceLimit _ | Cancelled | Trap _ _ => True
  end.
Proof using Hblake3 Hsha256 Hext Hlower Hprogram.
  intros Hrepr Hvalid H. destruct (start_ok ceiling _ _ Hrepr Hvalid) as (regs & E & Hok). unfold run_core in H. rewrite E in H.
  destruct (ceiling =? 0); [right; by injection H as <-|]. destruct (_ <? peak_value_units _); [right; by injection H as <-|].
  apply bind_Some in H as ([termination rt] & Hrun & [= <-]). cbn [outcome_of co_termination].
  destruct (run_well _ _ _ _ Hok Hrun) as [(m & Hm & Hex)|Hw]; [left; by exists regs, m|right]. by destruct termination.
Qed.
End safe.

(** ** The theorem *)

(** C1: An accepted program is safe, if its entry blocks take no parameters.  It was
    lowered, its callees with it, under an extended profile; its inputs are values of
    machine integers and were validated.  It is assumed ([program_ok]) that the type
    definitions are well formed, and records have at most 2^32 fields; that every
    constant of the request is a value of its type, with its maps in canonical order
    (lowering checks the order only of the constants the entry itself reads); that
    indices and operand counts are those of machine integers; that no two parameters
    share an identifier, and no other function has the identifier of the entry; and that
    no function of the request has an entry block with block parameters, which neither
    the validator of graphs nor the lowering checks: no edge binds such a parameter, and
    a run that reads it faults.

    Then a run ends, and in one of three ways: with a value of the function's result
    type, with a trap, or at a limit or a cancellation.  It never ends in an internal
    fault: every register that is read holds a value of its type, every call finds its
    callee with the arguments it takes, every switch finds its case, and nothing that
    liveness let go is missed.  The exceptions, which [excused] names, are a run that
    comes to an instruction which the canonical codec refuses, and one that comes to an
    instruction whose result counts 2^64-1 units or more. *)
Theorem accepted_program_is_safe (blake3 sha256 : bytes -> bytes) (root : LoweringInput) (lf : LoweredFunction)
    (limits : ExecutionLimits) (sole : Machine -> RuntimeValue -> bool) (ceiling : N)
    (request : ExecutionRequest) (validated : ValidatedInputs)
    (Hblake3 : forall b, len (blake3 b) = 32) (Hsha256 : forall b, len (sha256 b) = 32)
    (Hextended : is_extended (li_profile root) = true) (Hlower : lower_function blake3 root = Ok lf)
    (Hprogram : program_ok root)
    (Hrepr : Forall value_repr (rq_inputs request)) (Hvalid : validate_inputs blake3 root request = Ok validated)
    (Hfuel : max_fuel limits < 2 ^ 64) (Hceiling : ceiling < 2 ^ 64 - 1) :
  exists outcome,
    run_core blake3 sha256 limits lf (source_of root) sole (vi_value_units validated) (rq_inputs request) ceiling = Some outcome /\
    ((exists regs m,
        bind_inputs (bf_parameter_registers (lf_bytecode lf)) (rq_inputs request)
          (replicate (length (bf_register_types (lf_bytecode lf))) None) = Ok regs /\
        reaches blake3 sha256 root lf limits sole (start lf ceiling (vi_value_units validated) regs) m /\
        excused blake3 sha256 root m) \/
     match co_termination outcome with
     | Success v => has_type (li_types root) v (fg_result_type (li_function root))
     | InternalInvariant => False
     | ResourceLimit _ | Cancelled | Trap _ _ => True
     end).
Proof.
  destruct (run_core_within blake3 sha256 limits lf (source_of root) sole (vi_value_units validated) (rq_inputs request) ceiling Hfuel Hceiling)
    as (outcome & Hrun & _).
  exists outcome. split; [done|]. by eapply run_core_safe.
Qed.

Lemma sample_program_ok : program_ok Sample.plain.
Proof.
  split.
  - intros id def H. exfalso. exact (lookup_empty_Some _ _ H).
  - intros id def fields H. exfalso. exact (lookup_empty_Some _ _ H).
  - constructor.
  - repeat constructor.
  - vm_compute. repeat constructor; set_solver.
  - intros graph H. vm_compute in H. by injection H as <-.
  - intros graph b _ Hb _ _. apply elem_of_cons in Hb as [->|[->|Hb%elem_of_nil]%elem_of_cons]; done.
Qed.

(** The entry calls the function that negates its parameter. *)
Lemma accepted_program_is_safe_witness :
  let request := mkExecutionRequest [CallSample.input] (CallSample.limits 100 100) in
  (exists outcome, run_core Sample.sample_hash Sample.sample_hash (CallSample.limits 100 100) Sample.lowered (source_of Sample.plain)
      (fun _ _ => true) 4 [CallSample.input] MAX_CALL_DEPTH = Some outcome /\
    ((exists regs m,
        bind_inputs (bf_parameter_registers (lf_bytecode Sample.lowered)) [CallSample.input]
          (replicate (length (bf_register_types (lf_bytecode Sample.lowered))) None) = Ok regs /\
        reaches Sample.sample_hash Sample.sample_hash Sample.plain Sample.lowered (CallSample.limits 100 100) (fun _ _ => true)
          (start Sample.lowered MAX_CALL_DEPTH 4 regs) m /\
        excused Sample.sample_hash Sample.sample_hash Sample.plain m) \/
     match co_termination outcome with
     | Success v => has_type ∅ v TBool
     | InternalInvariant => False
     | ResourceLimit _ | Cancelled | Trap _ _ => True
     end)) /\
  validate_inputs Sample.sample_hash Sample.plain request = Ok (mkValidatedInputs [replicate 32 x00] 4).
Proof.
  intros request. assert (validate_inputs Sample.sample_hash Sample.plain request = Ok (mkValidatedInputs [replicate 32 x00] 4)) as Hv
    by (vm_compute; reflexivity).
  split; [|exact Hv].
  apply (accepted_program_is_safe Sample.sample_hash Sample.sample_hash Sample.plain Sample.lowered (CallSample.limits 100 100)
    (fun _ _ => true) MAX_CALL_DEPTH request (mkValidatedInputs [replicate 32 x00] 4) (fun _ => eq_refl) (fun _ => eq_refl) eq_refl Sample.lowers sample_program_ok);
    [|exact Hv|reflexivity|reflexivity].
  repeat constructor.
Defined.
